(* ===== verification/_CoqProject ===== *)
-Q . S2P
Prelude.v
Bitops.v
Math.v
Memblock.v
MemblockRegions.v
MemblockRanges.v
MemblockIter.v
MemblockFind.v
MemblockSpec.v
FindDep.v
FindDepSpec.v
FindDepMatch.v
Strings.v
StringsSpec.v
Kstrtox.v
Sort.v
SortHeap.v
SortSpec.v
Bitmap.v
BitmapSpec.v
BitmapCount.v
IdMap.v
IdMapSpec.v
IdMapWrite.v
IdMapGroups.v
Groups.v
PosixAcl.v
PosixAclSpec.v
PosixAclMode.v
PosixAclXattr.v
Semaphore.v
Refcount.v
Rbtree.v
RbtreeSpec.v
RbtreeHeap.v
RbtreeInsert.v
RbtreeErase.v
RbtreeUnlink.v
RbtreeWalk.v
Timerqueue.v
Buddy.v
BuddySpec.v
PageBlock.v
BuddyFree.v
BuddyAlloc.v
BuddyFallback.v
PageAlloc.v
PageAllocSpec.v
PageAllocFill.v
PageAllocSys.v
PageAllocTrace.v
FileLocks.v
FileLocksSpec.v
FileLocksGroup.v
FileLocksWalk.v
FileLocksPosix.v
FileLocksFlock.v
FileLocksTrace.v
TimerWheel.v
TimerWheelIndex.v
TimerWheelSpec.v
TimerWheelOps.v
TimerWheelNext.v
TimerWheelTrace.v
TimerWheelRun.v
TimerWheelTheorems.v
SysvSem.v
SysvSemAtomic.v
SysvSemInv.v
SysvSemWake.v
SysvSemUpdate.v
SysvSemLock.v
SysvSemCalls.v
SysvSemTrace.v
SysvSemReach.v
SysvSemTheorems.v
