(* ===== verification/Prelude.v ===== *)
(** * A verification library for the core of cLinux

    cLinux is the Linux kernel cut into components that are compiled on their
    own and linked by a boot loader; a host program works out the order in
    which they are started. This library models the parts of src/ whose
    behaviour is a computation on data: the allocator of early boot, the page
    allocator, the library routines, the id maps, groups and access lists that decide
    permissions, file locks, semaphores of the kernel and of System V, reference
    counts, timer queues, the timer wheel and the dependency tool.

    ** Conventions

    A definition has the name of the C function it translates. A loop of a
    function is a fixpoint of its own, and a branch that is long is a
    definition that the function calls. An integer of the C program is a [Z],
    truncated with [u8] to [u64] or sign-extended with [s8] to [s64] where the
    C type wraps. State is passed explicitly: a [Record] per structure, memory
    as a map from addresses to bytes (Strings.v, Sort.v, PosixAcl.v) or to
    nodes (Rbtree.v). The [outcome] monad below has the results [Ok], [Panic]
    (BUG_ON, exit, a failed assert, a NULL or out of range access) and [Fuel].

    Fuel bounds loops that do not recurse on a counter. Every theorem that
    says a routine returns gives the fuel that is enough and concludes [Ok],
    so [Fuel] and [Panic] are ruled out: the length of the string for string
    loops, 3 num + size + 2 for sort, the number of regions for the region
    loops, the number of modules for the traversal of dependencies,
    2 log2 (n + 1) + 1 for the loops on a red-black tree of n nodes, two rounds
    for the retry loop of the page allocator, the depth of the forest of
    waiters for the searches along blocked file locks, the length of the queue
    of a set for the System V semaphores. The softirq of the timer
    wheel is fuelled by a bound that its theorem states to exist, since it
    depends on what the functions of the timers do. Growing a region array
    reserves the new array, which can grow an array again; the model follows 8
    nested growths. The theorems on ranges are about arrays
    that have room for the call or may not grow yet; one theorem
    runs a growth.

    ** The components and their files

    - Boot memory (src/memblock/src/memblock.c, include/linux/memblock.h).
      Memblock.v has the arrays of regions, the operations and iterators;
      MemblockRegions.v the invariant of an array (sorted, disjoint, nonempty
      regions) and the set of addresses it covers; MemblockRanges.v adding,
      isolating and removing ranges; MemblockIter.v the iterators over free
      memory; MemblockFind.v the search for a free block; MemblockSpec.v the
      theorems: sequences of calls refine union and difference of sets, blocks
      handed out are disjoint and were free, the search is sound, complete and
      top-down returns the highest block, and growing an array can place it
      inside the area that is being reserved.
    - Pages (src/page_alloc/src/page_alloc.c, with the bitmap writer of
      src/paging/src/page_alloc.c). Buddy.v has the free lists of a zone, the
      page fields, freeing, splitting and the fallback between migrate types;
      PageAlloc.v the lists of a CPU, [rmqueue], the preparation of freed pages,
      the watermark check and the pageblocks reserved for atomic requests.
      BuddySpec.v has the invariant of the lists and the two steps of taking a
      block off a list and putting one on; PageBlock.v the bitmap of pageblock
      types; BuddyFree.v, BuddyAlloc.v and BuddyFallback.v freeing and
      allocating, which change the set of free pages by the block asked for and
      keep the lists coalesced; PageAllocSpec.v and PageAllocFill.v draining and
      filling the lists of a CPU; PageAllocSys.v a zone's part of allocating and
      freeing; PageAllocTrace.v the system of a zone and its clients, with the
      theorems: no page is in two hands or lost, nothing panics, a free run is
      found unless it lies in a block reserved for atomic requests, and a passed
      watermark check means a block, with the one case in which a request of an
      OOM victim is refused all the same.
    - Library routines (src/lib/src, src/math/src). Bitops.v: bit searches in
      a word. Math.v: gcd, lcm and division by reciprocal. Strings.v and
      StringsSpec.v: string.c, its word-at-a-time paths against the byte-wise
      meaning. Kstrtox.v: text to integers, exact results, overflow and syntax
      errors, and the round trip with printed numbers. Sort.v, SortHeap.v and
      SortSpec.v: heapsort on bytes in memory and binary search. Bitmap.v,
      BitmapSpec.v and BitmapCount.v: bitmaps, searches, population counts,
      areas.
    - Red-black trees (src/lib/src/rbtree.c, include/linux/rbtree.h,
      rbtree_augmented.h) and timer queues (src/timerqueue/src/timerqueue.c).
      Rbtree.v has the operations on a heap of nodes; RbtreeSpec.v the tree a
      heap represents, the red-black invariant, its height bound and paths
      from a node to the root; RbtreeHeap.v the reasoning on pointer writes;
      RbtreeInsert.v, RbtreeErase.v and RbtreeUnlink.v insertion and erasure,
      which keep the invariant and the order; RbtreeWalk.v traversal and
      replacement. Timerqueue.v is a client: its queue refines a sorted list.
    - Id maps and groups (src/user_namespace/src/user_namespace.c,
      src/groups/src/groups.c). IdMap.v: the maps, their lookups and
      [map_write], which sorts with Sort.v; IdMapSpec.v: lookups in both
      directions against the extents; IdMapWrite.v: a write installs the
      composition with the map of the parent or changes nothing;
      IdMapGroups.v: an unprivileged gid map rules out setgroups for good;
      Groups.v: setgroups and membership, on top of sort and the id maps.
    - Access control lists (src/posix_acl/src/posix_acl.c). PosixAcl.v: the
      operations; PosixAclSpec.v: validity and the access check against the
      POSIX algorithm; PosixAclMode.v: mode bits, creation and chmod;
      PosixAclXattr.v: storing a list as bytes through the id maps.
    - File locks (src/locks/src/locks.c). FileLocks.v has the structures in a
      heap, the lists of a file, the links of blocked requests and the
      operations on POSIX and flock locks; FileLocksSpec.v the invariant of the
      links and blocking; FileLocksGroup.v the locks of one owner while a
      request is placed among them; FileLocksWalk.v the walk of
      [posix_lock_inode] over the list and what follows it; FileLocksPosix.v the
      invariant of POSIX locks and the result of a request byte by byte;
      FileLocksFlock.v the same for flock; FileLocksTrace.v the machine of all
      requests on a file, with the theorems: locks exclude each other, every
      request returns with the stated effect, ranges from user space do not
      wrap, closing drops the owner's locks and the deadlock search is exact.
    - The timer wheel (src/time/src/timer.c). TimerWheel.v has the base with
      its buckets and pending bitmap (through Bitmap.v), the operations on
      timers and the softirq; TimerWheelIndex.v the time at which a bucket
      expires and the index computations against it; TimerWheelSpec.v the
      invariant and the clock; TimerWheelOps.v linking, unlinking and
      [__mod_timer]; TimerWheelNext.v the search for the next event and the
      collection of expired buckets; TimerWheelTrace.v the machine in which
      other contexts run between the calls of timer functions, as a service of
      timers with deadlines; TimerWheelRun.v [__run_timers] with arbitrary
      timer functions; TimerWheelTheorems.v the theorems: the refinement of
      the service, no early expiry, exact search, bounded rounding, and the
      softirq returns and calls what is due while ticks arrive; the same-bucket
      shortcut of [__mod_timer], which fires a timer that the softirq holds
      early, or loses one that was called or stopped before the lock was taken.
    - System V semaphores (src/ipc_sem/src/sem.c). SysvSem.v has a set with
      its queues, the waiting requests, the adjustments of processes, the two
      paths that perform operations, the routines that wake requests, the two
      kinds of lock and the system calls; SysvSemAtomic.v both paths against
      operations executed one after another; SysvSemInv.v the invariant of the
      queues and the execution of requests one after another; SysvSemWake.v and
      SysvSemUpdate.v what waking executes and that nothing that could proceed
      is left waiting; SysvSemLock.v the merging and splitting of queues with
      the lock, and the place where a request waits; SysvSemCalls.v and
      SysvSemTrace.v the calls; SysvSemReach.v the removal of a set and the
      machine of all calls; SysvSemTheorems.v the theorems: operations are
      atomic, calls and the requests they allow take effect one after another,
      no sleeping call is forgotten, values stay in range, the exit of a process
      and the removal of a set, and a count of waiters that is out of date.
    - Synchronisation. Semaphore.v (src/semaphore/src/semaphore.c): critical
      sections as steps, tokens are conserved and waiters are served in order.
      Refcount.v (include/linux/refcount.h, src/refcount/src/refcount.c):
      atomic accesses as steps, saturation is kept under the documented bound,
      to which the uses of [refcount_dec_not_one] count, since it never resets.
    - The dependency tool (src/tools/find_dep_c/main.c). FindDep.v: modules,
      symbols and the traversal; FindDepSpec.v: the traversal lists what the
      top component needs, dependencies first, leaves it undone on a cycle, and
      exits only when an existing profile lacks a dependency;
      FindDepMatch.v: symbol matching, with the inputs on which it reports a
      wrong ambiguity or does not end.

    ** Code outside the model

    What a routine takes from code that is not modelled is an argument: the
    allocator of a grown array, the capability checks of a caller, pending
    signals, comparison and exchange functions, the text copied from user
    space, the functions of timers. Hypotheses on them are stated with the
    section or the theorem that uses them, and a witness instantiates them.

    ** Not modelled

    The object allocators, page tables, the scheduler, the virtual
    file system, file systems, the block layer, networking, drivers, traps and
    boot code: their behaviour is that of hardware registers, interrupts, RCU
    and many locks over large pointer structures. Formatted output (vsprintf),
    the remaining containers (radix tree, xarray, idr, interval tree), hash
    functions and checksums could be added in the style of the files here. Of
    the modelled parts: zonelists, reclaim, compaction and compound pages of
    the page allocator, migration of timers between CPUs, leases, mandatory
    locking, lock managers and the waiting loops of file locks, the identifiers,
    permissions and statistics of semaphore sets and the races of their calls
    before the lock is taken, debug output, warnings that only print, memory
    ordering and the RCU variants of the tree operations, callbacks of
    augmented trees, and the hand-over of boot memory to the page
    allocator. *)

From stdpp Require Import base numbers list option.
From Stdlib Require Import ZArith Lia.

Open Scope Z_scope.

(** ** Machine words

    A C integer of width [w] is a [Z]; an unsigned operation that can leave
    the width is followed by one of these truncations, a conversion to a
    signed type by one of the sign extensions. *)

Definition u8 (x : Z) : Z := x mod 2 ^ 8.
Definition u16 (x : Z) : Z := x mod 2 ^ 16.
Definition u32 (x : Z) : Z := x mod 2 ^ 32.
Definition u64 (x : Z) : Z := x mod 2 ^ 64.

Definition sext (w x : Z) : Z := (x + 2 ^ (w - 1)) mod 2 ^ w - 2 ^ (w - 1).
Definition s8 (x : Z) : Z := sext 8 x.
Definition s16 (x : Z) : Z := sext 16 x.
Definition s32 (x : Z) : Z := sext 32 x.
Definition s64 (x : Z) : Z := sext 64 x.

Definition ULONG_MAX : Z := 2 ^ 64 - 1.
Definition U32_MAX : Z := 2 ^ 32 - 1.
Definition INT_MAX : Z := 2 ^ 31 - 1.

(** The result of a routine that can hit [BUG_ON] or a loop whose iteration
    count the model bounds: [Ok], the kernel panics, the fuel ran out. *)
Inductive outcome (A : Type) : Type :=
| Ok (a : A)
| Panic
| Fuel.

Arguments Ok {A} _.
Arguments Panic {A}.
Arguments Fuel {A}.

#[global] Instance outcome_ret : MRet outcome := λ A a, Ok a.
#[global] Instance outcome_bind : MBind outcome := λ A B f m,
  match m with Ok a => f a | Panic => Panic | Fuel => Fuel end.
#[global] Instance outcome_fmap : FMap outcome := λ A B f m,
  match m with Ok a => Ok (f a) | Panic => Panic | Fuel => Fuel end.

(** ** Tactics *)

(** Case split on the boolean comparisons of an [if] in the goal. *)
Ltac zcase :=
  match goal with
  | |- context [if ?b then _ else _] =>
      match b with
      | ?x <? ?y => destruct (Z.ltb_spec x y)
      | ?x <=? ?y => destruct (Z.leb_spec x y)
      | ?x =? ?y => destruct (Z.eqb_spec x y)
      | _ => destruct b eqn:?
      end
  end.

Ltac zcase_in H :=
  match type of H with
  | context [if ?b then _ else _] =>
      match b with
      | ?x <? ?y => destruct (Z.ltb_spec x y)
      | ?x <=? ?y => destruct (Z.leb_spec x y)
      | ?x =? ?y => destruct (Z.eqb_spec x y)
      | _ => destruct b eqn:?
      end
  end.

(** Powers of two with literal exponents, computed. *)
Ltac pow2 :=
  repeat match goal with
  | |- context [2 ^ (Zpos ?p)] =>
      let v := eval vm_compute in (2 ^ (Zpos p)) in change (2 ^ (Zpos p)) with v
  | H : context [2 ^ (Zpos ?p)] |- _ =>
      let v := eval vm_compute in (2 ^ (Zpos p)) in
      change (2 ^ (Zpos p)) with v in H
  end.

(** ** Words: truncation is the identity inside the width *)

Create HintDb words.

Lemma u8_id x : 0 ≤ x < 2 ^ 8 → u8 x = x.
Proof. apply Z.mod_small. Qed.

Lemma u16_id x : 0 ≤ x < 2 ^ 16 → u16 x = x.
Proof. apply Z.mod_small. Qed.

Lemma u32_id x : 0 ≤ x < 2 ^ 32 → u32 x = x.
Proof. apply Z.mod_small. Qed.

Lemma u64_id x : 0 ≤ x < 2 ^ 64 → u64 x = x.
Proof. apply Z.mod_small. Qed.

Lemma u32_range x : 0 ≤ u32 x < 2 ^ 32.
Proof. apply Z.mod_pos_bound. lia. Qed.

Lemma u64_range x : 0 ≤ u64 x < 2 ^ 64.
Proof. apply Z.mod_pos_bound. lia. Qed.

Lemma sext_id w x : 0 < w → - 2 ^ (w - 1) ≤ x < 2 ^ (w - 1) → sext w x = x.
Proof.
  intros Hw Hx. unfold sext.
  assert (Hp : 2 ^ w = 2 * 2 ^ (w - 1)).
  { replace w with (Z.succ (w - 1)) at 1 by lia. rewrite Z.pow_succ_r; lia. }
  rewrite Z.mod_small; lia.
Qed.

Lemma s64_id x : - 2 ^ 63 ≤ x < 2 ^ 63 → s64 x = x.
Proof. intros. unfold s64. apply sext_id; lia. Qed.

(** ** Masks *)

Lemma land_ones_mod x k : 0 ≤ k → Z.land x (2 ^ k - 1) = x mod 2 ^ k.
Proof.
  intros. rewrite <- Z.land_ones by done. f_equal. rewrite Z.ones_equiv. lia.
Qed.

Lemma shiftr_div x k : 0 ≤ k → Z.shiftr x k = x / 2 ^ k.
Proof. apply Z.shiftr_div_pow2. Qed.

Lemma shiftl_mul x k : 0 ≤ k → Z.shiftl x k = x * 2 ^ k.
Proof. apply Z.shiftl_mul_pow2. Qed.

Lemma lor_range n a b :
  0 ≤ n → 0 ≤ a < 2 ^ n → 0 ≤ b < 2 ^ n → 0 ≤ Z.lor a b < 2 ^ n.
Proof.
  intros Hn Ha Hb. assert (0 ≤ Z.lor a b) by (apply Z.lor_nonneg; lia).
  split; [done|]. rewrite <- (Z.mod_small a (2 ^ n)), <- (Z.mod_small b (2 ^ n)) by lia.
  rewrite <- !Z.land_ones, <- Z.land_lor_distr_l, Z.land_ones by lia.
  apply Z.mod_pos_bound. apply Z.pow_pos_nonneg; lia.
Qed.

Lemma lor_pos_range n a b :
  0 ≤ n → 0 < a < 2 ^ n → 0 < b < 2 ^ n → 0 < Z.lor a b < 2 ^ n.
Proof.
  intros Hn Ha Hb. destruct (lor_range n a b); [lia..|].
  assert (Z.lor a b ≠ 0); [rewrite Z.lor_eq_0_iff; lia|lia].
Qed.

#[export] Hint Resolve u32_range u64_range : words.

(** The bits of [z * 2 ^ n + z0] are those of [z0] and then those of [z]. *)
Lemma testbit_split n z z0 i :
  0 ≤ n → 0 ≤ z0 < 2 ^ n → 0 ≤ i →
  Z.testbit (z * 2 ^ n + z0) i = if i <? n then Z.testbit z0 i else Z.testbit z (i - n).
Proof.
  intros Hn Hz Hi. destruct (Z.ltb_spec i n).
  - rewrite <- (Z.mod_pow2_bits_low _ n i) by lia.
    rewrite Z.add_comm, Z.mod_add, Z.mod_small by lia. done.
  - replace i with (i - n + n) at 1 by lia. rewrite <- Z.shiftr_spec, shiftr_div by lia.
    by rewrite Z.div_add_l, Z.div_small, Z.add_0_r by lia.
Qed.

Lemma land_range n a b : 0 ≤ n → 0 ≤ a < 2 ^ n → 0 ≤ Z.land a b < 2 ^ n.
Proof.
  intros Hn Ha.
  assert (Z.land a b = Z.land a b mod 2 ^ n) as ->; [|apply Z.mod_pos_bound; lia].
  rewrite <- Z.land_ones, <- Z.land_assoc, (Z.land_comm b), Z.land_assoc by done.
  by rewrite Z.land_ones, Z.mod_small.
Qed.

Lemma land_split n x x0 y y0 :
  0 ≤ n → 0 ≤ x0 < 2 ^ n → 0 ≤ y0 < 2 ^ n →
  Z.land (x * 2 ^ n + x0) (y * 2 ^ n + y0) = Z.land x y * 2 ^ n + Z.land x0 y0.
Proof.
  intros Hn Hx Hy. apply Z.bits_inj'. intros i Hi.
  rewrite Z.land_spec, !testbit_split by (done || by apply land_range).
  by destruct (i <? n); rewrite Z.land_spec.
Qed.

Lemma lor_split n x x0 y y0 :
  0 ≤ n → 0 ≤ x0 < 2 ^ n → 0 ≤ y0 < 2 ^ n →
  Z.lor (x * 2 ^ n + x0) (y * 2 ^ n + y0) = Z.lor x y * 2 ^ n + Z.lor x0 y0.
Proof.
  intros Hn Hx Hy. apply Z.bits_inj'. intros i Hi.
  rewrite Z.lor_spec, !testbit_split by (done || by apply lor_range).
  by destruct (i <? n); rewrite Z.lor_spec.
Qed.

(** Cutting to a word is lost under a mask that fits one. *)
Lemma land_u64_l x y : 0 ≤ y < 2 ^ 64 → Z.land (u64 x) y = Z.land x y.
Proof.
  intros Hy. unfold u64. rewrite <- Z.land_ones, <- Z.land_assoc by lia.
  by rewrite (Z.land_comm (Z.ones 64)), Z.land_ones, Z.mod_small by lia.
Qed.
