(* ===== verification/Bitops.v ===== *)
(** * Bit searches in a word

    [__ffs], [fls], [__fls], [fls64] and [ffz] of
    include/asm-generic/bitops/, the generic C versions the riscv port uses:
    the binary search over the halves of the word, and the position of the
    lowest or highest set bit they compute. *)

From stdpp Require Import base numbers.
From Stdlib Require Import ZArith Lia.
From S2P Require Import Prelude.

Open Scope Z_scope.

(** One "if the low half is empty, skip it" test of [__ffs]. *)
Definition ffs_step (mask sh : Z) (st : Z * Z) : Z * Z :=
  let '(num, word) := st in
  if Z.land word mask =? 0 then (num + sh, Z.shiftr word sh) else (num, word).

Definition __ffs (word : Z) : Z :=
  let st := ffs_step 0xffffffff 32 (0, word) in
  let st := ffs_step 0xffff 16 st in
  let st := ffs_step 0xff 8 st in
  let st := ffs_step 0xf 4 st in
  let '(num, word) := ffs_step 0x3 2 st in
  if Z.land word 0x1 =? 0 then num + 1 else num.

Definition ffz (word : Z) : Z := __ffs (u64 (Z.lnot word)).

(** One "if the high part is empty, shift it up" test of [fls]. *)
Definition fls_step (mask sh : Z) (st : Z * Z) : Z * Z :=
  let '(r, x) := st in
  if Z.land x mask =? 0 then (r - sh, u32 (Z.shiftl x sh)) else (r, x).

Definition fls (x : Z) : Z :=
  if x =? 0 then 0
  else
    let st := fls_step 0xffff0000 16 (32, x) in
    let st := fls_step 0xff000000 8 st in
    let st := fls_step 0xf0000000 4 st in
    let st := fls_step 0xc0000000 2 st in
    fst (fls_step 0x80000000 1 st).

(** The tests of [__fls]: the mask is [~0ul << (BITS_PER_LONG - sh)]. *)
Definition __fls_step (sh : Z) (st : Z * Z) : Z * Z :=
  let '(num, word) := st in
  if Z.land word (u64 (Z.shiftl (2 ^ 64 - 1) (64 - sh))) =? 0
  then (num - sh, u64 (Z.shiftl word sh)) else (num, word).

Definition __fls (word : Z) : Z :=
  let st := __fls_step 32 (63, word) in
  let st := __fls_step 16 st in
  let st := __fls_step 8 st in
  let st := __fls_step 4 st in
  let '(num, word) := __fls_step 2 st in
  if Z.land word (u64 (Z.shiftl (2 ^ 64 - 1) 63)) =? 0 then num - 1 else num.

Definition fls64 (x : Z) : Z := if x =? 0 then 0 else __fls x + 1.

(** [ilog2] of a non-constant 64-bit value is [fls64 (n) - 1]. *)
Definition ilog2_u64 (n : Z) : Z := fls64 n - 1.

(** ** The lowest set bit *)

Lemma pow2_pos n : 0 ≤ n → 0 < 2 ^ n.
Proof. intros. apply Z.pow_pos_nonneg; lia. Qed.

Lemma ffs_step_spec sh num word num' word' w0 :
  0 < sh → 0 ≤ num → 0 < word → w0 = word * 2 ^ num →
  word mod 2 ^ (2 * sh) ≠ 0 →
  ffs_step (2 ^ sh - 1) sh (num, word) = (num', word') →
  0 ≤ num' ∧ 0 < word' ∧ w0 = word' * 2 ^ num' ∧ word' mod 2 ^ sh ≠ 0.
Proof.
  intros Hsh Hnum Hword -> Hmod. unfold ffs_step.
  rewrite land_ones_mod, shiftr_div by lia.
  assert (Hp := pow2_pos sh ltac:(lia)).
  destruct (Z.eqb_spec (word mod 2 ^ sh) 0) as [E|E]; intros [= <- <-]; [|done].
  apply Z.div_exact in E; [|lia].
  set (q := word / 2 ^ sh) in *.
  repeat split; [lia|nia|rewrite Z.pow_add_r by lia; nia|].
  contradict Hmod. rewrite E.
  replace (2 * sh) with (sh + sh) by lia. rewrite Z.pow_add_r by lia.
  rewrite Z.mul_mod_distr_l by lia. nia.
Qed.

(** [__ffs] returns the index of the lowest set bit of a nonzero word. *)
Lemma __ffs_split w :
  0 < w < 2 ^ 64 → ∃ q, w = (2 * q + 1) * 2 ^ __ffs w ∧ 0 ≤ q ∧ 0 ≤ __ffs w.
Proof.
  intros Hw. unfold __ffs.
  change 0xffffffff with (2 ^ 32 - 1). change 0xffff with (2 ^ 16 - 1).
  change 0xff with (2 ^ 8 - 1). change 0xf with (2 ^ 4 - 1).
  change 0x3 with (2 ^ 2 - 1).
  destruct (ffs_step (2 ^ 32 - 1) 32 (0, w)) as [n1 w1] eqn:E1.
  apply (ffs_step_spec _ _ _ _ _ w) in E1 as (?&?&?&?);
    [|lia|lia|lia|lia|rewrite Z.mod_small; lia].
  destruct (ffs_step (2 ^ 16 - 1) 16 (n1, w1)) as [n2 w2] eqn:E2.
  apply (ffs_step_spec _ _ _ _ _ w) in E2 as (?&?&?&?); [|done..].
  destruct (ffs_step (2 ^ 8 - 1) 8 (n2, w2)) as [n3 w3] eqn:E3.
  apply (ffs_step_spec _ _ _ _ _ w) in E3 as (?&?&?&?); [|done..].
  destruct (ffs_step (2 ^ 4 - 1) 4 (n3, w3)) as [n4 w4] eqn:E4.
  apply (ffs_step_spec _ _ _ _ _ w) in E4 as (?&?&?&?); [|done..].
  destruct (ffs_step (2 ^ 2 - 1) 2 (n4, w4)) as [n5 w5] eqn:E5.
  apply (ffs_step_spec _ _ _ _ _ w) in E5 as (?&?&?&Hm); [|done..].
  rewrite (land_ones_mod w5 1 ltac:(lia) : Z.land w5 1 = w5 mod 2).
  change (2 ^ 2) with 4 in Hm.
  assert (w5 mod 4 = w5 mod 2 + 2 * ((w5 / 2) mod 2)) as Hd.
  { change 4 with (2 * 2) at 1. rewrite Z.rem_mul_r by lia. done. }
  assert (Hb := Z.mod_pos_bound w5 2 ltac:(lia)).
  assert (Hb2 := Z.mod_pos_bound (w5 / 2) 2 ltac:(lia)).
  assert (Hdm := Z.div_mod w5 2 ltac:(lia)).
  assert (Hdm2 := Z.div_mod (w5 / 2) 2 ltac:(lia)).
  destruct (Z.eqb_spec (w5 mod 2) 0).
  - exists (w5 / 2 / 2). rewrite Z.pow_add_r by lia. change (2 ^ 1) with 2.
    assert ((w5 / 2) mod 2 = 1) by lia. split_and!; [nia| |lia].
    apply Z.div_pos; [apply Z.div_pos; lia|lia].
  - exists (w5 / 2). split_and!; [nia|apply Z.div_pos; lia|lia].
Qed.

(** Two decompositions of the same number into an odd factor and a power of
    two have the same power. *)
Lemma odd_pow2_unique p q m n :
  0 ≤ m → 0 ≤ n → (2 * p + 1) * 2 ^ m = (2 * q + 1) * 2 ^ n → m = n ∧ p = q.
Proof.
  assert (∀ p q m n, 0 ≤ m → m < n → (2 * p + 1) * 2 ^ m ≠ (2 * q + 1) * 2 ^ n) as Haux.
  { clear. intros p q m n Hm Hlt E.
    replace n with (1 + m + (n - m - 1)) in E by lia.
    rewrite 2!Z.pow_add_r in E by lia. change (2 ^ 1) with 2 in E.
    assert (Hp := pow2_pos m Hm).
    assert (2 * p + 1 = 2 * ((2 * q + 1) * 2 ^ (n - m - 1))) by nia. lia. }
  intros Hm Hn E. destruct (Z.lt_trichotomy m n) as [Hlt|[->|Hlt]].
  - by apply Haux in E.
  - assert (Hp := pow2_pos n Hn). split; [done|nia].
  - symmetry in E. by apply Haux in E.
Qed.

Lemma __ffs_unique q n :
  0 ≤ q → 0 ≤ n → (2 * q + 1) * 2 ^ n < 2 ^ 64 → __ffs ((2 * q + 1) * 2 ^ n) = n.
Proof.
  intros Hq Hn Hlt. assert (Hp := pow2_pos n Hn).
  destruct (__ffs_split ((2 * q + 1) * 2 ^ n)) as (q' & E & ? & ?); [nia|].
  apply odd_pow2_unique in E as [E _]; lia.
Qed.

Lemma testbit_odd_pow2 q n i :
  0 ≤ n → Z.testbit ((2 * q + 1) * 2 ^ n) i =
    if decide (i < n) then false else Z.testbit (2 * q + 1) (i - n).
Proof.
  intros Hn. rewrite <- Z.shiftl_mul_pow2 by lia. case_decide.
  - by rewrite Z.shiftl_spec_low.
  - destruct (decide (0 ≤ i)); [by rewrite Z.shiftl_spec|lia].
Qed.

Lemma __ffs_testbit w :
  0 < w < 2 ^ 64 →
  Z.testbit w (__ffs w) = true ∧ (∀ i, i < __ffs w → Z.testbit w i = false) ∧
  0 ≤ __ffs w < 64.
Proof.
  intros Hw. destruct (__ffs_split w Hw) as (q & E & Hq & Hn).
  set (n := __ffs w) in *. clearbody n. subst w.
  split; [|split].
  - rewrite testbit_odd_pow2, decide_False, Z.sub_diag by lia.
    apply Z.testbit_odd_0.
  - intros i Hi. rewrite testbit_odd_pow2 by lia. by rewrite decide_True.
  - split; [done|]. apply (Z.pow_lt_mono_r_iff 2); [lia..|].
    assert (Hp := pow2_pos n Hn). nia.
Qed.

(** ** The highest set bit *)

Lemma land_high_mask n k x :
  0 ≤ k ≤ n → 0 ≤ x < 2 ^ n → Z.land x (2 ^ n - 2 ^ k) = 0 ↔ x < 2 ^ k.
Proof.
  intros Hk Hx.
  replace (2 ^ n - 2 ^ k) with (Z.shiftl (Z.ones (n - k)) k); last first.
  { rewrite shiftl_mul, Z.ones_equiv by lia.
    replace n with ((n - k) + k) at 2 by lia. rewrite Z.pow_add_r by lia. lia. }
  rewrite <- (Z.lor_ldiff_and x (Z.ones k)) at 1.
  rewrite Z.land_lor_distr_l, <- Z.land_assoc.
  assert (Z.land (Z.ones k) (Z.shiftl (Z.ones (n - k)) k) = 0) as ->.
  { apply Z.bits_inj'. intros i Hi. rewrite Z.land_spec, Z.bits_0.
    destruct (decide (i < k)).
    - rewrite Z.shiftl_spec_low by lia. by rewrite andb_false_r.
    - rewrite Z.ones_spec_high by lia. done. }
  rewrite Z.land_0_r, Z.lor_0_r.
  rewrite Z.ldiff_ones_r by lia.
  rewrite <- Z.shiftl_land, Z.land_ones by lia.
  rewrite shiftr_div, shiftl_mul by lia.
  assert (Hp := pow2_pos k ltac:(lia)).
  assert (x / 2 ^ k < 2 ^ (n - k)).
  { apply Z.div_lt_upper_bound; [lia|]. rewrite <- Z.pow_add_r by lia.
    replace (k + (n - k)) with n by lia. lia. }
  assert (0 ≤ x / 2 ^ k) by (apply Z.div_pos; lia).
  rewrite Z.mod_small by lia.
  assert (Hd := Z.div_mod x (2 ^ k) ltac:(lia)).
  assert (Hb := Z.mod_pos_bound x (2 ^ k) ltac:(lia)).
  split; intros; [nia|]. rewrite Z.div_small by lia. lia.
Qed.

(** One normalisation step: [x] is the argument shifted left by [w - r], its
    top set bit lies in the top [2 * sh] positions, afterwards in the top
    [sh]. The two searches share it: [w] is 32 for [fls], 64 for [__fls]. *)
Definition normal_step (w sh : Z) (st : Z * Z) : Z * Z :=
  let '(r, x) := st in
  if Z.land x (2 ^ w - 2 ^ (w - sh)) =? 0
  then (r - sh, Z.shiftl x sh mod 2 ^ w) else (r, x).

Lemma normal_step_spec w sh r x r' x' x0 c :
  0 < sh → 2 * sh ≤ w → x = x0 * 2 ^ (c - r) → r ≤ c → 0 < x < 2 ^ w →
  2 ^ (w - 2 * sh) ≤ x →
  normal_step w sh (r, x) = (r', x') →
  x' = x0 * 2 ^ (c - r') ∧ r' ≤ c ∧ 0 < x' < 2 ^ w ∧ 2 ^ (w - sh) ≤ x'.
Proof.
  intros Hsh Hw Hx Hr Hr2 Hlo. unfold normal_step.
  assert (Hm := land_high_mask w (w - sh) x ltac:(lia) ltac:(lia)).
  assert (Hp := pow2_pos sh ltac:(lia)).
  destruct (Z.eqb_spec (Z.land x (2 ^ w - 2 ^ (w - sh))) 0) as [E|E];
    intros [= <- <-].
  - apply Hm in E. rewrite shiftl_mul by lia.
    assert (2 ^ (w - sh) * 2 ^ sh = 2 ^ w).
    { rewrite <- Z.pow_add_r by lia. f_equal. lia. }
    assert (2 ^ (w - 2 * sh) * 2 ^ sh = 2 ^ (w - sh)).
    { rewrite <- Z.pow_add_r by lia. f_equal. lia. }
    assert (x0 * 2 ^ (c - (r - sh)) = x * 2 ^ sh) as ->.
    { rewrite Hx. replace (c - (r - sh)) with ((c - r) + sh) by lia.
      rewrite Z.pow_add_r by lia. lia. }
    rewrite Z.mod_small by nia. split_and!; nia.
  - split_and!; lia.
Qed.

Lemma log2_shifted x0 k w :
  0 < x0 → 0 ≤ k ≤ w → 2 ^ w ≤ x0 * 2 ^ k < 2 ^ (w + 1) → Z.log2 x0 = w - k.
Proof.
  intros Hx Hk H. apply Z.log2_unique; [lia|].
  assert (Hp := pow2_pos k ltac:(lia)).
  replace w with ((w - k) + k) in H by lia.
  replace ((w - k) + k + 1) with (Z.succ (w - k) + k) in H by lia.
  rewrite 2!Z.pow_add_r in H by lia. nia.
Qed.

Lemma fls_log2 x : 0 < x < 2 ^ 32 → fls x = Z.log2 x + 1.
Proof.
  intros Hx. unfold fls. destruct (Z.eqb_spec x 0); [lia|].
  change (fls_step 0xffff0000 16) with (normal_step 32 16).
  change (fls_step 0xff000000 8) with (normal_step 32 8).
  change (fls_step 0xf0000000 4) with (normal_step 32 4).
  change (fls_step 0xc0000000 2) with (normal_step 32 2).
  change (fls_step 0x80000000 1) with (normal_step 32 1).
  destruct (normal_step 32 16 (32, x)) as [r1 x1] eqn:E1.
  apply (normal_step_spec _ _ _ _ _ _ x 32) in E1 as (?&?&?&?);
    [|lia|lia|rewrite Z.sub_diag; lia|lia|lia|pow2; lia].
  destruct (normal_step 32 8 (r1, x1)) as [r2 x2] eqn:E2.
  apply (normal_step_spec _ _ _ _ _ _ x 32) in E2 as (?&?&?&?); [|done..].
  destruct (normal_step 32 4 (r2, x2)) as [r3 x3] eqn:E3.
  apply (normal_step_spec _ _ _ _ _ _ x 32) in E3 as (?&?&?&?); [|done..].
  destruct (normal_step 32 2 (r3, x3)) as [r4 x4] eqn:E4.
  apply (normal_step_spec _ _ _ _ _ _ x 32) in E4 as (?&?&?&?); [|done..].
  destruct (normal_step 32 1 (r4, x4)) as [r5 x5] eqn:E5.
  apply (normal_step_spec _ _ _ _ _ _ x 32) in E5 as (Hx5&?&?&?); [|done..].
  cbn [fst].
  destruct (Z.lt_ge_cases 0 r5) as [Hr|Hr].
  - rewrite (log2_shifted x (32 - r5) 31); [lia|lia|lia|].
    rewrite <- Hx5. pow2. lia.
  - exfalso. assert (2 ^ 32 ≤ 2 ^ (32 - r5)) by (apply Z.pow_le_mono_r; lia). nia.
Qed.

Lemma __fls_log2 w : 0 < w < 2 ^ 64 → __fls w = Z.log2 w.
Proof.
  intros Hx. unfold __fls.
  change (__fls_step 32) with (normal_step 64 32).
  change (__fls_step 16) with (normal_step 64 16).
  change (__fls_step 8) with (normal_step 64 8).
  change (__fls_step 4) with (normal_step 64 4).
  change (__fls_step 2) with (normal_step 64 2).
  destruct (normal_step 64 32 (63, w)) as [r1 x1] eqn:E1.
  apply (normal_step_spec _ _ _ _ _ _ w 63) in E1 as (?&?&?&?);
    [|lia|lia|rewrite Z.sub_diag; lia|lia|lia|pow2; lia].
  destruct (normal_step 64 16 (r1, x1)) as [r2 x2] eqn:E2.
  apply (normal_step_spec _ _ _ _ _ _ w 63) in E2 as (?&?&?&?); [|done..].
  destruct (normal_step 64 8 (r2, x2)) as [r3 x3] eqn:E3.
  apply (normal_step_spec _ _ _ _ _ _ w 63) in E3 as (?&?&?&?); [|done..].
  destruct (normal_step 64 4 (r3, x3)) as [r4 x4] eqn:E4.
  apply (normal_step_spec _ _ _ _ _ _ w 63) in E4 as (?&?&?&?); [|done..].
  destruct (normal_step 64 2 (r4, x4)) as [r5 x5] eqn:E5.
  apply (normal_step_spec _ _ _ _ _ _ w 63) in E5 as (Hx5&?&?&?); [|done..].
  change (u64 (Z.shiftl (2 ^ 64 - 1) 63)) with (2 ^ 64 - 2 ^ 63).
  assert (Hm := land_high_mask 64 63 x5 ltac:(lia) ltac:(lia)).
  destruct (Z.lt_ge_cases r5 0) as [Hr|Hr].
  { exfalso. assert (2 ^ 64 ≤ 2 ^ (63 - r5)) by (apply Z.pow_le_mono_r; lia). nia. }
  destruct (Z.eqb_spec (Z.land x5 (2 ^ 64 - 2 ^ 63)) 0) as [E|E].
  - apply Hm in E. destruct (Z.eq_dec r5 0) as [->|].
    + exfalso. change (2 ^ (63 - 0)) with (2 ^ 63) in Hx5. nia.
    + symmetry. rewrite (log2_shifted w (63 - r5) 62); [lia|lia|lia|].
      rewrite <- Hx5. pow2. lia.
  - assert (2 ^ 63 ≤ x5) by (destruct (Z.lt_ge_cases x5 (2 ^ 63)); tauto).
    symmetry. rewrite (log2_shifted w (63 - r5) 63); [lia|lia|lia|].
    rewrite <- Hx5. pow2. lia.
Qed.

Lemma ilog2_u64_log2 n : 0 < n < 2 ^ 64 → ilog2_u64 n = Z.log2 n.
Proof.
  intros. unfold ilog2_u64, fls64. destruct (Z.eqb_spec n 0); [lia|].
  rewrite __fls_log2 by lia. lia.
Qed.
