(* ===== verification/Math.v ===== *)
(** * The math component

    math/src/gcd.c, lcm.c and reciprocal_div.c with the inline
    [reciprocal_divide] of include/linux/reciprocal_div.h, and the parts of
    math/src/div64.c a 64-bit build compiles. The binary gcd computes the
    greatest common divisor, [lcm] the least common multiple truncated to a
    word, and multiplying by a reciprocal is dividing. *)

From stdpp Require Import base numbers.
From Stdlib Require Import ZArith Lia Znumtheory.
From S2P Require Import Prelude Bitops.

Open Scope Z_scope.

Module Gcd.

(** The loop of [gcd]. Each round at least halves the product of the two
    numbers, so 128 rounds are enough for two words. *)
Fixpoint gcd_loop (fuel : nat) (r a b : Z) : outcome Z :=
  match fuel with
  | O => Fuel
  | S fuel =>
      let a := Z.shiftr a (__ffs a) in
      if a =? 1 then Ok (Z.land r (u64 (- r)))
      else if a =? b then Ok (u64 (Z.shiftl a (__ffs r)))
      else
        let '(a, b) := if a <? b then (b, a) else (a, b) in
        gcd_loop fuel r (u64 (a - b)) b
  end.

Definition gcd (a b : Z) : outcome Z :=
  let r := Z.lor a b in
  if (a =? 0) || (b =? 0) then Ok r
  else
    let b := Z.shiftr b (__ffs b) in
    if b =? 1 then Ok (Z.land r (u64 (- r)))
    else gcd_loop 128 r a b.

Definition lcm (a b : Z) : outcome Z :=
  if negb (a =? 0) && negb (b =? 0)
  then g ← gcd a b; Ok (u64 ((a / g) * b))
  else Ok 0.

Definition lcm_not_zero (a b : Z) : outcome Z :=
  l ← lcm a b;
  Ok (if negb (l =? 0) then l else if negb (b =? 0) then b else a).

Lemma shiftr_ffs_odd a :
  0 < a < 2 ^ 64 →
  ∃ q, Z.shiftr a (__ffs a) = 2 * q + 1 ∧ 0 ≤ q ∧
       a = (2 * q + 1) * 2 ^ __ffs a ∧ 0 ≤ __ffs a.
Proof.
  intros Ha. destruct (__ffs_split a Ha) as (q & E & Hq & Hn). exists q.
  split_and!; try done. rewrite E at 1. rewrite shiftr_div by lia.
  apply Z.div_mul. assert (Hp := pow2_pos _ Hn). lia.
Qed.

Lemma land_neg_lowest r :
  0 < r < 2 ^ 64 → Z.land r (u64 (- r)) = 2 ^ __ffs r.
Proof.
  intros Hr. destruct (__ffs_split r Hr) as (q & E & Hq & Hn).
  set (n := __ffs r) in *. clearbody n. subst r.
  assert (Hp := pow2_pos n Hn).
  assert (n < 64).
  { apply (Z.pow_lt_mono_r_iff 2); [lia..|]. nia. }
  unfold u64. apply Z.bits_inj'. intros i Hi.
  rewrite Z.land_spec, Z.pow2_bits_eqb by lia.
  replace (- ((2 * q + 1) * 2 ^ n)) with ((2 * (- q - 1) + 1) * 2 ^ n) by lia.
  destruct (decide (i < 64)).
  - rewrite Z.mod_pow2_bits_low, !testbit_odd_pow2 by lia.
    destruct (decide (i < n)); [by destruct (Z.eqb_spec n i); [lia|]|].
    destruct (Z.eqb_spec n i) as [->|].
    + by rewrite Z.sub_diag, !Z.testbit_odd_0.
    + replace (i - n) with (Z.succ (i - n - 1)) by lia.
      rewrite !Z.testbit_odd_succ by lia.
      replace (- q - 1) with (Z.lnot q) by (unfold Z.lnot; lia).
      rewrite Z.lnot_spec by lia. apply andb_negb_r.
  - rewrite Z.mod_pow2_bits_high, andb_false_r by lia.
    destruct (Z.eqb_spec n i); [lia|done].
Qed.

Lemma __ffs_lor a b :
  0 < a < 2 ^ 64 → 0 < b < 2 ^ 64 →
  __ffs (Z.lor a b) = Z.min (__ffs a) (__ffs b).
Proof.
  intros Ha Hb.
  assert (Hr := lor_pos_range 64 a b ltac:(lia) Ha Hb).
  destruct (__ffs_testbit a Ha) as (Ha1 & Ha2 & Ha3).
  destruct (__ffs_testbit b Hb) as (Hb1 & Hb2 & Hb3).
  destruct (__ffs_testbit _ Hr) as (Hr1 & Hr2 & Hr3).
  destruct (Z.lt_trichotomy (__ffs (Z.lor a b)) (Z.min (__ffs a) (__ffs b)))
    as [Hlt|[?|Hlt]]; [|done|].
  - rewrite Z.lor_spec, Ha2, Hb2 in Hr1 by lia. done.
  - apply Hr2 in Hlt. rewrite Z.lor_spec in Hlt. apply orb_false_iff in Hlt as [Hl1 Hl2].
    destruct (Z.min_spec (__ffs a) (__ffs b)) as [[_ E]|[_ E]]; rewrite E in *; congruence.
Qed.

Lemma gcd_double_odd x q : Z.gcd (2 * x) (2 * q + 1) = Z.gcd x (2 * q + 1).
Proof.
  apply Z.divide_antisym_nonneg; [apply Z.gcd_nonneg..| |].
  - apply Z.gcd_greatest; [|apply Z.gcd_divide_r].
    apply (Z.gauss _ 2); [apply Z.gcd_divide_l|].
    set (d := Z.gcd (2 * x) (2 * q + 1)).
    assert (Z.divide (Z.gcd d 2) (2 * q + 1)) as Hd.
    { etrans; [apply Z.gcd_divide_l|apply Z.gcd_divide_r]. }
    assert (Z.divide (Z.gcd d 2) 2) as H2 by apply Z.gcd_divide_r.
    assert (Z.divide (Z.gcd d 2) 1) as H1.
    { replace 1 with ((2 * q + 1) - q * 2) by lia.
      apply Z.divide_sub_r; [done|by apply Z.divide_mul_r]. }
    apply Z.divide_1_r_nonneg; [apply Z.gcd_nonneg|done].
  - apply Z.gcd_greatest; [|apply Z.gcd_divide_r].
    apply Z.divide_mul_r, Z.gcd_divide_l.
Qed.

Lemma gcd_pow2_odd n x q :
  0 ≤ n → Z.gcd (x * 2 ^ n) (2 * q + 1) = Z.gcd x (2 * q + 1).
Proof.
  intros Hn. revert n Hn x. apply (natlike_ind (λ n, ∀ x, _)).
  - intros x. by rewrite Z.mul_1_r.
  - intros n Hn IH x. rewrite Z.pow_succ_r by done.
    rewrite Z.mul_assoc, IH, Z.mul_comm. apply gcd_double_odd.
Qed.

(** The greatest common divisor of two numbers with the powers of two taken
    out. *)
Lemma gcd_odd_parts p q m n :
  0 ≤ m → 0 ≤ n →
  Z.gcd ((2 * p + 1) * 2 ^ m) ((2 * q + 1) * 2 ^ n)
    = Z.gcd ((2 * p + 1) * 2 ^ m) (2 * q + 1) * 2 ^ Z.min m n.
Proof.
  intros Hm Hn. rewrite gcd_pow2_odd by done.
  destruct (Z.min_spec m n) as [[Hlt ->]|[Hle ->]].
  - replace n with ((n - m) + m) by lia. rewrite Z.pow_add_r, Z.mul_assoc by lia.
    rewrite Z.gcd_mul_mono_r_nonneg by (apply Z.pow_nonneg; lia).
    rewrite Z.gcd_comm, gcd_pow2_odd by lia. by rewrite Z.gcd_comm.
  - replace m with ((m - n) + n) at 1 by lia. rewrite Z.pow_add_r, Z.mul_assoc by lia.
    rewrite Z.gcd_mul_mono_r_nonneg by (apply Z.pow_nonneg; lia).
    by rewrite gcd_pow2_odd by lia.
Qed.

Lemma odd_gcd_sub p q :
  Z.gcd ((2 * p + 1) - (2 * q + 1)) (2 * q + 1) = Z.gcd (2 * p + 1) (2 * q + 1).
Proof. rewrite Z.gcd_comm, Z.gcd_sub_diag_r. apply Z.gcd_comm. Qed.

(** The odd part of the difference of two odd numbers, times the smaller one,
    is at most half of their product. *)
Lemma odd_part_halves c d x t F :
  0 ≤ d → 0 ≤ x → 0 < t → 2 * c + 1 - (2 * d + 1) = (2 * x + 1) * (2 * t) →
  (2 * c + 1) * (2 * d + 1) < 2 * F → (2 * x + 1) * (2 * d + 1) < F.
Proof.
  intros Hd Hx Ht Hs Hcd.
  assert (2 * x + 1 ≤ (2 * x + 1) * t) by (apply Z.le_mul_diag_r; lia).
  assert ((2 * x + 1) * (2 * d + 1) ≤ (c - d) * (2 * d + 1)) by (apply Z.mul_le_mono_nonneg_r; lia).
  assert (2 * (c - d) * (2 * d + 1) ≤ (2 * c + 1) * (2 * d + 1)) by (apply Z.mul_le_mono_nonneg_r; lia).
  lia.
Qed.

(** One round on two different odd numbers: the difference of the larger and
    the smaller one, whose odd part times the smaller one is at most half of
    the product. *)
Lemma gcd_loop_ok fuel r a q :
  0 < r < 2 ^ 64 → 0 < a < 2 ^ 64 → 0 ≤ q → 2 * q + 1 < 2 ^ 64 →
  Z.shiftr a (__ffs a) * (2 * q + 1) < 2 ^ Z.of_nat fuel →
  Z.gcd a (2 * q + 1) * 2 ^ __ffs r < 2 ^ 64 →
  gcd_loop fuel r a (2 * q + 1) = Ok (Z.gcd a (2 * q + 1) * 2 ^ __ffs r).
Proof.
  intros Hr. revert a q. induction fuel as [|fuel IH]; intros a q Ha Hq Hq2 Hm Hg.
  { destruct (shiftr_ffs_odd a Ha) as (p & E & ? & _). rewrite E in Hm.
    change (2 ^ Z.of_nat 0) with 1 in Hm. nia. }
  destruct (shiftr_ffs_odd a Ha) as (p & E & Hp & Ea & Hn).
  assert (Ha' : 2 * p + 1 < 2 ^ 64).
  { assert (Hpn := pow2_pos _ Hn). nia. }
  rewrite Ea, gcd_pow2_odd in Hg |- * by done. rewrite <- Ea.
  cbn [gcd_loop]. rewrite E in Hm |- *.
  rewrite Nat2Z.inj_succ, Z.pow_succ_r in Hm by lia.
  destruct (Z.eqb_spec (2 * p + 1) 1) as [E1|E1].
  { rewrite land_neg_lowest by done. rewrite E1, Z.gcd_1_l. f_equal. lia. }
  destruct (Z.eqb_spec (2 * p + 1) (2 * q + 1)) as [E2|E2].
  { rewrite shiftl_mul by (apply __ffs_testbit; done).
    rewrite E2, Z.gcd_diag_nonneg in Hg |- * by lia.
    rewrite u64_id; [done|]. split; [|done].
    apply Z.mul_nonneg_nonneg; [lia|apply Z.pow_nonneg; lia]. }
  assert (∀ c d, 0 ≤ d → d < c → 2 * c + 1 < 2 ^ 64 →
    (2 * c + 1) * (2 * d + 1) < 2 * 2 ^ Z.of_nat fuel →
    Z.gcd (2 * c + 1) (2 * d + 1) = Z.gcd (2 * p + 1) (2 * q + 1) →
    gcd_loop fuel r (u64 (2 * c + 1 - (2 * d + 1))) (2 * d + 1)
      = Ok (Z.gcd (2 * p + 1) (2 * q + 1) * 2 ^ __ffs r)) as Hstep.
  { intros c d Hd Hdc Hc Hcd Hgcd. rewrite u64_id by lia.
    assert (0 < 2 * c + 1 - (2 * d + 1) < 2 ^ 64) as Hs by lia.
    rewrite IH; [|done|done|lia| |].
    - by rewrite odd_gcd_sub, Hgcd.
    - destruct (shiftr_ffs_odd _ Hs) as (x & Ex & Hx & Es & Hk). rewrite Ex.
      destruct (Z.eq_dec (__ffs (2 * c + 1 - (2 * d + 1))) 0) as [H0|H0].
      { rewrite H0 in Es. change (2 ^ 0) with 1 in Es. lia. }
      assert (2 * 2 ^ (__ffs (2 * c + 1 - (2 * d + 1)) - 1)
              = 2 ^ __ffs (2 * c + 1 - (2 * d + 1))) as Hpow.
      { rewrite <- Z.pow_succ_r by lia. f_equal. lia. }
      assert (Hpos := pow2_pos (__ffs (2 * c + 1 - (2 * d + 1)) - 1) ltac:(lia)).
      apply (odd_part_halves c d x _ _ Hd Hx Hpos); [|done]. rewrite Hpow. lia.
    - by rewrite odd_gcd_sub, Hgcd. }
  destruct (Z.ltb_spec (2 * p + 1) (2 * q + 1)).
  - apply Hstep; try lia. apply Z.gcd_comm.
  - apply Hstep; lia.
Qed.

Lemma gcd_spec a b :
  0 ≤ a < 2 ^ 64 → 0 ≤ b < 2 ^ 64 → gcd a b = Ok (Z.gcd a b).
Proof.
  intros Ha Hb. unfold gcd.
  destruct (Z.eqb_spec a 0) as [->|]; cbn [orb].
  { by rewrite Z.lor_0_l, Z.gcd_0_l_nonneg by lia. }
  destruct (Z.eqb_spec b 0) as [->|].
  { by rewrite Z.lor_0_r, Z.gcd_0_r_nonneg by lia. }
  assert (Hr := lor_pos_range 64 a b ltac:(lia) ltac:(lia) ltac:(lia)).
  destruct (shiftr_ffs_odd b) as (q & E & Hq & Eb & Hn); [lia|].
  destruct (shiftr_ffs_odd a) as (p & Ep & Hp & Ea & Hm); [lia|].
  assert (Z.gcd a b = Z.gcd a (2 * q + 1) * 2 ^ __ffs (Z.lor a b)) as Hg.
  { rewrite __ffs_lor by lia. rewrite Ea at 1. rewrite Eb at 1.
    rewrite gcd_odd_parts by done. by rewrite <- Ea. }
  assert (Z.gcd a b ≤ a) as Hle.
  { apply Z.divide_pos_le; [lia|apply Z.gcd_divide_l]. }
  assert (2 * q + 1 < 2 ^ 64) by (assert (Hpn := pow2_pos _ Hn); nia).
  assert (2 * p + 1 < 2 ^ 64) by (assert (Hpn := pow2_pos _ Hm); nia).
  rewrite E. destruct (Z.eqb_spec (2 * q + 1) 1) as [E1|E1].
  - rewrite land_neg_lowest, Hg, E1, Z.gcd_1_r by done. f_equal. lia.
  - rewrite Hg. apply gcd_loop_ok; [done|lia|done|done| |lia].
    rewrite Ep. change (Z.of_nat 128) with (64 + 64).
    rewrite Z.pow_add_r by lia. nia.
Qed.

Lemma lcm_quotient a b :
  0 < a → 0 < b → a / Z.gcd a b * b = Z.lcm a b.
Proof.
  intros Ha Hb. unfold Z.lcm.
  destruct (Z.gcd_divide_l a b) as [k Hk], (Z.gcd_divide_r a b) as [l Hl].
  assert (0 < Z.gcd a b) as Hg.
  { assert (Z.gcd a b ≠ 0) by (rewrite Z.gcd_eq_0; lia).
    assert (0 ≤ Z.gcd a b) by apply Z.gcd_nonneg. lia. }
  assert (a / Z.gcd a b = k) as -> by (rewrite Hk at 1; apply Z.div_mul; lia).
  assert (b / Z.gcd a b = l) as -> by (rewrite Hl at 1; apply Z.div_mul; lia).
  rewrite Z.abs_eq by nia. rewrite Hl at 1. rewrite Hk at 2. lia.
Qed.

(** On every pair of words the binary gcd terminates with their greatest
    common divisor (with [gcd x 0 = x]), [lcm] with their least common
    multiple truncated to a word, and [lcm_not_zero] with the other argument
    where the multiple is zero. *)
Theorem gcd_lcm_correct a b :
  0 ≤ a < 2 ^ 64 → 0 ≤ b < 2 ^ 64 →
  gcd a b = Ok (Z.gcd a b) ∧
  lcm a b = Ok (u64 (Z.lcm a b)) ∧
  lcm_not_zero a b =
    Ok (if u64 (Z.lcm a b) =? 0 then (if b =? 0 then a else b)
        else u64 (Z.lcm a b)).
Proof.
  intros Ha Hb.
  assert (lcm a b = Ok (u64 (Z.lcm a b))) as Hl.
  { unfold lcm. rewrite gcd_spec by done. cbn.
    destruct (Z.eqb_spec a 0) as [->|]; [by rewrite Z.lcm_0_l|].
    destruct (Z.eqb_spec b 0) as [->|]; [by rewrite Z.lcm_0_r|].
    cbn. rewrite lcm_quotient by lia. done. }
  split_and!; [by apply gcd_spec|done|].
  unfold lcm_not_zero. rewrite Hl. cbn. by repeat destruct (_ =? 0).
Qed.

Lemma gcd_lcm_correct_witness :
  (0 ≤ 48 < 2 ^ 64 ∧ 0 ≤ 180 < 2 ^ 64) ∧
  gcd 48 180 = Ok 12 ∧ lcm 48 180 = Ok 720 ∧ lcm_not_zero 48 180 = Ok 720.
Proof. split; [lia|]. apply (gcd_lcm_correct 48 180); lia. Defined.

End Gcd.

Module Reciprocal.

Record reciprocal_value := { m : Z; sh1 : Z; sh2 : Z }.

(** [reciprocal_value (u32 d)] of reciprocal_div.c. *)
Definition mk_reciprocal_value (d : Z) : reciprocal_value :=
  let l := fls (u32 (d - 1)) in
  let m := u64 (u64 (Z.shiftl 1 32) * u64 (u64 (Z.shiftl 1 l) - d)) in
  let m := m / d in
  let m := u64 (m + 1) in
  {| m := u32 m; sh1 := u8 (Z.min l 1); sh2 := u8 (Z.max (l - 1) 0) |}.

Definition reciprocal_divide (a : Z) (R : reciprocal_value) : Z :=
  let t := u32 (Z.shiftr (u64 (a * R.(m))) 32) in
  Z.shiftr (u32 (t + Z.shiftr (u32 (a - t)) R.(sh1))) R.(sh2).

(** [l = ceil(log2 d)]. *)
Lemma fls_pred_ceil d :
  1 ≤ d < 2 ^ 32 →
  0 ≤ fls (u32 (d - 1)) ≤ 32 ∧ d ≤ 2 ^ fls (u32 (d - 1)) < 2 * d.
Proof.
  intros Hd. rewrite u32_id by lia.
  destruct (Z.eq_dec d 1) as [->|]; [by vm_compute|].
  rewrite fls_log2 by lia.
  destruct (Z.log2_spec (d - 1)) as [Hl Hu]; [lia|].
  assert (0 ≤ Z.log2 (d - 1)) by apply Z.log2_nonneg.
  assert (Z.log2 (d - 1) < 32) by (apply Z.log2_lt_pow2; lia).
  change (Z.log2 (d - 1) + 1) with (Z.log2 (d - 1) + 1) in *.
  rewrite <- Z.add_1_r in Hu. rewrite Z.pow_add_r in Hu |- * by lia. lia.
Qed.

(** The multiplier [2^32 + m] is the quotient [2^(32 + l) / d] rounded up
    strictly, so that multiplying and shifting gives the quotient of every
    32-bit dividend. *)
Lemma granlund_montgomery a d l M :
  1 ≤ d < 2 ^ 32 → 0 ≤ a < 2 ^ 32 → 0 ≤ l → d ≤ 2 ^ l →
  M = 2 ^ (32 + l) / d + 1 →
  a * M / 2 ^ (32 + l) = a / d.
Proof.
  intros Hd Ha Hl Hdl ->. set (P := 2 ^ (32 + l)).
  assert (HP : P = 2 ^ 32 * 2 ^ l) by (unfold P; rewrite Z.pow_add_r; lia).
  assert (Hq := Z.div_mod a d ltac:(lia)).
  assert (Hr := Z.mod_pos_bound a d ltac:(lia)).
  assert (Hq2 := Z.div_mod P d ltac:(lia)).
  assert (Hr2 := Z.mod_pos_bound P d ltac:(lia)).
  symmetry. apply Z.div_unique_pos with (r := a * (P / d + 1) - P * (a / d)); [|lia].
  set (x := a / d) in *. set (y := P / d) in *.
  set (e := d - P mod d).
  assert (He : d * (y + 1) = P + e) by (unfold e; lia).
  assert (0 < e ≤ d) by (unfold e; lia).
  assert (0 ≤ x) by (apply Z.div_pos; lia).
  assert (d * (a * (y + 1) - P * x) = P * (a mod d) + a * e) as Hkey.
  { replace (d * (a * (y + 1) - P * x)) with (a * (d * (y + 1)) - P * (d * x)) by lia.
    rewrite He. nia. }
  assert (a * e < P) as Hae.
  { assert (0 < 2 ^ l) by lia. nia. }
  assert (P * (a mod d) ≤ P * (d - 1)) by (apply Z.mul_le_mono_nonneg_l; lia).
  split; [|apply (Z.mul_lt_mono_pos_l d); lia].
  assert (0 ≤ P * (a mod d) + a * e) as Hz by (apply Z.add_nonneg_nonneg; apply Z.mul_nonneg_nonneg; lia).
  rewrite <- Hkey in Hz. apply (Z.mul_le_mono_pos_l 0 _ d); lia.
Qed.

Lemma average_floor t a k :
  0 ≤ t ≤ a → 1 ≤ k → (t + (a - t) / 2) / 2 ^ (k - 1) = (a + t) / 2 ^ k.
Proof.
  intros Ht Hk. replace (2 ^ k) with (2 * 2 ^ (k - 1)); last first.
  { rewrite <- Z.pow_succ_r by lia. f_equal. lia. }
  rewrite <- Z.div_div by lia. f_equal.
  replace (a + t) with ((a - t) + t * 2) by lia. rewrite Z.div_add by lia. lia.
Qed.

(** Multiplying by the reciprocal divides: for every nonzero 32-bit
    divisor and every 32-bit dividend the precomputed multiplier and shifts
    give the exact quotient. *)
Theorem reciprocal_divide_correct a d :
  0 ≤ a < 2 ^ 32 → 1 ≤ d < 2 ^ 32 →
  reciprocal_divide a (mk_reciprocal_value d) = a / d.
Proof.
  intros Ha Hd. destruct (fls_pred_ceil d Hd) as (Hl & Hdl & Hld).
  unfold reciprocal_divide, mk_reciprocal_value. cbn [m sh1 sh2].
  set (l := fls (u32 (d - 1))) in *. clearbody l.
  rewrite !shiftl_mul by lia. rewrite !Z.mul_1_l.
  assert (2 ^ l ≤ 2 ^ 32) by (apply Z.pow_le_mono_r; lia).
  rewrite (u64_id (2 ^ 32)), (u64_id (2 ^ l)), (u64_id (2 ^ l - d)) by lia.
  rewrite (u64_id (2 ^ 32 * (2 ^ l - d))) by lia.
  assert (2 ^ 32 * (2 ^ l - d) / d = 2 ^ (32 + l) / d - 2 ^ 32) as ->.
  { rewrite Z.pow_add_r by lia.
    replace (2 ^ 32 * (2 ^ l - d)) with (2 ^ 32 * 2 ^ l + (- 2 ^ 32) * d) by lia.
    rewrite Z.div_add by lia. lia. }
  set (M := 2 ^ (32 + l) / d + 1).
  assert (HM : 2 ^ 32 < M < 2 * 2 ^ 32).
  { unfold M. rewrite Z.pow_add_r by lia. split.
    - assert (2 ^ 32 ≤ 2 ^ 32 * 2 ^ l / d); [apply Z.div_le_lower_bound; lia|lia].
    - assert (2 ^ 32 * 2 ^ l / d < 2 * 2 ^ 32 - 1); [|lia].
      apply Z.div_lt_upper_bound; [lia|]. nia. }
  replace (2 ^ (32 + l) / d - 2 ^ 32 + 1) with (M - 2 ^ 32) by (unfold M; lia).
  rewrite (u64_id (M - 2 ^ 32)), (u32_id (M - 2 ^ 32)) by lia.
  rewrite u64_id by nia. rewrite (shiftr_div _ 32) by lia.
  set (t := a * (M - 2 ^ 32) / 2 ^ 32).
  assert (Ht : 0 ≤ t ≤ a).
  { split; [apply Z.div_pos; nia|]. apply Z.div_le_upper_bound; nia. }
  assert (Hat : a + t = a * M / 2 ^ 32).
  { unfold t. replace (a * M) with (a * (M - 2 ^ 32) + a * 2 ^ 32) by lia.
    rewrite Z.div_add by lia. lia. }
  rewrite (u32_id t), (u32_id (a - t)) by lia.
  rewrite <- (granlund_montgomery a d l M) by (done || lia).
  rewrite Z.pow_add_r, <- Z.div_div, <- Hat by lia.
  destruct (Z.eq_dec l 0) as [->|].
  - rewrite (u8_id (Z.min 0 1)), (u8_id (Z.max (0 - 1) 0)) by lia.
    rewrite !Z.shiftr_0_r. rewrite u32_id by lia.
    change (2 ^ 0) with 1. rewrite Z.div_1_r.
    assert (t = 0); [|lia].
    unfold t, M. assert (d = 1) as -> by (change (2 ^ 0) with 1 in *; lia).
    rewrite Z.div_1_r. apply Z.div_small. pow2. lia.
  - rewrite (u8_id (Z.min l 1)), (u8_id (Z.max (l - 1) 0)) by lia.
    replace (Z.min l 1) with 1 by lia. replace (Z.max (l - 1) 0) with (l - 1) by lia.
    rewrite !shiftr_div by lia. change (2 ^ 1) with 2.
    rewrite u32_id; [apply average_floor; lia|].
    assert ((a - t) / 2 ≤ a - t) by (apply Z.div_le_upper_bound; lia).
    assert (0 ≤ (a - t) / 2) by (apply Z.div_pos; lia). lia.
Qed.

Lemma reciprocal_divide_correct_witness :
  (0 ≤ 4294967295 < 2 ^ 32 ∧ 1 ≤ 7 < 2 ^ 32) ∧
  reciprocal_divide 4294967295 (mk_reciprocal_value 7) = 613566756.
Proof.
  split; [lia|]. change 613566756 with (4294967295 / 7).
  apply (reciprocal_divide_correct 4294967295 7); lia.
Defined.

End Reciprocal.
