(* ===== verification/Memblock.v ===== *)
(** * The boot memory allocator: data and operations

    memblock/src/memblock.c with the inline helpers of
    include/linux/memblock.h, for the configuration of the repository
    (include/generated/autoconf.h: 64-bit, no NUMA nodes, no memory hotplug).

    The allocator keeps two arrays of regions, [memory] and [reserved]. An
    array is the list of its [cnt] live entries; the capacity [t_max] and the
    place the array lives in are fields of their own. A pointer to one of the
    two [struct memblock_type] is a [mtype]. Physical addresses are 64-bit
    words and wrap around; [BUG_ON] is [Panic]. *)

From stdpp Require Import base numbers list option.
From Stdlib Require Import ZArith Lia.
From S2P Require Import Prelude.

Open Scope Z_scope.

Module Memblock.

Definition PAGE_SIZE : Z := 4096.
Definition PHYS_ADDR_MAX : Z := 2 ^ 64 - 1.
Definition ULLONG_MAX : Z := 2 ^ 64 - 1.
Definition NUMA_NO_NODE : Z := -1.
Definition MAX_NUMNODES : Z := 1.
Definition SMP_CACHE_BYTES : Z := 64.
Definition ENOMEM : Z := 12.

Definition MEMBLOCK_NONE : Z := 0.
Definition MEMBLOCK_HOTPLUG : Z := 1.
Definition MEMBLOCK_MIRROR : Z := 2.
Definition MEMBLOCK_NOMAP : Z := 4.
Definition MEMBLOCK_ALLOC_ANYWHERE : Z := 2 ^ 64 - 1.
Definition MEMBLOCK_ALLOC_ACCESSIBLE : Z := 0.
Definition MEMBLOCK_ALLOC_KASAN : Z := 1.
Definition INIT_MEMBLOCK_REGIONS : Z := 128.

(** ** Data *)

Record memblock_region := MkRegion {
  r_base : Z;
  r_size : Z;
  r_flags : Z;
}.

(** Where a region array lives: the static initial array, or memory at a
    physical address. *)
Inductive array_loc :=
| InitArray
| AllocArray (pa : Z).

Record memblock_type := MkType {
  t_max : Z;
  t_total_size : Z;
  t_regions : list memblock_region;
  t_array : array_loc;
}.

Record memblock := MkMemblock {
  bottom_up : bool;
  current_limit : Z;
  memory : memblock_type;
  reserved : memblock_type;
  system_has_some_mirror : bool;
  memblock_can_resize : bool;
  memblock_memory_in_slab : bool;
  memblock_reserved_in_slab : bool;
}.

Inductive mtype := MEMORY | RESERVED.

#[global] Instance memblock_region_eq_dec : EqDecision memblock_region.
Proof. solve_decision. Defined.
#[global] Instance mtype_eq_dec : EqDecision mtype.
Proof. solve_decision. Defined.

(** What the allocator asks of other components: whether the slab allocator
    is up, the physical address [kmalloc] and [kzalloc_node] return for a size
    (0 for NULL), and the physical address of the end of the kernel image. *)
Record environment := MkEnv {
  slab_is_available : bool;
  kmalloc_pa : Z → Z;
  kzalloc_node_pa : Z → Z → Z;
  kernel_end : Z;
}.

Definition cnt (ty : memblock_type) : Z := Z.of_nat (length (t_regions ty)).

Definition r_end (r : memblock_region) : Z := u64 (r_base r + r_size r).

Definition get_type (mb : memblock) (t : mtype) : memblock_type :=
  match t with MEMORY => memory mb | RESERVED => reserved mb end.

Definition set_type (mb : memblock) (t : mtype) (ty : memblock_type) : memblock :=
  match t with
  | MEMORY => MkMemblock (bottom_up mb) (current_limit mb) ty (reserved mb)
      (system_has_some_mirror mb) (memblock_can_resize mb)
      (memblock_memory_in_slab mb) (memblock_reserved_in_slab mb)
  | RESERVED => MkMemblock (bottom_up mb) (current_limit mb) (memory mb) ty
      (system_has_some_mirror mb) (memblock_can_resize mb)
      (memblock_memory_in_slab mb) (memblock_reserved_in_slab mb)
  end.

Definition in_slab (mb : memblock) (t : mtype) : bool :=
  match t with
  | MEMORY => memblock_memory_in_slab mb
  | RESERVED => memblock_reserved_in_slab mb
  end.

Definition set_in_slab (mb : memblock) (t : mtype) (b : bool) : memblock :=
  match t with
  | MEMORY => MkMemblock (bottom_up mb) (current_limit mb) (memory mb) (reserved mb)
      (system_has_some_mirror mb) (memblock_can_resize mb) b (memblock_reserved_in_slab mb)
  | RESERVED => MkMemblock (bottom_up mb) (current_limit mb) (memory mb) (reserved mb)
      (system_has_some_mirror mb) (memblock_can_resize mb) (memblock_memory_in_slab mb) b
  end.

Definition set_regions (ty : memblock_type) (rs : list memblock_region) : memblock_type :=
  MkType (t_max ty) (t_total_size ty) rs (t_array ty).

Definition dummy_region : memblock_region := MkRegion 0 0 0.

(** The initial value of [struct memblock memblock]: one empty dummy entry
    per array. *)
Definition memblock_init : memblock :=
  MkMemblock false MEMBLOCK_ALLOC_ANYWHERE
    (MkType INIT_MEMBLOCK_REGIONS 0 [dummy_region] InitArray)
    (MkType INIT_MEMBLOCK_REGIONS 0 [dummy_region] InitArray)
    false false false false.

(** ** Helpers *)

Definition round_up (x y : Z) : Z := u64 (Z.lor (u64 (x - 1)) (u64 (y - 1)) + 1).
Definition round_down (x y : Z) : Z := Z.land x (u64 (Z.lnot (u64 (y - 1)))).
Definition clamp (v lo hi : Z) : Z := Z.min (Z.max v lo) hi.
Definition PAGE_ALIGN (x : Z) : Z :=
  Z.land (u64 (x + (PAGE_SIZE - 1))) (u64 (Z.lnot (PAGE_SIZE - 1))).
Definition PFN_UP (x : Z) : Z := Z.shiftr (u64 (u64 (x + PAGE_SIZE) - 1)) 12.
Definition PFN_DOWN (x : Z) : Z := Z.shiftr x 12.
Definition PFN_PHYS (x : Z) : Z := u64 (Z.shiftl x 12).

Definition memblock_is_hotpluggable (m : memblock_region) : bool :=
  negb (Z.land (r_flags m) MEMBLOCK_HOTPLUG =? 0).
Definition memblock_is_mirror (m : memblock_region) : bool :=
  negb (Z.land (r_flags m) MEMBLOCK_MIRROR =? 0).
Definition memblock_is_nomap (m : memblock_region) : bool :=
  negb (Z.land (r_flags m) MEMBLOCK_NOMAP =? 0).

(** Without CONFIG_NEED_MULTIPLE_NODES a region has no node. *)
Definition memblock_get_region_node (m : memblock_region) : Z := 0.

(** Without CONFIG_MEMORY_HOTPLUG. *)
Definition movable_node_is_enabled : bool := false.

Definition choose_memblock_flags (mb : memblock) : Z :=
  if system_has_some_mirror mb then MEMBLOCK_MIRROR else MEMBLOCK_NONE.

Definition memblock_cap_size (base size : Z) : Z :=
  Z.min size (u64 (PHYS_ADDR_MAX - base)).

Definition memblock_addrs_overlap (base1 size1 base2 size2 : Z) : bool :=
  (base1 <? u64 (base2 + size2)) && (base2 <? u64 (base1 + size1)).

Definition memblock_overlaps_region (ty : memblock_type) (base size : Z) : bool :=
  existsb (λ r, memblock_addrs_overlap base size (r_base r) (r_size r)) (t_regions ty).

(** ** The region array *)

Definition memblock_insert_region (ty : memblock_type) (idx : nat)
    (base size flags : Z) : outcome memblock_type :=
  if t_max ty <=? cnt ty then Panic
  else
    let rs := t_regions ty in
    Ok (MkType (t_max ty) (u64 (t_total_size ty + size))
          (take idx rs ++ MkRegion base size flags :: drop idx rs) (t_array ty)).

(** [regions[i]]. The code only indexes live entries; the default is never
    read in a reachable state. *)
Definition region_at (ty : memblock_type) (i : nat) : memblock_region :=
  default dummy_region (t_regions ty !! i).

Definition memblock_remove_region (ty : memblock_type) (r : nat) : memblock_type :=
  let total := u64 (t_total_size ty - r_size (region_at ty r)) in
  let rs := take r (t_regions ty) ++ drop (S r) (t_regions ty) in
  match rs with
  | [] => MkType (t_max ty) total [dummy_region] (t_array ty)
  | _ => MkType (t_max ty) total rs (t_array ty)
  end.

Fixpoint merge_loop (fuel : nat) (rs : list memblock_region) (i : nat)
    : outcome (list memblock_region) :=
  match fuel with
  | O => Fuel
  | S fuel =>
      match rs !! i, rs !! S i with
      | Some this, Some next =>
          if negb (r_end this =? r_base next)
             || negb (memblock_get_region_node this =? memblock_get_region_node next)
             || negb (r_flags this =? r_flags next)
          then if r_base next <? r_end this then Panic
               else merge_loop fuel rs (S i)
          else
            let this' := MkRegion (r_base this) (u64 (r_size this + r_size next))
                           (r_flags this) in
            merge_loop fuel (take i rs ++ this' :: drop (S (S i)) rs) i
      | _, _ => Ok rs
      end
  end.

Definition memblock_merge_regions (ty : memblock_type) : outcome memblock_type :=
  rs ← merge_loop (S (length (t_regions ty))) (t_regions ty) 0;
  Ok (set_regions ty rs).

(** The [for_each_memblock_type] loop of [memblock_add_range], with the
    counter [nr_new] and, in the second round, the insertions. Returns the
    array, the index the loop stopped at, the rest of the area and [nr_new]. *)
Fixpoint add_loop (fuel : nat) (insert : bool) (flags end_ : Z)
    (ty : memblock_type) (idx : nat) (base nr_new : Z)
    : outcome (memblock_type * nat * Z * Z) :=
  match fuel with
  | O => Fuel
  | S fuel =>
      match t_regions ty !! idx with
      | None => Ok (ty, idx, base, nr_new)
      | Some rgn =>
          let rbase := r_base rgn in
          let rend := r_end rgn in
          if end_ <=? rbase then Ok (ty, idx, base, nr_new)
          else if rend <=? base then
            add_loop fuel insert flags end_ ty (S idx) base nr_new
          else if base <? rbase then
            '(ty, idx) ←
              (if insert
               then ty ← memblock_insert_region ty idx base (u64 (rbase - base)) flags;
                    Ok (ty, S idx)
               else Ok (ty, idx));
            add_loop fuel insert flags end_ ty (S idx) (Z.min rend end_) (nr_new + 1)
          else
            add_loop fuel insert flags end_ ty (S idx) (Z.min rend end_) nr_new
      end
  end.

(** One round of [memblock_add_range] after the label [repeat]. *)
Definition add_round (insert : bool) (flags obase end_ : Z) (ty : memblock_type)
    : outcome (memblock_type * Z) :=
  '(ty, idx, base, nr_new) ←
    add_loop (S (length (t_regions ty))) insert flags end_ ty 0 obase 0;
  if base <? end_ then
    ty ← (if insert
          then memblock_insert_region ty idx base (u64 (end_ - base)) flags
          else Ok ty);
    Ok (ty, nr_new + 1)
  else Ok (ty, nr_new).

(** The loop of [memblock_isolate_range]. *)
Fixpoint isolate_loop (fuel : nat) (base end_ : Z) (ty : memblock_type)
    (idx : nat) (start_rgn end_rgn : Z) : outcome (memblock_type * Z * Z) :=
  match fuel with
  | O => Fuel
  | S fuel =>
      match t_regions ty !! idx with
      | None => Ok (ty, start_rgn, end_rgn)
      | Some rgn =>
          let rbase := r_base rgn in
          let rend := r_end rgn in
          if end_ <=? rbase then Ok (ty, start_rgn, end_rgn)
          else if rend <=? base then
            isolate_loop fuel base end_ ty (S idx) start_rgn end_rgn
          else if rbase <? base then
            let rgn' := MkRegion base (u64 (r_size rgn - u64 (base - rbase))) (r_flags rgn) in
            let ty' := MkType (t_max ty) (u64 (t_total_size ty - u64 (base - rbase)))
                         (<[idx := rgn']> (t_regions ty)) (t_array ty) in
            ty' ← memblock_insert_region ty' idx rbase (u64 (base - rbase)) (r_flags rgn);
            isolate_loop fuel base end_ ty' (S idx) start_rgn end_rgn
          else if end_ <? rend then
            let rgn' := MkRegion end_ (u64 (r_size rgn - u64 (end_ - rbase))) (r_flags rgn) in
            let ty' := MkType (t_max ty) (u64 (t_total_size ty - u64 (end_ - rbase)))
                         (<[idx := rgn']> (t_regions ty)) (t_array ty) in
            ty' ← memblock_insert_region ty' idx rbase (u64 (end_ - rbase)) (r_flags rgn);
            isolate_loop fuel base end_ ty' idx start_rgn end_rgn
          else
            isolate_loop fuel base end_ ty (S idx)
              (if end_rgn =? 0 then Z.of_nat idx else start_rgn) (Z.of_nat idx + 1)
      end
  end.

(** [for (i = end_rgn - 1; i >= start_rgn; i--) memblock_remove_region] *)
Fixpoint remove_loop (n : nat) (start_rgn : Z) (ty : memblock_type) : memblock_type :=
  match n with
  | O => ty
  | S n => remove_loop n start_rgn
             (memblock_remove_region ty (Z.to_nat (start_rgn + Z.of_nat n)))
  end.

Fixpoint setclr_loop (n : nat) (i : nat) (set : bool) (flag : Z)
    (rs : list memblock_region) : list memblock_region :=
  match n with
  | O => rs
  | S n =>
      let rs := alter (λ r, MkRegion (r_base r) (r_size r)
                  (if set then Z.lor (r_flags r) flag
                   else Z.land (r_flags r) (Z.lnot flag))) i rs in
      setclr_loop n (S i) set flag rs
  end.

(** [memblock_search]: the do-while binary search. *)
Fixpoint search_loop (fuel : nat) (ty : memblock_type) (addr left right : Z) : outcome Z :=
  match fuel with
  | O => Fuel
  | S fuel =>
      let mid := u32 (right + left) / 2 in
      let r := region_at ty (Z.to_nat mid) in
      let next left right :=
        if left <? right then search_loop fuel ty addr left right else Ok (-1) in
      if addr <? r_base r then next left mid
      else if r_end r <=? addr then next (u32 (mid + 1)) right
      else Ok mid
  end.

Definition memblock_search (ty : memblock_type) (addr : Z) : outcome Z :=
  search_loop (S (length (t_regions ty))) ty addr 0 (u32 (cnt ty)).

Definition memblock_is_region_memory (mb : memblock) (base size : Z) : outcome bool :=
  idx ← memblock_search (memory mb) base;
  let end_ := u64 (base + memblock_cap_size base size) in
  Ok (if idx =? -1 then false
      else end_ <=? r_end (region_at (memory mb) (Z.to_nat idx))).

Definition memblock_is_region_reserved (mb : memblock) (base size : Z) : bool :=
  memblock_overlaps_region (reserved mb) base (memblock_cap_size base size).

Definition memblock_start_of_DRAM (mb : memblock) : Z :=
  r_base (region_at (memory mb) 0).

Definition memblock_end_of_DRAM (mb : memblock) : Z :=
  r_end (region_at (memory mb) (length (t_regions (memory mb)) - 1)).

(** ** Iteration over ranges *)

Definition should_skip_region (m : memblock_region) (nid flags : Z) : bool :=
  let m_nid := memblock_get_region_node m in
  if negb (nid =? NUMA_NO_NODE) && negb (nid =? m_nid) then true
  else if movable_node_is_enabled && memblock_is_hotpluggable m then true
  else if negb (Z.land flags MEMBLOCK_MIRROR =? 0) && negb (memblock_is_mirror m) then true
  else if (Z.land flags MEMBLOCK_NOMAP =? 0) && memblock_is_nomap m then true
  else false.

(** [*idx = (u32)idx_a | (u64)idx_b << 32] *)
Definition pack_idx (idx_a idx_b : Z) : Z :=
  Z.lor (u32 idx_a) (u64 (Z.shiftl (u64 idx_b) 32)).

(** Bounds of the area before entry [idx_b] of [type_b]. *)
Definition gap_start (ty : memblock_type) (idx_b : Z) : Z :=
  if idx_b =? 0 then 0 else r_end (region_at ty (Z.to_nat (idx_b - 1))).
Definition gap_end (ty : memblock_type) (idx_b : Z) : Z :=
  if idx_b <? cnt ty then r_base (region_at ty (Z.to_nat idx_b)) else PHYS_ADDR_MAX.

(** What a call of the iterators leaves behind: the packed index and, unless
    it signals the end, the range and its node. *)
Definition iter_result : Type := Z * option (Z * Z * Z).

(** The inner loop of [__next_mem_range] over the areas between the entries
    of [type_b]: [inl] the range found, [inr] the [idx_b] it broke out at. *)
Fixpoint next_inner (fuel : nat) (type_b : memblock_type)
    (m_start m_end m_nid idx_a idx_b : Z) : outcome (iter_result + Z) :=
  match fuel with
  | O => Fuel
  | S fuel =>
      if u64 idx_b <? u64 (cnt type_b + 1) then
        let r_start := gap_start type_b idx_b in
        let r_end := gap_end type_b idx_b in
        if m_end <=? r_start then Ok (inr idx_b)
        else if m_start <? r_end then
          let '(idx_a', idx_b') :=
            if m_end <=? r_end then (idx_a + 1, idx_b) else (idx_a, idx_b + 1) in
          Ok (inl (pack_idx idx_a' idx_b',
                   Some (Z.max m_start r_start, Z.min m_end r_end, m_nid)))
        else next_inner fuel type_b m_start m_end m_nid idx_a (idx_b + 1)
      else Ok (inr idx_b)
  end.

Fixpoint next_outer (fuel : nat) (nid flags : Z) (type_a : memblock_type)
    (type_b : option memblock_type) (idx_a idx_b : Z) : outcome iter_result :=
  match fuel with
  | O => Fuel
  | S fuel =>
      if u64 idx_a <? cnt type_a then
        let m := region_at type_a (Z.to_nat idx_a) in
        let m_start := r_base m in
        let m_end := r_end m in
        let m_nid := memblock_get_region_node m in
        if should_skip_region m nid flags
        then next_outer fuel nid flags type_a type_b (idx_a + 1) idx_b
        else
          match type_b with
          | None => Ok (pack_idx (idx_a + 1) idx_b, Some (m_start, m_end, m_nid))
          | Some ty_b =>
              r ← next_inner (S (S (length (t_regions ty_b)))) ty_b
                    m_start m_end m_nid idx_a idx_b;
              match r with
              | inl found => Ok found
              | inr idx_b => next_outer fuel nid flags type_a type_b (idx_a + 1) idx_b
              end
          end
      else Ok (ULLONG_MAX, None)
  end.

Definition __next_mem_range (idx nid flags : Z) (type_a : memblock_type)
    (type_b : option memblock_type) : outcome iter_result :=
  let idx_a := s32 (Z.land idx 0xffffffff) in
  let idx_b := s32 (Z.shiftr idx 32) in
  let nid := if nid =? MAX_NUMNODES then NUMA_NO_NODE else nid in
  next_outer (S (length (t_regions type_a))) nid flags type_a type_b idx_a idx_b.

Fixpoint next_rev_inner (fuel : nat) (type_b : memblock_type)
    (m_start m_end m_nid idx_a idx_b : Z) : outcome (iter_result + Z) :=
  match fuel with
  | O => Fuel
  | S fuel =>
      if 0 <=? idx_b then
        let r_start := gap_start type_b idx_b in
        let r_end := gap_end type_b idx_b in
        if r_end <=? m_start then Ok (inr idx_b)
        else if r_start <? m_end then
          let '(idx_a', idx_b') :=
            if r_start <=? m_start then (idx_a - 1, idx_b) else (idx_a, idx_b - 1) in
          Ok (inl (pack_idx idx_a' idx_b',
                   Some (Z.max m_start r_start, Z.min m_end r_end, m_nid)))
        else next_rev_inner fuel type_b m_start m_end m_nid idx_a (idx_b - 1)
      else Ok (inr idx_b)
  end.

Fixpoint next_rev_outer (fuel : nat) (nid flags : Z) (type_a : memblock_type)
    (type_b : option memblock_type) (idx_a idx_b : Z) : outcome iter_result :=
  match fuel with
  | O => Fuel
  | S fuel =>
      if 0 <=? idx_a then
        let m := region_at type_a (Z.to_nat idx_a) in
        let m_start := r_base m in
        let m_end := r_end m in
        let m_nid := memblock_get_region_node m in
        if should_skip_region m nid flags
        then next_rev_outer fuel nid flags type_a type_b (idx_a - 1) idx_b
        else
          match type_b with
          | None => Ok (pack_idx (idx_a - 1) idx_b, Some (m_start, m_end, m_nid))
          | Some ty_b =>
              r ← next_rev_inner (S (S (length (t_regions ty_b)))) ty_b
                    m_start m_end m_nid idx_a idx_b;
              match r with
              | inl found => Ok found
              | inr idx_b => next_rev_outer fuel nid flags type_a type_b (idx_a - 1) idx_b
              end
          end
      else Ok (ULLONG_MAX, None)
  end.

Definition __next_mem_range_rev (idx nid flags : Z) (type_a : memblock_type)
    (type_b : option memblock_type) : outcome iter_result :=
  let nid := if nid =? MAX_NUMNODES then NUMA_NO_NODE else nid in
  let '(idx_a, idx_b) :=
    if idx =? ULLONG_MAX
    then (s32 (cnt type_a - 1),
          match type_b with Some ty_b => s32 (cnt ty_b) | None => 0 end)
    else (s32 (Z.land idx 0xffffffff), s32 (Z.shiftr idx 32)) in
  next_rev_outer (S (length (t_regions type_a))) nid flags type_a type_b idx_a idx_b.

(** [__next_reserved_mem_region]: the next index and the bounds (inclusive)
    of the region, if there is one. *)
Definition __next_reserved_mem_region (mb : memblock) (idx : Z) : Z * option (Z * Z) :=
  let type := reserved mb in
  if idx <? cnt type then
    let r := region_at type (Z.to_nat idx) in
    (u64 (idx + 1), Some (r_base r, u64 (u64 (r_base r + r_size r) - 1)))
  else (ULLONG_MAX, None).

(** [__next_mem_pfn_range]: the while loop from [*idx + 1] on. *)
Fixpoint next_pfn_loop (fuel : nat) (ty : memblock_type) (nid idx : Z)
    : outcome (Z * option (Z * Z * Z)) :=
  match fuel with
  | O => Fuel
  | S fuel =>
      let idx := idx + 1 in
      if idx <? cnt ty then
        let r := region_at ty (Z.to_nat idx) in
        let r_nid := memblock_get_region_node r in
        if PFN_DOWN (r_end r) <=? PFN_UP (r_base r) then next_pfn_loop fuel ty nid idx
        else if (nid =? MAX_NUMNODES) || (nid =? r_nid)
        then Ok (idx, Some (PFN_UP (r_base r), PFN_DOWN (r_end r), r_nid))
        else next_pfn_loop fuel ty nid idx
      else Ok (-1, None)
  end.

Definition __next_mem_pfn_range (mb : memblock) (idx nid : Z)
    : outcome (Z * option (Z * Z * Z)) :=
  next_pfn_loop (S (length (t_regions (memory mb)))) (memory mb) nid idx.

(** ** Finding free memory *)

(** Fuel for a walk over the free ranges: each step advances one of the two
    indices. *)
Definition walk_fuel (mb : memblock) : nat :=
  S (S (length (t_regions (memory mb)) + length (t_regions (reserved mb)))).

(** The macros [for_each_mem_range] and [for_each_mem_range_rev], collecting
    the ranges their bodies see; the first call gets 0 or [ULLONG_MAX]. *)
Fixpoint for_each_mem_range (fuel : nat) (type_a type_b : memblock_type)
    (nid flags idx : Z) : outcome (list (Z * Z)) :=
  match fuel with
  | O => Fuel
  | S fuel =>
      '(idx, out) ← __next_mem_range idx nid flags type_a (Some type_b);
      if idx =? ULLONG_MAX then Ok []
      else match out with
           | None => Ok []
           | Some (s, e, _) =>
               l ← for_each_mem_range fuel type_a type_b nid flags idx;
               Ok ((s, e) :: l)
           end
  end.

Fixpoint for_each_mem_range_rev (fuel : nat) (type_a type_b : memblock_type)
    (nid flags idx : Z) : outcome (list (Z * Z)) :=
  match fuel with
  | O => Fuel
  | S fuel =>
      '(idx, out) ← __next_mem_range_rev idx nid flags type_a (Some type_b);
      if idx =? ULLONG_MAX then Ok []
      else match out with
           | None => Ok []
           | Some (s, e, _) =>
               l ← for_each_mem_range_rev fuel type_a type_b nid flags idx;
               Ok ((s, e) :: l)
           end
  end.

Definition for_each_free_mem_range (mb : memblock) (nid flags : Z) :=
  for_each_mem_range (walk_fuel mb) (memory mb) (reserved mb) nid flags 0.
Definition for_each_free_mem_range_reverse (mb : memblock) (nid flags : Z) :=
  for_each_mem_range_rev (walk_fuel mb) (memory mb) (reserved mb) nid flags ULLONG_MAX.

Fixpoint find_bottom_up_loop (fuel : nat) (mb : memblock)
    (start end_ size align nid flags idx : Z) : outcome Z :=
  match fuel with
  | O => Fuel
  | S fuel =>
      '(idx, out) ← __next_mem_range idx nid flags (memory mb) (Some (reserved mb));
      if idx =? ULLONG_MAX then Ok 0
      else
        match out with
        | None => Ok 0
        | Some (this_start, this_end, _) =>
            let this_start := clamp this_start start end_ in
            let this_end := clamp this_end start end_ in
            let cand := round_up this_start align in
            if (cand <? this_end) && (size <=? u64 (this_end - cand)) then Ok cand
            else find_bottom_up_loop fuel mb start end_ size align nid flags idx
        end
  end.

Definition __memblock_find_range_bottom_up (mb : memblock)
    (start end_ size align nid flags : Z) : outcome Z :=
  find_bottom_up_loop (walk_fuel mb) mb start end_ size align nid flags 0.

Fixpoint find_top_down_loop (fuel : nat) (mb : memblock)
    (start end_ size align nid flags idx : Z) : outcome Z :=
  match fuel with
  | O => Fuel
  | S fuel =>
      '(idx, out) ← __next_mem_range_rev idx nid flags (memory mb) (Some (reserved mb));
      if idx =? ULLONG_MAX then Ok 0
      else
        match out with
        | None => Ok 0
        | Some (this_start, this_end, _) =>
            let this_start := clamp this_start start end_ in
            let this_end := clamp this_end start end_ in
            if this_end <? size
            then find_top_down_loop fuel mb start end_ size align nid flags idx
            else
              let cand := round_down (u64 (this_end - size)) align in
              if this_start <=? cand then Ok cand
              else find_top_down_loop fuel mb start end_ size align nid flags idx
        end
  end.

Definition __memblock_find_range_top_down (mb : memblock)
    (start end_ size align nid flags : Z) : outcome Z :=
  find_top_down_loop (walk_fuel mb) mb start end_ size align nid flags ULLONG_MAX.

Definition memblock_find_in_range_node (env : environment) (mb : memblock)
    (size align start end_ nid flags : Z) : outcome Z :=
  let end_ :=
    if (end_ =? MEMBLOCK_ALLOC_ACCESSIBLE) || (end_ =? MEMBLOCK_ALLOC_KASAN)
    then current_limit mb else end_ in
  let start := Z.max start PAGE_SIZE in
  let end_ := Z.max start end_ in
  let kernel_end := kernel_end env in
  ret ←
    (if bottom_up mb && (kernel_end <? end_) then
       let bottom_up_start := Z.max start kernel_end in
       __memblock_find_range_bottom_up mb bottom_up_start end_ size align nid flags
     else Ok 0);
  if negb (ret =? 0) then Ok ret
  else __memblock_find_range_top_down mb start end_ size align nid flags.

Definition memblock_find_in_range (env : environment) (mb : memblock)
    (start end_ size align : Z) : outcome Z :=
  let flags := choose_memblock_flags mb in
  ret ← memblock_find_in_range_node env mb size align start end_ NUMA_NO_NODE flags;
  if (ret =? 0) && negb (Z.land flags MEMBLOCK_MIRROR =? 0)
  then memblock_find_in_range_node env mb size align start end_ NUMA_NO_NODE
         (Z.land flags (Z.lnot MEMBLOCK_MIRROR))
  else Ok ret.

(** ** Adding, isolating and removing ranges

    These call [memblock_double_array], which calls them again: each takes
    the routine that doubles an array as an argument, and the recursion is
    tied at the end. *)

Definition doubler : Type := memblock → mtype → Z → Z → outcome (Z * memblock).

(** [while (type->cnt + need > type->max) if (memblock_double_array(..) < 0)]:
    every success doubles the capacity, so 64 rounds exceed any word. *)
Fixpoint grow (fuel : nat) (dbl : doubler) (mb : memblock) (t : mtype)
    (need area_start area_size : Z) : outcome (bool * memblock) :=
  match fuel with
  | O => Fuel
  | S fuel =>
      if t_max (get_type mb t) <? cnt (get_type mb t) + need then
        '(rv, mb) ← dbl mb t area_start area_size;
        if rv <? 0 then Ok (false, mb)
        else grow fuel dbl mb t need area_start area_size
      else Ok (true, mb)
  end.

Definition add_range_with (dbl : doubler) (mb : memblock) (t : mtype)
    (base size flags : Z) : outcome (Z * memblock) :=
  let obase := base in
  let size := memblock_cap_size base size in
  let end_ := u64 (base + size) in
  let ty := get_type mb t in
  if size =? 0 then Ok (0, mb)
  else if r_size (region_at ty 0) =? 0 then
    let rs := <[0%nat := MkRegion base size flags]> (t_regions ty) in
    Ok (0, set_type mb t (MkType (t_max ty) size rs (t_array ty)))
  else
    '(ty, nr_new) ← add_round false flags obase end_ ty;
    if nr_new =? 0 then Ok (0, mb)
    else
      '(grown, mb) ← grow 64 dbl mb t nr_new obase size;
      if negb grown then Ok (- ENOMEM, mb)
      else
        '(ty, nr_new) ← add_round true flags obase end_ (get_type mb t);
        if nr_new =? 0 then Ok (0, set_type mb t ty)
        else
          ty ← memblock_merge_regions ty;
          Ok (0, set_type mb t ty).

Definition isolate_range_with (dbl : doubler) (mb : memblock) (t : mtype)
    (base size : Z) : outcome (Z * memblock * Z * Z) :=
  let size := memblock_cap_size base size in
  let end_ := u64 (base + size) in
  if size =? 0 then Ok (0, mb, 0, 0)
  else
    '(grown, mb) ← grow 64 dbl mb t 2 base size;
    if negb grown then Ok (- ENOMEM, mb, 0, 0)
    else
      let ty := get_type mb t in
      '(ty, start_rgn, end_rgn) ←
        isolate_loop (2 * length (t_regions ty) + 4) base end_ ty 0 0 0;
      Ok (0, set_type mb t ty, start_rgn, end_rgn).

Definition remove_range_with (dbl : doubler) (mb : memblock) (t : mtype)
    (base size : Z) : outcome (Z * memblock) :=
  '(ret, mb, start_rgn, end_rgn) ← isolate_range_with dbl mb t base size;
  if negb (ret =? 0) then Ok (ret, mb)
  else Ok (0, set_type mb t
             (remove_loop (Z.to_nat (end_rgn - start_rgn)) start_rgn (get_type mb t))).

(** [sizeof(struct memblock_region)]: two 64-bit words and an enum, padded. *)
Definition sizeof_region : Z := 24.

Definition double_array_with (dbl : doubler) (env : environment) (mb : memblock)
    (t : mtype) (new_area_start new_area_size : Z) : outcome (Z * memblock) :=
  let use_slab := slab_is_available env in
  let ty := get_type mb t in
  if negb (memblock_can_resize mb) then Ok (-1, mb)
  else
    let old_size := u64 (t_max ty * sizeof_region) in
    let new_size := u64 (Z.shiftl old_size 1) in
    let old_alloc_size := PAGE_ALIGN old_size in
    let new_alloc_size := PAGE_ALIGN new_size in
    addr ←
      (if use_slab then Ok (kmalloc_pa env new_size)
       else
         let '(new_area_start, new_area_size) :=
           match t with
           | RESERVED => (new_area_start, new_area_size)
           | MEMORY => (0, 0)
           end in
         addr ← memblock_find_in_range env mb (u64 (new_area_start + new_area_size))
                  (current_limit mb) new_alloc_size PAGE_SIZE;
         if (addr =? 0) && negb (new_area_size =? 0)
         then memblock_find_in_range env mb 0 (Z.min new_area_start (current_limit mb))
                new_alloc_size PAGE_SIZE
         else Ok addr);
    if addr =? 0 then Ok (-1, mb)
    else
      let old_array := t_array ty in
      let mb := set_type mb t (MkType (u64 (Z.shiftl (t_max ty) 1)) (t_total_size ty)
                                 (t_regions ty) (AllocArray addr)) in
      mb ←
        (if in_slab mb t then Ok mb
         else match old_array with
              | InitArray => Ok mb
              | AllocArray pa =>
                  '(_, mb) ← remove_range_with dbl mb RESERVED pa old_alloc_size;
                  Ok mb
              end);
      mb ←
        (if use_slab then Ok mb
         else
           '(rv, mb) ← add_range_with dbl mb RESERVED addr new_alloc_size 0;
           if negb (rv =? 0) then Panic else Ok mb);
      Ok (0, set_in_slab mb t use_slab).

(** The recursion between the routines above, [depth] calls of
    [memblock_double_array] deep. *)
Fixpoint memblock_double_array (depth : nat) (env : environment) : doubler :=
  match depth with
  | O => λ mb t s sz, Fuel
  | S depth => double_array_with (memblock_double_array depth env) env
  end.

(** Nested doublings the model follows. *)
Definition max_depth : nat := 8.

Definition memblock_add_range (env : environment) (mb : memblock) (t : mtype)
    (base size flags : Z) : outcome (Z * memblock) :=
  add_range_with (memblock_double_array max_depth env) mb t base size flags.

Definition memblock_isolate_range (env : environment) (mb : memblock) (t : mtype)
    (base size : Z) : outcome (Z * memblock * Z * Z) :=
  isolate_range_with (memblock_double_array max_depth env) mb t base size.

Definition memblock_remove_range (env : environment) (mb : memblock) (t : mtype)
    (base size : Z) : outcome (Z * memblock) :=
  remove_range_with (memblock_double_array max_depth env) mb t base size.

Definition memblock_add (env : environment) (mb : memblock) (base size : Z) :=
  memblock_add_range env mb MEMORY base size 0.
Definition memblock_remove (env : environment) (mb : memblock) (base size : Z) :=
  memblock_remove_range env mb MEMORY base size.
Definition memblock_free (env : environment) (mb : memblock) (base size : Z) :=
  memblock_remove_range env mb RESERVED base size.
Definition memblock_reserve (env : environment) (mb : memblock) (base size : Z) :=
  memblock_add_range env mb RESERVED base size 0.

Definition memblock_setclr_flag (env : environment) (mb : memblock)
    (base size : Z) (set : bool) (flag : Z) : outcome (Z * memblock) :=
  '(ret, mb, start_rgn, end_rgn) ← memblock_isolate_range env mb MEMORY base size;
  if negb (ret =? 0) then Ok (ret, mb)
  else
    let ty := memory mb in
    let rs := setclr_loop (Z.to_nat (end_rgn - start_rgn)) (Z.to_nat start_rgn)
                set flag (t_regions ty) in
    ty ← memblock_merge_regions (set_regions ty rs);
    Ok (0, set_type mb MEMORY ty).

Definition memblock_mark_hotplug (env : environment) (mb : memblock) (base size : Z) :=
  memblock_setclr_flag env mb base size true MEMBLOCK_HOTPLUG.
Definition memblock_clear_hotplug (env : environment) (mb : memblock) (base size : Z) :=
  memblock_setclr_flag env mb base size false MEMBLOCK_HOTPLUG.

(** Without CONFIG_NEED_MULTIPLE_NODES there is no node to set. *)
Definition memblock_set_node (mb : memblock) (base size : Z) (t : mtype) (nid : Z)
    : Z * memblock := (0, mb).

Definition memblock_allow_resize (mb : memblock) : memblock :=
  MkMemblock (bottom_up mb) (current_limit mb) (memory mb) (reserved mb)
    (system_has_some_mirror mb) true
    (memblock_memory_in_slab mb) (memblock_reserved_in_slab mb).

Definition memblock_set_bottom_up (mb : memblock) (enable : bool) : memblock :=
  MkMemblock enable (current_limit mb) (memory mb) (reserved mb)
    (system_has_some_mirror mb) (memblock_can_resize mb)
    (memblock_memory_in_slab mb) (memblock_reserved_in_slab mb).

(** ** Allocation *)

(** One pass of [memblock_alloc_range_nid] from the label [again]. *)
Definition alloc_pass (env : environment) (mb : memblock)
    (size align start end_ nid : Z) (exact_nid : bool) (flags : Z)
    : outcome (Z * memblock) :=
  let attempt mb nid :=
    found ← memblock_find_in_range_node env mb size align start end_ nid flags;
    if found =? 0 then Ok (0, mb)
    else
      '(rv, mb) ← memblock_reserve env mb found size;
      Ok (if rv =? 0 then found else 0, mb) in
  '(found, mb) ← attempt mb nid;
  if negb (found =? 0) then Ok (found, mb)
  else if negb (nid =? NUMA_NO_NODE) && negb exact_nid
  then attempt mb NUMA_NO_NODE
  else Ok (0, mb).

Definition memblock_alloc_range_nid (env : environment) (mb : memblock)
    (size align start end_ nid : Z) (exact_nid : bool) : outcome (Z * memblock) :=
  let flags := choose_memblock_flags mb in
  let nid := if nid =? MAX_NUMNODES then NUMA_NO_NODE else nid in
  let align := if align =? 0 then SMP_CACHE_BYTES else align in
  '(found, mb) ← alloc_pass env mb size align start end_ nid exact_nid flags;
  if negb (found =? 0) then Ok (found, mb)
  else if negb (Z.land flags MEMBLOCK_MIRROR =? 0)
  then alloc_pass env mb size align start end_ nid exact_nid
         (Z.land flags (Z.lnot MEMBLOCK_MIRROR))
  else Ok (0, mb).

Definition memblock_phys_alloc_range (env : environment) (mb : memblock)
    (size align start end_ : Z) : outcome (Z * memblock) :=
  memblock_alloc_range_nid env mb size align start end_ NUMA_NO_NODE false.

Definition memblock_phys_alloc_try_nid (env : environment) (mb : memblock)
    (size align nid : Z) : outcome (Z * memblock) :=
  memblock_alloc_range_nid env mb size align 0 MEMBLOCK_ALLOC_ACCESSIBLE nid false.

(** [memblock_alloc_internal]: the physical address of the block, 0 for
    NULL. *)
Definition memblock_alloc_internal (env : environment) (mb : memblock)
    (size align min_addr max_addr nid : Z) (exact_nid : bool) : outcome (Z * memblock) :=
  if slab_is_available env then Ok (kzalloc_node_pa env size nid, mb)
  else
    let max_addr := if current_limit mb <? max_addr then current_limit mb else max_addr in
    '(alloc, mb) ← memblock_alloc_range_nid env mb size align min_addr max_addr nid exact_nid;
    if (alloc =? 0) && negb (min_addr =? 0)
    then memblock_alloc_range_nid env mb size align 0 max_addr nid exact_nid
    else Ok (alloc, mb).

End Memblock.
