(* ===== verification/MemblockRegions.v ===== *)
(** * Region arrays: the invariant and the set of addresses they stand for

    A well-formed array is sorted by address, its regions are nonempty,
    pairwise disjoint and end below the last address, or it is the single
    empty dummy entry. Its meaning is the set of addresses it covers; the
    lemmas here say what filling, merging and splitting do to both. *)

From stdpp Require Import base numbers list option sorting.
From Stdlib Require Import ZArith Lia.
From S2P Require Import Prelude Memblock.
Import Memblock.

Open Scope Z_scope.

(** ** Meaning and invariant *)

Definition in_region (x : Z) (r : memblock_region) : Prop :=
  r_base r ≤ x < r_base r + r_size r.

Definition covered (rs : list memblock_region) (x : Z) : Prop :=
  Exists (in_region x) rs.

Definition region_ok (r : memblock_region) : Prop :=
  0 ≤ r_base r ∧ 0 < r_size r ∧ r_base r + r_size r ≤ PHYS_ADDR_MAX.

Definition before (r1 r2 : memblock_region) : Prop :=
  r_base r1 + r_size r1 ≤ r_base r2.

Definition regions_ok (rs : list memblock_region) : Prop :=
  Forall region_ok rs ∧ StronglySorted before rs.

Fixpoint sum_size (rs : list memblock_region) : Z :=
  match rs with [] => 0 | r :: rs => r_size r + sum_size rs end.

(** The array of a [memblock_type]: the dummy entry, or a nonempty sorted
    array of disjoint regions. *)
Definition array_ok (rs : list memblock_region) : Prop :=
  rs = [dummy_region] ∨ (rs ≠ [] ∧ regions_ok rs).

Definition type_ok (ty : memblock_type) : Prop :=
  array_ok (t_regions ty) ∧ t_total_size ty = sum_size (t_regions ty) ∧
  cnt ty ≤ t_max ty.

(** The same as a test, for concrete arrays. *)
Fixpoint regions_check (lo : Z) (rs : list memblock_region) : bool :=
  match rs with
  | [] => true
  | r :: rs =>
      (lo <=? r_base r) && (0 <? r_size r) && (r_base r + r_size r <=? PHYS_ADDR_MAX) &&
      regions_check (r_base r + r_size r) rs
  end.

Definition type_check (ty : memblock_type) : bool :=
  (bool_decide (t_regions ty = [dummy_region]) ||
   bool_decide (t_regions ty ≠ []) && regions_check 0 (t_regions ty)) &&
  (t_total_size ty =? sum_size (t_regions ty)) && (cnt ty <=? t_max ty).

(** Neighbouring compatible regions are merged. *)
Fixpoint minimal (rs : list memblock_region) : Prop :=
  match rs with
  | r :: (r' :: _) as rs' =>
      ¬ (r_base r + r_size r = r_base r' ∧ r_flags r = r_flags r') ∧ minimal rs'
  | _ => True
  end.

(** ** The effect of the loops, as functions on lists *)

(** The new area fills what the regions from [base] to [end_] leave open. *)
Fixpoint fill (flags end_ : Z) (rs : list memblock_region) (base : Z)
    : list memblock_region :=
  let rest base := if base <? end_ then [MkRegion base (end_ - base) flags] else [] in
  match rs with
  | [] => rest base
  | r :: rs' =>
      if end_ <=? r_base r then rest base ++ rs
      else if r_base r + r_size r <=? base then r :: fill flags end_ rs' base
      else
        (if base <? r_base r then [MkRegion base (r_base r - base) flags] else [])
        ++ r :: fill flags end_ rs' (Z.min (r_base r + r_size r) end_)
  end.

(** Merging compatible neighbours, from the current region on. *)
Fixpoint merge_from (cur : memblock_region) (rs : list memblock_region)
    : list memblock_region :=
  match rs with
  | [] => [cur]
  | r :: rs =>
      if (r_base cur + r_size cur =? r_base r) && (r_flags cur =? r_flags r)
      then merge_from (MkRegion (r_base cur) (r_size cur + r_size r) (r_flags cur)) rs
      else cur :: merge_from r rs
  end.

Definition merged (rs : list memblock_region) : list memblock_region :=
  match rs with [] => [] | r :: rs => merge_from r rs end.

Create HintDb memblock.

Lemma covered_nil x : ¬ covered [] x.
Proof. intros H. by inversion H. Qed.

Lemma covered_cons r rs x : covered (r :: rs) x ↔ in_region x r ∨ covered rs x.
Proof. apply Exists_cons. Qed.

Lemma covered_app rs1 rs2 x : covered (rs1 ++ rs2) x ↔ covered rs1 x ∨ covered rs2 x.
Proof. apply Exists_app. Qed.

Lemma covered_dummy x : ¬ covered [dummy_region] x.
Proof.
  rewrite covered_cons. unfold in_region, dummy_region; cbn.
  intros [?|H]; [lia|by apply covered_nil in H].
Qed.

Lemma covered_elem rs x : covered rs x ↔ ∃ r, r ∈ rs ∧ in_region x r.
Proof. unfold covered. apply Exists_exists. Qed.

Lemma r_end_ok r : region_ok r → r_end r = r_base r + r_size r.
Proof.
  intros (?&?&?). unfold r_end. apply u64_id. unfold PHYS_ADDR_MAX in *. lia.
Qed.

Lemma regions_ok_cons r rs :
  regions_ok (r :: rs) ↔ region_ok r ∧ Forall (before r) rs ∧ regions_ok rs.
Proof.
  unfold regions_ok. rewrite Forall_cons. split.
  - intros [[? ?] Hs]. apply StronglySorted_inv in Hs. tauto.
  - intros (?&?&?&?). split_and!; try done. by constructor.
Qed.

Lemma regions_ok_nil : regions_ok [].
Proof. split; constructor. Qed.

Lemma regions_ok_app rs1 rs2 :
  regions_ok (rs1 ++ rs2) ↔
  regions_ok rs1 ∧ regions_ok rs2 ∧ Forall (λ r, Forall (before r) rs2) rs1.
Proof.
  induction rs1 as [|r rs1 IH]; cbn.
  - split; [intros; split_and!; try done; apply regions_ok_nil || constructor|tauto].
  - rewrite !regions_ok_cons, IH, Forall_app, Forall_cons. tauto.
Qed.

Lemma regions_ok_single r : region_ok r → regions_ok [r].
Proof. intros. apply regions_ok_cons. split_and!; [done|constructor|apply regions_ok_nil]. Qed.

#[export] Hint Resolve regions_ok_nil regions_ok_single : memblock.

Lemma regions_check_ok lo rs :
  0 ≤ lo → regions_check lo rs = true → regions_ok rs ∧ Forall (λ r, lo ≤ r_base r) rs.
Proof.
  revert lo. induction rs as [|r rs IH]; intros lo Hlo; cbn; [by auto with memblock|].
  rewrite !andb_true_iff. intros [[[?%Z.leb_le ?%Z.ltb_lt] ?%Z.leb_le] Hrs].
  destruct (IH (r_base r + r_size r)) as [Hok Hb]; [lia|done|]. split.
  - apply regions_ok_cons. split_and!; [unfold region_ok; lia|done|done].
  - constructor; [done|]. eapply Forall_impl; [exact Hb|]. cbn. lia.
Qed.

Lemma type_check_ok ty : type_check ty = true → type_ok ty.
Proof.
  unfold type_check. rewrite !andb_true_iff, orb_true_iff, andb_true_iff, !bool_decide_eq_true.
  intros [[Harr ?%Z.eqb_eq] ?%Z.leb_le]. split_and!; [|done..].
  destruct Harr as [?|[? Hc]]; [by left|right]. split; [done|].
  by apply regions_check_ok in Hc as [? _].
Qed.

Lemma array_ok_covered_ok rs :
  array_ok rs → rs = [dummy_region] ∨ regions_ok rs.
Proof. unfold array_ok. tauto. Qed.

(** Regions of a sorted array that share an address are the same. *)
Lemma Forall_before_in r rs x :
  Forall (before r) rs → covered rs x → r_base r + r_size r ≤ x.
Proof.
  rewrite covered_elem, Forall_forall. intros H (r' & Hr' & ?).
  apply H in Hr'. unfold before, in_region in *. lia.
Qed.

(** ** Sizes do not overflow *)

Lemma sum_size_app rs1 rs2 : sum_size (rs1 ++ rs2) = sum_size rs1 + sum_size rs2.
Proof. induction rs1; cbn; lia. Qed.

Lemma sum_size_bound rs lo :
  regions_ok rs → Forall (λ r, lo ≤ r_base r) rs → 0 ≤ lo → lo ≤ PHYS_ADDR_MAX →
  0 ≤ sum_size rs ≤ PHYS_ADDR_MAX - lo.
Proof.
  revert lo. induction rs as [|r rs IH]; intros lo Hok Hlo H0 H1; cbn; [lia|].
  apply regions_ok_cons in Hok as ((?&?&?) & Hb & Hok).
  apply Forall_cons in Hlo as [? _].
  destruct (IH (r_base r + r_size r) Hok); [|lia|lia|lia].
  eapply Forall_impl; [exact Hb|]. done.
Qed.

Lemma regions_ok_lo rs : regions_ok rs → Forall (λ r, 0 ≤ r_base r) rs.
Proof. intros [H _]. eapply Forall_impl; [exact H|]. intros ? [? _]. done. Qed.

Lemma sum_size_range rs : regions_ok rs → 0 ≤ sum_size rs < 2 ^ 64.
Proof.
  intros H. destruct (sum_size_bound rs 0); auto using regions_ok_lo;
    unfold PHYS_ADDR_MAX in *; lia.
Qed.

(** ** Filling *)

Ltac regions_cases :=
  repeat match goal with
  | |- context [if ?x <=? ?y then _ else _] => destruct (Z.leb_spec x y)
  | |- context [if ?x <? ?y then _ else _] => destruct (Z.ltb_spec x y)
  end.

Lemma fill_done flags end_ rs base : end_ ≤ base → fill flags end_ rs base = rs.
Proof.
  revert base. induction rs as [|r rs IH]; intros base Hb; cbn; regions_cases;
    rewrite ?IH; try lia; done.
Qed.

Lemma fill_covered flags end_ rs base x :
  covered (fill flags end_ rs base) x ↔ covered rs x ∨ base ≤ x < end_.
Proof.
  revert base. induction rs as [|r rs IH]; intros base; cbn; regions_cases;
    cbn [app]; rewrite ?covered_cons, ?IH, ?covered_cons; unfold in_region; cbn;
    try (pose proof (covered_nil x)); try lia; intuition lia.
Qed.

Lemma fill_lower_bound lo flags end_ rs base :
  lo ≤ base → Forall (λ r, lo ≤ r_base r) rs →
  Forall (λ r, lo ≤ r_base r) (fill flags end_ rs base).
Proof.
  revert base. induction rs as [|r rs IH]; intros base Hb Hrs; cbn; regions_cases;
    cbn [app]; rewrite ?Forall_cons in *; cbn [r_base]; try tauto;
    try (split_and!; try tauto; apply IH; [lia|tauto]).
Qed.

Lemma before_lower_bound r rs :
  Forall (before r) rs ↔ Forall (λ r', r_base r + r_size r ≤ r_base r') rs.
Proof. done. Qed.

Lemma fill_ok flags end_ rs base :
  0 ≤ base → end_ ≤ PHYS_ADDR_MAX → regions_ok rs → regions_ok (fill flags end_ rs base).
Proof.
  revert base. induction rs as [|r rs IH]; intros base H0 Hend Hok; cbn.
  { regions_cases; auto with memblock. apply regions_ok_single. unfold region_ok; cbn; lia. }
  pose proof Hok as (Hr & Hb & Hrs)%regions_ok_cons.
  assert (region_ok r) as (?&?&?) by done.
  assert (∀ b, r_base r + r_size r ≤ b → regions_ok (r :: fill flags end_ rs b)) as Hnext.
  { intros b Hbb. apply regions_ok_cons. split_and!; [done| |apply IH; lia || done].
    apply before_lower_bound, fill_lower_bound; [lia|done]. }
  destruct (Z.leb_spec end_ (r_base r)).
  { regions_cases; cbn [app]; [|done]. apply regions_ok_cons. split_and!; [|  |done].
    - unfold region_ok; cbn; lia.
    - apply Forall_cons. split; [unfold before; cbn; lia|].
      eapply Forall_impl; [exact Hb|]. unfold before; cbn. lia. }
  destruct (Z.leb_spec (r_base r + r_size r) base); [by apply Hnext|].
  assert (regions_ok (r :: fill flags end_ rs (Z.min (r_base r + r_size r) end_))) as Hmin.
  { destruct (Z.le_ge_cases (r_base r + r_size r) end_).
    - rewrite Z.min_l by lia. by apply Hnext.
    - rewrite Z.min_r by lia. by rewrite fill_done. }
  destruct (Z.ltb_spec base (r_base r)); [|done]. cbn [app].
  pose proof Hmin as (_ & Hmb & _)%regions_ok_cons.
  apply regions_ok_cons. split_and!; [unfold region_ok; cbn; lia| |done].
  apply Forall_cons. split; [unfold before; cbn; lia|].
  eapply Forall_impl; [exact Hmb|]. unfold before; cbn. lia.
Qed.

(** The list the loop of [memblock_add_range] leaves, split at the index it
    stops at, and the rest of the area. *)
Fixpoint fill_split (flags end_ : Z) (rs : list memblock_region) (base : Z)
    : list memblock_region * list memblock_region * Z :=
  match rs with
  | [] => ([], [], base)
  | r :: rs' =>
      if end_ <=? r_base r then ([], rs, base)
      else if r_base r + r_size r <=? base then
        let '(l1, l2, b) := fill_split flags end_ rs' base in (r :: l1, l2, b)
      else
        let '(l1, l2, b) :=
          fill_split flags end_ rs' (Z.min (r_base r + r_size r) end_) in
        ((if base <? r_base r then [MkRegion base (r_base r - base) flags] else [])
         ++ r :: l1, l2, b)
  end.

Lemma fill_split_fill flags end_ rs base l1 l2 b :
  fill_split flags end_ rs base = (l1, l2, b) →
  fill flags end_ rs base =
    l1 ++ (if b <? end_ then [MkRegion b (end_ - b) flags] else []) ++ l2.
Proof.
  revert base l1 l2 b. induction rs as [|r rs IH]; intros base l1 l2 b; cbn.
  { intros [= <- <- <-]. by rewrite app_nil_r. }
  destruct (end_ <=? r_base r); [by intros [= <- <- <-]|].
  destruct (r_base r + r_size r <=? base);
    (destruct (fill_split flags end_ rs _) as [[l1' l2'] b'] eqn:E);
    intros [= <- <- <-]; rewrite (IH _ _ _ _ E); [done|].
  by rewrite <- app_assoc.
Qed.

Lemma fill_split_base flags end_ rs base l1 l2 b :
  fill_split flags end_ rs base = (l1, l2, b) →
  regions_ok rs → 0 ≤ base → base ≤ end_ → 0 ≤ b ≤ end_.
Proof.
  revert base l1 l2 b. induction rs as [|r rs IH]; intros base l1 l2 b; cbn.
  { intros [= <- <- <-]. lia. }
  intros E (Hr & _ & Hrs)%regions_ok_cons ? ?. destruct Hr as (?&?&?). revert E.
  regions_cases; try (destruct (fill_split flags end_ rs _) as [[l1' l2'] b'] eqn:E);
    intros [= <- <- <-]; try (eapply IH; [done|done|lia|lia]); lia.
Qed.

(** ** Merging *)

Lemma merge_from_covered cur rs x :
  0 ≤ r_size cur → Forall region_ok rs →
  covered (merge_from cur rs) x ↔ covered (cur :: rs) x.
Proof.
  revert cur. induction rs as [|r rs IH]; intros cur Hc Hrs; cbn; [done|].
  apply Forall_cons in Hrs as [(?&?&?) Hrs].
  destruct (Z.eqb_spec (r_base cur + r_size cur) (r_base r)) as [E|];
    [destruct (Z.eqb_spec (r_flags cur) (r_flags r))|]; cbn [andb].
  - rewrite IH by (cbn; lia || done). rewrite !covered_cons.
    unfold in_region; cbn. intuition lia.
  - rewrite covered_cons, IH by (lia || done). by rewrite !covered_cons.
  - rewrite covered_cons, IH by (lia || done). by rewrite !covered_cons.
Qed.

Lemma merge_from_ok cur rs :
  regions_ok (cur :: rs) →
  regions_ok (merge_from cur rs) ∧
  Forall (λ r, r_base cur ≤ r_base r) (merge_from cur rs).
Proof.
  revert cur. induction rs as [|r rs IH]; intros cur Hok; cbn.
  { split; [done|]. constructor; [lia|constructor]. }
  pose proof Hok as (Hc & Hcb & Hok')%regions_ok_cons.
  pose proof Hok' as (Hr & Hrb & Hrs)%regions_ok_cons.
  apply Forall_cons in Hcb as [Hcr Hcb]. unfold before in Hcr.
  destruct Hc as (?&?&?), Hr as (?&?&?).
  destruct ((_ =? _) && _) eqn:E.
  - apply andb_true_iff in E as [E%Z.eqb_eq _]. apply (IH (MkRegion _ _ _)).
    apply regions_ok_cons. split_and!; [unfold region_ok; cbn; lia| |done].
    eapply Forall_impl; [exact Hrb|]. unfold before; cbn. lia.
  - destruct (IH r Hok') as [IH1 IH2]. split.
    + apply regions_ok_cons. split_and!; [done| |done].
      eapply Forall_impl; [exact IH2|]. unfold before. cbn. lia.
    + apply Forall_cons. split; [lia|]. eapply Forall_impl; [exact IH2|]. cbn. lia.
Qed.

Lemma merge_from_sum cur rs : sum_size (merge_from cur rs) = sum_size (cur :: rs).
Proof.
  revert cur. induction rs as [|r rs IH]; intros cur; cbn; [done|].
  destruct (_ && _); cbn; rewrite IH; cbn; lia.
Qed.

Lemma merge_from_length cur rs :
  (1 ≤ length (merge_from cur rs) ≤ S (length rs))%nat.
Proof.
  revert cur. induction rs as [|r rs IH]; intros cur; cbn; [lia|].
  destruct (_ && _); cbn; [destruct (IH (MkRegion (r_base cur)
    (r_size cur + r_size r) (r_flags cur)))|destruct (IH r)]; lia.
Qed.

Lemma merge_from_head cur rs :
  ∃ r rs', merge_from cur rs = r :: rs' ∧ r_base r = r_base cur ∧ r_flags r = r_flags cur.
Proof.
  revert cur. induction rs as [|r rs IH]; intros cur; cbn; [eauto|].
  destruct (_ && _); [|eauto].
  destruct (IH (MkRegion (r_base cur) (r_size cur + r_size r) (r_flags cur)))
    as (r' & rs' & -> & ? & ?). eauto.
Qed.

Lemma merge_from_minimal cur rs : minimal (merge_from cur rs).
Proof.
  revert cur. induction rs as [|r rs IH]; intros cur; cbn; [done|].
  destruct ((_ =? _) && _) eqn:E; [apply IH|].
  destruct (merge_from_head r rs) as (r' & rs' & Hm & Hb & Hf).
  specialize (IH r). rewrite Hm in *. split; [|done]. rewrite Hb, Hf.
  intros [E1 E2]. apply andb_false_iff in E as [E%Z.eqb_neq|E%Z.eqb_neq]; lia.
Qed.

(** [memblock_merge_regions] computes [merged] on a sorted array, without
    hitting its [BUG_ON]. *)
Lemma merge_loop_spec fuel pre cur rs :
  regions_ok (cur :: rs) → (length rs < fuel)%nat →
  merge_loop fuel (pre ++ cur :: rs) (length pre) = Ok (pre ++ merge_from cur rs).
Proof.
  revert fuel pre cur. induction rs as [|r rs IH]; intros [|fuel] pre cur Hok Hf; try lia.
  { cbn [merge_loop]. rewrite list_lookup_middle by done.
    rewrite lookup_ge_None_2 by (rewrite length_app; cbn; lia). done. }
  cbn [length] in Hf. cbn [merge_loop]. rewrite list_lookup_middle by done.
  assert (pre ++ cur :: r :: rs = (pre ++ [cur]) ++ r :: rs) as Ha by (by rewrite <- app_assoc).
  assert (S (length pre) = length (pre ++ [cur])) as Hl by (rewrite length_app; cbn; lia).
  rewrite Ha at 1. rewrite Hl at 1. rewrite list_lookup_middle by done.
  cbn [memblock_get_region_node]. rewrite Z.eqb_refl. cbn [negb orb].
  pose proof Hok as (Hc & Hcb & Hok')%regions_ok_cons.
  pose proof Hok' as (Hr & Hrb & Hrs)%regions_ok_cons.
  apply Forall_cons in Hcb as [Hcr Hcb]. unfold before in Hcr.
  rewrite (r_end_ok cur) by done. cbn [merge_from].
  destruct Hc as (?&?&?), Hr as (?&?&?). rewrite orb_false_r.
  rewrite <- negb_andb.
  destruct ((r_base cur + r_size cur =? r_base r) && (r_flags cur =? r_flags r)) eqn:E;
    cbn [negb].
  - apply andb_true_iff in E as [E%Z.eqb_eq _].
    rewrite u64_id by (unfold PHYS_ADDR_MAX in *; lia).
    rewrite take_app_length. rewrite Ha.
    assert (drop (S (S (length pre))) ((pre ++ [cur]) ++ r :: rs) = rs) as ->.
    { rewrite cons_middle, app_assoc.
      rewrite drop_app_length'; [done|]. rewrite !length_app. cbn. lia. }
    apply IH; [|lia]. apply regions_ok_cons.
    split_and!; [unfold region_ok; cbn; lia| |done].
    eapply Forall_impl; [exact Hrb|]. unfold before; cbn. lia.
  - destruct (Z.ltb_spec (r_base r) (r_base cur + r_size cur)); [lia|].
    rewrite Ha, Hl, IH by (done || lia). by rewrite <- app_assoc.
Qed.

Lemma memblock_merge_regions_spec ty :
  t_regions ty ≠ [] → regions_ok (t_regions ty) →
  memblock_merge_regions ty = Ok (set_regions ty (merged (t_regions ty))).
Proof.
  intros Hne Hok. unfold memblock_merge_regions, merged.
  destruct (t_regions ty) as [|r rs] eqn:E; [done|].
  rewrite (merge_loop_spec _ [] r rs) by (done || (cbn; lia)). done.
Qed.

(** ** The loops of [memblock_add_range] *)

Lemma insert_region_at ty pre rest base size flags :
  t_regions ty = pre ++ rest → cnt ty < t_max ty →
  memblock_insert_region ty (length pre) base size flags =
    Ok (MkType (t_max ty) (u64 (t_total_size ty + size))
          (pre ++ MkRegion base size flags :: rest) (t_array ty)).
Proof.
  intros E Hc. unfold memblock_insert_region.
  destruct (Z.leb_spec (t_max ty) (cnt ty)); [lia|].
  by rewrite E, take_app_length, drop_app_length.
Qed.

(** The two rounds of the loop on the regions from the index on: the first
    only counts, the second also inserts; both count the same. *)
Lemma add_loop_count flags end_ rest l1 l2 b : ∀ fuel ty pre base nr,
  t_regions ty = pre ++ rest → regions_ok rest → (length rest < fuel)%nat →
  fill_split flags end_ rest base = (l1, l2, b) →
  ∃ idx, add_loop fuel false flags end_ ty (length pre) base nr =
    Ok (ty, idx, b, nr + (Z.of_nat (length (l1 ++ l2)) - Z.of_nat (length rest))).
Proof.
  revert l1 l2 b. induction rest as [|r rest IH];
    intros l1 l2 b [|fuel] ty pre base nr Hty Hok Hf Hs; cbn [length] in *; try lia.
  { cbn in Hs. injection Hs as <- <- <-. cbn [add_loop].
    rewrite Hty, lookup_ge_None_2 by (rewrite length_app; cbn; lia).
    eexists. do 2 f_equal. cbn. lia. }
  apply regions_ok_cons in Hok as (Hr & Hb & Hok).
  assert (t_regions ty = (pre ++ [r]) ++ rest) as Hty' by (by rewrite <- app_assoc).
  assert (S (length pre) = length (pre ++ [r])) as Hl by (rewrite length_app; cbn; lia).
  cbn [add_loop]. rewrite Hty, list_lookup_middle by done.
  rewrite (r_end_ok r) by done. revert Hs. cbn [fill_split].
  destruct (Z.leb_spec end_ (r_base r)).
  { intros [= <- <- <-]. eexists. do 2 f_equal. cbn. lia. }
  destruct (r_base r + r_size r <=? base).
  { destruct (fill_split flags end_ rest base) as [[l1' l2'] b'] eqn:E.
    intros [= <- <- <-]. rewrite Hl.
    edestruct IH as [idx ->]; [done..|lia|done|]. eexists. do 2 f_equal. cbn. lia. }
  destruct (fill_split flags end_ rest _) as [[l1' l2'] b'] eqn:E.
  intros [= <- <- <-]. cbn [mbind outcome_bind]. rewrite Hl.
  destruct (base <? r_base r);
    (edestruct IH as [idx ->]; [done..|lia|done|]); eexists; do 2 f_equal; cbn; lia.
Qed.

Lemma u64_add_l x y : u64 (u64 x + y) = u64 (x + y).
Proof. unfold u64. apply Z.add_mod_idemp_l. lia. Qed.

Lemma MkType_eta ty : MkType (t_max ty) (t_total_size ty) (t_regions ty) (t_array ty) = ty.
Proof. by destruct ty. Qed.

Lemma fill_split_length flags end_ rs base l1 l2 b :
  fill_split flags end_ rs base = (l1, l2, b) → (length rs ≤ length l1 + length l2)%nat.
Proof.
  revert base l1 l2 b. induction rs as [|r rs IH]; intros base l1 l2 b; cbn; [lia|].
  destruct (end_ <=? r_base r); [intros [= <- <- <-]; cbn; lia|].
  destruct (r_base r + r_size r <=? base);
    (destruct (fill_split flags end_ rs _) as [[l1' l2'] b'] eqn:E);
    intros [= <- <- <-]; apply IH in E; rewrite ?length_app; cbn; lia.
Qed.

Lemma add_result_eq m t1 t2 rs a (i1 i2 : nat) (b n1 n2 : Z) :
  t1 = t2 → i1 = i2 → n1 = n2 →
  @Ok (memblock_type * nat * Z * Z) (MkType m (u64 t1) rs a, i1, b, n1)
    = Ok (MkType m (u64 t2) rs a, i2, b, n2).
Proof. by intros -> -> ->. Qed.

Lemma add_loop_insert flags end_ rest l1 l2 b : ∀ fuel ty pre base nr,
  t_regions ty = pre ++ rest → regions_ok rest → 0 ≤ base → 0 ≤ end_ →
  (length rest < fuel)%nat →
  fill_split flags end_ rest base = (l1, l2, b) →
  Z.of_nat (length (pre ++ l1 ++ l2)) ≤ t_max ty →
  0 ≤ t_total_size ty < 2 ^ 64 →
  add_loop fuel true flags end_ ty (length pre) base nr =
    Ok (MkType (t_max ty) (u64 (t_total_size ty + (sum_size (l1 ++ l2) - sum_size rest)))
          (pre ++ l1 ++ l2) (t_array ty),
        length (pre ++ l1), b,
        nr + (Z.of_nat (length (l1 ++ l2)) - Z.of_nat (length rest))).
Proof.
  revert l1 l2 b. induction rest as [|r rest IH];
    intros l1 l2 b [|fuel] ty pre base nr Hty Hok H0 Hend Hf Hs Hcap Htot;
    cbn [length] in *; try lia.
  { cbn in Hs. injection Hs as <- <- <-. cbn [add_loop].
    rewrite (lookup_ge_None_2 (t_regions ty)) by (rewrite Hty, length_app; cbn; lia).
    cbn [app]. rewrite <- Hty, Z.sub_diag, !Z.add_0_r, u64_id, MkType_eta by done.
    by rewrite Hty, app_nil_r. }
  apply regions_ok_cons in Hok as (Hr & Hb & Hok).
  assert (t_regions ty = (pre ++ [r]) ++ rest) as Hty' by (by rewrite <- app_assoc).
  assert (S (length pre) = length (pre ++ [r])) as Hl by (rewrite length_app; cbn; lia).
  pose proof Hr as (?&?&?). unfold PHYS_ADDR_MAX in *.
  cbn [add_loop]. rewrite Hty at 1. rewrite list_lookup_middle by done.
  rewrite (r_end_ok r) by done. revert Hs. cbn [fill_split].
  destruct (Z.leb_spec end_ (r_base r)).
  { intros [= <- <- <-]. cbn [app]. rewrite app_nil_r, <- Hty.
    rewrite Z.sub_diag, Z.add_0_r, u64_id, MkType_eta by done.
    by rewrite Z.sub_diag, Z.add_0_r. }
  destruct (Z.leb_spec (r_base r + r_size r) base).
  { destruct (fill_split flags end_ rest base) as [[l1' l2'] b'] eqn:E.
    intros [= <- <- <-]. rewrite Hl.
    erewrite IH; [|done|done|done|done|lia|done| |done].
    - rewrite <- !app_assoc. cbn [app sum_size length]. apply add_result_eq; rewrite ?length_app; cbn [length]; lia.
    - by rewrite <- !app_assoc. }
  destruct (fill_split flags end_ rest _) as [[l1' l2'] b'] eqn:E.
  pose proof (fill_split_length _ _ _ _ _ _ _ E) as Hlen.
  destruct (Z.ltb_spec base (r_base r)); cbn [app].
  - intros [= <- <- <-]. cbn [mbind outcome_bind].
    rewrite (insert_region_at ty pre (r :: rest));
      [|done|unfold cnt; rewrite Hty; revert Hcap; rewrite !length_app; cbn; rewrite ?length_app; lia].
    cbn [mbind outcome_bind]. rewrite (u64_id (r_base r - base)) by lia.
    set (piece := MkRegion base (r_base r - base) flags).
    assert (pre ++ piece :: r :: rest = (pre ++ [piece; r]) ++ rest) as Ha
      by (by rewrite <- app_assoc).
    assert (S (S (length pre)) = length (pre ++ [piece; r])) as Hl2
      by (rewrite length_app; cbn; lia).
    rewrite Hl2.
    erewrite IH; [|exact Ha|done|lia|done|lia|done| |].
    + cbn [t_max t_total_size t_array]. rewrite u64_add_l, <- !app_assoc.
      cbn [app sum_size length r_size piece]. apply add_result_eq; rewrite ?length_app; cbn [length]; lia.
    + cbn [t_max]. by rewrite <- !app_assoc.
    + apply u64_range.
  - intros [= <- <- <-]. rewrite Hl.
    erewrite IH; [|done|done|lia|done|lia|done| |done].
    + rewrite <- !app_assoc. cbn [app sum_size length]. apply add_result_eq; rewrite ?length_app; cbn [length]; lia.
    + by rewrite <- !app_assoc.
Qed.

Definition new_regions (flags obase end_ : Z) (rs : list memblock_region) : Z :=
  Z.of_nat (length (fill flags end_ rs obase)) - Z.of_nat (length rs).

Lemma add_round_count flags obase end_ ty :
  regions_ok (t_regions ty) →
  add_round false flags obase end_ ty = Ok (ty, new_regions flags obase end_ (t_regions ty)).
Proof.
  intros Hok. unfold add_round, new_regions.
  destruct (fill_split flags end_ (t_regions ty) obase) as [[l1 l2] b] eqn:E.
  destruct (add_loop_count flags end_ (t_regions ty) l1 l2 b
              (S (length (t_regions ty))) ty [] obase 0) as [idx Hl]; [done..|lia|done|].
  cbn [length] in Hl. rewrite Hl. cbn [mbind outcome_bind].
  rewrite (fill_split_fill _ _ _ _ _ _ _ E).
  destruct (b <? end_); cbn; do 2 f_equal; rewrite !length_app; cbn; lia.
Qed.

Lemma add_round_insert flags obase end_ ty :
  regions_ok (t_regions ty) → 0 ≤ obase ≤ end_ → end_ ≤ PHYS_ADDR_MAX →
  t_total_size ty = sum_size (t_regions ty) →
  Z.of_nat (length (fill flags end_ (t_regions ty) obase)) ≤ t_max ty →
  add_round true flags obase end_ ty =
    Ok (MkType (t_max ty) (sum_size (fill flags end_ (t_regions ty) obase))
          (fill flags end_ (t_regions ty) obase) (t_array ty),
        new_regions flags obase end_ (t_regions ty)).
Proof.
  intros Hok Hb Hend Htot Hcap. unfold add_round, new_regions.
  destruct (fill_split flags end_ (t_regions ty) obase) as [[l1 l2] b] eqn:E.
  pose proof (fill_split_base _ _ _ _ _ _ _ E Hok ltac:(lia) ltac:(lia)) as Hb'.
  pose proof (fill_ok flags end_ (t_regions ty) obase ltac:(lia) Hend Hok) as Hfok.
  apply sum_size_range in Hfok. pose proof (sum_size_range _ Hok) as Hsr.
  rewrite (fill_split_fill _ _ _ _ _ _ _ E) in *.
  pose proof (add_loop_insert flags end_ (t_regions ty) l1 l2 b
    (S (length (t_regions ty))) ty [] obase 0 eq_refl Hok ltac:(lia) ltac:(lia)
    ltac:(lia) E) as Hl.
  cbn [app length] in Hl. rewrite Hl; [|revert Hcap; rewrite !length_app; lia|lia].
  clear Hl. cbn [mbind outcome_bind]. unfold PHYS_ADDR_MAX in *.
  destruct (Z.ltb_spec b end_).
  - rewrite (insert_region_at _ l1 l2); [|done|].
    2:{ unfold cnt; cbn. revert Hcap. rewrite !length_app; cbn. lia. }
    cbn [mbind outcome_bind t_max t_total_size t_array].
    rewrite u64_add_l, (u64_id (end_ - b)) by lia.
    rewrite !sum_size_app in *. cbn [sum_size r_size app] in *.
    rewrite u64_id by lia. do 2 f_equal; [f_equal; lia|].
    rewrite !length_app. cbn. lia.
  - cbn [app] in *. rewrite u64_id by lia. do 2 f_equal. f_equal. lia.
Qed.

Lemma fill_length flags end_ rs base :
  (length rs ≤ length (fill flags end_ rs base))%nat.
Proof.
  revert base. induction rs as [|r rs IH]; intros base; cbn; [lia|].
  regions_cases; cbn; try lia; (etrans; [|apply le_n_S, IH]; lia) ||
    (etrans; [|apply le_S, le_n_S, IH]; lia).
Qed.

Lemma fill_same_length flags end_ rs base :
  length (fill flags end_ rs base) = length rs → fill flags end_ rs base = rs.
Proof.
  revert base. induction rs as [|r rs IH]; intros base; cbn.
  { by destruct (base <? end_). }
  regions_cases; cbn [app length]; try lia; try done.
  - intros [= E]. by rewrite IH.
  - intros E. pose proof (fill_length flags end_ rs (Z.min (r_base r + r_size r) end_)). lia.
  - intros [= E]. by rewrite IH.
Qed.

(** What [memblock_add_range] leaves in the array when it fits. *)
Definition added (flags base end_ : Z) (rs : list memblock_region) : list memblock_region :=
  if r_size (default dummy_region (rs !! 0%nat)) =? 0
  then [MkRegion base (end_ - base) flags]
  else if new_regions flags base end_ rs =? 0 then rs
  else merged (fill flags end_ rs base).

Lemma merged_length rs : (length (merged rs) ≤ length rs)%nat.
Proof. destruct rs; cbn; [lia|]. apply merge_from_length. Qed.

Lemma array_ok_head rs :
  array_ok rs → r_size (default dummy_region (rs !! 0%nat)) ≠ 0 → rs ≠ [] ∧ regions_ok rs.
Proof. intros [->|]; [by cbn|done]. Qed.

Lemma array_ok_head_0 rs :
  array_ok rs → r_size (default dummy_region (rs !! 0%nat)) = 0 → rs = [dummy_region].
Proof.
  intros [->|[Hne Hok]]; [done|]. destruct rs as [|r rs]; [done|]. cbn.
  apply regions_ok_cons in Hok as ((?&?&?)&_). lia.
Qed.

Lemma added_spec flags base end_ rs :
  array_ok rs → 0 ≤ base < end_ → end_ ≤ PHYS_ADDR_MAX →
  array_ok (added flags base end_ rs) ∧
  (∀ x, covered (added flags base end_ rs) x ↔ covered rs x ∨ base ≤ x < end_) ∧
  (minimal rs → minimal (added flags base end_ rs)).
Proof.
  intros Hok Hb Hend. unfold added.
  destruct (Z.eqb_spec (r_size (default dummy_region (rs !! 0%nat))) 0) as [E|E].
  { apply array_ok_head_0 in E as ->; [|done]. split_and!.
    - right. split; [done|]. apply regions_ok_single. unfold region_ok; cbn; lia.
    - intros x. rewrite covered_cons. unfold in_region; cbn.
      pose proof (covered_dummy x). pose proof (covered_nil x). intuition lia.
    - done. }
  apply array_ok_head in E as [Hne Hrs]; [|done].
  destruct (Z.eqb_spec (new_regions flags base end_ rs) 0) as [E|E].
  { assert (fill flags end_ rs base = rs) as Hf.
    { apply fill_same_length. unfold new_regions in E. lia. }
    split_and!; [done| |done]. intros x. rewrite <- Hf at 1. apply fill_covered. }
  assert (Hfok := fill_ok flags end_ rs base ltac:(lia) Hend Hrs).
  assert (Hcov := fill_covered flags end_ rs base).
  pose proof (fill_length flags end_ rs base) as Hlen.
  destruct (fill flags end_ rs base) as [|r rs'] eqn:Ef.
  { destruct rs; [done|cbn in Hlen; lia]. }
  cbn [merged]. destruct (merge_from_ok r rs' Hfok) as [Hmok _]. split_and!.
  - right. split; [|done]. pose proof (merge_from_length r rs') as [Hl _].
    by destruct (merge_from r rs'); [cbn in Hl; lia|].
  - intros x. rewrite merge_from_covered, Hcov; [done| |].
    + apply regions_ok_cons in Hfok as ((?&?&?)&_). lia.
    + by destruct Hfok as [[? ?]%Forall_cons _].
  - intros _. apply merge_from_minimal.
Qed.
