(* ===== verification/MemblockRanges.v ===== *)
(** * Adding, isolating and removing ranges

    [memblock_add_range], [memblock_isolate_range] and
    [memblock_remove_range] against the sets of addresses: adding a range is
    union, removing one is difference, isolating one changes nothing but the
    boundaries; each keeps the arrays well formed, and reports [-ENOMEM] with
    the state untouched when the array is full and may not grow. *)

From stdpp Require Import base numbers list option sorting.
From Stdlib Require Import ZArith Lia.
From S2P Require Import Prelude Memblock MemblockRegions.
Import Memblock.

Open Scope Z_scope.

(** ** Isolating, as a function on lists *)

(** The array split at [base] and [end_]: below, inside, above. *)
Fixpoint isolated (base end_ : Z) (rs : list memblock_region)
    : list memblock_region * list memblock_region * list memblock_region :=
  match rs with
  | [] => ([], [], [])
  | r :: rs' =>
      let re := r_base r + r_size r in
      if end_ <=? r_base r then ([], [], rs)
      else if re <=? base then
        let '(lo, mid, hi) := isolated base end_ rs' in (r :: lo, mid, hi)
      else
        let lo := if r_base r <? base
                  then [MkRegion (r_base r) (base - r_base r) (r_flags r)] else [] in
        let s := Z.max (r_base r) base in
        if end_ <? re
        then (lo, [MkRegion s (end_ - s) (r_flags r)],
              MkRegion end_ (re - end_) (r_flags r) :: rs')
        else
          let '(_, mid, hi) := isolated base end_ rs' in
          (lo, MkRegion s (re - s) (r_flags r) :: mid, hi)
  end.

(** The area of an operation: its end, after the size is capped. *)
Definition area_end (base size : Z) : Z := base + memblock_cap_size base size.

(** ** State *)

Definition is_word (x : Z) : Prop := 0 ≤ x < 2 ^ 64.

Definition memblock_ok (mb : memblock) : Prop :=
  type_ok (memory mb) ∧ type_ok (reserved mb) ∧ is_word (current_limit mb).

Definition type_covered (mb : memblock) (t : mtype) (x : Z) : Prop :=
  covered (t_regions (get_type mb t)) x.

Definition type_minimal (mb : memblock) (t : mtype) : Prop :=
  minimal (t_regions (get_type mb t)).

(** Only the array of [t] may differ. *)
Definition other_unchanged (mb mb' : memblock) (t : mtype) : Prop :=
  mb' = set_type mb t (get_type mb' t).

Lemma get_set_type mb t ty : get_type (set_type mb t ty) t = ty.
Proof. by destruct t. Qed.

Lemma set_get_type mb t : set_type mb t (get_type mb t) = mb.
Proof. by destruct t, mb. Qed.

Lemma set_set_type mb t ty ty' : set_type (set_type mb t ty) t ty' = set_type mb t ty'.
Proof. by destruct t. Qed.

Lemma other_unchanged_set mb t ty : other_unchanged mb (set_type mb t ty) t.
Proof. unfold other_unchanged. by rewrite get_set_type. Qed.

Lemma other_unchanged_refl mb t : other_unchanged mb mb t.
Proof. unfold other_unchanged. by rewrite set_get_type. Qed.

Lemma can_resize_set_type mb t ty :
  memblock_can_resize (set_type mb t ty) = memblock_can_resize mb.
Proof. by destruct t. Qed.

#[export] Hint Resolve other_unchanged_set other_unchanged_refl : memblock.
Create Rewrite HintDb memblock.
#[export] Hint Rewrite get_set_type set_get_type set_set_type can_resize_set_type : memblock.

Lemma cap_size_end base size :
  is_word base → is_word size →
  0 ≤ memblock_cap_size base size ≤ size ∧ area_end base size ≤ PHYS_ADDR_MAX ∧
  u64 (base + memblock_cap_size base size) = area_end base size ∧
  base ≤ area_end base size.
Proof.
  unfold is_word, area_end, memblock_cap_size, PHYS_ADDR_MAX. intros Hb Hs.
  rewrite (u64_id (2 ^ 64 - 1 - base)) by lia. rewrite u64_id; lia.
Qed.

(** ** Flags *)

(** The address [x] lies in a region with the flags [f]. *)
Definition flagged (rs : list memblock_region) (x f : Z) : Prop :=
  Exists (λ r, in_region x r ∧ r_flags r = f) rs.

Lemma flagged_covered rs x : covered rs x ↔ ∃ f, flagged rs x f.
Proof.
  unfold flagged. rewrite covered_elem. setoid_rewrite Exists_exists.
  split; [intros (r & ? & ?)|intros (f & r & ? & ? & ?)]; eauto 8.
Qed.

Lemma flagged_cons r rs x f :
  flagged (r :: rs) x f ↔ (in_region x r ∧ r_flags r = f) ∨ flagged rs x f.
Proof. apply Exists_cons. Qed.

Lemma flagged_app rs1 rs2 x f : flagged (rs1 ++ rs2) x f ↔ flagged rs1 x f ∨ flagged rs2 x f.
Proof. apply Exists_app. Qed.

Lemma flagged_nil x f : flagged [] x f ↔ False.
Proof. unfold flagged. by rewrite Exists_nil. Qed.

Lemma flagged_covered_1 rs x f : flagged rs x f → covered rs x.
Proof. rewrite flagged_covered. eauto. Qed.

Lemma fill_flagged flags end_ rs base x f :
  regions_ok rs →
  flagged (fill flags end_ rs base) x f ↔
  flagged rs x f ∨ (f = flags ∧ base ≤ x < end_ ∧ ¬ covered rs x).
Proof.
  revert base. induction rs as [|r rs IH]; intros base Hok; cbn.
  { pose proof (covered_nil x).
    regions_cases; rewrite ?flagged_cons, ?flagged_nil; unfold in_region; cbn; intuition lia. }
  apply regions_ok_cons in Hok as (Hr & Hbef & Hrs). pose proof Hr as (?&?&?).
  pose proof (Forall_before_in r rs x Hbef) as Hx.
  regions_cases; cbn [app];
    rewrite ?flagged_cons, ?IH, ?flagged_cons, ?covered_cons by done;
    unfold in_region; cbn; try lia;
    destruct (decide (x < r_base r + r_size r)); intuition lia.
Qed.

Lemma merge_from_flagged cur rs x f :
  0 ≤ r_size cur → Forall region_ok rs →
  flagged (merge_from cur rs) x f ↔ flagged (cur :: rs) x f.
Proof.
  revert cur. induction rs as [|r rs IH]; intros cur Hc Hrs; cbn; [done|].
  apply Forall_cons in Hrs as [(?&?&?) Hrs].
  destruct (Z.eqb_spec (r_base cur + r_size cur) (r_base r)) as [E|];
    [destruct (Z.eqb_spec (r_flags cur) (r_flags r))|]; cbn [andb].
  - rewrite IH by (cbn; lia || done). rewrite !flagged_cons.
    unfold in_region; cbn. intuition lia.
  - rewrite flagged_cons, IH by (lia || done). by rewrite !flagged_cons.
  - rewrite flagged_cons, IH by (lia || done). by rewrite !flagged_cons.
Qed.

Lemma flagged_dummy x f : ¬ flagged [dummy_region] x f.
Proof. intros H%flagged_covered_1. by apply covered_dummy in H. Qed.

Lemma added_flagged flags base end_ rs x f :
  array_ok rs → 0 ≤ base < end_ → end_ ≤ PHYS_ADDR_MAX →
  flagged (added flags base end_ rs) x f ↔
  flagged rs x f ∨ (f = flags ∧ base ≤ x < end_ ∧ ¬ covered rs x).
Proof.
  intros Hok Hb Hend. unfold added.
  destruct (Z.eqb_spec (r_size (default dummy_region (rs !! 0%nat))) 0) as [E|E].
  { apply array_ok_head_0 in E as ->; [|done].
    pose proof (covered_dummy x). pose proof (flagged_dummy x f).
    rewrite flagged_cons, flagged_nil. unfold in_region; cbn. intuition lia. }
  apply array_ok_head in E as [Hne Hrs]; [|done]. rewrite <- fill_flagged by done.
  destruct (Z.eqb_spec (new_regions flags base end_ rs) 0) as [E|E].
  { rewrite fill_same_length; [done|]. unfold new_regions in E. lia. }
  pose proof (fill_ok flags end_ rs base ltac:(lia) Hend Hrs) as [Hf _].
  destruct (fill flags end_ rs base) as [|r rs']; [done|].
  apply Forall_cons in Hf as [(?&?&?) ?]. by apply merge_from_flagged; [lia|].
Qed.

(** ** Growing an array that has room, or that may not grow *)

Lemma grow_fits dbl fuel mb t need s sz :
  cnt (get_type mb t) + need ≤ t_max (get_type mb t) →
  grow (S fuel) dbl mb t need s sz = Ok (true, mb).
Proof. intros H. cbn. destruct (Z.ltb_spec (t_max (get_type mb t)) (cnt (get_type mb t) + need)); [lia|done]. Qed.

(** A doubler that refuses to grow while resizing is not allowed. *)
Class RefusesResize (dbl : doubler) : Prop :=
  refuses : ∀ mb t s sz, memblock_can_resize mb = false → dbl mb t s sz = Ok (-1, mb).

Lemma grow_refused dbl `{!RefusesResize dbl} fuel mb t need s sz :
  memblock_can_resize mb = false →
  t_max (get_type mb t) < cnt (get_type mb t) + need →
  grow (S fuel) dbl mb t need s sz = Ok (false, mb).
Proof.
  intros Hr Hc. cbn.
  destruct (Z.ltb_spec (t_max (get_type mb t)) (cnt (get_type mb t) + need)); [|lia].
  by rewrite refuses.
Qed.

#[export] Instance double_array_refuses depth env :
  RefusesResize (memblock_double_array (S depth) env).
Proof. intros mb t s sz H. cbn. unfold double_array_with. by rewrite H. Qed.

(** ** Adding *)

(** The entries the array needs for the area. *)
Definition add_needs (flags base size : Z) (rs : list memblock_region) : Z :=
  if memblock_cap_size base size =? 0 then 0
  else if r_size (default dummy_region (rs !! 0%nat)) =? 0 then 1
  else Z.of_nat (length (fill flags (area_end base size) rs base)).

Lemma merged_sum rs : sum_size (merged rs) = sum_size rs.
Proof. destruct rs; [done|]. apply merge_from_sum. Qed.

Lemma add_range_empty dbl mb t base size flags :
  memblock_cap_size base size = 0 → add_range_with dbl mb t base size flags = Ok (0, mb).
Proof. intros H. unfold add_range_with. by rewrite H. Qed.

Lemma add_range_fits dbl mb t base size flags :
  type_ok (get_type mb t) → is_word base → is_word size →
  memblock_cap_size base size ≠ 0 →
  add_needs flags base size (t_regions (get_type mb t)) ≤ t_max (get_type mb t) →
  let ty := get_type mb t in
  let rs' := added flags base (area_end base size) (t_regions ty) in
  add_range_with dbl mb t base size flags =
    Ok (0, set_type mb t (MkType (t_max ty) (sum_size rs') rs' (t_array ty))).
Proof.
  intros (Hok & Htot & Hcnt) Hb Hs Hnz. cbv zeta.
  destruct (cap_size_end base size Hb Hs) as (Hc & Hend & Hu & Hle).
  unfold add_range_with, added, add_needs. cbv zeta. rewrite Hu. unfold region_at.
  destruct (Z.eqb_spec (memblock_cap_size base size) 0); [done|].
  assert (area_end base size - base = memblock_cap_size base size) as Hsz
    by (unfold area_end; lia).
  destruct (Z.eqb_spec (r_size (default dummy_region (t_regions (get_type mb t) !! 0%nat))) 0)
    as [E|E]; intros Hneed.
  { apply array_ok_head_0 in E; [|done]. rewrite E, Hsz. cbn. by rewrite Z.add_0_r. }
  apply array_ok_head in E as [Hne Hrs]; [|done].
  rewrite add_round_count by done. cbn [mbind outcome_bind].
  destruct (Z.eqb_spec (new_regions flags base (area_end base size)
              (t_regions (get_type mb t))) 0) as [E|E].
  { by rewrite <- Htot, MkType_eta, set_get_type. }
  rewrite grow_fits by (unfold new_regions, cnt in *; lia).
  cbn [mbind outcome_bind negb]. unfold is_word in *.
  rewrite add_round_insert by (done || lia). cbn [mbind outcome_bind].
  destruct (Z.eqb_spec (new_regions flags base (area_end base size)
              (t_regions (get_type mb t))) 0); [done|].
  assert (Hfok := fill_ok flags (area_end base size) (t_regions (get_type mb t)) base
    ltac:(lia) Hend Hrs).
  pose proof (fill_length flags (area_end base size) (t_regions (get_type mb t)) base) as Hlen.
  rewrite memblock_merge_regions_spec; [|cbn|done].
  - cbn. by rewrite merged_sum.
  - intros Hnil. rewrite Hnil in Hlen. by destruct (t_regions (get_type mb t)); [|cbn in Hlen; lia].
Qed.

Lemma type_ok_nonempty ty : type_ok ty → 1 ≤ t_max ty.
Proof.
  intros ([Hd|[Hne _]] & _ & Hc); unfold cnt in Hc; [rewrite Hd in Hc; cbn in Hc; lia|].
  destruct (t_regions ty); [done|cbn in Hc; lia].
Qed.

Lemma add_range_full dbl `{!RefusesResize dbl} mb t base size flags :
  type_ok (get_type mb t) → is_word base → is_word size →
  memblock_can_resize mb = false →
  t_max (get_type mb t) < add_needs flags base size (t_regions (get_type mb t)) →
  add_range_with dbl mb t base size flags = Ok (- ENOMEM, mb).
Proof.
  intros Hok0 Hb Hs Hr. pose proof (type_ok_nonempty _ Hok0). destruct Hok0 as (Hok & Htot & Hcnt).
  destruct (cap_size_end base size Hb Hs) as (Hc & Hend & Hu & Hle).
  unfold add_range_with, add_needs. cbv zeta. rewrite Hu. unfold region_at.
  destruct (Z.eqb_spec (memblock_cap_size base size) 0); [lia|].
  destruct (Z.eqb_spec (r_size (default dummy_region (t_regions (get_type mb t) !! 0%nat))) 0)
    as [E|E]; [lia|]. intros Hneed.
  apply array_ok_head in E as [Hne Hrs]; [|done].
  rewrite add_round_count by done. cbn [mbind outcome_bind].
  destruct (Z.eqb_spec (new_regions flags base (area_end base size)
              (t_regions (get_type mb t))) 0).
  { unfold new_regions, cnt in *. lia. }
  rewrite grow_refused; [done..|]. unfold new_regions, cnt in *. lia.
Qed.

Lemma type_ok_added ty base size flags :
  let rs' := added flags base (area_end base size) (t_regions ty) in
  type_ok ty → is_word base → is_word size → memblock_cap_size base size ≠ 0 →
  add_needs flags base size (t_regions ty) ≤ t_max ty →
  type_ok (MkType (t_max ty) (sum_size rs') rs' (t_array ty)).
Proof.
  cbv zeta. intros Hok0 Hb Hs Hnz Hneed. pose proof (type_ok_nonempty _ Hok0).
  destruct Hok0 as (Hok & Htot & Hcnt).
  destruct (cap_size_end base size Hb Hs) as (Hc & Hend & Hu & Hle).
  unfold is_word in *. unfold type_ok, cnt. cbn. split_and!; [|done|].
  - apply added_spec; [done| |done]. unfold area_end in *. lia.
  - unfold added. unfold add_needs, cnt in *.
    destruct (Z.eqb_spec (memblock_cap_size base size) 0); [done|].
    repeat destruct (_ =? _); cbn; try lia.
    pose proof (merged_length (fill flags (area_end base size) (t_regions ty) base)).
    lia.
Qed.

(** ** Isolating *)

Lemma insert_middle {A} (pre : list A) x y rest :
  <[length pre := y]> (pre ++ x :: rest) = pre ++ y :: rest.
Proof. by rewrite insert_app_r_alt, Nat.sub_diag by lia. Qed.

Lemma isolate_result_eq (m t1 t2 : Z) rs1 rs2 a (s1 s2 e1 e2 : Z) :
  t1 = t2 → rs1 = rs2 → s1 = s2 → e1 = e2 →
  Ok (MkType m t1 rs1 a, s1, e1) = Ok (MkType m t2 rs2 a, s2, e2).
Proof. by intros -> -> -> ->. Qed.

(** Splitting entry [length pre] in two keeps the total. *)
Lemma split_region ty pre r rest p :
  t_regions ty = pre ++ r :: rest → region_ok r →
  r_base r < p < r_base r + r_size r →
  is_word (t_total_size ty) → cnt ty < t_max ty →
  memblock_insert_region
    (MkType (t_max ty) (u64 (t_total_size ty - u64 (p - r_base r)))
       (<[length pre := MkRegion p (u64 (r_size r - u64 (p - r_base r))) (r_flags r)]>
          (t_regions ty)) (t_array ty))
    (length pre) (r_base r) (u64 (p - r_base r)) (r_flags r) =
  Ok (MkType (t_max ty) (t_total_size ty)
        (pre ++ MkRegion (r_base r) (p - r_base r) (r_flags r)
             :: MkRegion p (r_base r + r_size r - p) (r_flags r) :: rest) (t_array ty)).
Proof.
  intros Hrs (Hb & Hs & He) Hp Htot Hcnt. unfold PHYS_ADDR_MAX, is_word in *.
  rewrite !(u64_id (p - r_base r)), (u64_id (r_size r - _)) by lia.
  rewrite Hrs, insert_middle. unfold memblock_insert_region. cbn [t_max t_regions t_total_size t_array].
  unfold cnt in *. cbn [t_regions]. rewrite Hrs in Hcnt. rewrite length_app in *. cbn [length] in *.
  destruct (Z.leb_spec (t_max ty) (Z.of_nat (length pre + S (length rest)))); [lia|].
  rewrite u64_add_l, take_app_length, drop_app_length.
  rewrite Z.sub_add, u64_id by lia.
  by replace (r_size r - (p - r_base r)) with (r_base r + r_size r - p) by lia.
Qed.

(** The indices the loop reports when it is at entry [idx] with [mid] entries
    of the area ahead. *)
Definition report_start (start e : Z) (idx : nat) (mid : list memblock_region) : Z :=
  match mid with [] => start | _ => if e =? 0 then Z.of_nat idx else start end.
Definition report_end (e : Z) (idx : nat) (mid : list memblock_region) : Z :=
  match mid with [] => e | _ => Z.of_nat (idx + length mid) end.

(** Once the entries that lie below the area are behind. *)
Lemma isolate_loop_inside base end_ rest lo mid hi : ∀ fuel ty pre start e,
  isolated base end_ rest = (lo, mid, hi) →
  t_regions ty = pre ++ rest → regions_ok rest →
  Forall (λ r, base ≤ r_base r) rest →
  is_word (t_total_size ty) → cnt ty < t_max ty →
  (length rest + 3 ≤ fuel)%nat →
  isolate_loop fuel base end_ ty (length pre) start e =
    Ok (MkType (t_max ty) (t_total_size ty) (pre ++ mid ++ hi) (t_array ty),
        report_start start e (length pre) mid, report_end e (length pre) mid) ∧ lo = [].
Proof.
  revert lo mid hi. induction rest as [|r rest IH];
    intros lo mid hi fuel ty pre start e Hi Hrs Hok Hge Htot Hcnt Hf;
    (destruct fuel as [|fuel]; [lia|]); cbn [isolated] in Hi; cbn [isolate_loop].
  { injection Hi as <- <- <-. rewrite Hrs, app_nil_r, lookup_ge_None_2 by lia.
    split; [|done]. destruct ty; cbn in *. subst. by rewrite !app_nil_r. }
  apply regions_ok_cons in Hok as (Hr & Hbef & Hok).
  apply Forall_cons in Hge as [Hrb Hge]. cbn [length] in Hf.
  rewrite Hrs, list_lookup_middle by done.
  rewrite (r_end_ok r Hr). destruct (Z.leb_spec end_ (r_base r)).
  { injection Hi as <- <- <-. split; [|done]. destruct ty; cbn in *. by subst. }
  destruct (Z.leb_spec (r_base r + r_size r) base); [destruct Hr as (?&?&?); lia|].
  destruct (Z.ltb_spec (r_base r) base); [lia|].
  rewrite Z.max_l in Hi by lia.
  destruct (Z.ltb_spec end_ (r_base r + r_size r)).
  - injection Hi as <- <- <-.
    rewrite <- Hrs, (split_region ty pre r rest end_) by (done || lia).
    cbn [mbind outcome_bind]. split; [|done].
    destruct fuel as [|[|fuel]]; [lia..|]. cbn [isolate_loop t_regions].
    rewrite list_lookup_middle by done. unfold r_end. cbn [r_base r_size].
    replace (r_base r + (end_ - r_base r)) with end_ by lia.
    destruct Hr as (?&?&?). unfold PHYS_ADDR_MAX in *.
    rewrite (u64_id end_) by lia.
    destruct (Z.leb_spec end_ (r_base r)), (Z.leb_spec end_ base),
      (Z.ltb_spec (r_base r) base), (Z.ltb_spec end_ end_); try lia.
    rewrite (cons_middle (MkRegion (r_base r) _ _)), (assoc_L (++)).
    rewrite list_lookup_middle by (rewrite length_app; cbn; lia). cbn [r_base].
    destruct (Z.leb_spec end_ end_); [|lia].
    apply isolate_result_eq; try done. cbn. lia.
  - destruct (isolated base end_ rest) as [[lo' mid'] hi'] eqn:Hi'. injection Hi as <- <- <-.
    specialize (IH lo' mid' hi' fuel ty (pre ++ [r])
      (if e =? 0 then Z.of_nat (length pre) else start) (Z.of_nat (length pre) + 1) eq_refl).
    rewrite Hrs, <- (assoc_L (++)), length_app, Nat.add_1_r in IH.
    destruct IH as [-> _]; try done; [lia|]. split; [|done].
    apply isolate_result_eq; [done| | |].
    + rewrite <- (assoc_L (++)). cbn. do 3 f_equal. destruct r; cbn. f_equal. lia.
    + unfold report_start. destruct mid', (Z.eqb_spec (Z.of_nat (length pre) + 1) 0); try done; lia.
    + unfold report_end. destruct mid'; cbn; lia.
Qed.

Lemma isolate_loop_spec base end_ rest lo mid hi : ∀ fuel ty pre,
  isolated base end_ rest = (lo, mid, hi) →
  t_regions ty = pre ++ rest → regions_ok rest →
  is_word (t_total_size ty) → cnt ty + 2 ≤ t_max ty → 0 ≤ base < end_ →
  (length rest + 5 ≤ fuel)%nat →
  isolate_loop fuel base end_ ty (length pre) 0 0 =
    Ok (MkType (t_max ty) (t_total_size ty) (pre ++ lo ++ mid ++ hi) (t_array ty),
        report_start 0 0 (length pre + length lo) mid,
        report_end 0 (length pre + length lo) mid).
Proof.
  revert lo mid hi. induction rest as [|r rest IH];
    intros lo mid hi fuel ty pre Hi Hrs Hok Htot Hcnt Hb Hf.
  { destruct (isolate_loop_inside base end_ [] lo mid hi fuel ty pre 0 0) as [-> ->];
      try done; [lia|cbn in *; lia|]. by rewrite Nat.add_0_r. }
  destruct (decide (base ≤ r_base r)) as [Hge|Hlt].
  { apply regions_ok_cons in Hok as Hok'. destruct Hok' as (Hr & Hbef & Hok').
    destruct (isolate_loop_inside base end_ (r :: rest) lo mid hi fuel ty pre 0 0) as [-> ->];
      try done; [|lia|cbn in *; lia|].
    - constructor; [done|]. eapply Forall_impl; [exact Hbef|].
      intros ? ?. destruct Hr as (?&?&?). unfold before in *. lia.
    - by rewrite Nat.add_0_r. }
  apply regions_ok_cons in Hok as (Hr & Hbef & Hok).
  destruct fuel as [|fuel]; [lia|]. cbn [isolated length] in Hi, Hf. cbn [isolate_loop].
  rewrite Hrs, list_lookup_middle by done. rewrite (r_end_ok r Hr).
  destruct (Z.leb_spec end_ (r_base r)); [lia|].
  destruct (Z.leb_spec (r_base r + r_size r) base).
  { destruct (isolated base end_ rest) as [[lo' mid'] hi'] eqn:Hi'. injection Hi as <- <- <-.
    specialize (IH lo' mid' hi' fuel ty (pre ++ [r]) eq_refl).
    rewrite Hrs, <- (assoc_L (++)), length_app, Nat.add_1_r in IH.
    rewrite IH by (done || lia). by rewrite <- (assoc_L (++)), Nat.add_succ_comm. }
  destruct (Z.ltb_spec (r_base r) base); [|lia].
  rewrite <- Hrs, (split_region ty pre r rest base) by (done || lia).
  cbn [mbind outcome_bind]. set (r1 := MkRegion (r_base r) _ _).
  set (r2 := MkRegion base _ _). set (ty' := MkType _ _ _ _).
  assert (isolated base end_ (r2 :: rest) = ([], mid, hi)) as Hi2.
  { cbn. rewrite Z.ltb_irrefl, Z.max_id. rewrite Z.max_r in Hi by lia.
    replace (base + (r_base r + r_size r - base)) with (r_base r + r_size r) by lia.
    destruct (Z.leb_spec end_ base), (Z.leb_spec (r_base r + r_size r) base); try lia.
    destruct (end_ <? _); [by simplify_eq|].
    destruct (isolated base end_ rest) as [[? ?] ?]. by simplify_eq. }
  assert (lo = [r1]) as ->.
  { destruct (end_ <? _); [by simplify_eq|].
    destruct (isolated base end_ rest) as [[? ?] ?]. by simplify_eq. }
  destruct (isolate_loop_inside base end_ (r2 :: rest) [] mid hi fuel ty' (pre ++ [r1]) 0 0)
    as [Hl _]; try done; cbn [length]; try lia.
  - cbn. by rewrite <- (assoc_L (++)).
  - destruct Hr as (?&?&?). apply regions_ok_cons. split_and!; [| |done].
    + unfold region_ok; cbn; lia.
    + eapply Forall_impl; [exact Hbef|]. intros ? ?. unfold before in *; cbn; lia.
  - constructor; [cbn; lia|]. eapply Forall_impl; [exact Hbef|]. intros ? ?. unfold before in *. lia.
  - unfold cnt in *. rewrite Hrs in Hcnt. cbn. rewrite !length_app in *. cbn in *. lia.
  - rewrite length_app, Nat.add_1_r in Hl. rewrite Hl, Nat.add_1_r. by rewrite <- (assoc_L (++)).
Qed.

Lemma isolated_bound p base end_ rs lo mid hi :
  isolated base end_ rs = (lo, mid, hi) → base < end_ →
  Forall (λ r, p ≤ r_base r) rs → Forall (λ r, p ≤ r_base r) (lo ++ mid ++ hi).
Proof.
  revert lo mid hi. induction rs as [|r rs IH]; intros lo mid hi; cbn.
  { intros. simplify_eq. constructor. }
  intros Hi Hb [Hr Hrs]%Forall_cons.
  destruct (Z.leb_spec end_ (r_base r)); [simplify_eq; by constructor|].
  destruct (isolated base end_ rs) as [[lo' mid'] hi'].
  specialize (IH _ _ _ eq_refl Hb Hrs). rewrite !Forall_app in IH.
  destruct (_ <=? base); [simplify_eq; cbn; constructor; rewrite ?Forall_app; tauto|].
  destruct (r_base r <? base), (end_ <? _); simplify_eq; cbn;
    repeat (apply Forall_cons; split); cbn; rewrite ?Forall_app; try tauto; lia.
Qed.

Lemma isolated_parts base end_ rs lo mid hi :
  isolated base end_ rs = (lo, mid, hi) → base < end_ → regions_ok rs →
  regions_ok (lo ++ mid ++ hi) ∧
  Forall (λ r, r_base r + r_size r ≤ base) lo ∧
  Forall (λ r, base ≤ r_base r ∧ r_base r + r_size r ≤ end_) mid ∧
  Forall (λ r, end_ ≤ r_base r) hi.
Proof.
  revert lo mid hi. induction rs as [|r rs IH]; intros lo mid hi; cbn.
  { intros. simplify_eq. split_and!; auto with memblock. }
  intros Hi Hb Hok. apply regions_ok_cons in Hok as Hok'.
  destruct Hok' as (Hr & Hbef & Hrs). pose proof Hr as (?&?&?).
  destruct (Z.leb_spec end_ (r_base r)).
  { simplify_eq. split_and!; [done..|]. constructor; [done|].
    eapply Forall_impl; [exact Hbef|]. unfold before. cbn. lia. }
  destruct (isolated base end_ rs) as [[lo' mid'] hi'] eqn:Hi'.
  destruct (IH _ _ _ eq_refl Hb Hrs) as (IHok & IHlo & IHmid & IHhi).
  pose proof (isolated_bound _ _ _ _ _ _ _ Hi' Hb Hbef) as Hall.
  destruct (Z.leb_spec (r_base r + r_size r) base).
  { simplify_eq. split_and!; try done; [|by constructor].
    cbn. apply regions_ok_cons. done. }
  set (low := if _ <? base then _ else _) in Hi.
  assert (regions_ok low ∧ Forall (λ r, r_base r + r_size r ≤ base) low) as [Hlow Hlowb].
  { subst low. destruct (Z.ltb_spec (r_base r) base); [|split; auto with memblock].
    split; [apply regions_ok_single; unfold region_ok; cbn; lia|].
    constructor; [cbn; lia|constructor]. }
  clearbody low. destruct (Z.ltb_spec end_ (r_base r + r_size r)); simplify_eq.
  - split_and!; [|done|constructor; [cbn; lia|constructor]|constructor; [cbn; lia|]].
    + apply regions_ok_app. split_and!; [done| |].
      * cbn. rewrite !regions_ok_cons, !Forall_cons. unfold region_ok, before in *; cbn.
        split_and!; try lia; [| |done]; eapply Forall_impl; try exact Hbef; cbn; lia.
      * eapply Forall_impl; [exact Hlowb|]. cbn. intros r0 ?. rewrite !Forall_cons.
        unfold before in *; cbn. split_and!; try lia. eapply Forall_impl; [exact Hbef|]. cbn. lia.
    + eapply Forall_impl; [exact Hbef|]. unfold before. cbn. lia.
  - split_and!; [|done|constructor; [cbn; lia|done]|done].
    rewrite !Forall_app in Hall. apply regions_ok_app in IHok as (_ & IHok & _).
    assert (Forall (λ r', r_base r + r_size r ≤ r_base r') (mid' ++ hi)) as Hmh.
    { rewrite Forall_app. tauto. }
    apply regions_ok_app. split_and!; [done| |].
    + cbn. apply regions_ok_cons. split_and!; [unfold region_ok; cbn; lia| |done].
      eapply Forall_impl; [exact Hmh|]. unfold before; cbn; lia.
    + eapply Forall_impl; [exact Hlowb|]. cbn. intros r0 ?. apply Forall_cons.
      unfold before in *; cbn. split; [lia|]. eapply Forall_impl; [exact Hmh|]. cbn. lia.
Qed.

Lemma isolated_inside base end_ rs lo mid hi :
  isolated base end_ rs = (lo, mid, hi) → regions_ok rs →
  Forall (λ r, base ≤ r_base r) rs → lo = [].
Proof.
  destruct rs as [|r rs]; cbn; [by intros; simplify_eq|].
  intros Hi [(?&?&?) _]%regions_ok_cons [? _]%Forall_cons.
  destruct (Z.leb_spec end_ (r_base r)); [by simplify_eq|].
  destruct (Z.leb_spec (r_base r + r_size r) base); [lia|].
  destruct (Z.ltb_spec (r_base r) base); [lia|].
  destruct (end_ <? _); [by simplify_eq|].
  destruct (isolated base end_ rs) as [[? ?] ?]. by simplify_eq.
Qed.

Lemma before_bound r rs p : p ≤ r_base r + r_size r → Forall (before r) rs →
  Forall (λ r', p ≤ r_base r') rs.
Proof. intros Hp H. eapply Forall_impl; [exact H|]. unfold before. cbn. lia. Qed.

Lemma isolated_same base end_ rs lo mid hi :
  isolated base end_ rs = (lo, mid, hi) → base < end_ → regions_ok rs →
  (∀ x f, flagged (lo ++ mid ++ hi) x f ↔ flagged rs x f) ∧
  sum_size (lo ++ mid ++ hi) = sum_size rs.
Proof.
  revert lo mid hi. induction rs as [|r rs IH]; intros lo mid hi; cbn.
  { intros. by simplify_eq. }
  intros Hi Hb (Hr & Hbef & Hrs)%regions_ok_cons. pose proof Hr as (?&?&?).
  destruct (Z.leb_spec end_ (r_base r)); [by simplify_eq|].
  destruct (isolated base end_ rs) as [[lo' mid'] hi'] eqn:Hi'.
  destruct (IH _ _ _ eq_refl Hb Hrs) as (IHc & IHs).
  destruct (Z.leb_spec (r_base r + r_size r) base).
  { simplify_eq. split; [|cbn; lia]. intros x f. cbn. by rewrite !flagged_cons, IHc. }
  assert (lo' = []) as ->.
  { eapply isolated_inside; [done..|]. eapply before_bound; [|done]. lia. }
  cbn [app] in IHc, IHs.
  destruct (Z.ltb_spec (r_base r) base), (Z.ltb_spec end_ (r_base r + r_size r)); simplify_eq;
    (split; [intros x f|]; cbn;
     [rewrite ?flagged_cons, ?IHc; unfold in_region; cbn; intuition lia|lia]).
Qed.

Lemma minimal_tail r rs : minimal (r :: rs) → minimal rs.
Proof. destruct rs; cbn; tauto. Qed.

Lemma minimal_cons r rs :
  minimal (r :: rs) ↔
  minimal rs ∧ ∀ r', head rs = Some r' →
    ¬ (r_base r + r_size r = r_base r' ∧ r_flags r = r_flags r').
Proof.
  destruct rs as [|r' rs]; cbn; [by split|]. split.
  - intros [? ?]. split; [done|]. by intros ? [= <-].
  - intros [? H']. split; [by apply H'|done].
Qed.

Lemma isolated_head base end_ rs lo mid hi r :
  isolated base end_ rs = (lo, mid, hi) → head lo = Some r →
  ∃ r', head rs = Some r' ∧ r_base r' = r_base r ∧ r_flags r' = r_flags r.
Proof.
  destruct rs as [|r0 rs]; cbn; [intros; by simplify_eq|].
  destruct (_ <=? r_base r0); [intros; by simplify_eq|].
  destruct (isolated base end_ rs) as [[lo' mid'] hi'].
  destruct (_ <=? base), (r_base r0 <? base), (end_ <? r_base r0 + r_size r0);
    intros; simplify_eq/=; eauto.
Qed.

Lemma isolated_minimal base end_ rs lo mid hi :
  isolated base end_ rs = (lo, mid, hi) → base < end_ → regions_ok rs →
  minimal rs → minimal (lo ++ hi).
Proof.
  revert lo mid hi. induction rs as [|r rs IH]; intros lo mid hi Hi Hb Hok Hm.
  { cbn in Hi. by simplify_eq. }
  pose proof (isolated_parts _ _ _ _ _ _ Hi Hb Hok) as (_ & _ & _ & Hhi).
  cbn in Hi. apply regions_ok_cons in Hok as (Hr & Hbef & Hrs). pose proof Hr as (?&?&?).
  destruct (Z.leb_spec end_ (r_base r)); [by simplify_eq|].
  destruct (isolated base end_ rs) as [[lo' mid'] hi'] eqn:Hi'.
  assert (minimal (lo' ++ hi')) as IHm by (eapply IH; eauto using minimal_tail).
  apply minimal_cons in Hm as [Hm Hj].
  destruct (Z.leb_spec (r_base r + r_size r) base).
  { simplify_eq. cbn [app]. apply minimal_cons. split; [done|]. intros r' Hr'.
    destruct lo' as [|r1 lo'].
    - destruct hi as [|r1 hi]; [done|]. apply Forall_cons in Hhi as [? _].
      injection Hr' as ->. lia.
    - injection Hr' as ->.
      destruct (isolated_head _ _ _ _ _ _ r' Hi' eq_refl) as (r1 & ? & <- & <-). by apply Hj. }
  assert (lo' = []) as ->.
  { eapply isolated_inside; [done..|]. eapply before_bound; [|done]. lia. }
  assert (minimal hi).
  { destruct (end_ <? _); simplify_eq; [|done]. apply minimal_cons. split; [done|].
    intros r' Hr'. specialize (Hj r' Hr'). cbn. lia. }
  assert (lo = [] ∨ lo = [MkRegion (r_base r) (base - r_base r) (r_flags r)]) as [->| ->].
  { destruct (r_base r <? base), (end_ <? _); simplify_eq; eauto. }
  - done.
  - cbn [app]. apply minimal_cons. split; [done|]. intros r' Hr'.
    destruct hi as [|r1 hi]; [done|]. apply Forall_cons in Hhi as [? _].
    injection Hr' as ->. cbn. lia.
Qed.

Lemma sum_size_nonneg rs : regions_ok rs → 0 ≤ sum_size rs.
Proof. intros H. apply sum_size_range in H. lia. Qed.

(** ** Removing *)

(** An array is never left empty: the dummy entry takes the place. *)
Definition or_dummy (rs : list memblock_region) : list memblock_region :=
  match rs with [] => [dummy_region] | _ => rs end.

Lemma remove_loop_spec lo hi mid : ∀ ty,
  t_regions ty = lo ++ mid ++ hi → mid ≠ [] → regions_ok (lo ++ mid ++ hi) →
  t_total_size ty = sum_size (lo ++ mid ++ hi) →
  remove_loop (length mid) (Z.of_nat (length lo)) ty =
    MkType (t_max ty) (sum_size (lo ++ hi)) (or_dummy (lo ++ hi)) (t_array ty).
Proof.
  induction mid as [|r mid IH] using rev_ind; intros ty Hrs Hne Hok Htot; [done|].
  rewrite length_app, Nat.add_1_r. cbn [remove_loop].
  rewrite <- Nat2Z.inj_add, Nat2Z.id.
  rewrite <- (assoc_L (++)) in Hrs, Hok, Htot. cbn in Hrs, Hok, Htot.
  assert (regions_ok (lo ++ mid ++ hi)) as Hok'.
  { rewrite !regions_ok_app, ?regions_ok_cons, ?Forall_app in *.
    setoid_rewrite Forall_app in Hok. setoid_rewrite Forall_app.
    setoid_rewrite Forall_cons in Hok. split_and!; try tauto.
    - eapply Forall_impl; [exact (proj2 (proj2 (proj1 (proj2 Hok))))|]. cbn. tauto.
    - eapply Forall_impl; [exact (proj2 (proj2 Hok))|]. cbn. tauto. }
  pose proof (sum_size_range _ Hok') as Hrng.
  assert (memblock_remove_region ty (length lo + length mid) =
    MkType (t_max ty) (sum_size (lo ++ mid ++ hi)) (or_dummy (lo ++ mid ++ hi)) (t_array ty))
    as ->.
  { unfold memblock_remove_region, region_at. rewrite Hrs, Htot, <- length_app.
    rewrite (assoc_L (++)), list_lookup_middle by done. cbn [default].
    rewrite take_app_length, (cons_middle r), (assoc_L (++) _ [r]).
    rewrite drop_app_length' by (rewrite !length_app; cbn; lia).
    replace (u64 _) with (sum_size ((lo ++ mid) ++ hi)).
    - rewrite (assoc_L (++) lo). by destruct ((lo ++ mid) ++ hi).
    - rewrite <- (assoc_L (++)) in *. rewrite !sum_size_app in *. cbn [sum_size].
      unfold id. rewrite u64_id; lia. }
  destruct mid as [|r' mid]; [done|].
  rewrite IH; cbn [t_regions t_total_size t_max t_array]; try done.
  by destruct lo.
Qed.

Lemma isolated_dummy base end_ :
  0 ≤ base < end_ → isolated base end_ [dummy_region] = ([dummy_region], [], []).
Proof.
  intros ?. cbn. destruct (Z.leb_spec end_ 0); [lia|].
  by destruct (Z.leb_spec (0 + 0) base); [|lia].
Qed.

(** What isolating leaves: the split array and the indices of the entries
    inside the area. *)
Lemma isolate_range_fits dbl mb t base size :
  type_ok (get_type mb t) → is_word base → is_word size →
  memblock_cap_size base size ≠ 0 →
  cnt (get_type mb t) + 2 ≤ t_max (get_type mb t) →
  let ty := get_type mb t in
  let '(lo, mid, hi) := isolated base (area_end base size) (t_regions ty) in
  isolate_range_with dbl mb t base size =
    Ok (0, set_type mb t (MkType (t_max ty) (t_total_size ty) (lo ++ mid ++ hi) (t_array ty)),
        report_start 0 0 (length lo) mid, report_end 0 (length lo) mid).
Proof.
  intros (Hok & Htot & Hcnt) Hb Hs Hnz Hroom. cbv zeta.
  destruct (cap_size_end base size Hb Hs) as (Hc & Hend & Hu & Hle).
  assert (0 ≤ base < area_end base size) as Hbe by (unfold is_word, area_end in *; lia).
  unfold isolate_range_with. rewrite Hu.
  destruct (Z.eqb_spec (memblock_cap_size base size) 0); [done|].
  rewrite grow_fits by lia. cbn [mbind outcome_bind negb].
  destruct Hok as [Hd|[Hne Hok]].
  - rewrite Hd, isolated_dummy by done. cbn [length app]. cbn. rewrite Hd. cbn.
    destruct (Z.leb_spec (area_end base size) 0); [lia|].
    change (r_end dummy_region) with 0.
    destruct (Z.leb_spec 0 base); [|lia]. cbn.
    by rewrite <- Hd, MkType_eta.
  - destruct (isolated base (area_end base size) (t_regions (get_type mb t)))
      as [[lo mid] hi] eqn:Hi.
    rewrite (isolate_loop_spec _ _ _ lo mid hi _ _ [] Hi); try done.
    + rewrite Htot. by apply sum_size_range.
    + destruct (t_regions (get_type mb t)); [done|cbn; lia].
Qed.

Lemma isolate_range_full dbl `{!RefusesResize dbl} mb t base size :
  memblock_can_resize mb = false → memblock_cap_size base size ≠ 0 →
  t_max (get_type mb t) < cnt (get_type mb t) + 2 →
  isolate_range_with dbl mb t base size = Ok (- ENOMEM, mb, 0, 0).
Proof.
  intros Hr Hnz Hc. unfold isolate_range_with. cbv zeta.
  destruct (Z.eqb_spec (memblock_cap_size base size) 0); [done|].
  by rewrite grow_refused.
Qed.

Lemma isolated_none base end_ rs lo hi :
  isolated base end_ rs = (lo, [], hi) → lo ++ hi = rs.
Proof.
  revert lo hi. induction rs as [|r rs IH]; intros lo hi; cbn; [by intros; simplify_eq|].
  destruct (end_ <=? _); [by intros; simplify_eq|].
  destruct (isolated base end_ rs) as [[lo' mid'] hi'].
  destruct (_ <=? base); intros; simplify_eq/=; [by rewrite IH|].
  by destruct (end_ <? _).
Qed.

(** What removing leaves in the array when it fits. *)
Definition removed (base end_ : Z) (rs : list memblock_region) : list memblock_region :=
  let '(lo, mid, hi) := isolated base end_ rs in or_dummy (lo ++ hi).

Lemma remove_range_fits dbl mb t base size :
  type_ok (get_type mb t) → is_word base → is_word size →
  memblock_cap_size base size ≠ 0 →
  cnt (get_type mb t) + 2 ≤ t_max (get_type mb t) →
  let ty := get_type mb t in
  let rs' := removed base (area_end base size) (t_regions ty) in
  remove_range_with dbl mb t base size =
    Ok (0, set_type mb t (MkType (t_max ty) (sum_size rs') rs' (t_array ty))).
Proof.
  intros Hok Hb Hs Hnz Hroom. cbv zeta.
  pose proof (isolate_range_fits dbl mb t base size Hok Hb Hs Hnz Hroom) as Hi. cbv zeta in Hi.
  destruct (cap_size_end base size Hb Hs) as (Hc & Hend & Hu & Hle).
  assert (base < area_end base size) as Hbe by (unfold is_word, area_end in *; lia).
  unfold remove_range_with, removed.
  destruct (isolated base (area_end base size) (t_regions (get_type mb t)))
    as [[lo mid] hi] eqn:Heq.
  rewrite Hi. cbn [mbind outcome_bind]. rewrite get_set_type, set_set_type. cbn [Z.eqb negb].
  destruct Hok as (Hok & Htot & _).
  assert (or_dummy (t_regions (get_type mb t)) = t_regions (get_type mb t)) as Hod.
  { destruct Hok as [->|[Hne _]]; [done|]. by destruct (t_regions (get_type mb t)). }
  destruct mid as [|r mid].
  { cbn. rewrite (isolated_none _ _ _ _ _ Heq), Htot, Hod. done. }
  destruct Hok as [Hd|[Hne Hok]].
  { rewrite Hd, isolated_dummy in Heq by (unfold is_word in *; lia). done. }
  destruct (isolated_parts _ _ _ _ _ _ Heq Hbe Hok) as (Hok' & _).
  destruct (isolated_same _ _ _ _ _ _ Heq Hbe Hok) as (_ & Hsum).
  unfold report_start, report_end. cbn [Z.eqb].
  replace (Z.to_nat _) with (length (r :: mid)) by lia.
  rewrite (remove_loop_spec lo hi (r :: mid)); cbn [t_max t_total_size t_regions t_array];
    [|done..|by rewrite Hsum]. by destruct (lo ++ hi).
Qed.
