(* ===== verification/MemblockIter.v ===== *)
(** * The iterators over free memory

    [__next_mem_range] and [__next_mem_range_rev] merge the sorted memory
    array with the gaps between the reserved regions, keeping a packed pair of
    indices between calls. The reference is the plain double loop: for every
    memory region that is not skipped, its intersections with the gaps. One
    call of the iterator produces the next element of that list. *)

From stdpp Require Import base numbers list option sorting.
From Stdlib Require Import ZArith Lia.
From S2P Require Import Prelude Memblock MemblockRegions MemblockRanges.
Import Memblock.

Open Scope Z_scope.

(** ** The reference *)

(** The gaps around the regions [rs], the first one starting at [p]. *)
Fixpoint gaps (p : Z) (rs : list memblock_region) : list (Z * Z) :=
  match rs with
  | [] => [(p, PHYS_ADDR_MAX)]
  | r :: rs => (p, r_base r) :: gaps (r_base r + r_size r) rs
  end.

Definition meet (m : memblock_region) (g : Z * Z) : option (Z * Z) :=
  let m_end := r_base m + r_size m in
  if (g.1 <? m_end) && (r_base m <? g.2)
  then Some (Z.max (r_base m) g.1, Z.min m_end g.2) else None.

Definition free_of (m : memblock_region) (gs : list (Z * Z)) : list (Z * Z) :=
  omap (meet m) gs.

Definition free_from (nid flags : Z) (rs : list memblock_region) (gs : list (Z * Z))
    : list (Z * Z) :=
  flat_map (λ m, if should_skip_region m nid flags then [] else free_of m gs) rs.

Definition free_ranges (mb : memblock) (nid flags : Z) : list (Z * Z) :=
  free_from nid flags (t_regions (memory mb)) (gaps 0 (t_regions (reserved mb))).

(** ** Gaps *)

Definition gap_before (g1 g2 : Z * Z) : Prop := g1.2 ≤ g2.1.

(** Arrays with fewer entries than a signed index can count. *)
Definition countable (ty : memblock_type) : Prop := cnt ty < 2 ^ 31 - 1.

Lemma length_gaps p rs : length (gaps p rs) = S (length rs).
Proof. revert p. induction rs; intros p; cbn; [done|]. by rewrite IHrs. Qed.

Lemma array_r_end rs r : array_ok rs → r ∈ rs → r_end r = r_base r + r_size r.
Proof.
  intros [->|[_ [H _]]] Hr.
  - apply list_elem_of_singleton in Hr as ->. done.
  - rewrite Forall_forall in H. by apply r_end_ok, H.
Qed.

Lemma gaps_lookup p rs j :
  (j ≤ length rs)%nat →
  gaps p rs !! j = Some
    (match j with O => p | S j' => r_base (default dummy_region (rs !! j')) +
                                   r_size (default dummy_region (rs !! j')) end,
     match rs !! j with Some r => r_base r | None => PHYS_ADDR_MAX end).
Proof.
  revert p j. induction rs as [|r rs IH]; intros p [|j] Hj; cbn in *; try done; [lia|].
  rewrite IH by lia. by destruct j.
Qed.

Lemma gaps_at ty j :
  array_ok (t_regions ty) → (j ≤ length (t_regions ty))%nat →
  gaps 0 (t_regions ty) !! j = Some (gap_start ty (Z.of_nat j), gap_end ty (Z.of_nat j)).
Proof.
  intros Hok Hj. rewrite gaps_lookup by done. f_equal. f_equal.
  - unfold gap_start, region_at. destruct j as [|j]; [done|].
    destruct (Z.eqb_spec (Z.of_nat (S j)) 0); [lia|].
    replace (Z.to_nat (Z.of_nat (S j) - 1)) with j by lia.
    destruct (lookup_lt_is_Some_2 (t_regions ty) j) as [r Hr]; [lia|].
    rewrite Hr. cbn. symmetry. eapply array_r_end; [done|]. by eapply list_elem_of_lookup_2.
  - unfold gap_end, region_at, cnt. rewrite Nat2Z.id.
    destruct (Z.ltb_spec (Z.of_nat j) (Z.of_nat (length (t_regions ty)))).
    + destruct (lookup_lt_is_Some_2 (t_regions ty) j) as [r Hr]; [lia|]. by rewrite Hr.
    + by rewrite lookup_ge_None_2 by lia.
Qed.

Lemma gaps_sorted_aux p rs :
  regions_ok rs → p ≤ PHYS_ADDR_MAX → Forall (λ r, p ≤ r_base r) rs →
  StronglySorted gap_before (gaps p rs) ∧ Forall (λ g, p ≤ g.1 ∧ g.1 ≤ g.2) (gaps p rs).
Proof.
  revert p. induction rs as [|r rs IH]; intros p Hok Hp Hlo; cbn.
  { split; [repeat constructor|]. constructor; [cbn; lia|constructor]. }
  apply regions_ok_cons in Hok as ((?&?&?) & Hbef & Hok). apply Forall_cons in Hlo as [? Hlo].
  destruct (IH (r_base r + r_size r) Hok) as [Hs Hf]; [lia|done|]. split.
  - constructor; [done|]. eapply Forall_impl; [exact Hf|]. unfold gap_before. cbn. lia.
  - constructor; [cbn; lia|]. eapply Forall_impl; [exact Hf|]. cbn. lia.
Qed.

Lemma gaps_sorted rs :
  array_ok rs →
  StronglySorted gap_before (gaps 0 rs) ∧ Forall (λ g, 0 ≤ g.1 ∧ g.1 ≤ g.2) (gaps 0 rs).
Proof.
  unfold PHYS_ADDR_MAX. intros [->|[_ Hok]].
  - split.
    + repeat apply SSorted_cons; repeat apply Forall_cons_2; try constructor.
      unfold gap_before; cbn. lia.
    + repeat apply Forall_cons_2; try constructor; cbn; unfold PHYS_ADDR_MAX; lia.
  - apply gaps_sorted_aux; [done|unfold PHYS_ADDR_MAX; lia|by apply regions_ok_lo].
Qed.

(** ** Packed indices *)

Lemma testbit_u32 x n : 0 ≤ n → Z.testbit (u32 x) n = (n <? 32) && Z.testbit x n.
Proof.
  intros ?. unfold u32. destruct (Z.ltb_spec n 32).
  - by rewrite Z.mod_pow2_bits_low.
  - by rewrite Z.mod_pow2_bits_high by lia.
Qed.

Lemma pack_low a b : 0 ≤ b < 2 ^ 31 → Z.land (pack_idx a b) 0xffffffff = u32 a.
Proof.
  intros Hb. unfold pack_idx. rewrite (u64_id b) by lia.
  rewrite shiftl_mul by lia. rewrite (u64_id (b * 2 ^ 32)) by lia.
  apply Z.bits_inj'. intros n Hn. change 0xffffffff with (Z.ones 32).
  rewrite Z.land_spec, Z.lor_spec, testbit_u32 by done.
  destruct (Z.ltb_spec n 32).
  - rewrite Z.ones_spec_low, Z.mul_pow2_bits_low, orb_false_r, !andb_true_r by lia. done.
  - by rewrite Z.ones_spec_high, andb_false_r by lia.
Qed.

Lemma pack_high a b : 0 ≤ b < 2 ^ 31 → Z.shiftr (pack_idx a b) 32 = b.
Proof.
  intros Hb. unfold pack_idx. rewrite (u64_id b) by lia.
  rewrite shiftl_mul by lia. rewrite (u64_id (b * 2 ^ 32)) by lia.
  apply Z.bits_inj'. intros n Hn.
  rewrite Z.shiftr_spec, Z.lor_spec, testbit_u32 by lia.
  destruct (Z.ltb_spec (n + 32) 32); [lia|]. cbn.
  rewrite Z.mul_pow2_bits by lia. f_equal. lia.
Qed.

Lemma pack_range a b : 0 ≤ b < 2 ^ 31 → 0 ≤ pack_idx a b < ULLONG_MAX.
Proof.
  intros Hb. pose proof (pack_high a b Hb) as Hh. rewrite shiftr_div in Hh by lia.
  unfold ULLONG_MAX. assert (0 ≤ u32 a) by (apply u32_range). split.
  - unfold pack_idx. apply Z.lor_nonneg. split; [done|]. apply u64_range.
  - pose proof (Z.div_mod (pack_idx a b) (2 ^ 32) ltac:(lia)).
    pose proof (Z.mod_pos_bound (pack_idx a b) (2 ^ 32) ltac:(lia)). lia.
Qed.

Lemma s32_u32 a : - 2 ^ 31 ≤ a < 2 ^ 31 → s32 (u32 a) = a.
Proof.
  intros Ha. unfold s32, sext, u32. rewrite Z.add_mod_idemp_l by lia.
  rewrite Z.mod_small; cbn; lia.
Qed.

(** ** Facts about the reference *)

Lemma free_from_cons nid flags m rs gs :
  free_from nid flags (m :: rs) gs =
  (if should_skip_region m nid flags then [] else free_of m gs) ++ free_from nid flags rs gs.
Proof. done. Qed.

Lemma free_of_cons m g gs :
  free_of m (g :: gs) =
  match meet m g with Some x => x :: free_of m gs | None => free_of m gs end.
Proof. done. Qed.

Lemma free_of_above m gs :
  Forall (λ g, r_base m + r_size m ≤ g.1) gs → free_of m gs = [].
Proof.
  induction 1 as [|g gs Hg _ IH]; [done|]. cbn. unfold meet at 1.
  by destruct (Z.ltb_spec g.1 (r_base m + r_size m)); [lia|].
Qed.

Lemma meet_below m g : g.2 ≤ r_base m → meet m g = None.
Proof.
  intros ?. unfold meet. destruct (Z.ltb_spec (r_base m) g.2); [lia|]. by rewrite andb_false_r.
Qed.

Lemma meet_above m g : r_base m + r_size m ≤ g.1 → meet m g = None.
Proof. intros ?. unfold meet. by destruct (Z.ltb_spec g.1 (r_base m + r_size m)); [lia|]. Qed.

(** A gap that meets none of the regions may be dropped. *)
Lemma free_from_drop nid flags rs g gs :
  Forall (λ m, meet m g = None) rs →
  free_from nid flags rs (g :: gs) = free_from nid flags rs gs.
Proof.
  induction 1 as [|m rs Hm _ IH]; [done|].
  rewrite !free_from_cons, IH. cbn. by rewrite Hm.
Qed.

Lemma sorted_gap_start g gs e :
  StronglySorted gap_before (g :: gs) → e ≤ g.1 → g.1 ≤ g.2 → Forall (λ g', e ≤ g'.1) (g :: gs).
Proof.
  intros [_ H]%StronglySorted_inv ? ?. constructor; [done|].
  eapply Forall_impl; [exact H|]. unfold gap_before. cbn. lia.
Qed.

Section forward.
Context (ty_a ty_b : memblock_type) (nid flags : Z).
Hypothesis (Ha : array_ok (t_regions ty_a)) (Hb : array_ok (t_regions ty_b)).
Hypothesis (Hca : countable ty_a) (Hcb : countable ty_b).

Let rs := t_regions ty_a.
Let gs := gaps 0 (t_regions ty_b).

(** The elements ahead of the index pair [(i, j)]. *)
Definition ahead (i j : nat) : list (Z * Z) := free_from nid flags (drop i rs) (drop j gs).

Definition emits (i j : nat) (out : iter_result) : Prop :=
  match ahead i j with
  | [] => out = (ULLONG_MAX, None)
  | (s, e) :: rest => ∃ i' j',
      out = (pack_idx (Z.of_nat i') (Z.of_nat j'), Some (s, e, 0)) ∧
      (i' ≤ length rs)%nat ∧ (j' ≤ S (length (t_regions ty_b)))%nat ∧
      (i + j < i' + j')%nat ∧ ahead i' j' = rest
  end.

Lemma emits_later i j i0 j0 out :
  ahead i0 j0 = ahead i j → (i0 + j0 ≤ i + j)%nat → emits i j out → emits i0 j0 out.
Proof.
  unfold emits. intros -> ?. destruct (ahead i j) as [|[s e] rest]; [done|].
  intros (i' & j' & ? & ? & ? & ? & ?). exists i', j'. split_and!; [done..|lia|done].
Qed.

Lemma drop_gaps j :
  (j ≤ length (t_regions ty_b))%nat →
  drop j gs = (gap_start ty_b (Z.of_nat j), gap_end ty_b (Z.of_nat j)) :: drop (S j) gs.
Proof. intros. apply drop_S. by apply gaps_at. Qed.

Lemma gaps_sorted_drop j :
  StronglySorted gap_before (drop j gs) ∧ Forall (λ g, 0 ≤ g.1 ∧ g.1 ≤ g.2) (drop j gs).
Proof.
  destruct (gaps_sorted _ Hb) as [Hs Hf]. fold gs in Hs, Hf.
  rewrite <- (take_drop j gs) in Hs, Hf. apply StronglySorted_app_1_r in Hs.
  apply Forall_app in Hf. tauto.
Qed.

(** The inner loop, at entry [i] holding [m], from gap [j] on. *)
Lemma next_inner_spec m rest i : ∀ n j fuel,
  n = (S (length (t_regions ty_b)) - j)%nat → (j ≤ S (length (t_regions ty_b)))%nat →
  (n < fuel)%nat → 0 ≤ r_size m →
  Forall (λ m', r_base m + r_size m ≤ r_base m' ∧ 0 ≤ r_size m') rest →
  let here j := free_of m (drop j gs) ++ free_from nid flags rest (drop j gs) in
  ∃ res, next_inner fuel ty_b (r_base m) (r_base m + r_size m) 0 (Z.of_nat i) (Z.of_nat j) = Ok res ∧
  match res with
  | inr idx => ∃ j', idx = Z.of_nat j' ∧ (j ≤ j' ≤ S (length (t_regions ty_b)))%nat ∧
      here j = free_from nid flags rest (drop j' gs)
  | inl out => ∃ s e i' j', (j' ≤ S (length (t_regions ty_b)) ∧ i + j < i' + j')%nat ∧
      out = (pack_idx (Z.of_nat i') (Z.of_nat j'), Some (s, e, 0)) ∧
      ((i' = S i ∧ here j = (s, e) :: free_from nid flags rest (drop j' gs)) ∨
       (i' = i ∧ here j = (s, e) :: here j'))
  end.
Proof.
  induction n as [|n IH]; intros j fuel Hn Hj Hf Hm Hrest; cbv zeta;
    (destruct fuel as [|fuel]; [lia|]); cbn [next_inner]; unfold countable, cnt in *;
    rewrite (u64_id (Z.of_nat j)), (u64_id (_ + 1)) by lia.
  { destruct (Z.ltb_spec (Z.of_nat j) (Z.of_nat (length (t_regions ty_b)) + 1)); [lia|].
    eexists; split; [done|]. exists j. split_and!; [done|lia..|].
    rewrite (drop_ge gs j); [done|]. unfold gs. rewrite length_gaps. lia. }
  destruct (Z.ltb_spec (Z.of_nat j) (Z.of_nat (length (t_regions ty_b)) + 1)); [|lia].
  pose proof (gaps_sorted_drop j) as [Hso Hge]. pose proof (drop_gaps j ltac:(lia)) as Hd.
  set (g := (gap_start _ _, gap_end _ _)) in Hd. rewrite Hd in Hso, Hge |- *.
  apply Forall_cons in Hge as [[? Hg] _].
  change (gap_start ty_b (Z.of_nat j)) with g.1. change (gap_end ty_b (Z.of_nat j)) with g.2.
  clearbody g.
  destruct (Z.leb_spec (r_base m + r_size m) g.1) as [Habove|Habove].
  { eexists; split; [done|]. exists j. split_and!; [done|lia..|].
    rewrite free_of_above by (by apply sorted_gap_start).
    cbn [app]. by rewrite Hd. }
  destruct (Z.ltb_spec (r_base m) g.2) as [Hbelow|Hbelow].
  - assert (meet m g = Some (Z.max (r_base m) g.1, Z.min (r_base m + r_size m) g.2)) as Hmeet.
    { unfold meet. destruct (Z.ltb_spec g.1 (r_base m + r_size m)),
        (Z.ltb_spec (r_base m) g.2); done || lia. }
    destruct (Z.leb_spec (r_base m + r_size m) g.2).
    + eexists; split; [done|]. do 2 eexists. exists (S i), j.
      split_and!; [lia..|by rewrite Nat2Z.inj_succ, Z.add_1_r|]. left. split; [done|].
      rewrite free_of_cons, Hmeet. cbn [app].
      rewrite free_of_above; [by rewrite Hd|].
      apply StronglySorted_inv in Hso as [_ Hso]. eapply Forall_impl; [exact Hso|].
      unfold gap_before. cbn. lia.
    + eexists; split; [done|]. do 2 eexists. exists i, (S j).
      split_and!; [lia..|by rewrite (Nat2Z.inj_succ j), Z.add_1_r|]. right. split; [done|].
      rewrite free_of_cons, Hmeet. cbn [app]. rewrite free_from_drop; [done|].
      eapply Forall_impl; [exact Hrest|]. cbn. intros m' [? ?]. apply meet_below. lia.
  - replace (Z.of_nat j + 1) with (Z.of_nat (S j)) by lia.
    destruct (IH (S j) fuel) as (res & -> & Hres); [lia..|done|done|].
    exists res. split; [done|]. cbv zeta in Hres. rewrite free_of_cons, meet_below by lia.
    rewrite free_from_drop.
    { destruct res as [out|idx].
      - destruct Hres as (s & e & i' & j' & ? & ?). exists s, e, i', j'. split; [lia|done].
      - destruct Hres as (j' & ? & ? & ?). exists j'. split_and!; [done|lia..|done]. }
    eapply Forall_impl; [exact Hrest|]. cbn. intros m' [? ?]. apply meet_below. lia.
Qed.

Lemma array_ok_drop i m rest :
  drop i rs = m :: rest →
  0 ≤ r_size m ∧ Forall (λ m', r_base m + r_size m ≤ r_base m' ∧ 0 ≤ r_size m') rest ∧
  r_end m = r_base m + r_size m.
Proof.
  intros Hd. assert (m ∈ rs) as Hin.
  { rewrite <- (take_drop i rs), Hd. apply elem_of_app. right. left. }
  pose proof (array_r_end _ _ Ha Hin) as He. destruct Ha as [Hdum|[_ Hok]].
  - unfold rs in *. rewrite Hdum in *. destruct i as [|[|i]]; cbn in Hd; simplify_eq. cbn.
    split_and!; [lia|constructor|done].
  - fold rs in Hok. rewrite <- (take_drop i rs), Hd in Hok.
    apply regions_ok_app in Hok as (_ & Hok & _).
    apply regions_ok_cons in Hok as ((?&?&?) & Hbef & [Hf _]). split_and!; [lia| |done].
    rewrite Forall_forall in *. intros m' Hm'. specialize (Hbef m' Hm').
    destruct (Hf m' Hm') as (?&?&?). unfold before in Hbef. lia.
Qed.

Lemma next_outer_spec : ∀ n i j fuel,
  n = (length rs - i)%nat → (i ≤ length rs)%nat → (j ≤ S (length (t_regions ty_b)))%nat →
  (n < fuel)%nat →
  ∃ out, next_outer fuel nid flags ty_a (Some ty_b) (Z.of_nat i) (Z.of_nat j) = Ok out ∧
         emits i j out.
Proof.
  induction n as [|n IH]; intros i j fuel Hn Hi Hj Hf;
    (destruct fuel as [|fuel]; [lia|]); cbn [next_outer]; unfold countable, cnt in *;
    fold rs in Hca |- *; rewrite (u64_id (Z.of_nat i)) by lia.
  { destruct (Z.ltb_spec (Z.of_nat i) (Z.of_nat (length rs))); [lia|].
    eexists; split; [done|]. unfold emits, ahead. by rewrite drop_ge by lia. }
  destruct (Z.ltb_spec (Z.of_nat i) (Z.of_nat (length rs))); [|lia].
  destruct (lookup_lt_is_Some_2 rs i) as [m Hm]; [lia|].
  pose proof (drop_S _ _ _ Hm) as Hd. destruct (array_ok_drop _ _ _ Hd) as (Hsz & Hrest & He).
  unfold region_at. fold rs. rewrite Nat2Z.id, Hm. cbn [default]. unfold id.
  replace (Z.of_nat i + 1) with (Z.of_nat (S i)) by lia.
  assert (ahead i j = (if should_skip_region m nid flags then [] else free_of m (drop j gs))
            ++ ahead (S i) j) as Hah by (unfold ahead at 1; by rewrite Hd, free_from_cons).
  destruct (should_skip_region m nid flags) eqn:Hskip.
  { destruct (IH (S i) j fuel) as (out & -> & Hout); [lia..|].
    exists out. split; [done|]. apply (emits_later (S i) j); [done|lia|done]. }
  rewrite He. change (memblock_get_region_node m) with 0.
  edestruct (next_inner_spec m (drop (S i) rs) i _ j (S (S (length (t_regions ty_b)))) eq_refl)
    as (res & -> & Hres); [done|lia|done|done|]. cbn [mbind outcome_bind].
  destruct res as [out|idx].
  - destruct Hres as (s & e & i' & j' & [? ?] & -> & Hcase).
    eexists; split; [done|]. unfold emits. rewrite Hah.
    fold (ahead (S i) j) in Hcase. fold (ahead (S i) j') in Hcase.
    destruct Hcase as [[-> Hc]|[-> Hc]]; rewrite Hc; do 2 eexists; split_and!; try done; try lia.
    unfold ahead at 1. by rewrite Hd, free_from_cons, Hskip.
  - destruct Hres as (j' & -> & ? & Hc).
    destruct (IH (S i) j' fuel) as (out & -> & Hout); [lia..|].
    exists out. split; [done|]. apply (emits_later (S i) j'); [by rewrite Hah|lia|done].
Qed.

(** One call of the iterator from a packed pair of indices. *)
Lemma next_mem_range_spec i j :
  nid ≠ MAX_NUMNODES → (i ≤ length rs)%nat → (j ≤ S (length (t_regions ty_b)))%nat →
  ∃ out, __next_mem_range (pack_idx (Z.of_nat i) (Z.of_nat j)) nid flags ty_a (Some ty_b)
           = Ok out ∧ emits i j out.
Proof.
  intros Hnid Hi Hj. unfold __next_mem_range. unfold countable, cnt in *. fold rs in Hca |- *.
  rewrite pack_low, pack_high, s32_u32 by lia. unfold s32. rewrite sext_id by lia.
  destruct (Z.eqb_spec nid MAX_NUMNODES); [done|].
  eapply next_outer_spec; [done|lia..].
Qed.
End forward.

Section reverse.
Context (ty_a ty_b : memblock_type) (nid flags : Z).
Hypothesis (Ha : array_ok (t_regions ty_a)) (Hb : array_ok (t_regions ty_b)).
Hypothesis (Hca : countable ty_a) (Hcb : countable ty_b).

Let rs := t_regions ty_a.
Let gs := gaps 0 (t_regions ty_b).

(** The elements ahead, downwards, with [i] regions and [j] gaps left. *)
Definition ahead_rev (i j : nat) : list (Z * Z) :=
  free_from nid flags (reverse (take i rs)) (reverse (take j gs)).

Definition emits_rev (i j : nat) (out : iter_result) : Prop :=
  match ahead_rev i j with
  | [] => out = (ULLONG_MAX, None)
  | (s, e) :: rest => ∃ i' j',
      out = (pack_idx (Z.of_nat i' - 1) (Z.of_nat j' - 1), Some (s, e, 0)) ∧
      (i' ≤ length rs)%nat ∧ (1 ≤ j' ≤ S (length (t_regions ty_b)))%nat ∧
      (i' + j' < i + j)%nat ∧ ahead_rev i' j' = rest
  end.

Lemma emits_rev_later i j i0 j0 out :
  ahead_rev i0 j0 = ahead_rev i j → (i + j ≤ i0 + j0)%nat →
  emits_rev i j out → emits_rev i0 j0 out.
Proof.
  unfold emits_rev. intros -> ?. destruct (ahead_rev i j) as [|[s e] rest]; [done|].
  intros (i' & j' & ? & ? & ? & ? & ?). exists i', j'. split_and!; try done; lia.
Qed.

Lemma take_gaps j :
  (j ≤ length (t_regions ty_b))%nat →
  let g := (gap_start ty_b (Z.of_nat j), gap_end ty_b (Z.of_nat j)) in
  reverse (take (S j) gs) = g :: reverse (take j gs) ∧
  0 ≤ g.1 ≤ g.2 ∧ Forall (λ g', g'.2 ≤ g.1) (reverse (take j gs)).
Proof.
  intros Hj g. pose proof (gaps_at ty_b j Hb Hj) as Hg. fold gs g in Hg.
  destruct (gaps_sorted _ Hb) as [Hs Hf]. fold gs in Hs, Hf. split_and!.
  - by rewrite (take_S_r _ _ _ Hg), reverse_snoc.
  - rewrite Forall_forall in Hf. eapply Hf. by eapply list_elem_of_lookup_2.
  - rewrite Forall_forall in Hf. eapply Hf. by eapply list_elem_of_lookup_2.
  - apply Forall_reverse. rewrite <- (take_drop j gs) in Hs. rewrite (drop_S _ _ _ Hg) in Hs.
    apply Forall_forall. intros g' Hg'.
    change (gap_before g' g). eapply StronglySorted_app_1_elem_of; [exact Hs|done|left].
Qed.

Lemma free_of_below m l : Forall (λ g, g.2 ≤ r_base m) l → free_of m l = [].
Proof.
  induction 1 as [|g l Hg _ IH]; [done|]. by rewrite free_of_cons, meet_below.
Qed.

Lemma next_rev_inner_spec m rest i : ∀ j fuel,
  (j ≤ S (length (t_regions ty_b)))%nat → (j < fuel)%nat → 0 ≤ r_base m → 0 ≤ r_size m →
  Forall (λ m', r_base m' + r_size m' ≤ r_base m) rest →
  let here j := free_of m (reverse (take j gs)) ++ free_from nid flags rest (reverse (take j gs)) in
  ∃ res, next_rev_inner fuel ty_b (r_base m) (r_base m + r_size m) 0
           (Z.of_nat (S i) - 1) (Z.of_nat j - 1) = Ok res ∧
  match res with
  | inr idx => ∃ j', idx = Z.of_nat j' - 1 ∧ (j' ≤ j)%nat ∧
      here j = free_from nid flags rest (reverse (take j' gs))
  | inl out => ∃ s e i' j', (1 ≤ j' ≤ j ∧ i' + j' < S i + j)%nat ∧
      out = (pack_idx (Z.of_nat i' - 1) (Z.of_nat j' - 1), Some (s, e, 0)) ∧
      ((i' = i ∧ here j = (s, e) :: free_from nid flags rest (reverse (take j' gs))) ∨
       (i' = S i ∧ here j = (s, e) :: here j'))
  end.
Proof.
  induction j as [|j IH]; intros fuel Hj Hf Hm0 Hm Hrest; cbv zeta;
    (destruct fuel as [|fuel]; [lia|]); cbn [next_rev_inner].
  { cbn. eexists; split; [done|]. exists 0%nat. done. }
  destruct (Z.leb_spec 0 (Z.of_nat (S j) - 1)); [|lia].
  replace (Z.of_nat (S j) - 1) with (Z.of_nat j) by lia.
  destruct (take_gaps j) as (Hd & Hg & Hlow); [lia|].
  assert (j = 0%nat → gap_start ty_b (Z.of_nat j) = 0) as Hfirst by (by intros ->).
  set (g := (gap_start _ _, gap_end _ _)) in *. rewrite Hd.
  change (gap_start ty_b (Z.of_nat j)) with g.1 in Hfirst |- *.
  change (gap_end ty_b (Z.of_nat j)) with g.2. clearbody g.
  destruct (Z.leb_spec g.2 (r_base m)) as [Hbelow|Hbelow].
  { eexists; split; [done|]. exists (S j). split_and!; [lia..|].
    rewrite free_of_below; [by rewrite Hd|].
    constructor; [done|]. eapply Forall_impl; [exact Hlow|]. cbn. lia. }
  destruct (Z.ltb_spec g.1 (r_base m + r_size m)) as [Habove|Habove].
  - assert (meet m g = Some (Z.max (r_base m) g.1, Z.min (r_base m + r_size m) g.2)) as Hmeet.
    { unfold meet. destruct (Z.ltb_spec g.1 (r_base m + r_size m)),
        (Z.ltb_spec (r_base m) g.2); done || lia. }
    rewrite free_of_cons, Hmeet. cbn [app].
    destruct (Z.leb_spec g.1 (r_base m)).
    + eexists; split; [done|]. do 2 eexists. exists i, (S j).
      split_and!; [lia..|f_equal; f_equal; lia|].
      left. split; [done|]. rewrite free_of_below; [by rewrite Hd|].
      eapply Forall_impl; [exact Hlow|]. cbn. lia.
    + eexists; split; [done|]. do 2 eexists. exists (S i), j.
      split_and!; [lia..|done|]. right. split; [done|].
      rewrite free_from_drop; [done|].
      eapply Forall_impl; [exact Hrest|]. cbn. intros m' ?. apply meet_above. lia.
  - destruct (IH fuel) as (res & -> & Hres); [lia..|done|].
    exists res. split; [done|]. cbv zeta in Hres. rewrite free_of_cons, meet_above by lia.
    rewrite free_from_drop.
    { destruct res as [out|idx].
      - destruct Hres as (s & e & i' & j' & ? & ?). exists s, e, i', j'. split; [lia|done].
      - destruct Hres as (j' & ? & ? & ?). exists j'. split_and!; [done|lia|done]. }
    eapply Forall_impl; [exact Hrest|]. cbn. intros m' ?. apply meet_above. lia.
Qed.

Lemma array_ok_take i m :
  rs !! i = Some m →
  0 ≤ r_base m ∧ 0 ≤ r_size m ∧ r_end m = r_base m + r_size m ∧
  Forall (λ m', r_base m' + r_size m' ≤ r_base m) (reverse (take i rs)).
Proof.
  intros Hm. pose proof (list_elem_of_lookup_2 _ _ _ Hm) as Hin.
  pose proof (array_r_end _ _ Ha Hin) as He. destruct Ha as [Hdum|[_ Hok]].
  - unfold rs in *. rewrite Hdum in *. destruct i as [|i]; cbn in Hm; simplify_eq.
    cbn. split_and!; [lia..|done|constructor].
  - pose proof Hok as [Hf _]. rewrite Forall_forall in Hf. destruct (Hf m Hin) as (?&?&?).
    split_and!; [lia..|done|]. apply Forall_reverse.
    fold rs in Hok. rewrite <- (take_drop i rs), (drop_S _ _ _ Hm) in Hok.
    apply regions_ok_app in Hok as (_ & _ & Hbef). eapply Forall_impl; [exact Hbef|].
    cbn. intros m' [? _]%Forall_cons. done.
Qed.

Lemma next_rev_outer_spec : ∀ i j fuel,
  (i ≤ length rs)%nat → (j ≤ S (length (t_regions ty_b)))%nat → (i < fuel)%nat →
  ∃ out, next_rev_outer fuel nid flags ty_a (Some ty_b) (Z.of_nat i - 1) (Z.of_nat j - 1) = Ok out ∧
         emits_rev i j out.
Proof.
  induction i as [|i IH]; intros j fuel Hi Hj Hf;
    (destruct fuel as [|fuel]; [lia|]); cbn [next_rev_outer].
  { cbn. eexists; split; [done|]. done. }
  destruct (Z.leb_spec 0 (Z.of_nat (S i) - 1)); [|lia].
  destruct (lookup_lt_is_Some_2 rs i) as [m Hm]; [lia|].
  destruct (array_ok_take _ _ Hm) as (Hm0 & Hsz & He & Hrest).
  unfold region_at. fold rs. replace (Z.to_nat (Z.of_nat (S i) - 1)) with i by lia.
  rewrite Hm. cbn [default]. unfold id.
  replace (Z.of_nat (S i) - 1 - 1) with (Z.of_nat i - 1) by lia.
  assert (∀ j, ahead_rev (S i) j = (if should_skip_region m nid flags then []
            else free_of m (reverse (take j gs))) ++ ahead_rev i j) as Hah.
  { intros j'. unfold ahead_rev at 1. by rewrite (take_S_r _ _ _ Hm), reverse_snoc, free_from_cons. }
  destruct (should_skip_region m nid flags) eqn:Hskip.
  { destruct (IH j fuel) as (out & -> & Hout); [lia..|].
    exists out. split; [done|]. by apply (emits_rev_later i j); [apply Hah|lia|]. }
  rewrite He. change (memblock_get_region_node m) with 0.
  destruct (next_rev_inner_spec m (reverse (take i rs)) i j (S (S (length (t_regions ty_b)))))
    as (res & -> & Hres); [done|lia|done..|]. cbn [mbind outcome_bind].
  destruct res as [out|idx].
  - destruct Hres as (s & e & i' & j' & [? ?] & -> & Hcase).
    eexists; split; [done|]. unfold emits_rev. rewrite Hah.
    fold (ahead_rev i j) in Hcase. fold (ahead_rev i j') in Hcase.
    destruct Hcase as [[-> Hc]|[-> Hc]]; rewrite Hc; do 2 eexists; split_and!; try done; lia.
  - destruct Hres as (j' & -> & ? & Hc).
    destruct (IH j' fuel) as (out & -> & Hout); [lia..|].
    exists out. split; [done|]. apply (emits_rev_later i j'); [by rewrite Hah|lia|done].
Qed.

Lemma next_mem_range_rev_spec i j :
  nid ≠ MAX_NUMNODES → (i ≤ length rs)%nat → (1 ≤ j ≤ S (length (t_regions ty_b)))%nat →
  ∃ out, __next_mem_range_rev (pack_idx (Z.of_nat i - 1) (Z.of_nat j - 1)) nid flags
           ty_a (Some ty_b) = Ok out ∧ emits_rev i j out.
Proof.
  intros Hnid Hi Hj. unfold __next_mem_range_rev. unfold countable, cnt in *.
  fold rs in Hca |- *. destruct (Z.eqb_spec nid MAX_NUMNODES); [done|].
  pose proof (pack_range (Z.of_nat i - 1) (Z.of_nat j - 1) ltac:(lia)).
  destruct (Z.eqb_spec (pack_idx (Z.of_nat i - 1) (Z.of_nat j - 1)) ULLONG_MAX); [lia|].
  rewrite pack_low, pack_high, s32_u32 by lia. unfold s32. rewrite sext_id by lia.
  apply next_rev_outer_spec; lia.
Qed.

Lemma next_mem_range_rev_start :
  nid ≠ MAX_NUMNODES →
  ∃ out, __next_mem_range_rev ULLONG_MAX nid flags ty_a (Some ty_b) = Ok out ∧
         emits_rev (length rs) (S (length (t_regions ty_b))) out.
Proof.
  intros Hnid. unfold __next_mem_range_rev. unfold countable, cnt in *. fold rs in Hca |- *.
  destruct (Z.eqb_spec nid MAX_NUMNODES); [done|]. rewrite Z.eqb_refl.
  unfold s32. rewrite !sext_id by lia.
  replace (Z.of_nat (length (t_regions ty_b)))
    with (Z.of_nat (S (length (t_regions ty_b))) - 1) by lia.
  apply next_rev_outer_spec; lia.
Qed.

(** The downward walk visits the same ranges in the opposite order. *)
Lemma free_of_reverse m l : free_of m (reverse l) = reverse (free_of m l).
Proof.
  induction l as [|g l IH]; [done|]. rewrite reverse_cons.
  assert (free_of m (reverse l ++ [g]) = free_of m (reverse l) ++ free_of m [g]) as ->
    by apply omap_app.
  rewrite IH, !free_of_cons. by destruct (meet m g); rewrite ?reverse_cons, ?app_nil_r.
Qed.

Lemma free_from_reverse l1 l2 :
  free_from nid flags (reverse l1) (reverse l2) = reverse (free_from nid flags l1 l2).
Proof.
  induction l1 as [|m l1 IH]; [done|]. rewrite reverse_cons.
  assert (∀ l, free_from nid flags (reverse l1 ++ [m]) l =
    free_from nid flags (reverse l1) l ++ free_from nid flags [m] l) as ->
    by (intros l; unfold free_from; by rewrite flat_map_app).
  rewrite IH, !free_from_cons, reverse_app, app_nil_r.
  by destruct (should_skip_region m nid flags); rewrite ?free_of_reverse.
Qed.

Lemma ahead_rev_start :
  ahead_rev (length rs) (S (length (t_regions ty_b))) = reverse (free_from nid flags rs gs).
Proof.
  unfold ahead_rev. rewrite firstn_all, take_ge by (unfold gs; rewrite length_gaps; lia).
  apply free_from_reverse.
Qed.
End reverse.
