(* ===== verification/MemblockFind.v ===== *)
(** * Finding free memory

    [memblock_find_in_range_node] against the arrays: what it returns is an
    aligned block of one memory region, free of reservations and inside the
    bounds; when it returns 0 there is none; and searching top-down it returns
    the highest one. *)

From stdpp Require Import base numbers list option sorting.
From Stdlib Require Import ZArith Lia.
From S2P Require Import Prelude Memblock MemblockRegions MemblockRanges MemblockIter.
Import Memblock.

Open Scope Z_scope.

(** ** The searches as functions on the list of free ranges *)

Fixpoint first_up (start end_ size align : Z) (l : list (Z * Z)) : Z :=
  match l with
  | [] => 0
  | (s, e) :: l =>
      let cand := round_up (clamp s start end_) align in
      let e' := clamp e start end_ in
      if (cand <? e') && (size <=? u64 (e' - cand)) then cand
      else first_up start end_ size align l
  end.

Fixpoint first_down (start end_ size align : Z) (l : list (Z * Z)) : Z :=
  match l with
  | [] => 0
  | (s, e) :: l =>
      let e' := clamp e start end_ in
      let cand := round_down (u64 (e' - size)) align in
      if e' <? size then first_down start end_ size align l
      else if clamp s start end_ <=? cand then cand
      else first_down start end_ size align l
  end.

(** ** What is looked for *)

(** A block inside one usable memory region and clear of reservations. *)
Definition free_block (mb : memblock) (nid flags p size : Z) : Prop :=
  (∃ m, m ∈ t_regions (memory mb) ∧ should_skip_region m nid flags = false ∧
        r_base m ≤ p ∧ p + size ≤ r_base m + r_size m) ∧
  ∀ x, p ≤ x < p + size → ¬ type_covered mb RESERVED x.

Definition placed (start end_ size align p : Z) : Prop :=
  (align | p) ∧ start ≤ p ∧ p + size ≤ end_.

(** Arrays the iterators can index. *)
Definition indexable (mb : memblock) : Prop :=
  array_ok (t_regions (memory mb)) ∧ array_ok (t_regions (reserved mb)) ∧
  countable (memory mb) ∧ countable (reserved mb).

(** ** Alignment *)

Lemma lor_ones a k : 0 ≤ k → Z.lor a (2 ^ k - 1) = a / 2 ^ k * 2 ^ k + (2 ^ k - 1).
Proof.
  intros Hk. rewrite <- shiftr_div, <- shiftl_mul, <- Z.ldiff_ones_r by lia.
  rewrite Z.sub_1_r, <- Z.ones_equiv.
  assert (Z.land (Z.ldiff a (Z.ones k)) (Z.ones k) = 0) as H0.
  { apply Z.bits_inj'. intros n Hn. rewrite Z.land_spec, Z.ldiff_spec, Z.bits_0.
    by destruct (Z.testbit a n), (Z.testbit (Z.ones k) n). }
  rewrite Z.add_nocarry_lxor, Z.lxor_lor by done.
  apply Z.bits_inj'. intros n Hn. rewrite !Z.lor_spec, Z.ldiff_spec.
  by destruct (Z.testbit a n), (Z.testbit (Z.ones k) n).
Qed.

Lemma round_down_spec x k :
  0 ≤ k < 64 → is_word x →
  (2 ^ k | round_down x (2 ^ k)) ∧
  round_down x (2 ^ k) ≤ x < round_down x (2 ^ k) + 2 ^ k ∧ 0 ≤ round_down x (2 ^ k).
Proof.
  intros Hk Hx. unfold is_word in Hx.
  assert (round_down x (2 ^ k) = x / 2 ^ k * 2 ^ k) as ->.
  { rewrite <- shiftr_div, <- shiftl_mul, <- Z.ldiff_ones_r by lia.
    unfold round_down. rewrite (u64_id (2 ^ k - 1)).
    2:{ pose proof (Z.pow_le_mono_r 2 k 63 ltac:(lia) ltac:(lia)).
        pose proof (Z.pow_pos_nonneg 2 k ltac:(lia) ltac:(lia)). lia. }
    apply Z.bits_inj'. intros n Hn. rewrite Z.land_spec, Z.ldiff_spec.
    rewrite Z.sub_1_r, <- Z.ones_equiv. unfold u64. destruct (Z.lt_ge_cases n 64).
    - rewrite Z.mod_pow2_bits_low, Z.lnot_spec by lia. done.
    - rewrite (Z.bits_above_log2 x n) at 1 2; [done|lia|].
      destruct (Z.eq_dec x 0) as [->|]; [cbn; lia|].
      assert (Z.log2 x < 64) by (apply Z.log2_lt_pow2; lia). lia. }
  assert (0 < 2 ^ k) by (apply Z.pow_pos_nonneg; lia).
  pose proof (Z.div_mod x (2 ^ k) ltac:(lia)). pose proof (Z.mod_pos_bound x (2 ^ k) ltac:(lia)).
  split; [by exists (x / 2 ^ k)|]. split; [lia|].
  apply Z.mul_nonneg_nonneg; [apply Z.div_pos; lia|lia].
Qed.

Lemma round_up_spec x k :
  0 ≤ k < 64 → is_word x →
  round_up x (2 ^ k) = 0 ∨ ((2 ^ k | round_up x (2 ^ k)) ∧ x ≤ round_up x (2 ^ k)).
Proof.
  intros Hk Hx. unfold is_word in Hx. unfold round_up.
  assert (0 < 2 ^ k) by (apply Z.pow_pos_nonneg; lia).
  pose proof (Z.pow_le_mono_r 2 k 63 ltac:(lia) ltac:(lia)).
  assert (is_word (u64 (x - 1)) ∧ x ≤ u64 (x - 1) + 1) as [Ha Hxa].
  { unfold is_word. pose proof (u64_range (x - 1)).
    destruct (Z.eq_dec x 0) as [->|]; [lia|]. rewrite u64_id; lia. }
  generalize dependent (u64 (x - 1)). unfold is_word. intros a Ha Hxa.
  rewrite (u64_id (2 ^ k - 1)), lor_ones by lia.
  set (q := a / 2 ^ k). replace (q * 2 ^ k + (2 ^ k - 1) + 1) with ((q + 1) * 2 ^ k) by lia.
  pose proof (Z.div_mod a (2 ^ k) ltac:(lia)) as Hd. fold q in Hd.
  pose proof (Z.mod_pos_bound a (2 ^ k) ltac:(lia)).
  assert (2 ^ 64 = 2 ^ (64 - k) * 2 ^ k) as E by (rewrite <- Z.pow_add_r by lia; f_equal; lia).
  assert ((q + 1) * 2 ^ k ≤ 2 ^ 64).
  { rewrite E. apply Z.mul_le_mono_nonneg_r; [lia|].
    assert (q < 2 ^ (64 - k)); [|lia]. apply Z.div_lt_upper_bound; lia. }
  destruct (Z.eq_dec ((q + 1) * 2 ^ k) (2 ^ 64)) as [->|]; [by left|].
  right. rewrite u64_id by lia. split; [by exists (q + 1)|lia].
Qed.

(** ** The loops walk the list *)

Lemma find_bottom_up_loop_spec mb start end_ size align nid flags : ∀ fuel i j,
  indexable mb → nid ≠ MAX_NUMNODES →
  (i ≤ length (t_regions (memory mb)))%nat →
  (j ≤ S (length (t_regions (reserved mb))))%nat →
  (length (t_regions (memory mb)) + S (length (t_regions (reserved mb))) < fuel + (i + j))%nat →
  find_bottom_up_loop fuel mb start end_ size align nid flags
    (pack_idx (Z.of_nat i) (Z.of_nat j)) =
  Ok (first_up start end_ size align (ahead (memory mb) (reserved mb) nid flags i j)).
Proof.
  induction fuel as [|fuel IH]; intros i j Hix Hnid Hi Hj Hf; [lia|].
  pose proof Hix as (Ha & Hb & Hca & Hcb). cbn [find_bottom_up_loop].
  destruct (next_mem_range_spec (memory mb) (reserved mb) nid flags Ha Hb Hca Hcb i j Hnid Hi Hj)
    as (out & -> & Hout). cbn [mbind outcome_bind].
  unfold emits in Hout. destruct (ahead _ _ _ _ i j) as [|[s e] rest] eqn:Hah; [by subst|].
  destruct Hout as (i' & j' & -> & Hi' & Hj' & Hlt & <-). unfold countable, cnt in *.
  pose proof (pack_range (Z.of_nat i') (Z.of_nat j') ltac:(lia)).
  destruct (Z.eqb_spec (pack_idx (Z.of_nat i') (Z.of_nat j')) ULLONG_MAX); [lia|].
  cbn [first_up]. destruct (_ && _); [done|]. apply IH; try done. lia.
Qed.

Lemma find_range_bottom_up_eq mb start end_ size align nid flags :
  indexable mb → nid ≠ MAX_NUMNODES →
  __memblock_find_range_bottom_up mb start end_ size align nid flags =
  Ok (first_up start end_ size align (free_ranges mb nid flags)).
Proof.
  intros Hix Hnid. unfold __memblock_find_range_bottom_up.
  apply (find_bottom_up_loop_spec mb start end_ size align nid flags _ 0 0); try done; try lia.
  unfold walk_fuel. lia.
Qed.

Lemma find_top_down_loop_spec mb start end_ size align nid flags : ∀ fuel i j idx,
  indexable mb → nid ≠ MAX_NUMNODES →
  (∃ out, __next_mem_range_rev idx nid flags (memory mb) (Some (reserved mb)) = Ok out ∧
          emits_rev (memory mb) (reserved mb) nid flags i j out) →
  (i + j < fuel)%nat →
  find_top_down_loop fuel mb start end_ size align nid flags idx =
  Ok (first_down start end_ size align (ahead_rev (memory mb) (reserved mb) nid flags i j)).
Proof.
  induction fuel as [|fuel IH]; intros i j idx Hix Hnid (out & Hn & Hout) Hf; [lia|].
  pose proof Hix as (Ha & Hb & Hca & Hcb). cbn [find_top_down_loop].
  rewrite Hn. cbn [mbind outcome_bind].
  unfold emits_rev in Hout. destruct (ahead_rev _ _ _ _ i j) as [|[s e] rest] eqn:Hah; [by subst|].
  destruct Hout as (i' & j' & -> & Hi' & Hj' & Hlt & <-). unfold countable, cnt in *.
  pose proof (pack_range (Z.of_nat i' - 1) (Z.of_nat j' - 1) ltac:(lia)).
  destruct (Z.eqb_spec (pack_idx (Z.of_nat i' - 1) (Z.of_nat j' - 1)) ULLONG_MAX); [lia|].
  assert (find_top_down_loop fuel mb start end_ size align nid flags
    (pack_idx (Z.of_nat i' - 1) (Z.of_nat j' - 1)) = Ok (first_down start end_ size align
    (ahead_rev (memory mb) (reserved mb) nid flags i' j'))) as Hrec.
  { apply IH; try done; [|lia]. by apply next_mem_range_rev_spec. }
  cbn [first_down]. destruct (_ <? size); [done|]. by destruct (_ <=? _).
Qed.

Lemma find_range_top_down_eq mb start end_ size align nid flags :
  indexable mb → nid ≠ MAX_NUMNODES →
  __memblock_find_range_top_down mb start end_ size align nid flags =
  Ok (first_down start end_ size align (reverse (free_ranges mb nid flags))).
Proof.
  intros Hix Hnid. pose proof Hix as (Ha & Hb & Hca & Hcb).
  unfold __memblock_find_range_top_down, free_ranges. rewrite <- ahead_rev_start.
  apply find_top_down_loop_spec; try done; [by apply next_mem_range_rev_start|].
  unfold walk_fuel. lia.
Qed.

Lemma for_each_mem_range_spec ty_a ty_b nid flags : ∀ fuel i j,
  array_ok (t_regions ty_a) → array_ok (t_regions ty_b) → countable ty_a → countable ty_b →
  nid ≠ MAX_NUMNODES →
  (i ≤ length (t_regions ty_a))%nat → (j ≤ S (length (t_regions ty_b)))%nat →
  (length (t_regions ty_a) + S (length (t_regions ty_b)) < fuel + (i + j))%nat →
  for_each_mem_range fuel ty_a ty_b nid flags (pack_idx (Z.of_nat i) (Z.of_nat j)) =
  Ok (ahead ty_a ty_b nid flags i j).
Proof.
  induction fuel as [|fuel IH]; intros i j Ha Hb Hca Hcb Hnid Hi Hj Hf; [lia|].
  cbn [for_each_mem_range].
  destruct (next_mem_range_spec ty_a ty_b nid flags Ha Hb Hca Hcb i j Hnid Hi Hj)
    as (out & -> & Hout). cbn [mbind outcome_bind].
  unfold emits in Hout. destruct (ahead _ _ _ _ i j) as [|[s e] rest] eqn:Hah; [by subst|].
  destruct Hout as (i' & j' & -> & Hi' & Hj' & Hlt & <-).
  pose proof (pack_range (Z.of_nat i') (Z.of_nat j')). unfold countable, cnt in Hcb.
  destruct (Z.eqb_spec (pack_idx (Z.of_nat i') (Z.of_nat j')) ULLONG_MAX); [lia|].
  rewrite IH; [done..|]. lia.
Qed.

Lemma for_each_mem_range_rev_spec ty_a ty_b nid flags : ∀ fuel i j idx,
  array_ok (t_regions ty_a) → array_ok (t_regions ty_b) → countable ty_a → countable ty_b →
  nid ≠ MAX_NUMNODES →
  (∃ out, __next_mem_range_rev idx nid flags ty_a (Some ty_b) = Ok out ∧
          emits_rev ty_a ty_b nid flags i j out) →
  (i + j < fuel)%nat →
  for_each_mem_range_rev fuel ty_a ty_b nid flags idx = Ok (ahead_rev ty_a ty_b nid flags i j).
Proof.
  induction fuel as [|fuel IH]; intros i j idx Ha Hb Hca Hcb Hnid (out & Hn & Hout) Hf; [lia|].
  cbn [for_each_mem_range_rev]. rewrite Hn. cbn [mbind outcome_bind].
  unfold emits_rev in Hout. destruct (ahead_rev _ _ _ _ i j) as [|[s e] rest] eqn:Hah; [by subst|].
  destruct Hout as (i' & j' & -> & Hi' & Hj' & Hlt & <-).
  pose proof (pack_range (Z.of_nat i' - 1) (Z.of_nat j' - 1)). unfold countable, cnt in Hcb.
  destruct (Z.eqb_spec (pack_idx (Z.of_nat i' - 1) (Z.of_nat j' - 1)) ULLONG_MAX); [lia|].
  rewrite (IH i' j'); [done..| |lia]. by apply next_mem_range_rev_spec.
Qed.

(** ** What the free ranges are *)

Definition range_before (g1 g2 : Z * Z) : Prop := g1.2 ≤ g2.1.

Lemma elem_of_free_of m gs s e :
  (s, e) ∈ free_of m gs ↔ ∃ g, g ∈ gs ∧ meet m g = Some (s, e).
Proof. unfold free_of. rewrite list_elem_of_omap. done. Qed.

Lemma elem_of_free_from nid flags rs gs x :
  x ∈ free_from nid flags rs gs ↔
  ∃ m, m ∈ rs ∧ should_skip_region m nid flags = false ∧ x ∈ free_of m gs.
Proof.
  unfold free_from. rewrite list_elem_of_In, in_flat_map. split.
  - intros (m & Hm & Hx). exists m. rewrite <- !list_elem_of_In in *.
    destruct (should_skip_region m nid flags); [by apply not_elem_of_nil in Hx|done].
  - intros (m & Hm & Hs & Hx). exists m. rewrite Hs, <- !list_elem_of_In. done.
Qed.

Lemma gap_clear p rs g x :
  regions_ok rs → Forall (λ r, p ≤ r_base r) rs → g ∈ gaps p rs →
  p ≤ g.1 ∧ (g.1 ≤ x < g.2 → ¬ covered rs x).
Proof.
  revert p. induction rs as [|r rs IH]; intros p Hok Hlo Hg; cbn in Hg.
  { apply list_elem_of_singleton in Hg as ->. split; [done|]. intros _. apply covered_nil. }
  apply regions_ok_cons in Hok as ((?&?&?) & Hbef & Hok). apply Forall_cons in Hlo as [? Hlo].
  rewrite covered_cons. apply elem_of_cons in Hg as [->|Hg]; cbn.
  - split; [done|]. intros Hx [Hr|Hc]; [unfold in_region in Hr; lia|].
    pose proof (Forall_before_in _ _ _ Hbef Hc). lia.
  - destruct (IH _ Hok Hbef Hg) as [? Hc]. split; [lia|].
    intros Hx [Hr|Hcov]; [unfold in_region in Hr; lia|by apply Hc].
Qed.

Lemma gap_covers p rs a b :
  regions_ok rs → p ≤ a < b → b ≤ PHYS_ADDR_MAX →
  (∀ x, a ≤ x < b → ¬ covered rs x) →
  ∃ g, g ∈ gaps p rs ∧ g.1 ≤ a ∧ b ≤ g.2.
Proof.
  revert p. induction rs as [|r rs IH]; intros p Hok Hp Hb Hfree; cbn.
  { eexists. split; [by apply list_elem_of_singleton|]. cbn. lia. }
  apply regions_ok_cons in Hok as ((?&?&?) & Hbef & Hok).
  setoid_rewrite covered_cons in Hfree.
  destruct (decide (b ≤ r_base r)).
  { eexists. split; [left|]. cbn. lia. }
  destruct (decide (r_base r + r_size r ≤ a)).
  - destruct (IH (r_base r + r_size r)) as (g & Hg & ?); [done|lia|done| |].
    + intros x Hx Hc. apply (Hfree x Hx). by right.
    + exists g. split; [by right|done].
  - exfalso. apply (Hfree (Z.max a (r_base r))); [lia|]. left. unfold in_region. lia.
Qed.

Lemma array_gap_clear rs g x :
  array_ok rs → g ∈ gaps 0 rs → g.1 ≤ x < g.2 → ¬ covered rs x.
Proof.
  intros [->|[_ Hok]] Hg; [intros _; apply covered_dummy|].
  eapply gap_clear; [done|by apply regions_ok_lo|done].
Qed.

Lemma array_gap_covers rs a b :
  array_ok rs → 0 ≤ a < b → b ≤ PHYS_ADDR_MAX → (∀ x, a ≤ x < b → ¬ covered rs x) →
  ∃ g, g ∈ gaps 0 rs ∧ g.1 ≤ a ∧ b ≤ g.2.
Proof.
  intros [->|[_ Hok]] Ha Hb Hfree; [|by apply gap_covers].
  exists (0, PHYS_ADDR_MAX). split; [right; left|cbn; lia].
Qed.

Lemma array_region_bounds rs m :
  array_ok rs → m ∈ rs → 0 ≤ r_base m ∧ 0 ≤ r_size m ∧ r_base m + r_size m ≤ PHYS_ADDR_MAX.
Proof.
  intros [->|[_ [H _]]] Hm.
  - apply list_elem_of_singleton in Hm as ->. unfold PHYS_ADDR_MAX; cbn; lia.
  - rewrite Forall_forall in H. destruct (H m Hm) as (?&?&?). lia.
Qed.

Lemma meet_Some m g s e :
  meet m g = Some (s, e) ↔
  g.1 < r_base m + r_size m ∧ r_base m < g.2 ∧
  s = Z.max (r_base m) g.1 ∧ e = Z.min (r_base m + r_size m) g.2.
Proof.
  unfold meet. destruct (Z.ltb_spec g.1 (r_base m + r_size m)), (Z.ltb_spec (r_base m) g.2); cbn.
  - split; [intros [= <- <-]; lia|]. by intros (_ & _ & -> & ->).
  - split; [done|lia].
  - split; [done|lia].
  - split; [done|lia].
Qed.

Lemma free_ranges_sound mb nid flags s e p size :
  indexable mb → (s, e) ∈ free_ranges mb nid flags → s ≤ p → p + size ≤ e →
  free_block mb nid flags p size.
Proof.
  intros (Ha & Hb & _) Hin Hs He. apply elem_of_free_from in Hin as (m & Hm & Hsk & Hin).
  apply elem_of_free_of in Hin as (g & Hg & (?&?&?&?)%meet_Some). split.
  - exists m. split_and!; [done..|lia|lia].
  - intros x Hx. eapply array_gap_clear; [done..|lia].
Qed.

Lemma free_ranges_complete mb nid flags p size :
  indexable mb → 0 < size → free_block mb nid flags p size →
  ∃ s e, (s, e) ∈ free_ranges mb nid flags ∧ s ≤ p ∧ p + size ≤ e.
Proof.
  intros (Ha & Hb & _) Hsz [(m & Hm & Hsk & Hp & He) Hfree].
  destruct (array_region_bounds _ _ Ha Hm) as (?&?&?).
  destruct (array_gap_covers _ p (p + size) Hb) as (g & Hg & ? & ?); [lia..|done|].
  do 2 eexists. split; [|split].
  - apply elem_of_free_from. exists m. split_and!; [done..|].
    apply elem_of_free_of. exists g. split; [done|].
    apply meet_Some. split_and!; [lia..|done|done].
  - lia.
  - lia.
Qed.

Lemma free_ranges_bounds mb nid flags s e :
  indexable mb → (s, e) ∈ free_ranges mb nid flags → 0 ≤ s ≤ e ∧ e ≤ PHYS_ADDR_MAX.
Proof.
  intros (Ha & Hb & _) Hin. apply elem_of_free_from in Hin as (m & Hm & Hsk & Hin).
  apply elem_of_free_of in Hin as (g & Hg & (?&?&?&?)%meet_Some).
  destruct (array_region_bounds _ _ Ha Hm) as (?&?&?).
  destruct (gaps_sorted _ Hb) as [_ Hf]. rewrite Forall_forall in Hf.
  specialize (Hf g Hg). lia.
Qed.

Lemma free_of_sorted m gs :
  StronglySorted gap_before gs → StronglySorted range_before (free_of m gs).
Proof.
  induction 1 as [|g gs Hs IH Hg]; [constructor|]. rewrite free_of_cons.
  destruct (meet m g) as [[s e]|] eqn:E; [|done]. constructor; [done|].
  apply Forall_forall. intros [s' e'] (g' & Hg' & Hm')%elem_of_free_of.
  apply meet_Some in E as (?&?&?&?), Hm' as (?&?&?&?).
  rewrite Forall_forall in Hg. specialize (Hg g' Hg').
  unfold gap_before, range_before in *. cbn. lia.
Qed.

Lemma free_from_sorted nid flags rs gs :
  regions_ok rs → StronglySorted gap_before gs →
  StronglySorted range_before (free_from nid flags rs gs).
Proof.
  intros Hok Hgs. induction rs as [|m rs IH]; [constructor|].
  apply regions_ok_cons in Hok as (? & Hbef & Hok). rewrite free_from_cons.
  destruct (should_skip_region m nid flags); [by apply IH|].
  apply StronglySorted_app. split_and!; [|by apply free_of_sorted|by apply IH].
  intros [s e] [s' e'] (g & _ & (?&?&?&?)%meet_Some)%elem_of_free_of
    (m' & Hm' & _ & (g' & _ & (?&?&?&?)%meet_Some)%elem_of_free_of)%elem_of_free_from.
  rewrite Forall_forall in Hbef. specialize (Hbef m' Hm').
  unfold before, range_before in *. cbn. lia.
Qed.

Lemma free_ranges_sorted mb nid flags :
  indexable mb → StronglySorted range_before (free_ranges mb nid flags).
Proof.
  intros (Ha & Hb & _). destruct (gaps_sorted _ Hb) as [Hgs _]. unfold free_ranges.
  destruct Ha as [->|[_ Ha]]; [|by apply free_from_sorted].
  rewrite free_from_cons. cbn [free_from flat_map]. rewrite app_nil_r.
  destruct (should_skip_region _ _ _); [constructor|by apply free_of_sorted].
Qed.

(** ** The searches on sorted lists of ranges *)

Definition inside (size p : Z) (r : Z * Z) : Prop := r.1 ≤ p ∧ p + size ≤ r.2.

Lemma StronglySorted_reverse {A} (R : A → A → Prop) l :
  StronglySorted R l → StronglySorted (flip R) (reverse l).
Proof.
  induction 1 as [|x l Hs IH Hx]; [constructor|]. rewrite reverse_cons.
  apply StronglySorted_app. split_and!; [|done|repeat constructor].
  intros y z Hy Hz. apply list_elem_of_singleton in Hz as ->.
  rewrite Forall_forall in Hx. apply Hx. by rewrite elem_of_reverse in Hy.
Qed.

Lemma Exists_reverse {A} (P : A → Prop) l : Exists P (reverse l) ↔ Exists P l.
Proof. rewrite !Exists_exists. by setoid_rewrite elem_of_reverse. Qed.

Section searches.
Context (start end_ size k : Z).
Hypothesis (Hk : 0 ≤ k < 64) (Hsize : 0 < size).
Hypothesis (Hstart : 0 < start ≤ end_) (Hend : is_word end_).

Lemma first_up_sound l :
  Forall (λ r, 0 ≤ r.1 ≤ r.2 ∧ r.2 ≤ PHYS_ADDR_MAX) l →
  first_up start end_ size (2 ^ k) l ≠ 0 →
  placed start end_ size (2 ^ k) (first_up start end_ size (2 ^ k) l) ∧
  Exists (inside size (first_up start end_ size (2 ^ k) l)) l.
Proof.
  unfold is_word, PHYS_ADDR_MAX in *.
  induction 1 as [|[s e] l (? & ?) _ IH]; [done|]. cbn [first_up fst snd] in *.
  destruct (round_up_spec (clamp s start end_) k) as [Hr|[Hdiv Hle]]; [done| | |].
  - unfold is_word, clamp. lia.
  - rewrite Hr. destruct (_ && _); [done|]. intros Hne.
    destruct (IH Hne). split; [done|by right].
  - destruct (Z.ltb_spec (round_up (clamp s start end_) (2 ^ k)) (clamp e start end_));
      cbn [andb]; [|intros Hne; destruct (IH Hne); split; [done|by right]].
    unfold clamp in *. rewrite u64_id by lia.
    destruct (Z.leb_spec size (Z.min (Z.max e start) end_ -
      round_up (Z.min (Z.max s start) end_) (2 ^ k)));
      [|intros Hne; destruct (IH Hne); split; [done|by right]].
    intros _. split; [split; [done|lia]|]. left. unfold inside. cbn. lia.
Qed.

Lemma aligned_le p c : (2 ^ k | p) → (2 ^ k | c) → p < c + 2 ^ k → p ≤ c.
Proof.
  intros [a ->] [b ->] H. assert (0 < 2 ^ k) by (apply Z.pow_pos_nonneg; lia).
  apply Z.mul_le_mono_nonneg_r; [lia|].
  assert (a < b + 1); [|lia]. apply (Z.mul_lt_mono_pos_r (2 ^ k)); lia.
Qed.

(** One range, searched from its end: the highest place in it, if any. *)
Lemma place_down s e :
  0 ≤ s ≤ e → e ≤ PHYS_ADDR_MAX →
  let e' := clamp e start end_ in
  let c := round_down (u64 (e' - size)) (2 ^ k) in
  if negb (e' <? size) && (clamp s start end_ <=? c)
  then placed start end_ size (2 ^ k) c ∧ inside size c (s, e) ∧
       ∀ p, placed start end_ size (2 ^ k) p → inside size p (s, e) → p ≤ c
  else ∀ p, placed start end_ size (2 ^ k) p → ¬ inside size p (s, e).
Proof.
  unfold is_word, PHYS_ADDR_MAX in *. intros Hs He. cbv zeta.
  destruct (Z.ltb_spec (clamp e start end_) size) as [Hlt|Hge]; cbn [negb andb].
  { unfold placed, inside, clamp in *. cbn. intros p (?&?&?) [? ?]. lia. }
  rewrite u64_id by (unfold clamp in *; lia).
  destruct (round_down_spec (clamp e start end_ - size) k) as (Hdiv & Hc & Hc0); [done| |].
  { unfold is_word, clamp in *. lia. }
  set (c := round_down _ _) in *.
  assert (∀ p, placed start end_ size (2 ^ k) p → inside size p (s, e) → p ≤ c) as Hmax.
  { intros p (?&?&?) [? ?]. apply aligned_le; [done..|].
    unfold clamp in *. cbn in *. lia. }
  destruct (Z.leb_spec (clamp s start end_) c) as [Hle|Hgt].
  - split; [|split; [|done]]; unfold placed, inside, clamp in *; cbn; split_and!; done || lia.
  - intros p Hp Hin. specialize (Hmax p Hp Hin). destruct Hp as (?&?&?), Hin as [? ?].
    unfold clamp in *; cbn in *. lia.
Qed.

Lemma first_down_spec l :
  Forall (λ r, 0 ≤ r.1 ≤ r.2 ∧ r.2 ≤ PHYS_ADDR_MAX) l →
  StronglySorted (flip range_before) l →
  let c := first_down start end_ size (2 ^ k) l in
  (c = 0 ∧ ∀ p, placed start end_ size (2 ^ k) p → ¬ Exists (inside size p) l) ∨
  (c ≠ 0 ∧ placed start end_ size (2 ^ k) c ∧ Exists (inside size c) l ∧
   ∀ p, placed start end_ size (2 ^ k) p → Exists (inside size p) l → p ≤ c).
Proof.
  intros Hb Hs. induction Hs as [|[s e] l Hs IH Hlow]; cbn [first_down].
  { left. split; [done|]. intros p _ H. by apply Exists_nil in H. }
  apply Forall_cons in Hb as [[Hse He] Hb]. specialize (IH Hb). cbn [fst snd] in *.
  pose proof (place_down s e Hse He) as Hp. cbv zeta in Hp, IH |- *.
  assert (∀ p, inside size p (s, e) → ∀ q, Exists (inside size q) l → q ≤ p) as Horder.
  { intros p [Hp1 _] q Hq. apply Exists_exists in Hq as ([s' e'] & Hin & [_ Hq]).
    rewrite Forall_forall in Hlow. specialize (Hlow _ Hin). unfold range_before in Hlow.
    cbn in *. lia. }
  setoid_rewrite Exists_cons. set (c := first_down _ _ _ _ l) in *.
  assert ((∀ p, placed start end_ size (2 ^ k) p → ¬ inside size p (s, e)) →
    (c = 0 ∧ ∀ p, placed start end_ size (2 ^ k) p →
       ¬ (inside size p (s, e) ∨ Exists (inside size p) l)) ∨
    (c ≠ 0 ∧ placed start end_ size (2 ^ k) c ∧
     (inside size c (s, e) ∨ Exists (inside size c) l) ∧
     ∀ p, placed start end_ size (2 ^ k) p →
       inside size p (s, e) ∨ Exists (inside size p) l → p ≤ c)) as Hskip.
  { intros Hno. destruct IH as [[Hc0 Hno']|(Hc & Hpl & Hex & Hmax)]; [left|right].
    - split; [done|]. intros p Hpl [?|?]; [by apply (Hno p)|by apply (Hno' p)].
    - split_and!; [done..|by right|]. intros p Hpl' [?|?]; [by destruct (Hno p)|by apply Hmax]. }
  destruct (clamp e start end_ <? size); cbn [negb andb] in Hp; [by apply Hskip|].
  destruct (_ <=? _); [|by apply Hskip].
  destruct Hp as (Hpl & Hin & Hmax). right. split_and!; [|done|by left|].
  - destruct Hpl as (_ & ? & _). lia.
  - intros p Hp' [?|?]; [by apply Hmax|by eapply Horder].
Qed.
End searches.

(** ** The whole search *)

(** The upper bound of a search from [lo] that was asked to end at [end_]. *)
Definition search_limit (mb : memblock) (lo end_ : Z) : Z :=
  Z.max lo (if (end_ =? MEMBLOCK_ALLOC_ACCESSIBLE) || (end_ =? MEMBLOCK_ALLOC_KASAN)
            then current_limit mb else end_).

Lemma Exists_inside_free mb nid flags size p :
  indexable mb → 0 < size →
  Exists (inside size p) (free_ranges mb nid flags) ↔ free_block mb nid flags p size.
Proof.
  intros Hix Hsz. rewrite Exists_exists. split.
  - intros ([s e] & Hin & [? ?]). by eapply free_ranges_sound.
  - intros Hf. destruct (free_ranges_complete _ _ _ _ _ Hix Hsz Hf) as (s & e & ? & ? & ?).
    by exists (s, e).
Qed.

Lemma free_ranges_Forall mb nid flags :
  indexable mb →
  Forall (λ r, 0 ≤ r.1 ≤ r.2 ∧ r.2 ≤ PHYS_ADDR_MAX) (free_ranges mb nid flags).
Proof.
  intros Hix. apply Forall_forall. intros [s e] Hin. by eapply free_ranges_bounds.
Qed.

(** What a search between [lo] and [hi] promises of its result [c]. *)
Definition find_result (mb : memblock) (nid flags lo hi size align c : Z) : Prop :=
  (c = 0 ∧ ∀ p, placed lo hi size align p → ¬ free_block mb nid flags p size) ∨
  (c ≠ 0 ∧ placed lo hi size align c ∧ free_block mb nid flags c size ∧
   (bottom_up mb = false →
    ∀ p, placed lo hi size align p → free_block mb nid flags p size → p ≤ c)).

Lemma find_top_down_result mb lo hi size k nid flags :
  indexable mb → nid ≠ MAX_NUMNODES → 0 ≤ k < 64 → 0 < size → 0 < lo ≤ hi → is_word hi →
  ∃ c, __memblock_find_range_top_down mb lo hi size (2 ^ k) nid flags = Ok c ∧
       find_result mb nid flags lo hi size (2 ^ k) c.
Proof.
  intros Hix Hnid Hk Hsz Hlo Hhi.
  rewrite find_range_top_down_eq by done. eexists; split; [done|].
  destruct (first_down_spec lo hi size k Hk Hsz Hlo Hhi (reverse (free_ranges mb nid flags)))
    as [[-> Hno]|(Hc0 & Hpl & Hex & Hmax)].
  - by apply Forall_reverse, free_ranges_Forall.
  - by apply StronglySorted_reverse, free_ranges_sorted.
  - left. split; [done|]. intros p Hp Hf. apply (Hno p Hp).
    by rewrite Exists_reverse, Exists_inside_free.
  - rewrite Exists_reverse, Exists_inside_free in Hex by done.
    right. split_and!; [done..|]. intros _ p Hp Hf. apply Hmax; [done|].
    by rewrite Exists_reverse, Exists_inside_free.
Qed.

Lemma find_bottom_up_result mb start lo hi size k nid flags :
  indexable mb → nid ≠ MAX_NUMNODES → 0 ≤ k < 64 → 0 < size → 0 < lo ≤ start → start ≤ hi →
  is_word hi → bottom_up mb = true →
  ∃ c, __memblock_find_range_bottom_up mb start hi size (2 ^ k) nid flags = Ok c ∧
       (c ≠ 0 → find_result mb nid flags lo hi size (2 ^ k) c).
Proof.
  intros Hix Hnid Hk Hsz Hlo Hst Hhi Hbu.
  rewrite find_range_bottom_up_eq by done. eexists; split; [done|]. intros Hne.
  destruct (first_up_sound start hi size k Hk Hsz ltac:(lia) Hhi _
    (free_ranges_Forall mb nid flags Hix) Hne) as [(?&?&?) Hex].
  rewrite Exists_inside_free in Hex by done.
  right. split_and!; [done| |done|by rewrite Hbu]. unfold placed. split_and!; [done|lia..].
Qed.

Lemma find_in_range_node_spec env mb size k start end_ nid flags :
  indexable mb → is_word (current_limit mb) → nid ≠ MAX_NUMNODES → 0 ≤ k < 64 → 0 < size →
  is_word start → is_word end_ →
  let lo := Z.max start PAGE_SIZE in
  ∃ c, memblock_find_in_range_node env mb size (2 ^ k) start end_ nid flags = Ok c ∧
       find_result mb nid flags lo (search_limit mb lo end_) size (2 ^ k) c.
Proof.
  intros Hix Hlim Hnid Hk Hsz Hs He lo. set (hi := search_limit mb lo end_).
  unfold is_word in Hlim, Hs, He.
  assert (0 < lo ≤ hi) as Hlo by (unfold hi, search_limit, lo, PAGE_SIZE; lia).
  assert (is_word hi) as Hhi.
  { unfold is_word, hi, search_limit, lo, PAGE_SIZE. destruct (_ || _); lia. }
  unfold memblock_find_in_range_node. cbv zeta. fold lo. fold (search_limit mb lo end_). fold hi.
  destruct (find_top_down_result mb lo hi size k nid flags) as (d & Hd & Hres); try done.
  destruct (bottom_up mb && (kernel_end env <? hi)) eqn:Ebu; cbn [mbind outcome_bind].
  - apply andb_true_iff in Ebu as [Hbu Hke%Z.ltb_lt].
    destruct (find_bottom_up_result mb (Z.max lo (kernel_end env)) lo hi size k nid flags)
      as (c & -> & Hc); [done..|lia|lia|done|done|]. cbn [mbind outcome_bind].
    destruct (Z.eqb_spec c 0); cbn [negb]; eauto.
  - eauto.
Qed.
