(* ===== verification/MemblockSpec.v ===== *)
(** * The boot memory allocator: its theorems

    The operations of memblock/src/memblock.c against sets of addresses: the
    contract of adding and removing ranges, a refinement of sequences of calls
    by plain set operations, the searches, and allocation. *)

From stdpp Require Import base numbers list option sorting.
From Stdlib Require Import ZArith Lia.
From S2P Require Import Prelude Memblock MemblockRegions MemblockRanges MemblockIter MemblockFind.
Import Memblock.

Open Scope Z_scope.

(** ** Contracts *)

(** The array of [t] may not grow, or needs not. *)
Definition may_add (mb : memblock) (t : mtype) (flags base size : Z) : Prop :=
  memblock_can_resize mb = false ∨
  add_needs flags base size (t_regions (get_type mb t)) ≤ t_max (get_type mb t).

Definition may_split (mb : memblock) (t : mtype) : Prop :=
  memblock_can_resize mb = false ∨ cnt (get_type mb t) + 2 ≤ t_max (get_type mb t).

(** [rv] and [mb'] after adding the area with the flags. *)
Definition add_result (mb mb' : memblock) (t : mtype) (flags base size rv : Z) : Prop :=
  if add_needs flags base size (t_regions (get_type mb t)) <=? t_max (get_type mb t)
  then rv = 0 ∧
       ∀ x f, flagged (t_regions (get_type mb' t)) x f ↔
              flagged (t_regions (get_type mb t)) x f ∨
              (f = flags ∧ base ≤ x < area_end base size ∧ ¬ type_covered mb t x)
  else rv = - ENOMEM ∧ mb' = mb.

Definition remove_result (mb mb' : memblock) (t : mtype) (base size rv : Z) : Prop :=
  if (memblock_cap_size base size =? 0) || (cnt (get_type mb t) + 2 <=? t_max (get_type mb t))
  then rv = 0 ∧
       ∀ x f, flagged (t_regions (get_type mb' t)) x f ↔
              flagged (t_regions (get_type mb t)) x f ∧ ¬ (base ≤ x < area_end base size)
  else rv = - ENOMEM ∧ mb' = mb.

(** ** The abstract allocator

    Two sets of addresses; adding a range is union, removing one is
    difference; a call may be refused, and then nothing changes. *)

Record spec_state := MkSpec { spec_memory : Z → Prop; spec_reserved : Z → Prop }.

Inductive request :=
| Add (base size : Z)
| Remove (base size : Z)
| Reserve (base size : Z)
| Free (base size : Z).

Definition spec_step (rq : request) (s : spec_state) : spec_state :=
  match rq with
  | Add b n => MkSpec (λ x, spec_memory s x ∨ b ≤ x < area_end b n) (spec_reserved s)
  | Remove b n => MkSpec (λ x, spec_memory s x ∧ ¬ (b ≤ x < area_end b n)) (spec_reserved s)
  | Reserve b n => MkSpec (spec_memory s) (λ x, spec_reserved s x ∨ b ≤ x < area_end b n)
  | Free b n => MkSpec (spec_memory s) (λ x, spec_reserved s x ∧ ¬ (b ≤ x < area_end b n))
  end.

(** The calls with their results: a refused call leaves the sets alone. *)
Fixpoint spec_run (calls : list (request * Z)) (s : spec_state) : spec_state :=
  match calls with
  | [] => s
  | (rq, rv) :: calls => spec_run calls (if rv =? 0 then spec_step rq s else s)
  end.

Definition serve (env : environment) (rq : request) (mb : memblock) : outcome (Z * memblock) :=
  match rq with
  | Add b n => memblock_add env mb b n
  | Remove b n => memblock_remove env mb b n
  | Reserve b n => memblock_reserve env mb b n
  | Free b n => memblock_free env mb b n
  end.

Fixpoint serve_all (env : environment) (rqs : list request) (mb : memblock)
    : outcome (list Z * memblock) :=
  match rqs with
  | [] => Ok ([], mb)
  | rq :: rqs =>
      '(rv, mb) ← serve env rq mb;
      '(rvs, mb) ← serve_all env rqs mb;
      Ok (rv :: rvs, mb)
  end.

(** The array a request works on has the entries it may need. *)
Definition fits (mb : memblock) (rq : request) : bool :=
  match rq with
  | Add b n => add_needs 0 b n (t_regions (memory mb)) <=? t_max (memory mb)
  | Reserve b n => add_needs 0 b n (t_regions (reserved mb)) <=? t_max (reserved mb)
  | Remove _ _ => cnt (memory mb) + 2 <=? t_max (memory mb)
  | Free _ _ => cnt (reserved mb) + 2 <=? t_max (reserved mb)
  end.

Definition area_empty (rq : request) : bool :=
  match rq with Add b n | Remove b n | Reserve b n | Free b n => memblock_cap_size b n =? 0 end.

(** No call makes an array grow: it may not, or the call finds room. *)
Fixpoint no_growth (env : environment) (rqs : list request) (mb : memblock) : Prop :=
  match rqs with
  | [] => True
  | rq :: rqs =>
      (memblock_can_resize mb = false ∨ fits mb rq = true) ∧
      ∀ rv mb', serve env rq mb = Ok (rv, mb') → no_growth env rqs mb'
  end.

Definition request_ok (rq : request) : Prop :=
  match rq with
  | Add b n | Remove b n | Reserve b n | Free b n => is_word b ∧ is_word n
  end.

Definition represents (mb : memblock) (s : spec_state) : Prop :=
  type_ok (memory mb) ∧ type_ok (reserved mb) ∧
  (∀ x, type_covered mb MEMORY x ↔ spec_memory s x) ∧
  (∀ x, type_covered mb RESERVED x ↔ spec_reserved s x).

(** ** A memory array with a hole, for the witnesses *)

Definition two_banks : memblock :=
  set_type memblock_init MEMORY
    (MkType INIT_MEMBLOCK_REGIONS 0x30000
       [MkRegion 0x1000 0x10000 0; MkRegion 0x40000 0x20000 0] InitArray).

Definition plain_env : environment := MkEnv false (λ _, 0) (λ _ _, 0) 0.

(** What every operation on the array of [t] keeps. *)
Definition keeps (mb mb' : memblock) (t : mtype) : Prop :=
  other_unchanged mb mb' t ∧ type_ok (get_type mb' t) ∧
  t_max (get_type mb' t) = t_max (get_type mb t) ∧
  (type_minimal mb t → type_minimal mb' t).

Lemma keeps_refl mb t : type_ok (get_type mb t) → keeps mb mb t.
Proof. unfold keeps. auto with memblock. Qed.

Lemma add_range_result env mb t base size flags :
  type_ok (get_type mb t) → is_word base → is_word size → may_add mb t flags base size →
  ∃ rv mb', memblock_add_range env mb t base size flags = Ok (rv, mb') ∧
            keeps mb mb' t ∧ add_result mb mb' t flags base size rv.
Proof.
  intros Hok Hb Hs Hmay. unfold memblock_add_range, add_result.
  destruct (Z.leb_spec (add_needs flags base size (t_regions (get_type mb t)))
    (t_max (get_type mb t))) as [Hfit|Hfull].
  - destruct (Z.eq_dec (memblock_cap_size base size) 0) as [E|E].
    { rewrite add_range_empty by done. exists 0, mb. split_and!; [done|by apply keeps_refl|done|].
      intros x f. unfold area_end. rewrite E. intuition lia. }
    rewrite add_range_fits by done.
    destruct (cap_size_end base size Hb Hs) as (Hc & Hend & _ & Hle).
    assert (0 ≤ base < area_end base size) as Hbe by (unfold is_word, area_end in *; lia).
    eexists _, _. split; [done|]. unfold keeps, type_minimal. rewrite !get_set_type. cbn.
    pose proof Hok as (Harr & _). split_and!; auto with memblock.
    + by apply type_ok_added.
    + by apply added_spec.
    + intros x f. by apply added_flagged.
  - destruct Hmay as [Hr|?]; [|lia]. exists (- ENOMEM), mb.
    rewrite add_range_full by (done || apply double_array_refuses).
    split_and!; [done|by apply keeps_refl|done..].
Qed.

Lemma or_dummy_ok rs : regions_ok rs → array_ok (or_dummy rs).
Proof. destruct rs; intros; [by left|by right]. Qed.

Lemma or_dummy_flagged rs x f : flagged (or_dummy rs) x f ↔ flagged rs x f.
Proof.
  destruct rs; [|done]. cbn. rewrite flagged_nil. split; [apply flagged_dummy|done].
Qed.

Lemma removed_flagged base end_ rs x f :
  array_ok rs → 0 ≤ base < end_ →
  flagged (removed base end_ rs) x f ↔ flagged rs x f ∧ ¬ (base ≤ x < end_).
Proof.
  intros [->|[_ Hok]] Hb; unfold removed.
  { rewrite isolated_dummy by done. cbn. pose proof (flagged_dummy x f). tauto. }
  destruct (isolated base end_ rs) as [[lo mid] hi] eqn:Hi.
  destruct (isolated_parts _ _ _ _ _ _ Hi ltac:(lia) Hok) as (_ & Hlo & Hmid & Hhi).
  destruct (isolated_same _ _ _ _ _ _ Hi ltac:(lia) Hok) as (Hsame & _).
  rewrite or_dummy_flagged, <- Hsame, !flagged_app.
  rewrite Forall_forall in Hlo, Hmid, Hhi.
  assert (∀ l (P : memblock_region → Prop), (∀ r, r ∈ l → P r) → flagged l x f →
    ∃ r, P r ∧ in_region x r) as Hfl.
  { intros l P HP (r & Hr & ? & ?)%Exists_exists. exists r. eauto. }
  split.
  - intros [H|H]; (split; [tauto|]).
    + apply (Hfl _ _ Hlo) in H as (r & ? & ?). unfold in_region in *. lia.
    + apply (Hfl _ _ Hhi) in H as (r & ? & ?). unfold in_region in *. lia.
  - intros [[H|[H|H]] Hx]; [tauto| |tauto].
    apply (Hfl _ _ Hmid) in H as (r & ? & ?). unfold in_region in *. lia.
Qed.

Lemma isolated_length base end_ rs lo mid hi :
  isolated base end_ rs = (lo, mid, hi) → regions_ok rs →
  (length lo + length hi ≤ S (length rs))%nat.
Proof.
  revert lo mid hi. induction rs as [|r rs IH]; intros lo mid hi; cbn.
  { intros; simplify_eq; cbn; lia. }
  intros Hi (Hr & Hbef & Hok)%regions_ok_cons.
  destruct (end_ <=? _); [simplify_eq; cbn; lia|].
  destruct (isolated base end_ rs) as [[lo' mid'] hi'] eqn:Hi'.
  specialize (IH _ _ _ eq_refl Hok).
  destruct (Z.leb_spec (r_base r + r_size r) base); [simplify_eq; cbn; lia|].
  assert (lo' = []) as -> by (eapply isolated_inside; [done..|]; eapply before_bound; [|done]; lia).
  cbn in IH.
  destruct (r_base r <? base), (end_ <? _); simplify_eq; cbn; lia.
Qed.

Lemma removed_ok base end_ rs :
  array_ok rs → 0 ≤ base < end_ →
  array_ok (removed base end_ rs) ∧ (length (removed base end_ rs) ≤ S (length rs))%nat ∧
  (minimal rs → minimal (removed base end_ rs)).
Proof.
  intros [->|[_ Hok]] Hb; unfold removed.
  { rewrite isolated_dummy by done. cbn. split_and!; [by left|lia|done]. }
  destruct (isolated base end_ rs) as [[lo mid] hi] eqn:Hi.
  destruct (isolated_parts _ _ _ _ _ _ Hi ltac:(lia) Hok) as (Hok' & _).
  pose proof (isolated_length _ _ _ _ _ _ Hi Hok).
  pose proof (isolated_minimal _ _ _ _ _ _ Hi ltac:(lia) Hok) as Hmin.
  split_and!.
  - apply or_dummy_ok. rewrite !regions_ok_app in *. destruct Hok' as (? & (? & ? & _) & Hbe).
    split_and!; [done..|]. eapply Forall_impl; [exact Hbe|]. cbn. intros r. rewrite Forall_app. tauto.
  - destruct (lo ++ hi) eqn:E; cbn; [lia|]. apply (f_equal length) in E.
    rewrite length_app in E. cbn in E. lia.
  - intros Hm. specialize (Hmin Hm). by destruct (lo ++ hi).
Qed.

Lemma remove_range_result env mb t base size :
  type_ok (get_type mb t) → is_word base → is_word size → may_split mb t →
  ∃ rv mb', memblock_remove_range env mb t base size = Ok (rv, mb') ∧
            keeps mb mb' t ∧ remove_result mb mb' t base size rv.
Proof.
  intros Hok Hb Hs Hmay. unfold memblock_remove_range, remove_result.
  destruct (Z.eqb_spec (memblock_cap_size base size) 0) as [E|E]; cbn [orb].
  { exists 0, mb. unfold remove_range_with, isolate_range_with. rewrite E. cbn.
    rewrite set_get_type. split_and!; [done|by apply keeps_refl|done|].
    intros x f. unfold area_end. rewrite E. intuition lia. }
  destruct (Z.leb_spec (cnt (get_type mb t) + 2) (t_max (get_type mb t))) as [Hfit|Hfull].
  - rewrite remove_range_fits by done.
    destruct (cap_size_end base size Hb Hs) as (Hc & Hend & _ & Hle).
    assert (0 ≤ base < area_end base size) as Hbe by (unfold is_word, area_end in *; lia).
    pose proof Hok as (Harr & _). destruct (removed_ok _ _ _ Harr Hbe) as (? & ? & ?).
    eexists _, _. split; [done|]. unfold keeps, type_minimal. rewrite !get_set_type. cbn.
    split_and!; auto with memblock.
    + unfold type_ok, cnt in *. cbn. split_and!; [done|done|lia].
    + intros x f. by apply removed_flagged.
  - destruct Hmay as [Hr|?]; [|lia]. exists (- ENOMEM), mb. unfold remove_range_with.
    rewrite isolate_range_full by (done || apply double_array_refuses).
    split_and!; [done|by apply keeps_refl|done..].
Qed.

(** ** The contracts of the exported operations *)

(** [memblock_add_range] on a well-formed array, with room for the new
    entries or resizing not yet allowed, terminates without [BUG_ON]. With room
    it returns 0 and the array stands for the union: addresses already present
    keep their flags, the others of the area get [flags]; without room it
    returns [-ENOMEM] and changes nothing. The array stays sorted, disjoint,
    merged and correctly counted, and the other array is untouched. *)
Theorem memblock_add_range_correct env mb t base size flags :
  type_ok (get_type mb t) → is_word base → is_word size → may_add mb t flags base size →
  ∃ rv mb', memblock_add_range env mb t base size flags = Ok (rv, mb') ∧
            keeps mb mb' t ∧ add_result mb mb' t flags base size rv.
Proof. apply add_range_result. Qed.

Lemma two_banks_ok t : type_ok (get_type two_banks t).
Proof. apply type_check_ok. by destruct t. Qed.

Lemma memblock_add_range_correct_witness :
  ∃ rv mb', memblock_add_range plain_env two_banks MEMORY 0x8000 0x40000 0 = Ok (rv, mb') ∧
            keeps two_banks mb' MEMORY ∧
            add_result two_banks mb' MEMORY 0 0x8000 0x40000 rv.
Proof.
  apply memblock_add_range_correct.
  - apply two_banks_ok.
  - unfold is_word; lia.
  - unfold is_word; lia.
  - right. vm_compute. done.
Defined.

(** [memblock_remove_range] on a well-formed array, with two spare entries
    or resizing not yet allowed, terminates without [BUG_ON]. With room it
    returns 0 and exactly the addresses of the area are gone, every other
    address keeping its flags; without room it returns [-ENOMEM] and changes
    nothing. The invariant is kept and the other array is untouched. *)
Theorem memblock_remove_range_correct env mb t base size :
  type_ok (get_type mb t) → is_word base → is_word size → may_split mb t →
  ∃ rv mb', memblock_remove_range env mb t base size = Ok (rv, mb') ∧
            keeps mb mb' t ∧ remove_result mb mb' t base size rv.
Proof. apply remove_range_result. Qed.

Lemma memblock_remove_range_correct_witness :
  ∃ rv mb', memblock_remove_range plain_env two_banks MEMORY 0x8000 0x40000 = Ok (rv, mb') ∧
            keeps two_banks mb' MEMORY ∧
            remove_result two_banks mb' MEMORY 0x8000 0x40000 rv.
Proof.
  apply memblock_remove_range_correct.
  - apply two_banks_ok.
  - unfold is_word; lia.
  - unfold is_word; lia.
  - right. vm_compute. done.
Defined.

(** ** Refinement *)

Lemma can_resize_other mb mb' t :
  other_unchanged mb mb' t → memblock_can_resize mb' = memblock_can_resize mb.
Proof. intros ->. by destruct t. Qed.

Lemma other_type mb mb' t t' :
  other_unchanged mb mb' t → t' ≠ t → get_type mb' t' = get_type mb t'.
Proof. intros -> ?. by destruct t, t'. Qed.

(** The sets after an accepted addition and an accepted removal. *)
Lemma add_result_covered mb mb' t flags base size rv :
  add_result mb mb' t flags base size rv →
  if rv =? 0 then ∀ x, type_covered mb' t x ↔ type_covered mb t x ∨ base ≤ x < area_end base size
  else mb' = mb.
Proof.
  unfold add_result. destruct (_ <=? _); intros [-> H]; [|done]. cbn. intros x.
  unfold type_covered. rewrite !flagged_covered. setoid_rewrite H. unfold type_covered. split.
  - intros (f & [?|(_ & ? & _)]); eauto.
  - intros [(f & ?)|?]; [eauto|].
    destruct (decide (Exists (λ r, r_base r ≤ x < r_base r + r_size r)
      (t_regions (get_type mb t)))) as [Hc|Hc].
    + change (covered (t_regions (get_type mb t)) x) in Hc.
      apply flagged_covered in Hc as [f Hf]. eauto.
    + exists flags. by right.
Qed.

Lemma remove_result_covered mb mb' t base size rv :
  remove_result mb mb' t base size rv →
  if rv =? 0 then ∀ x, type_covered mb' t x ↔ type_covered mb t x ∧ ¬ (base ≤ x < area_end base size)
  else mb' = mb.
Proof.
  unfold remove_result. destruct (_ || _); intros [-> H]; [|done]. cbn. intros x.
  unfold type_covered. rewrite !flagged_covered. setoid_rewrite H.
  split; [intros (f & ? & ?)|intros [(f & ?) ?]]; eauto.
Qed.

(** The results: an error exactly when there is no room. *)
Lemma add_result_rv mb mb' t base size rv :
  type_ok (get_type mb t) → add_result mb mb' t 0 base size rv →
  rv = if (add_needs 0 base size (t_regions (get_type mb t)) <=? t_max (get_type mb t)) || (memblock_cap_size base size =? 0)
       then 0 else - ENOMEM.
Proof.
  intros Hok%type_ok_nonempty. unfold add_result, add_needs. destruct (memblock_cap_size base size =? 0).
  - rewrite (proj2 (Z.leb_le _ _)), orb_true_r by lia. by intros [-> _].
  - rewrite orb_false_r. by destruct (_ <=? _); intros [-> _].
Qed.

Lemma remove_result_rv mb mb' t base size rv :
  remove_result mb mb' t base size rv →
  rv = if (cnt (get_type mb t) + 2 <=? t_max (get_type mb t)) || (memblock_cap_size base size =? 0) then 0 else - ENOMEM.
Proof. unfold remove_result. rewrite orb_comm. by destruct (_ || _); intros [-> _]. Qed.

(** One call, against the sets. *)
Lemma serve_spec env rq mb s :
  request_ok rq → memblock_can_resize mb = false ∨ fits mb rq = true → represents mb s →
  ∃ rv mb', serve env rq mb = Ok (rv, mb') ∧ rv = (if fits mb rq || area_empty rq then 0 else - ENOMEM) ∧
            represents mb' (if rv =? 0 then spec_step rq s else s).
Proof.
  intros Hrq Hr (Hm & Hv & Hcm & Hcv).
  destruct rq as [b n|b n|b n|b n]; destruct Hrq as [Hb Hn]; cbn [serve fits area_empty] in *; rewrite Z.leb_le in Hr;
    unfold memblock_add, memblock_remove, memblock_reserve, memblock_free;
    [edestruct (add_range_result env mb MEMORY b n 0) as (rv & mb' & -> & (Ho & Hok & _) & Hres)
    |edestruct (remove_range_result env mb MEMORY b n) as (rv & mb' & -> & (Ho & Hok & _) & Hres)
    |edestruct (add_range_result env mb RESERVED b n 0) as (rv & mb' & -> & (Ho & Hok & _) & Hres)
    |edestruct (remove_range_result env mb RESERVED b n) as (rv & mb' & -> & (Ho & Hok & _) & Hres)];
    try done;
    (pose proof Hres as Hrv; (apply add_result_rv in Hrv; [|done]) || apply remove_result_rv in Hrv);
    (apply add_result_covered in Hres || apply remove_result_covered in Hres);
    exists rv, mb'; (split; [done|]); (split; [exact Hrv|]); clear Hrv;
    (destruct (rv =? 0); [|by subst]);
    [pose proof (other_type _ _ _ RESERVED Ho ltac:(done)) as Ht
    |pose proof (other_type _ _ _ RESERVED Ho ltac:(done)) as Ht
    |pose proof (other_type _ _ _ MEMORY Ho ltac:(done)) as Ht
    |pose proof (other_type _ _ _ MEMORY Ho ltac:(done)) as Ht];
    cbn [get_type] in *; split_and!; try (by rewrite ?Ht); try done; cbn;
    intros x; rewrite ?Hres, ?Hcm, ?Hcv; try done;
    unfold type_covered; cbn; rewrite Ht; first [apply Hcm|apply Hcv].
Qed.

(** C2: any sequence of [memblock_add], [memblock_remove], [memblock_reserve]
    and [memblock_free] calls, in any interleaving and with any arguments, in
    which no array has to grow (resizing is not allowed yet, or the call finds
    room for the entries it needs), runs to its end without [BUG_ON], and the two
    arrays then stand for the sets that the same sequence of unions and
    differences gives. A call is refused, with [-ENOMEM] and without any effect,
    exactly when its area is not empty and its array has no room. *)
Theorem memblock_refines_sets env rqs mb s :
  Forall request_ok rqs → no_growth env rqs mb → represents mb s →
  ∃ rvs mb', serve_all env rqs mb = Ok (rvs, mb') ∧ length rvs = length rqs ∧
    represents mb' (spec_run (zip rqs rvs) s) ∧
    ∀ i rq rv, rqs !! i = Some rq → rvs !! i = Some rv →
      ∃ rvs_i mb_i, serve_all env (take i rqs) mb = Ok (rvs_i, mb_i) ∧
                    rv = if fits mb_i rq || area_empty rq then 0 else - ENOMEM.
Proof.
  intros Hrqs. revert mb s. induction Hrqs as [|rq rqs Hrq _ IH]; intros mb s Hr Hrep; cbn.
  { by exists [], mb. }
  destruct Hr as [Hr Hr']. destruct (serve_spec env rq mb s Hrq Hr Hrep) as (rv & mb1 & E & Hrv & Hrep1).
  destruct (IH _ _ (Hr' _ _ E) Hrep1) as (rvs & mb2 & E2 & Hlen & Hrep2 & Hi). rewrite E. cbn. rewrite E2. cbn.
  exists (rv :: rvs), mb2. split_and!; [done|cbn; by rewrite Hlen|done|].
  intros [|i] rq' rv' Hq Hv; cbn in Hq, Hv |- *; [simplify_eq; by exists [], mb|].
  destruct (Hi i rq' rv' Hq Hv) as (rvs_i & mb_i & Ei & ->). rewrite E. cbn. rewrite Ei. cbn. by exists (rv :: rvs_i), mb_i.
Qed.

Definition boot_calls : list request :=
  [Add 0x80000000 0x8000000; Reserve 0x80200000 0x300000; Reserve 0x80100000 0x200000; Free 0x80180000 0x10000;
   Remove 0x87000000 0x1000000].

Lemma memblock_refines_sets_witness :
  ∃ rvs mb', serve_all plain_env boot_calls memblock_init = Ok (rvs, mb') ∧ rvs = [0; 0; 0; 0; 0] ∧
    represents mb' (spec_run (zip boot_calls rvs) (MkSpec (λ _, False) (λ _, False))).
Proof.
  destruct (memblock_refines_sets plain_env boot_calls memblock_init (MkSpec (λ _, False) (λ _, False)))
    as (rvs & mb' & E & _ & Hrep & _).
  - repeat (apply Forall_cons; split; [cbn; unfold is_word; lia|]). constructor.
  - repeat (split; [by left|]; intros ? ? E; vm_compute in E; injection E as <- <-). exact I.
  - split_and!; [apply type_check_ok; reflexivity..| |]; intros x; (split; [apply covered_dummy|done]).
  - exists rvs, mb'. split; [exact E|]. split; [|exact Hrep].
    assert (match serve_all plain_env boot_calls memblock_init with Ok (l, _) => l | _ => [] end = [0; 0; 0; 0; 0]) as Hv
      by (vm_compute; reflexivity).
    rewrite E in Hv. exact Hv.
Defined.

(** ** Iteration and search *)

(** Iterating over the free memory, upwards or downwards, terminates and
    visits the same ranges in opposite orders; they are sorted and disjoint,
    and a nonempty block lies inside one of them exactly when it lies inside
    one usable memory region and touches no reservation. *)
Theorem free_mem_range_iteration mb nid flags :
  indexable mb → nid ≠ MAX_NUMNODES →
  ∃ l, for_each_free_mem_range mb nid flags = Ok l ∧
       for_each_free_mem_range_reverse mb nid flags = Ok (reverse l) ∧
       StronglySorted range_before l ∧
       ∀ p size, 0 < size → Exists (inside size p) l ↔ free_block mb nid flags p size.
Proof.
  intros Hix Hnid. pose proof Hix as (Ha & Hb & Hca & Hcb).
  exists (free_ranges mb nid flags). split_and!.
  - apply (for_each_mem_range_spec (memory mb) (reserved mb) nid flags _ 0 0); try done;
      unfold walk_fuel; lia.
  - unfold free_ranges. rewrite <- ahead_rev_start.
    apply for_each_mem_range_rev_spec; try done; [by apply next_mem_range_rev_start|].
    unfold walk_fuel. lia.
  - by apply free_ranges_sorted.
  - intros p size Hsz. by apply Exists_inside_free.
Qed.

(** Two banks with reservations at the start of the first and across the
    second. *)
Definition busy_banks : memblock :=
  set_type two_banks RESERVED
    (MkType INIT_MEMBLOCK_REGIONS 0x6000
       [MkRegion 0x1000 0x2000 0; MkRegion 0x48000 0x4000 0] InitArray).

Lemma busy_banks_ok t : type_ok (get_type busy_banks t).
Proof. apply type_check_ok. by destruct t. Qed.

Lemma busy_banks_indexable : indexable busy_banks.
Proof.
  split_and!; [apply (busy_banks_ok MEMORY)|apply (busy_banks_ok RESERVED)|done..].
Qed.

Lemma free_mem_range_iteration_witness :
  ∃ l, for_each_free_mem_range busy_banks NUMA_NO_NODE 0 = Ok l ∧
       for_each_free_mem_range_reverse busy_banks NUMA_NO_NODE 0 = Ok (reverse l) ∧
       StronglySorted range_before l ∧
       ∀ p size, 0 < size →
         Exists (inside size p) l ↔ free_block busy_banks NUMA_NO_NODE 0 p size.
Proof. apply free_mem_range_iteration; [apply busy_banks_indexable|done]. Defined.

(** [memblock_find_in_range_node] terminates; a nonzero result is aligned,
    within the bounds, inside one usable memory region and clear of every
    reservation; the result 0 means that no such block exists; and unless
    bottom-up search is set, the result is the highest such block. *)
Theorem memblock_find_in_range_node_correct env mb size k start end_ nid flags :
  indexable mb → is_word (current_limit mb) → nid ≠ MAX_NUMNODES → 0 ≤ k < 64 → 0 < size →
  is_word start → is_word end_ →
  let lo := Z.max start PAGE_SIZE in
  ∃ c, memblock_find_in_range_node env mb size (2 ^ k) start end_ nid flags = Ok c ∧
       find_result mb nid flags lo (search_limit mb lo end_) size (2 ^ k) c.
Proof. apply find_in_range_node_spec. Qed.

Lemma memblock_find_in_range_node_correct_witness :
  ∃ c, memblock_find_in_range_node plain_env busy_banks 0x3000 (2 ^ 12) 0 0 NUMA_NO_NODE 0 = Ok c ∧
       find_result busy_banks NUMA_NO_NODE 0 (Z.max 0 PAGE_SIZE)
         (search_limit busy_banks (Z.max 0 PAGE_SIZE) 0) 0x3000 (2 ^ 12) c.
Proof.
  apply memblock_find_in_range_node_correct; unfold is_word; try done; try lia.
  apply busy_banks_indexable.
Defined.

(** ** Allocation *)

(** The reserved array may not grow, or has a free entry. *)
Definition reserve_mode (mb : memblock) : Prop :=
  memblock_can_resize mb = false ∨ cnt (reserved mb) < t_max (reserved mb).

(** An area that meets no region takes one entry. *)
Lemma fill_disjoint_length flags end_ rs base :
  Forall (λ r, r_base r + r_size r ≤ base ∨ end_ ≤ r_base r) rs →
  (length (fill flags end_ rs base) ≤ S (length rs))%nat.
Proof.
  induction 1 as [|r rs Hr _ IH]; cbn; [destruct (_ <? _); cbn; lia|].
  regions_cases; cbn; lia.
Qed.

Lemma free_block_words mb nid flags p size :
  indexable mb → 0 < size → free_block mb nid flags p size →
  is_word p ∧ is_word size ∧ memblock_cap_size p size = size ∧ area_end p size = p + size.
Proof.
  intros (Ha & _) Hsz [(m & Hm & _ & ? & ?) _].
  destruct (array_region_bounds _ _ Ha Hm) as (?&?&?). unfold PHYS_ADDR_MAX in *.
  unfold area_end, is_word, memblock_cap_size, PHYS_ADDR_MAX. rewrite u64_id; lia.
Qed.

Lemma free_block_needs mb nid flags p size :
  indexable mb → type_ok (reserved mb) → 0 < size → free_block mb nid flags p size →
  add_needs 0 p size (t_regions (reserved mb)) ≤ cnt (reserved mb) + 1.
Proof.
  intros Hix Hok Hsz Hf. destruct (free_block_words _ _ _ _ _ Hix Hsz Hf) as (Hp & _ & _ & Hend).
  pose proof Hok as (Harr & _). unfold add_needs, cnt. destruct (_ =? 0); [lia|]. destruct (Z.eqb_spec (r_size (default dummy_region (t_regions (reserved mb) !! 0%nat))) 0) as [|E]; [lia|].
  apply array_ok_head in E as [_ [Hall _]]; [|done].
  rewrite Hend. enough (length (fill 0 (p + size) (t_regions (reserved mb)) p) ≤ S (length (t_regions (reserved mb))))%nat by lia.
  apply fill_disjoint_length, Forall_forall. intros r Hr. destruct Hf as [_ Hfree].
  rewrite Forall_forall in Hall. destruct (Hall r Hr) as (H0 & H1 & _).
  destruct (decide (r_base r + r_size r ≤ p ∨ p + size ≤ r_base r)) as [|Hn]; [done|]. exfalso.
  apply (Hfree (Z.max p (r_base r))); [lia|]. apply covered_elem. exists r. split; [done|]. unfold in_region. unfold is_word in Hp. lia.
Qed.

(** Reserving a block that a search returned. *)
Lemma reserve_free_block env mb nid flags c size :
  indexable mb → type_ok (reserved mb) → reserve_mode mb → 0 < size →
  free_block mb nid flags c size →
  ∃ rv mb', memblock_reserve env mb c size = Ok (rv, mb') ∧ keeps mb mb' RESERVED ∧
  ((rv = 0 ∧ ∀ x, type_covered mb' RESERVED x ↔ type_covered mb RESERVED x ∨ c ≤ x < c + size) ∨
   (rv ≠ 0 ∧ mb' = mb ∧ t_max (reserved mb) ≤ cnt (reserved mb))).
Proof.
  intros Hix Hok Hmode Hsz Hf.
  destruct (free_block_words _ _ _ _ _ Hix Hsz Hf) as (Hc & Hs & _ & Hend).
  destruct (add_range_result env mb RESERVED c size 0) as (rv & mb' & He & Hk & Hres); try done.
  { destruct Hmode as [?|Hr]; [by left|right]. pose proof (free_block_needs _ _ _ _ _ Hix Hok Hsz Hf). cbn. lia. }
  exists rv, mb'. split_and!; [done..|]. pose proof (add_result_covered _ _ _ _ _ _ _ Hres) as Hcov.
  rewrite Hend in Hcov. destruct (Z.eqb_spec rv 0) as [->|Hne]; [by left|right].
  split_and!; [done..|]. destruct (Z.le_gt_cases (t_max (reserved mb)) (cnt (reserved mb))) as [|Hr]; [done|].
  pose proof (free_block_needs _ _ _ _ _ Hix Hok Hsz Hf) as Hfit.
  unfold add_result in Hres. cbn [get_type] in Hres.
  destruct (Z.leb_spec (add_needs 0 c size (t_regions (reserved mb))) (t_max (reserved mb)));
    [by destruct Hres|lia].
Qed.

Definition usable_block (mb : memblock) (p size : Z) : Prop :=
  free_block mb NUMA_NO_NODE MEMBLOCK_NONE p size.

(** An allocation of [size] bytes that returned [c]. *)
Definition alloc_ok (mb mb' : memblock) (lo hi size align c : Z) : Prop :=
  c ≠ 0 ∧ placed lo hi size align c ∧ usable_block mb c size ∧ keeps mb mb' RESERVED ∧
  ∀ x, type_covered mb' RESERVED x ↔ type_covered mb RESERVED x ∨ c ≤ x < c + size.

(** A failure means that there is no such block, or no entry to reserve it. *)
Definition alloc_failed (mb mb' : memblock) (nid flags lo hi size align : Z) : Prop :=
  mb' = mb ∧
  (cnt (reserved mb) < t_max (reserved mb) →
   ∀ p, placed lo hi size align p → ¬ free_block mb nid flags p size).

Lemma skip_weaken m nid flags :
  flags = 0 ∨ flags = 2 → should_skip_region m nid flags = false →
  should_skip_region m NUMA_NO_NODE MEMBLOCK_NONE = false.
Proof.
  unfold should_skip_region, movable_node_is_enabled. intros Hf. cbn [andb].
  destruct (_ && _); [done|]. by destruct Hf as [->| ->]; cbn; destruct (memblock_is_nomap m);
    destruct (memblock_is_mirror m).
Qed.

Lemma free_block_weaken mb nid flags p size :
  flags = 0 ∨ flags = 2 → free_block mb nid flags p size → usable_block mb p size.
Proof.
  intros Hf [(m & ? & ? & ?) ?]. split; [|done]. exists m.
  split_and!; [done|by eapply skip_weaken|tauto..].
Qed.

Section allocation.
Context (env : environment) (mb : memblock) (size k start end_ : Z).
Hypothesis (Hix : indexable mb) (Hlim : is_word (current_limit mb)).
Hypothesis (Hres : type_ok (reserved mb)) (Hmode : reserve_mode mb).
Hypothesis (Hsz : 0 < size) (Hk : 0 ≤ k < 64) (Hs : is_word start) (He : is_word end_).

Let lo := Z.max start PAGE_SIZE.
Let hi := search_limit mb lo end_.

(** One search followed by the reservation of what it found. *)
Lemma alloc_attempt nid flags :
  nid ≠ MAX_NUMNODES → flags = 0 ∨ flags = 2 →
  ∃ c mb',
    (found ← memblock_find_in_range_node env mb size (2 ^ k) start end_ nid flags;
     if found =? 0 then Ok (0, mb)
     else '(rv, mb') ← memblock_reserve env mb found size;
          Ok (if rv =? 0 then found else 0, mb')) = Ok (c, mb') ∧
    ((c = 0 ∧ alloc_failed mb mb' nid flags lo hi size (2 ^ k)) ∨
     alloc_ok mb mb' lo hi size (2 ^ k) c).
Proof.
  intros Hnid Hf.
  destruct (find_in_range_node_spec env mb size k start end_ nid flags)
    as (c & -> & [[-> Hno]|(Hc & Hpl & Hfb & _)]); try done; cbn [mbind outcome_bind].
  { exists 0, mb. split; [done|]. left. unfold alloc_failed. auto. }
  destruct (Z.eqb_spec c 0); [done|].
  destruct (reserve_free_block env mb nid flags c size) as (rv & mb' & -> & Hkeep & Hcase); try done.
  cbn [mbind outcome_bind]. destruct Hcase as [[-> Hcov]|(Hne & -> & Hfull)].
  - exists c, mb'. split; [done|]. right.
    split; [done|]. split; [done|]. split; [by eapply free_block_weaken|done].
  - exists 0, mb. destruct (Z.eqb_spec rv 0); [done|]. split; [done|]. left.
    split; [done|]. split; [done|]. lia.
Qed.

Lemma alloc_pass_spec nid exact_nid flags :
  nid ≠ MAX_NUMNODES → flags = 0 ∨ flags = 2 →
  ∃ c mb', alloc_pass env mb size (2 ^ k) start end_ nid exact_nid flags = Ok (c, mb') ∧
    ((c = 0 ∧ mb' = mb ∧
      (exact_nid = false → alloc_failed mb mb' NUMA_NO_NODE flags lo hi size (2 ^ k))) ∨
     alloc_ok mb mb' lo hi size (2 ^ k) c).
Proof.
  intros Hnid Hf. unfold alloc_pass.
  destruct (alloc_attempt nid flags Hnid Hf) as (c & mb' & -> & Hcase). cbn [mbind outcome_bind].
  destruct Hcase as [[-> Hfail]|Hok].
  2:{ exists c, mb'. destruct (Z.eqb_spec c 0); [by destruct Hok|]. split; [done|]. by right. }
  cbn [Z.eqb negb]. pose proof Hfail as [-> _].
  destruct (Z.eqb_spec nid NUMA_NO_NODE) as [->|]; cbn [negb andb].
  { exists 0, mb. split; [done|]. left. auto. }
  destruct exact_nid; cbn [negb].
  { exists 0, mb. split; [done|]. left. by split_and!. }
  destruct (alloc_attempt NUMA_NO_NODE flags ltac:(done) Hf) as (c & mb' & -> & [[-> Hf2]|Hok]).
  - exists 0, mb'. split; [done|]. left. pose proof Hf2 as [? _]. auto.
  - exists c, mb'. split; [done|]. by right.
Qed.
End allocation.

Lemma alloc_range_spec env mb size align k start end_ nid exact_nid :
  indexable mb → is_word (current_limit mb) → type_ok (reserved mb) → reserve_mode mb →
  0 < size → (if align =? 0 then SMP_CACHE_BYTES else align) = 2 ^ k → 0 ≤ k < 64 →
  is_word start → is_word end_ →
  let lo := Z.max start PAGE_SIZE in
  let hi := search_limit mb lo end_ in
  ∃ c mb', memblock_alloc_range_nid env mb size align start end_ nid exact_nid = Ok (c, mb') ∧
  ((c = 0 ∧ mb' = mb ∧
    (exact_nid = false →
     alloc_failed mb mb' NUMA_NO_NODE MEMBLOCK_NONE lo hi size (2 ^ k))) ∨
   alloc_ok mb mb' lo hi size (2 ^ k) c).
Proof.
  intros Hix Hlim Hres Hmode Hsz Ha Hk Hs He lo hi. unfold memblock_alloc_range_nid. rewrite Ha.
  set (nid' := if nid =? MAX_NUMNODES then NUMA_NO_NODE else nid).
  assert (nid' ≠ MAX_NUMNODES) as Hnid.
  { unfold nid'. destruct (Z.eqb_spec nid MAX_NUMNODES); [done|done]. }
  assert (choose_memblock_flags mb = 0 ∨ choose_memblock_flags mb = 2) as Hf.
  { unfold choose_memblock_flags. destruct (system_has_some_mirror mb); auto. }
  destruct (alloc_pass_spec env mb size k start end_ Hix Hlim Hres Hmode Hsz Hk Hs He
    nid' exact_nid _ Hnid Hf) as (c & mb' & -> & Hcase). cbn [mbind outcome_bind].
  destruct Hcase as [(-> & -> & Hfail)|Hok].
  2:{ exists c, mb'. destruct (Z.eqb_spec c 0); [by destruct Hok|]. split; [done|]. by right. }
  cbn [Z.eqb negb]. destruct Hf as [Hf|Hf]; rewrite Hf in *; cbn.
  - exists 0, mb. split; [done|]. left. auto.
  - eapply alloc_pass_spec; try done. by left.
Qed.

(** [memblock_alloc_range_nid], while the reserved array may not grow or
    has room, terminates without [BUG_ON]. A nonzero result is an aligned block
    within the bounds, inside one memory region that may be mapped and clear of
    every reservation, and afterwards exactly that block is reserved in
    addition. The result 0 leaves the state as it was and, if the array had a
    free entry and no node was insisted on, means that no such block existed. *)
Theorem memblock_alloc_correct env mb size align k start end_ nid exact_nid :
  indexable mb → is_word (current_limit mb) → type_ok (reserved mb) → reserve_mode mb →
  0 < size → (if align =? 0 then SMP_CACHE_BYTES else align) = 2 ^ k → 0 ≤ k < 64 →
  is_word start → is_word end_ →
  let lo := Z.max start PAGE_SIZE in
  let hi := search_limit mb lo end_ in
  ∃ c mb', memblock_alloc_range_nid env mb size align start end_ nid exact_nid = Ok (c, mb') ∧
  ((c = 0 ∧ mb' = mb ∧
    (exact_nid = false →
     alloc_failed mb mb' NUMA_NO_NODE MEMBLOCK_NONE lo hi size (2 ^ k))) ∨
   alloc_ok mb mb' lo hi size (2 ^ k) c).
Proof. apply alloc_range_spec. Qed.

Lemma memblock_alloc_correct_witness :
  ∃ c mb', memblock_alloc_range_nid plain_env busy_banks 0x3000 0x1000 0 0 NUMA_NO_NODE false
           = Ok (c, mb') ∧
  ((c = 0 ∧ mb' = busy_banks ∧
    (false = false →
     alloc_failed busy_banks mb' NUMA_NO_NODE MEMBLOCK_NONE (Z.max 0 PAGE_SIZE)
       (search_limit busy_banks (Z.max 0 PAGE_SIZE) 0) 0x3000 (2 ^ 12))) ∨
   alloc_ok busy_banks mb' (Z.max 0 PAGE_SIZE)
     (search_limit busy_banks (Z.max 0 PAGE_SIZE) 0) 0x3000 (2 ^ 12) c).
Proof.
  apply memblock_alloc_correct; unfold is_word; try done; try lia.
  - apply busy_banks_indexable.
  - apply (busy_banks_ok RESERVED).
  - by left.
Defined.

(** ** Sequences of allocations *)

















(** ** Searching an array *)

Section search.
Context (ty : memblock_type) (addr : Z).
Hypothesis (Hok : array_ok (t_regions ty)) (Hc : countable ty).

(** Entry [j] holds the address. *)
Definition holds (j : nat) : Prop := ∃ r, t_regions ty !! j = Some r ∧ in_region addr r.

Lemma array_sorted_lookup i j ri rj :
  t_regions ty !! i = Some ri → t_regions ty !! j = Some rj → (i < j)%nat →
  r_base ri + r_size ri ≤ r_base rj.
Proof.
  intros Hi Hj Hlt. destruct Hok as [Hd|[_ [_ Hs]]].
  - rewrite Hd in Hj. apply lookup_lt_Some in Hj. cbn in Hj. lia.
  - rewrite <- (take_drop j (t_regions ty)) in Hs. change (before ri rj).
    eapply StronglySorted_app_1_elem_of; [exact Hs| |].
    + eapply list_elem_of_lookup_2. rewrite lookup_take_lt; [exact Hi|done].
    + eapply (list_elem_of_lookup_2 _ 0). by rewrite lookup_drop, Nat.add_0_r.
Qed.

Lemma search_loop_spec : ∀ fuel left right,
  (left < right ≤ length (t_regions ty))%nat → (right - left < fuel)%nat →
  (∀ j, holds j → (left ≤ j < right)%nat) →
  ∃ i, search_loop fuel ty addr (Z.of_nat left) (Z.of_nat right) = Ok i ∧
       ((i = -1 ∧ ∀ j, ¬ holds j) ∨ (∃ j, i = Z.of_nat j ∧ holds j)).
Proof.
  induction fuel as [|fuel IH]; intros left right Hlr Hf Hin; [lia|].
  cbn [search_loop]. unfold countable, cnt in Hc.
  unfold u32. rewrite (Z.mod_small (Z.of_nat right + Z.of_nat left)) by lia.
  set (mid := ((right + left) / 2)%nat).
  assert ((Z.of_nat right + Z.of_nat left) / 2 = Z.of_nat mid) as ->.
  { unfold mid. rewrite Nat2Z.inj_div, Nat2Z.inj_add. done. }
  assert (left ≤ mid < right)%nat as Hmid.
  { unfold mid. split; [apply Nat.div_le_lower_bound|apply Nat.div_lt_upper_bound]; lia. }
  rewrite (Z.mod_small (Z.of_nat mid + 1)) by lia.
  replace (Z.of_nat mid + 1) with (Z.of_nat (S mid)) by lia.
  unfold region_at. rewrite Nat2Z.id.
  destruct (lookup_lt_is_Some_2 (t_regions ty) mid) as [r Hr]; [lia|]. rewrite Hr. cbn [default].
  unfold id. rewrite (array_r_end _ r Hok) by (by eapply list_elem_of_lookup_2).
  destruct (Z.ltb_spec addr (r_base r)) as [Hlo|Hlo].
  - assert (∀ j, holds j → (left ≤ j < mid)%nat) as Hin'.
    { intros j Hj. specialize (Hin j Hj). split; [lia|]. destruct Hj as (rj & Hj & ? & ?).
      destruct (decide (j < mid)%nat); [done|]. destruct (decide (j = mid)) as [->|]; [simplify_eq; lia|].
      pose proof (array_sorted_lookup mid j _ _ Hr Hj). 
      destruct (array_region_bounds _ _ Hok (list_elem_of_lookup_2 _ _ _ Hr)) as (?&?&?). lia. }
    destruct (Z.ltb_spec (Z.of_nat left) (Z.of_nat mid)).
    + apply IH; [lia..|done].
    + exists (-1). split; [done|]. left. split; [done|]. intros j Hj%Hin'. lia.
  - destruct (Z.leb_spec (r_base r + r_size r) addr) as [Hhi|Hhi].
    + assert (∀ j, holds j → (S mid ≤ j < right)%nat) as Hin'.
      { intros j Hj. specialize (Hin j Hj). split; [|lia]. destruct Hj as (rj & Hj & ? & ?).
        destruct (decide (j = mid)) as [->|]; [simplify_eq; lia|].
        destruct (decide (mid < j)%nat); [lia|].
        pose proof (array_sorted_lookup j mid _ _ Hj Hr).
        destruct (array_region_bounds _ _ Hok (list_elem_of_lookup_2 _ _ _ Hr)) as (?&?&?). lia. }
      destruct (Z.ltb_spec (Z.of_nat (S mid)) (Z.of_nat right)).
      * apply IH; [lia..|done].
      * exists (-1). split; [done|]. left. split; [done|]. intros j Hj%Hin'. lia.
    + exists (Z.of_nat mid). split; [done|]. right. exists mid. split; [done|].
      exists r. split; [done|]. split; lia.
Qed.

Lemma search_spec :
  ∃ i, memblock_search ty addr = Ok i ∧
       ((i = -1 ∧ ∀ j, ¬ holds j) ∨ (∃ j, i = Z.of_nat j ∧ holds j)).
Proof.
  assert (0 < length (t_regions ty))%nat as Hlen.
  { destruct Hok as [->|[Hne _]]; [cbn; lia|]. destruct (t_regions ty); [done|cbn; lia]. }
  unfold memblock_search. unfold countable in Hc. rewrite u32_id by (unfold cnt in *; lia).
  apply (search_loop_spec _ 0); [lia..|].
  intros j (r & Hr & _). apply lookup_lt_Some in Hr. lia.
Qed.
End search.

(** [memblock_search] is a correct binary search: it terminates, and
    returns the index of the region that holds the address, or -1 exactly when
    no region does; so [memblock_is_region_memory] says whether the (capped)
    range lies inside one memory region. *)
Theorem memblock_search_correct mb base size :
  indexable mb → is_word base → is_word size → 0 < memblock_cap_size base size →
  (∃ i, memblock_search (memory mb) base = Ok i ∧
        (i = -1 ↔ ¬ type_covered mb MEMORY base)) ∧
  ∃ b, memblock_is_region_memory mb base size = Ok b ∧
       (b = true ↔ ∃ r, r ∈ t_regions (memory mb) ∧
                        r_base r ≤ base ∧ area_end base size ≤ r_base r + r_size r).
Proof.
  intros (Ha & _ & Hca & _) Hb Hs Hcap. unfold memblock_is_region_memory.
  destruct (cap_size_end base size Hb Hs) as (_ & _ & -> & Hle).
  destruct (search_spec (memory mb) base Ha Hca) as (i & -> & Hi). cbn [mbind outcome_bind].
  assert (∀ r, r ∈ t_regions (memory mb) → in_region base r →
    ∃ j, holds (memory mb) base j) as Hholds.
  { intros r [j Hj]%list_elem_of_lookup_1 Hr. exists j, r. done. }
  destruct Hi as [[-> Hno]|(j & -> & r & Hr & Hin)].
  - split.
    + eexists; split; [done|]. split; [|done]. intros _ (r & Hr & Hx)%covered_elem.
      destruct (Hholds r Hr Hx) as [j ?]. by apply (Hno j).
    + eexists; split; [done|]. split; [done|]. intros (r & Hr & ? & ?).
      destruct (Hholds r Hr) as [j ?]; [|by destruct (Hno j)].
      unfold area_end, in_region in *. lia.
  - destruct (Z.eqb_spec (Z.of_nat j) (-1)); [lia|]. split.
    + eexists; split; [done|]. split; [lia|]. intros Hn. destruct Hn. apply covered_elem.
      exists r. split; [by eapply list_elem_of_lookup_2|done].
    + eexists; split; [done|]. unfold region_at. rewrite Nat2Z.id, Hr. cbn [default]. unfold id.
      rewrite (array_r_end _ r Ha) by (by eapply list_elem_of_lookup_2). rewrite Z.leb_le. split.
      * intros ?. exists r. split; [by eapply list_elem_of_lookup_2|]. destruct Hin. lia.
      * intros (r' & Hr' & ? & ?). apply list_elem_of_lookup_1 in Hr' as [j' Hr'].
        destruct (decide (j' = j)) as [->|Hne]; [by simplify_eq|].
        unfold in_region, area_end in *.
        destruct (decide (j < j')%nat);
          [pose proof (array_sorted_lookup (memory mb) Ha j j' _ _ Hr Hr')
          |pose proof (array_sorted_lookup (memory mb) Ha j' j _ _ Hr' Hr)]; lia.
Qed.

Lemma memblock_search_correct_witness :
  (∃ i, memblock_search (memory busy_banks) 0x41000 = Ok i ∧
        (i = -1 ↔ ¬ type_covered busy_banks MEMORY 0x41000)) ∧
  ∃ b, memblock_is_region_memory busy_banks 0x41000 0x2000 = Ok b ∧
       (b = true ↔ ∃ r, r ∈ t_regions (memory busy_banks) ∧
                        r_base r ≤ 0x41000 ∧ area_end 0x41000 0x2000 ≤ r_base r + r_size r).
Proof.
  apply memblock_search_correct; unfold is_word; try lia.
  - apply busy_banks_indexable.
  - by vm_compute.
Defined.

(** ** Growing the reserved array *)

(** Memory from address 0 on, its upper half dotted with 128 one-byte
    reservations, and resizing allowed. *)
Definition dotted_bank : memblock :=
  let regions := map (λ i, MkRegion (0x8000 + 256 * Z.of_nat i) 1 0) (seq 0 128) in
  memblock_allow_resize
    (set_type
       (set_type memblock_init MEMORY
          (MkType INIT_MEMBLOCK_REGIONS 0x10000 [MkRegion 0 0x10000 0] InitArray))
       RESERVED (MkType INIT_MEMBLOCK_REGIONS 128 regions InitArray)).

(** C35: growing the reserved array for an area that starts at address 0 may
    put the new array inside that area. No page is free above the area, and
    the second search, which is to end at the start of the area, passes 0 as
    its end, which means the current limit. *)
Theorem double_array_inside_area :
  ∃ mb' pa, memblock_reserve plain_env dotted_bank 0 0x8000 = Ok (0, mb') ∧
    t_array (reserved mb') = AllocArray pa ∧ t_max (reserved mb') = 256 ∧
    0 ≤ pa ∧ pa + t_max (reserved mb') * sizeof_region ≤ 0x8000.
Proof.
  eexists _, _. split; [vm_compute; reflexivity|]. split; [reflexivity|].
  by vm_compute.
Qed.
