(* ===== verification/FindDep.v ===== *)
(** * Component dependencies: data and operations

    tools/find_dep_c/main.c resolves the undefined symbols of every component
    against the exported symbols of all of them, and visits the components
    below a top component in dependency order. Pointers to [module] and
    [depend] objects are indices; the [next] and [flags] fields of [depend]
    live in a heap because candidates of several symbols share them. [exit(-1)]
    and a failed [assert] are [Panic]. *)

From Stdlib Require Import ZArith Lia Ascii String.
From stdpp Require Import base numbers list option gmap strings.
From S2P Require Import Prelude.

Open Scope Z_scope.

Module FindDep.

Inductive mod_status := M_STATUS_NONE | M_STATUS_DOING | M_STATUS_DONE.

#[global] Instance mod_status_eq_dec : EqDecision mod_status.
Proof. solve_decision. Defined.

(** The [status] field is kept apart, in [t_status] below: it is the only one
    the traversal writes. *)
Record module := MkModule {
  m_name : string;
  m_undef_syms : list string;
  m_dependencies : list nat;
  m_num_dependencies : Z;
}.

Record depend := MkDepend {
  d_mod : nat;
  d_flags : Z;
  d_next : option nat;
}.

Record symbol := MkSymbol {
  s_name : string;
  s_mod : nat;
}.

(** [w_mods] holds every module object, [w_modules] the list [modules] in its
    order; the object of "lds" is not on the list. A fix-up is the head of its
    candidates. *)
Record world := MkWorld {
  w_mods : list module;
  w_modules : list nat;
  w_symbols : list symbol;
  w_heap : list depend;
  w_fixups : list nat;
}.

Definition DEPEND_FLAGS_CANDIDATE : Z := 1.

Definition null_module : module := MkModule EmptyString [] [] 0.
Definition null_depend : depend := MkDepend 0 0 None.

(** Dereferencing; the pointers of a reachable state are never dangling. *)
Definition mod_at (w : world) (m : nat) : module := default null_module (w_mods w !! m).
Definition dep_at (w : world) (d : nat) : depend := default null_depend (w_heap w !! d).

Definition set_mod (w : world) (m : nat) (v : module) : world :=
  MkWorld (<[m := v]> (w_mods w)) (w_modules w) (w_symbols w) (w_heap w) (w_fixups w).
Definition set_dep (w : world) (d : nat) (v : depend) : world :=
  MkWorld (w_mods w) (w_modules w) (w_symbols w) (<[d := v]> (w_heap w)) (w_fixups w).

Definition add_fixup (w : world) (head : nat) : world :=
  MkWorld (w_mods w) (w_modules w) (w_symbols w) (w_heap w) (w_fixups w ++ [head]).

(** ** Reading modules *)

(** [check_module]: the name ends in ".ko" after its last dot. [strrchr]
    returns NULL for a name without a dot, and [strcmp] reads through it. *)
Fixpoint strrchr_dot (s : string) : option string :=
  match s with
  | EmptyString => None
  | String c s' =>
      match strrchr_dot s' with
      | Some p => Some p
      | None => if Ascii.eqb c "."%char then Some s else None
      end
  end.

Definition check_module (name : string) : outcome bool :=
  match strrchr_dot name with
  | Some p => Ok (String.eqb p ".ko")
  | None => Panic
  end.

(** [export_symbols] on the bytes of [__ksymtab_strings]: the
    NUL-terminated names up to [end]. A name that runs past the section is
    read beyond it; the section ends in a NUL. *)
Fixpoint export_loop (bytes : list ascii) (cur : string) : list string :=
  match bytes with
  | [] => []
  | c :: bytes =>
      if Ascii.eqb c Ascii.zero then cur :: export_loop bytes EmptyString
      else export_loop bytes (cur +:+ String c EmptyString)
  end.

Definition export_symbols (w : world) (bytes : list ascii) (md : nat) : world :=
  MkWorld (w_mods w) (w_modules w)
    (w_symbols w ++ map (λ n, MkSymbol n md) (export_loop bytes EmptyString))
    (w_heap w) (w_fixups w).

Definition SHN_UNDEF : Z := 0.

(** [discover_undef_syms]: the entries of the symbol table from 1 on, each
    with its name and section index. *)
Definition discover_undef_syms (w : world) (md : nat) (syms : list (string * Z)) : world :=
  let v := mod_at w md in
  let undef := omap (λ '(name, shndx), if shndx =? SHN_UNDEF then Some name else None)
                 (drop 1 syms) in
  set_mod w md (MkModule (m_name v) (m_undef_syms v ++ undef)
                   (m_dependencies v) (m_num_dependencies v)).

(** ** Matching undefined symbols *)

Fixpoint find_dependency_in (w : world) (deps : list nat) (target : nat) : option nat :=
  match deps with
  | [] => None
  | d :: deps =>
      if bool_decide (d_mod (dep_at w d) = target) then Some d
      else find_dependency_in w deps target
  end.

Definition find_dependency (w : world) (cur target : nat) : option nat :=
  find_dependency_in w (m_dependencies (mod_at w cur)) target.

Definition on_match (w : world) (md : nat) (sym : symbol) : world * nat :=
  match find_dependency w md (s_mod sym) with
  | Some d => (w, d)
  | None =>
      let d := length (w_heap w) in
      let v := mod_at w md in
      let w := MkWorld (w_mods w) (w_modules w) (w_symbols w)
                 (w_heap w ++ [MkDepend (s_mod sym) 0 None]) (w_fixups w) in
      (set_mod w md (MkModule (m_name v) (m_undef_syms v) (m_dependencies v ++ [d])
                        (m_num_dependencies v + 1)), d)
  end.

(** The loop over [symbols] of [match_undef]. *)
Fixpoint match_loop (name : string) (md : nat) (syms : list symbol)
    (w : world) (head : option nat) : world * option nat :=
  match syms with
  | [] => (w, head)
  | sym :: syms =>
      if String.eqb (s_name sym) name then
        let '(w, cur) := on_match w md sym in
        match head with
        | None => match_loop name md syms w (Some cur)
        | Some h =>
            let v := dep_at w cur in
            match_loop name md syms
              (set_dep w cur (MkDepend (d_mod v) (d_flags v) (Some h))) (Some cur)
        end
      else match_loop name md syms w head
  end.

(** [while (p) { p->flags |= DEPEND_FLAGS_CANDIDATE; p = p->next; }] *)
Fixpoint flag_loop (fuel : nat) (w : world) (p : option nat) : outcome world :=
  match p with
  | None => Ok w
  | Some d =>
      match fuel with
      | O => Fuel
      | S fuel =>
          let v := dep_at w d in
          let w := set_dep w d (MkDepend (d_mod v)
                     (Z.lor (d_flags v) DEPEND_FLAGS_CANDIDATE) (d_next v)) in
          flag_loop fuel w (d_next v)
      end
  end.

Definition match_undef (fuel : nat) (w : world) (name : string) (md : nat) : outcome world :=
  let '(w, head) := match_loop name md (w_symbols w) w None in
  match head with
  | None => Ok w
  | Some h =>
      match d_next (dep_at w h) with
      | None => Ok w
      | Some _ => w ← flag_loop fuel w (Some h); Ok (add_fixup w h)
      end
  end.

(** [build_dependency]: each undefined symbol is matched and taken off the
    list. A chain of candidates without a loop has at most one entry per
    module, which is the fuel of [flag_loop]. *)
Fixpoint build_loop (undef : list string) (w : world) (md : nat) : outcome world :=
  match undef with
  | [] => Ok w
  | name :: undef =>
      w ← match_undef (length (w_mods w)) w name md;
      let v := mod_at w md in
      build_loop undef
        (set_mod w md (MkModule (m_name v) undef (m_dependencies v) (m_num_dependencies v)))
        md
  end.

Definition build_dependency (w : world) (md : nat) : outcome world :=
  build_loop (m_undef_syms (mod_at w md)) w md.

(** [sort_modules]: [list_for_each_entry(mod, &modules, list) build_dependency(mod)] *)
Fixpoint build_all (mods : list nat) (w : world) : outcome world :=
  match mods with
  | [] => Ok w
  | m :: mods => w ← build_dependency w m; build_all mods w
  end.

(** ** Traversal *)

Record tstate := MkT {
  t_status : gmap nat mod_status;
  t_json : gmap string (option (list string));
  t_profile : list nat;
}.

Definition status (st : tstate) (m : nat) : mod_status :=
  default M_STATUS_NONE (t_status st !! m).

Definition set_status (st : tstate) (m : nat) (s : mod_status) : tstate :=
  MkT (<[m := s]> (t_status st)) (t_json st) (t_profile st).

Definition json_add (st : tstate) (name : string) (v : option (list string)) : tstate :=
  MkT (t_status st) (<[name := v]> (t_json st)) (t_profile st).

(** [sort_func], the callback: [num_modules] is the size of [profile_mods]. *)
Definition sort_func (num_modules : nat) (st : tstate) (md : nat) : outcome tstate :=
  if bool_decide (length (t_profile st) = num_modules) then Panic
  else Ok (MkT (t_status st) (t_json st) (t_profile st ++ [md])).

(** The arrays of an existing profile, by module name. *)
Definition profile : Type := string → list string.

Definition verify_dependency (name dep_name : string) (prof : profile) : bool :=
  if String.prefix "lds" dep_name then true
  else existsb (λ n, String.prefix dep_name n) (prof name).

(** The loop of [traverse_dependency] over the dependencies of the module
    [v]; [visit] is the recursive call. The result is [inr] when the loop
    returns early because a dependency is not done. *)
Fixpoint deps_loop (visit : nat → tstate → outcome tstate) (w : world)
    (prof : option profile) (v : module) (deps : list nat) (handled : Z)
    (dep_mods : option (list string)) (st : tstate)
    : outcome ((tstate * Z * option (list string)) + tstate) :=
  match deps with
  | [] => Ok (inl (st, handled, dep_mods))
  | d :: deps =>
      let dm := d_mod (dep_at w d) in
      st ← visit dm st;
      if bool_decide (status st dm = M_STATUS_DONE) then
        match prof with
        | Some pr =>
            if verify_dependency (m_name v) (m_name (mod_at w dm)) pr
            then deps_loop visit w prof v deps (handled + 1) dep_mods st
            else Panic
        | None =>
            deps_loop visit w prof v deps (handled + 1)
              (Some (default [] dep_mods ++ [m_name (mod_at w dm)])) st
        end
      else Ok (inr st)
  end.

(** [traverse_dependency]; without a profile one is created in [t_json]. *)
Fixpoint traverse_dependency (fuel : nat) (w : world) (prof : option profile)
    (num_modules : nat) (md : nat) (st : tstate) : outcome tstate :=
  match fuel with
  | O => Fuel
  | S fuel =>
      match status st md with
      | M_STATUS_DOING | M_STATUS_DONE => Ok st
      | M_STATUS_NONE =>
          let v := mod_at w md in
          r ← deps_loop (traverse_dependency fuel w prof num_modules) w prof v
                (m_dependencies v) 0 None (set_status st md M_STATUS_DOING);
          match r with
          | inr st => Ok st
          | inl (st, handled, dep_mods) =>
              let st := match prof with
                        | Some _ => st
                        | None => json_add st (m_name v) dep_mods
                        end in
              if negb (handled =? m_num_dependencies v) then Panic
              else sort_func num_modules (set_status st md M_STATUS_DONE) md
          end
      end
  end.

Definition reset_modules_status (w : world) (st : tstate) : tstate :=
  MkT (foldr (λ m s, <[m := M_STATUS_NONE]> s) (t_status st) (w_modules w))
    (t_json st) (t_profile st).

End FindDep.
