(* ===== verification/FindDepSpec.v ===== *)
(** * Component dependencies: theorems

    The traversal of tools/find_dep_c visits exactly the components that the
    top one needs, each after everything it depends on, and fails exactly on
    cycles; matching symbols collects exactly the providers. *)

From Stdlib Require Import ZArith Lia Ascii String.
From stdpp Require Import base numbers list option gmap strings relations sorting.
From S2P Require Import Prelude FindDep.
Import FindDep.

Open Scope Z_scope.

(** ** The graph *)

Definition edges (w : world) (m : nat) : list nat :=
  map (λ d, d_mod (dep_at w d)) (m_dependencies (mod_at w m)).

Definition edge (w : world) (x y : nat) : Prop := y ∈ edges w x.

Definition name_of (w : world) (m : nat) : string := m_name (mod_at w m).

(** Every pointer is valid and every count is right. *)
Definition graph_ok (w : world) : Prop :=
  ∀ m, (m < length (w_mods w))%nat →
    Forall (λ d, (d < length (w_mods w))%nat) (edges w m) ∧
    m_num_dependencies (mod_at w m) = Z.of_nat (length (m_dependencies (mod_at w m))).

Definition names_distinct (w : world) : Prop :=
  ∀ x y, (x < length (w_mods w))%nat → (y < length (w_mods w))%nat →
    name_of w x = name_of w y → x = y.

(** What a new profile records for a component. *)
Definition recorded (w : world) (deps : list nat) : option (list string) :=
  match deps with [] => None | _ => Some (map (name_of w) deps) end.

(** The profile allows every dependency below [top]. *)
Definition accepts (w : world) (top : nat) (prof : option profile) : Prop :=
  match prof with
  | None => True
  | Some pr => ∀ x y, rtc (edge w) top x → edge w x y → verify_dependency (name_of w x) (name_of w y) pr = true
  end.

(** The profile lacks a dependency below [top]. *)
Definition rejects (w : world) (top : nat) (prof : option profile) : Prop :=
  ∃ pr x y, prof = Some pr ∧ rtc (edge w) top x ∧ edge w x y ∧ verify_dependency (name_of w x) (name_of w y) pr = false.

Lemma rejects_accepts w top prof : rejects w top prof → ¬ accepts w top prof.
Proof. intros (pr & x & y & -> & Hx & Hxy & Hv) Ha. by rewrite (Ha x y Hx Hxy) in Hv. Qed.

(** Dependencies come first. *)
Definition ordered (w : world) (l : list nat) : Prop :=
  ∀ l1 x l2, l = l1 ++ x :: l2 → ∀ y, edge w x y → y ∈ l1.

Record inv (w : world) (prof : option profile) (st : tstate) : Prop := {
  inv_nodup : NoDup (t_profile st);
  inv_bound : Forall (λ m, (m < length (w_mods w))%nat) (t_profile st);
  inv_done : ∀ m, status st m = M_STATUS_DONE ↔ m ∈ t_profile st;
  inv_ordered : ordered w (t_profile st);
  inv_json : prof = None →
    ∀ x, x ∈ t_profile st → t_json st !! name_of w x = Some (recorded w (edges w x));
  inv_verified : ∀ pr, prof = Some pr →
    ∀ x y, x ∈ t_profile st → edge w x y → verify_dependency (name_of w x) (name_of w y) pr = true;
}.

(** Modules not visited yet. *)
Definition unvisited (w : world) (st : tstate) : nat :=
  length (filter (λ m, status st m = M_STATUS_NONE) (seq 0 (length (w_mods w)))).

(** What a visit of [m] leaves behind. *)
Definition visited (w : world) (prof : option profile) (st st' : tstate) (m : nat) : Prop :=
  inv w prof st' ∧
  (∃ new, t_profile st' = t_profile st ++ new ∧ Forall (rtc (edge w) m) new) ∧
  (∀ y, status st y ≠ M_STATUS_NONE → status st' y = status st y) ∧
  ((status st' m = M_STATUS_DONE ∧
    ∀ y, status st' y = M_STATUS_DOING ↔ status st y = M_STATUS_DOING) ∨
   (status st' m ≠ M_STATUS_DONE ∧ ∃ y, rtc (edge w) m y ∧ tc (edge w) y y)).

(** ** The state *)

Lemma status_set st m s x :
  status (set_status st m s) x = if decide (x = m) then s else status st x.
Proof.
  unfold status, set_status; cbn. destruct (decide (x = m)) as [->|].
  - by rewrite lookup_insert_eq.
  - by rewrite lookup_insert_ne.
Qed.

Lemma status_json_add st n v x : status (json_add st n v) x = status st x.
Proof. done. Qed.

Lemma filter_length_le {A} (P Q : A → Prop) `{HP : !∀ x, Decision (P x), HQ : !∀ x, Decision (Q x)} l :
  (∀ x, x ∈ l → P x → Q x) → (length (filter P l) ≤ length (filter Q l))%nat.
Proof.
  induction l as [|x l IH]; intros H; [done|]. rewrite !filter_cons.
  assert (length (filter P l) ≤ length (filter Q l))%nat.
  { apply IH. intros y ? ?. apply H; [by right|done]. }
  pose proof (H x ltac:(left)) as Hx.
  destruct (decide (P x)), (decide (Q x)); cbn; try lia. tauto.
Qed.

Lemma filter_length_lt {A} (P Q : A → Prop) `{HP : !∀ x, Decision (P x), HQ : !∀ x, Decision (Q x)} l y :
  (∀ x, x ∈ l → P x → Q x) → y ∈ l → Q y → ¬ P y →
  (length (filter P l) < length (filter Q l))%nat.
Proof.
  intros H Hy HQy HPy. induction l as [|x l IH]; [by apply elem_of_nil in Hy|].
  assert (∀ x, x ∈ l → P x → Q x) as H' by (intros z ? ?; apply H; [by right|done]).
  pose proof (filter_length_le P Q l H'). rewrite !filter_cons.
  apply elem_of_cons in Hy as [<-|Hy].
  - destruct (decide (P y)), (decide (Q y)); cbn; try done; lia.
  - specialize (IH H' Hy). pose proof (H x ltac:(left)) as Hx.
    destruct (decide (P x)), (decide (Q x)); cbn; try lia. tauto.
Qed.

Lemma ordered_snoc w l m :
  ordered w l → (∀ y, edge w m y → y ∈ l) → ordered w (l ++ [m]).
Proof.
  intros Hl Hm l1 x l2 E y Hy.
  destruct l2 as [|z l2 _] using rev_ind.
  - apply app_inj_tail in E as [-> ->]. by apply Hm.
  - rewrite app_comm_cons, (assoc_L (++)) in E. apply app_inj_tail in E as [-> _].
    by eapply Hl.
Qed.

Lemma recorded_snoc w deps d :
  recorded w (deps ++ [d]) = Some (default [] (recorded w deps) ++ [name_of w d]).
Proof.
  destruct deps; [done|]. cbn. by rewrite map_app.
Qed.

Lemma unvisited_mono w st st' :
  (∀ y, status st y ≠ M_STATUS_NONE → status st' y = status st y) →
  (unvisited w st' ≤ unvisited w st)%nat.
Proof.
  intros H. apply filter_length_le. intros y _ Hy.
  destruct (decide (status st y = M_STATUS_NONE)); [done|]. by rewrite <- H.
Qed.

Lemma unvisited_doing w st m :
  (m < length (w_mods w))%nat → status st m = M_STATUS_NONE →
  (unvisited w (set_status st m M_STATUS_DOING) < unvisited w st)%nat.
Proof.
  intros Hm Hs. apply (filter_length_lt _ _ _ m).
  - intros y _. rewrite status_set. by destruct (decide (y = m)).
  - apply elem_of_seq. lia.
  - done.
  - rewrite status_set. by destruct (decide (m = m)).
Qed.

Section traversal.
Context (w : world) (top : nat) (prof : option profile).
Hypothesis (Hg : graph_ok w) (Hn : names_distinct w).

Let n := length (w_mods w).
Let dm (d : nat) : nat := d_mod (dep_at w d).

Definition visit_ok (visit : nat → tstate → outcome tstate) (k : nat) : Prop :=
  ∀ m st, inv w prof st → (m < n)%nat → rtc (edge w) top m → (unvisited w st < k)%nat →
    (∀ y, status st y = M_STATUS_DOING → tc (edge w) y m) →
    (∃ st', visit m st = Ok st' ∧ visited w prof st st' m) ∨ (visit m st = Panic ∧ rejects w top prof).

Definition loop_result (m : nat) (st : tstate)
    (r : (tstate * Z * option (list string)) + tstate) : Prop :=
  let common st' := inv w prof st' ∧
    (∃ new, t_profile st' = t_profile st ++ new ∧ Forall (tc (edge w) m) new) ∧
    (∀ y, status st y ≠ M_STATUS_NONE → status st' y = status st y) in
  match r with
  | inl (st', handled, names) =>
      common st' ∧ (∀ y, status st' y = M_STATUS_DOING ↔ status st y = M_STATUS_DOING) ∧
      handled = Z.of_nat (length (edges w m)) ∧
      (prof = None → names = recorded w (edges w m)) ∧
      (∀ y, edge w m y → status st' y = M_STATUS_DONE) ∧
      (∀ pr, prof = Some pr → ∀ y, edge w m y → verify_dependency (name_of w m) (name_of w y) pr = true)
  | inr st' => common st' ∧ ∃ y, rtc (edge w) m y ∧ tc (edge w) y y
  end.

Lemma loop_result_trans m st st1 new1 r :
  t_profile st1 = t_profile st ++ new1 → Forall (tc (edge w) m) new1 →
  (∀ y, status st y ≠ M_STATUS_NONE → status st1 y = status st y) →
  (∀ y, status st1 y = M_STATUS_DOING ↔ status st y = M_STATUS_DOING) →
  loop_result m st1 r → loop_result m st r.
Proof.
  intros Hnew Hr Hmono Hdoing.
  assert (∀ st', (∃ new, t_profile st' = t_profile st1 ++ new ∧ Forall (tc (edge w) m) new) →
    ∃ new, t_profile st' = t_profile st ++ new ∧ Forall (tc (edge w) m) new) as Hext.
  { intros st' (new & -> & ?). exists (new1 ++ new). rewrite Hnew, (assoc_L (++)).
    by rewrite Forall_app. }
  assert (∀ st', (∀ y, status st1 y ≠ M_STATUS_NONE → status st' y = status st1 y) →
    ∀ y, status st y ≠ M_STATUS_NONE → status st' y = status st y) as Hmono'.
  { intros st' H y Hy. rewrite H; rewrite Hmono; done. }
  destruct r as [[[st' h] names]|st']; cbn.
  - intros ((? & ? & ?) & Hd & ? & ? & ? & ?). split_and!; auto. intros y. by rewrite Hd.
  - intros ((? & ? & ?) & ?). split_and!; auto.
Qed.

Lemma deps_loop_spec visit k m : visit_ok visit k → (m < n)%nat → rtc (edge w) top m → ∀ ds pre names st,
  m_dependencies (mod_at w m) = pre ++ ds →
  inv w prof st → status st m = M_STATUS_DOING → (unvisited w st < k)%nat →
  (∀ y, status st y = M_STATUS_DOING → y = m ∨ tc (edge w) y m) →
  Forall (λ d, status st (dm d) = M_STATUS_DONE) pre →
  (prof = None → names = recorded w (map dm pre)) →
  (∀ pr, prof = Some pr → Forall (λ d, verify_dependency (name_of w m) (name_of w (dm d)) pr = true) pre) →
  (∃ r, deps_loop visit w prof (mod_at w m) ds (Z.of_nat (length pre)) names st = Ok r ∧ loop_result m st r) ∨
  (deps_loop visit w prof (mod_at w m) ds (Z.of_nat (length pre)) names st = Panic ∧ rejects w top prof).
Proof.
  intros Hvisit Hm Htop ds.
  induction ds as [|d ds IH]; intros pre names st Hds Hinv Hdo Hk Hstack Hpre Hnames Hver.
  { left. eexists; split; [done|]. rewrite app_nil_r in Hds.
    assert (edges w m = map dm pre) as He by (unfold edges; by rewrite Hds).
    split; [split; [done|]; split; [exists []; by rewrite app_nil_r|done]|].
    split_and!; [done|by rewrite He, length_map|by rewrite He| |].
    - intros y Hy. unfold edge in Hy. rewrite He in Hy. apply list_elem_of_fmap in Hy as (d & -> & Hd).
      rewrite Forall_forall in Hpre. by apply Hpre.
    - intros pr Epr y Hy. unfold edge in Hy. rewrite He in Hy. apply list_elem_of_fmap in Hy as (d & -> & Hd).
      specialize (Hver pr Epr). rewrite Forall_forall in Hver. by apply Hver. }
  assert (edge w m (dm d)) as Hed.
  { unfold edge, edges. apply list_elem_of_fmap. exists d. rewrite Hds. split; [done|].
    apply elem_of_app. right. left. }
  cbn [deps_loop]. fold (dm d).
  destruct (Hvisit (dm d) st) as [(st1 & -> & Hinv1 & (new1 & Hnew1 & Hreach1) & Hmono1 & Hcase)|[-> Hrej]];
    [done| |by eapply rtc_r|done| | |by right].
  { destruct (Hg m Hm) as [Hf _]. rewrite Forall_forall in Hf. by apply Hf. }
  { intros y [->|Hy]%Hstack; [by apply tc_once|]. by eapply tc_r. }
  cbn [mbind outcome_bind].
  assert (Forall (tc (edge w) m) new1) as Hr1.
  { eapply Forall_impl; [exact Hreach1|]. intros x. by apply tc_rtc_r, tc_once. }
  destruct Hcase as [[Hdone Hdoing]|(Hfail & y & Hy & Hcyc)].
  2:{ left. rewrite bool_decide_eq_false_2 by done. eexists; split; [done|]. split; [|].
      - split_and!; [done|by exists new1|done].
      - exists y. split; [|done]. by eapply rtc_l. }
  rewrite bool_decide_eq_true_2 by done.
  assert (∀ names', (prof = None → names' = recorded w (map dm (pre ++ [d]))) →
    (∀ pr, prof = Some pr → verify_dependency (name_of w m) (name_of w (dm d)) pr = true) →
    (∃ r, deps_loop visit w prof (mod_at w m) ds (Z.of_nat (length pre) + 1) names' st1 = Ok r ∧ loop_result m st r) ∨
    (deps_loop visit w prof (mod_at w m) ds (Z.of_nat (length pre) + 1) names' st1 = Panic ∧ rejects w top prof)) as Hnext.
  { intros names' Hnames' Hver'. replace (Z.of_nat (length pre) + 1) with (Z.of_nat (length (pre ++ [d]))) by (rewrite length_app; cbn; lia).
    destruct (IH (pre ++ [d]) names' st1) as [(r & Hr & Hres)|Hrej].
    - by rewrite <- (assoc_L (++)).
    - done.
    - by rewrite Hmono1; rewrite Hdo.
    - pose proof (unvisited_mono w st st1 Hmono1). lia.
    - intros y. rewrite Hdoing. apply Hstack.
    - apply Forall_app. split; [|by repeat constructor].
      eapply Forall_impl; [exact Hpre|]. cbn. intros x Hx. by rewrite Hmono1; rewrite Hx.
    - done.
    - intros pr Epr. apply Forall_app. split; [by apply Hver|]. by repeat constructor; apply Hver'.
    - left. exists r. split; [done|]. by eapply loop_result_trans.
    - by right. }
  destruct prof as [pr|] eqn:Eprof.
  - fold (name_of w m) (name_of w (dm d)). destruct (verify_dependency (name_of w m) (name_of w (dm d)) pr) eqn:Hv.
    + apply Hnext; [done|]. by intros pr' [= <-].
    + right. split; [done|]. by exists pr, m, (dm d).
  - apply Hnext; [|done]. intros _. rewrite map_app, (Hnames eq_refl). cbn. by rewrite recorded_snoc.
Qed.

Lemma profile_room st m :
  inv w prof st → (m < n)%nat → m ∉ t_profile st → (length (t_profile st) < n)%nat.
Proof.
  intros [Hnd Hb _ _ _ _] Hm Hnin.
  assert (length (m :: t_profile st) ≤ length (seq 0 n))%nat as H; [|rewrite length_seq in H; cbn in H; lia].
  apply submseteq_length, NoDup_submseteq; [by constructor|].
  intros x [->|Hx]%elem_of_cons; apply elem_of_seq; [lia|].
  rewrite Forall_forall in Hb. specialize (Hb x Hx). lia.
Qed.

Lemma inv_doing st m :
  inv w prof st → status st m = M_STATUS_NONE → inv w prof (set_status st m M_STATUS_DOING).
Proof.
  intros [? ? Hd ? ? ?] Hs. split; try done. intros x. rewrite status_set.
  destruct (decide (x = m)) as [->|]; [|apply Hd].
  split; [done|]. intros Hx%Hd. by rewrite Hs in Hx.
Qed.

(** Without a profile the dependencies are recorded in a new one. *)
Definition record_deps (st : tstate) (m : nat) (names : option (list string)) : tstate :=
  match prof with Some _ => st | None => json_add st (name_of w m) names end.

(** Finishing a module all of whose dependencies are done. *)
Lemma inv_finish st m st' names :
  inv w prof st → (m < n)%nat → status st m = M_STATUS_DOING →
  (∀ y, edge w m y → status st y = M_STATUS_DONE) →
  (prof = None → names = recorded w (edges w m)) →
  (∀ pr, prof = Some pr → ∀ y, edge w m y → verify_dependency (name_of w m) (name_of w y) pr = true) →
  st' = set_status (record_deps st m names) m M_STATUS_DONE →
  inv w prof (MkT (t_status st') (t_json st') (t_profile st' ++ [m])).
Proof.
  intros [Hnd Hb Hd Ho Hj Hv] Hm Hs Hdeps Hnames Hver ->.
  assert (m ∉ t_profile st) as Hnin by (rewrite <- Hd, Hs; done).
  assert (t_profile (set_status (record_deps st m names)
    m M_STATUS_DONE) = t_profile st) as Hp by (unfold record_deps; by destruct prof).
  split; cbn [t_profile t_json t_status]; rewrite ?Hp.
  - apply NoDup_app. split_and!; [done| |apply NoDup_singleton].
    intros x Hx ->%list_elem_of_singleton. done.
  - apply Forall_app. split; [done|by repeat constructor].
  - intros x. change (status (MkT ?a ?b ?c) x) with (status (MkT a b []) x).
    unfold status; cbn. rewrite elem_of_app, list_elem_of_singleton.
    destruct (decide (x = m)) as [->|Hne].
    + rewrite lookup_insert_eq. cbn. tauto.
    + rewrite lookup_insert_ne by done. unfold record_deps. destruct prof; cbn; rewrite <- Hd; unfold status; tauto.
  - apply ordered_snoc; [done|]. intros y Hy. by apply Hd, Hdeps.
  - intros E. unfold record_deps. rewrite E in *. cbn. intros x Hx%elem_of_app.
    destruct (decide (x = m)) as [->|Hne]; [by rewrite lookup_insert_eq, (Hnames eq_refl)|].
    destruct Hx as [Hx|Hx%list_elem_of_singleton]; [|done].
    rewrite lookup_insert_ne; [by apply Hj|]. intros En. apply Hne.
    rewrite Forall_forall in Hb. by apply Hn; [apply Hb|exact Hm|].
  - intros pr Epr x y [Hx| ->%list_elem_of_singleton]%elem_of_app Hxy; [by apply (Hv pr Epr)|by apply Hver].
Qed.

(** What the statuses say while [m] is being visited. *)
Lemma doing_iff st m y :
  status (set_status st m M_STATUS_DOING) y = M_STATUS_DOING ↔ y = m ∨ status st y = M_STATUS_DOING.
Proof. rewrite status_set. destruct (decide (y = m)); tauto. Qed.

Lemma doing_kept st st' m :
  status st m = M_STATUS_NONE →
  (∀ y, status (set_status st m M_STATUS_DOING) y ≠ M_STATUS_NONE →
        status st' y = status (set_status st m M_STATUS_DOING) y) →
  ∀ y, status st y ≠ M_STATUS_NONE → status st' y = status st y.
Proof.
  intros Hs H y Hy. assert (y ≠ m) by (by intros ->).
  assert (status (set_status st m M_STATUS_DOING) y = status st y) as E
    by (rewrite status_set; by destruct (decide (y = m))).
  rewrite H; rewrite E; done.
Qed.

(** The end of a visit whose dependencies are all done. *)
Lemma visited_done st m st1 handled names st2 :
  (m < n)%nat → status st m = M_STATUS_NONE →
  loop_result m (set_status st m M_STATUS_DOING) (inl (st1, handled, names)) →
  st2 = set_status (record_deps st1 m names) m M_STATUS_DONE →
  visited w prof st (MkT (t_status st2) (t_json st2) (t_profile st2 ++ [m])) m.
Proof.
  intros Hm Hs ((Hinv1 & (new & Hnew & Hr) & Hmono) & Hdoing & _ & Hnames & Hdeps & Hver) Est2.
  assert (status st1 m = M_STATUS_DOING) as Hs1 by (apply Hdoing, doing_iff; by left).
  assert (t_profile st2 = t_profile st1) as Hp2 by (rewrite Est2; unfold record_deps; by destruct prof).
  assert (∀ y, status (MkT (t_status st2) (t_json st2) (t_profile st2 ++ [m])) y =
    if decide (y = m) then M_STATUS_DONE else status st1 y) as Hstat.
  { intros y. change (status st2 y = if decide (y = m) then M_STATUS_DONE else status st1 y).
    rewrite Est2, status_set. unfold record_deps. by destruct prof. }
  split_and!.
  - by eapply inv_finish.
  - exists (new ++ [m]). cbn. rewrite Hp2, Hnew, (assoc_L (++)). split; [done|].
    apply Forall_app. split; [|by repeat constructor].
    eapply Forall_impl; [exact Hr|]. apply tc_rtc.
  - intros y Hy. rewrite Hstat. destruct (decide (y = m)) as [->|]; [done|]. by apply (doing_kept st st1 m).
  - left. rewrite Hstat. split; [by destruct (decide (m = m))|]. intros y. rewrite Hstat.
    destruct (decide (y = m)) as [->|Hne]; [by rewrite Hs|]. rewrite Hdoing, doing_iff. tauto.
Qed.

(** The end of a visit that met a cycle. *)
Lemma visited_cycle st m st1 :
  status st m = M_STATUS_NONE → loop_result m (set_status st m M_STATUS_DOING) (inr st1) → visited w prof st st1 m.
Proof.
  intros Hs ((Hinv1 & (new & Hnew & Hr) & Hmono) & Hcyc). split_and!.
  - done.
  - exists new. split; [done|]. eapply Forall_impl; [exact Hr|]. apply tc_rtc.
  - by apply (doing_kept st st1 m).
  - right. split; [|done]. rewrite Hmono; rewrite status_set; by destruct (decide (m = m)).
Qed.

Lemma traverse_spec fuel : visit_ok (traverse_dependency fuel w prof n) fuel.
Proof.
  induction fuel as [|fuel IH]; intros m st Hinv Hm Htop Hf Hstack; [lia|].
  cbn [traverse_dependency].
  destruct (status st m) eqn:Hs.
  2:{ left. exists st. split; [done|]. split_and!; [done|exists []; by rewrite app_nil_r|done|].
      right. split; [by rewrite Hs|]. exists m. split; [done|]. by apply Hstack. }
  2:{ left. exists st. split; [done|]. split_and!; [done|exists []; by rewrite app_nil_r|done|]. by left. }
  destruct (deps_loop_spec _ fuel m IH Hm Htop (m_dependencies (mod_at w m)) [] None (set_status st m M_STATUS_DOING))
    as [(r & Hl & Hres)|[Hl Hrej]]; [done|by apply inv_doing|by apply doing_iff; left| | |constructor|done|by constructor| |].
  { pose proof (unvisited_doing w st m Hm Hs). lia. }
  { intros y [->|Hy]%doing_iff; [by left|right; by apply Hstack]. }
  2:{ right. change (Z.of_nat (length [])) with 0 in Hl. by rewrite Hl. }
  left. change (Z.of_nat (length [])) with 0 in Hl. rewrite Hl. cbn [mbind outcome_bind].
  destruct r as [[[st1 handled] names]|st1]; [|by exists st1; split; [|apply visited_cycle]].
  pose proof Hres as ((Hinv1 & _) & Hdoing & -> & _).
  assert (m ∉ t_profile st1) as Hnin.
  { rewrite <- (inv_done _ _ _ Hinv1). rewrite (proj2 (Hdoing m)); [done|]. apply doing_iff. by left. }
  pose proof (profile_room _ _ Hinv1 Hm Hnin) as Hroom.
  destruct (Hg m Hm) as [_ Hnum]. unfold edges. rewrite length_map, Hnum, Z.eqb_refl. cbn [negb].
  set (st2 := set_status _ m M_STATUS_DONE).
  assert (st2 = set_status (record_deps st1 m names) m M_STATUS_DONE)
    as Est2 by (unfold st2, record_deps; by destruct prof).
  assert (t_profile st2 = t_profile st1) as Hp2 by (rewrite Est2; unfold record_deps; by destruct prof).
  clearbody st2. unfold sort_func. rewrite bool_decide_eq_false_2 by (rewrite Hp2; lia).
  eexists; split; [done|]. by eapply visited_done.
Qed.
End traversal.

(** ** From a top component *)

Definition fresh : tstate := MkT ∅ ∅ [].

Lemma ordered_prefix w l1 l2 : ordered w (l1 ++ l2) → ordered w l1.
Proof.
  intros H a x b -> y Hy. eapply (H a x (b ++ l2)); [|done]. by rewrite <- (assoc_L (++)).
Qed.

Lemma ordered_below w l l1 x l2 z :
  ordered w l → l = l1 ++ x :: l2 → tc (edge w) x z → z ∈ l1.
Proof.
  intros Ho -> Hz. revert l1 l2 Ho. induction Hz as [x y Hxy|x y z Hxy _ IH]; intros l1 l2 Ho.
  - by eapply Ho.
  - assert (y ∈ l1) as Hy by (by eapply Ho). apply list_elem_of_split in Hy as (a & b & ->).
    apply elem_of_app. left. apply (IH a b). by eapply ordered_prefix.
Qed.

Lemma ordered_closed w l x y : ordered w l → x ∈ l → rtc (edge w) x y → y ∈ l.
Proof.
  intros Ho Hx Hr. induction Hr as [|x y z Hxy _ IH]; [done|]. apply IH.
  apply list_elem_of_split in Hx as (a & b & ->). apply elem_of_app. left. by eapply Ho.
Qed.

Lemma ordered_acyclic w l x y :
  ordered w l → NoDup l → x ∈ l → rtc (edge w) x y → ¬ tc (edge w) y y.
Proof.
  intros Ho Hnd Hx Hr Hc. pose proof (ordered_closed _ _ _ _ Ho Hx Hr) as Hy.
  apply list_elem_of_split in Hy as (a & b & ->).
  pose proof (ordered_below _ _ _ _ _ _ Ho eq_refl Hc) as Ha.
  apply NoDup_app in Hnd as (_ & H & _). apply (H y Ha). left.
Qed.

Definition cycle_below (w : world) (top : nat) : Prop :=
  ∃ y, rtc (edge w) top y ∧ tc (edge w) y y.

(** [l] lists what [top] needs, dependencies first. *)
Definition load_order (w : world) (top : nat) (l : list nat) : Prop :=
  NoDup l ∧ ordered w l ∧ ∀ x, x ∈ l ↔ rtc (edge w) top x.

Lemma traverse_fresh w top prof :
  graph_ok w → names_distinct w → (top < length (w_mods w))%nat →
  let run := traverse_dependency (S (length (w_mods w))) w prof (length (w_mods w)) top fresh in
  (∃ st, run = Ok st ∧
    ((status st top = M_STATUS_DONE ∧ ¬ cycle_below w top ∧ load_order w top (t_profile st) ∧ accepts w top prof ∧
      (prof = None → ∀ x, rtc (edge w) top x →
         t_json st !! name_of w x = Some (recorded w (edges w x)))) ∨
     (status st top ≠ M_STATUS_DONE ∧ cycle_below w top))) ∨
  (run = Panic ∧ ¬ accepts w top prof).
Proof.
  intros Hg Hn Htop. cbv zeta.
  destruct (traverse_spec w top prof Hg Hn (S (length (w_mods w))) top fresh)
    as [(st & Hrun & Hinv & (new & Hnew & Hr) & _ & Hcase)|[Hrun Hrej]]; [|done|done| |done| |].
  - split; cbn.
    + apply NoDup_nil_2.
    + constructor.
    + intros m. unfold status; cbn. rewrite lookup_empty. split; [done|by intros ?%elem_of_nil].
    + intros l1 x l2 E. by destruct l1.
    + intros _ x Hx. by apply elem_of_nil in Hx.
    + intros pr _ x y Hx. by apply elem_of_nil in Hx.
  - unfold unvisited. pose proof (length_filter (λ m, status fresh m = M_STATUS_NONE)
      (seq 0 (length (w_mods w)))). rewrite length_seq in *. lia.
  - left. exists st. split; [done|]. destruct Hcase as [[Hd _]|[Hf Hc]]; [left|by right].
    pose proof Hinv as [Hnd _ Hdone Ho Hj Hv]. assert (top ∈ t_profile st) as Hin by (by apply Hdone).
    assert (∀ x, x ∈ t_profile st ↔ rtc (edge w) top x) as Hreach.
    { intros x. split; [|by eapply ordered_closed]. rewrite Hnew. cbn. intros Hx.
      rewrite Forall_forall in Hr. by apply Hr. }
    split; [done|]. split; [|split; [done|split]].
    + intros (y & Hy & Hc). by eapply ordered_acyclic.
    + destruct prof as [pr|]; [|done]. intros x y Hx. apply (Hv pr eq_refl). by apply Hreach.
    + intros E x Hx. apply Hj; [done|]. by apply Hreach.
  - right. split; [done|]. by apply rejects_accepts.
Qed.

(** C31: on any set of components with valid links and distinct names, starting
    with no status set, [traverse_dependency] terminates, in one of three ways.
    The top component is done: there is no cycle below it, the callback saw
    exactly the components it needs, each once and after everything it depends
    on, and the existing profile, if there is one, allows every dependency. Or it
    is not done, and then there is a cycle below it. Or the tool exits (-1),
    which it does only while verifying against an existing profile that lacks a
    dependency below the top component. *)
Theorem traverse_dependency_correct w top prof :
  graph_ok w → names_distinct w → (top < length (w_mods w))%nat →
  let run := traverse_dependency (S (length (w_mods w))) w prof (length (w_mods w)) top fresh in
  (∃ st, run = Ok st ∧ status st top = M_STATUS_DONE ∧ ¬ cycle_below w top ∧ load_order w top (t_profile st) ∧
         accepts w top prof) ∨
  (∃ st, run = Ok st ∧ status st top ≠ M_STATUS_DONE ∧ cycle_below w top) ∨
  (run = Panic ∧ ¬ accepts w top prof).
Proof.
  intros Hg Hn Htop run. destruct (traverse_fresh w top prof Hg Hn Htop) as [(st & Hr & [(? & ? & ? & ? & _)|[? ?]])|?]; [| |by right; right].
  - left. by exists st.
  - right. left. by exists st.
Qed.

(** Four components: 0 needs 1 and 2, 1 needs 3, 2 needs 3 and 1. *)
Definition diamond : world :=
  MkWorld
    [MkModule "top.ko" [] [0; 1]%nat 2; MkModule "a.ko" [] [2]%nat 1;
     MkModule "b.ko" [] [3; 4]%nat 2; MkModule "lds" [] [] 0]
    [0; 1; 2]%nat []
    [MkDepend 1 0 None; MkDepend 2 0 None; MkDepend 3 0 None;
     MkDepend 3 0 None; MkDepend 1 0 None] [].

Lemma diamond_graph_ok : graph_ok diamond.
Proof.
  intros [|[|[|[|m]]]] Hm; cbn in Hm |- *; try lia;
    (split; [repeat (apply Forall_cons; split; [cbn; lia|]); constructor|done]).
Qed.

Lemma diamond_names : names_distinct diamond.
Proof.
  intros [|[|[|[|x]]]] [|[|[|[|y]]]] Hx Hy; cbn in Hx, Hy |- *; try lia; done.
Qed.

(** Verifying against a profile that lacks what "b.ko" needs. *)
Definition short_profile : profile := λ name, if String.eqb name "b.ko" then [] else ["a.ko"; "b.ko"]%string.

Lemma traverse_dependency_correct_witness :
  traverse_dependency 5 diamond (Some short_profile) 4 0 fresh = Panic ∧ ¬ accepts diamond 0 (Some short_profile).
Proof.
  assert (traverse_dependency 5 diamond (Some short_profile) 4 0 fresh = Panic) as E by (vm_compute; reflexivity).
  destruct (traverse_dependency_correct diamond 0 (Some short_profile)) as [(st & H & _)|[(st & H & _)|[_ H]]].
  - apply diamond_graph_ok.
  - apply diamond_names.
  - cbn; lia.
  - change (traverse_dependency 5 diamond (Some short_profile) 4 0 fresh = Ok st) in H. congruence.
  - change (traverse_dependency 5 diamond (Some short_profile) 4 0 fresh = Ok st) in H. congruence.
  - exact (conj E H).
Defined.

Lemma prefix_refl s : String.prefix s s = true.
Proof.
  induction s as [|c s IH]; [done|]. cbn. by destruct (Ascii.ascii_dec c c).
Qed.

(** The profile written by a run, as the next run reads it: an absent entry or
    null has no elements. *)
Definition saved_profile (st : tstate) : profile :=
  λ name, default [] (default None (t_json st !! name)).

(** A profile created by a run is accepted by the next one: verifying
    against it exits nowhere, ends with the top component done and visits the
    same components. *)
Theorem created_profile_verifies w top st :
  graph_ok w → names_distinct w → (top < length (w_mods w))%nat →
  let n := length (w_mods w) in
  traverse_dependency (S n) w None n top fresh = Ok st → status st top = M_STATUS_DONE →
  ∃ st', traverse_dependency (S n) w (Some (saved_profile st)) n top fresh = Ok st' ∧
         status st' top = M_STATUS_DONE ∧
         ∀ x, x ∈ t_profile st' ↔ x ∈ t_profile st.
Proof.
  intros Hg Hn Htop. cbv zeta. intros Hrun Hdone.
  destruct (traverse_fresh w top None Hg Hn Htop) as [(st0 & Hrun0 & Hcase)|[Hrun0 _]]; [|congruence].
  rewrite Hrun in Hrun0. injection Hrun0 as <-.
  destruct Hcase as [(_ & Hac & (_ & _ & Hl) & _ & Hj)|[? _]]; [|done].
  assert (accepts w top (Some (saved_profile st))) as Hacc.
  { intros x y Hx Hxy. unfold verify_dependency. destruct (String.prefix _ _); [done|].
    apply existsb_exists. exists (name_of w y). split; [|apply prefix_refl].
    unfold saved_profile. rewrite (Hj eq_refl x Hx). cbn. unfold edge in Hxy.
    destruct (edges w x) as [|e es] eqn:E; [by apply elem_of_nil in Hxy|]. cbn [recorded default].
    apply in_map. by apply list_elem_of_In. }
  destruct (traverse_fresh w top (Some (saved_profile st)) Hg Hn Htop) as [(st' & -> & Hcase)|[_ ?]]; [|done].
  exists st'. destruct Hcase as [(? & _ & (_ & _ & Hl') & _)|[_ ?]]; [|done].
  split_and!; [done..|]. intros x. by rewrite Hl, Hl'.
Qed.

Lemma created_profile_verifies_witness :
  ∃ st st', traverse_dependency 5 diamond None 4 0 fresh = Ok st ∧
    traverse_dependency 5 diamond (Some (saved_profile st)) 4 0 fresh = Ok st' ∧
    status st' 0%nat = M_STATUS_DONE ∧ ∀ x, x ∈ t_profile st' ↔ x ∈ t_profile st.
Proof.
  eexists. edestruct (created_profile_verifies diamond 0) as (st' & H);
    [apply diamond_graph_ok|apply diamond_names|cbn; lia|vm_compute; reflexivity|reflexivity|].
  exists st'. split; [vm_compute; reflexivity|exact H].
Defined.
