(* ===== verification/FindDepMatch.v ===== *)
(** * Component dependencies: matching symbols

    Resolving the undefined symbols of every component gives exactly the edges
    from a component to the providers of its symbols, terminates when no
    component exports a name twice, and does not otherwise. *)

From Stdlib Require Import ZArith Lia Ascii String.
From stdpp Require Import base numbers list option gmap strings relations sorting.
From S2P Require Import Prelude FindDep FindDepSpec.
Import FindDep.

Open Scope Z_scope.

Definition deps_of (w : world) (m : nat) : list nat := m_dependencies (mod_at w m).
Definition dmod (w : world) (d : nat) : nat := d_mod (dep_at w d).

(** The [depend] objects of [m]: valid, one per provider, and a [next] pointer
    leads to a provider that comes earlier among the modules. *)
Record deps_ok (w : world) (m : nat) : Prop := {
  deps_mod : (m < length (w_mods w))%nat;
  deps_valid : Forall (λ d, (d < length (w_heap w))%nat) (deps_of w m);
  deps_nodup : NoDup (edges w m);
  deps_num : m_num_dependencies (mod_at w m) = Z.of_nat (length (deps_of w m));
  deps_next : ∀ d e, d ∈ deps_of w m → d_next (dep_at w d) = Some e →
    e ∈ deps_of w m ∧ (dmod w e < dmod w d)%nat;
}.

(** The exported symbols, in the order of the modules, no name twice in one. *)
Definition sym_before (name : string) (s1 s2 : symbol) : Prop :=
  s_name s1 = name → s_name s2 = name → (s_mod s1 < s_mod s2)%nat.

Definition symbols_ok (syms : list symbol) : Prop :=
  ∀ name, StronglySorted (sym_before name) syms.

(** [w'] is [w] with more dependencies of [m], other fix-ups, flags and
    candidate links. *)
Definition grown (w w' : world) (m : nat) : Prop :=
  w_symbols w' = w_symbols w ∧ length (w_mods w') = length (w_mods w) ∧
  w_modules w' = w_modules w ∧
  (∀ x, x ≠ m → mod_at w' x = mod_at w x) ∧
  (length (w_heap w) ≤ length (w_heap w'))%nat ∧
  (∀ d, (d < length (w_heap w))%nat → dmod w' d = dmod w d).

Definition providers (syms : list symbol) (name : string) (x : nat) : Prop :=
  ∃ s, s ∈ syms ∧ s_name s = name ∧ s_mod s = x.

Lemma grown_refl w m : grown w w m.
Proof. by unfold grown. Qed.

Lemma grown_trans w1 w2 w3 m : grown w1 w2 m → grown w2 w3 m → grown w1 w3 m.
Proof.
  intros (? & ? & ? & Hm1 & ? & Hd1) (? & ? & ? & Hm2 & ? & Hd2). unfold grown.
  split_and!; try congruence; try lia.
  - intros x Hx. by rewrite Hm2, Hm1.
  - intros d Hd. rewrite Hd2, Hd1 by lia. done.
Qed.

Lemma dep_at_set w d v e :
  (d < length (w_heap w))%nat →
  dep_at (set_dep w d v) e = if decide (e = d) then v else dep_at w e.
Proof.
  intros Hd. unfold dep_at, set_dep; cbn. destruct (decide (e = d)) as [->|].
  - by rewrite list_lookup_insert_eq.
  - by rewrite list_lookup_insert_ne.
Qed.

Lemma mod_at_set w m v x :
  (m < length (w_mods w))%nat → mod_at (set_mod w m v) x = if decide (x = m) then v else mod_at w x.
Proof.
  intros Hd. unfold mod_at, set_mod; cbn. destruct (decide (x = m)) as [->|].
  - by rewrite list_lookup_insert_eq.
  - by rewrite list_lookup_insert_ne.
Qed.

Lemma elem_of_edges w m x : x ∈ edges w m ↔ ∃ d, d ∈ deps_of w m ∧ dmod w d = x.
Proof.
  unfold edges. rewrite list_elem_of_fmap. split; intros (d & ? & ?); eauto.
Qed.

Lemma find_dependency_in_spec w deps target :
  match find_dependency_in w deps target with
  | Some d => d ∈ deps ∧ dmod w d = target
  | None => ∀ d, d ∈ deps → dmod w d ≠ target
  end.
Proof.
  induction deps as [|d deps IH]; cbn; [by intros d ?%elem_of_nil|].
  case_bool_decide as E; [split; [left|done]|].
  destruct (find_dependency_in w deps target) as [d'|].
  - destruct IH. split; [by right|done].
  - intros e [->|He]%elem_of_cons; [done|by apply IH].
Qed.

(** Appending a fresh [depend] for the provider of [sym]. *)
Lemma on_match_new w m x :
  deps_ok w m → ¬ (∃ d, d ∈ deps_of w m ∧ dmod w d = x) →
  let d := length (w_heap w) in
  let v := mod_at w m in
  let w' := set_mod (MkWorld (w_mods w) (w_modules w) (w_symbols w)
                       (w_heap w ++ [MkDepend x 0 None]) (w_fixups w)) m
              (MkModule (m_name v) (m_undef_syms v) (m_dependencies v ++ [d])
                 (m_num_dependencies v + 1)) in
  grown w w' m ∧ deps_ok w' m ∧ edges w' m = edges w m ++ [x] ∧
  deps_of w' m = deps_of w m ++ [d] ∧ dmod w' d = x ∧
  m_undef_syms (mod_at w' m) = m_undef_syms v.
Proof.
  intros [Hm Hv Hnd Hnum Hnext] Hno d v w'.
  assert (∀ e, (e < d)%nat → dep_at w' e = dep_at w e) as Hold.
  { intros e He. unfold dep_at, w'; cbn. by rewrite lookup_app_l. }
  assert (dep_at w' d = MkDepend x 0 None) as Hnew.
  { unfold dep_at, w'; cbn. by rewrite list_lookup_middle. }
  assert (mod_at w' m = MkModule (m_name v) (m_undef_syms v) (m_dependencies v ++ [d])
    (m_num_dependencies v + 1)) as Hmod.
  { unfold w'. rewrite mod_at_set by done. by destruct (decide (m = m)). }
  assert (deps_of w' m = deps_of w m ++ [d]) as Hdeps by (unfold deps_of at 1; by rewrite Hmod).
  assert (edges w' m = edges w m ++ [x]) as Hedges.
  { unfold edges. fold (deps_of w' m). fold (deps_of w m). rewrite Hdeps, map_app. cbn.
    rewrite Hnew. cbn. f_equal. apply map_ext_in. intros e He%list_elem_of_In.
    rewrite Forall_forall in Hv. by rewrite Hold by (by apply Hv). }
  assert (length (w_mods w') = length (w_mods w)) as Hlm by (unfold w'; cbn; by rewrite length_insert).
  assert (length (w_heap w') = S d) as Hlh by (unfold w'; cbn; rewrite length_app; cbn; lia).
  split; [|split; [|split_and!]]; try done.
  - unfold grown. split_and!; [done|done|done| |lia|].
    + intros y Hy. unfold w'. rewrite mod_at_set by done. by destruct (decide (y = m)).
    + intros e He. unfold dmod. by rewrite Hold.
  - split; [by rewrite Hlm|..].
    + rewrite Hdeps, Hlh. apply Forall_app. split.
      * eapply Forall_impl; [exact Hv|]. cbn. unfold d. lia.
      * constructor; [lia|constructor].
    + rewrite Hedges. apply NoDup_app. split_and!; [done| |apply NoDup_singleton].
      intros y Hy ->%list_elem_of_singleton. apply Hno. by apply elem_of_edges.
    + rewrite Hdeps, Hmod, length_app. cbn. unfold v. rewrite Hnum. lia.
    + rewrite Hdeps. intros e f [He|He%list_elem_of_singleton]%elem_of_app.
      * rewrite Forall_forall in Hv. pose proof (Hv e He) as Hlt. rewrite Hold by done. intros Hf.
        destruct (Hnext e f He Hf) as [Hf' ?]. pose proof (Hv f Hf').
        unfold dmod in *. rewrite !Hold by done. split; [apply elem_of_app; by left|done].
      * subst e. by rewrite Hnew.
  - unfold dmod. by rewrite Hnew.
  - by rewrite Hmod.
Qed.

(** Linking [cur] to an earlier candidate [h]. *)
Lemma link_ok w m cur h :
  deps_ok w m → cur ∈ deps_of w m → h ∈ deps_of w m → (dmod w h < dmod w cur)%nat →
  let v := dep_at w cur in
  let w' := set_dep w cur (MkDepend (d_mod v) (d_flags v) (Some h)) in
  grown w w' m ∧ deps_ok w' m ∧ edges w' m = edges w m ∧ deps_of w' m = deps_of w m ∧
  mod_at w' m = mod_at w m ∧ ∀ d, dmod w' d = dmod w d.
Proof.
  intros [Hm Hv Hnd Hnum Hnext] Hc Hh Hlt v w'.
  pose proof Hv as Hv'. rewrite Forall_forall in Hv'. pose proof (Hv' cur Hc) as Hcur.
  assert (∀ d, dmod w' d = dmod w d) as Hd.
  { intros d. unfold dmod, w'. rewrite dep_at_set by done. by destruct (decide (d = cur)) as [->|]. }
  assert (edges w' m = edges w m) as He by (apply map_ext; intros d; apply Hd).
  split; [|split; [|done]].
  - unfold grown, w'; cbn. rewrite length_insert. split_and!; try done; intros d _; apply Hd.
  - split; [done| |by rewrite He|done|].
    + unfold w'; cbn. by rewrite length_insert.
    + intros d e Hdd. change (deps_of w' m) with (deps_of w m). rewrite !Hd.
      unfold w'. rewrite dep_at_set by done. destruct (decide (d = cur)) as [->|]; [|by apply Hnext].
      cbn. intros [= <-]. done.
Qed.

Lemma on_match_spec w m s :
  deps_ok w m →
  let '(w', cur) := on_match w m s in
  grown w w' m ∧ deps_ok w' m ∧ (∀ x, edge w' m x ↔ edge w m x ∨ x = s_mod s) ∧
  cur ∈ deps_of w' m ∧ dmod w' cur = s_mod s ∧
  (∀ d, d ∈ deps_of w m → d ∈ deps_of w' m) ∧
  m_undef_syms (mod_at w' m) = m_undef_syms (mod_at w m).
Proof.
  intros Hok. unfold on_match, find_dependency.
  pose proof (find_dependency_in_spec w (m_dependencies (mod_at w m)) (s_mod s)) as Hfind.
  destruct (find_dependency_in _ _ _) as [d|].
  - destruct Hfind as [Hd Hmod]. split_and!; try done. intros x. split; [by left|].
    intros [?| ->]; [done|]. apply elem_of_edges. by exists d.
  - destruct (on_match_new w m (s_mod s) Hok) as (? & ? & He & Hd & ? & ?).
    { intros (d & Hd & Hx). by apply (Hfind d). }
    split_and!; try done.
    + intros x. unfold edge. by rewrite He, elem_of_app, list_elem_of_singleton.
    + rewrite Hd. apply elem_of_app. right. by apply list_elem_of_singleton.
    + intros d ?. rewrite Hd. apply elem_of_app. by left.
Qed.

Lemma match_loop_spec name m : ∀ syms w head,
  deps_ok w m → StronglySorted (sym_before name) syms →
  (∀ h, head = Some h → h ∈ deps_of w m ∧
     Forall (λ s, s_name s = name → (dmod w h < s_mod s)%nat) syms) →
  let '(w', head') := match_loop name m syms w head in
  grown w w' m ∧ deps_ok w' m ∧
  (∀ x, edge w' m x ↔ edge w m x ∨ providers syms name x) ∧
  (∀ h, head' = Some h → h ∈ deps_of w' m) ∧
  m_undef_syms (mod_at w' m) = m_undef_syms (mod_at w m).
Proof.
  induction syms as [|s syms IH]; intros w head Hok Hs Hhead; cbn [match_loop].
  { split_and!; try done.
    - intros x. split; [by left|]. intros [?|(s & Hs' & _)]; [done|by apply elem_of_nil in Hs'].
    - intros h Hh. by apply Hhead. }
  apply StronglySorted_inv in Hs as [Hs Hf].
  destruct (String.eqb_spec (s_name s) name) as [E|E].
  2:{ specialize (IH w head Hok Hs). destruct (match_loop name m syms w head) as [w' head'].
      destruct IH as (? & ? & Hx & ? & ?).
      { intros h Hh. destruct (Hhead h Hh) as [? Hfh]. split; [done|]. by inversion Hfh. }
      split_and!; try done. intros x. rewrite Hx. split; (intros [?|(s' & Hin & ? & ?)]; [by left|]).
      - right. exists s'. split; [by right|done].
      - apply elem_of_cons in Hin as [->|Hin]; [done|]. right. by exists s'. }
  pose proof (on_match_spec w m s Hok) as Hon. destruct (on_match w m s) as [w1 cur].
  destruct Hon as (Hg1 & Hok1 & He1 & Hcur & Hdm & Hkeep & Hu1).
  assert (∀ x, providers (s :: syms) name x ↔ x = s_mod s ∨ providers syms name x) as Hprov.
  { intros x. split.
    - intros (s' & [->|Hin]%elem_of_cons & ? & ?); [by left|right; by exists s'].
    - intros [->|(s' & ? & ? & ?)]; [exists s; split; [left|done]|exists s'; split; [by right|done]]. }
  assert (∀ w2, (∀ d, dmod w2 d = dmod w1 d) →
    Forall (λ s, s_name s = name → (dmod w2 cur < s_mod s)%nat) syms) as Hlater.
  { intros w2 Hd2. eapply Forall_impl; [exact Hf|]. intros s' Hb Hs'. rewrite Hd2, Hdm. by apply Hb. }
  destruct head as [h|].
  - destruct (Hhead h eq_refl) as [Hh Hlt]. apply Forall_cons in Hlt as [Hlt _].
    assert (dmod w1 h = dmod w h) as Hdh.
    { apply Hg1. destruct Hok as [_ Hv _ _ _]. rewrite Forall_forall in Hv. by apply Hv. }
    destruct (link_ok w1 m cur h Hok1 Hcur (Hkeep h Hh)) as (Hg2 & Hok2 & He2 & Hd2 & Hm2 & Hdm2).
    { rewrite Hdh, Hdm. by apply Hlt. }
    set (w2 := set_dep w1 cur _) in *. clearbody w2.
    specialize (IH w2 (Some cur) Hok2 Hs). destruct (match_loop name m syms w2 (Some cur)) as [w' head'].
    destruct IH as (Hg3 & ? & Hx & ? & Hu3).
    { intros ? [= <-]. split; [by rewrite Hd2|by apply Hlater]. }
    split_and!; try done.
    + by eapply grown_trans, grown_trans.
    + intros x. rewrite Hx, Hprov. unfold edge at 1. rewrite He2. fold (edge w1 m x). rewrite He1. tauto.
    + by rewrite Hu3, Hm2.
  - specialize (IH w1 (Some cur) Hok1 Hs). destruct (match_loop name m syms w1 (Some cur)) as [w' head'].
    destruct IH as (Hg3 & ? & Hx & ? & Hu3).
    { intros ? [= <-]. split; [done|by apply Hlater]. }
    split_and!; try done.
    + by eapply grown_trans.
    + intros x. rewrite Hx, Hprov, He1. tauto.
    + by rewrite Hu3.
Qed.

Lemma set_flags_ok w m d f :
  deps_ok w m → d ∈ deps_of w m →
  let v := dep_at w d in
  let w' := set_dep w d (MkDepend (d_mod v) f (d_next v)) in
  grown w w' m ∧ deps_ok w' m ∧ (∀ e, dmod w' e = dmod w e) ∧ mod_at w' m = mod_at w m.
Proof.
  intros [Hm Hv Hnd Hnum Hnext] Hd v w'.
  pose proof Hv as Hv'. rewrite Forall_forall in Hv'. pose proof (Hv' d Hd) as Hlt.
  assert (∀ e, dmod w' e = dmod w e) as Hdm.
  { intros e. unfold dmod, w'. rewrite dep_at_set by done. by destruct (decide (e = d)) as [->|]. }
  assert (edges w' m = edges w m) as He by (apply map_ext; intros e; apply Hdm).
  split; [|split; [|done]].
  - unfold grown, w'; cbn. rewrite length_insert. split_and!; try done; intros e _; apply Hdm.
  - split; [done| |by rewrite He|done|].
    + unfold w'; cbn. by rewrite length_insert.
    + intros e f' Hee. change (deps_of w' m) with (deps_of w m). rewrite !Hdm.
      unfold w'. rewrite dep_at_set by done. destruct (decide (e = d)) as [->|]; by apply Hnext.
Qed.

(** Following the candidates from [d] ends: each is an earlier module. *)
Lemma flag_loop_spec m : ∀ fuel w d,
  deps_ok w m → d ∈ deps_of w m → (dmod w d < fuel)%nat →
  ∃ w', flag_loop fuel w (Some d) = Ok w' ∧ grown w w' m ∧ deps_ok w' m ∧
        (∀ e, dmod w' e = dmod w e) ∧ mod_at w' m = mod_at w m.
Proof.
  induction fuel as [|fuel IH]; intros w d Hok Hd Hlt; [lia|]. cbn [flag_loop].
  destruct (set_flags_ok w m d (Z.lor (d_flags (dep_at w d)) DEPEND_FLAGS_CANDIDATE) Hok Hd)
    as (Hg & Hok1 & Hdm & Hmod).
  set (w1 := set_dep w d _) in *. clearbody w1.
  destruct (d_next (dep_at w d)) as [e|] eqn:En; [|exists w1; split; [by destruct fuel|done]].
  destruct Hok as [_ _ _ _ Hnext]. destruct (Hnext d e Hd En) as [He Hlt'].
  destruct (IH w1 e Hok1) as (w' & -> & Hg' & Hok' & Hdm' & Hmod').
  - unfold deps_of. by rewrite Hmod.
  - rewrite Hdm. lia.
  - exists w'. split_and!; try done; [by eapply grown_trans| |by rewrite Hmod'].
    intros x. by rewrite Hdm'.
Qed.

Lemma edges_ext w w' m :
  (∀ e, dmod w' e = dmod w e) → mod_at w' m = mod_at w m → edges w' m = edges w m.
Proof. intros Hd Hm. unfold edges. rewrite Hm. apply map_ext, Hd. Qed.

Definition symbols_valid (w : world) : Prop :=
  Forall (λ s, (s_mod s < length (w_mods w))%nat) (w_symbols w).

(** The dependencies of [m] point at modules. *)
Definition edges_valid (w : world) (m : nat) : Prop :=
  ∀ x, edge w m x → (x < length (w_mods w))%nat.

Lemma match_undef_spec w name m :
  deps_ok w m → symbols_ok (w_symbols w) → symbols_valid w → edges_valid w m →
  ∃ w', match_undef (length (w_mods w)) w name m = Ok w' ∧
    grown w w' m ∧ deps_ok w' m ∧ edges_valid w' m ∧
    (∀ x, edge w' m x ↔ edge w m x ∨ providers (w_symbols w) name x) ∧
    m_undef_syms (mod_at w' m) = m_undef_syms (mod_at w m).
Proof.
  intros Hok Hs Hsv Hev. unfold match_undef.
  pose proof (match_loop_spec name m (w_symbols w) w None Hok (Hs name)) as Hl.
  destruct (match_loop name m (w_symbols w) w None) as [w1 head].
  destruct Hl as (Hg & Hok1 & Hx & Hhead & Hu); [done|].
  assert (edges_valid w1 m) as Hev1.
  { intros x. destruct Hg as (_ & -> & _). rewrite Hx. intros [?|(s & Hin & _ & <-)]; [by apply Hev|].
    unfold symbols_valid in Hsv. rewrite Forall_forall in Hsv. by apply Hsv. }
  destruct head as [h|]; [|by exists w1].
  destruct (d_next (dep_at w1 h)); [|by exists w1].
  destruct (flag_loop_spec m (length (w_mods w)) w1 h Hok1 (Hhead h eq_refl))
    as (w2 & -> & Hg2 & Hok2 & Hdm2 & Hmod2).
  { pose proof Hg as (_ & <- & _). apply Hev1, elem_of_edges. exists h. split; [|done]. by apply Hhead. }
  cbn [mbind outcome_bind]. exists (add_fixup w2 h). pose proof (edges_ext _ _ _ Hdm2 Hmod2) as He.
  split_and!; [done| | | | |].
  - eapply grown_trans; [exact Hg|exact Hg2].
  - destruct Hok2. by split.
  - intros x. unfold edge. change (edges (add_fixup w2 h) m) with (edges w2 m). rewrite He.
    intros Hxx. cbn. destruct Hg2 as (_ & -> & _). by apply Hev1.
  - intros x. unfold edge at 1. change (edges (add_fixup w2 h) m) with (edges w2 m). rewrite He. apply Hx.
  - change (m_undef_syms (mod_at w2 m) = m_undef_syms (mod_at w m)). by rewrite Hmod2.
Qed.

Lemma build_loop_spec m : ∀ undef w,
  deps_ok w m → symbols_ok (w_symbols w) → symbols_valid w → edges_valid w m →
  m_undef_syms (mod_at w m) = undef →
  ∃ w', build_loop undef w m = Ok w' ∧ grown w w' m ∧ deps_ok w' m ∧ edges_valid w' m ∧
    (∀ x, edge w' m x ↔ edge w m x ∨ ∃ name, name ∈ undef ∧ providers (w_symbols w) name x) ∧
    m_undef_syms (mod_at w' m) = [].
Proof.
  induction undef as [|name undef IH]; intros w Hok Hs Hsv Hev Hu; cbn [build_loop].
  { exists w. split_and!; try done. intros x. split; [by left|].
    intros [?|(name & Hn & _)]; [done|by apply elem_of_nil in Hn]. }
  destruct (match_undef_spec w name m Hok Hs Hsv Hev) as (w1 & -> & Hg1 & Hok1 & Hev1 & Hx1 & _).
  cbn [mbind outcome_bind]. pose proof Hg1 as (Hsy & Hlm & _).
  set (v := MkModule _ _ _ _). set (w2 := set_mod w1 m v).
  pose proof (deps_mod _ _ Hok1) as Hm.
  assert (mod_at w2 m = v) as Hmod.
  { unfold w2. rewrite mod_at_set by done. by destruct (decide (m = m)). }
  assert (deps_of w2 m = deps_of w1 m) as Hd2 by (unfold deps_of; by rewrite Hmod).
  assert (edges w2 m = edges w1 m) as He2 by (unfold edges; by rewrite Hmod).
  assert (grown w1 w2 m) as Hg2.
  { unfold grown. split_and!; try done.
    - unfold w2; cbn. by rewrite length_insert.
    - intros x Hx. unfold w2. rewrite mod_at_set by done. by destruct (decide (x = m)). }
  assert (deps_ok w2 m) as Hok2.
  { destruct Hok1 as [? ? ? ? Hnx]. split.
    - unfold w2; cbn. by rewrite length_insert.
    - by rewrite Hd2.
    - by rewrite He2.
    - by rewrite Hd2, Hmod.
    - rewrite Hd2. exact Hnx. }
  destruct (IH w2) as (w' & -> & Hg' & Hok' & Hev' & Hx' & Hu'); [done| | | |by rewrite Hmod|].
  - unfold w2; cbn. by rewrite Hsy.
  - unfold symbols_valid, w2 in *; cbn. by rewrite length_insert, Hsy, Hlm.
  - intros x. unfold edge. rewrite He2. unfold w2; cbn. rewrite length_insert. apply Hev1.
  - exists w'. split_and!; try done; [by eapply grown_trans, grown_trans|].
    intros x. rewrite Hx'. unfold edge at 1. rewrite He2. fold (edge w1 m x). rewrite Hx1.
    change (w_symbols w2) with (w_symbols w1). rewrite Hsy. split.
    + intros [[?|?]|(nm & ? & ?)]; [by left|right; exists name; split; [left|done]|].
      right. exists nm. split; [by right|done].
    + intros [?|(nm & [->|Hin]%elem_of_cons & ?)]; [by left; left|by left; right|].
      right. by exists nm.
Qed.

(** What the tool knows after reading the modules: nothing matched yet. *)
Record analysed (w : world) : Prop := {
  analysed_symbols : symbols_ok (w_symbols w);
  analysed_valid : symbols_valid w;
  analysed_listed : NoDup (w_modules w) ∧ Forall (λ m, (m < length (w_mods w))%nat) (w_modules w);
  analysed_none : ∀ m, deps_of w m = [] ∧ m_num_dependencies (mod_at w m) = 0;
}.

Definition needs (w : world) (m x : nat) : Prop :=
  ∃ name, name ∈ m_undef_syms (mod_at w m) ∧ providers (w_symbols w) name x.

(** The modules [todo] are still to be matched; the others have all their
    edges. *)
Record half_built (w0 w : world) (todo : list nat) : Prop := {
  hb_symbols : w_symbols w = w_symbols w0;
  hb_mods : length (w_mods w) = length (w_mods w0);
  hb_todo : ∀ m, m ∈ todo → mod_at w m = mod_at w0 m;
  hb_unlisted : ∀ m, m ∉ w_modules w0 → mod_at w m = mod_at w0 m;
  hb_heap : ∀ m, Forall (λ d, (d < length (w_heap w))%nat) (deps_of w m);
  hb_num : ∀ m, m_num_dependencies (mod_at w m) = Z.of_nat (length (deps_of w m));
  hb_edges : ∀ m, m ∈ w_modules w0 → m ∉ todo → NoDup (edges w m) ∧ ∀ x, edge w m x ↔ needs w0 m x;
}.

Lemma grown_edges w w' m x :
  grown w w' m → x ≠ m → Forall (λ d, (d < length (w_heap w))%nat) (deps_of w x) →
  edges w' x = edges w x.
Proof.
  intros (_ & _ & _ & Hm & _ & Hd) Hx Hv. unfold edges. rewrite Hm by done.
  apply map_ext_in. intros d Hin%list_elem_of_In. rewrite Forall_forall in Hv.
  apply Hd, Hv, Hin.
Qed.

Lemma build_all_spec w0 : analysed w0 → ∀ todo w,
  NoDup todo → Forall (λ m, m ∈ w_modules w0) todo → half_built w0 w todo →
  ∃ w', build_all todo w = Ok w' ∧ half_built w0 w' [].
Proof.
  intros [Hs Hsv [_ Hlist] Hnone] todo.
  induction todo as [|m todo IH]; intros w Hnd Hin Hb; cbn [build_all]; [by exists w|].
  apply NoDup_cons in Hnd as [Hnin Hnd]. apply Forall_cons in Hin as [Hm Hin].
  destruct Hb as [Hsy Hlm Htodo Hun Hheap Hnum Hedges].
  assert (mod_at w m = mod_at w0 m) as Hmod by (apply Htodo; left).
  destruct (Hnone m) as [Hd0 Hn0]. assert (deps_of w m = []) as Hd by (unfold deps_of; by rewrite Hmod).
  assert (edges w m = []) as He by (unfold edges; fold (deps_of w m); by rewrite Hd).
  destruct (build_loop_spec m (m_undef_syms (mod_at w m)) w)
    as (w1 & Hb & Hg & Hok & _ & Hx & _); try done.
  { split; [|by rewrite Hd|by rewrite He; apply NoDup_nil_2|by apply Hnum|].
    - rewrite Hlm. rewrite Forall_forall in Hlist. by apply Hlist.
    - rewrite Hd. by intros d e ?%elem_of_nil. }
  { by rewrite Hsy. }
  { unfold symbols_valid. by rewrite Hsy, Hlm. }
  { intros x. unfold edge. rewrite He. by intros ?%elem_of_nil. }
  unfold build_dependency. rewrite Hb. cbn [mbind outcome_bind].
  pose proof Hg as (Hsy1 & Hlm1 & _ & Hm1 & Hlen & _).
  apply IH; [done..|]. split.
  - by rewrite Hsy1.
  - by rewrite Hlm1.
  - intros x Hx0. rewrite Hm1 by (by intros ->). apply Htodo. by right.
  - intros x Hx0. rewrite Hm1 by (by intros ->). by apply Hun.
  - intros x. destruct (decide (x = m)) as [->|]; [apply Hok|]. unfold deps_of. rewrite Hm1 by done.
    eapply Forall_impl; [apply (Hheap x)|]. cbn. lia.
  - intros x. destruct (decide (x = m)) as [->|]; [apply Hok|]. unfold deps_of. rewrite Hm1 by done.
    apply Hnum.
  - intros x Hx0 Hx1. destruct (decide (x = m)) as [->|Hne].
    + split; [apply Hok|]. intros y. rewrite Hx. unfold edge at 1. rewrite He, Hmod, Hsy. unfold needs.
      split; [|by right]. intros [?%elem_of_nil|?]; done.
    + unfold edge. rewrite (grown_edges _ _ _ _ Hg Hne (Hheap x)). apply Hedges; [done|].
      by intros [?|?]%elem_of_cons.
Qed.

(** When no component exports a name twice, [build_dependency] over all
    components terminates, and then a component depends on another exactly
    when one of its undefined symbols is exported by it: every provider is
    there once, nothing else is, and the links and counts are those the
    traversal relies on. *)
Theorem build_all_correct w0 :
  analysed w0 →
  ∃ w', build_all (w_modules w0) w0 = Ok w' ∧ graph_ok w' ∧
    ∀ m, m ∈ w_modules w0 → NoDup (edges w' m) ∧ ∀ x, edge w' m x ↔ needs w0 m x.
Proof.
  intros Ha. pose proof Ha as [Hs Hsv [Hnd Hlist] Hnone].
  destruct (build_all_spec w0 Ha (w_modules w0) w0) as (w' & Hb & [Hsy Hlm _ Hun Hheap Hnum Hedges]).
  - done.
  - by apply Forall_forall.
  - split; try done.
    + intros m. destruct (Hnone m) as [-> _]. constructor.
    + intros m. by destruct (Hnone m) as [-> ->].
  - exists w'. split_and!; [done| |].
    + intros m Hm. split; [|apply Hnum]. apply Forall_forall. intros x Hx.
      destruct (decide (m ∈ w_modules w0)) as [Hin|Hout].
      * destruct (Hedges m Hin ltac:(apply not_elem_of_nil)) as [_ He].
        apply He in Hx as (name & _ & s & Hins & _ & <-). rewrite Hlm.
        unfold symbols_valid in Hsv. rewrite Forall_forall in Hsv. by apply Hsv.
      * unfold edges in Hx. rewrite Hun in Hx by done. destruct (Hnone m) as [Hd _].
        unfold deps_of in Hd. rewrite Hd in Hx. by apply elem_of_nil in Hx.
    + intros m Hm. apply Hedges; [done|apply not_elem_of_nil].
Qed.

(** Three components and "lds": the top one uses symbols of both others, one
    of them exported by each. *)
Definition small_tree : world :=
  MkWorld
    [MkModule "top.ko" ["start"; "copy"]%string [] 0; MkModule "a.ko" ["_end"]%string [] 0;
     MkModule "b.ko" ["start"]%string [] 0; MkModule "lds" [] [] 0]
    [0; 1; 2]%nat
    [MkSymbol "start" 1; MkSymbol "copy" 1; MkSymbol "copy" 2; MkSymbol "_end" 3] [] [].

Lemma small_tree_analysed : analysed small_tree.
Proof.
  split.
  - intros name. repeat apply SSorted_cons; repeat apply Forall_cons_2; try constructor;
      unfold sym_before; cbn; intros; subst; lia || discriminate.
  - repeat apply Forall_cons_2; try constructor; cbn; lia.
  - split; [apply (bool_decide_unpack _); by vm_compute|].
    repeat apply Forall_cons_2; try constructor; cbn; lia.
  - intros [|[|[|[|m]]]]; done.
Qed.

Lemma build_all_correct_witness :
  ∃ w', build_all [0; 1; 2]%nat small_tree = Ok w' ∧ graph_ok w' ∧
    ∀ m, m ∈ w_modules small_tree →
      NoDup (edges w' m) ∧ ∀ x, edge w' m x ↔ needs small_tree m x.
Proof. apply (build_all_correct small_tree small_tree_analysed). Defined.

(** ** Shared candidate links *)

(** One component that uses [a], exported by 1 and 2, and [b], exported by 2
    alone. *)
Definition shared_links : world :=
  MkWorld [MkModule "top.ko" ["a"; "b"]%string [] 0; MkModule "x.ko" [] [] 0;
           MkModule "y.ko" [] [] 0]
    [0]%nat [MkSymbol "a" 1; MkSymbol "a" 2; MkSymbol "b" 2] [] [].

Lemma match_loop_none name m w head syms :
  filter (λ s, s_name s = name) syms = [] → match_loop name m syms w head = (w, head).
Proof.
  induction syms as [|s syms IH]; [done|]. rewrite filter_cons. cbn [match_loop].
  case_decide as E; [done|]. intros H. by destruct (String.eqb_spec (s_name s) name); [|apply IH].
Qed.

Lemma match_loop_single name m w x d syms :
  filter (λ s, s_name s = name) syms = [MkSymbol name x] → find_dependency w m x = Some d →
  match_loop name m syms w None = (w, Some d).
Proof.
  intros H Hd. induction syms as [|s syms IH]; [done|]. rewrite filter_cons in H. cbn [match_loop].
  case_decide as E; destruct (String.eqb_spec (s_name s) name); try done; [|by apply IH].
  injection H as -> Hn. unfold on_match. cbn [s_mod]. rewrite Hd. by apply match_loop_none.
Qed.

Lemma flag_loop_fixups fuel : ∀ w p w', flag_loop fuel w p = Ok w' → w_fixups w' = w_fixups w.
Proof.
  induction fuel as [|fuel IH]; intros w [d|] w'; cbn [flag_loop]; try (by intros [= <-]).
  intros H. by apply IH in H.
Qed.

(** C36: a symbol with a single provider is reported as ambiguous exactly when
    the [depend] object of that provider is linked to another. Let [name] have
    one provider [x], on which the component already depends through the object
    [d]. [match_undef] then changes no dependency; it queues a fix-up for [name]
    when an earlier symbol with several providers has left a [next] link in [d],
    which it takes for a second candidate, and none otherwise. *)
Theorem single_provider_fixup w name m x d :
  deps_ok w m → edges_valid w m → filter (λ s, s_name s = name) (w_symbols w) = [MkSymbol name x] →
  find_dependency w m x = Some d →
  ∃ w', match_undef (length (w_mods w)) w name m = Ok w' ∧ edges w' m = edges w m ∧
        w_fixups w' = w_fixups w ++ match d_next (dep_at w d) with Some _ => [d] | None => [] end.
Proof.
  intros Hok Hev Hs Hd. unfold match_undef. rewrite (match_loop_single name m w x d) by done.
  destruct (d_next (dep_at w d)); [|exists w; by rewrite app_nil_r].
  pose proof (find_dependency_in_spec w (m_dependencies (mod_at w m)) x) as Hf. unfold find_dependency in Hd. rewrite Hd in Hf.
  destruct Hf as [Hin Hx]. destruct (flag_loop_spec m (length (w_mods w)) w d Hok Hin) as (w2 & Hl & _ & _ & Hdm & Hmod).
  { apply Hev, elem_of_edges. by exists d. }
  rewrite Hl. cbn [mbind outcome_bind]. exists (add_fixup w2 d). split; [done|]. split; [by apply (edges_ext w w2)|].
  cbn. by rewrite (flag_loop_fixups _ _ _ _ Hl).
Qed.

(** After [a] has been matched, [b] is reported: its only provider is module 2. *)
Lemma single_provider_fixup_witness :
  ∃ w1 w2, match_undef 3 shared_links "a" 0 = Ok w1 ∧ match_undef 3 w1 "b" 0 = Ok w2 ∧ w_fixups w2 = w_fixups w1 ++ [1%nat].
Proof.
  destruct (match_undef_spec shared_links "a" 0) as (w1 & E1 & _ & Hok & Hev & _).
  - split; [cbn; lia|constructor|apply NoDup_nil_2|done|intros d e Hd; by apply elem_of_nil in Hd].
  - intros name. repeat apply SSorted_cons; repeat apply Forall_cons_2; try constructor;
      unfold sym_before; cbn; intros; subst; lia || discriminate.
  - repeat apply Forall_cons_2; try constructor; cbn; lia.
  - intros x Hx. by apply elem_of_nil in Hx.
  - assert (E : Ok w1 = match_undef 3 shared_links "a" 0) by (by symmetry). vm_compute in E. injection E as ->.
    destruct (single_provider_fixup _ "b" 0 2 1 Hok Hev) as (w2 & E2 & _ & Hf); [vm_compute; reflexivity..|].
    eexists _, w2. split; [exact E1|]. split; [exact E2|exact Hf].
Defined.

(** ** Names exported twice *)

(** Every node of [S] leads to a node of [S]: following [next] never ends. *)
Definition trapped (w : world) (S : list nat) : Prop :=
  ∀ d, d ∈ S → (d < length (w_heap w))%nat ∧ ∃ e, e ∈ S ∧ d_next (dep_at w d) = Some e.

Lemma flag_loop_trapped fuel : ∀ w S d, trapped w S → d ∈ S → flag_loop fuel w (Some d) = Fuel.
Proof.
  induction fuel as [|fuel IH]; intros w S d Ht Hd; [done|]. cbn [flag_loop].
  destruct (Ht d Hd) as (Hl & e & He & Hne). rewrite Hne at 2. apply (IH _ S); [|done]. intros x Hx. destruct (Ht x Hx) as (Hlx & y & Hy & Hn).
  split; [cbn; by rewrite length_insert|]. exists y. split; [done|]. rewrite dep_at_set by done.
  destruct (decide (x = d)) as [->|]; exact Hn.
Qed.

(** The objects of [m] exist. *)
Definition objects_ok (w : world) (m : nat) : Prop :=
  (m < length (w_mods w))%nat ∧ Forall (λ d, (d < length (w_heap w))%nat) (deps_of w m).

Lemma find_dependency_valid w m x d : objects_ok w m → find_dependency w m x = Some d → (d < length (w_heap w))%nat ∧ dmod w d = x.
Proof.
  intros [_ Hv] Hd. pose proof (find_dependency_in_spec w (m_dependencies (mod_at w m)) x) as H. unfold find_dependency in Hd.
  rewrite Hd in H. destruct H as [Hin Hx]. rewrite Forall_forall in Hv. split; [by apply Hv|done].
Qed.

Lemma find_dependency_in_ext w w' deps x :
  (∀ d, d ∈ deps → dmod w' d = dmod w d) → find_dependency_in w' deps x = find_dependency_in w deps x.
Proof.
  induction deps as [|d deps IH]; intros H; [done|]. cbn. fold (dmod w' d) (dmod w d). rewrite H by left.
  case_bool_decide; [done|]. apply IH. intros e He. apply H. by right.
Qed.

Lemma find_dependency_in_app w deps deps' x :
  find_dependency_in w (deps ++ deps') x =
  match find_dependency_in w deps x with Some d => Some d | None => find_dependency_in w deps' x end.
Proof. induction deps as [|d deps IH]; [done|]. cbn. by case_bool_decide. Qed.

(** Setting [next] changes neither the objects nor what is found. *)
Lemma set_next_keeps w m d h :
  objects_ok w m → (d < length (w_heap w))%nat →
  let w' := set_dep w d (MkDepend (d_mod (dep_at w d)) (d_flags (dep_at w d)) (Some h)) in
  objects_ok w' m ∧ length (w_heap w') = length (w_heap w) ∧ (∀ x, find_dependency w' m x = find_dependency w m x) ∧
  (∀ e, d_next (dep_at w' e) = if decide (e = d) then Some h else d_next (dep_at w e)).
Proof.
  intros [Hm Hv] Hd w'. assert (length (w_heap w') = length (w_heap w)) as Hl by (cbn; by rewrite length_insert).
  split; [split; [done|by rewrite Hl]|]. split; [done|]. split.
  - intros x. apply find_dependency_in_ext. intros e _. unfold dmod, w'. rewrite dep_at_set by done. by destruct (decide (e = d)) as [->|].
  - intros e. unfold w'. rewrite dep_at_set by done. by destruct (decide (e = d)).
Qed.

(** Matching one symbol adds at most one object and keeps the others. *)
Lemma on_match_keeps w m s :
  objects_ok w m →
  let '(w', cur) := on_match w m s in
  objects_ok w' m ∧ find_dependency w' m (s_mod s) = Some cur ∧ (length (w_heap w) ≤ length (w_heap w'))%nat ∧
  (∀ x d, find_dependency w m x = Some d → find_dependency w' m x = Some d) ∧
  (∀ d, (d < length (w_heap w))%nat → dep_at w' d = dep_at w d).
Proof.
  intros Hok. pose proof Hok as [Hm Hv]. unfold on_match. destruct (find_dependency w m (s_mod s)) as [d|] eqn:Ed; [by split_and!|].
  set (d := length (w_heap w)). set (v := mod_at w m). set (w1 := MkWorld _ _ _ _ _). set (w2 := set_mod w1 m _).
  assert (∀ e, (e < d)%nat → dep_at w2 e = dep_at w e) as Hold.
  { intros e He. unfold dep_at, w2, w1; cbn. by rewrite lookup_app_l. }
  assert (mod_at w2 m = MkModule (m_name v) (m_undef_syms v) (m_dependencies v ++ [d]) (m_num_dependencies v + 1)) as Hmod.
  { unfold w2. rewrite mod_at_set by done. by destruct (decide (m = m)). }
  assert (length (w_heap w2) = S d) as Hlen by (cbn; rewrite length_app; cbn; lia).
  assert (∀ x, find_dependency_in w2 (m_dependencies v) x = find_dependency w m x) as Hfind.
  { intros x. apply find_dependency_in_ext. intros e He. unfold deps_of in Hv. rewrite Forall_forall in Hv. unfold dmod. by rewrite Hold by (by apply Hv). }
  split_and!.
  - split; [cbn; by rewrite length_insert|]. unfold deps_of. rewrite Hmod. cbn [m_dependencies]. apply Forall_app. split.
    + eapply Forall_impl; [exact Hv|]. cbn. intros e He. rewrite length_app; cbn. lia.
    + constructor; [lia|constructor].
  - unfold find_dependency. rewrite Hmod. cbn [m_dependencies]. rewrite find_dependency_in_app, Hfind, Ed. cbn.
    assert (dep_at w2 d = MkDepend (s_mod s) 0 None) as -> by (unfold dep_at, w2, w1; cbn; by rewrite list_lookup_middle).
    cbn. by rewrite bool_decide_eq_true_2.
  - lia.
  - intros x e He. unfold find_dependency. rewrite Hmod. cbn [m_dependencies]. by rewrite find_dependency_in_app, Hfind, He.
  - exact Hold.
Qed.

(** A component that exports [a] twice. *)
Definition double_export : world :=
  MkWorld [MkModule "top.ko" ["a"]%string [] 0; MkModule "x.ko" [] [] 0]
    [0]%nat [MkSymbol "a" 1; MkSymbol "a" 1] [] [].

(** The modules that export [name], once for every time they do. *)
Definition exporters (syms : list symbol) (name : string) : list nat := s_mod <$> filter (λ s, s_name s = name) syms.

(** The candidates [cs] found so far, the last one first, for the modules [ms]. *)
Record chain (w : world) (m : nat) (ms cs : list nat) : Prop := {
  ch_found : Forall2 (λ x c, find_dependency w m x = Some c) ms cs;
  ch_next : ∀ i c c', cs !! i = Some c → cs !! S i = Some c' → d_next (dep_at w c) = Some c';
}.

(** A module found again closes a loop. *)
Lemma chain_closes w m ms cs h cur k :
  objects_ok w m → NoDup ms → chain w m ms cs → cs !! 0%nat = Some h → cs !! k = Some cur →
  trapped (set_dep w cur (MkDepend (d_mod (dep_at w cur)) (d_flags (dep_at w cur)) (Some h))) (take (S k) cs).
Proof.
  intros Hok Hnd [Hf Hn] Hh Hk.
  assert (∀ i c, cs !! i = Some c → ∃ x, ms !! i = Some x ∧ (c < length (w_heap w))%nat ∧ dmod w c = x) as Hc.
  { intros i c Hi. destruct (Forall2_lookup_r _ _ _ _ _ Hf Hi) as (x & Hx & Hd). exists x. split; [done|]. by apply (find_dependency_valid w m). }
  destruct (Hc k cur Hk) as (xk & Hxk & Hlk & Hdk). destruct (set_next_keeps w m cur h Hok Hlk) as (_ & Hlen & _ & Hnext).
  intros d Hd. apply list_elem_of_lookup_1 in Hd as [i Hi]. apply lookup_take_Some in Hi as [Hi Hlt].
  destruct (Hc i d Hi) as (xi & Hxi & Hli & Hdi). split; [by rewrite Hlen|]. rewrite Hnext.
  destruct (decide (d = cur)) as [->|Hne].
  - exists h. split; [|done]. apply (list_elem_of_lookup_2 _ 0). apply lookup_take_Some. split; [done|lia].
  - destruct (decide (i = k)) as [->|]; [congruence|]. destruct (lookup_lt_is_Some_2 cs (S i)) as [e He].
    { apply lookup_lt_Some in Hk. lia. }
    exists e. split; [|by eapply Hn]. apply (list_elem_of_lookup_2 _ (S i)). apply lookup_take_Some. split; [done|lia].
Qed.

(** Once trapped, the list of candidates stays so. *)
Lemma match_loop_trapped name m : ∀ syms w S h, objects_ok w m → trapped w S → h ∈ S →
  let '(w', head) := match_loop name m syms w (Some h) in ∃ S' h', head = Some h' ∧ h' ∈ S' ∧ trapped w' S'.
Proof.
  induction syms as [|s syms IH]; intros w S h Hok Ht Hh; cbn [match_loop]; [by exists S, h|].
  destruct (String.eqb (s_name s) name); [|by apply (IH w S)].
  pose proof (on_match_keeps w m s Hok) as Hon. destruct (on_match w m s) as [w1 cur]. destruct Hon as (Hok1 & Hcur & Hlen & _ & Hold).
  destruct (find_dependency_valid w1 m _ _ Hok1 Hcur) as [Hlc _]. destruct (set_next_keeps w1 m cur h Hok1 Hlc) as (Hok2 & Hl2 & _ & Hn2).
  set (w2 := set_dep w1 cur _) in *. apply (IH w2 (cur :: S)); [done| |by left]. intros d Hd. rewrite Hl2, Hn2.
  destruct (decide (d = cur)) as [->|Hne]; [split; [done|]; exists h; split; [by right|done]|].
  apply elem_of_cons in Hd as [|Hd]; [done|]. destruct (Ht d Hd) as (Hl & e & He & Hn). split; [lia|].
  exists e. rewrite Hold by done. split; [by right|done].
Qed.

Lemma match_loop_doubled name m : ∀ syms w ms cs h, objects_ok w m → NoDup ms → chain w m ms (h :: cs) →
  ¬ NoDup (ms ++ exporters syms name) →
  let '(w', head) := match_loop name m syms w (Some h) in ∃ S h', head = Some h' ∧ h' ∈ S ∧ trapped w' S.
Proof.
  induction syms as [|s syms IH]; intros w ms cs h Hok Hnd Hch Hdup; cbn [match_loop].
  { destruct Hdup. unfold exporters. cbn. by rewrite app_nil_r. }
  unfold exporters in Hdup. rewrite filter_cons in Hdup. destruct (String.eqb_spec (s_name s) name) as [E|E].
  2:{ rewrite decide_False in Hdup by done. by apply (IH w ms cs). }
  rewrite decide_True in Hdup by done. cbn [fmap list_fmap] in Hdup. fold (exporters syms name) in Hdup.
  pose proof (on_match_keeps w m s Hok) as Hon. destruct (on_match w m s) as [w1 cur]. destruct Hon as (Hok1 & Hcur & Hlen & Hkeep & Hold).
  destruct (find_dependency_valid w1 m _ _ Hok1 Hcur) as [Hlc Hdc].
  assert (chain w1 m ms (h :: cs)) as Hch1.
  { destruct Hch as [Hf Hn]. split; [eapply Forall2_impl; [exact Hf|]; intros x c; apply Hkeep|].
    intros i c c' Hi Hi'. rewrite Hold; [by eapply Hn|]. destruct (Forall2_lookup_r _ _ _ _ _ Hf Hi) as (x & _ & Hx). by eapply find_dependency_valid. }
  destruct (set_next_keeps w1 m cur h Hok1 Hlc) as (Hok2 & Hl2 & Hf2 & Hn2).
  destruct (decide (s_mod s ∈ ms)) as [Hin|Hnin].
  - apply list_elem_of_lookup_1 in Hin as [k Hk]. destruct (Forall2_lookup_l _ _ _ _ _ (ch_found _ _ _ _ Hch1) Hk) as (c & Hc & Hfc).
    assert (c = cur) as -> by congruence. apply (match_loop_trapped name m syms _ (take (S k) (h :: cs))); [done| |].
    2:{ apply (list_elem_of_lookup_2 _ k). apply lookup_take_Some. split; [done|lia]. }
    by apply (chain_closes w1 m ms (h :: cs)).
  - apply (IH _ (s_mod s :: ms) (h :: cs)); [done|by constructor| |].
    + destruct Hch1 as [Hf Hn]. split.
      * constructor; [by rewrite Hf2|]. eapply Forall2_impl; [exact Hf|]. intros x c. by rewrite Hf2.
      * intros [|i] c c' Hi Hi'; cbn in Hi, Hi'; rewrite Hn2.
        -- injection Hi as <-. by rewrite decide_True.
        -- destruct (Forall2_lookup_r _ _ _ _ _ Hf Hi) as (x & Hx & Hfx). destruct (find_dependency_valid _ _ _ _ Hok1 Hfx) as [_ Hdx].
           rewrite decide_False; [by eapply Hn|]. intros ->. apply Hnin. rewrite <- Hdc, Hdx. by eapply list_elem_of_lookup_2.
    + intros Hnd'. apply Hdup. by rewrite <- Permutation_middle.
Qed.

(** C37: whenever a component exports a name twice, matching that name never
    ends. In any state whose [depend] objects exist, if some module appears
    twice among the exporters of [name], its [depend] object is linked into a
    loop of candidates and [match_undef] returns for no amount of fuel. *)
Theorem double_export_diverges w name m fuel :
  objects_ok w m → ¬ NoDup (exporters (w_symbols w) name) → match_undef fuel w name m = Fuel.
Proof.
  intros Hok Hdup. assert (∀ syms, ¬ NoDup (exporters syms name) →
    let '(w', head) := match_loop name m syms w None in ∃ S h, head = Some h ∧ h ∈ S ∧ trapped w' S) as H.
  { clear Hdup. induction syms as [|s syms IH]; intros Hdup; [destruct Hdup; apply NoDup_nil_2|]. cbn [match_loop].
    unfold exporters in Hdup. rewrite filter_cons in Hdup. destruct (String.eqb_spec (s_name s) name) as [E|E].
    2:{ rewrite decide_False in Hdup by done. by apply IH. }
    rewrite decide_True in Hdup by done.
    pose proof (on_match_keeps w m s Hok) as Hon. destruct (on_match w m s) as [w1 cur]. destruct Hon as (Hok1 & Hcur & _).
    apply (match_loop_doubled name m syms w1 [s_mod s] []); [done|apply NoDup_singleton| |exact Hdup].
    split; [by repeat constructor|]. intros [|i] c c' Hi Hi'; done. }
  specialize (H _ Hdup). unfold match_undef. destruct (match_loop name m (w_symbols w) w None) as [w' head].
  destruct H as (S & h & -> & Hh & Ht). destruct (Ht h Hh) as (_ & e & _ & ->). by rewrite (flag_loop_trapped fuel w' S).
Qed.

Lemma double_export_diverges_witness : match_undef 1000 double_export "a" 0 = Fuel.
Proof.
  apply double_export_diverges.
  - split; [cbn; lia|constructor].
  - change (¬ NoDup [1; 1]%nat). intros [H _]%list.NoDup_cons. apply H. by left.
Defined.
