(* ===== verification/Strings.v ===== *)
(** * C strings and memory: data and operations

    lib/src/string.c with the character classes of lib/src/ctype.c and the
    word-at-a-time helpers of arch/riscv/include/asm/word-at-a-time.h. Memory
    maps addresses to bytes; [char] is unsigned on this architecture. A loop
    that a counter bounds recurses on the counter; a loop that ends at a NUL
    takes fuel, and the theorems say how much is enough. *)

From stdpp Require Import base numbers list option.
From Stdlib Require Import ZArith Lia.
From S2P Require Import Prelude Bitops.

Open Scope Z_scope.

Module Ctype.

(** [_ctype]: the sums of the class bits _U = 1, _L = 2, _D = 4, _C = 8,
    _P = 16, _S = 32, _X = 64, _SP = 128. *)
Definition _ctype : list Z :=
  [8; 8; 8; 8; 8; 8; 8; 8; 8; 40; 40; 40; 40; 40; 8; 8;
   8; 8; 8; 8; 8; 8; 8; 8; 8; 8; 8; 8; 8; 8; 8; 8;
   160; 16; 16; 16; 16; 16; 16; 16; 16; 16; 16; 16; 16; 16; 16; 16;
   4; 4; 4; 4; 4; 4; 4; 4; 4; 4; 16; 16; 16; 16; 16; 16;
   16; 65; 65; 65; 65; 65; 65; 1; 1; 1; 1; 1; 1; 1; 1; 1;
   1; 1; 1; 1; 1; 1; 1; 1; 1; 1; 1; 16; 16; 16; 16; 16;
   16; 66; 66; 66; 66; 66; 66; 2; 2; 2; 2; 2; 2; 2; 2; 2;
   2; 2; 2; 2; 2; 2; 2; 2; 2; 2; 2; 16; 16; 16; 16; 8;
   0; 0; 0; 0; 0; 0; 0; 0; 0; 0; 0; 0; 0; 0; 0; 0;
   0; 0; 0; 0; 0; 0; 0; 0; 0; 0; 0; 0; 0; 0; 0; 0;
   160; 16; 16; 16; 16; 16; 16; 16; 16; 16; 16; 16; 16; 16; 16; 16;
   16; 16; 16; 16; 16; 16; 16; 16; 16; 16; 16; 16; 16; 16; 16; 16;
   1; 1; 1; 1; 1; 1; 1; 1; 1; 1; 1; 1; 1; 1; 1; 1;
   1; 1; 1; 1; 1; 1; 1; 16; 1; 1; 1; 1; 1; 1; 1; 2;
   2; 2; 2; 2; 2; 2; 2; 2; 2; 2; 2; 2; 2; 2; 2; 2;
   2; 2; 2; 2; 2; 2; 2; 16; 2; 2; 2; 2; 2; 2; 2; 2].

Definition __ismask (x : Z) : Z := default 0 (_ctype !! Z.to_nat (u8 x)).
Definition isspace (c : Z) : bool := negb (Z.land (__ismask c) 0x20 =? 0).
Definition isupper (c : Z) : bool := negb (Z.land (__ismask c) 0x01 =? 0).
Definition islower (c : Z) : bool := negb (Z.land (__ismask c) 0x02 =? 0).
Definition isxdigit (c : Z) : bool := negb (Z.land (__ismask c) 0x44 =? 0).
Definition isdigit (c : Z) : bool := (48 <=? c) && (c <=? 57).
Definition tolower (c : Z) : Z := if isupper c then u8 (c - (65 - 97)) else c.
Definition toupper (c : Z) : Z := if islower c then u8 (c - (97 - 65)) else c.
(** [_tolower], the fast variant for known letters. *)
Definition _tolower (c : Z) : Z := Z.lor c 0x20.

End Ctype.

Module Strings.

Import Ctype.

(** ** Memory *)

Definition mem : Type := Z → Z.

Definition upd (m : mem) (a v : Z) : mem := λ x, if x =? a then v else m x.

(** The little-endian 64-bit word at [a]. *)
Definition read64 (m : mem) (a : Z) : Z :=
  m a + m (a + 1) * 2 ^ 8 + m (a + 2) * 2 ^ 16 + m (a + 3) * 2 ^ 24 +
  m (a + 4) * 2 ^ 32 + m (a + 5) * 2 ^ 40 + m (a + 6) * 2 ^ 48 + m (a + 7) * 2 ^ 56.

Definition byte_of (w i : Z) : Z := Z.land (Z.shiftr w (8 * i)) 0xff.

Fixpoint write_bytes (m : mem) (a w : Z) (i : nat) : mem :=
  match i with
  | O => m
  | S i => upd (write_bytes m a w i) (a + Z.of_nat i) (byte_of w (Z.of_nat i))
  end.

Definition write64 (m : mem) (a w : Z) : mem := write_bytes m a w 8.

Definition E2BIG : Z := 7.
Definition EINVAL : Z := 22.
Definition INT_MAX : Z := 2 ^ 31 - 1.
Definition NULL : Z := 0.

(** ** Length and comparison *)

Fixpoint strlen_loop (fuel : nat) (m : mem) (sc : Z) : outcome Z :=
  match fuel with
  | O => Fuel
  | S fuel => if m sc =? 0 then Ok sc else strlen_loop fuel m (sc + 1)
  end.

Definition strlen (fuel : nat) (m : mem) (s : Z) : outcome Z :=
  sc ← strlen_loop fuel m s; Ok (sc - s).

Fixpoint strnlen_loop (count : nat) (m : mem) (sc : Z) : Z :=
  match count with
  | O => sc
  | S count => if m sc =? 0 then sc else strnlen_loop count m (sc + 1)
  end.

Definition strnlen (m : mem) (s count : Z) : Z := strnlen_loop (Z.to_nat count) m s - s.

Fixpoint strcmp (fuel : nat) (m : mem) (cs ct : Z) : outcome Z :=
  match fuel with
  | O => Fuel
  | S fuel =>
      let c1 := m cs in
      let c2 := m ct in
      if negb (c1 =? c2) then Ok (if c1 <? c2 then -1 else 1)
      else if c1 =? 0 then Ok 0
      else strcmp fuel m (cs + 1) (ct + 1)
  end.

Fixpoint strncmp (count : nat) (m : mem) (cs ct : Z) : Z :=
  match count with
  | O => 0
  | S count =>
      let c1 := m cs in
      let c2 := m ct in
      if negb (c1 =? c2) then (if c1 <? c2 then -1 else 1)
      else if c1 =? 0 then 0
      else strncmp count m (cs + 1) (ct + 1)
  end.

(** The do-while loop of [strncasecmp]; [len] is not 0. *)
Fixpoint strncasecmp_loop (len : nat) (m : mem) (s1 s2 : Z) : Z :=
  match len with
  | O => 0
  | S len =>
      let c1 := m s1 in
      let c2 := m s2 in
      let next d :=
        match len with O => d | S _ => strncasecmp_loop len m (s1 + 1) (s2 + 1) end in
      if (c1 =? 0) || (c2 =? 0) then c1 - c2
      else if c1 =? c2 then next (c1 - c2)
      else
        let c1 := tolower c1 in
        let c2 := tolower c2 in
        if negb (c1 =? c2) then c1 - c2 else next (c1 - c2)
  end.

Definition strncasecmp (m : mem) (s1 s2 len : Z) : Z :=
  if len =? 0 then 0 else strncasecmp_loop (Z.to_nat len) m s1 s2.

Fixpoint strcasecmp (fuel : nat) (m : mem) (s1 s2 : Z) : outcome Z :=
  match fuel with
  | O => Fuel
  | S fuel =>
      let c1 := tolower (m s1) in
      let c2 := tolower (m s2) in
      if (c1 =? c2) && negb (c1 =? 0) then strcasecmp fuel m (s1 + 1) (s2 + 1)
      else Ok (c1 - c2)
  end.

Fixpoint memcmp (count : nat) (m : mem) (su1 su2 : Z) : Z :=
  match count with
  | O => 0
  | S count =>
      let res := m su1 - m su2 in
      if negb (res =? 0) then res else memcmp count m (su1 + 1) (su2 + 1)
  end.

Definition bcmp (m : mem) (a b len : Z) : Z := memcmp (Z.to_nat len) m a b.

Fixpoint sysfs_streq (fuel : nat) (m : mem) (s1 s2 : Z) : outcome bool :=
  match fuel with
  | O => Fuel
  | S fuel =>
      if negb (m s1 =? 0) && (m s1 =? m s2) then sysfs_streq fuel m (s1 + 1) (s2 + 1)
      else Ok ((m s1 =? m s2)
               || ((m s1 =? 0) && (m s2 =? 10) && (m (s2 + 1) =? 0))
               || ((m s1 =? 10) && (m (s1 + 1) =? 0) && (m s2 =? 0)))
  end.

(** [match_string] and [__sysfs_match_string] on the pointers of the array up
    to [n]. *)
Fixpoint match_with (eq : Z → outcome bool) (items : list Z) (index : Z) : outcome Z :=
  match items with
  | [] => Ok (- EINVAL)
  | item :: items =>
      if item =? NULL then Ok (- EINVAL)
      else b ← eq item; if (b : bool) then Ok index else match_with eq items (index + 1)
  end.

Definition match_string (fuel : nat) (m : mem) (items : list Z) (string : Z) : outcome Z :=
  match_with (λ item, r ← strcmp fuel m item string; Ok (r =? 0)) items 0.

Definition __sysfs_match_string (fuel : nat) (m : mem) (items : list Z) (str : Z) : outcome Z :=
  match_with (λ item, sysfs_streq fuel m item str) items 0.

(** ** Searching *)

Fixpoint strchr (fuel : nat) (m : mem) (s c : Z) : outcome Z :=
  match fuel with
  | O => Fuel
  | S fuel =>
      if m s =? u8 c then Ok s
      else if m s =? 0 then Ok NULL
      else strchr fuel m (s + 1) c
  end.

Fixpoint strchrnul (fuel : nat) (m : mem) (s c : Z) : outcome Z :=
  match fuel with
  | O => Fuel
  | S fuel =>
      if negb (m s =? 0) && negb (m s =? u8 c) then strchrnul fuel m (s + 1) c else Ok s
  end.

Fixpoint strnchrnul (count : nat) (m : mem) (s c : Z) : Z :=
  match count with
  | O => s
  | S count =>
      if negb (m s =? 0) && negb (m s =? u8 c) then strnchrnul count m (s + 1) c else s
  end.

Fixpoint strrchr_loop (fuel : nat) (m : mem) (s c last : Z) : outcome Z :=
  match fuel with
  | O => Fuel
  | S fuel =>
      let last := if m s =? u8 c then s else last in
      if m s =? 0 then Ok last else strrchr_loop fuel m (s + 1) c last
  end.

Definition strrchr (fuel : nat) (m : mem) (s c : Z) : outcome Z :=
  strrchr_loop fuel m s c NULL.

Fixpoint strnchr (count : nat) (m : mem) (s c : Z) : Z :=
  match count with
  | O => NULL
  | S count =>
      if m s =? u8 c then s
      else if m s =? 0 then NULL
      else strnchr count m (s + 1) c
  end.

Fixpoint memscan (size : nat) (m : mem) (p c : Z) : Z :=
  match size with
  | O => p
  | S size => if m p =? c then p else memscan size m (p + 1) c
  end.

Fixpoint memchr (n : nat) (m : mem) (p c : Z) : Z :=
  match n with
  | O => NULL
  | S n => if u8 c =? m p then p else memchr n m (p + 1) c
  end.

(** The inner loops of [strspn], [strcspn] and [strpbrk]: whether the byte
    occurs in the set. *)
Fixpoint in_set (fuel : nat) (m : mem) (a c : Z) : outcome bool :=
  match fuel with
  | O => Fuel
  | S fuel =>
      if m a =? 0 then Ok false
      else if c =? m a then Ok true
      else in_set fuel m (a + 1) c
  end.

Fixpoint strspn_loop (fuel : nat) (fuel_set : nat) (m : mem) (p accept count : Z) : outcome Z :=
  match fuel with
  | O => Fuel
  | S fuel =>
      if m p =? 0 then Ok count
      else b ← in_set fuel_set m accept (m p);
           if negb b then Ok count
           else strspn_loop fuel fuel_set m (p + 1) accept (count + 1)
  end.

Definition strspn (fuel : nat) (m : mem) (s accept : Z) : outcome Z :=
  strspn_loop fuel fuel m s accept 0.

Fixpoint strcspn_loop (fuel : nat) (fuel_set : nat) (m : mem) (p reject count : Z) : outcome Z :=
  match fuel with
  | O => Fuel
  | S fuel =>
      if m p =? 0 then Ok count
      else b ← in_set fuel_set m reject (m p);
           if (b : bool) then Ok count
           else strcspn_loop fuel fuel_set m (p + 1) reject (count + 1)
  end.

Definition strcspn (fuel : nat) (m : mem) (s reject : Z) : outcome Z :=
  strcspn_loop fuel fuel m s reject 0.

Fixpoint strpbrk_loop (fuel : nat) (fuel_set : nat) (m : mem) (sc1 ct : Z) : outcome Z :=
  match fuel with
  | O => Fuel
  | S fuel =>
      if m sc1 =? 0 then Ok NULL
      else b ← in_set fuel_set m ct (m sc1);
           if (b : bool) then Ok sc1
           else strpbrk_loop fuel fuel_set m (sc1 + 1) ct
  end.

Definition strpbrk (fuel : nat) (m : mem) (cs ct : Z) : outcome Z :=
  strpbrk_loop fuel fuel m cs ct.

(** [strsep]: the token and the new value of [*s]. *)
Definition strsep (fuel : nat) (m : mem) (s ct : Z) : outcome (mem * Z * Z) :=
  if s =? NULL then Ok (m, NULL, s)
  else
    end_ ← strpbrk fuel m s ct;
    if end_ =? NULL then Ok (m, s, NULL)
    else Ok (upd m end_ 0, s, end_ + 1).

Fixpoint strstr_loop (n : nat) (m : mem) (s1 s2 : Z) (l2 : nat) : Z :=
  match n with
  | O => NULL
  | S n => if memcmp l2 m s1 s2 =? 0 then s1 else strstr_loop n m (s1 + 1) s2 l2
  end.

(** [while (l1 >= l2)] with [l1--]: [l1 - l2 + 1] rounds. *)
Definition strstr (fuel : nat) (m : mem) (s1 s2 : Z) : outcome Z :=
  l2 ← strlen fuel m s2;
  if l2 =? 0 then Ok s1
  else l1 ← strlen fuel m s1;
       Ok (strstr_loop (Z.to_nat (l1 - l2 + 1)) m s1 s2 (Z.to_nat l2)).

Definition strnstr (fuel : nat) (m : mem) (s1 s2 len : Z) : outcome Z :=
  l2 ← strlen fuel m s2;
  if l2 =? 0 then Ok s1
  else Ok (strstr_loop (Z.to_nat (len - l2 + 1)) m s1 s2 (Z.to_nat l2)).

Fixpoint skip_spaces (fuel : nat) (m : mem) (str : Z) : outcome Z :=
  match fuel with
  | O => Fuel
  | S fuel => if isspace (m str) then skip_spaces fuel m (str + 1) else Ok str
  end.

(** ** Writing *)

Fixpoint memset (count : nat) (m : mem) (xs c : Z) : mem :=
  match count with
  | O => m
  | S count => memset count (upd m xs (u8 c)) (xs + 1) c
  end.

Fixpoint memcpy (count : nat) (m : mem) (tmp s : Z) : mem :=
  match count with
  | O => m
  | S count => memcpy count (upd m tmp (m s)) (tmp + 1) (s + 1)
  end.

(** [while (count--) *--tmp = *--s], with [tmp] and [s] past the end. *)
Fixpoint copy_down (count : nat) (m : mem) (tmp s : Z) : mem :=
  match count with
  | O => m
  | S count => copy_down count (upd m (tmp - 1) (m (s - 1))) (tmp - 1) (s - 1)
  end.

Definition memmove (m : mem) (dest src count : Z) : mem :=
  if dest <=? src then memcpy (Z.to_nat count) m dest src
  else copy_down (Z.to_nat count) m (dest + count) (src + count).

(** [while (( *dest++ = *src++ ) != 0)]: the memory and [dest] after the loop. *)
Fixpoint copy_loop (fuel : nat) (m : mem) (dest src : Z) : outcome (mem * Z) :=
  match fuel with
  | O => Fuel
  | S fuel =>
      let c := m src in
      let m := upd m dest c in
      if c =? 0 then Ok (m, dest + 1) else copy_loop fuel m (dest + 1) (src + 1)
  end.

Definition strcpy (fuel : nat) (m : mem) (dest src : Z) : outcome (mem * Z) :=
  '(m, _) ← copy_loop fuel m dest src; Ok (m, dest).

Definition stpcpy (fuel : nat) (m : mem) (dest src : Z) : outcome (mem * Z) :=
  '(m, d) ← copy_loop fuel m dest src; Ok (m, d - 1).

Fixpoint strncpy (count : nat) (m : mem) (tmp src : Z) : mem :=
  match count with
  | O => m
  | S count =>
      let c := m src in
      strncpy count (upd m tmp c) (tmp + 1) (if c =? 0 then src else src + 1)
  end.

Definition strlcpy (fuel : nat) (m : mem) (dest src size : Z) : outcome (mem * Z) :=
  ret ← strlen fuel m src;
  if size =? 0 then Ok (m, ret)
  else
    let len := if size <=? ret then size - 1 else ret in
    let m := memcpy (Z.to_nat len) m dest src in
    Ok (upd m (dest + len) 0, ret).

(** The helpers of word-at-a-time.h, with [one_bits] and [high_bits] the
    repeated bytes 0x01 and 0x80. *)
Definition one_bits : Z := 0x0101010101010101.
Definition high_bits : Z := 0x8080808080808080.

Definition has_zero (val : Z) : Z :=
  Z.land (Z.land (u64 (val - one_bits)) (u64 (Z.lnot val))) high_bits.
Definition prep_zero_mask (val bits : Z) : Z := bits.
Definition create_zero_mask (bits : Z) : Z :=
  Z.shiftr (Z.land (u64 (bits - 1)) (u64 (Z.lnot bits))) 7.
Definition find_zero (mask : Z) : Z := Z.shiftr (fls64 mask) 3.
Definition zero_bytemask (mask : Z) : Z := mask.

(** The byte loop of [strscpy] and its tail. *)
Fixpoint strscpy_bytes (count : nat) (m : mem) (dest src res : Z) : mem * Z :=
  match count with
  | O => (if res =? 0 then m else upd m (dest + res - 1) 0, - E2BIG)
  | S count =>
      let c := m (src + res) in
      let m := upd m (dest + res) c in
      if c =? 0 then (m, res) else strscpy_bytes count m dest src (res + 1)
  end.

(** The word loop, [max / 8] rounds. *)
Fixpoint strscpy_words (words : nat) (m : mem) (dest src res count : Z) : mem * Z :=
  match words with
  | O => strscpy_bytes (Z.to_nat count) m dest src res
  | S words =>
      let c := read64 m (src + res) in
      let data := has_zero c in
      if negb (data =? 0) then
        let data := create_zero_mask (prep_zero_mask c data) in
        (write64 m (dest + res) (Z.land c (zero_bytemask data)), res + find_zero data)
      else strscpy_words words (write64 m (dest + res) c) dest src (res + 8) (count - 8)
  end.

Definition strscpy (m : mem) (dest src count : Z) : mem * Z :=
  if (count =? 0) || (INT_MAX <? count) then (m, - E2BIG)
  else
    let max := if negb (Z.land (Z.lor dest src) 7 =? 0) then 0 else count in
    strscpy_words (Z.to_nat (max / 8)) m dest src 0 count.

Definition strscpy_pad (m : mem) (dest src count : Z) : mem * Z :=
  let '(m, written) := strscpy m dest src count in
  if (written <? 0) || (written =? u64 (count - 1)) then (m, written)
  else (memset (Z.to_nat (count - written - 1)) m (dest + written + 1) 0, written).

(** [while ( *dest ) dest++] *)
Definition string_end (fuel : nat) (m : mem) (dest : Z) : outcome Z := strlen_loop fuel m dest.

Definition strcat (fuel : nat) (m : mem) (dest src : Z) : outcome (mem * Z) :=
  d ← string_end fuel m dest;
  '(m, _) ← copy_loop fuel m d src; Ok (m, dest).

(** The copy of [strncat]; [count] is not 0. *)
Fixpoint strncat_loop (count : nat) (m : mem) (dest src : Z) : mem :=
  match count with
  | O => upd m dest 0
  | S count =>
      let c := m src in
      let m := upd m dest c in
      if c =? 0 then m else strncat_loop count m (dest + 1) (src + 1)
  end.

Definition strncat (fuel : nat) (m : mem) (dest src count : Z) : outcome (mem * Z) :=
  if count =? 0 then Ok (m, dest)
  else d ← string_end fuel m dest; Ok (strncat_loop (Z.to_nat count) m d src, dest).

Definition strlcat (fuel : nat) (m : mem) (dest src count : Z) : outcome (mem * Z) :=
  dsize ← strlen fuel m dest;
  len ← strlen fuel m src;
  let res := dsize + len in
  if count <=? dsize then Panic
  else
    let dest := dest + dsize in
    let count := count - dsize in
    let len := if count <=? len then count - 1 else len in
    let m := memcpy (Z.to_nat len) m dest src in
    Ok (upd m (dest + len) 0, res).

(** [while (end >= s && isspace( *end )) end--], over the [n] bytes before. *)
Fixpoint trim_end (n : nat) (m : mem) (end_ : Z) : Z :=
  match n with
  | O => end_
  | S n => if isspace (m end_) then trim_end n m (end_ - 1) else end_
  end.

Definition strim (fuel : nat) (m : mem) (s : Z) : outcome (mem * Z) :=
  size ← strlen fuel m s;
  if size =? 0 then Ok (m, s)
  else
    let end_ := trim_end (Z.to_nat size) m (s + size - 1) in
    let m := upd m (end_ + 1) 0 in
    r ← skip_spaces fuel m s; Ok (m, r).

Fixpoint strreplace (fuel : nat) (m : mem) (s old new : Z) : outcome (mem * Z) :=
  match fuel with
  | O => Fuel
  | S fuel =>
      if m s =? 0 then Ok (m, s)
      else strreplace fuel (if m s =? old then upd m s new else m) (s + 1) old new
  end.

(** ** The word-wise search for another byte *)

Fixpoint check_bytes8 (bytes : nat) (m : mem) (start value : Z) : Z :=
  match bytes with
  | O => NULL
  | S bytes => if negb (m start =? value) then start else check_bytes8 bytes m (start + 1) value
  end.

Fixpoint inv_words (words : nat) (m : mem) (start value value64 tail : Z) : Z :=
  match words with
  | O => check_bytes8 (Z.to_nat tail) m start value
  | S words =>
      if negb (read64 m start =? value64) then check_bytes8 8 m start value
      else inv_words words m (start + 8) value value64 tail
  end.

Definition memchr_inv (m : mem) (start c bytes : Z) : Z :=
  let value := u8 c in
  if bytes <=? 16 then check_bytes8 (Z.to_nat bytes) m start value
  else
    let value64 := Z.lor value (u64 (Z.shiftl value 8)) in
    let value64 := Z.lor value64 (u64 (Z.shiftl value64 16)) in
    let value64 := Z.lor value64 (u64 (Z.shiftl value64 32)) in
    let prefix := u32 (start mod 8) in
    let prefix := if prefix =? 0 then 0 else 8 - prefix in
    let r := if prefix =? 0 then NULL else check_bytes8 (Z.to_nat prefix) m start value in
    if negb (r =? NULL) then r
    else
      let start := start + prefix in
      let bytes := bytes - prefix in
      let words := u32 (bytes / 8) in
      inv_words (Z.to_nat words) m start value value64 (bytes mod 8).

End Strings.
