(* ===== verification/StringsSpec.v ===== *)
(** * C strings and memory: theorems

    The routines of lib/src/string.c against the bytes in memory: lengths and
    comparisons, copies with all their overlaps and truncations, the
    word-at-a-time paths against the byte-wise ones, and the searches. *)

From stdpp Require Import base numbers list option.
From Stdlib Require Import ZArith Lia.
From S2P Require Import Prelude Bitops Strings.
Import Ctype Strings.

Open Scope Z_scope.

(** A NUL-terminated string of length [n] at [a]. *)
Definition cstr (m : mem) (a n : Z) : Prop :=
  0 ≤ n ∧ m (a + n) = 0 ∧ ∀ i, 0 ≤ i < n → m (a + i) ≠ 0.

Definition byte_mem (m : mem) : Prop := ∀ x, 0 ≤ m x < 256.

(** The memories agree outside [n] bytes at [a]. *)
Definition same_outside (m m' : mem) (a n : Z) : Prop :=
  ∀ x, ¬ (a ≤ x < a + n) → m' x = m x.

Definition apart (a n b k : Z) : Prop := a + n ≤ b ∨ b + k ≤ a.

(** The first position where the byte sequences at [a] and [b] differ. *)
Definition first_diff (m : mem) (a b j : Z) : Prop :=
  0 ≤ j ∧ m (a + j) ≠ m (b + j) ∧ ∀ i, 0 ≤ i < j → m (a + i) = m (b + i).

Lemma upd_same m a v : upd m a v a = v.
Proof. unfold upd. by rewrite Z.eqb_refl. Qed.

Lemma upd_other m a v x : x ≠ a → upd m a v x = m x.
Proof. intros. unfold upd. by destruct (Z.eqb_spec x a). Qed.

Lemma upd_spec m a v x : upd m a v x = if decide (x = a) then v else m x.
Proof. destruct (decide (x = a)) as [->|]; [apply upd_same|by apply upd_other]. Qed.

Lemma cstr_tail m a n : cstr m a n → 0 < n → cstr m (a + 1) (n - 1).
Proof.
  intros (? & H0 & Hn) ?. split_and!; [lia| |].
  - by replace (a + 1 + (n - 1)) with (a + n) by lia.
  - intros i Hi. replace (a + 1 + i) with (a + (i + 1)) by lia. apply Hn. lia.
Qed.

Lemma cstr_head m a n : cstr m a n → (m a = 0 ↔ n = 0).
Proof.
  intros (? & H0 & Hn). split.
  - intros E. destruct (Z.eq_dec n 0); [done|]. specialize (Hn 0 ltac:(lia)).
    by rewrite Z.add_0_r in Hn.
  - intros ->. by rewrite Z.add_0_r in H0.
Qed.

(** A string at [a] has one length. *)
Lemma cstr_unique m a n k : cstr m a n → cstr m a k → n = k.
Proof.
  intros (? & Hn & Hn') (? & Hk & Hk'). destruct (Z.lt_trichotomy n k) as [?|[?|?]]; [|done|].
  - by destruct (Hk' n ltac:(lia)).
  - by destruct (Hn' k ltac:(lia)).
Qed.

(** ** Length *)

Lemma strlen_loop_spec m : ∀ fuel a n,
  cstr m a n → n < Z.of_nat fuel → strlen_loop fuel m a = Ok (a + n).
Proof.
  induction fuel as [|fuel IH]; intros a n Hc Hf; [destruct Hc; lia|]. cbn [strlen_loop].
  pose proof (cstr_head _ _ _ Hc) as Hh. destruct (Z.eqb_spec (m a) 0) as [E|E].
  - apply Hh in E as ->. by rewrite Z.add_0_r.
  - pose proof Hc as (? & _). assert (n ≠ 0) by (intros ->; by apply E, Hh).
    rewrite (IH (a + 1) (n - 1)); [f_equal; lia|apply cstr_tail; [done|lia]|lia].
Qed.

Lemma strlen_spec fuel m a n :
  cstr m a n → n < Z.of_nat fuel → strlen fuel m a = Ok n.
Proof.
  intros Hc Hf. unfold strlen. rewrite (strlen_loop_spec m fuel a n) by done. cbn. f_equal. lia.
Qed.

Lemma strnlen_loop_spec m : ∀ count a n,
  cstr m a n → strnlen_loop count m a = a + Z.min n (Z.of_nat count).
Proof.
  induction count as [|count IH]; intros a n Hc; cbn [strnlen_loop]; [destruct Hc; lia|].
  pose proof (cstr_head _ _ _ Hc) as Hh. destruct (Z.eqb_spec (m a) 0) as [E|E].
  - apply Hh in E as ->. lia.
  - pose proof Hc as (? & _). assert (n ≠ 0) by (intros ->; by apply E, Hh).
    rewrite (IH (a + 1) (n - 1)); [lia|apply cstr_tail; [done|lia]].
Qed.

(** ** Comparison *)

(** What a comparison of the first [count] bytes returns: 0 when they agree up
    to and including a NUL or up to [count], the sign of the first difference
    otherwise. *)
Definition compared (m : mem) (a b count r : Z) : Prop :=
  (r = 0 ∧ ∃ e, 0 ≤ e ≤ count ∧ (∀ i, 0 ≤ i < e → m (a + i) = m (b + i)) ∧
     (e = count ∨ (m (a + e) = 0 ∧ m (b + e) = 0))) ∨
  (∃ j, j < count ∧ first_diff m a b j ∧ (∀ i, 0 ≤ i < j → m (a + i) ≠ 0) ∧
     r = if m (a + j) <? m (b + j) then -1 else 1).

Lemma compared_step m a b count r :
  m a = m b → m a ≠ 0 → 0 ≤ count →
  compared m (a + 1) (b + 1) count r → compared m a b (count + 1) r.
Proof.
  intros E Hne Hc [[-> (e & He & Heq & Hend)]|(j & Hj & (Hj0 & Hd & Heq) & Hnz & ->)].
  - left. split; [done|]. exists (e + 1). split_and!; [lia|lia| |].
    + intros i Hi. destruct (Z.eq_dec i 0) as [->|]; [by rewrite !Z.add_0_r|].
      specialize (Heq (i - 1) ltac:(lia)).
      by replace (a + 1 + (i - 1)) with (a + i) in Heq by lia;
         replace (b + 1 + (i - 1)) with (b + i) in Heq by lia.
    + destruct Hend as [->|[??]]; [by left|right].
      by replace (a + (e + 1)) with (a + 1 + e) by lia;
         replace (b + (e + 1)) with (b + 1 + e) by lia.
  - right. exists (j + 1).
    replace (a + (j + 1)) with (a + 1 + j) by lia. replace (b + (j + 1)) with (b + 1 + j) by lia.
    split_and!; [lia| | |done].
    + split_and!; [lia| |].
      * by replace (a + (j + 1)) with (a + 1 + j) by lia;
           replace (b + (j + 1)) with (b + 1 + j) by lia.
      * intros i Hi. destruct (Z.eq_dec i 0) as [->|]; [by rewrite !Z.add_0_r|].
        specialize (Heq (i - 1) ltac:(lia)).
        by replace (a + 1 + (i - 1)) with (a + i) in Heq by lia;
           replace (b + 1 + (i - 1)) with (b + i) in Heq by lia.
    + intros i Hi. destruct (Z.eq_dec i 0) as [->|]; [by rewrite Z.add_0_r|].
      specialize (Hnz (i - 1) ltac:(lia)). by replace (a + 1 + (i - 1)) with (a + i) in Hnz by lia.
Qed.

Lemma compared_head m a b count :
  m a ≠ m b → 0 < count → compared m a b count (if m a <? m b then -1 else 1).
Proof.
  intros Hne Hc. right. exists 0. unfold first_diff. rewrite !Z.add_0_r.
  split_and!; try lia; try done.
Qed.

Lemma compared_nul m a b count :
  m a = m b → m a = 0 → 0 < count → compared m a b count 0.
Proof.
  intros E Hz Hc. left. split; [done|]. exists 0. rewrite !Z.add_0_r.
  split_and!; [lia|lia|intros; lia|]. right. split; [done|congruence].
Qed.

Lemma strncmp_spec m : ∀ count a b,
  compared m a b (Z.of_nat count) (strncmp count m a b).
Proof.
  induction count as [|count IH]; intros a b; cbn [strncmp].
  { left. split; [done|]. exists 0. split_and!; [lia|lia|intros; lia|by left]. }
  destruct (Z.eqb_spec (m a) (m b)) as [E|E]; cbn [negb]; [|apply compared_head; [done|lia]].
  destruct (Z.eqb_spec (m a) 0); [apply compared_nul; [done..|lia]|].
  replace (Z.of_nat (S count)) with (Z.of_nat count + 1) by lia.
  apply compared_step; [done..|lia|apply IH].
Qed.

Lemma strcmp_strncmp m : ∀ fuel a b n,
  cstr m a n → n < Z.of_nat fuel → strcmp fuel m a b = Ok (strncmp fuel m a b).
Proof.
  induction fuel as [|fuel IH]; intros a b n Hc Hf; [destruct Hc; lia|]. cbn [strcmp strncmp].
  destruct (Z.eqb_spec (m a) (m b)); [|done]. cbn [negb].
  destruct (Z.eqb_spec (m a) 0) as [|E]; [done|]. pose proof Hc as (? & _).
  assert (n ≠ 0) by (intros ->; by apply E, (cstr_head _ _ _ Hc)).
  apply (IH _ _ (n - 1)); [apply cstr_tail; [done|lia]|lia].
Qed.

Lemma compared_equal m a b n k count :
  cstr m a n → cstr m b k → n < count → compared m a b count 0 →
  n = k ∧ ∀ i, 0 ≤ i < n → m (a + i) = m (b + i).
Proof.
  intros Ha Hb Hlt Hcmp. pose proof Ha as (Hn & Han & Hanz).
  destruct Hcmp as [[_ (e & He & Heq & Hend)]|(j & _ & _ & _ & Hr)];
    [|by destruct (m (a + j) <? m (b + j))].
  assert (n ≤ e) as Hne.
  { destruct (Z.le_gt_cases n e); [done|]. destruct Hend as [->|[Hz _]]; [lia|].
    by destruct (Hanz e ltac:(lia)). }
  assert (m (b + n) = 0) as Hbn.
  { destruct (Z.eq_dec n e) as [->|]; [destruct Hend as [->|[_ ?]]; [lia|done]|].
    by rewrite <- Heq by lia. }
  split; [|intros i Hi; apply Heq; lia].
  apply (cstr_unique m b); [|done]. split_and!; [done..|].
  intros i Hi. rewrite <- Heq by lia. by apply Hanz.
Qed.

(** [strcmp] on NUL-terminated strings terminates and returns 0 exactly
    for equal strings, and otherwise -1 or 1 by the unsigned order of the first
    bytes that differ; [strncmp] does the same on the first [count] bytes and
    never looks past a NUL or past [count]. *)
Theorem strcmp_correct fuel m a b n k count :
  cstr m a n → cstr m b k → n < Z.of_nat fuel →
  (∃ r, strcmp fuel m a b = Ok r ∧
    (r = 0 ↔ n = k ∧ ∀ i, 0 ≤ i < n → m (a + i) = m (b + i)) ∧
    (r ≠ 0 → ∃ j, j ≤ Z.min n k ∧ first_diff m a b j ∧
                  r = if m (a + j) <? m (b + j) then -1 else 1)) ∧
  compared m a b (Z.of_nat count) (strncmp count m a b).
Proof.
  intros Ha Hb Hf. split; [|apply strncmp_spec].
  rewrite (strcmp_strncmp m fuel a b n) by done. eexists; split; [done|].
  pose proof (strncmp_spec m fuel a b) as Hcmp. split; [split|].
  - intros E. rewrite E in Hcmp. by apply (compared_equal m a b n k (Z.of_nat fuel)).
  - intros [<- Heq]. destruct Hcmp as [[-> _]|(j & _ & (Hj & Hd & _) & Hnz & ->)]; [done|].
    exfalso. pose proof Ha as (? & Han & _). pose proof Hb as (_ & Hbn & _).
    destruct (Z.lt_trichotomy j n) as [?|[->|?]].
    + by apply Hd, Heq.
    + by rewrite Han, Hbn in Hd.
    + by destruct (Hnz n ltac:(lia)).
  - intros Hr. destruct Hcmp as [[? _]|(j & _ & Hfd & Hnz & ->)]; [done|]. exists j.
    split; [|done]. pose proof Ha as (? & Han & _). pose proof Hb as (? & Hbn & _).
    destruct Hfd as (? & ? & Heq).
    assert (j ≤ n) by (destruct (Z.le_gt_cases j n); [done|by destruct (Hnz n ltac:(lia))]).
    assert (j ≤ k); [|lia]. destruct (Z.le_gt_cases j k); [done|].
    destruct (Hnz k ltac:(lia)). by rewrite Heq by lia.
Qed.

(** Some memory for the witnesses: the text "boot" at 100, "bond" at 200. *)
Definition demo_mem : mem := λ x,
  if x =? 100 then 98 else if x =? 101 then 111 else if x =? 102 then 111
  else if x =? 103 then 116 else if x =? 200 then 98 else if x =? 201 then 111
  else if x =? 202 then 110 else if x =? 203 then 100 else 0.

Lemma cstr_check m a n :
  forallb (λ i, negb (m (a + Z.of_nat i) =? 0)) (seq 0 n) && (m (a + Z.of_nat n) =? 0) = true →
  cstr m a (Z.of_nat n).
Proof.
  rewrite andb_true_iff, forallb_forall. intros [Hn H0%Z.eqb_eq]. split_and!; [lia|done|].
  intros i Hi. specialize (Hn (Z.to_nat i)). rewrite Z2Nat.id in Hn by lia.
  apply Z.eqb_neq, negb_true_iff, Hn, in_seq. lia.
Qed.

Lemma strcmp_correct_witness :
  (∃ r, strcmp 10 demo_mem 100 200 = Ok r ∧
    (r = 0 ↔ 4 = 4 ∧ ∀ i, 0 ≤ i < 4 → demo_mem (100 + i) = demo_mem (200 + i)) ∧
    (r ≠ 0 → ∃ j, j ≤ Z.min 4 4 ∧ first_diff demo_mem 100 200 j ∧
                  r = if demo_mem (100 + j) <? demo_mem (200 + j) then -1 else 1)) ∧
  compared demo_mem 100 200 2 (strncmp 2 demo_mem 100 200).
Proof.
  apply (strcmp_correct 10 demo_mem 100 200 4 4 2);
    [apply (cstr_check _ _ 4); reflexivity|apply (cstr_check _ _ 4); reflexivity|lia].
Defined.

(** ** Copying *)

Lemma memcpy_up : ∀ n m d s x,
  d ≤ s → memcpy n m d s x = if decide (d ≤ x < d + Z.of_nat n) then m (x - d + s) else m x.
Proof.
  induction n as [|n IH]; intros m d s x Hds; cbn [memcpy].
  { destruct (decide _); [lia|done]. }
  rewrite IH, !upd_spec by lia.
  repeat (destruct (decide _)); try lia; f_equal; lia.
Qed.

(** Disjoint areas may lie in any order. *)
Lemma memcpy_apart : ∀ n m d s x,
  apart d (Z.of_nat n) s (Z.of_nat n) →
  memcpy n m d s x = if decide (d ≤ x < d + Z.of_nat n) then m (x - d + s) else m x.
Proof.
  induction n as [|n IH]; intros m d s x Hds; cbn [memcpy].
  { destruct (decide _); [lia|done]. }
  unfold apart in Hds. rewrite IH, !upd_spec by (unfold apart; lia).
  repeat (destruct (decide _)); try lia; f_equal; lia.
Qed.

Lemma copy_down_spec : ∀ n m d s x,
  s ≤ d →
  copy_down n m d s x =
  if decide (d - Z.of_nat n ≤ x < d) then m (x - d + s) else m x.
Proof.
  induction n as [|n IH]; intros m d s x Hds; cbn [copy_down].
  { destruct (decide _); [lia|done]. }
  rewrite IH, !upd_spec by lia.
  repeat (destruct (decide _)); try lia; f_equal; lia.
Qed.

Lemma memset_spec c : ∀ n m a x,
  memset n m a c x = if decide (a ≤ x < a + Z.of_nat n) then u8 c else m x.
Proof.
  induction n as [|n IH]; intros m a x; cbn [memset].
  { destruct (decide _); [lia|done]. }
  rewrite IH, upd_spec. repeat (destruct (decide _)); try lia; done.
Qed.

(** [memmove] copies the old contents of the source to the destination
    and changes nothing else, however the two areas overlap. *)
Theorem memmove_correct m dest src count x :
  0 ≤ count →
  memmove m dest src count x =
  if decide (dest ≤ x < dest + count) then m (x - dest + src) else m x.
Proof.
  intros Hc. unfold memmove. destruct (Z.leb_spec dest src).
  - rewrite memcpy_up, Z2Nat.id by lia. done.
  - rewrite copy_down_spec, Z2Nat.id by lia.
    repeat (destruct (decide _)); try lia; f_equal; lia.
Qed.

Lemma memmove_correct_witness :
  memmove demo_mem 102 100 4 103 =
  if decide (102 ≤ 103 < 102 + 4) then demo_mem (103 - 102 + 100) else demo_mem 103.
Proof. apply memmove_correct. lia. Defined.

(** ** Words and bytes *)

Fixpoint word (l : list Z) : Z :=
  match l with [] => 0 | b :: l => b + 256 * word l end.

Definition bytes (l : list Z) : Prop := Forall (λ b, 0 ≤ b < 256) l.

(** The constants for words of [n] bytes. *)
Definition repeat_byte (b : Z) (n : nat) : Z := word (replicate n b).

(** [has_zero] on words of any length, before it is cut to a word. *)
Definition zeros (l : list Z) : Z :=
  Z.land (Z.land (word l - repeat_byte 1 (length l)) (Z.lnot (word l)))
    (repeat_byte 128 (length l)).

Definition load (m : mem) (a : Z) : list Z := map (λ i, m (a + Z.of_nat i)) (seq 0 8).

Lemma word_range l : bytes l → 0 ≤ word l < 256 ^ Z.of_nat (length l).
Proof.
  induction 1 as [|b l Hb _ IH]; cbn [word length]; [lia|].
  rewrite Nat2Z.inj_succ, Z.pow_succ_r by lia. lia.
Qed.

Lemma word_surj n : ∀ w, 0 ≤ w < 256 ^ Z.of_nat n → ∃ l, bytes l ∧ length l = n ∧ w = word l.
Proof.
  induction n as [|n IH]; intros w Hw.
  - exists []. split; [constructor|]. split; [done|]. cbn in *. lia.
  - rewrite Nat2Z.inj_succ, Z.pow_succ_r in Hw by lia.
    pose proof (Z.div_mod w 256 ltac:(lia)). pose proof (Z.mod_pos_bound w 256 ltac:(lia)).
    destruct (IH (w / 256)) as (l & Hl & Hn & E).
    { split; [apply Z.div_pos; lia|apply Z.div_lt_upper_bound; lia]. }
    exists (w mod 256 :: l). split; [by constructor|]. split; [cbn; lia|]. cbn [word]. lia.
Qed.

Lemma repeat_byte_S b n : repeat_byte b (S n) = repeat_byte b n * 2 ^ 8 + b.
Proof. unfold repeat_byte. cbn. lia. Qed.

(** A byte of a word that is not 0 contributes nothing. *)
Lemma zeros_cons_nonzero b l : 0 < b < 256 → zeros (b :: l) = zeros l * 2 ^ 8.
Proof.
  intros Hb. unfold zeros. cbn [length word]. rewrite !repeat_byte_S.
  replace (b + 256 * word l - (repeat_byte 1 (length l) * 2 ^ 8 + 1))
    with ((word l - repeat_byte 1 (length l)) * 2 ^ 8 + (b - 1)) by lia.
  replace (Z.lnot (b + 256 * word l)) with (Z.lnot (word l) * 2 ^ 8 + (255 - b))
    by (unfold Z.lnot; lia).
  rewrite !land_split by (try lia; apply land_range; lia).
  assert (Z.land (Z.land (b - 1) (255 - b)) 128 = 0) as ->; [|lia].
  assert (forallb (λ i, Z.land (Z.land (Z.of_nat i) (254 - Z.of_nat i)) 128 =? 0) (seq 0 255) = true)
    as Hall by (vm_compute; reflexivity).
  rewrite forallb_forall in Hall. specialize (Hall (Z.to_nat (b - 1))).
  rewrite Z2Nat.id in Hall by lia. apply Z.eqb_eq.
  replace (255 - b) with (254 - (b - 1)) by lia. apply Hall, in_seq. lia.
Qed.

(** The first byte that is 0 sets its high bit. *)
Lemma zeros_cons_zero l : bytes l → ∃ x, 0 ≤ x ∧ zeros (0 :: l) = x * 2 ^ 8 + 128.
Proof.
  intros Hl. unfold zeros. cbn [length word]. rewrite !repeat_byte_S.
  replace (0 + 256 * word l - (repeat_byte 1 (length l) * 2 ^ 8 + 1))
    with ((word l - repeat_byte 1 (length l) - 1) * 2 ^ 8 + 255) by lia.
  replace (Z.lnot (0 + 256 * word l)) with (Z.lnot (word l) * 2 ^ 8 + 255)
    by (unfold Z.lnot; lia).
  rewrite !land_split by (try lia; apply land_range; lia).
  eexists. split; [|reflexivity]. apply Z.land_nonneg. right.
  apply (word_range (replicate (length l) 128)). apply Forall_replicate. lia.
Qed.

Lemma zeros_none l : Forall (λ b, 0 < b < 256) l → zeros l = 0.
Proof.
  induction 1 as [|b l Hb _ IH]; [done|]. by rewrite zeros_cons_nonzero, IH.
Qed.

Lemma zeros_first l1 l2 :
  Forall (λ b, 0 < b < 256) l1 → bytes l2 →
  ∃ x, 0 ≤ x ∧ zeros (l1 ++ 0 :: l2) = 2 ^ (8 * Z.of_nat (length l1) + 7) * (2 * x + 1).
Proof.
  intros H1 H2. induction H1 as [|b l1 Hb _ IH].
  - destruct (zeros_cons_zero l2 H2) as (x & ? & E). exists x. split; [done|].
    cbn [app length]. rewrite E. lia.
  - destruct IH as (x & ? & E). exists x. split; [done|]. cbn [app length].
    rewrite zeros_cons_nonzero, E by done.
    replace (8 * Z.of_nat (S (length l1)) + 7) with (8 * Z.of_nat (length l1) + 7 + 8) by lia.
    rewrite (Z.pow_add_r 2 _ 8) by lia. ring.
Qed.

(** The bits below the lowest one. *)
Lemma below_lowest p x :
  0 ≤ p → Z.land (2 ^ p * (2 * x + 1) - 1) (Z.lnot (2 ^ p * (2 * x + 1))) = 2 ^ p - 1.
Proof.
  intros Hp. assert (0 < 2 ^ p) by (apply Z.pow_pos_nonneg; lia).
  replace (2 ^ p * (2 * x + 1) - 1) with (2 * x * 2 ^ p + (2 ^ p - 1)) by lia.
  replace (Z.lnot (2 ^ p * (2 * x + 1))) with (Z.lnot (2 * x + 1) * 2 ^ p + (2 ^ p - 1))
    by (unfold Z.lnot; lia).
  rewrite land_split, Z.land_diag by lia.
  assert (Z.land (2 * x) (Z.lnot (2 * x + 1)) = 0) as ->; [|lia].
  apply Z.bits_inj'. intros i Hi. rewrite Z.land_spec, Z.lnot_spec, Z.bits_0 by done.
  destruct (Z.eq_dec i 0) as [->|]; [by rewrite Z.testbit_even_0|].
  replace i with (Z.succ (i - 1)) by lia.
  rewrite Z.testbit_even_succ, Z.testbit_odd_succ by lia. by destruct (Z.testbit x (i - 1)).
Qed.

Lemma word_app l1 l2 : word (l1 ++ l2) = word l1 + 2 ^ (8 * Z.of_nat (length l1)) * word l2.
Proof.
  induction l1 as [|b l1 IH]; cbn [app word length]; [lia|]. rewrite IH.
  replace (8 * Z.of_nat (S (length l1))) with (8 + 8 * Z.of_nat (length l1)) by lia.
  rewrite Z.pow_add_r by lia. ring.
Qed.

Lemma byte_of_spec w i : 0 ≤ i → byte_of w i = w / 2 ^ (8 * i) mod 256.
Proof.
  intros Hi. unfold byte_of. change 0xff with (2 ^ 8 - 1).
  by rewrite land_ones_mod, shiftr_div by lia.
Qed.

Lemma byte_of_word l i : bytes l → byte_of (word l) (Z.of_nat i) = default 0 (l !! i).
Proof.
  intros Hl. revert i. induction Hl as [|b l Hb _ IH]; intros i.
  { rewrite byte_of_spec by lia. cbn [word].
    by rewrite Z.div_0_l by (apply Z.pow_nonzero; lia). }
  rewrite byte_of_spec by lia. destruct i as [|i]; cbn [lookup list_lookup default word].
  - change (2 ^ (8 * Z.of_nat 0)) with 1. rewrite Z.div_1_r.
    rewrite (Z.mul_comm 256), Z.mod_add, Z.mod_small by lia. done.
  - rewrite <- IH, byte_of_spec by lia.
    replace (8 * Z.of_nat (S i)) with (8 + 8 * Z.of_nat i) by lia.
    rewrite Z.pow_add_r, <- Z.div_div by lia. change (2 ^ 8) with 256.
    by rewrite (Z.mul_comm 256), Z.add_comm, Z.div_add_l, (Z.div_small b), Z.add_0_r by lia.
Qed.

Lemma write_bytes_spec m a w n x :
  write_bytes m a w n x =
  if decide (a ≤ x < a + Z.of_nat n) then byte_of w (x - a) else m x.
Proof.
  induction n as [|n IH]; cbn [write_bytes]; [destruct (decide _); [lia|done]|].
  rewrite upd_spec, IH. repeat (destruct (decide _)); try lia; try done. f_equal. lia.
Qed.

Lemma write64_spec m a w x :
  write64 m a w x = if decide (a ≤ x < a + 8) then byte_of w (x - a) else m x.
Proof. apply write_bytes_spec. Qed.

Lemma read64_word m a : read64 m a = word (load m a).
Proof.
  unfold read64, load. cbn [map seq word].
  change (Z.of_nat 0) with 0. change (Z.of_nat 1) with 1. change (Z.of_nat 2) with 2.
  change (Z.of_nat 3) with 3. change (Z.of_nat 4) with 4. change (Z.of_nat 5) with 5.
  change (Z.of_nat 6) with 6. change (Z.of_nat 7) with 7. rewrite Z.add_0_r. ring.
Qed.

Lemma load_bytes m a : byte_mem m → bytes (load m a).
Proof. intros H. unfold load, bytes. apply Forall_fmap, Forall_forall. intros i _. apply H. Qed.

Lemma load_lookup m a i : (i < 8)%nat → load m a !! i = Some (m (a + Z.of_nat i)).
Proof. intros Hi. unfold load. by rewrite list_lookup_fmap, lookup_seq_lt. Qed.

Lemma length_load m a : length (load m a) = 8%nat.
Proof. done. Qed.

Lemma has_zero_zeros l : length l = 8%nat → has_zero (word l) = zeros l.
Proof.
  intros Hl. unfold has_zero, zeros. rewrite Hl.
  change (repeat_byte 1 8) with one_bits. change (repeat_byte 128 8) with high_bits.
  assert (0 ≤ high_bits < 2 ^ 64) as Hh by (unfold high_bits; lia).
  rewrite <- !Z.land_assoc, (land_u64_l (Z.lnot _)) by done.
  apply land_u64_l. rewrite Z.land_comm. apply land_range; lia.
Qed.

Lemma create_zero_mask_spec k x :
  0 ≤ k → 0 ≤ x → 2 ^ (8 * k + 7) * (2 * x + 1) < 2 ^ 64 →
  create_zero_mask (2 ^ (8 * k + 7) * (2 * x + 1)) = 2 ^ (8 * k) - 1.
Proof.
  intros Hk Hx Hlt. unfold create_zero_mask.
  assert (0 < 2 ^ (8 * k + 7)) by (apply Z.pow_pos_nonneg; lia).
  assert (0 < 2 ^ (8 * k + 7) * (2 * x + 1)) by (apply Z.mul_pos_pos; lia).
  rewrite (u64_id (_ - 1)), Z.land_comm, land_u64_l, Z.land_comm by lia.
  rewrite below_lowest, shiftr_div by lia. rewrite Z.pow_add_r by lia.
  assert (0 < 2 ^ (8 * k)) by (apply Z.pow_pos_nonneg; lia).
  replace (2 ^ (8 * k) * 2 ^ 7 - 1) with ((2 ^ (8 * k) - 1) * 2 ^ 7 + (2 ^ 7 - 1)) by lia.
  rewrite Z.div_add_l, Z.div_small by lia. lia.
Qed.

Lemma find_zero_spec k : 0 ≤ k < 8 → find_zero (2 ^ (8 * k) - 1) = k.
Proof.
  intros Hk.
  assert (k = 0 ∨ k = 1 ∨ k = 2 ∨ k = 3 ∨ k = 4 ∨ k = 5 ∨ k = 6 ∨ k = 7)
    as [->|[->|[->|[->|[->|[->|[->| ->]]]]]]] by lia; vm_compute; reflexivity.
Qed.

(** The first NUL in a word. *)
Lemma load_cases m a :
  byte_mem m →
  (Forall (λ b, 0 < b < 256) (load m a)) ∨
  (∃ k, (k < 8)%nat ∧ load m a = take k (load m a) ++ 0 :: drop (S k) (load m a) ∧
        Forall (λ b, 0 < b < 256) (take k (load m a)) ∧ m (a + Z.of_nat k) = 0).
Proof.
  intros Hm. destruct (decide (Exists (λ b, b = 0) (load m a))) as [Hex|Hno].
  - right. apply list.Exists_exists in Hex as (z & Hz & ->).
    destruct (list_find_elem_of (λ b, b = 0) (load m a) 0 Hz eq_refl) as [[k b] Hf].
    apply list_find_Some in Hf as (Hk & -> & Hfirst). exists k.
    pose proof (lookup_lt_Some _ _ _ Hk) as Hlt. rewrite length_load in Hlt.
    split_and!; [done|by rewrite take_drop_middle| |].
    + apply Forall_lookup. intros i b Hb. apply lookup_take_Some in Hb as [Hb Hi].
      specialize (Hfirst i b Hb Hi). pose proof (load_bytes m a Hm) as Hbs.
      unfold bytes in Hbs. rewrite Forall_lookup in Hbs. specialize (Hbs i b Hb). lia.
    + rewrite load_lookup in Hk by done. by injection Hk.
  - left. apply list.Forall_forall. intros b Hb. pose proof (load_bytes m a Hm) as Hbs.
    unfold bytes in Hbs. rewrite list.Forall_forall in Hbs. specialize (Hbs b Hb).
    assert (b ≠ 0); [|lia]. intros ->. apply Hno, list.Exists_exists. eauto.
Qed.

(** ** [strscpy] *)

Section strscpy.
Context (m0 : mem) (dest src n C : Z).
Hypothesis (Hm0 : byte_mem m0) (Hc : cstr m0 src n) (HC : 1 ≤ C).
Hypothesis (Hap : apart dest C src (Z.min (n + 1) C)).

(** [res] bytes copied, [cnt] left. *)
Definition copied (m : mem) (res cnt : Z) : Prop :=
  byte_mem m ∧ 0 ≤ res ≤ n ∧ res + cnt = C ∧ 0 ≤ cnt ∧ same_outside m0 m dest C ∧
  ∀ i, 0 ≤ i < res → m (dest + i) = m0 (src + i).

(** The whole string with its NUL, or as much as fits and a NUL. *)
Definition strscpy_post (m' : mem) (ret : Z) : Prop :=
  same_outside m0 m' dest C ∧
  if n <? C then ret = n ∧ ∀ i, 0 ≤ i ≤ n → m' (dest + i) = m0 (src + i)
  else ret = - E2BIG ∧ m' (dest + C - 1) = 0 ∧
       ∀ i, 0 ≤ i < C - 1 → m' (dest + i) = m0 (src + i).

Lemma source_same m res cnt i :
  copied m res cnt → 0 ≤ i ≤ n → i < C → m (src + i) = m0 (src + i).
Proof. intros (_ & _ & _ & _ & H & _) Hi HiC. apply H. unfold apart in Hap. lia. Qed.

Lemma strscpy_bytes_spec : ∀ cnt m res,
  copied m res (Z.of_nat cnt) →
  let '(m', ret) := strscpy_bytes cnt m dest src res in strscpy_post m' ret.
Proof.
  pose proof Hc as (Hn & Hnul & Hnz).
  induction cnt as [|cnt IH]; intros m res Hinv;
    pose proof Hinv as (Hb & Hres & Hsum & Hcnt & Hout & Hcopy); cbn [strscpy_bytes].
  { destruct (Z.eqb_spec res 0); [lia|]. unfold strscpy_post.
    replace (dest + res - 1) with (dest + C - 1) by lia. split.
    - intros x Hx. rewrite upd_other by lia. by apply Hout.
    - destruct (Z.ltb_spec n C); [lia|]. split_and!; [done|by rewrite upd_same|].
      intros i Hi. rewrite upd_other by lia. apply Hcopy. lia. }
  rewrite (source_same m res _ res Hinv) by lia.
  destruct (Z.eqb_spec (m0 (src + res)) 0) as [E|E].
  - assert (res = n) as ->.
    { destruct (Z.eq_dec res n); [done|]. by destruct (Hnz res ltac:(lia)). }
    split.
    + intros x Hx. rewrite upd_other by lia. by apply Hout.
    + destruct (Z.ltb_spec n C); [|lia]. split; [done|]. intros i Hi. rewrite upd_spec.
      destruct (decide _); [f_equal; lia|apply Hcopy; lia].
  - apply IH. assert (res ≠ n) by (intros ->; done). unfold copied. split_and!; try lia.
    + intros x. rewrite upd_spec. destruct (decide _); [apply Hm0|apply Hb].
    + intros x Hx. rewrite upd_other by lia. by apply Hout.
    + intros i Hi. rewrite upd_spec. destruct (decide _); [f_equal; lia|apply Hcopy; lia].
Qed.

(** Storing the bytes [l] of a word at [dest + res]. *)
Lemma write_word m res l i :
  bytes l → 0 ≤ i < 8 →
  write64 m (dest + res) (word l) (dest + res + i) = default 0 (l !! Z.to_nat i).
Proof.
  intros Hl Hi. rewrite write64_spec. destruct (decide _); [|lia].
  replace (dest + res + i - (dest + res)) with (Z.of_nat (Z.to_nat i)) by lia.
  by apply byte_of_word.
Qed.

Lemma byte_mem_write64 m a w : byte_mem m → byte_mem (write64 m a w).
Proof.
  intros Hb x. rewrite write64_spec. destruct (decide _); [|apply Hb].
  rewrite byte_of_spec by lia. apply Z.mod_pos_bound. lia.
Qed.

(** A word without a NUL lies before the end of the string. *)
Lemma word_before_end m res cnt :
  copied m res cnt → 8 ≤ cnt → Forall (λ b, 0 < b < 256) (load m (src + res)) → res + 8 ≤ n.
Proof.
  intros Hinv Hcnt Hall. pose proof Hc as (Hn & Hnul & Hnz). pose proof Hinv as (_ & Hres & Hsum & _).
  destruct (Z.le_gt_cases (res + 8) n); [done|].
  rewrite Forall_lookup in Hall. specialize (Hall (Z.to_nat (n - res)) (m (src + n))).
  rewrite load_lookup in Hall by lia.
  replace (src + res + Z.of_nat (Z.to_nat (n - res))) with (src + n) in Hall by lia.
  specialize (Hall eq_refl). rewrite (source_same m res cnt) in Hall by (done || lia). lia.
Qed.

(** The first NUL of a word is the end of the string. *)
Lemma word_at_end m res cnt k :
  copied m res cnt → 8 ≤ cnt → (k < 8)%nat →
  Forall (λ b, 0 < b < 256) (take k (load m (src + res))) → m (src + res + Z.of_nat k) = 0 → n = res + Z.of_nat k.
Proof.
  intros Hinv Hcnt Hk Hbefore Hzero. pose proof Hc as (Hn & Hnul & Hnz). pose proof Hinv as (_ & Hres & Hsum & _).
  destruct (Z.lt_trichotomy n (res + Z.of_nat k)) as [Hlt|[?|Hgt]]; [|done|].
  - rewrite Forall_lookup in Hbefore. specialize (Hbefore (Z.to_nat (n - res)) (m (src + n))).
    rewrite lookup_take_lt, load_lookup in Hbefore by lia.
    replace (src + res + Z.of_nat (Z.to_nat (n - res))) with (src + n) in Hbefore by lia.
    specialize (Hbefore eq_refl). rewrite (source_same m res cnt) in Hbefore by (done || lia). lia.
  - destruct (Hnz (res + Z.of_nat k)); [lia|].
    rewrite <- (source_same m res cnt) by (done || lia). by rewrite Z.add_assoc.
Qed.

(** Writing a word without a NUL. *)
Lemma copied_word m res cnt :
  copied m res cnt → 8 ≤ cnt → res + 8 ≤ n →
  copied (write64 m (dest + res) (word (load m (src + res)))) (res + 8) (cnt - 8).
Proof.
  intros Hinv Hcnt Hlong. pose proof Hinv as (Hb & Hres & Hsum & _ & Hout & Hcopy).
  pose proof (load_bytes m (src + res) Hb) as Hl. unfold copied. split_and!; try lia.
  - by apply byte_mem_write64.
  - intros x Hx. rewrite write64_spec. destruct (decide _); [lia|]. by apply Hout.
  - intros i Hi. destruct (Z.lt_ge_cases i res).
    + rewrite write64_spec. destruct (decide _); [lia|]. apply Hcopy; lia.
    + replace (dest + i) with (dest + res + (i - res)) by lia.
      rewrite write_word, load_lookup by (done || lia). cbn.
      replace (src + res + Z.of_nat (Z.to_nat (i - res))) with (src + i) by lia.
      apply (source_same m res cnt); done || lia.
Qed.

(** Writing the last bytes before the NUL. *)
Lemma post_word m res cnt k :
  copied m res cnt → 8 ≤ cnt → (k < 8)%nat → n = res + Z.of_nat k →
  Forall (λ b, 0 < b < 256) (take k (load m (src + res))) →
  strscpy_post (write64 m (dest + res) (word (take k (load m (src + res))))) (res + Z.of_nat k).
Proof.
  intros Hinv Hcnt Hk Hnk Hbefore. pose proof Hc as (Hn & Hnul & Hnz).
  pose proof Hinv as (Hb & Hres & Hsum & _ & Hout & Hcopy). pose proof (load_bytes m (src + res) Hb) as Hl.
  assert (length (take k (load m (src + res))) = k) as Hl1 by (rewrite length_take, length_load; lia).
  split.
  - intros y Hy. rewrite write64_spec. destruct (decide _); [lia|]. by apply Hout.
  - destruct (Z.ltb_spec n C); [|lia]. split; [lia|]. intros i Hi. destruct (Z.lt_ge_cases i res).
    + rewrite write64_spec. destruct (decide _); [lia|]. apply Hcopy; lia.
    + replace (dest + i) with (dest + res + (i - res)) by lia.
      rewrite write_word by (by apply Forall_take || lia). destruct (Z.eq_dec i n) as [->|].
      * by rewrite lookup_ge_None_2 by lia.
      * rewrite lookup_take_lt, load_lookup by lia. cbn.
        replace (src + res + Z.of_nat (Z.to_nat (i - res))) with (src + i) by lia.
        apply (source_same m res cnt); done || lia.
Qed.

Lemma strscpy_words_spec : ∀ words m res cnt,
  copied m res cnt → 8 * Z.of_nat words ≤ cnt →
  let '(m', ret) := strscpy_words words m dest src res cnt in strscpy_post m' ret.
Proof.
  induction words as [|words IH]; intros m res cnt Hinv Hw; cbn [strscpy_words].
  { apply strscpy_bytes_spec. rewrite Z2Nat.id by lia. done. }
  pose proof Hinv as (Hb & Hres & Hsum & Hcnt & Hout & Hcopy).
  rewrite read64_word, has_zero_zeros by apply length_load.
  pose proof (load_bytes m (src + res) Hb) as Hl.
  destruct (load_cases m (src + res) Hb) as [Hall|(k & Hk & El & Hbefore & Hzero)].
  - rewrite zeros_none by done. cbn [Z.eqb negb].
    apply IH; [|lia]. apply copied_word; [done|lia|]. eapply word_before_end; [done|lia|done].
  - pose proof (word_at_end m res cnt k Hinv ltac:(lia) Hk Hbefore Hzero) as Hnk.
    pose proof (post_word m res cnt k Hinv ltac:(lia) Hk Hnk Hbefore) as Hpost.
    set (l1 := take k (load m (src + res))) in *.
    assert (length l1 = k) as Hl1 by (unfold l1; rewrite length_take, length_load; lia).
    destruct (zeros_first l1 (drop (S k) (load m (src + res)))) as (x & Hx & Ez); [done|by apply Forall_drop|].
    rewrite <- El, Hl1 in Ez.
    assert (0 < 2 ^ (8 * Z.of_nat k + 7)) by (apply Z.pow_pos_nonneg; lia).
    assert (zeros (load m (src + res)) < 2 ^ 64) as Hlt.
    { rewrite <- has_zero_zeros by apply length_load. unfold has_zero. rewrite Z.land_comm.
      apply land_range; unfold high_bits; lia. }
    destruct (Z.eqb_spec (zeros (load m (src + res))) 0); [nia|]. cbn [negb].
    unfold prep_zero_mask, zero_bytemask. rewrite Ez in Hlt |- *.
    rewrite create_zero_mask_spec, find_zero_spec, land_ones_mod by lia.
    assert (word (load m (src + res)) mod 2 ^ (8 * Z.of_nat k) = word l1) as ->; [|done].
    rewrite El at 1. rewrite word_app, Hl1, Z.mul_comm, Z.mod_add by (apply Z.pow_nonzero; lia).
    apply Z.mod_small. pose proof (word_range l1) as Hr. rewrite Hl1 in Hr.
    rewrite Z.pow_mul_r by lia. apply Hr. by apply Forall_take.
Qed.
End strscpy.

(** [strscpy] from a NUL-terminated source that does not overlap the
    destination never writes outside the [count] bytes of the destination; it
    copies the whole string with its NUL and returns its length when that fits,
    and otherwise copies [count - 1] bytes, terminates them and returns
    [-E2BIG]. This holds on the word-at-a-time path as on the byte path. A
    count of 0 or above [INT_MAX] is refused with [-E2BIG]. *)
Theorem strscpy_correct m dest src n count :
  byte_mem m → cstr m src n → 0 ≤ count → apart dest count src (Z.min (n + 1) count) →
  let '(m', ret) := strscpy m dest src count in
  if (count =? 0) || (INT_MAX <? count) then m' = m ∧ ret = - E2BIG
  else strscpy_post m dest src n count m' ret.
Proof.
  intros Hb Hc Hcount Hap. unfold strscpy. destruct ((count =? 0) || (INT_MAX <? count)) eqn:E; [done|].
  apply orb_false_iff in E as [E%Z.eqb_neq _].
  apply strscpy_words_spec; try done; try lia.
  - destruct Hc as (? & _). unfold copied, same_outside. split_and!; try done; lia.
  - destruct (negb _); [done|]. rewrite Z2Nat.id by (apply Z.div_pos; lia).
    apply Z.mul_div_le. lia.
Qed.

Lemma strscpy_correct_witness :
  let '(m', ret) := strscpy demo_mem 1000 200 16 in
  if (16 =? 0) || (INT_MAX <? 16) then m' = demo_mem ∧ ret = - E2BIG
  else strscpy_post demo_mem 1000 200 4 16 m' ret.
Proof.
  apply strscpy_correct.
  - intros x. unfold demo_mem. repeat (destruct (_ =? _); [lia|]). lia.
  - apply (cstr_check _ _ 4). reflexivity.
  - lia.
  - unfold apart. lia.
Defined.

(** ** [memchr_inv] *)

Lemma check_bytes8_app m value : ∀ a b start,
  0 < start →
  check_bytes8 (a + b) m start value =
  if check_bytes8 a m start value =? NULL
  then check_bytes8 b m (start + Z.of_nat a) value else check_bytes8 a m start value.
Proof.
  induction a as [|a IH]; intros b start Hs; cbn [Nat.add check_bytes8]; [by rewrite Z.add_0_r|].
  destruct (m start =? value); cbn [negb].
  - rewrite IH by lia. by replace (start + 1 + Z.of_nat a) with (start + Z.of_nat (S a)) by lia.
  - unfold NULL. by destruct (Z.eqb_spec start 0); [lia|].
Qed.

Lemma check_bytes8_none m value : ∀ k start,
  0 < start →
  check_bytes8 k m start value = NULL ↔ ∀ i, (i < k)%nat → m (start + Z.of_nat i) = value.
Proof.
  induction k as [|k IH]; intros start Hs; cbn [check_bytes8]; [split; [lia|done]|].
  destruct (Z.eqb_spec (m start) value) as [E|E]; cbn [negb].
  - rewrite IH by lia. split; intros H i Hi.
    + destruct i as [|i]; [by rewrite Z.add_0_r|]. rewrite <- (H i) by lia. f_equal. lia.
    + rewrite <- (H (S i)) by lia. f_equal. lia.
  - unfold NULL. split; [lia|]. intros H. specialize (H 0%nat ltac:(lia)). by rewrite Z.add_0_r in H.
Qed.

Lemma word_inj l1 l2 : length l1 = length l2 → bytes l1 → bytes l2 → word l1 = word l2 → l1 = l2.
Proof.
  revert l2. induction l1 as [|b l1 IH]; intros [|b' l2] Hl H1 H2 E; try done.
  unfold bytes in *. rewrite list.Forall_cons in H1, H2. destruct H1 as [? H1], H2 as [? H2].
  cbn [word length] in *.
  assert (b = b' ∧ word l1 = word l2) as [-> E'] by lia. f_equal. apply IH; try done; lia.
Qed.

(** The doubling of the byte gives eight copies of it. *)
Lemma value64_word v :
  0 ≤ v < 256 →
  let w := Z.lor v (u64 (Z.shiftl v 8)) in
  let w := Z.lor w (u64 (Z.shiftl w 16)) in
  Z.lor w (u64 (Z.shiftl w 32)) = word (replicate 8 v).
Proof.
  intros Hv. cbv zeta.
  assert (forallb (λ i, let v := Z.of_nat i in
    let w := Z.lor v (u64 (Z.shiftl v 8)) in
    let w := Z.lor w (u64 (Z.shiftl w 16)) in
    Z.lor w (u64 (Z.shiftl w 32)) =? word (replicate 8 v)) (seq 0 256) = true) as Hall
    by (vm_compute; reflexivity).
  rewrite forallb_forall in Hall. specialize (Hall (Z.to_nat v)).
  cbv zeta in Hall. rewrite Z2Nat.id in Hall by lia. apply Z.eqb_eq, Hall, in_seq. lia.
Qed.

Lemma read64_all m a v :
  byte_mem m → 0 ≤ v < 256 →
  read64 m a = word (replicate 8 v) ↔ ∀ i, (i < 8)%nat → m (a + Z.of_nat i) = v.
Proof.
  intros Hb Hv. rewrite read64_word. split.
  - intros E%word_inj; [|done|by apply load_bytes|by apply Forall_replicate].
    intros i Hi. pose proof (load_lookup m a i Hi) as Hl. rewrite E, lookup_replicate_2 in Hl by done.
    by injection Hl.
  - intros H. f_equal. apply list_eq. intros i. destruct (decide (i < 8)%nat) as [Hi|Hi].
    + by rewrite load_lookup, lookup_replicate_2, H.
    + rewrite !lookup_ge_None_2; [done|rewrite length_replicate; lia|rewrite length_load; lia].
Qed.

Lemma inv_words_spec m v tail : ∀ words start,
  byte_mem m → 0 ≤ v < 256 → 0 < start → 0 ≤ tail →
  inv_words words m start v (word (replicate 8 v)) tail =
  check_bytes8 (8 * words + Z.to_nat tail) m start v.
Proof.
  induction words as [|words IH]; intros start Hb Hv Hs Ht; cbn [inv_words]; [done|].
  replace (8 * S words + Z.to_nat tail)%nat with (8 + (8 * words + Z.to_nat tail))%nat by lia.
  rewrite (check_bytes8_app m v 8) by done.
  pose proof (check_bytes8_none m v 8 start Hs) as Hnone. rewrite <- (read64_all m start v) in Hnone by done.
  destruct (Z.eqb_spec (read64 m start) (word (replicate 8 v))) as [E|E]; cbn [negb].
  - destruct (Z.eqb_spec (check_bytes8 8 m start v) NULL) as [_|E']; [|by apply Hnone in E].
    rewrite IH by (done || lia). done.
  - destruct (Z.eqb_spec (check_bytes8 8 m start v) NULL) as [E'|_]; [by apply Hnone in E'|done].
Qed.

(** The word-wise [memchr_inv] finds what the byte-wise loop finds: the
    first byte that differs from [c], or NULL when there is none, for areas of
    less than 32 GiB at any alignment. *)
Theorem memchr_inv_correct m start c n :
  byte_mem m → 0 < start → 0 ≤ n < 2 ^ 35 →
  memchr_inv m start c n = check_bytes8 (Z.to_nat n) m start (u8 c).
Proof.
  intros Hb Hs Hn. unfold memchr_inv. destruct (Z.leb_spec n 16); [done|].
  assert (0 ≤ u8 c < 256) as Hv by (unfold u8; apply Z.mod_pos_bound; lia).
  rewrite value64_word by done.
  pose proof (Z.mod_pos_bound start 8 ltac:(lia)) as Hmod. rewrite (u32_id (start mod 8)) by lia.
  set (prefix := if start mod 8 =? 0 then 0 else 8 - start mod 8).
  assert (0 ≤ prefix < 8) as Hp by (unfold prefix; destruct (Z.eqb_spec (start mod 8) 0); lia).
  replace (Z.to_nat n) with (Z.to_nat prefix + Z.to_nat (n - prefix))%nat by lia.
  rewrite check_bytes8_app, Z2Nat.id by lia.
  assert ((if prefix =? 0 then NULL else check_bytes8 (Z.to_nat prefix) m start (u8 c)) =
    check_bytes8 (Z.to_nat prefix) m start (u8 c)) as ->.
  { by destruct (Z.eqb_spec prefix 0) as [->|]. }
  destruct (check_bytes8 (Z.to_nat prefix) m start (u8 c) =? NULL); cbn [negb]; [|done].
  pose proof (Z.mod_pos_bound (n - prefix) 8 ltac:(lia)).
  pose proof (Z.div_mod (n - prefix) 8 ltac:(lia)).
  assert (0 ≤ (n - prefix) / 8 < 2 ^ 32).
  { split; [apply Z.div_pos; lia|]. apply Z.div_lt_upper_bound; lia. }
  rewrite u32_id, inv_words_spec by (done || lia). f_equal. lia.
Qed.

Lemma memchr_inv_correct_witness :
  memchr_inv demo_mem 203 0 40 = check_bytes8 (Z.to_nat 40) demo_mem 203 (u8 0).
Proof.
  apply memchr_inv_correct; [|lia..].
  intros x. unfold demo_mem. repeat (destruct (_ =? _); [lia|]). lia.
Defined.

(** ** Searching *)

Definition matches (m : mem) (a b k : Z) : Prop := ∀ i, 0 ≤ i < k → m (a + i) = m (b + i).

Lemma memcmp_zero m : ∀ k a b, memcmp k m a b = 0 ↔ matches m a b (Z.of_nat k).
Proof.
  induction k as [|k IH]; intros a b; cbn [memcmp]; [split; [intros _ i; lia|done]|].
  destruct (Z.eqb_spec (m a - m b) 0) as [E|E]; cbn [negb].
  - rewrite IH. split; intros H i Hi.
    + destruct (Z.eq_dec i 0) as [->|]; [rewrite !Z.add_0_r; lia|].
      specialize (H (i - 1) ltac:(lia)).
      by replace (a + 1 + (i - 1)) with (a + i) in H by lia;
         replace (b + 1 + (i - 1)) with (b + i) in H by lia.
    + specialize (H (i + 1) ltac:(lia)).
      by replace (a + 1 + i) with (a + (i + 1)) by lia;
         replace (b + 1 + i) with (b + (i + 1)) by lia.
  - split; [lia|]. intros H. specialize (H 0 ltac:(lia)). rewrite !Z.add_0_r in H. lia.
Qed.

(** The first of [k] positions from [a] on where [P] holds, as an address. *)
Definition first_at (P : Z → Prop) (a k r : Z) : Prop :=
  (r = NULL ∧ ∀ j, 0 ≤ j < k → ¬ P (a + j)) ∨
  (∃ j, 0 ≤ j < k ∧ r = a + j ∧ P r ∧ ∀ i, 0 ≤ i < j → ¬ P (a + i)).

Lemma first_at_here (P : Z → Prop) a k : P a → 0 < k → first_at P a k a.
Proof.
  intros. right. exists 0. rewrite Z.add_0_r. split_and!; try done; try lia. 
Qed.

Lemma first_at_next (P : Z → Prop) a k r :
  ¬ P a → first_at P (a + 1) (k - 1) r → first_at P a k r.
Proof.
  intros Hna [[-> H]|(j & Hj & -> & HP & H)].
  - left. split; [done|]. intros j Hj. destruct (Z.eq_dec j 0) as [->|]; [by rewrite Z.add_0_r|].
    specialize (H (j - 1) ltac:(lia)). by replace (a + 1 + (j - 1)) with (a + j) in H by lia.
  - right. exists (j + 1). split_and!; [lia|lia|lia|done|]. intros i Hi.
    destruct (Z.eq_dec i 0) as [->|]; [by rewrite Z.add_0_r|].
    specialize (H (i - 1) ltac:(lia)). by replace (a + 1 + (i - 1)) with (a + i) in H by lia.
Qed.

Lemma first_at_none (P : Z → Prop) a k : k ≤ 0 → first_at P a k NULL.
Proof. intros. left. split; [done|]. intros; lia. Qed.

Lemma strstr_loop_spec m b l2 : ∀ n a,
  first_at (λ x, matches m x b (Z.of_nat l2)) a (Z.of_nat n) (strstr_loop n m a b l2).
Proof.
  induction n as [|n IH]; intros a; cbn [strstr_loop]; [apply first_at_none; lia|].
  destruct (Z.eqb_spec (memcmp l2 m a b) 0) as [E|E]; rewrite memcmp_zero in E.
  - apply first_at_here; [done|lia].
  - apply first_at_next; [done|]. by replace (Z.of_nat (S n) - 1) with (Z.of_nat n) by lia.
Qed.

(** [strstr] terminates on NUL-terminated strings and returns the address
    of the first occurrence of the second string in the first, or NULL when it
    does not occur; an empty second string occurs at the start. *)
Theorem strstr_correct fuel m s1 s2 n1 n2 :
  cstr m s1 n1 → cstr m s2 n2 → n1 < Z.of_nat fuel → n2 < Z.of_nat fuel →
  ∃ r, strstr fuel m s1 s2 = Ok r ∧
       if n2 =? 0 then r = s1
       else first_at (λ x, matches m x s2 n2) s1 (n1 - n2 + 1) r.
Proof.
  intros H1 H2 Hf1 Hf2. unfold strstr. rewrite (strlen_spec fuel m s2 n2) by done.
  cbn [mbind outcome_bind]. destruct (Z.eqb_spec n2 0); [eauto|].
  rewrite (strlen_spec fuel m s1 n1) by done. cbn [mbind outcome_bind]. eexists; split; [done|].
  pose proof H2 as (? & _).
  pose proof (strstr_loop_spec m s2 (Z.to_nat n2) (Z.to_nat (n1 - n2 + 1)) s1) as Hl.
  rewrite (Z2Nat.id n2) in Hl by lia. destruct (Z.le_gt_cases 0 (n1 - n2 + 1)).
  - by rewrite Z2Nat.id in Hl by lia.
  - replace (Z.to_nat (n1 - n2 + 1)) with 0%nat by lia. apply first_at_none. lia.
Qed.

Lemma strstr_correct_witness :
  ∃ r, strstr 10 demo_mem 100 101 = Ok r ∧
       if 3 =? 0 then r = 100
       else first_at (λ x, matches demo_mem x 101 3) 100 (4 - 3 + 1) r.
Proof.
  apply strstr_correct;
    [apply (cstr_check _ _ 4); reflexivity|apply (cstr_check _ _ 3); reflexivity|lia|lia].
Defined.

Definition in_string (m : mem) (a n c : Z) : Prop := ∃ i, 0 ≤ i < n ∧ m (a + i) = c.

Lemma in_set_spec m c : ∀ fuel a n,
  cstr m a n → n < Z.of_nat fuel → ∃ b, in_set fuel m a c = Ok b ∧ (b = true ↔ in_string m a n c).
Proof.
  induction fuel as [|fuel IH]; intros a n Hc Hf; [destruct Hc; lia|]. cbn [in_set].
  pose proof (cstr_head _ _ _ Hc) as Hh. destruct (Z.eqb_spec (m a) 0) as [E|E].
  { apply Hh in E as ->. exists false. split; [done|]. split; [done|]. intros (i & ? & _). lia. }
  pose proof Hc as (? & _). assert (n ≠ 0) by (intros ->; by apply E, Hh).
  destruct (Z.eqb_spec c (m a)) as [->|Hne].
  { exists true. split; [done|]. split; [|done]. intros _. exists 0. rewrite Z.add_0_r. split; [lia|done]. }
  destruct (IH (a + 1) (n - 1)) as (b & -> & Hb); [apply cstr_tail; [done|lia]|lia|].
  exists b. split; [done|]. rewrite Hb. split; intros (i & Hi & Ei).
  - exists (i + 1). split; [lia|]. rewrite <- Ei. f_equal. lia.
  - destruct (Z.eq_dec i 0) as [->|]; [by rewrite Z.add_0_r in Ei|].
    exists (i - 1). split; [lia|]. rewrite <- Ei. f_equal. lia.
Qed.

Lemma strpbrk_loop_spec m ct k fset : ∀ fuel a n,
  cstr m a n → n < Z.of_nat fuel → cstr m ct k → k < Z.of_nat fset →
  ∃ r, strpbrk_loop fuel fset m a ct = Ok r ∧ first_at (λ x, in_string m ct k (m x)) a n r.
Proof.
  induction fuel as [|fuel IH]; intros a n Hc Hf Hct Hfs; [destruct Hc; lia|]. cbn [strpbrk_loop].
  pose proof (cstr_head _ _ _ Hc) as Hh. destruct (Z.eqb_spec (m a) 0) as [E|E].
  { apply Hh in E as ->. eexists; split; [done|]. apply first_at_none. lia. }
  pose proof Hc as (? & _). assert (n ≠ 0) by (intros ->; by apply E, Hh).
  destruct (in_set_spec m (m a) fset ct k Hct Hfs) as (b & -> & Hb). cbn [mbind outcome_bind].
  destruct b.
  - eexists; split; [done|]. apply first_at_here; [by apply Hb|lia].
  - destruct (IH (a + 1) (n - 1)) as (r & -> & Hr); [apply cstr_tail; [done|lia]|lia|done..|].
    exists r. split; [done|]. apply first_at_next; [|done]. intros Hin. by apply Hb in Hin.
Qed.

(** [strsep] terminates; when a separator occurs in the string it cuts the
    string at the first one, so that the returned token is the part before it,
    free of separators, and leaves the rest for the next call; otherwise the
    whole string is the token, memory is untouched and nothing is left. *)
Theorem strsep_correct fuel m s ct n k :
  0 < s → cstr m s n → cstr m ct k → n < Z.of_nat fuel → k < Z.of_nat fuel →
  (∃ e, 0 ≤ e < n ∧ in_string m ct k (m (s + e)) ∧
        (∀ i, 0 ≤ i < e → ¬ in_string m ct k (m (s + i))) ∧
        strsep fuel m s ct = Ok (upd m (s + e) 0, s, s + e + 1) ∧
        cstr (upd m (s + e) 0) s e ∧ cstr (upd m (s + e) 0) (s + e + 1) (n - e - 1)) ∨
  ((∀ i, 0 ≤ i < n → ¬ in_string m ct k (m (s + i))) ∧ strsep fuel m s ct = Ok (m, s, NULL)).
Proof.
  intros Hs Hc Hct Hf Hfk. unfold strsep, strpbrk, NULL in *.
  destruct (Z.eqb_spec s 0); [lia|].
  destruct (strpbrk_loop_spec m ct k fuel fuel s n Hc Hf Hct Hfk)
    as (r & -> & [[-> Hno]|(e & He & -> & HP & Hfirst)]); cbn [mbind outcome_bind].
  { right. by split. }
  destruct (Z.eqb_spec (s + e) 0); [lia|]. left. exists e. destruct Hc as (Hn & Hnul & Hnz).
  split; [lia|]. split; [done|]. split; [done|]. split; [done|]. split.
  - split; [lia|]. split; [by rewrite upd_same|]. intros i Hi.
    rewrite upd_other by lia. apply Hnz. lia.
  - split; [lia|]. split.
    + rewrite upd_other by lia. by replace (s + e + 1 + (n - e - 1)) with (s + n) by lia.
    + intros i Hi. rewrite upd_other by lia.
      replace (s + e + 1 + i) with (s + (e + 1 + i)) by lia. apply Hnz. lia.
Qed.

Lemma strsep_correct_witness :
  (∃ e, 0 ≤ e < 4 ∧ in_string demo_mem 203 1 (demo_mem (200 + e)) ∧
        (∀ i, 0 ≤ i < e → ¬ in_string demo_mem 203 1 (demo_mem (200 + i))) ∧
        strsep 10 demo_mem 200 203 = Ok (upd demo_mem (200 + e) 0, 200, 200 + e + 1) ∧
        cstr (upd demo_mem (200 + e) 0) 200 e ∧
        cstr (upd demo_mem (200 + e) 0) (200 + e + 1) (4 - e - 1)) ∨
  ((∀ i, 0 ≤ i < 4 → ¬ in_string demo_mem 203 1 (demo_mem (200 + i))) ∧
   strsep 10 demo_mem 200 203 = Ok (demo_mem, 200, NULL)).
Proof.
  apply strsep_correct; try lia;
    [apply (cstr_check _ _ 4); reflexivity|apply (cstr_check _ _ 1); reflexivity].
Defined.
