(* ===== verification/Kstrtox.v ===== *)
(** * Converting strings to integers

    lib/src/kstrtox.c. A NUL-terminated string is the list of its bytes, and
    reading past the last one gives the NUL. The conversions return an error
    code, or 0 with the value stored through the result pointer: [inl] and
    [inr]. *)

From stdpp Require Import base numbers list option.
From Stdlib Require Import ZArith Lia.
From S2P Require Import Prelude Strings.
Import Ctype.

Open Scope Z_scope.

Module Kstrtox.

Definition ERANGE : Z := 34.
Definition EINVAL : Z := 22.
Definition KSTRTOX_OVERFLOW : Z := 2 ^ 31.
Definition ULLONG_MAX : Z := 2 ^ 64 - 1.

(** [s[i]] *)
Definition char_at (s : list Z) (i : nat) : Z := default 0 (s !! i).

Definition _parse_integer_fixup_radix (s : list Z) (base : Z) : list Z * Z :=
  let base :=
    if base =? 0 then
      if char_at s 0 =? 48 then
        if (_tolower (char_at s 1) =? 120) && isxdigit (char_at s 2) then 16 else 8
      else 10
    else base in
  if (base =? 16) && (char_at s 0 =? 48) && (_tolower (char_at s 1) =? 120)
  then (drop 2 s, base) else (s, base).

(** The digit a character stands for, below any base. *)
Definition digit (c : Z) : option Z :=
  let lc := Z.lor c 0x20 in
  if (48 <=? c) && (c <=? 57) then Some (c - 48)
  else if (97 <=? lc) && (lc <=? 102) then Some (lc - 97 + 10)
  else None.

Fixpoint parse_loop (s : list Z) (base res rv : Z) : Z * Z :=
  match s with
  | [] => (res, rv)
  | c :: s =>
      match digit c with
      | None => (res, rv)
      | Some val =>
          if base <=? val then (res, rv)
          else
            let rv :=
              if negb (Z.land res (u64 (Z.shiftl (2 ^ 64 - 1) 60)) =? 0)
                 && ((ULLONG_MAX - val) / base <? res)
              then Z.lor rv KSTRTOX_OVERFLOW else rv in
            parse_loop s base (u64 (res * base + val)) (u32 (rv + 1))
      end
  end.

(** [_parse_integer]: the value and the number of characters consumed, with
    the overflow bit. *)
Definition _parse_integer (s : list Z) (base : Z) : Z * Z := parse_loop s base 0 0.

Definition _kstrtoull (s : list Z) (base : Z) : Z + Z :=
  let '(s, base) := _parse_integer_fixup_radix s base in
  let '(res, rv) := _parse_integer s base in
  if negb (Z.land rv KSTRTOX_OVERFLOW =? 0) then inl (- ERANGE)
  else if rv =? 0 then inl (- EINVAL)
  else
    let s := drop (Z.to_nat rv) s in
    let s := if char_at s 0 =? 10 then drop 1 s else s in
    if negb (char_at s 0 =? 0) then inl (- EINVAL) else inr res.

Definition kstrtoull (s : list Z) (base : Z) : Z + Z :=
  _kstrtoull (if char_at s 0 =? 43 then drop 1 s else s) base.

Definition kstrtoll (s : list Z) (base : Z) : Z + Z :=
  if char_at s 0 =? 45 then
    match _kstrtoull (drop 1 s) base with
    | inl rv => inl rv
    | inr tmp => if 0 <? s64 (- tmp) then inl (- ERANGE) else inr (s64 (- tmp))
    end
  else
    match kstrtoull s base with
    | inl rv => inl rv
    | inr tmp => if s64 tmp <? 0 then inl (- ERANGE) else inr (s64 tmp)
    end.

(** The narrower conversions: parse at 64 bits, then check that the cast to
    the type keeps the value. *)
Definition narrow (cast : Z → Z) (r : Z + Z) : Z + Z :=
  match r with
  | inl rv => inl rv
  | inr tmp => if negb (tmp =? cast tmp) then inl (- ERANGE) else inr (cast tmp)
  end.

Definition _kstrtoul (s : list Z) (base : Z) : Z + Z := narrow u64 (kstrtoull s base).
Definition _kstrtol (s : list Z) (base : Z) : Z + Z := narrow s64 (kstrtoll s base).
Definition kstrtouint (s : list Z) (base : Z) : Z + Z := narrow u32 (kstrtoull s base).
Definition kstrtoint (s : list Z) (base : Z) : Z + Z := narrow s32 (kstrtoll s base).
Definition kstrtou16 (s : list Z) (base : Z) : Z + Z := narrow u16 (kstrtoull s base).
Definition kstrtos16 (s : list Z) (base : Z) : Z + Z := narrow s16 (kstrtoll s base).
Definition kstrtou8 (s : list Z) (base : Z) : Z + Z := narrow u8 (kstrtoull s base).
Definition kstrtos8 (s : list Z) (base : Z) : Z + Z := narrow s8 (kstrtoll s base).

(** [kstrtobool]: 121 'y', 89 'Y', 49 '1', 110 'n', 78 'N', 48 '0', 111 'o',
    79 'O', 102 'f', 70 'F'. *)
Definition kstrtobool (s : option (list Z)) : Z + bool :=
  match s with
  | None => inl (- EINVAL)
  | Some s =>
      let c := char_at s 0 in
      if (c =? 121) || (c =? 89) || (c =? 49) then inr true
      else if (c =? 110) || (c =? 78) || (c =? 48) then inr false
      else if (c =? 111) || (c =? 79) then
        let d := char_at s 1 in
        if (d =? 110) || (d =? 78) then inr true
        else if (d =? 102) || (d =? 70) then inr false
        else inl (- EINVAL)
      else inl (- EINVAL)
  end.

End Kstrtox.

Import Kstrtox.

(** ** The reference *)

(** The digits at the front of the string, and the rest. *)
Fixpoint span_digits (base : Z) (s : list Z) : list Z * list Z :=
  match s with
  | [] => ([], [])
  | c :: s' =>
      match digit c with
      | Some v => if base <=? v then ([], s)
                  else let '(vs, rest) := span_digits base s' in (v :: vs, rest)
      | None => ([], s)
      end
  end.

(** The number with the digits [vs] after [acc], without any bound. *)
Definition value (base acc : Z) (vs : list Z) : Z := foldl (λ a v, a * base + v) acc vs.

Definition accepted_end (rest : list Z) : bool :=
  match rest with [] => true | [c] => c =? 10 | _ => false end.

Definition convert (base : Z) (s : list Z) : Z + Z :=
  let '(vs, rest) := span_digits base s in
  if 2 ^ 64 <=? value base 0 vs then inl (- ERANGE)
  else if bool_decide (length vs = 0%nat) then inl (- EINVAL)
  else if accepted_end rest then inr (value base 0 vs)
  else inl (- EINVAL).

(** A string: bytes without a NUL. *)
Definition string_ok (s : list Z) : Prop := Forall (λ c, 0 < c < 256) s ∧ Z.of_nat (length s) < 2 ^ 31.

(** ** Printing, for the round trip *)

Definition digit_char (v : Z) : Z := if v <? 10 then 48 + v else 97 + (v - 10).

Fixpoint print_loop (fuel : nat) (base n : Z) (acc : list Z) : list Z :=
  match fuel with
  | O => acc
  | S fuel => let acc := digit_char (n mod base) :: acc in
              if n / base =? 0 then acc else print_loop fuel base (n / base) acc
  end.

Definition print (base n : Z) : list Z := print_loop 64 base n [].

Lemma digit_nonneg c v : digit c = Some v → 0 ≤ v < 16.
Proof.
  unfold digit. intros Hd. repeat case_match; simplify_eq;
    repeat match goal with H : _ && _ = true |- _ => apply andb_true_iff in H as [?%Z.leb_le ?%Z.leb_le] end; lia.
Qed.

Lemma span_digits_spec base s vs rest :
  span_digits base s = (vs, rest) →
  Forall (λ v, 0 ≤ v < base) vs ∧ (∃ cs, s = cs ++ rest ∧ length cs = length vs).
Proof.
  revert vs rest. induction s as [|c s IH]; intros vs rest; cbn.
  { intros [= <- <-]. split; [constructor|by exists []]. }
  destruct (digit c) as [v|] eqn:Ed.
  2:{ intros [= <- <-]. split; [constructor|by exists []]. }
  destruct (Z.leb_spec base v).
  { intros [= <- <-]. split; [constructor|by exists []]. }
  destruct (span_digits base s) as [vs' rest'] eqn:Es. intros [= <- <-].
  destruct (IH vs' rest' eq_refl) as (Hv & cs & -> & Hl). apply digit_nonneg in Ed.
  split; [constructor; [lia|done]|]. exists (c :: cs). cbn. by rewrite Hl.
Qed.

Lemma value_mono base acc vs : 1 ≤ base → 0 ≤ acc → Forall (λ v, 0 ≤ v < base) vs → acc ≤ value base acc vs.
Proof.
  intros Hb. revert acc. induction vs as [|v vs IH]; intros acc Ha Hv; cbn; [lia|].
  apply list.Forall_cons in Hv as [Hv0 Hv]. cbn in Hv0.
  pose proof (IH (acc * base + v) ltac:(nia) Hv). unfold value in *. nia.
Qed.

(** The overflow test is exact: the accumulator leaves 64 bits here. *)
Lemma overflow_exact base res val :
  2 ≤ base ≤ 16 → 0 ≤ res < 2 ^ 64 → 0 ≤ val < base →
  negb (Z.land res (u64 (Z.shiftl (2 ^ 64 - 1) 60)) =? 0) && ((ULLONG_MAX - val) / base <? res) =
  (2 ^ 64 <=? res * base + val).
Proof.
  intros Hb Hr Hv. unfold ULLONG_MAX.
  change (u64 (Z.shiftl (2 ^ 64 - 1) 60)) with (15 * 2 ^ 60).
  assert (Z.land res (15 * 2 ^ 60) = res / 2 ^ 60 * 2 ^ 60) as ->.
  { rewrite (Z.div_mod res (2 ^ 60)) at 1 by lia. rewrite (Z.mul_comm (2 ^ 60)).
    rewrite <- (Z.add_0_r (15 * 2 ^ 60)).
    rewrite land_split by (try lia; apply Z.mod_pos_bound; lia). rewrite Z.land_0_r, Z.add_0_r. f_equal.
    assert (0 ≤ res / 2 ^ 60 < 2 ^ 4).
    { split; [apply Z.div_pos; lia|apply Z.div_lt_upper_bound; lia]. }
    change 15 with (2 ^ 4 - 1). rewrite land_ones_mod, Z.mod_small by lia. done. }
  assert ((2 ^ 64 - 1 - val) / base < res ↔ 2 ^ 64 ≤ res * base + val) as Hdiv.
  { pose proof (Z.div_mod (2 ^ 64 - 1 - val) base ltac:(lia)).
    pose proof (Z.mod_pos_bound (2 ^ 64 - 1 - val) base ltac:(lia)). nia. }
  destruct (Z.eqb_spec (res / 2 ^ 60 * 2 ^ 60) 0) as [E|E]; cbn [negb andb].
  - assert (res < 2 ^ 60) by (pose proof (Z.div_mod res (2 ^ 60)); pose proof (Z.mod_pos_bound res (2 ^ 60)); lia).
    destruct (Z.leb_spec (2 ^ 64) (res * base + val)); [nia|done].
  - destruct (Z.ltb_spec ((2 ^ 64 - 1 - val) / base) res),
      (Z.leb_spec (2 ^ 64) (res * base + val)); tauto || lia.
Qed.

(** ** The loop against the reference *)

Definition flagged_rv (o : bool) (n : Z) : Z := if o then n + 2 ^ 31 else n.

Lemma flagged_step (o o' : bool) n :
  0 ≤ n < 2 ^ 31 - 1 →
  u32 ((if o' then Z.lor (flagged_rv o n) KSTRTOX_OVERFLOW else flagged_rv o n) + 1) =
  flagged_rv (o || o') (n + 1).
Proof.
  intros Hn. unfold KSTRTOX_OVERFLOW, flagged_rv.
  assert (∀ a, a = 0 ∨ a = 1 → Z.lor (a * 2 ^ 31 + n) (1 * 2 ^ 31 + 0) = 2 ^ 31 + n) as Hor.
  { intros a Ha. rewrite lor_split, Z.lor_0_r by lia.
    destruct Ha as [-> | ->]; [change (Z.lor 0 1) with 1|change (Z.lor 1 1) with 1]; lia. }
  specialize (Hor (if o then 1 else 0) ltac:(destruct o; lia)).
  change (1 * 2 ^ 31 + 0) with (2 ^ 31) in Hor.
  destruct o, o'; cbn [orb]; rewrite ?(Z.add_comm n).
  - rewrite (Z.mul_1_l (2 ^ 31)) in Hor. rewrite Hor. unfold u32. rewrite Z.mod_small; lia.
  - unfold u32. rewrite Z.mod_small; lia.
  - rewrite Z.mul_0_l, Z.add_0_l in Hor. rewrite Hor. unfold u32. rewrite Z.mod_small; lia.
  - unfold u32. rewrite Z.mod_small; lia.
Qed.

(** After the digits of [s]: the residue, and the count flagged iff the number
    left 64 bits on the way. [true_v] is the number read so far. *)
Lemma parse_loop_spec base s true_v n :
  2 ≤ base ≤ 16 → 0 ≤ true_v → 0 ≤ n → n + Z.of_nat (length s) < 2 ^ 31 →
  let '(vs, rest) := span_digits base s in
  ∃ res, parse_loop s base (u64 true_v) (flagged_rv (2 ^ 64 <=? true_v) n) =
         (res, flagged_rv (2 ^ 64 <=? value base true_v vs) (n + Z.of_nat (length vs))) ∧
         res = u64 (value base true_v vs).
Proof.
  intros Hb. revert true_v n. induction s as [|c s IH]; intros tv n Htv Hn Hlen; cbn.
  { rewrite Z.add_0_r. eauto. }
  destruct (digit c) as [v|] eqn:Ed; [|cbn; rewrite Z.add_0_r; eauto].
  destruct (Z.leb_spec base v); [cbn; rewrite Z.add_0_r; eauto|].
  assert (0 ≤ v < base) by (apply digit_nonneg in Ed; lia). cbn [length] in Hlen.
  specialize (IH (tv * base + v) (n + 1) ltac:(nia) ltac:(lia) ltac:(lia)).
  rewrite overflow_exact by (done || apply u64_range). rewrite flagged_step by lia.
  assert ((2 ^ 64 <=? tv) || (2 ^ 64 <=? u64 tv * base + v) = (2 ^ 64 <=? tv * base + v)) as ->.
  { destruct (Z.leb_spec (2 ^ 64) tv); cbn [orb].
    - symmetry. apply Z.leb_le. nia.
    - unfold u64. rewrite Z.mod_small by lia. done. }
  assert (u64 (u64 tv * base + v) = u64 (tv * base + v)) as ->.
  { unfold u64. by rewrite <- Z.add_mod_idemp_l, Z.mul_mod_idemp_l, Z.add_mod_idemp_l by lia. }
  destruct (span_digits base s) as [vs rest]. destruct IH as (res & Hres & ->).
  eexists. split; [|done]. cbn [length]. rewrite Hres. f_equal. f_equal. lia.
Qed.

Lemma flagged_test o n :
  0 ≤ n < 2 ^ 31 → negb (Z.land (flagged_rv o n) KSTRTOX_OVERFLOW =? 0) = o.
Proof.
  intros Hn. unfold flagged_rv, KSTRTOX_OVERFLOW.
  change (2 ^ 31) with (1 * 2 ^ 31 + 0) at 2. destruct o.
  - rewrite Z.add_comm, <- (Z.mul_1_l (2 ^ 31)), land_split by lia. by rewrite Z.land_0_r.
  - replace n with (0 * 2 ^ 31 + n) by lia. rewrite land_split by lia. by rewrite Z.land_0_r.
Qed.

(** The end the code accepts: the NUL, or a newline and the NUL. *)
Lemma end_test rest :
  Forall (λ c, 0 < c < 256) rest →
  negb (char_at (if char_at rest 0 =? 10 then drop 1 rest else rest) 0 =? 0) =
  negb (accepted_end rest).
Proof.
  intros Hr. unfold accepted_end, char_at. destruct rest as [|c rest]; [done|].
  apply list.Forall_cons in Hr as [Hc Hr]. cbn in *.
  destruct (Z.eqb_spec c 10) as [->|Hc10]; cbn.
  - destruct rest as [|d rest]; [done|]. apply list.Forall_cons in Hr as [Hd _]. cbn in *.
    destruct (Z.eqb_spec d 0); [lia|done].
  - destruct (Z.eqb_spec c 0); [lia|]. by destruct rest.
Qed.

Definition base_ok (base : Z) : Prop := base = 0 ∨ 2 ≤ base ≤ 16.

Lemma fixup_radix_spec s base s' b :
  string_ok s → base_ok base → _parse_integer_fixup_radix s base = (s', b) →
  string_ok s' ∧ 2 ≤ b ≤ 16.
Proof.
  intros [Hs Hlen] Hb. unfold _parse_integer_fixup_radix.
  assert (∀ x, string_ok x → x = s' → string_ok s') by congruence.
  assert (string_ok (drop 2 s)).
  { split; [by apply Forall_drop|]. rewrite length_drop. lia. }
  destruct (Z.eqb_spec base 0); repeat case_match; intros [= <- <-];
    (split; [done|]); destruct Hb; lia.
Qed.

Lemma _kstrtoull_spec s base :
  string_ok s → base_ok base →
  _kstrtoull s base = let '(s', b) := _parse_integer_fixup_radix s base in convert b s'.
Proof.
  intros Hs Hb. unfold _kstrtoull. destruct (_parse_integer_fixup_radix s base) as [s' b] eqn:Ef.
  destruct (fixup_radix_spec _ _ _ _ Hs Hb Ef) as [[Hs' Hlen] Hb'].
  pose proof (parse_loop_spec b s' 0 0 Hb' ltac:(lia) ltac:(lia) ltac:(lia)) as Hp.
  unfold _parse_integer, convert. destruct (span_digits b s') as [vs rest] eqn:Es.
  destruct Hp as (res & Hp & ->). change (flagged_rv (2 ^ 64 <=? 0) 0) with 0 in Hp.
  change (u64 0) with 0 in Hp. rewrite Hp, Z.add_0_l. clear Hp.
  destruct (span_digits_spec _ _ _ _ Es) as (Hvs & cs & -> & Hcs).
  rewrite length_app in Hlen. rewrite flagged_test by lia.
  apply Forall_app in Hs' as [_ Hrest].
  destruct (Z.leb_spec (2 ^ 64) (value b 0 vs)); [done|]. cbn [flagged_rv].
  destruct vs as [|v vs]; [done|]. rewrite bool_decide_false by done.
  destruct (Z.eqb_spec (Z.of_nat (length (v :: vs))) 0) as [E|_]; [cbn in E; lia|].
  rewrite Nat2Z.id, drop_app_length' by done. rewrite end_test by done.
  unfold u64. rewrite Z.mod_small by (split; [apply value_mono; (done || lia)|done]).
  by destruct (accepted_end rest).
Qed.

(** The signed reading: an optional sign, then the number. *)
Definition signed_value (s : list Z) (base : Z) : Z + Z :=
  let neg := char_at s 0 =? 45 in
  let s := if neg || (char_at s 0 =? 43) then drop 1 s else s in
  let '(s, b) := _parse_integer_fixup_radix s base in
  match convert b s with
  | inl e => inl e
  | inr v => inr (if neg then - v else v)
  end.

Definition unsigned_value (s : list Z) (base : Z) : Z + Z :=
  let s := if char_at s 0 =? 43 then drop 1 s else s in
  let '(s, b) := _parse_integer_fixup_radix s base in convert b s.

Definition in_range (lo hi : Z) (r : Z + Z) : Z + Z :=
  match r with
  | inl e => inl e
  | inr v => if (lo <=? v) && (v <=? hi) then inr v else inl (- ERANGE)
  end.

Lemma convert_range base s v : 2 ≤ base → convert base s = inr v → 0 ≤ v < 2 ^ 64.
Proof.
  unfold convert. intros Hb. destruct (span_digits base s) as [vs rest] eqn:Es.
  destruct (span_digits_spec _ _ _ _ Es) as [Hvs _].
  pose proof (value_mono base 0 vs ltac:(lia) ltac:(lia) Hvs).
  repeat case_match; intros [= <-]; lia.
Qed.

Lemma string_ok_drop s n : string_ok s → string_ok (drop n s).
Proof. intros [Hs ?]. split; [by apply Forall_drop|]. rewrite length_drop. lia. Qed.

Lemma kstrtoull_spec s base :
  string_ok s → base_ok base → kstrtoull s base = unsigned_value s base.
Proof.
  intros Hs Hb. unfold kstrtoull, unsigned_value.
  apply _kstrtoull_spec; [|done]. case_match; [by apply string_ok_drop|done].
Qed.

Lemma unsigned_range s base v :
  string_ok s → base_ok base → unsigned_value s base = inr v → 0 ≤ v < 2 ^ 64.
Proof.
  intros Hs Hb. unfold unsigned_value.
  destruct (_parse_integer_fixup_radix _ base) as [s' b] eqn:Ef.
  eapply fixup_radix_spec in Ef as [_ ?]; [apply convert_range; lia| |done].
  case_match; [by apply string_ok_drop|done].
Qed.

Lemma s64_shift k v : - 2 ^ 63 ≤ v - k * 2 ^ 64 < 2 ^ 63 → s64 v = v - k * 2 ^ 64.
Proof.
  intros. unfold s64, sext. change (64 - 1) with 63.
  replace (v + 2 ^ 63) with (v - k * 2 ^ 64 + 2 ^ 63 + k * 2 ^ 64) by lia.
  rewrite Z.mod_add, Z.mod_small by lia. lia.
Qed.

(** [kstrtoll] is the signed reading, checked against the range of a
    [long long]: the tests on the sign of the cast are exact. *)
Lemma kstrtoll_spec s base :
  string_ok s → base_ok base →
  kstrtoll s base = in_range (- 2 ^ 63) (2 ^ 63 - 1) (signed_value s base).
Proof.
  intros Hs Hb. unfold kstrtoll, signed_value.
  destruct (Z.eqb_spec (char_at s 0) 45) as [E|E]; cbn [orb].
  - rewrite _kstrtoull_spec by (done || by apply string_ok_drop).
    destruct (_parse_integer_fixup_radix (drop 1 s) base) as [s' b] eqn:Ef.
    apply fixup_radix_spec in Ef as [_ ?]; [|by apply string_ok_drop|done].
    destruct (convert b s') as [e|v] eqn:Ec; [done|]. apply convert_range in Ec; [|lia].
    cbn [in_range]. destruct (Z.leb_spec (- 2 ^ 63) (- v)); cbn [andb].
    + rewrite (s64_shift 0), (proj2 (Z.leb_le (- v) _)) by lia.
      destruct (Z.ltb_spec 0 (- v - 0 * 2 ^ 64)); [lia|f_equal; lia].
    + rewrite (s64_shift (-1)) by lia. destruct (Z.ltb_spec 0 (- v - (-1) * 2 ^ 64)); [done|lia].
  - rewrite kstrtoull_spec by done. pose proof (unsigned_range s base) as Hr.
    unfold unsigned_value in *. destruct (_parse_integer_fixup_radix _ base) as [s' b].
    destruct (convert b s') as [e|v] eqn:Ec; [done|]. specialize (Hr v Hs Hb eq_refl).
    cbn [in_range]. rewrite (proj2 (Z.leb_le _ v)) by lia. cbn [andb].
    destruct (Z.leb_spec v (2 ^ 63 - 1)).
    + rewrite (s64_shift 0) by lia. destruct (Z.ltb_spec (v - 0 * 2 ^ 64) 0); [lia|f_equal; lia].
    + rewrite (s64_shift 1) by lia. destruct (Z.ltb_spec (v - 1 * 2 ^ 64) 0); [done|lia].
Qed.

Lemma narrow_unsigned w r :
  0 < w ≤ 64 → (∀ v, r = inr v → 0 ≤ v) →
  narrow (λ x, x mod 2 ^ w) r = in_range 0 (2 ^ w - 1) r.
Proof.
  intros Hw Hr. destruct r as [e|v]; [done|]. specialize (Hr v eq_refl). cbn.
  assert (0 < 2 ^ w) by (apply Z.pow_pos_nonneg; lia).
  pose proof (Z.mod_pos_bound v (2 ^ w) ltac:(done)).
  rewrite (proj2 (Z.leb_le 0 v)) by lia. cbn.
  destruct (Z.leb_spec v (2 ^ w - 1)).
  - rewrite Z.mod_small by lia. by rewrite Z.eqb_refl.
  - destruct (Z.eqb_spec v (v mod 2 ^ w)); [lia|done].
Qed.

Lemma narrow_signed w r :
  0 < w ≤ 64 → narrow (sext w) r = in_range (- 2 ^ (w - 1)) (2 ^ (w - 1) - 1) r.
Proof.
  intros Hw. destruct r as [e|v]; [done|]. cbn.
  destruct (Z.leb_spec (- 2 ^ (w - 1)) v), (Z.leb_spec v (2 ^ (w - 1) - 1)); cbn.
  1: rewrite sext_id by lia; by rewrite Z.eqb_refl.
  all: assert (2 ^ w = 2 * 2 ^ (w - 1)) as Hp
         by (rewrite <- (Z.pow_succ_r 2 (w - 1)) by lia; f_equal; lia).
  all: assert (0 < 2 ^ (w - 1)) by (apply Z.pow_pos_nonneg; lia).
  all: pose proof (Z.mod_pos_bound (v + 2 ^ (w - 1)) (2 ^ w) ltac:(lia)).
  all: destruct (Z.eqb_spec v (sext w v)) as [E|]; [unfold sext in E; lia|done].
Qed.

Lemma in_range_twice lo hi lo' hi' r :
  lo' ≤ lo → hi ≤ hi' → in_range lo hi (in_range lo' hi' r) = in_range lo hi r.
Proof.
  intros. destruct r as [e|v]; [done|]. cbn.
  destruct (Z.leb_spec lo' v), (Z.leb_spec v hi'); cbn; [done|..].
  all: destruct (Z.leb_spec lo v), (Z.leb_spec v hi); (done || lia).
Qed.

Lemma digit_digit_char v : 0 ≤ v < 16 → digit (digit_char v) = Some v.
Proof.
  intros Hv. assert (v ∈ seqZ 0 16) as Hin by (apply elem_of_seqZ; lia).
  apply list_elem_of_In in Hin. vm_compute in Hin. intuition (subst; reflexivity).
Qed.

Lemma span_print base ds rest :
  2 ≤ base ≤ 16 → Forall (λ v, 0 ≤ v < base) ds → rest = [] ∨ rest = [10] →
  span_digits base (map digit_char ds ++ rest) = (ds, rest).
Proof.
  intros Hb Hds Hrest. induction Hds as [|v ds Hv Hds IH]; cbn.
  - by destruct Hrest as [-> | ->].
  - rewrite digit_digit_char by lia. destruct (Z.leb_spec base v); [lia|]. by rewrite IH.
Qed.

Lemma value_app base acc vs vs' : value base acc (vs ++ vs') = value base (value base acc vs) vs'.
Proof. apply foldl_app. Qed.

Lemma print_loop_spec fuel base n acc :
  2 ≤ base → 0 ≤ n < 2 ^ Z.of_nat fuel → (0 < fuel)%nat →
  ∃ ds, print_loop fuel base n acc = map digit_char ds ++ acc ∧ value base 0 ds = n ∧
        Forall (λ v, 0 ≤ v < base) ds ∧ (ds = [0] ∨ ∃ v vs, ds = v :: vs ∧ v ≠ 0).
Proof.
  intros Hb. revert n acc. induction fuel as [|fuel IH]; intros n acc Hn Hf; [lia|]. cbn [print_loop].
  pose proof (Z.mod_pos_bound n base ltac:(lia)). pose proof (Z.div_mod n base ltac:(lia)).
  destruct (Z.eqb_spec (n / base) 0) as [E|E].
  - exists [n mod base]. cbn. split_and!; [done|lia|repeat constructor; lia|].
    destruct (decide (n mod base = 0)) as [->|]; [by left|right; eauto].
  - assert (0 < n / base) by (assert (0 ≤ n / base) by (apply Z.div_pos; lia); lia).
    rewrite Nat2Z.inj_succ, Z.pow_succ_r in Hn by lia.
    assert (n / base < 2 ^ Z.of_nat fuel) by (apply Z.div_lt_upper_bound; nia).
    destruct fuel as [|fuel]; [cbn in *; lia|].
    destruct (IH (n / base) (digit_char (n mod base) :: acc)) as (ds & Hp & Hv & Hds & Hlead); [lia..|].
    exists (ds ++ [n mod base]). rewrite Hp, value_app, Hv, map_app, <- app_assoc. split_and!.
    + done.
    + cbn. lia.
    + apply Forall_app. split; [done|repeat constructor; lia].
    + right. destruct Hlead as [-> | (v & vs & -> & Hv0)]; [cbn in Hv; lia|].
      exists v, (vs ++ [n mod base]). done.
Qed.

(** A printed number has no radix prefix and no sign. *)
Lemma fixup_print base n rest :
  2 ≤ base ≤ 16 → 0 ≤ n < 2 ^ 64 → rest = [] ∨ rest = [10] →
  _parse_integer_fixup_radix (print base n ++ rest) base = (print base n ++ rest, base) ∧
  char_at (print base n ++ rest) 0 ≠ 43 ∧ char_at (print base n ++ rest) 0 ≠ 45 ∧
  convert base (print base n ++ rest) = inr n.
Proof.
  intros Hb Hn Hrest. unfold print.
  destruct (print_loop_spec 64 base n []) as (ds & -> & Hv & Hds & Hlead); [lia..|].
  rewrite app_nil_r. split_and!.
  - unfold _parse_integer_fixup_radix. destruct (Z.eqb_spec base 0); [lia|].
    destruct Hlead as [-> | (v & vs & -> & Hv0)].
    + destruct Hrest as [-> | ->]; cbn; by rewrite andb_false_r.
    + apply list.Forall_cons in Hds as [Hv1 _]. unfold char_at. cbn.
      assert ((digit_char v =? 48) = false) as ->; [|by rewrite andb_false_r].
      apply Z.eqb_neq. unfold digit_char. case_match; lia.
  - destruct Hlead as [-> | (v & vs & -> & Hv0)]; [done|].
    apply list.Forall_cons in Hds as [Hv1 _]. unfold char_at, digit_char. cbn. case_match; lia.
  - destruct Hlead as [-> | (v & vs & -> & Hv0)]; [done|].
    apply list.Forall_cons in Hds as [Hv1 _]. unfold char_at, digit_char. cbn. case_match; lia.
  - unfold convert. rewrite span_print by done. rewrite Hv.
    destruct (Z.leb_spec (2 ^ 64) n); [lia|].
    rewrite bool_decide_false by (destruct Hlead as [-> | (v & vs & -> & _)]; done).
    by destruct Hrest as [-> | ->].
Qed.

(** The decimal, hexadecimal, ... text of a signed number. *)
Definition print_signed (base n : Z) : list Z :=
  if n <? 0 then 45 :: print base (- n) else print base n.

Lemma length_print_loop fuel base n acc :
  (length (print_loop fuel base n acc) ≤ fuel + length acc)%nat.
Proof.
  revert n acc. induction fuel as [|fuel IH]; intros n acc; cbn; [lia|].
  case_match; cbn; [lia|]. etrans; [apply IH|]. cbn. lia.
Qed.

Lemma print_signed_ok base n rest :
  2 ≤ base ≤ 16 → - 2 ^ 63 ≤ n < 2 ^ 64 → rest = [] ∨ rest = [10] →
  string_ok (print_signed base n ++ rest).
Proof.
  intros Hb Hn Hrest.
  assert (∀ k, 0 ≤ k < 2 ^ 64 → Forall (λ c, 0 < c < 256) (print base k) ∧ (length (print base k) ≤ 64)%nat) as Hk.
  { intros k Hk. pose proof (length_print_loop 64 base k []) as Hl. split; [|done].
    unfold print. destruct (print_loop_spec 64 base k []) as (ds & -> & _ & Hds & _); [lia..|].
    rewrite app_nil_r. apply Forall_fmap. eapply list.Forall_impl; [exact Hds|].
    intros v Hv. unfold compose, digit_char. cbn in Hv. destruct (Z.ltb_spec v 10); lia. }
  unfold print_signed. destruct (Z.ltb_spec n 0).
  - destruct (Hk (- n) ltac:(lia)) as [Hc Hl]. split; [|cbn [app]; rewrite length_cons, length_app; destruct Hrest as [-> | ->]; cbn [length]; lia].
    cbn. constructor; [lia|]. apply Forall_app. split; [done|].
    destruct Hrest as [-> | ->]; repeat constructor; lia.
  - destruct (Hk n ltac:(lia)) as [Hc Hl]. split; [|rewrite length_app; destruct Hrest as [-> | ->]; cbn [length]; lia].
    apply Forall_app. split; [done|]. destruct Hrest as [-> | ->]; repeat constructor; lia.
Qed.

Lemma narrow_conversions s base :
  string_ok s → base_ok base →
  let U hi := in_range 0 hi (unsigned_value s base) in
  let S lo hi := in_range lo hi (signed_value s base) in
  kstrtoll s base = S (- 2 ^ 63) (2 ^ 63 - 1) ∧
  (∀ w, 0 < w ≤ 64 → narrow (λ x, x mod 2 ^ w) (kstrtoull s base) = U (2 ^ w - 1)) ∧
  (∀ w, 0 < w ≤ 64 → narrow (sext w) (kstrtoll s base) = S (- 2 ^ (w - 1)) (2 ^ (w - 1) - 1)).
Proof.
  intros Hs Hb. cbn zeta. split_and!; [by apply kstrtoll_spec| |]; intros w Hw.
  - rewrite kstrtoull_spec by done. apply narrow_unsigned; [done|].
    intros v Hv. by apply unsigned_range in Hv as [].
  - rewrite narrow_signed, kstrtoll_spec by done. apply in_range_twice.
    + apply Z.opp_le_mono. rewrite !Z.opp_involutive. apply Z.pow_le_mono_r; lia.
    + apply Z.sub_le_mono_r, Z.pow_le_mono_r; lia.
Qed.

(** Every conversion of kstrtox.c gives exactly the number the string
    denotes when it lies in the range of the result type, -ERANGE when it does
    not, and -EINVAL when the string is not a number. The number is the
    unbounded value of the longest run of digits below the base, after an
    optional sign and radix prefix, which must be non-empty and be followed
    by the end of the string or by one newline. In particular the sparse
    overflow test of [_parse_integer], made only when one of the top four bits
    of the accumulator is set, is exact. *)
Theorem kstrtox_correct (s : list Z) (base : Z) :
  string_ok s → base_ok base →
  let U hi := in_range 0 hi (unsigned_value s base) in
  let S lo hi := in_range lo hi (signed_value s base) in
  kstrtoull s base = unsigned_value s base ∧
  kstrtoll s base = S (- 2 ^ 63) (2 ^ 63 - 1) ∧
  _kstrtoul s base = U (2 ^ 64 - 1) ∧ _kstrtol s base = S (- 2 ^ 63) (2 ^ 63 - 1) ∧
  kstrtouint s base = U (2 ^ 32 - 1) ∧ kstrtoint s base = S (- 2 ^ 31) (2 ^ 31 - 1) ∧
  kstrtou16 s base = U (2 ^ 16 - 1) ∧ kstrtos16 s base = S (- 2 ^ 15) (2 ^ 15 - 1) ∧
  kstrtou8 s base = U (2 ^ 8 - 1) ∧ kstrtos8 s base = S (- 2 ^ 7) (2 ^ 7 - 1).
Proof.
  intros Hs Hb. cbn zeta. destruct (narrow_conversions s base Hs Hb) as (Hll & HU & HS).
  split_and!; [by apply kstrtoull_spec|done|..].
  - by apply (HU 64).
  - by apply (HS 64).
  - by apply (HU 32).
  - by apply (HS 32).
  - by apply (HU 16).
  - by apply (HS 16).
  - by apply (HU 8).
  - by apply (HS 8).
Qed.

(** "-0x80\n" as a signed byte, and "256" as an unsigned one. *)
Lemma kstrtox_correct_witness :
  kstrtos8 [45; 48; 120; 56; 48; 10] 0 = inr (-128) ∧ kstrtou8 [50; 53; 54] 10 = inl (- ERANGE).
Proof.
  split.
  - destruct (kstrtox_correct [45; 48; 120; 56; 48; 10] 0) as (_ & _ & _ & _ & _ & _ & _ & _ & _ & H).
    + split; [repeat constructor; lia|reflexivity].
    + by left.
    + rewrite H. vm_compute. reflexivity.
  - destruct (kstrtox_correct [50; 53; 54] 10) as (_ & _ & _ & _ & _ & _ & _ & _ & H & _).
    + split; [repeat constructor; lia|reflexivity].
    + right. lia.
    + rewrite H. vm_compute. reflexivity.
Defined.

(** Parsing undoes printing. The text of a number in any base from 2 to
    16, with or without a final newline, is read back as that number by
    [kstrtoll] over the whole range of a [long long], and by [kstrtoull] over
    the whole range of an [unsigned long long]. *)
Theorem kstrto_print_roundtrip (base n : Z) (rest : list Z) :
  2 ≤ base ≤ 16 → rest = [] ∨ rest = [10] →
  (- 2 ^ 63 ≤ n < 2 ^ 63 → kstrtoll (print_signed base n ++ rest) base = inr n) ∧
  (0 ≤ n < 2 ^ 64 → kstrtoull (print base n ++ rest) base = inr n).
Proof.
  intros Hb Hrest. split; intros Hn.
  - rewrite kstrtoll_spec; [|apply print_signed_ok; (done || lia)|by right].
    unfold print_signed, signed_value. destruct (Z.ltb_spec n 0).
    + destruct (fixup_print base (- n) rest) as (Hf & _ & _ & Hc); [done|lia|done|].
      change (char_at ((45 :: print base (- n)) ++ rest) 0 =? 45) with true. cbn [orb].
      change (drop 1 ((45 :: print base (- n)) ++ rest)) with (print base (- n) ++ rest).
      rewrite Hf, Hc. cbn. rewrite Z.opp_involutive, (proj2 (Z.leb_le _ n)), (proj2 (Z.leb_le n _)) by lia. done.
    + destruct (fixup_print base n rest) as (Hf & H43 & H45 & Hc); [done|lia|done|].
      rewrite (proj2 (Z.eqb_neq _ _) H43), (proj2 (Z.eqb_neq _ _) H45). cbn [orb].
      rewrite Hf, Hc. cbn. rewrite (proj2 (Z.leb_le _ n)), (proj2 (Z.leb_le n _)) by lia. done.
  - pose proof (print_signed_ok base n rest Hb ltac:(lia) Hrest) as Hok. unfold print_signed in Hok.
    destruct (Z.ltb_spec n 0); [lia|]. rewrite kstrtoull_spec by (done || by right).
    destruct (fixup_print base n rest) as (Hf & H43 & _ & Hc); [done..|].
    unfold unsigned_value. by rewrite (proj2 (Z.eqb_neq _ _) H43), Hf, Hc.
Qed.

Lemma kstrto_print_roundtrip_witness :
  kstrtoll (print_signed 10 (- 2 ^ 63) ++ [10]) 10 = inr (- 2 ^ 63).
Proof. apply (kstrto_print_roundtrip 10 (- 2 ^ 63) [10]); [lia|by right|lia]. Defined.
