(* ===== verification/Sort.v ===== *)
(** * Sorting and binary search

    The heapsort of lib/src/sort.c and the binary search of
    include/linux/bsearch.h. Both work on an array of [num] elements of [size]
    bytes at address [base], through byte offsets that are multiples of
    [size]. A comparison function reads the two elements it is given, so it is
    a function of their bytes; [void *priv] is the value it closes over. *)

From stdpp Require Import base numbers list option.
From Stdlib Require Import ZArith Lia.
From S2P Require Import Prelude Strings.
Import Strings.

Open Scope Z_scope.

Module Sort.

(** The [size] bytes at [p]. *)
Definition load_elem (m : mem) (p size : Z) : list Z := map (λ k, m (p + k)) (seqZ 0 size).

Definition read32 (m : mem) (a : Z) : Z :=
  m a + m (a + 1) * 2 ^ 8 + m (a + 2) * 2 ^ 16 + m (a + 3) * 2 ^ 24.

Definition write32 (m : mem) (a w : Z) : mem := write_bytes m a w 4.

(** [CONFIG_HAVE_EFFICIENT_UNALIGNED_ACCESS] is not set. *)
Definition is_aligned (base size align : Z) : bool :=
  let lsbits := u8 size in
  let lsbits := Z.lor lsbits (u8 base) in
  Z.land lsbits (align - 1) =? 0.

Fixpoint swap_words_32 (fuel : nat) (m : mem) (a b n : Z) : outcome mem :=
  match fuel with
  | O => Fuel
  | S fuel =>
      let n := u64 (n - 4) in
      let t := read32 m (a + n) in
      let m := write32 m (a + n) (read32 m (b + n)) in
      let m := write32 m (b + n) t in
      if n =? 0 then Ok m else swap_words_32 fuel m a b n
  end.

Fixpoint swap_words_64 (fuel : nat) (m : mem) (a b n : Z) : outcome mem :=
  match fuel with
  | O => Fuel
  | S fuel =>
      let n := u64 (n - 8) in
      let t := read64 m (a + n) in
      let m := write64 m (a + n) (read64 m (b + n)) in
      let m := write64 m (b + n) t in
      if n =? 0 then Ok m else swap_words_64 fuel m a b n
  end.

Fixpoint swap_bytes (fuel : nat) (m : mem) (a b n : Z) : outcome mem :=
  match fuel with
  | O => Fuel
  | S fuel =>
      let n := u64 (n - 1) in
      let t := m (a + n) in
      let m := upd m (a + n) (m (b + n)) in
      let m := upd m (b + n) t in
      if n =? 0 then Ok m else swap_bytes fuel m a b n
  end.

(** The three small integers and a function of the caller's. *)
Inductive swap_func_t :=
  | SWAP_WORDS_64
  | SWAP_WORDS_32
  | SWAP_BYTES
  | SWAP_FUNC (f : mem → Z → Z → Z → mem).

Definition do_swap (fuel : nat) (m : mem) (a b size : Z) (swap_func : swap_func_t) : outcome mem :=
  match swap_func with
  | SWAP_WORDS_64 => swap_words_64 fuel m a b size
  | SWAP_WORDS_32 => swap_words_32 fuel m a b size
  | SWAP_BYTES => swap_bytes fuel m a b size
  | SWAP_FUNC f => Ok (f m a b (s32 size))
  end.

Definition cmp_func_t : Type := list Z → list Z → Z.

(** [_CMP_WRAPPER] with the comparison in [priv], or a three-argument
    comparison with its [priv]. *)
Inductive cmp_r_func_t (P : Type) :=
  | CMP_WRAPPER (priv : cmp_func_t)
  | CMP_R (cmp : list Z → list Z → P → Z) (priv : P).
Arguments CMP_WRAPPER {P} priv.
Arguments CMP_R {P} cmp priv.

Definition do_cmp {P} (m : mem) (a b size : Z) (cmp : cmp_r_func_t P) : Z :=
  match cmp with
  | CMP_WRAPPER priv => priv (load_elem m a size) (load_elem m b size)
  | CMP_R cmp priv => cmp (load_elem m a size) (load_elem m b size) priv
  end.

Definition parent (i lsbit size : Z) : Z :=
  let i := u64 (i - size) in
  let i := u64 (i - Z.land size (u64 (- Z.land i lsbit))) in
  i / 2.

Section SortR.
Context {P : Type} (base size lsbit : Z) (cmp : cmp_r_func_t P) (swap_func : swap_func_t).

(** The path of larger children down to a leaf. *)
Fixpoint descend (fuel : nat) (m : mem) (n b : Z) : outcome Z :=
  match fuel with
  | O => Fuel
  | S fuel =>
      let c := u64 (2 * b + size) in
      let d := u64 (c + size) in
      if d <? n then
        descend fuel m n (if 0 <=? do_cmp m (base + c) (base + d) size cmp then c else d)
      else Ok (if d =? n then c else b)
  end.

(** Back up to the place of the element at [a]. *)
Fixpoint backtrack (fuel : nat) (m : mem) (a b : Z) : outcome Z :=
  match fuel with
  | O => Fuel
  | S fuel =>
      if negb (b =? a) && (0 <=? do_cmp m (base + a) (base + b) size cmp)
      then backtrack fuel m a (parent b lsbit size) else Ok b
  end.

(** Shift it into place. *)
Fixpoint shift (fuel : nat) (m : mem) (a b c : Z) : outcome mem :=
  match fuel with
  | O => Fuel
  | S fuel =>
      if b =? a then Ok m
      else
        let b := parent b lsbit size in
        m ← do_swap fuel m (base + b) (base + c) size swap_func;
        shift fuel m a b c
  end.

Definition sift (fuel : nat) (m : mem) (a n : Z) : outcome mem :=
  b ← descend fuel m n a;
  b ← backtrack fuel m a b;
  shift fuel m a b b.

Fixpoint sort_loop (fuel : nat) (m : mem) (a n : Z) : outcome mem :=
  match fuel with
  | O => Fuel
  | S fuel =>
      if negb (a =? 0) then
        let a := u64 (a - size) in
        m ← sift fuel m a n;
        sort_loop fuel m a n
      else
        let n := u64 (n - size) in
        if negb (n =? 0) then
          m ← do_swap fuel m base (base + n) size swap_func;
          m ← sift fuel m a n;
          sort_loop fuel m a n
        else Ok m
  end.

End SortR.

Definition sort_r {P} (fuel : nat) (m : mem) (base num size : Z) (cmp_func : cmp_r_func_t P)
    (swap_func : option (mem → Z → Z → Z → mem)) : outcome mem :=
  let n := u64 (num * size) in
  let a := u64 (num / 2 * size) in
  let lsbit := u32 (Z.land size (u64 (- size))) in
  if a =? 0 then Ok m
  else
    let swap_func :=
      match swap_func with
      | Some f => SWAP_FUNC f
      | None => if is_aligned base size 8 then SWAP_WORDS_64
                else if is_aligned base size 4 then SWAP_WORDS_32
                else SWAP_BYTES
      end in
    sort_loop base size lsbit cmp_func swap_func fuel m a n.

Definition sort (fuel : nat) (m : mem) (base num size : Z) (cmp_func : cmp_func_t)
    (swap_func : option (mem → Z → Z → Z → mem)) : outcome mem :=
  sort_r (P := unit) fuel m base num size (CMP_WRAPPER cmp_func) swap_func.

(** [key] is whatever the comparison makes of it. *)
Fixpoint __inline_bsearch (fuel : nat) (m : mem) (base num size : Z) (cmp : list Z → Z) : outcome Z :=
  match fuel with
  | O => Fuel
  | S fuel =>
      if 0 <? num then
        let pivot := base + Z.shiftr num 1 * size in
        let result := cmp (load_elem m pivot size) in
        if result =? 0 then Ok pivot
        else
          let '(base, num) := if 0 <? result then (pivot + size, num - 1) else (base, num) in
          __inline_bsearch fuel m base (Z.shiftr num 1) size cmp
      else Ok NULL
  end.

Definition bsearch (fuel : nat) (m : mem) (base num size : Z) (cmp : list Z → Z) : outcome Z :=
  __inline_bsearch fuel m base num size cmp.

End Sort.
