(* ===== verification/SortHeap.v ===== *)
(** * Bottom-up heaps

    The theory of the heapsort of lib/src/sort.c on an array seen as a
    function from indices to elements: the path of larger children, the place
    of the sifted element on it, and what shifting it there does. *)

From stdpp Require Import base numbers list option.
From Stdlib Require Import ZArith Lia.
From S2P Require Import Prelude.

Open Scope Z_scope.

(** ** Exchanging elements *)

Definition transpose (i j k : Z) : Z :=
  if decide (k = i) then j else if decide (k = j) then i else k.

Lemma transpose_involutive i j k : transpose i j (transpose i j k) = k.
Proof. unfold transpose. repeat case_decide; lia. Qed.

Lemma transpose_range n i j k : 0 ≤ i < n → 0 ≤ j < n → 0 ≤ k < n → 0 ≤ transpose i j k < n.
Proof. unfold transpose. repeat case_decide; lia. Qed.

Section Heap.
Context {A : Type} (le : A → A → Prop) (num : Z).
Context `{!PreOrder le}.

Implicit Types f g h : Z → A.

(** Equal on the array. *)
Definition same f g : Prop := ∀ k, 0 ≤ k < num → f k = g k.

(** [g] is [f] after exchanges below [n]. *)
Inductive swaps (n : Z) f : (Z → A) → Prop :=
  | swaps_refl g : same f g → swaps n f g
  | swaps_step g h i j :
      swaps n f g → 0 ≤ i < n → 0 ≤ j < n →
      (∀ k, 0 ≤ k < num → h k = g (transpose i j k)) → swaps n f h.

Lemma swaps_trans n f g h : n ≤ num → swaps n f g → swaps n g h → swaps n f h.
Proof.
  intros Hn Hfg Hgh. induction Hgh as [h Hs|h h' i j Hgh IH Hi Hj Hh].
  - destruct Hfg as [g Hfg|g' g i j Hfg Hi Hj Hg].
    + apply swaps_refl. intros k Hk. by rewrite Hfg, Hs.
    + apply (swaps_step _ _ g' _ i j); [done..|]. intros k Hk. rewrite <- Hs by done. by apply Hg.
  - by apply (swaps_step _ _ h _ i j).
Qed.

Lemma swaps_mono n n' f g : n ≤ n' → swaps n f g → swaps n' f g.
Proof.
  intros Hn. induction 1 as [g Hs|g h i j _ IH Hi Hj Hh]; [by apply swaps_refl|].
  apply (swaps_step _ _ g _ i j); (done || lia).
Qed.

Lemma swaps_outside n f g k : n ≤ k < num → swaps n f g → 0 ≤ k → g k = f k.
Proof.
  intros Hk. induction 1 as [g Hs|g h i j _ IH Hi Hj Hh]; intros.
  - symmetry. apply Hs. lia.
  - rewrite Hh by lia. unfold transpose. rewrite !decide_False by lia. by apply IH.
Qed.

Lemma swaps_inside (P : A → Prop) n f g :
  n ≤ num → swaps n f g → (∀ k, 0 ≤ k < n → P (f k)) → ∀ k, 0 ≤ k < n → P (g k).
Proof.
  intros Hn. induction 1 as [g Hs|g h i j _ IH Hi Hj Hh]; intros HP k Hk.
  - rewrite <- Hs by lia. by apply HP.
  - rewrite Hh by lia. apply IH; [done|]. by apply transpose_range.
Qed.

Lemma fmap_seqZ_lookup f n k :
  map f (seqZ 0 n) !! k = if decide (Z.of_nat k < n) then Some (f (Z.of_nat k)) else None.
Proof.
  change (map f) with (fmap (M := list) f). rewrite list_lookup_fmap. case_decide.
  - rewrite lookup_seqZ_lt by done. by rewrite Z.add_0_l.
  - by rewrite lookup_seqZ_ge by lia.
Qed.

Lemma swaps_perm n f g :
  0 ≤ n ≤ num → swaps n f g → Permutation (map f (seqZ 0 num)) (map g (seqZ 0 num)).
Proof.
  intros Hn. induction 1 as [g Hs|g h i j _ IH Hi Hj Hh].
  - replace (map g (seqZ 0 num)) with (map f (seqZ 0 num)); [done|]. apply list_eq. intros k.
    rewrite !fmap_seqZ_lookup. case_decide; [|done]. f_equal. apply Hs. lia.
  - etrans; [exact IH|]. symmetry. apply Permutation_inj. split.
    { by rewrite !length_map. }
    exists (λ k, Z.to_nat (transpose i j (Z.of_nat k))). split.
    + intros k k' E. apply (f_equal Z.of_nat) in E.
      assert (∀ x, 0 ≤ transpose i j (Z.of_nat x)) as Hpos by (intros x; unfold transpose; repeat case_decide; lia).
      rewrite !Z2Nat.id in E by done. apply (f_equal (transpose i j)) in E.
      rewrite !transpose_involutive in E. lia.
    + intros k. rewrite !fmap_seqZ_lookup. case_decide as Hk.
      * pose proof (transpose_range num i j (Z.of_nat k) ltac:(lia) ltac:(lia) ltac:(lia)).
        rewrite Z2Nat.id by lia. rewrite decide_True by lia. f_equal. apply Hh. lia.
      * assert (transpose i j (Z.of_nat k) = Z.of_nat k) as -> by (unfold transpose; repeat case_decide; lia).
        rewrite Nat2Z.id. by rewrite decide_False by lia.
Qed.

(** ** Heaps *)

Definition child (i c : Z) : Prop := c = 2 * i + 1 ∨ c = 2 * i + 2.

(** Every node from [lo] on is at least its children below [n]. *)
Definition heap f (lo n : Z) : Prop :=
  ∀ i c, lo ≤ i → child i c → c < n → le (f c) (f i).

(** [b] is reached from [a] by going to a largest child each time. *)
Inductive path f (n a : Z) : Z → Prop :=
  | path_here : path f n a a
  | path_step b c :
      path f n a b → child b c → c < n → (∀ s, child b s → s < n → le (f s) (f c)) →
      path f n a c.

Lemma path_range f n a b : 0 ≤ a → path f n a b → b = a ∨ (2 * a + 1 ≤ b ∧ b < n).
Proof.
  intros Ha. induction 1 as [|b c _ IH Hc Hn _]; [by left|right].
  unfold child in Hc. lia.
Qed.

Lemma child_parent b c : 0 ≤ b → child b c → (c - 1) / 2 = b.
Proof.
  intros Hb [-> | ->].
  - replace (2 * b + 1 - 1) with (b * 2) by lia. apply Z.div_mul. lia.
  - replace (2 * b + 2 - 1) with (1 + b * 2) by lia. rewrite Z.div_add by lia. done.
Qed.

(** A place for the element at [a]: on the path, everything below it is
    smaller, and it is the place itself or smaller than what is there. *)
Definition place f (n a c : Z) : Prop :=
  path f n a c ∧ (∀ s, child c s → s < n → le (f s) (f a)) ∧ (c = a ∨ le (f a) (f c)).

(** While shifting the element of [a] to [c], at the node [b] of the path. [g]
    holds the elements; the one at [c], on its way out, is counted as the one
    of [a], on its way in. *)
Definition counted g (c : Z) (v : A) : Z → A := λ k, if decide (k = c) then v else g k.

Record shifting f g (n a b c : Z) : Prop := {
  sh_path : path f n a b;
  sh_last : c = b ∨ 2 * b + 1 ≤ c < n;
  sh_hole : g c = f b;
  sh_same : ∀ k, 0 ≤ k < num → k ≠ b → k < 2 * b + 1 → g k = f k;
  sh_less : b ≠ a → le (counted g c (f a) b) (f b);
  sh_heap : ∀ i s, a < i ∨ (i = a ∧ b = a) → child i s → s < n →
              le (counted g c (f a) s) (counted g c (f a) i);
}.

Lemma shifting_start f n a c :
  0 ≤ a < n → n ≤ num → heap f (a + 1) n → place f n a c → shifting f f n a c c.
Proof.
  intros Ha Hn Hh (Hp & Hs & Hc). pose proof (path_range f n a c ltac:(lia) Hp) as Hr.
  split; [done|by left|done|done| |].
  - intros Hca. unfold counted. rewrite decide_True by done. by destruct Hc.
  - intros i s Hi Hcs Hsn. unfold counted. repeat case_decide; simplify_eq.
    + reflexivity.
    + destruct Hc as [->|Hc]; [unfold child in *; lia|].
      etrans; [exact Hc|]. apply Hh; [lia|done..].
    + by apply Hs.
    + destruct Hi as [Hi|[-> ->]]; [|done]. apply Hh; [lia|done..].
Qed.

(** One exchange of the loop. *)
Lemma shifting_step f g h n a b c :
  0 ≤ a < n → n ≤ num → heap f (a + 1) n → shifting f g n a b c → b ≠ a →
  let p := (b - 1) / 2 in
  (∀ k, 0 ≤ k < num → h k = g (transpose p c k)) →
  path f n a p ∧ 0 ≤ p < b ∧ a ≤ p ∧ p < c < n ∧ shifting f h n a p c.
Proof.
  intros Ha Hn Hh [Hp Hl Hhole Hsame Hless Hheap] Hba p Hg.
  destruct Hp as [|q b Hp Hqb Hbn Hmax]; [done|].
  pose proof (path_range f n a q ltac:(lia) Hp) as Hqr.
  assert (p = q) as -> by (apply child_parent; [lia|done]).
  assert (2 * q + 1 ≤ b) by (unfold child in Hqb; lia).
  assert (h c = g q) as Hhc by (rewrite Hg by lia; unfold transpose; rewrite decide_False, decide_True; (done || lia)).
  assert (h q = g c) as Hhq by (rewrite Hg by lia; unfold transpose; by rewrite decide_True).
  assert (∀ k, 0 ≤ k < num → k ≠ q → k ≠ c → h k = g k) as Hho.
  { intros k Hk ??. rewrite Hg by lia. unfold transpose. by rewrite !decide_False by lia. }
  specialize (Hless Hba).
  assert (g q = f q) as Hgq by (apply Hsame; lia).
  assert (∀ k, 0 ≤ k < num → counted h c (f a) k = if decide (k = q) then f b else counted g c (f a) k) as Hcount.
  { intros k Hk. unfold counted. repeat case_decide; subst; try lia; try done.
    - by rewrite Hhq, Hhole.
    - by apply Hho. }
  split_and!; [done|lia|lia|lia|lia|lia|].
  split; [done|right; lia|by rewrite Hhc| | |].
  - intros k Hk ??. rewrite Hho by lia. apply Hsame; [done|lia|lia].
  - intros Hqa. rewrite Hcount, decide_True by lia. apply Hh; [lia|done..].
  - intros i s Hi Hcs Hsn. assert (0 ≤ i < num ∧ i < s) as [? ?] by (unfold child in Hcs; lia).
    rewrite !Hcount by lia. destruct (decide (s = q)) as [->|Hs].
    { rewrite decide_False by lia. etrans; [apply (Hh q b); [lia|done..]|].
      assert (counted g c (f a) q = f q) as <-.
      { unfold counted. rewrite decide_False by lia. done. }
      apply Hheap; [lia|done..]. }
    destruct (decide (i = q)) as [->|Hi'].
    + destruct (decide (s = b)) as [->|Hsb]; [done|]. unfold counted.
      rewrite decide_False by (unfold child in *; lia).
      rewrite Hsame by (unfold child in *; lia). by apply Hmax.
    + apply Hheap; [lia|done..].
Qed.

Lemma shifting_end f g n a c :
  0 ≤ a < n → n ≤ num → shifting f g n a a c → heap g a n.
Proof.
  intros Ha Hn [Hp Hl Hhole Hsame Hless Hheap] i s Hi Hc Hs.
  assert (∀ k, counted g c (f a) k = g k) as E.
  { intros k. unfold counted. case_decide; [by subst|done]. }
  rewrite <- !E. apply Hheap; [lia|done..].
Qed.

(** The root of a heap is a greatest element. *)
Lemma heap_root f n k : heap f 0 n → 0 ≤ k < n → le (f k) (f 0).
Proof.
  intros Hh. induction k as [k IH] using (well_founded_induction (Z.lt_wf 0)). intros Hk.
  destruct (decide (k = 0)) as [->|]; [reflexivity|].
  pose proof (Z.div_mod (k - 1) 2 ltac:(lia)). pose proof (Z.mod_pos_bound (k - 1) 2 ltac:(lia)).
  etrans; [apply (Hh ((k - 1) / 2)); unfold child; lia|]. apply IH; lia.
Qed.

(** From [n] on every element is at least all those before it. *)
Definition sorted_from f (n : Z) : Prop :=
  ∀ i j, 0 ≤ i ≤ j → n ≤ j < num → le (f i) (f j).

(** Exchanging the root with the last node of the heap. *)
Lemma extract_root f h n :
  1 < n ≤ num → heap f 0 n → sorted_from f n →
  (∀ k, 0 ≤ k < num → h k = f (transpose 0 (n - 1) k)) →
  heap h 1 (n - 1) ∧ sorted_from h (n - 1).
Proof.
  intros Hn Hh Hs Ht. assert (∀ k, 0 < k < num → k ≠ n - 1 → h k = f k) as Hsame.
  { intros k ??. rewrite Ht by lia. unfold transpose. by rewrite !decide_False by lia. }
  split.
  - intros i c Hi Hc Hcn. unfold child in Hc. rewrite !Hsame by lia. apply Hh; unfold child; lia.
  - intros i j Hi Hj. rewrite !Ht by lia.
    assert (h j = f (if decide (j = n - 1) then 0 else j)) as Ej.
    { rewrite Ht by lia. unfold transpose. repeat case_decide; (done || lia). }
    rewrite <- (Ht j), Ej by lia. case_decide as Hjn.
    + apply (heap_root f n); [done|]. apply transpose_range; lia.
    + apply Hs; [|lia]. destruct (decide (i = j)) as [->|].
      * unfold transpose. repeat case_decide; lia.
      * unfold transpose. repeat case_decide; lia.
Qed.

Lemma sorted_from_swaps f g n :
  0 ≤ n ≤ num → swaps n f g → sorted_from f n → sorted_from g n.
Proof.
  intros Hn Hg Hs i j Hi Hj. rewrite (swaps_outside n f g j) by (done || lia).
  destruct (decide (i < n)).
  - apply (swaps_inside (λ x, le x (f j)) n f g); [lia|done| |lia].
    intros k Hk. apply Hs; lia.
  - rewrite (swaps_outside n f g i) by (done || lia). by apply Hs.
Qed.

End Heap.
