(* ===== verification/SortSpec.v ===== *)
(** * Correctness of sort and bsearch

    The exchange routines of lib/src/sort.c exchange two elements, the byte
    offset arithmetic of [parent] is the index arithmetic of a heap, and so
    [sort_r] is the heapsort of SortHeap.v: it terminates with the elements in
    order. [bsearch] finds an element of a sorted array. *)

From stdpp Require Import base numbers list option.
From Stdlib Require Import ZArith Lia.
From S2P Require Import Prelude Bitops Math Strings StringsSpec Sort SortHeap.
Import Strings Sort.

Open Scope Z_scope.

(** ** Exchanging two blocks of memory *)

Definition exchanged (m m' : mem) (a b n : Z) : Prop :=
  ∀ x, m' x = if decide (a ≤ x < a + n) then m (b + (x - a))
              else if decide (b ≤ x < b + n) then m (a + (x - b)) else m x.

Lemma exchanged_app m m1 m2 a b n k :
  0 ≤ n → 0 ≤ k → apart a (n + k) b (n + k) →
  exchanged m m1 (a + n) (b + n) k → exchanged m1 m2 a b n → exchanged m m2 a b (n + k).
Proof.
  intros Hn Hk Hap H1 H2 x. rewrite H2. unfold apart in Hap.
  repeat (destruct (decide _)); try lia; rewrite H1; repeat (destruct (decide _)); try lia;
    f_equal; lia.
Qed.

Lemma exchanged_byte_mem m m' a b n : exchanged m m' a b n → byte_mem m → byte_mem m'.
Proof. intros He Hb x. rewrite He. repeat (destruct (decide _)); apply Hb. Qed.

Definition loadn (m : mem) (a : Z) (n : nat) : list Z := map (λ i, m (a + Z.of_nat i)) (seq 0 n).

Lemma byte_of_loadn m a n i :
  byte_mem m → 0 ≤ i < Z.of_nat n → byte_of (word (loadn m a n)) i = m (a + i).
Proof.
  intros Hb Hi. replace i with (Z.of_nat (Z.to_nat i)) by lia. rewrite byte_of_word.
  - unfold loadn. rewrite list_lookup_fmap, lookup_seq_lt by lia. done.
  - unfold loadn, bytes. apply Forall_fmap, list.Forall_forall. intros j _. apply Hb.
Qed.

(** Two loads and two stores of [n]-byte words. *)
Lemma exchange_words m a b n :
  byte_mem m → apart a (Z.of_nat n) b (Z.of_nat n) →
  exchanged m (write_bytes (write_bytes m a (word (loadn m b n)) n) b (word (loadn m a n)) n)
    a b (Z.of_nat n).
Proof.
  intros Hb Hap x. unfold apart in Hap. rewrite !write_bytes_spec.
  repeat (destruct (decide _)); try lia; try done; by rewrite byte_of_loadn by (done || lia).
Qed.

Lemma read32_word m a : read32 m a = word (loadn m a 4).
Proof.
  unfold read32, loadn. cbn [map seq word].
  change (Z.of_nat 0) with 0. change (Z.of_nat 1) with 1. change (Z.of_nat 2) with 2.
  change (Z.of_nat 3) with 3. rewrite Z.add_0_r. ring.
Qed.

Lemma exchange_64 m a b :
  byte_mem m → apart a 8 b 8 →
  exchanged m (write64 (write64 m a (read64 m b)) b (read64 m a)) a b 8.
Proof. intros. rewrite !read64_word. by apply (exchange_words m a b 8). Qed.

Lemma exchange_32 m a b :
  byte_mem m → apart a 4 b 4 →
  exchanged m (write32 (write32 m a (read32 m b)) b (read32 m a)) a b 4.
Proof. intros. rewrite !read32_word. by apply (exchange_words m a b 4). Qed.

Lemma exchange_8 m a b : a ≠ b → exchanged m (upd (upd m a (m b)) b (m a)) a b 1.
Proof.
  intros Hab x. rewrite !upd_spec. repeat (destruct (decide _)); try lia; subst; try done; f_equal; lia.
Qed.

(** The three loops. *)
Section SwapLoop.
Context (k : Z) (step : mem → Z → Z → mem) (loop : nat → mem → Z → Z → Z → outcome mem).
Hypothesis k_pos : 0 < k.
Hypothesis step_exchanges : ∀ m a b, byte_mem m → apart a k b k → exchanged m (step m a b) a b k.
Hypothesis loop_eq : ∀ fuel m a b n,
  loop (S fuel) m a b n =
  (let n' := u64 (n - k) in
   let m' := step m (a + n') (b + n') in
   if n' =? 0 then Ok m' else loop fuel m' a b n').

Lemma swap_loop_ok c : ∀ fuel m a b,
  byte_mem m → (c < fuel)%nat → k * Z.of_nat (S c) < 2 ^ 64 →
  apart a (k * Z.of_nat (S c)) b (k * Z.of_nat (S c)) →
  ∃ m', loop fuel m a b (k * Z.of_nat (S c)) = Ok m' ∧ exchanged m m' a b (k * Z.of_nat (S c)).
Proof.
  induction c as [|c IH]; intros fuel m a b Hm Hf Hn Hap; (destruct fuel as [|fuel]; [lia|]);
    rewrite loop_eq; cbn zeta.
  - replace (k * Z.of_nat 1 - k) with 0 by lia. change (u64 0) with 0. rewrite !Z.add_0_r.
    eexists. split; [done|]. replace (k * Z.of_nat 1) with k in * by lia. by apply step_exchanges.
  - assert (u64 (k * Z.of_nat (S (S c)) - k) = k * Z.of_nat (S c)) as ->.
    { unfold u64. rewrite Z.mod_small; nia. }
    replace (k * Z.of_nat (S (S c))) with (k * Z.of_nat (S c) + k) in * by nia.
    set (n := k * Z.of_nat (S c)) in *. assert (0 < n) by (unfold n; nia).
    destruct (Z.eqb_spec n 0); [lia|]. unfold apart in Hap.
    assert (exchanged m (step m (a + n) (b + n)) (a + n) (b + n) k) as He.
    { apply step_exchanges; [done|]. unfold apart. lia. }
    destruct (IH fuel (step m (a + n) (b + n)) a b) as (m' & -> & He').
    { by apply exchanged_byte_mem in He. } { lia. } { lia. } { unfold apart; lia. }
    exists m'. split; [done|]. apply exchanged_app with (step m (a + n) (b + n)); unfold apart; (done || lia).
Qed.

End SwapLoop.

(** ** The array *)

Record array_ok (base num size : Z) : Prop := {
  ar_base : 0 ≤ base;
  ar_size : 0 < size < 2 ^ 31;
  ar_num : 0 ≤ num;
  ar_fits : num * size < 2 ^ 62;
}.

(** Element [i]. *)
Definition elem (base size : Z) (m : mem) (i : Z) : list Z := load_elem m (base + i * size) size.

Definition elements (base num size : Z) (m : mem) : list (list Z) :=
  map (elem base size m) (seqZ 0 num).

(** The contract of an exchange routine: two different elements change
    places, and nothing else changes. *)
Class Exchanges (base num size : Z) (sf : swap_func_t) : Prop :=
  exchange_elements : ∀ fuel m i j,
    byte_mem m → size ≤ Z.of_nat fuel → 0 ≤ i < num → 0 ≤ j < num → i ≠ j →
    ∃ m', do_swap fuel m (base + i * size) (base + j * size) size sf = Ok m' ∧ byte_mem m' ∧
          same_outside m m' base (num * size) ∧
          ∀ k, 0 ≤ k < num → elem base size m' k = elem base size m (transpose i j k).

Lemma load_elem_ext m m' p p' size :
  (∀ t, 0 ≤ t < size → m (p + t) = m' (p' + t)) → load_elem m p size = load_elem m' p' size.
Proof.
  intros H. unfold load_elem. apply list_eq. intros t. rewrite !fmap_seqZ_lookup.
  case_decide; [|done]. f_equal. apply H. lia.
Qed.

Lemma elem_slot size i k t : 0 ≤ t < size → i * size ≤ k * size + t < i * size + size ↔ k = i.
Proof. intros Ht. split; [|intros ->; lia]. intros H. nia. Qed.

Lemma exchanged_elements base num size m m' i j :
  array_ok base num size → 0 ≤ i < num → 0 ≤ j < num → i ≠ j →
  exchanged m m' (base + i * size) (base + j * size) size →
  same_outside m m' base (num * size) ∧
  ∀ k, 0 ≤ k < num → elem base size m' k = elem base size m (transpose i j k).
Proof.
  intros [Hb Hs Hn Hf] Hi Hj Hij He. split.
  - intros x Hx. rewrite He. repeat (destruct (decide _)); nia.
  - intros k Hk. apply load_elem_ext. intros t Ht. rewrite He.
    pose proof (elem_slot size i k t Ht). pose proof (elem_slot size j k t Ht).
    unfold transpose. repeat (destruct (decide _)); try lia; subst; f_equal; lia.
Qed.

Lemma element_blocks_apart base size i j :
  0 < size → i ≠ j → apart (base + i * size) size (base + j * size) size.
Proof. intros. unfold apart. nia. Qed.

(** A routine that exchanges the two blocks. *)
Lemma exchanges_blocks base num size sf :
  array_ok base num size →
  (∀ fuel m a b, byte_mem m → size ≤ Z.of_nat fuel → apart a size b size →
     ∃ m', do_swap fuel m a b size sf = Ok m' ∧ exchanged m m' a b size) →
  Exchanges base num size sf.
Proof.
  intros Ha Hsf fuel m i j Hm Hf Hi Hj Hij.
  destruct (Hsf fuel m (base + i * size) (base + j * size)) as (m' & -> & He); [done..| |].
  { apply element_blocks_apart; [apply Ha|done]. }
  exists m'. split; [done|]. split; [by apply exchanged_byte_mem in He|].
  by apply exchanged_elements with (i := i) (j := j).
Qed.

Lemma swap_loop_blocks k size step loop :
  0 < k → 0 < size < 2 ^ 64 → size mod k = 0 →
  (∀ m a b, byte_mem m → apart a k b k → exchanged m (step m a b) a b k) →
  (∀ fuel m a b n, loop (S fuel) m a b n =
     (let n' := u64 (n - k) in let m' := step m (a + n') (b + n') in
      if n' =? 0 then Ok m' else loop fuel m' a b n')) →
  ∀ fuel m a b, byte_mem m → size ≤ Z.of_nat fuel → apart a size b size →
    ∃ m', loop fuel m a b size = Ok m' ∧ exchanged m m' a b size.
Proof.
  intros Hk Hs Hmod Hstep Hloop fuel m a b Hm Hf Hap.
  pose proof (Z.div_mod size k ltac:(lia)) as Hd. rewrite Hmod, Z.add_0_r in Hd.
  assert (1 ≤ size / k) by nia. set (c := Z.to_nat (size / k - 1)).
  assert (size = k * Z.of_nat (S c)) as E by (unfold c; rewrite Hd at 1; f_equal; lia).
  rewrite E in Hs, Hf, Hap |- *. apply (swap_loop_ok k step loop); [done..|nia|lia|done].
Qed.

Lemma swap_words_64_exchanges base num size :
  array_ok base num size → size mod 8 = 0 → Exchanges base num size SWAP_WORDS_64.
Proof.
  intros Ha Hmod. apply exchanges_blocks; [done|]. cbn [do_swap].
  apply (swap_loop_blocks 8 size (λ m a b, write64 (write64 m a (read64 m b)) b (read64 m a)));
    [lia|destruct Ha; lia|done|apply exchange_64|done].
Qed.

Lemma swap_words_32_exchanges base num size :
  array_ok base num size → size mod 4 = 0 → Exchanges base num size SWAP_WORDS_32.
Proof.
  intros Ha Hmod. apply exchanges_blocks; [done|]. cbn [do_swap].
  apply (swap_loop_blocks 4 size (λ m a b, write32 (write32 m a (read32 m b)) b (read32 m a)));
    [lia|destruct Ha; lia|done|apply exchange_32|done].
Qed.

Lemma swap_bytes_exchanges base num size :
  array_ok base num size → Exchanges base num size SWAP_BYTES.
Proof.
  intros Ha. apply exchanges_blocks; [done|]. cbn [do_swap].
  apply (swap_loop_blocks 1 size (λ m a b, upd (upd m a (m b)) b (m a)));
    [lia|destruct Ha; lia|apply Z.mod_1_r| |done].
  intros m a b _ Hap. apply exchange_8. unfold apart in Hap. lia.
Qed.

Lemma is_aligned_size base size k :
  0 ≤ k ≤ 8 → is_aligned base size (2 ^ k) = true → size mod 2 ^ k = 0.
Proof.
  intros Hk. unfold is_aligned. rewrite land_ones_mod by lia. intros E%Z.eqb_eq.
  rewrite <- Z.land_ones in E |- * by lia. rewrite Z.land_lor_distr_l in E.
  apply Z.lor_eq_0_iff in E as [E _]. unfold u8 in E.
  rewrite <- (Z.land_ones size 8), <- Z.land_assoc in E by lia.
  replace (Z.land (Z.ones 8) (Z.ones k)) with (Z.ones k) in E; [done|].
  symmetry. rewrite Z.land_comm. apply Z.bits_inj'. intros i Hi. rewrite Z.land_spec.
  destruct (Z.ltb_spec i k).
  - rewrite !Z.ones_spec_low by lia. done.
  - rewrite (Z.ones_spec_high k) by lia. done.
Qed.

(** The routine [sort_r] chooses when the caller gives none. *)
Definition builtin_swap (base size : Z) : swap_func_t :=
  if is_aligned base size 8 then SWAP_WORDS_64
  else if is_aligned base size 4 then SWAP_WORDS_32 else SWAP_BYTES.

Lemma builtin_exchanges base num size :
  array_ok base num size → Exchanges base num size (builtin_swap base size).
Proof.
  intros Ha. unfold builtin_swap. destruct (is_aligned base size 8) eqn:E8.
  { apply swap_words_64_exchanges; [done|]. by apply (is_aligned_size base size 3). }
  destruct (is_aligned base size 4) eqn:E4.
  { apply swap_words_32_exchanges; [done|]. by apply (is_aligned_size base size 2). }
  by apply swap_bytes_exchanges.
Qed.

(** ** Offsets and indices *)

Lemma land_pow2_odd j k q :
  0 ≤ j → 0 ≤ k → Z.land (j * ((2 * q + 1) * 2 ^ k)) (2 ^ k) = if Z.odd j then 2 ^ k else 0.
Proof.
  intros Hj Hk. replace (j * ((2 * q + 1) * 2 ^ k)) with (j * (2 * q + 1) * 2 ^ k + 0) by ring.
  replace (2 ^ k) with (1 * 2 ^ k + 0) at 2 by ring.
  assert (0 < 2 ^ k) by (apply Z.pow_pos_nonneg; lia).
  rewrite land_split by lia. rewrite Z.land_0_r, Z.add_0_r.
  change 1 with (2 ^ 1 - 1) at 2. rewrite land_ones_mod by lia. change (2 ^ 1) with 2.
  rewrite Zmod_odd, Z.odd_mul, (Z.add_comm (2 * q)), Z.odd_add_mul_2, andb_true_r.
  destruct (Z.odd j); lia.
Qed.

Lemma land_multiple_mask size k q :
  0 ≤ k < 64 → size = (2 * q + 1) * 2 ^ k → 0 < size < 2 ^ 64 → Z.land size (u64 (- 2 ^ k)) = size.
Proof.
  intros Hk E Hs. rewrite Z.land_comm, land_u64_l by lia.
  assert (0 < 2 ^ k) by (apply Z.pow_pos_nonneg; lia).
  replace (- 2 ^ k) with (-1 * 2 ^ k + 0) by ring. rewrite E.
  replace ((2 * q + 1) * 2 ^ k) with ((2 * q + 1) * 2 ^ k + 0) at 1 by ring.
  rewrite land_split by lia. rewrite Z.land_m1_l, Z.land_0_r. ring.
Qed.

(** The branch-free [parent] on offsets is [(i - 1) / 2] on indices. *)
Lemma parent_index size i :
  0 < size < 2 ^ 31 → 1 ≤ i → i * size < 2 ^ 63 →
  parent (i * size) (u32 (Z.land size (u64 (- size)))) size = (i - 1) / 2 * size.
Proof.
  intros Hs Hi Hf. unfold parent. rewrite Gcd.land_neg_lowest by lia.
  destruct (Gcd.shiftr_ffs_odd size ltac:(lia)) as (q & _ & Hq & E & Hk).
  destruct (__ffs_testbit size ltac:(lia)) as (_ & _ & Hk64).
  set (k := __ffs size) in *. clearbody k.
  assert (0 < 2 ^ k) by (apply Z.pow_pos_nonneg; lia). assert (2 ^ k ≤ size) by nia.
  assert (u32 (2 ^ k) = 2 ^ k) as -> by (unfold u32; rewrite Z.mod_small; lia).
  assert (u64 (i * size - size) = (i - 1) * size) as -> by (unfold u64; rewrite Z.mod_small; nia).
  assert (Z.land ((i - 1) * size) (2 ^ k) = if Z.odd (i - 1) then 2 ^ k else 0) as ->.
  { rewrite E. apply land_pow2_odd; lia. }
  pose proof (Z.div_mod (i - 1) 2 ltac:(lia)) as Hd. rewrite Zmod_odd in Hd.
  set (h := (i - 1) / 2) in *. assert (0 ≤ h) by (unfold h; apply Z.div_pos; lia). clearbody h.
  assert (2 * h ≤ i) by (destruct (Z.odd (i - 1)); lia).
  assert (2 * h * size ≤ i * size) by (apply Z.mul_le_mono_nonneg_r; lia).
  assert (u64 (h * size * 2) = h * size * 2) as Hh by (unfold u64; rewrite Z.mod_small; [done|nia]).
  destruct (Z.odd (i - 1)).
  - rewrite (land_multiple_mask size k q) by lia.
    replace ((i - 1) * size - size) with (h * size * 2) by (rewrite Hd; ring).
    rewrite Hh. apply Z.div_mul. lia.
  - change (u64 (- 0)) with 0. rewrite Z.land_0_r, Z.sub_0_r.
    replace ((i - 1) * size) with (h * size * 2) by (rewrite Hd; ring).
    rewrite Hh. apply Z.div_mul. lia.
Qed.

(** ** The comparison *)

Definition cval {P} (cmp : cmp_r_func_t P) (x y : list Z) : Z :=
  match cmp with CMP_WRAPPER priv => priv x y | CMP_R cmp priv => cmp x y priv end.

Definition cmp_le {P} (cmp : cmp_r_func_t P) (x y : list Z) : Prop := cval cmp x y ≤ 0.

(** The contract of a comparison function: the sign is that of a total
    preorder. *)
Class Comparison {P} (cmp : cmp_r_func_t P) : Prop := {
  cmp_opp : ∀ x y, cval cmp x y ≤ 0 ↔ 0 ≤ cval cmp y x;
  cmp_trans : ∀ x y z, cmp_le cmp x y → cmp_le cmp y z → cmp_le cmp x z;
}.

#[export] Instance cmp_le_preorder {P} (cmp : cmp_r_func_t P) `{!Comparison cmp} : PreOrder (cmp_le cmp).
Proof.
  split; [|intros x y z; apply cmp_trans].
  intros x. unfold cmp_le. pose proof (cmp_opp x x). lia.
Qed.

Lemma do_cmp_elem {P} (cmp : cmp_r_func_t P) base size m i j :
  do_cmp m (base + i * size) (base + j * size) size cmp =
  cval cmp (elem base size m i) (elem base size m j).
Proof. by destruct cmp. Qed.

(** ** The loops of sort_r *)

Section Loops.
Context {P : Type} (cmp : cmp_r_func_t P) `{!Comparison cmp}.
Context (base num size : Z) (sf : swap_func_t) `{!Exchanges base num size sf}.
Hypothesis Harr : array_ok base num size.

Abbreviation lsbit := (u32 (Z.land size (u64 (- size)))).
Abbreviation le := (cmp_le cmp).
Abbreviation E := (elem base size).

Lemma scale_u64 i : 0 ≤ i ≤ 2 * num + 2 → i ≤ 2 * num ∨ size ≤ num * size → u64 (i * size) = i * size.
Proof. destruct Harr. intros. unfold u64. rewrite Z.mod_small; [done|nia]. Qed.

Lemma descend_ok : ∀ fuel m N a i,
  0 ≤ a → a ≤ i < N → N ≤ num → path le (E m) N a i → N - i < Z.of_nat fuel →
  ∃ j, descend base size cmp fuel m (N * size) (i * size) = Ok (j * size) ∧
       path le (E m) N a j ∧ ∀ c, child j c → N ≤ c.
Proof.
  induction fuel as [|fuel IH]; intros m N a i Ha Hi HN Hp Hf; [lia|]. cbn [descend].
  destruct Harr as [_ Hs _ Hfit].
  assert (size ≤ num * size) by nia.
  replace (2 * (i * size) + size) with ((2 * i + 1) * size) by ring. rewrite scale_u64 by lia.
  replace ((2 * i + 1) * size + size) with ((2 * i + 2) * size) by ring. rewrite scale_u64 by lia.
  rewrite do_cmp_elem. destruct (Z.ltb_spec ((2 * i + 2) * size) (N * size)) as [Hd|Hd].
  - assert (2 * i + 2 < N) by nia.
    destruct (Z.leb_spec 0 (cval cmp (E m (2 * i + 1)) (E m (2 * i + 2)))) as [Hc|Hc].
    + apply IH; [lia|lia|lia| |lia]. apply path_step with i; [done|by left|lia|].
      intros s [-> | ->] _; [reflexivity|]. by apply cmp_opp.
    + apply IH; [lia|lia|lia| |lia]. apply path_step with i; [done|by right|lia|].
      intros s [-> | ->] _; [unfold cmp_le; lia|reflexivity].
  - destruct (Z.eqb_spec ((2 * i + 2) * size) (N * size)) as [He|He].
    + assert (2 * i + 2 = N) by nia. exists (2 * i + 1). split; [done|]. split.
      * apply path_step with i; [done|by left|lia|]. intros s [-> | ->] ?; [reflexivity|lia].
      * intros c [-> | ->]; lia.
    + assert (N < 2 * i + 2) by nia. exists i. split; [done|]. split; [done|].
      intros c [-> | ->]; lia.
Qed.

Lemma backtrack_ok : ∀ fuel m N a j,
  0 ≤ a < N → N ≤ num → path le (E m) N a j → (∀ s, child j s → s < N → le (E m s) (E m a)) →
  j < Z.of_nat fuel →
  ∃ c, backtrack base size lsbit cmp fuel m (a * size) (j * size) = Ok (c * size) ∧
       place le (E m) N a c.
Proof.
  induction fuel as [|fuel IH]; intros m N a j Ha HN Hp Hs Hf.
  { apply path_range in Hp; lia. }
  pose proof Harr as [_ Hsz _ Hfit]. cbn [backtrack]. rewrite do_cmp_elem.
  destruct (Z.eqb_spec (j * size) (a * size)) as [Eq|Ne]; cbn [negb andb].
  { assert (j = a) as -> by nia. exists a. split; [done|]. split; [done|]. split; [done|by left]. }
  assert (j ≠ a) by congruence. pose proof (path_range _ (E m) N a j ltac:(lia) Hp).
  destruct (Z.leb_spec 0 (cval cmp (E m a) (E m j))) as [Hc|Hc].
  - rewrite parent_index by nia. destruct Hp as [|b j Hp Hbj Hj Hmax]; [done|].
    pose proof (path_range _ (E m) N a b ltac:(lia) Hp).
    rewrite (child_parent b j) by (done || lia). apply IH; [done|done|done| |unfold child in Hbj; lia].
    intros s Hs1 Hs2. etrans; [by apply Hmax|]. by apply cmp_opp.
  - exists j. split; [done|]. split; [done|]. split; [done|]. right. unfold cmp_le. lia.
Qed.

Lemma shift_ok f N a c : 0 ≤ a < N → N ≤ num → heap le f (a + 1) N → ∀ fuel m b,
  shifting le num f (E m) N a b c → byte_mem m → b + size < Z.of_nat fuel →
  ∃ m', shift base size lsbit sf fuel m (a * size) (b * size) (c * size) = Ok m' ∧ byte_mem m' ∧
        same_outside m m' base (num * size) ∧ heap le (E m') a N ∧ swaps num N (E m) (E m').
Proof.
  intros Ha HN Hh. pose proof Harr as [_ Hsz _ Hfit].
  induction fuel as [|fuel IH]; intros m b Hsh Hm Hf.
  { pose proof (path_range _ f N a b ltac:(lia) (sh_path _ _ _ _ _ _ _ _ Hsh)). lia. }
  pose proof (path_range _ f N a b ltac:(lia) (sh_path _ _ _ _ _ _ _ _ Hsh)) as Hr.
  cbn [shift]. destruct (Z.eqb_spec (b * size) (a * size)) as [Eq|Ne].
  { assert (b = a) as -> by nia. exists m. split_and!; [done|done|done| |by apply swaps_refl].
    by apply (shifting_end le num f (E m) N a c). }
  assert (b ≠ a) as Hba by congruence. rewrite parent_index by nia.
  destruct (shifting_step le num f (E m) (λ k, E m (transpose ((b - 1) / 2) c k)) N a b c)
    as (Hp & Hpb & Hap & Hpc & Hsh'); [done..|].
  destruct (exchange_elements fuel m ((b - 1) / 2) c) as (m1 & -> & Hm1 & Hout1 & Hel1); [done|lia..|].
  cbn [mbind outcome_bind].
  destruct (shifting_step le num f (E m) (E m1) N a b c) as (_ & _ & _ & _ & Hsh1); [done..|].
  destruct (IH m1 ((b - 1) / 2)) as (m' & -> & Hm' & Hout & Hheap & Hsw); [done|done|lia|].
  exists m'. split_and!; [done|done| |done|].
  - intros x Hx. by rewrite Hout, Hout1.
  - apply swaps_trans with (E m1); [lia| |done].
    apply (swaps_step num N _ (E m) _ ((b - 1) / 2) c); [by apply swaps_refl|lia|lia|done].
Qed.

Lemma sift_ok fuel m N a :
  0 ≤ a < N → N ≤ num → byte_mem m → heap le (E m) (a + 1) N → num + size < Z.of_nat fuel →
  ∃ m', sift base size lsbit cmp sf fuel m (a * size) (N * size) = Ok m' ∧ byte_mem m' ∧
        same_outside m m' base (num * size) ∧ heap le (E m') a N ∧ swaps num N (E m) (E m').
Proof.
  intros Ha HN Hm Hh Hf. unfold sift. pose proof Harr as [_ Hsz _ _].
  destruct (descend_ok fuel m N a a) as (j & -> & Hj & Hleaf); [lia..|apply path_here|lia|].
  pose proof (path_range _ (E m) N a j ltac:(lia) Hj).
  cbn [mbind outcome_bind]. destruct (backtrack_ok fuel m N a j) as (c & -> & Hc); [done..| |lia|].
  { intros s Hs1 Hs2. specialize (Hleaf s Hs1). lia. }
  cbn [mbind outcome_bind]. pose proof (path_range _ (E m) N a c ltac:(lia) (proj1 Hc)).
  apply (shift_ok (E m)); [done..| |done|lia]. by apply (shifting_start le num).
Qed.

(** The invariant of the outer loop: a heap from [a] on, and once [a] is 0 the
    elements from [n] on in their final places. *)
Lemma sort_loop_ok : ∀ fuel m a N,
  0 ≤ a ≤ N → 0 < N ≤ num → (N = num ∨ a = 0) → byte_mem m →
  heap le (E m) a N → sorted_from le num (E m) N → a + N + num + size + 2 ≤ Z.of_nat fuel →
  ∃ m', sort_loop base size lsbit cmp sf fuel m (a * size) (N * size) = Ok m' ∧ byte_mem m' ∧
        same_outside m m' base (num * size) ∧ sorted_from le num (E m') 1 ∧
        swaps num num (E m) (E m').
Proof.
  pose proof Harr as [_ Hsz _ Hfit].
  induction fuel as [|fuel IH]; intros m a N Ha HN Hph Hm Hh Hs Hf; [lia|]. cbn [sort_loop].
  assert (size ≤ num * size) by nia.
  destruct (Z.eqb_spec (a * size) 0) as [E0|E0]; cbn [negb].
  - assert (a = 0) as -> by nia. replace (N * size - size) with ((N - 1) * size) by ring.
    rewrite scale_u64 by lia. destruct (Z.eqb_spec ((N - 1) * size) 0) as [E1|E1]; cbn [negb].
    { assert (N = 1) as -> by nia. exists m. split_and!; [done..|by apply swaps_refl]. }
    assert (1 < N) by nia.
    destruct (exchange_elements fuel m 0 (N - 1)) as (m1 & Hsw & Hm1 & Hout1 & Hel1); [done|lia..|].
    rewrite Z.mul_0_l, Z.add_0_r in Hsw. rewrite Hsw. cbn [mbind outcome_bind].
    destruct (extract_root le num (E m) (E m1) N) as [Hh1 Hs1]; [lia|done..|].
    destruct (sift_ok fuel m1 (N - 1) 0) as (m2 & -> & Hm2 & Hout2 & Hh2 & Hsw2); [lia|lia|done|done|lia|].
    cbn [mbind outcome_bind].
    destruct (IH m2 0 (N - 1)) as (m' & -> & Hm' & Hout & Hso & Hsw'); [lia|lia|by right|done|done| |lia|].
    { by apply (sorted_from_swaps le num (E m1)); [lia|..]. }
    exists m'. split_and!; [done|done| |done|].
    + intros x Hx. by rewrite Hout, Hout2, Hout1.
    + apply swaps_trans with (E m2); [lia| |done]. apply swaps_trans with (E m1); [lia| |].
      * apply (swaps_step num num _ (E m) _ 0 (N - 1)); [by apply swaps_refl|lia|lia|done].
      * apply swaps_mono with (N - 1); [lia|done].
  - assert (0 < a) by nia. replace (a * size - size) with ((a - 1) * size) by ring.
    rewrite scale_u64 by lia.
    destruct (sift_ok fuel m N (a - 1)) as (m1 & -> & Hm1 & Hout1 & Hh1 & Hsw1); [lia|lia|done| |lia|].
    { by replace (a - 1 + 1) with a by lia. }
    cbn [mbind outcome_bind].
    destruct (IH m1 (a - 1) N) as (m' & -> & Hm' & Hout & Hso & Hsw'); [lia|done|lia|done|done| |lia|].
    { by apply (sorted_from_swaps le num (E m)); [lia|..]. }
    exists m'. split_and!; [done|done| |done|].
    + intros x Hx. by rewrite Hout, Hout1.
    + apply swaps_trans with (E m1); [lia| |done]. apply swaps_mono with N; [lia|done].
Qed.

(** Nothing has children in the upper half. *)
Lemma half_heap m : heap le (E m) (num / 2) num.
Proof.
  intros i c Hi Hc Hn. pose proof (Z.div_mod num 2 ltac:(lia)). pose proof (Z.mod_pos_bound num 2 ltac:(lia)).
  unfold child in Hc. lia.
Qed.

End Loops.

(** ** The contracts *)

(** The routine in use: the caller's or the chosen one. *)
Definition swap_of (base size : Z) (swap_func : option (mem → Z → Z → Z → mem)) : swap_func_t :=
  match swap_func with Some f => SWAP_FUNC f | None => builtin_swap base size end.

Definition sorts {P} (cmp : cmp_r_func_t P) (base num size : Z) (m m' : mem) : Prop :=
  Permutation (elements base num size m) (elements base num size m') ∧
  (∀ i j, 0 ≤ i ≤ j → j < num → cmp_le cmp (elem base size m' i) (elem base size m' j)) ∧
  same_outside m m' base (num * size).

Lemma sort_r_spec {P} (cmp : cmp_r_func_t P) `{!Comparison cmp} base num size swap_func fuel m :
  array_ok base num size → Exchanges base num size (swap_of base size swap_func) →
  byte_mem m → 3 * num + size + 2 ≤ Z.of_nat fuel →
  ∃ m', sort_r fuel m base num size cmp swap_func = Ok m' ∧ byte_mem m' ∧ sorts cmp base num size m m'.
Proof.
  intros Harr Hex Hm Hf. pose proof Harr as [_ Hsz Hn Hfit].
  pose proof (Z.div_mod num 2 ltac:(lia)). pose proof (Z.mod_pos_bound num 2 ltac:(lia)).
  unfold sort_r. assert (u64 (num * size) = num * size) as -> by (unfold u64; rewrite Z.mod_small; lia).
  assert (0 ≤ num / 2 * size ≤ num * size) by (split; [apply Z.mul_nonneg_nonneg|apply Z.mul_le_mono_nonneg_r]; lia).
  assert (u64 (num / 2 * size) = num / 2 * size) as -> by (unfold u64; rewrite Z.mod_small; lia).
  destruct (Z.eqb_spec (num / 2 * size) 0) as [E0|E0].
  - assert (num < 2) by nia. exists m. split; [done|]. split; [done|]. split; [done|]. split; [|done].
    intros i j ??. assert (i = j) as -> by lia. reflexivity.
  - change (match swap_func with Some f => SWAP_FUNC f | None => _ end) with (swap_of base size swap_func).
    destruct (sort_loop_ok cmp base num size (swap_of base size swap_func) Harr fuel m (num / 2) num)
      as (m' & -> & Hm' & Hout & Hso & Hsw); [lia|nia|by left|done|apply half_heap| |lia|].
    { intros i j ??. lia. }
    exists m'. split; [done|]. split; [done|]. split; [|split; [|done]].
    + by apply (swaps_perm num num (elem base size m)).
    + intros i j ??. destruct (decide (j = 0)) as [->|]; [|apply Hso; lia].
      by assert (i = 0) as -> by lia.
Qed.

(** C23: [sort_r] sorts. On an array of [num] elements of [size] bytes it
    terminates, and afterwards the array holds the same elements, each at most
    the next ones in the order of the comparison, with the memory around the
    array untouched. This holds for the exchange by 64-bit words, by 32-bit
    words and by bytes, whichever the alignment selects, and for a caller's
    routine that exchanges two elements; the comparison has to be that of a
    total preorder. *)
Theorem sort_r_correct {P} (cmp : cmp_r_func_t P) (base num size : Z)
    (swap_func : option (mem → Z → Z → Z → mem)) (fuel : nat) (m : mem) :
  Comparison cmp → array_ok base num size →
  (∀ f, swap_func = Some f → Exchanges base num size (SWAP_FUNC f)) →
  byte_mem m → 3 * num + size + 2 ≤ Z.of_nat fuel →
  ∃ m', sort_r fuel m base num size cmp swap_func = Ok m' ∧ byte_mem m' ∧ sorts cmp base num size m m'.
Proof.
  intros Hcmp Harr Hswap Hm Hf. apply sort_r_spec; try done.
  destruct swap_func as [f|]; [by apply Hswap|by apply builtin_exchanges].
Qed.

(** Elements of one byte in the order of their values, at address 100. *)
Definition byte_cmp : cmp_func_t := λ x y, default 0 (head x) - default 0 (head y).

#[export] Instance byte_cmp_comparison : Comparison (P := unit) (CMP_WRAPPER byte_cmp).
Proof. split; unfold cmp_le, cval, byte_cmp; intros; lia. Qed.

Definition demo_array : mem := λ x, default 0 ([7; 3; 9; 1; 3] !! Z.to_nat (x - 100)).

Lemma demo_array_bytes : byte_mem demo_array.
Proof.
  intros x. unfold demo_array. set (k := Z.to_nat (x - 100)). clearbody k.
  destruct ([7; 3; 9; 1; 3] !! k) as [v|] eqn:E; cbn [default from_option id]; [|lia].
  apply list_elem_of_lookup_2, list_elem_of_In in E. cbn in E. lia.
Qed.

Lemma sort_r_correct_witness :
  ∃ m', sort_r (P := unit) 18 demo_array 100 5 1 (CMP_WRAPPER byte_cmp) None = Ok m' ∧
        elements 100 5 1 m' = [[1]; [3]; [3]; [7]; [9]].
Proof.
  destruct (sort_r_correct (P := unit) (CMP_WRAPPER byte_cmp) 100 5 1 None 18 demo_array)
    as (m' & E & _ & _).
  - apply _.
  - split; lia.
  - done.
  - apply demo_array_bytes.
  - lia.
  - exists m'. split; [done|]. vm_compute in E. injection E as <-. vm_compute. reflexivity.
Defined.

(** ** Binary search *)

(** The elements in the order the search relies on: the comparison of the key
    with the elements goes from positive through zero to negative. *)
Definition key_sorted (base num size : Z) (m : mem) (cmp : list Z → Z) : Prop :=
  ∀ i j, 0 ≤ i ≤ j → j < num →
    (cmp (elem base size m i) ≤ 0 → cmp (elem base size m j) ≤ 0) ∧
    (cmp (elem base size m i) < 0 → cmp (elem base size m j) < 0).

Lemma bsearch_loop_ok base num size m cmp :
  key_sorted base num size m cmp → 0 < size → 0 < base → ∀ fuel lo n,
  0 ≤ lo → 0 ≤ n → lo + n ≤ num → n < Z.of_nat fuel →
  (∀ i, 0 ≤ i < lo → 0 < cmp (elem base size m i)) →
  (∀ i, lo + n ≤ i < num → cmp (elem base size m i) < 0) →
  ∃ p, __inline_bsearch fuel m (base + lo * size) n size cmp = Ok p ∧
    ((∃ i, 0 ≤ i < num ∧ p = base + i * size ∧ cmp (elem base size m i) = 0) ∨
     (p = NULL ∧ ∀ i, 0 ≤ i < num → cmp (elem base size m i) ≠ 0)).
Proof.
  intros Hs Hsz Hb. induction fuel as [|fuel IH]; intros lo n Hlo Hn Hln Hf Hlow Hhigh; [lia|].
  cbn [__inline_bsearch]. destruct (Z.ltb_spec 0 n) as [Hn0|Hn0].
  2:{ exists NULL. split; [done|]. right. split; [done|]. intros i Hi.
      destruct (decide (i < lo)); [specialize (Hlow i); lia|specialize (Hhigh i); lia]. }
  rewrite (shiftr_div n 1) by lia. change (2 ^ 1) with 2.
  pose proof (Z.div_mod n 2 ltac:(lia)). pose proof (Z.mod_pos_bound n 2 ltac:(lia)).
  replace (base + lo * size + n / 2 * size) with (base + (lo + n / 2) * size) by ring.
  change (load_elem m (base + (lo + n / 2) * size) size) with (elem base size m (lo + n / 2)).
  set (r := cmp (elem base size m (lo + n / 2))) in *.
  destruct (Z.eqb_spec r 0) as [E|E].
  { exists (base + (lo + n / 2) * size). split; [done|]. left. exists (lo + n / 2). split_and!; [lia..|done|done]. }
  destruct (Z.ltb_spec 0 r) as [Hr|Hr].
  - rewrite (shiftr_div (n - 1) 1) by lia. change (2 ^ 1) with 2.
    pose proof (Z.div_mod (n - 1) 2 ltac:(lia)). pose proof (Z.mod_pos_bound (n - 1) 2 ltac:(lia)).
    replace (base + (lo + n / 2) * size + size) with (base + (lo + n / 2 + 1) * size) by ring.
    apply IH; [lia..| |].
    + intros i Hi. destruct (decide (cmp (elem base size m i) ≤ 0)) as [Hc|]; [|lia].
      apply (Hs i (lo + n / 2)) in Hc; [fold r in Hc; lia|lia|lia].
    + intros i Hi. apply Hhigh. lia.
  - rewrite (shiftr_div n 1) by lia. change (2 ^ 1) with 2. apply IH; [lia..|done|].
    intros i Hi. apply (Hs (lo + n / 2) i); [lia|lia|]. fold r. lia.
Qed.

Lemma bsearch_spec base num size m cmp fuel :
  key_sorted base num size m cmp → 0 < base → 0 < size → 0 ≤ num < Z.of_nat fuel →
  ∃ p, bsearch fuel m base num size cmp = Ok p ∧
    ((∃ i, 0 ≤ i < num ∧ p = base + i * size ∧ cmp (elem base size m i) = 0) ∨
     (p = NULL ∧ ∀ i, 0 ≤ i < num → cmp (elem base size m i) ≠ 0)).
Proof.
  intros Hs Hb Hsz Hn. unfold bsearch.
  pose proof (bsearch_loop_ok base num size m cmp Hs Hsz Hb fuel 0 num) as H.
  rewrite Z.mul_0_l, Z.add_0_r in H. apply H; lia.
Qed.

Lemma sorted_key_sorted {P} (cmp : cmp_r_func_t P) `{!Comparison cmp} base num size m x :
  (∀ i j, 0 ≤ i ≤ j → j < num → cmp_le cmp (elem base size m i) (elem base size m j)) →
  key_sorted base num size m (cval cmp x).
Proof.
  intros Hs i j Hi Hj. specialize (Hs i j Hi Hj). split; intros Hc.
  - by apply (cmp_trans x (elem base size m i)).
  - destruct (decide (cval cmp x (elem base size m j) < 0)) as [|Hge]; [done|].
    assert (cmp_le cmp (elem base size m j) x) as Hx by (apply cmp_opp; lia).
    pose proof (cmp_trans _ _ _ Hs Hx) as Hix. apply cmp_opp in Hix. lia.
Qed.

Lemma elem_of_elements base num size m x :
  0 ≤ num → x ∈ elements base num size m ↔ ∃ i, 0 ≤ i < num ∧ x = elem base size m i.
Proof.
  intros Hn. unfold elements. change (map ?f) with (fmap (M := list) f).
  rewrite list_elem_of_fmap. split.
  - intros (i & -> & Hi%elem_of_seqZ). exists i. split; [lia|done].
  - intros (i & Hi & ->). exists i. split; [done|]. apply elem_of_seqZ. lia.
Qed.

(** Searching after sorting. In an array that [sort] has put in order,
    [bsearch] with the same comparison returns the address of an element that
    compares equal to the key if the array held such an element before the
    sort, and NULL if it held none; both calls terminate. *)
Theorem sort_then_bsearch (c : cmp_func_t) (base num size : Z) (fuel : nat) (m : mem) (key : list Z) :
  Comparison (P := unit) (CMP_WRAPPER c) → array_ok base num size → 0 < base → byte_mem m →
  3 * num + size + 2 ≤ Z.of_nat fuel →
  ∃ m' p, sort fuel m base num size c None = Ok m' ∧ bsearch fuel m' base num size (c key) = Ok p ∧
    ((∃ i, 0 ≤ i < num ∧ p = base + i * size ∧ c key (elem base size m' i) = 0 ∧
           elem base size m' i ∈ elements base num size m) ∨
     (p = NULL ∧ ∀ x, x ∈ elements base num size m → c key x ≠ 0)).
Proof.
  intros Hcmp Harr Hb Hm Hf. pose proof Harr as [_ Hsz Hn _].
  destruct (sort_r_spec (P := unit) (CMP_WRAPPER c) base num size None fuel m)
    as (m' & Hsort & Hm' & Hperm & Hord & _); [done|by apply builtin_exchanges|done|done|].
  destruct (bsearch_spec base num size m' (c key) fuel) as (p & Hp & Hres); [|lia..|].
  { by apply (sorted_key_sorted (P := unit) (CMP_WRAPPER c)). }
  exists m', p. split; [done|]. split; [done|].
  destruct Hres as [(i & Hi & -> & Hc)|[-> Hnone]]; [left|right].
  - exists i. split_and!; [lia|lia|done|done|]. rewrite Hperm. apply elem_of_elements; [done|by exists i].
  - split; [done|]. intros x Hx. rewrite Hperm in Hx. apply elem_of_elements in Hx as (i & Hi & ->); [|done].
    by apply Hnone.
Qed.

Lemma sort_then_bsearch_witness :
  ∃ m' p, sort 18 demo_array 100 5 1 byte_cmp None = Ok m' ∧
    bsearch 18 m' 100 5 1 (byte_cmp [7]) = Ok p ∧ p = 103.
Proof.
  destruct (sort_then_bsearch byte_cmp 100 5 1 18 demo_array [7]) as (m' & p & Hs & Hp & _).
  - apply _.
  - split; lia.
  - lia.
  - apply demo_array_bytes.
  - lia.
  - exists m', p. split; [done|]. split; [done|].
    vm_compute in Hs. injection Hs as <-. vm_compute in Hp. congruence.
Defined.
