(* ===== verification/Bitmap.v ===== *)
(** * Bitmaps

    Arrays of 64-bit words as sequences of bits: the non-atomic bit operations
    of include/asm-generic/bitops/non-atomic.h, the searches of
    lib/src/find_bit.c, the population counts of lib/src/hweight.c and the
    operations of lib/src/bitmap.c. An access outside the array is [Panic]. *)

From stdpp Require Import base numbers list option.
From Stdlib Require Import ZArith Lia.
From S2P Require Import Prelude Bitops.

Open Scope Z_scope.

Module Bitmap.

Definition BITS_PER_LONG : Z := 64.
Definition ULONG_MAX : Z := 2 ^ 64 - 1.

Definition rd (map : list Z) (i : Z) : outcome Z :=
  match map !! Z.to_nat i with Some w => Ok w | None => Panic end.

Definition wr (map : list Z) (i v : Z) : outcome (list Z) :=
  if decide (Z.to_nat i < length map)%nat then Ok (<[Z.to_nat i := v]> map) else Panic.

Definition BIT_WORD (nr : Z) : Z := nr / BITS_PER_LONG.
Definition BIT_MASK (nr : Z) : Z := u64 (Z.shiftl 1 (nr mod BITS_PER_LONG)).

(** ** Single bits *)

Definition __set_bit (nr : Z) (addr : list Z) : outcome (list Z) :=
  w ← rd addr (BIT_WORD nr); wr addr (BIT_WORD nr) (Z.lor w (BIT_MASK nr)).

Definition __clear_bit (nr : Z) (addr : list Z) : outcome (list Z) :=
  w ← rd addr (BIT_WORD nr); wr addr (BIT_WORD nr) (Z.land w (u64 (Z.lnot (BIT_MASK nr)))).

Definition __change_bit (nr : Z) (addr : list Z) : outcome (list Z) :=
  w ← rd addr (BIT_WORD nr); wr addr (BIT_WORD nr) (Z.lxor w (BIT_MASK nr)).

Definition __test_and_set_bit (nr : Z) (addr : list Z) : outcome (list Z * bool) :=
  old ← rd addr (BIT_WORD nr);
  addr ← wr addr (BIT_WORD nr) (Z.lor old (BIT_MASK nr));
  Ok (addr, negb (Z.land old (BIT_MASK nr) =? 0)).

Definition __test_and_clear_bit (nr : Z) (addr : list Z) : outcome (list Z * bool) :=
  old ← rd addr (BIT_WORD nr);
  addr ← wr addr (BIT_WORD nr) (Z.land old (u64 (Z.lnot (BIT_MASK nr))));
  Ok (addr, negb (Z.land old (BIT_MASK nr) =? 0)).

Definition __test_and_change_bit (nr : Z) (addr : list Z) : outcome (list Z * bool) :=
  old ← rd addr (BIT_WORD nr);
  addr ← wr addr (BIT_WORD nr) (Z.lxor old (BIT_MASK nr));
  Ok (addr, negb (Z.land old (BIT_MASK nr) =? 0)).

Definition test_bit (nr : Z) (addr : list Z) : outcome Z :=
  w ← rd addr (BIT_WORD nr); Ok (Z.land 1 (Z.shiftr w (Z.land nr (BITS_PER_LONG - 1)))).

(** ** Searches *)

Definition BITMAP_FIRST_WORD_MASK (start : Z) : Z :=
  u64 (Z.shiftl ULONG_MAX (Z.land start (BITS_PER_LONG - 1))).

Definition BITMAP_LAST_WORD_MASK (nbits : Z) : Z :=
  Z.shiftr ULONG_MAX (Z.land (- nbits) (BITS_PER_LONG - 1)).

Definition swab (x : Z) : Z :=
  u64 (Z.lor (Z.lor (Z.lor (Z.lor (Z.lor (Z.lor (Z.lor
    (Z.shiftl (Z.land x 0x00000000000000ff) 56)
    (Z.shiftl (Z.land x 0x000000000000ff00) 40))
    (Z.shiftl (Z.land x 0x0000000000ff0000) 24))
    (Z.shiftl (Z.land x 0x00000000ff000000) 8))
    (Z.shiftr (Z.land x 0x000000ff00000000) 8))
    (Z.shiftr (Z.land x 0x0000ff0000000000) 24))
    (Z.shiftr (Z.land x 0x00ff000000000000) 40))
    (Z.shiftr (Z.land x 0xff00000000000000) 56)).

(** The word the search looks at. *)
Definition fetch (addr1 : list Z) (addr2 : option (list Z)) (start invert : Z) : outcome Z :=
  tmp ← rd addr1 (start / BITS_PER_LONG);
  tmp ← match addr2 with
        | Some addr2 => w ← rd addr2 (start / BITS_PER_LONG); Ok (Z.land tmp w)
        | None => Ok tmp
        end;
  Ok (Z.lxor tmp invert).

(** The loop returns no word when it runs into [nbits]. *)
Fixpoint next_loop (fuel : nat) (addr1 : list Z) (addr2 : option (list Z))
    (nbits start invert tmp : Z) : outcome (option (Z * Z)) :=
  if negb (tmp =? 0) then Ok (Some (start, tmp))
  else match fuel with
  | O => Fuel
  | S fuel =>
      let start := u64 (start + BITS_PER_LONG) in
      if nbits <=? start then Ok None
      else tmp ← fetch addr1 addr2 start invert;
           next_loop fuel addr1 addr2 nbits start invert tmp
  end.

Definition _find_next_bit (fuel : nat) (addr1 : list Z) (addr2 : option (list Z))
    (nbits start invert : Z) (le : bool) : outcome Z :=
  if nbits <=? start then Ok nbits
  else
    tmp ← fetch addr1 addr2 start invert;
    let mask := BITMAP_FIRST_WORD_MASK start in
    let mask := if le then swab mask else mask in
    let tmp := Z.land tmp mask in
    let start := Z.land start (u64 (Z.lnot (BITS_PER_LONG - 1))) in
    r ← next_loop fuel addr1 addr2 nbits start invert tmp;
    match r with
    | None => Ok nbits
    | Some (start, tmp) =>
        let tmp := if le then swab tmp else tmp in
        Ok (Z.min (u64 (start + __ffs tmp)) nbits)
    end.

(** Enough rounds for every word of the array. *)
Definition find_next_bit (addr : list Z) (size offset : Z) : outcome Z :=
  _find_next_bit (length addr) addr None size offset 0 false.

Definition find_next_zero_bit (addr : list Z) (size offset : Z) : outcome Z :=
  _find_next_bit (length addr) addr None size offset ULONG_MAX false.

Definition find_next_and_bit (addr1 addr2 : list Z) (size offset : Z) : outcome Z :=
  _find_next_bit (length addr1) addr1 (Some addr2) size offset 0 false.

Fixpoint first_loop (fuel : nat) (addr : list Z) (size idx : Z) : outcome Z :=
  if idx * BITS_PER_LONG <? size then
    match fuel with
    | O => Fuel
    | S fuel =>
        w ← rd addr idx;
        if negb (w =? 0) then Ok (Z.min (idx * BITS_PER_LONG + __ffs w) size)
        else first_loop fuel addr size (idx + 1)
    end
  else Ok size.

Definition find_first_bit (addr : list Z) (size : Z) : outcome Z :=
  first_loop (length addr) addr size 0.

Fixpoint first_zero_loop (fuel : nat) (addr : list Z) (size idx : Z) : outcome Z :=
  if idx * BITS_PER_LONG <? size then
    match fuel with
    | O => Fuel
    | S fuel =>
        w ← rd addr idx;
        if negb (w =? ULONG_MAX) then Ok (Z.min (idx * BITS_PER_LONG + ffz w) size)
        else first_zero_loop fuel addr size (idx + 1)
    end
  else Ok size.

Definition find_first_zero_bit (addr : list Z) (size : Z) : outcome Z :=
  first_zero_loop (length addr) addr size 0.

(** The words [n], ..., 0, the first one under the mask [val]. *)
Fixpoint last_loop (n : nat) (addr : list Z) (val size : Z) : outcome Z :=
  w ← rd addr (Z.of_nat n);
  let val := Z.land val w in
  if negb (val =? 0) then Ok (Z.of_nat n * BITS_PER_LONG + __fls val)
  else match n with
  | O => Ok size
  | S n => last_loop n addr ULONG_MAX size
  end.

Definition find_last_bit (addr : list Z) (size : Z) : outcome Z :=
  if negb (size =? 0) then
    last_loop (Z.to_nat ((size - 1) / BITS_PER_LONG)) addr (BITMAP_LAST_WORD_MASK size) size
  else Ok size.

Definition bitmap_get_value8 (map : list Z) (start : Z) : outcome Z :=
  w ← rd map (BIT_WORD start); Ok (Z.land (Z.shiftr w (start mod BITS_PER_LONG)) 0xff).

(** The offset, and the clump when there is one. *)
Definition find_next_clump8 (addr : list Z) (size offset : Z) : outcome (Z * option Z) :=
  offset ← find_next_bit addr size offset;
  if offset =? size then Ok (size, None)
  else
    let offset := Z.land offset (u64 (Z.lnot 7)) in
    clump ← bitmap_get_value8 addr offset;
    Ok (offset, Some clump).

(** ** Population counts, without [CONFIG_ARCH_HAS_FAST_MULTIPLIER] *)

Definition __sw_hweight32 (w : Z) : Z :=
  let res := u32 (w - Z.land (Z.shiftr w 1) 0x55555555) in
  let res := u32 (Z.land res 0x33333333 + Z.land (Z.shiftr res 2) 0x33333333) in
  let res := Z.land (u32 (res + Z.shiftr res 4)) 0x0F0F0F0F in
  let res := u32 (res + Z.shiftr res 8) in
  Z.land (u32 (res + Z.shiftr res 16)) 0x000000FF.

Definition __sw_hweight16 (w : Z) : Z :=
  let res := u32 (w - Z.land (Z.shiftr w 1) 0x5555) in
  let res := u32 (Z.land res 0x3333 + Z.land (Z.shiftr res 2) 0x3333) in
  let res := Z.land (u32 (res + Z.shiftr res 4)) 0x0F0F in
  Z.land (u32 (res + Z.shiftr res 8)) 0x00FF.

Definition __sw_hweight8 (w : Z) : Z :=
  let res := u32 (w - Z.land (Z.shiftr w 1) 0x55) in
  let res := u32 (Z.land res 0x33 + Z.land (Z.shiftr res 2) 0x33) in
  Z.land (u32 (res + Z.shiftr res 4)) 0x0F.

Definition __sw_hweight64 (w : Z) : Z :=
  let res := u64 (w - Z.land (Z.shiftr w 1) 0x5555555555555555) in
  let res := u64 (Z.land res 0x3333333333333333 + Z.land (Z.shiftr res 2) 0x3333333333333333) in
  let res := Z.land (u64 (res + Z.shiftr res 4)) 0x0F0F0F0F0F0F0F0F in
  let res := u64 (res + Z.shiftr res 8) in
  let res := u64 (res + Z.shiftr res 16) in
  Z.land (u64 (res + Z.shiftr res 32)) 0x00000000000000FF.

(** ** Ranges of bits *)

(** The first [lim] words. *)
Fixpoint weight_loop (lim : nat) (bitmap : list Z) (k w : Z) : outcome Z :=
  match lim with
  | O => Ok w
  | S lim => x ← rd bitmap k; weight_loop lim bitmap (k + 1) (s32 (w + __sw_hweight64 x))
  end.

Definition __bitmap_weight (bitmap : list Z) (bits : Z) : outcome Z :=
  let lim := bits / BITS_PER_LONG in
  w ← weight_loop (Z.to_nat lim) bitmap 0 0;
  if negb (bits mod BITS_PER_LONG =? 0) then
    x ← rd bitmap lim;
    Ok (s32 (w + __sw_hweight64 (Z.land x (BITMAP_LAST_WORD_MASK bits))))
  else Ok w.

(** [upd] is the update of one word under a mask. *)
Fixpoint range_loop (upd : Z → Z → Z) (fuel : nat) (map : list Z) (p size len bits mask : Z) :
    outcome (list Z) :=
  if 0 <=? len - bits then
    match fuel with
    | O => Fuel
    | S fuel =>
        w ← rd map p;
        map ← wr map p (upd w mask);
        range_loop upd fuel map (p + 1) size (len - bits) BITS_PER_LONG ULONG_MAX
    end
  else if negb (len =? 0) then
    w ← rd map p;
    wr map p (upd w (Z.land mask (BITMAP_LAST_WORD_MASK size)))
  else Ok map.

Definition __bitmap_set (map : list Z) (start len : Z) : outcome (list Z) :=
  range_loop Z.lor (length map) map (BIT_WORD start) (u32 (start + len)) len
    (BITS_PER_LONG - start mod BITS_PER_LONG) (BITMAP_FIRST_WORD_MASK start).

Definition __bitmap_clear (map : list Z) (start len : Z) : outcome (list Z) :=
  range_loop (λ w mask, Z.land w (u64 (Z.lnot mask))) (length map) map (BIT_WORD start)
    (u32 (start + len)) len
    (BITS_PER_LONG - start mod BITS_PER_LONG) (BITMAP_FIRST_WORD_MASK start).

(** ** Areas *)

Definition __ALIGN_MASK (x mask : Z) : Z := Z.land (u64 (x + mask)) (u64 (Z.lnot mask)).

Fixpoint bitmap_find_next_zero_area_off (fuel : nat) (map : list Z)
    (size start nr align_mask align_offset : Z) : outcome Z :=
  match fuel with
  | O => Fuel
  | S fuel =>
      index ← find_next_zero_bit map size start;
      let index := u64 (__ALIGN_MASK (u64 (index + align_offset)) align_mask - align_offset) in
      let end_ := u64 (index + nr) in
      if size <? end_ then Ok end_
      else
        i ← find_next_bit map end_ index;
        if i <? end_
        then bitmap_find_next_zero_area_off fuel map size (u64 (i + 1)) nr align_mask align_offset
        else Ok index
  end.

End Bitmap.
