(* ===== verification/BitmapSpec.v ===== *)
(** * Correctness of the bitmap operations

    A bitmap is read as the predicate [bit]; the searches return the next
    position where a predicate on bits holds, the range operations change
    exactly the bits of their range, and no access leaves the array. *)

From stdpp Require Import base numbers list option.
From Stdlib Require Import ZArith Lia.
From S2P Require Import Prelude Bitops Bitmap.
Import Bitmap.

Open Scope Z_scope.

(** Bit [i] of the map. *)
Definition bit (map : list Z) (i : Z) : bool :=
  match map !! Z.to_nat (i / 64) with Some w => Z.testbit w (i mod 64) | None => false end.

Definition words_ok (map : list Z) : Prop := Forall (λ w, 0 ≤ w < 2 ^ 64) map.

Definition capacity (map : list Z) : Z := 64 * Z.of_nat (length map).

(** [r] is the first position from [start] on that satisfies [P], or [nbits]
    when there is none below it. *)
Definition is_next (P : Z → bool) (start nbits r : Z) : Prop :=
  (start ≤ r < nbits ∧ P r = true ∧ ∀ j, start ≤ j < r → P j = false) ∨
  (r = nbits ∧ ∀ j, start ≤ j < nbits → P j = false).

(** ** Words *)

Lemma testbit_u64 x i : 0 ≤ i → Z.testbit (u64 x) i = (i <? 64) && Z.testbit x i.
Proof.
  intros Hi. unfold u64. destruct (Z.ltb_spec i 64).
  - by rewrite Z.mod_pow2_bits_low by lia.
  - by rewrite Z.mod_pow2_bits_high by lia.
Qed.

Lemma testbit_high w i : 0 ≤ w < 2 ^ 64 → 64 ≤ i → Z.testbit w i = false.
Proof.
  intros Hw Hi. rewrite <- (Z.mod_small w (2 ^ 64)) by done. apply Z.mod_pow2_bits_high. lia.
Qed.

Lemma testbit_ULONG_MAX i : 0 ≤ i → Z.testbit ULONG_MAX i = (i <? 64).
Proof. intros Hi. change ULONG_MAX with (Z.ones 64). rewrite Z.testbit_ones_nonneg by lia. done. Qed.

Lemma land_63 x : Z.land x (BITS_PER_LONG - 1) = x mod 64.
Proof. apply (land_ones_mod x 6). lia. Qed.

Lemma first_word_mask_spec start i :
  0 ≤ i → Z.testbit (BITMAP_FIRST_WORD_MASK start) i = (start mod 64 <=? i) && (i <? 64).
Proof.
  intros Hi. unfold BITMAP_FIRST_WORD_MASK. rewrite testbit_u64, land_63 by done.
  pose proof (Z.mod_pos_bound start 64 ltac:(lia)).
  rewrite Z.shiftl_spec by done. destruct (Z.leb_spec (start mod 64) i).
  - rewrite testbit_ULONG_MAX by lia. destruct (Z.ltb_spec i 64), (Z.ltb_spec (i - start mod 64) 64); (done || lia).
  - rewrite Z.testbit_neg_r by lia. by rewrite andb_false_r.
Qed.

Lemma last_word_mask_spec n i :
  0 ≤ i → Z.testbit (BITMAP_LAST_WORD_MASK n) i = (i <=? (n - 1) mod 64).
Proof.
  intros Hi. unfold BITMAP_LAST_WORD_MASK. rewrite land_63.
  pose proof (Z.mod_pos_bound (- n) 64 ltac:(lia)). pose proof (Z.mod_pos_bound (n - 1) 64 ltac:(lia)).
  rewrite Z.shiftr_spec, testbit_ULONG_MAX by lia.
  assert ((n - 1) mod 64 = 63 - (- n) mod 64) as ->.
  { pose proof (Z.div_mod (- n) 64 ltac:(lia)). symmetry.
    apply (Zmod_unique _ _ (- ((- n) / 64) - 1)); lia. }
  destruct (Z.ltb_spec (i + - n mod 64) 64), (Z.leb_spec i (63 - - n mod 64)); (done || lia).
Qed.

Lemma masks_range n :
  0 ≤ BITMAP_FIRST_WORD_MASK n < 2 ^ 64 ∧ 0 ≤ BITMAP_LAST_WORD_MASK n < 2 ^ 64.
Proof.
  split; [apply u64_range|]. unfold BITMAP_LAST_WORD_MASK. rewrite land_63.
  pose proof (Z.mod_pos_bound (- n) 64 ltac:(lia)). rewrite shiftr_div by lia.
  assert (0 < 2 ^ (- n mod 64)) by (apply Z.pow_pos_nonneg; lia). unfold ULONG_MAX.
  split; [apply Z.div_pos; lia|]. apply Z.div_lt_upper_bound; nia.
Qed.

Lemma word_start x : 0 ≤ x < 2 ^ 64 → Z.land x (u64 (Z.lnot (BITS_PER_LONG - 1))) = 64 * (x / 64).
Proof.
  intros Hx. change (u64 (Z.lnot (BITS_PER_LONG - 1))) with ((2 ^ 58 - 1) * 2 ^ 6 + 0).
  pose proof (Z.div_mod x 64 ltac:(lia)) as Hd. pose proof (Z.mod_pos_bound x 64 ltac:(lia)).
  rewrite Hd at 1. replace (64 * (x / 64) + x mod 64) with (x / 64 * 2 ^ 6 + x mod 64) by lia.
  rewrite land_split by lia. rewrite Z.land_0_r, land_ones_mod by lia. rewrite Z.mod_small; lia.
Qed.

Lemma rd_ok map i : 0 ≤ i → 64 * i < capacity map → ∃ w, rd map i = Ok w ∧ map !! Z.to_nat i = Some w.
Proof.
  intros Hi Hc. unfold capacity in Hc.
  destruct (lookup_lt_is_Some_2 map (Z.to_nat i)) as [w Hw]; [lia|]. exists w. unfold rd. by rewrite Hw.
Qed.

Lemma words_lookup map i w : words_ok map → map !! i = Some w → 0 ≤ w < 2 ^ 64.
Proof. intros Hm Hw. exact (Forall_lookup_1 _ _ _ _ Hm Hw). Qed.

Lemma split_index k t : 0 ≤ t < 64 → (64 * k + t) / 64 = k ∧ (64 * k + t) mod 64 = t.
Proof.
  intros Ht. rewrite (Z.mul_comm 64). split.
  - rewrite Z.div_add_l, Z.div_small by lia. lia.
  - by rewrite Z.add_comm, Z.mod_add, Z.mod_small by lia.
Qed.

Lemma bit_word map k t w :
  0 ≤ t < 64 → map !! Z.to_nat k = Some w → bit map (64 * k + t) = Z.testbit w t.
Proof. intros Ht Hw. unfold bit. destruct (split_index k t Ht) as [-> ->]. by rewrite Hw. Qed.

(** ** The common search *)

Section Search.
Context (addr1 : list Z) (addr2 : option (list Z)) (nbits invert : Z) (P : Z → bool).

(** The words the search sees, and the bits [P] of them. *)
Hypothesis fetched : ∀ k, 0 ≤ k → 64 * k < nbits →
  ∃ w, fetch addr1 addr2 (64 * k) invert = Ok w ∧ 0 ≤ w < 2 ^ 64 ∧
       ∀ t, 0 ≤ t < 64 → Z.testbit w t = P (64 * k + t).
Hypothesis nbits_range : 0 ≤ nbits < 2 ^ 63.

(** The word [tmp] of index [k], without the bits below [lo]. *)
Definition from_lo (lo k tmp : Z) : Prop :=
  0 ≤ tmp < 2 ^ 64 ∧ (∀ t, 0 ≤ t < 64 → Z.testbit tmp t = P (64 * k + t) && (lo <=? 64 * k + t)) ∧
  ∀ j, lo ≤ j < 64 * k → P j = false.

Lemma next_loop_spec lo : ∀ fuel k tmp,
  0 ≤ k → 64 * k < nbits → nbits ≤ 64 * (k + Z.of_nat fuel) → from_lo lo k tmp →
  lo ≤ 64 * (k + 1) →
  ∃ r, next_loop fuel addr1 addr2 nbits (64 * k) invert tmp = Ok r ∧
    match r with
    | None => ∀ j, lo ≤ j < nbits → P j = false
    | Some (s, tmp) => ∃ k', s = 64 * k' ∧ 0 ≤ k' ∧ s < nbits ∧ tmp ≠ 0 ∧ from_lo lo k' tmp
    end.
Proof.
  induction fuel as [|fuel IH]; intros k tmp Hk Hkn Hf Hlo Hnext; [lia|]. cbn [next_loop].
  destruct (Z.eqb_spec tmp 0) as [->|Ht]; cbn [negb].
  2:{ eexists. split; [done|]. exists k. done. }
  assert (∀ j, lo ≤ j < 64 * (k + 1) → P j = false) as Hno.
  { intros j Hj. destruct Hlo as (_ & Hb & Hlow). destruct (decide (j < 64 * k)); [apply Hlow; lia|].
    specialize (Hb (j - 64 * k) ltac:(lia)). replace (64 * k + (j - 64 * k)) with j in Hb by lia.
    rewrite Z.testbit_0_l, (proj2 (Z.leb_le lo j)), andb_true_r in Hb by lia. done. }
  assert (u64 (64 * k + BITS_PER_LONG) = 64 * (k + 1)) as ->.
  { unfold u64, BITS_PER_LONG. rewrite Z.mod_small; lia. }
  destruct (Z.leb_spec nbits (64 * (k + 1))) as [Hn|Hn].
  { exists None. split; [done|]. intros j Hj. apply Hno. lia. }
  destruct (fetched (k + 1)) as (w & -> & Hw & Hwb); [lia..|]. cbn [mbind outcome_bind].
  apply IH; [lia..| |lia]. split; [done|]. split; [|done].
  intros t Ht. rewrite Hwb, (proj2 (Z.leb_le lo _)) by lia. by rewrite andb_true_r.
Qed.

Lemma find_next_spec fuel start :
  0 ≤ start → nbits ≤ 64 * (start / 64 + Z.of_nat fuel) →
  (start < nbits → fetch addr1 addr2 start invert = fetch addr1 addr2 (64 * (start / 64)) invert) →
  ∃ r, _find_next_bit fuel addr1 addr2 nbits start invert false = Ok r ∧ is_next P start nbits r.
Proof.
  intros Hs Hf Hfetch. unfold _find_next_bit. destruct (Z.leb_spec nbits start) as [Hn|Hn].
  { exists nbits. split; [done|]. right. split; [done|]. intros j Hj. lia. }
  pose proof (Z.div_mod start 64 ltac:(lia)) as Hd. pose proof (Z.mod_pos_bound start 64 ltac:(lia)) as Hm.
  assert (0 ≤ start / 64) by (apply Z.div_pos; lia).
  rewrite Hfetch by done. destruct (fetched (start / 64)) as (w & -> & Hw & Hwb); [lia..|].
  cbn [mbind outcome_bind]. rewrite word_start by lia.
  destruct (next_loop_spec start fuel (start / 64) (Z.land w (BITMAP_FIRST_WORD_MASK start)))
    as (r & -> & Hr); [lia..| |lia|].
  { split; [apply land_range; lia|]. split; [|intros j Hj; lia]. intros t Ht.
    rewrite Z.land_spec, Hwb, first_word_mask_spec by lia. f_equal.
    destruct (Z.leb_spec (start mod 64) t), (Z.ltb_spec t 64), (Z.leb_spec start (64 * (start / 64) + t)); (done || lia). }
  cbn [mbind outcome_bind]. destruct r as [[s tmp]|].
  2:{ exists nbits. split; [done|]. by right. }
  destruct Hr as (k & -> & Hk & Hkn & Ht0 & Htr & Htb & Hlow).
  destruct (__ffs_testbit tmp ltac:(lia)) as (Hset & Hbelow & Hrange).
  set (f := __ffs tmp) in *. assert (u64 (64 * k + f) = 64 * k + f) as ->.
  { unfold u64. rewrite Z.mod_small; lia. }
  eexists. split; [done|]. pose proof (Htb f Hrange) as Hf1. rewrite Hset in Hf1. symmetry in Hf1.
  apply andb_true_iff in Hf1 as [HP Hge%Z.leb_le].
  assert (∀ j, start ≤ j < 64 * k + f → P j = false) as Hno.
  { intros j Hj. destruct (decide (j < 64 * k)); [apply Hlow; lia|].
    pose proof (Htb (j - 64 * k) ltac:(lia)) as Hj1. rewrite Hbelow in Hj1 by lia.
    replace (64 * k + (j - 64 * k)) with j in Hj1 by lia.
    rewrite (proj2 (Z.leb_le start j)), andb_true_r in Hj1 by lia. done. }
  destruct (decide (64 * k + f < nbits)).
  - left. rewrite Z.min_l by lia. split_and!; [lia|lia|done|done].
  - right. rewrite Z.min_r by lia. split; [done|]. intros j Hj. apply Hno. lia.
Qed.

End Search.

(** ** The searches *)

Lemma fetch_word addr1 addr2 k invert w :
  0 ≤ k → addr1 !! Z.to_nat k = Some w →
  fetch addr1 addr2 (64 * k) invert =
  match addr2 with
  | None => Ok (Z.lxor w invert)
  | Some addr2 => x ← rd addr2 k; Ok (Z.lxor (Z.land w x) invert)
  end.
Proof.
  intros Hk Hw. unfold fetch, BITS_PER_LONG. rewrite (Z.mul_comm 64), Z.div_mul by lia.
  assert (rd addr1 k = Ok w) as -> by (unfold rd; by rewrite Hw). destruct addr2 as [a2|]; [|done]. cbn [mbind outcome_bind].
  by destruct (rd a2 k).
Qed.

Lemma fetch_aligned addr1 addr2 start invert :
  fetch addr1 addr2 start invert = fetch addr1 addr2 (64 * (start / 64)) invert.
Proof. unfold fetch, BITS_PER_LONG. by rewrite (Z.mul_comm 64), Z.div_mul by lia. Qed.

Definition bitmap_ok (map : list Z) (nbits : Z) : Prop :=
  words_ok map ∧ 0 ≤ nbits < 2 ^ 63 ∧ nbits ≤ capacity map.

Lemma next_fuel map nbits start :
  bitmap_ok map nbits → 0 ≤ start → nbits ≤ 64 * (start / 64 + Z.of_nat (length map)).
Proof.
  intros (_ & _ & Hc) Hs. unfold capacity in Hc.
  assert (0 ≤ start / 64) by (apply Z.div_pos; lia). lia.
Qed.

Lemma find_next_bit_spec map nbits start :
  bitmap_ok map nbits → 0 ≤ start →
  ∃ r, find_next_bit map nbits start = Ok r ∧ is_next (bit map) start nbits r.
Proof.
  intros Hok Hs. pose proof Hok as (Hm & Hn & Hc).
  apply find_next_spec; [|done|done|by apply next_fuel|by rewrite fetch_aligned].
  intros k Hk Hkn. destruct (rd_ok map k Hk) as (w & _ & Hw); [lia|]. exists w.
  rewrite (fetch_word map None k 0 w) by done. rewrite Z.lxor_0_r.
  split; [done|]. split; [by eapply words_lookup|]. intros t Ht. by rewrite (bit_word map k t w).
Qed.

Lemma testbit_not w i : 0 ≤ i < 64 → Z.testbit (u64 (Z.lnot w)) i = negb (Z.testbit w i).
Proof. intros Hi. rewrite testbit_u64, Z.lnot_spec, (proj2 (Z.ltb_lt i 64)) by lia. done. Qed.

Lemma lxor_ULONG_MAX w : 0 ≤ w < 2 ^ 64 → Z.lxor w ULONG_MAX = u64 (Z.lnot w).
Proof.
  intros Hw. apply Z.bits_inj'. intros i Hi. rewrite Z.lxor_spec, testbit_ULONG_MAX, testbit_u64, Z.lnot_spec by done.
  destruct (Z.ltb_spec i 64); [apply xorb_true_r|]. by rewrite testbit_high.
Qed.

Lemma find_next_zero_bit_spec map nbits start :
  bitmap_ok map nbits → 0 ≤ start →
  ∃ r, find_next_zero_bit map nbits start = Ok r ∧ is_next (λ i, negb (bit map i)) start nbits r.
Proof.
  intros Hok Hs. pose proof Hok as (Hm & Hn & Hc).
  apply find_next_spec; [|done|done|by apply next_fuel|by rewrite fetch_aligned].
  intros k Hk Hkn. destruct (rd_ok map k Hk) as (w & _ & Hw); [lia|].
  exists (u64 (Z.lnot w)). rewrite (fetch_word map None k _ w) by done.
  rewrite lxor_ULONG_MAX by (by eapply words_lookup). split; [done|]. split.
  - apply u64_range.
  - intros t Ht. by rewrite (bit_word map k t w), testbit_not.
Qed.

Lemma find_next_and_bit_spec map1 map2 nbits start :
  bitmap_ok map1 nbits → bitmap_ok map2 nbits → 0 ≤ start →
  ∃ r, find_next_and_bit map1 map2 nbits start = Ok r ∧
       is_next (λ i, bit map1 i && bit map2 i) start nbits r.
Proof.
  intros Hok (Hm2 & _ & Hc2) Hs. pose proof Hok as (Hm & Hn & Hc).
  apply find_next_spec; [|done|done|by apply next_fuel|by rewrite fetch_aligned].
  intros k Hk Hkn. destruct (rd_ok map1 k Hk) as (w & _ & Hw); [lia|].
  destruct (rd_ok map2 k Hk) as (x & Hx & Hx2); [lia|]. exists (Z.land w x).
  rewrite (fetch_word map1 (Some map2) k 0 w), Hx by done. cbn [mbind outcome_bind]. rewrite Z.lxor_0_r.
  split; [done|]. split; [apply land_range; [lia|by eapply words_lookup]|].
  intros t Ht. by rewrite (bit_word map1 k t w), (bit_word map2 k t x), Z.land_spec.
Qed.

(** A search that starts at a word boundary after [k] words without [P]. *)
Lemma is_next_word (P : Z → bool) k t nbits :
  0 ≤ k → 0 ≤ t < 64 → 64 * k < nbits → P (64 * k + t) = true →
  (∀ j, 0 ≤ j < 64 * k + t → P j = false) → is_next P 0 nbits (Z.min (k * BITS_PER_LONG + t) nbits).
Proof.
  intros Hk0 Ht Hk HP Hno. unfold BITS_PER_LONG.
  replace (k * 64 + t) with (64 * k + t) by lia. destruct (decide (64 * k + t < nbits)).
  - left. rewrite Z.min_l by lia. split_and!; [lia|lia|done|done].
  - right. rewrite Z.min_r by lia. split; [done|]. intros j Hj. apply Hno. lia.
Qed.

Lemma no_bits_step (P : Z → bool) k :
  (∀ j, 0 ≤ j < 64 * k → P j = false) → (∀ t, 0 ≤ t < 64 → P (64 * k + t) = false) →
  ∀ j, 0 ≤ j < 64 * (k + 1) → P j = false.
Proof.
  intros Hlow Hw j Hj. destruct (decide (j < 64 * k)); [apply Hlow; lia|].
  replace j with (64 * k + (j - 64 * k)) by lia. apply Hw. lia.
Qed.

Lemma first_loop_spec map nbits : bitmap_ok map nbits → ∀ fuel k,
  0 ≤ k → nbits ≤ 64 * (k + Z.of_nat fuel) → (∀ j, 0 ≤ j < 64 * k → bit map j = false) →
  ∃ r, first_loop fuel map nbits k = Ok r ∧ is_next (bit map) 0 nbits r.
Proof.
  intros (Hm & Hn & Hc). induction fuel as [|fuel IH]; intros k Hk Hf Hlow; cbn [first_loop];
    destruct (Z.ltb_spec (k * BITS_PER_LONG) nbits) as [Hkn|Hkn]; unfold BITS_PER_LONG in Hkn; try lia;
    try (exists nbits; split; [done|]; right; split; [done|]; intros j Hj; apply Hlow; lia).
  destruct (rd_ok map k Hk) as (w & -> & Hw); [lia|]. cbn [mbind outcome_bind].
  pose proof (words_lookup _ _ _ Hm Hw) as Hwr. destruct (Z.eqb_spec w 0) as [->|Hw0]; cbn [negb].
  - apply IH; [lia..|]. apply no_bits_step; [done|]. intros t Ht.
    rewrite (bit_word map k t 0) by done. apply Z.testbit_0_l.
  - destruct (__ffs_testbit w ltac:(lia)) as (Hset & Hbelow & Hr). eexists. split; [done|].
    apply is_next_word; [done|done|lia| |].
    + by rewrite (bit_word map k _ w).
    + intros j Hj. destruct (decide (j < 64 * k)); [apply Hlow; lia|].
      replace j with (64 * k + (j - 64 * k)) by lia. rewrite (bit_word map k _ w) by (done || lia).
      apply Hbelow. lia.
Qed.

Lemma ULONG_MAX_ones w : 0 ≤ w < 2 ^ 64 → w = ULONG_MAX ↔ u64 (Z.lnot w) = 0.
Proof.
  intros Hw. unfold u64, ULONG_MAX. replace (Z.lnot w) with (2 ^ 64 - 1 - w + -1 * 2 ^ 64) by (unfold Z.lnot; lia).
  rewrite Z.mod_add, Z.mod_small by lia. lia.
Qed.

Lemma first_zero_loop_spec map nbits : bitmap_ok map nbits → ∀ fuel k,
  0 ≤ k → nbits ≤ 64 * (k + Z.of_nat fuel) → (∀ j, 0 ≤ j < 64 * k → negb (bit map j) = false) →
  ∃ r, first_zero_loop fuel map nbits k = Ok r ∧ is_next (λ i, negb (bit map i)) 0 nbits r.
Proof.
  intros (Hm & Hn & Hc). induction fuel as [|fuel IH]; intros k Hk Hf Hlow; cbn [first_zero_loop];
    destruct (Z.ltb_spec (k * BITS_PER_LONG) nbits) as [Hkn|Hkn]; unfold BITS_PER_LONG in Hkn; try lia;
    try (exists nbits; split; [done|]; right; split; [done|]; intros j Hj; apply Hlow; lia).
  destruct (rd_ok map k Hk) as (w & -> & Hw); [lia|]. cbn [mbind outcome_bind].
  pose proof (words_lookup _ _ _ Hm Hw) as Hwr. pose proof (ULONG_MAX_ones w Hwr) as HU.
  pose proof (u64_range (Z.lnot w)) as Hnr. destruct (Z.eqb_spec w ULONG_MAX) as [E|Hw0]; cbn [negb].
  - apply IH; [lia..|]. apply no_bits_step; [done|]. intros t Ht.
    rewrite (bit_word map k t w) by done. apply HU in E. rewrite <- testbit_not, E by done. apply Z.testbit_0_l.
  - destruct (__ffs_testbit (u64 (Z.lnot w)) ltac:(lia)) as (Hset & Hbelow & Hr). eexists. split; [done|].
    apply (is_next_word (λ i, negb (bit map i))); [done|done|lia| |].
    + by rewrite (bit_word map k _ w), <- testbit_not.
    + intros j Hj. destruct (decide (j < 64 * k)); [apply Hlow; lia|]. unfold ffz in *.
      replace j with (64 * k + (j - 64 * k)) by lia. rewrite (bit_word map k _ w) by (done || lia).
      rewrite <- testbit_not by lia. apply Hbelow. lia.
Qed.

(** [r] is the last set bit below [nbits], or [nbits] when there is none. *)
Definition is_last (P : Z → bool) (nbits r : Z) : Prop :=
  (0 ≤ r < nbits ∧ P r = true ∧ ∀ j, r < j < nbits → P j = false) ∨
  (r = nbits ∧ ∀ j, 0 ≤ j < nbits → P j = false).

Lemma last_word map n val w nbits :
  64 * n < nbits → 0 ≤ n → map !! Z.to_nat n = Some w → 0 ≤ val < 2 ^ 64 →
  (∀ t, 0 ≤ t < 64 → Z.testbit val t = (64 * n + t <? nbits)) →
  (∀ j, 64 * (n + 1) ≤ j < nbits → bit map j = false) →
  if Z.land val w =? 0 then ∀ j, 64 * n ≤ j < nbits → bit map j = false
  else is_last (bit map) nbits (n * BITS_PER_LONG + __fls (Z.land val w)).
Proof.
  intros Hn Hn0 Hw Hvr Hval Hhigh. pose proof (land_range 64 val w ltac:(lia) Hvr) as Hlr.
  assert (∀ t, 0 ≤ t < 64 → 64 * n + t < nbits → bit map (64 * n + t) = Z.testbit (Z.land val w) t) as Hb.
  { intros t Ht Htn. rewrite (bit_word map n t w), Z.land_spec, Hval, (proj2 (Z.ltb_lt _ nbits)) by done. done. }
  assert (∀ j, 64 * n ≤ j < nbits → j < 64 * (n + 1) → bit map j = Z.testbit (Z.land val w) (j - 64 * n)) as Hb'.
  { intros j ??. rewrite <- Hb by lia. f_equal. lia. }
  destruct (Z.eqb_spec (Z.land val w) 0) as [E|E].
  - intros j Hj. destruct (decide (j < 64 * (n + 1))); [|apply Hhigh; lia].
    rewrite Hb', E by lia. apply Z.testbit_0_l.
  - rewrite __fls_log2 by lia. set (v := Z.land val w) in *.
    assert (0 ≤ Z.log2 v < 64) by (split; [apply Z.log2_nonneg|apply Z.log2_lt_pow2; lia]).
    assert (Z.testbit v (Z.log2 v) = true) as Hset by (apply Z.bit_log2; lia).
    assert (64 * n + Z.log2 v < nbits) as Hin.
    { unfold v in Hset at 1. rewrite Z.land_spec in Hset. apply andb_true_iff in Hset as [Hset _].
      rewrite Hval in Hset by lia. by apply Z.ltb_lt in Hset. }
    left. unfold BITS_PER_LONG. split_and!; [lia|lia| |].
    + replace (n * 64 + Z.log2 v) with (64 * n + Z.log2 v) by lia. by rewrite Hb by lia.
    + intros j Hj. destruct (decide (j < 64 * (n + 1))); [|apply Hhigh; lia].
      rewrite Hb' by lia. apply Z.bits_above_log2; lia.
Qed.

Lemma last_loop_spec map nbits : words_ok map → ∀ n val,
  64 * Z.of_nat n < capacity map → 64 * Z.of_nat n < nbits → 0 ≤ val < 2 ^ 64 →
  (∀ t, 0 ≤ t < 64 → Z.testbit val t = (64 * Z.of_nat n + t <? nbits)) →
  (∀ j, 64 * (Z.of_nat n + 1) ≤ j < nbits → bit map j = false) →
  ∃ r, last_loop n map val nbits = Ok r ∧ is_last (bit map) nbits r.
Proof.
  intros Hm n. induction n as [n IH] using lt_wf_ind. intros val Hc Hnb Hvr Hval Hhigh.
  destruct (rd_ok map (Z.of_nat n) ltac:(lia) Hc) as (w & Hrd & Hw).
  pose proof (last_word map (Z.of_nat n) val w nbits Hnb ltac:(lia) Hw Hvr Hval Hhigh) as Hword.
  destruct n as [|n]; cbn [last_loop]; rewrite Hrd; cbn [mbind outcome_bind];
    destruct (Z.land val w =? 0); cbn [negb]; eauto.
  - exists nbits. split; [done|]. right. split; [done|]. intros j Hj. apply Hword. lia.
  - apply IH; [lia|lia|lia|unfold ULONG_MAX; lia| |].
    + intros t Ht. rewrite testbit_ULONG_MAX by lia.
      destruct (Z.ltb_spec t 64), (Z.ltb_spec (64 * Z.of_nat n + t) nbits); (done || lia).
    + intros j Hj. apply Hword. lia.
Qed.

Lemma find_last_bit_spec map nbits :
  bitmap_ok map nbits → ∃ r, find_last_bit map nbits = Ok r ∧ is_last (bit map) nbits r.
Proof.
  intros (Hm & Hn & Hc). unfold find_last_bit. destruct (Z.eqb_spec nbits 0) as [->|H0]; cbn [negb].
  { exists 0. split; [done|]. right. split; [done|]. intros j Hj. lia. }
  unfold BITS_PER_LONG. pose proof (Z.div_mod (nbits - 1) 64 ltac:(lia)).
  pose proof (Z.mod_pos_bound (nbits - 1) 64 ltac:(lia)). assert (0 ≤ (nbits - 1) / 64) by (apply Z.div_pos; lia).
  apply last_loop_spec; [done|lia|lia|apply masks_range| |intros j Hj; lia].
  intros t Ht. rewrite last_word_mask_spec, Z2Nat.id by lia.
  destruct (Z.leb_spec t ((nbits - 1) mod 64)), (Z.ltb_spec (64 * ((nbits - 1) / 64) + t) nbits); (done || lia).
Qed.

(** The searches of find_bit.c. On a bitmap whose words hold [nbits] bits
    every search stays inside the array, terminates, and returns the first
    position at or after [start] whose bit is set, is clear, or is set in both
    maps; the first set and the first clear bit; the last set bit. When there
    is no such position below [nbits] it returns [nbits]. *)
Theorem find_bit_correct (map map2 : list Z) (nbits start : Z) :
  bitmap_ok map nbits → bitmap_ok map2 nbits → 0 ≤ start →
  (∃ r, find_next_bit map nbits start = Ok r ∧ is_next (bit map) start nbits r) ∧
  (∃ r, find_next_zero_bit map nbits start = Ok r ∧ is_next (λ i, negb (bit map i)) start nbits r) ∧
  (∃ r, find_next_and_bit map map2 nbits start = Ok r ∧
        is_next (λ i, bit map i && bit map2 i) start nbits r) ∧
  (∃ r, find_first_bit map nbits = Ok r ∧ is_next (bit map) 0 nbits r) ∧
  (∃ r, find_first_zero_bit map nbits = Ok r ∧ is_next (λ i, negb (bit map i)) 0 nbits r) ∧
  (∃ r, find_last_bit map nbits = Ok r ∧ is_last (bit map) nbits r).
Proof.
  intros H1 H2 Hs. pose proof H1 as (_ & _ & Hc). unfold capacity in Hc. split_and!.
  - by apply find_next_bit_spec.
  - by apply find_next_zero_bit_spec.
  - by apply find_next_and_bit_spec.
  - apply first_loop_spec; [done|done|lia|intros j Hj; lia].
  - apply first_zero_loop_spec; [done|done|lia|intros j Hj; lia].
  - by apply find_last_bit_spec.
Qed.

(** Two words, bits 3 and 70 set. *)
Lemma find_bit_correct_witness :
  find_next_bit [8; 64] 100 4 = Ok 70 ∧ find_next_zero_bit [8; 64] 100 3 = Ok 4 ∧
  find_last_bit [8; 64] 70 = Ok 3.
Proof.
  destruct (find_bit_correct [8; 64] [8; 64] 100 4) as ((r & Hr & _) & _).
  { split; [repeat constructor; lia|split; [lia|vm_compute; congruence]]. }
  { split; [repeat constructor; lia|split; [lia|vm_compute; congruence]]. }
  { lia. }
  split; [vm_compute; reflexivity|]. split; vm_compute; reflexivity.
Defined.

(** ** Ranges of bits *)

(** An index is a word and a bit in it. *)
Lemma index_split i : 0 ≤ i → ∃ k t, i = 64 * k + t ∧ 0 ≤ k ∧ 0 ≤ t < 64.
Proof.
  intros Hi. exists (i / 64), (i mod 64). pose proof (Z.mod_pos_bound i 64 ltac:(lia)).
  split_and!; [apply Z.div_mod; lia|apply Z.div_pos; lia|lia|lia].
Qed.

Lemma wr_ok map p v :
  words_ok map → 0 ≤ p → 64 * p < capacity map → 0 ≤ v < 2 ^ 64 →
  ∃ map', wr map p v = Ok map' ∧ words_ok map' ∧ length map' = length map ∧
    (∀ t, 0 ≤ t < 64 → bit map' (64 * p + t) = Z.testbit v t) ∧
    (∀ i, 0 ≤ i → i < 64 * p ∨ 64 * (p + 1) ≤ i → bit map' i = bit map i).
Proof.
  intros Hm Hp Hc Hv. unfold capacity in Hc. unfold wr. rewrite decide_True by lia.
  eexists. split; [done|]. split; [by apply Forall_insert|]. split; [apply length_insert|]. split.
  - intros t Ht. apply bit_word; [done|]. apply list_lookup_insert_eq. lia.
  - intros i Hi Hip. destruct (index_split i Hi) as (k & t & -> & Hk & Ht). unfold bit.
    destruct (split_index k t Ht) as [-> ->]. rewrite list_lookup_insert_ne by lia. done.
Qed.

Section Range.
Context (upd : Z → Z → Z) (ub : bool → bool → bool).
Hypothesis upd_range : ∀ w m, 0 ≤ w < 2 ^ 64 → 0 ≤ m < 2 ^ 64 → 0 ≤ upd w m < 2 ^ 64.
Hypothesis upd_bits : ∀ w m t, 0 ≤ t < 64 → Z.testbit (upd w m) t = ub (Z.testbit w t) (Z.testbit m t).
Hypothesis ub_false : ∀ b, ub b false = b.

(** The bits [lo, hi) changed by [ub], the others kept. *)
Definition ranged (map map' : list Z) (lo hi : Z) : Prop :=
  words_ok map' ∧ length map' = length map ∧
  ∀ i, 0 ≤ i → bit map' i = if decide (lo ≤ i < hi) then ub (bit map i) true else bit map i.

Lemma upd_word map p mask lo hi :
  words_ok map → 0 ≤ p → 64 * p < capacity map → 0 ≤ mask < 2 ^ 64 →
  64 * p ≤ lo → hi ≤ 64 * (p + 1) →
  (∀ t, 0 ≤ t < 64 → Z.testbit mask t = bool_decide (lo ≤ 64 * p + t < hi)) →
  ∃ map', (w ← rd map p; wr map p (upd w mask)) = Ok map' ∧ ranged map map' lo hi.
Proof.
  intros Hm Hp Hc Hr Hlo Hhi Hmask. destruct (rd_ok map p Hp Hc) as (w & -> & Hw).
  cbn [mbind outcome_bind]. pose proof (words_lookup _ _ _ Hm Hw) as Hwr.
  destruct (wr_ok map p (upd w mask)) as (map' & -> & Hm' & Hl & Hin & Hout); [done..|by apply upd_range|].
  exists map'. split; [done|]. split; [done|]. split; [done|]. intros i Hi.
  destruct (decide (i < 64 * p ∨ 64 * (p + 1) ≤ i)).
  - rewrite Hout by done. by rewrite decide_False by lia.
  - replace i with (64 * p + (i - 64 * p)) by lia. rewrite Hin, upd_bits, Hmask by lia.
    rewrite (bit_word map p _ w) by (done || lia). replace (64 * p + (i - 64 * p)) with i by lia.
    case_decide as Hd; [by rewrite bool_decide_true|]. by rewrite bool_decide_false, ub_false.
Qed.

Lemma ranged_trans m1 m2 m3 lo mid hi :
  lo ≤ mid ≤ hi → ranged m1 m2 lo mid → ranged m2 m3 mid hi → ranged m1 m3 lo hi.
Proof.
  intros Hb (_ & Hl & H12) (Hm & Hl' & H23). split; [done|]. split; [congruence|].
  intros i Hi. rewrite H23, H12 by done. repeat case_decide; (done || lia).
Qed.

(** The last, partial word. *)
Lemma range_tail map p size len bits mask :
  let lo := 64 * (p + 1) - bits in
  words_ok map → 0 ≤ p → 0 < bits ≤ 64 → 0 ≤ len < bits → lo + len ≤ capacity map →
  (size - 1) mod 64 = (lo + len - 1) mod 64 → 0 ≤ mask < 2 ^ 64 →
  (∀ t, 0 ≤ t < 64 → Z.testbit mask t = bool_decide (lo ≤ 64 * p + t)) →
  ∃ map', (if negb (len =? 0) then w ← rd map p; wr map p (upd w (Z.land mask (BITMAP_LAST_WORD_MASK size)))
           else Ok map) = Ok map' ∧ ranged map map' lo (lo + len).
Proof.
  intros lo Hm Hp Hb Hlen Hc Hsz Hr Hmask. destruct (Z.eqb_spec len 0) as [->|H0]; cbn [negb].
  { exists map. split; [done|]. split; [done|]. split; [done|]. intros i Hi. by rewrite decide_False by lia. }
  apply (upd_word map p _ lo (lo + len)); [done|done|unfold lo in Hc; lia|by apply land_range|unfold lo; lia..|].
  intros t Ht. rewrite Z.land_spec, Hmask, last_word_mask_spec, Hsz by lia.
  replace (lo + len - 1) with (64 * p + (63 - bits + len)) by (unfold lo; lia).
  destruct (split_index p (63 - bits + len) ltac:(lia)) as [_ ->]. unfold lo.
  repeat case_bool_decide; destruct (Z.leb_spec t (63 - bits + len)); (done || lia).
Qed.

Lemma range_loop_spec : ∀ fuel map p size len bits mask,
  let lo := 64 * (p + 1) - bits in
  words_ok map → 0 ≤ p → 0 < bits ≤ 64 → 0 ≤ len → lo + len ≤ capacity map →
  (size - 1) mod 64 = (lo + len - 1) mod 64 → 0 ≤ mask < 2 ^ 64 →
  (∀ t, 0 ≤ t < 64 → Z.testbit mask t = bool_decide (lo ≤ 64 * p + t)) →
  Z.of_nat (length map) ≤ p + Z.of_nat fuel →
  ∃ map', range_loop upd fuel map p size len bits mask = Ok map' ∧ ranged map map' lo (lo + len).
Proof.
  induction fuel as [|fuel IH]; intros map p size len bits mask lo Hm Hp Hb Hlen Hc Hsz Hr Hmask Hf;
    cbn [range_loop]; destruct (Z.leb_spec 0 (len - bits)) as [Hfull|Hpart];
    try (apply (range_tail map p size len bits mask); (done || lia)).
  { unfold capacity, lo in Hc. lia. }
  destruct (upd_word map p mask lo (64 * (p + 1))) as (m1 & E1 & H1);
    [done|done|unfold lo in Hc; lia|done|unfold lo; lia|lia| |].
  { intros t Ht. rewrite Hmask by done. repeat case_bool_decide; (done || lia). }
  destruct (rd map p) as [w| |]; cbn [mbind outcome_bind] in E1 |- *; [|done..].
  rewrite E1. cbn [mbind outcome_bind]. change BITS_PER_LONG with 64. pose proof H1 as (Hm1 & Hl1 & _).
  destruct (IH m1 (p + 1) size (len - bits) 64 ULONG_MAX) as (m2 & -> & H2).
  { done. } { lia. } { lia. } { lia. } { unfold capacity, lo in *. lia. }
  { rewrite Hsz. f_equal. unfold lo. lia. } { unfold ULONG_MAX. lia. }
  { intros t Ht. rewrite testbit_ULONG_MAX, bool_decide_true by lia. apply Z.ltb_lt. lia. } { lia. }
  exists m2. split; [done|].
  replace (64 * (p + 1 + 1) - 64) with (64 * (p + 1)) in H2 by lia.
  replace (64 * (p + 1) + (len - bits)) with (lo + len) in H2 by (unfold lo; lia).
  apply (ranged_trans map m1 m2 lo (64 * (p + 1))); [unfold lo; lia|done|done].
Qed.

Lemma range_start_spec map start len :
  words_ok map → 0 ≤ start → 0 ≤ len → start + len ≤ capacity map →
  ∃ map', range_loop upd (length map) map (BIT_WORD start) (u32 (start + len)) len
            (BITS_PER_LONG - start mod BITS_PER_LONG) (BITMAP_FIRST_WORD_MASK start) = Ok map' ∧
          ranged map map' start (start + len).
Proof.
  intros Hm Hs Hlen Hc. unfold BIT_WORD, BITS_PER_LONG.
  pose proof (Z.div_mod start 64 ltac:(lia)). pose proof (Z.mod_pos_bound start 64 ltac:(lia)).
  assert (0 ≤ start / 64) by (apply Z.div_pos; lia).
  destruct (range_loop_spec (length map) map (start / 64) (u32 (start + len)) len
              (64 - start mod 64) (BITMAP_FIRST_WORD_MASK start)) as (map' & E & H').
  { done. } { done. } { lia. } { done. } { lia. }
  { unfold u32. replace (2 ^ 32) with (64 * 2 ^ 26) by lia.
    rewrite <- (Zminus_mod_idemp_l ((start + len) mod _)), <- Znumtheory.Zmod_div_mod, Zminus_mod_idemp_l
      by (lia || exists (2 ^ 26); lia). f_equal. lia. }
  { apply masks_range. }
  { intros t Ht. rewrite first_word_mask_spec by lia. case_bool_decide;
      destruct (Z.leb_spec (start mod 64) t), (Z.ltb_spec t 64); (done || lia). }
  { lia. }
  exists map'. split; [done|].
  replace (64 * (start / 64 + 1) - (64 - start mod 64)) with start in H' by lia. done.
Qed.

End Range.

(** [__bitmap_set] sets the bits [start, start + len) and changes no
    other bit, [__bitmap_clear] clears them and changes no other bit. Both
    terminate without an access outside the array when the range lies in it,
    whatever the position of its ends within the words. *)
Theorem bitmap_set_clear_correct (map : list Z) (start len : Z) :
  words_ok map → 0 ≤ start → 0 ≤ len → start + len ≤ capacity map →
  (∃ map', __bitmap_set map start len = Ok map' ∧ words_ok map' ∧ length map' = length map ∧
     ∀ i, 0 ≤ i → bit map' i = bit map i || bool_decide (start ≤ i < start + len)) ∧
  (∃ map', __bitmap_clear map start len = Ok map' ∧ words_ok map' ∧ length map' = length map ∧
     ∀ i, 0 ≤ i → bit map' i = bit map i && negb (bool_decide (start ≤ i < start + len))).
Proof.
  intros Hm Hs Hlen Hc. split.
  - destruct (range_start_spec Z.lor orb) with (map := map) (start := start) (len := len)
      as (map' & E & Hm' & Hl & Hb); [intros; apply lor_range; lia|intros; apply Z.lor_spec|apply orb_false_r|done..|].
    exists map'. split; [done|]. split_and!; [done..|]. intros i Hi. rewrite Hb by done.
    case_decide; [by rewrite bool_decide_true, orb_true_r|by rewrite bool_decide_false, orb_false_r].
  - destruct (range_start_spec (λ w mask, Z.land w (u64 (Z.lnot mask))) (λ b m, b && negb m))
      with (map := map) (start := start) (len := len) as (map' & E & Hm' & Hl & Hb).
    { intros. apply land_range; lia. }
    { intros w m t Ht. by rewrite Z.land_spec, testbit_not. }
    { intros b. apply andb_true_r. }
    { done. } { done. } { done. } { done. }
    exists map'. split; [done|]. split_and!; [done..|]. intros i Hi. rewrite Hb by done.
    case_decide; [by rewrite bool_decide_true|by rewrite bool_decide_false, andb_true_r].
Qed.

Lemma bitmap_set_clear_correct_witness :
  __bitmap_set [0; 0; 0] 60 70 = Ok [0xf000000000000000; 0xffffffffffffffff; 3] ∧
  __bitmap_clear [0xffffffffffffffff; 5] 1 64 = Ok [1; 4].
Proof.
  destruct (bitmap_set_clear_correct [0; 0; 0] 60 70) as [(m & _) _].
  { repeat constructor; lia. } { lia. } { lia. } { vm_compute. congruence. }
  split; vm_compute; reflexivity.
Defined.
