(* ===== verification/BitmapCount.v ===== *)
(** * Counting bits and finding areas

    The population counts of lib/src/hweight.c add up fields inside a word;
    they are shown to act on each byte of the word separately, so that a byte
    is settled by computation, and [__bitmap_weight] then counts the bits of a
    bitmap. [bitmap_find_next_zero_area_off] returns the first aligned area of
    clear bits. *)

From stdpp Require Import base numbers list option.
From Stdlib Require Import ZArith Lia.
From S2P Require Import Prelude Bitops Strings StringsSpec Bitmap BitmapSpec.
Import Bitmap.

Open Scope Z_scope.

(** The number of set bits below [n]. *)
Fixpoint popcount (n : nat) (w : Z) : Z :=
  match n with O => 0 | S n => popcount n w + Z.b2z (Z.testbit w (Z.of_nat n)) end.

(** ** Fields of a word *)

(** Shifting right under a mask that keeps the bits of a byte in the byte. *)
Lemma shift_mask_byte hi lo M msk j :
  0 ≤ j ≤ 8 → 0 ≤ lo < 2 ^ 8 → 0 ≤ msk < 2 ^ (8 - j) →
  Z.land (Z.shiftr (hi * 2 ^ 8 + lo) j) (M * 2 ^ 8 + msk) =
  Z.land (Z.shiftr hi j) M * 2 ^ 8 + Z.land (Z.shiftr lo j) msk.
Proof.
  intros Hj Hlo Hm. assert (2 ^ (8 - j) ≤ 2 ^ 8) by (apply Z.pow_le_mono_r; lia).
  assert (0 ≤ Z.shiftr lo j < 2 ^ 8).
  { rewrite shiftr_div by lia. assert (0 < 2 ^ j) by (apply Z.pow_pos_nonneg; lia).
    split; [apply Z.div_pos; lia|]. apply Z.div_lt_upper_bound; nia. }
  apply Z.bits_inj'. intros i Hi. rewrite Z.land_spec, Z.shiftr_spec by lia.
  rewrite !testbit_split by (try apply land_range; lia). rewrite !Z.land_spec, !Z.shiftr_spec by lia.
  destruct (Z.ltb_spec i 8), (Z.ltb_spec (i + j) 8); try lia.
  - done.
  - assert (Z.testbit msk i = false) as ->; [|by rewrite !andb_false_r].
    rewrite <- (Z.mod_small msk (2 ^ (8 - j))) by done. apply Z.mod_pow2_bits_high. lia.
  - rewrite Z.shiftr_spec by lia. by replace (i + j - 8) with (i - 8 + j) by lia.
Qed.

Lemma word_cons b l : word (b :: l) = word l * 2 ^ 8 + b.
Proof. cbn [word]. lia. Qed.

Definition pairs (v : Z) : Z := v - Z.land (Z.shiftr v 1) 0x55.
Definition nibbles (v : Z) : Z := Z.land v 0x33 + Z.land (Z.shiftr v 2) 0x33.
Definition whole (v : Z) : Z := Z.land (v + Z.shiftr v 4) 0x0F.

Lemma word_pairs l :
  bytes l → word l - Z.land (Z.shiftr (word l) 1) (repeat_byte 0x55 (length l)) = word (map pairs l).
Proof.
  induction 1 as [|b l Hb Hl IH]; [done|]. cbn [map length].
  rewrite repeat_byte_S, !word_cons, shift_mask_byte by lia. rewrite <- IH. unfold pairs. ring.
Qed.

Lemma word_nibbles l :
  bytes l →
  Z.land (word l) (repeat_byte 0x33 (length l)) + Z.land (Z.shiftr (word l) 2) (repeat_byte 0x33 (length l)) =
  word (map nibbles l).
Proof.
  induction 1 as [|b l Hb Hl IH]; [done|]. cbn [map length].
  rewrite repeat_byte_S, !word_cons, shift_mask_byte, land_split by lia. rewrite <- IH. unfold nibbles. ring.
Qed.

(** The bytes before the last step: two nibbles of at most 4. *)
Definition counted_byte (v : Z) : Prop := 0 ≤ v ∧ v mod 16 ≤ 4 ∧ v / 16 ≤ 4.

Lemma word_whole l :
  Forall counted_byte l →
  Z.land (word l + Z.shiftr (word l) 4) (repeat_byte 0x0F (length l)) = word (map whole l).
Proof.
  induction 1 as [|b l [Hb [Hlow Hhigh]] Hl IH]; [done|]. cbn [map length].
  rewrite repeat_byte_S, !word_cons. set (w := word l) in *.
  assert (0 ≤ w) as Hw.
  { unfold w. clear -Hl. induction Hl as [|x l [Hx _] _ IH]; cbn [word]; lia. }
  pose proof (Z.div_mod b 16 ltac:(lia)). pose proof (Z.mod_pos_bound b 16 ltac:(lia)).
  assert (Z.shiftr (w * 2 ^ 8 + b) 4 = Z.shiftr w 4 * 2 ^ 8 + (w mod 16 * 16 + b / 16)) as ->.
  { rewrite !shiftr_div by lia. change (2 ^ 4) with 16. change (2 ^ 8) with (16 * 16).
    pose proof (Z.div_mod w 16 ltac:(lia)).
    replace (w * (16 * 16) + b) with (w * 16 * 16 + b) by ring. rewrite Z.div_add_l by lia. lia. }
  assert (w mod 16 ≤ 4).
  { unfold w. destruct Hl as [|x l [Hx [Hxm _]] _]; [done|]. rewrite word_cons.
    replace (word l * 2 ^ 8 + x) with (x + (word l * 16) * 16) by ring. by rewrite Z.mod_add by lia. }
  pose proof (Z.mod_pos_bound w 16 ltac:(lia)).
  replace (w * 2 ^ 8 + b + (Z.shiftr w 4 * 2 ^ 8 + (w mod 16 * 16 + b / 16)))
    with ((w + Z.shiftr w 4) * 2 ^ 8 + (b + (w mod 16 * 16 + b / 16))) by ring.
  rewrite land_split by lia. rewrite IH. f_equal. unfold whole.
  change 0x0F with (2 ^ 4 - 1). rewrite !land_ones_mod, shiftr_div by lia. change (2 ^ 4) with 16.
  replace (b + (w mod 16 * 16 + b / 16)) with (b + b / 16 + w mod 16 * 16) by lia. by apply Z.mod_add.
Qed.

(** The three steps on one byte, by computation. *)
Definition byte_count_check (v : Z) : bool :=
  (0 <=? pairs v) && (pairs v <? 256) && (0 <=? nibbles (pairs v)) && (nibbles (pairs v) <? 256) &&
  (nibbles (pairs v) mod 16 <=? 4) && (nibbles (pairs v) / 16 <=? 4) &&
  (whole (nibbles (pairs v)) =? popcount 8 v) && (popcount 8 v <=? 8) && (0 <=? popcount 8 v).

Lemma byte_counts v :
  0 ≤ v < 256 →
  0 ≤ pairs v < 256 ∧ 0 ≤ nibbles (pairs v) < 256 ∧ counted_byte (nibbles (pairs v)) ∧
  whole (nibbles (pairs v)) = popcount 8 v ∧ 0 ≤ popcount 8 v ≤ 8.
Proof.
  intros Hv. assert (forallb byte_count_check (seqZ 0 256) = true) as H by (vm_compute; reflexivity).
  assert (byte_count_check v = true) as Hc.
  { rewrite forallb_forall in H. apply H, list_elem_of_In, elem_of_seqZ. lia. }
  unfold byte_count_check in Hc. rewrite !andb_true_iff, !Z.leb_le, !Z.ltb_lt, Z.eqb_eq in Hc.
  unfold counted_byte. lia.
Qed.

(** All three steps on a word. *)
Lemma word_steps l :
  bytes l →
  let n := length l in
  let r1 := word l - Z.land (Z.shiftr (word l) 1) (repeat_byte 0x55 n) in
  let r2 := Z.land r1 (repeat_byte 0x33 n) + Z.land (Z.shiftr r1 2) (repeat_byte 0x33 n) in
  r1 = word (map pairs l) ∧ bytes (map pairs l) ∧
  r2 = word (map (λ v, nibbles (pairs v)) l) ∧ bytes (map (λ v, nibbles (pairs v)) l) ∧
  Z.land (r2 + Z.shiftr r2 4) (repeat_byte 0x0F n) = word (map (popcount 8) l).
Proof.
  intros Hl n r1 r2.
  assert (∀ P (f : Z → Z), (∀ v, 0 ≤ v < 256 → P (f v)) → Forall P (map f l)) as Hmap.
  { intros P f Hf. apply Forall_fmap. eapply list.Forall_impl; [exact Hl|]. intros v Hv. by apply Hf. }
  assert (bytes (map pairs l)) as H1 by (apply Hmap; intros v Hv; by apply byte_counts).
  assert (r1 = word (map pairs l)) as E1 by (by apply word_pairs).
  assert (r2 = word (map (λ v, nibbles (pairs v)) l)) as E2.
  { unfold r2. rewrite E1. unfold n. rewrite <- (length_map pairs l). rewrite word_nibbles by done.
    by rewrite map_map. }
  split_and!; [done|done|done| |].
  - apply Hmap. intros v Hv. by apply byte_counts.
  - rewrite E2. unfold n. rewrite <- (length_map (λ v, nibbles (pairs v)) l), word_whole, map_map.
    + f_equal. apply map_ext_Forall. eapply list.Forall_impl; [exact Hl|]. intros v Hv. by apply byte_counts.
    + apply Hmap. intros v Hv. by apply byte_counts.
Qed.

(** ** The counts *)

Lemma popcount_ext n w w' :
  (∀ i, 0 ≤ i < Z.of_nat n → Z.testbit w i = Z.testbit w' i) → popcount n w = popcount n w'.
Proof.
  induction n as [|n IH]; intros H; [done|]. cbn [popcount]. rewrite IH by (intros; apply H; lia).
  by rewrite H by lia.
Qed.

Lemma popcount_byte n w b :
  0 ≤ b < 2 ^ 8 → popcount (n + 8) (w * 2 ^ 8 + b) = popcount 8 b + popcount n w.
Proof.
  intros Hb. induction n as [|n IH].
  - cbn [plus]. change (popcount 0 w) with 0. rewrite Z.add_0_r. apply popcount_ext. intros i Hi.
    rewrite testbit_split by lia. by rewrite (proj2 (Z.ltb_lt i 8)) by lia.
  - change (S n + 8)%nat with (S (n + 8)). cbn [popcount]. rewrite IH, testbit_split by lia.
    destruct (Z.ltb_spec (Z.of_nat (n + 8)) 8); [lia|].
    replace (Z.of_nat (n + 8) - 8) with (Z.of_nat n) by lia. cbn [popcount]. lia.
Qed.

Definition total (l : list Z) : Z := foldr Z.add 0 l.

Lemma popcount_word l : bytes l → popcount (8 * length l) (word l) = total (map (popcount 8) l).
Proof.
  induction 1 as [|b l Hb _ IH]; [done|]. cbn [length map total foldr]. rewrite word_cons.
  replace (8 * S (length l))%nat with (8 * length l + 8)%nat by lia.
  rewrite popcount_byte, IH by lia. done.
Qed.

Lemma shiftr_word b l : 0 ≤ b < 256 → Z.shiftr (word (b :: l)) 8 = word l.
Proof.
  intros Hb. rewrite word_cons, shiftr_div, Z.div_add_l, Z.div_small by lia. lia.
Qed.

Lemma shiftr_word_drop l k :
  bytes l → Z.shiftr (word l) (8 * Z.of_nat k) = word (drop k l).
Proof.
  revert l. induction k as [|k IH]; intros l Hl; [by rewrite Z.shiftr_0_r, drop_0|].
  replace (8 * Z.of_nat (S k)) with (8 + 8 * Z.of_nat k) by lia.
  destruct Hl as [|b l Hb Hl]; [by rewrite Z.shiftr_0_l|].
  rewrite <- Z.shiftr_shiftr, shiftr_word by lia. by apply IH.
Qed.

Lemma low_byte b l : 0 ≤ b < 256 → Z.land (word (b :: l)) 0xFF = b.
Proof.
  intros Hb. rewrite word_cons. change 0xFF with (2 ^ 8 - 1). rewrite land_ones_mod by lia.
  by rewrite Z.add_comm, Z.mod_add, Z.mod_small by lia.
Qed.

Lemma u64_word l : bytes l → (length l ≤ 8)%nat → u64 (word l) = word l.
Proof.
  intros Hl Hn. unfold u64. apply Z.mod_small. pose proof (word_range l Hl).
  assert (256 ^ Z.of_nat (length l) ≤ 256 ^ 8) by (apply Z.pow_le_mono_r; lia). lia.
Qed.

Lemma u32_word l : bytes l → (length l ≤ 4)%nat → u32 (word l) = word l.
Proof.
  intros Hl Hn. unfold u32. apply Z.mod_small. pose proof (word_range l Hl).
  assert (256 ^ Z.of_nat (length l) ≤ 256 ^ 4) by (apply Z.pow_le_mono_r; lia). lia.
Qed.

(** The sums of the bytes fit: every byte counts at most 8 bits. *)
Ltac small_bytes := repeat (apply List.Forall_cons; [lia|]); apply List.Forall_nil.

(** The addition of shifted copies leaves the sum of the bytes in the lowest
    one. *)
Lemma fold_word64 p0 p1 p2 p3 p4 p5 p6 p7 :
  Forall (λ p, 0 ≤ p ≤ 8) [p0; p1; p2; p3; p4; p5; p6; p7] →
  let r0 := word [p0; p1; p2; p3; p4; p5; p6; p7] in
  let r1 := u64 (r0 + Z.shiftr r0 8) in
  let r2 := u64 (r1 + Z.shiftr r1 16) in
  Z.land (u64 (r2 + Z.shiftr r2 32)) 0xFF = total [p0; p1; p2; p3; p4; p5; p6; p7].
Proof.
  rewrite !list.Forall_cons. intros (? & ? & ? & ? & ? & ? & ? & ? & _) r0.
  assert (r0 + Z.shiftr r0 8 = word [p0 + p1; p1 + p2; p2 + p3; p3 + p4; p4 + p5; p5 + p6; p6 + p7; p7]) as ->.
  { unfold r0. rewrite (shiftr_word_drop _ 1) by small_bytes. cbn [drop word]. ring. }
  rewrite u64_word by (done || small_bytes). intros r1.
  assert (r1 + Z.shiftr r1 16 = word [p0 + p1 + (p2 + p3); p1 + p2 + (p3 + p4); p2 + p3 + (p4 + p5);
    p3 + p4 + (p5 + p6); p4 + p5 + (p6 + p7); p5 + p6 + p7; p6 + p7; p7]) as ->.
  { unfold r1. rewrite (shiftr_word_drop _ 2) by small_bytes. cbn [drop word]. ring. }
  rewrite u64_word by (done || small_bytes). intros r2.
  assert (r2 + Z.shiftr r2 32 = word [p0 + p1 + (p2 + p3) + (p4 + p5 + (p6 + p7)); p1 + p2 + (p3 + p4) + (p5 + p6 + p7);
    p2 + p3 + (p4 + p5) + (p6 + p7); p3 + p4 + (p5 + p6) + p7; p4 + p5 + (p6 + p7); p5 + p6 + p7; p6 + p7; p7]) as ->.
  { unfold r2. rewrite (shiftr_word_drop _ 4) by small_bytes. cbn [drop word]. ring. }
  rewrite u64_word by (done || small_bytes). rewrite low_byte by lia. cbn [total foldr]. lia.
Qed.

Lemma fold_word32 p0 p1 p2 p3 :
  Forall (λ p, 0 ≤ p ≤ 8) [p0; p1; p2; p3] →
  let r0 := word [p0; p1; p2; p3] in
  let r1 := u32 (r0 + Z.shiftr r0 8) in
  Z.land (u32 (r1 + Z.shiftr r1 16)) 0xFF = total [p0; p1; p2; p3].
Proof.
  rewrite !list.Forall_cons. intros (? & ? & ? & ? & _) r0.
  assert (r0 + Z.shiftr r0 8 = word [p0 + p1; p1 + p2; p2 + p3; p3]) as ->.
  { unfold r0. rewrite (shiftr_word_drop _ 1) by small_bytes. cbn [drop word]. ring. }
  rewrite u32_word by (done || small_bytes). intros r1.
  assert (r1 + Z.shiftr r1 16 = word [p0 + p1 + (p2 + p3); p1 + p2 + p3; p2 + p3; p3]) as ->.
  { unfold r1. rewrite (shiftr_word_drop _ 2) by small_bytes. cbn [drop word]. ring. }
  rewrite u32_word by (done || small_bytes). rewrite low_byte by lia. cbn [total foldr]. lia.
Qed.

Lemma fold_word16 p0 p1 :
  Forall (λ p, 0 ≤ p ≤ 8) [p0; p1] →
  let r0 := word [p0; p1] in Z.land (u32 (r0 + Z.shiftr r0 8)) 0xFF = total [p0; p1].
Proof.
  rewrite !list.Forall_cons. intros (? & ? & _) r0.
  assert (r0 + Z.shiftr r0 8 = word [p0 + p1; p1]) as ->.
  { unfold r0. rewrite (shiftr_word_drop _ 1) by small_bytes. cbn [drop word]. ring. }
  rewrite u32_word by ((cbn; lia) || small_bytes). rewrite low_byte by lia. cbn [total foldr]. lia.
Qed.

Lemma land_mod_l k x y : 0 ≤ k → 0 ≤ y < 2 ^ k → Z.land (x mod 2 ^ k) y = Z.land x y.
Proof.
  intros Hk Hy. rewrite <- Z.land_ones, <- Z.land_assoc by done.
  by rewrite (Z.land_comm (Z.ones k)), Z.land_ones, Z.mod_small by done.
Qed.

Lemma bytes_popcount l : bytes l → Forall (λ p, 0 ≤ p ≤ 8) (map (popcount 8) l).
Proof.
  intros Hl. apply Forall_fmap. eapply list.Forall_impl; [exact Hl|]. intros v Hv. by apply byte_counts.
Qed.

(** The first three steps at a machine width of at least [length l] bytes. *)
Lemma count_steps (wrap : Z → Z) k l :
  bytes l → 0 ≤ k → 256 ^ Z.of_nat (length l) ≤ 2 ^ k → (∀ x, wrap x = x mod 2 ^ k) →
  let n := length l in
  let r := wrap (word l - Z.land (Z.shiftr (word l) 1) (repeat_byte 0x55 n)) in
  let r := wrap (Z.land r (repeat_byte 0x33 n) + Z.land (Z.shiftr r 2) (repeat_byte 0x33 n)) in
  Z.land (wrap (r + Z.shiftr r 4)) (repeat_byte 0x0F n) = word (map (popcount 8) l).
Proof.
  intros Hl Hk Hn Hwrap n. destruct (word_steps l Hl) as (E1 & H1 & E2 & H2 & E3). fold n in E1, E2, E3.
  assert (∀ l', bytes l' → length l' = n → wrap (word l') = word l') as Hid.
  { intros l' Hl' En. rewrite Hwrap. apply Z.mod_small. pose proof (word_range l' Hl') as Hw.
    rewrite En in Hw. unfold n in Hw. lia. }
  cbn zeta. rewrite E1 in E2, E3 |- *. rewrite (Hid (map pairs l)) by (done || apply length_map).
  rewrite E2 in E3 |- *. rewrite Hid by (done || apply length_map).
  rewrite Hwrap, land_mod_l; [done|done|].
  assert (bytes (replicate n 0x0F)) as Hr by (apply Forall_replicate; lia).
  pose proof (word_range _ Hr) as Hw. rewrite length_replicate in Hw. unfold n in *. unfold repeat_byte. lia.
Qed.

Lemma hweight64_spec w : 0 ≤ w < 2 ^ 64 → __sw_hweight64 w = popcount 64 w.
Proof.
  intros Hw. destruct (word_surj 8 w Hw) as (l & Hl & Hn & ->).
  pose proof (count_steps u64 64 l Hl ltac:(lia) ltac:(rewrite Hn; lia) ltac:(done)) as Hsteps.
  cbn zeta in Hsteps. rewrite Hn in Hsteps. pose proof (bytes_popcount l Hl) as Hp.
  pose proof (popcount_word l Hl) as Hpc. rewrite Hn in Hpc.
  unfold __sw_hweight64. change 0x5555555555555555 with (repeat_byte 0x55 8).
  change 0x3333333333333333 with (repeat_byte 0x33 8). change 0x0F0F0F0F0F0F0F0F with (repeat_byte 0x0F 8).
  rewrite Hsteps. change 64%nat with (8 * 8)%nat. rewrite Hpc. clear -Hn Hp.
  do 8 (destruct l as [|? l]; [done|]). destruct l; [|done]. cbn [map] in *. by apply fold_word64.
Qed.

Lemma hweight32_spec w : 0 ≤ w < 2 ^ 32 → __sw_hweight32 w = popcount 32 w.
Proof.
  intros Hw. destruct (word_surj 4 w Hw) as (l & Hl & Hn & ->).
  pose proof (count_steps u32 32 l Hl ltac:(lia) ltac:(rewrite Hn; lia) ltac:(done)) as Hsteps.
  cbn zeta in Hsteps. rewrite Hn in Hsteps. pose proof (bytes_popcount l Hl) as Hp.
  pose proof (popcount_word l Hl) as Hpc. rewrite Hn in Hpc.
  unfold __sw_hweight32. change 0x55555555 with (repeat_byte 0x55 4).
  change 0x33333333 with (repeat_byte 0x33 4). change 0x0F0F0F0F with (repeat_byte 0x0F 4).
  rewrite Hsteps. change 32%nat with (8 * 4)%nat. rewrite Hpc. clear -Hn Hp.
  do 4 (destruct l as [|? l]; [done|]). destruct l; [|done]. cbn [map] in *. by apply fold_word32.
Qed.

Lemma hweight16_spec w : 0 ≤ w < 2 ^ 16 → __sw_hweight16 w = popcount 16 w.
Proof.
  intros Hw. destruct (word_surj 2 w Hw) as (l & Hl & Hn & ->).
  pose proof (count_steps u32 32 l Hl ltac:(lia) ltac:(rewrite Hn; lia) ltac:(done)) as Hsteps.
  cbn zeta in Hsteps. rewrite Hn in Hsteps. pose proof (bytes_popcount l Hl) as Hp.
  pose proof (popcount_word l Hl) as Hpc. rewrite Hn in Hpc.
  unfold __sw_hweight16. change 0x5555 with (repeat_byte 0x55 2).
  change 0x3333 with (repeat_byte 0x33 2). change 0x0F0F with (repeat_byte 0x0F 2).
  rewrite Hsteps. change 16%nat with (8 * 2)%nat. rewrite Hpc. clear -Hn Hp.
  do 2 (destruct l as [|? l]; [done|]). destruct l; [|done]. cbn [map] in *. by apply fold_word16.
Qed.

Lemma hweight8_spec w : 0 ≤ w < 2 ^ 8 → __sw_hweight8 w = popcount 8 w.
Proof.
  intros Hw. assert (forallb (λ v, __sw_hweight8 v =? popcount 8 v) (seqZ 0 256) = true) as H
    by (vm_compute; reflexivity).
  rewrite forallb_forall in H. apply Z.eqb_eq, H, list_elem_of_In, elem_of_seqZ. lia.
Qed.

(** ** The weight of a bitmap *)

(** The set bits of a map in [lo, lo + n). *)
Fixpoint count_bits (map : list Z) (lo : Z) (n : nat) : Z :=
  match n with O => 0 | S n => count_bits map lo n + Z.b2z (bit map (lo + Z.of_nat n)) end.

Lemma count_bits_app map lo n k :
  count_bits map lo (n + k) = count_bits map lo n + count_bits map (lo + Z.of_nat n) k.
Proof.
  induction k as [|k IH]; [rewrite Nat.add_0_r; cbn; lia|].
  rewrite Nat.add_succ_r. cbn [count_bits]. rewrite IH.
  replace (lo + Z.of_nat (n + k)) with (lo + Z.of_nat n + Z.of_nat k) by lia. lia.
Qed.

Lemma count_bits_word map k w n :
  0 ≤ k → map !! Z.to_nat k = Some w → (n ≤ 64)%nat → count_bits map (64 * k) n = popcount n w.
Proof.
  intros Hk Hw. induction n as [|n IH]; intros Hn; [done|]. cbn [count_bits popcount].
  rewrite IH by lia. by rewrite (bit_word map k (Z.of_nat n) w) by (done || lia).
Qed.

Lemma count_bits_range map lo n : 0 ≤ count_bits map lo n ≤ Z.of_nat n.
Proof. induction n as [|n IH]; cbn [count_bits]; [lia|]. destruct (bit map _); cbn [Z.b2z]; lia. Qed.

Lemma s32_id x : 0 ≤ x < 2 ^ 31 → s32 x = x.
Proof. intros. apply sext_id; lia. Qed.

Lemma weight_loop_spec map : words_ok map → ∀ lim k,
  0 ≤ k → 64 * (k + Z.of_nat lim) ≤ capacity map → 64 * (k + Z.of_nat lim) < 2 ^ 31 →
  weight_loop lim map k (count_bits map 0 (Z.to_nat (64 * k))) =
  Ok (count_bits map 0 (Z.to_nat (64 * (k + Z.of_nat lim)))).
Proof.
  intros Hm. induction lim as [|lim IH]; intros k Hk Hc Hb; cbn [weight_loop].
  - rewrite Z.add_0_r. done.
  - destruct (rd_ok map k Hk) as (w & -> & Hw); [lia|]. cbn [mbind outcome_bind].
    rewrite hweight64_spec, <- (count_bits_word map k w 64) by (done || lia || by eapply words_lookup).
    assert (count_bits map 0 (Z.to_nat (64 * k)) + count_bits map (64 * k) 64 =
            count_bits map 0 (Z.to_nat (64 * (k + 1)))) as ->.
    { replace (Z.to_nat (64 * (k + 1))) with (Z.to_nat (64 * k) + 64)%nat by lia.
      rewrite count_bits_app. f_equal. f_equal. lia. }
    pose proof (count_bits_range map 0 (Z.to_nat (64 * (k + 1)))).
    rewrite s32_id, IH by lia. do 2 f_equal. lia.
Qed.

Lemma popcount_mask w n :
  (0 < n < 64)%nat → popcount 64 (Z.land w (BITMAP_LAST_WORD_MASK (Z.of_nat n))) = popcount n w.
Proof.
  intros Hn.
  assert (∀ k, (k ≤ 64)%nat → popcount k (Z.land w (BITMAP_LAST_WORD_MASK (Z.of_nat n))) = popcount (k `min` n) w) as H.
  { induction k as [|k IH]; intros Hk; [done|]. cbn [popcount]. rewrite IH by lia.
    rewrite Z.land_spec, last_word_mask_spec, Z.mod_small by lia.
    destruct (Z.leb_spec (Z.of_nat k) (Z.of_nat n - 1)).
    - rewrite andb_true_r, !Nat.min_l by lia. done.
    - rewrite andb_false_r, !Nat.min_r by lia. cbn [Z.b2z]. lia. }
  rewrite H by lia. by rewrite Nat.min_r by lia.
Qed.

Lemma mask_period n : BITMAP_LAST_WORD_MASK n = BITMAP_LAST_WORD_MASK (n mod 64).
Proof.
  unfold BITMAP_LAST_WORD_MASK. f_equal. rewrite !land_63.
  rewrite <- (Z.sub_0_l n), <- (Z.sub_0_l (n mod 64)). by rewrite Zminus_mod_idemp_r.
Qed.

(** The population counts. [__sw_hweight8] to [__sw_hweight64] return the
    number of set bits of every argument of their width, and
    [__bitmap_weight] the number of set bits below [bits], with the unused
    bits of the last word ignored and no access outside the array. *)
Theorem hweight_correct (w : Z) (map : list Z) (bits : Z) :
  words_ok map → 0 ≤ bits < 2 ^ 31 → bits ≤ capacity map →
  (0 ≤ w < 2 ^ 8 → __sw_hweight8 w = popcount 8 w) ∧
  (0 ≤ w < 2 ^ 16 → __sw_hweight16 w = popcount 16 w) ∧
  (0 ≤ w < 2 ^ 32 → __sw_hweight32 w = popcount 32 w) ∧
  (0 ≤ w < 2 ^ 64 → __sw_hweight64 w = popcount 64 w) ∧
  __bitmap_weight map bits = Ok (count_bits map 0 (Z.to_nat bits)).
Proof.
  intros Hm Hb Hc. split_and!; [apply hweight8_spec|apply hweight16_spec|apply hweight32_spec|apply hweight64_spec|].
  unfold __bitmap_weight, BITS_PER_LONG. pose proof (Z.div_mod bits 64 ltac:(lia)).
  pose proof (Z.mod_pos_bound bits 64 ltac:(lia)). assert (0 ≤ bits / 64) by (apply Z.div_pos; lia).
  pose proof (weight_loop_spec map Hm (Z.to_nat (bits / 64)) 0 ltac:(lia) ltac:(lia) ltac:(lia)) as HL.
  change (count_bits map 0 (Z.to_nat (64 * 0))) with 0 in HL. rewrite HL, Z.add_0_l, Z2Nat.id by lia.
  cbn [mbind outcome_bind]. destruct (Z.eqb_spec (bits mod 64) 0) as [E|E]; cbn [negb].
  { do 2 f_equal. lia. }
  destruct (rd_ok map (bits / 64)) as (x & -> & Hx); [lia|lia|]. cbn [mbind outcome_bind].
  pose proof (words_lookup _ _ _ Hm Hx) as Hxr.
  rewrite hweight64_spec by (by apply land_range). rewrite mask_period.
  replace (bits mod 64) with (Z.of_nat (Z.to_nat (bits mod 64))) by lia. rewrite popcount_mask by lia.
  rewrite <- (count_bits_word map (bits / 64) x) by (done || lia).
  pose proof (count_bits_range map 0 (Z.to_nat bits)).
  assert (count_bits map 0 (Z.to_nat (64 * (bits / 64))) + count_bits map (64 * (bits / 64)) (Z.to_nat (bits mod 64)) =
          count_bits map 0 (Z.to_nat bits)) as ->; [|by rewrite s32_id by lia].
  replace (Z.to_nat bits) with (Z.to_nat (64 * (bits / 64)) + Z.to_nat (bits mod 64))%nat by lia.
  rewrite count_bits_app. f_equal. f_equal. lia.
Qed.

Lemma hweight_correct_witness :
  __sw_hweight32 0xdeadbeef = popcount 32 0xdeadbeef ∧ __bitmap_weight [0xff; 0xf0f] 70 = Ok 12.
Proof.
  destruct (hweight_correct 0xdeadbeef [0xff; 0xf0f] 70) as (_ & _ & H32 & _ & Hw).
  { repeat constructor; lia. } { lia. } { vm_compute. congruence. }
  split; [apply H32; lia|]. rewrite Hw. vm_compute. reflexivity.
Defined.

(** ** Areas of clear bits *)

(** Position [x] starts an area of [nr] clear bits below [size] whose offset by
    [off] is a multiple of [2 ^ k]. *)
Definition zero_area (map : list Z) (size nr k off x : Z) : Prop :=
  (x + off) mod 2 ^ k = 0 ∧ x + nr ≤ size ∧ ∀ j, x ≤ j < x + nr → bit map j = false.

Lemma land_not_mask k x :
  0 ≤ k ≤ 63 → 0 ≤ x < 2 ^ 64 → Z.land x (u64 (Z.lnot (2 ^ k - 1))) = x / 2 ^ k * 2 ^ k.
Proof.
  intros Hk Hx. assert (0 < 2 ^ k) by (apply Z.pow_pos_nonneg; lia).
  assert (2 ^ 64 = 2 ^ (64 - k) * 2 ^ k) as H64 by (rewrite <- Z.pow_add_r by lia; f_equal; lia).
  assert (u64 (Z.lnot (2 ^ k - 1)) = (2 ^ (64 - k) - 1) * 2 ^ k + 0) as ->.
  { unfold u64, Z.lnot. replace (Z.pred (- (2 ^ k - 1))) with (2 ^ 64 - 2 ^ k + -1 * 2 ^ 64) by lia.
    rewrite Z.mod_add, Z.mod_small by nia. lia. }
  pose proof (Z.div_mod x (2 ^ k) ltac:(lia)) as Hd. pose proof (Z.mod_pos_bound x (2 ^ k) ltac:(lia)).
  rewrite Hd at 1. rewrite (Z.mul_comm (2 ^ k)), land_split by lia. rewrite Z.land_0_r, land_ones_mod by lia.
  rewrite Z.mod_small; [lia|]. split; [apply Z.div_pos; lia|apply Z.div_lt_upper_bound; nia].
Qed.

(** The aligned index is the first one from [x] on. *)
Lemma align_index k off x :
  0 ≤ k ≤ 62 → 0 ≤ off → 0 ≤ x → x + off + 2 ^ k < 2 ^ 64 →
  let y := u64 (__ALIGN_MASK (u64 (x + off)) (2 ^ k - 1) - off) in
  x ≤ y < x + 2 ^ k ∧ (y + off) mod 2 ^ k = 0 ∧ ∀ z, x ≤ z → (z + off) mod 2 ^ k = 0 → y ≤ z.
Proof.
  intros Hk Hoff Hx Hb. assert (0 < 2 ^ k) by (apply Z.pow_pos_nonneg; lia).
  unfold __ALIGN_MASK. assert (u64 (x + off) = x + off) as -> by (unfold u64; rewrite Z.mod_small; lia).
  assert (u64 (x + off + (2 ^ k - 1)) = x + off + (2 ^ k - 1)) as -> by (unfold u64; rewrite Z.mod_small; lia).
  rewrite land_not_mask by lia. set (q := (x + off + (2 ^ k - 1)) / 2 ^ k).
  pose proof (Z.div_mod (x + off + (2 ^ k - 1)) (2 ^ k) ltac:(lia)) as Hd. fold q in Hd.
  pose proof (Z.mod_pos_bound (x + off + (2 ^ k - 1)) (2 ^ k) ltac:(lia)) as Hm.
  assert (u64 (q * 2 ^ k - off) = q * 2 ^ k - off) as -> by (unfold u64; rewrite Z.mod_small; lia).
  split; [lia|]. split; [rewrite Z.sub_add; apply Z.mod_mul; lia|].
  intros z Hz Hzm. apply Z.div_exact in Hzm; [|lia]. set (r := (z + off) / 2 ^ k) in *.
  assert (q ≤ r); [|nia]. apply Z.lt_succ_r, (Z.mul_lt_mono_pos_l (2 ^ k)); lia.
Qed.

Lemma find_zero_area_spec map size nr k off :
  bitmap_ok map size → 0 < nr < 2 ^ 32 → 0 ≤ k ≤ 62 → 0 ≤ off → size + off + 2 ^ k + nr < 2 ^ 63 →
  ∀ fuel start, 0 ≤ start → size - start < Z.of_nat fuel → start ≤ size + 1 → (0 < fuel)%nat →
  ∃ r, bitmap_find_next_zero_area_off fuel map size start nr (2 ^ k - 1) off = Ok r ∧
    ((start ≤ r ∧ zero_area map size nr k off r ∧ ∀ x, start ≤ x < r → ¬ zero_area map size nr k off x) ∨
     (size < r ∧ ∀ x, start ≤ x → ¬ zero_area map size nr k off x)).
Proof.
  intros Hok Hnr Hk Hoff Hb. assert (0 < 2 ^ k) by (apply Z.pow_pos_nonneg; lia).
  pose proof Hok as (Hm & Hs & Hc).
  induction fuel as [|fuel IH]; intros start Hst Hf Hsz Hf0; [lia|]. cbn [bitmap_find_next_zero_area_off].
  destruct (find_next_zero_bit_spec map size start Hok Hst) as (i0 & -> & Hi0). cbn [mbind outcome_bind].
  assert (0 ≤ i0 ≤ size) as Hi0r by (destruct Hi0; lia).
  destruct (align_index k off i0) as (Hy & Hym & Hmin); [lia..|].
  set (y := u64 (__ALIGN_MASK (u64 (i0 + off)) (2 ^ k - 1) - off)) in *. clearbody y.
  assert (∀ x, start ≤ x → zero_area map size nr k off x → y ≤ x) as Hge.
  { intros x Hx (Hal & Hend & Hz). apply Hmin; [|done]. destruct Hi0 as [(_ & _ & Hno)|[-> Hno]].
    - destruct (decide (x < i0)); [|lia]. specialize (Hno x ltac:(lia)). rewrite Hz in Hno by lia. done.
    - specialize (Hno x ltac:(lia)). rewrite Hz in Hno by lia. done. }
  assert (u64 (y + nr) = y + nr) as -> by (unfold u64; rewrite Z.mod_small; lia).
  destruct (Z.ltb_spec size (y + nr)) as [Hend|Hend].
  { eexists. split; [done|]. right. split; [done|]. intros x Hx Ha. pose proof (Hge x Hx Ha).
    destruct Ha as (_ & ? & _). lia. }
  destruct (find_next_bit_spec map (y + nr) y) as (i & -> & Hi); [split; [done|lia]|lia|]. cbn [mbind outcome_bind].
  assert (start ≤ i0) by (destruct Hi0 as [[? _]|[-> _]]; lia).
  destruct (Z.ltb_spec i (y + nr)) as [Hin|Hin].
  - destruct Hi as [(Hi & Hset & _)|[? _]]; [|lia].
    assert (u64 (i + 1) = i + 1) as -> by (unfold u64; rewrite Z.mod_small; lia).
    assert (∀ x, start ≤ x → zero_area map size nr k off x → i + 1 ≤ x) as Hgt.
    { intros x Hx Ha. pose proof (Hge x Hx Ha). destruct Ha as (_ & _ & Hz).
      destruct (decide (x ≤ i)); [|lia]. rewrite Hz in Hset by lia. done. }
    destruct (IH (i + 1)) as (r & -> & Hr); [lia..|]. exists r. split; [done|].
    destruct Hr as [(Hr & Ha & Hno)|[Hr Hno]]; [left|right].
    + split; [lia|]. split; [done|]. intros x Hx Hz. apply (Hno x); [|done]. pose proof (Hgt x ltac:(lia) Hz). lia.
    + split; [done|]. intros x Hx Hz. apply (Hno x); [by apply Hgt|done].
  - exists y. split; [done|]. left. split; [lia|]. split.
    + split; [done|]. split; [done|]. intros j Hj. destruct Hi as [[? _]|[_ Hno]]; [lia|]. by apply Hno.
    + intros x Hx Ha. pose proof (Hge x ltac:(lia) Ha). lia.
Qed.

(** [bitmap_find_next_zero_area_off] terminates and returns the first
    position from [start] on where [nr] clear bits follow below [size] and
    whose offset by [align_offset] is a multiple of the alignment; when there
    is no such area the result is larger than [size]. *)
Theorem find_zero_area_correct (map : list Z) (size start nr k off : Z) (fuel : nat) :
  bitmap_ok map size → 0 ≤ start ≤ size → 0 < nr < 2 ^ 32 → 0 ≤ k ≤ 62 → 0 ≤ off →
  size + off + 2 ^ k + nr < 2 ^ 63 → size - start < Z.of_nat fuel →
  ∃ r, bitmap_find_next_zero_area_off fuel map size start nr (2 ^ k - 1) off = Ok r ∧
    ((start ≤ r ∧ zero_area map size nr k off r ∧ ∀ x, start ≤ x < r → ¬ zero_area map size nr k off x) ∨
     (size < r ∧ ∀ x, start ≤ x → ¬ zero_area map size nr k off x)).
Proof. intros. apply find_zero_area_spec; (done || lia). Qed.

Lemma find_zero_area_correct_witness :
  bitmap_find_next_zero_area_off 101 [0xfff0f; 0] 100 0 10 (2 ^ 2 - 1) 1 = Ok 23 ∧
  zero_area [0xfff0f; 0] 100 10 2 1 23.
Proof.
  destruct (find_zero_area_correct [0xfff0f; 0] 100 0 10 2 1 101) as (r & E & Hr);
    [split; [repeat constructor; lia|split; [lia|vm_compute; congruence]]|lia..|].
  assert (r = 23) as -> by (vm_compute in E; congruence). split; [done|].
  destruct Hr as [(_ & H & _)|[? _]]; [exact H|lia].
Defined.
