(* ===== verification/IdMap.v ===== *)
(** * User and group id maps

    user_namespace/src/user_namespace.c: the maps from the ids of a user
    namespace to kernel ids. A map holds up to five extents in place; a larger
    one holds two arrays in memory, sorted by the ids of the namespace and by
    the kernel ids, which [bsearch] searches. [map_write] parses a new map,
    checks it, translates it through the map of the parent namespace, sorts
    and installs it.

    Memory is the byte memory of Strings.v, where an extent is three
    little-endian words. The address an allocation returns is an argument, 0
    when it fails; so are the answers of the capability checks. *)

From stdpp Require Import base numbers list option.
From Stdlib Require Import ZArith Lia.
From S2P Require Import Prelude Strings Sort Kstrtox.
Import Ctype Strings Sort Kstrtox.

Open Scope Z_scope.

Module IdMap.

Definition UID_GID_MAP_MAX_BASE_EXTENTS : Z := 5.
Definition UID_GID_MAP_MAX_EXTENTS : Z := 340.
Definition PAGE_SIZE : Z := 4096.
Definition EPERM : Z := 1.
Definition ENOMEM : Z := 12.
Definition INVALID_ID : Z := 2 ^ 32 - 1.

Record uid_gid_extent := MkExtent { first : Z; lower_first : Z; count : Z }.

(** [sizeof (struct uid_gid_extent)] *)
Definition EXTENT_SIZE : Z := 12.

(** The union of struct uid_gid_map. *)
Inductive map_arrays :=
  | Base (extent : list uid_gid_extent)
  | Sorted (forward reverse : Z).

Record uid_gid_map := MkMap { nr_extents : Z; arrays : map_arrays }.

Definition empty_map : uid_gid_map := MkMap 0 (Base []).

Definition load_extent (m : mem) (p : Z) : uid_gid_extent :=
  MkExtent (read32 m p) (read32 m (p + 4)) (read32 m (p + 8)).

Definition store_extent (m : mem) (p : Z) (e : uid_gid_extent) : mem :=
  write32 (write32 (write32 m p (first e)) (p + 4) (lower_first e)) (p + 8) (count e).

(** The extent in the bytes handed to a comparison function. *)
Definition extent_of (l : list Z) : uid_gid_extent :=
  load_extent (λ x, default 0 (l !! Z.to_nat x)) 0.

(** ** Searching a map *)

Record idmap_key := MkKey { map_up : bool; key_id : Z; key_count : Z }.

Definition cmp_map_id (key : idmap_key) (el : uid_gid_extent) : Z :=
  let id2 := u32 (key_id key + key_count key - 1) in
  let first := if map_up key then lower_first el else first el in
  let last := u32 (first + count el - 1) in
  if (first <=? key_id key) && (key_id key <=? last) && ((first <=? id2) && (id2 <=? last)) then 0
  else if (key_id key <? first) || (id2 <? first) then -1
  else 1.

Definition map_id_range_down_max (fuel : nat) (m : mem) (extents forward id count : Z) : outcome Z :=
  bsearch fuel m forward extents EXTENT_SIZE (λ e, cmp_map_id (MkKey false id count) (extent_of e)).

Fixpoint map_id_range_down_base (extents : list uid_gid_extent) (id id2 : Z) : option uid_gid_extent :=
  match extents with
  | [] => None
  | e :: extents =>
      let last := u32 (first e + count e - 1) in
      if (first e <=? id) && (id <=? last) && ((first e <=? id2) && (id2 <=? last)) then Some e
      else map_id_range_down_base extents id id2
  end.

(** The first [n] extents of the array in the map. Reading the other member of
    the union is not an access the code intends. *)
Definition base_extents (map : uid_gid_map) : outcome (list uid_gid_extent) :=
  match arrays map with Base l => Ok (take (Z.to_nat (nr_extents map)) l) | Sorted _ _ => Panic end.

Definition map_id_range_down (fuel : nat) (m : mem) (map : uid_gid_map) (id count : Z) : outcome Z :=
  extent ←
    (if nr_extents map <=? UID_GID_MAP_MAX_BASE_EXTENTS then
       l ← base_extents map;
       Ok (map_id_range_down_base l id (u32 (id + count - 1)))
     else match arrays map with
       | Base _ => Panic
       | Sorted forward _ =>
           p ← map_id_range_down_max fuel m (nr_extents map) forward id count;
           Ok (if p =? NULL then None else Some (load_extent m p))
       end);
  Ok match extent with
     | Some e => u32 (u32 (id - first e) + lower_first e)
     | None => INVALID_ID
     end.

Definition map_id_down (fuel : nat) (m : mem) (map : uid_gid_map) (id : Z) : outcome Z :=
  map_id_range_down fuel m map id 1.

Fixpoint map_id_up_base (extents : list uid_gid_extent) (id : Z) : option uid_gid_extent :=
  match extents with
  | [] => None
  | e :: extents =>
      let last := u32 (lower_first e + count e - 1) in
      if (lower_first e <=? id) && (id <=? last) then Some e else map_id_up_base extents id
  end.

Definition map_id_up_max (fuel : nat) (m : mem) (extents reverse id : Z) : outcome Z :=
  bsearch fuel m reverse extents EXTENT_SIZE (λ e, cmp_map_id (MkKey true id 1) (extent_of e)).

Definition map_id_up (fuel : nat) (m : mem) (map : uid_gid_map) (id : Z) : outcome Z :=
  extent ←
    (if nr_extents map <=? UID_GID_MAP_MAX_BASE_EXTENTS then
       l ← base_extents map; Ok (map_id_up_base l id)
     else match arrays map with
       | Base _ => Panic
       | Sorted _ reverse =>
           p ← map_id_up_max fuel m (nr_extents map) reverse id;
           Ok (if p =? NULL then None else Some (load_extent m p))
       end);
  Ok match extent with
     | Some e => u32 (u32 (id - lower_first e) + first e)
     | None => INVALID_ID
     end.

(** ** Namespaces *)

Definition USERNS_SETGROUPS_ALLOWED : Z := 1.

Record user_namespace := MkNs {
  uid_map : uid_gid_map; gid_map : uid_gid_map; projid_map : uid_gid_map;
  owner : Z; flags : Z;
}.

Section Ids.
Context (fuel : nat) (m : mem) (overflowuid overflowgid : Z).

Definition make_kuid (ns : user_namespace) (uid : Z) : outcome Z := map_id_down fuel m (uid_map ns) uid.
Definition from_kuid (targ : user_namespace) (kuid : Z) : outcome Z := map_id_up fuel m (uid_map targ) kuid.
Definition from_kuid_munged (targ : user_namespace) (kuid : Z) : outcome Z :=
  uid ← from_kuid targ kuid; Ok (if uid =? INVALID_ID then overflowuid else uid).

Definition make_kgid (ns : user_namespace) (gid : Z) : outcome Z := map_id_down fuel m (gid_map ns) gid.
Definition from_kgid (targ : user_namespace) (kgid : Z) : outcome Z := map_id_up fuel m (gid_map targ) kgid.
Definition from_kgid_munged (targ : user_namespace) (kgid : Z) : outcome Z :=
  gid ← from_kgid targ kgid; Ok (if gid =? INVALID_ID then overflowgid else gid).

Definition OVERFLOW_PROJID : Z := 65534.
Definition make_kprojid (ns : user_namespace) (projid : Z) : outcome Z :=
  map_id_down fuel m (projid_map ns) projid.
Definition from_kprojid (targ : user_namespace) (kprojid : Z) : outcome Z :=
  map_id_up fuel m (projid_map targ) kprojid.
Definition from_kprojid_munged (targ : user_namespace) (kprojid : Z) : outcome Z :=
  projid ← from_kprojid targ kprojid; Ok (if projid =? INVALID_ID then OVERFLOW_PROJID else projid).

Definition kuid_has_mapping (ns : user_namespace) (uid : Z) : outcome bool :=
  u ← from_kuid ns uid; Ok (negb (u =? INVALID_ID)).
Definition kgid_has_mapping (ns : user_namespace) (gid : Z) : outcome bool :=
  g ← from_kgid ns gid; Ok (negb (g =? INVALID_ID)).

End Ids.

(** ** Building a map *)

(** The extents of a map under construction, where they are. *)
Definition map_extents (m : mem) (map : uid_gid_map) : list uid_gid_extent :=
  match arrays map with
  | Base l => take (Z.to_nat (nr_extents map)) l
  | Sorted forward _ => List.map (λ i, load_extent m (forward + i * EXTENT_SIZE)) (seqZ 0 (nr_extents map))
  end.

Fixpoint overlap_loop (prevs : list uid_gid_extent) (extent : uid_gid_extent) : bool :=
  match prevs with
  | [] => false
  | prev :: prevs =>
      let upper_last := u32 (first extent + count extent - 1) in
      let lower_last := u32 (lower_first extent + count extent - 1) in
      let prev_upper_last := u32 (first prev + count prev - 1) in
      let prev_lower_last := u32 (lower_first prev + count prev - 1) in
      if (first prev <=? upper_last) && (first extent <=? prev_upper_last) then true
      else if (lower_first prev <=? lower_last) && (lower_first extent <=? prev_lower_last) then true
      else overlap_loop prevs extent
  end.

Definition mappings_overlap (m : mem) (new_map : uid_gid_map) (extent : uid_gid_extent) : bool :=
  overlap_loop (map_extents m new_map) extent.

(** Copying the extents in the map to the new array. *)
Fixpoint copy_extents (m : mem) (dest : Z) (l : list uid_gid_extent) : mem :=
  match l with
  | [] => m
  | e :: l => copy_extents (store_extent m dest e) (dest + EXTENT_SIZE) l
  end.

(** [forward] is what [kmalloc_array] returns. The result is the error, or the
    memory and the map. *)
Definition insert_extent (m : mem) (map : uid_gid_map) (extent : uid_gid_extent) (forward : Z) :
    outcome (Z + mem * uid_gid_map) :=
  grown ←
    (if nr_extents map =? UID_GID_MAP_MAX_BASE_EXTENTS then
       if forward =? NULL then Ok (inl (- ENOMEM))
       else match arrays map with
         | Base l => Ok (inr (copy_extents m forward (take (Z.to_nat (nr_extents map)) l),
                              MkMap (nr_extents map) (Sorted forward NULL)))
         | Sorted _ _ => Panic
         end
     else Ok (inr (m, map)));
  match grown with
  | inl err => Ok (inl err)
  | inr (m, map) =>
      if nr_extents map <? UID_GID_MAP_MAX_BASE_EXTENTS then
        match arrays map with
        | Base l => Ok (inr (m, MkMap (nr_extents map + 1)
                                  (Base (take (Z.to_nat (nr_extents map)) l ++ [extent]))))
        | Sorted _ _ => Panic
        end
      else
        match arrays map with
        | Sorted fwd rev =>
            Ok (inr (store_extent m (fwd + nr_extents map * EXTENT_SIZE) extent,
                     MkMap (nr_extents map + 1) (Sorted fwd rev)))
        | Base _ => Panic
        end
  end.

Definition cmp_extents_forward (a b : list Z) : Z :=
  let e1 := extent_of a in let e2 := extent_of b in
  if first e1 <? first e2 then -1 else if first e2 <? first e1 then 1 else 0.

Definition cmp_extents_reverse (a b : list Z) : Z :=
  let e1 := extent_of a in let e2 := extent_of b in
  if lower_first e1 <? lower_first e2 then -1 else if lower_first e2 <? lower_first e1 then 1 else 0.

(** [reverse] is what [kmemdup] allocates. The memory, and the error or the
    map. *)
Definition sort_idmaps (fuel : nat) (m : mem) (map : uid_gid_map) (reverse : Z) :
    outcome (mem * (Z + uid_gid_map)) :=
  if nr_extents map <=? UID_GID_MAP_MAX_BASE_EXTENTS then Ok (m, inr map)
  else match arrays map with
  | Base _ => Panic
  | Sorted forward _ =>
      m ← sort fuel m forward (nr_extents map) EXTENT_SIZE cmp_extents_forward None;
      if reverse =? NULL then Ok (m, inl (- ENOMEM))
      else
        let m := memcpy (Z.to_nat (nr_extents map * EXTENT_SIZE)) m reverse forward in
        m ← sort fuel m reverse (nr_extents map) EXTENT_SIZE cmp_extents_reverse None;
        Ok (m, inr (MkMap (nr_extents map) (Sorted forward reverse)))
  end.

(** ** Parsing *)

Fixpoint skip_spaces (s : list Z) : list Z :=
  match s with c :: s' => if isspace c then skip_spaces s' else s | [] => [] end.

(** The value, and the string after the digits. *)
Definition simple_strtoull (cp : list Z) (base : Z) : Z * list Z :=
  let '(cp, base) := _parse_integer_fixup_radix cp base in
  let '(result, rv) := _parse_integer cp base in
  (result, drop (Z.to_nat (Z.land rv (u32 (Z.lnot KSTRTOX_OVERFLOW)))) cp).

Definition simple_strtoul (cp : list Z) (base : Z) : Z * list Z := simple_strtoull cp base.

(** [strchr (pos, '\n')], which cuts the line: the line, and what follows it
    when that is not the end of the text. *)
Fixpoint cut_line (s : list Z) : list Z * option (list Z) :=
  match s with
  | [] => ([], None)
  | c :: s =>
      if c =? 10 then ([], match s with [] => None | _ => Some s end)
      else let '(line, next_line) := cut_line s in (c :: line, next_line)
  end.

(** The three numbers of a line and the checks on them; [None] is
    [goto out]. *)
Definition parse_extent (pos : list Z) : option uid_gid_extent :=
  let '(v, pos) := simple_strtoul (skip_spaces pos) 10 in
  let first := u32 v in
  if negb (isspace (char_at pos 0)) then None else
  let '(v, pos) := simple_strtoul (skip_spaces pos) 10 in
  let lower_first := u32 v in
  if negb (isspace (char_at pos 0)) then None else
  let '(v, pos) := simple_strtoul (skip_spaces pos) 10 in
  let count := u32 v in
  if negb (char_at pos 0 =? 0) && negb (isspace (char_at pos 0)) then None else
  let pos := skip_spaces pos in
  if negb (char_at pos 0 =? 0) then None
  else if (first =? INVALID_ID) || (lower_first =? INVALID_ID) then None
  else if u32 (first + count) <=? first then None
  else if u32 (lower_first + count) <=? lower_first then None
  else Some (MkExtent first lower_first count).

(** The loop over the lines: the error with the map so far, or the map. *)
Fixpoint parse_loop (fuel : nat) (m : mem) (new_map : uid_gid_map) (pos : list Z) (forward : Z) :
    outcome (mem * uid_gid_map * option Z) :=
  match fuel with
  | O => Fuel
  | S fuel =>
      let '(line, next_line) := cut_line pos in
      match parse_extent line with
      | None => Ok (m, new_map, Some (- EINVAL))
      | Some extent =>
          if mappings_overlap m new_map extent then Ok (m, new_map, Some (- EINVAL))
          else if (nr_extents new_map + 1 =? UID_GID_MAP_MAX_EXTENTS) && bool_decide (is_Some next_line)
          then Ok (m, new_map, Some (- EINVAL))
          else
            r ← insert_extent m new_map extent forward;
            match r with
            | inl err => Ok (m, new_map, Some err)
            | inr (m, new_map) =>
                match next_line with
                | None => Ok (m, new_map, None)
                | Some pos => parse_loop fuel m new_map pos forward
                end
            end
      end
  end.

(** ** Installing a map *)

Definition CAP_SETGID : Z := 6.
Definition CAP_SETUID : Z := 7.
Definition CAP_LAST_CAP : Z := 40.
Definition cap_valid (x : Z) : bool := (0 <=? x) && (x <=? CAP_LAST_CAP).

(** What the credentials and the capability checks say about the writer. *)
Record writer := MkWriter {
  euid : Z; egid : Z;
  ns_admin : bool;            (* file_ns_capable (file, ns, CAP_SYS_ADMIN) *)
  parent_capable : bool;      (* ns_capable (ns->parent, cap_setid) *)
  parent_file_capable : bool; (* file_ns_capable (file, ns->parent, cap_setid) *)
}.

Definition new_idmap_permitted (fuel : nat) (m : mem) (w : writer) (ns parent : user_namespace)
    (cap_setid : Z) (new_map : uid_gid_map) : outcome bool :=
  own ←
    (if nr_extents new_map =? 1 then
       l ← base_extents new_map;
       match l with
       | [] => Panic
       | e :: _ =>
           if (count e =? 1) && (owner ns =? euid w) then
             if cap_setid =? CAP_SETUID then
               uid ← make_kuid fuel m parent (lower_first e); Ok (uid =? euid w)
             else if cap_setid =? CAP_SETGID then
               gid ← make_kgid fuel m parent (lower_first e);
               Ok ((Z.land (flags ns) USERNS_SETGROUPS_ALLOWED =? 0) && (gid =? egid w))
             else Ok false
           else Ok false
       end
     else Ok false);
  Ok (if (own : bool) then true
      else if negb (cap_valid cap_setid) then true
      else parent_capable w && parent_file_capable w).

(** Translating the lower ids of the extents in the map, or in the array. *)
Fixpoint lower_base (fuel : nat) (m : mem) (parent_map : uid_gid_map) (l : list uid_gid_extent) :
    outcome (option (list uid_gid_extent)) :=
  match l with
  | [] => Ok (Some [])
  | e :: l =>
      low ← map_id_range_down fuel m parent_map (lower_first e) (count e);
      if low =? INVALID_ID then Ok None
      else
        r ← lower_base fuel m parent_map l;
        Ok (match r with Some l => Some (MkExtent (first e) low (count e) :: l) | None => None end)
  end.

Fixpoint lower_array (fuel : nat) (m : mem) (parent_map : uid_gid_map) (p : Z) (n : nat) :
    outcome (mem * bool) :=
  match n with
  | O => Ok (m, true)
  | S n =>
      let e := load_extent m p in
      low ← map_id_range_down fuel m parent_map (lower_first e) (count e);
      if low =? INVALID_ID then Ok (m, false)
      else lower_array fuel (write32 m (p + 4) low) parent_map (p + EXTENT_SIZE) n
  end.

Definition lower_ids (fuel : nat) (m : mem) (parent_map new_map : uid_gid_map) :
    outcome (mem * option uid_gid_map) :=
  if nr_extents new_map <=? UID_GID_MAP_MAX_BASE_EXTENTS then
    l ← base_extents new_map;
    r ← lower_base fuel m parent_map l;
    Ok (m, match r with Some l => Some (MkMap (nr_extents new_map) (Base l)) | None => None end)
  else match arrays new_map with
  | Base _ => Panic
  | Sorted forward _ =>
      '(m, ok) ← lower_array fuel m parent_map forward (Z.to_nat (nr_extents new_map));
      Ok (m, if ok : bool then Some new_map else None)
  end.

(** [out]: what a failed write leaves in the map. *)
Definition map_out (map new_map : uid_gid_map) : uid_gid_map :=
  if UID_GID_MAP_MAX_BASE_EXTENTS <? nr_extents new_map then MkMap 0 (Sorted NULL NULL) else map.

(** [map_write]: [kbuf] is the text up to its first NUL or the error of
    [memdup_user_nul]; [size] the number of bytes written. Returns the memory,
    the map and the result. *)
Definition map_write (fuel : nat) (m : mem) (w : writer) (kbuf : Z + list Z) (size ppos : Z)
    (cap_setid : Z) (ns parent : user_namespace) (map parent_map : uid_gid_map) (forward reverse : Z) :
    outcome (mem * uid_gid_map * Z) :=
  if negb (ppos =? 0) || (PAGE_SIZE <=? size) then Ok (m, map, - EINVAL)
  else match kbuf with
  | inl err => Ok (m, map, err)
  | inr text =>
      if negb (nr_extents map =? 0) then Ok (m, map, - EPERM)
      else if cap_valid cap_setid && negb (ns_admin w) then Ok (m, map, - EPERM)
      else
        '(m, new_map, err) ← parse_loop fuel m empty_map text forward;
        match err with
        | Some ret => Ok (m, map_out map new_map, ret)
        | None =>
            if nr_extents new_map =? 0 then Ok (m, map_out map new_map, - EINVAL)
            else
              permitted ← new_idmap_permitted fuel m w ns parent cap_setid new_map;
              if negb permitted then Ok (m, map_out map new_map, - EPERM)
              else
                '(m, lowered) ← lower_ids fuel m parent_map new_map;
                match lowered with
                | None => Ok (m, map_out map new_map, - EPERM)
                | Some new_map =>
                    '(m, r) ← sort_idmaps fuel m new_map reverse;
                    match r with
                    | inl ret => Ok (m, map_out map new_map, ret)
                    | inr new_map => Ok (m, new_map, size)
                    end
                end
        end
  end.

(** ** The proc files

    [seq_ns] is the namespace of the opener of the file, [ns_id] the namespace
    of the file, [parent] its parent, if it has one. *)
Definition proc_uid_map_write (fuel : nat) (m : mem) (w : writer) (kbuf : Z + list Z) (size ppos : Z)
    (seq_ns ns_id : Z) (ns : user_namespace) (parent : option (Z * user_namespace)) (forward reverse : Z) :
    outcome (mem * uid_gid_map * Z) :=
  match parent with
  | None => Ok (m, uid_map ns, - EPERM)
  | Some (parent_id, parent) =>
      if negb (seq_ns =? ns_id) && negb (seq_ns =? parent_id) then Ok (m, uid_map ns, - EPERM)
      else map_write fuel m w kbuf size ppos CAP_SETUID ns parent (uid_map ns) (uid_map parent) forward reverse
  end.

Definition proc_gid_map_write (fuel : nat) (m : mem) (w : writer) (kbuf : Z + list Z) (size ppos : Z)
    (seq_ns ns_id : Z) (ns : user_namespace) (parent : option (Z * user_namespace)) (forward reverse : Z) :
    outcome (mem * uid_gid_map * Z) :=
  match parent with
  | None => Ok (m, gid_map ns, - EPERM)
  | Some (parent_id, parent) =>
      if negb (seq_ns =? ns_id) && negb (seq_ns =? parent_id) then Ok (m, gid_map ns, - EPERM)
      else map_write fuel m w kbuf size ppos CAP_SETGID ns parent (gid_map ns) (gid_map parent) forward reverse
  end.

Definition proc_projid_map_write (fuel : nat) (m : mem) (w : writer) (kbuf : Z + list Z) (size ppos : Z)
    (seq_ns ns_id : Z) (ns : user_namespace) (parent : option (Z * user_namespace)) (forward reverse : Z) :
    outcome (mem * uid_gid_map * Z) :=
  match parent with
  | None => Ok (m, projid_map ns, - EPERM)
  | Some (parent_id, parent) =>
      if negb (seq_ns =? ns_id) && negb (seq_ns =? parent_id) then Ok (m, projid_map ns, - EPERM)
      else map_write fuel m w kbuf size ppos (-1) ns parent (projid_map ns) (projid_map parent) forward reverse
  end.

(** ** setgroups *)

(** [strncmp (pos, lit, strlen (lit)) == 0] *)
Definition starts_with (lit s : list Z) : bool := bool_decide (take (length lit) s = lit).

(** [kbuf] is what was written, up to its first NUL, or the failure of
    [copy_from_user]. *)
Definition proc_setgroups_write (ns : user_namespace) (kbuf : option (list Z)) (size ppos : Z) :
    user_namespace * Z :=
  if negb (ppos =? 0) || (8 <=? size) then (ns, - EINVAL)
  else match kbuf with
  | None => (ns, - 14)
  | Some pos =>
      let parsed :=
        if starts_with [97; 108; 108; 111; 119] pos then Some (drop 5 pos, true)
        else if starts_with [100; 101; 110; 121] pos then Some (drop 4 pos, false)
        else None in
      match parsed with
      | None => (ns, - EINVAL)
      | Some (pos, setgroups_allowed) =>
          if negb (char_at (skip_spaces pos) 0 =? 0) then (ns, - EINVAL)
          else if (setgroups_allowed : bool) then
            if Z.land (flags ns) USERNS_SETGROUPS_ALLOWED =? 0 then (ns, - EPERM) else (ns, size)
          else if negb (nr_extents (gid_map ns) =? 0) then (ns, - EPERM)
          else (MkNs (uid_map ns) (gid_map ns) (projid_map ns) (owner ns)
                  (Z.land (flags ns) (u64 (Z.lnot USERNS_SETGROUPS_ALLOWED))), size)
      end
  end.

Definition userns_may_setgroups (ns : user_namespace) : bool :=
  negb (nr_extents (gid_map ns) =? 0) && negb (Z.land (flags ns) USERNS_SETGROUPS_ALLOWED =? 0).

End IdMap.
