(* ===== verification/IdMapSpec.v ===== *)
(** * Correctness of the id maps

    A map represents a list of extents, pairwise disjoint on both sides; the
    searches of both layouts compute the relation the extents stand for, which
    is a partial injection, and [map_write] (IdMapWrite.v) builds such maps. *)

From stdpp Require Import base numbers list option.
From Stdlib Require Import ZArith Lia.
From S2P Require Import Prelude Strings StringsSpec Sort SortHeap SortSpec Kstrtox IdMap.
Import Strings Sort IdMap.

Open Scope Z_scope.

(** ** Words in memory *)

Lemma read32_ext m m' a a' :
  (∀ k, 0 ≤ k < 4 → m (a + k) = m' (a' + k)) → read32 m a = read32 m' a'.
Proof.
  intros H. unfold read32. rewrite <- (Z.add_0_r a), <- (Z.add_0_r a') at 1.
  rewrite !H by lia. rewrite !Z.add_0_r. done.
Qed.

Lemma read32_range m a : byte_mem m → 0 ≤ read32 m a < 2 ^ 32.
Proof.
  intros Hm. unfold read32.
  pose proof (Hm a). pose proof (Hm (a + 1)). pose proof (Hm (a + 2)). pose proof (Hm (a + 3)). lia.
Qed.

Lemma write32_spec m a w x :
  write32 m a w x = if decide (a ≤ x < a + 4) then byte_of w (x - a) else m x.
Proof. apply write_bytes_spec. Qed.

Lemma write32_bytes m a w : byte_mem m → byte_mem (write32 m a w).
Proof.
  intros Hm x. rewrite write32_spec. case_decide; [|apply Hm].
  rewrite byte_of_spec by lia. apply Z.mod_pos_bound. lia.
Qed.

Lemma read32_write32 m a w : 0 ≤ w < 2 ^ 32 → read32 (write32 m a w) a = w.
Proof.
  intros Hw. destruct (word_surj 4 w Hw) as (l & Hl & Hn & ->).
  rewrite read32_word. f_equal. apply list_eq. intros i. unfold loadn.
  rewrite list_lookup_fmap. destruct (decide (i < 4)%nat) as [Hi|Hi].
  - rewrite lookup_seq_lt by lia. cbn [fmap option_fmap option_map plus].
    rewrite write32_spec, decide_True by lia. replace (a + Z.of_nat i - a) with (Z.of_nat i) by lia.
    rewrite byte_of_word by done. destruct (lookup_lt_is_Some_2 l i) as [b Hb]; [lia|]. by rewrite Hb.
  - rewrite lookup_seq_ge by lia. symmetry. apply lookup_ge_None_2. lia.
Qed.

Lemma read32_write32_other m a b w : apart a 4 b 4 → read32 (write32 m a w) b = read32 m b.
Proof.
  intros Hab. unfold apart in Hab. apply read32_ext. intros k Hk.
  rewrite write32_spec, decide_False by lia. done.
Qed.

(** ** Extents in memory *)

Definition words_extent (e : uid_gid_extent) : Prop :=
  0 ≤ first e < 2 ^ 32 ∧ 0 ≤ lower_first e < 2 ^ 32 ∧ 0 ≤ count e < 2 ^ 32.

Lemma load_extent_ext m m' p p' :
  (∀ k, 0 ≤ k < 12 → m (p + k) = m' (p' + k)) → load_extent m p = load_extent m' p'.
Proof.
  intros H. unfold load_extent. f_equal; apply read32_ext; intros k Hk;
    rewrite <- ?Z.add_assoc; apply H; lia.
Qed.

Lemma extent_of_elem base m i :
  extent_of (elem base EXTENT_SIZE m i) = load_extent m (base + i * EXTENT_SIZE).
Proof.
  unfold extent_of, elem, load_elem. apply load_extent_ext. intros k Hk. rewrite Z.add_0_l.
  rewrite fmap_seqZ_lookup. rewrite decide_True by (unfold EXTENT_SIZE; lia). cbn. f_equal. lia.
Qed.

Lemma load_extent_words m p : byte_mem m → words_extent (load_extent m p).
Proof. intros Hm. split_and!; cbn; by apply read32_range. Qed.

Lemma load_store_extent m p e : words_extent e → load_extent (store_extent m p e) p = e.
Proof.
  intros (H1 & H2 & H3). destruct e as [f l c]. unfold load_extent, store_extent. cbn [first lower_first count] in *.
  f_equal; repeat (rewrite read32_write32_other by (unfold apart; lia)); by apply read32_write32.
Qed.

Lemma store_extent_other m p e x : x < p ∨ p + EXTENT_SIZE ≤ x → store_extent m p e x = m x.
Proof.
  unfold EXTENT_SIZE. intros Hx. unfold store_extent.
  rewrite !write32_spec, !decide_False by lia. done.
Qed.

Lemma store_extent_bytes m p e : byte_mem m → byte_mem (store_extent m p e).
Proof. intros Hm. by do 3 apply write32_bytes. Qed.

(** ** The relation a list of extents stands for *)

Definition extent_ok (e : uid_gid_extent) : Prop :=
  0 ≤ first e ∧ 0 ≤ lower_first e ∧ 0 < count e ∧
  first e + count e < 2 ^ 32 ∧ lower_first e + count e < 2 ^ 32.

Definition disjoint_ids (e1 e2 : uid_gid_extent) : Prop :=
  (first e1 + count e1 ≤ first e2 ∨ first e2 + count e2 ≤ first e1) ∧
  (lower_first e1 + count e1 ≤ lower_first e2 ∨ lower_first e2 + count e2 ≤ lower_first e1).

Definition extents_ok (es : list uid_gid_extent) : Prop :=
  (∀ e, e ∈ es → extent_ok e) ∧ (∀ e1 e2, e1 ∈ es → e2 ∈ es → e1 = e2 ∨ disjoint_ids e1 e2).

#[export] Instance extents_ok_proper : Proper (Permutation ==> iff) extents_ok.
Proof.
  intros l l' Hp. unfold extents_ok. split; intros [H1 H2]; split; intros.
  - apply H1. by rewrite Hp.
  - apply H2; by rewrite Hp.
  - apply H1. by rewrite <- Hp.
  - apply H2; by rewrite <- Hp.
Qed.

(** [id] of the namespace is the kernel id [kid]. *)
Definition mapped (es : list uid_gid_extent) (id kid : Z) : Prop :=
  ∃ e, e ∈ es ∧ first e ≤ id < first e + count e ∧ kid = lower_first e + (id - first e).

(** The ids [id, id + n) lie in one extent and are mapped from [kid] on. *)
Definition mapped_range (es : list uid_gid_extent) (id n kid : Z) : Prop :=
  ∃ e, e ∈ es ∧ first e ≤ id ∧ id + n ≤ first e + count e ∧ kid = lower_first e + (id - first e).

Lemma mapped_inj_down es id k1 k2 : extents_ok es → mapped es id k1 → mapped es id k2 → k1 = k2.
Proof.
  intros [_ Hd] (e1 & H1 & Hr1 & ->) (e2 & H2 & Hr2 & ->).
  destruct (Hd e1 e2 H1 H2) as [->|[Hu _]]; [done|lia].
Qed.

Lemma mapped_inj_up es i1 i2 kid : extents_ok es → mapped es i1 kid → mapped es i2 kid → i1 = i2.
Proof.
  intros [_ Hd] (e1 & H1 & Hr1 & E1) (e2 & H2 & Hr2 & E2).
  destruct (Hd e1 e2 H1 H2) as [->|[_ Hl]]; lia.
Qed.

Lemma mapped_range_one es id kid : mapped_range es id 1 kid ↔ mapped es id kid.
Proof.
  split; intros (e & He & Hr); exists e; (split; [done|]); lia.
Qed.

(** ** The two layouts *)

Definition array_extents (m : mem) (p n : Z) : list uid_gid_extent :=
  map (λ i, load_extent m (p + i * EXTENT_SIZE)) (seqZ 0 n).

Definition sorted_by (key : uid_gid_extent → Z) (m : mem) (p n : Z) : Prop :=
  ∀ i j, 0 ≤ i ≤ j → j < n →
    key (load_extent m (p + i * EXTENT_SIZE)) ≤ key (load_extent m (p + j * EXTENT_SIZE)).

(** [map] represents [es] in the memory [m]. *)
Definition map_rep (m : mem) (map : uid_gid_map) (es : list uid_gid_extent) : Prop :=
  nr_extents map = Z.of_nat (length es) ∧
  (if nr_extents map <=? UID_GID_MAP_MAX_BASE_EXTENTS
   then ∃ l, arrays map = Base l ∧ take (length es) l = es
   else ∃ forward reverse, arrays map = Sorted forward reverse ∧ 0 < forward ∧ 0 < reverse ∧
     Permutation es (array_extents m forward (nr_extents map)) ∧
     sorted_by first m forward (nr_extents map) ∧
     Permutation es (array_extents m reverse (nr_extents map)) ∧
     sorted_by lower_first m reverse (nr_extents map)).

Lemma elem_of_array m p n e :
  e ∈ array_extents m p n ↔ ∃ i, 0 ≤ i < n ∧ e = load_extent m (p + i * EXTENT_SIZE).
Proof.
  unfold array_extents. change (map ?f) with (fmap (M := list) f). rewrite list_elem_of_fmap. split.
  - intros (i & -> & Hi%elem_of_seqZ). exists i. split; [lia|done].
  - intros (i & Hi & ->). exists i. split; [done|]. apply elem_of_seqZ. lia.
Qed.

Lemma last_u32 x n : 0 ≤ x → 0 < n → x + n < 2 ^ 32 → u32 (x + n - 1) = x + n - 1.
Proof. intros. apply u32_id. lia. Qed.

(** The extent contains the whole range, on the side [lo] looks at. *)
Lemma cmp_map_id_spec up id n e :
  let lo := if up : bool then lower_first e else first e in
  extent_ok e → 0 ≤ id → 0 < n → id + n ≤ 2 ^ 32 →
  let c := cmp_map_id (MkKey up id n) e in
  (lo ≤ id ∧ id + n ≤ lo + count e ∧ c = 0) ∨
  (¬ (lo ≤ id ∧ id + n ≤ lo + count e) ∧ lo ≤ id ∧ c = 1) ∨ (id < lo ∧ c = -1).
Proof.
  intros lo (Hf & Hl & Hc & Hfc & Hlc) Hid Hn Hb. unfold cmp_map_id. cbn [key_id key_count map_up].
  rewrite (u32_id (id + n - 1)) by lia. fold lo.
  assert (0 ≤ lo ∧ lo + count e < 2 ^ 32) as [? ?] by (unfold lo; destruct up; lia).
  rewrite last_u32 by lia.
  destruct (Z.leb_spec lo id), (Z.leb_spec id (lo + count e - 1)), (Z.leb_spec lo (id + n - 1)),
    (Z.leb_spec (id + n - 1) (lo + count e - 1)), (Z.ltb_spec id lo), (Z.ltb_spec (id + n - 1) lo);
    cbn [andb orb]; lia.
Qed.

(** A sorted array of disjoint extents is in the order the search needs. *)
Lemma extents_key_sorted up es m p n id k :
  let key := if up : bool then lower_first else first in
  extents_ok es → Permutation es (array_extents m p n) → sorted_by key m p n →
  0 ≤ id → 0 < k → id + k ≤ 2 ^ 32 →
  key_sorted p n EXTENT_SIZE m (λ e, cmp_map_id (MkKey up id k) (extent_of e)).
Proof.
  intros key [Hok Hd] Hp Hs Hid Hk Hb i j Hi Hj. rewrite !extent_of_elem.
  set (e1 := load_extent m (p + i * EXTENT_SIZE)). set (e2 := load_extent m (p + j * EXTENT_SIZE)).
  assert (e1 ∈ es) as H1 by (rewrite Hp; apply elem_of_array; exists i; split; [lia|done]).
  assert (e2 ∈ es) as H2 by (rewrite Hp; apply elem_of_array; exists j; split; [lia|done]).
  pose proof (Hs i j Hi Hj) as Hle. fold e1 e2 in Hle.
  pose proof (cmp_map_id_spec up id k e1 (Hok _ H1) Hid Hk Hb) as C1.
  pose proof (cmp_map_id_spec up id k e2 (Hok _ H2) Hid Hk Hb) as C2.
  destruct (Hd e1 e2 H1 H2) as [E|[Hu Hl]]; [rewrite E; tauto|].
  pose proof (Hok _ H1) as (? & ? & ? & ?). pose proof (Hok _ H2) as (? & ? & ? & ?).
  unfold key in Hle. destruct up; cbn in *; lia.
Qed.

(** ** Down *)

Lemma range_down_base_spec id k : ∀ es,
  (∀ e, e ∈ es → extent_ok e) → 0 ≤ id → 0 < k → id + k ≤ 2 ^ 32 →
  match map_id_range_down_base es id (u32 (id + k - 1)) with
  | Some e => e ∈ es ∧ first e ≤ id ∧ id + k ≤ first e + count e
  | None => ∀ e, e ∈ es → ¬ (first e ≤ id ∧ id + k ≤ first e + count e)
  end.
Proof.
  intros es Hok Hid Hk Hb. rewrite u32_id by lia.
  induction es as [|e es IH]; cbn [map_id_range_down_base]; [by intros e He%elem_of_nil|].
  destruct (Hok e) as (Hf & Hl & Hc & Hfc & Hlc); [by left|]. rewrite last_u32 by lia.
  destruct (Z.leb_spec (first e) id), (Z.leb_spec id (first e + count e - 1)),
    (Z.leb_spec (first e) (id + k - 1)), (Z.leb_spec (id + k - 1) (first e + count e - 1)); cbn [andb];
    try (split; [by left|lia]);
    (specialize (IH (λ e' H, Hok e' (list_elem_of_further _ _ _ H)));
     destruct (map_id_range_down_base es id (id + k - 1)) as [e'|];
     [destruct IH as [? ?]; split; [by right|done]
     |intros e' He'; apply elem_of_cons in He' as [->|He']; [lia|by apply IH]]).
Qed.

Lemma range_down_find m map es fuel id k :
  map_rep m map es → extents_ok es → Z.of_nat (length es) < Z.of_nat fuel →
  0 ≤ id → 0 < k → id + k ≤ 2 ^ 32 →
  ∃ r, map_id_range_down fuel m map id k = Ok r ∧
    ((mapped_range es id k r ∧ r ≠ INVALID_ID) ∨
     (r = INVALID_ID ∧ ∀ kid, ¬ mapped_range es id k kid)).
Proof.
  intros [Hn Hrep] Hok Hf Hid Hk Hb. unfold map_id_range_down.
  assert (∀ e, e ∈ es → first e ≤ id → id + k ≤ first e + count e →
    u32 (u32 (id - first e) + lower_first e) = lower_first e + (id - first e) ∧
    lower_first e + (id - first e) ≠ INVALID_ID) as Hval.
  { intros e He H1 H2. destruct (proj1 Hok e He) as (? & ? & ? & ? & ?).
    rewrite (u32_id (id - first e)), u32_id by lia. unfold INVALID_ID. lia. }
  destruct (Z.leb_spec (nr_extents map) UID_GID_MAP_MAX_BASE_EXTENTS).
  - destruct Hrep as (l & El & Hl). unfold base_extents. rewrite El, Hn, Nat2Z.id, Hl.
    cbn [mbind outcome_bind]. pose proof (range_down_base_spec id k es (proj1 Hok) Hid Hk Hb) as HB.
    destruct (map_id_range_down_base es id (u32 (id + k - 1))) as [e|]; eexists; (split; [done|]).
    + destruct HB as (He & H1 & H2). destruct (Hval e He H1 H2) as [-> ?]. left. split; [|done]. by exists e.
    + right. split; [done|]. intros kid (e & He & H1 & H2 & _). by apply (HB e He).
  - destruct Hrep as (fw & rv & -> & Hfw & _ & Hp & Hs & _).
    destruct (bsearch_spec fw (nr_extents map) EXTENT_SIZE m
                (λ e, cmp_map_id (MkKey false id k) (extent_of e)) fuel) as (p & Hbs & Hres).
    { by apply (extents_key_sorted false es). } { done. } { done. } { lia. }
    unfold map_id_range_down_max. rewrite Hbs. cbn [mbind outcome_bind]. eexists. split; [done|].
    assert (∀ i, 0 ≤ i < nr_extents map → load_extent m (fw + i * EXTENT_SIZE) ∈ es) as Hin.
    { intros i Hi. rewrite Hp. apply elem_of_array. by exists i. }
    destruct Hres as [(i & Hi & -> & Hc)|[-> Hnone]].
    + rewrite extent_of_elem in Hc. set (e := load_extent m (fw + i * EXTENT_SIZE)) in *.
      destruct (Z.eqb_spec (fw + i * EXTENT_SIZE) NULL) as [E|_]; [unfold EXTENT_SIZE, NULL in E; lia|].
      destruct (cmp_map_id_spec false id k e (proj1 Hok e (Hin i Hi)) Hid Hk Hb) as [(H1 & H2 & _)|[|]]; [|lia..].
      destruct (Hval e (Hin i Hi) H1 H2) as [-> ?]. left. split; [|done]. exists e. by split; [apply Hin|].
    + right. split; [done|]. intros kid (e & He & H1 & H2 & _). pose proof He as He'.
      rewrite Hp in He'. apply elem_of_array in He' as (i & Hi & ->).
      apply (Hnone i Hi). rewrite extent_of_elem.
      destruct (cmp_map_id_spec false id k _ (proj1 Hok _ He) Hid Hk Hb) as [(_ & _ & E)|[(Hno & _)|(Hlt & _)]];
        [done|exfalso; by apply Hno|lia].
Qed.

(** ** Up *)

Lemma up_base_spec id : ∀ es,
  (∀ e, e ∈ es → extent_ok e) → 0 ≤ id →
  match map_id_up_base es id with
  | Some e => e ∈ es ∧ lower_first e ≤ id < lower_first e + count e
  | None => ∀ e, e ∈ es → ¬ (lower_first e ≤ id < lower_first e + count e)
  end.
Proof.
  intros es Hok Hid. induction es as [|e es IH]; cbn [map_id_up_base]; [by intros e He%elem_of_nil|].
  destruct (Hok e) as (Hf & Hl & Hc & Hfc & Hlc); [by left|]. rewrite last_u32 by lia.
  destruct (Z.leb_spec (lower_first e) id), (Z.leb_spec id (lower_first e + count e - 1)); cbn [andb];
    try (split; [by left|lia]);
    (specialize (IH (λ e' H, Hok e' (list_elem_of_further _ _ _ H)));
     destruct (map_id_up_base es id) as [e'|];
     [destruct IH as [? ?]; split; [by right|done]
     |intros e' He'; apply elem_of_cons in He' as [->|He']; [lia|by apply IH]]).
Qed.

Lemma up_find m map es fuel id :
  map_rep m map es → extents_ok es → Z.of_nat (length es) < Z.of_nat fuel → 0 ≤ id < 2 ^ 32 →
  ∃ r, map_id_up fuel m map id = Ok r ∧
    ((mapped es r id ∧ r ≠ INVALID_ID) ∨ (r = INVALID_ID ∧ ∀ i, ¬ mapped es i id)).
Proof.
  intros [Hn Hrep] Hok Hf Hid. unfold map_id_up.
  assert (∀ e, e ∈ es → lower_first e ≤ id < lower_first e + count e →
    let r := u32 (u32 (id - lower_first e) + first e) in mapped es r id ∧ r ≠ INVALID_ID) as Hval.
  { intros e He H1. destruct (proj1 Hok e He) as (? & ? & ? & ? & ?). cbn zeta.
    rewrite (u32_id (id - lower_first e)), u32_id by lia. unfold INVALID_ID.
    split; [|lia]. exists e. split; [done|]. lia. }
  destruct (Z.leb_spec (nr_extents map) UID_GID_MAP_MAX_BASE_EXTENTS).
  - destruct Hrep as (l & El & Hl). unfold base_extents. rewrite El, Hn, Nat2Z.id, Hl.
    cbn [mbind outcome_bind]. pose proof (up_base_spec id es (proj1 Hok) ltac:(lia)) as HB.
    destruct (map_id_up_base es id) as [e|]; eexists; (split; [done|]).
    + left. destruct HB as [He H1]. by apply Hval.
    + right. split; [done|]. intros i (e & He & H1 & E). apply (HB e He). lia.
  - destruct Hrep as (fw & rv & -> & _ & Hrv & _ & _ & Hp & Hs).
    destruct (bsearch_spec rv (nr_extents map) EXTENT_SIZE m
                (λ e, cmp_map_id (MkKey true id 1) (extent_of e)) fuel) as (p & Hbs & Hres).
    { apply (extents_key_sorted true es); (done || lia). } { done. } { done. } { lia. }
    unfold map_id_up_max. rewrite Hbs. cbn [mbind outcome_bind]. eexists. split; [done|].
    assert (∀ i, 0 ≤ i < nr_extents map → load_extent m (rv + i * EXTENT_SIZE) ∈ es) as Hin.
    { intros i Hi. rewrite Hp. apply elem_of_array. by exists i. }
    destruct Hres as [(i & Hi & -> & Hc)|[-> Hnone]].
    + rewrite extent_of_elem in Hc. set (e := load_extent m (rv + i * EXTENT_SIZE)) in *.
      destruct (Z.eqb_spec (rv + i * EXTENT_SIZE) NULL) as [E|_]; [unfold EXTENT_SIZE, NULL in E; lia|].
      destruct (cmp_map_id_spec true id 1 e (proj1 Hok e (Hin i Hi))) as [(H1 & H2 & _)|[|]]; [lia..| |lia|lia].
      left. apply Hval; [by apply Hin|lia].
    + right. split; [done|]. intros j (e & He & H1 & E). pose proof He as He'.
      rewrite Hp in He'. apply elem_of_array in He' as (i & Hi & ->).
      apply (Hnone i Hi). rewrite extent_of_elem.
      destruct (cmp_map_id_spec true id 1 _ (proj1 Hok _ He)) as [(_ & _ & E')|[(Hno & _)|(Hlt & _)]];
        [lia..|done|exfalso; apply Hno; lia|lia].
Qed.

(** On a map that represents disjoint extents, held in place or in sorted
    arrays, [map_id_down] returns the kernel id of an id of the namespace,
    [map_id_up] the id of a kernel id, and [(u32) -1] exactly when there is
    none; [map_id_range_down] does so for a range that has to lie in one
    extent. The two directions undo each other. *)
Theorem id_map_correct (m : mem) (map : uid_gid_map) (es : list uid_gid_extent) (fuel : nat) (id k : Z) :
  map_rep m map es → extents_ok es → Z.of_nat (length es) < Z.of_nat fuel →
  0 ≤ id → 0 < k → id + k ≤ 2 ^ 32 →
  (∃ r, map_id_range_down fuel m map id k = Ok r ∧
     ((mapped_range es id k r ∧ r ≠ INVALID_ID) ∨ (r = INVALID_ID ∧ ∀ kid, ¬ mapped_range es id k kid))) ∧
  (∃ kid, map_id_down fuel m map id = Ok kid ∧
     ((mapped es id kid ∧ kid ≠ INVALID_ID ∧ map_id_up fuel m map kid = Ok id) ∨
      (kid = INVALID_ID ∧ ∀ x, ¬ mapped es id x))) ∧
  (∃ i, map_id_up fuel m map id = Ok i ∧
     ((mapped es i id ∧ i ≠ INVALID_ID ∧ map_id_down fuel m map i = Ok id) ∨
      (i = INVALID_ID ∧ ∀ x, ¬ mapped es x id))).
Proof.
  intros Hrep Hok Hf Hid Hk Hb.
  assert (∀ i kid, mapped es i kid → 0 ≤ i < 2 ^ 32 ∧ 0 ≤ kid < 2 ^ 32) as Hrange.
  { intros i kid (e & He & Hr & ->). destruct (proj1 Hok e He) as (? & ? & ? & ? & ?). lia. }
  assert (∀ i, 0 ≤ i < 2 ^ 32 → ∃ r, map_id_down fuel m map i = Ok r ∧
    ((mapped es i r ∧ r ≠ INVALID_ID) ∨ (r = INVALID_ID ∧ ∀ x, ¬ mapped es i x))) as Hdown.
  { intros i Hi. destruct (range_down_find m map es fuel i 1 Hrep Hok Hf) as (r & E & Hr); [lia..|].
    exists r. split; [done|]. rewrite mapped_range_one in Hr. destruct Hr as [Hr|[-> Hr]]; [by left|right].
    split; [done|]. intros x Hx. apply (Hr x). by apply mapped_range_one. }
  split; [by apply range_down_find|]. split.
  - destruct (Hdown id ltac:(lia)) as (r & E & Hr). exists r. split; [done|].
    destruct Hr as [[Hm Hi]|Hr]; [left|by right]. split; [done|]. split; [done|].
    destruct (up_find m map es fuel r Hrep Hok Hf) as (i & -> & [[Hm' _]|[_ Hno]]); [by destruct (Hrange _ _ Hm)| |by destruct (Hno id)].
    by rewrite (mapped_inj_up es i id r Hok Hm' Hm).
  - destruct (up_find m map es fuel id Hrep Hok Hf) as (i & E & Hr); [lia|]. exists i. split; [done|].
    destruct Hr as [[Hm Hi]|Hr]; [left|by right]. split; [done|]. split; [done|].
    destruct (Hdown i) as (kid & -> & [[Hm' _]|[_ Hno]]); [by destruct (Hrange _ _ Hm)| |by destruct (Hno id)].
    by rewrite (mapped_inj_down es i kid id Hok Hm' Hm).
Qed.

Definition demo_extents : list uid_gid_extent := [MkExtent 0 100000 1000; MkExtent 5000 7 3].

Lemma id_map_correct_witness :
  map_id_down 3 (λ _, 0) (MkMap 2 (Base demo_extents)) 5001 = Ok 8 ∧
  map_id_up 3 (λ _, 0) (MkMap 2 (Base demo_extents)) 8 = Ok 5001.
Proof.
  destruct (id_map_correct (λ _, 0) (MkMap 2 (Base demo_extents)) demo_extents 3 5001 1)
    as (_ & (kid & E & [(_ & _ & Hup)|[-> Hno]]) & _).
  - split; [done|]. cbn. by exists demo_extents.
  - split.
    + intros e He. apply list_elem_of_In in He. cbn in He. destruct He as [<-|[<-|[]]]; unfold extent_ok; cbn; lia.
    + intros e1 e2 H1 H2. apply list_elem_of_In in H1, H2. cbn in H1, H2. unfold disjoint_ids.
      destruct H1 as [<-|[<-|[]]], H2 as [<-|[<-|[]]]; cbn; (by left) || (right; lia).
  - cbn. lia.
  - lia.
  - lia.
  - lia.
  - assert (kid = 8) as -> by (vm_compute in E; congruence). done.
  - exfalso. vm_compute in E. congruence.
Defined.
