(* ===== verification/IdMapWrite.v ===== *)
(** * Writing an id map

    What a write to /proc/<pid>/uid_map does: the lines of the text become
    extents, the extents are translated through the map of the parent, and the
    map that is installed is the composition of the two. *)

From stdpp Require Import base numbers list option.
From Stdlib Require Import ZArith Lia.
From S2P Require Import Prelude Strings StringsSpec Sort SortHeap SortSpec Kstrtox IdMap IdMapSpec.
Import Strings Sort IdMap.

Open Scope Z_scope.

(** ** Frames *)

(** The memory blocks of an allocation of 340 extents. *)
Definition BLOCK : Z := 4080.

(** The arrays of a map lie outside the [len] bytes, or the block, at [p]. *)
Definition map_outside (map : uid_gid_map) (p len : Z) : Prop :=
  match arrays map with
  | Base _ => True
  | Sorted f r => apart f (nr_extents map * EXTENT_SIZE) p len ∧ apart r (nr_extents map * EXTENT_SIZE) p len
  end.

Definition map_apart (map : uid_gid_map) (p : Z) : Prop := map_outside map p BLOCK.

Lemma array_extents_ext m m' p p' n :
  (∀ k, 0 ≤ k < n * EXTENT_SIZE → m (p + k) = m' (p' + k)) → array_extents m p n = array_extents m' p' n.
Proof.
  intros H. unfold array_extents. apply list_eq. intros i. rewrite !fmap_seqZ_lookup.
  case_decide; [|done]. f_equal. apply load_extent_ext. intros k Hk. unfold EXTENT_SIZE in *.
  rewrite <- !Z.add_assoc. apply H. lia.
Qed.

Lemma array_lookup m p n i :
  0 ≤ i < n → array_extents m p n !! Z.to_nat i = Some (load_extent m (p + i * EXTENT_SIZE)).
Proof. intros Hi. unfold array_extents. rewrite fmap_seqZ_lookup, decide_True by lia. by rewrite Z2Nat.id by lia. Qed.

Lemma length_array m p n : 0 ≤ n → length (array_extents m p n) = Z.to_nat n.
Proof. intros. unfold array_extents. rewrite length_map, length_seqZ. done. Qed.

(** Sortedness is a property of the list of extents. *)
Lemma sorted_by_lookup key m p n :
  sorted_by key m p n ↔
  ∀ i j x y, (i ≤ j)%nat → array_extents m p n !! i = Some x → array_extents m p n !! j = Some y → key x ≤ key y.
Proof.
  split.
  - intros Hs i j x y Hij Hx Hy. unfold array_extents in Hx, Hy. rewrite fmap_seqZ_lookup in Hx, Hy.
    case_decide; [|done]. case_decide; [|done]. simplify_eq. apply Hs; lia.
  - intros H i j Hi Hj. apply (H (Z.to_nat i) (Z.to_nat j)); [lia|apply array_lookup; lia..].
Qed.

Lemma map_rep_outside m m' map es p len :
  map_outside map p len → same_outside m m' p len → map_rep m map es → map_rep m' map es.
Proof.
  intros Ha Hs [Hn Hrep]. split; [done|]. destruct (nr_extents map <=? UID_GID_MAP_MAX_BASE_EXTENTS); [done|].
  destruct Hrep as (f & r & E & Hf & Hr & H1 & H2 & H3 & H4). exists f, r.
  unfold map_outside in Ha. rewrite E in Ha. destruct Ha as [Haf Har].
  assert (∀ q, apart q (nr_extents map * EXTENT_SIZE) p len →
    array_extents m' q (nr_extents map) = array_extents m q (nr_extents map)) as Heq.
  { intros q Hq. apply array_extents_ext. intros k Hk. apply Hs. unfold apart in Hq. lia. }
  rewrite sorted_by_lookup in H2, H4. rewrite !sorted_by_lookup.
  rewrite !Heq by done. done.
Qed.

Lemma map_rep_frame m m' map es p :
  map_apart map p → same_outside m m' p BLOCK → map_rep m map es → map_rep m' map es.
Proof. apply map_rep_outside. Qed.

Lemma map_rep_frame2 m m' map es p q :
  map_apart map p → map_apart map q →
  (∀ x, ¬ (p ≤ x < p + BLOCK) → ¬ (q ≤ x < q + BLOCK) → m' x = m x) →
  map_rep m map es → map_rep m' map es.
Proof.
  intros Hp Hq Ho Hrep. set (mid := (λ x, if decide (p ≤ x < p + BLOCK) then m' x else m x) : mem).
  apply (map_rep_frame mid m' map es q Hq); [|apply (map_rep_frame m mid map es p Hp); [|done]]; intros x Hx; unfold mid.
  - case_decide; [done|]. by apply Ho.
  - by rewrite decide_False.
Qed.

(** ** Overlaps *)

Lemma overlap_loop_spec e : extent_ok e → ∀ prevs,
  (∀ p, p ∈ prevs → extent_ok p) →
  overlap_loop prevs e = false → ∀ p, p ∈ prevs → disjoint_ids p e.
Proof.
  intros (Hf & Hl & Hc & Hfc & Hlc). induction prevs as [|p prevs IH]; intros Hok Hov q Hq; [by apply elem_of_nil in Hq|].
  destruct (Hok p) as (? & ? & ? & ? & ?); [by left|]. cbn [overlap_loop] in Hov.
  rewrite !last_u32 in Hov by lia.
  destruct (Z.leb_spec (first p) (first e + count e - 1)), (Z.leb_spec (first e) (first p + count p - 1)); cbn [andb] in Hov; try done;
  destruct (Z.leb_spec (lower_first p) (lower_first e + count e - 1)), (Z.leb_spec (lower_first e) (lower_first p + count p - 1)); cbn [andb] in Hov; try done;
  (apply elem_of_cons in Hq as [->|Hq]; [unfold disjoint_ids; lia|]);
  (apply IH; [intros p' Hp'; apply Hok; by right|done|done]).
Qed.

Lemma overlap_loop_true e : extent_ok e → ∀ prevs,
  (∀ p, p ∈ prevs → extent_ok p) → overlap_loop prevs e = true → ∃ p, p ∈ prevs ∧ ¬ disjoint_ids p e.
Proof.
  intros (? & ? & ? & ? & ?). induction prevs as [|p prevs IH]; intros Hok Hov; [done|].
  destruct (Hok p) as (? & ? & ? & ? & ?); [by left|]. cbn [overlap_loop] in Hov. rewrite !last_u32 in Hov by lia.
  destruct (_ && _) eqn:E1 in Hov; [exists p; split; [by left|unfold disjoint_ids; lia]|].
  destruct (_ && _) eqn:E2 in Hov; [exists p; split; [by left|unfold disjoint_ids; lia]|].
  destruct IH as (q & Hq & Hn); [intros q Hq; apply Hok; by right|done|]. exists q. split; [by right|done].
Qed.

Lemma disjoint_ids_sym e1 e2 : disjoint_ids e1 e2 → disjoint_ids e2 e1.
Proof. unfold disjoint_ids. lia. Qed.

Lemma extents_ok_snoc es e :
  extents_ok es → extent_ok e → overlap_loop es e = false → extents_ok (es ++ [e]).
Proof.
  intros [Hok Hd] He Hov. pose proof (overlap_loop_spec e He es Hok Hov) as Hdis. split.
  - intros x [Hx|Hx%list_elem_of_singleton]%elem_of_app; [by apply Hok|by subst].
  - intros x y [Hx|Hx%list_elem_of_singleton]%elem_of_app [Hy|Hy%list_elem_of_singleton]%elem_of_app; subst.
    + by apply Hd.
    + right. by apply Hdis.
    + right. by apply disjoint_ids_sym, Hdis.
    + by left.
Qed.

Lemma parse_extent_ok line e : parse_extent line = Some e → extent_ok e.
Proof.
  unfold parse_extent.
  destruct (simple_strtoul (skip_spaces line) 10) as [v1 p1]. case_match; [done|].
  destruct (simple_strtoul (skip_spaces p1) 10) as [v2 p2]. case_match; [done|].
  destruct (simple_strtoul (skip_spaces p2) 10) as [v3 p3]. case_match; [done|].
  case_match; [done|]. case_match; [done|].
  pose proof (u32_range v1). pose proof (u32_range v2). pose proof (u32_range v3).
  assert (∀ x c, 0 ≤ x < 2 ^ 32 → 0 ≤ c < 2 ^ 32 → (u32 (x + c) <=? x) = false → 0 < c ∧ x + c < 2 ^ 32) as Hw.
  { intros x c Hx Hc Hle%Z.leb_gt. destruct (decide (x + c < 2 ^ 32)); [rewrite u32_id in Hle; lia|].
    unfold u32 in Hle. replace (x + c) with (x + c - 2 ^ 32 + 1 * 2 ^ 32) in Hle by lia.
    rewrite Z.mod_add, Z.mod_small in Hle by lia. lia. }
  destruct (u32 (u32 v1 + u32 v3) <=? u32 v1) eqn:E1; [done|].
  destruct (u32 (u32 v2 + u32 v3) <=? u32 v2) eqn:E2; [done|]. intros [= <-].
  apply Hw in E1; [|done..]. apply Hw in E2; [|done..]. unfold extent_ok. cbn [first lower_first count]. lia.
Qed.

(** ** The map under construction *)

(** [new_map] holds [es], in place or in the block at [fw]. *)
Definition building (m : mem) (new_map : uid_gid_map) (fw : Z) (es : list uid_gid_extent) : Prop :=
  nr_extents new_map = Z.of_nat (length es) ∧
  (if nr_extents new_map <=? UID_GID_MAP_MAX_BASE_EXTENTS then arrays new_map = Base es
   else arrays new_map = Sorted fw NULL ∧ array_extents m fw (nr_extents new_map) = es ∧ 0 < fw).

Lemma building_extents m map fw es : building m map fw es → map_extents m map = es.
Proof.
  intros [Hn Hb]. unfold map_extents.
  destruct (nr_extents map <=? UID_GID_MAP_MAX_BASE_EXTENTS).
  - rewrite Hb, Hn, Nat2Z.id. apply take_ge. lia.
  - by destruct Hb as (-> & Hb & _).
Qed.

Lemma array_extents_snoc m p n :
  0 ≤ n → array_extents m p (n + 1) = array_extents m p n ++ [load_extent m (p + n * EXTENT_SIZE)].
Proof.
  intros Hn. apply list_eq. intros i. unfold array_extents. rewrite lookup_app, !fmap_seqZ_lookup.
  repeat case_decide; try lia; try done.
  - rewrite length_map, length_seqZ. assert (Z.of_nat i = n) as <- by lia.
    replace (i - Z.to_nat (Z.of_nat i))%nat with 0%nat by lia. done.
  - rewrite length_map, length_seqZ. destruct (i - Z.to_nat n)%nat eqn:E; [lia|done].
Qed.

Lemma array_extents_cons m p n :
  array_extents m p (Z.of_nat (S n)) = load_extent m p :: array_extents m (p + EXTENT_SIZE) (Z.of_nat n).
Proof.
  apply list_eq. intros [|k].
  - change ((_ :: _) !! 0%nat) with (Some (load_extent m p)).
    unfold array_extents. rewrite fmap_seqZ_lookup, decide_True by lia. f_equal. f_equal. lia.
  - change ((_ :: ?l) !! S k) with (l !! k). unfold array_extents. rewrite !fmap_seqZ_lookup.
    repeat case_decide; try lia; [|done]. f_equal. f_equal. lia.
Qed.

Lemma array_extents_store m p n e q :
  words_extent e → 0 ≤ n → q = p + n * EXTENT_SIZE →
  array_extents (store_extent m q e) p (n + 1) = array_extents m p n ++ [e].
Proof.
  intros He Hn ->. rewrite array_extents_snoc, load_store_extent by done. f_equal.
  apply array_extents_ext. intros k Hk. apply store_extent_other. unfold EXTENT_SIZE in *. lia.
Qed.

(** A store inside the block keeps the rest. *)
Lemma store_outside m p n e fw :
  0 ≤ n < UID_GID_MAP_MAX_EXTENTS → p = fw + n * EXTENT_SIZE → same_outside m (store_extent m p e) fw BLOCK.
Proof.
  intros Hn -> x Hx. unfold UID_GID_MAP_MAX_EXTENTS, EXTENT_SIZE, BLOCK in *. apply store_extent_other.
  unfold EXTENT_SIZE. lia.
Qed.

Lemma same_outside_trans m1 m2 m3 p n :
  same_outside m1 m2 p n → same_outside m2 m3 p n → same_outside m1 m3 p n.
Proof. intros H1 H2 x Hx. by rewrite H2, H1. Qed.

Lemma copy_extents_spec fw : ∀ l m n,
  Forall words_extent l → 0 ≤ n → n + Z.of_nat (length l) ≤ UID_GID_MAP_MAX_EXTENTS → byte_mem m →
  let m' := copy_extents m (fw + n * EXTENT_SIZE) l in
  array_extents m' fw (n + Z.of_nat (length l)) = array_extents m fw n ++ l ∧
  same_outside m m' fw BLOCK ∧ byte_mem m'.
Proof.
  induction l as [|e l IH]; intros m n Hw Hn Hmax Hb; cbn [copy_extents].
  { rewrite Z.add_0_r, app_nil_r. done. }
  apply list.Forall_cons in Hw as [He Hl]. cbn [length] in Hmax |- *.
  destruct (IH (store_extent m (fw + n * EXTENT_SIZE) e) (n + 1)) as (E & Ho & Hb');
    [done|lia|lia|by apply store_extent_bytes|].
  replace (fw + (n + 1) * EXTENT_SIZE) with (fw + n * EXTENT_SIZE + EXTENT_SIZE) in E, Ho, Hb' by ring.
  split_and!; [|eapply same_outside_trans; [|exact Ho]|done].
  - replace (n + Z.of_nat (S (length l))) with (n + 1 + Z.of_nat (length l)) by lia.
    rewrite E, array_extents_store by done. by rewrite <- app_assoc.
  - apply (store_outside _ _ n); [lia|done].
Qed.

Lemma extent_ok_words e : extent_ok e → words_extent e.
Proof. unfold extent_ok, words_extent. lia. Qed.

Lemma insert_extent_spec m map fw es e :
  building m map fw es → extents_ok es → extent_ok e → byte_mem m → 0 ≤ fw →
  Z.of_nat (length es) < UID_GID_MAP_MAX_EXTENTS →
  ∃ r, insert_extent m map e fw = Ok r ∧
    match r with
    | inl err => err = - ENOMEM ∧ fw = NULL
    | inr (m', map') => building m' map' fw (es ++ [e]) ∧ same_outside m m' fw BLOCK ∧ byte_mem m'
    end.
Proof.
  intros [Hn Hb] [Hok _] He Hm Hfw Hmax. unfold insert_extent, UID_GID_MAP_MAX_BASE_EXTENTS in *.
  assert (length (es ++ [e]) = S (length es)) as Hlen by (rewrite length_app; cbn; lia).
  destruct (Z.eqb_spec (nr_extents map) 5) as [E5|E5].
  - destruct (Z.leb_spec (nr_extents map) 5); [|lia].
    destruct (Z.eqb_spec fw NULL) as [E0|Hfw0].
    { eexists. split; [done|]. by split. }
    rewrite Hb. cbn [mbind outcome_bind nr_extents arrays].
    destruct (Z.ltb_spec (nr_extents map) 5); [lia|]. eexists. split; [done|].
    rewrite Hn, Nat2Z.id, take_ge by lia.
    destruct (copy_extents_spec fw es m 0) as (E & Ho & Hb'); [|lia|lia|done|].
    { apply list.Forall_forall. intros x Hx. by apply extent_ok_words, Hok. }
    rewrite Z.mul_0_l, Z.add_0_r, Z.add_0_l in *. cbn [app] in E.
    split; [split|].
    + cbn [nr_extents]. lia.
    + cbn [nr_extents arrays]. unfold UID_GID_MAP_MAX_BASE_EXTENTS. destruct (Z.leb_spec (Z.of_nat (length es) + 1) 5); [lia|]. split; [done|].
      split; [|unfold NULL in *; lia].
      rewrite array_extents_store by (lia || done || by apply extent_ok_words). by rewrite E.
    + split; [|by apply store_extent_bytes].
      eapply same_outside_trans; [exact Ho|]. apply (store_outside _ _ (Z.of_nat (length es))); [lia|done].
  - cbn [mbind outcome_bind]. destruct (Z.ltb_spec (nr_extents map) 5).
    + destruct (Z.leb_spec (nr_extents map) 5); [|lia]. rewrite Hb. eexists. split; [done|].
      rewrite Hn, Nat2Z.id, take_ge by lia. split; [split|done].
      * cbn [nr_extents]. lia.
      * cbn [nr_extents arrays]. unfold UID_GID_MAP_MAX_BASE_EXTENTS. destruct (Z.leb_spec (Z.of_nat (length es) + 1) 5); [done|lia].
    + destruct (Z.leb_spec (nr_extents map) 5); [lia|]. destruct Hb as (-> & Hb & Hfw0). eexists. split; [done|].
      split; [split|].
      * cbn [nr_extents]. lia.
      * cbn [nr_extents arrays]. unfold UID_GID_MAP_MAX_BASE_EXTENTS. destruct (Z.leb_spec (nr_extents map + 1) 5); [lia|]. split; [done|].
        split; [|done]. rewrite array_extents_store by (lia || done || by apply extent_ok_words). by rewrite Hb.
      * split; [apply (store_outside _ _ (nr_extents map)); [lia|done]|by apply store_extent_bytes].
Qed.

(** ** The lines of the text *)

Fixpoint lines_of (n : nat) (s : list Z) : list (list Z) :=
  match n with
  | O => []
  | S n => let '(line, next) := cut_line s in
           line :: match next with Some s => lines_of n s | None => [] end
  end.

(** The extents the text spells out. *)
Definition spells (text : list Z) (es : list uid_gid_extent) : Prop :=
  Forall2 (λ line e, parse_extent line = Some e) (lines_of (S (length text)) text) es.

Lemma spells_unique text es es' : spells text es → spells text es' → es = es'.
Proof.
  unfold spells. generalize (lines_of (S (length text)) text). intros ls H. revert es'.
  induction H as [|line e ls es Hl _ IH]; intros es' H'; inversion H'; subst; [done|]. f_equal; [congruence|by apply IH].
Qed.

(** A list of extents a map can hold. *)
Definition acceptable (es : list uid_gid_extent) : Prop :=
  NoDup es ∧ extents_ok es ∧ Z.of_nat (length es) ≤ UID_GID_MAP_MAX_EXTENTS.

Lemma cut_line_shorter s line rest : cut_line s = (line, Some rest) → (length rest < length s)%nat.
Proof.
  revert line. induction s as [|c s IH]; intros line; cbn [cut_line]; [done|].
  destruct (c =? 10).
  - destruct s; [done|]. intros [= <- <-]. cbn. lia.
  - destruct (cut_line s) as [l nx]. intros [= <- ->]. specialize (IH l eq_refl). cbn. lia.
Qed.

Lemma lines_of_fuel : ∀ n k s, (length s < n)%nat → (length s < k)%nat → lines_of n s = lines_of k s.
Proof.
  induction n as [|n IH]; intros k s Hn Hk; [lia|]. destruct k as [|k]; [lia|]. cbn [lines_of].
  destruct (cut_line s) as [line [rest|]] eqn:E; [|done].
  apply cut_line_shorter in E. f_equal. apply IH; lia.
Qed.

(** The line is refused: nothing has changed. *)
Ltac parse_fails := eexists _, _, (Some _); split; [done|split; [done|split; [by intros x _|split; [done|]]]].

(** What follows the first line. *)
Lemma spells_cut pos line next es :
  cut_line pos = (line, next) → spells pos es →
  ∃ e es', es = e :: es' ∧ parse_extent line = Some e ∧
    match next with Some rest => spells rest es' | None => es' = [] end.
Proof.
  intros Ecut Hsp. unfold spells in Hsp. cbn [lines_of] in Hsp. rewrite Ecut in Hsp.
  apply Forall2_cons_inv_l in Hsp as (e & es' & He & Hsp & ->). exists e, es'. split; [done|]. split; [done|].
  destruct next as [rest|]; [|by apply Forall2_nil_inv_l in Hsp]. apply cut_line_shorter in Ecut.
  unfold spells. by rewrite (lines_of_fuel _ (length pos)) by lia.
Qed.

Lemma not_acceptable_overlap es e es' :
  extents_ok es → extent_ok e → overlap_loop es e = true → ¬ acceptable (es ++ e :: es').
Proof.
  intros Hok He Hov ((_ & Hdup & _)%list.NoDup_app & [_ Hd] & _).
  destruct (overlap_loop_true e He es (proj1 Hok) Hov) as (p & Hp & Hn).
  destruct (Hd p e) as [->|?]; [apply elem_of_app; by left|apply elem_of_app; right; by left| |done]. apply (Hdup e Hp). by left.
Qed.

Lemma parse_lines_spec fw : 0 ≤ fw → ∀ fuel m map es pos,
  building m map fw es → extents_ok es → byte_mem m →
  Z.of_nat (length es) < UID_GID_MAP_MAX_EXTENTS → (length pos < fuel)%nat →
  ∃ m' map' err, parse_loop fuel m map pos fw = Ok (m', map', err) ∧
    byte_mem m' ∧ same_outside m m' fw BLOCK ∧
    match err with
    | Some ret => ret < 0 ∧ (fw = NULL ∨ ∀ es', spells pos es' → ¬ acceptable (es ++ es'))
    | None => ∃ es', building m' map' fw (es ++ es') ∧ extents_ok (es ++ es') ∧
                Z.of_nat (length (es ++ es')) ≤ UID_GID_MAP_MAX_EXTENTS ∧ es' ≠ [] ∧ spells pos es'
    end.
Proof.
  intros Hfw. induction fuel as [|fuel IH]; intros m map es pos Hb Hok Hm Hmax Hf; [lia|]. cbn [parse_loop].
  destruct (cut_line pos) as [line next] eqn:Ecut.
  destruct (parse_extent line) as [e|] eqn:Epe.
  2:{ parse_fails. right. intros es' (e & ? & _ & He & _)%(spells_cut _ _ _ _ Ecut). congruence. }
  pose proof (parse_extent_ok _ _ Epe) as He. unfold mappings_overlap. rewrite (building_extents m map fw es Hb).
  assert (∀ es', spells pos es' → ∃ es1, es' = e :: es1 ∧
    match next with Some rest => spells rest es1 | None => es1 = [] end) as Hcut.
  { intros es' (e' & es1 & -> & He' & Hr)%(spells_cut _ _ _ _ Ecut). exists es1. split; [congruence|done]. }
  destruct (overlap_loop es e) eqn:Eov.
  { parse_fails. right. intros es' (es1 & -> & _)%Hcut. by apply not_acceptable_overlap. }
  destruct ((nr_extents map + 1 =? UID_GID_MAP_MAX_EXTENTS) && bool_decide (is_Some next)) eqn:Elast.
  { parse_fails. right. intros es' (es1 & -> & Hr)%Hcut (_ & _ & Hlen).
    apply andb_true_iff in Elast as [En%Z.eqb_eq [rest ->]%bool_decide_eq_true].
    destruct (spells_cut rest (cut_line rest).1 (cut_line rest).2 es1) as (? & ? & -> & _);
      [by destruct (cut_line rest)|done|]. destruct Hb as [Hn _]. rewrite length_app in Hlen. cbn in Hlen. lia. }
  destruct (insert_extent_spec m map fw es e Hb Hok He Hm Hfw Hmax) as (r & -> & Hr). cbn [mbind outcome_bind].
  destruct r as [err|[m1 map1]].
  { destruct Hr as [-> Hr]. parse_fails. by left. }
  destruct Hr as (Hb1 & Ho1 & Hm1). pose proof (extents_ok_snoc es e Hok He Eov) as Hok1.
  assert (Z.of_nat (length (es ++ [e])) ≤ UID_GID_MAP_MAX_EXTENTS) as Hlen1 by (rewrite length_app; cbn; lia).
  assert (∀ rest, next = Some rest → (length rest < length pos)%nat) as Hshort.
  { intros rest ->. by apply cut_line_shorter in Ecut. }
  destruct next as [rest|].
  - specialize (Hshort rest eq_refl).
    destruct (IH m1 map1 (es ++ [e]) rest) as (m' & map' & err & -> & Hm' & Ho' & Herr); [done|done|done| |lia|].
    { rewrite bool_decide_true, andb_true_r in Elast by done. apply Z.eqb_neq in Elast.
      destruct Hb as [Hn _]. rewrite length_app in Hlen1 |- *. cbn in Hlen1 |- *. lia. }
    exists m', map', err. split; [done|]. split; [done|]. split; [by eapply same_outside_trans|].
    destruct err as [ret|].
    { destruct Herr as [Hret [?|Hno]]; (split; [done|]); [by left|right]. intros es' (es1 & -> & Hr)%Hcut.
      rewrite (app_assoc es [e] es1 : es ++ e :: es1 = _). by apply Hno. }
    destruct Herr as (es' & H1 & H2 & H3 & H4 & H5). exists (e :: es').
    rewrite <- app_assoc in H1, H2, H3. split_and!; [done..|].
    unfold spells. cbn [lines_of]. rewrite Ecut. constructor; [done|].
    rewrite (lines_of_fuel (length pos) (S (length rest))) by lia. done.
  - exists m1, map1, None. split; [done|]. split; [done|]. split; [done|]. exists [e].
    split_and!; [done..|]. unfold spells. cbn [lines_of]. rewrite Ecut. by repeat constructor.
Qed.

(** ** Translating through the parent *)

(** [e'] is [e] with its lower ids seen through [pes]. *)
Definition lowered (pes : list uid_gid_extent) (e e' : uid_gid_extent) : Prop :=
  first e' = first e ∧ count e' = count e ∧ mapped_range pes (lower_first e) (count e) (lower_first e').

Lemma mapped_range_disjoint pes a n b k x y :
  extents_ok pes → 0 < n → 0 < k → mapped_range pes a n x → mapped_range pes b k y →
  a + n ≤ b ∨ b + k ≤ a → x + n ≤ y ∨ y + k ≤ x.
Proof.
  intros [_ Hd] Hn Hk (e1 & H1 & Ha & Han & ->) (e2 & H2 & Hb & Hbk & ->) Hab.
  destruct (Hd e1 e2 H1 H2) as [->|[Hu Hl]]; lia.
Qed.

Lemma lowered_ok pes es es' :
  extents_ok pes → extents_ok es → Forall2 (lowered pes) es es' → extents_ok es'.
Proof.
  intros Hp [Hok Hd] HF.
  assert (∀ e', e' ∈ es' → ∃ e, e ∈ es ∧ lowered pes e e') as Hback.
  { intros e' [i Hi]%list_elem_of_lookup. destruct (Forall2_lookup_r _ _ _ _ _ HF Hi) as (e & He & Hl).
    exists e. split; [by eapply list_elem_of_lookup_2|done]. }
  split.
  - intros e' He'. destruct (Hback e' He') as (e & He & Hf & Hc & (q & Hq & H1 & H2 & E)).
    destruct (Hok e He) as (? & ? & ? & ? & ?). destruct (proj1 Hp q Hq) as (? & ? & ? & ? & ?).
    unfold extent_ok. rewrite Hf, Hc. lia.
  - intros x' y' Hx' Hy'. destruct (Hback x' Hx') as (x & Hx & Hfx & Hcx & Hmx).
    destruct (Hback y' Hy') as (y & Hy & Hfy & Hcy & Hmy).
    destruct (Hok x Hx) as (? & ? & ? & ? & ?). destruct (Hok y Hy) as (? & ? & ? & ? & ?).
    destruct (Hd x y Hx Hy) as [->|[Hu Hl]].
    + left. destruct x' as [fx lx cx], y' as [fy ly cy]. cbn in *. subst. f_equal.
      apply (mapped_inj_down pes (lower_first y)); [done|..].
      * destruct Hmx as (q & Hq & ? & ? & ?). exists q. split; [done|lia].
      * destruct Hmy as (q & Hq & ? & ? & ?). exists q. split; [done|lia].
    + right. unfold disjoint_ids. rewrite Hfx, Hfy, Hcx, Hcy. split; [done|].
      by apply (mapped_range_disjoint pes (lower_first x) _ (lower_first y) (count y)).
Qed.

(** The map of the result is the composition. *)
Lemma lowered_compose pes es es' id kid :
  extents_ok pes → (∀ e, e ∈ es → extent_ok e) → Forall2 (lowered pes) es es' →
  mapped es' id kid ↔ ∃ mid, mapped es id mid ∧ mapped pes mid kid.
Proof.
  intros Hp Hok HF. split.
  - intros (e' & [i Hi]%list_elem_of_lookup & Hr & ->).
    destruct (Forall2_lookup_r _ _ _ _ _ HF Hi) as (e & He & Hf & Hc & (q & Hq & H1 & H2 & E)).
    exists (lower_first e + (id - first e)). split.
    + exists e. split; [by eapply list_elem_of_lookup_2|lia].
    + exists q. split; [done|lia].
  - intros (mid & (e & [i Hi]%list_elem_of_lookup & Hr & ->) & Hm).
    destruct (Forall2_lookup_l _ _ _ _ _ HF Hi) as (e' & He' & Hf & Hc & Hmr).
    exists e'. split; [by eapply list_elem_of_lookup_2|]. rewrite Hf, Hc. split; [done|].
    destruct Hmr as (q & Hq & H1 & H2 & E).
    apply (mapped_inj_down pes (lower_first e + (id - first e))); [done|done|].
    exists q. split; [done|lia].
Qed.

Section Lower.
Context (fuel : nat) (pmap : uid_gid_map) (pes : list uid_gid_extent).
Hypothesis pes_ok : extents_ok pes.
Hypothesis pes_fuel : Z.of_nat (length pes) < Z.of_nat fuel.

(** No extent of the parent holds the range of [e]. *)
Definition unmapped (e : uid_gid_extent) : Prop := ∀ kid, ¬ mapped_range pes (lower_first e) (count e) kid.

Lemma range_down_extent m e :
  map_rep m pmap pes → extent_ok e →
  ∃ low, map_id_range_down fuel m pmap (lower_first e) (count e) = Ok low ∧
    ((mapped_range pes (lower_first e) (count e) low ∧ low ≠ INVALID_ID) ∨ (low = INVALID_ID ∧ unmapped e)).
Proof.
  intros Hrep (? & ? & ? & ? & ?).
  destruct (range_down_find m pmap pes fuel (lower_first e) (count e) Hrep pes_ok pes_fuel) as (r & -> & Hr); [lia..|].
  by exists r.
Qed.

Lemma lower_base_spec m : map_rep m pmap pes → ∀ es, (∀ e, e ∈ es → extent_ok e) →
  ∃ r, lower_base fuel m pmap es = Ok r ∧
    match r with Some es' => Forall2 (lowered pes) es es' | None => ∃ e, e ∈ es ∧ unmapped e end.
Proof.
  intros Hrep. induction es as [|e es IH]; intros Hok; cbn [lower_base].
  { eexists. split; [done|]. constructor. }
  destruct (range_down_extent m e Hrep) as (low & -> & Hlow); [apply Hok; by left|]. cbn [mbind outcome_bind].
  destruct (Z.eqb_spec low INVALID_ID) as [->|Hne].
  { exists None. split; [done|]. exists e. split; [by left|]. by destruct Hlow as [[_ ?]|[_ ?]]. }
  destruct IH as (r & -> & Hr); [intros e' He'; apply Hok; by right|]. cbn [mbind outcome_bind].
  eexists. split; [done|]. destruct r as [es'|].
  - constructor; [|done]. destruct Hlow as [[Hlow _]|[? _]]; [|done]. split_and!; done.
  - destruct Hr as (x & Hx & Hu). exists x. split; [by right|done].
Qed.

Lemma load_lower m p low :
  0 ≤ low < 2 ^ 32 →
  load_extent (write32 m (p + 4) low) p = MkExtent (first (load_extent m p)) low (count (load_extent m p)).
Proof.
  intros Hl. unfold load_extent. cbn [first count].
  rewrite read32_write32, !read32_write32_other by (done || unfold apart; lia). done.
Qed.

Lemma lower_array_spec fw : map_apart pmap fw → ∀ n m i es,
  map_rep m pmap pes → byte_mem m → 0 ≤ i → i + Z.of_nat n ≤ UID_GID_MAP_MAX_EXTENTS →
  (∀ e, e ∈ es → extent_ok e) → array_extents m (fw + i * EXTENT_SIZE) (Z.of_nat n) = es →
  ∃ m' ok, lower_array fuel m pmap (fw + i * EXTENT_SIZE) n = Ok (m', ok) ∧ byte_mem m' ∧
    same_outside m m' fw BLOCK ∧ (∀ x, x < fw + i * EXTENT_SIZE → m' x = m x) ∧
    (if ok then Forall2 (lowered pes) es (array_extents m' (fw + i * EXTENT_SIZE) (Z.of_nat n))
     else ∃ e, e ∈ es ∧ unmapped e).
Proof.
  intros Hap. induction n as [|n IH]; intros m i es Hrep Hm Hi Hmax Hok Hes; cbn [lower_array].
  { exists m, true. split_and!; [done|done|by intros x _|done|]. rewrite <- Hes. constructor. }
  set (p := fw + i * EXTENT_SIZE) in *.
  assert (es = load_extent m p :: array_extents m (p + EXTENT_SIZE) (Z.of_nat n)) as Ees.
  { rewrite <- Hes. apply array_extents_cons. }
  set (e := load_extent m p) in *.
  destruct (range_down_extent m e Hrep) as (low & -> & Hlow); [apply Hok; rewrite Ees; by left|].
  cbn [mbind outcome_bind]. destruct (Z.eqb_spec low INVALID_ID) as [->|Hne].
  { exists m, false. split_and!; [done|done|by intros x _|done|]. exists e. rewrite Ees. split; [by left|].
    by destruct Hlow as [[_ ?]|[_ ?]]. }
  destruct Hlow as [[Hlow _]|[? _]]; [|done].
  assert (0 ≤ low < 2 ^ 32) as Hlr.
  { destruct Hlow as (q & Hq & H1 & H2 & ->). destruct (proj1 pes_ok q Hq) as (? & ? & ? & ? & ?).
    assert (extent_ok e) as (? & ? & ? & _) by (apply Hok; rewrite Ees; by left). lia. }
  set (m1 := write32 m (p + 4) low).
  assert (same_outside m m1 fw BLOCK) as Ho1.
  { intros x Hx. unfold m1, p, BLOCK, EXTENT_SIZE, UID_GID_MAP_MAX_EXTENTS in *.
    rewrite write32_spec, decide_False by lia. done. }
  assert (∀ x, p + EXTENT_SIZE ≤ x → m1 x = m x) as Hafter.
  { intros x Hx. unfold m1, EXTENT_SIZE in *. rewrite write32_spec, decide_False by lia. done. }
  replace (p + EXTENT_SIZE) with (fw + (i + 1) * EXTENT_SIZE) in * by (unfold p; ring).
  destruct (IH m1 (i + 1) (array_extents m1 (fw + (i + 1) * EXTENT_SIZE) (Z.of_nat n)))
    as (m' & ok & -> & Hm' & Ho' & Hbefore & Hres).
  { by eapply map_rep_frame. } { by apply write32_bytes. } { lia. } { lia. }
  { intros x Hx. apply Hok. rewrite Ees. right.
    rewrite (array_extents_ext m m1 _ (fw + (i + 1) * EXTENT_SIZE)); [done|]. intros k Hk. symmetry. apply Hafter. lia. }
  { done. }
  exists m', ok. split; [done|]. split; [done|]. split; [by eapply same_outside_trans|]. split.
  - intros x Hx. rewrite Hbefore by (unfold p, EXTENT_SIZE in *; lia).
    unfold m1, EXTENT_SIZE in *. rewrite write32_spec, decide_False by lia. done.
  - rewrite Ees.
    rewrite (array_extents_ext m m1 _ (fw + (i + 1) * EXTENT_SIZE)) by (intros k Hk; symmetry; apply Hafter; lia).
    destruct ok; [|destruct Hres as (x & Hx & Hu); exists x; split; [by right|done]].
    assert (array_extents m' p (Z.of_nat (S n)) =
            load_extent m' p :: array_extents m' (fw + (i + 1) * EXTENT_SIZE) (Z.of_nat n)) as ->.
    { rewrite array_extents_cons. do 2 f_equal. unfold p. ring. }
    constructor; [|done].
    assert (load_extent m' p = load_extent m1 p) as ->.
    { apply load_extent_ext. intros k Hk. apply Hbefore. unfold p, EXTENT_SIZE. lia. }
    unfold m1. rewrite load_lower by done. split_and!; done.
Qed.

End Lower.

(** ** Sorting *)

Definition key_cmp (key : uid_gid_extent → Z) : cmp_func_t := λ a b,
  if key (extent_of a) <? key (extent_of b) then -1
  else if key (extent_of b) <? key (extent_of a) then 1 else 0.

Lemma key_cmp_le key x y : cmp_le (P := unit) (CMP_WRAPPER (key_cmp key)) x y ↔ key (extent_of x) ≤ key (extent_of y).
Proof.
  unfold cmp_le, cval, key_cmp.
  destruct (Z.ltb_spec (key (extent_of x)) (key (extent_of y))), (Z.ltb_spec (key (extent_of y)) (key (extent_of x))); lia.
Qed.

#[export] Instance key_cmp_comparison key : Comparison (P := unit) (CMP_WRAPPER (key_cmp key)).
Proof.
  split; [|intros x y z; rewrite !key_cmp_le; lia]. intros x y. unfold cval, key_cmp.
  destruct (Z.ltb_spec (key (extent_of x)) (key (extent_of y))), (Z.ltb_spec (key (extent_of y)) (key (extent_of x))); lia.
Qed.

Lemma array_elements m p n : array_extents m p n = map extent_of (elements p n EXTENT_SIZE m).
Proof.
  unfold elements, array_extents. rewrite map_map. apply map_ext. intros i. by rewrite extent_of_elem.
Qed.

Lemma sort_extents key fuel m p n :
  0 ≤ p → 0 ≤ n ≤ UID_GID_MAP_MAX_EXTENTS → byte_mem m → 3 * n + 14 ≤ Z.of_nat fuel →
  ∃ m', sort fuel m p n EXTENT_SIZE (key_cmp key) None = Ok m' ∧ byte_mem m' ∧
    same_outside m m' p (n * EXTENT_SIZE) ∧
    Permutation (array_extents m p n) (array_extents m' p n) ∧ sorted_by key m' p n.
Proof.
  intros Hp Hn Hm Hf. unfold UID_GID_MAP_MAX_EXTENTS in Hn.
  assert (array_ok p n EXTENT_SIZE) as Harr by (split; unfold EXTENT_SIZE; lia).
  destruct (sort_r_spec (P := unit) (CMP_WRAPPER (key_cmp key)) p n EXTENT_SIZE None fuel m)
    as (m' & E & Hm' & Hperm & Hord & Hout); [done|by apply builtin_exchanges|done|unfold EXTENT_SIZE; lia|].
  exists m'. split_and!; [done|done|done| |].
  - rewrite !array_elements. by apply Permutation_map.
  - intros i j Hi Hj. specialize (Hord i j Hi Hj). rewrite key_cmp_le, !extent_of_elem in Hord. done.
Qed.

Lemma sorted_by_frame key m m' p n :
  array_extents m' p n = array_extents m p n → sorted_by key m p n → sorted_by key m' p n.
Proof. intros E. rewrite !sorted_by_lookup, E. done. Qed.

Lemma sort_idmaps_spec fuel m map fw rv es :
  building m map fw es → byte_mem m → 0 ≤ rv → apart fw BLOCK rv BLOCK →
  Z.of_nat (length es) ≤ UID_GID_MAP_MAX_EXTENTS → 1034 ≤ Z.of_nat fuel →
  ∃ m' r, sort_idmaps fuel m map rv = Ok (m', r) ∧
    (∀ x, ¬ (fw ≤ x < fw + BLOCK) → ¬ (rv ≤ x < rv + BLOCK) → m' x = m x) ∧
    match r with inl err => err < 0 ∧ rv = NULL | inr map' => map_rep m' map' es end.
Proof.
  intros [Hn Hb] Hm Hrv Hap Hmax Hf. unfold sort_idmaps, UID_GID_MAP_MAX_EXTENTS in *.
  destruct (Z.leb_spec (nr_extents map) UID_GID_MAP_MAX_BASE_EXTENTS) as [H5|H5].
  { exists m, (inr map). split; [done|]. split; [done|]. split; [done|].
    rewrite (proj2 (Z.leb_le _ _) H5). exists es. split; [done|]. by apply take_ge. }
  destruct Hb as (-> & Hes & Hfw). unfold BLOCK, EXTENT_SIZE in *.
  destruct (sort_extents first fuel m fw (nr_extents map)) as (m1 & E1 & Hm1 & Ho1 & Hp1 & Hs1);
    [lia|unfold UID_GID_MAP_MAX_EXTENTS; lia|done|lia|].
  change cmp_extents_forward with (key_cmp first). unfold EXTENT_SIZE in E1. rewrite E1. cbn [mbind outcome_bind].
  destruct (Z.eqb_spec rv NULL) as [->|Hrv0].
  { eexists _, (inl _). split; [done|]. split; [|done]. intros x Hx1 Hx2. apply Ho1. unfold EXTENT_SIZE. lia. }
  set (m2 := memcpy (Z.to_nat (nr_extents map * 12)) m1 rv fw).
  assert (∀ x, m2 x = if decide (rv ≤ x < rv + nr_extents map * 12) then m1 (x - rv + fw) else m1 x) as Hm2.
  { intros x. unfold m2. unfold apart in Hap. rewrite memcpy_apart by (unfold apart; lia). by rewrite Z2Nat.id by lia. }
  assert (byte_mem m2) as Hb2 by (intros x; rewrite Hm2; case_decide; apply Hm1).
  destruct (sort_extents lower_first fuel m2 rv (nr_extents map)) as (m3 & E3 & Hm3 & Ho3 & Hp3 & Hs3);
    [lia|unfold UID_GID_MAP_MAX_EXTENTS; lia|done|lia|].
  change cmp_extents_reverse with (key_cmp lower_first). unfold EXTENT_SIZE in E3. rewrite E3. cbn [mbind outcome_bind].
  eexists _, (inr _). split; [done|]. unfold apart in Hap. split.
  { intros x Hx1 Hx2. rewrite Ho3 by (unfold EXTENT_SIZE; lia). rewrite Hm2, decide_False by lia.
    apply Ho1. unfold EXTENT_SIZE. lia. }
  assert (array_extents m3 fw (nr_extents map) = array_extents m1 fw (nr_extents map)) as Ef.
  { apply array_extents_ext. unfold EXTENT_SIZE. intros k Hk. rewrite Ho3 by (unfold EXTENT_SIZE; lia).
    by rewrite Hm2, decide_False by lia. }
  assert (array_extents m2 rv (nr_extents map) = array_extents m1 fw (nr_extents map)) as Er.
  { apply array_extents_ext. unfold EXTENT_SIZE. intros k Hk. rewrite Hm2, decide_True by lia. f_equal. lia. }
  split; [done|]. cbn [nr_extents arrays]. rewrite (proj2 (Z.leb_gt _ _) H5). exists fw, rv.
  unfold NULL in *. split_and!; [done|lia|lia| | | |done].
  - rewrite Ef, <- Hp1. by rewrite Hes.
  - by apply (sorted_by_frame _ m1).
  - rewrite <- Hp3, Er, <- Hp1. by rewrite Hes.
Qed.

(** ** map_write *)

(** The map is empty. *)
Definition unwritten (map : uid_gid_map) : Prop := nr_extents map = 0.

Section Write.
Context (fuel : nat) (m : mem) (w : writer) (ns parent : user_namespace) (pmap : uid_gid_map)
  (pes : list uid_gid_extent) (fw rv : Z).

(** The maps of the parent are sound, and the blocks the allocator hands out
    (or 0) are new. *)
Record write_env : Prop := {
  we_fuel : 4096 ≤ Z.of_nat fuel;
  we_bytes : byte_mem m;
  we_parent : map_rep m pmap pes ∧ extents_ok pes ∧ Z.of_nat (length pes) ≤ UID_GID_MAP_MAX_EXTENTS;
  we_blocks : 0 ≤ fw ∧ 0 ≤ rv ∧ apart fw BLOCK rv BLOCK;
  we_apart : map_apart pmap fw ∧ map_apart pmap rv;
  we_maps : ∀ mp, mp = uid_map parent ∨ mp = gid_map parent →
    map_apart mp fw ∧ ∃ es, map_rep m mp es ∧ extents_ok es ∧ Z.of_nat (length es) ≤ UID_GID_MAP_MAX_EXTENTS;
}.

Hypothesis env : write_env.

Lemma permitted_total m' map es cap :
  building m' map fw es → (∀ e, e ∈ es → extent_ok e) → same_outside m m' fw BLOCK → es ≠ [] →
  ∃ b, new_idmap_permitted fuel m' w ns parent cap map = Ok b ∧
    (b = false → cap_valid cap = true ∧ parent_capable w && parent_file_capable w = false).
Proof.
  intros [Hn Hb] Hok Ho Hne. unfold new_idmap_permitted.
  assert (∀ mp id, mp = uid_map parent ∨ mp = gid_map parent → 0 ≤ id < 2 ^ 32 →
    ∃ r, map_id_down fuel m' mp id = Ok r) as Hdown.
  { intros mp id Hmp Hid. destruct (we_maps env mp Hmp) as (Hap & mes & Hrep & Hmok & Hlen).
    pose proof (we_fuel env). unfold UID_GID_MAP_MAX_EXTENTS in Hlen.
    destruct (range_down_find m' mp mes fuel id 1) as (r & Hr & _); [|done|lia..|by exists r].
    by eapply map_rep_frame. }
  assert (∀ own, ∃ b, Ok (if (own : bool) then true else if negb (cap_valid cap) then true
      else parent_capable w && parent_file_capable w) = Ok b ∧
    (b = false → cap_valid cap = true ∧ parent_capable w && parent_file_capable w = false)) as Hb'.
  { intros []; [by eexists|]. destruct (cap_valid cap); by eexists. }
  destruct (Z.eqb_spec (nr_extents map) 1) as [E1|E1]; [|apply (Hb' false)]. rewrite E1 in Hb, Hn.
  destruct es as [|e [|e' es]]; [done| |cbn in Hn; lia]. cbn in Hb.
  unfold base_extents. rewrite Hb, E1. cbn [take Z.to_nat Pos.to_nat Pos.iter_op mbind outcome_bind].
  change (Z.to_nat 1) with 1%nat. cbn [take].
  destruct (Hok e) as (? & ? & ? & ? & ?); [by left|].
  destruct ((count e =? 1) && (owner ns =? euid w)); [|apply (Hb' false)].
  destruct (cap =? CAP_SETUID).
  { unfold make_kuid. destruct (Hdown (uid_map parent) (lower_first e)) as [r ->]; [by left|lia|apply (Hb' (_ =? _))]. }
  destruct (cap =? CAP_SETGID); [|apply (Hb' false)].
  unfold make_kgid. destruct (Hdown (gid_map parent) (lower_first e)) as [r ->]; [by right|lia|apply (Hb' (_ && _))].
Qed.

Lemma lower_ids_spec m' map es :
  building m' map fw es → extents_ok es → same_outside m m' fw BLOCK → byte_mem m' →
  Z.of_nat (length es) ≤ UID_GID_MAP_MAX_EXTENTS →
  ∃ m2 r, lower_ids fuel m' pmap map = Ok (m2, r) ∧ byte_mem m2 ∧ same_outside m' m2 fw BLOCK ∧
    match r with
    | None => ∃ e, e ∈ es ∧ unmapped pes e
    | Some map' => ∃ es', Forall2 (lowered pes) es es' ∧ building m2 map' fw es'
    end.
Proof.
  intros [Hn Hb] [Hok _] Ho Hm' Hlen. destruct env as [Hf _ (Hrep & Hpok & Hplen) (Hfw & _) [Hapf _] _].
  assert (map_rep m' pmap pes) as Hrep' by (by eapply map_rep_frame).
  unfold UID_GID_MAP_MAX_EXTENTS in *. unfold lower_ids.
  destruct (Z.leb_spec (nr_extents map) UID_GID_MAP_MAX_BASE_EXTENTS) as [H5|H5].
  - unfold base_extents. rewrite Hb, Hn, Nat2Z.id, take_ge by lia. cbn [mbind outcome_bind].
    destruct (lower_base_spec fuel pmap pes Hpok ltac:(lia) m' Hrep' es Hok) as (r & -> & Hr). cbn [mbind outcome_bind].
    eexists _, _. split; [done|]. split; [done|]. split; [by intros x _|]. destruct r as [es'|]; [|done].
    exists es'. split; [done|]. assert (length es = length es') by (by eapply Forall2_length). split; cbn [nr_extents arrays]; [lia|].
    rewrite Hn in H5. by rewrite (proj2 (Z.leb_le _ _) H5).
  - destruct Hb as (Ea & Hes & Hfw0). rewrite Ea.
    destruct (lower_array_spec fuel pmap pes Hpok ltac:(lia) fw Hapf (Z.to_nat (nr_extents map)) m' 0 es)
      as (m2 & ok & E & Hm2 & Ho2 & _ & Hres); [done|done|lia|unfold UID_GID_MAP_MAX_EXTENTS; lia|done| |].
    { by rewrite Z.mul_0_l, Z.add_0_r, Z2Nat.id by lia. }
    rewrite Z.mul_0_l, Z.add_0_r in E, Hres. rewrite E. cbn [mbind outcome_bind].
    eexists _, _. split; [done|]. split; [done|]. split; [done|]. destruct ok; [|done].
    rewrite Z2Nat.id in Hres by lia. eexists. split; [exact Hres|].
    split; [rewrite length_array by lia; lia|]. rewrite (proj2 (Z.leb_gt _ _) H5). done.
Qed.

(** The map holds the composition of what the text spells and the map of the
    parent, which is still in place. *)
Definition composed (text : list Z) (m' : mem) (map' : uid_gid_map) : Prop :=
  ∃ es es', spells text es ∧ extents_ok es ∧ map_rep m' map' es' ∧ extents_ok es' ∧
    (∀ id kid, mapped es' id kid ↔ ∃ mid, mapped es id mid ∧ mapped pes mid kid) ∧ map_rep m' pmap pes.

(** Why a write may be refused: it is not the first of the file or too long,
    the writer lacks a capability, there is no memory, or the text does not
    spell a list of extents that a map can hold and the parent maps. *)
Definition refusable (text : list Z) (size ppos cap : Z) : Prop :=
  ppos ≠ 0 ∨ PAGE_SIZE ≤ size ∨
  (cap_valid cap = true ∧ ns_admin w && (parent_capable w && parent_file_capable w) = false) ∨
  fw = NULL ∨ rv = NULL ∨
  ∀ es, spells text es → acceptable es → ∃ e, e ∈ es ∧ unmapped pes e.

(** A failed write leaves the map empty, a successful one installs the
    composition. *)
Lemma map_write_spec text size ppos cap map :
  unwritten map → (length text < 4096)%nat →
  ∃ m' map' ret, map_write fuel m w (inr text) size ppos cap ns parent map pmap fw rv = Ok (m', map', ret) ∧
    ((ret < 0 ∧ unwritten map' ∧ refusable text size ppos cap) ∨ (ret = size ∧ composed text m' map')).
Proof.
  intros H0 Htext. pose proof env as [Hf Hm (Hrep & Hpok & Hplen) (Hfw & Hrv & Hap) [Hapf Hapr] _].
  assert (∀ nm, unwritten (map_out map nm)) as Hout by (intros nm; unfold map_out, unwritten; by case_match).
  assert (∀ m' mp ret, unwritten mp → ret < 0 → refusable text size ppos cap →
    ∃ m1 mp1 r1, Ok (m', mp, ret) = Ok (m1, mp1, r1) ∧
      ((r1 < 0 ∧ unwritten mp1 ∧ refusable text size ppos cap) ∨ (r1 = size ∧ composed text m1 mp1))) as Hfail
    by (intros m' mp ret ???; exists m', mp, ret; split; [done|by left]).
  unfold map_write. unfold refusable in Hfail at 1.
  destruct (negb (ppos =? 0) || (PAGE_SIZE <=? size)) eqn:E0; [apply Hfail; [done..|lia]|].
  unfold unwritten in H0. rewrite (proj2 (Z.eqb_eq _ _) H0). cbn [negb].
  destruct (cap_valid cap && negb (ns_admin w)) eqn:Ecap.
  { apply andb_true_iff in Ecap as [? ?%negb_true_iff]. apply Hfail; [done..|]. right. right. left. by rewrite H1. }
  destruct (parse_lines_spec fw Hfw fuel m empty_map [] text) as (m1 & map1 & err & -> & Hm1 & Ho1 & Herr);
    [done| |done|done|lia|].
  { split; intros e; by intros ?%elem_of_nil || intros ? ?%elem_of_nil. }
  cbn [mbind outcome_bind]. destruct err as [ret|].
  { destruct Herr as [? Hno]. apply Hfail; [done..|]. do 3 right.
    destruct Hno as [?|Hno]; [by left|]. do 2 right. intros es Hsp Hacc. by destruct (Hno es Hsp). }
  destruct Herr as (es & Hb & Hok & Hlen & Hne & Hsp). cbn [app] in Hb, Hok, Hlen.
  destruct (Z.eqb_spec (nr_extents map1) 0) as [E|_]; [destruct Hb as [Hn _]; destruct es; [done|cbn in Hn; lia]|].
  destruct (permitted_total m1 map1 es cap Hb (proj1 Hok) Ho1 Hne) as (b & -> & Hperm). cbn [mbind outcome_bind].
  destruct b; cbn [negb]; [|destruct Hperm as [? Hp]; [done|]; apply Hfail; [done..|]; right; right; left;
    rewrite Hp; by rewrite andb_false_r].
  destruct (lower_ids_spec m1 map1 es Hb Hok Ho1 Hm1 Hlen) as (m2 & r & -> & Hm2 & Ho2 & Hr). cbn [mbind outcome_bind].
  destruct r as [map2|].
  2:{ apply Hfail; [done..|]. do 5 right. intros es1 Hsp1 _. by rewrite (spells_unique _ _ _ Hsp1 Hsp). }
  destruct Hr as (es' & HF & Hb2).
  assert (length es = length es') as Hlen2 by (by eapply Forall2_length).
  destruct (sort_idmaps_spec fuel m2 map2 fw rv es') as (m3 & r & -> & Ho3 & Hr); [done|done|done|done|lia|lia|].
  cbn [mbind outcome_bind]. destruct r as [ret|map3]; [destruct Hr; apply Hfail; [done..|]; by do 4 right; left|].
  exists m3, map3, size. split; [done|]. right. split; [done|]. exists es, es'.
  split_and!; [done|done|done|by apply (lowered_ok pes es)| |].
  - intros id kid. apply lowered_compose; [done|apply Hok|done].
  - apply (map_rep_frame2 m m3 pmap pes fw rv); [done|done| |done]. intros x Hx1 Hx2. by rewrite Ho3, Ho2, Ho1.
Qed.

End Write.

(** C22: writing a map. Whatever the text, the write terminates without a
    wrong access. If it fails, the map stays unwritten, and there was a reason
    to refuse: a text that spells disjoint extents which the parent maps,
    written by a capable process, is accepted. If it succeeds, every
    line of the text spelled one extent, the extents are disjoint on both
    sides, and the installed map is sound and is exactly the composition of
    the text with the map of the parent: an id of the namespace goes to a
    kernel id only through an id that the parent maps. The map of the parent
    is unchanged. *)
Theorem map_write_correct (fuel : nat) (m : mem) (w : writer) (ns parent : user_namespace)
    (map pmap : uid_gid_map) (pes : list uid_gid_extent) (forward reverse : Z)
    (text : list Z) (size ppos cap : Z) :
  write_env fuel m parent pmap pes forward reverse → unwritten map → (length text < 4096)%nat →
  ∃ m' map' ret,
    map_write fuel m w (inr text) size ppos cap ns parent map pmap forward reverse = Ok (m', map', ret) ∧
    ((ret < 0 ∧ unwritten map' ∧ refusable w pes forward reverse text size ppos cap) ∨
     (ret = size ∧ composed pmap pes text m' map')).
Proof. intros. by apply map_write_spec. Qed.

(** The parent maps 100000-199999 to itself; the text is "0 100000 1000". *)
Definition parent_extents : list uid_gid_extent := [MkExtent 100000 100000 100000].
Definition parent_map : uid_gid_map := MkMap 1 (Base parent_extents).
Definition parent_ns : user_namespace := MkNs parent_map parent_map parent_map 0 1.
Definition demo_text : list Z := [48; 32; 49; 48; 48; 48; 48; 48; 32; 49; 48; 48; 48].

Lemma parent_extents_ok : extents_ok parent_extents.
Proof.
  split.
  - intros e ->%list_elem_of_singleton. unfold extent_ok. cbn. lia.
  - intros e1 e2 ->%list_elem_of_singleton ->%list_elem_of_singleton. by left.
Qed.

Lemma map_write_correct_witness :
  map_write (Z.to_nat 4096) (λ _, 0) (MkWriter 0 0 true true true) (inr demo_text) 13 0 CAP_SETUID
    parent_ns parent_ns empty_map parent_map 5000 10000 =
  Ok (λ _, 0, MkMap 1 (Base [MkExtent 0 100000 1000]), 13).
Proof.
  destruct (map_write_correct (Z.to_nat 4096) (λ _, 0) (MkWriter 0 0 true true true) parent_ns parent_ns
              empty_map parent_map parent_extents 5000 10000 demo_text 13 0 CAP_SETUID) as (m' & map' & ret & E & _).
  - assert (map_rep (λ _, 0) parent_map parent_extents) as Hrep by (split; [done|by exists parent_extents]).
    split.
    + lia.
    + intros x. lia.
    + split; [done|]. split; [apply parent_extents_ok|done].
    + unfold apart, BLOCK. lia.
    + done.
    + intros mp Hmp. assert (mp = parent_map) as -> by (by destruct Hmp). split; [done|].
      exists parent_extents. split; [done|]. split; [apply parent_extents_ok|done].
  - done.
  - cbn. lia.
  - vm_compute. reflexivity.
Defined.
