(* ===== verification/IdMapGroups.v ===== *)
(** * setgroups and unprivileged gid maps

    The interplay of /proc/<pid>/setgroups and /proc/<pid>/gid_map: the
    writes to the two files as steps of a namespace, and the invariant that a
    gid map installed without privilege rules out setgroups for good. *)

From stdpp Require Import base numbers list option.
From Stdlib Require Import ZArith Lia.
From S2P Require Import Prelude Strings Kstrtox IdMap.
Import Strings IdMap.

Open Scope Z_scope.

Definition set_gid_map (ns : user_namespace) (map : uid_gid_map) : user_namespace :=
  MkNs (uid_map ns) map (projid_map ns) (owner ns) (flags ns).

Definition setgroups_denied (ns : user_namespace) : Prop := Z.land (flags ns) USERNS_SETGROUPS_ALLOWED = 0.

(** The writer has CAP_SETGID over the parent, and had it when the file was
    opened. *)
Definition privileged (w : writer) : bool := parent_capable w && parent_file_capable w.

(** The namespaces reachable from a new one by writes to the two files, with
    whether a gid map was installed by an unprivileged writer. *)
Inductive reachable : user_namespace → bool → Prop :=
  | reach_new u p o f : reachable (MkNs u empty_map p o f) false
  | reach_setgroups ns unpriv kbuf size ppos :
      reachable ns unpriv → reachable (proc_setgroups_write ns kbuf size ppos).1 unpriv
  | reach_gid_map ns unpriv fuel m w text size ppos seq_ns ns_id parent fw rv m' map' ret :
      reachable ns unpriv →
      proc_gid_map_write fuel m w (inr text) size ppos seq_ns ns_id ns parent fw rv = Ok (m', map', ret) →
      reachable (set_gid_map ns map') (unpriv || ((0 <=? ret) && negb (privileged w))).

Lemma insert_extent_error m map e fw err : insert_extent m map e fw = Ok (inl err) → err < 0.
Proof.
  unfold insert_extent, ENOMEM. intros H. repeat (case_match; simplify_eq/=; try lia).
Qed.

Lemma parse_loop_error : ∀ fuel m map pos fw m' map' ret,
  parse_loop fuel m map pos fw = Ok (m', map', Some ret) → ret < 0.
Proof.
  induction fuel as [|fuel IH]; intros m map pos fw m' map' ret; cbn [parse_loop]; [done|].
  destruct (cut_line pos) as [line next]. destruct (parse_extent line) as [e|]; [|by intros [= <- <- <-]].
  destruct (mappings_overlap m map e); [by intros [= <- <- <-]|].
  destruct (_ && _); [by intros [= <- <- <-]|].
  destruct (insert_extent m map e fw) as [r| |] eqn:Ei; [|done..]. cbn [mbind outcome_bind].
  destruct r as [err|[m1 map1]]; [intros [= <- <- <-]; by apply insert_extent_error in Ei|].
  destruct next as [rest|]; [apply IH|done].
Qed.

(** The branches that return a negative error. *)
Ltac refused := exfalso; simplify_eq; unfold Kstrtox.EINVAL, EPERM in *; lia.

(** A write that succeeds was permitted. *)
Lemma map_write_permitted fuel m w text size ppos cap ns parent map pmap fw rv m' map' ret :
  map_write fuel m w (inr text) size ppos cap ns parent map pmap fw rv = Ok (m', map', ret) → 0 ≤ ret →
  ∃ m1 nm, new_idmap_permitted fuel m1 w ns parent cap nm = Ok true.
Proof.
  unfold map_write. intros H Hret.
  destruct (_ || _); [refused|]. destruct (negb (nr_extents map =? 0)); [refused|].
  destruct (cap_valid cap && _); [refused|].
  destruct (parse_loop fuel m empty_map text fw) as [[[m1 nm] err]| |] eqn:Ep; [|done..]. cbn [mbind outcome_bind] in H.
  destruct err as [e|]; [apply parse_loop_error in Ep; refused|].
  destruct (nr_extents nm =? 0); [refused|].
  destruct (new_idmap_permitted fuel m1 w ns parent cap nm) as [[]| |] eqn:Eper; cbn [mbind outcome_bind negb] in H; [|refused|done..].
  by exists m1, nm.
Qed.

(** Without privilege only a namespace that has given up setgroups may have a
    gid map. *)
Lemma unprivileged_gid_map fuel m w ns parent nm :
  new_idmap_permitted fuel m w ns parent CAP_SETGID nm = Ok true → privileged w = false → setgroups_denied ns.
Proof.
  unfold new_idmap_permitted, privileged, setgroups_denied. intros H Hpriv.
  change (cap_valid CAP_SETGID) with true in H. change (CAP_SETGID =? CAP_SETUID) with false in H.
  change (CAP_SETGID =? CAP_SETGID) with true in H. rewrite Hpriv in H. cbn [negb] in H.
  destruct (nr_extents nm =? 1); [|done]. destruct (base_extents nm) as [[|e l]| |]; [done| |done..].
  cbn [mbind outcome_bind] in H. destruct ((count e =? 1) && (owner ns =? euid w)); [|done].
  destruct (make_kgid fuel m parent (lower_first e)) as [gid| |]; [|done..]. cbn [mbind outcome_bind] in H.
  destruct (Z.eqb_spec (Z.land (flags ns) USERNS_SETGROUPS_ALLOWED) 0) as [E|E]; [done|]. by cbn in H.
Qed.

(** Writing setgroups never gives it back. *)
Lemma setgroups_write_sticky ns kbuf size ppos :
  setgroups_denied ns → setgroups_denied (proc_setgroups_write ns kbuf size ppos).1.
Proof.
  intros H. unfold proc_setgroups_write. repeat (case_match; try done). unfold setgroups_denied in *.
  cbn [fst flags]. rewrite <- Z.land_assoc, (Z.land_comm (u64 _)), Z.land_assoc, H. done.
Qed.

Lemma reachable_denied ns unpriv : reachable ns unpriv → unpriv = true → setgroups_denied ns.
Proof.
  induction 1 as [u p o f|ns b kbuf size ppos _ IH|ns b fuel m w text size ppos sn ni parent fw rv m' map' ret _ IH Hw];
    intros Hu; [done|by apply setgroups_write_sticky, IH|].
  change (setgroups_denied ns). destruct b; [by apply IH|]. cbn [orb] in Hu.
  apply andb_true_iff in Hu as [Hret%Z.leb_le Hpriv%negb_true_iff].
  unfold proc_gid_map_write in Hw. destruct parent as [[pi parent]|]; [|refused].
  destruct (negb (sn =? ni) && negb (sn =? pi)); [refused|].
  destruct (map_write_permitted _ _ _ _ _ _ _ _ _ _ _ _ _ _ _ _ Hw Hret) as (m1 & nm & Hp).
  by apply unprivileged_gid_map in Hp.
Qed.

(** C32: dropping groups stays impossible. In a namespace whose gid map was
    installed by a writer without privilege over the parent, setgroups is
    never allowed again, whatever is written to its setgroups and gid_map
    files afterwards: a process cannot use an unprivileged map to leave a
    group that denies it access. *)
Theorem unprivileged_gid_map_denies_setgroups (ns : user_namespace) :
  reachable ns true → userns_may_setgroups ns = false.
Proof.
  intros H. apply reachable_denied in H; [|done]. unfold userns_may_setgroups.
  unfold setgroups_denied in H. rewrite H. apply andb_false_r.
Qed.

(** "deny" to setgroups, then "0 1000 1" to gid_map. *)
Lemma unprivileged_gid_map_denies_setgroups_witness :
  let ns0 := MkNs empty_map empty_map empty_map 1000 1 in
  let parent := MkNs (MkMap 1 (Base [MkExtent 0 0 5000])) (MkMap 1 (Base [MkExtent 0 0 5000])) empty_map 0 1 in
  let ns1 := (proc_setgroups_write ns0 (Some [100; 101; 110; 121]) 4 0).1 in
  userns_may_setgroups (set_gid_map ns1 (MkMap 1 (Base [MkExtent 0 1000 1]))) = false.
Proof.
  intros ns0 parent ns1. apply (unprivileged_gid_map_denies_setgroups (set_gid_map ns1 (MkMap 1 (Base [MkExtent 0 1000 1])))).
  refine (reach_gid_map ns1 false 20 (λ _, 0) (MkWriter 1000 1000 true false false)
            [48; 32; 49; 48; 48; 48; 32; 49] 8 0 2 2 (Some (1, parent)) 0 0 (λ _, 0) _ 8 _ _).
  - apply (reach_setgroups ns0 false). apply reach_new.
  - vm_compute. reflexivity.
Defined.
