(* ===== verification/Groups.v ===== *)
(** * Supplementary groups

    The group lists of src/groups/src/groups.c: setgroups and getgroups with
    the translation of the ids, the sorted array and its binary search, and
    the membership tests. *)

From stdpp Require Import base numbers list option.
From Stdlib Require Import ZArith Lia.
From S2P Require Import Prelude Strings StringsSpec Sort SortHeap SortSpec Kstrtox IdMap IdMapSpec IdMapWrite.
Import Strings Sort IdMap.

Open Scope Z_scope.

Module Groups.

Definition EFAULT : Z := 14.
Definition NGROUPS_MAX : Z := 65536.

(** [gid] is the address of the flexible array. *)
Record group_info := MkGroups { ngroups : Z; gid : Z }.

(** The part of the credentials the group checks read. *)
Record cred := MkCred { fsgid : Z; egid : Z; group_info_of : option group_info }.

Definition gid_at (m : mem) (group_info : group_info) (i : Z) : Z := read32 m (gid group_info + i * 4).

(** [alloc] is what the two allocators return, 0 when both fail. *)
Definition groups_alloc (alloc gidsetsize : Z) : option group_info :=
  if alloc =? NULL then None else Some (MkGroups gidsetsize alloc).

(** Exporting the list: [put_fault i] tells that storing entry [i] faults. The
    result is the error or the ids stored. *)
Fixpoint to_user_loop (fuel : nat) (m : mem) (overflowgid : Z) (user_ns : user_namespace) (put_fault : Z → bool)
    (group_info : group_info) (i : Z) (n : nat) : outcome (Z + list Z) :=
  match n with
  | O => Ok (inr [])
  | S n =>
      g ← from_kgid_munged fuel m overflowgid user_ns (gid_at m group_info i);
      if put_fault i then Ok (inl (- EFAULT))
      else
        r ← to_user_loop fuel m overflowgid user_ns put_fault group_info (i + 1) n;
        Ok (match r with inl err => inl err | inr l => inr (g :: l) end)
  end.

Definition groups_to_user (fuel : nat) (m : mem) (overflowgid : Z) (user_ns : user_namespace) (put_fault : Z → bool)
    (group_info : group_info) : outcome (Z + list Z) :=
  to_user_loop fuel m overflowgid user_ns put_fault group_info 0 (Z.to_nat (ngroups group_info)).

(** [grouplist i] is the id user space has at [i], [None] when reading it
    faults. *)
Fixpoint from_user_loop (fuel : nat) (m : mem) (user_ns : user_namespace) (grouplist : Z → option Z)
    (group_info : group_info) (i : Z) (n : nat) : outcome (mem * Z) :=
  match n with
  | O => Ok (m, 0)
  | S n =>
      match grouplist i with
      | None => Ok (m, - EFAULT)
      | Some g =>
          kgid ← make_kgid fuel m user_ns g;
          if kgid =? INVALID_ID then Ok (m, - Kstrtox.EINVAL)
          else from_user_loop fuel (write32 m (gid group_info + i * 4) kgid) user_ns grouplist group_info (i + 1) n
      end
  end.

Definition groups_from_user (fuel : nat) (m : mem) (user_ns : user_namespace) (grouplist : Z → option Z)
    (group_info : group_info) : outcome (mem * Z) :=
  from_user_loop fuel m user_ns grouplist group_info 0 (Z.to_nat (ngroups group_info)).

Definition gid_of (x : list Z) : Z := read32 (λ i, default 0 (x !! Z.to_nat i)) 0.

Definition gid_cmp : cmp_func_t := λ _a _b,
  let a := gid_of _a in let b := gid_of _b in
  (if b <? a then 1 else 0) - (if a <? b then 1 else 0).

Definition groups_sort (fuel : nat) (m : mem) (group_info : group_info) : outcome mem :=
  sort fuel m (gid group_info) (ngroups group_info) 4 gid_cmp None.

Fixpoint search_loop (fuel : nat) (m : mem) (group_info : group_info) (grp left right : Z) : outcome Z :=
  match fuel with
  | O => Fuel
  | S fuel =>
      if left <? right then
        let mid := u32 (left + right) / 2 in
        if gid_at m group_info mid <? grp then search_loop fuel m group_info grp (u32 (mid + 1)) right
        else if grp <? gid_at m group_info mid then search_loop fuel m group_info grp left mid
        else Ok 1
      else Ok 0
  end.

Definition groups_search (fuel : nat) (m : mem) (group_info : option group_info) (grp : Z) : outcome Z :=
  match group_info with
  | None => Ok 0
  | Some group_info => search_loop fuel m group_info grp 0 (ngroups group_info)
  end.

Definition set_groups (new : cred) (group_info : group_info) : cred :=
  MkCred (fsgid new) (egid new) (Some group_info).

(** [prepared] tells whether [prepare_creds] got its memory; [commit_creds]
    makes the new credentials current and returns 0. *)
Definition set_current_groups (current : cred) (prepared : bool) (group_info : group_info) : cred * Z :=
  if negb prepared then (current, - ENOMEM) else (set_groups current group_info, 0).

(** The length or the error, and the ids stored in user space. *)
Definition getgroups (fuel : nat) (m : mem) (overflowgid : Z) (user_ns : user_namespace) (put_fault : Z → bool) (current : cred)
    (gidsetsize : Z) : outcome (Z * list Z) :=
  if gidsetsize <? 0 then Ok (- Kstrtox.EINVAL, [])
  else match group_info_of current with
  | None => Panic
  | Some group_info =>
      let i := ngroups group_info in
      if gidsetsize =? 0 then Ok (i, [])
      else if gidsetsize <? i then Ok (- Kstrtox.EINVAL, [])
      else
        r ← groups_to_user fuel m overflowgid user_ns put_fault group_info;
        Ok (match r with inl _ => (- EFAULT, []) | inr l => (i, l) end)
  end.

(** [setgid_capable]: [ns_capable (user_ns, CAP_SETGID)]. *)
Definition may_setgroups (setgid_capable : bool) (user_ns : user_namespace) : bool :=
  setgid_capable && userns_may_setgroups user_ns.

Definition setgroups (fuel : nat) (m : mem) (setgid_capable prepared : bool) (alloc : Z) (user_ns : user_namespace)
    (current : cred) (gidsetsize : Z) (grouplist : Z → option Z) : outcome (mem * cred * Z) :=
  if negb (may_setgroups setgid_capable user_ns) then Ok (m, current, - EPERM)
  else if NGROUPS_MAX <? u32 gidsetsize then Ok (m, current, - Kstrtox.EINVAL)
  else match groups_alloc alloc gidsetsize with
  | None => Ok (m, current, - ENOMEM)
  | Some group_info =>
      '(m, retval) ← groups_from_user fuel m user_ns grouplist group_info;
      if negb (retval =? 0) then Ok (m, current, retval)
      else
        m ← groups_sort fuel m group_info;
        let '(current, retval) := set_current_groups current prepared group_info in
        Ok (m, current, retval)
  end.

Definition in_group_p (fuel : nat) (m : mem) (cred : cred) (grp : Z) : outcome Z :=
  if negb (grp =? fsgid cred) then groups_search fuel m (group_info_of cred) grp else Ok 1.

Definition in_egroup_p (fuel : nat) (m : mem) (cred : cred) (grp : Z) : outcome Z :=
  if negb (grp =? egid cred) then groups_search fuel m (group_info_of cred) grp else Ok 1.

End Groups.
Import Groups.

(** ** Arrays of ids *)

Definition gids (m : mem) (gi : group_info) : list Z := map (gid_at m gi) (seqZ 0 (ngroups gi)).

Lemma gid_of_elem base m i : gid_of (elem base 4 m i) = read32 m (base + i * 4).
Proof.
  unfold gid_of, elem, load_elem. apply read32_ext. intros k Hk. rewrite Z.add_0_l.
  rewrite fmap_seqZ_lookup, decide_True by lia. cbn. f_equal. lia.
Qed.

Lemma gid_cmp_le x y : cmp_le (P := unit) (CMP_WRAPPER gid_cmp) x y ↔ gid_of x ≤ gid_of y.
Proof.
  unfold cmp_le, cval, gid_cmp.
  destruct (Z.ltb_spec (gid_of x) (gid_of y)), (Z.ltb_spec (gid_of y) (gid_of x)); lia.
Qed.

#[export] Instance gid_cmp_comparison : Comparison (P := unit) (CMP_WRAPPER gid_cmp).
Proof.
  split; [|intros x y z; rewrite !gid_cmp_le; lia]. intros x y. unfold cval, gid_cmp.
  destruct (Z.ltb_spec (gid_of x) (gid_of y)), (Z.ltb_spec (gid_of y) (gid_of x)); lia.
Qed.

Lemma gids_elements m gi : gids m gi = map gid_of (elements (gid gi) (ngroups gi) 4 m).
Proof. unfold elements, gids. rewrite map_map. apply map_ext. intros i. by rewrite gid_of_elem. Qed.

Lemma elem_of_gids m gi g : g ∈ gids m gi ↔ ∃ i, 0 ≤ i < ngroups gi ∧ gid_at m gi i = g.
Proof.
  unfold gids. change (map ?f) with (fmap (M := list) f). rewrite list_elem_of_fmap. split.
  - intros (i & -> & Hi%elem_of_seqZ). exists i. split; [lia|done].
  - intros (i & Hi & <-). exists i. split; [done|]. apply elem_of_seqZ. lia.
Qed.

Definition gids_sorted (m : mem) (gi : group_info) : Prop :=
  ∀ i j, 0 ≤ i ≤ j → j < ngroups gi → gid_at m gi i ≤ gid_at m gi j.

Lemma groups_sort_spec fuel m gi :
  0 ≤ gid gi → 0 ≤ ngroups gi ≤ NGROUPS_MAX → byte_mem m → 3 * ngroups gi + 6 ≤ Z.of_nat fuel →
  ∃ m', groups_sort fuel m gi = Ok m' ∧ byte_mem m' ∧ same_outside m m' (gid gi) (ngroups gi * 4) ∧
    Permutation (gids m gi) (gids m' gi) ∧ gids_sorted m' gi.
Proof.
  intros Hp Hn Hm Hf. unfold NGROUPS_MAX in Hn.
  assert (array_ok (gid gi) (ngroups gi) 4) as Harr by (split; lia).
  destruct (sort_r_spec (P := unit) (CMP_WRAPPER gid_cmp) (gid gi) (ngroups gi) 4 None fuel m)
    as (m' & E & Hm' & Hperm & Hord & Hout); [done|by apply builtin_exchanges|done|lia|].
  exists m'. split_and!; [done|done|done| |].
  - rewrite !gids_elements. by apply Permutation_map.
  - intros i j Hi Hj. specialize (Hord i j Hi Hj). rewrite gid_cmp_le, !gid_of_elem in Hord. done.
Qed.

Lemma groups_search_loop_spec m gi grp : gids_sorted m gi → ngroups gi ≤ NGROUPS_MAX → ∀ fuel left right,
  0 ≤ left ≤ right → right ≤ ngroups gi → right - left < Z.of_nat fuel →
  ∃ r, search_loop fuel m gi grp left right = Ok r ∧
    (r ≠ 0 ↔ ∃ i, left ≤ i < right ∧ gid_at m gi i = grp).
Proof.
  intros Hs Hmax. unfold NGROUPS_MAX in Hmax.
  induction fuel as [|fuel IH]; intros left right Hl Hr Hf; [lia|]. cbn [search_loop].
  destruct (Z.ltb_spec left right).
  2:{ exists 0. split; [done|]. split; [done|]. intros (i & ? & _). lia. }
  rewrite (u32_id (left + right)) by lia. set (mid := (left + right) / 2).
  assert (left ≤ mid < right) as Hmid by (unfold mid; split; [apply Z.div_le_lower_bound|apply Z.div_lt_upper_bound]; lia).
  rewrite u32_id by lia. destruct (Z.ltb_spec (gid_at m gi mid) grp) as [Hlt|Hge].
  - destruct (IH (mid + 1) right) as (r & -> & Hr'); [lia..|]. exists r. split; [done|]. rewrite Hr'.
    split; intros (i & Hi & Hg); exists i; (split; [|done]); [lia|].
    destruct (decide (i ≤ mid)); [|lia]. specialize (Hs i mid). lia.
  - destruct (Z.ltb_spec grp (gid_at m gi mid)) as [Hgt|Hle].
    + destruct (IH left mid) as (r & -> & Hr'); [lia..|]. exists r. split; [done|]. rewrite Hr'.
      split; intros (i & Hi & Hg); exists i; (split; [|done]); [lia|].
      destruct (decide (mid ≤ i)); [|lia]. specialize (Hs mid i). lia.
    + exists 1. split; [done|]. split; [|done]. intros _. exists mid. split; [done|lia].
Qed.

(** ** Translating the ids *)

Section Translate.
Context (fuel : nat) (user_ns : user_namespace) (es : list uid_gid_extent) (gi : group_info).
Hypothesis es_ok : extents_ok es.
Hypothesis es_fuel : Z.of_nat (length es) < Z.of_nat fuel.
Hypothesis block : map_outside (gid_map user_ns) (gid gi) (ngroups gi * 4).

Lemma make_kgid_spec m g :
  map_rep m (gid_map user_ns) es → 0 ≤ g < 2 ^ 32 →
  ∃ k, make_kgid fuel m user_ns g = Ok k ∧
    ((mapped es g k ∧ k ≠ INVALID_ID) ∨ (k = INVALID_ID ∧ ∀ x, ¬ mapped es g x)).
Proof.
  intros Hrep Hg. destruct (range_down_find m (gid_map user_ns) es fuel g 1 Hrep es_ok es_fuel) as (r & E & Hr); [lia..|].
  exists r. split; [done|]. rewrite mapped_range_one in Hr. destruct Hr as [Hr|[-> Hr]]; [by left|right].
  split; [done|]. intros x Hx. apply (Hr x). by apply mapped_range_one.
Qed.

Lemma mapped_words g k : mapped es g k → 0 ≤ g < 2 ^ 32 - 1 ∧ 0 ≤ k < 2 ^ 32.
Proof. intros (e & He & Hr & ->). destruct (proj1 es_ok e He) as (? & ? & ? & ? & ?). lia. Qed.

Lemma from_kgid_spec m ov g k :
  map_rep m (gid_map user_ns) es → mapped es g k → from_kgid_munged fuel m ov user_ns k = Ok g.
Proof.
  intros Hrep Hg. destruct (mapped_words g k Hg) as [? ?].
  destruct (up_find m (gid_map user_ns) es fuel k Hrep es_ok es_fuel) as (r & E & Hr); [lia|].
  unfold from_kgid_munged, from_kgid. rewrite E. cbn [mbind outcome_bind].
  destruct Hr as [[Hr Hi]|[_ Hno]]; [|by destruct (Hno g)].
  rewrite (proj2 (Z.eqb_neq _ _) Hi). f_equal. by apply (mapped_inj_up es r g k).
Qed.

Lemma from_user_loop_spec grouplist : ∀ gs m i,
  map_rep m (gid_map user_ns) es → byte_mem m → Forall (λ g, 0 ≤ g < 2 ^ 32) gs →
  0 ≤ i → i + Z.of_nat (length gs) ≤ ngroups gi →
  (∀ k, (k < length gs)%nat → grouplist (i + Z.of_nat k) = gs !! k) →
  ∃ m' r, from_user_loop fuel m user_ns grouplist gi i (length gs) = Ok (m', r) ∧
    byte_mem m' ∧ same_outside m m' (gid gi) (ngroups gi * 4) ∧ (∀ j, j < i → gid_at m' gi j = gid_at m gi j) ∧
    ((r = - Kstrtox.EINVAL ∧ ∃ g, g ∈ gs ∧ ∀ x, ¬ mapped es g x) ∨
     (r = 0 ∧ Forall2 (mapped es) gs (map (gid_at m' gi) (seqZ i (Z.of_nat (length gs)))))).
Proof.
  induction gs as [|g gs IH]; intros m i Hrep Hm Hgs Hi Hn Hgl; cbn [length from_user_loop].
  { exists m, 0. split_and!; [done|done|by intros x _|done|]. right. split; [done|constructor]. }
  apply list.Forall_cons in Hgs as [Hg Hgs]. cbn [length] in Hn, Hgl.
  assert (grouplist i = Some g) as ->.
  { specialize (Hgl 0%nat ltac:(lia)). by rewrite Z.add_0_r in Hgl. }
  destruct (make_kgid_spec m g Hrep Hg) as (k & -> & Hk). cbn [mbind outcome_bind].
  destruct (Z.eqb_spec k INVALID_ID) as [->|Hne].
  { exists m, (- Kstrtox.EINVAL). split_and!; [done|done|by intros x _|done|]. left. split; [done|].
    exists g. split; [by left|]. by destruct Hk as [[_ ?]|[_ ?]]. }
  destruct Hk as [[Hk _]|[? _]]; [|done]. destruct (mapped_words g k Hk) as [_ Hkr].
  set (m1 := write32 m (gid gi + i * 4) k).
  assert (same_outside m m1 (gid gi) (ngroups gi * 4)) as Ho1.
  { intros x Hx. unfold m1. rewrite write32_spec, decide_False by lia. done. }
  destruct (IH m1 (i + 1)) as (m' & r & -> & Hm' & Ho & Hb & Hr);
    [by apply (map_rep_outside m m1 _ _ (gid gi) (ngroups gi * 4))|by apply write32_bytes|done|lia|lia| |].
  { intros j Hj. replace (i + 1 + Z.of_nat j) with (i + Z.of_nat (S j)) by lia. rewrite Hgl by lia. done. }
  exists m', r. split; [done|]. split; [done|]. split; [by eapply same_outside_trans|]. split.
  - intros j Hj. rewrite Hb by lia. unfold gid_at, m1. apply read32_write32_other. unfold apart. lia.
  - destruct Hr as [(-> & x & Hx & Hno)|[-> HF]].
    + left. split; [done|]. exists x. split; [by right|done].
    + right. split; [done|]. rewrite (seqZ_cons i) by lia. cbn [map]. constructor.
      * rewrite Hb by lia. unfold gid_at, m1. by rewrite read32_write32.
      * by replace (Z.pred (Z.of_nat (S (length gs)))) with (Z.of_nat (length gs)) by lia.
Qed.

Lemma to_user_loop_spec m ov : map_rep m (gid_map user_ns) es → ∀ gs i,
  Forall2 (mapped es) gs (map (gid_at m gi) (seqZ i (Z.of_nat (length gs)))) →
  to_user_loop fuel m ov user_ns (λ _, false) gi i (length gs) = Ok (inr gs).
Proof.
  intros Hrep. induction gs as [|g gs IH]; intros i HF; cbn [length to_user_loop]; [done|].
  rewrite (seqZ_cons i) in HF by (cbn [length]; lia). cbn [map] in HF.
  apply list.Forall2_cons in HF as [Hg HF]. rewrite (from_kgid_spec m ov g _ Hrep Hg). cbn [mbind outcome_bind].
  rewrite IH; [done|]. cbn [length] in HF. by replace (Z.pred (Z.of_nat (S (length gs)))) with (Z.of_nat (length gs)) in HF by lia.
Qed.

End Translate.

(** The ids behind a permuted array. *)
Lemma mapped_perm es gs ks ks' :
  Forall2 (mapped es) gs ks → Permutation ks ks' → ∃ gs', Permutation gs gs' ∧ Forall2 (mapped es) gs' ks'.
Proof.
  intros H%Forall2_flip Hp. destruct (Permutation_Forall2 Hp H) as (gs' & Hgs & H').
  exists gs'. split; [done|]. by apply Forall2_flip.
Qed.

Lemma mapped_members es gs ks k :
  extents_ok es → Forall2 (mapped es) gs ks → k ∈ ks ↔ ∃ g, g ∈ gs ∧ mapped es g k.
Proof.
  intros Hok H. split.
  - intros [i Hi]%list_elem_of_lookup. destruct (Forall2_lookup_r _ _ _ _ _ H Hi) as (g & Hg & Hm).
    exists g. split; [by eapply list_elem_of_lookup_2|done].
  - intros (g & [i Hi]%list_elem_of_lookup & Hm). destruct (Forall2_lookup_l _ _ _ _ _ H Hi) as (k' & Hk & Hm').
    rewrite (mapped_inj_down es g k k' Hok Hm Hm'). by eapply list_elem_of_lookup_2.
Qed.

Lemma installed_search fuel m gi es gs grp :
  extents_ok es → Forall2 (mapped es) gs (gids m gi) → gids_sorted m gi →
  0 ≤ ngroups gi ≤ NGROUPS_MAX → ngroups gi < Z.of_nat fuel →
  ∃ r, groups_search fuel m (Some gi) grp = Ok r ∧ (r ≠ 0 ↔ ∃ g, g ∈ gs ∧ mapped es g grp).
Proof.
  intros Hok HF Hs Hn Hf. destruct (groups_search_loop_spec m gi grp Hs ltac:(lia) fuel 0 (ngroups gi)) as (r & E & Hr); [lia..|].
  exists r. split; [done|]. by rewrite Hr, <- (mapped_members es gs (gids m gi)), elem_of_gids.
Qed.

(** ** The system calls *)

(** The user's list of ids, with one id per entry. *)
Definition user_list (gs : list Z) (i : Z) : option Z := if i <? 0 then None else gs !! Z.to_nat i.

(** [grp] is the process's own group, or the kernel id of one of the list. *)
Definition member (es : list uid_gid_extent) (gs : list Z) (own grp : Z) : Prop :=
  grp = own ∨ ∃ g, g ∈ gs ∧ mapped es g grp.

(** setgroups and its readers. With the permission to change groups, a
    list of ids that all have a mapping is installed, and any other list is
    refused with EINVAL and the credentials kept. After it was installed, the
    membership tests hold exactly for the filesystem (effective) group and the
    kernel ids of the list, and getgroups returns the list, in some order. *)
Theorem setgroups_correct (fuel : nat) (m : mem) (alloc ov : Z) (user_ns : user_namespace)
    (es : list uid_gid_extent) (current : cred) (gs : list Z) :
  let n := Z.of_nat (length gs) in
  may_setgroups true user_ns = true →
  map_rep m (gid_map user_ns) es → extents_ok es → map_outside (gid_map user_ns) alloc (n * 4) →
  byte_mem m → 0 < alloc → n ≤ NGROUPS_MAX → Forall (λ g, 0 ≤ g < 2 ^ 32) gs →
  3 * n + 6 ≤ Z.of_nat fuel → Z.of_nat (length es) < Z.of_nat fuel →
  ∃ m' current' ret,
    setgroups fuel m true true alloc user_ns current n (user_list gs) = Ok (m', current', ret) ∧
    ((ret = - Kstrtox.EINVAL ∧ current' = current ∧ ∃ g, g ∈ gs ∧ ∀ x, ¬ mapped es g x) ∨
     (ret = 0 ∧ fsgid current' = fsgid current ∧ egid current' = egid current ∧
      (∀ grp, ∃ r, in_group_p fuel m' current' grp = Ok r ∧ (r ≠ 0 ↔ member es gs (fsgid current) grp)) ∧
      (∀ grp, ∃ r, in_egroup_p fuel m' current' grp = Ok r ∧ (r ≠ 0 ↔ member es gs (egid current) grp)) ∧
      ∃ gs', getgroups fuel m' ov user_ns (λ _, false) current' n = Ok (n, gs') ∧ Permutation gs gs')).
Proof.
  intros n Hmay Hrep Hok Hout Hm Ha Hn Hgs Hf Hfe. set (gi := MkGroups n alloc).
  unfold setgroups, groups_alloc, groups_from_user. rewrite Hmay. cbn [negb]. unfold NGROUPS_MAX in *.
  rewrite u32_id by lia. rewrite (proj2 (Z.ltb_ge _ _)) by lia. rewrite (proj2 (Z.eqb_neq _ _)) by (unfold NULL; lia).
  cbn [ngroups]. replace (Z.to_nat n) with (length gs) by lia.
  destruct (from_user_loop_spec fuel user_ns es gi Hok Hfe Hout (user_list gs) gs m 0)
    as (m1 & r & E & Hm1 & Ho1 & _ & Hr); [done|done|done|lia|cbn; lia| |].
  { intros k Hk. unfold user_list. rewrite (proj2 (Z.ltb_ge _ _)) by lia. f_equal. lia. }
  unfold gi in E. rewrite E. cbn [mbind outcome_bind].
  destruct Hr as [(-> & Hno)|[-> HF]].
  { exists m1, current, (- Kstrtox.EINVAL). split; [done|]. left. by split_and!. }
  cbn [Z.eqb negb]. destruct (groups_sort_spec fuel m1 gi) as (m2 & E2 & Hm2 & Ho2 & Hp & Hs);
    [cbn; lia|cbn; unfold NGROUPS_MAX; lia|done|cbn; lia|]. unfold gi in E2. rewrite E2. cbn [mbind outcome_bind].
  destruct (mapped_perm es gs (gids m1 gi) (gids m2 gi) HF Hp) as (gs' & Hgs' & HF').
  assert (∀ own grp, ∃ r, (if negb (grp =? own) then groups_search fuel m2 (Some gi) grp else Ok 1) = Ok r ∧
    (r ≠ 0 ↔ member es gs own grp)) as Hin.
  { intros own grp. destruct (Z.eqb_spec grp own) as [->|Hne]; cbn [negb].
    - exists 1. split; [done|]. split; [by left|done].
    - destruct (installed_search fuel m2 gi es gs' grp) as (r & Er & Hr); [done..|cbn; unfold NGROUPS_MAX; lia|cbn; lia|].
      exists r. split; [done|]. rewrite Hr. unfold member. setoid_rewrite Hgs'. naive_solver. }
  eexists m2, _, 0. split; [done|]. right. split_and!; [done|done|done|intros; apply Hin|intros; apply Hin|].
  exists gs'. split; [|done]. unfold getgroups. cbn [group_info_of set_groups ngroups].
  rewrite (proj2 (Z.ltb_ge n 0)) by lia. destruct (Z.eqb_spec n 0) as [E0|E0].
  { destruct gs; [|cbn in n; lia]. by apply Permutation_nil_l in Hgs' as ->. }
  rewrite (proj2 (Z.ltb_ge n n)) by lia. unfold groups_to_user. cbn [ngroups].
  assert (n = Z.of_nat (length gs')) as En by (unfold n; by rewrite Hgs'). replace (Z.to_nat n) with (length gs') by lia.
  rewrite (to_user_loop_spec fuel user_ns es gi Hok Hfe m2 ov); [done| |].
  - apply (map_rep_outside m1 m2 _ _ alloc (n * 4)); [done|done|]. by apply (map_rep_outside m m1 _ _ alloc (n * 4)).
  - rewrite <- En. exact HF'.
Qed.

(** A namespace that maps 0-99 to 1000-1099; the list is 7, 3. *)
Lemma setgroups_correct_witness :
  let ns := MkNs empty_map (MkMap 1 (Base [MkExtent 0 1000 100])) empty_map 0 1 in
  ∃ m' c, setgroups 20 (λ _, 0) true true 5000 ns (MkCred 1 1 None) 2 (user_list [7; 3]) = Ok (m', c, 0) ∧
    in_group_p 20 m' c 1003 = Ok 1 ∧ in_group_p 20 m' c 1004 = Ok 0.
Proof.
  intros ns.
  destruct (setgroups_correct 20 (λ _, 0) 5000 65534 ns [MkExtent 0 1000 100] (MkCred 1 1 None) [7; 3])
    as (m' & c & ret & E & _); [done|split; [done|by exists [MkExtent 0 1000 100]]| |done|intros x; lia|done|done| |cbn; lia|cbn; lia|].
  - split; [intros e ->%list_elem_of_singleton; unfold extent_ok; cbn; lia|].
    intros e1 e2 ->%list_elem_of_singleton ->%list_elem_of_singleton. by left.
  - repeat constructor; lia.
  - vm_compute in E. injection E as <- <- <-. eexists _, _. split; [vm_compute; reflexivity|].
    split; vm_compute; reflexivity.
Defined.
