(* ===== verification/PosixAcl.v ===== *)
(** * POSIX access control lists

    The lists of src/posix_acl/src/posix_acl.c: validity, the access check,
    the correspondence with the mode bits, and the extended attributes they
    are stored in, as bytes in memory. *)

From stdpp Require Import base numbers list option.
From Stdlib Require Import ZArith Lia.
From S2P Require Import Prelude Strings StringsSpec Sort SortHeap SortSpec Kstrtox IdMap IdMapSpec IdMapWrite Groups.
Import Strings Sort IdMap Groups.

Open Scope Z_scope.

Module PosixAcl.

Definition EIO : Z := 5.
Definition EACCES : Z := 13.
Definition EINVAL : Z := 22.
Definition ERANGE : Z := 34.
Definition ENODATA : Z := 61.
Definition EOPNOTSUPP : Z := 95.

Definition ACL_UNDEFINED_ID : Z := 2 ^ 32 - 1.
Definition ACL_TYPE_ACCESS : Z := 32768.
Definition ACL_TYPE_DEFAULT : Z := 16384.

Definition ACL_USER_OBJ : Z := 1.
Definition ACL_USER : Z := 2.
Definition ACL_GROUP_OBJ : Z := 4.
Definition ACL_GROUP : Z := 8.
Definition ACL_MASK : Z := 16.
Definition ACL_OTHER : Z := 32.

Definition S_IRWXU : Z := 448.
Definition S_IRWXG : Z := 56.
Definition S_IRWXO : Z := 7.
Definition S_IRWXUGO : Z := 511.
Definition S_ISGID : Z := 1024.
Definition S_ISLNK (mode : Z) : bool := Z.land mode 61440 =? 40960.
Definition S_ISDIR (mode : Z) : bool := Z.land mode 61440 =? 16384.

(** [e_tag] is a short, [e_perm] an unsigned short; [e_id] is the union of the
    two kinds of id. *)
Record posix_acl_entry := MkEntry { e_tag : Z; e_perm : Z; e_id : Z }.

(** The entries; [a_count] is their number. *)
Definition posix_acl : Type := list posix_acl_entry.

Definition with_perm (pa : posix_acl_entry) (perm : Z) : posix_acl_entry := MkEntry (e_tag pa) perm (e_id pa).

(** What an allocation returns: failure, or memory whose id fields hold
    anything. *)
Definition allocation : Type := option (nat → Z).

(** ** Validity *)

Fixpoint valid_loop (fuel : nat) (m : mem) (user_ns : user_namespace) (acl : posix_acl) (state : Z)
    (needs_mask : bool) : outcome Z :=
  match acl with
  | [] => Ok (if state =? 0 then 0 else - EINVAL)
  | pa :: acl =>
      if negb (Z.land (e_perm pa) (Z.lnot 7) =? 0) then Ok (- EINVAL)
      else if e_tag pa =? ACL_USER_OBJ then
        if state =? ACL_USER_OBJ then valid_loop fuel m user_ns acl ACL_USER needs_mask else Ok (- EINVAL)
      else if e_tag pa =? ACL_USER then
        if negb (state =? ACL_USER) then Ok (- EINVAL)
        else
          has ← kuid_has_mapping fuel m user_ns (e_id pa);
          if negb has then Ok (- EINVAL) else valid_loop fuel m user_ns acl state true
      else if e_tag pa =? ACL_GROUP_OBJ then
        if state =? ACL_USER then valid_loop fuel m user_ns acl ACL_GROUP needs_mask else Ok (- EINVAL)
      else if e_tag pa =? ACL_GROUP then
        if negb (state =? ACL_GROUP) then Ok (- EINVAL)
        else
          has ← kgid_has_mapping fuel m user_ns (e_id pa);
          if negb has then Ok (- EINVAL) else valid_loop fuel m user_ns acl state true
      else if e_tag pa =? ACL_MASK then
        if negb (state =? ACL_GROUP) then Ok (- EINVAL) else valid_loop fuel m user_ns acl ACL_OTHER needs_mask
      else if e_tag pa =? ACL_OTHER then
        if (state =? ACL_OTHER) || ((state =? ACL_GROUP) && negb needs_mask)
        then valid_loop fuel m user_ns acl 0 needs_mask else Ok (- EINVAL)
      else Ok (- EINVAL)
  end.

Definition posix_acl_valid (fuel : nat) (m : mem) (user_ns : user_namespace) (acl : posix_acl) : outcome Z :=
  valid_loop fuel m user_ns acl ACL_USER_OBJ false.

(** ** Mode bits *)

(** The mode and whether the list says more than it; [None] is the error. *)
Fixpoint equiv_loop (acl : posix_acl) (mode : Z) (not_equiv : Z) : option (Z * Z) :=
  match acl with
  | [] => Some (mode, not_equiv)
  | pa :: acl =>
      let perm := Z.land (e_perm pa) S_IRWXO in
      if e_tag pa =? ACL_USER_OBJ then equiv_loop acl (u16 (Z.lor mode (Z.shiftl perm 6))) not_equiv
      else if e_tag pa =? ACL_GROUP_OBJ then equiv_loop acl (u16 (Z.lor mode (Z.shiftl perm 3))) not_equiv
      else if e_tag pa =? ACL_OTHER then equiv_loop acl (u16 (Z.lor mode perm)) not_equiv
      else if e_tag pa =? ACL_MASK then
        equiv_loop acl (u16 (Z.lor (Z.land mode (Z.lnot S_IRWXG)) (Z.shiftl perm 3))) 1
      else if (e_tag pa =? ACL_USER) || (e_tag pa =? ACL_GROUP) then equiv_loop acl mode 1
      else None
  end.

(** Returns the result and what [mode_p] points to. *)
Definition posix_acl_equiv_mode (acl : option posix_acl) (mode_p : Z) : Z * Z :=
  match acl with
  | None => (0, mode_p)
  | Some acl =>
      match equiv_loop acl 0 0 with
      | None => (- EINVAL, mode_p)
      | Some (mode, not_equiv) => (not_equiv, u16 (Z.lor (Z.land mode_p (Z.lnot S_IRWXUGO)) mode))
      end
  end.

Definition posix_acl_from_mode (mode : Z) (alloc : allocation) : Z + posix_acl :=
  match alloc with
  | None => inl (- ENOMEM)
  | Some ids =>
      inr [MkEntry ACL_USER_OBJ (Z.shiftr (Z.land mode S_IRWXU) 6) (ids 0%nat);
           MkEntry ACL_GROUP_OBJ (Z.shiftr (Z.land mode S_IRWXG) 3) (ids 1%nat);
           MkEntry ACL_OTHER (Z.land mode S_IRWXO) (ids 2%nat)]
  end.

(** ** The access check *)

Record inode := MkInode { i_uid : Z; i_gid : Z; i_mode : Z }.

(** The running task, as the checks see it. *)
Record task := MkTask { fsuid : Z; task_cred : cred }.

Definition check_perm (pa : posix_acl_entry) (want : Z) : Z :=
  if Z.land (e_perm pa) want =? want then 0 else - EACCES.

(** [mask]: the entries after [pa] are searched for the mask. *)
Fixpoint check_mask (pa : posix_acl_entry) (rest : posix_acl) (want : Z) : Z :=
  match rest with
  | [] => check_perm pa want
  | mask_obj :: rest =>
      if e_tag mask_obj =? ACL_MASK then
        if Z.land (Z.land (e_perm pa) (e_perm mask_obj)) want =? want then 0 else - EACCES
      else check_mask pa rest want
  end.

Fixpoint permission_loop (fuel : nat) (m : mem) (current : task) (inode : inode) (acl : posix_acl)
    (want : Z) (found : bool) : outcome Z :=
  match acl with
  | [] => Ok (- EIO)
  | pa :: acl =>
      if e_tag pa =? ACL_USER_OBJ then
        if i_uid inode =? fsuid current then Ok (check_perm pa want)
        else permission_loop fuel m current inode acl want found
      else if e_tag pa =? ACL_USER then
        if e_id pa =? fsuid current then Ok (check_mask pa acl want)
        else permission_loop fuel m current inode acl want found
      else if (e_tag pa =? ACL_GROUP_OBJ) || (e_tag pa =? ACL_GROUP) then
        inside ← in_group_p fuel m (task_cred current) (if e_tag pa =? ACL_GROUP_OBJ then i_gid inode else e_id pa);
        if negb (inside =? 0) then
          if Z.land (e_perm pa) want =? want then Ok (check_mask pa acl want)
          else permission_loop fuel m current inode acl want true
        else permission_loop fuel m current inode acl want found
      else if e_tag pa =? ACL_MASK then permission_loop fuel m current inode acl want found
      else if e_tag pa =? ACL_OTHER then Ok (if found then - EACCES else check_perm pa want)
      else Ok (- EIO)
  end.

Definition posix_acl_permission (fuel : nat) (m : mem) (current : task) (inode : inode) (acl : posix_acl)
    (want : Z) : outcome Z :=
  permission_loop fuel m current inode acl (Z.land want 7) false.

(** ** Creation and chmod *)

(** The loop of [posix_acl_create_masq]: the entries, and the mode with the
    indices of the group and mask entries and [not_equiv], or the error. *)
Fixpoint create_loop (acl : posix_acl) (i : nat) (mode : Z) (group_obj mask_obj : option nat) (not_equiv : Z) :
    posix_acl * option (Z * option nat * option nat * Z) :=
  match acl with
  | [] => ([], Some (mode, group_obj, mask_obj, not_equiv))
  | pa :: acl =>
      if e_tag pa =? ACL_USER_OBJ then
        let perm := u16 (Z.land (e_perm pa) (Z.lor (Z.shiftr mode 6) (Z.lnot S_IRWXO))) in
        let mode := u16 (Z.land mode (Z.lor (Z.shiftl perm 6) (Z.lnot S_IRWXU))) in
        let '(acl, r) := create_loop acl (S i) mode group_obj mask_obj not_equiv in
        (with_perm pa perm :: acl, r)
      else if (e_tag pa =? ACL_USER) || (e_tag pa =? ACL_GROUP) then
        let '(acl, r) := create_loop acl (S i) mode group_obj mask_obj 1 in (pa :: acl, r)
      else if e_tag pa =? ACL_GROUP_OBJ then
        let '(acl, r) := create_loop acl (S i) mode (Some i) mask_obj not_equiv in (pa :: acl, r)
      else if e_tag pa =? ACL_OTHER then
        let perm := u16 (Z.land (e_perm pa) (Z.lor mode (Z.lnot S_IRWXO))) in
        let mode := u16 (Z.land mode (Z.lor perm (Z.lnot S_IRWXO))) in
        let '(acl, r) := create_loop acl (S i) mode group_obj mask_obj not_equiv in
        (with_perm pa perm :: acl, r)
      else if e_tag pa =? ACL_MASK then
        let '(acl, r) := create_loop acl (S i) mode group_obj (Some i) 1 in (pa :: acl, r)
      else (pa :: acl, None)
  end.

(** The entry that holds the group class: the mask, or the owning group. *)
Definition class_obj (group_obj mask_obj : option nat) : option nat :=
  match mask_obj with Some k => Some k | None => group_obj end.

(** Returns the list, what [mode_p] points to and the result. *)
Definition posix_acl_create_masq (acl : posix_acl) (mode_p : Z) : posix_acl * Z * Z :=
  let '(acl, r) := create_loop acl 0 mode_p None None 0 in
  match r with
  | None => (acl, mode_p, - EIO)
  | Some (mode, group_obj, mask_obj, not_equiv) =>
      match class_obj group_obj mask_obj with
      | None => (acl, mode_p, - EIO)
      | Some k =>
          let perm := match acl !! k with
            | Some pa => u16 (Z.land (e_perm pa) (Z.lor (Z.shiftr mode 3) (Z.lnot S_IRWXO)))
            | None => 0 end in
          let mode := u16 (Z.land mode (Z.lor (Z.shiftl perm 3) (Z.lnot S_IRWXG))) in
          (alter (λ pa, with_perm pa perm) k acl,
           u16 (Z.lor (Z.land mode_p (Z.lnot S_IRWXUGO)) mode), not_equiv)
      end
  end.

Fixpoint chmod_loop (acl : posix_acl) (i : nat) (mode : Z) (group_obj mask_obj : option nat) :
    posix_acl * option (option nat * option nat) :=
  match acl with
  | [] => ([], Some (group_obj, mask_obj))
  | pa :: acl =>
      if e_tag pa =? ACL_USER_OBJ then
        let '(acl, r) := chmod_loop acl (S i) mode group_obj mask_obj in
        (with_perm pa (Z.shiftr (Z.land mode S_IRWXU) 6) :: acl, r)
      else if (e_tag pa =? ACL_USER) || (e_tag pa =? ACL_GROUP) then
        let '(acl, r) := chmod_loop acl (S i) mode group_obj mask_obj in (pa :: acl, r)
      else if e_tag pa =? ACL_GROUP_OBJ then
        let '(acl, r) := chmod_loop acl (S i) mode (Some i) mask_obj in (pa :: acl, r)
      else if e_tag pa =? ACL_MASK then
        let '(acl, r) := chmod_loop acl (S i) mode group_obj (Some i) in (pa :: acl, r)
      else if e_tag pa =? ACL_OTHER then
        let '(acl, r) := chmod_loop acl (S i) mode group_obj mask_obj in
        (with_perm pa (Z.land mode S_IRWXO) :: acl, r)
      else (pa :: acl, None)
  end.

Definition __posix_acl_chmod_masq (acl : posix_acl) (mode : Z) : posix_acl * Z :=
  let '(acl, r) := chmod_loop acl 0 mode None None in
  match r with
  | None => (acl, - EIO)
  | Some (group_obj, mask_obj) =>
      match class_obj group_obj mask_obj with
      | None => (acl, - EIO)
      | Some k => (alter (λ pa, with_perm pa (Z.shiftr (Z.land mode S_IRWXG) 3)) k acl, 0)
      end
  end.

(** [cloned] tells whether [kmemdup] got its memory. Returns what [acl] points
    to, the mode and the result. *)
Definition posix_acl_clone (acl : option posix_acl) (cloned : bool) : option posix_acl :=
  match acl with Some acl => if cloned then Some acl else None | None => None end.

Definition __posix_acl_create (acl : option posix_acl) (cloned : bool) (mode_p : Z) : option posix_acl * Z * Z :=
  match posix_acl_clone acl cloned with
  | None => (None, mode_p, - ENOMEM)
  | Some clone =>
      let '(clone, mode_p, err) := posix_acl_create_masq clone mode_p in
      (if err <? 0 then None else Some clone, mode_p, err)
  end.

Definition __posix_acl_chmod (acl : option posix_acl) (cloned : bool) (mode : Z) : option posix_acl * Z :=
  match posix_acl_clone acl cloned with
  | None => (None, - ENOMEM)
  | Some clone =>
      let '(clone, err) := __posix_acl_chmod_masq clone mode in
      (if negb (err =? 0) then None else Some clone, err)
  end.

(** What a filesystem supplies: whether it has ACLs ([IS_POSIXACL]), what
    [get_acl] returns for a type, the [set_acl] operation if it has one. *)
Record acl_ops := MkOps {
  is_posixacl : bool;
  get_acl : Z → Z + option posix_acl;
  set_acl : option (option posix_acl → Z → Z);
}.

Definition posix_acl_chmod (ops : acl_ops) (cloned : bool) (mode : Z) : Z :=
  if negb (is_posixacl ops) then 0
  else match set_acl ops with
  | None => - EOPNOTSUPP
  | Some set =>
      match get_acl ops ACL_TYPE_ACCESS with
      | inl err => if err =? - EOPNOTSUPP then 0 else err
      | inr None => 0
      | inr (Some acl) =>
          let '(acl, ret) := __posix_acl_chmod (Some acl) cloned mode in
          if negb (ret =? 0) then ret else set acl ACL_TYPE_ACCESS
      end
  end.

(** The mode, the default list and the access list of a new inode, and the
    result. *)
Definition posix_acl_create (ops : acl_ops) (cloned : bool) (umask mode : Z) :
    Z * option posix_acl * option posix_acl * Z :=
  if S_ISLNK mode || negb (is_posixacl ops) then (mode, None, None, 0)
  else match get_acl ops ACL_TYPE_DEFAULT with
  | inr None => (u16 (Z.land mode (Z.lnot umask)), None, None, 0)
  | inl err =>
      if err =? - EOPNOTSUPP then (u16 (Z.land mode (Z.lnot umask)), None, None, 0) else (mode, None, None, err)
  | inr (Some p) =>
      match posix_acl_clone (Some p) cloned with
      | None => (mode, None, None, - ENOMEM)
      | Some clone =>
          let '(clone, mode, ret) := posix_acl_create_masq clone mode in
          if ret <? 0 then (mode, None, None, ret)
          else (mode, if S_ISDIR mode then Some p else None, if ret =? 0 then None else Some clone, 0)
      end
  end.

(** [keeps_sgid]: the task is in the owning group or has CAP_FSETID over the
    inode. Returns the mode, the list and the result. *)
Definition posix_acl_update_mode (inode : inode) (keeps_sgid : bool) (mode_p : Z) (acl : option posix_acl) :
    Z * option posix_acl * Z :=
  let '(error, mode) := posix_acl_equiv_mode acl (i_mode inode) in
  if error <? 0 then (mode_p, acl, error)
  else
    let acl := if error =? 0 then None else acl in
    let mode := if negb keeps_sgid then u16 (Z.land mode (Z.lnot S_ISGID)) else mode in
    (mode, acl, 0).

(** ** Extended attributes

    A header of four bytes and entries of eight, little-endian: tag and
    permissions in two bytes each, the id in four. *)

Definition POSIX_ACL_XATTR_VERSION : Z := 2.
Definition XATTR_HEADER : Z := 4.
Definition XATTR_ENTRY : Z := 8.

Definition read16 (m : mem) (a : Z) : Z := m a + m (a + 1) * 2 ^ 8.
Definition write16 (m : mem) (a w : Z) : mem := write_bytes m a w 2.

Definition posix_acl_xattr_size (count : Z) : Z := u64 (XATTR_HEADER + count * XATTR_ENTRY).

Definition posix_acl_xattr_count (size : Z) : Z :=
  if size <? XATTR_HEADER then -1
  else
    let size := size - XATTR_HEADER in
    if negb (size mod XATTR_ENTRY =? 0) then -1 else s32 (size / XATTR_ENTRY).

(** The ids of the entries at [entry] from one namespace to the other. *)
Fixpoint fix_loop (fuel : nat) (m : mem) (to from : user_namespace) (entry : Z) (n : nat) : outcome mem :=
  match n with
  | O => Ok m
  | S n =>
      m ←
        (if read16 m entry =? ACL_USER then
           uid ← make_kuid fuel m from (read32 m (entry + 4));
           id ← from_kuid fuel m to uid;
           Ok (write32 m (entry + 4) id)
         else if read16 m entry =? ACL_GROUP then
           gid ← make_kgid fuel m from (read32 m (entry + 4));
           id ← from_kgid fuel m to gid;
           Ok (write32 m (entry + 4) id)
         else Ok m);
      fix_loop fuel m to from (entry + XATTR_ENTRY) n
  end.

Definition posix_acl_fix_xattr_userns (fuel : nat) (m : mem) (to from : user_namespace) (value size : Z) : outcome mem :=
  if value =? NULL then Ok m
  else if size <? XATTR_HEADER then Ok m
  else if negb (read32 m value =? POSIX_ACL_XATTR_VERSION) then Ok m
  else
    let count := posix_acl_xattr_count size in
    if count <? 0 then Ok m
    else if count =? 0 then Ok m
    else fix_loop fuel m to from (value + XATTR_HEADER) (Z.to_nat count).

(** [is_init] tells that the namespace of the caller is the initial one. *)
Definition posix_acl_fix_xattr_from_user (fuel : nat) (m : mem) (init_user_ns user_ns : user_namespace)
    (is_init : bool) (value size : Z) : outcome mem :=
  if is_init then Ok m else posix_acl_fix_xattr_userns fuel m init_user_ns user_ns value size.

Definition posix_acl_fix_xattr_to_user (fuel : nat) (m : mem) (init_user_ns user_ns : user_namespace)
    (is_init : bool) (value size : Z) : outcome mem :=
  if is_init then Ok m else posix_acl_fix_xattr_userns fuel m user_ns init_user_ns value size.

(** The entries from [entry] on, [i] of the list; [None] is [goto fail]. *)
Fixpoint from_xattr_loop (fuel : nat) (m : mem) (user_ns : user_namespace) (ids : nat → Z) (entry : Z) (i n : nat) :
    outcome (option posix_acl) :=
  match n with
  | O => Ok (Some [])
  | S n =>
      let tag := s16 (read16 m entry) in
      let perm := read16 m (entry + 2) in
      id ←
        (if (tag =? ACL_USER_OBJ) || (tag =? ACL_GROUP_OBJ) || (tag =? ACL_MASK) || (tag =? ACL_OTHER) then Ok (Some (ids i))
         else if tag =? ACL_USER then
           uid ← make_kuid fuel m user_ns (read32 m (entry + 4));
           Ok (if uid =? INVALID_ID then None else Some uid)
         else if tag =? ACL_GROUP then
           gid ← make_kgid fuel m user_ns (read32 m (entry + 4));
           Ok (if gid =? INVALID_ID then None else Some gid)
         else Ok None);
      match id with
      | None => Ok None
      | Some id =>
          r ← from_xattr_loop fuel m user_ns ids (entry + XATTR_ENTRY) (S i) n;
          Ok (match r with Some l => Some (MkEntry tag perm id :: l) | None => None end)
      end
  end.

(** An error, NULL or a list. *)
Definition posix_acl_from_xattr (fuel : nat) (m : mem) (user_ns : user_namespace) (alloc : allocation)
    (value size : Z) : outcome (Z + option posix_acl) :=
  if value =? NULL then Ok (inr None)
  else if size <? XATTR_HEADER then Ok (inl (- EINVAL))
  else if negb (read32 m value =? POSIX_ACL_XATTR_VERSION) then Ok (inl (- EOPNOTSUPP))
  else
    let count := posix_acl_xattr_count size in
    if count <? 0 then Ok (inl (- EINVAL))
    else if count =? 0 then Ok (inr None)
    else match alloc with
    | None => Ok (inl (- ENOMEM))
    | Some ids =>
        r ← from_xattr_loop fuel m user_ns ids (value + XATTR_HEADER) 0 (Z.to_nat count);
        Ok (match r with Some acl => inr (Some acl) | None => inl (- EINVAL) end)
    end.

Fixpoint to_xattr_loop (fuel : nat) (m : mem) (user_ns : user_namespace) (acl : posix_acl) (ext_entry : Z) : outcome mem :=
  match acl with
  | [] => Ok m
  | acl_e :: acl =>
      let m := write16 m ext_entry (u16 (e_tag acl_e)) in
      let m := write16 m (ext_entry + 2) (e_perm acl_e) in
      id ← (if e_tag acl_e =? ACL_USER then from_kuid fuel m user_ns (e_id acl_e)
            else if e_tag acl_e =? ACL_GROUP then from_kgid fuel m user_ns (e_id acl_e)
            else Ok ACL_UNDEFINED_ID);
      to_xattr_loop fuel (write32 m (ext_entry + 4) id) user_ns acl (ext_entry + XATTR_ENTRY)
  end.

Definition posix_acl_to_xattr (fuel : nat) (m : mem) (user_ns : user_namespace) (acl : posix_acl)
    (buffer size : Z) : outcome (mem * Z) :=
  let real_size := s32 (posix_acl_xattr_size (Z.of_nat (length acl))) in
  if buffer =? NULL then Ok (m, real_size)
  else if size <? u64 real_size then Ok (m, - ERANGE)
  else
    let m := write32 m buffer POSIX_ACL_XATTR_VERSION in
    m ← to_xattr_loop fuel m user_ns acl (buffer + XATTR_HEADER);
    Ok (m, real_size).

(** ** The attribute handlers *)

Definition posix_acl_xattr_get (fuel : nat) (m : mem) (init_user_ns : user_namespace) (ops : acl_ops) (inode : inode)
    (type value size : Z) : outcome (mem * Z) :=
  if negb (is_posixacl ops) then Ok (m, - EOPNOTSUPP)
  else if S_ISLNK (i_mode inode) then Ok (m, - EOPNOTSUPP)
  else match get_acl ops type with
  | inl err => Ok (m, err)
  | inr None => Ok (m, - ENODATA)
  | inr (Some acl) => posix_acl_to_xattr fuel m init_user_ns acl value size
  end.

(** [owner_or_capable]: [inode_owner_or_capable (inode)]; [s_user_ns]: the
    namespace of the filesystem. *)
Definition set_posix_acl (fuel : nat) (m : mem) (s_user_ns : user_namespace) (ops : acl_ops) (inode : inode)
    (owner_or_capable : bool) (type : Z) (acl : option posix_acl) : outcome Z :=
  if negb (is_posixacl ops) then Ok (- EOPNOTSUPP)
  else match set_acl ops with
  | None => Ok (- EOPNOTSUPP)
  | Some set =>
      if (type =? ACL_TYPE_DEFAULT) && negb (S_ISDIR (i_mode inode)) then
        Ok (match acl with Some _ => - EACCES | None => 0 end)
      else if negb owner_or_capable then Ok (- EPERM)
      else match acl with
      | None => Ok (set acl type)
      | Some l =>
          ret ← posix_acl_valid fuel m s_user_ns l;
          Ok (if negb (ret =? 0) then ret else set acl type)
      end
  end.

Definition posix_acl_xattr_set (fuel : nat) (m : mem) (init_user_ns s_user_ns : user_namespace) (ops : acl_ops)
    (inode : inode) (owner_or_capable : bool) (alloc : allocation) (type value size : Z) : outcome Z :=
  r ← (if negb (value =? NULL) then posix_acl_from_xattr fuel m init_user_ns alloc value size else Ok (inr None));
  match r with
  | inl err => Ok err
  | inr acl => set_posix_acl fuel m s_user_ns ops inode owner_or_capable type acl
  end.

(** [simple_set_acl]: the mode and the list that is cached, or the error. *)
Definition simple_set_acl (inode : inode) (keeps_sgid : bool) (acl : option posix_acl) (type : Z) :
    Z + Z * option posix_acl :=
  if type =? ACL_TYPE_ACCESS then
    let '(mode, acl, error) := posix_acl_update_mode inode keeps_sgid (i_mode inode) acl in
    if negb (error =? 0) then inl error else inr (mode, acl)
  else inr (i_mode inode, acl).

End PosixAcl.
