(* ===== verification/PosixAclSpec.v ===== *)
(** * What access control lists mean

    The shape of a valid list, the access it grants, and its relation to the
    mode bits of the file. *)

From stdpp Require Import base numbers list option.
From Stdlib Require Import ZArith Lia.
From S2P Require Import Prelude Strings StringsSpec Sort SortHeap SortSpec Kstrtox IdMap IdMapSpec IdMapWrite Groups PosixAcl.
Import Strings Sort IdMap Groups PosixAcl.

Open Scope Z_scope.

(** ** The shape of a valid list *)

(** The entries by role. *)
Record parts := MkParts {
  p_owner : posix_acl_entry;
  p_users : list posix_acl_entry;
  p_group : posix_acl_entry;
  p_groups : list posix_acl_entry;
  p_mask : option posix_acl_entry;
  p_other : posix_acl_entry;
}.

Definition assemble (p : parts) : posix_acl :=
  p_owner p :: p_users p ++ p_group p :: p_groups p ++ option_list (p_mask p) ++ [p_other p].

(** An entry of a kind, with permission bits only. *)
Definition entry_ok (tag : Z) (e : posix_acl_entry) : Prop := e_tag e = tag ∧ 0 ≤ e_perm e < 8.

(** The ids of the named entries are given by the namespace; [uid] and [gid]
    say which kernel ids are. *)
Record parts_ok (uid gid : Z → Prop) (p : parts) : Prop := {
  ok_owner : entry_ok ACL_USER_OBJ (p_owner p);
  ok_users : Forall (λ e, entry_ok ACL_USER e ∧ uid (e_id e)) (p_users p);
  ok_group : entry_ok ACL_GROUP_OBJ (p_group p);
  ok_groups : Forall (λ e, entry_ok ACL_GROUP e ∧ gid (e_id e)) (p_groups p);
  ok_mask : match p_mask p with Some e => entry_ok ACL_MASK e | None => p_users p = [] ∧ p_groups p = [] end;
  ok_other : entry_ok ACL_OTHER (p_other p);
}.

(** The fields of a list in memory have their widths. *)
Definition words (acl : posix_acl) : Prop := Forall (λ e, 0 ≤ e_perm e < 2 ^ 16 ∧ 0 ≤ e_id e < 2 ^ 32) acl.

Lemma perm_check p : 0 ≤ p < 2 ^ 16 → Z.land p (Z.lnot 7) = 0 ↔ p < 8.
Proof.
  intros Hp. rewrite <- Z.ldiff_land. change 7 with (Z.ones 3). rewrite Z.ldiff_ones_r by lia.
  rewrite Z.shiftl_mul_pow2, Z.shiftr_div_pow2 by lia. change (2 ^ 3) with 8.
  pose proof (Z.div_mod p 8 ltac:(lia)). pose proof (Z.mod_pos_bound p 8 ltac:(lia)). lia.
Qed.

Section Valid.
Context (fuel : nat) (m : mem) (user_ns : user_namespace) (uid gid : Z → Prop).
(** Looking an id up tells whether the namespace has it. *)
Hypothesis has_uid : ∀ k, 0 ≤ k < 2 ^ 32 → ∃ b, kuid_has_mapping fuel m user_ns k = Ok b ∧ (b = true ↔ uid k).
Hypothesis has_gid : ∀ k, 0 ≤ k < 2 ^ 32 → ∃ b, kgid_has_mapping fuel m user_ns k = Ok b ∧ (b = true ↔ gid k).

Abbreviation loop := (valid_loop fuel m user_ns).

(** What may follow in each state of the check. *)
Inductive tail_ok : Z → bool → posix_acl → Prop :=
  | tail_end n : tail_ok 0 n []
  | tail_owner e n l : entry_ok ACL_USER_OBJ e → tail_ok ACL_USER n l → tail_ok ACL_USER_OBJ n (e :: l)
  | tail_user e n l : entry_ok ACL_USER e → uid (e_id e) → tail_ok ACL_USER true l → tail_ok ACL_USER n (e :: l)
  | tail_group_obj e n l : entry_ok ACL_GROUP_OBJ e → tail_ok ACL_GROUP n l → tail_ok ACL_USER n (e :: l)
  | tail_group e n l : entry_ok ACL_GROUP e → gid (e_id e) → tail_ok ACL_GROUP true l → tail_ok ACL_GROUP n (e :: l)
  | tail_mask e n l : entry_ok ACL_MASK e → tail_ok ACL_OTHER n l → tail_ok ACL_GROUP n (e :: l)
  | tail_other e n l : entry_ok ACL_OTHER e → tail_ok 0 n l → tail_ok ACL_OTHER n (e :: l)
  | tail_bare e l : entry_ok ACL_OTHER e → tail_ok 0 false l → tail_ok ACL_GROUP false (e :: l).

Create HintDb acl.
#[local] Hint Constructors tail_ok : acl.

(** What a step answers, against what may follow. *)
Definition decides (o : outcome Z) (ok : Prop) : Prop :=
  ∃ r, o = Ok r ∧ ((r = 0 ∧ ok) ∨ (r = - EINVAL ∧ ¬ ok)).

Lemma decides_refuse ok : ¬ ok → decides (Ok (- EINVAL)) ok.
Proof. intros H. exists (- EINVAL). split; [done|]. by right. Qed.

Lemma decides_iff o ok ok' : decides o ok → (ok ↔ ok') → decides o ok'.
Proof. intros (r & -> & Hr) H. exists r. split; [done|]. tauto. Qed.

Lemma decides_lookup (o : outcome bool) k ok ok' P :
  (∃ b, o = Ok b ∧ (b = true ↔ P)) → decides k ok → (ok' ↔ P ∧ ok) →
  decides (b ← o; if negb b then Ok (- EINVAL) else k) ok'.
Proof.
  intros (b & -> & Hb) Hk H. cbn [mbind outcome_bind]. destruct b; cbn [negb].
  - eapply decides_iff; [done|]. tauto.
  - apply decides_refuse. intros [HP _]%H. by apply Hb in HP.
Qed.

(** Reads the tags off an assumption that the rest may follow. *)
Ltac tail_inv :=
  let H := fresh in
  intros H; inversion H; subst;
  repeat match goal with K : entry_ok _ _ |- _ => destruct K as [? ?] end;
  unfold ACL_USER_OBJ, ACL_USER, ACL_GROUP_OBJ, ACL_GROUP, ACL_MASK, ACL_OTHER in *; try congruence; try lia.

Lemma valid_loop_spec acl : ∀ state n, words acl → decides (loop acl state n) (tail_ok state n acl).
Proof.
  induction acl as [|e l IH]; intros state n Hw; cbn [valid_loop].
  { destruct (Z.eqb_spec state 0) as [->|Hne]; [exists 0; auto with acl|]. apply decides_refuse. tail_inv. }
  apply list.Forall_cons in Hw as [[Hp Hid] Hw]. pose proof (perm_check (e_perm e) Hp) as Hperm.
  destruct (Z.eqb_spec (Z.land (e_perm e) (Z.lnot 7)) 0) as [E|E]; cbn [negb]; [|apply decides_refuse; tail_inv].
  apply Hperm in E. assert (∀ t, e_tag e = t → entry_ok t e) as He by (intros t <-; split; lia).
  assert (∀ s k, decides (loop l s k) (tail_ok s k l)) as IH' by auto. clear IH Hperm.
  destruct (Z.eqb_spec (e_tag e) ACL_USER_OBJ) as [T|T1].
  { destruct (Z.eqb_spec state ACL_USER_OBJ) as [->|Hne]; [|apply decides_refuse; tail_inv].
    eapply decides_iff; [apply IH'|]. split; [auto with acl|tail_inv; done]. }
  destruct (Z.eqb_spec (e_tag e) ACL_USER) as [T|T2].
  { destruct (Z.eqb_spec state ACL_USER) as [->|Hne]; cbn [negb]; [|apply decides_refuse; tail_inv].
    eapply decides_lookup; [by apply has_uid|apply IH'|]. split; [tail_inv; done|intros [??]; auto with acl]. }
  destruct (Z.eqb_spec (e_tag e) ACL_GROUP_OBJ) as [T|T3].
  { destruct (Z.eqb_spec state ACL_USER) as [->|Hne]; [|apply decides_refuse; tail_inv].
    eapply decides_iff; [apply IH'|]. split; [auto with acl|tail_inv; done]. }
  destruct (Z.eqb_spec (e_tag e) ACL_GROUP) as [T|T4].
  { destruct (Z.eqb_spec state ACL_GROUP) as [->|Hne]; cbn [negb]; [|apply decides_refuse; tail_inv].
    eapply decides_lookup; [by apply has_gid|apply IH'|]. split; [tail_inv; done|intros [??]; auto with acl]. }
  destruct (Z.eqb_spec (e_tag e) ACL_MASK) as [T|T5].
  { destruct (Z.eqb_spec state ACL_GROUP) as [->|Hne]; cbn [negb]; [|apply decides_refuse; tail_inv].
    eapply decides_iff; [apply IH'|]. split; [auto with acl|tail_inv; done]. }
  destruct (Z.eqb_spec (e_tag e) ACL_OTHER) as [T|T6]; [|apply decides_refuse; tail_inv].
  destruct (Z.eqb_spec state ACL_OTHER) as [->|Hne]; cbn [orb].
  { eapply decides_iff; [apply IH'|]. split; [auto with acl|tail_inv; done]. }
  destruct (Z.eqb_spec state ACL_GROUP) as [->|Hne']; cbn [andb]; [|apply decides_refuse; tail_inv].
  destruct n; cbn [negb]; [apply decides_refuse; tail_inv|].
  eapply decides_iff; [apply IH'|]. split; [auto with acl|tail_inv; done].
Qed.

(** The lists that may follow in each state, in full. *)
Lemma tail_other_inv n l : tail_ok ACL_OTHER n l → ∃ o, l = [o] ∧ entry_ok ACL_OTHER o.
Proof.
  intros H. inversion H as [| | | | | |e k l' He H'|]; subst. exists e. split; [|done]. by inversion H'.
Qed.

Lemma tail_group_inv n l : tail_ok ACL_GROUP n l →
  ∃ gs k o, l = gs ++ option_list k ++ [o] ∧ entry_ok ACL_OTHER o ∧
    Forall (λ e, entry_ok ACL_GROUP e ∧ gid (e_id e)) gs ∧
    match k with Some e => entry_ok ACL_MASK e | None => n = false ∧ gs = [] end.
Proof.
  revert n. induction l as [|e l IH]; intros n H; inversion H as [| | | |e' k' l' He Hg H'|e' k' l' He H'| |e' l' He H']; subst.
  - destruct (IH true H') as (gs & k & o & -> & Ho & Hgs & Hk). exists (e :: gs), k, o.
    split_and!; [done|done|by constructor|]. destruct k; [done|]. by destruct Hk.
  - apply tail_other_inv in H' as (o & -> & Ho). by exists [], (Some e), o.
  - inversion H'; subst. by exists [], None, e.
Qed.

Lemma tail_user_inv n l : tail_ok ACL_USER n l →
  ∃ us g gs k o, l = us ++ g :: gs ++ option_list k ++ [o] ∧ entry_ok ACL_GROUP_OBJ g ∧ entry_ok ACL_OTHER o ∧
    Forall (λ e, entry_ok ACL_USER e ∧ uid (e_id e)) us ∧ Forall (λ e, entry_ok ACL_GROUP e ∧ gid (e_id e)) gs ∧
    match k with Some e => entry_ok ACL_MASK e | None => n = false ∧ us = [] ∧ gs = [] end.
Proof.
  revert n. induction l as [|e l IH]; intros n H; inversion H as [| |e' k' l' He Hu H'|e' k' l' He H'| | | |]; subst.
  - destruct (IH true H') as (us & g & gs & k & o & -> & Hg & Ho & Hus & Hgs & Hk). exists (e :: us), g, gs, k, o.
    split_and!; [done|done|done|by constructor|done|]. destruct k; [done|]. by destruct Hk.
  - apply tail_group_inv in H' as (gs & k & o & -> & Ho & Hgs & Hk). exists [], e, gs, k, o.
    split_and!; try done. destruct k; [done|]. naive_solver.
Qed.

(** The check accepts the lists of the right shape. *)
Lemma tail_groups n gs k o :
  Forall (λ e, entry_ok ACL_GROUP e ∧ gid (e_id e)) gs → entry_ok ACL_OTHER o →
  match k with Some e => entry_ok ACL_MASK e | None => n = false ∧ gs = [] end →
  tail_ok ACL_GROUP n (gs ++ option_list k ++ [o]).
Proof.
  intros Hgs Ho Hk. revert n Hk. induction Hgs as [|e gs [He Hg] _ IH]; intros n Hk.
  - destruct k as [e|]; cbn; [auto with acl|]. destruct Hk as [-> _]. auto with acl.
  - cbn. apply tail_group; [done|done|]. apply IH. destruct k; [done|]. by destruct Hk.
Qed.

Lemma tail_users n us g rest :
  Forall (λ e, entry_ok ACL_USER e ∧ uid (e_id e)) us → entry_ok ACL_GROUP_OBJ g →
  (∀ b, (us = [] → b = n) → tail_ok ACL_GROUP b rest) → tail_ok ACL_USER n (us ++ g :: rest).
Proof.
  intros Hus Hg. revert n. induction Hus as [|e us [He Hu] _ IH]; intros n Hrest; cbn.
  - apply tail_group_obj; [done|]. by apply Hrest.
  - apply tail_user; [done|done|]. apply IH. intros b Hb. apply Hrest. done.
Qed.

Lemma posix_acl_valid_spec acl :
  words acl → decides (posix_acl_valid fuel m user_ns acl) (∃ p, acl = assemble p ∧ parts_ok uid gid p).
Proof.
  intros Hw. eapply decides_iff; [by apply valid_loop_spec|]. split.
  - intros H. inversion H as [|e n l He H'| | | | | |]; subst.
    apply tail_user_inv in H' as (us & g & gs & k & o & -> & Hg & Ho & Hus & Hgs & Hk).
    exists (MkParts e us g gs k o). split; [done|]. split; try done. destruct k; [done|]. by destruct Hk.
  - intros (p & -> & [H1 H2 H3 H4 H5 H6]). apply tail_owner; [done|]. apply tail_users; [done|done|].
    intros b Hb. apply tail_groups; [done|done|]. destruct (p_mask p); [done|]. destruct H5 as [Hu Hg]. auto.
Qed.

End Valid.

(** ** The access granted *)

Definition grants (perm want : Z) : bool := Z.land perm want =? want.

(** The mask limits every entry but the owner's and the others'. *)
Definition masked (k : option posix_acl_entry) (perm : Z) : Z :=
  match k with Some e => Z.land perm (e_perm e) | None => perm end.

(** The groups of the list with their permissions. *)
Definition group_entries (inode : inode) (p : parts) : list (Z * Z) :=
  (i_gid inode, e_perm (p_group p)) :: map (λ e, (e_id e, e_perm e)) (p_groups p).

(** The access check of POSIX.1e: the owner by the owner entry; else a named
    user by the first entry that names it, masked; else a member of some
    group of the list by any of those entries, masked; else by the entry for
    others. *)
Definition access (inside : Z → bool) (fsuid : Z) (inode : inode) (p : parts) (want : Z) : bool :=
  if i_uid inode =? fsuid then grants (e_perm (p_owner p)) want
  else match find (λ e, e_id e =? fsuid) (p_users p) with
  | Some e => grants (masked (p_mask p) (e_perm e)) want
  | None =>
      let mine := filter (λ ge, inside ge.1 = true) (group_entries inode p) in
      match mine with
      | [] => grants (e_perm (p_other p)) want
      | _ => existsb (λ ge, grants (masked (p_mask p) ge.2) want) mine
      end
  end.

Definition verdict (b : bool) : Z := if b then 0 else - EACCES.

Lemma grants_land a b want : grants (Z.land a b) want = grants a want && grants b want.
Proof.
  unfold grants. destruct (Z.eqb_spec (Z.land a want) want) as [Ha|Ha]; cbn [andb].
  - destruct (Z.eqb_spec (Z.land b want) want) as [Hb|Hb].
    + apply Z.eqb_eq. by rewrite <- Z.land_assoc, Hb.
    + apply Z.eqb_neq. contradict Hb. rewrite <- Hb at 2. rewrite <- Z.land_assoc, Z.land_assoc, (Z.land_comm a), <- Z.land_assoc, Ha. done.
  - apply Z.eqb_neq. contradict Ha. rewrite <- Ha at 1. rewrite !Z.land_assoc, Z.land_diag. done.
Qed.

Section Permission.
Context (fuel : nat) (m : mem) (current : task) (inode : inode) (inside : Z → bool).
Hypothesis in_group : ∀ g, ∃ r, in_group_p fuel m (task_cred current) g = Ok r ∧ (r ≠ 0 ↔ inside g = true).

Lemma in_group_test {A} g (x y : outcome A) :
  (r ← in_group_p fuel m (task_cred current) g; if negb (r =? 0) then x else y) = if inside g then x else y.
Proof.
  destruct (in_group g) as (r & -> & Hr). cbn [mbind outcome_bind].
  destruct (Z.eqb_spec r 0) as [->|Hne]; cbn [negb]; destruct (inside g) eqn:E; try done.
  - by destruct (proj2 Hr eq_refl).
  - by apply Hr in Hne.
Qed.

Lemma check_mask_spec e l k o want :
  Forall (λ e, e_tag e ≠ ACL_MASK) l → match k with Some e => e_tag e = ACL_MASK | None => True end →
  e_tag o ≠ ACL_MASK →
  check_mask e (l ++ option_list k ++ [o]) want = verdict (grants (masked k (e_perm e)) want).
Proof.
  intros Hl Hk Ho. induction Hl as [|e' l He' _ IH]; cbn.
  - destruct k as [ek|]; cbn; [by rewrite (proj2 (Z.eqb_eq _ _) Hk)|].
    by rewrite (proj2 (Z.eqb_neq _ _) Ho).
  - by rewrite (proj2 (Z.eqb_neq _ _) He').
Qed.

Lemma tags_not_mask t l : t ≠ ACL_MASK → Forall (entry_ok t) l → Forall (λ e, e_tag e ≠ ACL_MASK) l.
Proof. intros Ht Hl. eapply list.Forall_impl; [done|]. by intros x [-> _]. Qed.

(** The steps of the loop, by tag. *)
Lemma permission_owner e l want found : e_tag e = ACL_USER_OBJ →
  permission_loop fuel m current inode (e :: l) want found =
  if i_uid inode =? fsuid current then Ok (check_perm e want) else permission_loop fuel m current inode l want found.
Proof. intros He. cbn [permission_loop]. by rewrite He. Qed.

Lemma permission_user e l want found : e_tag e = ACL_USER →
  permission_loop fuel m current inode (e :: l) want found =
  if e_id e =? fsuid current then Ok (check_mask e l want) else permission_loop fuel m current inode l want found.
Proof. intros He. cbn [permission_loop]. by rewrite He. Qed.

Lemma permission_group e l g want found :
  (e_tag e = ACL_GROUP_OBJ ∧ g = i_gid inode) ∨ (e_tag e = ACL_GROUP ∧ g = e_id e) →
  permission_loop fuel m current inode (e :: l) want found =
  if inside g then
    if grants (e_perm e) want then Ok (check_mask e l want) else permission_loop fuel m current inode l want true
  else permission_loop fuel m current inode l want found.
Proof. intros [[He ->]|[He ->]]; cbn [permission_loop]; rewrite He; apply in_group_test. Qed.

Lemma permission_mask e l want found : e_tag e = ACL_MASK →
  permission_loop fuel m current inode (e :: l) want found = permission_loop fuel m current inode l want found.
Proof. intros He. cbn [permission_loop]. by rewrite He. Qed.

Lemma permission_other e l want found : e_tag e = ACL_OTHER →
  permission_loop fuel m current inode (e :: l) want found = Ok (if found then - EACCES else check_perm e want).
Proof. intros He. cbn [permission_loop]. by rewrite He. Qed.

Lemma masked_grants k perm want : grants (masked k perm) want = true → grants perm want = true.
Proof. destruct k as [e|]; cbn [masked]; [|done]. rewrite grants_land. by intros [? _]%andb_true_iff. Qed.

(** One matching entry grants what is asked, apart from the mask; then no
    other entry can do better. *)
Lemma masked_any k perm want (ges : list (Z * Z)) :
  grants perm want = true → (perm ∈ ges.*2) →
  existsb (λ ge, grants (masked k ge.2) want) ges = grants (masked k perm) want.
Proof.
  intros Hg Hin. apply eq_bool_prop_intro. rewrite !Is_true_true, existsb_exists. split.
  - intros (ge & _ & H). destruct k as [e|]; [|done]. cbn [masked] in *. rewrite grants_land in *.
    apply andb_true_iff in H as [_ H]. by rewrite Hg, H.
  - intros H. apply list_elem_of_fmap in Hin as (ge & -> & Hin). exists ge. split; [by apply list_elem_of_In|done].
Qed.

Section Groups_loop.
Context (k : option posix_acl_entry) (o : posix_acl_entry) (want : Z).
Hypothesis k_tag : match k with Some e => e_tag e = ACL_MASK | None => True end.
Hypothesis o_tag : e_tag o = ACL_OTHER.

Definition outcome_of (mine : list (Z * Z)) (found : bool) : Z :=
  if existsb (λ ge, grants (masked k ge.2) want) mine then 0
  else if found || negb (bool_decide (mine = [])) then - EACCES else check_perm o want.

Lemma group_step e g l mine found :
  (e_tag e = ACL_GROUP_OBJ ∧ g = i_gid inode) ∨ (e_tag e = ACL_GROUP ∧ g = e_id e) →
  Forall (λ e, e_tag e ≠ ACL_MASK) l →
  (∀ found, permission_loop fuel m current inode (l ++ option_list k ++ [o]) want found = Ok (outcome_of mine found)) →
  permission_loop fuel m current inode (e :: l ++ option_list k ++ [o]) want found =
  Ok (outcome_of (filter (λ ge, inside ge.1 = true) [(g, e_perm e)] ++ mine) found).
Proof.
  intros He Hl IH. rewrite (permission_group _ _ g) by done. rewrite filter_cons, filter_nil. cbn [fst].
  destruct (inside g); [rewrite decide_True by done|rewrite decide_False by done; apply IH]. cbn [app].
  destruct (grants (e_perm e) want) eqn:Eg.
  - rewrite check_mask_spec by (done || rewrite o_tag; done). f_equal. unfold outcome_of.
    rewrite (masked_any k (e_perm e)) by (done || by left).
    rewrite bool_decide_false, orb_true_r by done. by destruct (grants _ _).
  - rewrite IH. f_equal. unfold outcome_of. cbn [existsb snd].
    destruct (grants (masked k (e_perm e)) want) eqn:Em; [apply masked_grants in Em; congruence|]. cbn [orb].
    rewrite (bool_decide_false (_ :: _ = [])), !orb_true_r by done. done.
Qed.

Lemma groups_loop gs found :
  Forall (entry_ok ACL_GROUP) gs →
  permission_loop fuel m current inode (gs ++ option_list k ++ [o]) want found =
  Ok (outcome_of (filter (λ ge, inside ge.1 = true) (map (λ e, (e_id e, e_perm e)) gs)) found).
Proof.
  intros Hgs. revert found. induction Hgs as [|e gs [He _] Hgs IH]; intros found.
  - cbn [app map]. rewrite filter_nil. unfold outcome_of. cbn [existsb]. rewrite orb_false_r.
    destruct k as [e|]; [change (option_list (Some e) ++ [o]) with [e; o]; rewrite permission_mask by done|];
      by apply permission_other.
  - cbn [app map]. erewrite (group_step e (e_id e) gs); [|by right|by apply (tags_not_mask ACL_GROUP)|done].
    by rewrite <- list.filter_app.
Qed.

End Groups_loop.

Lemma users_loop us g gs k o want found :
  Forall (entry_ok ACL_USER) us → Forall (λ e, e_tag e ≠ ACL_MASK) (g :: gs) →
  match k with Some e => e_tag e = ACL_MASK | None => True end → e_tag o ≠ ACL_MASK →
  let rest := g :: gs ++ option_list k ++ [o] in
  permission_loop fuel m current inode (us ++ rest) want found =
  match find (λ e, e_id e =? fsuid current) us with
  | Some e => Ok (verdict (grants (masked k (e_perm e)) want))
  | None => permission_loop fuel m current inode rest want found
  end.
Proof.
  intros Hus Hgs Hk Ho rest. induction Hus as [|e us [He _] Hus IH]; [done|]. cbn [app find].
  rewrite permission_user by done. destruct (e_id e =? fsuid current); [|done]. f_equal.
  change rest with ((g :: gs) ++ option_list k ++ [o]). rewrite app_assoc.
  apply check_mask_spec; [|done|done]. apply Forall_app. split; [|done].
  by apply (tags_not_mask ACL_USER).
Qed.

Lemma posix_acl_permission_spec uid gid p want :
  parts_ok uid gid p →
  posix_acl_permission fuel m current inode (assemble p) want =
  Ok (verdict (access inside (fsuid current) inode p (Z.land want 7))).
Proof.
  intros [[Ho _] Hus [Hg _] Hgs Hk [Hot _]]. unfold posix_acl_permission, assemble, access. set (w := Z.land want 7).
  rewrite permission_owner by done. destruct (i_uid inode =? fsuid current); [done|].
  assert (match p_mask p with Some e => e_tag e = ACL_MASK | None => True end) as Hkt
    by (destruct (p_mask p); [apply Hk|done]).
  assert (Forall (entry_ok ACL_GROUP) (p_groups p)) as Hgs' by (eapply list.Forall_impl; [done|]; by intros x [? _]).
  rewrite users_loop; [|eapply list.Forall_impl; [done|]; by intros x [? _]| |done|by rewrite Hot].
  2:{ constructor; [by rewrite Hg|by apply (tags_not_mask ACL_GROUP)]. }
  destruct (find _ (p_users p)) as [e|]; [done|].
  erewrite (group_step (p_mask p) (p_other p) w Hkt Hot (p_group p) (i_gid inode) (p_groups p));
    [|by left|by apply (tags_not_mask ACL_GROUP)|by intros; apply groups_loop].
  rewrite <- list.filter_app. unfold outcome_of. cbn [app orb].
  change ((i_gid inode, e_perm (p_group p)) :: map _ _) with (group_entries inode p). f_equal.
  destruct (filter _ (group_entries inode p)) as [|ge mine]; [done|].
  rewrite bool_decide_false by done. by destruct (existsb _ _).
Qed.

End Permission.

(** ** Correctness of the checks *)

(** The ids a map gives out. *)
Definition given (es : list uid_gid_extent) (k : Z) : Prop := ∃ i, mapped es i k.

(** The maps of the namespace represent [ues] and [ges]. *)
Record ns_env (fuel : nat) (m : mem) (ns : user_namespace) (ues ges : list uid_gid_extent) : Prop := {
  ns_uids : map_rep m (uid_map ns) ues ∧ extents_ok ues ∧ Z.of_nat (length ues) < Z.of_nat fuel;
  ns_gids : map_rep m (gid_map ns) ges ∧ extents_ok ges ∧ Z.of_nat (length ges) < Z.of_nat fuel;
}.

Lemma has_mapping fuel m map es k :
  map_rep m map es ∧ extents_ok es ∧ Z.of_nat (length es) < Z.of_nat fuel → 0 ≤ k < 2 ^ 32 →
  ∃ b, (r ← map_id_up fuel m map k; Ok (negb (r =? INVALID_ID))) = Ok b ∧ (b = true ↔ given es k).
Proof.
  intros (Hrep & Hok & Hf) Hk. destruct (up_find m map es fuel k Hrep Hok Hf Hk) as (r & -> & Hr).
  cbn [mbind outcome_bind]. eexists. split; [done|]. destruct Hr as [[Hm Hne]|[-> Hno]].
  - rewrite (proj2 (Z.eqb_neq _ _) Hne). split; [|done]. intros _. by exists r.
  - rewrite Z.eqb_refl. split; [done|]. intros [i Hi]. by destruct (Hno i).
Qed.

(** Membership in the groups of the task is what [inside] says. *)
Definition groups_known (fuel : nat) (m : mem) (current : task) (inside : Z → bool) : Prop :=
  ∀ g, ∃ r, in_group_p fuel m (task_cred current) g = Ok r ∧ (r ≠ 0 ↔ inside g = true).

(** C30: validity and the access check. [posix_acl_valid] terminates and
    accepts exactly the lists with one owner entry, named users, one group
    entry, named groups, a mask when there are named entries, and one entry
    for others, in this order, with permission bits only and ids the namespace
    has. On such a list [posix_acl_permission] never fails with EIO and
    decides as POSIX.1e prescribes, for every task, inode and request. *)
Theorem posix_acl_access_correct (fuel : nat) (m : mem) (ns : user_namespace) (ues ges : list uid_gid_extent)
    (acl : posix_acl) :
  ns_env fuel m ns ues ges → words acl →
  ∃ r, posix_acl_valid fuel m ns acl = Ok r ∧
    ((r = - EINVAL ∧ ¬ ∃ p, acl = assemble p ∧ parts_ok (given ues) (given ges) p) ∨
     (r = 0 ∧ ∃ p, acl = assemble p ∧ parts_ok (given ues) (given ges) p ∧
        ∀ fuel' m' current inode inside want, groups_known fuel' m' current inside →
          posix_acl_permission fuel' m' current inode acl want =
          Ok (verdict (access inside (fsuid current) inode p (Z.land want 7))))).
Proof.
  intros [Hu Hg] Hw.
  destruct (posix_acl_valid_spec fuel m ns (given ues) (given ges) (λ k, has_mapping fuel m (uid_map ns) ues k Hu)
              (λ k, has_mapping fuel m (gid_map ns) ges k Hg) acl Hw) as (r & E & [[-> Hp]|[-> Hp]]).
  - exists 0. split; [done|]. right. split; [done|]. destruct Hp as (p & -> & Hp). exists p. split; [done|]. split; [done|].
    intros fuel' m' current inode inside want Hin. by eapply posix_acl_permission_spec.
  - exists (- EINVAL). split; [done|]. by left.
Qed.

(** user::rwx, user:1007:rw-, group::r-x, mask::r--, other::--- in a namespace
    that maps 0-99 to 1000-1099, asked by the named user. *)
Definition demo_extents : list uid_gid_extent := [MkExtent 0 1000 100].
Definition demo_ns : user_namespace := MkNs (MkMap 1 (Base demo_extents)) (MkMap 1 (Base demo_extents)) empty_map 0 1.
Definition demo_acl : posix_acl :=
  [MkEntry ACL_USER_OBJ 7 0; MkEntry ACL_USER 6 1007; MkEntry ACL_GROUP_OBJ 5 0; MkEntry ACL_MASK 4 0; MkEntry ACL_OTHER 0 0].

Lemma demo_ns_env : ns_env 20 (λ _, 0) demo_ns demo_extents demo_extents.
Proof.
  assert (map_rep (λ _, 0) (MkMap 1 (Base demo_extents)) demo_extents ∧ extents_ok demo_extents ∧
    Z.of_nat (length demo_extents) < Z.of_nat 20); [|by split]. split; [split; [done|by exists demo_extents]|]. split; [|done].
  split; [intros e ->%list_elem_of_singleton; unfold extent_ok; cbn; lia|].
  intros e1 e2 ->%list_elem_of_singleton ->%list_elem_of_singleton. by left.
Qed.

Lemma demo_acl_words : words demo_acl.
Proof. repeat constructor; cbn; lia. Qed.

Lemma posix_acl_access_correct_witness :
  posix_acl_valid 20 (λ _, 0) demo_ns demo_acl = Ok 0 ∧
  posix_acl_permission 20 (λ _, 0) (MkTask 1007 (MkCred 5 5 None)) (MkInode 1 1 420) demo_acl 4 = Ok 0 ∧
  posix_acl_permission 20 (λ _, 0) (MkTask 1007 (MkCred 5 5 None)) (MkInode 1 1 420) demo_acl 2 = Ok (- EACCES).
Proof.
  destruct (posix_acl_access_correct 20 (λ _, 0) demo_ns demo_extents demo_extents demo_acl demo_ns_env demo_acl_words)
    as (r & E & _). vm_compute in E. injection E as <-. split_and!; vm_compute; reflexivity.
Defined.
