(* ===== verification/PosixAclMode.v ===== *)
(** * Access control lists and mode bits

    The mode a list stands for, and what creating a file under a default list
    and chmod do to the list, to the mode and to the access it grants. *)

From stdpp Require Import base numbers list option.
From Stdlib Require Import ZArith Lia.
From S2P Require Import Prelude Strings StringsSpec Sort SortHeap SortSpec Kstrtox IdMap IdMapSpec IdMapWrite Groups PosixAcl PosixAclSpec.
Import Strings Sort IdMap Groups PosixAcl.

Open Scope Z_scope.

(** ** Bits of a mode *)

Lemma bits_eq w a b :
  0 ≤ w → 0 ≤ a < 2 ^ w → 0 ≤ b < 2 ^ w → (∀ n, 0 ≤ n < w → Z.testbit a n = Z.testbit b n) → a = b.
Proof.
  intros Hw Ha Hb H. apply Z.bits_inj'. intros n Hn. destruct (decide (n < w)); [apply H; lia|].
  rewrite <- (Z.mod_small a (2 ^ w)), <- (Z.mod_small b (2 ^ w)) by done. rewrite !Z.mod_pow2_bits_high by lia. done.
Qed.

Lemma small_testbit p n : 0 ≤ p < 8 → 3 ≤ n → Z.testbit p n = false.
Proof. intros Hp Hn. rewrite <- (Z.mod_small p (2 ^ 3)) by done. apply Z.mod_pow2_bits_high. lia. Qed.

Lemma u16_testbit x n : 0 ≤ n < 16 → Z.testbit (u16 x) n = Z.testbit x n.
Proof. intros Hn. unfold u16. apply Z.mod_pow2_bits_low. lia. Qed.

Lemma u16_range x : 0 ≤ u16 x < 2 ^ 16.
Proof. apply Z.mod_pos_bound. lia. Qed.

(** Equality of 16-bit expressions over permissions below 8 and modes: bit by
    bit, with the bits of constants computed. *)
Ltac bit_step :=
  repeat match goal with
  | |- context [Z.testbit (u16 ?a) ?n] => rewrite (u16_testbit a n) by lia
  | |- context [Z.testbit (Z.land _ _) _] => rewrite Z.land_spec
  | |- context [Z.testbit (Z.lor _ _) _] => rewrite Z.lor_spec
  | |- context [Z.testbit (Z.shiftl ?a ?k) ?n] => rewrite (Z.shiftl_spec a k n) by lia
  | |- context [Z.testbit (Z.shiftr ?a ?k) ?n] => rewrite (Z.shiftr_spec a k n) by lia
  | |- context [Z.testbit (Z.lnot ?a) ?n] => rewrite (Z.lnot_spec a n) by lia
  end.

Ltac bit_eval :=
  repeat match goal with
  | |- context [Z.testbit ?a ?k] =>
      let v := eval vm_compute in (Z.testbit a k) in
      match v with true => change (Z.testbit a k) with true | false => change (Z.testbit a k) with false end
  | Hp : 0 ≤ ?p < 8 |- context [Z.testbit ?p ?k] => rewrite (small_testbit p k Hp) by lia
  | |- context [Z.testbit ?a (?k + ?j)] => let v := eval vm_compute in (k + j) in change (k + j) with v
  | |- context [Z.testbit ?a (?k - ?j)] => let v := eval vm_compute in (k - j) in change (k - j) with v
  end.

(** The range of an expression. *)
Ltac perm_range :=
  lazymatch goal with
  | |- 0 ≤ u16 _ < _ => apply u16_range
  | |- 0 ≤ Z.land _ _ < _ => apply land_range; [lia|perm_range]
  | |- 0 ≤ Z.lor _ _ < _ => apply lor_range; [lia|perm_range|perm_range]
  | |- 0 ≤ Z.shiftl _ _ < _ => rewrite Z.shiftl_mul_pow2 by lia; lia
  | |- _ => lia
  end.

(** The equality of each bit below the width. *)
Ltac bits_each :=
  let n := fresh "n" in let Hn := fresh "Hn" in
  intros n Hn;
  repeat match goal with
  | H : ?k ≤ n < ?w |- _ =>
      destruct (decide (n = k));
      [subst n; clear H
      |let j := eval vm_compute in (k + 1) in
       first [exfalso; lia | assert (j ≤ n < w) by lia; clear H]]
  end;
  bit_step; bit_eval;
  repeat match goal with |- context [Z.testbit ?a ?k] => destruct (Z.testbit a k) end; reflexivity.

Ltac bits := apply (bits_eq 16); [lia|perm_range|perm_range|bits_each].

(** Comparisons of constants. *)
Ltac tag_eval :=
  repeat match goal with
  | |- context [?a =? ?b] =>
      let v := eval vm_compute in (a =? b) in
      match v with true => change (a =? b) with true | false => change (a =? b) with false end
  end; cbn [orb andb].

(** ** The mode of a list *)

(** The permissions of a class in a mode, and a mode from those of the three
    classes. *)
Definition S_bits (mode shift : Z) : Z := Z.land (Z.shiftr mode shift) 7.
Definition mode_bits (u g o : Z) : Z := Z.lor (Z.shiftl u 6) (Z.lor (Z.shiftl g 3) o).

(** The group class of a list is its mask, or its group entry. *)
Definition class_perm (p : parts) : Z := e_perm (default (p_group p) (p_mask p)).
Definition mode_of (p : parts) : Z := mode_bits (e_perm (p_owner p)) (class_perm p) (e_perm (p_other p)).
Definition has_mask (p : parts) : Z := match p_mask p with Some _ => 1 | None => 0 end.

Lemma class_range uid gid p : parts_ok uid gid p → 0 ≤ class_perm p < 8.
Proof. intros [_ _ [_ Hg] _ Hk _]. unfold class_perm. destruct (p_mask p); [apply Hk|done]. Qed.

Lemma S_bits_range mode shift : 0 ≤ S_bits mode shift < 8.
Proof. unfold S_bits. rewrite Z.land_comm. apply (land_range 3); lia. Qed.

Section Equiv.
Context (uid gid : Z → Prop).

Lemma equiv_named l tag P rest mode n :
  tag = ACL_USER ∨ tag = ACL_GROUP → Forall (λ e, entry_ok tag e ∧ P (e_id e)) l →
  equiv_loop (l ++ rest) mode n = equiv_loop rest mode (match l with [] => n | _ => 1 end).
Proof.
  intros Ht Hl. revert n. induction Hl as [|e l [[He _] _] _ IH]; intros n; [done|]. cbn [app equiv_loop].
  rewrite He. rewrite IH. destruct Ht as [->| ->]; by destruct l.
Qed.

Lemma equiv_loop_spec p : parts_ok uid gid p → equiv_loop (assemble p) 0 0 = Some (mode_of p, has_mask p).
Proof.
  intros Hp. pose proof (class_range uid gid p Hp) as Hc. destruct Hp as [[Ho Hop] Hus [Hg Hgp] Hgs Hk [Hot Hotp]].
  unfold assemble. cbn [equiv_loop]. rewrite Ho. tag_eval.
  rewrite (equiv_named (p_users p) ACL_USER uid) by (done || by left). cbn [equiv_loop]. rewrite Hg. tag_eval.
  rewrite (equiv_named (p_groups p) ACL_GROUP gid) by (done || by right).
  unfold mode_of, mode_bits, has_mask, class_perm in *. destruct (p_mask p) as [k|].
  - change (option_list (Some k) ++ [p_other p]) with [k; p_other p]. destruct Hk as [Hk Hkp]. cbn [equiv_loop default] in *.
    rewrite Hk, Hot. tag_eval. do 2 f_equal.
    unfold S_IRWXO, S_IRWXG, id in *. bits.
  - destruct Hk as [-> ->]. change (option_list None ++ [p_other p]) with [p_other p]. cbn [equiv_loop default] in *.
    rewrite Hot. tag_eval. do 2 f_equal. unfold S_IRWXO, id in *. bits.
Qed.

Lemma mode_of_range p : parts_ok uid gid p → 0 ≤ mode_of p < 2 ^ 9.
Proof.
  intros Hp. pose proof (class_range uid gid p Hp). destruct Hp as [[_ Ho] _ _ _ _ [_ Hot]].
  unfold mode_of, mode_bits. perm_range.
Qed.

Lemma equiv_mode_spec p mode : parts_ok uid gid p → 0 ≤ mode < 2 ^ 16 →
  posix_acl_equiv_mode (Some (assemble p)) mode =
  (has_mask p, Z.lor (Z.land mode (Z.lnot S_IRWXUGO)) (mode_of p)).
Proof.
  intros Hp Hm. unfold posix_acl_equiv_mode. rewrite equiv_loop_spec by done. f_equal. unfold u16. apply Z.mod_small.
  pose proof (mode_of_range p Hp). perm_range.
Qed.

End Equiv.

(** ** Lists from modes *)

Definition mode_parts (mode : Z) (ids : nat → Z) : parts :=
  MkParts (MkEntry ACL_USER_OBJ (S_bits mode 6) (ids 0%nat)) [] (MkEntry ACL_GROUP_OBJ (S_bits mode 3) (ids 1%nat)) []
    None (MkEntry ACL_OTHER (S_bits mode 0) (ids 2%nat)).

Lemma mode_parts_ok uid gid mode ids : parts_ok uid gid (mode_parts mode ids).
Proof.
  pose proof (S_bits_range mode 6). pose proof (S_bits_range mode 3). pose proof (S_bits_range mode 0).
  split; cbn; done.
Qed.

Lemma land_S_bits mode shift mask :
  mask = Z.shiftl 7 shift → 0 ≤ shift → Z.shiftr (Z.land mode mask) shift = S_bits mode shift.
Proof.
  intros -> Hs. unfold S_bits. rewrite Z.shiftr_land, Z.shiftr_shiftl_l, Z.sub_diag by lia. done.
Qed.

Lemma from_mode_spec mode ids : posix_acl_from_mode mode (Some ids) = inr (assemble (mode_parts mode ids)).
Proof.
  unfold posix_acl_from_mode, assemble, mode_parts. cbn.
  rewrite (land_S_bits mode 6), (land_S_bits mode 3) by done.
  assert (Z.land mode S_IRWXO = S_bits mode 0) as -> by (unfold S_bits; by rewrite Z.shiftr_0_r). done.
Qed.

Lemma mode_bits_of mode : 0 ≤ mode < 2 ^ 16 →
  mode_bits (S_bits mode 6) (S_bits mode 3) (S_bits mode 0) = Z.land mode S_IRWXUGO.
Proof.
  intros Hm. pose proof (S_bits_range mode 6). pose proof (S_bits_range mode 3). pose proof (S_bits_range mode 0).
  apply (bits_eq 16); [lia|unfold mode_bits; perm_range|perm_range|]. unfold mode_bits, S_bits, S_IRWXUGO. clear.
  bits_each.
Qed.

(** ** Creation and chmod *)

Definition set_class (p : parts) (perm : Z) : parts :=
  match p_mask p with
  | Some k => MkParts (p_owner p) (p_users p) (p_group p) (p_groups p) (Some (with_perm k perm)) (p_other p)
  | None => MkParts (p_owner p) (p_users p) (with_perm (p_group p) perm) (p_groups p) None (p_other p)
  end.

(** The list with the permissions of the three classes replaced. *)
Definition set_classes (p : parts) (u g o : Z) : parts :=
  set_class (MkParts (with_perm (p_owner p) u) (p_users p) (p_group p) (p_groups p) (p_mask p) (with_perm (p_other p) o)) g.

Lemma set_classes_ok uid gid p u g o :
  parts_ok uid gid p → 0 ≤ u < 8 → 0 ≤ g < 8 → 0 ≤ o < 8 → parts_ok uid gid (set_classes p u g o).
Proof.
  intros [[H1 _] H2 [H3 H3'] H4 H5 [H6 _]] Hu Hg Ho. unfold set_classes, set_class. cbn.
  destruct (p_mask p) as [k|]; split; cbn; try done. split; [apply H5|done].
Qed.

Lemma mode_of_set_classes p u g o : mode_of (set_classes p u g o) = mode_bits u g o.
Proof. unfold set_classes, set_class, mode_of, class_perm. cbn. by destruct (p_mask p). Qed.

Lemma has_mask_set_classes p u g o : has_mask (set_classes p u g o) = has_mask p.
Proof. unfold set_classes, set_class, has_mask. cbn. by destruct (p_mask p). Qed.

(** The index of the entry that holds the group class. *)
Definition class_index (p : parts) : nat :=
  match p_mask p with
  | Some _ => S (length (p_users p) + S (length (p_groups p)))
  | None => S (length (p_users p))
  end.

Lemma alter_class p perm : alter (λ e, with_perm e perm) (class_index p) (assemble p) = assemble (set_class p perm).
Proof.
  assert (∀ f (x : posix_acl_entry) n l, alter f (S n) (x :: l) = x :: alter f n l) as Hc by done.
  unfold class_index, set_class, assemble. destruct (p_mask p) as [k|]; cbn [p_owner p_users p_group p_groups p_mask p_other].
  - rewrite Hc, alter_app_r, Hc, alter_app_r_alt, Nat.sub_diag by lia. done.
  - rewrite Hc, alter_app_r_alt, Nat.sub_diag by lia. done.
Qed.

Lemma lookup_class p : assemble p !! class_index p = Some (default (p_group p) (p_mask p)).
Proof.
  assert (∀ (x : posix_acl_entry) n l, (x :: l) !! S n = l !! n) as Hc by done.
  unfold class_index, assemble. destruct (p_mask p) as [k|].
  - rewrite Hc, lookup_app_r, Nat.add_comm, Nat.add_sub, Hc, lookup_app_r, Nat.sub_diag by lia. done.
  - rewrite Hc, lookup_app_r, Nat.sub_diag by lia. done.
Qed.

(** Removing from a mode what the three classes do not have. *)
Lemma masq_classes mode u g o :
  0 ≤ u < 8 → 0 ≤ g < 8 → 0 ≤ o < 8 → 0 ≤ mode < 2 ^ 16 →
  u16 (Z.lor (Z.land mode (Z.lnot S_IRWXUGO))
    (u16 (Z.land (u16 (Z.land (u16 (Z.land mode (Z.lor (Z.shiftl u 6) (Z.lnot S_IRWXU)))) (Z.lor o (Z.lnot S_IRWXO))))
       (Z.lor (Z.shiftl g 3) (Z.lnot S_IRWXG))))) =
  Z.lor (Z.land mode (Z.lnot S_IRWXUGO))
    (mode_bits (Z.land u (S_bits mode 6)) (Z.land g (S_bits mode 3)) (Z.land o (S_bits mode 0))).
Proof.
  intros Hu Hg Ho Hm. unfold mode_bits, S_IRWXO, S_IRWXU, S_IRWXUGO, S_IRWXG.
  apply (bits_eq 16); [lia|perm_range| |].
  - pose proof (S_bits_range mode 6). assert (0 ≤ Z.land u (S_bits mode 6) < 8) by (apply (land_range 3); lia).
    assert (0 ≤ Z.land g (S_bits mode 3) < 8) by (apply (land_range 3); lia). perm_range.
  - unfold S_bits. bits_each.
Qed.

Lemma class_bits mode c u o : 0 ≤ c < 8 → 0 ≤ u < 8 → 0 ≤ o < 8 → 0 ≤ mode < 2 ^ 16 →
  u16 (Z.land c (Z.lor (Z.shiftr (u16 (Z.land (u16 (Z.land mode (Z.lor (Z.shiftl u 6) (Z.lnot S_IRWXU))))
    (Z.lor o (Z.lnot S_IRWXO)))) 3) (Z.lnot S_IRWXO))) = Z.land c (S_bits mode 3).
Proof.
  intros Hc Hu Ho Hm. unfold S_bits, S_IRWXO, S_IRWXU. unfold u16 at 1. rewrite Z.mod_small.
  - apply (bits_eq 3); [lia|apply (land_range 3); lia|apply (land_range 3); lia|bits_each].
  - match goal with |- 0 ≤ Z.land ?a ?b < _ => destruct (land_range 3 a b) end; lia.
Qed.

Section Create.
Context (uid gid : Z → Prop) (p : parts) (mode : Z).
Hypothesis p_ok : parts_ok uid gid p.
Hypothesis mode_range : 0 ≤ mode < 2 ^ 16.

Lemma create_named l tag P rest i md go mo n :
  tag = ACL_USER ∨ tag = ACL_GROUP → Forall (λ e, entry_ok tag e ∧ P (e_id e)) l →
  create_loop (l ++ rest) i md go mo n =
  let '(rest', r) := create_loop rest (i + length l) md go mo (match l with [] => n | _ => 1 end) in (l ++ rest', r).
Proof.
  intros Ht Hl. revert i n. induction Hl as [|e l [[He _] _] _ IH]; intros i n.
  { cbn [app length]. rewrite Nat.add_0_r. by destruct (create_loop _ _ _ _ _ _). }
  cbn [app create_loop length]. rewrite He, IH. replace (i + S (length l))%nat with (S i + length l)%nat by lia.
  destruct Ht as [->| ->]; tag_eval; destruct l; by destruct (create_loop _ _ _ _ _ _).
Qed.

Definition new_owner : Z := Z.land (e_perm (p_owner p)) (S_bits mode 6).
Definition new_other : Z := Z.land (e_perm (p_other p)) (S_bits mode 0).
Definition new_class : Z := Z.land (class_perm p) (S_bits mode 3).

(** The mode after the owner, and after the others. *)
Definition mode1 : Z := u16 (Z.land mode (Z.lor (Z.shiftl new_owner 6) (Z.lnot S_IRWXU))).
Definition mode2 : Z := u16 (Z.land mode1 (Z.lor new_other (Z.lnot S_IRWXO))).

Lemma masq_owner : u16 (Z.land (e_perm (p_owner p)) (Z.lor (Z.shiftr mode 6) (Z.lnot S_IRWXO))) = new_owner.
Proof. destruct (ok_owner _ _ _ p_ok) as [_ H]. unfold new_owner, S_bits, S_IRWXO. bits. Qed.

Lemma masq_other : u16 (Z.land (e_perm (p_other p)) (Z.lor mode1 (Z.lnot S_IRWXO))) = new_other.
Proof.
  destruct (ok_other _ _ _ p_ok) as [_ H]. destruct (ok_owner _ _ _ p_ok) as [_ H'].
  unfold new_other, mode1, S_bits, S_IRWXO, S_IRWXU. bits.
Qed.

Lemma masq_class : u16 (Z.land (class_perm p) (Z.lor (Z.shiftr mode2 3) (Z.lnot S_IRWXO))) = new_class.
Proof.
  pose proof (class_range uid gid p p_ok). destruct (ok_other _ _ _ p_ok) as [_ H1]. destruct (ok_owner _ _ _ p_ok) as [_ H2].
  apply class_bits; [done|apply (land_range 3); lia|apply (land_range 3); lia|done].
Qed.

Lemma masq_mode :
  u16 (Z.lor (Z.land mode (Z.lnot S_IRWXUGO)) (u16 (Z.land mode2 (Z.lor (Z.shiftl new_class 3) (Z.lnot S_IRWXG))))) =
  Z.lor (Z.land mode (Z.lnot S_IRWXUGO)) (mode_bits new_owner new_class new_other).
Proof.
  pose proof (class_range uid gid p p_ok). destruct (ok_other _ _ _ p_ok) as [_ H1]. destruct (ok_owner _ _ _ p_ok) as [_ H2].
  unfold mode2, mode1. rewrite masq_classes by (done || apply (land_range 3); lia).
  unfold new_owner, new_other, new_class. by rewrite <- !Z.land_assoc, !Z.land_diag.
Qed.

(** The index of the mask entry. *)
Definition mask_index : option nat :=
  match p_mask p with Some _ => Some (class_index p) | None => None end.

Lemma create_loop_spec :
  create_loop (assemble p) 0 mode None None 0 =
  (assemble (MkParts (with_perm (p_owner p) new_owner) (p_users p) (p_group p) (p_groups p) (p_mask p)
               (with_perm (p_other p) new_other)),
   Some (mode2, Some (S (length (p_users p))), mask_index, has_mask p)).
Proof.
  destruct p_ok as [[Ho _] Hus [Hg _] Hgs Hk [Hot _]]. unfold assemble at 1. cbn [create_loop]. rewrite Ho. tag_eval.
  rewrite masq_owner. fold mode1. rewrite (create_named _ ACL_USER uid) by (done || by left).
  cbn [create_loop]. rewrite Hg. tag_eval. rewrite (create_named _ ACL_GROUP gid) by (done || by right).
  unfold mask_index, has_mask, class_index, assemble. destruct (p_mask p) as [k|].
  - change (option_list (Some k) ++ [p_other p]) with [k; p_other p]. cbn [create_loop]. destruct Hk as [Hk _].
    rewrite Hk, Hot. tag_eval. rewrite masq_other. fold mode2. cbn. by rewrite Nat.add_succ_r.
  - destruct Hk as [Eu Eg]. change (option_list None ++ [p_other p]) with [p_other p]. cbn [create_loop].
    rewrite Hot. tag_eval. rewrite masq_other. fold mode2. rewrite Eu, Eg. done.
Qed.

(** The list and the mode after creation. *)
Definition created : parts := set_classes p new_owner new_class new_other.

Lemma create_masq_spec :
  posix_acl_create_masq (assemble p) mode =
  (assemble created, Z.lor (Z.land mode (Z.lnot S_IRWXUGO)) (mode_of created), has_mask p).
Proof.
  unfold posix_acl_create_masq. rewrite create_loop_spec.
  set (p1 := MkParts _ _ _ _ _ _).
  assert (class_obj (Some (S (length (p_users p)))) mask_index = Some (class_index p1)) as ->.
  { unfold class_obj, mask_index, class_index, p1. cbn. by destruct (p_mask p). }
  rewrite lookup_class, alter_class.
  change (e_perm (default (p_group p1) (p_mask p1))) with (class_perm p). rewrite masq_class, masq_mode.
  unfold created. by rewrite mode_of_set_classes.
Qed.

Lemma created_ok : parts_ok uid gid created.
Proof.
  pose proof (class_range uid gid p p_ok). destruct (ok_other _ _ _ p_ok) as [_ ?]. destruct (ok_owner _ _ _ p_ok) as [_ ?].
  apply set_classes_ok; [done|apply (land_range 3); lia..].
Qed.

(** chmod *)

Lemma chmod_named l tag P rest i go mo :
  tag = ACL_USER ∨ tag = ACL_GROUP → Forall (λ e, entry_ok tag e ∧ P (e_id e)) l →
  chmod_loop (l ++ rest) i mode go mo =
  let '(rest', r) := chmod_loop rest (i + length l) mode go mo in (l ++ rest', r).
Proof.
  intros Ht Hl. revert i. induction Hl as [|e l [[He _] _] _ IH]; intros i.
  { cbn [app length]. rewrite Nat.add_0_r. by destruct (chmod_loop _ _ _ _ _). }
  cbn [app chmod_loop length]. rewrite He, IH. replace (i + S (length l))%nat with (S i + length l)%nat by lia.
  destruct Ht as [->| ->]; tag_eval; by destruct (chmod_loop _ _ _ _ _).
Qed.

Definition chmodded : parts := set_classes p (S_bits mode 6) (S_bits mode 3) (S_bits mode 0).

Lemma chmod_masq_spec : __posix_acl_chmod_masq (assemble p) mode = (assemble chmodded, 0).
Proof.
  destruct p_ok as [[Ho _] Hus [Hg _] Hgs Hk [Hot _]]. unfold __posix_acl_chmod_masq.
  set (p1 := MkParts (with_perm (p_owner p) (S_bits mode 6)) (p_users p) (p_group p) (p_groups p) (p_mask p)
               (with_perm (p_other p) (S_bits mode 0))).
  assert (Z.land mode S_IRWXO = S_bits mode 0) as E0 by (unfold S_bits; by rewrite Z.shiftr_0_r).
  assert (chmod_loop (assemble p) 0 mode None None = (assemble p1, Some (Some (S (length (p_users p))), mask_index))) as ->.
  { unfold assemble at 1. cbn [chmod_loop]. rewrite Ho. tag_eval. rewrite (land_S_bits mode 6) by done.
    rewrite (chmod_named _ ACL_USER uid) by (done || by left).
    cbn [chmod_loop]. rewrite Hg. tag_eval. rewrite (chmod_named _ ACL_GROUP gid) by (done || by right).
    unfold mask_index, class_index, assemble, p1. cbn [p_owner p_users p_group p_groups p_mask p_other]. destruct (p_mask p) as [k|].
    - change (option_list (Some k) ++ [p_other p]) with [k; p_other p]. cbn [chmod_loop]. destruct Hk as [Hk _].
      rewrite Hk, Hot. tag_eval. rewrite E0. cbn. by rewrite Nat.add_succ_r.
    - change (option_list None ++ [p_other p]) with [p_other p]. cbn [chmod_loop]. rewrite Hot. tag_eval. by rewrite E0. }
  assert (class_obj (Some (S (length (p_users p)))) mask_index = Some (class_index p1)) as ->.
  { unfold class_obj, mask_index, class_index, p1. cbn. by destruct (p_mask p). }
  rewrite alter_class, (land_S_bits mode 3) by done. done.
Qed.

Lemma chmodded_ok : parts_ok uid gid chmodded.
Proof. apply set_classes_ok; [done|apply S_bits_range..]. Qed.

End Create.

(** ** Access after a change of classes *)

Section Access.
Context (inside : Z → bool) (fsuid : Z) (inode : inode) (uid gid : Z → Prop) (p : parts) (u g o want : Z).
Hypothesis p_ok : parts_ok uid gid p.

Abbreviation p' := (set_classes p u g o).

(** The entries of the group class that apply, before and after. *)
Lemma mine_set_classes :
  ∃ ges, filter (λ ge, inside ge.1 = true) (group_entries inode p') =
           (if inside (i_gid inode) then [(i_gid inode, e_perm (p_group p'))] else []) ++ ges ∧
         filter (λ ge, inside ge.1 = true) (group_entries inode p) =
           (if inside (i_gid inode) then [(i_gid inode, e_perm (p_group p))] else []) ++ ges.
Proof.
  exists (filter (λ ge, inside ge.1 = true) (map (λ e, (e_id e, e_perm e)) (p_groups p))).
  assert (p_groups p' = p_groups p) as Hg by (unfold set_classes, set_class; cbn; by destruct (p_mask p)).
  unfold group_entries. rewrite Hg, !filter_cons. cbn [fst]. by destruct (inside (i_gid inode)); case_decide.
Qed.

(** A list whose classes lost permissions grants no more than before. *)
Lemma access_removed :
  (grants u want = true → grants (e_perm (p_owner p)) want = true) →
  (grants g want = true → grants (class_perm p) want = true) →
  (grants o want = true → grants (e_perm (p_other p)) want = true) →
  access inside fsuid inode p' want = true → access inside fsuid inode p want = true.
Proof.
  intros Hu Hg Ho. unfold access. assert (p_users p' = p_users p) as -> by (unfold set_classes, set_class; cbn; by destruct (p_mask p)).
  assert (p_owner p' = with_perm (p_owner p) u) as -> by (unfold set_classes, set_class; cbn; by destruct (p_mask p)).
  assert (p_other p' = with_perm (p_other p) o) as -> by (unfold set_classes, set_class; cbn; by destruct (p_mask p)).
  destruct (i_uid inode =? fsuid); [done|].
  assert (∀ perm, grants (masked (p_mask p') perm) want = true → grants (masked (p_mask p) perm) want = true) as Hm.
  { intros perm. unfold set_classes, set_class, class_perm in *. cbn. destruct (p_mask p) as [k|]; cbn in *; [|done].
    rewrite !grants_land, !andb_true_iff. tauto. }
  destruct (find _ (p_users p)) as [e|]; [apply Hm|].
  destruct mine_set_classes as (ges & -> & ->).
  assert (∀ l, existsb (λ ge : Z * Z, grants (masked (p_mask p') ge.2) want) l = true →
               existsb (λ ge : Z * Z, grants (masked (p_mask p) ge.2) want) l = true) as Hl.
  { intros l. rewrite !existsb_exists. intros (x & Hx & Hy). exists x. auto. }
  assert (grants (masked (p_mask p') (e_perm (p_group p'))) want = true →
          grants (masked (p_mask p) (e_perm (p_group p))) want = true) as Hgr.
  { unfold set_classes, set_class, class_perm in *. cbn. destruct (p_mask p) as [k|]; cbn in *; [|done].
    rewrite !grants_land, !andb_true_iff. tauto. }
  destruct (inside (i_gid inode)); cbn [app].
  - cbn [existsb snd]. rewrite !orb_true_iff. intros [H|H]; [left; by apply Hgr|right; by apply Hl].
  - destruct ges; [done|]. apply Hl.
Qed.

(** Who is neither the owner nor one of the others gets what the class has. *)
Lemma access_class :
  i_uid inode ≠ fsuid → access inside fsuid inode p' want = true →
  grants g want = true ∨ (grants o want = true ∧ find (λ e, e_id e =? fsuid) (p_users p) = None ∧
    filter (λ ge, inside ge.1 = true) (group_entries inode p) = []).
Proof.
  intros Hne. unfold access. rewrite (proj2 (Z.eqb_neq _ _) Hne).
  assert (p_users p' = p_users p) as -> by (unfold set_classes, set_class; cbn; by destruct (p_mask p)).
  assert (p_other p' = with_perm (p_other p) o) as -> by (unfold set_classes, set_class; cbn; by destruct (p_mask p)).
  pose proof (ok_mask _ _ _ p_ok) as Hk. destruct mine_set_classes as (ges & Eges & ->). rewrite Eges.
  destruct (p_mask p) as [k|] eqn:Ek.
  - assert (∀ perm, grants (masked (p_mask p') perm) want = true → grants g want = true) as Hm.
    { intros perm. unfold set_classes, set_class. cbn. rewrite Ek. cbn. rewrite grants_land, andb_true_iff. tauto. }
    destruct (find _ (p_users p)) as [e|]; [intros H; left; by eapply Hm|].
    assert (∀ l, existsb (λ ge : Z * Z, grants (masked (p_mask p') ge.2) want) l = true → grants g want = true) as Hl.
    { intros l. rewrite existsb_exists. intros (x & _ & Hx). by eapply Hm. }
    destruct (inside (i_gid inode)); [intros H%Hl; by left|]. destruct ges; [intros H; by right|intros H%Hl; by left].
  - destruct Hk as [Hus Hgs]. rewrite Hus. cbn [find].
    assert (ges = []) as ->.
    { unfold group_entries in Eges. assert (p_groups p' = []) as Eg by (unfold set_classes, set_class; cbn; by rewrite Ek).
      rewrite Eg in Eges. cbn [map] in Eges. rewrite filter_cons, filter_nil in Eges. cbn [fst] in Eges.
      by destruct (inside (i_gid inode)), ges; case_decide. }
    rewrite app_nil_r. destruct (inside (i_gid inode)); [|intros H; by right]. cbn [existsb snd].
    unfold set_classes, set_class. cbn. rewrite Ek. cbn. rewrite orb_false_r. by left.
Qed.

End Access.

(** ** The properties *)

(** What the classic mode bits say: the owner by the first three bits, a
    member of the group by the next three, others by the last three. *)
Definition mode_access (inside : Z → bool) (fsuid : Z) (inode : inode) (mode want : Z) : bool :=
  grants (S_bits mode (if i_uid inode =? fsuid then 6 else if inside (i_gid inode) then 3 else 0)) want.

Lemma mode_parts_access inside fsuid inode mode ids want :
  access inside fsuid inode (mode_parts mode ids) want = mode_access inside fsuid inode mode want.
Proof.
  unfold access, mode_access, mode_parts, group_entries. destruct (i_uid inode =? fsuid); [done|].
  cbn [p_users find p_group p_groups map p_mask p_other e_perm]. rewrite filter_cons, filter_nil. cbn [fst].
  destruct (inside (i_gid inode)); case_decide; try done. apply orb_false_r.
Qed.

Lemma mode_parts_valid fuel m ns mode ids : posix_acl_valid fuel m ns (assemble (mode_parts mode ids)) = Ok 0.
Proof.
  assert (∀ shift, Z.land (S_bits mode shift) (Z.lnot 7) = 0) as H.
  { intros shift. unfold S_bits. rewrite <- Z.land_assoc. by rewrite (Z.land_lnot_diag 7), Z.land_0_r. }
  unfold posix_acl_valid, assemble, mode_parts. cbn [p_owner p_users p_group p_groups p_mask p_other app].
  change (option_list None ++ ?l) with l. cbn [valid_loop e_perm e_tag]. rewrite !H. done.
Qed.

(** Mode bits as a list and back. The list made from a mode is valid,
    stands for exactly the permission bits of the mode, and grants what the
    mode bits grant. Conversely a valid list that [posix_acl_equiv_mode]
    reports as equivalent has the entries of the list made from its mode. *)
Theorem acl_mode_roundtrip (mode mode_p : Z) (ids : nat → Z) :
  0 ≤ mode < 2 ^ 16 → 0 ≤ mode_p < 2 ^ 16 →
  (∃ acl, posix_acl_from_mode mode (Some ids) = inr acl ∧
    (∀ fuel m ns, posix_acl_valid fuel m ns acl = Ok 0) ∧
    posix_acl_equiv_mode (Some acl) mode_p = (0, Z.lor (Z.land mode_p (Z.lnot S_IRWXUGO)) (Z.land mode S_IRWXUGO)) ∧
    ∀ fuel m current inode inside want, groups_known fuel m current inside →
      posix_acl_permission fuel m current inode acl want =
      Ok (verdict (mode_access inside (fsuid current) inode mode (Z.land want 7)))) ∧
  (∀ uid gid p mode', parts_ok uid gid p → posix_acl_equiv_mode (Some (assemble p)) mode_p = (0, mode') →
    ∃ acl', posix_acl_from_mode mode' (Some ids) = inr acl' ∧
      map (λ e, (e_tag e, e_perm e)) acl' = map (λ e, (e_tag e, e_perm e)) (assemble p)).
Proof.
  intros Hm Hmp. split.
  - exists (assemble (mode_parts mode ids)). pose proof (mode_parts_ok (λ _, True) (λ _, True) mode ids) as Hok.
    split_and!; [apply from_mode_spec|intros; apply mode_parts_valid| |].
    + rewrite (equiv_mode_spec (λ _, True) (λ _, True)) by done. do 2 f_equal.
      unfold mode_of, class_perm. cbn. by apply mode_bits_of.
    + intros fuel m current inode inside want Hin. erewrite posix_acl_permission_spec by done. by rewrite mode_parts_access.
  - intros uid gid p mode' Hp. rewrite (equiv_mode_spec uid gid) by done. intros [= Hmask <-].
    pose proof (class_range uid gid p Hp) as Hc. destruct Hp as [[Ho Hop] Hus [Hg Hgp] Hgs Hk [Hot Hotp]].
    unfold has_mask, class_perm, mode_of, class_perm, assemble in *. destruct (p_mask p); [done|].
    destruct Hk as [-> ->]. exists (assemble (mode_parts (Z.lor (Z.land mode_p (Z.lnot S_IRWXUGO))
      (mode_bits (e_perm (p_owner p)) (e_perm (p_group p)) (e_perm (p_other p)))) ids)).
    split; [apply from_mode_spec|]. cbn. rewrite Ho, Hg, Hot. cbn in *.
    assert (∀ x, 0 ≤ x < 8 → 0 ≤ x < 2 ^ 3) as Hw by (intros; lia).
    repeat f_equal; (apply (bits_eq 3); [lia|apply S_bits_range|done|]); unfold S_bits, mode_bits, S_IRWXUGO; bits_each.
Qed.

Lemma acl_mode_roundtrip_witness :
  ∃ acl, posix_acl_from_mode 420 (Some (λ _, 0)) = inr acl ∧
    posix_acl_equiv_mode (Some acl) 32768 = (0, 33188).
Proof.
  destruct (acl_mode_roundtrip 420 32768 (λ _, 0) ltac:(lia) ltac:(lia)) as [(acl & E & _ & E2 & _) _].
  exists acl. split; [exact E|]. exact E2.
Defined.

Lemma created_permission uid gid p mode fuel m current inode inside want :
  parts_ok uid gid p → 0 ≤ mode < 2 ^ 16 → groups_known fuel m current inside →
  posix_acl_permission fuel m current inode (assemble (created p mode)) want = Ok 0 →
  posix_acl_permission fuel m current inode (assemble p) want = Ok 0.
Proof.
  intros Hp Hm Hin. rewrite !(posix_acl_permission_spec fuel m current inode inside Hin uid gid) by
    (done || by apply created_ok).
  destruct (access _ _ _ (created p mode) _) eqn:E; [|done]. intros _. unfold created in E.
  apply access_removed in E; [by rewrite E|..]; unfold new_owner, new_class, new_other;
    rewrite grants_land; by intros [? _]%andb_true_iff.
Qed.

Lemma mode_bits_land a b c u g o :
  0 ≤ a < 8 → 0 ≤ b < 8 → 0 ≤ c < 8 → 0 ≤ u < 8 → 0 ≤ g < 8 → 0 ≤ o < 8 →
  mode_bits (Z.land a u) (Z.land b g) (Z.land c o) = Z.land (mode_bits a b c) (mode_bits u g o).
Proof.
  intros Ha Hb Hc Hu Hg Ho. apply (bits_eq 16); [lia| | |unfold mode_bits; bits_each].
  - assert (0 ≤ Z.land a u < 8) by (apply (land_range 3); lia). assert (0 ≤ Z.land b g < 8) by (apply (land_range 3); lia).
    unfold mode_bits. perm_range.
  - unfold mode_bits. perm_range.
Qed.

Lemma created_mode uid gid p mode : parts_ok uid gid p → 0 ≤ mode < 2 ^ 16 →
  mode_of (created p mode) = Z.land (mode_of p) (Z.land mode S_IRWXUGO).
Proof.
  intros Hp Hm. pose proof (class_range uid gid p Hp). destruct (ok_other _ _ _ Hp) as [_ ?]. destruct (ok_owner _ _ _ Hp) as [_ ?].
  pose proof (S_bits_range mode 6). pose proof (S_bits_range mode 3). pose proof (S_bits_range mode 0).
  unfold created. rewrite mode_of_set_classes. unfold new_owner, new_class, new_other.
  rewrite mode_bits_land by done. by rewrite mode_bits_of.
Qed.

(** A file created under a default list. Its mode keeps the file type and
    loses every permission that the list does not have; the access list is
    valid, stands for that mode, and no process is granted by it what the
    default list would not grant. A list the mode can express is dropped, and
    directories inherit the default list. *)
Theorem posix_acl_create_correct (uid gid : Z → Prop) (p : parts) (ops : acl_ops) (umask mode : Z) :
  parts_ok uid gid p → 0 ≤ mode < 2 ^ 16 → S_ISLNK mode = false → is_posixacl ops = true →
  get_acl ops ACL_TYPE_DEFAULT = inr (Some (assemble p)) →
  ∃ p' mode',
    posix_acl_create ops true umask mode =
      (mode', if S_ISDIR mode' then Some (assemble p) else None,
       if has_mask p =? 0 then None else Some (assemble p'), 0) ∧
    mode' = Z.lor (Z.land mode (Z.lnot S_IRWXUGO)) (Z.land (mode_of p) (Z.land mode S_IRWXUGO)) ∧
    parts_ok uid gid p' ∧ posix_acl_equiv_mode (Some (assemble p')) mode = (has_mask p, mode') ∧
    ∀ fuel m current inode inside want, groups_known fuel m current inside →
      posix_acl_permission fuel m current inode (assemble p') want = Ok 0 →
      posix_acl_permission fuel m current inode (assemble p) want = Ok 0.
Proof.
  intros Hp Hm Hl Hops Hget. exists (created p mode), (Z.lor (Z.land mode (Z.lnot S_IRWXUGO)) (mode_of (created p mode))).
  split_and!.
  - unfold posix_acl_create. rewrite Hl, Hops, Hget. cbn [orb negb posix_acl_clone].
    rewrite (create_masq_spec uid gid p mode Hp Hm). unfold has_mask. by destruct (p_mask p).
  - by rewrite (created_mode uid gid).
  - by apply created_ok.
  - rewrite (equiv_mode_spec uid gid) by (done || by apply created_ok). unfold created. by rewrite has_mask_set_classes.
  - intros fuel m current inode inside want Hin. by apply (created_permission uid gid p mode fuel m current inode inside).
Qed.

(** The parts of the demonstration list. *)
Definition demo_parts : parts :=
  MkParts (MkEntry ACL_USER_OBJ 7 0) [MkEntry ACL_USER 6 1007] (MkEntry ACL_GROUP_OBJ 5 0) [] (Some (MkEntry ACL_MASK 4 0))
    (MkEntry ACL_OTHER 0 0).

Lemma demo_parts_ok : parts_ok (λ _, True) (λ _, True) demo_parts.
Proof. split; repeat constructor; cbn; lia. Qed.

Lemma posix_acl_create_correct_witness :
  ∃ acl', posix_acl_create (MkOps true (λ _, inr (Some demo_acl)) None) true 0 33206 = (33184, None, Some acl', 0).
Proof.
  destruct (posix_acl_create_correct (λ _, True) (λ _, True) demo_parts (MkOps true (λ _, inr (Some demo_acl)) None) 0 33206
              demo_parts_ok ltac:(lia) eq_refl eq_refl eq_refl) as (p' & mode' & E & Hm & _).
  vm_compute in Hm. subst mode'. eexists. exact E.
Defined.

(** Chmod. The list stays valid and keeps its named entries; it then
    stands for exactly the new permission bits. The owner has the owner bits;
    any other process is granted only what the group bits allow, unless it is
    in no entry of the list, when the bits for others decide. *)
Theorem posix_acl_chmod_correct (uid gid : Z → Prop) (p : parts) (mode mode_p : Z) :
  parts_ok uid gid p → 0 ≤ mode < 2 ^ 16 → 0 ≤ mode_p < 2 ^ 16 →
  ∃ p', __posix_acl_chmod (Some (assemble p)) true mode = (Some (assemble p'), 0) ∧
    parts_ok uid gid p' ∧ p_users p' = p_users p ∧ p_groups p' = p_groups p ∧
    posix_acl_equiv_mode (Some (assemble p')) mode_p =
      (has_mask p, Z.lor (Z.land mode_p (Z.lnot S_IRWXUGO)) (Z.land mode S_IRWXUGO)) ∧
    ∀ fuel m current inode inside want, groups_known fuel m current inside →
      posix_acl_permission fuel m current inode (assemble p') want = Ok 0 →
      grants (S_bits mode (if i_uid inode =? fsuid current then 6 else 3)) (Z.land want 7) = true ∨
      (grants (S_bits mode 0) (Z.land want 7) = true ∧
       find (λ e, e_id e =? fsuid current) (p_users p) = None ∧
       filter (λ ge, inside ge.1 = true) (group_entries inode p) = []).
Proof.
  intros Hp Hm Hmp. exists (chmodded p mode). split_and!.
  - unfold __posix_acl_chmod. cbn [posix_acl_clone]. by rewrite (chmod_masq_spec uid gid).
  - by apply chmodded_ok.
  - unfold chmodded, set_classes, set_class. cbn. by destruct (p_mask p).
  - unfold chmodded, set_classes, set_class. cbn. by destruct (p_mask p).
  - rewrite (equiv_mode_spec uid gid) by (done || by apply chmodded_ok). unfold chmodded.
    rewrite has_mask_set_classes, mode_of_set_classes. by rewrite mode_bits_of.
  - intros fuel m current inode inside want Hin.
    rewrite (posix_acl_permission_spec fuel m current inode inside Hin uid gid) by by apply chmodded_ok.
    destruct (access _ _ _ _ _) eqn:E; [|done]. intros _. destruct (Z.eqb_spec (i_uid inode) (fsuid current)) as [Ho|Ho].
    + left. unfold access in E. rewrite (proj2 (Z.eqb_eq _ _) Ho) in E.
      unfold chmodded, set_classes, set_class in E. cbn in E. by destruct (p_mask p).
    + by apply (access_class inside (fsuid current) inode uid gid p _ _ _ _ Hp Ho) in E.
Qed.

Lemma posix_acl_chmod_correct_witness :
  ∃ acl', __posix_acl_chmod (Some demo_acl) true 416 = (Some acl', 0) ∧
    posix_acl_equiv_mode (Some acl') 32768 = (1, 33184).
Proof.
  destruct (posix_acl_chmod_correct (λ _, True) (λ _, True) demo_parts 416 32768 demo_parts_ok ltac:(lia) ltac:(lia))
    as (p' & E & _ & _ & _ & Eq & _). exists (assemble p'). split; [exact E|exact Eq].
Defined.
