(* ===== verification/PosixAclXattr.v ===== *)
(** * Access control lists in extended attributes

    Storing a valid list in an attribute and loading it again, through the id
    maps of a namespace. *)

From stdpp Require Import base numbers list option.
From Stdlib Require Import ZArith Lia.
From S2P Require Import Prelude Strings StringsSpec Sort SortHeap SortSpec Kstrtox IdMap IdMapSpec IdMapWrite Groups PosixAcl PosixAclSpec.
Import Strings Sort IdMap Groups PosixAcl.

Open Scope Z_scope.

(** ** Fields in memory *)

Lemma read16_ext m m' a : (∀ k, 0 ≤ k < 2 → m (a + k) = m' (a + k)) → read16 m a = read16 m' a.
Proof. intros H. unfold read16. rewrite <- (Z.add_0_r a) at 1 3. by rewrite !H by lia. Qed.

Lemma write16_spec m a w x : write16 m a w x = if decide (a ≤ x < a + 2) then byte_of w (x - a) else m x.
Proof. apply write_bytes_spec. Qed.

Lemma read16_write16 m a w : 0 ≤ w < 2 ^ 16 → read16 (write16 m a w) a = w.
Proof.
  intros Hw. unfold read16. rewrite !write16_spec, !decide_True by lia.
  replace (a - a) with 0 by lia. replace (a + 1 - a) with 1 by lia. rewrite !byte_of_spec by lia.
  change (2 ^ (8 * 0)) with 1. change (2 ^ (8 * 1)) with 256. rewrite Z.div_1_r.
  pose proof (Z.div_mod w 256 ltac:(lia)). rewrite (Z.mod_small (w / 256)); [lia|].
  split; [apply Z.div_pos; lia|apply Z.div_lt_upper_bound; lia].
Qed.

Lemma write16_bytes m a w : byte_mem m → byte_mem (write16 m a w).
Proof.
  intros Hm x. rewrite write16_spec. case_decide; [|apply Hm]. rewrite byte_of_spec by lia. apply Z.mod_pos_bound. lia.
Qed.

(** An id through a map and back. *)
Lemma map_both fuel m map es i k :
  map_rep m map es ∧ extents_ok es ∧ Z.of_nat (length es) < Z.of_nat fuel → mapped es i k →
  map_id_up fuel m map k = Ok i ∧ map_id_down fuel m map i = Ok k ∧ k ≠ INVALID_ID ∧ 0 ≤ i < 2 ^ 32.
Proof.
  intros (Hrep & Hok & Hf) Hm.
  assert (0 ≤ i < 2 ^ 32 ∧ 0 ≤ k < 2 ^ 32 - 1) as [Hi Hk].
  { destruct Hm as (e & He & Hr & ->). destruct (proj1 Hok e He) as (? & ? & ? & ? & ?). lia. }
  destruct (up_find m map es fuel k Hrep Hok Hf ltac:(lia)) as (r & -> & Hr).
  destruct (range_down_find m map es fuel i 1 Hrep Hok Hf) as (d & Ed & Hd); [lia..|].
  destruct Hr as [[Hr _]|[_ Hno]]; [|by destruct (Hno i)]. rewrite (mapped_inj_up es r i k Hok Hr Hm).
  destruct Hd as [[Hd _]|[_ Hno]]; [|destruct (Hno k); by apply mapped_range_one].
  unfold map_id_down. rewrite Ed. apply mapped_range_one in Hd. rewrite (mapped_inj_down es i d k Hok Hd Hm).
  unfold INVALID_ID. split_and!; [done|done|lia|lia|lia].
Qed.

(** ** Storing and loading *)

Section Xattr.
Context (fuel : nat) (ns : user_namespace) (ues ges : list uid_gid_extent) (buffer len : Z) (ids : nat → Z).

(** The attribute does not overlap the arrays of the maps. *)
Hypothesis outside : map_outside (uid_map ns) buffer len ∧ map_outside (gid_map ns) buffer len.

Lemma ns_env_frame m m' : same_outside m m' buffer len → ns_env fuel m ns ues ges → ns_env fuel m' ns ues ges.
Proof.
  intros Ho [(Hu & Hu') (Hg & Hg')]. destruct outside as [H1 H2]. split; (split; [|done]).
  - by apply (map_rep_outside m m' _ _ buffer len).
  - by apply (map_rep_outside m m' _ _ buffer len).
Qed.

(** An entry that an attribute can hold. *)
Definition storable (e : posix_acl_entry) : Prop :=
  0 ≤ e_perm e < 2 ^ 16 ∧
  (e_tag e ∈ [ACL_USER_OBJ; ACL_GROUP_OBJ; ACL_MASK; ACL_OTHER] ∨
   (e_tag e = ACL_USER ∧ given ues (e_id e)) ∨ (e_tag e = ACL_GROUP ∧ given ges (e_id e))).

Definition is_named (e : posix_acl_entry) : bool := (e_tag e =? ACL_USER) || (e_tag e =? ACL_GROUP).

(** What loading gives back: only the ids of named entries are stored. *)
Fixpoint reloaded (i : nat) (acl : posix_acl) : posix_acl :=
  match acl with
  | [] => []
  | e :: acl => (if is_named e then e else MkEntry (e_tag e) (e_perm e) (ids i)) :: reloaded (S i) acl
  end.

(** The id stored for an entry, and what is loaded for it. *)
Lemma stored_id m0 e : ns_env fuel m0 ns ues ges → storable e →
  ∃ id, 0 ≤ id < 2 ^ 32 ∧ 0 ≤ e_tag e < 2 ^ 15 ∧
    (∀ m, ns_env fuel m ns ues ges →
      (if e_tag e =? ACL_USER then from_kuid fuel m ns (e_id e)
       else if e_tag e =? ACL_GROUP then from_kgid fuel m ns (e_id e) else Ok ACL_UNDEFINED_ID) = Ok id) ∧
    (∀ m i, ns_env fuel m ns ues ges →
      (if (e_tag e =? ACL_USER_OBJ) || (e_tag e =? ACL_GROUP_OBJ) || (e_tag e =? ACL_MASK) || (e_tag e =? ACL_OTHER)
       then Ok (Some (ids i))
       else if e_tag e =? ACL_USER then
         uid ← make_kuid fuel m ns id; Ok (if uid =? INVALID_ID then None else Some uid)
       else if e_tag e =? ACL_GROUP then
         gid ← make_kgid fuel m ns id; Ok (if gid =? INVALID_ID then None else Some gid)
       else Ok None) = Ok (Some (if is_named e then e_id e else ids i))).
Proof.
  intros Henv [_ Ht]. unfold is_named. destruct Ht as [Ht|[[-> [u Hu]]|[-> [g Hg]]]].
  - exists ACL_UNDEFINED_ID. unfold ACL_UNDEFINED_ID. repeat setoid_rewrite elem_of_cons in Ht.
    destruct Ht as [->|[->|[->|[->|Ht]]]]; [..|by apply elem_of_nil in Ht]; split_and!; (done || lia || by intros).
  - exists u. split; [apply (map_both fuel m0 (uid_map ns) ues u (e_id e) (ns_uids _ _ _ _ _ Henv) Hu)|].
    split; [done|]. split; intros m; [|intros i]; intros [Hm _]; destruct (map_both fuel m _ ues u _ Hm Hu) as (E1 & E2 & Hne & _).
    + exact E1.
    + cbn [Z.eqb Pos.eqb orb]. unfold make_kuid. rewrite E2. cbn. by rewrite (proj2 (Z.eqb_neq _ _) Hne).
  - exists g. split; [apply (map_both fuel m0 (gid_map ns) ges g (e_id e) (ns_gids _ _ _ _ _ Henv) Hg)|].
    split; [done|]. split; intros m; [|intros i]; intros [_ Hm]; destruct (map_both fuel m _ ges g _ Hm Hg) as (E1 & E2 & Hne & _).
    + exact E1.
    + cbn [Z.eqb Pos.eqb orb]. unfold make_kgid. rewrite E2. cbn. by rewrite (proj2 (Z.eqb_neq _ _) Hne).
Qed.

Lemma xattr_loops acl : Forall storable acl → ∀ m entry,
  ns_env fuel m ns ues ges → byte_mem m → buffer ≤ entry → entry + Z.of_nat (length acl) * XATTR_ENTRY ≤ buffer + len →
  ∃ m', to_xattr_loop fuel m ns acl entry = Ok m' ∧ byte_mem m' ∧
    same_outside m m' entry (Z.of_nat (length acl) * XATTR_ENTRY) ∧
    ∀ i, from_xattr_loop fuel m' ns ids entry i (length acl) = Ok (Some (reloaded i acl)).
Proof.
  unfold XATTR_ENTRY. induction 1 as [|e acl He _ IH]; intros m entry Henv Hm Hlo Hhi; cbn [length to_xattr_loop].
  { exists m. split_and!; [done|done|by intros x _|done]. }
  unfold XATTR_ENTRY. cbn [length] in Hhi. destruct (stored_id m e Henv He) as (id & Hid & Htag & Hsto & Hload). destruct He as [Hperm _].
  set (m1 := write16 (write16 m entry (u16 (e_tag e))) (entry + 2) (e_perm e)).
  set (m2 := write32 m1 (entry + 4) id).
  assert (∀ x, ¬ (entry ≤ x < entry + 4) → m1 x = m x) as Hm1.
  { intros x Hx. unfold m1. rewrite !write16_spec, !decide_False by lia. done. }
  assert (∀ x, ¬ (entry ≤ x < entry + 8) → m2 x = m x) as Hm2.
  { intros x Hx. unfold m2. rewrite write32_spec, decide_False by lia. apply Hm1. lia. }
  rewrite Hsto by (apply (ns_env_frame m); [|done]; intros x Hx; apply Hm1; lia). cbn [mbind outcome_bind]. fold m2.
  destruct (IH m2 (entry + 8)) as (m' & -> & Hb & Ho & Hfrom);
    [apply (ns_env_frame m); [|done]; intros x Hx; apply Hm2; lia|by repeat first [apply write32_bytes|apply write16_bytes]|lia|lia|].
  assert (∀ x, entry ≤ x < entry + 8 → m' x = m2 x) as Hkeep by (intros x Hx; apply Ho; lia).
  exists m'. split; [done|]. split; [done|]. split.
  { intros x Hx. rewrite Ho by lia. apply Hm2. lia. }
  intros i. cbn [length from_xattr_loop reloaded]. unfold XATTR_ENTRY.
  assert (read16 m' entry = u16 (e_tag e)) as ->.
  { rewrite (read16_ext m' (write16 m entry (u16 (e_tag e)))); [apply read16_write16; apply Z.mod_pos_bound; lia|].
    intros k Hk. rewrite Hkeep by lia. unfold m2, m1. rewrite write32_spec, decide_False by lia.
    rewrite write16_spec, decide_False by lia. done. }
  assert (read16 m' (entry + 2) = e_perm e) as ->.
  { rewrite (read16_ext m' m1); [by apply read16_write16|]. intros k Hk. rewrite Hkeep by lia.
    unfold m2. rewrite write32_spec, decide_False by lia. done. }
  assert (read32 m' (entry + 4) = id) as ->.
  { rewrite (read32_ext m' m2 _ (entry + 4)); [by apply read32_write32|]. intros k Hk. by rewrite Hkeep by lia. }
  assert (s16 (u16 (e_tag e)) = e_tag e) as ->.
  { unfold u16. rewrite Z.mod_small by lia. apply sext_id; lia. }
  rewrite Hload.
  2:{ apply (ns_env_frame m); [|done]. intros x Hx. rewrite Ho by lia. apply Hm2. lia. }
  cbn [mbind outcome_bind]. rewrite Hfrom. cbn [mbind outcome_bind]. destruct (is_named e); [by destruct e|done].
Qed.

End Xattr.

(** ** The round trip *)

Lemma parts_storable ues ges p : parts_ok (given ues) (given ges) p → Forall (storable ues ges) (assemble p).
Proof.
  intros [Ho Hus Hg Hgs Hk Hot].
  assert (∀ tag e, tag ∈ [ACL_USER_OBJ; ACL_GROUP_OBJ; ACL_MASK; ACL_OTHER] → entry_ok tag e → storable ues ges e) as Hs.
  { intros tag e Ht [He Hp]. split; [lia|]. left. by rewrite He. }
  unfold assemble. constructor; [apply (Hs ACL_USER_OBJ); [by left|done]|]. apply Forall_app. split.
  { eapply list.Forall_impl; [done|]. intros e [[He Hp] Hu]. split; [lia|]. right. by left. }
  constructor; [apply (Hs ACL_GROUP_OBJ); [right; by left|done]|]. apply Forall_app. split.
  { eapply list.Forall_impl; [done|]. intros e [[He Hp] Hu]. split; [lia|]. right. by right. }
  apply Forall_app. split.
  - destruct (p_mask p); constructor; [|constructor]. apply (Hs ACL_MASK); [do 2 right; by left|done].
  - constructor; [|constructor]. apply (Hs ACL_OTHER); [do 3 right; by left|done].
Qed.

(** C34: attributes round trip. Into a buffer that is large enough a valid list
    is stored in 4 + 8n bytes, without touching the rest of memory, and loading
    these bytes gives the list back: the same tags, permissions and named ids,
    although the ids are stored as the namespace sees them. A buffer that is
    too small is left alone, and without a buffer the size is returned. *)
Theorem posix_acl_xattr_roundtrip (fuel : nat) (m : mem) (ns : user_namespace) (ues ges : list uid_gid_extent)
    (p : parts) (ids : nat → Z) (buffer size : Z) :
  let n := Z.of_nat (length (assemble p)) in
  let len := XATTR_HEADER + n * XATTR_ENTRY in
  ns_env fuel m ns ues ges → parts_ok (given ues) (given ges) p → byte_mem m → 0 < buffer → n < 2 ^ 27 →
  map_outside (uid_map ns) buffer len ∧ map_outside (gid_map ns) buffer len →
  posix_acl_to_xattr fuel m ns (assemble p) NULL size = Ok (m, len) ∧
  (size < len → posix_acl_to_xattr fuel m ns (assemble p) buffer size = Ok (m, - ERANGE)) ∧
  (len ≤ size →
    ∃ m', posix_acl_to_xattr fuel m ns (assemble p) buffer size = Ok (m', len) ∧ same_outside m m' buffer len ∧
      posix_acl_from_xattr fuel m' ns (Some ids) buffer len = Ok (inr (Some (reloaded ids 0 (assemble p))))).
Proof.
  intros n len Henv Hp Hm Hbuf Hn Hout. unfold XATTR_HEADER, XATTR_ENTRY in len.
  assert (0 < n) as Hn0 by (unfold n, assemble; cbn; lia).
  assert (s32 (posix_acl_xattr_size n) = len) as Esz.
  { unfold posix_acl_xattr_size, XATTR_HEADER, XATTR_ENTRY. rewrite u64_id by lia. apply sext_id; lia. }
  unfold posix_acl_to_xattr. fold n. rewrite Esz. split; [done|].
  rewrite (proj2 (Z.eqb_neq buffer NULL)) by (unfold NULL; lia). rewrite u64_id by lia. split.
  { intros Hs. by rewrite (proj2 (Z.ltb_lt _ _)). }
  intros Hs. rewrite (proj2 (Z.ltb_ge _ _)) by done.
  set (m1 := write32 m buffer POSIX_ACL_XATTR_VERSION).
  assert (∀ x, ¬ (buffer ≤ x < buffer + 4) → m1 x = m x) as Hm1 by (intros x Hx; unfold m1; by rewrite write32_spec, decide_False by lia).
  destruct (xattr_loops fuel ns ues ges buffer len ids Hout (assemble p) (parts_storable ues ges p Hp) m1 (buffer + 4))
    as (m' & E & Hb & Ho & Hfrom); [|by apply write32_bytes|lia|unfold XATTR_ENTRY; lia|].
  { apply (ns_env_frame fuel ns ues ges buffer len Hout m); [|done]. intros x Hx. apply Hm1. lia. }
  unfold XATTR_HEADER. rewrite E. cbn [mbind outcome_bind]. unfold XATTR_ENTRY in Ho. fold n in Ho.
  exists m'. split; [done|]. split.
  { intros x Hx. rewrite Ho by lia. apply Hm1. lia. }
  unfold posix_acl_from_xattr, XATTR_HEADER. rewrite (proj2 (Z.eqb_neq buffer NULL)) by (unfold NULL; lia).
  rewrite (proj2 (Z.ltb_ge len 4)) by lia.
  assert (read32 m' buffer = POSIX_ACL_XATTR_VERSION) as ->.
  { rewrite (read32_ext m' m1 _ buffer); [by apply read32_write32|]. intros k Hk. apply Ho. lia. }
  assert (posix_acl_xattr_count len = n) as ->.
  { unfold posix_acl_xattr_count, XATTR_HEADER, XATTR_ENTRY. rewrite (proj2 (Z.ltb_ge len 4)) by lia.
    replace (len - 4) with (n * 8) by lia. rewrite Z.mod_mul, Z.div_mul by lia. cbn [Z.eqb negb]. apply sext_id; lia. }
  cbn [Z.eqb Pos.eqb negb]. rewrite (proj2 (Z.ltb_ge n 0)), (proj2 (Z.eqb_neq n 0)) by lia.
  unfold n. rewrite Nat2Z.id, Hfrom. done.
Qed.

Lemma posix_acl_xattr_roundtrip_witness :
  ∃ m', posix_acl_to_xattr 20 (λ _, 0) demo_ns demo_acl 5000 100 = Ok (m', 44) ∧
    posix_acl_from_xattr 20 m' demo_ns (Some (λ _, 0)) 5000 44 = Ok (inr (Some demo_acl)).
Proof.
  destruct (posix_acl_xattr_roundtrip 20 (λ _, 0) demo_ns demo_extents demo_extents
              (MkParts (MkEntry ACL_USER_OBJ 7 0) [MkEntry ACL_USER 6 1007] (MkEntry ACL_GROUP_OBJ 5 0) []
                 (Some (MkEntry ACL_MASK 4 0)) (MkEntry ACL_OTHER 0 0)) (λ _, 0) 5000 100 demo_ns_env)
    as (_ & _ & H); [|intros x; lia|lia|done|done|].
  - split; repeat constructor; cbn; try lia. exists 7, (MkExtent 0 1000 100). cbn. split; [by left|lia].
  - destruct H as (m' & E & _ & E'); [done|]. exists m'. split; [exact E|exact E'].
Defined.
