(* ===== verification/Semaphore.v ===== *)
(** * Counting semaphores

    src/semaphore/src/semaphore.c. Every operation runs under the spinlock of
    the semaphore except while it sleeps, so an execution is an interleaving
    of critical sections: entering one of the down routines, resuming in one
    after [schedule_timeout], [up] and [down_trylock]. *)

From stdpp Require Import base numbers list option gmap.
From Stdlib Require Import ZArith Lia.
From S2P Require Import Prelude.

#[local] Set Warnings "-clear-no-such-hyp".

Open Scope Z_scope.

Module Semaphore.

Definition EINTR : Z := 4.
Definition ETIME : Z := 62.
Definition TASK_INTERRUPTIBLE : Z := 1.
Definition TASK_UNINTERRUPTIBLE : Z := 2.
Definition TASK_WAKEKILL : Z := 256.
Definition TASK_KILLABLE : Z := Z.lor TASK_WAKEKILL TASK_UNINTERRUPTIBLE.
Definition MAX_SCHEDULE_TIMEOUT : Z := 2 ^ 63 - 1.

(** The waiters are named by their tasks, in the order of the list. *)
Record semaphore := MkSem { count : Z; wait_list : list Z }.

Definition sema_init (val : Z) : semaphore := MkSem (u32 val) [].

(** The signals of a task: whether one is pending, whether it is fatal. *)
Record signals := MkSignals { pending : bool; fatal : bool }.

Definition signal_pending_state (state : Z) (p : signals) : bool :=
  if Z.land state (Z.lor TASK_INTERRUPTIBLE TASK_WAKEKILL) =? 0 then false
  else if negb (pending p) then false
  else negb (Z.land state TASK_INTERRUPTIBLE =? 0) || fatal p.

(** [elapsed] jiffies pass before the task runs again. *)
Definition schedule_timeout (timeout elapsed : Z) : Z :=
  if timeout =? MAX_SCHEDULE_TIMEOUT then timeout
  else if timeout <? 0 then 0
  else let timeout := s64 (timeout - elapsed) in if timeout <? 0 then 0 else timeout.

(** A critical section ends with the task asleep or the routine returning. *)
Inductive result := Sleeps | Returns (r : Z).

Definition list_del (t : Z) (sem : semaphore) : semaphore :=
  MkSem (count sem) (filter (λ t', t' ≠ t) (wait_list sem)).

(** The head of the loop of [__down_common], up to the unlock. *)
Definition down_loop (sem : semaphore) (t state timeout : Z) (p : signals) : semaphore * result :=
  if signal_pending_state state p then (list_del t sem, Returns (- EINTR))
  else if timeout <=? 0 then (list_del t sem, Returns (- ETIME))
  else (sem, Sleeps).

Definition __down_common (sem : semaphore) (t state timeout : Z) (p : signals) : semaphore * result :=
  down_loop (MkSem (count sem) (wait_list sem ++ [t])) t state timeout p.

(** After [schedule_timeout], with the lock taken again; [up] is the flag of
    the waiter. *)
Definition __down_common_resume (sem : semaphore) (t state timeout : Z) (up : bool) (p : signals) : semaphore * result :=
  if up then (sem, Returns 0) else down_loop sem t state timeout p.

Definition __down (sem : semaphore) (t : Z) (p : signals) : semaphore * result :=
  __down_common sem t TASK_UNINTERRUPTIBLE MAX_SCHEDULE_TIMEOUT p.
Definition __down_interruptible (sem : semaphore) (t : Z) (p : signals) : semaphore * result :=
  __down_common sem t TASK_INTERRUPTIBLE MAX_SCHEDULE_TIMEOUT p.
Definition __down_killable (sem : semaphore) (t : Z) (p : signals) : semaphore * result :=
  __down_common sem t TASK_KILLABLE MAX_SCHEDULE_TIMEOUT p.
Definition __down_timeout (sem : semaphore) (t timeout : Z) (p : signals) : semaphore * result :=
  __down_common sem t TASK_UNINTERRUPTIBLE timeout p.

Definition take_one (sem : semaphore) : semaphore := MkSem (count sem - 1) (wait_list sem).

Definition down (sem : semaphore) (t : Z) (p : signals) : semaphore * result :=
  if 0 <? count sem then (take_one sem, Returns 0) else __down sem t p.
Definition down_interruptible (sem : semaphore) (t : Z) (p : signals) : semaphore * result :=
  if 0 <? count sem then (take_one sem, Returns 0) else __down_interruptible sem t p.
Definition down_killable (sem : semaphore) (t : Z) (p : signals) : semaphore * result :=
  if 0 <? count sem then (take_one sem, Returns 0) else __down_killable sem t p.
Definition down_timeout (sem : semaphore) (t timeout : Z) (p : signals) : semaphore * result :=
  if 0 <? count sem then (take_one sem, Returns 0) else __down_timeout sem t timeout p.

(** [count] is an int: the unsigned field minus one. *)
Definition down_trylock (sem : semaphore) : semaphore * Z :=
  let count := s32 (count sem - 1) in
  (if 0 <=? count then MkSem count (wait_list sem) else sem, if count <? 0 then 1 else 0).

(** The semaphore and the waiter whose flag is set and that is woken. *)
Definition __up (sem : semaphore) : semaphore * option Z :=
  match wait_list sem with
  | [] => (sem, None)
  | t :: l => (MkSem (count sem) l, Some t)
  end.

Definition up (sem : semaphore) : semaphore * option Z :=
  match wait_list sem with
  | [] => (MkSem (u32 (count sem + 1)) [], None)
  | _ => __up sem
  end.

(** ** Executions *)

(** The routines a task can enter, with the state and the timeout it sleeps
    with. *)
Inductive entry := Down | DownInterruptible | DownKillable | DownTimeout (timeout : Z).

Definition enter (e : entry) (sem : semaphore) (t : Z) (p : signals) : semaphore * result :=
  match e with
  | Down => down sem t p
  | DownInterruptible => down_interruptible sem t p
  | DownKillable => down_killable sem t p
  | DownTimeout timeout => down_timeout sem t timeout p
  end.

Definition entry_state (e : entry) : Z :=
  match e with
  | Down | DownTimeout _ => TASK_UNINTERRUPTIBLE
  | DownInterruptible => TASK_INTERRUPTIBLE
  | DownKillable => TASK_KILLABLE
  end.

Definition entry_timeout (e : entry) : Z :=
  match e with DownTimeout timeout => timeout | _ => MAX_SCHEDULE_TIMEOUT end.

(** A task asleep in a down routine. *)
Record waiter := MkWaiter { w_entry : entry; w_timeout : Z; w_up : bool }.

(** The semaphore, the sleeping tasks, and how often it was acquired and
    released so far. *)
Record sys := MkSys { sem : semaphore; waiting : gmap Z waiter; acquired : Z; released : Z }.

Definition gain (r : Z) : Z := if r =? 0 then 1 else 0.

Inductive event := EDown (t : Z) (r : result) | EResume (t : Z) (r : result) | EUp | ETry.

Inductive step : sys → event → sys → Prop :=
  | step_down_returns s e t p sem' r :
      waiting s !! t = None → enter e (sem s) t p = (sem', Returns r) →
      step s (EDown t (Returns r)) (MkSys sem' (waiting s) (acquired s + gain r) (released s))
  | step_down_sleeps s e t p sem' :
      waiting s !! t = None → enter e (sem s) t p = (sem', Sleeps) →
      step s (EDown t Sleeps)
        (MkSys sem' (<[t := MkWaiter e (entry_timeout e) false]> (waiting s)) (acquired s) (released s))
  | step_resume_returns s t w elapsed p sem' r :
      waiting s !! t = Some w →
      __down_common_resume (sem s) t (entry_state (w_entry w)) (schedule_timeout (w_timeout w) elapsed) (w_up w) p =
        (sem', Returns r) →
      step s (EResume t (Returns r)) (MkSys sem' (delete t (waiting s)) (acquired s + gain r) (released s))
  | step_resume_sleeps s t w elapsed p sem' :
      waiting s !! t = Some w →
      __down_common_resume (sem s) t (entry_state (w_entry w)) (schedule_timeout (w_timeout w) elapsed) (w_up w) p =
        (sem', Sleeps) →
      step s (EResume t Sleeps)
        (MkSys sem' (<[t := MkWaiter (w_entry w) (schedule_timeout (w_timeout w) elapsed) (w_up w)]> (waiting s))
           (acquired s) (released s))
  | step_up s sem' woken :
      up (sem s) = (sem', woken) →
      step s EUp
        (MkSys sem' (match woken with
                     | Some t => alter (λ w, MkWaiter (w_entry w) (w_timeout w) true) t (waiting s)
                     | None => waiting s end)
           (acquired s) (released s + 1))
  | step_try s sem' r :
      down_trylock (sem s) = (sem', r) →
      step s ETry (MkSys sem' (waiting s) (acquired s + gain r) (released s)).

(** Executions, with their events. *)
Inductive run : sys → list event → sys → Prop :=
  | run_nil s : run s [] s
  | run_cons s e s' tr s'' : step s e s' → run s' tr s'' → run s (e :: tr) s''.

Definition start (n : Z) : sys := MkSys (sema_init n) ∅ 0 0.

End Semaphore.
Import Semaphore.

(** ** The invariant *)

(** The flag of a sleeping task: whether the semaphore was handed to it. *)
Definition flag (s : sys) (t : Z) : option bool := w_up <$> waiting s !! t.
Definition granted (s : sys) (t : Z) : Prop := flag s t = Some true.
Definition queued (s : sys) (t : Z) : Prop := flag s t = Some false.

(** The tasks that have been handed the semaphore but do not run yet. *)
Definition granted_set (s : sys) : gset Z := dom (filter (λ tw : Z * waiter, w_up tw.2 = true) (waiting s)).

Record inv (n : Z) (s : sys) : Prop := {
  inv_count : 0 ≤ count (sem s);
  inv_acquired : 0 ≤ acquired s;
  inv_nodup : NoDup (wait_list (sem s));
  inv_queue : ∀ t, t ∈ wait_list (sem s) ↔ queued s t;
  inv_empty : wait_list (sem s) ≠ [] → count (sem s) = 0;
  inv_tokens : count (sem s) + acquired s + Z.of_nat (size (granted_set s)) = n + released s;
}.

Lemma elem_of_granted s t : t ∈ granted_set s ↔ granted s t.
Proof.
  unfold granted_set, granted, flag. rewrite elem_of_dom, fmap_Some. split.
  - intros [w [Hw Hu]%map_lookup_filter_Some]. by exists w.
  - intros (w & Hw & Hu). exists w. by apply map_lookup_filter_Some.
Qed.

(** The flags after a change of one task. *)
Lemma flag_insert m f a r t w t' :
  flag (MkSys m (<[t := w]> f) a r) t' = if decide (t' = t) then Some (w_up w) else w_up <$> f !! t'.
Proof. unfold flag. cbn. case_decide; [subst; by rewrite lookup_insert_eq|by rewrite lookup_insert_ne]. Qed.

Lemma flag_delete m f a r t t' :
  flag (MkSys m (delete t f) a r) t' = if decide (t' = t) then None else w_up <$> f !! t'.
Proof. unfold flag. cbn. case_decide; [subst; by rewrite lookup_delete_eq|by rewrite lookup_delete_ne]. Qed.

Lemma flag_alter s m a r t t' :
  flag (MkSys m (alter (λ w, MkWaiter (w_entry w) (w_timeout w) true) t (waiting s)) a r) t' =
  if decide (t' = t) then (λ _, true) <$> flag s t else flag s t'.
Proof.
  unfold flag. cbn. case_decide; [subst; rewrite lookup_alter_eq|by rewrite lookup_alter_ne].
  by destruct (waiting s !! t).
Qed.

(** Only the flags of the waiters matter for the tokens. *)
Lemma granted_size_eq s s' : (∀ t, granted s t ↔ granted s' t) → size (granted_set s') = size (granted_set s).
Proof.
  intros H. assert (granted_set s' = granted_set s) as ->; [|done].
  apply set_eq. intros t. by rewrite !elem_of_granted, H.
Qed.

Lemma granted_size_add s s' t :
  ¬ granted s t → (∀ t', granted s' t' ↔ t' = t ∨ granted s t') → size (granted_set s') = S (size (granted_set s)).
Proof.
  intros Ht H. assert (granted_set s' = {[t]} ∪ granted_set s) as ->.
  { apply set_eq. intros t'. rewrite elem_of_union, elem_of_singleton, !elem_of_granted. apply H. }
  rewrite size_union, size_singleton; [done|]. apply disjoint_singleton_l. by rewrite elem_of_granted.
Qed.

(** What a step does to a semaphore in which [t] is not queued. *)
Lemma down_loop_cases m t state timeout p m' r :
  down_loop m t state timeout p = (m', r) →
  (r = Sleeps ∧ m' = m) ∨ (∃ err, r = Returns err ∧ err < 0 ∧ m' = list_del t m).
Proof.
  unfold down_loop. destruct (signal_pending_state state p).
  { intros [= <- <-]. right. by exists (- EINTR). }
  destruct (timeout <=? 0); intros [= <- <-]; [right; by exists (- ETIME)|by left].
Qed.

Lemma list_del_fresh (t : Z) (l : list Z) : t ∉ l → filter (λ t', t' ≠ t) (l ++ [t]) = l.
Proof.
  intros Ht. rewrite list.filter_app. rewrite filter_cons_False, filter_nil, app_nil_r by naive_solver.
  induction l as [|x l IH]; [done|]. rewrite not_elem_of_cons in Ht. destruct Ht. rewrite filter_cons_True by done. by rewrite IH.
Qed.

Lemma enter_cases e m t p m' r :
  enter e m t p = (m', r) → t ∉ wait_list m →
  (0 < count m ∧ r = Returns 0 ∧ m' = take_one m) ∨
  (count m ≤ 0 ∧ r = Sleeps ∧ m' = MkSem (count m) (wait_list m ++ [t])) ∨
  (count m ≤ 0 ∧ (∃ err, r = Returns err ∧ err < 0) ∧ m' = m).
Proof.
  intros E Ht.
  assert ((if 0 <? count m then (take_one m, Returns 0)
           else __down_common m t (entry_state e) (entry_timeout e) p) = (m', r)) as E' by (by destruct e).
  clear E. destruct (Z.ltb_spec 0 (count m)); [left; by injection E' as <- <-|right].
  unfold __down_common in E'. apply down_loop_cases in E' as [[-> ->]|(err & -> & Herr & ->)]; [by left|right].
  split; [lia|]. split; [by exists err|]. unfold list_del. cbn. rewrite list_del_fresh by done. by destruct m.
Qed.

(** Case split on the task that changed, whose flag before is known. *)
Ltac flag_solve :=
  let Hd := fresh "Hd" in case_decide as Hd; [rewrite ?Hd; repeat match goal with Hf : flag _ _ = _ |- _ => rewrite Hf end; cbn; intuition congruence
                     |unfold flag; intuition congruence].

Section Preservation.
Context (n : Z).

Lemma inv_start : 0 ≤ n < 2 ^ 32 → inv n (start n).
Proof.
  intros Hn. unfold start, sema_init. rewrite u32_id by lia. split; cbn; [lia|lia|constructor| |done|].
  - intros t. split; [by intros ?%elem_of_nil|]. done.
  - unfold granted_set. cbn. rewrite map_filter_empty, dom_empty_L, size_empty. lia.
Qed.

Lemma not_queued s t : inv n s → waiting s !! t = None → t ∉ wait_list (sem s).
Proof. intros Hi Ht Hin. apply (inv_queue n s Hi) in Hin. unfold queued, flag in Hin. by rewrite Ht in Hin. Qed.

Lemma inv_enter s e t p m' r :
  inv n s → waiting s !! t = None → enter e (sem s) t p = (m', Returns r) →
  inv n (MkSys m' (waiting s) (acquired s + gain r) (released s)).
Proof.
  intros Hi Ht E. pose proof Hi as [Hc Ha Hnd Hq He Htok].
  apply enter_cases in E; [|by apply (not_queued s)].
  destruct E as [(Hpos & [= ->] & ->)|[(_ & ? & _)|(_ & (err & [= ->] & Herr) & ->)]]; [|done|].
  - split; cbn; [lia|lia|done|done| |]; [|change (granted_set _) with (granted_set s); lia].
    intros Hne. specialize (He Hne). lia.
  - assert (gain err = 0) as -> by (unfold gain; destruct (Z.eqb_spec err 0); lia).
    split; cbn; [done|lia|done|done|done|]. change (granted_set _) with (granted_set s). lia.
Qed.

Lemma inv_sleep s e t p m' :
  inv n s → waiting s !! t = None → enter e (sem s) t p = (m', Sleeps) →
  inv n (MkSys m' (<[t := MkWaiter e (entry_timeout e) false]> (waiting s)) (acquired s) (released s)).
Proof.
  intros Hi Ht E. pose proof Hi as [Hc Ha Hnd Hq He Htok]. pose proof (not_queued s t Hi Ht) as Hnq.
  assert (flag s t = None) as Hf by (unfold flag; by rewrite Ht).
  apply enter_cases in E; [|done].
  destruct E as [(_ & ? & _)|[(Hz & _ & ->)|(_ & (err & ? & _) & _)]]; [done| |done].
  split; cbn; [done|done| | |lia|].
  - apply NoDup_app. split; [done|]. split; [|apply NoDup_singleton]. by intros x Hx ->%list_elem_of_singleton.
  - intros t'. rewrite elem_of_app, list_elem_of_singleton, Hq. unfold queued, granted. rewrite flag_insert. flag_solve.
  - rewrite (granted_size_eq s); [done|]. intros t'. unfold queued, granted. rewrite flag_insert. flag_solve.
Qed.

Lemma inv_resume_granted s t w :
  inv n s → waiting s !! t = Some w → w_up w = true →
  inv n (MkSys (sem s) (delete t (waiting s)) (acquired s + 1) (released s)).
Proof.
  intros [Hc Ha Hnd Hq He Htok] Hw Hu.
  assert (flag s t = Some true) as Hf by (unfold flag; by rewrite Hw, <- Hu). split; cbn; [done|lia|done| |done|].
  - intros t'. rewrite Hq. unfold queued, granted. rewrite flag_delete. flag_solve.
  - set (s' := MkSys _ _ _ _). rewrite (granted_size_add s' s t) in Htok; [lia| |].
    + unfold granted, s'. rewrite flag_delete, decide_True by done. done.
    + intros t'. unfold granted, s'. rewrite flag_delete. flag_solve.
Qed.

Lemma inv_resume_leaves s t w err :
  inv n s → waiting s !! t = Some w → w_up w = false → err < 0 →
  inv n (MkSys (list_del t (sem s)) (delete t (waiting s)) (acquired s + gain err) (released s)).
Proof.
  intros [Hc Ha Hnd Hq He Htok] Hw Hu Herr.
  assert (flag s t = Some false) as Hf by (unfold flag; by rewrite Hw, <- Hu). assert (gain err = 0) as -> by (unfold gain; destruct (Z.eqb_spec err 0); lia).
  split; cbn; [done|lia|by apply NoDup_filter| | |].
  - intros t'. rewrite list_elem_of_filter, Hq. unfold queued, granted. rewrite flag_delete. flag_solve.
  - intros Hne. apply He. contradict Hne. by rewrite Hne.
  - rewrite (granted_size_eq s); [lia|]. intros t'. unfold queued, granted. rewrite flag_delete. flag_solve.
Qed.

Lemma inv_resume_sleeps s t w timeout :
  inv n s → waiting s !! t = Some w → w_up w = false →
  inv n (MkSys (sem s) (<[t := MkWaiter (w_entry w) timeout (w_up w)]> (waiting s)) (acquired s) (released s)).
Proof.
  intros [Hc Ha Hnd Hq He Htok] Hw Hu. rewrite Hu.
  assert (flag s t = Some false) as Hf by (unfold flag; by rewrite Hw, <- Hu). split; cbn; [done|done|done| |done|].
  - intros t'. rewrite Hq. unfold queued, granted. rewrite flag_insert. flag_solve.
  - rewrite (granted_size_eq s); [done|]. intros t'. unfold queued, granted. rewrite flag_insert. flag_solve.
Qed.

Lemma inv_up_hands_over s t l :
  inv n s → wait_list (sem s) = t :: l →
  inv n (MkSys (MkSem (count (sem s)) l) (alter (λ w, MkWaiter (w_entry w) (w_timeout w) true) t (waiting s))
           (acquired s) (released s + 1)).
Proof.
  intros [Hc Ha Hnd Hq He Htok] El. rewrite El in *. apply NoDup_cons in Hnd as [Htl Hnd].
  assert (flag s t = Some false) as Hf by (apply Hq; by left).
  split; cbn; [done|done|done| |intros _; by apply He|].
  - intros t'. specialize (Hq t'). rewrite elem_of_cons in Hq. unfold queued in *. rewrite flag_alter.
    case_decide as Hd; [rewrite ?Hd in *; rewrite Hf in *; cbn; intuition congruence|intuition congruence].
  - rewrite (granted_size_add s _ t); [lia|unfold granted; congruence|].
    intros t'. unfold granted. rewrite flag_alter. flag_solve.
Qed.

Lemma inv_step s e s' : inv n s → n + released s' < 2 ^ 31 → step s e s' → inv n s'.
Proof.
  intros Hi Hb Hs. destruct Hs as [s e t p m' r Ht E|s e t p m' Ht E|s t w el p m' r Hw E|s t w el p m' Hw E|s m' woken E|s m' r E].
  - by apply (inv_enter s e t p).
  - by apply (inv_sleep s e t p).
  - unfold __down_common_resume in E. destruct (w_up w) eqn:Hu.
    + injection E as <- <-. by apply (inv_resume_granted s t w).
    + apply down_loop_cases in E as [[? _]|(err & [= ->] & Herr & ->)]; [done|]. by apply (inv_resume_leaves s t w).
  - unfold __down_common_resume in E. destruct (w_up w) eqn:Hu; [done|].
    apply down_loop_cases in E as [[_ ->]|(err & ? & _)]; [|done]. rewrite <- Hu. by apply (inv_resume_sleeps s t w).
  - unfold up, __up in E. destruct (wait_list (sem s)) as [|t l] eqn:El.
    + injection E as <- <-. pose proof Hi as [Hc Ha Hnd Hq He Htok]. cbn in Hb.
      rewrite u32_id by lia. split; cbn; [lia|done|constructor| |done|change (granted_set _) with (granted_set s); lia].
      intros t. rewrite <- El. apply Hq.
    + injection E as <- <-. by apply inv_up_hands_over.
  - unfold down_trylock in E. pose proof Hi as [Hc Ha Hnd Hq He Htok]. cbn in Hb.
    unfold s32 in E. rewrite sext_id in E by lia.
    destruct (Z.leb_spec 0 (count (sem s) - 1)), (Z.ltb_spec (count (sem s) - 1) 0); try lia; injection E as <- <-.
    + split; cbn; [lia|lia|done|done| |change (granted_set _) with (granted_set s); lia]. intros Hne. specialize (He Hne). lia.
    + split; cbn; [done|lia|done|done|done|change (granted_set _) with (granted_set s); lia].
Qed.

End Preservation.

(** ** Order of service *)

Definition is_up (e : event) : nat := match e with EUp => 1 | _ => 0 end.
Definition ups (tr : list event) : nat := sum_list (map is_up tr).

(** Tasks in [down] sleep without a timeout. *)
Definition timeouts_ok (s : sys) : Prop :=
  ∀ t w, waiting s !! t = Some w → w_entry w = Down → w_timeout w = MAX_SCHEDULE_TIMEOUT.

Lemma timeouts_step s e s' : timeouts_ok s → step s e s' → timeouts_ok s'.
Proof.
  intros Hs H. destruct H as [s e t p m' r Ht E|s e t p m' Ht E|s t w el p m' r Hw E|s t w el p m' Hw E|s m' woken E|s m' r E];
    try exact Hs; intros t' w' Hw' He; cbn in Hw'.
  - destruct (decide (t' = t)) as [->|Hne].
    + rewrite lookup_insert_eq in Hw'. injection Hw' as <-. cbn in He. by subst e.
    + rewrite lookup_insert_ne in Hw' by done. by apply (Hs t').
  - apply lookup_delete_Some in Hw' as [_ Hw']. by apply (Hs t').
  - destruct (decide (t' = t)) as [->|Hne].
    + rewrite lookup_insert_eq in Hw'. injection Hw' as <-. cbn in He |- *. by rewrite (Hs t w Hw He).
    + rewrite lookup_insert_ne in Hw' by done. by apply (Hs t').
  - destruct woken as [t|]; [|by apply (Hs t')]. destruct (decide (t' = t)) as [->|Hne].
    + rewrite lookup_alter_eq in Hw'. destruct (waiting s !! t) as [w|] eqn:Hw; [|done]. injection Hw' as <-. by apply (Hs t w).
    + rewrite lookup_alter_ne in Hw' by done. by apply (Hs t').
Qed.

(** [t] sleeps in [e] with [k] tasks before it. *)
Definition pos (s : sys) (t : Z) (k : nat) (e : entry) : Prop :=
  wait_list (sem s) !! k = Some t ∧ ∃ w, waiting s !! t = Some w ∧ w_up w = false ∧ w_entry w = e.

Lemma filter_position (l : list Z) (t t' : Z) k :
  l !! k = Some t → t ≠ t' → ∃ k', (k' ≤ k)%nat ∧ filter (λ x, x ≠ t') l !! k' = Some t.
Proof.
  intros Hk Hne. revert k Hk. induction l as [|x l IH]; intros k Hk; [done|]. destruct k as [|k].
  - injection Hk as ->. exists 0%nat. split; [done|]. by rewrite filter_cons_True.
  - destruct (IH k Hk) as (k' & Hle & Hk'). destruct (decide (x = t')) as [->|Hx].
    + exists k'. split; [lia|]. rewrite filter_cons_False by naive_solver. done.
    + exists (S k'). split; [lia|]. by rewrite filter_cons_True.
Qed.

(** Uninterruptible sleep without a timeout does not end by itself. *)
Lemma down_loop_uninterruptible m t p :
  down_loop m t TASK_UNINTERRUPTIBLE MAX_SCHEDULE_TIMEOUT p = (m, Sleeps).
Proof. done. Qed.

Lemma pos_enter m t t' k e p m' r :
  enter e m t' p = (m', r) → t' ∉ wait_list m → wait_list m !! k = Some t → wait_list m' !! k = Some t.
Proof.
  intros E Hn Hk. apply enter_cases in E; [|done].
  destruct E as [(_ & _ & ->)|[(_ & _ & ->)|(_ & _ & ->)]]; cbn; [done|by apply lookup_app_l_Some|done].
Qed.

Lemma pos_resume s t t' k w el p m' r :
  pos s t k (w_entry w) → t' = t → waiting s !! t = Some w → timeouts_ok s →
  __down_common_resume (sem s) t' (entry_state (w_entry w)) (schedule_timeout (w_timeout w) el) (w_up w) p = (m', r) →
  (r = Sleeps ∧ m' = sem s) ∨ (∃ err, r = Returns err ∧ err < 0 ∧ w_entry w ≠ Down).
Proof.
  intros (_ & w' & Hw' & Hu & _) -> Hw Hto E. assert (w' = w) as -> by congruence. rewrite Hu in E. cbn in E.
  destruct (down_loop_cases _ _ _ _ _ _ _ E) as [[-> ->]|(err & -> & Herr & ->)]; [by left|right].
  exists err. split; [done|]. split; [done|]. intros Hd. rewrite Hd, (Hto t w Hw Hd) in E.
  change (schedule_timeout MAX_SCHEDULE_TIMEOUT el) with MAX_SCHEDULE_TIMEOUT in E.
  cbn [entry_state] in E. by rewrite down_loop_uninterruptible in E.
Qed.

Lemma pos_step n s ev s' t k e :
  inv n s → timeouts_ok s → step s ev s' → pos s t k e →
  granted s' t ∨ (∃ r, ev = EResume t (Returns r) ∧ r < 0 ∧ e ≠ Down) ∨
  ∃ k', pos s' t k' e ∧ (k' + is_up ev ≤ k)%nat.
Proof.
  intros Hi Hto Hs Hp. pose proof Hp as (Hk & w & Hw & Hu & He).
  destruct Hs as [s e' t' p m' r Ht' E|s e' t' p m' Ht' E|s t' w' el p m' r Hw' E|s t' w' el p m' Hw' E|s m' woken E|s m' r E]; cbn [is_up].
  - right. right. exists k. split; [|lia]. split; [|by exists w]. eapply pos_enter; [done|by apply (not_queued n s)|done].
  - right. right. exists k. split; [|lia]. assert (t' ≠ t) by congruence. split; cbn.
    + eapply pos_enter; [done|by apply (not_queued n s)|done].
    + exists w. by rewrite lookup_insert_ne.
  - destruct (decide (t' = t)) as [->|Hne].
    + assert (w' = w) as -> by congruence. rewrite <- He in Hp.
      destruct (pos_resume s t t k w el p m' (Returns r) Hp eq_refl Hw Hto E) as [[? _]|(err & [= ->] & Herr & Hd)]; [done|].
      right. left. exists err. by rewrite He in Hd.
    + right. right. assert (∃ k', (k' ≤ k)%nat ∧ wait_list m' !! k' = Some t) as (k' & Hle & Hk').
      { unfold __down_common_resume in E. destruct (w_up w'); [injection E as <- <-; by exists k|].
        apply down_loop_cases in E as [[? _]|(err & _ & _ & ->)]; [done|]. by apply filter_position. }
      exists k'. split; [|lia]. split; [done|]. exists w. cbn. by rewrite lookup_delete_ne.
  - right. right. exists k. split; [|lia]. unfold __down_common_resume in E. destruct (w_up w') eqn:Hu'; [done|].
    apply down_loop_cases in E as [[_ ->]|(err & ? & _)]; [|done]. split; [done|]. cbn.
    destruct (decide (t' = t)) as [->|Hne]; [rewrite lookup_insert_eq|rewrite lookup_insert_ne by done; by exists w].
    eexists. split; [done|]. cbn. assert (w' = w) as -> by congruence. done.
  - unfold up, __up in E. destruct (wait_list (sem s)) as [|h l] eqn:El; [done|]. injection E as <- <-.
    pose proof (inv_nodup n s Hi) as Hnd. rewrite El in Hnd. apply NoDup_cons in Hnd as [Hh _].
    destruct k as [|k].
    + injection Hk as ->. left. unfold granted. rewrite flag_alter, decide_True by done. unfold flag. by rewrite Hw.
    + right. right. exists k. split; [|lia]. split; [done|]. cbn in Hk |- *.
      assert (h ≠ t) by (intros ->; apply Hh; by eapply list_elem_of_lookup_2). exists w. by rewrite lookup_alter_ne.
  - right. right. exists k. split; [|lia]. split; [|by exists w]. unfold down_trylock in E.
    destruct (0 <=? s32 (count (sem s) - 1)); by injection E as <- <-.
Qed.

(** ** Executions keep the invariant and serve in order *)

Lemma step_released s e s' : step s e s' → released s ≤ released s'.
Proof. intros H. destruct H; cbn; lia. Qed.

Lemma run_released s tr s' : run s tr s' → released s ≤ released s'.
Proof. induction 1 as [|s e s1 tr s2 Hs _ IH]; [lia|]. apply step_released in Hs. lia. Qed.

Lemma run_inv n s tr s' :
  run s tr s' → inv n s → timeouts_ok s → n + released s' < 2 ^ 31 → inv n s' ∧ timeouts_ok s'.
Proof.
  induction 1 as [|s e s1 tr s2 Hs Hr IH]; intros Hi Ht Hb; [done|]. pose proof (run_released _ _ _ Hr).
  apply IH; [eapply inv_step; [done| |done]; lia|by eapply timeouts_step|done].
Qed.

Lemma start_inv n tr s : 0 ≤ n → run (start n) tr s → n + released s < 2 ^ 31 → inv n s ∧ timeouts_ok s.
Proof.
  intros Hn Hr Hb. pose proof (run_released _ _ _ Hr) as Hm. cbn in Hm.
  apply (run_inv n _ _ _ Hr); [apply inv_start; lia| |done]. by intros t w Hw.
Qed.

Lemma run_serves n s tr s' t k e :
  run s tr s' → inv n s → timeouts_ok s → n + released s' < 2 ^ 31 → pos s t k e → (k < ups tr)%nat →
  (∃ r, EResume t (Returns r) ∈ tr ∧ r < 0 ∧ e ≠ Down) ∨
  ∃ tr1 s1 tr2, tr = tr1 ++ tr2 ∧ run s tr1 s1 ∧ run s1 tr2 s' ∧ granted s1 t.
Proof.
  intros Hr. revert k. induction Hr as [|s ev s1 tr s2 Hs Hr IH]; intros k Hi Ht Hb Hp Hk; [cbn in Hk; lia|].
  pose proof (run_released _ _ _ Hr).
  destruct (pos_step n s ev s1 t k e Hi Ht Hs Hp) as [Hg|[(r & -> & Hlt & Hd)|(k' & Hp' & Hle)]].
  - right. exists [ev], s1, tr. split_and!; [done|by econstructor; [|constructor]|done|done].
  - left. exists r. split; [by left|done].
  - destruct (IH k') as [(r & Hin & Hlt & Hd)|(tr1 & s3 & tr2 & -> & H1 & H2 & Hg)].
    + eapply inv_step; [done| |done]. lia.
    + by eapply timeouts_step.
    + done.
    + done.
    + unfold ups in *. cbn in Hk. lia.
    + left. exists r. split; [by right|done].
    + right. exists (ev :: tr1), s3, tr2. split_and!; [done|by econstructor|done|done].
Qed.

(** Mutual exclusion and the state of the semaphore. In every execution,
    whatever the interleaving of tasks, signals and timeouts, the semaphore is
    never acquired more than [n] times beyond its releases; exactly the tasks
    it has not been handed to are queued, and nobody is queued while it is
    free; and no token is lost or invented: the count, the acquisitions and
    the hand-overs in flight add up to [n] plus the releases. *)
Theorem semaphore_tokens (n : Z) (tr : list event) (s : sys) :
  0 ≤ n → run (start n) tr s → n + released s < 2 ^ 31 →
  acquired s - released s ≤ n ∧ 0 ≤ count (sem s) ∧
  (wait_list (sem s) ≠ [] → count (sem s) = 0) ∧
  NoDup (wait_list (sem s)) ∧ (∀ t, t ∈ wait_list (sem s) ↔ queued s t) ∧
  count (sem s) + acquired s + Z.of_nat (size (granted_set s)) = n + released s.
Proof.
  intros Hn Hr Hb. destruct (start_inv n tr s Hn Hr Hb) as [[Hc Ha Hnd Hq He Htok] _]. split; [lia|]. by split_and!.
Qed.

(** C29: waiters are served in order. A task with [k] tasks before it in the
    queue has been handed the semaphore once [up] ran [k + 1] times, unless it
    gave up earlier, which a task in [down] never does; and a task that was
    handed the semaphore returns 0 from its routine when it next runs. *)
Theorem semaphore_serves_in_order (n : Z) (tr0 tr : list event) (s s' : sys) (t : Z) (k : nat) (w : waiter) :
  0 ≤ n → run (start n) tr0 s → run s tr s' → n + released s' < 2 ^ 31 →
  wait_list (sem s) !! k = Some t → waiting s !! t = Some w → (k < ups tr)%nat →
  (∃ r, EResume t (Returns r) ∈ tr ∧ r < 0 ∧ w_entry w ≠ Down) ∨
  ∃ tr1 s1 tr2, tr = tr1 ++ tr2 ∧ run s tr1 s1 ∧ run s1 tr2 s' ∧ granted s1 t ∧
    ∀ r s2, step s1 (EResume t r) s2 → r = Returns 0.
Proof.
  intros Hn Hr0 Hr Hb Hk Hw Hups. pose proof (run_released _ _ _ Hr) as Hm.
  destruct (start_inv n tr0 s Hn Hr0 ltac:(lia)) as [Hi Ht].
  assert (pos s t k (w_entry w)) as Hp.
  { split; [done|]. exists w. split; [done|]. split; [|done].
    assert (queued s t) as Hq by (apply (inv_queue n s Hi); by eapply list_elem_of_lookup_2).
    unfold queued, flag in Hq. rewrite Hw in Hq. by injection Hq. }
  destruct (run_serves n s tr s' t k (w_entry w) Hr Hi Ht Hb Hp Hups) as [?|(tr1 & s1 & tr2 & -> & H1 & H2 & Hg)]; [by left|].
  right. exists tr1, s1, tr2. split_and!; [done..|]. intros r s2 Hs.
  unfold granted, flag in Hg. apply fmap_Some in Hg as (w1 & Hw1 & Hu1).
  inversion Hs as [| |s3 t3 w3 el p m' r3 Hw3 E|s3 t3 w3 el p m' Hw3 E| |]; subst;
    rewrite Hw1 in Hw3; injection Hw3 as <-; unfold __down_common_resume in E; rewrite <- Hu1 in E; [by injection E as <- <-|done].
Qed.

(** Task 1 takes the only token, tasks 2 and 3 queue, then [up] runs twice. *)
Definition calm : signals := MkSignals false false.
Definition queue_of (l : list Z) : gmap Z waiter :=
  list_to_map (map (λ t, (t, MkWaiter Down MAX_SCHEDULE_TIMEOUT false)) l).
Definition demo_sys : sys := MkSys (MkSem 0 [2; 3]) (queue_of [3; 2]) 1 0.

Lemma demo_queue : run (start 1) [EDown 1 (Returns 0); EDown 2 Sleeps; EDown 3 Sleeps] demo_sys.
Proof.
  eapply run_cons; [apply (step_down_returns _ Down 1 calm); reflexivity|].
  eapply run_cons; [apply (step_down_sleeps _ Down 2 calm); reflexivity|].
  eapply run_cons; [apply (step_down_sleeps _ Down 3 calm); reflexivity|]. apply run_nil.
Qed.

Lemma semaphore_tokens_witness : acquired demo_sys - released demo_sys ≤ 1 ∧ count (sem demo_sys) = 0.
Proof.
  destruct (semaphore_tokens 1 [EDown 1 (Returns 0); EDown 2 Sleeps; EDown 3 Sleeps] demo_sys
              ltac:(lia) demo_queue ltac:(cbn; lia)) as (H & _ & H0 & _).
  split; [exact H|apply H0; discriminate].
Defined.

Lemma semaphore_serves_in_order_witness :
  ∃ s1, granted s1 3 ∧ ∀ r s2, step s1 (EResume 3 r) s2 → r = Returns 0.
Proof.
  destruct (semaphore_serves_in_order 1 [EDown 1 (Returns 0); EDown 2 Sleeps; EDown 3 Sleeps] [EUp; EUp] demo_sys
              (MkSys (MkSem 0 []) (alter (λ w, MkWaiter (w_entry w) (w_timeout w) true) 3
                 (alter (λ w, MkWaiter (w_entry w) (w_timeout w) true) 2 (queue_of [3; 2]))) 1 2)
              3 1 (MkWaiter Down MAX_SCHEDULE_TIMEOUT false) ltac:(lia) demo_queue) as [(r & _ & _ & H)|(tr1 & s1 & tr2 & _ & _ & _ & H)].
  - eapply run_cons; [apply (step_up demo_sys (MkSem 0 [3]) (Some 2)); reflexivity|].
    eapply run_cons; [eapply (step_up _ (MkSem 0 []) (Some 3)); reflexivity|]. apply run_nil.
  - cbn. lia.
  - reflexivity.
  - reflexivity.
  - cbn. lia.
  - by destruct H.
  - by exists s1.
Defined.
