(* ===== verification/Refcount.v ===== *)
(** * Saturating reference counts

    src/include/linux/refcount.h and src/refcount/src/refcount.c. The counter
    is one atomic int; an operation is a sequence of atomic accesses to it, and
    an execution interleaves the accesses of the operations in flight. *)

From stdpp Require Import base numbers list option gmap.
From Stdlib Require Import ZArith Lia.
From S2P Require Import Prelude.

#[local] Set Warnings "-clear-no-such-hyp".

Open Scope Z_scope.

Module Refcount.

(** [INT_MIN / 2] *)
Definition REFCOUNT_SATURATED : Z := - 2 ^ 30.

(** ** The atomic accesses

    Each takes the value [refs] of the counter and returns its new value, with
    what the operation does next. *)

(** What is left of an operation: nothing, [refcount_warn_saturate], or another
    round of a compare-and-exchange loop with the value it expects. *)
Inductive next := Done | Saturate | RetryAdd (old : Z) | RetryDec (val : Z).

#[global] Instance next_eq_dec : EqDecision next.
Proof. solve_decision. Defined.

(** [refcount_warn_saturate] and [refcount_set]. *)
Definition refcount_set (n : Z) : Z := n.
Definition refcount_warn_saturate : Z := refcount_set REFCOUNT_SATURATED.

Definition saturate_if (b : bool) : next := if b then Saturate else Done.

Definition refcount_add (i refs : Z) : Z * next :=
  let old := refs in
  (s32 (refs + i), saturate_if ((old =? 0) || ((old <? 0) || (s32 (old + i) <? 0)))).

Definition refcount_inc (refs : Z) : Z * next := refcount_add 1 refs.

(** The result, and what is next. *)
Definition refcount_sub_and_test (i refs : Z) : Z * bool * next :=
  let old := refs in
  let refs := s32 (refs - i) in
  if old =? i then (refs, true, Done)
  else (refs, false, saturate_if ((old <? 0) || (s32 (old - i) <? 0))).

Definition refcount_dec_and_test (refs : Z) : Z * bool * next := refcount_sub_and_test 1 refs.

Definition refcount_dec (refs : Z) : Z * next :=
  let old := refs in (s32 (refs - 1), saturate_if (old <=? 1)).

(** One round of the loop of [refcount_add_not_zero]. *)
Definition refcount_add_not_zero (i old refs : Z) : Z * next :=
  if (old =? 0) || (refs =? old) then
    (if old =? 0 then refs else s32 (old + i), saturate_if ((old <? 0) || (s32 (old + i) <? 0)))
  else (refs, RetryAdd refs).

Definition refcount_inc_not_zero (old refs : Z) : Z * next := refcount_add_not_zero 1 old refs.

(** [atomic_try_cmpxchg_release (&r->refs, &val, 0)] with [val] 1. *)
Definition refcount_dec_if_one (refs : Z) : Z * bool := if refs =? 1 then (0, true) else (refs, false).

(** One round of [refcount_dec_not_one]; [val] is unsigned. *)
Definition refcount_dec_not_one (val refs : Z) : Z * next :=
  if val =? u32 REFCOUNT_SATURATED then (refs, Done)
  else if val =? 1 then (refs, Done)
  else
    let new := u32 (val - 1) in
    if val <? new then (refs, Done)
    else if u32 refs =? val then (s32 new, Done)
    else (refs, RetryDec (u32 refs)).

(** ** Executions *)

(** The counter and the operations in flight, by number. *)
Record sys := MkSys { refs : Z; flight : gmap Z next }.

(** An operation that is over leaves the table. *)
Definition goes_on (o : Z) (k : next) (f : gmap Z next) : gmap Z next :=
  match k with Done => delete o f | _ => <[o := k]> f end.

(** [Freed]: the operation told its caller that the last reference is gone.
    [NotOne]: [refcount_dec_not_one] took one off the counter. *)
Inductive event := Quiet | Freed | NotOne.
Definition freed (b : bool) : event := if b then Freed else Quiet.
Definition moved (old new : Z) : event := if new =? old then Quiet else NotOne.

#[global] Instance event_eq_dec : EqDecision event.
Proof. solve_decision. Defined.

(** The operations without batching. *)
Inductive step : sys → event → sys → Prop :=
  | step_inc s o v k : flight s !! o = None → refcount_inc (refs s) = (v, k) →
      step s Quiet (MkSys v (goes_on o k (flight s)))
  | step_dec_and_test s o v b k : flight s !! o = None → refcount_dec_and_test (refs s) = (v, b, k) →
      step s (freed b) (MkSys v (goes_on o k (flight s)))
  | step_dec s o v k : flight s !! o = None → refcount_dec (refs s) = (v, k) →
      step s Quiet (MkSys v (goes_on o k (flight s)))
  | step_inc_not_zero_read s o : flight s !! o = None →
      step s Quiet (MkSys (refs s) (<[o := RetryAdd (refs s)]> (flight s)))
  | step_inc_not_zero s o old v k : flight s !! o = Some (RetryAdd old) → refcount_inc_not_zero old (refs s) = (v, k) →
      step s Quiet (MkSys v (goes_on o k (flight s)))
  | step_dec_if_one s v b : refcount_dec_if_one (refs s) = (v, b) →
      step s (freed b) (MkSys v (flight s))
  | step_saturate s o : flight s !! o = Some Saturate →
      step s Quiet (MkSys refcount_warn_saturate (delete o (flight s)))
  | step_dec_not_one_read s o : flight s !! o = None →
      step s Quiet (MkSys (refs s) (<[o := RetryDec (u32 (refs s))]> (flight s)))
  | step_dec_not_one s o val v k : flight s !! o = Some (RetryDec val) → refcount_dec_not_one val (refs s) = (v, k) →
      step s (moved (refs s) v) (MkSys v (goes_on o k (flight s))).

(** Executions with at most [n] operations in flight, with their events. *)
Inductive run (n : Z) : sys → list event → sys → Prop :=
  | run_nil s : run n s [] s
  | run_snoc s tr s1 e s2 : run n s tr s1 → step s1 e s2 →
      Z.of_nat (size (flight s2)) ≤ n → run n s (tr ++ [e]) s2.

(** How often [refcount_dec_not_one] took one off. *)
Definition not_ones (tr : list event) : Z := Z.of_nat (length (filter (λ e, e = NotOne) tr)).

End Refcount.
Import Refcount.

(** ** Saturation is kept *)

(** The operations about to reset the counter. *)
Definition saturating (s : sys) : gset Z := dom (filter (λ ok : Z * next, ok.2 = Saturate) (flight s)).

Lemma elem_of_saturating s o : o ∈ saturating s ↔ flight s !! o = Some Saturate.
Proof.
  unfold saturating. rewrite elem_of_dom. split.
  - intros [k [Hk Hs]%map_lookup_filter_Some]. cbn in Hs. by subst k.
  - intros Hk. exists Saturate. by apply map_lookup_filter_Some.
Qed.

Lemma saturating_size s : (size (saturating s) ≤ size (flight s))%nat.
Proof.
  rewrite <- (size_dom (flight s)). apply subseteq_size. intros o Ho%elem_of_saturating. by apply elem_of_dom_2 in Ho.
Qed.

(** The counter is as far from the saturated value as there are operations that
    will reset it and calls of [refcount_dec_not_one], which will not. *)
Definition near (d : Z) (s : sys) : Prop := Z.abs (refs s - REFCOUNT_SATURATED) ≤ Z.of_nat (size (saturating s)) + d.

Lemma near_more d s s' o :
  near d s → Z.abs (refs s' - refs s) ≤ 1 → flight s !! o ≠ Some Saturate → flight s' = <[o := Saturate]> (flight s) → near d s'.
Proof.
  intros Hn Hv Ho Hf. assert (saturating s' = {[o]} ∪ saturating s) as E.
  { apply set_eq. intros x. rewrite elem_of_union, elem_of_singleton, !elem_of_saturating, Hf.
    destruct (decide (x = o)) as [->|Hne]; [rewrite lookup_insert_eq|rewrite lookup_insert_ne by done]; tauto. }
  unfold near in *. rewrite E, size_union, size_singleton.
  - lia.
  - apply disjoint_singleton_l. by rewrite elem_of_saturating.
Qed.

Lemma near_same d s s' :
  near d s → refs s' = refs s → (∀ x, flight s' !! x = Some Saturate ↔ flight s !! x = Some Saturate) → near d s'.
Proof.
  intros Hn Hv Hf. assert (saturating s' = saturating s) as E.
  { apply set_eq. intros x. by rewrite !elem_of_saturating. }
  unfold near. by rewrite E, Hv.
Qed.

Lemma near_range d s : near d s → Z.of_nat (size (flight s)) + d < 2 ^ 30 → - 2 ^ 31 < refs s < 0.
Proof. unfold near, REFCOUNT_SATURATED. pose proof (saturating_size s). lia. Qed.

Lemma s32_near x : - 2 ^ 31 ≤ x < 2 ^ 31 → s32 x = x.
Proof. intros Hx. apply sext_id; lia. Qed.

(** [refcount_dec_not_one] on a counter near saturation. *)
Lemma near_dec_not_one d s o val v k :
  near d s → Z.of_nat (size (flight s)) + d < 2 ^ 30 → flight s !! o = Some (RetryDec val) →
  refcount_dec_not_one val (refs s) = (v, k) →
  near (d + not_ones [moved (refs s) v]) (MkSys v (goes_on o k (flight s))) ∧ moved (refs s) v ≠ Freed.
Proof.
  intros Hn Hsz Ho E. pose proof (near_range d s Hn Hsz) as Hr.
  split; [|unfold moved; by destruct (_ =? _)].
  assert (∀ k', k' = Done ∨ (∃ x, k' = RetryDec x) → near d (MkSys (refs s) (goes_on o k' (flight s)))) as Hsame.
  { intros k' Hk. apply (near_same d s); [done|done|]. intros x. cbn.
    destruct Hk as [->|(y & ->)]; cbn; (destruct (decide (x = o)) as [->|Hne];
      [rewrite ?lookup_delete_eq, ?lookup_insert_eq, Ho|rewrite ?lookup_delete_ne, ?lookup_insert_ne by done]; done). }
  assert (∀ k', k' = Done ∨ (∃ x, k' = RetryDec x) → (refs s, k') = (v, k) →
    near (d + not_ones [moved (refs s) v]) (MkSys v (goes_on o k (flight s)))) as Hstay.
  { intros k' Hk [= <- <-]. unfold moved. rewrite Z.eqb_refl. change (not_ones [Quiet]) with 0. rewrite Z.add_0_r. by apply Hsame. }
  unfold refcount_dec_not_one in E.
  destruct (val =? u32 REFCOUNT_SATURATED); [by apply (Hstay Done); [left|]|].
  destruct (val =? 1); [by apply (Hstay Done); [left|]|].
  destruct (val <? u32 (val - 1)); [by apply (Hstay Done); [left|]|].
  destruct (Z.eqb_spec (u32 (refs s)) val) as [<-|Hne]; [|apply (Hstay (RetryDec (u32 (refs s)))); [right; eauto|done]].
  injection E as <- <-. assert (s32 (u32 (u32 (refs s) - 1)) = refs s - 1) as ->.
  { unfold u32. rewrite Zminus_mod_idemp_l. unfold s32, sext. rewrite Zplus_mod_idemp_l, Z.mod_small by lia. lia. }
  unfold moved. rewrite (proj2 (Z.eqb_neq _ _)) by lia. change (not_ones [NotOne]) with 1.
  pose proof (Hsame Done ltac:(by left)) as Hd. unfold near in *. cbn in *. unfold saturating in *. cbn in *. lia.
Qed.

(** Starting an operation on a saturated counter. *)
Lemma near_step d s e s' :
  step s e s' → 0 ≤ d → near d s → Z.of_nat (size (flight s)) + d < 2 ^ 30 → near (d + not_ones [e]) s' ∧ e ≠ Freed.
Proof.
  intros Hs Hd Hn Hsz. pose proof (near_range d s Hn Hsz) as Hr. assert (not_ones [Quiet] = 0) as Hq by done.
  destruct Hs as [s o v k Ho E|s o v b k Ho E|s o v k Ho E|s o Ho|s o old v k Ho E|s v b E|s o Ho|s o Ho|s o val v k Ho E];
    [..|by apply (near_dec_not_one d s o val v k)].
  - rewrite Hq, Z.add_0_r. unfold refcount_inc, refcount_add in E. rewrite (proj2 (Z.ltb_lt (refs s) 0)), orb_true_r in E by lia.
    injection E as <- <-. split; [|done]. apply (near_more d s _ o); [done|cbn|by rewrite Ho|done]. rewrite s32_near by lia. lia.
  - unfold refcount_dec_and_test, refcount_sub_and_test in E. rewrite (proj2 (Z.eqb_neq (refs s) 1)) in E by lia.
    rewrite (proj2 (Z.ltb_lt (refs s) 0)) in E by lia. injection E as <- <- <-. change (freed false) with Quiet. rewrite Hq, Z.add_0_r. split; [|done].
    apply (near_more d s _ o); [done|cbn|by rewrite Ho|done]. rewrite s32_near by lia. lia.
  - rewrite Hq, Z.add_0_r. unfold refcount_dec in E. rewrite (proj2 (Z.leb_le (refs s) 1)) in E by lia. injection E as <- <-.
    split; [|done]. apply (near_more d s _ o); [done|cbn|by rewrite Ho|done]. rewrite s32_near by lia. lia.
  - rewrite Hq, Z.add_0_r. split; [|done]. apply (near_same d s); [done|done|]. intros x. cbn.
    destruct (decide (x = o)) as [->|Hne]; [rewrite lookup_insert_eq, Ho|rewrite lookup_insert_ne by done]; done.
  - rewrite Hq, Z.add_0_r. unfold refcount_inc_not_zero, refcount_add_not_zero in E. split; [|done].
    destruct (Z.eqb_spec old 0) as [->|H0]; cbn [orb] in E; [|destruct (Z.eqb_spec (refs s) old) as [<-|Hne]].
    + injection E as <- <-. apply (near_same d s); [done|done|]. intros x. cbn.
      destruct (decide (x = o)) as [->|Hne]; [rewrite lookup_delete_eq, Ho|rewrite lookup_delete_ne by done]; done.
    + rewrite (proj2 (Z.ltb_lt (refs s) 0)) in E by lia. injection E as <- <-.
      apply (near_more d s _ o); [done|cbn|by rewrite Ho|done]. rewrite s32_near by lia. lia.
    + injection E as <- <-. apply (near_same d s); [done|done|]. intros x. cbn.
      destruct (decide (x = o)) as [->|Hne']; [rewrite lookup_insert_eq, Ho|rewrite lookup_insert_ne by done]; done.
  - unfold refcount_dec_if_one in E. rewrite (proj2 (Z.eqb_neq (refs s) 1)) in E by lia. injection E as <- <-.
    change (freed false) with Quiet. rewrite Hq, Z.add_0_r. by destruct s.
  - rewrite Hq, Z.add_0_r. split; [|done]. unfold near. cbn. unfold refcount_warn_saturate, refcount_set, REFCOUNT_SATURATED. lia.
  - rewrite Hq, Z.add_0_r. split; [|done]. apply (near_same d s); [done|done|]. intros x. cbn.
    destruct (decide (x = o)) as [->|Hne]; [rewrite lookup_insert_eq, Ho|rewrite lookup_insert_ne by done]; done.
Qed.

Lemma not_ones_app tr tr' : not_ones (tr ++ tr') = not_ones tr + not_ones tr'.
Proof. unfold not_ones. rewrite filter_app, length_app. lia. Qed.

Lemma near_run n s tr s' :
  run n s tr s' → n + not_ones tr < 2 ^ 30 → near 0 s → Z.of_nat (size (flight s)) ≤ n →
  near (not_ones tr) s' ∧ Z.of_nat (size (flight s')) ≤ n ∧ Freed ∉ tr.
Proof.
  induction 1 as [|s tr s1 e s2 _ IH Hs Hsz]; intros Hn Hnear Hsz0.
  { split; [done|]. split; [done|]. apply not_elem_of_nil. }
  rewrite not_ones_app in Hn. assert (0 ≤ not_ones [e] ∧ 0 ≤ not_ones tr) as [Hp Hp'] by (unfold not_ones; lia).
  destruct IH as (H1 & H2 & H3); [lia|done|done|]. destruct (near_step (not_ones tr) s1 e s2 Hs Hp' H1 ltac:(lia)) as [Hn2 He].
  split; [by rewrite not_ones_app|]. split; [done|]. rewrite elem_of_app, list_elem_of_singleton. intros [?|?]; [done|congruence].
Qed.

(** C33: a saturated count stays saturated. In any interleaving of increments,
    decrements, conditional increments and decrements by one, and of the resets
    they trigger, a saturated counter stays in the negative range and no
    operation reports the last reference gone, so the object is never freed, as
    long as the number of operations in flight at once (with at most 0x400000
    tasks, 256 nested uses in each) plus the number of times
    [refcount_dec_not_one] has taken one off is below 2^30. The second part of
    the sum is needed: that routine skips only the exact saturated value and
    never resets. *)
Theorem saturated_stays (n : Z) (s : sys) (tr : list event) (s' : sys) :
  refs s = REFCOUNT_SATURATED → Z.of_nat (size (flight s)) ≤ n → run n s tr s' → n + not_ones tr < 2 ^ 30 →
  - 2 ^ 31 < refs s' < 0 ∧ Freed ∉ tr.
Proof.
  intros Hs Hsz Hr Hn. destruct (near_run n s tr s' Hr Hn) as (H1 & H2 & H3); [unfold near; lia|done|].
  split; [apply (near_range (not_ones tr)); [done|lia]|done].
Qed.

(** An increment and a decrement meet before the first of them resets. *)
Definition demo_end : sys := MkSys refcount_warn_saturate (delete 1 (<[2 := Saturate]> (<[1 := Saturate]> ∅))).

Lemma demo_run : run 2 (MkSys REFCOUNT_SATURATED ∅) [Quiet; Quiet; Quiet] demo_end.
Proof.
  apply (run_snoc 2 _ [Quiet; Quiet] (MkSys (-1073741824) (<[2 := Saturate]> (<[1 := Saturate]> ∅)))).
  - apply (run_snoc 2 _ [Quiet] (MkSys (-1073741823) (<[1 := Saturate]> ∅))).
    + apply (run_snoc 2 _ [] (MkSys REFCOUNT_SATURATED ∅)); [apply run_nil|by apply (step_inc (MkSys REFCOUNT_SATURATED ∅) 1 (-1073741823) Saturate)|by vm_compute].
    + exact (step_dec_and_test (MkSys (-1073741823) (<[1 := Saturate]> ∅)) 2 (-1073741824) false Saturate eq_refl eq_refl).
    + by vm_compute.
  - exact (step_saturate (MkSys (-1073741824) (<[2 := Saturate]> (<[1 := Saturate]> ∅))) 1 eq_refl).
  - by vm_compute.
Qed.

Lemma saturated_stays_witness : - 2 ^ 31 < refs demo_end < 0.
Proof.
  apply (saturated_stays 2 (MkSys REFCOUNT_SATURATED ∅) [Quiet; Quiet; Quiet] demo_end); [reflexivity|vm_compute; discriminate|apply demo_run|vm_compute; reflexivity].
Defined.

(** ** The exception *)

(** One whole call of [refcount_dec_not_one] next to a pending reset moves the
    counter down and leaves nothing in flight. *)
Lemma dec_not_one_call v f s0 tr :
  f !! 2 = None → - 2 ^ 31 ≤ v < REFCOUNT_SATURATED → Z.of_nat (size f) ≤ 1 →
  run 2 s0 tr (MkSys v f) → run 2 s0 (tr ++ [Quiet] ++ [NotOne]) (MkSys (s32 (v - 1)) f).
Proof.
  intros Hf Hv Hsz Hr. unfold REFCOUNT_SATURATED in Hv. rewrite app_assoc.
  assert (u32 v = v + 2 ^ 32) as Ev.
  { unfold u32. rewrite <- (Z.mod_add v 1 (2 ^ 32)), Z.mod_small by lia. lia. }
  apply (run_snoc _ _ _ (MkSys v (<[2 := RetryDec (u32 v)]> f))).
  - apply (run_snoc _ _ _ (MkSys v f)); [done|by apply (step_dec_not_one_read (MkSys v f) 2)|]. cbn.
    rewrite map_size_insert_None by done. lia.
  - assert (goes_on 2 Done (<[2 := RetryDec (u32 v)]> f) = f) as Eg by (cbn; by rewrite delete_insert_id).
    assert (moved v (s32 (v - 1)) = NotOne) as <-.
    { unfold moved. rewrite (proj2 (Z.eqb_neq _ _)); [done|]. destruct (decide (v = - 2 ^ 31)) as [->|]; [done|]. rewrite s32_near by lia. lia. }
    rewrite <- Eg at 2. refine (step_dec_not_one (MkSys v (<[2 := RetryDec (u32 v)]> f)) 2 (u32 v) (s32 (v - 1)) Done _ _);
      [by apply lookup_insert_eq|].
    unfold refcount_dec_not_one. cbn [refs]. rewrite Ev.
    rewrite (proj2 (Z.eqb_neq _ _)) by (unfold u32, REFCOUNT_SATURATED; change (- 2 ^ 30 mod 2 ^ 32) with (2 ^ 32 - 2 ^ 30); lia).
    rewrite (proj2 (Z.eqb_neq _ 1)) by lia. rewrite u32_id by lia. rewrite (proj2 (Z.ltb_ge _ _)) by lia.
    rewrite Z.eqb_refl. f_equal. unfold s32, sext. replace (v + 2 ^ 32 - 1 + 2 ^ (32 - 1)) with (v - 1 + 2 ^ (32 - 1) + 1 * 2 ^ 32) by lia.
    by rewrite Z.mod_add by lia.
  - cbn. lia.
Qed.

Lemma dec_not_one_calls f s0 tr : f !! 2 = None → Z.of_nat (size f) ≤ 1 →
  run 2 s0 tr (MkSys (REFCOUNT_SATURATED - 1) f) →
  ∀ k : nat, Z.of_nat k < 2 ^ 30 → ∃ tr', run 2 s0 tr' (MkSys (REFCOUNT_SATURATED - 1 - Z.of_nat k) f).
Proof.
  intros Hf Hsz Hr. unfold REFCOUNT_SATURATED in *. induction k as [|k IH]; intros Hk.
  - exists tr. by rewrite Z.sub_0_r.
  - destruct IH as [tr' Hr']; [lia|]. eexists. replace (- 2 ^ 30 - 1 - Z.of_nat (S k)) with (s32 (- 2 ^ 30 - 1 - Z.of_nat k - 1))
      by (rewrite s32_near by lia; lia).
    apply dec_not_one_call; [done|unfold REFCOUNT_SATURATED; lia|done|exact Hr'].
Qed.

(** The exception to saturation. With only two operations in flight, one of
    them a decrement that has not reset the counter yet, repeated calls of
    [refcount_dec_not_one] lead a saturated counter out of the range, to
    [INT_MAX]: the routine skips only the exact saturated value, moves any other
    by one and never resets. *)
Theorem dec_not_one_leaves_saturation :
  ∃ tr f, run 2 (MkSys REFCOUNT_SATURATED ∅) tr (MkSys (2 ^ 31 - 1) f).
Proof.
  set (f := <[1 := Saturate]> ∅ : gmap Z next).
  assert (run 2 (MkSys REFCOUNT_SATURATED ∅) ([] ++ [Quiet]) (MkSys (REFCOUNT_SATURATED - 1) f)) as Hr.
  { apply (run_snoc 2 _ [] (MkSys REFCOUNT_SATURATED ∅)); [apply run_nil| |by vm_compute].
    exact (step_dec (MkSys REFCOUNT_SATURATED ∅) 1 (REFCOUNT_SATURATED - 1) Saturate eq_refl eq_refl). }
  assert (f !! 2 = None) as Hf by done. assert (Z.of_nat (size f) ≤ 1) as Hsz by (by vm_compute).
  destruct (Z_of_nat_complete (2 ^ 30 - 1) ltac:(lia)) as [k Ek].
  destruct (dec_not_one_calls f _ _ Hf Hsz Hr k ltac:(lia)) as [tr Hr']. unfold REFCOUNT_SATURATED in *.
  eexists _, f. replace (2 ^ 31 - 1) with (s32 (- 2 ^ 30 - 1 - Z.of_nat k - 1)) by (rewrite <- Ek; reflexivity).
  apply dec_not_one_call; [done| |done|exact Hr']. unfold REFCOUNT_SATURATED. lia.
Qed.
