(* ===== verification/Rbtree.v ===== *)
(** * Red-black trees

    src/lib/src/rbtree.c and the inline part of
    src/include/linux/rbtree_augmented.h: nodes linked by pointers, with the
    colour in the low bit of the parent pointer. The source writes each branch
    of the rebalancing twice, once per side; here a branch is written once, for
    the side [d] and its opposite. The callbacks are those of the
    non-augmented tree, which do nothing. *)

From stdpp Require Import base numbers list option.
From Stdlib Require Import ZArith Lia.
From S2P Require Import Prelude.

Open Scope Z_scope.

Module Rbtree.

Record rb_node := MkNode { __rb_parent_color : Z; rb_right : Z; rb_left : Z }.

(** The nodes by address, and the root pointer. *)
Record heap := MkHeap { nodes : Z → rb_node; root : Z }.

Inductive side := L | R.
Definition opp (d : side) : side := match d with L => R | R => L end.

#[export] Instance side_eq_dec : EqDecision side.
Proof. solve_decision. Defined.

Definition RB_RED : Z := 0.
Definition RB_BLACK : Z := 1.

Definition child (d : side) (nd : rb_node) : Z := match d with L => rb_left nd | R => rb_right nd end.

(** ** Accesses; a NULL pointer is a crash *)

Definition load (h : heap) (p : Z) : outcome rb_node := if p =? 0 then Panic else Ok (nodes h p).

Definition upd_node (f : Z → rb_node) (p : Z) (nd : rb_node) : Z → rb_node := λ x, if x =? p then nd else f x.

Definition put (h : heap) (p : Z) (nd : rb_node) : heap := MkHeap (upd_node (nodes h) p nd) (root h).

Definition put_child (d : side) (h : heap) (p v : Z) : heap :=
  let nd := nodes h p in
  put h p (match d with
           | L => MkNode (__rb_parent_color nd) (rb_right nd) v
           | R => MkNode (__rb_parent_color nd) v (rb_left nd)
           end).

Definition put_pc (h : heap) (p v : Z) : heap :=
  let nd := nodes h p in put h p (MkNode v (rb_right nd) (rb_left nd)).

(** [WRITE_ONCE (p->rb_left, v)] and [WRITE_ONCE (p->rb_right, v)]. *)
Definition set_child (d : side) (p v : Z) (h : heap) : outcome heap :=
  if p =? 0 then Panic else Ok (put_child d h p v).

Definition set_pc (p v : Z) (h : heap) : outcome heap := if p =? 0 then Panic else Ok (put_pc h p v).

Definition __rb_parent (pc : Z) : Z := Z.land pc (Z.lnot 3).
Definition __rb_is_black (pc : Z) : bool := negb (Z.land pc 1 =? 0).
Definition __rb_is_red (pc : Z) : bool := negb (__rb_is_black pc).
Definition rb_parent (nd : rb_node) : Z := __rb_parent (__rb_parent_color nd).
Definition rb_is_black (nd : rb_node) : bool := __rb_is_black (__rb_parent_color nd).
Definition rb_is_red (nd : rb_node) : bool := __rb_is_red (__rb_parent_color nd).
Definition rb_red_parent (nd : rb_node) : Z := __rb_parent_color nd.

Definition rb_set_parent_color (rb p color : Z) (h : heap) : outcome heap := set_pc rb (Z.lor p color) h.

Definition rb_set_parent (rb p : Z) (h : heap) : outcome heap :=
  nd ← load h rb; set_pc rb (Z.lor (Z.land (__rb_parent_color nd) 1) p) h.

Definition rb_set_black (rb : Z) (h : heap) : outcome heap :=
  nd ← load h rb; set_pc rb (Z.lor (__rb_parent_color nd) RB_BLACK) h.

(** The same when the pointer is not NULL. *)
Definition if_node (p : Z) (f : heap → outcome heap) (h : heap) : outcome heap := if p =? 0 then Ok h else f h.

Definition __rb_change_child (old new parent : Z) (h : heap) : outcome heap :=
  if negb (parent =? 0) then
    pn ← load h parent;
    if rb_left pn =? old then set_child L parent new h else set_child R parent new h
  else Ok (MkHeap (nodes h) new).

Definition __rb_rotate_set_parents (old new color : Z) (h : heap) : outcome heap :=
  on ← load h old;
  let parent := rb_parent on in
  h ← set_pc new (__rb_parent_color on) h;
  h ← rb_set_parent_color old new color h;
  __rb_change_child old new parent h.

(** [p && rb_is_red (p)] and [!p || rb_is_black (p)]. *)
Definition red_node (h : heap) (p : Z) : outcome bool :=
  if p =? 0 then Ok false else nd ← load h p; Ok (rb_is_red nd).
Definition black_or_null (h : heap) (p : Z) : outcome bool :=
  if p =? 0 then Ok true else nd ← load h p; Ok (rb_is_black nd).

(** ** Insertion *)

(** Case 2 of [__rb_insert]: the rotation at the parent when the node is on
    the inner side. Returns the heap with the new [parent] and [tmp]. *)
Definition insert_case2 (d : side) (node parent tmp : Z) (h : heap) : outcome (heap * Z * Z) :=
  if node =? tmp then
    nn ← load h node;
    let tmp := child d nn in
    h ← set_child (opp d) parent tmp h;
    h ← set_child d node parent h;
    h ← if_node tmp (rb_set_parent_color tmp parent RB_BLACK) h;
    h ← rb_set_parent_color parent node RB_RED h;
    nn ← load h node;
    Ok (h, node, child (opp d) nn)
  else Ok (h, parent, tmp).

(** Case 3: the rotation at the grandparent. *)
Definition insert_case3 (d : side) (parent gparent tmp : Z) (h : heap) : outcome heap :=
  h ← set_child d gparent tmp h;
  h ← set_child (opp d) parent gparent h;
  h ← if_node tmp (rb_set_parent_color tmp gparent RB_BLACK) h;
  __rb_rotate_set_parents gparent parent RB_RED h.

(** The branch for a parent on side [d] of [gparent]; [loop] is the next
    iteration. *)
Definition insert_side (loop : heap → Z → Z → outcome heap) (d : side) (h : heap) (node parent gparent : Z) : outcome heap :=
  gn ← load h gparent;
  let tmp := child (opp d) gn in
  red ← red_node h tmp;
  if red : bool then
    h ← rb_set_parent_color tmp gparent RB_BLACK h;
    h ← rb_set_parent_color parent gparent RB_BLACK h;
    nn ← load h gparent;
    let parent := rb_parent nn in
    h ← rb_set_parent_color gparent parent RB_RED h;
    loop h gparent parent
  else
    pn ← load h parent;
    '(h, parent, tmp) ← insert_case2 d node parent (child (opp d) pn) h;
    insert_case3 d parent gparent tmp h.

Fixpoint insert_loop (fuel : nat) (h : heap) (node parent : Z) : outcome heap :=
  match fuel with
  | O => Fuel
  | S fuel =>
      if parent =? 0 then rb_set_parent_color node 0 RB_BLACK h
      else
        pn ← load h parent;
        if rb_is_black pn then Ok h
        else
          let gparent := rb_red_parent pn in
          gn ← load h gparent;
          if negb (parent =? rb_right gn) then insert_side (insert_loop fuel) L h node parent gparent
          else insert_side (insert_loop fuel) R h node parent gparent
  end.

Definition __rb_insert (fuel : nat) (h : heap) (node : Z) : outcome heap :=
  nn ← load h node; insert_loop fuel h node (rb_red_parent nn).

Definition rb_insert_color (fuel : nat) (h : heap) (node : Z) : outcome heap := __rb_insert fuel h node.

(** [rb_link_node], where [link] is the child pointer of [parent] on side [d],
    or the root pointer when [parent] is NULL. *)
Definition rb_link_node (h : heap) (node parent : Z) (d : side) : outcome heap :=
  if node =? 0 then Panic
  else
    let h := put h node (MkNode parent 0 0) in
    if parent =? 0 then Ok (MkHeap (nodes h) node) else set_child d parent node h.

(** ** Rebalancing after an erasure *)

(** Case 1: the sibling is red. Returns the heap and the sibling. *)
Definition erase_case1 (d : side) (parent sibling : Z) (h : heap) : outcome (heap * Z) :=
  sn ← load h sibling;
  if rb_is_red sn then
    let tmp1 := child d sn in
    h ← set_child (opp d) parent tmp1 h;
    h ← set_child d sibling parent h;
    h ← rb_set_parent_color tmp1 parent RB_BLACK h;
    h ← __rb_rotate_set_parents parent sibling RB_RED h;
    Ok (h, tmp1)
  else Ok (h, sibling).

(** Case 3: the rotation at the sibling. Returns the heap, the sibling and
    [tmp1]. *)
Definition erase_case3 (d : side) (parent sibling tmp2 : Z) (h : heap) : outcome (heap * Z * Z) :=
  tn ← load h tmp2;
  let tmp1 := child (opp d) tn in
  h ← set_child d sibling tmp1 h;
  h ← set_child (opp d) tmp2 sibling h;
  h ← set_child (opp d) parent tmp2 h;
  h ← if_node tmp1 (rb_set_parent_color tmp1 sibling RB_BLACK) h;
  Ok (h, tmp2, sibling).

(** Case 4: the rotation at the parent. *)
Definition erase_case4 (d : side) (parent sibling tmp1 : Z) (h : heap) : outcome heap :=
  sn ← load h sibling;
  let tmp2 := child d sn in
  h ← set_child (opp d) parent tmp2 h;
  h ← set_child d sibling parent h;
  h ← rb_set_parent_color tmp1 sibling RB_BLACK h;
  h ← if_node tmp2 (rb_set_parent tmp2 parent) h;
  __rb_rotate_set_parents parent sibling RB_BLACK h.

(** The branch for a node on side [d] of [parent], from the point where the
    sibling is black; [loop] is the next iteration, with the node and its
    parent. *)
Definition erase_black (loop : heap → Z → Z → outcome heap) (d : side) (h : heap) (parent sibling : Z) : outcome heap :=
  sn ← load h sibling;
  let tmp1 := child (opp d) sn in
  black1 ← black_or_null h tmp1;
  if black1 : bool then
    let tmp2 := child d sn in
    black2 ← black_or_null h tmp2;
    if black2 : bool then
      h ← rb_set_parent_color sibling parent RB_RED h;
      pn ← load h parent;
      if rb_is_red pn then rb_set_black parent h
      else
        let node := parent in
        let parent := rb_parent pn in
        if negb (parent =? 0) then loop h node parent else Ok h
    else
      '(h, sibling, tmp1) ← erase_case3 d parent sibling tmp2 h;
      erase_case4 d parent sibling tmp1 h
  else erase_case4 d parent sibling tmp1 h.

Definition erase_side (loop : heap → Z → Z → outcome heap) (d : side) (h : heap) (parent : Z) : outcome heap :=
  pn ← load h parent;
  '(h, sibling) ← erase_case1 d parent (child (opp d) pn) h;
  erase_black loop d h parent sibling.

Fixpoint erase_loop (fuel : nat) (h : heap) (node parent : Z) : outcome heap :=
  match fuel with
  | O => Fuel
  | S fuel =>
      pn ← load h parent;
      if negb (node =? rb_right pn) then erase_side (erase_loop fuel) L h parent
      else erase_side (erase_loop fuel) R h parent
  end.

Definition ____rb_erase_color (fuel : nat) (h : heap) (parent : Z) : outcome heap := erase_loop fuel h 0 parent.

(** ** Erasure *)

(** The loop that finds the leftmost node under [successor]; returns its
    parent and it. *)
Fixpoint successor_loop (fuel : nat) (h : heap) (parent successor tmp : Z) : outcome (Z * Z) :=
  match fuel with
  | O => Fuel
  | S fuel =>
      let parent := successor in
      let successor := tmp in
      tn ← load h tmp;
      let tmp := rb_left tn in
      if negb (tmp =? 0) then successor_loop fuel h parent successor tmp else Ok (parent, successor)
  end.

(** The end of the two children case of [__rb_erase_augmented]: the successor
    takes the place and the colour of the node. *)
Definition erase_splice (h : heap) (node parent successor child2 : Z) : outcome (heap * Z) :=
  nn ← load h node;
  let tmp := rb_left nn in
  h ← set_child L successor tmp h;
  h ← rb_set_parent tmp successor h;
  nn ← load h node;
  let pc := __rb_parent_color nn in
  let tmp := __rb_parent pc in
  h ← __rb_change_child node successor tmp h;
  '(h, rebalance) ←
    (if negb (child2 =? 0) then
       h ← rb_set_parent_color child2 parent RB_BLACK h; Ok (h, 0)
     else
       sn ← load h successor;
       Ok (h, if rb_is_black sn then parent else 0));
  h ← set_pc successor pc h;
  Ok (h, rebalance).

(** The two children case. *)
Definition erase_two (fuel : nat) (h : heap) (node child : Z) : outcome (heap * Z) :=
  cn ← load h child;
  let tmp := rb_left cn in
  if tmp =? 0 then erase_splice h node child child (rb_right cn)
  else
    '(parent, successor) ← successor_loop fuel h child child tmp;
    sn ← load h successor;
    let child2 := rb_right sn in
    h ← set_child L parent child2 h;
    h ← set_child R successor child h;
    h ← rb_set_parent child successor h;
    erase_splice h node parent successor child2.

(** Unlinks the node; returns the heap and the node to rebalance at, or NULL. *)
Definition __rb_erase_augmented (fuel : nat) (h : heap) (node : Z) : outcome (heap * Z) :=
  nn ← load h node;
  let child := rb_right nn in
  let tmp := rb_left nn in
  if tmp =? 0 then
    let pc := __rb_parent_color nn in
    let parent := __rb_parent pc in
    h ← __rb_change_child node child parent h;
    if negb (child =? 0) then h ← set_pc child pc h; Ok (h, 0)
    else Ok (h, if __rb_is_black pc then parent else 0)
  else if child =? 0 then
    let pc := __rb_parent_color nn in
    h ← set_pc tmp pc h;
    let parent := __rb_parent pc in
    h ← __rb_change_child node tmp parent h;
    Ok (h, 0)
  else erase_two fuel h node child.

Definition rb_erase (fuel : nat) (h : heap) (node : Z) : outcome heap :=
  '(h, rebalance) ← __rb_erase_augmented fuel h node;
  if negb (rebalance =? 0) then ____rb_erase_color fuel h rebalance else Ok h.

(** [RB_EMPTY_NODE], [RB_CLEAR_NODE] and [RB_EMPTY_ROOT]. *)
Definition RB_EMPTY_NODE (h : heap) (node : Z) : outcome bool :=
  nd ← load h node; Ok (__rb_parent_color nd =? node).
Definition RB_CLEAR_NODE (node : Z) (h : heap) : outcome heap := set_pc node node h.
Definition RB_EMPTY_ROOT (h : heap) : bool := root h =? 0.

(** ** Traversal *)

Fixpoint rb_descend (fuel : nat) (d : side) (h : heap) (n : Z) : outcome Z :=
  match fuel with
  | O => Fuel
  | S fuel =>
      nd ← load h n;
      if negb (child d nd =? 0) then rb_descend fuel d h (child d nd) else Ok n
  end.

Definition rb_first (fuel : nat) (h : heap) : outcome Z := if root h =? 0 then Ok 0 else rb_descend fuel L h (root h).
Definition rb_last (fuel : nat) (h : heap) : outcome Z := if root h =? 0 then Ok 0 else rb_descend fuel R h (root h).

(** Up while the node is the child on side [d]. *)
Fixpoint rb_ascend (fuel : nat) (d : side) (h : heap) (node : Z) : outcome Z :=
  match fuel with
  | O => Fuel
  | S fuel =>
      nd ← load h node;
      let parent := rb_parent nd in
      if parent =? 0 then Ok parent
      else
        pn ← load h parent;
        if node =? child d pn then rb_ascend fuel d h parent else Ok parent
  end.

(** [rb_next] is the neighbour on the right, [rb_prev] the one on the left. *)
Definition neighbour (fuel : nat) (d : side) (h : heap) (node : Z) : outcome Z :=
  nd ← load h node;
  empty ← RB_EMPTY_NODE h node;
  if empty : bool then Ok 0
  else if negb (child d nd =? 0) then rb_descend fuel (opp d) h (child d nd)
  else rb_ascend fuel d h node.

Definition rb_next (fuel : nat) (h : heap) (node : Z) : outcome Z := neighbour fuel R h node.
Definition rb_prev (fuel : nat) (h : heap) (node : Z) : outcome Z := neighbour fuel L h node.

Definition rb_replace_node (h : heap) (victim new : Z) : outcome heap :=
  vn ← load h victim;
  let parent := rb_parent vn in
  if new =? 0 then Panic
  else
    let h := put h new vn in
    h ← if_node (rb_left vn) (rb_set_parent (rb_left vn) new) h;
    h ← if_node (rb_right vn) (rb_set_parent (rb_right vn) new) h;
    __rb_change_child victim new parent h.

Fixpoint rb_left_deepest_node (fuel : nat) (h : heap) (node : Z) : outcome Z :=
  match fuel with
  | O => Fuel
  | S fuel =>
      nd ← load h node;
      if negb (rb_left nd =? 0) then rb_left_deepest_node fuel h (rb_left nd)
      else if negb (rb_right nd =? 0) then rb_left_deepest_node fuel h (rb_right nd)
      else Ok node
  end.

Definition rb_next_postorder (fuel : nat) (h : heap) (node : Z) : outcome Z :=
  if node =? 0 then Ok 0
  else
    nd ← load h node;
    let parent := rb_parent nd in
    if parent =? 0 then Ok parent
    else
      pn ← load h parent;
      if (node =? rb_left pn) && negb (rb_right pn =? 0) then rb_left_deepest_node fuel h (rb_right pn)
      else Ok parent.

Definition rb_first_postorder (fuel : nat) (h : heap) : outcome Z :=
  if root h =? 0 then Ok 0 else rb_left_deepest_node fuel h (root h).

(** ** Trees with the leftmost node cached *)

Record rb_root_cached := MkCached { rb_root : heap; rb_leftmost : Z }.

Definition rb_first_cached (r : rb_root_cached) : Z := rb_leftmost r.

Definition rb_insert_color_cached (fuel : nat) (node : Z) (r : rb_root_cached) (leftmost : bool) : outcome rb_root_cached :=
  let lm := if leftmost then node else rb_leftmost r in
  h ← rb_insert_color fuel (rb_root r) node;
  Ok (MkCached h lm).

Definition rb_erase_cached (fuel : nat) (node : Z) (r : rb_root_cached) : outcome rb_root_cached :=
  lm ← (if rb_leftmost r =? node then rb_next fuel (rb_root r) node else Ok (rb_leftmost r));
  h ← rb_erase fuel (rb_root r) node;
  Ok (MkCached h lm).

Definition rb_replace_node_cached (victim new : Z) (r : rb_root_cached) : outcome rb_root_cached :=
  let lm := if rb_leftmost r =? victim then new else rb_leftmost r in
  h ← rb_replace_node (rb_root r) victim new;
  Ok (MkCached h lm).

End Rbtree.
