(* ===== verification/RbtreeSpec.v ===== *)
(** * Red-black trees: the trees a heap represents

    The tree of node addresses that a heap of Rbtree.v represents, its in-order
    sequence and the red-black invariant, and the path from a node to the root
    as a list of frames. The insertion and erasure proofs of RbtreeInsert.v and
    RbtreeErase.v reason about these. *)

From stdpp Require Import base numbers list option sets.
From Stdlib Require Import ZArith Lia.
From S2P Require Import Prelude Rbtree.

Open Scope Z_scope.

Module RbtreeSpec.
Import Rbtree.

Inductive color := Red | Black.

Inductive tree := E | T (c : color) (l : tree) (p : Z) (r : tree).

Definition col (c : color) : Z := match c with Red => RB_RED | Black => RB_BLACK end.

(** The node at [p] with [a] on side [d] and [b] on the other. *)
Definition mk (d : side) (c : color) (a : tree) (p : Z) (b : tree) : tree :=
  match d with L => T c a p b | R => T c b p a end.

Definition ptr (t : tree) : Z := match t with E => 0 | T _ _ p _ => p end.
Definition root_color (t : tree) : color := match t with E => Black | T c _ _ _ => c end.
Abbreviation black t := (root_color t = Black).

(** The addresses in order. *)
Fixpoint elems (t : tree) : list Z :=
  match t with E => [] | T _ l p r => elems l ++ p :: elems r end.

(** A red-black subtree of black height [n]: no red node has a red child. *)
Fixpoint rb (t : tree) (n : nat) : Prop :=
  match t with
  | E => n = 0%nat
  | T Red l _ r => rb l n ∧ rb r n ∧ black l ∧ black r
  | T Black l _ r => ∃ m, n = S m ∧ rb l m ∧ rb r m
  end.

(** A red-black tree: a red-black subtree with a black root. *)
Definition rbtree (t : tree) : Prop := black t ∧ ∃ n, rb t n.

(** The root in another colour. *)
Definition paint (c : color) (t : tree) : tree := match t with E => E | T _ l p r => T c l p r end.

(** ** Representation *)

Definition tag (q : Z) (c : color) : Z := Z.lor q (col c).
Definition aligned (q : Z) : Prop := Z.land q 3 = 0.
Definition valid (p : Z) : Prop := 0 < p ∧ aligned p.

Fixpoint rep (f : Z → rb_node) (q : Z) (t : tree) : Prop :=
  match t with
  | E => True
  | T c l p r => f p = MkNode (tag q c) (ptr r) (ptr l) ∧ rep f p l ∧ rep f p r
  end.

(** The heap represents [t], its nodes at distinct word-aligned addresses. *)
Definition repr (h : heap) (t : tree) : Prop :=
  root h = ptr t ∧ rep (nodes h) 0 t ∧ NoDup (elems t) ∧ Forall valid (elems t).

(** ** Paths *)

(** The hole is on side [fd] of the node at [fp]; [fs] is the other subtree. *)
Record frame := Fr { fd : side; fc : color; fp : Z; fs : tree }.

Fixpoint plug (k : list frame) (t : tree) : tree :=
  match k with [] => t | f :: k => plug k (mk (fd f) (fc f) t (fp f) (fs f)) end.

Definition par (k : list frame) : Z := match k with [] => 0 | f :: _ => fp f end.

Fixpoint celems (k : list frame) : list Z :=
  match k with [] => [] | f :: k => fp f :: elems (fs f) ++ celems k end.

(** The path with the hole pointer [x]. *)
Fixpoint crep (h : heap) (x : Z) (k : list frame) : Prop :=
  match k with
  | [] => root h = x
  | f :: k =>
      let nd := nodes h (fp f) in
      __rb_parent_color nd = tag (par k) (fc f) ∧ child (fd f) nd = x ∧ child (opp (fd f)) nd = ptr (fs f) ∧
      rep (nodes h) (fp f) (fs f) ∧ crep h (fp f) k
  end.

(** The path admits a subtree of black height [n] with a black root in the hole. *)
Fixpoint crb (k : list frame) (n : nat) : Prop :=
  match k with
  | [] => True
  | f :: k =>
      rb (fs f) n ∧
      match fc f with
      | Black => crb k (S n)
      | Red => black (fs f) ∧ crb k n ∧ match k with f' :: _ => fc f' = Black | [] => False end
      end
  end.

(** The hole may hold a red root. *)
Definition red_ok (k : list frame) : Prop := match k with f :: _ => fc f = Black | [] => False end.

(** The subtree [t] at the end of the path [k] of the heap. *)
Definition holds (h : heap) (k : list frame) (t : tree) : Prop :=
  rep (nodes h) (par k) t ∧ crep h (ptr t) k ∧ NoDup (celems k ++ elems t) ∧ Forall valid (celems k ++ elems t).

(** ** The tree operations *)

Lemma opp_opp d : opp (opp d) = d.
Proof. by destruct d. Qed.

Lemma ptr_mk d c a p b : ptr (mk d c a p b) = p.
Proof. by destruct d. Qed.

Lemma root_color_mk d c a p b : root_color (mk d c a p b) = c.
Proof. by destruct d. Qed.

Lemma mk_opp d c a p b : mk (opp d) c a p b = mk d c b p a.
Proof. by destruct d. Qed.

Lemma mk_view d c l p r : ∃ a b, T c l p r = mk d c a p b.
Proof. destruct d; [by exists l, r | by exists r, l]. Qed.

Lemma elems_mk d c a p b : elems (mk d c a p b) ≡ₚ p :: elems a ++ elems b.
Proof. destruct d; simpl; [by rewrite Permutation_middle|]. rewrite (Permutation_app_comm (elems a)). by rewrite Permutation_middle. Qed.

Lemma paint_same t : paint (root_color t) t = t.
Proof. by destruct t. Qed.

Lemma ptr_paint c t : ptr (paint c t) = ptr t.
Proof. by destruct t. Qed.

Lemma elems_paint c t : elems (paint c t) = elems t.
Proof. by destruct t. Qed.

Lemma elems_plug k t : elems (plug k t) ≡ₚ celems k ++ elems t.
Proof.
  revert t. induction k as [|f k IH]; intros t; [done|]. simpl. rewrite IH, elems_mk.
  set (a := elems t). set (b := elems (fs f)). set (c := celems k). solve_Permutation.
Qed.

Lemma plug_elems_eq k t t' : elems t = elems t' → elems (plug k t) = elems (plug k t').
Proof.
  revert t t'. induction k as [|f k IH]; intros t t' Ht; [done|]. simpl. apply IH.
  destruct (fd f); simpl; by rewrite Ht.
Qed.

Lemma rb_mk_red d a p b n : rb (mk d Red a p b) n ↔ rb a n ∧ rb b n ∧ black a ∧ black b.
Proof. destruct d; simpl; tauto. Qed.

Lemma rb_mk_black d a p b n : rb (mk d Black a p b) n ↔ ∃ m, n = S m ∧ rb a m ∧ rb b m.
Proof. destruct d; simpl; split; intros (m & ? & ? & ?); by exists m. Qed.

Lemma ptr_0 t : Forall valid (elems t) → ptr t = 0 → t = E.
Proof.
  destruct t as [|c l p r]; [done|]. simpl. rewrite Forall_app, list.Forall_cons. unfold valid. intros (_ & Hp & _). lia.
Qed.

Lemma ptr_elem t : t ≠ E → ptr t ∈ elems t.
Proof. destruct t; [done|]. simpl. set_solver. Qed.

(** Plugging a red-black subtree gives a red-black tree. *)
Lemma plug_rbtree k t n : crb k n → rb t n → (black t ∨ red_ok k) → rbtree (plug k t).
Proof.
  revert t n. induction k as [|[d c p s] k IH]; simpl; intros t n Hk Ht Hc.
  { destruct Hc as [Hc|[]]. split; [done|by exists n]. }
  destruct Hk as [Hs Hk]. destruct c; simpl in *.
  - destruct Hk as (Hb & Hk & Ht'). destruct Hc as [Hc|Hc]; [|done]. apply (IH _ n); [done| |].
    + by apply rb_mk_red.
    + right. by destruct k.
  - apply (IH _ (S n)); [done| |left; apply root_color_mk]. apply rb_mk_black. by exists n.
Qed.

(** A path and a subtree from a red-black tree. *)
Lemma plug_rb_inv k t : rbtree (plug k t) → ∃ n, crb k n ∧ rb t n ∧ (black t ∨ red_ok k).
Proof.
  revert t. induction k as [|[d c p s] k IH]; simpl; intros t Ht.
  { destruct Ht as [Hb [n Hn]]. exists n. auto. }
  destruct (IH _ Ht) as (n & Hk & Hn & Hc). rewrite root_color_mk in Hc. destruct c.
  - apply rb_mk_red in Hn as (Ha & Hs & Hba & Hbs). exists n. destruct Hc as [Hc|Hc]; [done|].
    split; [|by auto]. split; [done|]. split; [done|]. split; [done|]. by destruct k.
  - apply rb_mk_black in Hn as (m & -> & Ha & Hs). exists m. simpl. destruct (root_color t); auto.
Qed.

(** The addresses before and after the hole. *)
Fixpoint cbefore (k : list frame) : list Z :=
  match k with
  | [] => []
  | f :: k => match fd f with L => cbefore k | R => cbefore k ++ elems (fs f) ++ [fp f] end
  end.

Fixpoint cafter (k : list frame) : list Z :=
  match k with
  | [] => []
  | f :: k => match fd f with L => fp f :: elems (fs f) ++ cafter k | R => cafter k end
  end.

Lemma elems_plug_seq k t : elems (plug k t) = cbefore k ++ elems t ++ cafter k.
Proof.
  revert t. induction k as [|[d c p s] k IH]; intros t; simpl; [by rewrite app_nil_r|]. rewrite IH.
  destruct d; simpl; repeat (rewrite <- app_assoc; simpl); done.
Qed.

(** ** The height *)

Fixpoint height (t : tree) : nat := match t with E => 0 | T _ l _ r => S (height l `max` height r) end.

Lemma height_mk d c a p b : height (mk d c a p b) = S (height a `max` height b).
Proof. destruct d; simpl; lia. Qed.

Lemma length_le_height k t : (length k + height t ≤ height (plug k t))%nat.
Proof.
  revert t. induction k as [|[d c p s] k IH]; intros t; simpl; [lia|].
  specialize (IH (mk d c t p s)). rewrite height_mk in IH. lia.
Qed.

Lemma rb_height t n : rb t n → (height t ≤ 2 * n + match root_color t with Red => 1 | Black => 0 end)%nat.
Proof.
  revert n. induction t as [|c l IHl p r IHr]; intros n; simpl; [lia|]. destruct c.
  - intros (Hl & Hr & Hbl & Hbr). specialize (IHl _ Hl). specialize (IHr _ Hr). rewrite Hbl in IHl. rewrite Hbr in IHr. lia.
  - intros (m & -> & Hl & Hr). specialize (IHl _ Hl). specialize (IHr _ Hr).
    destruct (root_color l), (root_color r); lia.
Qed.

Lemma rb_size t n : rb t n → (2 ^ n ≤ S (length (elems t)))%nat.
Proof.
  revert n. induction t as [|c l IHl p r IHr]; intros n; simpl; [by intros ->|]. rewrite length_app. simpl. destruct c.
  - intros (Hl & Hr & _). specialize (IHl _ Hl). specialize (IHr _ Hr). lia.
  - intros (m & -> & Hl & Hr). specialize (IHl _ Hl). specialize (IHr _ Hr). simpl. lia.
Qed.

(** The iterations that are enough for a tree with [n] nodes. *)
Definition depth (n : nat) : nat := 2 * Nat.log2 (S n).

Lemma rbtree_height t : rbtree t → (height t ≤ depth (length (elems t)))%nat.
Proof.
  intros [Hb [n Hn]]. pose proof (rb_height t n Hn) as Hh. rewrite Hb in Hh. pose proof (rb_size t n Hn) as Hs.
  apply Nat.log2_le_pow2 in Hs; [|lia]. unfold depth. lia.
Qed.

(** ** Colour and parent in one word *)

Lemma aligned_bits q : aligned q → Z.testbit q 0 = false ∧ Z.testbit q 1 = false.
Proof.
  unfold aligned. intros H.
  pose proof (f_equal (λ z, Z.testbit z 0) H) as H0. pose proof (f_equal (λ z, Z.testbit z 1) H) as H1.
  cbn beta in H0, H1. rewrite Z.land_spec, andb_true_r in H0, H1. done.
Qed.

Lemma parent_tag q c : aligned q → __rb_parent (tag q c) = q.
Proof.
  intros [H0 H1]%aligned_bits. unfold __rb_parent, tag. apply Z.bits_inj'. intros i Hi.
  rewrite Z.land_spec, Z.lor_spec, Z.lnot_spec by done.
  destruct (decide (i = 0)) as [->|]; [rewrite H0; by destruct c|].
  destruct (decide (i = 1)) as [->|]; [rewrite H1; by destruct c|].
  assert (H3 : Z.testbit 3 i = false) by (apply (Z.bits_above_log2 3); simpl; lia).
  assert (Hc : Z.testbit (col c) i = false) by (destruct c; [apply Z.bits_0|apply (Z.bits_above_log2 1); simpl; lia]).
  by rewrite H3, Hc, orb_false_r, andb_true_r.
Qed.

Lemma land_tag_1 q c : aligned q → Z.land (tag q c) 1 = col c.
Proof.
  intros [H0 _]%aligned_bits. unfold tag. rewrite Z.land_lor_distr_l.
  replace (Z.land q 1) with 0; [by destruct c|]. symmetry. apply Z.bits_inj'. intros i Hi.
  rewrite Z.land_spec, Z.bits_0. destruct (decide (i = 0)) as [->|]; [by rewrite H0|].
  rewrite (Z.bits_above_log2 1) by (simpl; lia). apply andb_false_r.
Qed.

Lemma is_black_tag q c : aligned q → __rb_is_black (tag q c) = match c with Black => true | Red => false end.
Proof. intros H. unfold __rb_is_black. rewrite land_tag_1 by done. by destruct c. Qed.

Lemma is_red_tag q c : aligned q → __rb_is_red (tag q c) = match c with Black => false | Red => true end.
Proof. intros H. unfold __rb_is_red. rewrite is_black_tag by done. by destruct c. Qed.

Lemma tag_red q : tag q Red = q.
Proof. apply Z.lor_0_r. Qed.

Lemma set_parent_tag q c p : aligned q → Z.lor (Z.land (tag q c) 1) p = tag p c.
Proof. intros H. rewrite land_tag_1 by done. apply Z.lor_comm. Qed.

Lemma set_black_tag q c : Z.lor (tag q c) RB_BLACK = tag q Black.
Proof. unfold tag. rewrite <- Z.lor_assoc. by destruct c. Qed.

Lemma aligned_0 : aligned 0.
Proof. done. Qed.

Lemma valid_aligned p : valid p → aligned p.
Proof. by intros []. Qed.

Lemma par_aligned k : Forall valid (celems k) → aligned (par k).
Proof. destruct k as [|f k]; simpl; [done|]. rewrite list.Forall_cons. intros [[_ H] _]. done. Qed.

(** ** A tree of three nodes *)

Definition sample_tree : tree := T Black (T Red E 4 E) 8 (T Red E 12 E).

Definition sample_heap : heap :=
  MkHeap (λ x, if x =? 8 then MkNode 1 12 4 else MkNode 8 0 0) 8.

Lemma sample_repr : repr sample_heap sample_tree.
Proof.
  split; [done|]. split; [done|]. split; [apply (bool_decide_unpack _); vm_compute; exact I|]. by repeat constructor.
Qed.

Lemma sample_rbtree : rbtree sample_tree.
Proof. split; [done|]. exists 1%nat, 0%nat. done. Qed.

End RbtreeSpec.
