(* ===== verification/RbtreeHeap.v ===== *)
(** * Red-black trees: pointer updates

    What a write to one field leaves unchanged, the representation of a subtree
    that moves under another parent, and the two operations that link a subtree
    to its path. The tactics [run] and [fields] execute a rotation and read the
    fields of the resulting heap. *)

From stdpp Require Import base numbers list option sets.
From Stdlib Require Import ZArith Lia.
From S2P Require Import Prelude Rbtree RbtreeSpec.

Open Scope Z_scope.

Module RbtreeHeap.
Import Rbtree RbtreeSpec.

(** [if_node]'s update of the parent word. *)
Definition put_pc_opt (h : heap) (p v : Z) : heap := if p =? 0 then h else put_pc h p v.

(** ** Reading a field after a write *)

Lemma put_child_ne d h p v x : x ≠ p → nodes (put_child d h p v) x = nodes h x.
Proof. intros H. unfold put_child, put, upd_node. simpl. by rewrite (proj2 (Z.eqb_neq x p) H). Qed.

Lemma put_pc_ne h p v x : x ≠ p → nodes (put_pc h p v) x = nodes h x.
Proof. intros H. unfold put_pc, put, upd_node. simpl. by rewrite (proj2 (Z.eqb_neq x p) H). Qed.

Lemma put_pc_opt_ne h p v x : x ≠ p → nodes (put_pc_opt h p v) x = nodes h x.
Proof. intros H. unfold put_pc_opt. destruct (p =? 0); [done|by apply put_pc_ne]. Qed.

Lemma put_pc_opt_0 h v : put_pc_opt h 0 v = h.
Proof. done. Qed.

Lemma put_pc_opt_some h p v : p ≠ 0 → put_pc_opt h p v = put_pc h p v.
Proof. intros H. unfold put_pc_opt. by rewrite (proj2 (Z.eqb_neq p 0) H). Qed.

Lemma pc_put_child d h p v : __rb_parent_color (nodes (put_child d h p v) p) = __rb_parent_color (nodes h p).
Proof. unfold put_child, put, upd_node. simpl. rewrite Z.eqb_refl. by destruct d. Qed.

Lemma pc_put_child_any d h p v x : __rb_parent_color (nodes (put_child d h p v) x) = __rb_parent_color (nodes h x).
Proof. destruct (decide (x = p)) as [->|]; [apply pc_put_child|by rewrite put_child_ne]. Qed.

Lemma child_put_child d h p v : child d (nodes (put_child d h p v) p) = v.
Proof. unfold put_child, put, upd_node. simpl. rewrite Z.eqb_refl. by destruct d. Qed.

Lemma opp_put_child d h p v : child (opp d) (nodes (put_child d h p v) p) = child (opp d) (nodes h p).
Proof. unfold put_child, put, upd_node. simpl. rewrite Z.eqb_refl. by destruct d. Qed.

Lemma child_put_opp d h p v : child d (nodes (put_child (opp d) h p v) p) = child d (nodes h p).
Proof. unfold put_child, put, upd_node. simpl. rewrite Z.eqb_refl. by destruct d. Qed.

Lemma pc_put_pc h p v : __rb_parent_color (nodes (put_pc h p v) p) = v.
Proof. unfold put_pc, put, upd_node. simpl. by rewrite Z.eqb_refl. Qed.

Lemma child_put_pc d h p v : child d (nodes (put_pc h p v) p) = child d (nodes h p).
Proof. unfold put_pc, put, upd_node. simpl. rewrite Z.eqb_refl. by destruct d. Qed.

Lemma root_put_child d h p v : root (put_child d h p v) = root h.
Proof. done. Qed.

Lemma root_put_pc h p v : root (put_pc h p v) = root h.
Proof. done. Qed.

Lemma root_put_pc_opt h p v : root (put_pc_opt h p v) = root h.
Proof. unfold put_pc_opt. by destruct (p =? 0). Qed.

(** ** Executing a write *)

Lemma load_ok h p : p ≠ 0 → load h p = Ok (nodes h p).
Proof. intros H. unfold load. by rewrite (proj2 (Z.eqb_neq p 0) H). Qed.

Lemma set_child_ok d p v h : p ≠ 0 → set_child d p v h = Ok (put_child d h p v).
Proof. intros H. unfold set_child. by rewrite (proj2 (Z.eqb_neq p 0) H). Qed.

Lemma set_pc_ok p v h : p ≠ 0 → set_pc p v h = Ok (put_pc h p v).
Proof. intros H. unfold set_pc. by rewrite (proj2 (Z.eqb_neq p 0) H). Qed.

Lemma set_black_ok p q h : p ≠ 0 → rb_set_parent_color p q RB_BLACK h = Ok (put_pc h p (tag q Black)).
Proof. apply set_pc_ok. Qed.

Lemma set_red_ok p q h : p ≠ 0 → rb_set_parent_color p q RB_RED h = Ok (put_pc h p (tag q Red)).
Proof. apply set_pc_ok. Qed.

Lemma if_node_black_ok p q h : if_node p (rb_set_parent_color p q RB_BLACK) h = Ok (put_pc_opt h p (tag q Black)).
Proof. unfold if_node, put_pc_opt, rb_set_parent_color, set_pc. by destruct (p =? 0). Qed.

Lemma set_parent_ok p q q' c h :
  p ≠ 0 → __rb_parent_color (nodes h p) = tag q c → aligned q → rb_set_parent p q' h = Ok (put_pc h p (tag q' c)).
Proof.
  intros Hp Hpc Hq. unfold rb_set_parent. rewrite load_ok by done. cbn [mbind outcome_bind].
  rewrite Hpc, set_parent_tag by done. by apply set_pc_ok.
Qed.

(** The root of a subtree linked to another parent. *)
Lemma set_parent_root_ok h q s q' :
  rep (nodes h) q s → aligned q → s ≠ E → Forall valid (elems s) →
  rb_set_parent (ptr s) q' h = Ok (put_pc h (ptr s) (tag q' (root_color s))).
Proof.
  intros Hs Hq Hn Hv. destruct s as [|c l p r]; [done|]. destruct Hs as (Hp & _). simpl in *.
  apply (set_parent_ok p q); [|by rewrite Hp|done]. apply Forall_app in Hv as [_ [[] _]%list.Forall_cons]. lia.
Qed.

Lemma if_node_parent_ok h q s q' :
  rep (nodes h) q s → aligned q → Forall valid (elems s) →
  if_node (ptr s) (rb_set_parent (ptr s) q') h = Ok (put_pc_opt h (ptr s) (tag q' (root_color s))).
Proof.
  intros Hs Hq Hv. unfold if_node, put_pc_opt. destruct (Z.eqb_spec (ptr s) 0) as [H0|H0]; [done|].
  apply (set_parent_root_ok h q); [done..| |done]. by intros ->.
Qed.

(** ** Framing *)

Lemma rep_mk f q d c a p b :
  rep f q (mk d c a p b) ↔
  __rb_parent_color (f p) = tag q c ∧ child d (f p) = ptr a ∧ child (opp d) (f p) = ptr b ∧ rep f p a ∧ rep f p b.
Proof.
  destruct d; simpl; destruct (f p) as [pc r l]; simpl; split; intros H; destruct_and!; simplify_eq; auto.
Qed.

Lemma rep_agree f f' q t : (∀ x, x ∈ elems t → f' x = f x) → rep f q t → rep f' q t.
Proof.
  revert q. induction t as [|c l IHl p r IHr]; intros q Ha; [done|]. simpl in *. intros (Hp & Hl & Hr).
  rewrite Ha by set_solver. split; [done|]. split; [apply IHl|apply IHr]; set_solver.
Qed.

(** A subtree whose root has a new parent and colour. *)
Lemma rep_painted f f' q q' c s :
  rep f q s → NoDup (elems s) → (∀ x, x ∈ elems s → x ≠ ptr s → f' x = f x) →
  (s ≠ E → __rb_parent_color (f' (ptr s)) = tag q' c ∧
           child L (f' (ptr s)) = child L (f (ptr s)) ∧ child R (f' (ptr s)) = child R (f (ptr s))) →
  rep f' q' (paint c s).
Proof.
  destruct s as [|c' l p r]; [done|]. simpl. intros (Hp & Hl & Hr) Hnd Ha Hroot.
  destruct Hroot as (Hpc & HL & HR); [done|]. rewrite Hp in HL, HR. simpl in HL, HR.
  apply NoDup_app in Hnd as (_ & Hd & [Hpr _]%NoDup_cons).
  split; [destruct (f' p); simpl in *; congruence|].
  split; (eapply rep_agree; [|eassumption]); intros x Hx; apply Ha; set_solver.
Qed.

(** The same with its colour kept. *)
Lemma rep_moved f f' q q' s :
  rep f q s → NoDup (elems s) → (∀ x, x ∈ elems s → x ≠ ptr s → f' x = f x) →
  (s ≠ E → __rb_parent_color (f' (ptr s)) = tag q' (root_color s) ∧
           child L (f' (ptr s)) = child L (f (ptr s)) ∧ child R (f' (ptr s)) = child R (f (ptr s))) →
  rep f' q' s.
Proof. intros Hs Hnd Ha Hroot. rewrite <- (paint_same s). by eapply rep_painted. Qed.

Lemma crep_agree h h' x k :
  root h' = root h → (∀ z, z ∈ celems k → nodes h' z = nodes h z) → crep h x k → crep h' x k.
Proof.
  intros Hr. revert x. induction k as [|f k IH]; intros x Ha; simpl; [by rewrite Hr|].
  simpl in Ha. rewrite Ha by set_solver. intros (? & ? & ? & Hs & Hk). split_and!; try done.
  - eapply rep_agree; [|done]. set_solver.
  - apply IH; [set_solver|done].
Qed.

Lemma holds_up h f k t : holds h (f :: k) t ↔ holds h k (mk (fd f) (fc f) t (fp f) (fs f)).
Proof.
  unfold holds. rewrite rep_mk, ptr_mk.
  assert (celems (f :: k) ++ elems t ≡ₚ celems k ++ elems (mk (fd f) (fc f) t (fp f) (fs f))) as Hp
    by (rewrite elems_mk; simpl; solve_Permutation).
  rewrite Hp. simpl. tauto.
Qed.

(** A subtree at the end of its path is a tree. *)
Lemma holds_plug h k t : holds h k t ↔ repr h (plug k t).
Proof.
  revert t. induction k as [|f k IH]; intros t; [|by rewrite holds_up, IH].
  unfold holds, repr. simpl. tauto.
Qed.

(** The colour of a subtree's root. *)
Lemma red_node_ok h q u :
  rep (nodes h) q u → aligned q → Forall valid (elems u) →
  red_node h (ptr u) = Ok (match root_color u with Red => true | Black => false end).
Proof.
  intros Hu Hq Hv. unfold red_node. destruct u as [|c l p r]; [done|]. simpl in *.
  apply Forall_app in Hv as [_ [[Hp _] _]%list.Forall_cons]. destruct Hu as (Hn & _).
  rewrite (proj2 (Z.eqb_neq p 0)), load_ok by lia. cbn [mbind outcome_bind].
  unfold rb_is_red. rewrite Hn. simpl. by rewrite is_red_tag.
Qed.

Lemma black_or_null_ok h q u :
  rep (nodes h) q u → aligned q → Forall valid (elems u) →
  black_or_null h (ptr u) = Ok (match root_color u with Red => false | Black => true end).
Proof.
  intros Hu Hq Hv. unfold black_or_null. destruct u as [|c l p r]; [done|]. simpl in *.
  apply Forall_app in Hv as [_ [[Hp _] _]%list.Forall_cons]. destruct Hu as (Hn & _).
  rewrite (proj2 (Z.eqb_neq p 0)), load_ok by lia. cbn [mbind outcome_bind].
  unfold rb_is_black. rewrite Hn. simpl. by rewrite is_black_tag.
Qed.

(** The branch taken is that of the side. *)
Lemma side_branch {A} (X : side → A) d nd x :
  child d nd = x → x ≠ child (opp d) nd → (if negb (x =? rb_right nd) then X L else X R) = X d.
Proof.
  intros <- Hn. destruct d; simpl in *; [by rewrite (proj2 (Z.eqb_neq _ _) Hn)|by rewrite Z.eqb_refl].
Qed.

(** ** Linking a subtree to its path *)

Lemma change_child_ok h k x y :
  crep h x k → x ≠ 0 → x ∉ celems k → NoDup (celems k) → Forall valid (celems k) →
  ∃ h', __rb_change_child x y (par k) h = Ok h' ∧ crep h' y k ∧ ∀ z, z ∉ celems k → nodes h' z = nodes h z.
Proof.
  intros Hk Hx Hxk Hnd Hv. destruct k as [|[d c p s] k]; simpl in *.
  { eexists. split; [reflexivity|]. done. }
  destruct Hk as (Hpc & Hc & Ho & Hs & Hk).
  apply list.Forall_cons in Hv as [Hp Hv]. apply NoDup_cons in Hnd as [Hpn Hnd].
  assert (Hp0 : p ≠ 0) by (destruct Hp; lia).
  assert (Hsx : ptr s ≠ x) by (clear -Hx Hxk; destruct s; simpl in *; [done|set_solver]).
  exists (put_child d h p y). split; [|split].
  - unfold __rb_change_child. rewrite (proj2 (Z.eqb_neq p 0) Hp0). simpl. rewrite load_ok by done.
    cbn [mbind outcome_bind]. destruct d; simpl in Hc, Ho.
    + rewrite Hc, Z.eqb_refl. by apply set_child_ok.
    + rewrite Ho, (proj2 (Z.eqb_neq _ _) Hsx). by apply set_child_ok.
  - rewrite pc_put_child, child_put_child, opp_put_child. split_and!; try done.
    + eapply rep_agree; [|exact Hs]. intros z Hz. apply put_child_ne. set_solver.
    + eapply crep_agree; [| |exact Hk]; [done|]. intros z Hz. apply put_child_ne. set_solver.
  - intros z Hz. apply put_child_ne. set_solver.
Qed.

(** The rotation's last step: [new] takes the place and the colour of [old]. *)
Lemma rotate_holds h k old new c c' t :
  crep h old k → __rb_parent_color (nodes h old) = tag (par k) c →
  rep (nodes (put_pc (put_pc h new (tag (par k) c)) old (tag new c'))) (par k) t →
  ptr t = new → old ∈ elems t → NoDup (celems k ++ elems t) → Forall valid (celems k ++ elems t) →
  ∃ h', __rb_rotate_set_parents old new (col c') h = Ok h' ∧ holds h' k t.
Proof.
  intros Hk Hpc Hrep Hnew Hold Hnd Hv.
  assert (Hne : new ∈ elems t) by (subst new; apply ptr_elem; intros ->; set_solver).
  pose proof Hv as [Hvk Hvt]%Forall_app. rewrite list.Forall_forall in Hvt.
  pose proof Hnd as (Hndk & Hd & _)%NoDup_app.
  assert (Ho0 : old ≠ 0) by (destruct (Hvt old Hold); lia).
  assert (Hn0 : new ≠ 0) by (destruct (Hvt new Hne); lia).
  assert (Hpar : rb_parent (nodes h old) = par k) by (unfold rb_parent; rewrite Hpc; by apply parent_tag, par_aligned).
  set (h2 := put_pc (put_pc h new (tag (par k) c)) old (tag new c')) in *.
  destruct (change_child_ok h2 k old new) as (h' & Hrun & Hk' & Hag); try done; [|set_solver|].
  { eapply crep_agree; [| |exact Hk]; [done|]. intros z Hz. subst h2.
    rewrite !put_pc_ne; [done| |]; intros ->; set_solver. }
  exists h'. split.
  - unfold __rb_rotate_set_parents. rewrite load_ok by done. cbn [mbind outcome_bind].
    rewrite Hpar, Hpc, set_pc_ok by done. cbn [mbind outcome_bind].
    unfold rb_set_parent_color. rewrite set_pc_ok by done. cbn [mbind outcome_bind]. exact Hrun.
  - split; [|by rewrite Hnew]. eapply rep_agree; [|exact Hrep]. intros z Hz. apply Hag. set_solver.
Qed.

Lemma in_mk d c a p b : p ∈ elems (mk d c a p b).
Proof. rewrite elems_mk. by left. Qed.

Lemma in_mk_near d c a p b x : x ∈ elems a → x ∈ elems (mk d c a p b).
Proof. rewrite elems_mk. set_solver. Qed.

Lemma in_mk_far d c a p b x : x ∈ elems b → x ∈ elems (mk d c a p b).
Proof. rewrite elems_mk. set_solver. Qed.

(** ** Distinct addresses *)

(** Lists of addresses with none in common. *)
Definition apart (A B : list Z) : Prop := ∀ x, x ∈ A → x ∉ B.

Lemma apart_cons A p B : apart A (p :: B) ↔ (p ∉ A) ∧ apart A B.
Proof.
  unfold apart. setoid_rewrite not_elem_of_cons. split; [|intros [Hp H] x Hx; split; [by intros ->|by apply H]].
  intros H. split; [intros Hp; by destruct (H p Hp)|]. intros x Hx. by apply H.
Qed.

Lemma apart_app A B C : apart A (B ++ C) ↔ apart A B ∧ apart A C.
Proof. unfold apart. setoid_rewrite not_elem_of_app. firstorder. Qed.

Lemma apart_cons_l A p B : apart (p :: A) B ↔ (p ∉ B) ∧ apart A B.
Proof.
  unfold apart. setoid_rewrite elem_of_cons. split; [intros H; split; auto|]. intros [Hp H] x [->|Hx]; auto.
Qed.

Lemma apart_app_l A B C : apart (A ++ B) C ↔ apart A C ∧ apart B C.
Proof.
  unfold apart. setoid_rewrite elem_of_app. split; [intros H; split; auto|]. intros [Ha Hb] x [Hx|Hx]; auto.
Qed.

Lemma nodup_apart A B : NoDup (A ++ B) ↔ NoDup A ∧ apart A B ∧ NoDup B.
Proof. apply NoDup_app. Qed.

Lemma apart_ne A B x y : apart A B → x ∈ A → y ∈ B → x ≠ y.
Proof. intros H Hx Hy ->. exact (H _ Hx Hy). Qed.

Lemma in_ne (A : list Z) (x y : Z) : x ∈ A → y ∉ A → x ≠ y.
Proof. by intros ? ? ->. Qed.

Ltac unpack_all :=
  repeat match goal with
  | H : NoDup (_ ++ _) |- _ => apply nodup_apart in H as (? & ? & ?)
  | H : NoDup (_ :: _) |- _ => apply NoDup_cons in H as [? ?]
  | H : _ ∉ _ :: _ |- _ => apply not_elem_of_cons in H as [? ?]
  | H : _ ∉ _ ++ _ |- _ => apply not_elem_of_app in H as [? ?]
  | H : apart _ (_ :: _) |- _ => apply apart_cons in H as [? ?]
  | H : apart _ (_ ++ _) |- _ => apply apart_app in H as [? ?]
  | H : apart (_ :: _) _ |- _ => apply apart_cons_l in H as [? ?]
  | H : apart (_ ++ _) _ |- _ => apply apart_app_l in H as [? ?]
  | H : Forall _ (_ ++ _) |- _ => apply Forall_app in H as [? ?]
  | H : Forall _ (_ :: _) |- _ => apply list.Forall_cons in H as [? ?]
  end.

(** The distinctness and validity of the addresses, one by one. *)
Ltac unpack Hnd Hv :=
  let A := fresh in let B := fresh in
  pose proof Hnd as A; pose proof Hv as B; revert Hnd Hv; unpack_all; intros Hnd Hv.

Lemma valid_ne p : valid p → p ≠ 0.
Proof. unfold valid. lia. Qed.

Lemma apart_notin A B x : apart A B → x ∈ A → x ∉ B.
Proof. intros H. apply H. Qed.

Lemma apart_notin_r A B x : apart A B → x ∈ B → x ∉ A.
Proof. intros H Hx Ha. exact (H _ Ha Hx). Qed.

Lemma in_valid A x : Forall valid A → x ∈ A → x ≠ 0.
Proof. intros H Hx. apply valid_ne. by apply (proj1 (list.Forall_forall _ _) H). Qed.

Lemma notin_ptr x s : x ∉ elems s → x ≠ 0 → x ≠ ptr s.
Proof. intros Hx H0. destruct s; simpl in *; [done|]. intros ->. apply Hx. set_solver. Qed.

Lemma put_pc_opt_notin h s v x : x ∉ elems s → x ≠ 0 → nodes (put_pc_opt h (ptr s) v) x = nodes h x.
Proof. intros Hx H0. by apply put_pc_opt_ne, notin_ptr. Qed.

Ltac notin :=
  match goal with
  | H : ?x ∉ ?A |- ?x ∉ ?A => exact H
  | H : apart ?A ?B, Hx : ?x ∈ ?A |- ?x ∉ ?B => exact (apart_notin A B x H Hx)
  | H : apart ?B ?A, Hx : ?x ∈ ?A |- ?x ∉ ?B => exact (apart_notin_r B A x H Hx)
  end.

Ltac nz :=
  first [assumption | apply valid_ne; assumption
        | match goal with H : Forall valid ?A, Hx : ?x ∈ ?A |- ?x ≠ 0 => exact (in_valid A x H Hx) end].

(** Executes the writes at the head of a computation. *)
Ltac run_step :=
  match goal with
  | |- context [load ?h ?p] => rewrite (load_ok h p) by nz
  | |- context [set_child ?d ?p ?v ?h] => rewrite (set_child_ok d p v h) by nz
  | |- context [if_node ?p (rb_set_parent_color ?p ?q RB_BLACK) ?h] => rewrite (if_node_black_ok p q h)
  | |- context [rb_set_parent_color ?p ?q RB_BLACK ?h] => rewrite (set_black_ok p q h) by nz
  | |- context [rb_set_parent_color ?p ?q RB_RED ?h] => rewrite (set_red_ok p q h) by nz
  | |- context [set_pc ?p ?v ?h] => rewrite (set_pc_ok p v h) by nz
  end; cbn [mbind outcome_bind].
Ltac run := cbn [mbind outcome_bind]; repeat run_step.

(** Two addresses that the distinctness hypotheses tell apart. *)
Ltac ne_one :=
  match goal with
  | H : ?x ≠ ?y |- ?x ≠ ?y => exact H
  | Hx : ?x ∈ ?A, Hy : ?y ∉ ?A |- ?x ≠ ?y => exact (in_ne A x y Hx Hy)
  | H : apart ?A ?B, Hx : ?x ∈ ?A, Hy : ?y ∈ ?B |- ?x ≠ ?y => exact (apart_ne A B x y H Hx Hy)
  end.
Ltac ne := first [ne_one | apply not_eq_sym; ne_one].

(** Reads the fields of a node after the writes. *)
Ltac field_step :=
  match goal with
  | |- context [nodes (put_child ?d ?h ?p ?v) ?x] => 
      first [ constr_eq p x; first [rewrite (pc_put_child d h p v) | rewrite (child_put_child d h p v) | rewrite (opp_put_child d h p v) | rewrite (child_put_opp _ h p v)]
            | rewrite (put_child_ne d h p v x) by ne ]
  | |- context [nodes (put_pc ?h ?p ?v) ?x] => 
      first [ constr_eq p x; first [rewrite (pc_put_pc h p v) | rewrite (child_put_pc _ h p v)]
            | rewrite (put_pc_ne h p v x) by ne ]
  | |- context [nodes (put_pc_opt ?h ?p ?v) ?x] => 
      first [ constr_eq p x; rewrite (put_pc_opt_some h p v) by nz
            | lazymatch p with ptr ?s => rewrite (put_pc_opt_notin h s v x) by first [notin | nz] end
            | rewrite (put_pc_opt_ne h p v x) by ne ]
  end.
Ltac fields := repeat field_step.

(** The same, down to the fields the hypotheses give. *)
Ltac known :=
  fields;
  repeat match goal with
  | H : child ?d (nodes ?h ?n) = _ |- context [child ?d (nodes ?h ?n)] => rewrite H; fields
  | H : __rb_parent_color (nodes ?h ?n) = _ |- context [__rb_parent_color (nodes ?h ?n)] => rewrite H; fields
  end.

(** A subtree whose nodes were not written. *)
Ltac keep H := eapply rep_agree; [|exact H]; let z := fresh "z" in let Hz := fresh "Hz" in intros z Hz; fields; done.

(** A subtree whose root was linked to another parent. *)
Ltac moved H :=
  eapply rep_moved;
  [ exact H | assumption
  | let z := fresh "z" in let Hz := fresh "Hz" in let Hn := fresh "Hn" in intros z Hz Hn; fields; done
  | let Hn := fresh "Hn" in intros Hn; apply ptr_elem in Hn; split_and!; fields; congruence ].

Ltac subtree := match goal with H : rep _ _ ?s |- rep _ _ ?s => first [keep H | moved H] end.

(** The fields of the nodes of the new subtree, and its parts. *)
Ltac new_tree := rewrite ?rep_mk, ?ptr_mk; split_and!; try subtree; fields; try congruence.

(** A path none of whose nodes was written. *)
Ltac keep_path H :=
  eapply crep_agree; [| |exact H];
  [by rewrite ?root_put_child, ?root_put_pc, ?root_put_pc_opt, ?root_put_child, ?root_put_pc | let z := fresh "z" in let Hz := fresh "Hz" in intros z Hz; fields; done].

(** The fields of the nodes of a represented subtree. *)
Ltac open_tree :=
  repeat match goal with
  | H : rep _ _ (mk _ _ _ _ _) |- _ => apply rep_mk in H as (? & ? & ? & ? & ?)
  end; rewrite ?ptr_mk in *.

Lemma nodup_perm (A B : list Z) : A ≡ₚ B → NoDup B → NoDup A.
Proof. by intros ->. Qed.

Lemma valid_perm A B : A ≡ₚ B → Forall valid B → Forall valid A.
Proof. by intros ->. Qed.

(** The addresses are those of the old subtree. *)
Ltac same_addresses H :=
  first [refine (nodup_perm _ _ _ H) | refine (valid_perm _ _ _ H)];
  rewrite ?elems_mk; solve_Permutation.

(** The same sequence of addresses. *)
Ltac in_order := simpl; repeat (rewrite <- app_assoc; simpl); done.

End RbtreeHeap.
