(* ===== verification/RbtreeInsert.v ===== *)
(** * Red-black trees: insertion

    [__rb_insert]: from a red node at the end of a path the loop recolours or
    rotates until no red node has a red parent. *)

From stdpp Require Import base numbers list option sets.
From Stdlib Require Import ZArith Lia.
From S2P Require Import Prelude Rbtree RbtreeSpec RbtreeHeap.

Open Scope Z_scope.

Module RbtreeInsert.
Import Rbtree RbtreeSpec RbtreeHeap.

Lemma insert_case3_ok h k d p g x s u q :
  crep h g k → __rb_parent_color (nodes h g) = tag (par k) Black → child (opp d) (nodes h g) = ptr u →
  child d (nodes h p) = ptr x → rep (nodes h) p x → rep (nodes h) q s → rep (nodes h) g u → black s →
  NoDup (celems k ++ g :: p :: elems x ++ elems s ++ elems u) →
  Forall valid (celems k ++ g :: p :: elems x ++ elems s ++ elems u) →
  ∃ h', insert_case3 d p g (ptr s) h = Ok h' ∧ holds h' k (mk d Black x p (mk d Red s g u)).
Proof.
  intros Hk Hpc Hu Hx Hrx Hrs Hru Hs Hnd Hv. unpack Hnd Hv. unfold insert_case3. run.
  eapply (rotate_holds _ _ _ _ _ Red).
  - keep_path Hk.
  - fields. done.
  - new_tree.
  - apply ptr_mk.
  - apply in_mk_far, in_mk.
  - same_addresses Hnd.
  - same_addresses Hv.
Qed.

Lemma insert_inner_ok h k d s p a n b g u :
  holds h k (mk d Black (mk d Red s p (mk d Red a n b)) g u) → black a → black b →
  ∃ h', ('(h, parent, tmp) ← insert_case2 d n p n h; insert_case3 d parent g tmp h) = Ok h' ∧
        holds h' k (mk d Black (mk d Red s p a) n (mk d Red b g u)).
Proof.
  intros (Hrep & Hk & Hnd & Hv) Ha Hb. open_tree.
  rewrite ?elems_mk in Hnd, Hv. unpack Hnd Hv.
  unfold insert_case2. rewrite Z.eqb_refl. run.
  known.
  eapply (insert_case3_ok _ k d n g (mk d Red s p a) b u); try done.
  - keep_path Hk.
  - known. done.
  - known. done.
  - known. by rewrite ptr_mk.
  - new_tree.
  - subtree.
  - subtree.
  - same_addresses Hnd.
  - same_addresses Hv.
Qed.

(** The node is on the outer side. *)
Lemma insert_outer_ok h k d x p s g u :
  holds h k (mk d Black (mk d Red x p s) g u) → x ≠ E → black s →
  ∃ h', ('(h, parent, tmp) ← insert_case2 d (ptr x) p (ptr s) h; insert_case3 d parent g tmp h) = Ok h' ∧
        holds h' k (mk d Black x p (mk d Red s g u)).
Proof.
  intros (Hrep & Hk & Hnd & Hv) Hx Hs. open_tree. rewrite ?elems_mk in Hnd, Hv. unpack Hnd Hv.
  apply ptr_elem in Hx. unfold insert_case2. rewrite (proj2 (Z.eqb_neq (ptr x) (ptr s))).
  - eapply (insert_case3_ok h k d p g x s u); try eassumption; [same_addresses Hnd|same_addresses Hv].
  - apply notin_ptr; [notin|nz].
Qed.

(** The uncle is red: the colours flip and the violation moves up. *)
Lemma insert_flip_ok loop h k d e t p s g ua uq ub :
  holds h k (mk d Black (mk e Red t p s) g (mk d Red ua uq ub)) →
  ∃ h', insert_side loop d h (ptr t) p g = loop h' g (par k) ∧
        holds h' k (mk d Red (mk e Black t p s) g (mk d Black ua uq ub)).
Proof.
  intros (Hrep & Hk & Hnd & Hv). open_tree. rewrite ?elems_mk in Hnd, Hv. unpack Hnd Hv.
  pose proof (par_aligned k ltac:(assumption)).
  unfold insert_side. run. known.
  unfold red_node, rb_is_red. rewrite (proj2 (Z.eqb_neq uq 0)) by nz. run. known.
  rewrite is_red_tag by (by apply valid_aligned). run. unfold rb_parent. known. rewrite parent_tag by done. run.
  eexists. split; [reflexivity|]. split; [new_tree|]. split; [rewrite ptr_mk; keep_path Hk|].
  split; [same_addresses Hnd|same_addresses Hv].
Qed.

(** The uncle is not red: the rotations. *)
Lemma insert_rotate_ok loop h k d e l n r p s g u m :
  holds h k (mk d Black (mk e Red (T Red l n r) p s) g u) →
  rb (T Red l n r) m → rb s m → black s → rb u m → black u →
  ∃ h' t', insert_side loop d h n p g = Ok h' ∧ holds h' k t' ∧ black t' ∧ rb t' (S m) ∧
    elems t' = elems (mk d Black (mk e Red (T Red l n r) p s) g u).
Proof.
  intros Hh (Hl & Hr & Hbl & Hbr) Hs Hbs Hu Hbu.
  pose proof Hh as (Hrep & Hk & Hnd & Hv). open_tree. rewrite ?elems_mk in Hnd, Hv. unpack Hnd Hv.
  unfold insert_side. run. known.
  rewrite (red_node_ok h g u), Hbu by (done || by apply valid_aligned). run.
  assert (e = d ∨ e = opp d) as [->| ->] by (destruct d, e; auto).
  - destruct (insert_outer_ok h k d (T Red l n r) p s g u) as (h' & Hrun & Hh'); [done..|].
    exists h', (mk d Black (T Red l n r) p (mk d Red s g u)). known. split; [exact Hrun|].
    split; [done|]. split; [apply root_color_mk|]. split; [|destruct d; in_order].
    apply rb_mk_black. exists m. by rewrite rb_mk_red.
  - rewrite mk_opp in Hh. destruct (mk_view d Red l n r) as (a & b & Ht). rewrite Ht in Hh.
    assert (rb a m ∧ rb b m ∧ black a ∧ black b) as (Ha & Hb & Hba & Hbb) by (rewrite <- (rb_mk_red d a n b), <- Ht; done).
    destruct (insert_inner_ok h k d s p a n b g u) as (h' & Hrun & Hh'); [done..|].
    exists h', (mk d Black (mk d Red s p a) n (mk d Red b g u)). rewrite opp_opp in *. known. split; [exact Hrun|].
    split; [done|]. split; [apply root_color_mk|]. split.
    + apply rb_mk_black. exists m. by rewrite !rb_mk_red.
    + rewrite Ht, mk_opp. destruct d; in_order.
Qed.

(** The loop from a red node at the end of a path: the node becomes the root. *)
Lemma insert_root_ok h l n r m :
  holds h [] (T Red l n r) → rb (T Red l n r) m →
  ∃ h' t', rb_set_parent_color n 0 RB_BLACK h = Ok h' ∧ repr h' t' ∧ rbtree t' ∧ elems t' = elems (T Red l n r).
Proof.
  intros (Hrep & Hc & Hnd & Hv) (Hl & Hr & _).
  change (T Red l n r) with (mk L Red l n r) in *. open_tree. rewrite ?elems_mk in Hnd, Hv. unpack Hnd Hv. run.
  eexists _, (mk L Black l n r). split; [reflexivity|]. split; [|split; [|done]].
  - split; [by rewrite ptr_mk|]. split; [new_tree|]. split; [same_addresses Hnd|same_addresses Hv].
  - split; [done|]. exists (S m). apply rb_mk_black. by exists m.
Qed.

(** Two levels of the path at a red parent. *)
Lemma insert_two_ok loop h k d e l n r p s g u m :
  holds h (Fr e Red p s :: Fr d Black g u :: k) (T Red l n r) →
  crb (Fr e Red p s :: Fr d Black g u :: k) m → rb (T Red l n r) m →
  (∀ h' l' r', holds h' k (T Red l' g r') → rb (T Red l' g r') (S m) →
     ∃ h'' t', loop h' g (par k) = Ok h'' ∧ repr h'' t' ∧ rbtree t' ∧ elems t' = elems (plug k (T Red l' g r'))) →
  ∃ h' t', insert_side loop d h n p g = Ok h' ∧ repr h' t' ∧ rbtree t' ∧
    elems t' = elems (plug (Fr e Red p s :: Fr d Black g u :: k) (T Red l n r)).
Proof.
  rewrite !holds_up. simpl. intros Hh (Hs & Hbs & (Hu & Hk) & _) Hrb Hloop. destruct (root_color u) eqn:Hcu.
  - destruct u as [|c ul uq ur]; [done|]. simpl in Hcu. subst c. destruct (mk_view d Red ul uq ur) as (ua & ub & Hu').
    rewrite Hu' in *. apply rb_mk_red in Hu as (Hua & Hub & _).
    destruct (insert_flip_ok loop h k d e (T Red l n r) p s g ua uq ub Hh) as (h1 & Hrun & Hh1). simpl in Hrun.
    rewrite Hrun. assert (∃ l' r', mk d Red (mk e Black (T Red l n r) p s) g (mk d Black ua uq ub) = T Red l' g r' ∧
      rb (T Red l' g r') (S m)) as (l' & r' & Ht & Hrb').
    { assert (rb (mk d Red (mk e Black (T Red l n r) p s) g (mk d Black ua uq ub)) (S m)) as H.
      { apply rb_mk_red. rewrite !root_color_mk, !rb_mk_black. split_and!; [by exists m..|done|done]. }
      destruct d; simpl in *; eauto. }
    rewrite Ht in Hh1.
    assert (elems (plug k (T Red l' g r')) =
      elems (plug k (mk d Black (mk e Red (T Red l n r) p s) g (mk d Red ua uq ub)))) as He.
    { apply plug_elems_eq. rewrite <- Ht. by destruct d, e. }
    rewrite <- He. by apply Hloop.
  - destruct (insert_rotate_ok loop h k d e l n r p s g u m) as (h1 & t1 & Hrun & Hh1 & Hb1 & Hrb1 & He1); [done..|].
    exists h1, (plug k t1). split; [done|]. split; [by apply holds_plug|].
    split; [apply (plug_rbtree k t1 (S m)); auto|]. by apply plug_elems_eq.
Qed.

Lemma insert_loop_ok fuel : ∀ h k l n r m,
  (length k < fuel)%nat → holds h k (T Red l n r) → crb k m → rb (T Red l n r) m →
  ∃ h' t', insert_loop fuel h n (par k) = Ok h' ∧ repr h' t' ∧ rbtree t' ∧ elems t' = elems (plug k (T Red l n r)).
Proof.
  induction fuel as [|fuel IH]; intros h k l n r m Hf Hh Hk Hrb; [lia|].
  destruct k as [|[e c p s] k]; [by eapply insert_root_ok|]. cbn [insert_loop par fp].
  pose proof Hh as (Hrep & Hc & Hnd & Hv). simpl in Hc, Hnd, Hv. destruct Hc as (Hpc & Hcn & Hco & Hrs & Hc).
  unpack Hnd Hv. pose proof (par_aligned k ltac:(assumption)) as Hal.
  rewrite (proj2 (Z.eqb_neq p 0)) by nz. run. unfold rb_is_black, rb_red_parent. known. rewrite is_black_tag by done.
  destruct c.
  - destruct k as [|[d [] g u] k]; simpl in Hk; [tauto..| | ]; [destruct_and!; done|]. simpl in *.
    destruct Hc as (Hgpc & Hgn & Hgo & Hru & Hc). rewrite tag_red. unpack_all. run.
    rewrite (side_branch (λ d, insert_side (insert_loop fuel) d h n p g) d); [|done|].
    + apply (insert_two_ok _ h k d e l n r p s g u m); [done| |done|].
      * simpl. tauto.
      * intros h' l' r' Hh' Hrb'. apply (IH h' k l' g r' (S m)); [lia|done| |done]. tauto.
    + rewrite Hgo. apply notin_ptr; [notin|nz].
  - exists h, (plug (Fr e Black p s :: k) (T Red l n r)). split; [done|].
    split; [by apply holds_plug|]. split; [|done]. apply (plug_rbtree _ _ m); [done..|]. by right.
Qed.

(** [rb_link_node] hangs a red leaf at the end of the path. *)
Lemma rb_link_ok h k d n :
  repr h (plug k E) → valid n → n ∉ elems (plug k E) → match k with f :: _ => fd f = d | [] => True end →
  ∃ h', rb_link_node h n (par k) d = Ok h' ∧ holds h' k (T Red E n E).
Proof.
  intros Hh%holds_plug Hn Hnk Hd. rewrite elems_plug in Hnk. simpl in Hnk. rewrite app_nil_r in Hnk.
  destruct Hh as (_ & Hk & Hnd & Hv). simpl in *. rewrite app_nil_r in Hnd, Hv.
  assert (Hput : ∀ z, z ≠ n → nodes (put h n (MkNode (par k) 0 0)) z = nodes h z).
  { intros z Hz. unfold put, upd_node. simpl. by rewrite (proj2 (Z.eqb_neq z n) Hz). }
  assert (Hnew : nodes (put h n (MkNode (par k) 0 0)) n = MkNode (par k) 0 0) by (unfold put, upd_node; simpl; by rewrite Z.eqb_refl).
  set (h1 := put h n (MkNode (par k) 0 0)) in *.
  assert (Hk1 : crep h1 0 k) by (eapply crep_agree; [| |exact Hk]; [done|]; intros z Hz; apply Hput; set_solver).
  assert (Hrest : NoDup (celems k ++ [n]) ∧ Forall valid (celems k ++ [n])).
  { split; [apply NoDup_app; split; [done|]; split; [|apply NoDup_singleton]|].
    { intros z Hz ->%list_elem_of_singleton. done. }
    apply Forall_app. split; [done|by constructor]. }
  unfold rb_link_node. rewrite (proj2 (Z.eqb_neq n 0)) by nz. cbv zeta. fold h1. clearbody h1.
  destruct k as [|[e c p s] k]; simpl in *.
  - eexists. split; [reflexivity|]. split; [simpl; by rewrite Hnew|]. done.
  - subst e. unpack_all. destruct Hk1 as (Hpc & Hc & Ho & Hs & Hk1).
    rewrite (proj2 (Z.eqb_neq p 0)) by nz. run. eexists. split; [reflexivity|]. destruct Hrest as [Hnd' Hv'].
    split; [cbn [rep par fp]; fields; by rewrite Hnew, tag_red|]. split; [|done].
    cbn [crep ptr fp fd fc fs]. split_and!; fields; try done.
    + keep Hs.
    + keep_path Hk1.
Qed.

Lemma rb_insert_ok fuel h k d n :
  repr h (plug k E) → rbtree (plug k E) → valid n → n ∉ elems (plug k E) →
  match k with f :: _ => fd f = d | [] => True end →
  (depth (length (elems (plug k E))) < fuel)%nat →
  ∃ h1 h' t', rb_link_node h n (par k) d = Ok h1 ∧ rb_insert_color fuel h1 n = Ok h' ∧ repr h' t' ∧ rbtree t' ∧
    elems (plug k E) = cbefore k ++ cafter k ∧ elems t' = cbefore k ++ n :: cafter k.
Proof.
  intros Hh Ht Hn Hnk Hd Hf. destruct (rb_link_ok h k d n) as (h1 & Hl & Hh1); [done..|].
  destruct (plug_rb_inv k E Ht) as (m & Hk & Hm & _). simpl in Hm. subst m.
  pose proof (length_le_height k E) as Hlen. pose proof (rbtree_height _ Ht).
  destruct (insert_loop_ok fuel h1 k E n E 0) as (h' & t' & Hrun & Hh' & Ht' & He); [simpl in *; lia|done..|].
  exists h1, h', t'. split; [done|]. split.
  { unfold rb_insert_color, __rb_insert. run. destruct Hh1 as ((-> & _) & _). simpl. unfold rb_red_parent. simpl.
    by rewrite tag_red. }
  split; [done|]. split; [done|]. rewrite He, !elems_plug_seq. done.
Qed.

(** C14: linking a fresh node at the end of a search path and rebalancing with
    [rb_insert_color] never dereferences NULL, ends within [depth] iterations,
    and leaves a red-black tree with the node inserted at the place it was
    linked and the order of the other nodes unchanged. *)
Theorem rb_insert_correct fuel h k d n :
  repr h (plug k E) → rbtree (plug k E) → valid n → n ∉ elems (plug k E) →
  match k with f :: _ => fd f = d | [] => True end →
  (depth (length (elems (plug k E))) < fuel)%nat →
  ∃ h1 h' t', rb_link_node h n (par k) d = Ok h1 ∧ rb_insert_color fuel h1 n = Ok h' ∧ repr h' t' ∧ rbtree t' ∧
    elems (plug k E) = cbefore k ++ cafter k ∧ elems t' = cbefore k ++ n :: cafter k.
Proof. apply rb_insert_ok. Qed.

(** The fourth node, at the right end of the sample tree. *)
Lemma rb_insert_correct_witness :
  ∃ h1 h' t', rb_link_node sample_heap 16 12 R = Ok h1 ∧ rb_insert_color 5 h1 16 = Ok h' ∧ repr h' t' ∧ rbtree t' ∧
    elems sample_tree = [4; 8; 12] ∧ elems t' = [4; 8; 12; 16].
Proof.
  apply (rb_insert_correct 5 sample_heap [Fr R Red 12 E; Fr R Black 8 (T Red E 4 E)] R 16).
  - exact sample_repr.
  - exact sample_rbtree.
  - done.
  - apply (bool_decide_unpack _); vm_compute; exact I.
  - done.
  - by apply Nat.ltb_lt.
Defined.

End RbtreeInsert.
