(* ===== verification/RbtreeErase.v ===== *)
(** * Red-black trees: rebalancing after an erasure

    [____rb_erase_color]: from a path whose hole holds a subtree with one black
    node too few, the loop restores the red-black invariant. *)

From stdpp Require Import base numbers list option sets.
From Stdlib Require Import ZArith Lia.
From S2P Require Import Prelude Rbtree RbtreeSpec RbtreeHeap.

Open Scope Z_scope.

Module RbtreeErase.
Import Rbtree RbtreeSpec RbtreeHeap.

(** Case 1: the rotation that gives the node a black sibling. *)
Lemma erase_case1_ok h k d t p a q b :
  holds h k (mk d Black t p (mk d Red a q b)) → a ≠ E → black a →
  ∃ h', erase_case1 d p q h = Ok (h', ptr a) ∧ holds h' k (mk d Black (mk d Red t p a) q b).
Proof.
  intros (Hrep & Hk & Hnd & Hv) Ha Hb. apply ptr_elem in Ha. open_tree.
  rewrite ?elems_mk in Hnd, Hv. unpack Hnd Hv.
  unfold erase_case1. run. unfold rb_is_red. known. rewrite is_red_tag by (by apply valid_aligned). run. known. run.
  match goal with
  | |- context [__rb_rotate_set_parents p q RB_RED ?H] =>
      destruct (rotate_holds H k p q Black Red (mk d Black (mk d Red t p a) q b)) as (h' & Hrun & Hh')
  end.
  - keep_path Hk.
  - known. done.
  - new_tree.
  - apply ptr_mk.
  - apply in_mk_near, in_mk.
  - same_addresses Hnd.
  - same_addresses Hv.
  - simpl in Hrun. rewrite Hrun. by exists h'.
Qed.

(** Case 4: the rotation at the parent [p], with the sibling [q] and its red far
    child [w]. *)
Lemma erase_case4_ok h k d c t p a q w1 w w2 :
  crep h p k → __rb_parent_color (nodes h p) = tag (par k) c → child d (nodes h p) = ptr t →
  child d (nodes h q) = ptr a → child (opp d) (nodes h q) = w →
  child d (nodes h w) = ptr w1 → child (opp d) (nodes h w) = ptr w2 →
  rep (nodes h) p t → rep (nodes h) q a → rep (nodes h) w w1 → rep (nodes h) w w2 →
  NoDup (celems k ++ p :: q :: w :: elems t ++ elems a ++ elems w1 ++ elems w2) →
  Forall valid (celems k ++ p :: q :: w :: elems t ++ elems a ++ elems w1 ++ elems w2) →
  ∃ h', erase_case4 d p q w h = Ok h' ∧ holds h' k (mk d c (mk d Black t p a) q (mk d Black w1 w w2)).
Proof.
  intros Hk Hpc Ht Ha Hw Hw1 Hw2 Hrt Hra Hrw1 Hrw2 Hnd Hv. unpack Hnd Hv.
  unfold erase_case4. run. known. run.
  match goal with
  | |- context [if_node (ptr a) _ ?H] => rewrite (if_node_parent_ok H q a); [|keep Hra|by apply valid_aligned|done]
  end. run.
  eapply (rotate_holds _ k p q c Black (mk d c (mk d Black t p a) q (mk d Black w1 w w2))).
  - keep_path Hk.
  - known. done.
  - new_tree.
  - apply ptr_mk.
  - apply in_mk_near, in_mk.
  - same_addresses Hnd.
  - same_addresses Hv.
Qed.

(** Cases 3 and 4: the near child [r] of the sibling is red. *)
Lemma erase_case34_ok h k d c t p a1 r a2 q b :
  holds h k (mk d c t p (mk d Black (mk d Red a1 r a2) q b)) → black a2 →
  ∃ h', ('(h, sibling, tmp1) ← erase_case3 d p q r h; erase_case4 d p sibling tmp1 h) = Ok h' ∧
        holds h' k (mk d c (mk d Black t p a1) r (mk d Black a2 q b)).
Proof.
  intros (Hrep & Hk & Hnd & Hv) Ha2. open_tree. rewrite ?elems_mk in Hnd, Hv. unpack Hnd Hv.
  unfold erase_case3. run. known. run.
  eapply (erase_case4_ok _ k d c t p a1 r a2 q b); try (known; done); try subtree.
  - keep_path Hk.
  - same_addresses Hnd.
  - same_addresses Hv.
Qed.

(** Case 2: the sibling becomes red; a red parent becomes black. *)
Lemma erase_case2_ok loop h k d c t p a q b :
  holds h k (mk d c t p (mk d Black a q b)) → black a → black b →
  ∃ h', erase_black loop d h p q =
          (match c, k with Red, _ | Black, [] => Ok h' | Black, _ => loop h' p (par k) end) ∧
        holds h' k (mk d Black t p (mk d Red a q b)).
Proof.
  intros (Hrep & Hk & Hnd & Hv) Ha Hb. open_tree. rewrite ?elems_mk in Hnd, Hv. unpack Hnd Hv.
  pose proof (par_aligned k ltac:(assumption)).
  unfold erase_black. run. known.
  rewrite (black_or_null_ok h q b), Hb by (done || by apply valid_aligned). run. known.
  rewrite (black_or_null_ok h q a), Ha by (done || by apply valid_aligned). run.
  unfold rb_is_red, rb_set_black, rb_parent. known. rewrite is_red_tag, parent_tag by done. destruct c.
  - run. known. rewrite set_black_tag. run. eexists. split; [reflexivity|].
    split; [new_tree|]. split; [rewrite ptr_mk; keep_path Hk|]. split; [same_addresses Hnd|same_addresses Hv].
  - eexists. split.
    + destruct k as [|f k]; [done|]. simpl. rewrite (proj2 (Z.eqb_neq (fp f) 0)); [done|]. simpl in *. unpack_all. nz.
    + split; [new_tree|]. split; [rewrite ptr_mk; keep_path Hk|]. split; [same_addresses Hnd|same_addresses Hv].
Qed.

(** The result of a rebalancing: a red-black tree with the nodes in order. *)
Definition rebalanced (o : outcome heap) (t : tree) : Prop :=
  ∃ h' t', o = Ok h' ∧ repr h' t' ∧ rbtree t' ∧ elems t' = elems t.

Lemma rebalanced_elems o t t' : elems t = elems t' → rebalanced o t → rebalanced o t'.
Proof. unfold rebalanced. by intros ->. Qed.

Lemma rebalanced_plug o h' k t t' n :
  o = Ok h' → holds h' k t' → crb k n → rb t' n → (black t' ∨ red_ok k) → elems t' = elems t →
  rebalanced o (plug k t).
Proof.
  intros Ho Hh Hk Ht Hc He. exists h', (plug k t'). split; [done|]. split; [by apply holds_plug|].
  split; [by eapply plug_rbtree|by apply plug_elems_eq].
Qed.

(** The path after a frame, whichever its colour. *)
Lemma crb_frame d c p s k n :
  crb (Fr d c p s :: k) n →
  rb s n ∧ crb k (match c with Black => S n | Red => n end) ∧ (c = Red → black s ∧ red_ok k).
Proof. unfold red_ok. destruct c; simpl; [intros (? & ? & ? & ?); auto|intros [? ?]; done]. Qed.

Lemma rb_mk_any d c a p b n :
  rb a n → rb b n → (c = Red → black a ∧ black b) → rb (mk d c a p b) (match c with Black => S n | Red => n end).
Proof.
  intros Ha Hb Hc. destruct c.
  - apply rb_mk_red. destruct (Hc eq_refl). auto.
  - apply rb_mk_black. by exists n.
Qed.

Lemma red_view d t : root_color t = Red → ∃ a p b, t = mk d Red a p b.
Proof. destruct t as [|c l p r]; [done|]. simpl. intros ->. destruct (mk_view d Red l p r) as (a & b & ->). eauto. Qed.

(** The subtree after case 4. *)
Lemma erased_rb d c t p a q w1 w w2 m :
  rb t m → rb a m → rb w1 m → rb w2 m →
  rb (mk d c (mk d Black t p a) q (mk d Black w1 w w2)) (match c with Black => S (S m) | Red => S m end).
Proof.
  intros Ht Ha H1 H2. apply rb_mk_any; [apply rb_mk_black; by exists m..|]. by rewrite !root_color_mk.
Qed.

(** The far child of the sibling is red. *)
Lemma erase_far_ok loop h k d c t p a q w1 w w2 :
  holds h k (mk d c t p (mk d Black a q (mk d Red w1 w w2))) →
  ∃ h', erase_black loop d h p q = Ok h' ∧ holds h' k (mk d c (mk d Black t p a) q (mk d Black w1 w w2)).
Proof.
  intros (Hrep & Hk & Hnd & Hv). pose proof Hrep as Hrep'. open_tree. rewrite ?elems_mk in Hnd, Hv. unpack Hnd Hv.
  unfold erase_black. run. known.
  assert (Hb : black_or_null h w = Ok false).
  { unfold black_or_null, rb_is_black. rewrite (proj2 (Z.eqb_neq w 0)) by nz. run. known.
    by rewrite is_black_tag by (by apply valid_aligned). }
  rewrite Hb. run. eapply (erase_case4_ok h k d c t p a q w1 w w2); try done.
  - same_addresses Hnd.
  - same_addresses Hv.
Qed.

(** Only the near child of the sibling is red. *)
Lemma erase_near_ok loop h k d c t p a1 r a2 q b :
  holds h k (mk d c t p (mk d Black (mk d Red a1 r a2) q b)) → black b → black a2 →
  ∃ h', erase_black loop d h p q = Ok h' ∧ holds h' k (mk d c (mk d Black t p a1) r (mk d Black a2 q b)).
Proof.
  intros Hh Hb Ha2. pose proof Hh as (Hrep & Hk & Hnd & Hv). open_tree. rewrite ?elems_mk in Hnd, Hv. unpack Hnd Hv.
  unfold erase_black. run. known.
  rewrite (black_or_null_ok h q b), Hb by (done || by apply valid_aligned). run. known.
  assert (Hr : black_or_null h r = Ok false).
  { unfold black_or_null, rb_is_black. rewrite (proj2 (Z.eqb_neq r 0)) by nz. run. known.
    by rewrite is_black_tag by (by apply valid_aligned). }
  rewrite Hr. run. by apply erase_case34_ok.
Qed.

(** A black sibling [mk d Black a q b]. *)
Lemma erase_black_ok loop h k d c t p a q b m :
  holds h k (mk d c t p (mk d Black a q b)) → rb t m → black t →
  crb (Fr d c p (mk d Black a q b) :: k) (S m) →
  (∀ h' t', k ≠ [] → c = Black → holds h' k t' → ptr t' = p → rb t' (S m) → black t' → rebalanced (loop h' p (par k)) (plug k t')) →
  rebalanced (erase_black loop d h p q) (plug k (mk d c t p (mk d Black a q b))).
Proof.
  intros Hh Ht Hbt Hk Hloop. apply crb_frame in Hk as (Hs & Hk & Hc).
  apply rb_mk_black in Hs as (m' & [= <-] & Ha & Hb).
  destruct (root_color b) eqn:Hcb; [|destruct (root_color a) eqn:Hca].
  - destruct (red_view d b Hcb) as (w1 & w & w2 & ->). apply rb_mk_red in Hb as (Hw1 & Hw2 & _).
    destruct (erase_far_ok loop h k d c t p a q w1 w w2 Hh) as (h' & Hrun & Hh').
    apply (rebalanced_plug _ h' k _ _ _ Hrun Hh' Hk); [by apply erased_rb| |destruct d; in_order].
    rewrite root_color_mk. destruct c; [right; tauto|by left].
  - destruct (red_view d a Hca) as (a1 & r & a2 & ->). apply rb_mk_red in Ha as (Ha1 & Ha2 & _ & Hba2).
    destruct (erase_near_ok loop h k d c t p a1 r a2 q b Hh Hcb Hba2) as (h' & Hrun & Hh').
    apply (rebalanced_plug _ h' k _ _ _ Hrun Hh' Hk); [by apply erased_rb| |destruct d; in_order].
    rewrite root_color_mk. destruct c; [right; tauto|by left].
  - destruct (erase_case2_ok loop h k d c t p a q b Hh Hca Hcb) as (h' & Hrun & Hh').
    assert (Hrb : rb (mk d Black t p (mk d Red a q b)) (S m)) by (apply rb_mk_black; exists m; by rewrite rb_mk_red).
    assert (He : elems (mk d Black t p (mk d Red a q b)) = elems (mk d c t p (mk d Black a q b))) by (by destruct d).
    rewrite Hrun. destruct c; [|destruct k as [|f k]].
    + apply (rebalanced_plug _ h' k _ _ (S m) eq_refl Hh' Hk Hrb); [left; apply root_color_mk|done].
    + apply (rebalanced_plug _ h' [] _ _ (S m) eq_refl Hh' I Hrb); [left; apply root_color_mk|done].
    + unfold rebalanced. rewrite <- (plug_elems_eq _ _ _ He).
      apply (Hloop h'); [done..| |done|]; [apply ptr_mk|apply root_color_mk].
Qed.

(** The whole loop. *)
Lemma erase_loop_ok fuel : ∀ h k t m,
  (length k ≤ fuel)%nat → k ≠ [] → holds h k t → crb k (S m) → rb t m → black t →
  rebalanced (erase_loop fuel h (ptr t) (par k)) (plug k t).
Proof.
  induction fuel as [|fuel IH]; intros h k t m Hf Hn Hh Hk Ht Hbt; [destruct k; [done|simpl in Hf; lia]|].
  destruct k as [|[d c p s] k]; [done|]. apply holds_up in Hh. simpl in Hh. cbn [erase_loop par fp plug fd fc fs].
  pose proof Hk as (Hs & _)%crb_frame. destruct s as [|cs sl q sr]; [done|].
  destruct (mk_view d cs sl q sr) as (a & b & Hab). rewrite Hab in *. clear Hab sl sr.
  pose proof Hh as (Hrep & Hc & Hnd & Hv). open_tree. rewrite ?elems_mk in Hnd, Hv. unpack Hnd Hv. run.
  rewrite (side_branch (λ d, erase_side (erase_loop fuel) d h p) d); [|done|].
  2: { known. apply not_eq_sym, notin_ptr; [notin|nz]. }
  unfold erase_side. run. known. destruct cs.
  - destruct c; [by destruct Hk as (_ & [=] & _); rewrite root_color_mk in *|].
    apply crb_frame in Hk as (_ & Hk & _). apply rb_mk_red in Hs as (Ha & Hb & Hba & Hbb).
    assert (a ≠ E) by (by intros ->).
    destruct (erase_case1_ok h k d t p a q b) as (h' & Hrun & Hh'); [done..|]. rewrite Hrun. run.
    destruct a as [|ca al x ar]; [done|]. simpl in Hba. subst ca.
    destruct (mk_view d Black al x ar) as (a1 & a2 & Hx). rewrite Hx in *. rewrite ptr_mk.
    apply (rebalanced_elems _ (plug (Fr d Black q b :: k) (mk d Red t p (mk d Black a1 x a2)))).
    { simpl. apply plug_elems_eq. destruct d; in_order. }
    apply (erase_black_ok _ h' _ d Red t p a1 x a2 m); [by apply holds_up|done|done| |done].
    simpl. rewrite root_color_mk. auto.
  - unfold erase_case1. run. unfold rb_is_red. known. rewrite is_red_tag by (by apply valid_aligned). run.
    apply (erase_black_ok _ h k d c t p a q b m); [done..|].
    intros h' t' Hn' -> Hh' Hp Ht' Hb'. rewrite <- Hp. apply (IH h' k t' (S m)); try done.
    + simpl in Hf. lia.
    + by apply crb_frame in Hk as (_ & Hk & _).
Qed.

End RbtreeErase.
