(* ===== verification/RbtreeUnlink.v ===== *)
(** * Red-black trees: erasure

    [__rb_erase_augmented] unlinks a node, replacing one with two children by
    its successor, and [rb_erase] rebalances at the place where a black node is
    missing. *)

From stdpp Require Import base numbers list option sets.
From Stdlib Require Import ZArith Lia.
From S2P Require Import Prelude Rbtree RbtreeSpec RbtreeHeap RbtreeErase.

Open Scope Z_scope.

Module RbtreeUnlink.
Import Rbtree RbtreeSpec RbtreeHeap RbtreeErase.

(** What unlinking leaves: a red-black tree, or a path to an empty hole that
    misses one black node, with the parent to rebalance at. *)
Definition unlinked (o : outcome (heap * Z)) (K : list frame) (t : tree) : Prop :=
  ∃ h' reb, o = Ok (h', reb) ∧ holds h' K t ∧
    ((reb = 0 ∧ rbtree (plug K t)) ∨ (reb = par K ∧ K ≠ [] ∧ t = E ∧ crb K 1)).

(** ** Writes on heaps that agree at a node *)

Lemma put_pc_cong h h' p v x : nodes h x = nodes h' x → nodes (put_pc h p v) x = nodes (put_pc h' p v) x.
Proof. unfold put_pc, put, upd_node. simpl. destruct (Z.eqb_spec x p) as [->|]; [|done]. by intros ->. Qed.

Lemma put_pc_opt_cong h h' p v x : nodes h x = nodes h' x → nodes (put_pc_opt h p v) x = nodes (put_pc_opt h' p v) x.
Proof. unfold put_pc_opt. destruct (p =? 0); [done|apply put_pc_cong]. Qed.

(** ** One address less *)

Lemma nodup_drop n (A B : list Z) : n :: A ≡ₚ B → NoDup B → NoDup A.
Proof. intros <- [_ H]%NoDup_cons. done. Qed.

Lemma valid_drop n A B : n :: A ≡ₚ B → Forall valid B → Forall valid A.
Proof. intros <- [_ H]%list.Forall_cons. done. Qed.

Ltac dropped n H :=
  first [refine (nodup_drop n _ _ _ H) | refine (valid_drop n _ _ _ H)]; rewrite ?elems_mk; solve_Permutation.

(** ** At most one child *)

Lemma rb_zero t : rb t 0 → t = E ∨ rb (paint Black t) 1.
Proof. destruct t as [|[] l p r]; simpl; [by left| |by intros (m & ? & _)]. right. exists 0%nat. tauto. Qed.

(** The only child of a node is red, and the node black. *)
Lemma rb_only_child d c n s m :
  rb (mk d c E n s) m → s ≠ E → c = Black ∧ m = 1%nat ∧ rb (paint Black s) 1.
Proof.
  intros Hrb Hs. destruct c.
  - apply rb_mk_red in Hrb as (Hm & Hr & _ & Hb). simpl in Hm. subst m. destruct s as [|[] l p r]; simpl in *; try done.
    by destruct Hr as (? & ? & _).
  - apply rb_mk_black in Hrb as (m' & -> & Hm & Hr). simpl in Hm. subst m'. by destruct (rb_zero s Hr).
Qed.

(** Where a node of colour [c] with only the subtree [s] is missing. *)
Definition reb_of (s : tree) (c : color) (q : Z) : Z := match s, c with E, Black => q | _, _ => 0 end.

Lemma unlinked_hole o h' K d c x s m :
  o = Ok (h', reb_of s c (par K)) → holds h' K (paint Black s) → crb K m → rb (mk d c E x s) m →
  unlinked o K (paint Black s).
Proof.
  intros Ho Hh HK Hrb. exists h', (reb_of s c (par K)). split; [done|]. split; [done|].
  destruct s as [|cs l p r].
  - destruct c; simpl.
    + left. split; [done|]. apply rb_mk_red in Hrb as (Hm & _). by apply (plug_rbtree K E m); auto.
    + apply rb_mk_black in Hrb as (m' & -> & Hm & _). simpl in Hm. subst m'. destruct K as [|f K]; [|by right].
      left. split; [done|]. split; [done|]. by exists 0%nat.
  - left. split; [done|]. destruct (rb_only_child d c x (T cs l p r) m Hrb) as (_ & -> & Hp); [done|].
    apply (plug_rbtree K _ 1); auto.
Qed.

(** Unlinking a node without a left child. *)
Lemma erase_no_left_ok fuel h k c n r m :
  holds h k (T c E n r) → crb k m → rb (T c E n r) m →
  unlinked (__rb_erase_augmented fuel h n) k (paint Black r).
Proof.
  intros (Hrep & Hk & Hnd & Hv) Hck Hrb. change (T c E n r) with (mk L c E n r) in *. open_tree.
  rewrite ?elems_mk in Hnd, Hv. simpl in Hnd, Hv. unpack Hnd Hv. pose proof (par_aligned k ltac:(assumption)) as Hal.
  destruct (change_child_ok h k n (ptr r)) as (h1 & Hrun & Hk1 & Hag); [done|nz|done..|].
  assert (Hrn : NoDup (celems k ++ elems r) ∧ Forall valid (celems k ++ elems r)).
  { split; [by apply nodup_apart|by apply Forall_app]. }
  unfold __rb_erase_augmented. run. change (rb_left (nodes h n)) with (child L (nodes h n)).
  change (rb_right (nodes h n)) with (child (opp L) (nodes h n)). known. rewrite parent_tag by done. simpl (0 =? 0).
  cbv iota. rewrite Hrun. run. rewrite is_black_tag by done.
  eapply (unlinked_hole _ (put_pc_opt h1 (ptr r) (tag (par k) c)) k L c n r m); [| |done..].
  - unfold put_pc_opt. destruct (Z.eqb_spec (ptr r) 0) as [Hr0|Hr0]; simpl.
    + apply ptr_0 in Hr0 as ->; [|done]. by destruct c.
    + run. by destruct r.
  - split; [|by rewrite ptr_paint, elems_paint; split; [keep_path Hk1|]].
    eapply rep_painted; [eassumption|done| |].
    + intros z Hz Hn. fields. apply Hag. notin.
    + intros Hn. destruct (rb_only_child L c n r m Hrb Hn) as (-> & _). apply ptr_elem in Hn.
      split_and!; fields; rewrite ?Hag by notin; done.
Qed.

(** Unlinking a node without a right child. *)
Lemma erase_no_right_ok fuel h k c l n m :
  holds h k (T c l n E) → l ≠ E → crb k m → rb (T c l n E) m →
  unlinked (__rb_erase_augmented fuel h n) k (paint Black l).
Proof.
  intros (Hrep & Hk & Hnd & Hv) Hl Hck Hrb. change (T c l n E) with (mk R c E n l) in *. open_tree.
  rewrite ?elems_mk in Hnd, Hv. simpl in Hnd, Hv. unpack Hnd Hv. pose proof (par_aligned k ltac:(assumption)) as Hal.
  destruct (rb_only_child R c n l m Hrb Hl) as (-> & _). pose proof (ptr_elem l Hl) as Hle.
  destruct (change_child_ok (put_pc h (ptr l) (tag (par k) Black)) k n (ptr l)) as (h1 & Hrun & Hk1 & Hag);
    [keep_path Hk|nz|done..|].
  unfold __rb_erase_augmented. run. change (rb_left (nodes h n)) with (child (opp R) (nodes h n)).
  change (rb_right (nodes h n)) with (child R (nodes h n)). known. simpl (ptr E). simpl (0 =? 0).
  rewrite (proj2 (Z.eqb_neq (ptr l) 0)) by nz. cbv iota. run. rewrite parent_tag by done. rewrite Hrun. run.
  apply (unlinked_hole _ h1 k R Black n l m); [by destruct l| |done..].
  split; [|rewrite ptr_paint, elems_paint; split; [done|]; split; [by apply nodup_apart|by apply Forall_app]].
  eapply rep_painted; [eassumption|done| |].
  - intros z Hz Hn. rewrite Hag by notin. fields. done.
  - intros _. rewrite Hag by notin. split_and!; fields; done.
Qed.

(** ** Two children *)

(** The end of the case: [l] and [W] are the subtrees of the successor [s], and
    [c2] is the part of [W] that hung below [s]. *)
Lemma erase_splice_ok h k c l n s cs q W c2 P :
  crep h n k → __rb_parent_color (nodes h n) = tag (par k) c → child L (nodes h n) = ptr l → rep (nodes h) n l → l ≠ E →
  __rb_parent_color (nodes h s) = tag q cs → aligned q → child R (nodes h s) = ptr W →
  rep (nodes (put_pc_opt h (ptr c2) (tag P Black))) s W → (∀ x, x ∈ elems c2 → x ∈ elems W) →
  NoDup (celems k ++ n :: s :: elems l ++ elems W) → Forall valid (celems k ++ n :: s :: elems l ++ elems W) →
  ∃ h', erase_splice h n P s (ptr c2) = Ok (h', reb_of c2 cs P) ∧ holds h' k (T c l s W).
Proof.
  intros Hk Hn Hl Hrl Hle Hs Hq HW HrW Hsub Hnd Hv. unpack Hnd Hv. pose proof (par_aligned k ltac:(assumption)) as Hal.
  pose proof (ptr_elem l Hle) as Hlp.
  set (h5 := put_pc (put_child L h s (ptr l)) (ptr l) (tag s (root_color l))).
  destruct (change_child_ok h5 k n s) as (h6 & Hrun & Hk6 & Hag); [subst h5; keep_path Hk|nz|done..|].
  exists (put_pc (put_pc_opt h6 (ptr c2) (tag P Black)) s (tag (par k) c)). split.
  - unfold erase_splice. run. change (rb_left (nodes h n)) with (child L (nodes h n)). known. run.
    rewrite (set_parent_root_ok _ n l s); [|keep Hrl|by apply valid_aligned|done..]. fold h5. run.
    assert (__rb_parent_color (nodes h5 n) = tag (par k) c) as -> by (subst h5; known; done).
    rewrite parent_tag by done. rewrite Hrun. run.
    assert (Hblk : rb_is_black (nodes h6 s) = match cs with Black => true | Red => false end).
    { unfold rb_is_black. rewrite Hag by done. subst h5. known. by rewrite is_black_tag. }
    unfold put_pc_opt. destruct c2 as [|cc c2l x c2r]; simpl.
    + run. rewrite Hblk. run. by destruct cs.
    + assert (x ∈ elems W) by (apply Hsub; simpl; set_solver). rewrite (proj2 (Z.eqb_neq x 0)) by nz. simpl. run. done.
  - assert (Hsc : s ∉ elems c2) by auto.
    assert (Hlc : apart (elems l) (elems c2)) by (intros z Hz Hc; by apply (H5 z), Hsub).
    assert (Hkc : apart (celems k) (elems c2)) by (intros z Hz Hc; by apply (H12 z), Hsub).
    change (T c l s W) with (mk L c l s W).
    split; [|split; [rewrite ptr_mk; keep_path Hk6|split; [dropped n Hnd|dropped n Hv]]].
    rewrite rep_mk. split_and!; fields; rewrite ?Hag by done; subst h5; known; try done.
    + eapply rep_moved; [exact Hrl|done| |].
      * intros z Hz Hzl. fields. rewrite Hag by notin. fields. done.
      * intros _. split_and!; fields; rewrite Hag by notin; fields; done.
    + eapply rep_agree; [|exact HrW]. intros z Hz. rewrite put_pc_ne by ne. apply put_pc_opt_cong.
      rewrite Hag by notin. fields. done.
Qed.

(** The path to the leftmost node of a subtree. *)
Definition leftward (k : list frame) : Prop := Forall (λ f, fd f = L) k.

Lemma leftward_first k : leftward k → cbefore k = [].
Proof. induction 1 as [|f k Hf _ IH]; simpl; [done|]. by rewrite Hf. Qed.

Lemma plug_app k1 k2 t : plug (k1 ++ k2) t = plug k2 (plug k1 t).
Proof. revert t. induction k1 as [|f k1 IH]; intros t; simpl; [done|apply IH]. Qed.

Lemma leftmost_view r : r ≠ E → ∃ k c s c2, r = plug k (T c E s c2) ∧ leftward k.
Proof.
  induction r as [|c l IHl p r _]; [done|]. intros _. destruct l as [|cl ll pl rl].
  - exists [], c, p, r. split; [done|constructor].
  - destruct IHl as (k & c' & s & c2 & Heq & Hk); [done|]. exists (k ++ [Fr L c p r]), c', s, c2.
    rewrite plug_app, <- Heq. split; [done|]. apply Forall_app. split; [done|by constructor].
Qed.

(** The parent that the search for the successor returns. *)
Definition par_or (k : list frame) (q : Z) : Z := match k with [] => q | f :: _ => fp f end.

Lemma ptr_plug_ne k c l s r : ptr (plug k (T c l s r)) ∈ elems (plug k (T c l s r)).
Proof.
  apply ptr_elem. revert c l s r. induction k as [|[d c' p s'] k IH]; intros c l s r; [done|]. simpl.
  destruct d; simpl; apply IH.
Qed.

Lemma successor_loop_ok k : ∀ fuel h q P S c s c2,
  leftward k → rep (nodes h) q (plug k (T c E s c2)) → Forall valid (elems (plug k (T c E s c2))) →
  (length k < fuel)%nat →
  successor_loop fuel h P S (ptr (plug k (T c E s c2))) = Ok (par_or k S, s).
Proof.
  induction k as [|[d c' p s'] k IH] using rev_ind; intros fuel h q P S c s c2 Hl Hr Hv Hf;
    (destruct fuel as [|fuel]; [lia|]).
  - simpl in *. destruct Hr as (Hs & _). unpack_all. run. rewrite Hs. done.
  - apply Forall_app in Hl as [Hl [Hd _]%list.Forall_cons]. simpl in Hd. subst d. rewrite plug_app in *. simpl in *.
    destruct Hr as (Hs & Hr & _). unpack_all. pose proof (ptr_plug_ne k c E s c2). run. rewrite Hs. simpl.
    rewrite (proj2 (Z.eqb_neq (ptr (plug k (T c E s c2))) 0)) by nz. simpl. rewrite length_app in Hf. simpl in Hf.
    rewrite (IH fuel h p); [|done..|lia]. by destruct k.
Qed.

(** A change below a path. *)
Lemma rep_plug_local f f' q k : ∀ t1 t2,
  ptr t2 = ptr t1 → (∀ x, x ∈ celems k → f' x = f x) → (∀ q', rep f q' t1 → rep f' q' t2) →
  rep f q (plug k t1) → rep f' q (plug k t2).
Proof.
  induction k as [|[d c p s] k IH]; intros t1 t2 Hp Ha Hr; simpl; [apply Hr|].
  apply IH; [by rewrite !ptr_mk|set_solver|]. intros q'. rewrite !rep_mk. simpl in Ha. rewrite (Ha p) by set_solver.
  intros (? & ? & ? & Ht & Hs). split_and!; try congruence; [by apply Hr|]. eapply rep_agree; [|exact Hs]. set_solver.
Qed.

(** The successor's right subtree takes its place. *)
Lemma spine_ok h q k c s c2 :
  k ≠ [] → leftward k → rep (nodes h) q (plug k (T c E s c2)) →
  NoDup (celems k ++ s :: elems c2) → Forall valid (celems k ++ s :: elems c2) →
  rep (nodes (put_pc_opt (put_child L h (par k) (ptr c2)) (ptr c2) (tag (par k) Black))) q (plug k (paint Black c2)).
Proof.
  intros Hn Hl Hr Hnd Hv. destruct k as [|[d c' p s'] k]; [done|]. apply list.Forall_cons in Hl as [Hd _].
  simpl in *. subst d. unpack Hnd Hv.
  eapply (rep_plug_local _ _ _ _ (mk L c' (T c E s c2) p s')); [done| | |exact Hr].
  - intros x Hx. fields. done.
  - intros q'. change (T c E s c2) with (mk L c E s c2). intros Hm. open_tree. rewrite rep_mk, ptr_paint.
    split_and!; fields; try done; [|subtree]. eapply rep_painted; [eassumption|done| |].
    + intros z Hz Hz'. fields. done.
    + intros Hz%ptr_elem. split_and!; fields; done.
Qed.

Lemma rep_hole f k : ∀ q t, rep f q (plug k t) → rep f (par_or k q) t.
Proof.
  induction k as [|[d c p s] k IH]; intros q t; simpl; [done|]. intros H%IH. apply rep_mk in H. tauto.
Qed.

(** The successor is the right child. *)
Lemma erase_two_near_ok fuel h k c l n cs s c2 :
  holds h k (T c l n (T cs E s c2)) → l ≠ E →
  ∃ h', erase_two fuel h n s = Ok (h', reb_of c2 cs s) ∧ holds h' k (T c l s (paint Black c2)).
Proof.
  intros Hh Hl. pose proof Hh as (Hrep & Hk & Hnd & Hv).
  change (T c l n (T cs E s c2)) with (mk L c l n (mk L cs E s c2)) in *.
  open_tree. rewrite !elems_mk in Hnd, Hv. simpl in Hnd, Hv. unpack Hnd Hv.
  unfold erase_two. run. change (rb_left (nodes h s)) with (child L (nodes h s)).
  change (rb_right (nodes h s)) with (child (opp L) (nodes h s)). known. simpl (0 =? 0). cbv iota.
  eapply (erase_splice_ok h k c l n s cs n (paint Black c2) c2 s); try done.
  - by apply valid_aligned.
  - by rewrite ptr_paint.
  - eapply rep_painted; [eassumption|done| |].
    + intros z Hz Hn. fields. done.
    + intros Hn%ptr_elem. split_and!; fields; done.
  - by rewrite elems_paint.
  - rewrite elems_paint. same_addresses Hnd.
  - rewrite elems_paint. same_addresses Hv.
Qed.

(** The right subtree, whose top [x] moves from the node to the successor. *)
Lemma far_subtree_ok h n k2 k3 cx x sx cs s c2 :
  k2 = k3 ++ [Fr L cx x sx] → leftward k2 → rep (nodes h) n (plug k2 (T cs E s c2)) →
  NoDup (celems k2 ++ s :: elems c2) → Forall valid (celems k2 ++ s :: elems c2) → x ∈ celems k2 →
  let h1 := put_pc (put_child R (put_child L h (par k2) (ptr c2)) s x) x (tag s cx) in
  rep (nodes (put_pc_opt h1 (ptr c2) (tag (par k2) Black))) s (plug k2 (paint Black c2)).
Proof.
  intros Hk2 Hl Hr Hnd Hv Hx h1. assert (Hne : k2 ≠ []) by (subst k2; by destruct k3).
  pose proof (spine_ok h n k2 cs s c2 Hne Hl Hr Hnd Hv) as Hsp.
  assert (HW : ∃ t, plug k2 (paint Black c2) = T cx t x sx) by (rewrite Hk2, plug_app; simpl; eauto).
  assert (He : elems (plug k2 (paint Black c2)) ≡ₚ celems k2 ++ elems c2) by (by rewrite elems_plug, elems_paint).
  destruct HW as [t HW]. rewrite HW in *. unpack Hnd Hv. subst h1.
  eapply rep_moved; [exact Hsp| | |].
  - rewrite He. by apply nodup_apart.
  - intros z Hz Hzx. apply put_pc_opt_cong. rewrite put_pc_ne by done. apply put_child_ne.
    rewrite He in Hz. apply elem_of_app in Hz as [Hz|Hz]; ne.
  - intros _. cbn [ptr root_color]. split_and!; fields; done.
Qed.

(** The search for a successor below the right child [x]. *)
Lemma far_search_ok fuel h n k3 cx x sx cs s c2 :
  let k2 := k3 ++ [Fr L cx x sx] in
  rep (nodes h) n (plug k2 (T cs E s c2)) → Forall valid (elems (plug k2 (T cs E s c2))) → leftward k2 →
  (length k2 < fuel)%nat →
  nodes h s = MkNode (tag (par k2) cs) (ptr c2) 0 ∧ __rb_parent_color (nodes h x) = tag n cx ∧
  rb_left (nodes h x) ≠ 0 ∧ successor_loop fuel h x x (rb_left (nodes h x)) = Ok (par k2, s).
Proof.
  intros k2 Hr Hv Hk2 Hf. pose proof (rep_hole _ _ _ _ Hr) as (Hs & _).
  replace (par_or k2 n) with (par k2) in Hs by (subst k2; by destruct k3). split; [done|].
  subst k2. rewrite plug_app in Hr, Hv. simpl in Hr, Hv. destruct Hr as (Hx & Hr & _). rewrite Hx. simpl.
  split; [done|]. apply Forall_app in Hv as [Hv _]. split.
  - apply (in_valid _ _ Hv), ptr_plug_ne.
  - apply Forall_app in Hk2 as [Hk3 _]. rewrite length_app in Hf. simpl in Hf.
    rewrite (successor_loop_ok k3 fuel h x); [|done..|lia]. by destruct k3.
Qed.

(** The successor is below the right child [x]. *)
Lemma erase_two_far_ok fuel h k c l n k3 cx x sx cs s c2 :
  let k2 := k3 ++ [Fr L cx x sx] in
  holds h k (T c l n (plug k2 (T cs E s c2))) → l ≠ E → leftward k2 → (length k2 < fuel)%nat →
  ∃ h', erase_two fuel h n x = Ok (h', reb_of c2 cs (par k2)) ∧ holds h' k (T c l s (plug k2 (paint Black c2))).
Proof.
  intros k2 Hh Hl Hk2 Hf. pose proof Hh as (Hrep & Hk & Hnd & Hv).
  change (T c l n (plug k2 (T cs E s c2))) with (mk L c l n (plug k2 (T cs E s c2))) in *.
  open_tree. rewrite elems_mk in Hnd, Hv. pose proof Hv as [_ [_ [_ Hvr]%Forall_app]%list.Forall_cons]%Forall_app.
  destruct (far_search_ok fuel h n k3 cx x sx cs s c2) as (Hs & Hxn & Hx0 & Hloop); [done..|]. fold k2 in Hs, Hloop.
  rewrite elems_plug in Hnd, Hv. simpl in Hnd, Hv.
  assert (Hp : par k2 ∈ celems k2) by (subst k2; clear; destruct k3; simpl; set_solver).
  assert (Hx : x ∈ celems k2) by (subst k2; clear; induction k3; simpl; set_solver).
  pose proof Hnd as (_ & _ & [_ (_ & _ & Hnd2)%NoDup_app]%NoDup_cons)%NoDup_app.
  pose proof Hv as [_ [_ [_ Hv2]%Forall_app]%list.Forall_cons]%Forall_app.
  pose proof (far_subtree_ok h n k2 k3 cx x sx cs s c2 eq_refl Hk2 H3 Hnd2 Hv2 Hx) as Hsub. clear Hnd2 Hv2.
  assert (HpW : ptr (plug k2 (paint Black c2)) = x) by (subst k2; by rewrite plug_app).
  clearbody k2. unpack Hnd Hv.
  unfold erase_two. run. rewrite (proj2 (Z.eqb_neq _ _) Hx0), Hloop. run.
  rewrite (set_parent_ok x n s cx) by (rewrite ?put_child_ne, ?pc_put_child_any by ne; done || nz || by apply valid_aligned).
  run. rewrite Hs. cbn [rb_right].
  eapply (erase_splice_ok _ k c l n s cs (par k2) (plug k2 (paint Black c2)) c2 (par k2)); try done.
  - keep_path Hk.
  - known. done.
  - known. done.
  - keep H2.
  - known. by rewrite Hs.
  - apply valid_aligned, (proj1 (list.Forall_forall valid (celems k2))); done.
  - known. done.
  - intros z Hz. rewrite elems_plug, elems_paint. set_solver.
  - rewrite elems_plug, elems_paint. same_addresses Hnd.
  - rewrite elems_plug, elems_paint. same_addresses Hv.
Qed.

(** The address of a frame does not matter to the colours. *)
Lemma crb_swap k2 d c p p' s k m : crb (k2 ++ Fr d c p s :: k) m → crb (k2 ++ Fr d c p' s :: k) m.
Proof.
  revert m. induction k2 as [|f k2 IH]; intros m; simpl; [done|]. intros [Hs Hk]. split; [done|].
  destruct (fc f); [|by apply IH]. destruct Hk as (Hb & Hk & Ht). split; [done|]. split; [by apply IH|].
  by destruct k2.
Qed.

(** Unlinking a node with two children. *)
Lemma erase_two_unlinked fuel h k c l n r :
  holds h k (T c l n r) → rbtree (plug k (T c l n r)) → l ≠ E → r ≠ E → (height r < fuel)%nat →
  ∃ K t, unlinked (__rb_erase_augmented fuel h n) K t ∧ elems (plug K t) = cbefore k ++ elems l ++ elems r ++ cafter k ∧
    (length K ≤ length k + height (T c l n r))%nat.
Proof.
  intros Hh Ht Hl Hr Hf. destruct (leftmost_view r Hr) as (k2 & cs & s & c2 & -> & Hk2).
  pose proof (length_le_height k2 (T cs E s c2)) as Hlen.
  exists (k2 ++ Fr R c s l :: k), (paint Black c2). split; [|split].
  - assert (∃ h', erase_two fuel h n (ptr (plug k2 (T cs E s c2))) = Ok (h', reb_of c2 cs (par_or k2 s)) ∧
      holds h' k (T c l s (plug k2 (paint Black c2)))) as (h' & Hrun & Hh').
    { destruct k2 as [|[d cx x sx] k3 _] using rev_ind; [by apply erase_two_near_ok|].
      pose proof Hk2 as [_ [Hd _]%list.Forall_cons]%Forall_app. simpl in Hd. subst d.
      replace (par_or (k3 ++ [Fr L cx x sx]) s) with (par (k3 ++ [Fr L cx x sx])) by (by destruct k3).
      replace (ptr (plug (k3 ++ [Fr L cx x sx]) (T cs E s c2))) with x by (by rewrite plug_app).
      apply erase_two_far_ok; [done..|]. simpl in Hlen. lia. }
    destruct (plug_rb_inv (k2 ++ Fr R c n l :: k) (T cs E s c2)) as (m & Hc & Hm & _); [by rewrite plug_app|].
    apply (unlinked_hole _ h' _ L cs s c2 m); [| |by eapply crb_swap|done].
    + destruct Hh as ((Hn & Hrl & Hrr) & _ & _ & Hv). simpl in Hv. unpack_all.
      pose proof (ptr_elem l Hl). pose proof (ptr_plug_ne k2 cs E s c2).
      unfold __rb_erase_augmented. run. rewrite Hn. cbn [rb_left rb_right].
      rewrite (proj2 (Z.eqb_neq (ptr l) 0)) by nz.
      rewrite (proj2 (Z.eqb_neq (ptr (plug k2 (T cs E s c2))) 0)) by nz. rewrite Hrun. by destruct k2.
    + apply holds_plug. rewrite plug_app. simpl. by apply holds_plug.
  - rewrite plug_app. simpl. rewrite !elems_plug_seq. simpl. rewrite !elems_plug_seq, elems_paint.
    rewrite (leftward_first k2 Hk2). in_order.
  - rewrite length_app. simpl in *. lia.
Qed.

(** Unlinking a node. *)
Lemma erase_augmented_ok fuel h k c l n r :
  holds h k (T c l n r) → rbtree (plug k (T c l n r)) → (height r < fuel)%nat →
  ∃ K t, unlinked (__rb_erase_augmented fuel h n) K t ∧ elems (plug K t) = cbefore k ++ elems l ++ elems r ++ cafter k ∧
    (length K ≤ length k + height (T c l n r))%nat.
Proof.
  intros Hh Ht Hf. pose proof (plug_rb_inv _ _ Ht) as (m & Hk & Hm & _).
  destruct l as [|cl ll pl rl]; [|destruct r as [|cr lr pr rr]].
  - exists k, (paint Black r). split; [by apply (erase_no_left_ok fuel h k c n r m)|].
    rewrite elems_plug_seq, elems_paint. simpl. split; [done|lia].
  - exists k, (paint Black (T cl ll pl rl)). split; [by apply (erase_no_right_ok fuel h k c _ n m)|].
    rewrite elems_plug_seq, elems_paint. split; [done|]. simpl. lia.
  - by apply erase_two_unlinked.
Qed.

(** Every node of a tree is at the end of a path. *)
Lemma path_to n t : n ∈ elems t → ∃ k c l r, t = plug k (T c l n r).
Proof.
  induction t as [|c l IHl p r IHr]; simpl; [by intros ?%elem_of_nil|].
  intros [Hl|[->|Hr]%elem_of_cons]%elem_of_app.
  - destruct (IHl Hl) as (k & c' & l' & r' & ->). exists (k ++ [Fr L c p r]), c', l', r'. by rewrite plug_app.
  - by exists [], c, l, r.
  - destruct (IHr Hr) as (k & c' & l' & r' & ->). exists (k ++ [Fr R c p l]), c', l', r'. by rewrite plug_app.
Qed.

Lemma rb_erase_ok fuel h t n :
  repr h t → rbtree t → n ∈ elems t → (depth (length (elems t)) < fuel)%nat →
  ∃ h' t' A B, rb_erase fuel h n = Ok h' ∧ repr h' t' ∧ rbtree t' ∧ elems t = A ++ n :: B ∧ elems t' = A ++ B.
Proof.
  intros Hh Ht Hn Hf. destruct (path_to n t Hn) as (k & c & l & r & ->).
  pose proof (rbtree_height _ Ht) as Hht. pose proof (length_le_height k (T c l n r)) as Hlen.
  apply holds_plug in Hh.
  destruct (erase_augmented_ok fuel h k c l n r Hh Ht) as (K & t1 & Hu & He & HK); [simpl in *; lia|].
  assert (Hres : rebalanced (rb_erase fuel h n) (plug K t1)).
  { unfold rb_erase. destruct Hu as (h' & reb & -> & Hh' & [[-> Hrb]|(-> & HKn & -> & Hc)]); cbn [mbind outcome_bind].
    - exists h', (plug K t1). split; [done|]. split; [by apply holds_plug|done].
    - pose proof Hh' as (_ & _ & _ & Hv). destruct K as [|f K]; [done|]. simpl in Hv. unpack_all.
      simpl. rewrite (proj2 (Z.eqb_neq (fp f) 0)) by nz. simpl.
      apply (erase_loop_ok fuel h' (f :: K) E 0); [lia|done..]. }
  destruct Hres as (h' & t' & Hrun & Hh' & Hrb & He').
  exists h', t', (cbefore k ++ elems l), (elems r ++ cafter k). split; [done|]. split; [done|]. split; [done|].
  rewrite He', He, elems_plug_seq. split; in_order.
Qed.

(** C13: erasing a node of a red-black tree never dereferences NULL, ends within
    [depth] iterations of each loop, and leaves a red-black tree with the other
    nodes in the same order. *)
Theorem rb_erase_correct fuel h t n :
  repr h t → rbtree t → n ∈ elems t → (depth (length (elems t)) < fuel)%nat →
  ∃ h' t' A B, rb_erase fuel h n = Ok h' ∧ repr h' t' ∧ rbtree t' ∧ elems t = A ++ n :: B ∧ elems t' = A ++ B.
Proof. apply rb_erase_ok. Qed.

(** The root of the sample tree, with two children. *)
Lemma rb_erase_correct_witness :
  ∃ h' t' A B, rb_erase 5 sample_heap 8 = Ok h' ∧ repr h' t' ∧ rbtree t' ∧
    elems sample_tree = A ++ 8 :: B ∧ elems t' = A ++ B.
Proof.
  apply (rb_erase_correct 5 sample_heap sample_tree 8).
  - exact sample_repr.
  - exact sample_rbtree.
  - apply (bool_decide_unpack _); vm_compute; exact I.
  - by apply Nat.ltb_lt.
Defined.

End RbtreeUnlink.
