(* ===== verification/RbtreeWalk.v ===== *)
(** * Red-black trees: traversal and replacement

    [rb_first], [rb_last], [rb_next] and [rb_prev] visit the nodes in order,
    [rb_first_postorder] and [rb_next_postorder] children first, and
    [rb_replace_node] puts another node in the place of one. *)

From stdpp Require Import base numbers list option sets.
From Stdlib Require Import ZArith Lia.
From S2P Require Import Prelude Rbtree RbtreeSpec RbtreeHeap RbtreeUnlink.

Open Scope Z_scope.

Module RbtreeWalk.
Import Rbtree RbtreeSpec RbtreeHeap RbtreeUnlink.

(** The first address of a sequence, or NULL. *)
Definition first (l : list Z) : Z := match l with [] => 0 | x :: _ => x end.

(** A sequence in the direction [d]: [R] is that of [rb_next]. *)
Definition along (d : side) (l : list Z) : list Z := match d with R => l | L => reverse l end.

(** The nodes past the hole of a path in the direction [d]. *)
Definition past (d : side) (k : list frame) : list Z := match d with R => cafter k | L => reverse (cbefore k) end.

Lemma along_mk d c a p b : along d (elems (mk d c a p b)) = along d (elems b) ++ p :: along d (elems a).
Proof. destruct d; simpl; [by rewrite reverse_app, reverse_cons, <- app_assoc|done]. Qed.

Lemma past_cons d f k :
  past d (f :: k) =
  if decide (fd f = d) then past d k else fp f :: along d (elems (fs f)) ++ past d k.
Proof.
  destruct d, (fd f) eqn:Hf; simpl; rewrite Hf; simpl; try done.
  by rewrite !reverse_app, reverse_singleton, <- app_assoc.
Qed.

(** ** In order *)

Lemma rb_descend_ok e t : ∀ fuel h q,
  rep (nodes h) q t → t ≠ E → Forall valid (elems t) → (height t ≤ fuel)%nat →
  rb_descend fuel e h (ptr t) = Ok (first (along (opp e) (elems t))).
Proof.
  induction t as [|c l IHl p r IHr]; intros fuel h q Hr Hn Hv Hf; [done|].
  destruct fuel as [|fuel]; [simpl in Hf; lia|].
  assert (∃ a b, T c l p r = mk e c a p b ∧ ∀ fuel h q, rep (nodes h) q a → a ≠ E → Forall valid (elems a) →
    (height a ≤ fuel)%nat → rb_descend fuel e h (ptr a) = Ok (first (along (opp e) (elems a)))) as (a & b & Ht & IH)
    by (destruct e; [by exists l, r|by exists r, l]).
  rewrite Ht in *. clear Ht IHl IHr. apply rep_mk in Hr as (_ & Ha & _ & Hra & _).
  rewrite <- (mk_opp e c b p a), along_mk, mk_opp, ptr_mk. rewrite elems_mk in Hv. rewrite height_mk in Hf. unpack_all.
  cbn [rb_descend]. run. rewrite Ha. destruct a as [|ca al pa ar]; [by destruct e|].
  pose proof (ptr_elem (T ca al pa ar) ltac:(done)) as Hin. rewrite (proj2 (Z.eqb_neq (ptr (T ca al pa ar)) 0)) by nz.
  simpl negb. cbv iota. rewrite (IH fuel h p) by (done || lia). f_equal.
  destruct (along (opp e) (elems (T ca al pa ar))) eqn:Hal; [|done].
  apply (f_equal length) in Hal. destruct e; simpl in Hal; rewrite ?length_reverse, length_app in Hal; simpl in Hal; lia.
Qed.

Lemma rb_ascend_ok d k : ∀ fuel h t,
  holds h k t → t ≠ E → (length k < fuel)%nat → rb_ascend fuel d h (ptr t) = Ok (first (past d k)).
Proof.
  induction k as [|[e c p s] k IH]; intros fuel h t Hh Hn Hf; (destruct fuel as [|fuel]; [lia|]); cbn [rb_ascend];
    pose proof Hh as (Hrep & Hk & Hnd & Hv); pose proof (ptr_elem t Hn) as Hp; unpack Hnd Hv; run;
    (destruct t as [|ct l n r]; [done|]); destruct Hrep as (Hnode & _); cbn [ptr]; rewrite Hnode; unfold rb_parent; cbn [__rb_parent_color];
    rewrite parent_tag.
  - by destruct d.
  - done.
  - simpl in *. unpack_all. destruct Hk as (_ & Hc & Ho & _).
    rewrite (proj2 (Z.eqb_neq p 0)) by nz. run. rewrite past_cons. simpl.
    destruct (decide (e = d)) as [->|Hed].
    + rewrite Hc, Z.eqb_refl. apply holds_up in Hh. rewrite <- (IH fuel h _ Hh); [by rewrite ptr_mk|by destruct d|lia].
    + assert (opp e = d) as He by (by destruct d, e). rewrite He in Ho. rewrite Ho.
      rewrite (proj2 (Z.eqb_neq n (ptr s))); [done|]. apply notin_ptr; [notin|nz].
  - by apply (par_aligned (Fr e c p s :: k)).
Qed.

(** The neighbour in the direction [d] of the node at the end of a path. *)
Lemma neighbour_ok fuel d h k c l n r :
  holds h k (T c l n r) → (length k + height (T c l n r) < fuel)%nat →
  neighbour fuel d h n = Ok (first (along d (elems (match d with L => l | R => r end)) ++ past d k)).
Proof.
  intros Hh Hf. destruct (mk_view d c l n r) as (a & b & Ht). rewrite Ht in Hh, Hf. rewrite height_mk in Hf.
  replace (match d with L => l | R => r end) with a by (destruct d; simpl in Ht; congruence). clear Ht l r.
  pose proof Hh as (Hrep & Hk & Hnd & Hv). open_tree. rewrite elems_mk in Hnd, Hv. unpack Hnd Hv.
  pose proof (par_aligned k ltac:(assumption)) as Hal. unfold neighbour, RB_EMPTY_NODE. run. known.
  rewrite (proj2 (Z.eqb_neq (tag (par k) c) n)).
  - destruct a as [|ca al pa ar].
    + replace (along d (elems E)) with (@nil Z) by (by destruct d). change (negb (ptr E =? 0)) with false. cbn [app].
      rewrite <- (rb_ascend_ok d k fuel h (mk d c E n b)); [by rewrite ptr_mk|done|by destruct d|lia].
    + pose proof (ptr_elem (T ca al pa ar) ltac:(done)) as Hin.
      rewrite (proj2 (Z.eqb_neq (ptr (T ca al pa ar)) 0)) by nz. simpl negb. cbv iota.
      rewrite (rb_descend_ok _ _ fuel h n), opp_opp; [|done..|lia]. f_equal.
      destruct (along d (elems (T ca al pa ar))) eqn:Hal'; [|done].
      apply (f_equal length) in Hal'. destruct d; simpl in Hal'; rewrite ?length_reverse, length_app in Hal'; simpl in Hal'; lia.
  - intros Htag. assert (par k = n) as Hpn.
    { rewrite <- (parent_tag (par k) c), Htag, <- (tag_red n) at 1 by done. by apply parent_tag, valid_aligned. }
    destruct k as [|f k]; simpl in Hpn; [by apply (valid_ne n)|]. simpl in *. unpack_all. congruence.
Qed.

(** ** Children first *)

Fixpoint post (t : tree) : list Z := match t with E => [] | T _ l p r => post l ++ post r ++ [p] end.

Fixpoint cpost (k : list frame) : list Z :=
  match k with
  | [] => []
  | f :: k => match fd f with L => post (fs f) ++ fp f :: cpost k | R => fp f :: cpost k end
  end.

Lemma post_plug k : ∀ t, ∃ A, post (plug k t) = A ++ post t ++ cpost k.
Proof.
  induction k as [|[d c p s] k IH]; intros t; simpl; [exists []; by rewrite app_nil_r|].
  destruct (IH (mk d c t p s)) as [A HA]. rewrite HA.
  destruct d; simpl; [exists A|exists (A ++ post s)]; repeat (rewrite <- app_assoc; simpl); done.
Qed.

Lemma post_first_ne t t' : t ≠ E → first (post t ++ t') = first (post t).
Proof. 
  destruct t as [|c l p r]; [done|]. intros _. simpl. destruct (post l); [|done]. by destruct (post r).
Qed.

Lemma left_deepest_ok t : ∀ fuel h q,
  rep (nodes h) q t → t ≠ E → Forall valid (elems t) → (height t ≤ fuel)%nat →
  rb_left_deepest_node fuel h (ptr t) = Ok (first (post t)).
Proof.
  induction t as [|c l IHl p r IHr]; intros fuel h q Hr Hn Hv Hf; [done|].
  destruct fuel as [|fuel]; [simpl in Hf; lia|]. destruct Hr as (Hp & Hl & Hr). simpl in Hv, Hf. unpack_all.
  cbn [ptr rb_left_deepest_node]. run. rewrite Hp. cbn [rb_left rb_right post].
  destruct l as [|cl ll pl rl].
  - simpl (ptr E). simpl negb. cbv iota. destruct r as [|cr lr pr rr]; [done|].
    pose proof (ptr_elem (T cr lr pr rr) ltac:(done)) as Hin.
    rewrite (proj2 (Z.eqb_neq (ptr (T cr lr pr rr)) 0)) by nz. simpl negb. cbv iota.
    rewrite (IHr fuel h p), <- (post_first_ne _ [p]) by (done || lia). done.
  - pose proof (ptr_elem (T cl ll pl rl) ltac:(done)) as Hin.
    rewrite (proj2 (Z.eqb_neq (ptr (T cl ll pl rl)) 0)) by nz. simpl negb. cbv iota.
    rewrite (IHl fuel h p), <- (post_first_ne _ (post r ++ [p])) by (done || lia). done.
Qed.

Lemma next_postorder_ok fuel h k c l n r :
  holds h k (T c l n r) → (height (plug k (T c l n r)) ≤ fuel)%nat → rb_next_postorder fuel h n = Ok (first (cpost k)).
Proof.
  intros Hh Hf. pose proof Hh as ((Hn & _) & Hk & Hnd & Hv). simpl in Hnd, Hv. unpack Hnd Hv.
  unfold rb_next_postorder. rewrite (proj2 (Z.eqb_neq n 0)) by nz. run. rewrite Hn. unfold rb_parent. cbn [__rb_parent_color].
  rewrite parent_tag by (by apply par_aligned). destruct k as [|[d cp p s] k]; [done|]. simpl in *. unpack_all.
  rewrite (proj2 (Z.eqb_neq p 0)) by nz. run. destruct Hk as (_ & Hc & Ho & Hs & _). destruct d; simpl in Hc, Ho; rewrite Hc, Ho.
  - rewrite Z.eqb_refl. simpl. destruct s as [|cs ls ps rs]; [done|].
    pose proof (ptr_elem (T cs ls ps rs) ltac:(done)) as Hin.
    rewrite (proj2 (Z.eqb_neq (ptr (T cs ls ps rs)) 0)) by nz. simpl negb. cbv iota.
    pose proof (length_le_height k (T cp (T c l n r) p (T cs ls ps rs))).
    rewrite (left_deepest_ok _ fuel h p) by (done || (simpl in *; lia)). by rewrite post_first_ne.
  - rewrite (proj2 (Z.eqb_neq n (ptr s))); [done|]. apply notin_ptr; [notin|nz].
Qed.

Lemma nodup_split (n : Z) A : ∀ A' B B',
  A ++ n :: B = A' ++ n :: B' → NoDup (A ++ n :: B) → A = A' ∧ B = B'.
Proof.
  induction A as [|x A IH]; intros [|x' A'] B B' Heq Hnd; simpl in *; simplify_eq; auto; apply NoDup_cons in Hnd as [Hx Hnd].
  - destruct Hx. apply elem_of_app. right. left.
  - destruct Hx. apply elem_of_app. right. left.
  - destruct (IH A' B B') as [-> ->]; auto.
Qed.

Lemma post_elems t : post t ≡ₚ elems t.
Proof.
  induction t as [|c l IHl p r IHr]; simpl; [done|]. rewrite IHl, IHr. apply Permutation_app_head.
  by rewrite Permutation_app_comm.
Qed.

(** The ends of the sequence. *)
Lemma rb_ends_ok fuel h t e :
  repr h t → (height t ≤ fuel)%nat →
  (if root h =? 0 then Ok 0 else rb_descend fuel e h (root h)) = Ok (first (along (opp e) (elems t))).
Proof.
  intros (Hroot & Hrep & Hnd & Hv) Hf. rewrite Hroot.
  destruct (Z.eqb_spec (ptr t) 0) as [H0%ptr_0|H0]; [subst t; by destruct e|done|].
  apply (rb_descend_ok e t fuel h 0); [done| |done|lia]. by intros ->.
Qed.

(** The neighbours of a node. *)
Lemma rb_neighbours_ok fuel h t A n B :
  repr h t → (height t < fuel)%nat → elems t = A ++ n :: B →
  rb_next fuel h n = Ok (first B) ∧ rb_prev fuel h n = Ok (first (reverse A)).
Proof.
  intros Hh Hf Ht. pose proof Hh as (_ & _ & Hnd & _).
  destruct (path_to n t) as (k & c & l & r & ->); [rewrite Ht; set_solver|].
  pose proof (length_le_height k (T c l n r)). apply holds_plug in Hh. rewrite elems_plug_seq in Ht, Hnd.
  assert (cbefore k ++ elems (T c l n r) ++ cafter k = (cbefore k ++ elems l) ++ n :: (elems r ++ cafter k)) as He by in_order.
  rewrite He in Ht, Hnd. destruct (nodup_split _ _ _ _ _ Ht Hnd) as [<- <-].
  unfold rb_next, rb_prev. rewrite !(neighbour_ok fuel _ h k c l n r) by (done || lia). simpl. by rewrite reverse_app.
Qed.

(** On a heap that represents a tree, with fuel above its height,
    [rb_first] and [rb_last] return the ends of the in-order sequence,
    [rb_next] and [rb_prev] the neighbours of a node in it, and
    [rb_first_postorder] and [rb_next_postorder] run through the sequence with
    children first; NULL is returned past the ends. *)
Theorem rb_walk_correct fuel h t :
  repr h t → (height t < fuel)%nat →
  (rb_first fuel h = Ok (first (elems t)) ∧ rb_last fuel h = Ok (first (reverse (elems t)))) ∧
  (∀ A n B, elems t = A ++ n :: B → rb_next fuel h n = Ok (first B) ∧ rb_prev fuel h n = Ok (first (reverse A))) ∧
  rb_first_postorder fuel h = Ok (first (post t)) ∧
  (∀ A n B, post t = A ++ n :: B → rb_next_postorder fuel h n = Ok (first B)).
Proof.
  intros Hh Hf. pose proof Hh as (Hroot & Hrep & Hnd & Hv).
  split; [split; [apply (rb_ends_ok fuel h t L)|apply (rb_ends_ok fuel h t R)]; by auto with lia|]. split_and!.
  - intros A n B. by apply rb_neighbours_ok.
  - unfold rb_first_postorder. rewrite Hroot. destruct (Z.eqb_spec (ptr t) 0) as [H0%ptr_0|H0]; [by subst t|done|].
    apply (left_deepest_ok t fuel h 0); [done| |done|lia]. by intros ->.
  - intros A n B Ht. pose proof (post_elems t) as Hp.
    destruct (path_to n t) as (k & c & l & r & ->); [rewrite <- Hp, Ht; set_solver|].
    rewrite <- Hp in Hnd. apply holds_plug in Hh. destruct (post_plug k (T c l n r)) as [A' HA]. rewrite HA in Ht, Hnd.
    assert (A' ++ post (T c l n r) ++ cpost k = (A' ++ post l ++ post r) ++ n :: cpost k) as He by in_order.
    rewrite He in Ht, Hnd. destruct (nodup_split _ _ _ _ _ Ht Hnd) as [_ <-].
    apply (next_postorder_ok fuel h k c l n r); [done|lia].
Qed.

(** The sample tree, from [rb_first] and around its root. *)
Lemma rb_walk_correct_witness :
  (rb_first 3 sample_heap = Ok 4 ∧ rb_last 3 sample_heap = Ok 12) ∧
  (∀ A n B, elems sample_tree = A ++ n :: B →
     rb_next 3 sample_heap n = Ok (first B) ∧ rb_prev 3 sample_heap n = Ok (first (reverse A))) ∧
  rb_first_postorder 3 sample_heap = Ok 4 ∧
  (∀ A n B, [4; 12; 8] = A ++ n :: B → rb_next_postorder 3 sample_heap n = Ok (first B)).
Proof. apply (rb_walk_correct 3 sample_heap sample_tree); [exact sample_repr|by apply Nat.ltb_lt]. Defined.

(** ** Replacement *)

(** The links of the neighbours, once the node was copied. *)
Lemma replace_links_ok h k c l v r new :
  crep h v k → rep (nodes h) v l → rep (nodes h) v r → nodes h new = MkNode (tag (par k) c) (ptr r) (ptr l) →
  NoDup (celems k ++ new :: v :: elems l ++ elems r) → Forall valid (celems k ++ new :: v :: elems l ++ elems r) →
  ∃ h', (h ← if_node (ptr l) (rb_set_parent (ptr l) new) h;
         h ← if_node (ptr r) (rb_set_parent (ptr r) new) h;
         __rb_change_child v new (par k) h) = Ok h' ∧ holds h' k (T c l new r).
Proof.
  intros Hk Hl Hr Hn Hnd Hv. unpack Hnd Hv.
  rewrite (if_node_parent_ok h v l new) by (done || by apply valid_aligned). run.
  rewrite (if_node_parent_ok _ v r new); [|keep Hr|by apply valid_aligned|done]. run.
  match goal with |- context [__rb_change_child v new _ ?h3] =>
    destruct (change_child_ok h3 k v new) as (h' & -> & Hk' & Hag); [keep_path Hk|nz|done..|] end.
  exists h'. split; [done|]. split; [|split; [done|split]].
  - cbn [rep]. split_and!.
    + rewrite Hag by done. fields. done.
    + eapply rep_moved; [exact Hl|done| |].
      * intros z Hz Hzn. rewrite Hag by notin. fields. done.
      * intros Hz%ptr_elem. rewrite Hag by notin. split_and!; fields; done.
    + eapply rep_moved; [exact Hr|done| |].
      * intros z Hz Hzn. rewrite Hag by notin. fields. done.
      * intros Hz%ptr_elem. rewrite Hag by notin. split_and!; fields; done.
  - change (T c l new r) with (mk L c l new r). dropped v Hnd.
  - change (T c l new r) with (mk L c l new r). dropped v Hv.
Qed.

Lemma replace_node_ok h k c l v r new :
  holds h k (T c l v r) → valid new → new ∉ celems k ++ elems (T c l v r) →
  ∃ h', rb_replace_node h v new = Ok h' ∧ holds h' k (T c l new r).
Proof.
  intros ((Hn & Hl & Hr) & Hk & Hnd & Hv) Hnew Hni.
  assert (Hnd2 : NoDup (celems k ++ new :: v :: elems l ++ elems r)) by
    (refine (nodup_perm _ (new :: celems k ++ elems (T c l v r)) _ _); [simpl; solve_Permutation|by constructor]).
  assert (Hv2 : Forall valid (celems k ++ new :: v :: elems l ++ elems r)) by
    (refine (valid_perm _ (new :: celems k ++ elems (T c l v r)) _ _); [simpl; solve_Permutation|by constructor]).
  set (h1 := put h new (nodes h v)).
  assert (Hput : ∀ z, z ≠ new → nodes h1 z = nodes h z)
    by (intros z Hz; unfold h1, put, upd_node; simpl; by rewrite (proj2 (Z.eqb_neq z new) Hz)).
  destruct (replace_links_ok h1 k c l v r new) as (h' & Hrun & Hh'); [.. |done|done|]; [| | | |exists h'; split; [|done]];
    unpack Hnd2 Hv2.
  - eapply crep_agree; [| |exact Hk]; [done|]. intros z Hz. apply Hput. ne.
  - eapply rep_agree; [|exact Hl]. intros z Hz. apply Hput. ne.
  - eapply rep_agree; [|exact Hr]. intros z Hz. apply Hput. ne.
  - unfold h1, put, upd_node. simpl. by rewrite Z.eqb_refl.
  - rewrite <- Hrun. unfold rb_replace_node. run. rewrite (proj2 (Z.eqb_neq new 0)) by nz. unfold rb_parent.
    fold h1. rewrite Hn. cbn [__rb_parent_color rb_left rb_right]. by rewrite parent_tag by (by apply par_aligned).
Qed.

Lemma rb_replace_ok h t v new A B :
  repr h t → elems t = A ++ v :: B → valid new → new ∉ elems t →
  ∃ h' t', rb_replace_node h v new = Ok h' ∧ repr h' t' ∧ elems t' = A ++ new :: B ∧ (rbtree t → rbtree t').
Proof.
  intros Hh Ht Hnew Hni. pose proof Hh as (_ & _ & Hnd & _).
  destruct (path_to v t) as (k & c & l & r & ->); [rewrite Ht; set_solver|]. rewrite elems_plug_seq in Ht, Hnd.
  assert (∀ x, cbefore k ++ elems (T c l x r) ++ cafter k = (cbefore k ++ elems l) ++ x :: (elems r ++ cafter k)) as He
    by (intros; in_order).
  rewrite He in Ht, Hnd. destruct (nodup_split _ _ _ _ _ Ht Hnd) as [<- <-].
  apply holds_plug in Hh. rewrite elems_plug in Hni.
  destruct (replace_node_ok h k c l v r new) as (h' & Hrun & Hh'); [done..|].
  exists h', (plug k (T c l new r)). split; [done|]. split; [by apply holds_plug|].
  split; [by rewrite elems_plug_seq, He|]. intros (m & Hk & Hm & Hc)%plug_rb_inv. by apply (plug_rbtree k _ m).
Qed.

(** [rb_replace_node] puts the new node in the place of the victim: the
    order and the colours of the tree are kept. *)
Theorem rb_replace_correct h t v new A B :
  repr h t → elems t = A ++ v :: B → valid new → new ∉ elems t →
  ∃ h' t', rb_replace_node h v new = Ok h' ∧ repr h' t' ∧ elems t' = A ++ new :: B ∧ (rbtree t → rbtree t').
Proof. apply rb_replace_ok. Qed.

Lemma rb_replace_correct_witness :
  ∃ h' t', rb_replace_node sample_heap 8 20 = Ok h' ∧ repr h' t' ∧ elems t' = [4; 20; 12] ∧ (rbtree sample_tree → rbtree t').
Proof.
  apply (rb_replace_correct sample_heap sample_tree 8 20 [4] [12]).
  - exact sample_repr.
  - done.
  - done.
  - apply (bool_decide_unpack _); vm_compute; exact I.
Defined.

End RbtreeWalk.
