(* ===== verification/Timerqueue.v ===== *)
(** * Timer queues

    src/timerqueue/src/timerqueue.c and src/include/linux/timerqueue.h: timers
    ordered by expiry in a red-black tree with the first one cached. The queue
    refines a list of timers sorted by expiry, first come first served among
    timers that expire together. *)

From stdpp Require Import base numbers list option sets sorting.
From Stdlib Require Import ZArith Lia.
From S2P Require Import Prelude Rbtree RbtreeSpec RbtreeHeap RbtreeInsert RbtreeUnlink RbtreeWalk.

Open Scope Z_scope.

Module Timerqueue.
Import Rbtree RbtreeSpec RbtreeHeap RbtreeInsert RbtreeUnlink RbtreeWalk.

(** The head, and the [expires] fields of the timers by address of their tree
    node. *)
Record timerqueue := MkQueue { tq_head : rb_root_cached; expires : Z → Z }.

(** [*p] for a link [p]: the child pointer of [parent] on side [d], or the root
    pointer when [parent] is NULL. *)
Definition deref (h : heap) (parent : Z) (d : side) : outcome Z :=
  if parent =? 0 then Ok (root h) else pn ← load h parent; Ok (child d pn).

(** The loop of [timerqueue_add]; returns [parent], [p] and [leftmost]. *)
Fixpoint add_search (fuel : nat) (q : timerqueue) (node parent : Z) (d : side) (leftmost : bool) : outcome (Z * side * bool) :=
  match fuel with
  | O => Fuel
  | S fuel =>
      p ← deref (rb_root (tq_head q)) parent d;
      if p =? 0 then Ok (parent, d, leftmost)
      else if expires q node <? expires q p then add_search fuel q node p L leftmost
      else add_search fuel q node p R false
  end.

Definition timerqueue_add (fuel : nat) (q : timerqueue) (node : Z) : outcome (timerqueue * bool) :=
  '(parent, d, leftmost) ← add_search fuel q node 0 L true;
  h ← rb_link_node (rb_root (tq_head q)) node parent d;
  r ← rb_insert_color_cached fuel node (MkCached h (rb_leftmost (tq_head q))) leftmost;
  Ok (MkQueue r (expires q), leftmost).

Definition timerqueue_del (fuel : nat) (q : timerqueue) (node : Z) : outcome (timerqueue * bool) :=
  r ← rb_erase_cached fuel node (tq_head q);
  h ← RB_CLEAR_NODE node (rb_root r);
  Ok (MkQueue (MkCached h (rb_leftmost r)) (expires q), negb (RB_EMPTY_ROOT h)).

Definition timerqueue_iterate_next (fuel : nat) (q : timerqueue) (node : Z) : outcome Z :=
  if node =? 0 then Ok 0
  else
    next ← rb_next fuel (rb_root (tq_head q)) node;
    if next =? 0 then Ok 0 else Ok next.

Definition timerqueue_getnext (q : timerqueue) : Z := rb_first_cached (tq_head q).

Definition timerqueue_init (q : timerqueue) (node : Z) : outcome timerqueue :=
  h ← RB_CLEAR_NODE node (rb_root (tq_head q));
  Ok (MkQueue (MkCached h (rb_leftmost (tq_head q))) (expires q)).

Definition timerqueue_node_queued (q : timerqueue) (node : Z) : outcome bool :=
  empty ← RB_EMPTY_NODE (rb_root (tq_head q)) node; Ok (negb empty).

Definition timerqueue_init_head (q : timerqueue) : timerqueue :=
  MkQueue (MkCached (MkHeap (nodes (rb_root (tq_head q))) 0) 0) (expires q).

(** ** The list of timers *)

Definition sorted (e : Z → Z) (l : list Z) : Prop := StronglySorted (λ a b, e a ≤ e b) l.

(** The queue holds the timers [l], in order. *)
Definition queue_of (q : timerqueue) (l : list Z) : Prop :=
  ∃ t, repr (rb_root (tq_head q)) t ∧ rbtree t ∧ elems t = l ∧ rb_leftmost (tq_head q) = first l ∧
       sorted (expires q) l.

(** Insertion after the timers that expire no later. *)
Fixpoint insert_timer (e : Z → Z) (n : Z) (l : list Z) : list Z :=
  match l with
  | [] => [n]
  | x :: l' => if e n <? e x then n :: l else x :: insert_timer e n l'
  end.

Lemma insert_timer_split e n A B :
  Forall (λ x, e x ≤ e n) A → Forall (λ x, e n < e x) B → insert_timer e n (A ++ B) = A ++ n :: B.
Proof.
  intros HA HB. induction HA as [|x A Hx _ IH]; simpl.
  - destruct HB as [|x B Hx _]; [done|]. simpl. by rewrite (proj2 (Z.ltb_lt _ _) Hx).
  - rewrite (proj2 (Z.ltb_ge _ _) Hx). by rewrite IH.
Qed.

Lemma insert_timer_sorted e n l : sorted e l → sorted e (insert_timer e n l).
Proof.
  induction 1 as [|x l Hl IH Hx]; simpl; [repeat constructor|]. destruct (Z.ltb_spec (e n) (e x)).
  - constructor; [by constructor|]. constructor; [lia|]. eapply list.Forall_impl; [exact Hx|]. simpl. lia.
  - constructor; [done|]. clear IH Hl. induction Hx as [|y l Hy Hl IH]; simpl; [repeat constructor; lia|].
    destruct (e n <? e y); repeat constructor; done || lia.
Qed.

(** ** Adding a timer *)

Lemma deref_ok h k t d :
  holds h k t → match k with f :: _ => fd f = d | [] => True end → deref h (par k) d = Ok (ptr t).
Proof.
  intros (_ & Hk & _ & Hv) Hd. unfold deref. destruct k as [|f k]; simpl in *; [by rewrite Hk|]. subst d. unpack_all.
  rewrite (proj2 (Z.eqb_neq (fp f) 0)) by nz. run. by destruct Hk as (_ & -> & _).
Qed.

Lemma sorted_node e l p r :
  sorted e (l ++ p :: r) → sorted e l ∧ sorted e r ∧ Forall (λ x, e x ≤ e p) l ∧ Forall (λ x, e p ≤ e x) r.
Proof.
  unfold sorted. induction l as [|x l IH]; simpl.
  - intros [Hr Hp]%StronglySorted_inv. auto using SSorted_nil.
  - intros [Hl Hx]%StronglySorted_inv. destruct (IH Hl) as (H1 & H2 & H3 & H4).
    apply Forall_app in Hx as [Hx [Hp _]%list.Forall_cons]. split_and!; try done; by constructor.
Qed.

(** The search from a path [k] and a subtree [t]. *)
Lemma add_search_ok t : ∀ fuel q n k d lm,
  holds (rb_root (tq_head q)) k t → sorted (expires q) (elems t) →
  match k with f :: _ => fd f = d | [] => True end →
  Forall (λ x, expires q x ≤ expires q n) (cbefore k) → Forall (λ x, expires q n < expires q x) (cafter k) →
  lm = bool_decide (cbefore k = []) → (height t < fuel)%nat →
  ∃ k' d', add_search fuel q n (par k) d lm = Ok (par k', d', bool_decide (cbefore k' = [])) ∧
    plug k' E = plug k t ∧ match k' with f :: _ => fd f = d' | [] => True end ∧
    Forall (λ x, expires q x ≤ expires q n) (cbefore k') ∧ Forall (λ x, expires q n < expires q x) (cafter k').
Proof.
  induction t as [|c l IHl p r IHr]; intros fuel q n k d lm Hh Hs Hd Hb Ha -> Hf; (destruct fuel as [|fuel]; [lia|]);
    cbn [add_search].
  - rewrite (deref_ok _ k E d Hh Hd). exists k, d. done.
  - rewrite (deref_ok _ k _ d Hh Hd). simpl in Hs, Hf. apply sorted_node in Hs as (Hsl & Hsr & Hl & Hr).
    pose proof Hh as (_ & _ & _ & Hv). simpl in Hv. unpack_all. run. cbn [ptr].
    rewrite (proj2 (Z.eqb_neq p 0)) by nz. destruct (Z.ltb_spec (expires q n) (expires q p)) as [Hlt|Hge].
    + apply (IHl fuel q n (Fr L c p r :: k) L); try done; [by apply holds_up| |lia]. simpl. constructor; [done|].
      apply Forall_app. split; [|done]. eapply list.Forall_impl; [exact Hr|]. simpl. lia.
    + apply (IHr fuel q n (Fr R c p l :: k) R); try done; [by apply holds_up| | |lia]; simpl.
      * apply Forall_app. split; [done|]. apply Forall_app. split; [|by repeat constructor].
        eapply list.Forall_impl; [exact Hl|]. simpl. lia.
      * symmetry. apply bool_decide_eq_false. by destruct (cbefore k), (elems l).
Qed.

(** Adding a timer to the queue of [l]. *)
Lemma timerqueue_add_ok fuel q l n :
  queue_of q l → valid n → n ∉ l → (depth (length l) < fuel)%nat →
  ∃ q', timerqueue_add fuel q n = Ok (q', first (insert_timer (expires q) n l) =? n) ∧ expires q' = expires q ∧
    queue_of q' (insert_timer (expires q) n l).
Proof.
  intros (t & Hh & Ht & <- & Hlm & Hs) Hn Hni Hf. pose proof (rbtree_height t Ht) as Hht.
  destruct (add_search_ok t fuel q n [] L true) as (k & d & Hrun & Hplug & Hd & Hb & Ha); try done;
    [by apply holds_plug|lia|]. simpl in Hplug. subst t.
  destruct (rb_insert_ok fuel _ k d n Hh Ht Hn Hni Hd Hf) as (h1 & h' & t' & Hlink & Hins & Hh' & Ht' & He & He').
  assert (Hi : insert_timer (expires q) n (elems (plug k E)) = elems t') by (rewrite He, He'; by apply insert_timer_split).
  assert (Hfst : bool_decide (cbefore k = []) = (first (cbefore k ++ n :: cafter k) =? n)).
  { destruct (cbefore k) as [|x B]; cbn [app first]; [by rewrite Z.eqb_refl|].
    rewrite bool_decide_eq_false_2 by done. symmetry. apply Z.eqb_neq. intros ->. rewrite He in Hni. set_solver. }
  unfold timerqueue_add. simpl in Hrun. rewrite Hrun. cbn [mbind outcome_bind]. rewrite Hlink. cbn [mbind outcome_bind].
  unfold rb_insert_color_cached. cbn [rb_root]. rewrite Hins. cbn [mbind outcome_bind rb_leftmost].
  eexists. split; [rewrite Hi, He', <- Hfst; reflexivity|]. split; [done|].
  exists t'. split_and!; try done.
  - rewrite Hi, He'. simpl. rewrite Hlm, He. by destruct (cbefore k).
  - by apply insert_timer_sorted.
Qed.

(** ** Removing a timer *)

Lemma repr_clear h t n : repr h t → n ∉ elems t → repr (put_pc h n n) t.
Proof.
  intros (Hr & Hrep & Hnd & Hv) Hn. split; [done|]. split; [|done].
  eapply rep_agree; [|exact Hrep]. intros x Hx. apply put_pc_ne. by intros ->.
Qed.

Lemma empty_root_ok h t : repr h t → RB_EMPTY_ROOT h = bool_decide (elems t = []).
Proof.
  intros (Hr & _ & _ & Hv). unfold RB_EMPTY_ROOT. rewrite Hr. destruct t as [|c l p r]; [done|]. simpl in *. unpack_all.
  rewrite (proj2 (Z.eqb_neq p 0)) by nz. symmetry. apply bool_decide_eq_false. by destruct (elems l).
Qed.

Lemma sorted_remove e A n B : sorted e (A ++ n :: B) → sorted e (A ++ B).
Proof.
  unfold sorted. induction A as [|x A IH]; simpl; [by intros [? _]%StronglySorted_inv|].
  intros [HA Hx]%StronglySorted_inv. constructor; [by apply IH|].
  apply Forall_app in Hx as [? [_ ?]%list.Forall_cons]. by apply Forall_app.
Qed.

(** Removing the timer [n] from the queue of [A ++ n :: B]. *)
Lemma timerqueue_del_ok fuel q A n B :
  queue_of q (A ++ n :: B) → (depth (length (A ++ n :: B)) < fuel)%nat →
  ∃ q', timerqueue_del fuel q n = Ok (q', negb (bool_decide (A ++ B = []))) ∧ expires q' = expires q ∧
    queue_of q' (A ++ B) ∧ timerqueue_node_queued q' n = Ok false.
Proof.
  intros (t & Hh & Ht & He & Hlm & Hs) Hf. pose proof (rbtree_height t Ht) as Hht. rewrite He in Hht.
  pose proof Hh as (_ & _ & Hnd & Hv). rewrite He in Hnd, Hv.
  destruct (rb_erase_ok fuel _ t n Hh Ht) as (h' & t' & A' & B' & Hrun & Hh' & Ht' & He1 & He2);
    [rewrite He; set_solver|by rewrite He|]. rewrite He in He1.
  destruct (nodup_split _ _ _ _ _ He1 Hnd) as [<- <-].
  destruct (rb_neighbours_ok fuel _ t A n B Hh) as [Hnext _]; [lia|done|].
  assert (Hn0 : n ≠ 0) by (unpack_all; nz). assert (Hni : n ∉ elems t').
  { rewrite He2. apply nodup_apart in Hnd as (_ & Hap & [Hn _]%NoDup_cons). apply apart_cons in Hap as [Ha _].
    by apply not_elem_of_app. }
  pose proof (repr_clear h' t' n Hh' Hni) as Hc.
  assert (Hlm' : (if rb_leftmost (tq_head q) =? n then rb_next fuel (rb_root (tq_head q)) n else Ok (rb_leftmost (tq_head q))) =
    Ok (first (A ++ B))).
  { rewrite Hlm, Hnext. destruct A as [|x A]; cbn [app first]; [by rewrite Z.eqb_refl|].
    rewrite (proj2 (Z.eqb_neq x n)); [done|]. intros ->. apply NoDup_cons in Hnd as [[] _]. set_solver. }
  unfold timerqueue_del, rb_erase_cached, RB_CLEAR_NODE. rewrite Hlm'. cbn [mbind outcome_bind].
  rewrite Hrun. cbn [mbind outcome_bind rb_root rb_leftmost]. run.
  eexists. split; [by rewrite (empty_root_ok _ _ Hc), He2|]. split; [done|]. split.
  - exists t'. split_and!; try done. by eapply sorted_remove.
  - unfold timerqueue_node_queued, RB_EMPTY_NODE. cbn [rb_root tq_head]. run. fields. by rewrite Z.eqb_refl.
Qed.

(** ** Sequences of operations *)

Inductive tq_op := Add (n : Z) | Del (n : Z).

Definition tq_exec (fuel : nat) (q : timerqueue) (o : tq_op) : outcome (timerqueue * bool) :=
  match o with Add n => timerqueue_add fuel q n | Del n => timerqueue_del fuel q n end.

Fixpoint tq_run (fuel : nat) (q : timerqueue) (os : list tq_op) : outcome (timerqueue * list bool) :=
  match os with
  | [] => Ok (q, [])
  | o :: os => '(q, b) ← tq_exec fuel q o; '(q, bs) ← tq_run fuel q os; Ok (q, b :: bs)
  end.

(** The same on the list of timers: adding returns whether the timer is now the
    first, removing whether timers are left. *)
Definition list_exec (e : Z → Z) (l : list Z) (o : tq_op) : list Z * bool :=
  match o with
  | Add n => let l' := insert_timer e n l in (l', first l' =? n)
  | Del n => let l' := filter (λ x, x ≠ n) l in (l', negb (bool_decide (l' = [])))
  end.

Fixpoint list_run (e : Z → Z) (l : list Z) (os : list tq_op) : list Z * list bool :=
  match os with
  | [] => (l, [])
  | o :: os => let (l, b) := list_exec e l o in let (l, bs) := list_run e l os in (l, b :: bs)
  end.

(** A timer is added when it is not queued and removed when it is. *)
Definition allowed (l : list Z) (o : tq_op) : Prop :=
  match o with Add n => valid n ∧ n ∉ l | Del n => n ∈ l end.

Fixpoint all_allowed (e : Z → Z) (l : list Z) (os : list tq_op) : Prop :=
  match os with [] => True | o :: os => allowed l o ∧ all_allowed e (list_exec e l o).1 os end.

#[export] Instance allowed_dec l o : Decision (allowed l o).
Proof. destruct o; unfold allowed, valid, aligned; apply _. Defined.

#[export] Instance all_allowed_dec e l os : Decision (all_allowed e l os).
Proof. revert l. induction os as [|o os IH]; intros l; simpl; [apply _|]. specialize (IH (list_exec e l o).1). apply _. Defined.

Lemma filter_ne_id (n : Z) (l : list Z) : n ∉ l → filter (λ x, x ≠ n) l = l.
Proof.
  induction l as [|x l IH]; [done|]. intros [Hx Hl]%not_elem_of_cons. rewrite filter_cons_True by done. by rewrite IH.
Qed.

Lemma filter_ne_split (n : Z) (A B : list Z) : NoDup (A ++ n :: B) → filter (λ x, x ≠ n) (A ++ n :: B) = A ++ B.
Proof.
  intros Hnd. apply nodup_apart in Hnd as (_ & Hap & [Hn _]%NoDup_cons). apply apart_cons in Hap as [Ha _].
  rewrite list.filter_app, filter_cons_False by (by intros []).
  by rewrite !filter_ne_id.
Qed.

Lemma insert_timer_length e n l : length (insert_timer e n l) = S (length l).
Proof. induction l as [|x l IH]; simpl; [done|]. destruct (e n <? e x); simpl; [done|by rewrite IH]. Qed.

Lemma list_exec_length e l o : (length (list_exec e l o).1 ≤ S (length l))%nat.
Proof. destruct o; simpl; [by rewrite insert_timer_length|]. pose proof (length_filter (λ x, x ≠ n) l). lia. Qed.

Lemma tq_exec_ok fuel q l o :
  queue_of q l → allowed l o → (depth (length l) < fuel)%nat →
  ∃ q', tq_exec fuel q o = Ok (q', (list_exec (expires q) l o).2) ∧ expires q' = expires q ∧
    queue_of q' (list_exec (expires q) l o).1.
Proof.
  intros Hq Ha Hf. destruct o as [n|n]; simpl in *.
  - destruct Ha. by apply timerqueue_add_ok.
  - apply list_elem_of_split in Ha as (A & B & ->). pose proof Hq as (t & (_ & _ & Hnd & _) & _ & He & _). rewrite He in Hnd.
    rewrite filter_ne_split by done. destruct (timerqueue_del_ok fuel q A n B Hq Hf) as (q' & ? & ? & ? & _). eauto.
Qed.

Lemma depth_mono a b : (a ≤ b)%nat → (depth a ≤ depth b)%nat.
Proof. intros H. unfold depth. apply Nat.mul_le_mono_l, Nat.log2_le_mono. lia. Qed.

(** C21: a timer queue refines the list of its timers sorted by expiry: any
    sequence of additions of timers that are not queued and removals of queued
    ones runs to the end, returns what the list operations return, and leaves
    the queue of the resulting list. *)
Theorem timerqueue_refines os : ∀ fuel q l,
  queue_of q l → all_allowed (expires q) l os → (depth (length l + length os) < fuel)%nat →
  ∃ q', tq_run fuel q os = Ok (q', (list_run (expires q) l os).2) ∧ queue_of q' (list_run (expires q) l os).1.
Proof.
  induction os as [|o os IH]; intros fuel q l Hq Ha Hf; simpl in *; [by exists q|]. destruct Ha as [Ha Has].
  assert (depth (length l) ≤ depth (length l + S (length os)))%nat by (apply depth_mono; lia).
  destruct (tq_exec_ok fuel q l o Hq Ha) as (q1 & Hrun & He & Hq1); [lia|]. rewrite Hrun. cbn [mbind outcome_bind].
  pose proof (list_exec_length (expires q) l o). destruct (list_exec (expires q) l o) as [l1 b] eqn:Hl. simpl in *.
  rewrite <- He in Has. destruct (IH fuel q1 l1 Hq1 Has) as (q2 & Hrun2 & Hq2).
  { eapply Nat.le_lt_trans; [|exact Hf]. apply depth_mono. lia. }
  rewrite Hrun2. cbn [mbind outcome_bind]. rewrite He in Hq2 |- *. exists q2.
  destruct (list_run (expires q) l1 os) as [l2 bs]. done.
Qed.

Lemma queue_of_init q : queue_of (timerqueue_init_head q) [].
Proof. exists E. split; [by repeat split; constructor|]. split; [by split; [|exists 0%nat]|]. repeat split; constructor. Qed.

Definition sample_queue : timerqueue :=
  timerqueue_init_head (MkQueue (MkCached (MkHeap (λ x, MkNode x 0 0) 0) 0) (λ x, 100 - x)).

(** Three timers added, the first to expire removed and another added. *)
Lemma timerqueue_refines_witness :
  let os := [Add 8; Add 4; Add 12; Del 12; Add 16] in
  ∃ q', tq_run 5 sample_queue os = Ok (q', [true; false; true; true; true]) ∧ queue_of q' [16; 8; 4].
Proof.
  intros os. apply (timerqueue_refines os 5 sample_queue []).
  - apply queue_of_init.
  - apply (bool_decide_unpack _). vm_compute. exact I.
  - by apply Nat.ltb_lt.
Defined.

(** [timerqueue_getnext] returns a timer that expires first, or NULL for an
    empty queue, and [timerqueue_iterate_next] from it runs through the timers
    in the order of their expiry. *)
Theorem timerqueue_next_correct fuel q l :
  queue_of q l → (depth (length l) < fuel)%nat →
  timerqueue_getnext q = first l ∧ (∀ x, x ∈ l → expires q (timerqueue_getnext q) ≤ expires q x) ∧
  (∀ A n B, l = A ++ n :: B → timerqueue_iterate_next fuel q n = Ok (first B) ∧ ∀ x, x ∈ B → expires q n ≤ expires q x).
Proof.
  intros (t & Hh & Ht & He & Hlm & Hs) Hf. pose proof (rbtree_height t Ht) as Hht. rewrite He in Hht.
  pose proof Hh as (_ & _ & _ & Hv). rewrite He in Hv. split; [done|]. split.
  - unfold timerqueue_getnext, rb_first_cached. rewrite Hlm. intros x Hx. destruct l as [|y l]; [by apply elem_of_nil in Hx|].
    apply StronglySorted_inv in Hs as [_ Hy]. cbn [first]. apply elem_of_cons in Hx as [->|Hx]; [done|].
    by apply (proj1 (list.Forall_forall _ _) Hy).
  - intros A n B ->. destruct (sorted_node _ _ _ _ Hs) as (_ & _ & _ & Hr).
    destruct (rb_neighbours_ok fuel _ t A n B Hh) as [Hnext _]; [lia|done|]. unfold timerqueue_iterate_next.
    unpack_all. rewrite (proj2 (Z.eqb_neq n 0)) by nz. rewrite Hnext. cbn [mbind outcome_bind].
    split; [by destruct (Z.eqb_spec (first B) 0) as [->|]|]. by apply list.Forall_forall.
Qed.

Definition sample_timers : timerqueue := MkQueue (MkCached sample_heap 4) (λ x, x).

Lemma timerqueue_next_correct_witness :
  timerqueue_getnext sample_timers = 4 ∧ (∀ x, x ∈ [4; 8; 12] → 4 ≤ x) ∧
  (∀ A n B, [4; 8; 12] = A ++ n :: B →
     timerqueue_iterate_next 5 sample_timers n = Ok (first B) ∧ ∀ x, x ∈ B → n ≤ x).
Proof.
  apply (timerqueue_next_correct 5 sample_timers [4; 8; 12]).
  - exists sample_tree. split; [exact sample_repr|]. split; [exact sample_rbtree|]. split; [done|]. split; [done|].
    repeat constructor; done.
  - by apply Nat.ltb_lt.
Defined.

End Timerqueue.
