(* ===== verification/Buddy.v ===== *)
(** * The buddy page allocator

    src/page_alloc/src/page_alloc.c, with src/paging/src/page_alloc.c (the
    writer of the pageblock bitmap), src/page_alloc/src/internal.h,
    src/include/linux/mmzone.h and src/include/linux/page-flags.h: the free
    lists of a zone, merging buddies when a block is freed, splitting when one
    is allocated, and the fallback between migrate types.

    A page is named by its frame number: [page + (b - a)] is arithmetic on it.
    The configuration is that of src/include/generated/autoconf.h: FLATMEM
    without holes inside a zone, compaction on, no CMA, no memory isolation, no
    huge pages, no memory cgroups, one node, [VM_BUG_ON] compiled in. The
    static keys of guard pages and of page reporting are never switched on by
    the sources and are the constant [false]. *)

From stdpp Require Import base numbers list option sets functions.
From Stdlib Require Import ZArith Lia.
From S2P Require Import Prelude.

Open Scope Z_scope.

Module Buddy.

Definition MAX_ORDER : nat := 11.
Definition pageblock_order : nat := (MAX_ORDER - 1)%nat.
Definition MIGRATE_UNMOVABLE : Z := 0.
Definition MIGRATE_MOVABLE : Z := 1.
Definition MIGRATE_RECLAIMABLE : Z := 2.
Definition MIGRATE_PCPTYPES : Z := 3.
Definition MIGRATE_HIGHATOMIC : Z := 3.
Definition MIGRATE_TYPES : Z := 4.

(** [1 << order]. *)
Definition bsize (order : nat) : Z := Z.shiftl 1 (Z.of_nat order).
Definition pageblock_nr_pages : Z := bsize pageblock_order.

(** ** Pages *)

(** The fields of [struct page] the allocator uses. [pg_zone] is the zone id
    kept in the upper bits of [flags], [pg_flags] are the flag bits;
    [pg_type] is the 32-bit word shared by [page_type] and [_mapcount]. *)
Record page := MkPage {
  pg_flags : Z;
  pg_zone : Z;
  pg_mapping : Z;
  pg_index : Z;
  pg_private : Z;
  pg_type : Z;
  pg_refcount : Z }.

Definition set_private (v : Z) (p : page) : page :=
  MkPage (pg_flags p) (pg_zone p) (pg_mapping p) (pg_index p) v (pg_type p) (pg_refcount p).
Definition set_page_type (v : Z) (p : page) : page :=
  MkPage (pg_flags p) (pg_zone p) (pg_mapping p) (pg_index p) (pg_private p) v (pg_refcount p).
Definition set_flags (v : Z) (p : page) : page :=
  MkPage v (pg_zone p) (pg_mapping p) (pg_index p) (pg_private p) (pg_type p) (pg_refcount p).
Definition set_index (v : Z) (p : page) : page :=
  MkPage (pg_flags p) (pg_zone p) (pg_mapping p) v (pg_private p) (pg_type p) (pg_refcount p).
Definition set_refcount (v : Z) (p : page) : page :=
  MkPage (pg_flags p) (pg_zone p) (pg_mapping p) (pg_index p) (pg_private p) (pg_type p) v.

Definition PAGE_TYPE_BASE : Z := 0xf0000000.
Definition PG_buddy : Z := 0x80.
Definition PG_guard : Z := 0x800.
Definition PageType (p : page) (flag : Z) : bool :=
  Z.land (pg_type p) (Z.lor PAGE_TYPE_BASE flag) =? PAGE_TYPE_BASE.
Definition PageBuddy (p : page) : bool := PageType p PG_buddy.
Definition PageGuard (p : page) : bool := PageType p PG_guard.
Definition __SetPageBuddy (p : page) : outcome page :=
  if PageType p 0 then Ok (set_page_type (Z.land (pg_type p) (Z.lxor U32_MAX PG_buddy)) p) else Panic.
Definition __ClearPageBuddy (p : page) : outcome page :=
  if PageBuddy p then Ok (set_page_type (Z.lor (pg_type p) PG_buddy) p) else Panic.
Definition page_mapcount_reset (p : page) : page := set_page_type U32_MAX p.

(** Bits of [flags]; 22 of them are in use. *)
Definition PG_lru : Z := 4.
Definition PG_reported : Z := 2.
Definition NR_PAGEFLAGS : Z := 22.
Definition PAGE_FLAGS_CHECK_AT_PREP : Z := Z.shiftl 1 NR_PAGEFLAGS - 1.
(** lru, locked, private, private_2, writeback, reserved, slab, active,
    unevictable, mlocked. *)
Definition PAGE_FLAGS_CHECK_AT_FREE : Z :=
  fold_right (λ b m, Z.lor (Z.shiftl 1 b) m) 0 [4; 0; 13; 14; 15; 12; 9; 5; 20; 21].
Definition PageLRU (p : page) : bool := Z.testbit (pg_flags p) PG_lru.
Definition __PageMovable (p : page) : bool := Z.land (pg_mapping p) 3 =? 2.
Definition page_order (p : page) : nat := Z.to_nat (u32 (pg_private p)).

(** [page->_mapcount] is -1 when all 32 bits are set. *)
Definition page_expected_state (p : page) (check_flags : Z) : bool :=
  if negb (pg_type p =? U32_MAX) then false
  else if negb (Z.lor (Z.lor (pg_mapping p) (pg_refcount p)) (Z.land (pg_flags p) check_flags) =? 0) then false
  else true.

(** ** Zones *)

(** [pages] is [mem_map]; [pageblock_flags] holds four bits per pageblock in
    64-bit words. [free_list o t] lists the heads of the free blocks of order
    [o] and type [t], first entry first. *)
Record zone := MkZone {
  zone_idx : Z;
  zone_start_pfn : Z;
  spanned_pages : Z;
  managed_pages : Z;
  initialized : bool;
  free_list : nat → Z → list Z;
  nr_free : nat → Z;
  pages : Z → page;
  pageblock_flags : Z → Z;
  nr_free_pages : Z;
  wmark_high : Z;
  watermark_boost : Z;
  boosted_watermark : bool;
  nr_reserved_highatomic : Z }.

Definition with_lists (l : nat → Z → list Z) (n : nat → Z) (z : zone) : zone :=
  MkZone (zone_idx z) (zone_start_pfn z) (spanned_pages z) (managed_pages z) (initialized z) l n (pages z)
    (pageblock_flags z) (nr_free_pages z) (wmark_high z) (watermark_boost z) (boosted_watermark z) (nr_reserved_highatomic z).
Definition with_pages (m : Z → page) (z : zone) : zone :=
  MkZone (zone_idx z) (zone_start_pfn z) (spanned_pages z) (managed_pages z) (initialized z) (free_list z) (nr_free z) m
    (pageblock_flags z) (nr_free_pages z) (wmark_high z) (watermark_boost z) (boosted_watermark z) (nr_reserved_highatomic z).
Definition with_flags (f : Z → Z) (z : zone) : zone :=
  MkZone (zone_idx z) (zone_start_pfn z) (spanned_pages z) (managed_pages z) (initialized z) (free_list z) (nr_free z) (pages z)
    f (nr_free_pages z) (wmark_high z) (watermark_boost z) (boosted_watermark z) (nr_reserved_highatomic z).
Definition with_counts (n w : Z) (b : bool) (r : Z) (z : zone) : zone :=
  MkZone (zone_idx z) (zone_start_pfn z) (spanned_pages z) (managed_pages z) (initialized z) (free_list z) (nr_free z) (pages z)
    (pageblock_flags z) n (wmark_high z) w b r.

(** Writing one page, or with an operation that can hit [VM_BUG_ON]. *)
Definition set_page (pfn : Z) (p : page) (z : zone) : zone := with_pages (<[pfn := p]> (pages z)) z.

Definition zone_spans_pfn (z : zone) (pfn : Z) : bool :=
  (zone_start_pfn z <=? pfn) && (pfn <? zone_start_pfn z + spanned_pages z).

Definition bad_range (z : zone) (pfn : Z) : bool :=
  negb (zone_spans_pfn z pfn) || negb (pg_zone (pages z pfn) =? zone_idx z).

Definition __mod_zone_freepage_state (z : zone) (n : Z) : zone :=
  with_counts (nr_free_pages z + n) (watermark_boost z) (boosted_watermark z) (nr_reserved_highatomic z) z.

(** ** The type of a pageblock *)

Definition NR_PAGEBLOCK_BITS : Z := 4.
Definition MIGRATETYPE_MASK : Z := Z.shiftl 1 3 - 1.
Definition BITS_PER_LONG : Z := 64.

Definition pfn_to_bitidx (z : zone) (pfn : Z) : Z :=
  let pfn := u64 (pfn - Z.land (zone_start_pfn z) (Z.lxor ULONG_MAX (pageblock_nr_pages - 1))) in
  Z.shiftr pfn (Z.of_nat pageblock_order) * NR_PAGEBLOCK_BITS.

Definition get_pfnblock_flags_mask (z : zone) (pfn mask : Z) : Z :=
  let bitidx := pfn_to_bitidx z pfn in
  Z.land (Z.shiftr (pageblock_flags z (bitidx / BITS_PER_LONG)) (Z.land bitidx (BITS_PER_LONG - 1))) mask.

Definition get_pageblock_migratetype (z : zone) (pfn : Z) : Z :=
  get_pfnblock_flags_mask z pfn MIGRATETYPE_MASK.

(** The zone lock is held: the compare-and-swap succeeds at once. *)
Definition set_pfnblock_flags_mask (z : zone) (flags pfn mask : Z) : outcome zone :=
  let bitidx := pfn_to_bitidx z pfn in
  let word_bitidx := bitidx / BITS_PER_LONG in
  let bitidx := Z.land bitidx (BITS_PER_LONG - 1) in
  if negb (zone_spans_pfn z pfn) then Panic
  else
    let mask := u64 (Z.shiftl mask bitidx) in
    let flags := u64 (Z.shiftl flags bitidx) in
    let word := pageblock_flags z word_bitidx in
    Ok (with_flags (<[word_bitidx := Z.lor (Z.land word (Z.lxor ULONG_MAX mask)) flags]> (pageblock_flags z)) z).

(** The variables outside the zone: whether grouping by mobility is off,
    [watermark_boost_factor] (15000 at boot), and whether the static key of
    [debug_pagealloc] is on. *)
Record vm_params := MkVm {
  page_group_by_mobility_disabled : bool;
  watermark_boost_factor : Z;
  debug_pagealloc_enabled_static : bool }.

Definition set_pageblock_migratetype (vm : vm_params) (z : zone) (pfn migratetype : Z) : outcome zone :=
  let migratetype :=
    if page_group_by_mobility_disabled vm && (migratetype <? MIGRATE_PCPTYPES) then MIGRATE_UNMOVABLE else migratetype in
  set_pfnblock_flags_mask z migratetype pfn MIGRATETYPE_MASK.

(** ** Guard pages *)

Definition debug_guardpage_enabled : bool := false.
Definition debug_guardpage_minorder : nat := 0.
Definition page_is_guard (p : page) : bool := debug_guardpage_enabled && PageGuard p.

Definition set_page_guard (z : zone) (pfn : Z) (order : nat) : option zone :=
  if negb debug_guardpage_enabled then None
  else if (debug_guardpage_minorder <=? order)%nat then None
  else
    let p := pages z pfn in
    let p := set_private (Z.of_nat order) (set_page_type (Z.land (pg_type p) (Z.lxor U32_MAX PG_guard)) p) in
    Some (__mod_zone_freepage_state (set_page pfn p z) (- bsize order)).

Definition clear_page_guard (z : zone) (pfn : Z) (order : nat) : zone :=
  if negb debug_guardpage_enabled then z
  else
    let p := pages z pfn in
    let p := set_private 0 (set_page_type (Z.lor (pg_type p) PG_guard) p) in
    __mod_zone_freepage_state (set_page pfn p z) (bsize order).

(** ** The free lists *)

Definition set_page_order (z : zone) (pfn : Z) (order : nat) : outcome zone :=
  p ← __SetPageBuddy (set_private (Z.of_nat order) (pages z pfn));
  Ok (set_page pfn p z).

(** Insertion into the list of [order] and [t]; [list_del] of a page, which is
    on one list at most. *)
Definition upd_list (order : nat) (t : Z) (f : list Z → list Z) (l : nat → Z → list Z) : nat → Z → list Z :=
  λ o u, if decide (o = order ∧ u = t) then f (l o u) else l o u.
Definition lru_del (pfn : Z) (l : nat → Z → list Z) : nat → Z → list Z :=
  λ o u, filter (λ q, q ≠ pfn) (l o u).

Definition add_to_free_list (pfn : Z) (z : zone) (order : nat) (t : Z) : zone :=
  with_lists (upd_list order t (λ l, pfn :: l) (free_list z)) (<[order := nr_free z order + 1]> (nr_free z)) z.
Definition add_to_free_list_tail (pfn : Z) (z : zone) (order : nat) (t : Z) : zone :=
  with_lists (upd_list order t (λ l, l ++ [pfn]) (free_list z)) (<[order := nr_free z order + 1]> (nr_free z)) z.
Definition move_to_free_list (pfn : Z) (z : zone) (order : nat) (t : Z) : zone :=
  with_lists (upd_list order t (λ l, pfn :: l) (lru_del pfn (free_list z))) (nr_free z) z.

Definition page_reporting_enabled : bool := false.
Definition page_reported (p : page) : bool := page_reporting_enabled && Z.testbit (pg_flags p) PG_reported.

Definition del_page_from_free_list (pfn : Z) (z : zone) (order : nat) : outcome zone :=
  let p := pages z pfn in
  let p := if page_reported p then set_flags (Z.clearbit (pg_flags p) PG_reported) p else p in
  p ← __ClearPageBuddy p;
  Ok (with_lists (lru_del pfn (free_list z)) (<[order := nr_free z order - 1]> (nr_free z)) (set_page pfn (set_private 0 p) z)).

Definition get_page_from_free_area (z : zone) (order : nat) (t : Z) : option Z := head (free_list z order t).
Definition free_area_empty (z : zone) (order : nat) (t : Z) : bool :=
  match free_list z order t with [] => true | _ => false end.

(** ** Freeing *)

Definition __find_buddy_pfn (pfn : Z) (order : nat) : Z := Z.lxor pfn (bsize order).

Definition page_is_buddy (z : zone) (page buddy : Z) (order : nat) : outcome bool :=
  if negb (page_is_guard (pages z buddy)) && negb (PageBuddy (pages z buddy)) then Ok false
  else if negb (u32 (pg_private (pages z buddy)) =? Z.of_nat order) then Ok false
  else if negb (pg_zone (pages z page) =? pg_zone (pages z buddy)) then Ok false
  else if negb (pg_refcount (pages z buddy) =? 0) then Panic
  else Ok true.

(** [capc] is the order the current task's direct compaction wants, when
    [task_capc] finds its capture control eligible for this zone. *)
Definition compaction_capture (capc : option nat) (order : nat) (migratetype : Z) : bool :=
  match capc with
  | None => false
  | Some want =>
      if negb (order =? want)%nat then false
      else if (order <? pageblock_order)%nat && (migratetype =? MIGRATE_MOVABLE) then false
      else true
  end.

Definition buddy_merge_likely (z : zone) (pfn buddy_pfn : Z) (order : nat) : outcome bool :=
  if (MAX_ORDER - 2 <=? order)%nat then Ok false
  else
    let combined_pfn := Z.land buddy_pfn pfn in
    let buddy_pfn := __find_buddy_pfn combined_pfn (order + 1) in
    page_is_buddy z combined_pfn buddy_pfn (order + 1).

(** Where the merging loop ends: with the block and its last buddy, or because
    the block was captured. *)
Inductive merge_result :=
| Done (pfn : Z) (order : nat) (buddy_pfn : Z)
| Captured (pfn : Z).

(** The merging loop of [__free_one_page]; [n] is [max_order - 1 - order], the
    number of iterations left. *)
Fixpoint coalesce_loop (n : nat) (capc : option nat) (migratetype : Z) (z : zone) (pfn : Z) (order : nat) (buddy_pfn : Z)
  : outcome (zone * merge_result) :=
  match n with
  | O => Ok (z, Done pfn order buddy_pfn)
  | S n =>
      if compaction_capture capc order migratetype
      then Ok (__mod_zone_freepage_state z (- bsize order), Captured pfn)
      else
        let buddy_pfn := __find_buddy_pfn pfn order in
        b ← page_is_buddy z pfn buddy_pfn order;
        if negb b then Ok (z, Done pfn order buddy_pfn)
        else
          z ← (if page_is_guard (pages z buddy_pfn) then Ok (clear_page_guard z buddy_pfn order)
               else del_page_from_free_list buddy_pfn z order);
          coalesce_loop n capc migratetype z (Z.land buddy_pfn pfn) (S order) buddy_pfn
  end.

(** [__free_one_page]. [max_order] is [min(MAX_ORDER, pageblock_order + 1)],
    which is [MAX_ORDER] here, so the part under [max_order < MAX_ORDER] is not
    reached. [buddy_pfn] is read only when the loop has set it. The result has
    the page handed to the capture control, if any. *)
Definition __free_one_page (z : zone) (pfn : Z) (order : nat) (migratetype : Z) (capc : option nat)
  : outcome (zone * option Z) :=
  if negb (initialized z) then Panic
  else if negb (Z.land (pg_flags (pages z pfn)) PAGE_FLAGS_CHECK_AT_PREP =? 0) then Panic
  else if migratetype =? -1 then Panic
  else
    let z := __mod_zone_freepage_state z (bsize order) in
    if negb (Z.land pfn (bsize order - 1) =? 0) then Panic
    else if bad_range z pfn then Panic
    else
      let max_order := Nat.min MAX_ORDER (pageblock_order + 1) in
      '(z, r) ← coalesce_loop (max_order - 1 - order)%nat capc migratetype z pfn order 0;
      match r with
      | Captured page => Ok (z, Some page)
      | Done pfn order buddy_pfn =>
          z ← set_page_order z pfn order;
          to_tail ← buddy_merge_likely z pfn buddy_pfn order;
          let z := if (to_tail : bool) then add_to_free_list_tail pfn z order migratetype
                   else add_to_free_list pfn z order migratetype in
          Ok (z, None)
      end.

(** No pageblock is isolated: the type the caller read is kept. *)
Definition free_one_page (z : zone) (pfn : Z) (order : nat) (migratetype : Z) (capc : option nat) : outcome (zone * option Z) :=
  __free_one_page z pfn order migratetype capc.

(** ** Allocating *)

(** [n] is [high - low]. *)
Fixpoint expand_loop (n : nat) (z : zone) (pfn : Z) (low : nat) (migratetype : Z) : outcome zone :=
  match n with
  | O => Ok z
  | S n =>
      let high := (low + n)%nat in
      let buddy := pfn + bsize high in
      if bad_range z buddy then Panic
      else
        match set_page_guard z buddy high with
        | Some z => expand_loop n z pfn low migratetype
        | None =>
            z ← set_page_order (add_to_free_list buddy z high migratetype) buddy high;
            expand_loop n z pfn low migratetype
        end
  end.

Definition expand (z : zone) (pfn : Z) (low high : nat) (migratetype : Z) : outcome zone :=
  expand_loop (high - low) z pfn low migratetype.

(** [n] is [MAX_ORDER - current_order]. *)
Fixpoint smallest_loop (n : nat) (z : zone) (order : nat) (migratetype : Z) : outcome (zone * option Z) :=
  match n with
  | O => Ok (z, None)
  | S m =>
      let current_order := (MAX_ORDER - n)%nat in
      match get_page_from_free_area z current_order migratetype with
      | None => smallest_loop m z order migratetype
      | Some page =>
          z ← del_page_from_free_list page z current_order;
          z ← expand z page order current_order migratetype;
          Ok (set_page page (set_index migratetype (pages z page)) z, Some page)
      end
  end.

Definition __rmqueue_smallest (z : zone) (order : nat) (migratetype : Z) : outcome (zone * option Z) :=
  smallest_loop (MAX_ORDER - order) z order migratetype.

(** The rows of [fallbacks]; the row of HIGHATOMIC has no initialiser. *)
Definition fallbacks (migratetype : Z) : list Z :=
  if migratetype =? MIGRATE_UNMOVABLE then [MIGRATE_RECLAIMABLE; MIGRATE_MOVABLE; MIGRATE_TYPES]
  else if migratetype =? MIGRATE_MOVABLE then [MIGRATE_RECLAIMABLE; MIGRATE_UNMOVABLE; MIGRATE_TYPES]
  else if migratetype =? MIGRATE_RECLAIMABLE then [MIGRATE_UNMOVABLE; MIGRATE_MOVABLE; MIGRATE_TYPES]
  else [0; 0; 0].

(** The loop of [move_freepages] over [page <= end_page], with the count of
    movable pages. *)
Fixpoint move_freepages (fuel : nat) (z : zone) (page end_page migratetype : Z) (num_movable pages_moved : Z)
  : outcome (zone * Z * Z) :=
  if end_page <? page then Ok (z, num_movable, pages_moved)
  else
    match fuel with
    | O => Fuel
    | S fuel =>
        let p := pages z page in
        if negb (PageBuddy p) then
          move_freepages fuel z (page + 1) end_page migratetype
            (if PageLRU p || __PageMovable p then num_movable + 1 else num_movable) pages_moved
        else if negb (pg_zone p =? zone_idx z) then Panic
        else
          let order := page_order p in
          move_freepages fuel (move_to_free_list page z order migratetype) (page + bsize order) end_page migratetype
            num_movable (pages_moved + bsize order)
    end.

(** Returns the zone, [*num_movable] and the number of pages moved. *)
Definition move_freepages_block (z : zone) (page migratetype : Z) : outcome (zone * Z * Z) :=
  let start_pfn := Z.land page (Z.lxor ULONG_MAX (pageblock_nr_pages - 1)) in
  let end_pfn := start_pfn + pageblock_nr_pages - 1 in
  let start_page := if negb (zone_spans_pfn z start_pfn) then page else start_pfn in
  if negb (zone_spans_pfn z end_pfn) then Ok (z, 0, 0)
  else move_freepages (Z.to_nat (end_pfn - start_page + 1)) z start_page end_pfn migratetype 0 0.

(** [nr] is [nr_pageblocks]. *)
Fixpoint change_pageblock_loop (nr : nat) (vm : vm_params) (z : zone) (pageblock_page migratetype : Z) : outcome zone :=
  match nr with
  | O => Ok z
  | S nr =>
      z ← set_pageblock_migratetype vm z pageblock_page migratetype;
      change_pageblock_loop nr vm z (pageblock_page + pageblock_nr_pages) migratetype
  end.

Definition change_pageblock_range (vm : vm_params) (z : zone) (pageblock_page : Z) (start_order : nat) (migratetype : Z) : outcome zone :=
  change_pageblock_loop (2 ^ (start_order - pageblock_order)) vm z pageblock_page migratetype.

Definition can_steal_fallback (vm : vm_params) (order : nat) (start_mt : Z) : bool :=
  if (pageblock_order <=? order)%nat then true
  else if (pageblock_order / 2 <=? order)%nat || (start_mt =? MIGRATE_RECLAIMABLE) || (start_mt =? MIGRATE_UNMOVABLE)
          || page_group_by_mobility_disabled vm then true
  else false.

Definition mult_frac (x numer denom : Z) : Z :=
  u64 (u64 (x / denom * u64 numer) + u64 (x mod denom * u64 numer) / denom).

Definition boost_watermark (vm : vm_params) (z : zone) : zone :=
  if watermark_boost_factor vm =? 0 then z
  else if managed_pages z <? pageblock_nr_pages * 4 then z
  else
    let max_boost := mult_frac (wmark_high z) (watermark_boost_factor vm) 10000 in
    if max_boost =? 0 then z
    else
      let max_boost := Z.max pageblock_nr_pages max_boost in
      with_counts (nr_free_pages z) (Z.min (u64 (watermark_boost z + pageblock_nr_pages)) max_boost)
        (boosted_watermark z) (nr_reserved_highatomic z) z.

Definition ALLOC_HARDER : Z := 0x10.
Definition ALLOC_NOFRAGMENT : Z := 0x100.
Definition ALLOC_KSWAPD : Z := 0x800.

(** [alloc_flags & f]. *)
Definition has_flag (alloc_flags f : Z) : bool := negb (Z.land alloc_flags f =? 0).

Definition is_migrate_highatomic (t : Z) : bool := t =? MIGRATE_HIGHATOMIC.

Definition steal_suitable_fallback (vm : vm_params) (z : zone) (page alloc_flags start_type : Z) (whole_block : bool) : outcome zone :=
  let current_order := page_order (pages z page) in
  let old_block_type := get_pageblock_migratetype z page in
  let single_page z := Ok (move_to_free_list page z current_order start_type) in
  if is_migrate_highatomic old_block_type then single_page z
  else if (pageblock_order <=? current_order)%nat then
    z ← change_pageblock_range vm z page current_order start_type;
    single_page z
  else
    let z := boost_watermark vm z in
    let z :=
      if has_flag alloc_flags ALLOC_KSWAPD
      then with_counts (nr_free_pages z) (watermark_boost z) true (nr_reserved_highatomic z) z else z in
    if negb whole_block then single_page z
    else
      '(z, movable_pages, free_pages) ← move_freepages_block z page start_type;
      let alike_pages :=
        if start_type =? MIGRATE_MOVABLE then movable_pages
        else if old_block_type =? MIGRATE_MOVABLE then pageblock_nr_pages - (free_pages + movable_pages)
        else 0 in
      if free_pages =? 0 then single_page z
      else if (bsize (pageblock_order - 1)%nat <=? free_pages + alike_pages) || page_group_by_mobility_disabled vm
      then set_pageblock_migratetype vm z page start_type
      else Ok z.

(** The loop of [find_suitable_fallback] over a row of [fallbacks]; returns
    the type, -1 for none, and [*can_steal]. Running off the row is a read
    outside the array. *)
Fixpoint fallback_loop (vm : vm_params) (row : list Z) (z : zone) (order : nat) (migratetype : Z) (only_stealable can_steal : bool)
  : outcome (Z * bool) :=
  match row with
  | [] => Panic
  | fallback_mt :: row =>
      if fallback_mt =? MIGRATE_TYPES then Ok (-1, can_steal)
      else if free_area_empty z order fallback_mt then fallback_loop vm row z order migratetype only_stealable can_steal
      else
        let can_steal := if can_steal_fallback vm order migratetype then true else can_steal in
        if negb only_stealable then Ok (fallback_mt, can_steal)
        else if can_steal then Ok (fallback_mt, can_steal)
        else fallback_loop vm row z order migratetype only_stealable can_steal
  end.

Definition find_suitable_fallback (vm : vm_params) (z : zone) (order : nat) (migratetype : Z) (only_stealable can_steal : bool)
  : outcome (Z * bool) :=
  if nr_free z order =? 0 then Ok (-1, can_steal)
  else fallback_loop vm (fallbacks migratetype) z order migratetype only_stealable false.

(** How the first loop of [__rmqueue_fallback] ends. *)
Inductive fallback :=
| NoFallback
| FindSmallest
| DoSteal (current_order : nat) (fallback_mt : Z) (can_steal : bool).

(** The downward loop; [n] is [current_order + 1]. *)
Fixpoint largest_fallback (n : nat) (vm : vm_params) (z : zone) (order min_order : nat) (start_migratetype : Z) (can_steal : bool)
  : outcome fallback :=
  match n with
  | O => Ok NoFallback
  | S current_order =>
      if (current_order <? min_order)%nat then Ok NoFallback
      else
        '(fallback_mt, can_steal) ← find_suitable_fallback vm z current_order start_migratetype false can_steal;
        if fallback_mt =? -1 then largest_fallback current_order vm z order min_order start_migratetype can_steal
        else if negb can_steal && (start_migratetype =? MIGRATE_MOVABLE) && (order <? current_order)%nat then Ok FindSmallest
        else Ok (DoSteal current_order fallback_mt can_steal)
  end.

(** The upward loop; [n] is [MAX_ORDER - current_order]. *)
Fixpoint smallest_fallback (n : nat) (vm : vm_params) (z : zone) (start_migratetype : Z) (can_steal : bool) : outcome (nat * Z * bool) :=
  match n with
  | O => Panic
  | S m =>
      let current_order := (MAX_ORDER - n)%nat in
      '(fallback_mt, can_steal) ← find_suitable_fallback vm z current_order start_migratetype false can_steal;
      if negb (fallback_mt =? -1) then Ok (current_order, fallback_mt, can_steal)
      else smallest_fallback m vm z start_migratetype can_steal
  end.

Definition __rmqueue_fallback (vm : vm_params) (z : zone) (order : nat) (start_migratetype alloc_flags : Z) : outcome (zone * bool) :=
  let min_order := if has_flag alloc_flags ALLOC_NOFRAGMENT then pageblock_order else order in
  let do_steal current_order fallback_mt can_steal :=
    match get_page_from_free_area z current_order fallback_mt with
    | None => Panic
    | Some page => z ← steal_suitable_fallback vm z page alloc_flags start_migratetype can_steal; Ok (z, true)
    end in
  r ← largest_fallback MAX_ORDER vm z order min_order start_migratetype false;
  match r with
  | NoFallback => Ok (z, false)
  | FindSmallest =>
      '(current_order, fallback_mt, can_steal) ← smallest_fallback (MAX_ORDER - order) vm z start_migratetype false;
      do_steal current_order fallback_mt can_steal
  | DoSteal current_order fallback_mt can_steal => do_steal current_order fallback_mt can_steal
  end.

(** The [retry] loop. [__rmqueue_cma_fallback] is NULL without CMA. *)
Fixpoint __rmqueue (fuel : nat) (vm : vm_params) (z : zone) (order : nat) (migratetype alloc_flags : Z) : outcome (zone * option Z) :=
  match fuel with
  | O => Fuel
  | S fuel =>
      '(z, page) ← __rmqueue_smallest z order migratetype;
      match page with
      | Some page => Ok (z, Some page)
      | None =>
          '(z, again) ← __rmqueue_fallback vm z order migratetype alloc_flags;
          if (again : bool) then __rmqueue fuel vm z order migratetype alloc_flags else Ok (z, None)
      end
  end.

End Buddy.
