(* ===== verification/BuddySpec.v ===== *)
(** * The buddy allocator: invariant, and blocks going in and out

    The invariant of a zone's free lists, the set of free pages they stand
    for, and the two steps every path is made of: taking a listed block off
    its list and listing a block. *)

From stdpp Require Import base numbers list option sets functions.
From Stdlib Require Import ZArith Lia.
From S2P Require Import Prelude Buddy.

Open Scope Z_scope.

Module BuddySpec.
Import Buddy.

(** ** Blocks *)

Definition in_block (p : Z) (o : nat) (x : Z) : Prop := p ≤ x < p + bsize o.
Definition aligned (p : Z) (o : nat) : Prop := p mod bsize o = 0.

Lemma bsize_pow o : bsize o = 2 ^ Z.of_nat o.
Proof. unfold bsize. rewrite Z.shiftl_1_l. done. Qed.

Lemma bsize_pos o : 0 < bsize o.
Proof. rewrite bsize_pow. apply Z.pow_pos_nonneg; lia. Qed.

Lemma bsize_S o : bsize (S o) = 2 * bsize o.
Proof. rewrite !bsize_pow, Nat2Z.inj_succ, Z.pow_succ_r by lia. done. Qed.

Lemma head_in_block p o : in_block p o p.
Proof. pose proof (bsize_pos o). unfold in_block. lia. Qed.

Lemma aligned_mult p o : aligned p o → ∃ k, p = k * bsize o.
Proof.
  intros H. pose proof (bsize_pos o). exists (p / bsize o).
  unfold aligned in H. pose proof (Z.div_mod p (bsize o)). lia.
Qed.

Lemma aligned_order_le p o o' : aligned p o' → (o ≤ o')%nat → aligned p o.
Proof.
  intros (k & ->)%aligned_mult Hle. unfold aligned. rewrite !bsize_pow.
  replace (Z.of_nat o') with (Z.of_nat (o' - o) + Z.of_nat o) by lia.
  rewrite Z.pow_add_r by lia. rewrite Z.mul_assoc. apply Z_mod_mult.
Qed.

Lemma aligned_mask p o : Z.land p (bsize o - 1) = 0 ↔ aligned p o.
Proof. unfold aligned. rewrite bsize_pow, land_ones_mod by lia. done. Qed.

Lemma aligned_half p o : aligned p (S o) → aligned (p + bsize o) o.
Proof.
  intros (k & ->)%aligned_mult. unfold aligned. rewrite bsize_S.
  replace (k * (2 * bsize o) + bsize o) with ((2 * k + 1) * bsize o) by ring. apply Z_mod_mult.
Qed.

Lemma lxor_1_even k : Z.lxor (2 * k) 1 = 2 * k + 1.
Proof. destruct k as [|[]|[]]; reflexivity. Qed.

Lemma lxor_1_odd k : Z.lxor (2 * k + 1) 1 = 2 * k.
Proof. rewrite <- lxor_1_even, Z.lxor_assoc. apply Z.lxor_0_r. Qed.

Lemma land_even_odd k : Z.land (2 * k + 1) (2 * k) = 2 * k.
Proof.
  rewrite <- lxor_1_even. apply Z.bits_inj'. intros i Hi. rewrite Z.land_spec, Z.lxor_spec.
  destruct (Z.eq_dec i 0) as [->|].
  - rewrite Z.testbit_even_0. done.
  - replace (Z.testbit 1 i) with false. { rewrite xorb_false_r. apply andb_diag. }
    symmetry. apply Z.bits_above_log2; simpl; lia.
Qed.

(** The buddy of an aligned block is its other half: above it when the block
    is aligned to the next order, below it otherwise; the conjunction of the
    two frame numbers is the start of the union. *)
Lemma buddy_spec p o :
  aligned p o →
  (aligned p (S o) ∧ __find_buddy_pfn p o = p + bsize o ∧ Z.land (__find_buddy_pfn p o) p = p) ∨
  (aligned (p - bsize o) (S o) ∧ __find_buddy_pfn p o = p - bsize o ∧ Z.land (__find_buddy_pfn p o) p = p - bsize o).
Proof.
  intros (k & ->)%aligned_mult. unfold __find_buddy_pfn, aligned. rewrite bsize_S.
  assert (Hb : k * bsize o = Z.shiftl k (Z.of_nat o)) by (rewrite bsize_pow, shiftl_mul by lia; done).
  rewrite Hb. unfold bsize at 2 4 7 9. rewrite <- !Z.shiftl_lxor, <- !Z.shiftl_land, <- Hb.
  rewrite !shiftl_mul, <- bsize_pow by lia.
  destruct (Z.Even_or_Odd k) as [[j ->]|[j ->]].
  - left. rewrite lxor_1_even, land_even_odd. split; [|lia].
    replace (2 * j * bsize o) with (j * (2 * bsize o)) by ring. apply Z_mod_mult.
  - right. rewrite lxor_1_odd, Z.land_comm, land_even_odd. split; [|lia].
    replace ((2 * j + 1) * bsize o - bsize o) with (j * (2 * bsize o)) by ring. apply Z_mod_mult.
Qed.

Lemma buddy_involutive p o : __find_buddy_pfn (__find_buddy_pfn p o) o = p.
Proof. unfold __find_buddy_pfn. rewrite Z.lxor_assoc, Z.lxor_nilpotent. apply Z.lxor_0_r. Qed.

(** ** Pages in the free lists *)

Definition BUDDY_TYPE : Z := 0xffffff7f.

Definition quiet (p : page) : Prop :=
  Z.lor (Z.lor (pg_mapping p) (pg_refcount p)) (Z.land (pg_flags p) PAGE_FLAGS_CHECK_AT_PREP) = 0.

(** A page is on the free side, its block starting at [h]. *)
Definition free_state (z : zone) (h x : Z) : Prop :=
  zone_spans_pfn z x = true ∧ pg_zone (pages z x) = zone_idx z ∧ quiet (pages z x) ∧
  pg_type (pages z x) = if x =? h then BUDDY_TYPE else U32_MAX.

Definition free_page (z : zone) (x : Z) : Prop := ∃ o t p, p ∈ free_list z o t ∧ in_block p o x.

Definition listed_total (z : zone) (o : nat) : nat :=
  (length (free_list z o 0%Z) + length (free_list z o 1%Z) + length (free_list z o 2%Z) + length (free_list z o 3%Z))%nat.

(** Every listed head is marked with its order, aligned to it, and the pages of
    its block are in the state the allocator expects; every marked page of the
    zone is listed, on one list and once; marked pages of any zone have no
    references; blocks are disjoint; [nr_free] counts them; and no block has its
    buddy free at the same order. Frame numbers have 52 bits. *)
Record wf (z : zone) : Prop := Wf {
  wf_init : initialized z = true;
  wf_span : 0 ≤ zone_start_pfn z ∧ zone_start_pfn z + spanned_pages z ≤ 2 ^ 52;
  wf_range o t p : p ∈ free_list z o t → (o < MAX_ORDER)%nat ∧ 0 ≤ t < MIGRATE_TYPES;
  wf_head o t p : p ∈ free_list z o t → aligned p o ∧ pg_private (pages z p) = Z.of_nat o;
  wf_state o t p x : p ∈ free_list z o t → in_block p o x → free_state z p x;
  wf_buddy p : zone_spans_pfn z p = true ∨ pg_zone (pages z p) = zone_idx z →
    PageBuddy (pages z p) = true → ∃ o t, p ∈ free_list z o t;
  wf_refs p : PageBuddy (pages z p) = true → pg_refcount (pages z p) = 0;
  wf_one o t t' p : p ∈ free_list z o t → p ∈ free_list z o t' → t = t';
  wf_nodup o t : NoDup (free_list z o t);
  wf_disjoint o t p o' t' q x :
    p ∈ free_list z o t → q ∈ free_list z o' t' → in_block p o x → in_block q o' x → p = q;
  wf_count o : nr_free z o = Z.of_nat (listed_total z o);
  wf_coalesced o t t' p :
    p ∈ free_list z o t → (o < MAX_ORDER - 1)%nat → __find_buddy_pfn p o ∉ free_list z o t' }.

(** The block is in the caller's hands: allocated, its pages checked. *)
Definition owned (z : zone) (p : Z) (o : nat) : Prop :=
  ∀ x, in_block p o x →
    zone_spans_pfn z x = true ∧ pg_zone (pages z x) = zone_idx z ∧ quiet (pages z x) ∧
    pg_type (pages z x) = U32_MAX ∧ ¬ free_page z x.

(** The pages on the free lists, by the counters. *)
Definition free_count (z : zone) : Z :=
  fold_right Z.add 0 (map (λ o, bsize o * nr_free z o) (seq 0 MAX_ORDER)).

(** What no operation on the lists changes. *)
Definition same_zone (z z' : zone) : Prop :=
  zone_idx z' = zone_idx z ∧ zone_start_pfn z' = zone_start_pfn z ∧ spanned_pages z' = spanned_pages z ∧
  initialized z' = initialized z ∧ managed_pages z' = managed_pages z ∧ wmark_high z' = wmark_high z.

#[global] Instance same_zone_preorder : PreOrder same_zone.
Proof. split; [done|]. unfold same_zone. intros a b c H1 H2. intuition congruence. Qed.

Lemma same_zone_spans z z' x : same_zone z z' → zone_spans_pfn z' x = zone_spans_pfn z x.
Proof. unfold zone_spans_pfn. by intros (_ & -> & -> & _). Qed.

Lemma quiet_refcount p : quiet p → pg_refcount p = 0.
Proof. unfold quiet. rewrite !Z.lor_eq_0_iff. tauto. Qed.

Lemma quiet_flags p : quiet p → Z.land (pg_flags p) PAGE_FLAGS_CHECK_AT_PREP = 0.
Proof. unfold quiet. rewrite !Z.lor_eq_0_iff. tauto. Qed.

Lemma quiet_expected p : quiet p → pg_type p = U32_MAX → page_expected_state p PAGE_FLAGS_CHECK_AT_PREP = true.
Proof. unfold quiet, page_expected_state. intros -> ->. done. Qed.

Lemma buddy_type_spec p : pg_type p = BUDDY_TYPE → PageBuddy p = true.
Proof. unfold PageBuddy, PageType. intros ->. done. Qed.

Lemma plain_type_spec p : pg_type p = U32_MAX → PageBuddy p = false.
Proof. unfold PageBuddy, PageType. intros ->. done. Qed.

Lemma wf_free_buddy z o t p : wf z → p ∈ free_list z o t → PageBuddy (pages z p) = true.
Proof.
  intros W H. apply buddy_type_spec. destruct (wf_state z W o t p p H (head_in_block p o)) as (_ & _ & _ & ->).
  by rewrite Z.eqb_refl.
Qed.

Lemma wf_pfn z x : wf z → zone_spans_pfn z x = true → 0 ≤ x < 2 ^ 52.
Proof. intros W Hx. pose proof (wf_span z W). unfold zone_spans_pfn in Hx. lia. Qed.

Lemma wf_same_order z o t o' t' p : wf z → p ∈ free_list z o t → p ∈ free_list z o' t' → o = o' ∧ t = t'.
Proof.
  intros W H H'. destruct (wf_head z W o t p H) as [_ E], (wf_head z W o' t' p H') as [_ E'].
  assert (o = o') as <- by lia. split; [done|]. exact (wf_one z W o t t' p H H').
Qed.

Lemma owned_not_buddy z p o x : owned z p o → in_block p o x → PageBuddy (pages z x) = false.
Proof. intros H Hx. apply plain_type_spec. apply (H x Hx). Qed.

Lemma owned_unlisted z p o t x o' : owned z p o → in_block p o x → x ∉ free_list z o' t.
Proof.
  intros H Hx Hin. destruct (H x Hx) as (_ & _ & _ & _ & Hf). apply Hf. exists o', t, x. auto using head_in_block.
Qed.

(** Updating [nr_free] at one order changes the count by that block's size. *)
Lemma sum_update (f g : nat → Z) l o :
  NoDup l → o ∈ l → (∀ i, i ≠ o → f i = g i) →
  fold_right Z.add 0 (map f l) = fold_right Z.add 0 (map g l) + f o - g o.
Proof.
  intros Hnd Ho Hfg. induction Hnd as [|i l Hi Hnd IH]; [by apply elem_of_nil in Ho|].
  apply elem_of_cons in Ho as [->|Ho]; simpl.
  - assert (map f l = map g l) as ->; [|lia].
    apply map_ext_in. intros j Hj%list_elem_of_In. apply Hfg. by intros ->.
  - rewrite Hfg by (intros ->; done). specialize (IH Ho). lia.
Qed.

Lemma free_count_upd z l o n m :
  (o < MAX_ORDER)%nat →
  free_count (with_lists l (<[o := n]> (nr_free z)) (with_pages m z)) = free_count z + bsize o * (n - nr_free z o).
Proof.
  intros Ho. unfold free_count. cbn [nr_free with_lists with_pages].
  rewrite (sum_update (λ i, bsize i * (<[o:=n]> (nr_free z)) i) (λ i, bsize i * nr_free z i) _ o).
  - rewrite fn_lookup_insert. lia.
  - apply NoDup_seq.
  - apply elem_of_seq. lia.
  - intros i Hi. by rewrite fn_lookup_insert_ne by done.
Qed.

(** ** Taking a block off its list *)

Definition deleted (p : Z) (o : nat) (z : zone) : zone :=
  with_lists (lru_del p (free_list z)) (<[o := nr_free z o - 1]> (nr_free z))
    (set_page p (set_private 0 (set_page_type U32_MAX (pages z p))) z).

Lemma elem_of_lru_del q p l o t : q ∈ lru_del p l o t ↔ q ∈ l o t ∧ q ≠ p.
Proof. unfold lru_del. rewrite list_elem_of_filter. tauto. Qed.

Lemma length_del (l : list Z) p :
  NoDup l → Z.of_nat (length (filter (λ q, q ≠ p) l)) = Z.of_nat (length l) - (if decide (p ∈ l) then 1 else 0).
Proof.
  induction 1 as [|x l Hx Hnd IH]; [done|]. rewrite filter_cons. destruct (decide (x ≠ p)) as [Hne|Hxp].
  - cbn [length]. rewrite !Nat2Z.inj_succ, IH.
    rewrite (decide_ext (p ∈ x :: l) (p ∈ l)) by (rewrite elem_of_cons; naive_solver). lia.
  - apply dec_stable in Hxp as ->. rewrite IH, !decide_False by done. rewrite decide_True by set_solver.
    cbn [length]. lia.
Qed.

Lemma deleted_spec z p o t :
  wf z → p ∈ free_list z o t → del_page_from_free_list p z o = Ok (deleted p o z).
Proof.
  intros W Hp. unfold del_page_from_free_list, page_reported, page_reporting_enabled. cbn [andb].
  unfold __ClearPageBuddy. rewrite (wf_free_buddy z o t p) by done. cbn [mbind outcome_bind].
  destruct (wf_state z W o t p p Hp (head_in_block p o)) as (_ & _ & _ & Ht). rewrite Z.eqb_refl in Ht.
  unfold deleted. rewrite Ht. reflexivity.
Qed.

Lemma deleted_page_ne z p o x : x ≠ p → pages (deleted p o z) x = pages z x.
Proof. intros Hx. unfold deleted, set_page. cbn [pages with_lists with_pages]. by rewrite fn_lookup_insert_ne. Qed.

Lemma deleted_page z p o : pages (deleted p o z) p = set_private 0 (set_page_type U32_MAX (pages z p)).
Proof. unfold deleted, set_page. cbn [pages with_lists with_pages]. by rewrite fn_lookup_insert. Qed.

Lemma deleted_same z p o : same_zone z (deleted p o z).
Proof. done. Qed.

Lemma deleted_free z p o t x :
  wf z → p ∈ free_list z o t → free_page (deleted p o z) x ↔ free_page z x ∧ ¬ in_block p o x.
Proof.
  intros W Hp. unfold free_page. cbn [deleted free_list with_lists]. setoid_rewrite elem_of_lru_del. split.
  - intros (o' & t' & q & [Hq Hne] & Hx). split; [eauto|]. intros Hx'. by destruct Hne; eapply (wf_disjoint z W).
  - intros [(o' & t' & q & Hq & Hx) Hn]. exists o', t', q. split; [split; [done|]|done].
    intros ->. destruct (wf_same_order z o' t' o t p) as [-> _]; done.
Qed.

Lemma deleted_owned z p o t : wf z → p ∈ free_list z o t → owned (deleted p o z) p o.
Proof.
  intros W Hp x Hx. destruct (wf_state z W o t p x Hp Hx) as (Hs & Hz & Hq & Ht).
  rewrite (deleted_free z p o t) by done. split; [done|]. destruct (decide (x = p)) as [->|Hne].
  - rewrite deleted_page. cbn. tauto.
  - rewrite deleted_page_ne by done. rewrite (proj2 (Z.eqb_neq x p)) in Ht by done. tauto.
Qed.

(** A list is found under one type. *)
Lemma one_type (o o' : nat) t (ind := λ u : Z, if decide (o' = o ∧ u = t) then 1 else 0) :
  0 ≤ t < 4 → ind 0 + ind 1 + ind 2 + ind 3 = if decide (o' = o) then 1 else 0.
Proof.
  intros Ht. unfold ind. destruct (decide (o' = o)) as [->|Hne].
  - repeat case_decide; lia.
  - rewrite !decide_False by (by intros [? _]). done.
Qed.

Lemma deleted_total z p o t o' :
  wf z → p ∈ free_list z o t →
  Z.of_nat (listed_total (deleted p o z) o') = Z.of_nat (listed_total z o') - (if decide (o' = o) then 1 else 0).
Proof.
  intros W Hp. unfold listed_total. cbn [deleted free_list with_lists]. unfold lru_del.
  rewrite !Nat2Z.inj_add, !length_del by apply (wf_nodup z W).
  destruct (wf_range z W o t p Hp) as [_ Ht]. change MIGRATE_TYPES with 4 in Ht.
  assert (Hd : ∀ u, (if decide (p ∈ free_list z o' u) then 1 else 0) = if decide (o' = o ∧ u = t) then 1 else 0).
  { intros u. destruct (decide (p ∈ free_list z o' u)) as [Hi|Hi].
    - rewrite decide_True by (by apply (wf_same_order z o' u o t p)). done.
    - rewrite decide_False by (by intros [-> ->]). done. }
  rewrite !Hd. pose proof (one_type o o' t Ht) as Hone. cbv beta zeta in Hone. lia.
Qed.

Lemma deleted_wf z p o t : wf z → p ∈ free_list z o t → wf (deleted p o z).
Proof.
  intros W Hp. pose proof (deleted_owned z p o t W Hp) as Hown. split.
  - apply W.
  - apply W.
  - intros o' t' q [Hq _]%elem_of_lru_del. by apply (wf_range z W o' t' q).
  - intros o' t' q [Hq Hne]%elem_of_lru_del. rewrite deleted_page_ne by done. by apply (wf_head z W o' t' q).
  - intros o' t' q x [Hq Hne]%elem_of_lru_del Hx. unfold free_state. destruct (decide (x = p)) as [->|Hxp].
    { by destruct Hne; eapply (wf_disjoint z W); [exact Hq|exact Hp|exact Hx|apply head_in_block]. }
    rewrite deleted_page_ne by done. by apply (wf_state z W o' t' q x).
  - intros q Hz Hb. destruct (decide (q = p)) as [->|Hne].
    { rewrite deleted_page in Hb. done. }
    rewrite deleted_page_ne in Hz, Hb by done. destruct (wf_buddy z W q) as (o' & t' & Hq); [done..|].
    exists o', t'. by apply elem_of_lru_del.
  - intros q. destruct (decide (q = p)) as [->|Hne]; [by rewrite deleted_page|].
    rewrite deleted_page_ne by done. apply W.
  - intros o' t' u q [Hq _]%elem_of_lru_del [Hq' _]%elem_of_lru_del. by eapply (wf_one z W).
  - intros o' t'. apply list.NoDup_filter, (wf_nodup z W).
  - intros o1 t1 q1 o2 t2 q2 x [H1 _]%elem_of_lru_del [H2 _]%elem_of_lru_del. by apply (wf_disjoint z W o1 t1 q1 o2 t2 q2).
  - intros o'. rewrite (deleted_total z p o t) by done. cbn [deleted nr_free with_lists].
    rewrite <- (wf_count z W). destruct (decide (o' = o)) as [->|].
    + by rewrite fn_lookup_insert.
    + rewrite fn_lookup_insert_ne by done. lia.
  - intros o' t1 t2 q [Hq _]%elem_of_lru_del Ho [Hb _]%elem_of_lru_del. by apply (wf_coalesced z W o' t1 t2 q).
Qed.

Lemma deleted_count z p o t : wf z → p ∈ free_list z o t → free_count (deleted p o z) = free_count z - bsize o.
Proof.
  intros W Hp. unfold deleted, set_page. rewrite free_count_upd by apply (wf_range z W o t p Hp). lia.
Qed.

(** ** Listing a block *)

(** [f] puts [p] somewhere in the list of order [o] and type [t]. *)
Definition inserted (f : list Z → list Z) (p : Z) (o : nat) (t : Z) (z : zone) : zone :=
  with_lists (upd_list o t f (free_list z)) (<[o := nr_free z o + 1]> (nr_free z))
    (set_page p (set_private (Z.of_nat o) (set_page_type BUDDY_TYPE (pages z p))) z).

Lemma set_page_order_spec z p o :
  pg_type (pages z p) = U32_MAX →
  set_page_order z p o = Ok (set_page p (set_private (Z.of_nat o) (set_page_type BUDDY_TYPE (pages z p))) z).
Proof. intros Ht. unfold set_page_order, __SetPageBuddy, PageType. cbn [pg_type set_private]. by rewrite Ht. Qed.

Section Insert.
Context (z : zone) (p : Z) (o : nat) (t : Z) (f : list Z → list Z).
Hypothesis W : wf z.
Hypothesis Ho : (o < MAX_ORDER)%nat.
Hypothesis Ht : 0 ≤ t < MIGRATE_TYPES.
Hypothesis Hal : aligned p o.
Hypothesis Hown : owned z p o.
Hypothesis Hbuddy : (o < MAX_ORDER - 1)%nat → ∀ u, __find_buddy_pfn p o ∉ free_list z o u.
Hypothesis Hf : ∀ l, f l ≡ₚ p :: l.

Lemma inserted_list q o' u :
  q ∈ free_list (inserted f p o t z) o' u ↔ (q = p ∧ o' = o ∧ u = t) ∨ q ∈ free_list z o' u.
Proof using Hf.
  clear - Hf. cbn [inserted free_list with_lists]. unfold upd_list. case_decide as Hd.
  - rewrite Hf, elem_of_cons. tauto.
  - tauto.
Qed.

Lemma inserted_page_ne x : x ≠ p → pages (inserted f p o t z) x = pages z x.
Proof. intros Hx. unfold inserted, set_page. cbn [pages with_lists with_pages]. by rewrite fn_lookup_insert_ne. Qed.

Lemma inserted_page : pages (inserted f p o t z) p = set_private (Z.of_nat o) (set_page_type BUDDY_TYPE (pages z p)).
Proof. unfold inserted, set_page. cbn [pages with_lists with_pages]. by rewrite fn_lookup_insert. Qed.

Lemma inserted_free x : free_page (inserted f p o t z) x ↔ free_page z x ∨ in_block p o x.
Proof using Hf.
  clear - Hf. unfold free_page. setoid_rewrite inserted_list. split.
  - intros (o' & u & q & [(-> & -> & ->)|Hq] & Hx); eauto 6.
  - intros [(o' & u & q & Hq & Hx)|Hx]; eauto 10.
Qed.

Lemma inserted_unlisted q o' u : q ∈ free_list z o' u → q ≠ p.
Proof using Hown. intros Hq ->. by eapply (owned_unlisted z p o u p o'), Hq; [|apply head_in_block]. Qed.

Lemma inserted_state o' u q x :
  q ∈ free_list (inserted f p o t z) o' u → in_block q o' x → free_state (inserted f p o t z) q x.
Proof using W Hown Hf.
  intros [(-> & -> & ->)|Hq]%inserted_list Hx; unfold free_state.
  - destruct (Hown x Hx) as (Hs & Hz & Hq & Hty & _). destruct (decide (x = p)) as [->|Hne].
    + rewrite inserted_page, Z.eqb_refl. cbn. done.
    + rewrite inserted_page_ne, (proj2 (Z.eqb_neq x p)) by done. done.
  - destruct (decide (x = p)) as [->|Hne].
    + destruct (Hown p (head_in_block p o)) as (_ & _ & _ & _ & Hfr). destruct Hfr. by exists o', u, q.
    + rewrite inserted_page_ne by done. by apply (wf_state z W o' u q x).
Qed.

Lemma inserted_total o' :
  Z.of_nat (listed_total (inserted f p o t z) o') = Z.of_nat (listed_total z o') + (if decide (o' = o) then 1 else 0).
Proof using Ht Hf.
  clear - Ht Hf. unfold listed_total. cbn [inserted free_list with_lists]. change MIGRATE_TYPES with 4 in Ht.
  assert (Hl : ∀ u, Z.of_nat (length (upd_list o t f (free_list z) o' u)) =
    Z.of_nat (length (free_list z o' u)) + if decide (o' = o ∧ u = t) then 1 else 0).
  { intros u. unfold upd_list. case_decide; [rewrite Hf; cbn [length]|]; lia. }
  rewrite !Nat2Z.inj_add, !Hl.
  pose proof (one_type o o' t Ht) as Hone. cbv beta zeta in Hone. lia.
Qed.

Lemma inserted_disjoint o1 t1 q1 o2 t2 q2 x :
  q1 ∈ free_list (inserted f p o t z) o1 t1 → q2 ∈ free_list (inserted f p o t z) o2 t2 →
  in_block q1 o1 x → in_block q2 o2 x → q1 = q2.
Proof using W Hown Hf.
  intros [(-> & -> & ->)|H1]%inserted_list [(-> & -> & ->)|H2]%inserted_list X1 X2; [done| | |].
  - destruct (Hown x X1) as (_ & _ & _ & _ & []). by exists o2, t2, q2.
  - destruct (Hown x X2) as (_ & _ & _ & _ & []). by exists o1, t1, q1.
  - by apply (wf_disjoint z W o1 t1 q1 o2 t2 q2 x).
Qed.

Lemma inserted_coalesced o' t1 t2 q :
  q ∈ free_list (inserted f p o t z) o' t1 → (o' < MAX_ORDER - 1)%nat →
  __find_buddy_pfn q o' ∉ free_list (inserted f p o t z) o' t2.
Proof using W Hal Hbuddy Hf.
  clear - W Hal Hbuddy Hf. intros [(-> & -> & ->)|Hq]%inserted_list Ho' [(Hb & Eo & _)|Hb]%inserted_list.
  - destruct (buddy_spec p o Hal) as [(_ & E & _)|(_ & E & _)]; rewrite E in Hb; pose proof (bsize_pos o); lia.
  - by apply (Hbuddy Ho' t2).
  - subst o'. apply (Hbuddy Ho' t1). by rewrite <- Hb, buddy_involutive.
  - by apply (wf_coalesced z W o' t1 t2 q).
Qed.

Lemma inserted_wf : wf (inserted f p o t z).
Proof using All.
  split.
  - apply W.
  - apply W.
  - intros o' u q [(-> & -> & ->)|Hq]%inserted_list; [done|]. by apply (wf_range z W o' u q).
  - intros o' u q [(-> & -> & ->)|Hq]%inserted_list; [by rewrite inserted_page|].
    rewrite inserted_page_ne by (by eapply inserted_unlisted). by apply (wf_head z W o' u q).
  - apply inserted_state.
  - intros q Hz Hb. destruct (decide (q = p)) as [->|Hne].
    { exists o, t. apply inserted_list. auto. }
    rewrite inserted_page_ne in Hz, Hb by done. destruct (wf_buddy z W q) as (o' & u & Hq); [done..|].
    exists o', u. apply inserted_list. auto.
  - intros q. destruct (decide (q = p)) as [->|Hne].
    + rewrite inserted_page. intros _. apply quiet_refcount, (Hown p (head_in_block p o)).
    + rewrite inserted_page_ne by done. apply W.
  - intros o' t1 t2 q H1%inserted_list H2%inserted_list.
    destruct H1 as [(-> & -> & ->)|H1], H2 as [(E & _ & ->)|H2]; [done| | |].
    + by destruct (inserted_unlisted p o t2).
    + by destruct (inserted_unlisted q o' t1).
    + by apply (wf_one z W o' t1 t2 q).
  - intros o' u. cbn [inserted free_list with_lists]. unfold upd_list. case_decide as Hd; [|apply W].
    destruct Hd as [-> ->]. rewrite Hf. apply NoDup_cons_2; [|apply W]. by eapply owned_unlisted, head_in_block.
  - apply inserted_disjoint.
  - intros o'. rewrite inserted_total. cbn [inserted nr_free with_lists]. rewrite <- (wf_count z W).
    destruct (decide (o' = o)) as [->|]; [by rewrite fn_lookup_insert|]. rewrite fn_lookup_insert_ne by done. lia.
  - apply inserted_coalesced.
Qed.

Lemma inserted_count : free_count (inserted f p o t z) = free_count z + bsize o.
Proof using Ho. clear - Ho. unfold inserted, set_page. rewrite free_count_upd by done. lia. Qed.

Lemma inserted_same : same_zone z (inserted f p o t z).
Proof using. done. Qed.

End Insert.

(** ** A zone without free pages, for the witnesses *)

Definition demo_page : page := MkPage 0 0 0 0 0 U32_MAX 0.
Definition demo_empty : zone :=
  MkZone 0 0 2048 2048 true (λ _ _, []) (λ _, 0) (λ _, demo_page) (λ _, 0) 0 0 0 false 0.

Lemma demo_empty_free x : ¬ free_page demo_empty x.
Proof. intros (o & t & p & Hp & _). by apply elem_of_nil in Hp. Qed.

Lemma demo_empty_wf : wf demo_empty.
Proof.
  split; try done; try (intros; cbn [demo_empty free_list] in *; by apply elem_of_nil in H).
  intros o t. apply NoDup_nil_2.
Qed.

Lemma demo_owned p o : 0 ≤ p → p + bsize o ≤ 2048 → owned demo_empty p o.
Proof.
  intros H1 H2 x Hx. unfold in_block in Hx. split_and!; try done; [|apply demo_empty_free].
  unfold zone_spans_pfn. cbn. lia.
Qed.

End BuddySpec.
