(* ===== verification/PageBlock.v ===== *)
(** * The pageblock bitmap

    Four bits per pageblock in 64-bit words, read and written under a mask:
    writing the type of one pageblock is read back there and nowhere else. *)

From stdpp Require Import base numbers list option sets functions.
From Stdlib Require Import ZArith Lia.
From S2P Require Import Prelude Buddy BuddySpec.

Open Scope Z_scope.

Module PageBlock.
Import Buddy BuddySpec.

Lemma pageblock_start x : 0 ≤ x < 2 ^ 64 →
  Z.land x (Z.lxor ULONG_MAX (pageblock_nr_pages - 1)) = x / 1024 * 1024.
Proof.
  intros Hx. change (Z.lxor ULONG_MAX (pageblock_nr_pages - 1)) with (Z.ldiff (Z.ones 64) (Z.ones 10)).
  assert (E : Z.land x (Z.ldiff (Z.ones 64) (Z.ones 10)) = Z.ldiff x (Z.ones 10)).
  { apply Z.bits_inj'. intros i Hi. rewrite Z.land_spec, !Z.ldiff_spec. destruct (decide (i < 64)).
    - rewrite (Z.ones_spec_low 64) by lia. by destruct (Z.testbit x i).
    - rewrite (Z.bits_above_log2 x i); [done|lia|]. destruct (decide (x = 0)) as [->|]; [simpl; lia|].
      apply Z.log2_lt_pow2; [lia|]. apply Z.lt_le_trans with (2 ^ 64); [lia|]. apply Z.pow_le_mono_r; lia. }
  rewrite E, Z.ldiff_ones_r, shiftl_mul, shiftr_div by lia. done.
Qed.

(** The pageblock of a frame. *)
Definition pageblock_of (z : zone) (x : Z) : Z := (x - zone_start_pfn z / 1024 * 1024) / 1024.

Lemma bitidx_spec z x : wf z → zone_spans_pfn z x = true → pfn_to_bitidx z x = 4 * pageblock_of z x ∧ 0 ≤ pageblock_of z x.
Proof.
  intros W Hx. pose proof (wf_pfn z x W Hx). pose proof (wf_span z W). unfold zone_spans_pfn in Hx.
  assert (zone_start_pfn z / 1024 * 1024 ≤ zone_start_pfn z) by (pose proof (Z.mul_div_le (zone_start_pfn z) 1024); lia).
  assert (0 ≤ zone_start_pfn z / 1024) by (apply Z.div_pos; lia).
  unfold pfn_to_bitidx, pageblock_of. rewrite pageblock_start, u64_id by lia.
  change (Z.of_nat pageblock_order) with 10. rewrite shiftr_div by lia. change NR_PAGEBLOCK_BITS with 4. change (2 ^ 10) with 1024.
  split; [lia|]. apply Z.div_pos; lia.
Qed.

(** Word and shift of the four bits of pageblock [n]. *)
Lemma word_of n : 4 * n / BITS_PER_LONG = n / 16.
Proof. change BITS_PER_LONG with (4 * 16). rewrite Z.div_mul_cancel_l by lia. done. Qed.

Lemma shift_of n : Z.land (4 * n) (BITS_PER_LONG - 1) = 4 * (n mod 16).
Proof.
  change (BITS_PER_LONG - 1) with (2 ^ 6 - 1). rewrite land_ones_mod by lia.
  change (2 ^ 6) with (4 * 16). by rewrite Z.mul_mod_distr_l by lia.
Qed.

Lemma testbit_7 i : 0 ≤ i → Z.testbit 7 i = (i <? 3).
Proof. intros Hi. change 7 with (Z.ones 3). rewrite Z.testbit_ones_nonneg by lia. done. Qed.

(** Replacing the three bits at [s] of a word, and reading three bits at [s']. *)
Lemma field_write w v s s' i :
  0 ≤ v < 8 → 0 ≤ s ≤ 60 → 0 ≤ s' ≤ 60 → s' = s ∨ s' + 3 ≤ s ∨ s + 3 ≤ s' → 0 ≤ i →
  Z.testbit (Z.land (Z.shiftr (Z.lor (Z.land w (Z.lxor ULONG_MAX (Z.shiftl 7 s))) (Z.shiftl v s)) s') 7) i =
  if decide (s' = s) then Z.testbit v i else Z.testbit (Z.land (Z.shiftr w s') 7) i.
Proof.
  intros Hv Hs Hs' Hd Hi. change ULONG_MAX with (Z.ones 64).
  rewrite !Z.land_spec, !Z.shiftr_spec, Z.lor_spec, Z.land_spec, Z.lxor_spec, !Z.shiftl_spec by lia.
  rewrite (testbit_7 i) by done. destruct (Z.ltb_spec i 3).
  - rewrite !andb_true_r, Z.ones_spec_low by lia. destruct (decide (s' = s)) as [->|].
    + replace (i + s - s) with i by lia. rewrite testbit_7 by lia. rewrite (proj2 (Z.ltb_lt i 3)) by lia. cbn.
      by rewrite andb_false_r.
    + assert (Z.testbit 7 (i + s' - s) = false ∧ Z.testbit v (i + s' - s) = false) as [-> ->].
      { destruct (Z.ltb_spec (i + s' - s) 0); [by rewrite !Z.testbit_neg_r by lia|]. split.
        - rewrite testbit_7 by lia. apply Z.ltb_ge. lia.
        - rewrite <- (Z.mod_small v (2 ^ 3)) by lia. apply Z.mod_pow2_bits_high. lia. }
      cbn. by rewrite andb_true_r, orb_false_r.
  - rewrite !andb_false_r. destruct (decide (s' = s)); [|done]. symmetry.
    rewrite <- (Z.mod_small v (2 ^ 3)) by lia. apply Z.mod_pow2_bits_high. lia.
Qed.

Lemma get_set_pageblock z v x y :
  wf z → zone_spans_pfn z x = true → zone_spans_pfn z y = true → 0 ≤ v < 8 →
  ∃ z', set_pfnblock_flags_mask z v x MIGRATETYPE_MASK = Ok z' ∧
    get_pageblock_migratetype z' y = if decide (pageblock_of z y = pageblock_of z x) then v else get_pageblock_migratetype z y.
Proof.
  intros W Hx Hy Hv. unfold set_pfnblock_flags_mask. rewrite Hx. cbn [negb]. eexists. split; [reflexivity|].
  destruct (bitidx_spec z x W Hx) as [Ex Px], (bitidx_spec z y W Hy) as [Ey Py].
  unfold get_pageblock_migratetype, get_pfnblock_flags_mask.
  match goal with |- context [pfn_to_bitidx (with_flags ?f z) y] => change (pfn_to_bitidx (with_flags f z) y) with (pfn_to_bitidx z y) end.
  cbn [pageblock_flags with_flags]. rewrite Ex, Ey, !word_of, !shift_of.
  set (a := pageblock_of z x) in *. set (b := pageblock_of z y) in *. change MIGRATETYPE_MASK with 7.
  pose proof (Z.mod_pos_bound a 16). pose proof (Z.mod_pos_bound b 16).
  assert (Hsh : ∀ u, 0 ≤ u < 8 → 0 ≤ Z.shiftl u (4 * (a mod 16)) < 2 ^ 64).
  { intros u Hu. rewrite shiftl_mul by lia. pose proof (Z.pow_pos_nonneg 2 (4 * (a mod 16))).
    assert (2 ^ (4 * (a mod 16)) ≤ 2 ^ 60) by (apply Z.pow_le_mono_r; lia). pow2. nia. }
  rewrite !u64_id by (apply Hsh; lia). destruct (decide (b / 16 = a / 16)) as [Hw|Hw].
  - rewrite Hw, fn_lookup_insert. apply Z.bits_inj'. intros i Hi.
    rewrite field_write by lia. pose proof (Z.div_mod a 16). pose proof (Z.div_mod b 16).
    destruct (decide (4 * (b mod 16) = 4 * (a mod 16))), (decide (b = a)); try done; lia.
  - rewrite fn_lookup_insert_ne by done. rewrite decide_False by congruence. done.
Qed.

(** Every pageblock of the zone has one of the types in use. *)
Definition types_ok (z : zone) : Prop :=
  ∀ x, zone_spans_pfn z x = true → 0 ≤ get_pageblock_migratetype z x < MIGRATE_TYPES.

Lemma types_same z z' : same_zone z z' → pageblock_flags z' = pageblock_flags z → types_ok z → types_ok z'.
Proof.
  intros Hs Hf H x Hx. rewrite (same_zone_spans z z' x Hs) in Hx. specialize (H x Hx).
  unfold get_pageblock_migratetype, get_pfnblock_flags_mask, pfn_to_bitidx in *. rewrite Hf.
  destruct Hs as (_ & -> & _). done.
Qed.

Lemma set_pageblock_types vm z p mt z' :
  wf z → zone_spans_pfn z p = true → 0 ≤ mt < MIGRATE_TYPES →
  set_pageblock_migratetype vm z p mt = Ok z' → types_ok z → types_ok z'.
Proof.
  unfold set_pageblock_migratetype. intros W Hp Hmt Hset Hty x Hx. unfold MIGRATE_TYPES in *.
  match type of Hset with set_pfnblock_flags_mask _ ?u _ _ = _ => set (v := u) in Hset end. assert (0 ≤ v < 4) by (unfold v, MIGRATE_UNMOVABLE; zcase; lia).
  assert (Hs : same_zone z z').
  { unfold set_pfnblock_flags_mask in Hset. rewrite Hp in Hset. cbn [negb] in Hset. by injection Hset as <-. }
  rewrite (same_zone_spans z z' x Hs) in Hx.
  destruct (get_set_pageblock z v p x) as (z1 & E & G); [done|done|done|lia|]. rewrite E in Hset. injection Hset as <-.
  rewrite G. case_decide; [lia|]. by apply Hty.
Qed.

(** Writing a pageblock's type under the mask of three bits is read back
    for every frame of that pageblock, and the type of every other pageblock of
    the zone, in the same 64-bit word or not, is what it was. *)
Theorem pageblock_type_roundtrip z v x y :
  wf z → zone_spans_pfn z x = true → zone_spans_pfn z y = true → 0 ≤ v < 8 →
  ∃ z', set_pfnblock_flags_mask z v x MIGRATETYPE_MASK = Ok z' ∧
    get_pageblock_migratetype z' y = if decide (pageblock_of z y = pageblock_of z x) then v else get_pageblock_migratetype z y.
Proof. apply get_set_pageblock. Qed.

Lemma pageblock_type_roundtrip_witness :
  ∃ z', set_pfnblock_flags_mask demo_empty 2 5 MIGRATETYPE_MASK = Ok z' ∧
    get_pageblock_migratetype z' 1023 =
      if decide (pageblock_of demo_empty 1023 = pageblock_of demo_empty 5) then 2 else get_pageblock_migratetype demo_empty 1023.
Proof. apply (pageblock_type_roundtrip demo_empty 2 5 1023); [apply demo_empty_wf|done..]. Defined.

End PageBlock.
