(* ===== verification/BuddyFree.v ===== *)
(** * Freeing to the buddy allocator

    [__free_one_page]: the freed block and nothing else joins the free pages,
    merged with its buddies as far as they are free. *)

From stdpp Require Import base numbers list option sets functions.
From Stdlib Require Import ZArith Lia.
From S2P Require Import Prelude Buddy BuddySpec.

Open Scope Z_scope.

Module BuddyFree.
Import Buddy BuddySpec.

(** The buddy test never trips over a reference count, and on a page of the
    zone it tells whether the buddy is listed at that order. *)
Lemma page_is_buddy_ok z pfn b o :
  wf z → (o < MAX_ORDER)%nat →
  ∃ r, page_is_buddy z pfn b o = Ok r ∧
    (pg_zone (pages z pfn) = zone_idx z → r = true ↔ ∃ t, b ∈ free_list z o t).
Proof.
  intros W Ho. assert (Hu : ∀ n, (n < MAX_ORDER)%nat → u32 (Z.of_nat n) = Z.of_nat n).
  { intros n Hn. apply u32_id. unfold MAX_ORDER in Hn. lia. }
  unfold page_is_buddy, page_is_guard, debug_guardpage_enabled. cbn [andb negb].
  destruct (PageBuddy (pages z b)) eqn:Hb; cbn [negb].
  2: { exists false. split; [done|]. intros _. split; [done|]. intros [t Ht]. by rewrite (wf_free_buddy z o t b) in Hb. }
  destruct (Z.eqb_spec (u32 (pg_private (pages z b))) (Z.of_nat o)) as [Hp|Hp]; cbn [negb].
  2: { exists false. split; [done|]. intros _. split; [done|]. intros [t Ht].
       destruct (wf_head z W o t b Ht) as [_ E]. rewrite E, Hu in Hp by done. done. }
  destruct (Z.eqb_spec (pg_zone (pages z pfn)) (pg_zone (pages z b))) as [Hz|Hz]; cbn [negb].
  - rewrite (wf_refs z W b Hb). exists true. split; [done|]. intros E. split; [|done]. intros _.
    destruct (wf_buddy z W b) as (o' & t & Ht); [right; congruence|done|].
    destruct (wf_head z W o' t b Ht) as [_ E']. rewrite E', Hu in Hp by apply (wf_range z W o' t b Ht).
    assert (o' = o) as -> by lia. eauto.
  - exists false. split; [done|]. intros E. split; [done|]. intros [t Ht].
    destruct (wf_state z W o t b b Ht (head_in_block b o)) as (_ & E' & _). congruence.
Qed.

Lemma page_is_buddy_total z pfn b o :
  (∀ q, PageBuddy (pages z q) = true → pg_refcount (pages z q) = 0) → ∃ r, page_is_buddy z pfn b o = Ok r.
Proof.
  intros Hrefs. unfold page_is_buddy, page_is_guard, debug_guardpage_enabled. cbn [andb negb].
  destruct (PageBuddy (pages z b)) eqn:Hb; cbn [negb]; [|eauto]. rewrite (Hrefs b Hb). cbn [negb Z.eqb].
  repeat zcase; eauto.
Qed.

(** A block and its buddy make the block of the next order. *)
Lemma combined_block p o (b := __find_buddy_pfn p o) (c := Z.land b p) :
  aligned p o → aligned c (S o) ∧ ∀ x, in_block c (S o) x ↔ in_block p o x ∨ in_block b o x.
Proof.
  intros Hal. unfold c, b, in_block. rewrite bsize_S. pose proof (bsize_pos o).
  destruct (buddy_spec p o Hal) as [(Ha & -> & ->)|(Ha & -> & ->)]; (split; [done|]); intros x; lia.
Qed.

Lemma combined_owned z p o t (b := __find_buddy_pfn p o) :
  wf z → aligned p o → owned z p o → b ∈ free_list z o t → owned (deleted b o z) (Z.land b p) (S o).
Proof.
  intros W Hal Hown Hb x Hx. apply combined_block in Hx as [Hx|Hx]; [| |done].
  - destruct (Hown x Hx) as (Hs & Hz & Hq & Ht & Hf). rewrite deleted_page_ne.
    + rewrite (deleted_free z b o t) by done. tauto.
    + intros ->. by apply (owned_unlisted z p o t b o Hown Hx).
  - by apply (deleted_owned z b o t).
Qed.

(** What the loop guarantees of the block it ends with. *)
Definition merged_ok (z : zone) (p : Z) (o : nat) (z' : zone) (p' : Z) (o' : nat) : Prop :=
  wf z' ∧ same_zone z z' ∧ (o ≤ o' < MAX_ORDER)%nat ∧ aligned p' o' ∧ owned z' p' o' ∧
  (∀ x, free_page z' x ∨ in_block p' o' x ↔ free_page z x ∨ in_block p o x) ∧
  (∀ x, ¬ in_block p' o' x → pages z' x = pages z x) ∧
  (∀ x, in_block p o x → in_block p' o' x) ∧
  pageblock_flags z' = pageblock_flags z ∧
  free_count z' + bsize o' = free_count z + bsize o.

Lemma coalesce_loop_ok n : ∀ capc mt z p o b0,
  wf z → (o + n = MAX_ORDER - 1)%nat → aligned p o → owned z p o →
  ∃ z' r, coalesce_loop n capc mt z p o b0 = Ok (z', r) ∧
    match r with
    | Done p' o' b' =>
        merged_ok z p o z' p' o' ∧ nr_free_pages z' = nr_free_pages z ∧
        ((o' < MAX_ORDER - 1)%nat → b' = __find_buddy_pfn p' o' ∧ ∀ t, b' ∉ free_list z' o' t)
    | Captured p' => ∃ o', compaction_capture capc o' mt = true ∧ merged_ok z p o z' p' o' ∧
        nr_free_pages z' = nr_free_pages z - bsize o'
    end.
Proof.
  induction n as [|n IH]; intros capc mt z p o b0 W Hn Hal Hown; cbn [coalesce_loop].
  { exists z, (Done p o b0). unfold merged_ok. split_and!; try done; unfold MAX_ORDER in *; lia. }
  destruct (compaction_capture capc o mt) eqn:Hc.
  { eexists _, _. split; [reflexivity|]. exists o. unfold merged_ok. split_and!; try done; unfold MAX_ORDER in *; try lia.
    destruct W; split; done. }
  destruct (page_is_buddy_ok z p (__find_buddy_pfn p o) o) as (r & Hr & Hr'); [done|unfold MAX_ORDER in *; lia|].
  rewrite Hr. cbn [mbind outcome_bind]. specialize (Hr' (proj1 (proj2 (Hown p (head_in_block p o))))).
  destruct r; cbn [negb].
  2: { eexists _, _. split; [reflexivity|]. unfold merged_ok. split_and!; try done; try (unfold MAX_ORDER in *; lia).
       intros _. split; [done|]. intros t Ht. assert (false = true) by (apply Hr'; eauto). done. }
  destruct (proj1 Hr' eq_refl) as [t Ht]. unfold page_is_guard, debug_guardpage_enabled. cbn [andb].
  rewrite (deleted_spec z _ o t) by done. cbn [mbind outcome_bind].
  set (b := __find_buddy_pfn p o) in *. destruct (combined_block p o Hal) as [Hal' Hin]. fold b in Hal', Hin.
  destruct (IH capc mt (deleted b o z) (Z.land b p) (S o) b) as (z' & r & -> & H).
  { by apply (deleted_wf z b o t). }
  { lia. }
  { done. }
  { by apply (combined_owned z p o t). }
  exists z', r. split; [done|].
  assert (Hm : ∀ p' o', merged_ok (deleted b o z) (Z.land b p) (S o) z' p' o' → merged_ok z p o z' p' o').
  { intros p' o' (W' & Hs & Ho & Ha & Hown' & Hfree & Hpg & Hsub & Hfl & Hcnt). unfold merged_ok. split_and!; try done; try lia.
    - intros x. rewrite Hfree, (deleted_free z b o t), Hin by done.
      assert (in_block b o x → free_page z x) by (intros; by exists o, t, b).
      split; [tauto|]. intros [Hf|Hx]; [|tauto]. destruct (decide (b ≤ x < b + bsize o)); unfold in_block in *; tauto.
    - intros x Hx. rewrite Hpg by done. apply deleted_page_ne. intros ->. apply Hx, Hsub, Hin.
      right. apply head_in_block.
    - intros x Hx. apply Hsub, Hin. by left.
    - rewrite Hcnt, (deleted_count z b o t), bsize_S by done. lia. }
  destruct r as [p' o' b'|p']; [|destruct H as (o' & ? & ? & ?); eauto].
  destruct H as (H & Hnr & Hb). split_and!; [by apply Hm|done|done].
Qed.

(** The state after a block was freed or captured. *)
Definition freed (z : zone) (p : Z) (o : nat) (z' : zone) : Prop :=
  wf z' ∧ same_zone z z' ∧ (∀ x, free_page z' x ↔ free_page z x ∨ in_block p o x) ∧
  (∀ x, ¬ free_page z' x → pages z' x = pages z x) ∧ pageblock_flags z' = pageblock_flags z ∧
  free_count z' = free_count z + bsize o ∧ nr_free_pages z' = nr_free_pages z + bsize o.

(** Listing the block the loop ended with, at either end. *)
Lemma list_merged z p o z' p' o' mt f :
  merged_ok (__mod_zone_freepage_state z (bsize o)) p o z' p' o' → 0 ≤ mt < MIGRATE_TYPES → (∀ l, f l ≡ₚ p' :: l) →
  ((o' < MAX_ORDER - 1)%nat → ∀ t, __find_buddy_pfn p' o' ∉ free_list z' o' t) →
  nr_free_pages z' = nr_free_pages z + bsize o →
  freed z p o (inserted f p' o' mt z').
Proof.
  intros (W' & Hs & Ho & Ha & Hown & Hfree & Hpg & Hsub & Hfl & Hcnt) Hmt Hf Hb Hnr.
  assert (Hins : ∀ x, free_page (inserted f p' o' mt z') x ↔ free_page z x ∨ in_block p o x).
  { intros x. by rewrite inserted_free, Hfree by done. }
  unfold freed. split_and!; try done.
  - apply inserted_wf; try done. lia.
  - intros x Hx. rewrite inserted_free in Hx by done. rewrite inserted_page_ne.
    + apply Hpg. tauto.
    + intros ->. apply Hx. right. apply head_in_block.
  - change (free_count (__mod_zone_freepage_state z (bsize o))) with (free_count z) in Hcnt.
    rewrite inserted_count by lia. lia.
Qed.

Lemma free_one_page_ok z p o mt capc :
  wf z → (o < MAX_ORDER)%nat → 0 ≤ mt < MIGRATE_TYPES → aligned p o → owned z p o →
  ∃ z' r, __free_one_page z p o mt capc = Ok (z', r) ∧
    match r with
    | None => freed z p o z'
    | Some page => ∃ o', compaction_capture capc o' mt = true ∧ merged_ok z p o z' page o' ∧
        nr_free_pages z' - free_count z' = nr_free_pages z - free_count z
    end.
Proof.
  intros W Ho Hmt Hal Hown. destruct (Hown p (head_in_block p o)) as (Hs & Hz & Hq & Ht & Hf).
  unfold __free_one_page. rewrite (wf_init z W), (quiet_flags _ Hq). cbn [negb Z.eqb].
  rewrite (proj2 (Z.eqb_neq mt (-1))) by (unfold MIGRATE_TYPES in Hmt; lia). rewrite (proj2 (aligned_mask p o) Hal). cbn [negb Z.eqb].
  set (z0 := __mod_zone_freepage_state z (bsize o)).
  assert (Hbad : bad_range z0 p = false).
  { unfold bad_range. change (zone_spans_pfn z0 p) with (zone_spans_pfn z p).
    change (pages z0 p) with (pages z p). rewrite Hs, Hz. change (zone_idx z0) with (zone_idx z). by rewrite Z.eqb_refl. }
  rewrite Hbad. change (Nat.min MAX_ORDER (pageblock_order + 1)) with MAX_ORDER.
  destruct (coalesce_loop_ok (MAX_ORDER - 1 - o) capc mt z0 p o 0) as (z' & r & -> & H).
  { destruct W; split; done. }
  { lia. }
  { done. }
  { done. }
  cbn [mbind outcome_bind]. destruct r as [p' o' b'|p'].
  2: { destruct H as (o' & Hcap & Hm & Hnr). exists z', (Some p'). split; [done|]. exists o'. split_and!; try done.
       pose proof (proj2 (proj2 (proj2 (proj2 (proj2 (proj2 (proj2 (proj2 (proj2 Hm))))))))) as Hcnt.
       change (free_count z0) with (free_count z) in Hcnt.
       change (nr_free_pages z0) with (nr_free_pages z + bsize o) in Hnr. lia. }
  destruct H as (Hm & Hnr & Hb). pose proof Hm as (W' & _ & Ho' & Ha' & Hown' & _).
  destruct (Hown' p' (head_in_block p' o')) as (Hs' & Hz' & _ & Ht' & _).
  rewrite set_page_order_spec by done. cbn [mbind outcome_bind].
  match goal with |- context [buddy_merge_likely ?s _ _ _] => set (z1 := s) end.
  assert (∃ r, buddy_merge_likely z1 p' b' o' = Ok r) as [r Hr].
  { unfold buddy_merge_likely. destruct (Nat.leb_spec (MAX_ORDER - 2) o'); [eauto|].
    apply page_is_buddy_total. intros q. unfold z1, set_page. cbn [pages with_pages]. destruct (decide (q = p')) as [->|Hne].
    - rewrite fn_lookup_insert. intros _. by apply quiet_refcount, (Hown' p' (head_in_block p' o')).
    - rewrite fn_lookup_insert_ne by done. apply W'. }
  rewrite Hr. cbn [mbind outcome_bind]. eexists _, None. split; [reflexivity|].
  destruct r.
  - apply (list_merged z p o z' p' o' mt (λ l, l ++ [p'])); try done.
    + intros l. symmetry. apply Permutation_cons_append.
    + intros Hlt t. destruct (Hb Hlt) as [<- Hn]. apply Hn.
  - apply (list_merged z p o z' p' o' mt (λ l, p' :: l)); try done.
    intros Hlt t. destruct (Hb Hlt) as [<- Hn]. apply Hn.
Qed.

End BuddyFree.
