(* ===== verification/BuddyAlloc.v ===== *)
(** * Allocating from the buddy allocator

    [expand], [__rmqueue_smallest], the fallback between migrate types and
    [__rmqueue]: a block is found whenever the lists the request may use have
    one, it leaves the free pages and nothing else does, and the retry loop
    runs at most twice. *)

From stdpp Require Import base numbers list option sets functions.
From Stdlib Require Import ZArith Lia.
From S2P Require Import Prelude Buddy BuddySpec PageBlock.

Open Scope Z_scope.

Module BuddyAlloc.
Import Buddy BuddySpec PageBlock.

(** ** Splitting *)

Lemma owned_sub z p o q o' : owned z p o → (∀ x, in_block q o' x → in_block p o x) → owned z q o'.
Proof. intros Hown Hsub x Hx. by apply Hown, Hsub. Qed.

Lemma lower_half p o x : in_block p o x → in_block p (S o) x.
Proof. unfold in_block. rewrite bsize_S. pose proof (bsize_pos o). lia. Qed.

Lemma upper_half p o x : in_block (p + bsize o) o x → in_block p (S o) x.
Proof. unfold in_block. rewrite bsize_S. pose proof (bsize_pos o). lia. Qed.

Lemma halves p o x : in_block p (S o) x ↔ in_block p o x ∨ in_block (p + bsize o) o x.
Proof. unfold in_block. rewrite bsize_S. pose proof (bsize_pos o). lia. Qed.

Lemma halves_apart p o x : in_block p o x → ¬ in_block (p + bsize o) o x.
Proof. unfold in_block. pose proof (bsize_pos o). lia. Qed.

Lemma upper_buddy p o : aligned p (S o) → __find_buddy_pfn (p + bsize o) o = p.
Proof.
  intros Hal. rewrite <- (buddy_involutive p o) at 2. f_equal. symmetry.
  pose proof (bsize_pos o) as Hpos. destruct (buddy_spec p o) as [(_ & E & _)|(Ha & E & _)].
  - by apply (aligned_order_le p o (S o)); [|lia].
  - exact E.
  - exfalso. apply aligned_mult in Hal as [k Hk]. apply aligned_mult in Ha as [j Hj]. rewrite bsize_S in *.
    assert ((2 * (k - j) - 1) * bsize o = 0) as [|]%Z.mul_eq_0; lia.
Qed.

(** The upper half of a block in hand goes to a list. *)
Lemma split_upper z p o t (z' := inserted (λ l, (p + bsize o) :: l) (p + bsize o) o t z) :
  wf z → (S o < MAX_ORDER)%nat → 0 ≤ t < MIGRATE_TYPES → aligned p (S o) → owned z p (S o) →
  bad_range z (p + bsize o) = false ∧
  set_page_order (add_to_free_list (p + bsize o) z o t) (p + bsize o) o = Ok z' ∧
  wf z' ∧ owned z' p o ∧ (∀ x, free_page z' x ↔ free_page z x ∨ in_block (p + bsize o) o x) ∧
  free_count z' = free_count z + bsize o.
Proof.
  intros W Ho Ht Hal Hown. assert (Hup : owned z (p + bsize o) o).
  { eapply owned_sub; [done|]. intros x. apply upper_half. }
  destruct (Hup _ (head_in_block _ _)) as (Hs & Hz & _ & Hty & _).
  assert (Hfree : ∀ x, free_page z' x ↔ free_page z x ∨ in_block (p + bsize o) o x).
  { intros x. by apply inserted_free. }
  split_and!; try done.
  - unfold bad_range. by rewrite Hs, Hz, Z.eqb_refl.
  - rewrite set_page_order_spec by done. reflexivity.
  - apply inserted_wf; try done; [lia|by apply aligned_half|].
    intros _ u. rewrite upper_buddy by done. by apply (owned_unlisted z p (S o)), head_in_block.
  - intros x Hx. pose proof (halves_apart p o x Hx) as Hna. destruct (Hown x (lower_half p o x Hx)) as (? & ? & ? & ? & ?).
    rewrite Hfree. unfold z'. rewrite inserted_page_ne by (intros ->; apply Hna, head_in_block). tauto.
  - apply inserted_count. lia.
Qed.

Lemma expand_loop_ok n : ∀ z p low t,
  wf z → (low + n < MAX_ORDER)%nat → 0 ≤ t < MIGRATE_TYPES → aligned p (low + n) → owned z p (low + n) →
  ∃ z', expand_loop n z p low t = Ok z' ∧ wf z' ∧ same_zone z z' ∧ owned z' p low ∧
    (∀ x, free_page z' x ∨ in_block p low x ↔ free_page z x ∨ in_block p (low + n) x) ∧
    (∀ x, ¬ in_block p (low + n) x → pages z' x = pages z x) ∧
    pageblock_flags z' = pageblock_flags z ∧ nr_free_pages z' = nr_free_pages z ∧
    free_count z' + bsize low = free_count z + bsize (low + n).
Proof.
  induction n as [|n IH]; intros z p low t W Hlo Ht Hal Hown; cbn [expand_loop].
  { rewrite Nat.add_0_r in *. exists z. split_and!; done. }
  rewrite Nat.add_succ_r in *. unfold set_page_guard, debug_guardpage_enabled. cbn [negb].
  destruct (split_upper z p (low + n) t) as (Hb & -> & W1 & Hown1 & Hf1 & Hc1); [done..|]. rewrite Hb. cbn [mbind outcome_bind].
  destruct (IH (inserted (λ l, (p + bsize (low + n)) :: l) (p + bsize (low + n)) (low + n) t z) p low t)
    as (z' & -> & W' & Hs & Hown' & Hfree & Hpg & Hfl & Hnr & Hcnt); [done|lia|done| |done|].
  { by apply (aligned_order_le p (low + n) (S (low + n))); [|lia]. }
  exists z'. split_and!; try done.
  - intros x. rewrite Hfree, Hf1, halves. tauto.
  - intros x Hx. rewrite halves in Hx. rewrite Hpg by tauto. apply inserted_page_ne. intros ->.
    apply Hx. right. apply head_in_block.
  - rewrite Hcnt, Hc1, bsize_S. lia.
Qed.

(** ** Zones that differ outside what the invariant reads *)

Definition same_page (p q : page) : Prop := set_index 0 p = set_index 0 q.

Lemma same_page_fields p q :
  same_page p q → pg_zone p = pg_zone q ∧ pg_private p = pg_private q ∧ pg_type p = pg_type q ∧
    pg_refcount p = pg_refcount q ∧ PageBuddy p = PageBuddy q ∧ (quiet p ↔ quiet q).
Proof. destruct p, q. unfold same_page, set_index. cbn. intros [= -> -> -> -> -> ->]. done. Qed.

Record same_lists (z z' : zone) : Prop := SameLists {
  sl_zone : same_zone z z';
  sl_list o t : free_list z' o t = free_list z o t;
  sl_nr o : nr_free z' o = nr_free z o;
  sl_page x : same_page (pages z' x) (pages z x) }.

Lemma same_lists_free z z' x : same_lists z z' → free_page z' x ↔ free_page z x.
Proof. intros [_ Hl _ _]. unfold free_page. by setoid_rewrite Hl. Qed.

Lemma same_lists_wf z z' : same_lists z z' → wf z → wf z'.
Proof.
  intros [Hs Hl Hn Hp] W. pose proof Hs as (Hi & Hb1 & Hb2 & Hini & _).
  assert (Hst : ∀ h x, free_state z h x → free_state z' h x).
  { intros h x. unfold free_state. rewrite (same_zone_spans z z' x Hs), Hi.
    destruct (same_page_fields _ _ (Hp x)) as (-> & _ & -> & _ & _ & ->). done. }
  split.
  - rewrite Hini. apply W.
  - rewrite Hb1, Hb2. apply W.
  - intros o t p. rewrite Hl. apply (wf_range z W).
  - intros o t p. rewrite Hl. destruct (same_page_fields _ _ (Hp p)) as (_ & -> & _). apply (wf_head z W).
  - intros o t p x. rewrite Hl. intros H Hx. by apply Hst, (wf_state z W o t).
  - intros p. rewrite (same_zone_spans z z' p Hs), Hi. destruct (same_page_fields _ _ (Hp p)) as (-> & _ & _ & _ & -> & _).
    intros H1 H2. setoid_rewrite Hl. by apply (wf_buddy z W).
  - intros p. destruct (same_page_fields _ _ (Hp p)) as (_ & _ & _ & -> & -> & _). apply (wf_refs z W).
  - intros o t t' p. rewrite !Hl. apply (wf_one z W).
  - intros o t. rewrite Hl. apply (wf_nodup z W).
  - intros o t p o' t' q x. rewrite !Hl. apply (wf_disjoint z W).
  - intros o. unfold listed_total. rewrite !Hl, Hn. apply (wf_count z W).
  - intros o t t' p. rewrite !Hl. apply (wf_coalesced z W).
Qed.

Lemma same_lists_owned z z' p o : same_lists z z' → owned z p o → owned z' p o.
Proof.
  intros S Hown x Hx. destruct (Hown x Hx) as (H1 & H2 & H3 & H4 & H5). destruct S as [Hs Hl Hn Hp] eqn:E. clear E.
  rewrite (same_zone_spans z z' x Hs), (same_lists_free z z' x) by done.
  destruct (same_page_fields _ _ (Hp x)) as (-> & _ & -> & _ & _ & ->). destruct Hs as (-> & _). done.
Qed.

Lemma same_lists_count z z' : same_lists z z' → free_count z' = free_count z.
Proof. intros [_ _ Hn _]. unfold free_count. f_equal. apply map_ext. intros o. by rewrite Hn. Qed.

(** ** The smallest block of a type *)

(** A block left the free pages for the caller. *)
Definition allocated (z : zone) (p : Z) (o : nat) (z' : zone) : Prop :=
  wf z' ∧ same_zone z z' ∧ aligned p o ∧ owned z' p o ∧ (∀ x, in_block p o x → free_page z x) ∧
  (∀ x, free_page z' x ↔ free_page z x ∧ ¬ in_block p o x) ∧
  (∀ x, ¬ free_page z x → pages z' x = pages z x) ∧
  free_count z' = free_count z - bsize o ∧ nr_free_pages z' = nr_free_pages z ∧ (types_ok z → types_ok z').

Lemma in_block_le p o o' x : (o ≤ o')%nat → in_block p o x → in_block p o' x.
Proof. intros Hle Hx. induction Hle; [done|]. by apply lower_half. Qed.

(** Taking the block [p] of order [c] down to order [o]. *)
Lemma take_block z p c t u o :
  wf z → p ∈ free_list z c t → 0 ≤ u < MIGRATE_TYPES → (o ≤ c)%nat →
  ∃ z', (z1 ← del_page_from_free_list p z c; z2 ← expand z1 p o c u;
         Ok (set_page p (set_index u (pages z2 p)) z2, Some p)) = Ok (z', Some p) ∧
    allocated z p o z' ∧ pg_index (pages z' p) = u ∧ pageblock_flags z' = pageblock_flags z.
Proof.
  intros W Hp Hu Hoc. destruct (wf_range z W c t p Hp) as [Hc _]. destruct (wf_head z W c t p Hp) as [Hal _].
  rewrite (deleted_spec z p c t) by done. cbn [mbind outcome_bind]. unfold expand.
  replace c with (o + (c - o))%nat in Hal, Hc at 1 by lia.
  destruct (expand_loop_ok (c - o) (deleted p c z) p o u) as (z2 & -> & W2 & Hs2 & Hown2 & Hfree & Hpg & Hfl & Hnr & Hcnt).
  { by apply (deleted_wf z p c t). }
  { done. }
  { done. }
  { done. }
  { replace (o + (c - o))%nat with c by lia. by apply (deleted_owned z p c t). }
  cbn [mbind outcome_bind]. eexists. split; [reflexivity|].
  set (z' := set_page p _ z2). replace (o + (c - o))%nat with c in * by lia.
  assert (S : same_lists z2 z').
  { split; try done. intros x. unfold z', set_page. cbn [pages with_pages]. destruct (decide (x = p)) as [->|].
    - by rewrite fn_lookup_insert.
    - by rewrite fn_lookup_insert_ne. }
  assert (Hin : ∀ x, in_block p c x → free_page z x) by (intros x Hx; by exists c, t, p).
  split; [|split; [|done]].
  2: { unfold z', set_page. cbn [pages with_pages]. by rewrite fn_lookup_insert. }
  unfold allocated. split_and!.
  - by apply (same_lists_wf z2).
  - done.
  - by apply (aligned_order_le p o c).
  - by apply (same_lists_owned z2).
  - intros x Hx. apply Hin. by apply (in_block_le p o c).
  - intros x. rewrite (same_lists_free z2 z' x S). specialize (Hfree x). rewrite (deleted_free z p c t) in Hfree by done.
    assert (in_block p o x → ¬ free_page z2 x) by (intros Hx; by destruct (Hown2 x Hx) as (_ & _ & _ & _ & ?)).
    assert (in_block p o x → in_block p c x) by (by apply in_block_le). specialize (Hin x).
    destruct (decide (p ≤ x < p + bsize c)); unfold in_block in *; tauto.
  - intros x Hx. unfold z', set_page. cbn [pages with_pages].
    assert (¬ in_block p c x) as Hnb by (intros H; by apply Hx, Hin).
    assert (x ≠ p) by (intros ->; apply Hnb, head_in_block).
    rewrite fn_lookup_insert_ne, Hpg, deleted_page_ne by done. done.
  - rewrite (same_lists_count z2 z' S). rewrite (deleted_count z p c t) in Hcnt by done. lia.
  - exact Hnr.
  - by apply types_same.
Qed.

Lemma smallest_loop_ok n : ∀ z o t,
  wf z → (n ≤ MAX_ORDER - o)%nat → 0 ≤ t < MIGRATE_TYPES →
  ∃ z' r, smallest_loop n z o t = Ok (z', r) ∧
    match r with
    | None => z' = z ∧ ∀ c, (MAX_ORDER - n ≤ c < MAX_ORDER)%nat → free_list z c t = []
    | Some p => allocated z p o z' ∧ pg_index (pages z' p) = t ∧ pageblock_flags z' = pageblock_flags z ∧
        ∃ c, (MAX_ORDER - n ≤ c < MAX_ORDER)%nat ∧ head (free_list z c t) = Some p
    end.
Proof.
  induction n as [|n IH]; intros z o t W Hn Ht; cbn [smallest_loop].
  { exists z, None. split; [done|]. split; [done|]. unfold MAX_ORDER in *. intros. lia. }
  unfold get_page_from_free_area. destruct (free_list z (MAX_ORDER - S n) t) as [|p l] eqn:El; cbn [head].
  - destruct (IH z o t) as (z' & r & -> & H); [done|lia|done|]. exists z', r. split; [done|]. destruct r as [p|].
    + destruct H as (? & ? & ? & c & ? & ?). split_and!; try done. exists c. split; [lia|done].
    + destruct H as [-> H]. split; [done|]. intros c Hc. destruct (decide (c = (MAX_ORDER - S n)%nat)) as [->|]; [done|].
      apply H. lia.
  - destruct (take_block z p (MAX_ORDER - S n) t t o) as (z' & -> & Ha & Hi & Hfl); [done| |done|lia|].
    { rewrite El. apply elem_of_cons. by left. }
    exists z', (Some p). split_and!; try done. exists (MAX_ORDER - S n)%nat. rewrite El. split; [|done].
    unfold MAX_ORDER in *. lia.
Qed.

Lemma rmqueue_smallest_ok z o t :
  wf z → (o < MAX_ORDER)%nat → 0 ≤ t < MIGRATE_TYPES →
  ∃ z' r, __rmqueue_smallest z o t = Ok (z', r) ∧
    match r with
    | None => z' = z ∧ ∀ c, (o ≤ c < MAX_ORDER)%nat → free_list z c t = []
    | Some p => allocated z p o z' ∧ pg_index (pages z' p) = t ∧ pageblock_flags z' = pageblock_flags z ∧
        ∃ c, (o ≤ c < MAX_ORDER)%nat ∧ head (free_list z c t) = Some p
    end.
Proof.
  intros W Ho Ht. destruct (smallest_loop_ok (MAX_ORDER - o) z o t) as (z' & r & H & Hr); [done..|].
  exists z', r. split; [done|]. replace (MAX_ORDER - (MAX_ORDER - o))%nat with o in Hr by lia. done.
Qed.

End BuddyAlloc.
