(* ===== verification/BuddyFallback.v ===== *)
(** * Falling back between migrate types

    Moving free blocks to another type's lists, stealing a pageblock, choosing
    what to steal, and [__rmqueue]. *)

From stdpp Require Import base numbers list option sets functions.
From Stdlib Require Import ZArith Lia.
From S2P Require Import Prelude Buddy BuddySpec PageBlock BuddyAlloc.

Open Scope Z_scope.

Module BuddyFallback.
Import Buddy BuddySpec PageBlock BuddyAlloc.

Definition listed (z : zone) (o : nat) (q : Z) : Prop := ∃ t, q ∈ free_list z o t.

(** ** Moving blocks *)

(** The same free blocks, some of them moved to the lists of type [t]. *)
Record reshuffled (t : Z) (z z' : zone) : Prop := Reshuffled {
  rs_wf : wf z';
  rs_zone : same_zone z z';
  rs_pages x : pages z' x = pages z x;
  rs_nr o : nr_free z' o = nr_free z o;
  rs_total : nr_free_pages z' = nr_free_pages z;
  rs_listed o q : listed z' o q ↔ listed z o q;
  rs_kept o q : q ∈ free_list z o t → q ∈ free_list z' o t;
  rs_types : types_ok z → types_ok z' }.

Lemma reshuffled_refl t z : wf z → reshuffled t z z.
Proof. by split. Qed.

Lemma reshuffled_trans t z1 z2 z3 : reshuffled t z1 z2 → reshuffled t z2 z3 → reshuffled t z1 z3.
Proof.
  intros A B. split.
  - apply B.
  - etrans; [apply A|apply B].
  - intros x. by rewrite (rs_pages _ _ _ B), (rs_pages _ _ _ A).
  - intros o. by rewrite (rs_nr _ _ _ B), (rs_nr _ _ _ A).
  - by rewrite (rs_total _ _ _ B), (rs_total _ _ _ A).
  - intros o q. by rewrite (rs_listed _ _ _ B), (rs_listed _ _ _ A).
  - intros o q Hq. by apply (rs_kept _ _ _ B), (rs_kept _ _ _ A).
  - intros H. by apply (rs_types _ _ _ B), (rs_types _ _ _ A).
Qed.

Lemma reshuffled_free t z z' x : reshuffled t z z' → free_page z' x ↔ free_page z x.
Proof.
  intros A. unfold free_page. split; intros (o & u & q & Hq & Hx).
  - destruct (proj1 (rs_listed _ _ _ A o q)) as [v Hv]; [by exists u|]. by exists o, v, q.
  - destruct (proj2 (rs_listed _ _ _ A o q)) as [v Hv]; [by exists u|]. by exists o, v, q.
Qed.

Lemma reshuffled_count t z z' : reshuffled t z z' → free_count z' = free_count z.
Proof. intros A. unfold free_count. f_equal. apply map_ext. intros o. by rewrite (rs_nr _ _ _ A). Qed.

(** Changes to counters and to the pageblock bitmap only. *)
Lemma reshuffled_fields t z z' :
  wf z → same_zone z z' → pages z' = pages z → nr_free z' = nr_free z → nr_free_pages z' = nr_free_pages z →
  free_list z' = free_list z → (types_ok z → types_ok z') → reshuffled t z z'.
Proof.
  intros W Hs Hp Hn Ht Hl Hty. split; try done.
  - apply (same_lists_wf z); [|done]. split; [done|by rewrite Hl|by rewrite Hn|by rewrite Hp].
  - intros x. by rewrite Hp.
  - intros o. by rewrite Hn.
  - intros o q. unfold listed. by rewrite Hl.
  - intros o q. by rewrite Hl.
Qed.

Lemma moved_list z p o t o' u q :
  q ∈ free_list (move_to_free_list p z o t) o' u ↔ (q = p ∧ o' = o ∧ u = t) ∨ (q ∈ free_list z o' u ∧ q ≠ p).
Proof.
  cbn [move_to_free_list free_list with_lists]. unfold upd_list. case_decide as Hd.
  - rewrite elem_of_cons, elem_of_lru_del. tauto.
  - rewrite elem_of_lru_del. tauto.
Qed.

(** Moving is deleting and inserting, which leaves page and counter as they
    were. *)
Lemma moved_wf z p o t u : wf z → p ∈ free_list z o u → 0 ≤ t < MIGRATE_TYPES → wf (move_to_free_list p z o t).
Proof.
  intros W Hp Ht. destruct (wf_range z W o u p Hp) as [Ho _]. destruct (wf_head z W o u p Hp) as [Hal Hpr].
  destruct (wf_state z W o u p p Hp (head_in_block p o)) as (_ & _ & _ & Hty). rewrite Z.eqb_refl in Hty.
  apply (same_lists_wf (inserted (λ l, p :: l) p o t (deleted p o z))).
  - split.
    + done.
    + done.
    + intros o'. cbn [inserted deleted move_to_free_list nr_free with_lists]. destruct (decide (o' = o)) as [->|].
      * rewrite !fn_lookup_insert. lia.
      * by rewrite !fn_lookup_insert_ne by done.
    + intros x. change (pages (move_to_free_list p z o t) x) with (pages z x). destruct (decide (x = p)) as [->|].
      * rewrite inserted_page, deleted_page. unfold same_page. rewrite <- Hty, <- Hpr. by destruct (pages z p).
      * by rewrite inserted_page_ne, deleted_page_ne by done.
  - apply inserted_wf; try done.
    + by apply (deleted_wf z p o u).
    + by apply (deleted_owned z p o u).
    + intros Hlt v [Hb _]%elem_of_lru_del. by apply (wf_coalesced z W o u v p).
Qed.

Lemma moved_ok z p o t u :
  wf z → p ∈ free_list z o u → 0 ≤ t < MIGRATE_TYPES →
  reshuffled t z (move_to_free_list p z o t) ∧ p ∈ free_list (move_to_free_list p z o t) o t.
Proof.
  intros W Hp Ht. split; [|apply moved_list; auto]. split; try done.
  - by apply (moved_wf z p o t u).
  - intros o' q. unfold listed. setoid_rewrite moved_list. split.
    + intros (v & [(-> & -> & ->)|[Hq _]]); eauto.
    + intros (v & Hq). destruct (decide (q = p)) as [->|]; [|eauto].
      exists t. left. by destruct (wf_same_order z o' v o u p) as [-> _].
  - intros o' q Hq. apply moved_list. destruct (decide (q = p)) as [->|]; [|auto].
    left. by destruct (wf_same_order z o' t o u p) as [-> _].
Qed.

(** [x] is not strictly inside a free block. *)
Definition no_straddle (z : zone) (x : Z) : Prop := ∀ o q, listed z o q → ¬ (q < x < q + bsize o).

Lemma head_page_order z o t p : wf z → p ∈ free_list z o t → page_order (pages z p) = o.
Proof.
  intros W Hp. destruct (wf_head z W o t p Hp) as [_ Hpr]. destruct (wf_range z W o t p Hp) as [Ho _].
  unfold page_order. rewrite Hpr, u32_id by (unfold MAX_ORDER in Ho; lia). apply Nat2Z.id.
Qed.

Lemma straddle_next z x : wf z → no_straddle z x → PageBuddy (pages z x) = false → no_straddle z (x + 1).
Proof.
  intros W Hx Hb o q [t Hq] Hin. destruct (decide (q = x)) as [->|].
  - by rewrite (wf_free_buddy z o t x) in Hb.
  - apply (Hx o q); [by exists t|lia].
Qed.

Lemma straddle_jump z x o t : wf z → x ∈ free_list z o t → no_straddle z (x + bsize o).
Proof.
  intros W Hx o' q [u Hq] Hin. pose proof (bsize_pos o).
  assert (q = x) as ->.
  { apply (wf_disjoint z W o' u q o t x (x + bsize o - 1)); try done; unfold in_block; lia. }
  destruct (wf_same_order z o' u o t x) as [-> _]; [done..|]. lia.
Qed.

Lemma reshuffled_straddle t z z' x : reshuffled t z z' → no_straddle z x → no_straddle z' x.
Proof. intros A H o q Hq. apply H. by apply (rs_listed _ _ _ A). Qed.

(** The loop visits every free block that starts in the range. *)
Lemma move_freepages_ok fuel : ∀ z x e t nm pm,
  wf z → 0 ≤ t < MIGRATE_TYPES → e + 1 - x ≤ Z.of_nat fuel → no_straddle z x →
  (∀ y, x ≤ y ≤ e → zone_spans_pfn z y = true) →
  ∃ z' nm' pm', move_freepages fuel z x e t nm pm = Ok (z', nm', pm') ∧ reshuffled t z z' ∧ pm ≤ pm' ∧
    pageblock_flags z' = pageblock_flags z ∧
    ∀ o q, listed z o q → x ≤ q ≤ e → q ∈ free_list z' o t ∧ pm < pm'.
Proof.
  induction fuel as [|fuel IH]; intros z x e t nm pm W Ht Hfuel Hst Hsp; cbn [move_freepages];
    destruct (Z.ltb_spec e x) as [Hlt|Hge].
  1, 3: exists z, nm, pm; split_and!; try done; first [by apply reshuffled_refl | lia].
  { lia. }
  destruct (PageBuddy (pages z x)) eqn:Hb; cbn [negb].
  - destruct (wf_buddy z W x) as (o & u & Hx); [left; by apply Hsp|done|].
    destruct (wf_state z W o u x x Hx (head_in_block x o)) as (_ & Hz & _). rewrite Hz, Z.eqb_refl. cbn [negb].
    rewrite (head_page_order z o u x) by done. pose proof (bsize_pos o) as Hpos.
    destruct (moved_ok z x o t u) as [A Hin]; [done..|].
    destruct (IH (move_to_free_list x z o t) (x + bsize o) e t nm (pm + bsize o)) as (z' & nm' & pm' & -> & B & Hpm & Hfl & Hvis).
    + apply A.
    + done.
    + lia.
    + eapply reshuffled_straddle; [exact A|]. by apply (straddle_jump z x o u).
    + intros y Hy. apply Hsp. lia.
    + exists z', nm', pm'. split_and!; try done; [by eapply reshuffled_trans|lia|]. intros o' q Hq Hr. split; [|lia].
      destruct (decide (q = x)) as [->|Hne].
      * destruct Hq as [v Hq]. destruct (wf_same_order z o' v o u x) as [-> _]; [done..|]. by apply (rs_kept _ _ _ B).
      * apply Hvis; [by apply (rs_listed _ _ _ A)|]. split; [|lia]. destruct (decide (x + bsize o ≤ q)); [done|].
        destruct Hne, Hq as [v Hq]. apply (wf_disjoint z W o' v q o u x q); try done; [apply head_in_block|unfold in_block; lia].
  - destruct (IH z (x + 1) e t (if PageLRU (pages z x) || __PageMovable (pages z x) then nm + 1 else nm) pm)
      as (z' & nm' & pm' & -> & B & Hpm & Hfl & Hvis); [done|done|lia|by apply straddle_next|intros; apply Hsp; lia|].
    exists z', nm', pm'. split_and!; try done. intros o q Hq Hr. apply Hvis; [done|].
    destruct (decide (q = x)) as [->|]; [|lia]. destruct Hq as [v Hq]. by rewrite (wf_free_buddy z o v x) in Hb.
Qed.

(** ** Pageblocks *)

Lemma boundary_no_straddle z k : wf z → no_straddle z (k * 1024).
Proof.
  intros W o q [t Hq] Hin. destruct (wf_head z W o t q Hq) as [(j & ->)%aligned_mult _].
  destruct (wf_range z W o t _ Hq) as [Ho _]. pose proof (bsize_pos o).
  assert (∃ m, 1024 = m * bsize o) as [m Hm].
  { exists (2 ^ Z.of_nat (10 - o)). rewrite bsize_pow, <- Z.pow_add_r by lia. unfold MAX_ORDER in Ho.
    by replace (Z.of_nat (10 - o) + Z.of_nat o) with 10 by lia. }
  rewrite Hm in Hin. assert (j < k * m < j + 1) by nia. lia.
Qed.

(** For a page that is not inside a free block, such as the head of one or a
    page in use. *)
Lemma move_block_ok z p t :
  wf z → zone_spans_pfn z p = true → no_straddle z p → 0 ≤ t < MIGRATE_TYPES →
  ∃ z' nm pm, move_freepages_block z p t = Ok (z', nm, pm) ∧ reshuffled t z z' ∧
    pageblock_flags z' = pageblock_flags z ∧ ∀ o, listed z o p → pm ≠ 0 → p ∈ free_list z' o t.
Proof.
  intros W Hsp Hnp Ht. unfold move_freepages_block.
  pose proof (wf_pfn z p W Hsp). rewrite pageblock_start by lia.
  change pageblock_nr_pages with 1024. set (s := p / 1024 * 1024).
  assert (Hs : s ≤ p ≤ s + 1024 - 1) by (unfold s; pose proof (Z.div_mod p 1024); pose proof (Z.mod_pos_bound p 1024); lia).
  destruct (zone_spans_pfn z (s + 1024 - 1)) eqn:Hend; cbn [negb].
  2: { by exists z, 0, 0. }
  set (x := if negb (zone_spans_pfn z s) then p else s).
  assert (s ≤ x ≤ p ∧ no_straddle z x ∧ zone_spans_pfn z x = true) as (Hx & Hst & Hsx).
  { unfold x. destruct (zone_spans_pfn z s) eqn:Hss; cbn [negb]; (split; [lia|split; [|done]]); [by apply boundary_no_straddle|done]. }
  destruct (move_freepages_ok (Z.to_nat (s + 1024 - 1 - x + 1)) z x (s + 1024 - 1) t 0 0)
    as (z' & nm & pm & -> & A & Hpm & Hfl & Hvis); [done|done|lia|done| |].
  { intros y Hy. unfold zone_spans_pfn in *. lia. }
  exists z', nm, pm. split_and!; try done. intros o Ho _. apply Hvis; [done|lia].
Qed.

Lemma head_no_straddle z o u p : wf z → p ∈ free_list z o u → no_straddle z p.
Proof.
  intros W Hp o' q [v Hq] Hin.
  assert (q = p) by (apply (wf_disjoint z W o' v q o u p p); try done; [unfold in_block; lia|apply head_in_block]). lia.
Qed.

Lemma used_no_straddle z p : ¬ free_page z p → no_straddle z p.
Proof. intros Hn o q [v Hq] Hin. apply Hn. exists o, v, q. split; [done|]. unfold in_block. lia. Qed.

Lemma set_pageblock_ok vm z p mt t :
  wf z → zone_spans_pfn z p = true → 0 ≤ mt < MIGRATE_TYPES →
  ∃ z', set_pageblock_migratetype vm z p mt = Ok z' ∧ reshuffled t z z' ∧ free_list z' = free_list z.
Proof.
  intros W Hs Hmt. pose proof (set_pageblock_types vm z p mt) as Hty. revert Hty.
  unfold set_pageblock_migratetype, set_pfnblock_flags_mask. rewrite Hs. cbn [negb]. intros Hty.
  eexists. split_and!; [reflexivity| |done]. apply reshuffled_fields; try done. by apply Hty.
Qed.

Lemma boost_ok vm z t : wf z → reshuffled t z (boost_watermark vm z) ∧ free_list (boost_watermark vm z) = free_list z.
Proof.
  intros W. unfold boost_watermark. repeat zcase; (split; [|done]); apply reshuffled_fields; try done; by apply types_same.
Qed.

(** ** Stealing *)

Lemma steal_ok vm z p o u af t whole :
  wf z → p ∈ free_list z o u → 0 ≤ t < MIGRATE_TYPES →
  ∃ z', steal_suitable_fallback vm z p af t whole = Ok z' ∧ reshuffled t z z' ∧ p ∈ free_list z' o t.
Proof.
  intros W Hp Ht. unfold steal_suitable_fallback. rewrite (head_page_order z o u p) by done.
  pose proof (wf_state z W o u p p Hp (head_in_block p o)) as (Hsp & _). destruct (wf_range z W o u p Hp) as [Ho _].
  assert (Hsingle : ∀ z1, reshuffled t z z1 → (∃ z', Ok (move_to_free_list p z1 o t) = Ok z' ∧
      reshuffled t z z' ∧ p ∈ free_list z' o t)).
  { intros z1 A. destruct (proj2 (rs_listed _ _ _ A o p)) as [v Hv]; [by exists u|].
    destruct (moved_ok z1 p o t v) as [B Hin]; [apply A|done..|]. eexists. split; [done|].
    split; [by eapply reshuffled_trans|done]. }
  destruct (is_migrate_highatomic _); [by apply Hsingle, reshuffled_refl|].
  destruct (Nat.leb_spec pageblock_order o) as [Hbig|Hsmall].
  { unfold change_pageblock_range. replace (o - pageblock_order)%nat with 0%nat by (unfold pageblock_order, MAX_ORDER in *; lia).
    cbn [Nat.pow change_pageblock_loop]. destruct (set_pageblock_ok vm z p t t) as (z1 & -> & A & _); [done..|].
    cbn [mbind outcome_bind]. by apply Hsingle. }
  set (z1 := if has_flag af ALLOC_KSWAPD then _ else _).
  assert (reshuffled t z z1 ∧ free_list z1 = free_list z) as [A Hl].
  { destruct (boost_ok vm z t W) as [A Hl]. unfold z1. destruct (has_flag af ALLOC_KSWAPD); [|done].
    split; [|by rewrite <- Hl]. eapply reshuffled_trans; [exact A|]. apply reshuffled_fields; try done; first [apply A | by apply types_same]. }
  destruct whole; cbn [negb]; [|by apply Hsingle].
  assert (Hp1 : p ∈ free_list z1 o u) by (by rewrite Hl).
  destruct (move_block_ok z1 p t) as (z2 & nm & pm & -> & B & _ & Hin); [apply A| | |done|].
  { by rewrite (same_zone_spans z z1 p) by apply A. }
  { by apply (head_no_straddle z1 o u), Hp1; apply A. }
  specialize (Hin o (ex_intro _ u Hp1)).
  cbn [mbind outcome_bind]. assert (C : reshuffled t z z2) by (by eapply reshuffled_trans).
  destruct (Z.eqb_spec pm 0) as [|Hpm]; [by apply Hsingle|]. specialize (Hin Hpm). zcase; [|by exists z2].
  destruct (set_pageblock_ok vm z2 p t t) as (z3 & -> & D & Hl3); [apply C| |done|].
  { by rewrite (same_zone_spans z z2 p) by apply C. }
  exists z3. rewrite Hl3. split_and!; try done. by eapply reshuffled_trans.
Qed.

(** ** What to steal *)

(** What a search of the fallback types at one order finds. *)
Definition fallback_found (z : zone) (o : nat) (t r : Z) : Prop :=
  (r = -1 ∧ ∀ u, 0 ≤ u < MIGRATE_PCPTYPES → u ≠ t → free_list z o u = []) ∨
  (0 ≤ r < MIGRATE_PCPTYPES ∧ r ≠ t ∧ free_list z o r ≠ []).

Lemma free_area_empty_spec z o t : reflect (free_list z o t = []) (free_area_empty z o t).
Proof. unfold free_area_empty. destruct (free_list z o t); by constructor. Qed.

Lemma fallback_loop_ok vm z o t a b :
  a ≠ t → b ≠ t → 0 ≤ a < MIGRATE_PCPTYPES → 0 ≤ b < MIGRATE_PCPTYPES → a ≠ b → 0 ≤ t < MIGRATE_PCPTYPES →
  ∃ r cs, fallback_loop vm [a; b; MIGRATE_TYPES] z o t false false = Ok (r, cs) ∧ fallback_found z o t r.
Proof.
  unfold MIGRATE_PCPTYPES. intros. cbn [fallback_loop]. rewrite !(proj2 (Z.eqb_neq _ MIGRATE_TYPES)) by (unfold MIGRATE_TYPES; lia).
  rewrite Z.eqb_refl. cbn [negb]. unfold fallback_found, MIGRATE_PCPTYPES.
  destruct (free_area_empty_spec z o a); [|eexists _, _; split; [reflexivity|]; right; done].
  destruct (free_area_empty_spec z o b); [|eexists _, _; split; [reflexivity|]; right; done].
  eexists _, _. split; [reflexivity|]. left. split; [done|]. intros u Hu Hut.
  assert (u = a ∨ u = b) as [-> | ->] by lia; done.
Qed.

Lemma find_suitable_fallback_ok vm z o t cs :
  wf z → 0 ≤ t < MIGRATE_PCPTYPES →
  ∃ r cs', find_suitable_fallback vm z o t false cs = Ok (r, cs') ∧ fallback_found z o t r.
Proof.
  intros W Ht. unfold find_suitable_fallback. destruct (Z.eqb_spec (nr_free z o) 0) as [H0|H0].
  - eexists _, _. split; [reflexivity|]. left. split; [done|]. intros u Hu _. apply length_zero_iff_nil.
    rewrite (wf_count z W) in H0. unfold listed_total in H0. unfold MIGRATE_PCPTYPES in Hu.
    assert (u = 0 ∨ u = 1 ∨ u = 2) as [-> | [-> | ->]]; lia.
  - unfold MIGRATE_PCPTYPES in Ht. assert (t = 0 ∨ t = 1 ∨ t = 2) as [-> | [-> | ->]] by lia; by apply fallback_loop_ok.
Qed.

Definition has_fallback (z : zone) (o : nat) (t : Z) : Prop :=
  ∃ u, 0 ≤ u < MIGRATE_PCPTYPES ∧ u ≠ t ∧ free_list z o u ≠ [].

Lemma largest_fallback_ok n : ∀ vm z o m t cs,
  wf z → (n ≤ MAX_ORDER)%nat → (o ≤ m)%nat → 0 ≤ t < MIGRATE_PCPTYPES →
  ∃ r, largest_fallback n vm z o m t cs = Ok r ∧
    match r with
    | NoFallback => ∀ c, (m ≤ c < n)%nat → ¬ has_fallback z c t
    | FindSmallest => ∃ c, (m ≤ c < n)%nat ∧ has_fallback z c t
    | DoSteal c u _ => (m ≤ c < n)%nat ∧ 0 ≤ u < MIGRATE_PCPTYPES ∧ u ≠ t ∧ free_list z c u ≠ []
    end.
Proof.
  induction n as [|n IH]; intros vm z o m t cs W Hn Hom Ht; cbn [largest_fallback].
  { exists NoFallback. split; [done|]. lia. }
  destruct (Nat.ltb_spec n m); [exists NoFallback; split; [done|lia]|].
  destruct (find_suitable_fallback_ok vm z n t cs) as (r & cs' & -> & Hr); [done..|]. cbn [mbind outcome_bind].
  destruct Hr as [[-> Hr]|(Hr & Hne & Hl)].
  - destruct (IH vm z o m t cs') as (r & -> & H'); [done|lia|done..|]. exists r. split; [done|]. destruct r.
    + intros c Hc. destruct (decide (c = n)) as [->|]; [|apply H'; lia]. intros (u & Hu & Hut & Hl). by apply Hl, Hr.
    + destruct H' as (c & ? & ?). exists c. split; [lia|done].
    + destruct H' as (? & ?). split; [lia|done].
  - rewrite (proj2 (Z.eqb_neq r (-1))) by lia. zcase.
    + exists FindSmallest. split; [done|]. exists n. split; [lia|by exists r].
    + eexists. split; [reflexivity|]. split; [lia|done].
Qed.

Lemma smallest_fallback_ok n : ∀ vm z t cs,
  wf z → 0 ≤ t < MIGRATE_PCPTYPES → (∃ c, (MAX_ORDER - n ≤ c < MAX_ORDER)%nat ∧ has_fallback z c t) →
  ∃ c u cs', smallest_fallback n vm z t cs = Ok (c, u, cs') ∧
    (MAX_ORDER - n ≤ c < MAX_ORDER)%nat ∧ 0 ≤ u < MIGRATE_PCPTYPES ∧ u ≠ t ∧ free_list z c u ≠ [].
Proof.
  induction n as [|n IH]; intros vm z t cs W Ht (c & Hc & Hf); cbn [smallest_fallback]; [lia|].
  destruct (find_suitable_fallback_ok vm z (MAX_ORDER - S n) t cs) as (r & cs' & -> & Hr); [done..|]. cbn [mbind outcome_bind].
  destruct Hr as [[-> Hr]|(Hr & Hne & Hl)].
  - destruct (IH vm z t cs') as (c' & u & cs'' & -> & H'); [done..| |].
    + exists c. split; [|done]. destruct (decide (c = (MAX_ORDER - S n)%nat)) as [->|]; [|lia].
      destruct Hf as (u & Hu & Hut & Hl). by destruct Hl; apply Hr.
    + exists c', u, cs''. split; [done|]. split; [lia|apply H'].
  - rewrite (proj2 (Z.eqb_neq r (-1))) by lia. eexists _, _, _. split; [reflexivity|]. split; [lia|done].
Qed.

(** The orders a fallback may use. *)
Definition min_order (o : nat) (af : Z) : nat := if has_flag af ALLOC_NOFRAGMENT then pageblock_order else o.

Lemma rmqueue_fallback_ok vm z o t af :
  wf z → (o < MAX_ORDER)%nat → 0 ≤ t < MIGRATE_PCPTYPES →
  ∃ z' r, __rmqueue_fallback vm z o t af = Ok (z', r) ∧
    if r then reshuffled t z z' ∧ (∃ c, (o ≤ c < MAX_ORDER)%nat ∧ free_list z' c t ≠ []) ∧
              (∃ c, (min_order o af ≤ c < MAX_ORDER)%nat ∧ has_fallback z c t)
    else z' = z ∧ ∀ c, (min_order o af ≤ c < MAX_ORDER)%nat → ¬ has_fallback z c t.
Proof.
  intros W Ho Ht. unfold __rmqueue_fallback. fold (min_order o af).
  assert (Hmin : (o ≤ min_order o af < MAX_ORDER)%nat).
  { unfold min_order, pageblock_order, MAX_ORDER in *. destruct (has_flag _ _); lia. }
  assert (Hsteal : ∀ c u cs, (o ≤ c < MAX_ORDER)%nat → free_list z c u ≠ [] →
    (∃ c, (min_order o af ≤ c < MAX_ORDER)%nat ∧ has_fallback z c t) →
    ∃ z' r, match get_page_from_free_area z c u with
      | None => Panic
      | Some page => z1 ← steal_suitable_fallback vm z page af t cs; Ok (z1, true)
      end = Ok (z', r) ∧
    if r : bool then reshuffled t z z' ∧ (∃ c, (o ≤ c < MAX_ORDER)%nat ∧ free_list z' c t ≠ []) ∧
              (∃ c, (min_order o af ≤ c < MAX_ORDER)%nat ∧ has_fallback z c t)
    else z' = z ∧ ∀ c, (min_order o af ≤ c < MAX_ORDER)%nat → ¬ has_fallback z c t).
  { intros c u cs Hc Hl Hav. unfold get_page_from_free_area. destruct (free_list z c u) as [|p l] eqn:El; [done|]. cbn [head].
    destruct (steal_ok vm z p c u af t cs) as (z' & -> & A & Hin); [done|rewrite El; apply elem_of_cons; by left| |].
    { unfold MIGRATE_PCPTYPES, MIGRATE_TYPES in *. lia. }
    exists z', true. split; [done|]. split_and!; [done| |done]. exists c. split; [done|]. intros E. rewrite E in Hin. by apply elem_of_nil in Hin. }
  destruct (largest_fallback_ok MAX_ORDER vm z o (min_order o af) t false) as (r & -> & Hr); [done|done|lia|done|].
  cbn [mbind outcome_bind]. destruct r as [| |c u cs].
  - by exists z, false.
  - destruct Hr as (c0 & Hc0 & Hf0).
    destruct (smallest_fallback_ok (MAX_ORDER - o) vm z t false) as (c & u & cs & -> & Hc & Hu & Hut & Hl); [done|done| |].
    { exists c0. split; [lia|done]. }
    cbn [mbind outcome_bind]. apply Hsteal; [lia|done|]. by exists c0.
  - destruct Hr as (Hc & Hu & Hut & Hl). apply Hsteal; [lia|done|]. exists c. split; [done|]. by exists u.
Qed.

(** ** [__rmqueue] *)

(** A list the request may use has a large enough block: its own type at its
    order or above, or another type at the orders a fallback may use. *)
Definition available (z : zone) (o : nat) (t af : Z) : Prop :=
  (∃ c, (o ≤ c < MAX_ORDER)%nat ∧ free_list z c t ≠ []) ∨
  (∃ c, (min_order o af ≤ c < MAX_ORDER)%nat ∧ has_fallback z c t).

Lemma reshuffled_allocated t z z1 p o z' : reshuffled t z z1 → allocated z1 p o z' → allocated z p o z'.
Proof.
  intros A (W & Hs & Hal & Hown & Hin & Hfree & Hpg & Hcnt & Hnr & Hty). unfold allocated. split_and!; try done.
  - etrans; [apply A|done].
  - intros x Hx. by apply (reshuffled_free t z z1), Hin.
  - intros x. by rewrite Hfree, (reshuffled_free t z z1).
  - intros x Hx. rewrite Hpg; [apply A|]. by rewrite (reshuffled_free t z z1).
  - rewrite Hcnt. by rewrite (reshuffled_count t z z1).
  - rewrite Hnr. apply A.
  - intros H. by apply Hty, A.
Qed.

(** Two rounds are enough: a successful fallback leaves a block on the
    request's own lists. *)
Lemma rmqueue_ok fuel vm z o t af :
  wf z → (o < MAX_ORDER)%nat → 0 ≤ t < MIGRATE_PCPTYPES →
  ∃ z' r, __rmqueue (S (S fuel)) vm z o t af = Ok (z', r) ∧
    match r with
    | Some p => allocated z p o z' ∧ pg_index (pages z' p) = t ∧ available z o t af
    | None => z' = z ∧ ¬ available z o t af
    end.
Proof.
  intros W Ho Ht. assert (Ht' : 0 ≤ t < MIGRATE_TYPES) by (unfold MIGRATE_PCPTYPES, MIGRATE_TYPES in *; lia).
  cbn [__rmqueue]. destruct (rmqueue_smallest_ok z o t) as (z1 & r1 & -> & H1); [done..|]. cbn [mbind outcome_bind].
  destruct r1 as [p|].
  { exists z1, (Some p). destruct H1 as (Ha & Hi & _ & c & Hc & Hh). split_and!; try done.
    left. exists c. split; [done|]. by destruct (free_list z c t). }
  destruct H1 as [-> Hempty]. destruct (rmqueue_fallback_ok vm z o t af) as (z2 & r2 & -> & H2); [done..|].
  cbn [mbind outcome_bind]. destruct r2.
  2: { destruct H2 as [-> Hno]. exists z, None. split_and!; try done. intros [(c & Hc & Hl)|(c & Hc & Hf)].
       - by apply Hl, Hempty.
       - by apply (Hno c). }
  destruct H2 as (A & (c & Hc & Hl) & Hav).
  destruct (rmqueue_smallest_ok z2 o t) as (z3 & r3 & -> & H3); [apply A|done..|]. cbn [mbind outcome_bind].
  destruct r3 as [p|].
  - destruct H3 as (Ha & Hi & _). exists z3, (Some p). split_and!; try done; [by eapply reshuffled_allocated|by right].
  - destruct H3 as [_ H3]. by destruct Hl; apply H3.
Qed.

End BuddyFallback.
