(* ===== verification/PageAlloc.v ===== *)
(** * Per-cpu page lists and the zone's entry points

    src/page_alloc/src/page_alloc.c: the lists of single pages each CPU keeps
    in front of the buddy lists ([rmqueue_bulk], [free_pcppages_bulk],
    [free_unref_page_commit]), [rmqueue], and the pageblocks reserved for
    high-order atomic allocations. *)

From stdpp Require Import base numbers list option sets functions.
From Stdlib Require Import ZArith Lia.
From S2P Require Import Prelude Buddy.

Open Scope Z_scope.

Module PageAlloc.
Import Buddy.

Record per_cpu_pages := MkPcp { count : Z; high : Z; batch : Z; lists : Z → list Z }.

Definition with_list (t : Z) (l : list Z) (n : Z) (c : per_cpu_pages) : per_cpu_pages :=
  MkPcp n (high c) (batch c) (<[t := l]> (lists c)).

(** ** Checks *)

(** [bad_page] reports and resets the mapcount. *)
Definition bad_page (z : zone) (pfn : Z) : zone := set_page pfn (page_mapcount_reset (pages z pfn)) z.

Definition check_free_page (z : zone) (pfn : Z) : zone * bool :=
  if page_expected_state (pages z pfn) PAGE_FLAGS_CHECK_AT_FREE then (z, false) else (bad_page z pfn, true).

Definition check_new_page (z : zone) (pfn : Z) : zone * bool :=
  if page_expected_state (pages z pfn) PAGE_FLAGS_CHECK_AT_PREP then (z, false) else (bad_page z pfn, true).

Definition bulkfree_pcp_prepare (vm : vm_params) (z : zone) (pfn : Z) : zone * bool :=
  if debug_pagealloc_enabled_static vm then check_free_page z pfn else (z, false).

Definition check_pcp_refill (vm : vm_params) (z : zone) (pfn : Z) : zone * bool :=
  if debug_pagealloc_enabled_static vm then check_new_page z pfn else (z, false).

Definition check_new_pcp (z : zone) (pfn : Z) : zone * bool := check_new_page z pfn.

(** [n] is [(1 << order) - i]; [pfn] is [page + i]. *)
Fixpoint check_new_pages_loop (n : nat) (z : zone) (pfn : Z) : zone * bool :=
  match n with
  | O => (z, false)
  | S n =>
      match check_new_page z pfn with
      | (z, true) => (z, true)
      | (z, false) => check_new_pages_loop n z (pfn + 1)
      end
  end.

Definition check_new_pages (z : zone) (pfn : Z) (order : nat) : zone * bool :=
  check_new_pages_loop (2 ^ order) z pfn.

(** ** Draining *)

(** The search for the next list with pages. *)
Fixpoint next_list (fuel : nat) (c : per_cpu_pages) (migratetype batch_free : Z) : outcome (Z * Z) :=
  match fuel with
  | O => Fuel
  | S fuel =>
      let batch_free := batch_free + 1 in
      let migratetype := if migratetype + 1 =? MIGRATE_PCPTYPES then 0 else migratetype + 1 in
      match lists c migratetype with
      | [] => next_list fuel c migratetype batch_free
      | _ => Ok (migratetype, batch_free)
      end
  end.

(** The inner loop that takes pages off the end of one list. *)
Fixpoint take_batch (fuel : nat) (vm : vm_params) (z : zone) (c : per_cpu_pages) (migratetype n batch_free : Z) (head : list Z)
  : outcome (zone * per_cpu_pages * Z * Z * list Z) :=
  match fuel with
  | O => Fuel
  | S fuel =>
      match list.last (lists c migratetype) with
      | None => Panic
      | Some page =>
          let l := removelast (lists c migratetype) in
          let c := with_list migratetype l (count c - 1) c in
          let '(z, bad) := bulkfree_pcp_prepare vm z page in
          let head := if bad then head else head ++ [page] in
          let n := n - 1 in
          if n =? 0 then Ok (z, c, n, batch_free, head)
          else
            let batch_free := batch_free - 1 in
            if batch_free =? 0 then Ok (z, c, n, batch_free, head)
            else match l with
                 | [] => Ok (z, c, n, batch_free, head)
                 | _ => take_batch fuel vm z c migratetype n batch_free head
                 end
      end
  end.

(** The loop over the lists, in a round-robin fashion. *)
Fixpoint collect (fuel : nat) (vm : vm_params) (z : zone) (c : per_cpu_pages) (migratetype n batch_free : Z) (head : list Z)
  : outcome (zone * per_cpu_pages * list Z) :=
  if n =? 0 then Ok (z, c, head)
  else
    match fuel with
    | O => Fuel
    | S fuel =>
        '(migratetype, batch_free) ← next_list 3 c migratetype batch_free;
        let batch_free := if batch_free =? MIGRATE_PCPTYPES then n else batch_free in
        '(z, c, n, batch_free, head) ← take_batch (Z.to_nat n) vm z c migratetype n batch_free head;
        collect fuel vm z c migratetype n batch_free head
    end.

(** Giving the collected pages to the buddy lists; once the capture control
    holds a page it is not eligible any more. *)
Fixpoint free_collected (z : zone) (head : list Z) (capc : option nat) (captured : option Z) : outcome (zone * option Z) :=
  match head with
  | [] => Ok (z, captured)
  | page :: head =>
      '(z, r) ← __free_one_page z page 0 (pg_index (pages z page)) (match captured with Some _ => None | None => capc end);
      free_collected z head capc (match r with Some p => Some p | None => captured end)
  end.

Definition free_pcppages_bulk (vm : vm_params) (z : zone) (n : Z) (c : per_cpu_pages) (capc : option nat)
  : outcome (zone * per_cpu_pages * option Z) :=
  let n := Z.min (count c) n in
  '(z, c, head) ← collect (Z.to_nat n) vm z c 0 n 0 [];
  '(z, captured) ← free_collected z head capc None;
  Ok (z, c, captured).

Definition drain_pages_zone (vm : vm_params) (z : zone) (c : per_cpu_pages) (capc : option nat)
  : outcome (zone * per_cpu_pages * option Z) :=
  if negb (count c =? 0) then free_pcppages_bulk vm z (count c) c capc else Ok (z, c, None).

Definition free_unref_page_commit (vm : vm_params) (z : zone) (c : per_cpu_pages) (page : Z) (capc : option nat)
  : outcome (zone * per_cpu_pages * option Z) :=
  let migratetype := pg_index (pages z page) in
  let migratetype := if MIGRATE_PCPTYPES <=? migratetype then MIGRATE_MOVABLE else migratetype in
  let c := with_list migratetype (page :: lists c migratetype) (count c + 1) c in
  if high c <=? count c then free_pcppages_bulk vm z (batch c) c capc else Ok (z, c, None).

(** ** Preparing pages to be freed *)

(** [page->flags &= ~PAGE_FLAGS_CHECK_AT_PREP]. *)
Definition clear_flags_at_prep (z : zone) (pfn : Z) : zone :=
  set_page pfn (set_flags (Z.ldiff (pg_flags (pages z pfn)) PAGE_FLAGS_CHECK_AT_PREP) (pages z pfn)) z.

(** The loop over the pages after the first; [n] is [(1 << order) - i]. Returns
    the zone and [bad]. *)
Fixpoint prepare_tails (n : nat) (z : zone) (pfn bad : Z) : zone * Z :=
  match n with
  | O => (z, bad)
  | S n =>
      match check_free_page z pfn with
      | (z, true) => prepare_tails n z (pfn + 1) (bad + 1)
      | (z, false) => prepare_tails n (clear_flags_at_prep z pfn) (pfn + 1) bad
      end
  end.

Definition PageMappingFlags (p : page) : bool := negb (Z.land (pg_mapping p) 3 =? 0).

(** [free_pages_prepare] on a block that is not a compound page. The debugging
    hooks between the checks and the return do not touch [struct page] fields
    of the model. *)
Definition free_pages_prepare (z : zone) (pfn : Z) (order : nat) (check_free : bool) : zone * bool :=
  let '(z, bad) := prepare_tails (2 ^ order - 1) z (pfn + 1) 0 in
  let z :=
    if PageMappingFlags (pages z pfn)
    then set_page pfn (MkPage (pg_flags (pages z pfn)) (pg_zone (pages z pfn)) 0 (pg_index (pages z pfn))
                         (pg_private (pages z pfn)) (pg_type (pages z pfn)) (pg_refcount (pages z pfn))) z
    else z in
  let '(z, bad) := if check_free then (let '(z, b) := check_free_page z pfn in (z, if b : bool then bad + 1 else bad)) else (z, bad) in
  if negb (bad =? 0) then (z, false) else (clear_flags_at_prep z pfn, true).

(** The second component is [false] when the block was not freed. *)
Definition __free_pages_ok (z : zone) (pfn : Z) (order : nat) (capc : option nat) : outcome (zone * bool * option Z) :=
  let '(z, ok) := free_pages_prepare z pfn order true in
  if negb ok then Ok (z, false, None)
  else
    let migratetype := get_pageblock_migratetype z pfn in
    '(z, r) ← free_one_page z pfn order migratetype capc;
    Ok (z, true, r).

Definition free_unref_page_prepare (z : zone) (pfn : Z) : zone * bool :=
  let '(z, ok) := free_pages_prepare z pfn 0 true in
  if negb ok then (z, false)
  else (set_page pfn (set_index (get_pageblock_migratetype z pfn) (pages z pfn)) z, true).

Definition free_unref_page (vm : vm_params) (z : zone) (c : per_cpu_pages) (pfn : Z) (capc : option nat)
  : outcome (zone * per_cpu_pages * bool * option Z) :=
  let '(z, ok) := free_unref_page_prepare z pfn in
  if negb ok then Ok (z, c, false, None)
  else
    '(z, c, r) ← free_unref_page_commit vm z c pfn capc;
    Ok (z, c, true, r).

(** ** Filling *)

(** The loop of [rmqueue_bulk]; [n] is [count - i]. Returns the zone, the list,
    [alloced] and [i]. *)
Fixpoint bulk_loop (n : nat) (fuel : nat) (vm : vm_params) (z : zone) (order : nat) (l : list Z) (migratetype alloc_flags alloced i : Z)
  : outcome (zone * list Z * Z * Z) :=
  match n with
  | O => Ok (z, l, alloced, i)
  | S n =>
      '(z, page) ← __rmqueue fuel vm z order migratetype alloc_flags;
      match page with
      | None => Ok (z, l, alloced, i)
      | Some page =>
          let '(z, bad) := check_pcp_refill vm z page in
          if bad then bulk_loop n fuel vm z order l migratetype alloc_flags alloced (i + 1)
          else bulk_loop n fuel vm z order (l ++ [page]) migratetype alloc_flags (alloced + 1) (i + 1)
      end
  end.

Definition rmqueue_bulk (fuel : nat) (vm : vm_params) (z : zone) (order : nat) (n : Z) (l : list Z) (migratetype alloc_flags : Z)
  : outcome (zone * list Z * Z) :=
  '(z, l, alloced, i) ← bulk_loop (Z.to_nat n) fuel vm z order l migratetype alloc_flags 0 0;
  Ok (__mod_zone_freepage_state z (- Z.shiftl i (Z.of_nat order)), l, alloced).

Fixpoint __rmqueue_pcplist (fuel : nat) (vm : vm_params) (z : zone) (migratetype alloc_flags : Z) (c : per_cpu_pages)
  : outcome (zone * per_cpu_pages * option Z) :=
  match fuel with
  | O => Fuel
  | S fuel' =>
      '(z, c) ← (match lists c migratetype with
                 | [] =>
                     '(z, l, alloced) ← rmqueue_bulk fuel vm z 0 (batch c) [] migratetype alloc_flags;
                     Ok (z, with_list migratetype l (count c + alloced) c)
                 | _ => Ok (z, c)
                 end);
      match lists c migratetype with
      | [] => Ok (z, c, None)
      | page :: l =>
          let c := with_list migratetype l (count c - 1) c in
          let '(z, bad) := check_new_pcp z page in
          if bad then __rmqueue_pcplist fuel' vm z migratetype alloc_flags c else Ok (z, c, Some page)
      end
  end.

(** ** [rmqueue] *)

(** The part under the zone lock. *)
Fixpoint rmqueue_locked (fuel : nat) (vm : vm_params) (z : zone) (order : nat) (alloc_flags migratetype : Z) : outcome (zone * option Z) :=
  match fuel with
  | O => Fuel
  | S fuel' =>
      '(z, page) ← (if (0 <? order)%nat && has_flag alloc_flags ALLOC_HARDER
                    then __rmqueue_smallest z order MIGRATE_HIGHATOMIC else Ok (z, None));
      '(z, page) ← (match page with
                    | Some page => Ok (z, Some page)
                    | None => __rmqueue fuel vm z order migratetype alloc_flags
                    end);
      match page with
      | None => Ok (z, None)
      | Some page =>
          let '(z, bad) := check_new_pages z page order in
          if bad then rmqueue_locked fuel' vm z order alloc_flags migratetype else Ok (z, Some page)
      end
  end.

(** [wakeup_kswapd] only wakes a thread. *)
Definition rmqueue (fuel : nat) (vm : vm_params) (z : zone) (c : per_cpu_pages) (order : nat) (alloc_flags migratetype : Z)
  : outcome (zone * per_cpu_pages * option Z) :=
  let out z c page :=
    let z := if boosted_watermark z
             then with_counts (nr_free_pages z) (watermark_boost z) false (nr_reserved_highatomic z) z else z in
    match page with
    | Some p => if bad_range z p then Panic else Ok (z, c, Some p)
    | None => Ok (z, c, None)
    end in
  if (order =? 0)%nat then
    '(z, c, page) ← __rmqueue_pcplist fuel vm z migratetype alloc_flags c;
    out z c page
  else
    '(z, page) ← rmqueue_locked fuel vm z order alloc_flags migratetype;
    match page with
    | None => Ok (z, c, None)
    | Some p => out (__mod_zone_freepage_state z (- bsize order)) c (Some p)
    end.

(** ** Pageblocks for high-order atomic requests *)

Definition reserve_highatomic_pageblock (vm : vm_params) (z : zone) (page : Z) : outcome zone :=
  let max_managed := managed_pages z / 100 + pageblock_nr_pages in
  if max_managed <=? nr_reserved_highatomic z then Ok z
  else
    let mt := get_pageblock_migratetype z page in
    if negb (is_migrate_highatomic mt) then
      let z := with_counts (nr_free_pages z) (watermark_boost z) (boosted_watermark z)
                 (u64 (nr_reserved_highatomic z + pageblock_nr_pages)) z in
      z ← set_pageblock_migratetype vm z page MIGRATE_HIGHATOMIC;
      '(z, _, _) ← move_freepages_block z page MIGRATE_HIGHATOMIC;
      Ok z
    else Ok z.

(** One zone's part of [unreserve_highatomic_pageblock]; [n] is
    [MAX_ORDER - order]. *)
Fixpoint unreserve_loop (n : nat) (vm : vm_params) (z : zone) (migratetype : Z) : outcome (zone * bool) :=
  match n with
  | O => Ok (z, false)
  | S m =>
      match get_page_from_free_area z (MAX_ORDER - n) MIGRATE_HIGHATOMIC with
      | None => unreserve_loop m vm z migratetype
      | Some page =>
          let z :=
            if is_migrate_highatomic (get_pageblock_migratetype z page)
            then with_counts (nr_free_pages z) (watermark_boost z) (boosted_watermark z)
                   (nr_reserved_highatomic z - Z.min pageblock_nr_pages (nr_reserved_highatomic z)) z
            else z in
          z ← set_pageblock_migratetype vm z page migratetype;
          '(z, _, moved) ← move_freepages_block z page migratetype;
          if negb (moved =? 0) then Ok (z, true) else unreserve_loop m vm z migratetype
      end
  end.

Definition unreserve_highatomic_zone (vm : vm_params) (z : zone) (migratetype : Z) (force : bool) : outcome (zone * bool) :=
  if negb force && (nr_reserved_highatomic z <=? pageblock_nr_pages) then Ok (z, false)
  else unreserve_loop MAX_ORDER vm z migratetype.

(** ** A zone's part of allocating and freeing *)

(** The part of [post_alloc_hook] on [struct page]. *)
Definition post_alloc_hook (z : zone) (pfn : Z) : outcome zone :=
  let p := set_private 0 (pages z pfn) in
  if negb (pg_refcount p =? 0) then Panic else Ok (set_page pfn (set_refcount 1 p) z).

(** The attempt of [get_page_from_freelist] on one zone, once the watermarks
    allow it. *)
Definition try_this_zone (fuel : nat) (vm : vm_params) (z : zone) (c : per_cpu_pages) (order : nat) (alloc_flags migratetype : Z)
  : outcome (zone * per_cpu_pages * option Z) :=
  '(z, c, page) ← rmqueue fuel vm z c order alloc_flags migratetype;
  match page with
  | None => Ok (z, c, None)
  | Some p =>
      z ← post_alloc_hook z p;
      z ← (if negb (order =? 0)%nat && has_flag alloc_flags ALLOC_HARDER
           then reserve_highatomic_pageblock vm z p else Ok z);
      Ok (z, c, Some p)
  end.

(** Drops a reference: the zone and whether it was the last. *)
Definition put_page_testzero (z : zone) (pfn : Z) : outcome (zone * bool) :=
  let r := pg_refcount (pages z pfn) in
  if r =? 0 then Panic
  else Ok (set_page pfn (set_refcount (s32 (r - 1)) (pages z pfn)) z, s32 (r - 1) =? 0).

Definition free_the_page (vm : vm_params) (z : zone) (c : per_cpu_pages) (pfn : Z) (order : nat) (capc : option nat)
  : outcome (zone * per_cpu_pages * bool * option Z) :=
  if (order =? 0)%nat then free_unref_page vm z c pfn capc
  else
    '(z, ok, r) ← __free_pages_ok z pfn order capc;
    Ok (z, c, ok, r).

(** The boolean tells whether the block went back to the allocator. *)
Definition __free_pages (vm : vm_params) (z : zone) (c : per_cpu_pages) (pfn : Z) (order : nat) (capc : option nat)
  : outcome (zone * per_cpu_pages * bool * option Z) :=
  '(z, last) ← put_page_testzero z pfn;
  if (last : bool) then free_the_page vm z c pfn order capc else Ok (z, c, false, None).

(** ** Watermarks *)

Definition ALLOC_OOM : Z := 0x08.
Definition ALLOC_HIGH : Z := 0x20.

Definition __zone_watermark_unusable_free (z : zone) (order : nat) (alloc_flags : Z) : Z :=
  let alloc_harder := has_flag alloc_flags (Z.lor ALLOC_HARDER ALLOC_OOM) in
  let unusable_free := bsize order - 1 in
  if negb alloc_harder then s64 (unusable_free + nr_reserved_highatomic z) else unusable_free.

(** The loop over the orders; [n] is [MAX_ORDER - o]. *)
Fixpoint watermark_orders (n : nat) (z : zone) (alloc_harder : bool) : bool :=
  match n with
  | O => false
  | S m =>
      let o := (MAX_ORDER - n)%nat in
      if nr_free z o =? 0 then watermark_orders m z alloc_harder
      else if negb (free_area_empty z o 0 && free_area_empty z o 1 && free_area_empty z o 2) then true
      else if alloc_harder && negb (free_area_empty z o MIGRATE_HIGHATOMIC) then true
      else watermark_orders m z alloc_harder
  end.

(** [lowmem_reserve] is [z->lowmem_reserve[highest_zoneidx]]. *)
Definition __zone_watermark_ok (z : zone) (order : nat) (mark lowmem_reserve alloc_flags free_pages : Z) : bool :=
  let min := s64 mark in
  let alloc_harder := has_flag alloc_flags (Z.lor ALLOC_HARDER ALLOC_OOM) in
  let free_pages := s64 (free_pages - __zone_watermark_unusable_free z order alloc_flags) in
  let min := if has_flag alloc_flags ALLOC_HIGH then min - Z.quot min 2 else min in
  let min :=
    if alloc_harder then (if has_flag alloc_flags ALLOC_OOM then min - Z.quot min 2 else min - Z.quot min 4) else min in
  if free_pages <=? s64 (min + lowmem_reserve) then false
  else if (order =? 0)%nat then true
  else watermark_orders (MAX_ORDER - order) z alloc_harder.

End PageAlloc.
