(* ===== verification/PageAllocSpec.v ===== *)
(** * Per-cpu page lists: correctness

    The pages of a CPU's lists are in the allocator's hands but not on the
    buddy lists; filling and draining moves pages between the two. *)

From stdpp Require Import base numbers list option sets functions.
From Stdlib Require Import ZArith Lia.
From S2P Require Import Prelude Buddy BuddySpec BuddyFree BuddyAlloc BuddyFallback PageAlloc.

Open Scope Z_scope.

Module PageAllocSpec.
Import Buddy BuddySpec BuddyFree BuddyAlloc BuddyFallback PageAlloc.

(** ** Blocks held while others come and go *)

Definition apart (p : Z) (o : nat) (q : Z) (o' : nat) : Prop := ∀ x, in_block p o x → ¬ in_block q o' x.

Lemma in_block_0 p x : in_block p 0 x ↔ x = p.
Proof. unfold in_block. change (bsize 0) with 1. lia. Qed.

Lemma owned_frame z z' q o :
  same_zone z z' → owned z q o → (∀ x, in_block q o x → pages z' x = pages z x ∧ ¬ free_page z' x) → owned z' q o.
Proof.
  intros Hs Hown H x Hx. destruct (Hown x Hx) as (? & ? & ? & ? & _). destruct (H x Hx) as [-> ?].
  rewrite (same_zone_spans z z' x Hs). destruct Hs as (-> & _). done.
Qed.

Lemma allocated_frame z p o z' q o' :
  allocated z p o z' → owned z q o' → owned z' q o' ∧ apart p o q o' ∧ ∀ x, in_block q o' x → pages z' x = pages z x.
Proof.
  intros (_ & Hs & _ & _ & Hin & Hfree & Hpg & _) Hown.
  assert (Hnf : ∀ x, in_block q o' x → ¬ free_page z x) by (intros x Hx; apply (Hown x Hx)).
  split_and!.
  - apply (owned_frame z z'); [done..|]. intros x Hx. rewrite Hfree. split; [apply Hpg|]; specialize (Hnf x Hx); tauto.
  - intros x Hx Hq. by apply (Hnf x Hq), Hin.
  - intros x Hx. by apply Hpg, Hnf.
Qed.

(** The pages that left a caller's hands: on the free lists, or in the block
    the capture control got. *)
Definition captured_page (capc : option nat) (r : option Z) (x : Z) : Prop :=
  match capc, r with Some o, Some p => in_block p o x | _, _ => False end.

(** The pages of [l] were given back. *)
Record returned (capc : option nat) (z : zone) (l : Z → Prop) (z' : zone) (r : option Z) : Prop := Returned {
  rt_wf : wf z';
  rt_zone : same_zone z z';
  rt_free x : free_page z' x ∨ captured_page capc r x ↔ free_page z x ∨ l x;
  rt_pages x : ¬ (free_page z' x ∨ captured_page capc r x) → pages z' x = pages z x;
  rt_flags : pageblock_flags z' = pageblock_flags z;
  rt_count : nr_free_pages z' - free_count z' = nr_free_pages z - free_count z;
  rt_captured p : r = Some p → ∃ o, capc = Some o ∧ (o < MAX_ORDER)%nat ∧ aligned p o ∧ owned z' p o }.

Lemma capture_order capc o t : compaction_capture capc o t = true → capc = Some o.
Proof.
  unfold compaction_capture. destruct capc as [w|]; [|done]. destruct (Nat.eqb_spec o w) as [->|]; done.
Qed.

Lemma free_one_returned z p o t capc :
  wf z → (o < MAX_ORDER)%nat → 0 ≤ t < MIGRATE_TYPES → aligned p o → owned z p o →
  ∃ z' r, __free_one_page z p o t capc = Ok (z', r) ∧ returned capc z (in_block p o) z' r.
Proof.
  intros W Ho Ht Hal Hown. destruct (free_one_page_ok z p o t capc) as (z' & r & -> & H); [done..|].
  exists z', r. split; [done|]. destruct r as [q|].
  - destruct H as (o' & Hc%capture_order & (W' & Hs & Ho' & Ha' & Hown' & Hfree & Hpg & Hsub & Hfl & _) & Hcnt). subst capc.
    split; cbn [captured_page]; try done.
    + intros x Hx. apply Hpg. tauto.
    + intros p' [= <-]. exists o'. split_and!; try done. lia.
  - destruct H as (W' & Hs & Hfree & Hpg & Hfl & Hc & Hn). assert (∀ x, captured_page capc None x ↔ False) as Hno by (by destruct capc).
    split; try done.
    + intros x. rewrite Hno, Hfree. tauto.
    + intros x. rewrite Hno. intros Hx. apply Hpg. tauto.
    + lia.
Qed.

Lemma returned_frame capc z l z' r q o :
  returned capc z l z' r → owned z q o → (∀ x, in_block q o x → ¬ l x) →
  owned z' q o ∧ (∀ x, in_block q o x → ¬ captured_page capc r x) ∧ ∀ x, in_block q o x → pages z' x = pages z x.
Proof.
  intros R Hown Hl.
  assert (Hn : ∀ x, in_block q o x → ¬ (free_page z' x ∨ captured_page capc r x)).
  { intros x Hx. rewrite (rt_free _ _ _ _ _ R). intros [Hf|Hx']; [by apply (Hown x Hx)|by apply (Hl x)]. }
  split_and!.
  - apply (owned_frame z z'); [apply R|done|]. intros x Hx. specialize (Hn x Hx). split; [by apply R|tauto].
  - intros x Hx. specialize (Hn x Hx). tauto.
  - intros x Hx. by apply R, Hn.
Qed.

(** ** The lists *)

Definition pcp_pages (c : per_cpu_pages) : list Z := lists c 0 ++ lists c 1 ++ lists c 2.

Definition pcp_page_ok (z : zone) (p : Z) : Prop := owned z p 0 ∧ 0 ≤ pg_index (pages z p) < MIGRATE_TYPES.

Record pcp_wf (z : zone) (c : per_cpu_pages) : Prop := PcpWf {
  pw_count : count c = Z.of_nat (length (pcp_pages c));
  pw_batch : 0 < batch c;
  pw_nodup : NoDup (pcp_pages c);
  pw_page p : p ∈ pcp_pages c → pcp_page_ok z p }.

Lemma with_list_pages c t :
  0 ≤ t < MIGRATE_PCPTYPES → ∃ rest, pcp_pages c ≡ₚ lists c t ++ rest ∧
    ∀ l n, pcp_pages (with_list t l n c) ≡ₚ l ++ rest ∧ lists (with_list t l n c) t = l.
Proof.
  unfold MIGRATE_PCPTYPES, pcp_pages. intros Ht. cbn [with_list lists].
  assert (t = 0 ∨ t = 1 ∨ t = 2) as [-> | [-> | ->]] by lia.
  - exists (lists c 1 ++ lists c 2). split; [done|]. done.
  - exists (lists c 0 ++ lists c 2). split; [by rewrite !app_assoc, (Permutation_app_comm (lists c 0))|].
    intros l n. split; [|done]. cbn. by rewrite !app_assoc, (Permutation_app_comm (lists c 0)).
  - exists (lists c 0 ++ lists c 1). split; [by rewrite app_assoc, Permutation_app_comm|].
    intros l n. split; [|done]. cbn. by rewrite app_assoc, Permutation_app_comm.
Qed.

Lemma quiet_at_free p : quiet p → pg_type p = U32_MAX → page_expected_state p PAGE_FLAGS_CHECK_AT_FREE = true.
Proof.
  unfold page_expected_state. intros Hq ->. cbn [negb].
  assert (Z.land (pg_flags p) PAGE_FLAGS_CHECK_AT_FREE = 0) as ->.
  { change PAGE_FLAGS_CHECK_AT_FREE with (Z.land PAGE_FLAGS_CHECK_AT_PREP PAGE_FLAGS_CHECK_AT_FREE).
    by rewrite Z.land_assoc, (quiet_flags p Hq). }
  unfold quiet in Hq. apply Z.lor_eq_0_iff in Hq as [-> _]. done.
Qed.

Lemma owned_new z p : owned z p 0 → check_new_page z p = (z, false).
Proof.
  intros H. destruct (H p (head_in_block p 0)) as (_ & _ & Hq & Ht & _). unfold check_new_page.
  by rewrite quiet_expected.
Qed.

Lemma owned_prepare vm z p : owned z p 0 → bulkfree_pcp_prepare vm z p = (z, false).
Proof.
  intros H. destruct (H p (head_in_block p 0)) as (_ & _ & Hq & Ht & _). unfold bulkfree_pcp_prepare, check_free_page.
  rewrite quiet_at_free by done. by destruct (debug_pagealloc_enabled_static vm).
Qed.

(** [c'] is [c] without the pages of [taken]. *)
Record taken_from (c c' : per_cpu_pages) (taken : list Z) : Prop := TakenFrom {
  tf_pages : pcp_pages c ≡ₚ taken ++ pcp_pages c';
  tf_count : count c' = count c - Z.of_nat (length taken);
  tf_high : high c' = high c;
  tf_batch : batch c' = batch c }.

Lemma taken_trans c1 c2 c3 l1 l2 : taken_from c1 c2 l1 → taken_from c2 c3 l2 → taken_from c1 c3 (l1 ++ l2).
Proof.
  intros A B. split.
  - by rewrite (tf_pages _ _ _ A), (tf_pages _ _ _ B), app_assoc.
  - rewrite (tf_count _ _ _ B), (tf_count _ _ _ A), length_app. lia.
  - by rewrite (tf_high _ _ _ B), (tf_high _ _ _ A).
  - by rewrite (tf_batch _ _ _ B), (tf_batch _ _ _ A).
Qed.

Lemma take_last c t l p :
  0 ≤ t < MIGRATE_PCPTYPES → lists c t = l ++ [p] → taken_from c (with_list t l (count c - 1) c) [p].
Proof.
  intros Ht Hl. destruct (with_list_pages c t Ht) as (rest & Hp & Hw). split; try done.
  rewrite Hp, Hl, (proj1 (Hw l (count c - 1))), (Permutation_app_comm l [p]). done.
Qed.

Lemma take_batch_ok fuel : ∀ vm z c t n bf head,
  0 ≤ t < MIGRATE_PCPTYPES → lists c t ≠ [] → 0 < n → n ≤ Z.of_nat fuel → (∀ p, p ∈ pcp_pages c → owned z p 0) →
  ∃ c' n' bf' taken, take_batch fuel vm z c t n bf head = Ok (z, c', n', bf', head ++ taken) ∧
    taken ≠ [] ∧ n' = n - Z.of_nat (length taken) ∧ 0 ≤ n' ∧ taken_from c c' taken.
Proof.
  induction fuel as [|fuel IH]; intros vm z c t n bf head Ht Hne Hn Hfuel Hown; [lia|]. cbn [take_batch].
  destruct (exists_last Hne) as (l & p & Hl). rewrite Hl, last_snoc, removelast_last.
  pose proof (take_last c t l p Ht Hl) as T.
  rewrite owned_prepare by (apply Hown; rewrite (tf_pages _ _ _ T); apply elem_of_cons; by left).
  destruct (with_list_pages c t Ht) as (rest & _ & Hw).
  assert (Hstop : ∀ b : Z, ∃ (c' : per_cpu_pages) (n' bf' : Z) (taken : list Z), Ok (z, with_list t l (count c - 1) c, n - 1, b, head ++ [p]) = Ok (z, c', n', bf', head ++ taken) ∧
    taken ≠ [] ∧ n' = n - Z.of_nat (length taken) ∧ 0 ≤ n' ∧ taken_from c c' taken).
  { intros b. exists (with_list t l (count c - 1) c), (n - 1), b, [p]. cbn [length]. split_and!; try done; lia. }
  zcase; [apply Hstop|]. zcase; [apply Hstop|]. destruct l as [|x l']; [apply Hstop|].
  destruct (IH vm z (with_list t (x :: l') (count c - 1) c) t (n - 1) (bf - 1) (head ++ [p]))
    as (c' & n' & bf' & taken & -> & Htk & Hn' & Hpos & T').
  - done.
  - by rewrite (proj2 (Hw (x :: l') (count c - 1))).
  - lia.
  - lia.
  - intros q Hq. apply Hown. rewrite (tf_pages _ _ _ T). apply elem_of_app. by right.
  - exists c', n', bf', (p :: taken). rewrite <- app_assoc. split; [done|]. split; [done|]. cbn [length].
    split_and!; [lia..|]. by apply (taken_trans c _ c' [p] taken T).
Qed.

Lemma next_list_ok c t bf :
  pcp_pages c ≠ [] → 0 ≤ t < MIGRATE_PCPTYPES →
  ∃ t' bf', next_list 3 c t bf = Ok (t', bf') ∧ 0 ≤ t' < MIGRATE_PCPTYPES ∧ lists c t' ≠ [].
Proof.
  unfold pcp_pages, MIGRATE_PCPTYPES. intros Hne Ht.
  assert (t = 0 ∨ t = 1 ∨ t = 2) as [-> | [-> | ->]] by lia;
    cbv beta iota zeta delta [next_list MIGRATE_PCPTYPES Z.add Z.eqb Pos.eqb Pos.add Pos.succ];
    destruct (lists c 0) eqn:?, (lists c 1) eqn:?, (lists c 2) eqn:?; try done;
    eexists _, _; (split; [reflexivity|]); split; try lia; congruence.
Qed.

Lemma collect_ok fuel : ∀ vm z c t n bf head,
  0 ≤ t < MIGRATE_PCPTYPES → 0 ≤ n → n ≤ Z.of_nat fuel → n ≤ Z.of_nat (length (pcp_pages c)) →
  (∀ p, p ∈ pcp_pages c → owned z p 0) →
  ∃ c' taken, collect fuel vm z c t n bf head = Ok (z, c', head ++ taken) ∧
    Z.of_nat (length taken) = n ∧ taken_from c c' taken.
Proof.
  induction fuel as [|fuel IH]; intros vm z c t n bf head Ht Hn Hfuel Hlen Hown; cbn [collect];
    destruct (Z.eqb_spec n 0) as [->|Hn0].
  1, 3: exists c, []; rewrite app_nil_r; split_and!; try done; split; try done; cbn [length]; lia.
  { lia. }
  destruct (next_list_ok c t bf) as (t' & bf' & -> & Ht' & Hl'); [|done|].
  { intros E. rewrite E in Hlen. cbn [length] in Hlen. lia. }
  cbn [mbind outcome_bind].
  destruct (take_batch_ok (Z.to_nat n) vm z c t' n (if bf' =? MIGRATE_PCPTYPES then n else bf') head)
    as (c1 & n1 & bf1 & tk & -> & Htk & Hn1 & Hpos & T1); [done|done|lia|lia|done|].
  cbn [mbind outcome_bind]. assert (0 < Z.of_nat (length tk)) by (destruct tk; [done|cbn [length]; lia]).
  destruct (IH vm z c1 t' n1 bf1 (head ++ tk)) as (c' & tk' & -> & Hlen' & T'); [done|lia|lia| | |].
  - rewrite (tf_pages _ _ _ T1), length_app in Hlen. lia.
  - intros p Hp. apply Hown. rewrite (tf_pages _ _ _ T1). apply elem_of_app. by right.
  - exists c', (tk ++ tk'). rewrite app_assoc, length_app. split_and!; [done|lia|]. by eapply taken_trans.
Qed.

(** ** Giving pages back *)

Lemma returned_ext capc z l l' z' r : (∀ x, l x ↔ l' x) → returned capc z l z' r → returned capc z l' z' r.
Proof. intros E R. split; try apply R. intros x. rewrite <- E. apply R. Qed.

Lemma no_capture capc x : ¬ captured_page capc None x.
Proof. destruct capc; exact id. Qed.

Lemma returned_nil capc z : wf z → returned capc z (λ _, False) z None.
Proof. intros W. split; try done. intros x. pose proof (no_capture capc x). tauto. Qed.

(** Giving back one lot and then another, the first without a capture. *)
Lemma returned_trans capc z l1 z1 l2 z2 r :
  returned capc z l1 z1 None → returned capc z1 l2 z2 r → returned capc z (λ x, l1 x ∨ l2 x) z2 r.
Proof.
  intros A B. assert (F : ∀ x, free_page z1 x ↔ free_page z x ∨ l1 x).
  { intros x. rewrite <- (rt_free _ _ _ _ _ A). pose proof (no_capture capc x). tauto. }
  split; try apply B.
  - etrans; [apply A|apply B].
  - intros x. rewrite (rt_free _ _ _ _ _ B), F. tauto.
  - intros x Hx. rewrite (rt_pages _ _ _ _ _ B) by done. apply A. rewrite (rt_free _ _ _ _ _ B) in Hx.
    pose proof (no_capture capc x). tauto.
  - by rewrite (rt_flags _ _ _ _ _ B), (rt_flags _ _ _ _ _ A).
  - by rewrite (rt_count _ _ _ _ _ B), (rt_count _ _ _ _ _ A).
Qed.

(** The first lot was captured: the second lot leaves that block alone. *)
Lemma returned_trans_captured capc z l1 z1 p l2 z2 :
  returned capc z l1 z1 (Some p) → returned None z1 l2 z2 None →
  (∀ x, l2 x → ¬ captured_page capc (Some p) x) → returned capc z (λ x, l1 x ∨ l2 x) z2 (Some p).
Proof.
  intros A B Hl2. destruct (rt_captured _ _ _ _ _ A p eq_refl) as (o & -> & Ho & Hal & Hown). cbn [captured_page] in *.
  destruct (returned_frame None z1 l2 z2 None p o) as (Hown2 & _ & Hpg); [done|done|intros x Hx Hl; by apply (Hl2 x)|].
  assert (F : ∀ x, free_page z2 x ↔ free_page z1 x ∨ l2 x).
  { intros x. rewrite <- (rt_free _ _ _ _ _ B). cbn. tauto. }
  split; cbn [captured_page].
  - apply B.
  - etrans; [apply A|apply B].
  - intros x. rewrite F. pose proof (rt_free _ _ _ _ _ A x) as E. cbn [captured_page] in E. tauto.
  - intros x Hx. rewrite (rt_pages _ _ _ _ _ B) by (cbn; tauto). apply A. rewrite F in Hx. cbn. tauto.
  - by rewrite (rt_flags _ _ _ _ _ B), (rt_flags _ _ _ _ _ A).
  - by rewrite (rt_count _ _ _ _ _ B), (rt_count _ _ _ _ _ A).
  - intros p' [= <-]. exists o. done.
Qed.

Lemma order0_aligned p : aligned p 0.
Proof. unfold aligned. change (bsize 0) with 1. apply Z.mod_1_r. Qed.

(** A page outside a lot stays as it was while the lot is given back. *)
Lemma returned_pcp_page capc z l z' r p :
  returned capc z l z' r → pcp_page_ok z p → ¬ l p → pcp_page_ok z' p ∧ ¬ captured_page capc r p.
Proof.
  intros R [Hown Hi] Hl. destruct (returned_frame capc z l z' r p 0) as (Hown' & Hc & Hpg); [done|done| |].
  { intros x ->%in_block_0. done. }
  split; [|apply Hc, head_in_block]. split; [done|]. by rewrite Hpg by apply head_in_block.
Qed.

Lemma free_collected_rest head : ∀ z capc p,
  wf z → NoDup head → (∀ q, q ∈ head → pcp_page_ok z q) →
  ∃ z', free_collected z head capc (Some p) = Ok (z', Some p) ∧ returned None z (λ x, x ∈ head) z' None.
Proof.
  induction head as [|q head IH]; intros z capc p W Hnd Hok; cbn [free_collected].
  { exists z. split; [done|]. eapply returned_ext, returned_nil; [|done]. intros x. rewrite elem_of_nil. done. }
  apply list.NoDup_cons in Hnd as [Hq Hnd]. destruct (Hok q) as [Hown Hi]; [apply elem_of_cons; by left|].
  destruct (free_one_returned z q 0 (pg_index (pages z q)) None) as (z1 & r & -> & R); [done|unfold MAX_ORDER; lia|done|apply order0_aligned|done|].
  cbn [mbind outcome_bind]. destruct r as [p'|].
  { by destruct (rt_captured _ _ _ _ _ R p' eq_refl) as (? & ? & _). }
  destruct (IH z1 capc p) as (z' & -> & R'); [apply R|done| |].
  { intros q' Hq'. apply (returned_pcp_page None z (in_block q 0) z1 None); [done|apply Hok; apply elem_of_cons; by right|].
    rewrite in_block_0. by intros ->. }
  exists z'. split; [done|]. eapply returned_ext, returned_trans; [|done..].
  intros x. cbn. by rewrite in_block_0, elem_of_cons.
Qed.

Lemma free_collected_ok head : ∀ z capc,
  wf z → NoDup head → (∀ q, q ∈ head → pcp_page_ok z q) →
  ∃ z' r, free_collected z head capc None = Ok (z', r) ∧ returned capc z (λ x, x ∈ head) z' r.
Proof.
  induction head as [|q head IH]; intros z capc W Hnd Hok; cbn [free_collected].
  { exists z, None. split; [done|]. eapply returned_ext, returned_nil; [|done]. intros x. rewrite elem_of_nil. done. }
  apply list.NoDup_cons in Hnd as [Hq Hnd]. destruct (Hok q) as [Hown Hi]; [apply elem_of_cons; by left|].
  destruct (free_one_returned z q 0 (pg_index (pages z q)) capc) as (z1 & r & -> & R); [done|unfold MAX_ORDER; lia|done|apply order0_aligned|done|].
  cbn [mbind outcome_bind].
  assert (Hrest : ∀ q', q' ∈ head → pcp_page_ok z1 q' ∧ ¬ captured_page capc r q').
  { intros q' Hq'. apply (returned_pcp_page capc z (in_block q 0) z1 r); [done|apply Hok; apply elem_of_cons; by right|].
    rewrite in_block_0. by intros ->. }
  assert (Hx : ∀ x, in_block q 0 x ∨ x ∈ head ↔ x ∈ q :: head) by (intros x; by rewrite in_block_0, elem_of_cons).
  destruct r as [p|].
  - destruct (free_collected_rest head z1 capc p) as (z' & -> & R'); [apply R|done|intros; by apply Hrest|].
    exists z', (Some p). split; [done|]. eapply returned_ext; [exact Hx|]. eapply returned_trans_captured; [done..|].
    intros x Hh. by apply Hrest.
  - destruct (IH z1 capc) as (z' & r & -> & R'); [apply R|done|intros; by apply Hrest|].
    exists z', r. split; [done|]. eapply returned_ext; [exact Hx|]. by eapply returned_trans.
Qed.

(** The lists that are left are as good as before. *)
Lemma taken_wf capc z c c' taken z' r :
  pcp_wf z c → taken_from c c' taken → returned capc z (λ x, x ∈ taken) z' r → pcp_wf z' c'.
Proof.
  intros P T R. pose proof (pw_nodup z c P) as Hnd. rewrite (tf_pages _ _ _ T) in Hnd. apply list.NoDup_app in Hnd as (_ & Hdis & Hnd).
  split.
  - rewrite (tf_count _ _ _ T), (pw_count z c P), (tf_pages _ _ _ T), length_app. lia.
  - rewrite (tf_batch _ _ _ T). apply P.
  - done.
  - intros p Hp. apply (returned_pcp_page capc z (λ x, x ∈ taken) z' r); [done| |].
    + apply (pw_page z c P). rewrite (tf_pages _ _ _ T). apply elem_of_app. by right.
    + intros Ht. by apply (Hdis p).
Qed.

Lemma free_pcppages_bulk_ok vm z n c capc :
  wf z → pcp_wf z c → 0 ≤ n →
  ∃ z' c' r taken, free_pcppages_bulk vm z n c capc = Ok (z', c', r) ∧ taken_from c c' taken ∧
    Z.of_nat (length taken) = Z.min (count c) n ∧ returned capc z (λ x, x ∈ taken) z' r ∧ pcp_wf z' c'.
Proof.
  intros W P Hn. unfold free_pcppages_bulk. pose proof (pw_count z c P) as Hc.
  destruct (collect_ok (Z.to_nat (Z.min (count c) n)) vm z c 0 (Z.min (count c) n) 0 []) as (c' & taken & -> & Hlen & T);
    [done|lia|lia|lia| |].
  { intros p Hp. by apply (pw_page z c P). }
  cbn [mbind outcome_bind app]. pose proof (pw_nodup z c P) as Hnd. rewrite (tf_pages _ _ _ T) in Hnd.
  destruct (free_collected_ok taken z capc) as (z' & r & -> & R).
  { done. }
  { by apply list.NoDup_app in Hnd as (? & _). }
  { intros q Hq. apply (pw_page z c P). rewrite (tf_pages _ _ _ T). apply elem_of_app. by left. }
  cbn [mbind outcome_bind]. exists z', c', r, taken. split_and!; try done. by apply (taken_wf capc z c c' taken z' r).
Qed.

(** The pages in the allocator's hands. *)
Definition pool (z : zone) (c : per_cpu_pages) (x : Z) : Prop := free_page z x ∨ x ∈ pcp_pages c.

(** What an operation that gives back the pages of [l] leaves. *)
Record gave_back (capc : option nat) (z : zone) (c : per_cpu_pages) (l : Z → Prop) (z' : zone) (c' : per_cpu_pages) (r : option Z) : Prop := GaveBack {
  gb_wf : wf z';
  gb_pcp : pcp_wf z' c';
  gb_zone : same_zone z z';
  gb_pool x : pool z' c' x ∨ captured_page capc r x ↔ pool z c x ∨ l x;
  gb_pages x : ¬ (pool z c x ∨ l x) → pages z' x = pages z x;
  gb_flags : pageblock_flags z' = pageblock_flags z;
  gb_count : nr_free_pages z' - free_count z' = nr_free_pages z - free_count z;
  gb_captured p : r = Some p → ∃ o, capc = Some o ∧ (o < MAX_ORDER)%nat ∧ aligned p o ∧ owned z' p o ∧
    ∀ x, in_block p o x → ¬ pool z' c' x }.

Lemma bulk_gave_back vm z n c capc :
  wf z → pcp_wf z c → 0 ≤ n →
  ∃ z' c' r, free_pcppages_bulk vm z n c capc = Ok (z', c', r) ∧ gave_back capc z c (λ _, False) z' c' r ∧
    count c' = count c - Z.min (count c) n ∧ high c' = high c.
Proof.
  intros W P Hn. destruct (free_pcppages_bulk_ok vm z n c capc) as (z' & c' & r & taken & -> & T & Hlen & R & P'); [done..|].
  exists z', c', r. split; [done|]. split; [|split; [rewrite (tf_count _ _ _ T); lia|apply T]].
  assert (F : ∀ x, x ∈ pcp_pages c ↔ x ∈ taken ∨ x ∈ pcp_pages c') by (intros x; by rewrite (tf_pages _ _ _ T), elem_of_app).
  assert (Hpool : ∀ x, pool z' c' x ∨ captured_page capc r x ↔ pool z c x ∨ False).
  { intros x. pose proof (rt_free _ _ _ _ _ R x) as E. cbn in E. unfold pool. rewrite F. tauto. }
  split; try done; try apply R.
  - intros x Hx. apply R. rewrite (rt_free _ _ _ _ _ R). unfold pool in Hx. rewrite F in Hx. tauto.
  - intros p ->. destruct (rt_captured _ _ _ _ _ R p eq_refl) as (o & -> & Ho & Hal & Hown). exists o. split_and!; try done.
    intros x Hx [Hf|Hp]; [by apply (Hown x Hx)|]. pose proof (pw_nodup z c P) as Hnd. rewrite (tf_pages _ _ _ T) in Hnd.
    apply list.NoDup_app in Hnd as (_ & Hdis & _).
    destruct (returned_pcp_page (Some o) z (λ x, x ∈ taken) z' (Some p) x) as [_ Hc]; [done| | |by apply Hc].
    + apply (pw_page z c P), F. by right.
    + intros Ht. by apply (Hdis x).
Qed.

Lemma drain_ok vm z c capc :
  wf z → pcp_wf z c →
  ∃ z' c' r, drain_pages_zone vm z c capc = Ok (z', c', r) ∧ gave_back capc z c (λ _, False) z' c' r ∧ pcp_pages c' = [].
Proof.
  intros W P. unfold drain_pages_zone. pose proof (pw_count z c P) as Hc. destruct (Z.eqb_spec (count c) 0) as [H0|H0]; cbn [negb].
  - exists z, c, None. split_and!; try done.
    + split; try done. intros x. pose proof (no_capture capc x). tauto.
    + apply length_zero_iff_nil. lia.
  - destruct (bulk_gave_back vm z (count c) c capc) as (z' & c' & r & -> & G & Hc' & _); [done..|lia|].
    exists z', c', r. split_and!; try done. apply length_zero_iff_nil. rewrite (pw_count z' c') in Hc' by apply G. lia.
Qed.

Lemma commit_ok vm z c p capc :
  wf z → pcp_wf z c → pcp_page_ok z p → p ∉ pcp_pages c →
  ∃ z' c' r, free_unref_page_commit vm z c p capc = Ok (z', c', r) ∧ gave_back capc z c (in_block p 0) z' c' r.
Proof.
  intros W P Hp Hnin. unfold free_unref_page_commit.
  set (t := if MIGRATE_PCPTYPES <=? pg_index (pages z p) then MIGRATE_MOVABLE else pg_index (pages z p)).
  assert (Ht : 0 ≤ t < MIGRATE_PCPTYPES).
  { unfold t. destruct Hp as [_ Hi]. unfold MIGRATE_PCPTYPES, MIGRATE_MOVABLE, MIGRATE_TYPES in *. zcase; lia. }
  set (c1 := with_list t (p :: lists c t) (count c + 1) c).
  assert (E : pcp_pages c1 ≡ₚ p :: pcp_pages c).
  { destruct (with_list_pages c t Ht) as (rest & -> & Hw). unfold c1. by rewrite (proj1 (Hw _ _)). }
  assert (P1 : pcp_wf z c1).
  { split.
    - rewrite E. cbn [length]. change (count c1) with (count c + 1). rewrite (pw_count z c P). lia.
    - apply (pw_batch z c P).
    - rewrite E. apply NoDup_cons_2; [done|apply P].
    - intros q. rewrite E, elem_of_cons. intros [->|Hq]; [done|]. by apply (pw_page z c P). }
  assert (Epool : ∀ x, pool z c1 x ↔ pool z c x ∨ in_block p 0 x).
  { intros x. unfold pool. rewrite E, elem_of_cons, in_block_0. tauto. }
  zcase.
  - destruct (bulk_gave_back vm z (batch c1) c1 capc) as (z' & c' & r & -> & G & _); [done|done|pose proof (pw_batch z c1 P1); lia|].
    exists z', c', r. split; [done|]. split; try apply G.
    + intros x. rewrite (gb_pool _ _ _ _ _ _ _ G), Epool. tauto.
    + intros x Hx. apply G. rewrite Epool. tauto.
  - exists z, c1, None. split; [done|]. split; try done. intros x. rewrite Epool. pose proof (no_capture capc x). tauto.
Qed.

End PageAllocSpec.
