(* ===== verification/PageAllocFill.v ===== *)
(** * Allocating through the per-cpu lists

    [rmqueue_bulk], [__rmqueue_pcplist] and [rmqueue]: a page or block leaves
    the allocator's hands and nothing else does; and reserving pageblocks for
    atomic requests moves no page in or out. *)

From stdpp Require Import base numbers list option sets functions.
From Stdlib Require Import ZArith Lia.
From S2P Require Import Prelude Buddy BuddySpec PageBlock BuddyAlloc BuddyFallback PageAlloc PageAllocSpec.

Open Scope Z_scope.

Module PageAllocFill.
Import Buddy BuddySpec PageBlock BuddyAlloc BuddyFallback PageAlloc PageAllocSpec.

(** ** Several pages at once *)

(** The single pages of [l] left the buddy lists. *)
Record taken_pages (z : zone) (l : list Z) (z' : zone) : Prop := TakenPages {
  tp_wf : wf z';
  tp_zone : same_zone z z';
  tp_nodup : NoDup l;
  tp_in p : p ∈ l → free_page z p;
  tp_free x : free_page z' x ↔ free_page z x ∧ x ∉ l;
  tp_pages x : ¬ free_page z x → pages z' x = pages z x;
  tp_count : free_count z' = free_count z - Z.of_nat (length l);
  tp_total : nr_free_pages z' = nr_free_pages z;
  tp_types : types_ok z → types_ok z' }.

Lemma taken_nil z : wf z → taken_pages z [] z.
Proof.
  intros W. split; try done.
  - apply NoDup_nil_2.
  - intros p Hp. by apply elem_of_nil in Hp.
  - intros x. rewrite elem_of_nil. tauto.
  - cbn [length]. lia.
Qed.

Lemma taken_cons z p z1 l z' : allocated z p 0 z1 → taken_pages z1 l z' → taken_pages z (p :: l) z'.
Proof.
  intros (W & Hs & _ & _ & Hin & Hfree & Hpg & Hcnt & Hnr & Hty) T. split.
  - apply T.
  - etrans; [done|apply T].
  - apply NoDup_cons_2; [|apply T]. intros Hp. apply (tp_in _ _ _ T), Hfree in Hp as [_ Hn]. by apply Hn, head_in_block.
  - intros q [->|Hq]%elem_of_cons; [by apply Hin, head_in_block|]. by apply (tp_in _ _ _ T), Hfree in Hq as [? _].
  - intros x. rewrite (tp_free _ _ _ T), Hfree, elem_of_cons, in_block_0. tauto.
  - intros x Hx. rewrite (tp_pages _ _ _ T); [by apply Hpg|]. rewrite Hfree. tauto.
  - rewrite (tp_count _ _ _ T), Hcnt. change (bsize 0) with 1. cbn [length]. lia.
  - by rewrite (tp_total _ _ _ T).
  - intros H. by apply (tp_types _ _ _ T), Hty.
Qed.

(** Pages taken out, with the type they were taken for. *)
Definition fresh_pages (z : zone) (t : Z) (l : list Z) : Prop :=
  ∀ p, p ∈ l → owned z p 0 ∧ pg_index (pages z p) = t.

Lemma refill_clean vm z p : owned z p 0 → check_pcp_refill vm z p = (z, false).
Proof. intros H. unfold check_pcp_refill. rewrite owned_new by done. by destruct (debug_pagealloc_enabled_static vm). Qed.

Lemma bulk_loop_ok n : ∀ fuel vm z l t af k i,
  wf z → 0 ≤ t < MIGRATE_PCPTYPES →
  ∃ z' new, bulk_loop n (S (S fuel)) vm z 0 l t af k i =
      Ok (z', l ++ new, k + Z.of_nat (length new), i + Z.of_nat (length new)) ∧
    taken_pages z new z' ∧ fresh_pages z' t new ∧ (available z 0 t af → (0 < n)%nat → new ≠ []) ∧
    (new = [] → z' = z) ∧ (¬ available z 0 t af → new = []).
Proof.
  induction n as [|n IH]; intros fuel vm z l t af k i W Ht; cbn [bulk_loop].
  { exists z, []. rewrite app_nil_r, !Z.add_0_r. split_and!; try done; [by apply taken_nil| |lia].
    intros p Hp. by apply elem_of_nil in Hp. }
  destruct (rmqueue_ok fuel vm z 0 t af) as (z1 & r & -> & Hr); [done|unfold MAX_ORDER; lia|done|]. cbn [mbind outcome_bind].
  destruct r as [p|].
  2: { destruct Hr as [-> Hno]. exists z, []. rewrite app_nil_r, !Z.add_0_r. split_and!; try done; [by apply taken_nil|].
       intros p Hp. by apply elem_of_nil in Hp. }
  destruct Hr as (Ha & Hi & Hav). pose proof Ha as (W1 & _ & _ & Hown & _). rewrite refill_clean by done.
  destruct (IH fuel vm z1 (l ++ [p]) t af (k + 1) (i + 1)) as (z' & new & -> & T & Hf & _); [done..|].
  exists z', (p :: new). rewrite <- app_assoc. cbn [app length]. rewrite Nat2Z.inj_succ.
  split_and!; try done; [do 2 f_equal; [f_equal|]; lia|by eapply taken_cons|].
  intros q [->|Hq]%elem_of_cons; [|by apply Hf].
  assert (Hkeep : ∀ x, in_block p 0 x → pages z' x = pages z1 x ∧ ¬ free_page z' x).
  { intros x Hx. destruct (Hown x Hx) as (_ & _ & _ & _ & Hn). rewrite (tp_free _ _ _ T). split; [by apply T|tauto]. }
  split; [apply (owned_frame z1 z'); [apply T|done..]|]. by rewrite (proj1 (Hkeep p (head_in_block p 0))).
Qed.

(** ** One page or block leaves *)

Record took (z : zone) (c : per_cpu_pages) (p : Z) (o : nat) (z' : zone) (c' : per_cpu_pages) : Prop := Took {
  tk_wf : wf z';
  tk_pcp : pcp_wf z' c';
  tk_zone : same_zone z z';
  tk_aligned : aligned p o;
  tk_owned : owned z' p o;
  tk_in x : in_block p o x → pool z c x;
  tk_pool x : pool z' c' x ↔ pool z c x ∧ ¬ in_block p o x;
  tk_pages x : ¬ pool z c x → pages z' x = pages z x;
  tk_count : nr_free_pages z' - free_count z' = nr_free_pages z - free_count z;
  tk_types : types_ok z → types_ok z' }.

Lemma same_pcp z z' c : same_lists z z' → pages z' = pages z → pcp_wf z c → pcp_wf z' c.
Proof.
  intros S Hp P. split; try apply P. intros p Hq. destruct (pw_page z c P p Hq) as [Hown Hi].
  split; [by apply (same_lists_owned z)|by rewrite Hp].
Qed.

(** Counters, flags and the like do not matter to [took]. *)
Lemma took_counts z c p o z' c' n w b r :
  took z c p o z' c' → n = nr_free_pages z' → took z c p o (with_counts n w b r z') c'.
Proof.
  intros T ->. set (z2 := with_counts _ w b r z').
  assert (S : same_lists z' z2) by done.
  split; try apply T.
  - apply (same_lists_wf z'), T. done.
  - apply (same_pcp z'); [done|done|apply T].
Qed.

(** The first page of a list is handed out. *)
Lemma pop_ok z c t p l z0 c0 :
  0 ≤ t < MIGRATE_PCPTYPES → lists c t = p :: l → wf z → pcp_wf z c → same_zone z0 z →
  (∀ x, pool z c x ↔ pool z0 c0 x) → (∀ x, ¬ pool z0 c0 x → pages z x = pages z0 x) →
  nr_free_pages z - free_count z = nr_free_pages z0 - free_count z0 → (types_ok z0 → types_ok z) →
  took z0 c0 p 0 z (with_list t l (count c - 1) c) ∧ check_new_pcp z p = (z, false).
Proof.
  intros Ht Hl W P Hs Hpool Hpg Hcnt Hty. destruct (with_list_pages c t Ht) as (rest & Hp & Hw). rewrite Hl in Hp.
  specialize (Hw l (count c - 1)). destruct Hw as [Hw _]. cbn [app] in Hp.
  pose proof (pw_nodup z c P) as Hnd. rewrite Hp in Hnd. apply list.NoDup_cons in Hnd as [Hpn Hnd].
  destruct (pw_page z c P p) as [Hown Hi]; [rewrite Hp; apply elem_of_cons; by left|].
  assert (Hpc : ∀ x, x ∈ pcp_pages c ↔ x = p ∨ x ∈ pcp_pages (with_list t l (count c - 1) c)).
  { intros x. by rewrite Hp, Hw, elem_of_cons. }
  split; [|by apply owned_new]. split; try done.
  - split.
    + rewrite Hw. change (count (with_list t l (count c - 1) c)) with (count c - 1). rewrite (pw_count z c P), Hp. cbn [length]. lia.
    + apply (pw_batch z c P).
    + by rewrite Hw.
    + intros q Hq. apply (pw_page z c P), Hpc. by right.
  - apply order0_aligned.
  - intros x ->%in_block_0. apply Hpool. right. apply Hpc. by left.
  - intros x. rewrite <- Hpool, in_block_0. unfold pool. rewrite Hpc. destruct (Hown p (head_in_block p 0)) as (_ & _ & _ & _ & Hn).
    rewrite Hw. split; [|tauto]. intros [Hf|Hx]; (split; [tauto|]); intros ->; done.
Qed.

(** An empty list is filled from the buddy lists. *)
Lemma refill_ok fuel vm z c t af :
  wf z → pcp_wf z c → 0 ≤ t < MIGRATE_PCPTYPES → lists c t = [] →
  ∃ z' l n, rmqueue_bulk (S (S fuel)) vm z 0 (batch c) [] t af = Ok (z', l, n) ∧ wf z' ∧ same_zone z z' ∧
    pcp_wf z' (with_list t l (count c + n) c) ∧
    (∀ x, pool z' (with_list t l (count c + n) c) x ↔ pool z c x) ∧
    (∀ x, ¬ pool z c x → pages z' x = pages z x) ∧
    nr_free_pages z' - free_count z' = nr_free_pages z - free_count z ∧ (types_ok z → types_ok z') ∧
    (l = [] ↔ ¬ available z 0 t af).
Proof.
  intros W P Ht Hl. unfold rmqueue_bulk.
  destruct (bulk_loop_ok (Z.to_nat (batch c)) fuel vm z [] t af 0 0) as (z1 & new & -> & T & Hf & Hav & _ & Hno); [done..|].
  cbn [mbind outcome_bind app]. rewrite !Z.add_0_l. eexists _, _, _. split; [reflexivity|].
  destruct (with_list_pages c t Ht) as (rest & Hp & Hw). rewrite Hl in Hp. cbn [app] in Hp.
  specialize (Hw new (count c + Z.of_nat (length new))). destruct Hw as [Hw _].
  set (c' := with_list t new _ c) in *. set (z' := __mod_zone_freepage_state z1 _).
  assert (S : same_lists z1 z') by done.
  assert (Hpcp : ∀ q, q ∈ pcp_pages c → ¬ free_page z q) by (intros q Hq; by apply (pw_page z c P q Hq), head_in_block).
  split; [by apply (same_lists_wf z1), T|]. split; [apply T|]. split; [|split; [|split_and!]].
  - split.
    + rewrite Hw, length_app. change (count c') with (count c + Z.of_nat (length new)). rewrite (pw_count z c P), Hp. lia.
    + apply (pw_batch z c P).
    + rewrite Hw. apply list.NoDup_app. split_and!; [apply T| |rewrite <- Hp; apply P].
      intros q Hq Hr. apply (Hpcp q); [by rewrite Hp|]. by apply T.
    + intros q. rewrite Hw, elem_of_app. intros [Hq|Hq].
      * destruct (Hf q Hq) as [Hown Hi]. split; [by apply (same_lists_owned z1)|].
        change (pages z' q) with (pages z1 q). rewrite Hi. unfold MIGRATE_PCPTYPES, MIGRATE_TYPES in *. lia.
      * destruct (pw_page z c P q) as [Hown Hi]; [by rewrite Hp|]. assert (Hq' : q ∈ pcp_pages c) by (by rewrite Hp).
        split; [|change (pages z' q) with (pages z1 q); by rewrite (tp_pages _ _ _ T) by (by apply Hpcp)].
        apply (same_lists_owned z1 z'); [done|]. apply (owned_frame z z1); [apply T|done|]. intros x ->%in_block_0.
        rewrite (tp_free _ _ _ T). split; [by apply T, Hpcp|]. specialize (Hpcp q Hq'). tauto.
  - intros x. unfold pool. change (free_page z' x) with (free_page z1 x). rewrite (tp_free _ _ _ T), Hw, elem_of_app, Hp.
    pose proof (tp_in _ _ _ T x). destruct (decide (x ∈ new)); tauto.
  - intros x Hx. change (pages z' x) with (pages z1 x). apply T. unfold pool in Hx. tauto.
  - change (free_count z') with (free_count z1). change (nr_free_pages z') with (nr_free_pages z1 + - Z.shiftl (Z.of_nat (length new)) 0).
    rewrite (tp_count _ _ _ T), (tp_total _ _ _ T), Z.shiftl_0_r. lia.
  - intros H. by apply (types_same z1), (tp_types _ _ _ T).
  - pose proof (pw_batch z c P). split; [|done]. intros -> Ha. by apply Hav; [|lia|].
Qed.

Lemma rmqueue_pcplist_ok fuel vm z c t af :
  wf z → pcp_wf z c → 0 ≤ t < MIGRATE_PCPTYPES →
  ∃ z' c' r, __rmqueue_pcplist (S (S fuel)) vm z t af c = Ok (z', c', r) ∧
    match r with
    | Some p => took z c p 0 z' c'
    | None => ¬ available z 0 t af ∧ lists c t = [] ∧ wf z' ∧ pcp_wf z' c' ∧ same_zone z z' ∧
        (∀ x, pool z' c' x ↔ pool z c x) ∧ (∀ x, ¬ pool z c x → pages z' x = pages z x) ∧
        nr_free_pages z' - free_count z' = nr_free_pages z - free_count z ∧ (types_ok z → types_ok z')
    end.
Proof.
  intros W P Ht. cbn [__rmqueue_pcplist]. destruct (lists c t) as [|p l] eqn:El.
  - destruct (refill_ok fuel vm z c t af) as (z1 & l & n & -> & W1 & Hs & P1 & Hpool & Hpg & Hcnt & Hty & Hav); [done..|].
    cbn [mbind outcome_bind]. set (c1 := with_list t l (count c + n) c) in *.
    assert (El1 : lists c1 t = l) by (unfold c1; cbn [lists with_list]; by rewrite fn_lookup_insert).
    rewrite El1. destruct l as [|p l].
    + exists z1, c1, None. split; [done|]. split_and!; try done. by apply Hav.
    + destruct (pop_ok z1 c1 t p l z c) as [T ->]; [done..|]. by eexists _, _, (Some p).
  - cbn [mbind outcome_bind]. rewrite El. destruct (pop_ok z c t p l z c) as [T ->]; [done..|]. by eexists _, _, (Some p).
Qed.

(** ** [rmqueue] *)

Lemma check_new_pages_clean n : ∀ z p,
  (∀ x, p ≤ x < p + Z.of_nat n → page_expected_state (pages z x) PAGE_FLAGS_CHECK_AT_PREP = true) →
  check_new_pages_loop n z p = (z, false).
Proof.
  induction n as [|n IH]; intros z p H; cbn [check_new_pages_loop]; [done|].
  unfold check_new_page. rewrite H by lia. apply IH. intros x Hx. apply H. lia.
Qed.

Lemma owned_check z p o : owned z p o → check_new_pages z p o = (z, false).
Proof.
  intros Hown. apply check_new_pages_clean. intros x Hx.
  destruct (Hown x) as (_ & _ & Hq & Ht & _); [|by apply quiet_expected].
  unfold in_block. rewrite bsize_pow. rewrite Nat2Z.inj_pow in Hx. done.
Qed.

Lemma allocated_took z c p o z' :
  pcp_wf z c → allocated z p o z' → took z c p o (__mod_zone_freepage_state z' (- bsize o)) c.
Proof.
  intros P Ha. pose proof Ha as (W & Hs & Hal & Hown & Hin & Hfree & Hpg & Hcnt & Hnr & Hty).
  set (z2 := __mod_zone_freepage_state z' (- bsize o)). assert (S : same_lists z' z2) by done.
  assert (Hpcp : ∀ q, q ∈ pcp_pages c → pcp_page_ok z' q ∧ ¬ in_block p o q).
  { intros q Hq. destruct (pw_page z c P q Hq) as [Hq1 Hq2]. destruct (allocated_frame z p o z' q 0) as (H1 & H2 & H3); [done..|].
    split; [split; [done|by rewrite H3 by apply head_in_block]|]. intros Hb. by apply (H2 q Hb), head_in_block. }
  split; try done.
  - by apply (same_lists_wf z').
  - split; try apply P. intros q Hq. destruct (Hpcp q Hq) as [[H1 H2] _]. split; [by apply (same_lists_owned z')|done].
  - intros x Hx. left. by apply Hin.
  - intros x. unfold pool. change (free_page z2 x) with (free_page z' x). rewrite Hfree. split; [|tauto].
    intros [?|Hx]; [tauto|]. split; [by right|by apply Hpcp].
  - intros x Hx. apply Hpg. unfold pool in Hx. tauto.
  - change (free_count z2) with (free_count z'). change (nr_free_pages z2) with (nr_free_pages z' + - bsize o). lia.
Qed.

Lemma rmqueue_locked_ok fuel vm z o af t :
  wf z → (o < MAX_ORDER)%nat → 0 ≤ t < MIGRATE_PCPTYPES →
  ∃ z' r, rmqueue_locked (S (S fuel)) vm z o af t = Ok (z', r) ∧
    match r with
    | Some p => allocated z p o z'
    | None => z' = z ∧ ¬ available z o t af
    end.
Proof.
  intros W Ho Ht. cbn [rmqueue_locked].
  assert (∃ z1 r1, (if (0 <? o)%nat && has_flag af ALLOC_HARDER then __rmqueue_smallest z o MIGRATE_HIGHATOMIC else Ok (z, None)) = Ok (z1, r1) ∧
    match r1 with Some p => allocated z p o z1 | None => z1 = z end) as (z1 & r1 & -> & H1).
  { destruct (_ && _); [|by exists z, None].
    destruct (rmqueue_smallest_ok z o MIGRATE_HIGHATOMIC) as (z1 & r1 & -> & H1); [done..|]. exists z1, r1. split; [done|].
    destruct r1; [apply H1|]. by destruct H1. }
  cbn [mbind outcome_bind]. destruct r1 as [p|].
  - cbn [mbind outcome_bind]. rewrite owned_check by apply H1. by exists z1, (Some p).
  - subst z1. destruct (rmqueue_ok fuel vm z o t af) as (z2 & r2 & -> & H2); [done..|]. cbn [mbind outcome_bind].
    destruct r2 as [p|]; [|by exists z2, None]. destruct H2 as (Ha & _ & _). rewrite owned_check by apply Ha. by exists z2, (Some p).
Qed.

Lemma took_in_zone z c p o z' c' : took z c p o z' c' → bad_range z' p = false.
Proof.
  intros T. destruct (tk_owned _ _ _ _ _ _ T p (head_in_block p o)) as (Hs & Hz & _). unfold bad_range.
  by rewrite Hs, Hz, Z.eqb_refl.
Qed.

(** What is left when [rmqueue] finds nothing. *)
Record untouched (z : zone) (c : per_cpu_pages) (z' : zone) (c' : per_cpu_pages) : Prop := Untouched {
  un_wf : wf z';
  un_pcp : pcp_wf z' c';
  un_zone : same_zone z z';
  un_pool x : pool z' c' x ↔ pool z c x;
  un_pages x : ¬ pool z c x → pages z' x = pages z x;
  un_count : nr_free_pages z' - free_count z' = nr_free_pages z - free_count z;
  un_types : types_ok z → types_ok z' }.

Lemma rmqueue_entry_ok fuel vm z c o af t :
  wf z → pcp_wf z c → (o < MAX_ORDER)%nat → 0 ≤ t < MIGRATE_PCPTYPES →
  ∃ z' c' r, rmqueue (S (S fuel)) vm z c o af t = Ok (z', c', r) ∧
    match r with
    | Some p => took z c p o z' c'
    | None => untouched z c z' c' ∧ ¬ available z o t af
    end.
Proof.
  intros W P Ho Ht. unfold rmqueue. destruct (Nat.eqb_spec o 0) as [->|Hne].
  - destruct (rmqueue_pcplist_ok fuel vm z c t af) as (z1 & c1 & r & -> & Hr); [done..|]. cbn [mbind outcome_bind].
    set (z2 := if boosted_watermark z1 then _ else z1). destruct r as [p|].
    + assert (T : took z c p 0 z2 c1) by (unfold z2; destruct (boosted_watermark z1); [by apply took_counts|done]).
      rewrite (took_in_zone _ _ _ _ _ _ T). by exists z2, c1, (Some p).
    + destruct Hr as (Hav & _ & W1 & P1 & Hs & Hpool & Hpg & Hcnt & Hty). exists z2, c1, None. split; [done|]. split; [|done].
      assert (S : same_lists z1 z2) by (unfold z2; by destruct (boosted_watermark z1)).
      unfold z2. destruct (boosted_watermark z1); [|done]. split; try done; [by apply (same_lists_wf z1)|by apply (same_pcp z1)].
  - destruct (rmqueue_locked_ok fuel vm z o af t) as (z1 & r & -> & Hr); [done..|]. cbn [mbind outcome_bind]. destruct r as [p|].
    + pose proof (allocated_took z c p o z1 P Hr) as T. set (z2 := __mod_zone_freepage_state z1 _) in *.
      set (z3 := if boosted_watermark z2 then _ else z2).
      assert (T3 : took z c p o z3 c) by (unfold z3; destruct (boosted_watermark z2); [by apply took_counts|done]).
      rewrite (took_in_zone _ _ _ _ _ _ T3). by exists z3, c, (Some p).
    + destruct Hr as [-> Hav]. exists z, c, None. split; [done|]. split; [|done]. by split.
Qed.

End PageAllocFill.
