(* ===== verification/PageAllocSys.v ===== *)
(** * The page allocator and its clients

    The zone, a CPU's lists and the blocks clients hold as a transition system
    whose steps are the entry points; no page is in two hands and none is lost.
    The watermark check and the allocation it guards. *)

From stdpp Require Import base numbers list option sets functions relations.
From Stdlib Require Import ZArith Lia.
From S2P Require Import Prelude Buddy BuddySpec PageBlock BuddyFree BuddyAlloc BuddyFallback.
From S2P Require Import PageAlloc PageAllocSpec PageAllocFill.

Open Scope Z_scope.

Module PageAllocSys.
Import Buddy BuddySpec PageBlock BuddyFree BuddyAlloc BuddyFallback PageAlloc PageAllocSpec PageAllocFill.

(** ** Writing pages in use *)

(** [z'] is [z] with pages satisfying [P] rewritten: they stay in their zone
    and do not become buddy pages. *)
Record edits (P : Z → Prop) (z z' : zone) : Prop := Edits {
  ed_only : z' = with_pages (pages z') z;
  ed_same x : ¬ P x → pages z' x = pages z x;
  ed_zone x : pg_zone (pages z' x) = pg_zone (pages z x);
  ed_buddy x : PageBuddy (pages z x) = false → PageBuddy (pages z' x) = false }.

Lemma edits_refl P z : edits P z z.
Proof. split; try done. by destruct z. Qed.

Lemma edits_trans P z1 z2 z3 : edits P z1 z2 → edits P z2 z3 → edits P z1 z3.
Proof.
  intros A B. split.
  - rewrite (ed_only _ _ _ B), (ed_only _ _ _ A). done.
  - intros x Hx. by rewrite (ed_same _ _ _ B), (ed_same _ _ _ A).
  - intros x. by rewrite (ed_zone _ _ _ B), (ed_zone _ _ _ A).
  - intros x Hx. by apply B, A.
Qed.

Lemma edits_weaken (P Q : Z → Prop) z z' : (∀ x, P x → Q x) → edits P z z' → edits Q z z'.
Proof. intros H A. split; try apply A. intros x Hx. apply A. intros HP. by apply Hx, H. Qed.

Lemma edits_page (P : Z → Prop) z x p :
  P x → pg_zone p = pg_zone (pages z x) → (PageBuddy (pages z x) = false → PageBuddy p = false) → edits P z (set_page x p z).
Proof.
  intros HP Hz Hb. unfold set_page. split; [done|..]; intros y; cbn [pages with_pages]; destruct (decide (y = x)) as [->|].
  - done.
  - by rewrite fn_lookup_insert_ne.
  - by rewrite fn_lookup_insert.
  - by rewrite fn_lookup_insert_ne.
  - by rewrite fn_lookup_insert.
  - by rewrite fn_lookup_insert_ne.
Qed.

Lemma edits_free P z z' x : edits P z z' → free_page z' x = free_page z x.
Proof. intros A. by rewrite (ed_only _ _ _ A). Qed.

Lemma edits_zone P z z' : edits P z z' → same_zone z z'.
Proof. intros A. by rewrite (ed_only _ _ _ A). Qed.

Lemma edits_wf (P : Z → Prop) z z' :
  wf z → edits P z z' → (∀ x, P x → ¬ free_page z x ∧ PageBuddy (pages z x) = false) → wf z'.
Proof.
  intros W A HP. assert (Hf : ∀ x, free_page z x → pages z' x = pages z x).
  { intros x Hx. apply A. intros Hp. by apply (HP x Hp). }
  assert (Hb : ∀ x, PageBuddy (pages z' x) = true → pages z' x = pages z x).
  { intros x Hx. apply A. intros Hp. rewrite (ed_buddy _ _ _ A) in Hx; [done|]. by apply HP. }
  assert (Hl : ∀ o t, free_list z' o t = free_list z o t) by (by rewrite (ed_only _ _ _ A)).
  assert (Hfr : ∀ o t p x, p ∈ free_list z o t → in_block p o x → pages z' x = pages z x) by (intros; apply Hf; by exists o, t, p).
  pose proof (edits_zone _ _ _ A) as Hs. pose proof Hs as (Hi & H1 & H2 & H3 & _). split.
  - rewrite H3. apply W.
  - rewrite H1, H2. apply W.
  - intros o t p. rewrite Hl. apply (wf_range z W).
  - intros o t p. rewrite Hl. intros Hp. rewrite (Hfr o t p) by (done || apply head_in_block). by apply (wf_head z W o t).
  - intros o t p x. rewrite Hl. intros Hp Hx. unfold free_state. rewrite (Hfr o t p), (same_zone_spans z z' x Hs), Hi by done.
    by apply (wf_state z W o t).
  - intros p. rewrite (same_zone_spans z z' p Hs), Hi, (ed_zone _ _ _ A). intros Hp Hbd. setoid_rewrite Hl.
    apply (wf_buddy z W); [done|]. by rewrite <- (Hb p Hbd).
  - intros p Hbd. rewrite (Hb p Hbd). apply (wf_refs z W). by rewrite <- (Hb p Hbd).
  - intros o t t' p. rewrite !Hl. apply (wf_one z W).
  - intros o t. rewrite Hl. apply W.
  - intros o t p o' t' q x. rewrite !Hl. apply (wf_disjoint z W).
  - intros o. unfold listed_total. rewrite !Hl. rewrite (ed_only _ _ _ A). apply (wf_count z W).
  - intros o t t' p. rewrite !Hl. apply (wf_coalesced z W).
Qed.

Lemma edits_owned (P : Z → Prop) z z' q o : edits P z z' → owned z q o → (∀ x, in_block q o x → ¬ P x) → owned z' q o.
Proof.
  intros A Hown HP. apply (owned_frame z z'); [by eapply edits_zone|done|]. intros x Hx.
  rewrite (edits_free P z z' x A). split; [by apply A, HP|]. by apply (Hown x Hx).
Qed.

Lemma edits_pcp (P : Z → Prop) z z' c : edits P z z' → pcp_wf z c → (∀ x, P x → x ∉ pcp_pages c) → pcp_wf z' c.
Proof.
  intros A Pc HP. split; try apply Pc. intros p Hp. destruct (pw_page z c Pc p Hp) as [Hown Hi]. split.
  - apply (edits_owned P z z'); [done..|]. intros x ->%in_block_0 Hx. by apply (HP p).
  - rewrite (ed_same _ _ _ A); [done|]. intros Hx. by apply (HP p).
Qed.

(** ** Preparing pages *)

Definition clean (p : page) : Prop := quiet p ∧ pg_type p = U32_MAX.

Lemma expected_clean p :
  page_expected_state p PAGE_FLAGS_CHECK_AT_FREE = true →
  clean (set_flags (Z.ldiff (pg_flags p) PAGE_FLAGS_CHECK_AT_PREP) p) ∧ PageBuddy p = false.
Proof.
  unfold page_expected_state. destruct (Z.eqb_spec (pg_type p) U32_MAX) as [Ht|]; cbn [negb]; [|done].
  destruct (Z.eqb_spec (Z.lor (Z.lor (pg_mapping p) (pg_refcount p)) (Z.land (pg_flags p) PAGE_FLAGS_CHECK_AT_FREE)) 0) as [E|]; [|done].
  intros _. split; [|by apply plain_type_spec]. split; [|done]. unfold quiet. cbn [set_flags pg_mapping pg_refcount pg_flags].
  apply Z.lor_eq_0_iff in E as [-> _].
  apply Z.bits_inj'. intros i Hi. rewrite Z.lor_spec, Z.land_spec, Z.ldiff_spec, Z.bits_0. by destruct (Z.testbit _ i), (Z.testbit _ i).
Qed.

Lemma bad_page_buddy p : PageBuddy (page_mapcount_reset p) = false.
Proof. by apply plain_type_spec. Qed.

(** One page: an edit at that page, which is clean unless reported. *)
Lemma check_clear_ok (P : Z → Prop) z x :
  P x → (∀ y, P y → PageBuddy (pages z y) = false) →
  ∃ z' b, check_free_page z x = (z', b) ∧ edits P z z' ∧
    (b = false → z' = z ∧ edits P z (clear_flags_at_prep z x) ∧ clean (pages (clear_flags_at_prep z x) x)).
Proof.
  intros HP Hb. unfold check_free_page. destruct (page_expected_state _ _) eqn:E; eexists _, _; (split; [reflexivity|]).
  - split; [apply edits_refl|]. intros _. apply expected_clean in E as [Hc Hb']. split; [done|].
    split; [by apply edits_page|]. unfold clear_flags_at_prep, set_page. cbn [pages with_pages]. by rewrite fn_lookup_insert.
  - split; [|done]. by apply edits_page.
Qed.

Lemma prepare_tails_ok n : ∀ z p bad,
  (∀ x, p ≤ x < p + Z.of_nat n → PageBuddy (pages z x) = false) →
  ∃ z' bad', prepare_tails n z p bad = (z', bad') ∧ bad ≤ bad' ∧ edits (λ x, p ≤ x < p + Z.of_nat n) z z' ∧
    (bad' = bad → ∀ x, p ≤ x < p + Z.of_nat n → clean (pages z' x)).
Proof.
  induction n as [|n IH]; intros z p bad Hb; cbn [prepare_tails].
  { exists z, bad. split_and!; [done|lia|apply edits_refl|lia]. }
  set (P := λ x, p ≤ x < p + Z.of_nat (S n)).
  destruct (check_clear_ok P z p) as (z1 & b & -> & A & Hc); [unfold P; lia|done|].
  assert (Hsub : ∀ x, p + 1 ≤ x < p + 1 + Z.of_nat n → P x) by (unfold P; lia). destruct b.
  - destruct (IH z1 (p + 1) (bad + 1)) as (z' & bad' & -> & Hle & B & Hcl).
    { intros x Hx. apply A, Hb. lia. }
    exists z', bad'. split_and!; [done|lia| |lia]. eapply edits_trans; [exact A|]. exact (edits_weaken _ P _ _ Hsub B).
  - destruct (Hc eq_refl) as (-> & A' & Hcp).
    destruct (IH (clear_flags_at_prep z p) (p + 1) bad) as (z' & bad' & -> & Hle & B & Hcl).
    { intros x Hx. apply A', Hb. lia. }
    exists z', bad'. split_and!; [done|lia|eapply edits_trans; [exact A'|exact (edits_weaken _ P _ _ Hsub B)]|].
    intros E x Hx. destruct (decide (x = p)) as [->|]; [|apply Hcl; [done|lia]].
    rewrite (ed_same _ _ _ B) by lia. done.
Qed.

Lemma free_pages_prepare_ok z p o :
  (∀ x, in_block p o x → PageBuddy (pages z x) = false) →
  ∃ z' ok, free_pages_prepare z p o true = (z', ok) ∧ edits (in_block p o) z z' ∧
    (ok = true → ∀ x, in_block p o x → clean (pages z' x)).
Proof.
  intros Hb. unfold free_pages_prepare.
  assert (Hn : Z.of_nat (2 ^ o - 1) = bsize o - 1).
  { rewrite bsize_pow, Nat2Z.inj_sub, Nat2Z.inj_pow; [lia|]. pose proof (Nat.pow_nonzero 2 o). lia. }
  destruct (prepare_tails_ok (2 ^ o - 1) z (p + 1) 0) as (z1 & bad & -> & Hle & A & Hcl).
  { intros x Hx. apply Hb. unfold in_block. lia. }
  rewrite Hn in A, Hcl. pose proof (head_in_block p o) as Hhead. pose proof (bsize_pos o) as Hpos.
  assert (A1 : edits (in_block p o) z z1) by (eapply edits_weaken, A; unfold in_block; lia).
  set (z2 := if PageMappingFlags (pages z1 p) then _ else z1).
  assert (B : edits (λ x, x = p) z1 z2).
  { unfold z2. destruct (PageMappingFlags _); [|apply edits_refl]. by apply edits_page. }
  assert (A2 : edits (in_block p o) z z2) by (eapply edits_trans, edits_weaken, B; [done|by intros x ->]).
  destruct (check_clear_ok (λ x, x = p) z2 p) as (z3 & b & -> & C & Hc); [done|intros x ->; by apply A2, Hb|].
  destruct b.
  - rewrite (proj2 (Z.eqb_neq (bad + 1) 0)) by lia. cbn [negb]. exists z3, false. split_and!; [done| |done].
    eapply edits_trans, edits_weaken, C; [done|by intros x ->].
  - destruct (Hc eq_refl) as (-> & C' & Hcp). destruct (Z.eqb_spec bad 0) as [->|Hne]; cbn [negb].
    + eexists _, true. split_and!; [reflexivity|eapply edits_trans, edits_weaken, C'; [done|by intros x ->]|].
      intros _ x Hx. destruct (decide (x = p)) as [->|]; [done|].
      rewrite (ed_same _ _ _ C'), (ed_same _ _ _ B) by done. apply Hcl; [done|]. unfold in_block in Hx. lia.
    + exists z2, false. split_and!; [done|done|done].
Qed.

(** ** Reserved pageblocks *)

Lemma counts_reshuffled t z n w b r : wf z → n = nr_free_pages z → reshuffled t z (with_counts n w b r z).
Proof. intros W ->. by apply reshuffled_fields. Qed.

Lemma reserve_ok vm z p :
  wf z → zone_spans_pfn z p = true → ¬ free_page z p →
  ∃ z', reserve_highatomic_pageblock vm z p = Ok z' ∧ reshuffled MIGRATE_HIGHATOMIC z z'.
Proof.
  intros W Hs Hf. unfold reserve_highatomic_pageblock. zcase; [exists z; by split|].
  destruct (negb _); [|exists z; by split]. set (z0 := with_counts _ _ _ _ z).
  assert (A : reshuffled MIGRATE_HIGHATOMIC z z0) by (by apply counts_reshuffled).
  destruct (set_pageblock_ok vm z0 p MIGRATE_HIGHATOMIC MIGRATE_HIGHATOMIC) as (z1 & -> & B & _); [apply A|done|done|].
  cbn [mbind outcome_bind]. pose proof (reshuffled_trans _ _ _ _ A B) as C.
  destruct (move_block_ok z1 p MIGRATE_HIGHATOMIC) as (z2 & nm & pm & -> & D & _); [apply C| | |done|].
  { by rewrite (same_zone_spans z z1 p) by apply C. }
  { apply used_no_straddle. by rewrite (reshuffled_free _ z z1) by apply C. }
  cbn [mbind outcome_bind]. exists z2. split; [done|]. by eapply reshuffled_trans.
Qed.

Lemma unreserve_loop_ok n : ∀ vm z t,
  wf z → 0 ≤ t < MIGRATE_TYPES → ∃ z' r, unreserve_loop n vm z t = Ok (z', r) ∧ reshuffled t z z'.
Proof.
  induction n as [|n IH]; intros vm z t W Ht; cbn [unreserve_loop]; [by exists z, false|].
  unfold get_page_from_free_area. destruct (free_list z (MAX_ORDER - S n) MIGRATE_HIGHATOMIC) as [|p l] eqn:El; cbn [head]; [by apply IH|].
  set (o := (MAX_ORDER - S n)%nat) in *.
  assert (Hp : p ∈ free_list z o MIGRATE_HIGHATOMIC) by (rewrite El; apply elem_of_cons; by left).
  pose proof (wf_state z W o _ p p Hp (head_in_block p o)) as (Hsp & _). set (z0 := if is_migrate_highatomic _ then _ else z).
  assert (A : reshuffled t z z0 ∧ free_list z0 = free_list z).
  { unfold z0. destruct (is_migrate_highatomic _); split; try done; by apply counts_reshuffled. }
  destruct A as [A Hl]. destruct (set_pageblock_ok vm z0 p t t) as (z1 & -> & B & Hl1); [apply A| |done|].
  { by rewrite (same_zone_spans z z0 p) by apply A. }
  cbn [mbind outcome_bind]. pose proof (reshuffled_trans _ _ _ _ A B) as C.
  destruct (move_block_ok z1 p t) as (z2 & nm & pm & -> & D & _); [apply C| | |done|].
  { by rewrite (same_zone_spans z z1 p) by apply C. }
  { apply (head_no_straddle z1 o MIGRATE_HIGHATOMIC); [apply C|]. by rewrite Hl1, Hl. }
  cbn [mbind outcome_bind]. pose proof (reshuffled_trans _ _ _ _ C D) as E. destruct (negb _); [by exists z2, true|].
  destruct (IH vm z2 t) as (z' & r & -> & F); [apply E|done|]. exists z', r. split; [done|]. by eapply reshuffled_trans.
Qed.

Lemma reshuffled_pcp t z z' c : reshuffled t z z' → pcp_wf z c → pcp_wf z' c.
Proof.
  intros A P. split; try apply P. intros p Hp. destruct (pw_page z c P p Hp) as [Hown Hi]. split.
  - apply (owned_frame z z'); [apply A|done|]. intros x Hx. rewrite (reshuffled_free t z z' x A).
    split; [apply A|]. apply (Hown x Hx).
  - by rewrite (rs_pages _ _ _ A).
Qed.

Lemma reshuffled_untouched t z z' c : reshuffled t z z' → pcp_wf z c → untouched z c z' c.
Proof.
  intros A P. split.
  - apply A.
  - by apply (reshuffled_pcp t z).
  - apply A.
  - intros x. unfold pool. by rewrite (reshuffled_free t z z' x A).
  - intros x _. apply A.
  - by rewrite (rs_total _ _ _ A), (reshuffled_count t z z' A).
  - apply A.
Qed.

(** ** Allocating from a zone *)

(** A page in a client's hands. *)
Definition in_use (z : zone) (c : per_cpu_pages) (x : Z) : Prop :=
  zone_spans_pfn z x = true ∧ pg_zone (pages z x) = zone_idx z ∧ PageBuddy (pages z x) = false ∧ ¬ pool z c x.

(** A block moved from the allocator to a client. *)
Record handed (z : zone) (c : per_cpu_pages) (p : Z) (o : nat) (z' : zone) (c' : per_cpu_pages) : Prop := Handed {
  hd_wf : wf z';
  hd_pcp : pcp_wf z' c';
  hd_zone : same_zone z z';
  hd_aligned : aligned p o;
  hd_use x : in_block p o x → in_use z' c' x;
  hd_in x : in_block p o x → pool z c x;
  hd_pool x : pool z' c' x ↔ pool z c x ∧ ¬ in_block p o x;
  hd_pages x : ¬ pool z c x → pages z' x = pages z x;
  hd_count : nr_free_pages z' - free_count z' = nr_free_pages z - free_count z;
  hd_types : types_ok z → types_ok z' }.

Lemma took_handed z c p o z' c' : took z c p o z' c' → handed z c p o z' c'.
Proof.
  intros T. split; try apply T. intros x Hx. destruct (tk_owned _ _ _ _ _ _ T x Hx) as (? & ? & ? & ? & ?).
  unfold in_use. rewrite (tk_pool _ _ _ _ _ _ T). split_and!; try done; [by apply plain_type_spec|tauto].
Qed.

Lemma handed_edits z c p o z1 z2 c' : handed z c p o z1 c' → edits (in_block p o) z1 z2 → handed z c p o z2 c'.
Proof.
  intros T A. pose proof (ed_only _ _ _ A) as E. assert (Hpool : ∀ x, pool z2 c' x = pool z1 c' x) by (by rewrite E).
  assert (Hu : ∀ x, in_block p o x → ¬ pool z1 c' x ∧ PageBuddy (pages z1 x) = false) by (intros x Hx; by destruct (hd_use _ _ _ _ _ _ T x Hx) as (_ & _ & ? & ?)).
  split.
  - apply (edits_wf (in_block p o) z1); [apply T|done|]. intros x Hx. destruct (Hu x Hx) as [H ?]. unfold pool in H. tauto.
  - apply (edits_pcp (in_block p o) z1); [done|apply T|]. intros x Hx. destruct (Hu x Hx) as [H ?]. unfold pool in H. tauto.
  - etrans; [apply T|]. by eapply edits_zone.
  - apply T.
  - intros x Hx. destruct (hd_use _ _ _ _ _ _ T x Hx) as (H1 & H2 & H3 & H4). unfold in_use. rewrite Hpool.
    pose proof (edits_zone _ _ _ A) as Hs. rewrite (same_zone_spans z1 z2 x Hs), (ed_zone _ _ _ A). destruct Hs as (-> & _).
    split_and!; try done. by apply A.
  - apply T.
  - intros x. rewrite Hpool. apply T.
  - intros x Hx. rewrite (ed_same _ _ _ A); [by apply T|]. intros Hb. by apply Hx, (hd_in _ _ _ _ _ _ T).
  - rewrite <- (hd_count _ _ _ _ _ _ T). by rewrite E.
  - intros H. apply (types_same z1); [by eapply edits_zone|by rewrite E|]. by apply T.
Qed.

Lemma handed_reshuffled t z c p o z1 z2 c' : handed z c p o z1 c' → reshuffled t z1 z2 → handed z c p o z2 c'.
Proof.
  intros T A. pose proof (reshuffled_untouched t z1 z2 c' A (hd_pcp _ _ _ _ _ _ T)) as U. split; try apply U.
  - etrans; [apply T|apply U].
  - apply T.
  - intros x Hx. destruct (hd_use _ _ _ _ _ _ T x Hx) as (H1 & H2 & H3 & H4). unfold in_use.
    rewrite (un_pool _ _ _ _ U), (rs_pages _ _ _ A), (same_zone_spans z1 z2 x) by apply A.
    destruct (rs_zone _ _ _ A) as (-> & _). done.
  - apply T.
  - intros x. rewrite (un_pool _ _ _ _ U). apply T.
  - intros x Hx. rewrite (rs_pages _ _ _ A). by apply T.
  - rewrite (un_count _ _ _ _ U). apply T.
  - intros H. by apply U, T.
Qed.

Lemma try_this_zone_ok fuel vm z c o af t :
  wf z → pcp_wf z c → (o < MAX_ORDER)%nat → 0 ≤ t < MIGRATE_PCPTYPES →
  ∃ z' c' r, try_this_zone (S (S fuel)) vm z c o af t = Ok (z', c', r) ∧
    match r with
    | Some p => handed z c p o z' c'
    | None => untouched z c z' c' ∧ ¬ available z o t af
    end.
Proof.
  intros W P Ho Ht. unfold try_this_zone.
  destruct (rmqueue_entry_ok fuel vm z c o af t) as (z1 & c1 & r & -> & Hr); [done..|]. cbn [mbind outcome_bind].
  destruct r as [p|]; [|by exists z1, c1, None]. pose proof (head_in_block p o) as Hp.
  unfold post_alloc_hook. destruct (tk_owned _ _ _ _ _ _ Hr p Hp) as (_ & _ & Hq & Hty & _).
  cbn [pg_refcount set_private]. rewrite (quiet_refcount _ Hq). cbn [negb Z.eqb mbind outcome_bind].
  set (z2 := set_page p _ z1).
  assert (H2 : handed z c p o z2 c1) by (by eapply handed_edits; [apply took_handed|apply edits_page]).
  destruct (_ && _); [|by exists z2, c1, (Some p)].
  destruct (hd_use _ _ _ _ _ _ H2 p Hp) as (Hs & _ & _ & Hnp).
  destruct (reserve_ok vm z2 p) as (z3 & -> & A); [apply H2|done| |].
  { unfold pool in Hnp. tauto. }
  cbn [mbind outcome_bind]. exists z3, c1, (Some p). split; [done|]. by eapply handed_reshuffled.
Qed.

(** ** Freeing to a zone *)

(** What [__free_pages] leaves of a block in use; [done] when it went back. *)
Record put_back (capc : option nat) (z : zone) (c : per_cpu_pages) (p : Z) (o : nat) (z' : zone) (c' : per_cpu_pages) (done : bool) (r : option Z) : Prop := PutBack {
  pb_wf : wf z';
  pb_pcp : pcp_wf z' c';
  pb_zone : same_zone z z';
  pb_pool x : pool z' c' x ∨ captured_page capc r x ↔ pool z c x ∨ (done = true ∧ in_block p o x);
  pb_pages x : ¬ pool z c x → ¬ in_block p o x → pages z' x = pages z x;
  pb_use x : done = false → in_block p o x → in_use z' c' x;
  pb_count : nr_free_pages z' - free_count z' = nr_free_pages z - free_count z;
  pb_types : types_ok z → types_ok z';
  pb_captured q : r = Some q → ∃ u, capc = Some u ∧ (u < MAX_ORDER)%nat ∧ aligned q u ∧
    ∀ x, in_block q u x → in_use z' c' x }.

Section Free.
Context (vm : vm_params) (z : zone) (c : per_cpu_pages) (p : Z) (o : nat) (capc : option nat).
Hypothesis W : wf z.
Hypothesis P : pcp_wf z c.
Hypothesis Ht : types_ok z.
Hypothesis Ho : (o < MAX_ORDER)%nat.
Hypothesis Hal : aligned p o.
Hypothesis Huse : ∀ x, in_block p o x → in_use z c x.

(** The block was only written to. *)
Lemma put_back_edits z1 : edits (in_block p o) z z1 → put_back capc z c p o z1 c false None ∧ types_ok z1.
Proof using W P Huse Ht.
  intros A. pose proof (ed_only _ _ _ A) as E. assert (Hpool : ∀ x, pool z1 c x = pool z c x) by (by rewrite E).
  assert (Hu : ∀ x, in_block p o x → ¬ pool z c x ∧ PageBuddy (pages z x) = false) by (intros x Hx; by destruct (Huse x Hx) as (_ & _ & ? & ?)).
  assert (Hty : types_ok z → types_ok z1) by (apply types_same; [by eapply edits_zone|by rewrite E]).
  split; [|by apply Hty]. split; try done.
  - apply (edits_wf (in_block p o) z); [done|done|]. intros x Hx. destruct (Hu x Hx) as [H ?]. unfold pool in H. tauto.
  - apply (edits_pcp (in_block p o) z); [done|done|]. intros x Hx. destruct (Hu x Hx) as [H ?]. unfold pool in H. tauto.
  - by eapply edits_zone.
  - intros x. rewrite Hpool. pose proof (no_capture capc x). intuition done.
  - intros x _ Hx. by apply A.
  - intros x _ Hx. destruct (Huse x Hx) as (H1 & H2 & H3 & H4). unfold in_use. rewrite Hpool.
    pose proof (edits_zone _ _ _ A) as Hs. rewrite (same_zone_spans z z1 x Hs), (ed_zone _ _ _ A). destruct Hs as (-> & _).
    split_and!; try done. by apply A.
  - by rewrite E.
Qed.

(** After the edits the block is given back. *)
Lemma put_back_trans z1 z' c' r :
  edits (in_block p o) z z1 → gave_back capc z1 c (in_block p o) z' c' r → put_back capc z c p o z' c' true r.
Proof using W P Huse Ht.
  intros A G. pose proof (ed_only _ _ _ A) as E. assert (Hpool : ∀ x, pool z1 c x = pool z c x) by (by rewrite E).
  destruct (put_back_edits z1 A) as [B Hty]. split; try apply G; try done.
  - etrans; [apply B|apply G].
  - intros x. rewrite (gb_pool _ _ _ _ _ _ _ G), Hpool. tauto.
  - intros x Hx Hb. rewrite (gb_pages _ _ _ _ _ _ _ G); [by apply A|]. rewrite Hpool. tauto.
  - rewrite (gb_count _ _ _ _ _ _ _ G). apply B.
  - intros _. apply (types_same z1); [apply G|apply G|done].
  - intros q Hq. destruct (gb_captured _ _ _ _ _ _ _ G q Hq) as (u & -> & Hu & Ha & Hown & Hn). exists u. split_and!; try done.
    intros x Hx. destruct (Hown x Hx) as (? & ? & ? & ? & ?). split_and!; try done; [by apply plain_type_spec|by apply Hn].
Qed.

(** A cleaned block is in hand for the zone. *)
Lemma cleaned_owned z1 : edits (in_block p o) z z1 → (∀ x, in_block p o x → clean (pages z1 x)) → owned z1 p o.
Proof using Huse.
  intros A Hc x Hx. destruct (Huse x Hx) as (H1 & H2 & H3 & H4). destruct (Hc x Hx) as [Hq Hty].
  pose proof (edits_zone _ _ _ A) as Hs. rewrite (edits_free _ _ _ _ A), (same_zone_spans z z1 x Hs), (ed_zone _ _ _ A).
  destruct Hs as (-> & _). split_and!; try done. unfold pool in H4. tauto.
Qed.

Lemma free_the_page_ok z0 :
  edits (in_block p o) z z0 →
  ∃ z' c' done r, free_the_page vm z0 c p o capc = Ok (z', c', done, r) ∧ put_back capc z c p o z' c' done r.
Proof using W P Huse Ht Hal Ho.
  intros A0. pose proof (head_in_block p o) as Hp.
  assert (Hb0 : ∀ x, in_block p o x → PageBuddy (pages z0 x) = false) by (intros x Hx; apply A0, (Huse x Hx)).
  destruct (free_pages_prepare_ok z0 p o Hb0) as (z1 & ok & Hprep & A1 & Hclean).
  pose proof (edits_trans _ _ _ _ A0 A1) as A. destruct (put_back_edits z1 A) as [B Ht1].
  assert (Hs1 : zone_spans_pfn z1 p = true) by (rewrite (same_zone_spans z z1 p) by apply B; apply (Huse p Hp)).
  unfold free_the_page. destruct (Nat.eqb_spec o 0) as [E0|Hne].
  - unfold free_unref_page, free_unref_page_prepare. rewrite E0 in Hprep. rewrite Hprep. destruct ok; cbn [negb]; [|by exists z1, c, false, None].
    set (z2 := set_page p _ z1).
    assert (A2 : edits (in_block p o) z1 z2) by (apply edits_page; done).
    assert (Hown : owned z2 p 0).
    { rewrite <- E0. apply cleaned_owned; [by eapply edits_trans|]. intros x Hx. unfold z2, set_page. cbn [pages with_pages].
      destruct (decide (x = p)) as [->|]; [|rewrite fn_lookup_insert_ne by done; by apply Hclean].
      rewrite fn_lookup_insert. by apply Hclean. }
    assert (A02 : edits (in_block p o) z z2) by (by eapply edits_trans). destruct (put_back_edits z2 A02) as [B2 _].
    destruct (commit_ok vm z2 c p capc) as (z' & c' & r & -> & G); [apply B2|apply B2| | |].
    { split; [done|]. unfold z2, set_page. cbn [pages with_pages]. rewrite fn_lookup_insert. cbn [pg_index set_index]. by apply Ht1. }
    { intros Hin. destruct (Huse p Hp) as (_ & _ & _ & H). apply H. by right. }
    cbn [mbind outcome_bind]. exists z', c', true, r. split; [done|]. apply (put_back_trans z2); [done|]. by rewrite E0.
  - unfold __free_pages_ok, free_one_page. rewrite Hprep. destruct ok; cbn [negb]; [|by exists z1, c, false, None].
    assert (Hown : owned z1 p o) by (apply cleaned_owned; [done|by apply Hclean]).
    destruct (free_one_returned z1 p o (get_pageblock_migratetype z1 p) capc) as (z' & r & -> & R); [apply B|done|by apply Ht1|done|done|].
    cbn [mbind outcome_bind]. exists z', c, true, r. split; [done|]. apply (put_back_trans z1); [done|].
    assert (Hpcp : ∀ q, q ∈ pcp_pages c → pcp_page_ok z' q ∧ ¬ captured_page capc r q).
    { intros q Hq. apply (returned_pcp_page capc z1 (in_block p o) z' r); [done|by apply B|].
      intros Hb. destruct (Huse q Hb) as (_ & _ & _ & H). apply H. by right. }
    split; try apply R.
    + split; try apply P. intros q Hq. by apply Hpcp.
    + intros x. unfold pool. pose proof (rt_free _ _ _ _ _ R x). tauto.
    + intros x Hx. apply R. rewrite (rt_free _ _ _ _ _ R). unfold pool in Hx. tauto.
    + intros q Hq. destruct (rt_captured _ _ _ _ _ R q Hq) as (u & -> & Hu & Ha & Hown'). exists u. split_and!; try done.
      intros x Hx [Hf|Hin]; [by apply (Hown' x Hx)|]. subst r. by apply (Hpcp x Hin).
Qed.

Lemma free_pages_ok :
  pg_refcount (pages z p) ≠ 0 →
  ∃ z' c' done r, __free_pages vm z c p o capc = Ok (z', c', done, r) ∧ put_back capc z c p o z' c' done r.
Proof using W P Huse Ht Hal Ho.
  intros Hr. unfold __free_pages, put_page_testzero. rewrite (proj2 (Z.eqb_neq _ 0)) by done. cbn [mbind outcome_bind].
  set (z0 := set_page p _ z). assert (A : edits (in_block p o) z z0) by (apply edits_page; [apply head_in_block|done..]).
  zcase; [by apply free_the_page_ok|]. exists z0, c, false, None. split; [done|]. by apply put_back_edits.
Qed.

End Free.

End PageAllocSys.
