(* ===== verification/PageAllocTrace.v ===== *)
(** * The page allocator as a system

    Clients allocate, write, and free; the per-cpu lists are drained and
    pageblocks unreserved. Along every sequence of these steps each page is in
    one place and the counters agree with the lists. *)

From stdpp Require Import base numbers list option sets functions relations.
From Stdlib Require Import ZArith Lia.
From S2P Require Import Prelude Buddy BuddySpec PageBlock BuddyFree BuddyAlloc BuddyFallback.
From S2P Require Import PageAlloc PageAllocSpec PageAllocFill PageAllocSys.

Open Scope Z_scope.

Module PageAllocTrace.
Import Buddy BuddySpec PageBlock BuddyFree BuddyAlloc BuddyFallback PageAlloc PageAllocSpec PageAllocFill PageAllocSys.

(** ** States and steps *)

(** A zone, the lists of one CPU, and the blocks handed out: first frame and
    order. *)
Record sys := Sys { s_zone : zone; s_pcp : per_cpu_pages; s_held : list (Z * nat) }.

Definition block_page (b : Z * nat) (x : Z) : Prop := in_block b.1 b.2 x.
Definition held_page (h : list (Z * nat)) (x : Z) : Prop := ∃ b, b ∈ h ∧ block_page b x.

Definition captured_block (capc : option nat) (r : option Z) : list (Z * nat) :=
  match capc, r with Some o, Some p => [(p, o)] | _, _ => [] end.

Inductive step (vm : vm_params) : sys → sys → Prop :=
| step_alloc fuel z c h o af t z' c' r :
    (o < MAX_ORDER)%nat → 0 ≤ t < MIGRATE_PCPTYPES →
    try_this_zone (S (S fuel)) vm z c o af t = Ok (z', c', r) →
    step vm (Sys z c h) (Sys z' c' (match r with Some p => (p, o) :: h | None => h end))
| step_write z c h z' :
    edits (held_page h) z z' → step vm (Sys z c h) (Sys z' c h)
| step_free z c h b capc z' c' done r :
    b ∈ h → __free_pages vm z c b.1 b.2 capc = Ok (z', c', done, r) →
    step vm (Sys z c h) (Sys z' c' (captured_block capc r ++ if done : bool then filter (λ d, d ≠ b) h else h))
| step_drain z c h capc z' c' r :
    drain_pages_zone vm z c capc = Ok (z', c', r) →
    step vm (Sys z c h) (Sys z' c' (captured_block capc r ++ h))
| step_unreserve z c h t force z' r :
    0 ≤ t < MIGRATE_TYPES → unreserve_highatomic_zone vm z t force = Ok (z', r) →
    step vm (Sys z c h) (Sys z' c h).

(** ** The invariant *)

Record inv (s : sys) : Prop := Inv {
  i_wf : wf (s_zone s);
  i_pcp : pcp_wf (s_zone s) (s_pcp s);
  i_types : types_ok (s_zone s);
  i_count : nr_free_pages (s_zone s) = free_count (s_zone s);
  i_block b : b ∈ s_held s → (b.2 < MAX_ORDER)%nat ∧ aligned b.1 b.2;
  i_use x : held_page (s_held s) x → in_use (s_zone s) (s_pcp s) x;
  i_apart b b' x : b ∈ s_held s → b' ∈ s_held s → block_page b x → block_page b' x → b = b' }.

(** Every page the system knows: on the free lists, on the CPU's lists or held. *)
Definition known (s : sys) (x : Z) : Prop := pool (s_zone s) (s_pcp s) x ∨ held_page (s_held s) x.

Lemma held_cons b h x : held_page (b :: h) x ↔ block_page b x ∨ held_page h x.
Proof.
  unfold held_page. split.
  - intros (d & [->|Hd]%elem_of_cons & Hx); eauto.
  - intros [Hx|(d & Hd & Hx)]; [exists b|exists d]; (split; [|done]); apply elem_of_cons; auto.
Qed.

Lemma captured_held capc r h x : held_page (captured_block capc r ++ h) x ↔ captured_page capc r x ∨ held_page h x.
Proof.
  unfold captured_block, captured_page. destruct capc as [o|], r as [p|]; cbn [app]; try tauto. by rewrite held_cons.
Qed.

(** Pages that were in use and were left alone are still in use. *)
Lemma in_use_kept z c z' c' x :
  same_zone z z' → in_use z c x → pages z' x = pages z x → ¬ pool z' c' x → in_use z' c' x.
Proof.
  intros Hs (H1 & H2 & H3 & H4) Hp Hn. unfold in_use. rewrite Hp, (same_zone_spans z z' x Hs). destruct Hs as (-> & _). done.
Qed.

(** Adding a block that the others do not touch. *)
Lemma inv_add z c h p o :
  inv (Sys z c h) → (o < MAX_ORDER)%nat → aligned p o → (∀ x, in_block p o x → in_use z c x) →
  (∀ x, in_block p o x → ¬ held_page h x) → inv (Sys z c ((p, o) :: h)).
Proof.
  intros I Ho Ha Hu Hn. split; try apply I; cbn [s_zone s_pcp s_held].
  - intros b [->|Hb]%elem_of_cons; [done|by apply (i_block _ I)].
  - intros x [Hx|Hx]%held_cons; [by apply Hu|by apply (i_use _ I)].
  - intros b b' x [->|Hb]%elem_of_cons [->|Hb']%elem_of_cons Hx Hx'; [done| | |by apply (i_apart _ I b b' x)].
    + destruct (Hn x Hx). by exists b'.
    + destruct (Hn x Hx'). by exists b.
Qed.

(** Fewer blocks. *)
Lemma inv_sub z c h h' : inv (Sys z c h) → (∀ b, b ∈ h' → b ∈ h) → inv (Sys z c h').
Proof.
  intros I Hs. split; try apply I; cbn [s_zone s_pcp s_held].
  - intros b Hb. by apply (i_block _ I), Hs.
  - intros x (b & Hb & Hx). apply (i_use _ I). exists b. split; [by apply Hs|done].
  - intros b b' x Hb Hb'. apply (i_apart _ I); by apply Hs.
Qed.

Lemma inv_captured z c h capc r :
  inv (Sys z c h) →
  (∀ q, r = Some q → ∃ u, capc = Some u ∧ (u < MAX_ORDER)%nat ∧ aligned q u ∧ ∀ x, in_block q u x → in_use z c x) →
  (∀ x, captured_page capc r x → ¬ held_page h x) → inv (Sys z c (captured_block capc r ++ h)).
Proof.
  intros I Hc Hn. destruct r as [q|]; [|by destruct capc]. destruct (Hc q eq_refl) as (u & -> & Hu & Ha & Huse).
  by apply inv_add.
Qed.

(** ** Each step *)

Lemma alloc_step vm fuel z c h o af t z' c' r :
  inv (Sys z c h) → (o < MAX_ORDER)%nat → 0 ≤ t < MIGRATE_PCPTYPES →
  try_this_zone (S (S fuel)) vm z c o af t = Ok (z', c', r) →
  let s' := Sys z' c' (match r with Some p => (p, o) :: h | None => h end) in
  inv s' ∧ ∀ x, known s' x ↔ known (Sys z c h) x.
Proof.
  intros I Ho Ht E. destruct (try_this_zone_ok fuel vm z c o af t) as (z1 & c1 & r1 & E1 & H); [apply I|apply I|done..|].
  rewrite E in E1. injection E1 as <- <- <-. cbn zeta. pose proof (i_count _ I) as Hcnt. cbn [s_zone] in Hcnt. destruct r as [p|].
  - assert (Hh : ∀ x, held_page h x → ¬ pool z c x) by (intros x Hx; apply (i_use _ I x Hx)).
    split.
    + apply inv_add; [|done|apply H|apply H|].
      * split; cbn [s_zone s_pcp s_held]; try apply H; try apply I.
        -- pose proof (hd_count _ _ _ _ _ _ H). lia.
        -- intros x Hx. apply (in_use_kept z c); [apply H|by apply (i_use _ I)|by apply H, Hh|].
           rewrite (hd_pool _ _ _ _ _ _ H). specialize (Hh x Hx). tauto.
      * intros x Hx Hhx. by apply (Hh x Hhx), H.
    + intros x. unfold known. cbn [s_zone s_pcp s_held]. rewrite (hd_pool _ _ _ _ _ _ H), held_cons.
      pose proof (hd_in _ _ _ _ _ _ H x). unfold block_page. cbn [fst snd]. destruct (decide (p ≤ x < p + bsize o)); unfold in_block in *; tauto.
  - destruct H as [U _]. split.
    + split; cbn [s_zone s_pcp s_held]; try apply U; try apply I.
      * pose proof (un_count _ _ _ _ U). lia.
      * intros x Hx. apply (in_use_kept z c); [apply U|by apply (i_use _ I)|by apply U, (i_use _ I x Hx)|].
        rewrite (un_pool _ _ _ _ U). apply (i_use _ I x Hx).
    + intros x. unfold known. cbn [s_zone s_pcp s_held]. by rewrite (un_pool _ _ _ _ U).
Qed.

Lemma write_step z c h z' :
  inv (Sys z c h) → edits (held_page h) z z' → inv (Sys z' c h) ∧ ∀ x, known (Sys z' c h) x ↔ known (Sys z c h) x.
Proof.
  intros I A. pose proof (ed_only _ _ _ A) as E. assert (Hpool : ∀ x, pool z' c x = pool z c x) by (by rewrite E).
  assert (Hu : ∀ x, held_page h x → in_use z c x) by (intros x; apply (i_use _ I)).
  split; [|intros x; unfold known; cbn [s_zone s_pcp s_held]; by rewrite Hpool].
  split; cbn [s_zone s_pcp s_held]; try apply I.
  - apply (edits_wf (held_page h) z); [apply I|done|]. intros x Hx. destruct (Hu x Hx) as (_ & _ & ? & H). unfold pool in H. tauto.
  - apply (edits_pcp (held_page h) z); [done|apply I|]. intros x Hx Hin. destruct (Hu x Hx) as (_ & _ & _ & H). apply H. by right.
  - apply (types_same z); [by eapply edits_zone|by rewrite E|apply I].
  - rewrite E. apply (i_count _ I).
  - intros x Hx. destruct (Hu x Hx) as (H1 & H2 & H3 & H4). unfold in_use. rewrite Hpool.
    pose proof (edits_zone _ _ _ A) as Hs. rewrite (same_zone_spans z z' x Hs), (ed_zone _ _ _ A). destruct Hs as (-> & _).
    split_and!; try done. by apply A.
Qed.

(** What a free or a drain does to the blocks that stay. *)
Lemma put_back_inv capc z c h b z' c' done r (h' := if done : bool then filter (λ d, d ≠ b) h else h) :
  inv (Sys z c h) → b ∈ h → put_back capc z c b.1 b.2 z' c' done r →
  inv (Sys z' c' (captured_block capc r ++ h')) ∧
  ∀ x, known (Sys z' c' (captured_block capc r ++ h')) x ↔ known (Sys z c h) x.
Proof.
  intros I Hb B. assert (Hh' : ∀ x, held_page h x ↔ held_page h' x ∨ (done = true ∧ block_page b x)).
  { intros x. unfold h', held_page. destruct done.
    - setoid_rewrite list_elem_of_filter. split.
      + intros (d & Hd & Hx). destruct (decide (d = b)) as [->|]; [by right|left; eauto].
      + intros [(d & [_ Hd] & Hx)|[_ Hx]]; eauto.
    - intuition done. }
  assert (Hnp : ∀ x, held_page h x → ¬ pool z c x) by (intros x Hx; apply (i_use _ I x Hx)).
  assert (Hstay : ∀ x, held_page h' x → ¬ (done = true ∧ block_page b x)).
  { intros x (d & Hd & Hx) [-> Hbx]. unfold h' in Hd. apply list_elem_of_filter in Hd as [Hne Hd]. by apply Hne, (i_apart _ I d b x). }
  assert (Hout : ∀ x, held_page h' x → ¬ (pool z' c' x ∨ captured_page capc r x)).
  { intros x Hx. rewrite (pb_pool _ _ _ _ _ _ _ _ _ B). intros [Hp|Hp]; [apply (Hnp x); [apply Hh'; by left|done]|by apply (Hstay x)]. }
  split.
  - apply inv_captured; [|apply B|intros x Hx Hh; apply (Hout x Hh); by right].
    apply (inv_sub z' c' h'); [|done]. split; cbn [s_zone s_pcp s_held]; try apply B.
    + apply I.
    + pose proof (pb_count _ _ _ _ _ _ _ _ _ B). pose proof (i_count _ I) as Hc. cbn [s_zone] in Hc. lia.
    + intros d Hd. apply (i_block _ I). unfold h' in Hd. destruct done; [|done]. by apply list_elem_of_filter in Hd as [_ ?].
    + intros x Hx. assert (Hx0 : held_page h x) by (apply Hh'; by left). destruct (decide (b.1 ≤ x < b.1 + bsize b.2)) as [Hbx|Hbx].
      * destruct done; [by destruct (Hstay x Hx)|]. by apply (pb_use _ _ _ _ _ _ _ _ _ B).
      * apply (in_use_kept z c); [apply B|by apply (i_use _ I)|apply B; [by apply Hnp|done]|]. specialize (Hout x Hx). tauto.
    + intros d d' x Hd Hd'. apply (i_apart _ I); unfold h' in *; destruct done; try done; by apply list_elem_of_filter in Hd as [_ ?], Hd' as [_ ?].
  - intros x. unfold known. cbn [s_zone s_pcp s_held]. rewrite captured_held, Hh'. pose proof (pb_pool _ _ _ _ _ _ _ _ _ B x) as E.
    unfold block_page. tauto.
Qed.

Lemma free_step vm z c h b capc z' c' done r :
  inv (Sys z c h) → b ∈ h → __free_pages vm z c b.1 b.2 capc = Ok (z', c', done, r) → put_back capc z c b.1 b.2 z' c' done r.
Proof.
  intros I Hb E. destruct (decide (pg_refcount (pages z b.1) = 0)) as [H0|H0].
  { unfold __free_pages, put_page_testzero in E. by rewrite H0 in E. }
  destruct (i_block _ I b Hb) as [Ho Ha].
  destruct (free_pages_ok vm z c b.1 b.2 capc) as (z1 & c1 & d1 & r1 & E1 & B); try apply I; try done.
  { intros x Hx. apply (i_use _ I). by exists b. }
  rewrite E in E1. by injection E1 as <- <- <- <-.
Qed.

Lemma drain_step vm z c h capc z' c' r :
  inv (Sys z c h) → drain_pages_zone vm z c capc = Ok (z', c', r) →
  inv (Sys z' c' (captured_block capc r ++ h)) ∧
  ∀ x, known (Sys z' c' (captured_block capc r ++ h)) x ↔ known (Sys z c h) x.
Proof.
  intros I E. destruct (drain_ok vm z c capc) as (z1 & c1 & r1 & E1 & G & _); [apply I|apply I|].
  rewrite E in E1. injection E1 as <- <- <-.
  assert (Hout : ∀ x, held_page h x → ¬ (pool z' c' x ∨ captured_page capc r x)).
  { intros x Hx. rewrite (gb_pool _ _ _ _ _ _ _ G). intros [Hp|[]]. by apply (i_use _ I x Hx). }
  split.
  - apply inv_captured.
    + split; cbn [s_zone s_pcp s_held]; try apply G; try apply I.
      * apply (types_same z); [apply G|apply G|apply I].
      * pose proof (gb_count _ _ _ _ _ _ _ G). pose proof (i_count _ I) as Hc. cbn [s_zone] in Hc. lia.
      * intros x Hx. specialize (Hout x Hx). apply (in_use_kept z c); [apply G|by apply (i_use _ I)| |tauto].
        apply G. intros [Hp|[]]. by apply (i_use _ I x Hx).
    + intros q Hq. destruct (gb_captured _ _ _ _ _ _ _ G q Hq) as (u & -> & Hu & Ha & Hown & Hn). exists u. split_and!; try done.
      intros x Hx. destruct (Hown x Hx) as (? & ? & ? & ? & ?). split_and!; try done; [by apply plain_type_spec|by apply Hn].
    + intros x Hx Hh. apply (Hout x Hh). by right.
  - intros x. unfold known. cbn [s_zone s_pcp s_held]. rewrite captured_held. pose proof (gb_pool _ _ _ _ _ _ _ G x). tauto.
Qed.

Lemma unreserve_step vm z c h t force z' r :
  inv (Sys z c h) → 0 ≤ t < MIGRATE_TYPES → unreserve_highatomic_zone vm z t force = Ok (z', r) →
  inv (Sys z' c h) ∧ ∀ x, known (Sys z' c h) x ↔ known (Sys z c h) x.
Proof.
  intros I Ht E. assert (untouched z c z' c) as U.
  { unfold unreserve_highatomic_zone in E. zcase_in E.
    - injection E as <- <-. apply (reshuffled_untouched t); [apply reshuffled_refl|]; apply I.
    - destruct (unreserve_loop_ok MAX_ORDER vm z t) as (z1 & r1 & E1 & A); [apply I|done|]. rewrite E in E1. injection E1 as <- <-.
      apply (reshuffled_untouched t); [done|apply I]. }
  split.
  - split; cbn [s_zone s_pcp s_held]; try apply U; try apply I.
    + pose proof (un_count _ _ _ _ U). pose proof (i_count _ I) as Hc. cbn [s_zone] in Hc. lia.
    + intros x Hx. apply (in_use_kept z c); [apply U|by apply (i_use _ I)|by apply U, (i_use _ I x Hx)|].
      rewrite (un_pool _ _ _ _ U). apply (i_use _ I x Hx).
  - intros x. unfold known. cbn [s_zone s_pcp s_held]. by rewrite (un_pool _ _ _ _ U).
Qed.

Lemma step_inv vm s s' : inv s → step vm s s' → inv s' ∧ ∀ x, known s' x ↔ known s x.
Proof.
  intros I S. destruct S as [fuel z c h o af t z' c' r Ho Ht E|z c h z' A|z c h b capc z' c' done r Hb E|z c h capc z' c' r E|z c h t force z' r Ht E].
  - by apply (alloc_step vm fuel z c h o af t).
  - by apply write_step.
  - apply put_back_inv; [done|done|]. by apply (free_step vm z c h).
  - by apply (drain_step vm).
  - by apply (unreserve_step vm z c h t force z' r).
Qed.

Lemma steps_inv vm s s' : rtc (step vm) s s' → inv s → inv s' ∧ ∀ x, known s' x ↔ known s x.
Proof.
  induction 1 as [s|s1 s2 s3 H12 _ IH]; intros I; [done|]. destruct (step_inv vm s1 s2 I H12) as [I2 K2].
  destruct (IH I2) as [I3 K3]. split; [done|]. intros x. by rewrite K3, K2.
Qed.

(** ** Fragmentation *)

Lemma in_block_div p o x : aligned p o → in_block p o x ↔ x / bsize o = p / bsize o.
Proof.
  intros (k & ->)%aligned_mult. pose proof (bsize_pos o). unfold in_block. rewrite Z.div_mul by lia. split.
  - intros Hx. symmetry. apply (Z.div_unique_pos x (bsize o) k (x - k * bsize o)); lia.
  - intros <-. pose proof (Z.div_mod x (bsize o)). pose proof (Z.mod_pos_bound x (bsize o)). lia.
Qed.

(** Aligned blocks are nested or apart. *)
Lemma blocks_nested p o q o' x :
  aligned p o → aligned q o' → (o ≤ o')%nat → in_block p o x → in_block q o' x → ∀ y, in_block p o y → in_block q o' y.
Proof.
  intros Hp Hq Hle Hx Hx' y Hy. rewrite in_block_div in * by done.
  assert (Hd : ∀ w, w / bsize o' = w / bsize o / 2 ^ Z.of_nat (o' - o)).
  { intros w. pose proof (bsize_pos o). rewrite Z.div_div by (try apply Z.pow_pos_nonneg; lia). f_equal.
    rewrite !bsize_pow, <- Z.pow_add_r by lia. f_equal. lia. }
  rewrite <- Hx', !Hd, Hy, Hx. done.
Qed.

Lemma free_run_listed z o : ∀ p,
  wf z → (o < MAX_ORDER)%nat → aligned p o → (∀ x, in_block p o x → free_page z x) →
  ∃ q o' t, q ∈ free_list z o' t ∧ (o ≤ o')%nat ∧ ∀ x, in_block p o x → in_block q o' x.
Proof.
  induction o as [|o IH]; intros p W Ho Ha Hf.
  { destruct (Hf p (head_in_block p 0)) as (o' & t & q & Hq & Hx). exists q, o', t. split_and!; [done|lia|].
    by intros x ->%in_block_0. }
  pose proof (aligned_order_le p o (S o) Ha ltac:(lia)) as Hlo. pose proof (aligned_half p o Ha) as Hhi.
  destruct (IH p) as (q1 & o1 & t1 & H1 & L1 & S1); [done|lia|done|intros; by apply Hf, lower_half|].
  destruct (IH (p + bsize o)) as (q2 & o2 & t2 & H2 & L2 & S2); [done|lia|done|intros; by apply Hf, upper_half|].
  destruct (wf_head z W o1 t1 q1 H1) as [A1 _]. destruct (wf_head z W o2 t2 q2 H2) as [A2 _].
  destruct (decide (o1 = o)) as [->|]; [destruct (decide (o2 = o)) as [->|]|].
  - exfalso. assert (Heq : ∀ a b, aligned a o → aligned b o → (∀ x, in_block a o x → in_block b o x) → a = b).
    { intros a b (i & ->)%aligned_mult (j & ->)%aligned_mult H. specialize (H _ (head_in_block _ o)). unfold in_block in H.
      pose proof (bsize_pos o). f_equal. nia. }
    rewrite <- (Heq p q1) in H1 by done. rewrite <- (Heq (p + bsize o) q2) in H2 by done.
    apply (wf_coalesced z W o t2 t1 (p + bsize o)); [done|lia|]. by rewrite upper_buddy.
  - exists q2, o2, t2. split_and!; [done|lia|]. apply (blocks_nested p (S o) q2 o2 (p + bsize o)); [done|done|lia| |].
    + apply upper_half, head_in_block.
    + apply S2, head_in_block.
  - exists q1, o1, t1. split_and!; [done|lia|]. apply (blocks_nested p (S o) q1 o1 p); [done|done|lia|apply head_in_block|].
    apply S1, head_in_block.
Qed.

(** ** Watermarks *)

Lemma watermark_orders_ok n : ∀ z h,
  wf z → watermark_orders n z h = true →
  ∃ c u, (MAX_ORDER - n ≤ c < MAX_ORDER)%nat ∧ free_list z c u ≠ [] ∧
    (0 ≤ u < MIGRATE_PCPTYPES ∨ (h = true ∧ u = MIGRATE_HIGHATOMIC)).
Proof.
  induction n as [|n IH]; intros z h W E; cbn [watermark_orders] in E; [done|].
  set (o := (MAX_ORDER - S n)%nat) in *.
  assert (Hnext : watermark_orders n z h = true → ∃ c u, (o ≤ c < MAX_ORDER)%nat ∧ free_list z c u ≠ [] ∧
    (0 ≤ u < MIGRATE_PCPTYPES ∨ (h = true ∧ u = MIGRATE_HIGHATOMIC))).
  { intros E'. destruct (IH z h W E') as (c & u & Hc & H). exists c, u. split; [lia|done]. }
  assert (Ho : ∀ u, free_list z o u ≠ [] → (o ≤ o < MAX_ORDER)%nat).
  { intros u Hu. destruct (free_list z o u) as [|q l] eqn:El; [done|]. split; [lia|].
    apply (wf_range z W o u q). rewrite El. apply elem_of_cons. by left. }
  destruct (nr_free z o =? 0); [by apply Hnext|].
  destruct (free_area_empty_spec z o 0) as [_|Hl]; [|exists o, 0; split_and!; [by eapply Ho..|done|by left]].
  destruct (free_area_empty_spec z o 1) as [_|Hl]; [|exists o, 1; split_and!; [by eapply Ho..|done|by left]].
  destruct (free_area_empty_spec z o 2) as [_|Hl]; [|exists o, 2; split_and!; [by eapply Ho..|done|by left]].
  cbn [andb negb] in E. destruct h; [|by apply Hnext]. cbn [andb] in E.
  destruct (free_area_empty_spec z o MIGRATE_HIGHATOMIC) as [_|Hl]; [by apply Hnext|].
  exists o, MIGRATE_HIGHATOMIC. split_and!; [by eapply Ho..|done|by right].
Qed.

(** When a request under the zone lock fails, no list it may use has a block of
    its order or more; the reserve for atomic requests is open to those with
    ALLOC_HARDER. *)
Lemma rmqueue_locked_none fuel vm z o af t z' :
  wf z → (o < MAX_ORDER)%nat → 0 ≤ t < MIGRATE_PCPTYPES → has_flag af ALLOC_NOFRAGMENT = false →
  rmqueue_locked (S (S fuel)) vm z o af t = Ok (z', None) →
  (∀ c u, (o ≤ c < MAX_ORDER)%nat → 0 ≤ u < MIGRATE_PCPTYPES → free_list z c u = []) ∧
  ((0 < o)%nat → has_flag af ALLOC_HARDER = true → ∀ c, (o ≤ c < MAX_ORDER)%nat → free_list z c MIGRATE_HIGHATOMIC = []).
Proof.
  intros W Ho Ht Hfrag Hr. split.
  - intros c u Hc Hu. destruct (rmqueue_locked_ok fuel vm z o af t) as (z1 & r & E & Hres); [done|lia|done|].
    rewrite Hr in E. injection E as <- <-. destruct Hres as [_ Hav]. destruct (free_list z c u) as [|q l] eqn:El; [done|].
    destruct Hav. assert (free_list z c u ≠ []) as Hne by (by rewrite El).
    destruct (decide (u = t)) as [->|]; [left; by exists c|]. right. exists c.
    unfold min_order. rewrite Hfrag. split; [done|]. by exists u.
  - intros Ho0 Hh c Hc. cbn [rmqueue_locked] in Hr. rewrite Hh, (proj2 (Nat.ltb_lt 0 o)) in Hr by lia. cbn [andb] in Hr.
    destruct (rmqueue_smallest_ok z o MIGRATE_HIGHATOMIC) as (z1 & r1 & E1 & H1); [done|lia|done|]. rewrite E1 in Hr.
    cbn [mbind outcome_bind] in Hr. destruct r1 as [p|]; [|by apply H1].
    cbn [mbind outcome_bind] in Hr. by rewrite owned_check in Hr by apply H1.
Qed.

Lemma watermark_alloc fuel vm z o t mark lowmem af fp :
  wf z → (0 < o < MAX_ORDER)%nat → 0 ≤ t < MIGRATE_PCPTYPES → has_flag af ALLOC_NOFRAGMENT = false →
  __zone_watermark_ok z o mark lowmem af fp = true →
  (∃ z' p, rmqueue_locked (S (S fuel)) vm z o af t = Ok (z', Some p) ∧ allocated z p o z') ∨
  (rmqueue_locked (S (S fuel)) vm z o af t = Ok (z, None) ∧
   has_flag af ALLOC_OOM = true ∧ has_flag af ALLOC_HARDER = false ∧
   (∃ c, (o ≤ c < MAX_ORDER)%nat ∧ free_list z c MIGRATE_HIGHATOMIC ≠ []) ∧
   ∀ c u, (o ≤ c < MAX_ORDER)%nat → 0 ≤ u < MIGRATE_PCPTYPES → free_list z c u = []).
Proof.
  intros W Ho Ht Hfrag E. unfold __zone_watermark_ok in E. zcase_in E; [done|].
  rewrite (proj2 (Nat.eqb_neq o 0)) in E by lia. destruct (watermark_orders_ok _ _ _ W E) as (c & u & Hc & Hl & Hu).
  replace (MAX_ORDER - (MAX_ORDER - o))%nat with o in Hc by lia.
  destruct (rmqueue_locked_ok fuel vm z o af t) as (z' & r & Hr & Hres); [done|lia|done|].
  destruct r as [p|]; [left; by exists z', p|]. right. destruct Hres as [-> _].
  destruct (rmqueue_locked_none fuel vm z o af t z W ltac:(lia) Ht Hfrag Hr) as [Hn Hn'].
  destruct Hu as [Hu|[Hh ->]]; [by rewrite Hn in Hl|].
  assert (has_flag af ALLOC_HARDER = false) as Hf.
  { destruct (has_flag af ALLOC_HARDER) eqn:Ef; [|done]. rewrite Hn' in Hl by (done || lia). done. }
  split_and!; [done| |done|by exists c|done].
  unfold has_flag in *. rewrite Z.land_lor_distr_r in Hh. apply negb_false_iff, Z.eqb_eq in Hf. by rewrite Hf, Z.lor_0_l in Hh.
Qed.

(** ** A small zone

    Two pageblocks, of which the block of order 3 at frame 8 is free, for the
    witnesses. *)

Definition demo_zone : zone := with_counts 8 0 false 0 (inserted (λ l, 8 :: l) 8 3 1 demo_empty).
Definition demo_pcp : per_cpu_pages := MkPcp 0 6 2 (λ _, []).
Definition demo_vm : vm_params := MkVm false 15000 true.

Lemma demo_wf : wf demo_zone.
Proof.
  apply (same_lists_wf (inserted (λ l, 8 :: l) 8 3 1 demo_empty)); [done|]. apply inserted_wf; try done.
  - apply demo_empty_wf.
  - unfold MAX_ORDER. lia.
  - by apply demo_owned.
  - intros _ u Hu. by apply elem_of_nil in Hu.
Qed.

Lemma demo_inv : inv (Sys demo_zone demo_pcp []).
Proof.
  split; cbn [s_zone s_pcp s_held].
  - apply demo_wf.
  - split; try done; [apply NoDup_nil_2|]. intros p Hp. by apply elem_of_nil in Hp.
  - intros x _. unfold get_pageblock_migratetype, get_pfnblock_flags_mask. cbn [pageblock_flags demo_zone with_counts inserted with_lists set_page with_pages demo_empty].
    rewrite Z.shiftr_0_l, Z.land_0_l. done.
  - vm_compute. reflexivity.
  - intros b Hb. by apply elem_of_nil in Hb.
  - intros x (b & Hb & _). by apply elem_of_nil in Hb.
  - intros b b' x Hb. by apply elem_of_nil in Hb.
Qed.

(** The block an allocation returned. *)
Definition result_page (r : outcome (zone * per_cpu_pages * option Z)) : option Z :=
  match r with Ok (_, _, p) => p | _ => None end.

Lemma demo_alloc_step :
  ∃ z c, step demo_vm (Sys demo_zone demo_pcp []) (Sys z c [(8, 2%nat)]).
Proof.
  destruct (try_this_zone_ok 0 demo_vm demo_zone demo_pcp 2 0 1) as (z & c & r & E & _).
  { apply demo_wf. }
  { apply demo_inv. }
  { unfold MAX_ORDER. lia. }
  { done. }
  assert (Hr : result_page (try_this_zone 2 demo_vm demo_zone demo_pcp 2 0 1) = Some 8) by (vm_compute; reflexivity).
  rewrite E in Hr. cbn in Hr. subst r. exists z, c.
  refine (step_alloc demo_vm 0 demo_zone demo_pcp [] 2 0 1 z c (Some 8) _ _ E); [unfold MAX_ORDER; lia|done].
Qed.

(** ** Properties *)

(** C1: along every sequence of allocations, writes by clients to the pages
    they hold, frees, drains of the per-cpu lists and unreservations, the blocks
    held are aligned, pairwise disjoint and off every free list, the free lists
    stay well formed and coalesced, NR_FREE_PAGES equals the pages on the lists,
    and no page of the zone is lost or invented. *)
Theorem page_allocator_safe vm s s' :
  inv s → rtc (step vm) s s' → inv s' ∧ ∀ x, known s' x ↔ known s x.
Proof. intros I H. by apply (steps_inv vm s s' H). Qed.

Lemma page_allocator_safe_witness :
  ∃ s', rtc (step demo_vm) (Sys demo_zone demo_pcp []) s' ∧ s_held s' = [(8, 2%nat)] ∧ inv s' ∧
    ∀ x, known s' x ↔ known (Sys demo_zone demo_pcp []) x.
Proof.
  destruct demo_alloc_step as (z & c & H). exists (Sys z c [(8, 2%nat)]). split; [by apply rtc_once|]. split; [done|].
  apply (page_allocator_safe demo_vm); [apply demo_inv|by apply rtc_once].
Defined.

(** C12: in a state the system can reach no entry point hits a VM_BUG_ON or runs
    on: allocating from the zone at any order below MAX_ORDER for a movable,
    unmovable or reclaimable request, freeing a held block that has a reference,
    draining, and unreserving all return. *)
Theorem page_allocator_no_panic vm s :
  inv s →
  (∀ o af t, (o < MAX_ORDER)%nat → 0 ≤ t < MIGRATE_PCPTYPES →
    ∃ r, try_this_zone 2 vm (s_zone s) (s_pcp s) o af t = Ok r) ∧
  (∀ b capc, b ∈ s_held s → pg_refcount (pages (s_zone s) b.1) ≠ 0 →
    ∃ r, __free_pages vm (s_zone s) (s_pcp s) b.1 b.2 capc = Ok r) ∧
  (∀ capc, ∃ r, drain_pages_zone vm (s_zone s) (s_pcp s) capc = Ok r) ∧
  (∀ t force, 0 ≤ t < MIGRATE_TYPES → ∃ r, unreserve_highatomic_zone vm (s_zone s) t force = Ok r).
Proof.
  intros I. split_and!.
  - intros o af t Ho Ht. destruct (try_this_zone_ok 0 vm (s_zone s) (s_pcp s) o af t) as (z & c & r & E & _);
      [apply I|apply I|done|done|eauto].
  - intros b capc Hb Hr. destruct (i_block _ I b Hb) as [Ho Ha].
    destruct (free_pages_ok vm (s_zone s) (s_pcp s) b.1 b.2 capc) as (z & c & d & r & E & _); try apply I; try done; [|eauto].
    intros x Hx. apply (i_use _ I). by exists b.
  - intros capc. destruct (drain_ok vm (s_zone s) (s_pcp s) capc) as (z & c & r & E & _); [apply I|apply I|eauto].
  - intros t force Ht. unfold unreserve_highatomic_zone. zcase; [eauto|].
    destruct (unreserve_loop_ok MAX_ORDER vm (s_zone s) t) as (z & r & E & _); [apply I|done|eauto].
Qed.

Lemma page_allocator_no_panic_witness :
  ∃ s, s_held s = [(8, 2%nat)] ∧
    (∀ o, (o < MAX_ORDER)%nat → ∃ r, try_this_zone 2 demo_vm (s_zone s) (s_pcp s) o 0 1 = Ok r) ∧
    (pg_refcount (pages (s_zone s) 8) ≠ 0 → ∃ r, __free_pages demo_vm (s_zone s) (s_pcp s) 8 2 None = Ok r).
Proof.
  destruct demo_alloc_step as (z & c & H). destruct (steps_inv demo_vm _ _ (rtc_once _ _ H) demo_inv) as [I _].
  exists (Sys z c [(8, 2%nat)]). split; [reflexivity|].
  destruct (page_allocator_no_panic demo_vm (Sys z c [(8, 2%nat)]) I) as (Ha & Hf & _). split.
  - intros o Ho. by apply Ha.
  - intros Hr. apply (Hf (8, 2%nat) None); [by left|exact Hr].
Defined.

(** C10: freeing an aligned block the caller owns panics nowhere, and either the
    block joins the free pages, exactly it and merged with its free buddies as
    far up as they go, with the free-page counter up by its size and no page
    outside the free ones touched; or compaction captures the merged block of
    the order it wants and the counters agree as before. *)
Theorem free_one_page_correct z p o t capc :
  wf z → (o < MAX_ORDER)%nat → 0 ≤ t < MIGRATE_TYPES → aligned p o → owned z p o →
  ∃ z' r, __free_one_page z p o t capc = Ok (z', r) ∧
    match r with
    | None => freed z p o z'
    | Some q => ∃ o', compaction_capture capc o' t = true ∧ merged_ok z p o z' q o' ∧
        nr_free_pages z' - free_count z' = nr_free_pages z - free_count z
    end.
Proof. apply free_one_page_ok. Qed.

Lemma free_one_page_correct_witness :
  ∃ z' r, __free_one_page demo_empty 8 3 1 None = Ok (z', r) ∧ (r = None → freed demo_empty 8 3 z').
Proof.
  destruct (free_one_page_correct demo_empty 8 3 1 None) as (z' & r & E & H).
  - apply demo_empty_wf.
  - unfold MAX_ORDER. lia.
  - done.
  - done.
  - by apply demo_owned.
  - exists z', r. split; [done|]. by intros ->.
Defined.

(** C11: [__rmqueue] returns within two rounds of its retry loop. It returns a
    block exactly when one of the lists the request may use has a block of the
    order asked or more; the block is aligned, was entirely free, leaves the
    free pages as it is and alone, and the lists stay well formed and coalesced
    whatever was split, moved or stolen on the way. *)
Theorem rmqueue_correct fuel vm z o t af :
  wf z → (o < MAX_ORDER)%nat → 0 ≤ t < MIGRATE_PCPTYPES →
  ∃ z' r, __rmqueue (S (S fuel)) vm z o t af = Ok (z', r) ∧
    match r with
    | Some p => allocated z p o z' ∧ pg_index (pages z' p) = t ∧ available z o t af
    | None => z' = z ∧ ¬ available z o t af
    end.
Proof. apply rmqueue_ok. Qed.

Lemma rmqueue_correct_witness :
  ∃ z' r, __rmqueue 2 demo_vm demo_zone 1 0 0 = Ok (z', r) ∧ (∀ p, r = Some p → allocated demo_zone p 1 z').
Proof.
  destruct (rmqueue_correct 0 demo_vm demo_zone 1 0 0) as (z' & r & E & H).
  - apply demo_wf.
  - unfold MAX_ORDER. lia.
  - done.
  - exists z', r. split; [done|]. intros p ->. apply H.
Defined.

(** C24: after any sequence of allocations, writes, frees, drains and
    unreservations, a request under the zone lock that may fall back between
    types (ALLOC_NOFRAGMENT clear) succeeds whenever an aligned run of free
    pages of its order exists anywhere in the zone outside the reserve for
    atomic requests. If it fails, nothing changes and every such run lies inside
    one listed block of that reserve, which the request may not use (it has no
    ALLOC_HARDER, or its order is 0): fragmentation of the lists never makes a
    request fail, since frees merge as far as they can. *)
Theorem allocation_finds_free_run vm s s' fuel o af t :
  inv s → rtc (step vm) s s' → (o < MAX_ORDER)%nat → 0 ≤ t < MIGRATE_PCPTYPES → has_flag af ALLOC_NOFRAGMENT = false →
  ∃ z' r, rmqueue_locked (S (S fuel)) vm (s_zone s') o af t = Ok (z', r) ∧
    match r with
    | Some p => allocated (s_zone s') p o z'
    | None => z' = s_zone s' ∧
        ∀ p, aligned p o → (∀ x, in_block p o x → free_page (s_zone s') x) →
          (has_flag af ALLOC_HARDER = false ∨ o = 0%nat) ∧
          ∃ q c, q ∈ free_list (s_zone s') c MIGRATE_HIGHATOMIC ∧ (o ≤ c)%nat ∧ ∀ x, in_block p o x → in_block q c x
    end.
Proof.
  intros I Hs Ho Ht Hfrag. destruct (steps_inv vm s s' Hs I) as [I' _]. pose proof (i_wf _ I') as W. set (z := s_zone s') in *.
  destruct (rmqueue_locked_ok fuel vm z o af t) as (z' & r & Hr & Hres); [done..|]. exists z', r. split; [done|].
  destruct r as [p|]; [done|]. destruct Hres as [-> _]. split; [done|]. intros p Ha Hf.
  destruct (rmqueue_locked_none fuel vm z o af t z W Ho Ht Hfrag Hr) as [Hn Hn'].
  destruct (free_run_listed z o p W Ho Ha Hf) as (q & c & u & Hq & Hc & Hin).
  destruct (wf_range z W c u q Hq) as [Hc' Hu].
  assert (u = MIGRATE_HIGHATOMIC) as ->.
  { destruct (decide (u = MIGRATE_HIGHATOMIC)) as [|Hne]; [done|]. rewrite Hn in Hq; [by apply elem_of_nil in Hq|lia|].
    unfold MIGRATE_HIGHATOMIC, MIGRATE_TYPES, MIGRATE_PCPTYPES in *. lia. }
  split; [|by exists q, c]. destruct (has_flag af ALLOC_HARDER) eqn:Eh; [|by left]. right.
  destruct (decide (o = 0%nat)) as [|Hne]; [done|]. rewrite Hn' in Hq by (done || lia). by apply elem_of_nil in Hq.
Qed.

(** The free block of the small zone serves a request of order 3; no request
    meets its run of pages in the reserve. *)
Lemma allocation_finds_free_run_witness :
  ∃ z' r, rmqueue_locked 2 demo_vm demo_zone 3 0 0 = Ok (z', r) ∧ r = Some 8 ∧ allocated demo_zone 8 3 z'.
Proof.
  destruct (allocation_finds_free_run demo_vm (Sys demo_zone demo_pcp []) (Sys demo_zone demo_pcp []) 0 3 0 0) as (z' & r & E & H).
  - apply demo_inv.
  - apply rtc_refl.
  - unfold MAX_ORDER. lia.
  - done.
  - done.
  - assert (match rmqueue_locked 2 demo_vm demo_zone 3 0 0 with Ok (_, r) => r | _ => None end = Some 8) as Hr by (vm_compute; reflexivity).
    cbn [s_zone] in E, H. rewrite E in Hr. subst r. exists z', (Some 8). split; [exact E|]. split; [reflexivity|exact H].
Defined.

(** C25: the watermark check keeps its promise for requests of order 1 and more
    that may fall back between types (ALLOC_NOFRAGMENT clear), with one
    exception. When it passes, [rmqueue] under the zone lock finds a block;
    or the request is that of an out-of-memory victim (ALLOC_OOM without
    ALLOC_HARDER) and the only blocks large enough are in the reserve for atomic
    requests: the check counts them for ALLOC_OOM, [rmqueue] takes them for
    ALLOC_HARDER alone, and the request fails. *)
Theorem watermark_ok_allocates fuel vm z o t mark lowmem af fp :
  wf z → (0 < o < MAX_ORDER)%nat → 0 ≤ t < MIGRATE_PCPTYPES → has_flag af ALLOC_NOFRAGMENT = false →
  __zone_watermark_ok z o mark lowmem af fp = true →
  (∃ z' p, rmqueue_locked (S (S fuel)) vm z o af t = Ok (z', Some p) ∧ allocated z p o z') ∨
  (rmqueue_locked (S (S fuel)) vm z o af t = Ok (z, None) ∧
   has_flag af ALLOC_OOM = true ∧ has_flag af ALLOC_HARDER = false ∧
   (∃ c, (o ≤ c < MAX_ORDER)%nat ∧ free_list z c MIGRATE_HIGHATOMIC ≠ []) ∧
   ∀ c u, (o ≤ c < MAX_ORDER)%nat → 0 ≤ u < MIGRATE_PCPTYPES → free_list z c u = []).
Proof. apply watermark_alloc. Qed.

Lemma watermark_ok_allocates_witness :
  ∃ z' p, rmqueue_locked 2 demo_vm demo_zone 2 ALLOC_HARDER 0 = Ok (z', Some p) ∧ allocated demo_zone p 2 z'.
Proof.
  destruct (watermark_ok_allocates 0 demo_vm demo_zone 2 0 4 0 ALLOC_HARDER 8) as [H|(_ & H & _)].
  - apply demo_wf.
  - unfold MAX_ORDER. lia.
  - by split.
  - reflexivity.
  - reflexivity.
  - exact H.
  - discriminate H.
Defined.

(** The exception occurs: the free block of the small zone, moved to the
    reserve, passes the check for an out-of-memory victim and is not found. *)
Definition reserve_zone : zone := with_counts 8 0 false 0 (inserted (λ l, 8 :: l) 8 3 MIGRATE_HIGHATOMIC demo_empty).

Theorem oom_victim_refused :
  __zone_watermark_ok reserve_zone 2 0 0 ALLOC_OOM 8 = true ∧
  ∃ z', rmqueue_locked 2 demo_vm reserve_zone 2 ALLOC_OOM 0 = Ok (z', None).
Proof.
  split; [vm_compute; reflexivity|].
  assert (match rmqueue_locked 2 demo_vm reserve_zone 2 ALLOC_OOM 0 with Ok (_, None) => true | _ => false end = true) as H
    by (vm_compute; reflexivity).
  destruct (rmqueue_locked 2 demo_vm reserve_zone 2 ALLOC_OOM 0) as [[z' [p|]]| |]; try discriminate H. by exists z'.
Qed.

End PageAllocTrace.
