(* ===== verification/FileLocks.v ===== *)
(** * File locks

    src/locks/src/locks.c: POSIX record locks and flock locks of one file, with
    the requests blocked on them. A [struct file_lock] is named by its address;
    its fields are in a heap, its places on the lists in the state. The file is
    a local one, without lock managers ([fl_lmops], [fl_ops]) and lock operations
    of its file system. The spin locks are held across each routine, which is
    one atomic step; tasks asleep on [fl_wait] are not part of the state. *)

From stdpp Require Import base numbers list option sets functions.
From Stdlib Require Import ZArith Lia.
From S2P Require Import Prelude.

Open Scope Z_scope.

Module FileLocks.

Definition F_RDLCK : Z := 0.
Definition F_WRLCK : Z := 1.
Definition F_UNLCK : Z := 2.
Definition FL_POSIX : Z := 1.
Definition FL_FLOCK : Z := 2.
Definition FL_ACCESS : Z := 8.
Definition FL_EXISTS : Z := 16.
Definition FL_CLOSE : Z := 64.
Definition FL_SLEEP : Z := 128.
Definition FL_OFDLCK : Z := 1024.
Definition LOCK_MAND : Z := 32.
Definition LOCK_RW : Z := 192.
Definition OFFSET_MAX : Z := 2 ^ 63 - 1.
Definition ENOENT : Z := 2.
Definition EAGAIN : Z := 11.
Definition ENOMEM : Z := 12.
Definition EINVAL : Z := 22.
Definition EDEADLK : Z := 35.
Definition ENOLCK : Z := 37.
Definition EOVERFLOW : Z := 75.
Definition FILE_LOCK_DEFERRED : Z := 1.

(** [flags & f]. *)
Definition flag (flags f : Z) : bool := negb (Z.land flags f =? 0).

(** ** State *)

Record file_lock := MkFl {
  fl_owner : Z;
  fl_flags : Z;
  fl_type : Z;
  fl_pid : Z;
  fl_file : Z;
  fl_start : Z;
  fl_end : Z }.

Definition set_fl_type (v : Z) (f : file_lock) : file_lock :=
  MkFl (fl_owner f) (fl_flags f) v (fl_pid f) (fl_file f) (fl_start f) (fl_end f).
Definition set_start (v : Z) (f : file_lock) : file_lock :=
  MkFl (fl_owner f) (fl_flags f) (fl_type f) (fl_pid f) (fl_file f) v (fl_end f).
Definition set_end (v : Z) (f : file_lock) : file_lock :=
  MkFl (fl_owner f) (fl_flags f) (fl_type f) (fl_pid f) (fl_file f) (fl_start f) v.

(** [fls] holds the fields by address; [flc_posix] and [flc_flock] are the lists
    of the file's context; [fl_blocker] (0 for NULL) and [fl_blocked_requests]
    link waiters to what blocks them; [blocked_hash], newest first, and
    [file_lock_list] are the global lists linked through [fl_link]. *)
Record lock_state := MkLocks {
  fls : Z → file_lock;
  flc_posix : list Z;
  flc_flock : list Z;
  fl_blocker : Z → Z;
  fl_blocked_requests : Z → list Z;
  blocked_hash : list Z;
  file_lock_list : list Z }.

Definition with_fls (h : Z → file_lock) (s : lock_state) : lock_state :=
  MkLocks h (flc_posix s) (flc_flock s) (fl_blocker s) (fl_blocked_requests s) (blocked_hash s) (file_lock_list s).
Definition with_posix (l : list Z) (s : lock_state) : lock_state :=
  MkLocks (fls s) l (flc_flock s) (fl_blocker s) (fl_blocked_requests s) (blocked_hash s) (file_lock_list s).
Definition with_flock (l : list Z) (s : lock_state) : lock_state :=
  MkLocks (fls s) (flc_posix s) l (fl_blocker s) (fl_blocked_requests s) (blocked_hash s) (file_lock_list s).
Definition with_blocks (b : Z → Z) (r : Z → list Z) (h : list Z) (s : lock_state) : lock_state :=
  MkLocks (fls s) (flc_posix s) (flc_flock s) b r h (file_lock_list s).
Definition with_links (h g : list Z) (s : lock_state) : lock_state :=
  MkLocks (fls s) (flc_posix s) (flc_flock s) (fl_blocker s) (fl_blocked_requests s) h g.

(** Writing fields of a lock. *)
Definition upd (p : Z) (f : file_lock → file_lock) (s : lock_state) : lock_state :=
  with_fls (<[p := f (fls s p)]> (fls s)) s.

Definition unlist (p : Z) (l : list Z) : list Z := filter (λ q, q ≠ p) l.

(** [hlist_del_init(&fl->fl_link)]: the node leaves whichever list it is on. *)
Definition unlink_global (p : Z) (s : lock_state) : lock_state :=
  with_links (unlist p (blocked_hash s)) (unlist p (file_lock_list s)) s.

(** ** Conflicts *)

Definition locks_overlap (fl1 fl2 : file_lock) : bool :=
  (fl_start fl2 <=? fl_end fl1) && (fl_start fl1 <=? fl_end fl2).

Definition posix_same_owner (fl1 fl2 : file_lock) : bool := fl_owner fl1 =? fl_owner fl2.

Definition locks_conflict (caller_fl sys_fl : file_lock) : bool :=
  if fl_type sys_fl =? F_WRLCK then true
  else if fl_type caller_fl =? F_WRLCK then true
  else false.

Definition posix_locks_conflict (caller_fl sys_fl : file_lock) : bool :=
  if posix_same_owner caller_fl sys_fl then false
  else if negb (locks_overlap caller_fl sys_fl) then false
  else locks_conflict caller_fl sys_fl.

Definition flock_locks_conflict (caller_fl sys_fl : file_lock) : bool :=
  if fl_file caller_fl =? fl_file sys_fl then false
  else if flag (fl_type caller_fl) LOCK_MAND || flag (fl_type sys_fl) LOCK_MAND then false
  else locks_conflict caller_fl sys_fl.

(** ** Blocked requests *)

(** [waiter->fl_blocked_member] is on a list. *)
Definition is_blocked (s : lock_state) (waiter : Z) : bool :=
  bool_decide (waiter ∈ fl_blocked_requests s (fl_blocker s waiter)).

Definition __locks_delete_block (waiter : Z) (s : lock_state) : lock_state :=
  let s := unlink_global waiter s in
  let b := fl_blocker s waiter in
  with_blocks (fl_blocker s) (<[b := unlist waiter (fl_blocked_requests s b)]> (fl_blocked_requests s)) (blocked_hash s) s.

(** The loop of [__locks_wake_up_blocks]; every round takes the first waiter
    off, so that [n], the length of the list, is enough. *)
Fixpoint wake_loop (n : nat) (blocker : Z) (s : lock_state) : lock_state :=
  match n, fl_blocked_requests s blocker with
  | S n, waiter :: _ =>
      let s := __locks_delete_block waiter s in
      wake_loop n blocker (with_blocks (<[waiter := 0]> (fl_blocker s)) (fl_blocked_requests s) (blocked_hash s) s)
  | _, _ => s
  end.

Definition __locks_wake_up_blocks (blocker : Z) (s : lock_state) : lock_state :=
  wake_loop (length (fl_blocked_requests s blocker)) blocker s.

Definition locks_wake_up_blocks (blocker : Z) (s : lock_state) : lock_state :=
  match fl_blocked_requests s blocker with [] => s | _ => __locks_wake_up_blocks blocker s end.

Definition locks_delete_block (waiter : Z) (s : lock_state) : lock_state * Z :=
  if (fl_blocker s waiter =? 0) && bool_decide (fl_blocked_requests s waiter = []) then (s, - ENOENT)
  else
    let status := if negb (fl_blocker s waiter =? 0) then 0 else - ENOENT in
    let s := __locks_wake_up_blocks waiter s in
    let s := __locks_delete_block waiter s in
    (with_blocks (<[waiter := 0]> (fl_blocker s)) (fl_blocked_requests s) (blocked_hash s) s, status).

(** The search for the waiter to block behind. *)
Fixpoint find_blocker (fuel : nat) (s : lock_state) (blocker waiter : Z) (conflict : file_lock → file_lock → bool) : outcome Z :=
  match fuel with
  | O => Fuel
  | S fuel =>
      match List.find (λ fl, conflict (fls s fl) (fls s waiter)) (fl_blocked_requests s blocker) with
      | Some fl => find_blocker fuel s fl waiter conflict
      | None => Ok blocker
      end
  end.

Definition __locks_insert_block (fuel : nat) (blocker waiter : Z) (conflict : file_lock → file_lock → bool) (s : lock_state) : outcome lock_state :=
  if is_blocked s waiter then Panic
  else
    blocker ← find_blocker fuel s blocker waiter conflict;
    let s := with_blocks (<[waiter := blocker]> (fl_blocker s))
               (<[blocker := fl_blocked_requests s blocker ++ [waiter]]> (fl_blocked_requests s)) (blocked_hash s) s in
    let s := if flag (fl_flags (fls s blocker)) FL_POSIX && negb (flag (fl_flags (fls s blocker)) FL_OFDLCK)
             then with_links (waiter :: blocked_hash s) (file_lock_list s) s else s in
    Ok (__locks_wake_up_blocks waiter s).

Definition locks_move_blocks (new fl : Z) (s : lock_state) : lock_state :=
  match fl_blocked_requests s fl with
  | [] => s
  | ws =>
      let r := <[new := ws ++ fl_blocked_requests s new]> (<[fl := []]> (fl_blocked_requests s)) in
      with_blocks (λ w, if bool_decide (w ∈ r new) then new else fl_blocker s w) r (blocked_hash s) s
  end.

(** ** The lists of a file *)

Definition locks_copy_conflock (new fl : Z) (s : lock_state) : lock_state :=
  let f := fls s fl in upd new (λ _, MkFl (fl_owner f) (fl_flags f) (fl_type f) (fl_pid f) 0 (fl_start f) (fl_end f)) s.

Definition locks_copy_lock (new fl : Z) (s : lock_state) : lock_state :=
  let s := locks_copy_conflock new fl s in
  upd new (λ f, MkFl (fl_owner f) (fl_flags f) (fl_type f) (fl_pid f) (fl_file (fls s fl)) (fl_start f) (fl_end f)) s.

(** [list_add_tail(&fl->fl_list, before)]: before an entry, or at the end when
    [before] is the list head. *)
Fixpoint insert_before (before : option Z) (p : Z) (l : list Z) : list Z :=
  match l with
  | [] => [p]
  | q :: l => if bool_decide (before = Some q) then p :: q :: l else q :: insert_before before p l
  end.

Definition locks_insert_global_locks (fl : Z) (s : lock_state) : lock_state :=
  with_links (blocked_hash s) (fl :: file_lock_list s) s.

Definition locks_insert_lock_ctx (fl : Z) (before : option Z) (s : lock_state) : lock_state :=
  locks_insert_global_locks fl (with_posix (insert_before before fl (flc_posix s)) s).

(** [list_del_init(&fl->fl_list)] acts on whichever list the lock is on. *)
Definition locks_unlink_lock_ctx (fl : Z) (s : lock_state) : lock_state :=
  let s := unlink_global fl s in
  let s := with_flock (unlist fl (flc_flock s)) (with_posix (unlist fl (flc_posix s)) s) in
  locks_wake_up_blocks fl s.

(** The checks of [locks_release_private] before a lock is freed. *)
Definition locks_free_lock (s : lock_state) (fl : Z) : outcome unit :=
  if bool_decide (fl ∈ flc_posix s ∨ fl ∈ flc_flock s) then Panic
  else if negb (bool_decide (fl_blocked_requests s fl = [])) then Panic
  else if is_blocked s fl then Panic
  else if bool_decide (fl ∈ blocked_hash s ∨ fl ∈ file_lock_list s) then Panic
  else Ok ().

Fixpoint locks_dispose_list (s : lock_state) (dispose : list Z) : outcome unit :=
  match dispose with
  | [] => Ok ()
  | fl :: dispose => _ ← locks_free_lock s fl; locks_dispose_list s dispose
  end.

Definition free_unused (s : lock_state) (fl : option Z) : outcome unit :=
  match fl with Some fl => locks_free_lock s fl | None => Ok () end.

(** The first lock of a list that conflicts with a request. *)
Definition find_conflict (s : lock_state) (conflict : file_lock → file_lock → bool) (request : Z) (l : list Z) : option Z :=
  List.find (λ fl, conflict (fls s request) (fls s fl)) l.

Definition posix_test_lock (fl : Z) (s : lock_state) : lock_state :=
  match find_conflict s posix_locks_conflict fl (flc_posix s) with
  | Some cfl => locks_copy_conflock fl cfl s
  | None => upd fl (set_fl_type F_UNLCK) s
  end.

(** ** Deadlock detection *)

Definition MAX_DEADLK_ITERATIONS : nat := 10.

(** [while (fl->fl_blocker) fl = fl->fl_blocker;] *)
Fixpoint last_blocker (fuel : nat) (s : lock_state) (fl : Z) : outcome Z :=
  match fuel with
  | O => Fuel
  | S fuel => if fl_blocker s fl =? 0 then Ok fl else last_blocker fuel s (fl_blocker s fl)
  end.

Definition what_owner_is_waiting_for (fuel : nat) (s : lock_state) (block_fl : Z) : outcome (option Z) :=
  match List.find (λ fl, posix_same_owner (fls s fl) (fls s block_fl)) (blocked_hash s) with
  | None => Ok None
  | Some fl => fl ← last_blocker fuel s fl; Ok (Some fl)
  end.

(** [n] is the number of rounds before [i++ > MAX_DEADLK_ITERATIONS]. *)
Fixpoint deadlock_loop (n : nat) (fuel : nat) (s : lock_state) (caller_fl block_fl : Z) : outcome bool :=
  r ← what_owner_is_waiting_for fuel s block_fl;
  match r with
  | None => Ok false
  | Some block_fl =>
      match n with
      | O => Ok false
      | S n => if posix_same_owner (fls s caller_fl) (fls s block_fl) then Ok true else deadlock_loop n fuel s caller_fl block_fl
      end
  end.

Definition posix_locks_deadlock (fuel : nat) (s : lock_state) (caller_fl block_fl : Z) : outcome bool :=
  if flag (fl_flags (fls s caller_fl)) FL_OFDLCK then Ok false
  else deadlock_loop (S MAX_DEADLK_ITERATIONS) fuel s caller_fl block_fl.

(** ** [posix_lock_inode] *)

(** The local variables of the walk over the owner's locks; 0 is NULL for
    [left] and [right]. *)
Record walk := MkWalk {
  w_st : lock_state;
  w_request : Z;
  w_new : option Z;
  w_added : bool;
  w_left : Z;
  w_right : Z;
  w_dispose : list Z }.

(** How it ends: at an entry or at the list head, or for lack of memory. *)
Inductive walk_result :=
| WalkEnd (fl : option Z) (w : walk)
| WalkNoLock (w : walk).

Definition delete_current (fl : Z) (w : walk) : walk :=
  MkWalk (locks_unlink_lock_ctx fl (w_st w)) (w_request w) (w_new w) (w_added w) (w_left w) (w_right w) (fl :: w_dispose w).

(** One lock from the lower start to the higher end. *)
Definition merge_ranges (fl request : Z) (s : lock_state) : lock_state :=
  let s :=
    if fl_start (fls s request) <? fl_start (fls s fl)
    then upd fl (set_start (fl_start (fls s request))) s
    else upd request (set_start (fl_start (fls s fl))) s in
  if fl_end (fls s fl) <? fl_end (fls s request)
  then upd fl (set_end (fl_end (fls s request))) s
  else upd request (set_end (fl_end (fls s fl))) s.

Definition replace_current (fl new : Z) (w : walk) : walk :=
  let s := locks_copy_lock new (w_request w) (w_st w) in
  let s := locks_move_blocks new (w_request w) s in
  let s := locks_insert_lock_ctx new (Some fl) s in
  delete_current fl (MkWalk s new None true (w_left w) (w_right w) (w_dispose w)).

Fixpoint owner_walk (rest : list Z) (w : walk) : walk_result :=
  match rest with
  | [] => WalkEnd None w
  | fl :: rest =>
      let f := fls (w_st w) fl in
      let r := fls (w_st w) (w_request w) in
      if negb (posix_same_owner r f) then WalkEnd (Some fl) w
      else if fl_type r =? fl_type f then
        if fl_end f <? s64 (fl_start r - 1) then owner_walk rest w
        else if fl_end r <? s64 (fl_start f - 1) then WalkEnd (Some fl) w
        else
          let s := merge_ranges fl (w_request w) (w_st w) in
          if w_added w
          then owner_walk rest (delete_current fl (MkWalk s (w_request w) (w_new w) true (w_left w) (w_right w) (w_dispose w)))
          else owner_walk rest (MkWalk s fl (w_new w) true (w_left w) (w_right w) (w_dispose w))
      else if fl_end f <? fl_start r then owner_walk rest w
      else if fl_end r <? fl_start f then WalkEnd (Some fl) w
      else
        let added := if fl_type r =? F_UNLCK then true else w_added w in
        let left := if fl_start f <? fl_start r then fl else w_left w in
        let w := MkWalk (w_st w) (w_request w) (w_new w) added left (w_right w) (w_dispose w) in
        if fl_end r <? fl_end f
        then WalkEnd (Some fl) (MkWalk (w_st w) (w_request w) (w_new w) added left fl (w_dispose w))
        else if fl_start r <=? fl_start f then
          if added then owner_walk rest (delete_current fl w)
          else match w_new w with
               | None => WalkNoLock w
               | Some new => owner_walk rest (replace_current fl new w)
               end
        else owner_walk rest w
  end.

(** The rest of the list from the first lock of the owner. *)
Fixpoint from_owner (s : lock_state) (request : Z) (l : list Z) : list Z :=
  match l with
  | [] => []
  | fl :: rest => if posix_same_owner (fls s request) (fls s fl) then fl :: rest else from_owner s request rest
  end.

(** What follows the walk; returns the error, the state, and the locks that
    were not used. *)
Definition finish (fl : option Z) (w : walk) (new_fl2 : option Z) : Z * lock_state * option Z * option Z :=
  let s := w_st w in
  let r := fls s (w_request w) in
  if negb (w_right w =? 0) && (w_left w =? w_right w) && bool_decide (new_fl2 = None) then (- ENOLCK, s, w_new w, new_fl2)
  else if negb (w_added w) && (fl_type r =? F_UNLCK) then
    (if flag (fl_flags r) FL_EXISTS then - ENOENT else 0, s, w_new w, new_fl2)
  else if negb (w_added w) && bool_decide (w_new w = None) then (- ENOLCK, s, None, new_fl2)
  else
    let '(s, fl, new_fl) :=
      match w_added w, w_new w with
      | false, Some new =>
          let s := locks_copy_lock new (w_request w) s in
          let s := locks_move_blocks new (w_request w) s in
          (locks_insert_lock_ctx new fl s, Some new, None)
      | _, new_fl => (s, fl, new_fl)
      end in
    let '(s, lft, new_fl2) :=
      if negb (w_right w =? 0) then
        let '(s, lft, new_fl2) :=
          match new_fl2 with
          | Some n => if w_left w =? w_right w
                      then (locks_insert_lock_ctx n fl (locks_copy_lock n (w_right w) s), n, None)
                      else (s, w_left w, new_fl2)
          | None => (s, w_left w, new_fl2)
          end in
        let s := upd (w_right w) (set_start (s64 (fl_end (fls s (w_request w)) + 1))) s in
        (locks_wake_up_blocks (w_right w) s, lft, new_fl2)
      else (s, w_left w, new_fl2) in
    let s := if negb (lft =? 0)
             then locks_wake_up_blocks lft (upd lft (set_end (s64 (fl_start (fls s (w_request w)) - 1))) s) else s in
    (0, s, new_fl, new_fl2).

(** Freeing what was not used, and the locks taken off. *)
Definition release (s : lock_state) (new_fl new_fl2 : option Z) (dispose : list Z) : outcome unit :=
  _ ← free_unused s new_fl;
  _ ← free_unused s new_fl2;
  locks_dispose_list s dispose.

(** The request conflicts with [fl]. *)
Definition posix_blocked (fuel : nat) (s : lock_state) (request fl : Z) (conflock : option Z) : outcome (lock_state * Z) :=
  let s := match conflock with Some c => locks_copy_conflock c fl s | None => s end in
  if negb (flag (fl_flags (fls s request)) FL_SLEEP) then Ok (s, - EAGAIN)
  else
    let s := __locks_wake_up_blocks request s in
    dead ← posix_locks_deadlock fuel s request fl;
    if (dead : bool) then Ok (s, - EDEADLK)
    else
      s ← __locks_insert_block fuel fl request posix_locks_conflict s;
      Ok (s, FILE_LOCK_DEFERRED).

(** No conflict: the request takes its place among the locks of its owner. *)
Definition posix_place (s : lock_state) (request : Z) (new_fl new_fl2 : option Z) : outcome (lock_state * Z) :=
  match owner_walk (from_owner s request (flc_posix s)) (MkWalk s request new_fl false 0 0 []) with
  | WalkNoLock w => _ ← release (w_st w) (w_new w) new_fl2 (w_dispose w); Ok (w_st w, - ENOLCK)
  | WalkEnd fl w =>
      let '(error, s, new_fl, new_fl2) := finish fl w new_fl2 in
      _ ← release s new_fl new_fl2 (w_dispose w);
      Ok (s, error)
  end.

(** [a1] and [a2] are what the two allocations give, [ctx] tells whether the
    file has a lock context or could get one. *)
Definition posix_lock_inode (fuel : nat) (s : lock_state) (ctx : bool) (request : Z) (conflock a1 a2 : option Z) : outcome (lock_state * Z) :=
  let r := fls s request in
  if negb ctx then Ok (s, if fl_type r =? F_UNLCK then 0 else - ENOMEM)
  else
    let need := negb (flag (fl_flags r) FL_ACCESS) &&
                (negb (fl_type r =? F_UNLCK) || negb (fl_start r =? 0) || negb (fl_end r =? OFFSET_MAX)) in
    let new_fl := if need then a1 else None in
    let new_fl2 := if need then a2 else None in
    let blocked := if negb (fl_type r =? F_UNLCK) then find_conflict s posix_locks_conflict request (flc_posix s) else None in
    match blocked with
    | Some fl =>
        '(s, error) ← posix_blocked fuel s request fl conflock;
        _ ← release s new_fl new_fl2 [];
        Ok (s, error)
    | None =>
        if flag (fl_flags r) FL_ACCESS then (_ ← release s new_fl new_fl2 []; Ok (s, 0))
        else posix_place s request new_fl new_fl2
    end.

(** [locks_remove_posix]: a file of the task [owner] is closed; [lock] is the
    structure on its stack, [filp] and [tgid] go into its fields. [vfs_lock_file]
    and [posix_lock_file] pass the request on; no new lock is needed for it. *)
Definition locks_remove_posix (fuel : nat) (s : lock_state) (ctx : bool) (lock owner filp tgid : Z) : outcome lock_state :=
  if negb ctx || bool_decide (flc_posix s = []) then Ok s
  else
    let s := upd lock (λ _, MkFl owner (Z.lor FL_POSIX FL_CLOSE) F_UNLCK tgid filp 0 OFFSET_MAX) s in
    '(s, _) ← posix_lock_inode fuel s ctx lock None None None;
    Ok s.

(** ** Requests from user space *)

Definition assign_type (fl : file_lock) (type : Z) : file_lock * Z :=
  if (type =? F_RDLCK) || (type =? F_WRLCK) || (type =? F_UNLCK) then (set_fl_type type fl, 0) else (fl, - EINVAL).

(** A [struct flock64]. *)
Record flock64 := MkFlock64 {
  l_type : Z;
  l_whence : Z;
  l_start : Z;
  l_len : Z }.

(** [f_pos] and [i_size] are those of the file, [files] and [tgid] of the task. *)
Definition flock64_to_posix_lock (filp f_pos i_size files tgid : Z) (fl : file_lock) (l : flock64) : file_lock * Z :=
  let base := if l_whence l =? 0 then Some 0 else if l_whence l =? 1 then Some f_pos
              else if l_whence l =? 2 then Some i_size else None in
  match base with
  | None => (fl, - EINVAL)
  | Some base =>
      let fl := set_start base fl in
      if s64 (OFFSET_MAX - fl_start fl) <? l_start l then (fl, - EOVERFLOW)
      else
        let fl := set_start (s64 (fl_start fl + l_start l)) fl in
        if fl_start fl <? 0 then (fl, - EINVAL)
        else
          let done (fl : file_lock) :=
            assign_type (MkFl files FL_POSIX (fl_type fl) tgid filp (fl_start fl) (fl_end fl)) (l_type l) in
          if 0 <? l_len l then
            if s64 (OFFSET_MAX - fl_start fl) <? s64 (l_len l - 1) then (fl, - EOVERFLOW)
            else done (set_end (s64 (s64 (fl_start fl + l_len l) - 1)) fl)
          else if l_len l <? 0 then
            if s64 (fl_start fl + l_len l) <? 0 then (fl, - EINVAL)
            else
              let fl := set_end (s64 (fl_start fl - 1)) fl in
              done (set_start (s64 (fl_start fl + l_len l)) fl)
          else done (set_end OFFSET_MAX fl)
  end.

(** ** flock *)

Definition flock_translate_cmd (cmd : Z) : Z :=
  if flag cmd LOCK_MAND then Z.land cmd (Z.lor LOCK_MAND LOCK_RW)
  else if cmd =? 1 then F_RDLCK else if cmd =? 2 then F_WRLCK else if cmd =? 8 then F_UNLCK else - EINVAL.

(** The lock goes to [fl] or, when it is NULL, to what the allocation gives. *)
Definition flock_make_lock (filp cmd tgid : Z) (fl alloc : option Z) (s : lock_state) : lock_state * (Z + Z) :=
  let type := flock_translate_cmd cmd in
  if type <? 0 then (s, inl type)
  else
    match (match fl with Some p => Some p | None => alloc end) with
    | None => (s, inl (- ENOMEM))
    | Some p => (upd p (λ _, MkFl filp FL_FLOCK type tgid filp 0 OFFSET_MAX) s, inr p)
    end.

(** [locks_insert_lock_ctx(new_fl, &ctx->flc_flock)]. *)
Definition insert_flock (fl : Z) (s : lock_state) : lock_state :=
  locks_insert_global_locks fl (with_flock (insert_before None fl (flc_flock s)) s).

(** From the label [find_conflict] on; [new_fl] is the lock to insert, if any. *)
Definition flock_place (fuel : nat) (s : lock_state) (request : Z) (new_fl : option Z) (dispose : list Z) : outcome (lock_state * Z) :=
  let r := fls s request in
  match find_conflict s flock_locks_conflict request (flc_flock s) with
  | Some fl =>
      if negb (flag (fl_flags r) FL_SLEEP) then (_ ← release s new_fl None dispose; Ok (s, - EAGAIN))
      else
        s ← __locks_insert_block fuel fl request flock_locks_conflict s;
        _ ← release s new_fl None dispose;
        Ok (s, FILE_LOCK_DEFERRED)
  | None =>
      if flag (fl_flags r) FL_ACCESS then (_ ← release s new_fl None dispose; Ok (s, 0))
      else
        match new_fl with
        | None => Panic
        | Some new =>
            let s := locks_copy_lock new request s in
            let s := locks_move_blocks new request s in
            let s := insert_flock new s in
            _ ← release s None None dispose;
            Ok (s, 0)
        end
  end.

Definition flock_lock_inode (fuel : nat) (s : lock_state) (ctx : bool) (request : Z) (alloc : option Z) : outcome (lock_state * Z) :=
  let r := fls s request in
  if negb ctx then Ok (s, if negb (fl_type r =? F_UNLCK) then - ENOMEM else if flag (fl_flags r) FL_EXISTS then - ENOENT else 0)
  else
    let need := negb (flag (fl_flags r) FL_ACCESS) && negb (fl_type r =? F_UNLCK) in
    let new_fl := if need then alloc else None in
    if need && bool_decide (alloc = None) then Ok (s, - ENOMEM)
    else if flag (fl_flags r) FL_ACCESS then flock_place fuel s request new_fl []
    else
      let '(s, found, dispose, same) :=
        match List.find (λ fl, fl_file r =? fl_file (fls s fl)) (flc_flock s) with
        | None => (s, false, [], false)
        | Some fl =>
            if fl_type r =? fl_type (fls s fl) then (s, false, [], true)
            else (locks_unlink_lock_ctx fl s, true, [fl], false)
        end in
      if (same : bool) then (_ ← release s new_fl None dispose; Ok (s, 0))
      else if fl_type r =? F_UNLCK then
        (_ ← release s new_fl None dispose; Ok (s, if flag (fl_flags r) FL_EXISTS && negb found then - ENOENT else 0))
      else flock_place fuel s request new_fl dispose.

End FileLocks.
