(* ===== verification/FileLocksSpec.v ===== *)
(** * File locks: the blocked requests

    What the routines on blocked requests leave alone, the invariant of the
    links between locks and waiters, and the locks that may be freed. *)

From stdpp Require Import base numbers list option sets functions.
From Stdlib Require Import ZArith Lia.
From S2P Require Import Prelude FileLocks.

Open Scope Z_scope.

Module FileLocksSpec.
Import FileLocks.

#[local] Arguments unlist : simpl never.

Lemma elem_of_unlist p q l : q ∈ unlist p l ↔ q ∈ l ∧ q ≠ p.
Proof. unfold unlist. rewrite list_elem_of_filter. tauto. Qed.

Lemma unlist_notin p l : p ∉ l → unlist p l = l.
Proof.
  unfold unlist. induction l as [|q l IH]; [done|]. intros [Hne Hl]%not_elem_of_cons.
  rewrite filter_cons_True by done. by rewrite IH.
Qed.

(** Taking an entry out of a list without repetitions. *)
Lemma unlist_app p l1 l2 : NoDup (l1 ++ p :: l2) → unlist p (l1 ++ p :: l2) = l1 ++ l2.
Proof.
  intros Hnd. apply list.NoDup_app in Hnd as (_ & Hd & [Hp _]%list.NoDup_cons).
  unfold unlist. rewrite list.filter_app, filter_cons_False by (intros H; by apply H). fold (unlist p l1) (unlist p l2).
  rewrite (unlist_notin p l2), unlist_notin; [done| |done]. intros H. apply (Hd p H). apply elem_of_cons. by left.
Qed.

Lemma insert_before_app p n l1 l2 :
  p ∉ l1 → insert_before (Some p) n (l1 ++ p :: l2) = l1 ++ n :: p :: l2.
Proof.
  induction l1 as [|q l1 IH]; intros Hp; cbn [app insert_before].
  - by rewrite bool_decide_eq_true_2.
  - apply not_elem_of_cons in Hp as [Hne Hp]. rewrite bool_decide_eq_false_2 by congruence. by rewrite IH.
Qed.

Lemma insert_before_end n l : insert_before None n l = l ++ [n].
Proof. induction l as [|q l IH]; cbn [app insert_before]; [done|]. by rewrite IH. Qed.

Lemma insert_before_elem before n l q : q ∈ insert_before before n l ↔ q = n ∨ q ∈ l.
Proof.
  induction l as [|x l IH]; cbn [insert_before].
  - rewrite list_elem_of_singleton, elem_of_nil. tauto.
  - case_bool_decide; rewrite !elem_of_cons; [tauto|]. rewrite IH. tauto.
Qed.

#[local] Arguments insert_before : simpl never.

(** ** Frames *)

(** Everything but the links of waiters is the same. *)
Definition same_locks (s s' : lock_state) : Prop :=
  fls s' = fls s ∧ flc_posix s' = flc_posix s ∧ flc_flock s' = flc_flock s.

#[global] Instance same_locks_preorder : PreOrder same_locks.
Proof. split; [done|]. unfold same_locks. intros a b c H1 H2. intuition congruence. Qed.

Lemma wake_loop_same n b : ∀ s, same_locks s (wake_loop n b s).
Proof.
  induction n as [|n IH]; intros s; cbn [wake_loop]; [done|].
  destruct (fl_blocked_requests s b) as [|w l]; [done|]. etrans; [|apply IH]. done.
Qed.

Lemma wake_same b s : same_locks s (__locks_wake_up_blocks b s).
Proof. apply wake_loop_same. Qed.

Lemma wake_up_same b s : same_locks s (locks_wake_up_blocks b s).
Proof. unfold locks_wake_up_blocks. destruct (fl_blocked_requests s b); [done|apply wake_same]. Qed.

Lemma move_blocks_same n f s : same_locks s (locks_move_blocks n f s).
Proof. unfold locks_move_blocks. destruct (fl_blocked_requests s f); done. Qed.

(** ** The links *)

(** A waiter on a list points back to the lock that has the list; granted locks
    wait for nothing; the hash has waiters only; a lock is of one kind. *)
Record links_ok (s : lock_state) : Prop := LinksOk {
  lk_conv w : fl_blocker s w ≠ 0 → w ∈ fl_blocked_requests s (fl_blocker s w);
  lk_waiter w b : w ∈ fl_blocked_requests s b → w ≠ 0;
  lk_back w b : w ∈ fl_blocked_requests s b → fl_blocker s w = b ∧ b ≠ 0;
  lk_granted p : p ∈ flc_posix s ∨ p ∈ flc_flock s → fl_blocker s p = 0 ∧ p ≠ 0;
  lk_hash w : w ∈ blocked_hash s → fl_blocker s w ≠ 0;
  lk_global p : p ∈ file_lock_list s → p ∈ flc_posix s ∨ p ∈ flc_flock s;
  lk_apart p : p ∈ flc_posix s → p ∉ flc_flock s }.

(** Waiters form a forest, of which [rank] is the depth. *)
Definition ranked (s : lock_state) (N : nat) (rank : Z → nat) : Prop :=
  ∀ w, fl_blocker s w ≠ 0 → (rank (fl_blocker s w) < rank w ≤ N)%nat.
Definition forest (s : lock_state) : Prop := ∃ N rank, ranked s N rank.

(** Waiters that stop waiting leave a forest. *)
Lemma forest_less s s' :
  (∀ q, fl_blocker s' q = fl_blocker s q ∨ fl_blocker s' q = 0) → forest s → forest s'.
Proof.
  intros H (N & rank & Hr). exists N, rank. intros q Hq. destruct (H q) as [E|E]; [|done]. rewrite E in *. by apply Hr.
Qed.

(** A lock nothing refers to. *)
Record idle (s : lock_state) (p : Z) : Prop := Idle {
  id_lists : (p ∉ flc_posix s) ∧ (p ∉ flc_flock s);
  id_requests : fl_blocked_requests s p = [];
  id_blocker : fl_blocker s p = 0 }.

Lemma idle_free s p : links_ok s → idle s p → locks_free_lock s p = Ok ().
Proof.
  intros L [Hl Hr Hb]. unfold locks_free_lock, is_blocked. rewrite (bool_decide_eq_false_2 (p ∈ flc_posix s ∨ _)) by tauto.
  rewrite (bool_decide_eq_true_2 (fl_blocked_requests s p = [])) by done. cbn [negb].
  rewrite !bool_decide_eq_false_2; [done| |].
  - intros [H|H]; [by apply (lk_hash s L p H)|]. apply (lk_global s L p) in H. tauto.
  - intros H. by apply (lk_back s L) in H as [? ?].
Qed.

(** One round of waking. *)
Definition woken (w : Z) (s : lock_state) : lock_state :=
  let s := __locks_delete_block w s in
  with_blocks (<[w := 0]> (fl_blocker s)) (fl_blocked_requests s) (blocked_hash s) s.

Lemma woken_requests w s b q :
  links_ok s → q ∈ fl_blocked_requests (woken w s) b ↔ q ∈ fl_blocked_requests s b ∧ q ≠ w.
Proof.
  intros L. cbn [woken __locks_delete_block with_blocks fl_blocked_requests unlink_global with_links fl_blocker].
  destruct (decide (b = fl_blocker s w)) as [->|Hne].
  - rewrite fn_lookup_insert. apply elem_of_unlist.
  - rewrite fn_lookup_insert_ne by done. split; [|tauto]. intros H. split; [done|]. intros ->.
    apply (lk_back s L) in H as [? _]. congruence.
Qed.

Lemma woken_blocker w s q : fl_blocker (woken w s) q = (if decide (q = w) then 0 else fl_blocker s q).
Proof.
  cbn [woken __locks_delete_block with_blocks fl_blocker unlink_global with_links]. case_decide as H.
  - subst. by rewrite fn_lookup_insert.
  - by rewrite fn_lookup_insert_ne.
Qed.

Lemma woken_ok w s : links_ok s → links_ok (woken w s).
Proof.
  intros L. split.
  - intros q. rewrite woken_blocker. case_decide as Hq; [done|]. intros H. apply (woken_requests w s); [done|]. by split; [apply (lk_conv s L)|].
  - intros q b H. apply (woken_requests w s b q L) in H as [H _]. by apply (lk_waiter s L) in H.
  - intros q b H. apply (woken_requests w s b q L) in H as [H Hne]. rewrite woken_blocker, decide_False by done. by apply (lk_back s L).
  - intros p H. rewrite woken_blocker. split; [case_decide; [done|]|]; by apply (lk_granted s L).
  - intros q. cbn [woken __locks_delete_block with_blocks blocked_hash unlink_global with_links].
    rewrite elem_of_unlist. intros [H Hne]. rewrite woken_blocker, decide_False by done. by apply (lk_hash s L).
  - intros p. cbn [woken __locks_delete_block with_blocks file_lock_list unlink_global with_links].
    rewrite elem_of_unlist. intros [H _]. by apply (lk_global s L) in H.
  - apply (lk_apart s L).
Qed.

(** [s'] is [s] with some waiters released. *)
Record released (s s' : lock_state) : Prop := Released {
  rl_same : same_locks s s';
  rl_ok : links_ok s';
  rl_requests b q : q ∈ fl_blocked_requests s' b → q ∈ fl_blocked_requests s b;
  rl_blocker q : fl_blocker s' q = fl_blocker s q ∨ fl_blocker s' q = 0 }.

Lemma released_refl s : links_ok s → released s s.
Proof. split; auto. done. Qed.

Lemma released_trans s1 s2 s3 : released s1 s2 → released s2 s3 → released s1 s3.
Proof.
  intros A B. split.
  - etrans; [apply A|apply B].
  - apply B.
  - intros b q H. by apply A, B.
  - intros q. destruct (rl_blocker _ _ B q) as [->|]; [apply A|by right].
Qed.

Lemma released_idle s s' p : released s s' → idle s p → idle s' p.
Proof.
  intros A [[H1 H2] Hr Hb]. destruct (rl_same _ _ A) as (_ & E1 & E2). split.
  - rewrite E1, E2. done.
  - destruct (fl_blocked_requests s' p) as [|q l] eqn:E; [done|].
    assert (H : q ∈ fl_blocked_requests s p) by (apply (rl_requests _ _ A); rewrite E; apply elem_of_cons; by left).
    rewrite Hr in H. by apply elem_of_nil in H.
  - destruct (rl_blocker _ _ A p); congruence.
Qed.

Lemma wake_loop_ok n : ∀ b s,
  links_ok s → (length (fl_blocked_requests s b) ≤ n)%nat →
  released s (wake_loop n b s) ∧ fl_blocked_requests (wake_loop n b s) b = [].
Proof.
  induction n as [|n IH]; intros b s L Hn; cbn [wake_loop].
  - split; [by apply released_refl|]. apply length_zero_iff_nil. lia.
  - destruct (fl_blocked_requests s b) as [|w l] eqn:E; [split; [by apply released_refl|done]|].
    fold (woken w s). destruct (lk_back s L w b) as [Hb _]; [rewrite E; apply elem_of_cons; by left|].
    destruct (IH b (woken w s)) as [R Hr].
    + by apply woken_ok.
    + cbn [woken __locks_delete_block with_blocks fl_blocked_requests unlink_global with_links fl_blocker].
      rewrite Hb, fn_lookup_insert, E. unfold unlist. rewrite filter_cons_False by (intros H; by apply H).
      pose proof (length_filter (λ q, q ≠ w) l). cbn [length] in Hn. lia.
    + split; [|done]. apply (released_trans s (woken w s)); [|done]. split; [done|by apply woken_ok| |].
      * intros b' q H. by apply (woken_requests w s b' q L) in H as [? _].
      * intros q. rewrite woken_blocker. case_decide; auto.
Qed.

Lemma wake_ok b s : links_ok s → released s (__locks_wake_up_blocks b s) ∧ fl_blocked_requests (__locks_wake_up_blocks b s) b = [].
Proof. intros L. by apply wake_loop_ok. Qed.

(** Only the lock's own waiters are woken. *)
Lemma wake_loop_other n b q : ∀ s,
  links_ok s → q ∉ fl_blocked_requests s b → fl_blocker (wake_loop n b s) q = fl_blocker s q.
Proof.
  induction n as [|n IH]; intros s L Hq; cbn [wake_loop]; [done|]. destruct (fl_blocked_requests s b) as [|w l] eqn:E; [done|].
  fold (woken w s). rewrite IH; [|by apply woken_ok|].
  - rewrite woken_blocker, decide_False; [done|]. intros ->. apply Hq, elem_of_cons. by left.
  - intros H. apply (woken_requests w s b q L) in H as [H _]. by rewrite E in H.
Qed.

Lemma wake_up_ok b s : links_ok s → released s (locks_wake_up_blocks b s) ∧ fl_blocked_requests (locks_wake_up_blocks b s) b = [].
Proof.
  intros L. unfold locks_wake_up_blocks. destruct (fl_blocked_requests s b) eqn:E; [|by apply wake_ok].
  split; [by apply released_refl|done].
Qed.

(** ** Granting and revoking *)

Lemma fields_ok h s : links_ok s → links_ok (with_fls h s).
Proof. intros []. by split. Qed.

Lemma fields_idle h s p : idle s p → idle (with_fls h s) p.
Proof. intros [H1 H2 H3]. by split. Qed.

(** Taking a lock off the lists. *)
Lemma unlink_ok p s :
  links_ok s → p ∈ flc_posix s ∨ p ∈ flc_flock s →
  let s' := locks_unlink_lock_ctx p s in
  links_ok s' ∧ idle s' p ∧ fls s' = fls s ∧ flc_posix s' = unlist p (flc_posix s) ∧ flc_flock s' = unlist p (flc_flock s) ∧
  (∀ q, idle s q → idle s' q) ∧ (forest s → forest s') ∧ ∀ q, fl_blocker s q = 0 → fl_blocker s' q = 0.
Proof.
  intros L Hp s'. unfold s', locks_unlink_lock_ctx.
  set (s1 := with_flock _ _). assert (L1 : links_ok s1).
  { split; cbn.
    - apply (lk_conv s L).
    - apply (lk_waiter s L).
    - apply (lk_back s L).
    - intros q. rewrite !elem_of_unlist. intros H. apply (lk_granted s L). tauto.
    - intros w [H _]%elem_of_unlist. by apply (lk_hash s L).
    - intros q [H Hne]%elem_of_unlist. rewrite !elem_of_unlist. apply (lk_global s L) in H. tauto.
    - intros q [H _]%elem_of_unlist [H' _]%elem_of_unlist. by apply (lk_apart s L) in H. }
  destruct (wake_up_ok p s1 L1) as [R Hr]. destruct (rl_same _ _ R) as (E1 & E2 & E3). split_and!.
  - apply R.
  - split; [|done|].
    + rewrite E2, E3. cbn. rewrite !elem_of_unlist. tauto.
    + destruct (rl_blocker _ _ R p) as [->|]; [|done]. by apply (lk_granted s L).
  - done.
  - done.
  - done.
  - intros q [[H1 H2] Hr' Hb]. apply (released_idle s1); [done|]. split; cbn; [|done..]. rewrite !elem_of_unlist. tauto.
  - apply forest_less, R.
  - intros q Hq. destruct (rl_blocker _ _ R q) as [->|]; done.
Qed.

(** Waiters of a request move to the lock it was granted as. *)
Lemma move_blocks_ok n r s :
  links_ok s → idle s n → n ≠ 0 → n ≠ r →
  let s' := locks_move_blocks n r s in
  links_ok s' ∧ fl_blocker s' n = 0 ∧ (∀ q, q ≠ n → idle s q → idle s' q) ∧ (forest s → forest s').
Proof.
  intros L I Hn Hnr s'. unfold s', locks_move_blocks. destruct (fl_blocked_requests s r) as [|w ws] eqn:E.
  { split_and!; [done|apply I|done|done]. }
  rewrite <- E, (id_requests s n I), app_nil_r. set (req := <[n := _]> _).
  assert (Hreq : ∀ b q, q ∈ req b ↔ (b = n ∧ q ∈ fl_blocked_requests s r) ∨ (b ≠ n ∧ b ≠ r ∧ q ∈ fl_blocked_requests s b)).
  { intros b q. unfold req. destruct (decide (b = n)) as [->|Hbn].
    - rewrite fn_lookup_insert. tauto.
    - rewrite fn_lookup_insert_ne by done. destruct (decide (b = r)) as [->|Hbr].
      + rewrite fn_lookup_insert, elem_of_nil. tauto.
      + rewrite fn_lookup_insert_ne by done. tauto. }
  assert (Hnew : ∀ q, q ∈ req n ↔ q ∈ fl_blocked_requests s r) by (intros q; rewrite Hreq; tauto).
  assert (Hzero : ∀ q, fl_blocker s q = 0 → q ∉ req n).
  { intros q Hq H. apply Hnew, (lk_back s L) in H as [? ?]. congruence. }
  split_and!.
  - split; cbn.
    + intros q. case_bool_decide as Hq; [done|]. intros H0. apply Hreq. right. pose proof (lk_conv s L q H0) as Hin. split_and!; [| |done]; intros E'; rewrite E' in Hin.
      * rewrite (id_requests s n I) in Hin. by apply elem_of_nil in Hin.
      * by apply Hq, Hnew.
    + intros q b [[_ H]|(_ & _ & H)]%Hreq; by apply (lk_waiter s L) in H.
    + intros q b [[-> Hq]|(Hbn & Hbr & Hq)]%Hreq.
      * by rewrite bool_decide_eq_true_2 by (by apply Hnew).
      * destruct (lk_back s L q b Hq) as [Hb H0]. rewrite bool_decide_eq_false_2; [done|].
        intros H. apply Hnew, (lk_back s L) in H as [? _]. congruence.
    + intros q Hq. destruct (lk_granted s L q Hq) as [Hb H0]. rewrite bool_decide_eq_false_2 by (by apply Hzero). done.
    + intros q Hq. case_bool_decide; [done|]. by apply (lk_hash s L).
    + apply (lk_global s L).
    + apply (lk_apart s L).
  - cbn. rewrite bool_decide_eq_false_2; [apply I|]. apply Hzero, I.
  - intros q Hqn [Hl Hr Hb]. split; cbn; [done| |].
    + unfold req. rewrite fn_lookup_insert_ne by done. destruct (decide (q = r)) as [->|]; [by rewrite fn_lookup_insert|].
      by rewrite fn_lookup_insert_ne.
    + rewrite bool_decide_eq_false_2 by (by apply Hzero). done.
  - intros (N & rank & Hr). exists N, (<[n := rank r]> rank). intros q. cbn. case_bool_decide as Hq.
    + intros _. apply Hnew in Hq as Hq'. destruct (lk_back s L q r Hq') as [Eb Hr0]. rewrite fn_lookup_insert, fn_lookup_insert_ne.
      * rewrite <- Eb at 1. apply Hr. congruence.
      * intros ->. by apply (Hzero q); [apply I|].
    + intros H0. rewrite !fn_lookup_insert_ne; [by apply Hr|intros ->; by rewrite (id_blocker _ _ I) in H0|].
      intros E'. pose proof (lk_conv s L q H0) as Hin. rewrite <- E', (id_requests s n I) in Hin. by apply elem_of_nil in Hin.
Qed.

(** A lock nothing waits on as a lock goes on the list of the file. *)
Lemma insert_ctx_ok n before s :
  links_ok s → n ∉ flc_posix s → n ∉ flc_flock s → fl_blocker s n = 0 → n ≠ 0 →
  let s' := locks_insert_lock_ctx n before s in
  links_ok s' ∧ ∀ q, q ≠ n → idle s q → idle s' q.
Proof.
  intros L H1 H2 Hb H0 s'. pose proof (λ q, insert_before_elem before n (flc_posix s) q) as Hin. split.
  - split; cbn.
    + apply (lk_conv s L).
    + apply (lk_waiter s L).
    + apply (lk_back s L).
    + intros q. rewrite Hin. intros [[->|H]|H]; [done|apply (lk_granted s L); tauto..].
    + apply (lk_hash s L).
    + intros q [->|H]%elem_of_cons; rewrite Hin; [tauto|]. apply (lk_global s L) in H. tauto.
    + intros q. rewrite Hin. intros [->|H]; [done|by apply (lk_apart s L)].
  - intros q Hq [[I1 I2] I3 I4]. split; cbn; [|done..]. rewrite Hin. tauto.
Qed.

Lemma dispose_ok s l : links_ok s → (∀ p, p ∈ l → idle s p) → locks_dispose_list s l = Ok ().
Proof.
  intros L. induction l as [|p l IH]; intros H; cbn [locks_dispose_list]; [done|].
  rewrite (idle_free s p L) by (apply H, elem_of_cons; by left). cbn [mbind outcome_bind]. apply IH.
  intros q Hq. apply H, elem_of_cons. by right.
Qed.

Lemma release_ok s n1 n2 l :
  links_ok s → (∀ p, n1 = Some p → idle s p) → (∀ p, n2 = Some p → idle s p) → (∀ p, p ∈ l → idle s p) →
  release s n1 n2 l = Ok ().
Proof.
  intros L H1 H2 Hl. unfold release, free_unused.
  destruct n1 as [p|]; [rewrite (idle_free s p L (H1 p eq_refl))|]; cbn [mbind outcome_bind];
    (destruct n2 as [q|]; [rewrite (idle_free s q L (H2 q eq_refl))|]); cbn [mbind outcome_bind]; by apply dispose_ok.
Qed.

(** ** Blocking *)

Lemma find_in {A} (f : A → bool) l x : List.find f l = Some x → x ∈ l ∧ f x = true.
Proof. intros H. apply List.find_some in H as [H1 H2]. split; [by apply list_elem_of_In|done]. Qed.

(** From the depth [N] of the forest on, the searches along it come to an end. *)
Lemma find_blocker_ok s waiter conflict N rank :
  (∀ w b, w ∈ fl_blocked_requests s b → (rank b < rank w ≤ N)%nat) →
  ∀ k b, (N - rank b ≤ k)%nat →
  ∃ b', (∀ fuel, (N < rank b + fuel)%nat → (0 < fuel)%nat → find_blocker fuel s b waiter conflict = Ok b') ∧
        (b' = b ∨ ∃ b0, b' ∈ fl_blocked_requests s b0).
Proof.
  intros Hr. induction k as [|k IH]; intros b Hk.
  all: destruct (List.find (λ fl, conflict (fls s fl) (fls s waiter)) (fl_blocked_requests s b)) as [x|] eqn:E;
    [|exists b; split; [|by left]; intros [|fuel] _ H; [lia|]; cbn [find_blocker]; by rewrite E].
  - apply find_in in E as [E _]. specialize (Hr _ _ E). lia.
  - apply find_in in E as E'. destruct E' as [Hx _]. specialize (Hr _ _ Hx) as Hrx. destruct (IH x) as (b' & H1 & H2); [lia|].
    exists b'. split.
    + intros [|fuel] Hf _; [lia|]. cbn [find_blocker]. rewrite E. apply H1; lia.
    + right. destruct H2 as [->|H2]; [by exists b|done].
Qed.

Lemma last_blocker_ok s N rank :
  ranked s N rank →
  ∀ k fl, (rank fl ≤ k)%nat ∨ fl_blocker s fl = 0 →
  ∃ r, (∀ fuel, (k < fuel)%nat → last_blocker fuel s fl = Ok r) ∧ fl_blocker s r = 0.
Proof.
  intros Hr. induction k as [|k IH]; intros fl Hk; destruct (decide (fl_blocker s fl = 0)) as [E|E].
  1,3: exists fl; split; [|done]; intros [|fuel] Hf; [lia|]; cbn [last_blocker]; by rewrite E.
  - specialize (Hr fl E). destruct Hk; [lia|done].
  - destruct (IH (fl_blocker s fl)) as (r & H1 & H2).
    { left. specialize (Hr fl E). destruct Hk; [lia|done]. }
    exists r. split; [|done]. intros [|fuel] Hf; [lia|]. cbn [last_blocker].
    destruct (Z.eqb_spec (fl_blocker s fl) 0); [done|]. apply H1. lia.
Qed.

Lemma waiting_ok s N rank b :
  ranked s N rank →
  ∃ r, ∀ fuel, (N < fuel)%nat → what_owner_is_waiting_for fuel s b = Ok r.
Proof.
  intros Hr. unfold what_owner_is_waiting_for. destruct (List.find _ _) as [fl|]; [|by exists None].
  destruct (last_blocker_ok s N rank Hr N fl) as (r & H & _).
  { destruct (decide (fl_blocker s fl = 0)); [by right|left]. by apply Hr. }
  exists (Some r). intros fuel Hf. by rewrite H.
Qed.

Lemma deadlock_ok s N rank caller :
  ranked s N rank →
  ∀ n b, ∃ d, ∀ fuel, (N < fuel)%nat → deadlock_loop n fuel s caller b = Ok d.
Proof.
  intros Hr. induction n as [|n IH]; intros b; destruct (waiting_ok s N rank b Hr) as [[c|] Hc].
  2,4: exists false; intros fuel Hf; cbn [deadlock_loop]; by rewrite (Hc fuel Hf).
  - exists false. intros fuel Hf. cbn [deadlock_loop]. by rewrite (Hc fuel Hf).
  - destruct (posix_same_owner (fls s caller) (fls s c)) eqn:E.
    + exists true. intros fuel Hf. cbn [deadlock_loop]. rewrite (Hc fuel Hf). cbn [mbind outcome_bind]. by rewrite E.
    + destruct (IH c) as [d Hd]. exists d. intros fuel Hf. cbn [deadlock_loop]. rewrite (Hc fuel Hf). cbn [mbind outcome_bind].
      rewrite E. by apply Hd.
Qed.

(** The request [w] becomes a waiter of [b], which is granted or waits. *)
Definition blocked_at (b w : Z) (s : lock_state) : lock_state :=
  with_blocks (<[w := b]> (fl_blocker s)) (<[b := fl_blocked_requests s b ++ [w]]> (fl_blocked_requests s)) (blocked_hash s) s.

Lemma blocked_at_ok b w s :
  links_ok s → fl_blocker s w = 0 → w ∉ flc_posix s → w ∉ flc_flock s → w ≠ 0 → b ≠ 0 →
  links_ok (blocked_at b w s).
Proof.
  intros L Hw Hp Hf Hw0 Hb0.
  assert (Hreq : ∀ c q, q ∈ fl_blocked_requests (blocked_at b w s) c ↔ q ∈ fl_blocked_requests s c ∨ c = b ∧ q = w).
  { intros c q. cbn. destruct (decide (c = b)) as [->|Hne].
    - rewrite fn_lookup_insert, elem_of_app, list_elem_of_singleton. tauto.
    - rewrite fn_lookup_insert_ne by done. tauto. }
  assert (Hbl : ∀ q, fl_blocker (blocked_at b w s) q = if decide (q = w) then b else fl_blocker s q).
  { intros q. cbn. case_decide as H; [subst; by rewrite fn_lookup_insert|by rewrite fn_lookup_insert_ne]. }
  assert (Hnw : ∀ c, w ∉ fl_blocked_requests s c) by (intros c H; apply (lk_back s L) in H as [? ?]; congruence).
  split.
  - intros q. rewrite Hbl, Hreq. case_decide as E; [by right|]. intros H. left. by apply (lk_conv s L).
  - intros q c [H|[_ ->]]%Hreq; [by apply (lk_waiter s L) in H|done].
  - intros q c [H|[-> ->]]%Hreq; rewrite Hbl.
    + rewrite decide_False by (intros ->; by apply (Hnw c)). by apply (lk_back s L).
    + by rewrite decide_True.
  - intros q H. rewrite Hbl. destruct (lk_granted s L q H). rewrite decide_False; [done|]. intros ->. cbn in H. tauto.
  - intros q H. rewrite Hbl. case_decide; [done|]. by apply (lk_hash s L).
  - apply (lk_global s L).
  - apply (lk_apart s L).
Qed.

Lemma hash_ok w s : links_ok s → fl_blocker s w ≠ 0 → links_ok (with_links (w :: blocked_hash s) (file_lock_list s) s).
Proof.
  intros [] Hw. split; cbn; [done..| |done|done]. intros q [->|H]%elem_of_cons; auto.
Qed.

(** Entering the hash. *)
Definition hashed (b w : Z) (s : lock_state) : lock_state :=
  if flag (fl_flags (fls s b)) FL_POSIX && negb (flag (fl_flags (fls s b)) FL_OFDLCK)
  then with_links (w :: blocked_hash s) (file_lock_list s) s else s.

(** Waiting behind a granted lock. *)
Lemma insert_block_ok b w conflict s :
  links_ok s → forest s → fl_blocker s w = 0 → w ∉ flc_posix s → w ∉ flc_flock s → w ≠ 0 → b ∈ flc_posix s ∨ b ∈ flc_flock s →
  ∃ s' N, (∀ fuel, (N < fuel)%nat → __locks_insert_block fuel b w conflict s = Ok s') ∧ links_ok s' ∧ forest s' ∧ same_locks s s' ∧
    fl_blocker s' w ≠ 0 ∧ ∀ p, p ≠ w → idle s p → idle s' p.
Proof.
  intros L (N & rank & Hr) Hw Hp Hf Hw0 Hb. unfold __locks_insert_block, is_blocked.
  rewrite bool_decide_eq_false_2 by (intros H; apply (lk_back s L) in H as [_ H]; done).
  destruct (find_blocker_ok s w conflict N rank) with (k := N) (b := b) as (b' & F1 & F2).
  { intros q c H. destruct (lk_back s L q c H) as [<- Hc0]. by apply Hr. }
  { lia. }
  assert (Hb' : b' ≠ 0 ∧ b' ≠ w).
  { destruct F2 as [->|[b0 F2]].
    - split; [by apply (lk_granted s L)|]. intros ->. tauto.
    - split; [by apply (lk_waiter s L) in F2|]. intros ->. apply (lk_back s L) in F2 as [? ?]. congruence. }
  pose proof (blocked_at_ok b' w s L Hw Hp Hf Hw0 (proj1 Hb')) as L1.
  assert (L2 : links_ok (hashed b' w (blocked_at b' w s))).
  { unfold hashed. destruct (_ && _); [|done]. apply hash_ok; [done|]. cbn. rewrite fn_lookup_insert. apply Hb'. }
  assert (E2 : fl_blocker (hashed b' w (blocked_at b' w s)) = <[w := b']> (fl_blocker s)) by (unfold hashed; by destruct (_ && _)).
  destruct (wake_ok w _ L2) as [R Rw]. exists (__locks_wake_up_blocks w (hashed b' w (blocked_at b' w s))), N. split_and!.
  - intros fuel HN. rewrite F1 by lia. done.
  - apply R.
  - exists (S (N + rank b'))%nat, (<[w := S (rank b')]> rank). intros q Hq.
    assert (Hqw : fl_blocker (__locks_wake_up_blocks w (hashed b' w (blocked_at b' w s))) q ≠ w).
    { intros E. apply (lk_conv _ (rl_ok _ _ R)) in Hq. rewrite E, Rw in Hq. by apply elem_of_nil in Hq. }
    rewrite (fn_lookup_insert_ne _ w (fl_blocker _ q)) by done. destruct (rl_blocker _ _ R q) as [E|E]; [|done]. rewrite E, E2 in *.
    destruct (decide (q = w)) as [->|Hne]; [rewrite !fn_lookup_insert; lia|]. rewrite !fn_lookup_insert_ne in * by done. specialize (Hr q Hq). lia.
  - etrans; [|apply R]. unfold hashed. by destruct (_ && _).
  - unfold __locks_wake_up_blocks. rewrite wake_loop_other, E2, fn_lookup_insert; [apply Hb'|done|].
    intros H. apply (lk_back _ L2) in H as [H _]. rewrite E2, fn_lookup_insert in H. by apply Hb'.
  - intros p Hpw Ip. apply (released_idle _ _ _ R). destruct Ip as [[I1 I2] I3 I4].
    assert (Hpb : p ≠ b').
    { intros ->. destruct F2 as [->|[b0 F2]]; [tauto|]. apply (lk_back s L) in F2 as [? ?]. congruence. }
    unfold hashed. destruct (_ && _); (split; cbn; [done|by rewrite fn_lookup_insert_ne|by rewrite fn_lookup_insert_ne]).
Qed.

End FileLocksSpec.
