(* ===== verification/FileLocksGroup.v ===== *)
(** * File locks: the locks of one owner

    The locks an owner has on a file are apart from each other, in order, and
    never adjacent with one type. [group] is the state of such a list while
    [posix_lock_inode] places a request in it: what precedes the request, what
    starts before it and reaches into it, and what is still to be looked at. *)

From stdpp Require Import base numbers list option sets functions.
From Stdlib Require Import ZArith Lia.
From S2P Require Import Prelude FileLocks.

Open Scope Z_scope.

Module FileLocksGroup.
Import FileLocks.

Definition valid_lock (f : file_lock) : Prop :=
  0 ≤ fl_start f ≤ fl_end f ∧ fl_end f ≤ OFFSET_MAX ∧ (fl_type f = F_RDLCK ∨ fl_type f = F_WRLCK).

Definition inside (f : file_lock) (b : Z) : Prop := fl_start f ≤ b ≤ fl_end f.

Definition seg_lt (f g : file_lock) : Prop :=
  fl_end f < fl_start g ∧ (fl_type f = fl_type g → fl_end f + 1 < fl_start g).

Fixpoint ordered (h : Z → file_lock) (l : list Z) : Prop :=
  match l with
  | [] => True
  | p :: l => (∀ q, q ∈ l → seg_lt (h p) (h q)) ∧ ordered h l
  end.

(** The byte [b] has a lock of type [t]. *)
Definition covers (h : Z → file_lock) (l : list Z) (b t : Z) : Prop :=
  ∃ p, p ∈ l ∧ inside (h p) b ∧ fl_type (h p) = t.

Lemma ordered_app h l1 l2 :
  ordered h (l1 ++ l2) ↔ ordered h l1 ∧ ordered h l2 ∧ ∀ p q, p ∈ l1 → q ∈ l2 → seg_lt (h p) (h q).
Proof.
  induction l1 as [|a l1 IH]; cbn [app ordered].
  - split; [intros H; split_and!; [done..|]|tauto]. intros p q Hp. by apply elem_of_nil in Hp.
  - rewrite IH. split.
    + intros (Ha & H1 & H2 & H). split_and!; [|done..|].
      * intros q Hq. apply Ha, elem_of_app. by left.
      * intros p q [->|Hp]%elem_of_cons Hq; [apply Ha, elem_of_app; by right|by apply H].
    + intros ((Ha & H1) & H2 & H). split_and!; [|done..|].
      * intros q [Hq|Hq]%elem_of_app; [by apply Ha|]. apply H; [apply elem_of_cons; by left|done].
      * intros p q Hp Hq. apply H; [apply elem_of_cons; by right|done].
Qed.

Lemma ordered_one h p : ordered h [p].
Proof. split; [|done]. intros q Hq. by apply elem_of_nil in Hq. Qed.

(** Locks that shrink stay in order. *)
Lemma ordered_shrink h h' l :
  (∀ p, p ∈ l → fl_type (h' p) = fl_type (h p) ∧ fl_start (h p) ≤ fl_start (h' p) ∧ fl_end (h' p) ≤ fl_end (h p)) →
  ordered h l → ordered h' l.
Proof.
  induction l as [|a l IH]; intros Hs; cbn [ordered]; [done|]. intros [Ha H]. split.
  - intros q Hq. specialize (Ha q Hq). unfold seg_lt in *.
    destruct (Hs a) as (-> & ? & ?); [apply elem_of_cons; by left|].
    destruct (Hs q) as (-> & ? & ?); [apply elem_of_cons; by right|].
    split; [lia|]. intros E. apply Ha in E. lia.
  - apply IH; [|done]. intros p Hp. apply Hs, elem_of_cons. by right.
Qed.

Lemma covers_app h l1 l2 b t : covers h (l1 ++ l2) b t ↔ covers h l1 b t ∨ covers h l2 b t.
Proof.
  unfold covers. split.
  - intros (p & [H|H]%elem_of_app & Hb); [left|right]; eauto.
  - intros [(p & H & Hb)|(p & H & Hb)]; exists p; rewrite elem_of_app; tauto.
Qed.

Lemma covers_nil h b t : ¬ covers h [] b t.
Proof. intros (p & H & _). by apply elem_of_nil in H. Qed.

Lemma covers_one h p b t : covers h [p] b t ↔ inside (h p) b ∧ fl_type (h p) = t.
Proof.
  split.
  - intros (q & E & H). apply list_elem_of_singleton in E as ->. done.
  - intros H. exists p. split; [by apply list_elem_of_singleton|done].
Qed.

Lemma covers_cons h p l b t : covers h (p :: l) b t ↔ (inside (h p) b ∧ fl_type (h p) = t) ∨ covers h l b t.
Proof. rewrite (covers_app h [p] l), covers_one. done. Qed.

(** Only what happens outside of [r] matters. *)
Lemma covers_same h h' l b t :
  (∀ p, p ∈ l → fl_type (h' p) = fl_type (h p) ∧ (inside (h' p) b ↔ inside (h p) b)) →
  covers h' l b t ↔ covers h l b t.
Proof.
  intros H. split; intros (p & Hp & Hb & Ht); exists p; destruct (H p Hp) as [E Hi]; split_and!; [done|tauto|congruence..|done|tauto|congruence].
Qed.

(** ** Placing a request *)

Section Group.
Context (o t : Z) (target : Z → Z → Prop).

(** What the bytes are locked with once the request [r] is placed in [l]. *)
Definition placed_sem (h : Z → file_lock) (l : list Z) (r : file_lock) (b ty : Z) : Prop :=
  (inside r b ∧ ty = t ∧ t ≠ F_UNLCK) ∨ (¬ inside r b ∧ covers h l b ty).

Definition precedes (f r : file_lock) : Prop :=
  fl_end f < fl_start r ∧ (fl_type f = t → fl_end f + 1 < fl_start r).
Definition follows (f r : file_lock) : Prop :=
  fl_end r < fl_start f ∧ (fl_type f = t → fl_end r + 1 < fl_start f).

Record group (h : Z → file_lock) (P L R : list Z) (r : file_lock) : Prop := Group {
  gr_owner : fl_owner r = o;
  gr_type : fl_type r = t;
  gr_range : 0 ≤ fl_start r ≤ fl_end r ∧ fl_end r ≤ OFFSET_MAX;
  gr_locks p : p ∈ P ++ L ++ R → fl_owner (h p) = o ∧ valid_lock (h p);
  gr_ordered : ordered h (P ++ L ++ R);
  gr_before p : p ∈ P → precedes (h p) r;
  gr_sem b ty : placed_sem h (P ++ L ++ R) r b ty ↔ target b ty }.

Lemma group_ext h h' P L R r :
  (∀ p, p ∈ P ++ L ++ R → h' p = h p) → group h P L R r → group h' P L R r.
Proof.
  intros He [H1 H2 H3 H4 H5 H6 H7]. split; [done|done|done| | | |].
  - intros p Hp. rewrite He by done. by apply H4.
  - apply (ordered_shrink h); [|done]. intros p Hp. rewrite He by done. lia.
  - intros p Hp. rewrite He by (apply elem_of_app; by left). by apply H6.
  - intros b ty. rewrite <- H7. unfold placed_sem. rewrite (covers_same h h'); [done|].
    intros p Hp. by rewrite He.
Qed.

(** A lock that ends before the request. *)
Lemma group_skip h P f R r : precedes (h f) r → group h P [] (f :: R) r → group h (P ++ [f]) [] R r.
Proof.
  intros Hf [H1 H2 H3 H4 H5 H6 H7]. split; [done|done|done|..]; cbn [app] in *; rewrite <- ?app_assoc; cbn [app]; [done|done| |done].
  intros p [Hp|Hp]%elem_of_app; [by apply H6|]. by apply list_elem_of_singleton in Hp as ->.
Qed.

Lemma group_left h P f R r : group h P [] (f :: R) r → group h P [f] R r.
Proof. by intros [H1 H2 H3 H4 H5 H6 H7]. Qed.

Lemma group_less h P L f R r :
  group h P L (f :: R) r → (∀ p, p ∈ P ++ L ++ R → p ∈ P ++ L ++ f :: R) ∧ ordered h (P ++ L ++ R) ∧
  (∀ p, p ∈ P ++ L → seg_lt (h p) (h f)) ∧ (∀ p, p ∈ R → seg_lt (h f) (h p)) ∧ fl_owner (h f) = o ∧ valid_lock (h f).
Proof.
  intros [H1 H2 H3 H4 H5 H6 H7]. rewrite app_assoc in H5 |- *. apply ordered_app in H5 as (O1 & (O2 & O3) & O4). split_and!.
  - intros p. rewrite !elem_of_app, elem_of_cons. tauto.
  - apply ordered_app. split_and!; [done|done|]. intros p q Hp Hq. apply O4; [done|apply elem_of_cons; by right].
  - intros p Hp. apply O4; [done|apply elem_of_cons; by left].
  - done.
  - apply (H4 f). rewrite !elem_of_app, elem_of_cons. tauto.
  - apply (H4 f). rewrite !elem_of_app, elem_of_cons. tauto.
Qed.

(** A lock within the request goes. *)
Lemma group_delete h P L f R r :
  fl_start r ≤ fl_start (h f) → fl_end (h f) ≤ fl_end r →
  group h P L (f :: R) r → group h P L R r.
Proof.
  intros Hs He G. destruct (group_less _ _ _ _ _ _ G) as (Hin & Ho & _). destruct G as [H1 H2 H3 H4 H5 H6 H7].
  split; [done|done|done| |done|done|].
  - intros p Hp. by apply H4, Hin.
  - intros b ty. rewrite <- H7. unfold placed_sem. rewrite !covers_app, covers_cons. unfold inside. split; [tauto|].
    intros [H|(Hb & [H|[H|[[H _]|H]]])]; [tauto|tauto|tauto| |tauto]. lia.
Qed.

(** A lock of the same type that overlaps or touches the request becomes part
    of it. *)
Lemma group_merge h P L f R r r' :
  t ≠ F_UNLCK → fl_type (h f) = t → fl_start r ≤ fl_end (h f) + 1 → fl_start (h f) ≤ fl_end r + 1 →
  fl_owner r' = o → fl_type r' = t →
  fl_start r' = Z.min (fl_start r) (fl_start (h f)) → fl_end r' = Z.max (fl_end r) (fl_end (h f)) →
  group h P L (f :: R) r → group h P L R r'.
Proof.
  intros Ht Hf A1 A2 Ho' Ht' Es Ee G. destruct (group_less _ _ _ _ _ _ G) as (Hin & Ho & Hb & _ & _ & Hv). destruct G as [H1 H2 H3 H4 H5 H6 H7].
  unfold valid_lock in Hv. split; [done|done|lia| |done| |].
  - intros p Hp. by apply H4, Hin.
  - intros p Hp. destruct (H6 p Hp) as [B1 B2]. destruct (Hb p) as [B3 B4]; [apply elem_of_app; by left|].
    split; [lia|]. intros E. specialize (B2 E). rewrite E, Hf in B4. specialize (B4 eq_refl). lia.
  - intros b ty. rewrite <- H7. unfold placed_sem. rewrite !covers_app, covers_cons. unfold inside. rewrite Es, Ee, Hf. split.
    + intros [H|(N & H)].
      * destruct (decide (fl_start r ≤ b ≤ fl_end r)); [left; tauto|]. right. split; [done|]. right. right. left. split; [lia|]. symmetry. tauto.
      * right. split; [lia|tauto].
    + intros [H|(N & H)]; [left; split; [lia|tauto]|]. destruct (decide (fl_start (h f) ≤ b ≤ fl_end (h f))) as [Hi|Hi].
      * left. split; [lia|]. destruct H as [H|[H|[[_ <-]|H]]]; [exfalso..|done|exfalso].
        -- destruct H as (p & Hp & Hip & _). destruct (Hb p) as [B _]; [apply elem_of_app; by left|]. unfold inside in Hip. lia.
        -- destruct H as (p & Hp & Hip & _). destruct (Hb p) as [B _]; [apply elem_of_app; by right|]. unfold inside in Hip. lia.
        -- destruct H as (p & Hp & Hip & _). rewrite app_assoc in H5. apply ordered_app in H5 as (_ & [B _] & _).
           specialize (B p Hp) as [B _]. unfold inside in Hip. lia.
      * right. split; [lia|tauto].
Qed.

(** Locks may give up bytes of the request. *)
Lemma group_shrink h h' P L R r :
  (∀ p, p ∈ P → h' p = h p) →
  (∀ p, p ∈ P ++ L ++ R → fl_owner (h' p) = fl_owner (h p) ∧ fl_type (h' p) = fl_type (h p) ∧
     fl_start (h p) ≤ fl_start (h' p) ≤ fl_end (h' p) ∧ fl_end (h' p) ≤ fl_end (h p) ∧
     ∀ b, inside (h p) b → ¬ inside r b → inside (h' p) b) →
  group h P L R r → group h' P L R r.
Proof.
  intros HP Hs [H1 H2 H3 H4 H5 H6 H7]. split; [done|done|done| | | |].
  - intros p Hp. destruct (Hs p Hp) as (-> & E & B1 & B2 & _). destruct (H4 p Hp) as (? & V & V2 & V3). unfold valid_lock. rewrite E. split_and!; [done|lia..|done].
  - apply (ordered_shrink h); [|done]. intros p Hp. destruct (Hs p Hp) as (_ & -> & ? & ? & _). lia.
  - intros p Hp. rewrite HP by done. by apply H6.
  - intros b ty. rewrite <- H7. unfold placed_sem. destruct (decide (fl_start r ≤ b ≤ fl_end r)) as [Hb|Hb].
    + unfold inside. tauto.
    + rewrite (covers_same h h'); [done|]. intros p Hp. destruct (Hs p Hp) as (_ & E & B1 & B2 & Hi). split; [done|].
      split; [unfold inside; lia|]. intros H. by apply Hi.
Qed.

(** A lock on both sides of the request becomes two; [n] is the lower one. *)
Lemma group_split h h' P f R n r :
  fl_start (h f) < fl_start r → fl_end r < fl_end (h f) →
  (∀ p, p ∈ P ++ R → h' p = h p) →
  fl_owner (h' n) = o → fl_type (h' n) = fl_type (h f) → fl_start (h' n) = fl_start (h f) → fl_end (h' n) = fl_start r - 1 →
  fl_owner (h' f) = o → fl_type (h' f) = fl_type (h f) → fl_start (h' f) = fl_end r + 1 → fl_end (h' f) = fl_end (h f) →
  group h P [] (f :: R) r → group h' P [n] (f :: R) r.
Proof.
  intros Hs He Hh No Nt Ns Ne Fo Ft Fs Fe G. destruct (group_less _ _ _ _ _ _ G) as (Hin & Ho & Hb & Ha & _ & Hv).
  destruct G as [H1 H2 H3 H4 H5 H6 H7]. destruct Hv as (V1 & V2 & V3). cbn [app] in *. rewrite app_nil_r in Hb.
  assert (EP : ∀ p, p ∈ P → h' p = h p) by (intros p Hp; apply Hh, elem_of_app; by left).
  assert (ER : ∀ p, p ∈ R → h' p = h p) by (intros p Hp; apply Hh, elem_of_app; by right).
  split; [done|done|done| | | |]; cbn [app].
  - intros p [Hp|[->|[->|Hp]%elem_of_cons]%elem_of_cons]%elem_of_app.
    + rewrite EP by done. apply H4, elem_of_app. by left.
    + split; [done|]. unfold valid_lock. rewrite Nt, Ns, Ne. split_and!; [lia..|done].
    + split; [done|]. unfold valid_lock. rewrite Ft, Fs, Fe. split_and!; [lia..|done].
    + rewrite ER by done. apply H4. rewrite elem_of_app, elem_of_cons. tauto.
  - apply ordered_app in Ho as (O1 & O2 & O3). apply ordered_app. split_and!.
    + apply (ordered_shrink h); [|done]. intros p Hp. rewrite EP by done. lia.
    + split.
      * intros q [->|Hq]%elem_of_cons; unfold seg_lt; [rewrite Ne, Fs; lia|]. rewrite (ER q Hq), Ne, Nt.
        destruct (Ha q Hq) as [B1 B2]. split; [lia|]. intros E. apply B2 in E. lia.
      * split; [|apply (ordered_shrink h); [|done]; intros p Hp; rewrite ER by done; lia].
        intros q Hq. rewrite (ER q Hq). unfold seg_lt. rewrite Fe, Ft. by apply Ha.
    + intros p q Hp Hq. rewrite (EP p Hp). apply elem_of_cons in Hq as [->|[->|Hq]%elem_of_cons]; unfold seg_lt.
      * rewrite Nt, Ns. by apply Hb.
      * rewrite Ft, Fs. destruct (Hb p Hp) as [B1 B2]. split; [lia|]. intros E. apply B2 in E. lia.
      * rewrite (ER q Hq). by apply O3.
  - intros p Hp. rewrite EP by done. by apply H6.
  - intros b ty. rewrite <- H7. unfold placed_sem. rewrite !covers_app, !covers_cons, Nt, Ft.
    rewrite (covers_same h h' P), (covers_same h h' R) by (intros p Hp; rewrite ?EP, ?ER by done; done).
    unfold inside. rewrite Ns, Ne, Fs, Fe.
    destruct (decide (fl_start r ≤ b ≤ fl_end r)) as [B|B]; [tauto|].
    assert ((fl_start (h f) ≤ b ≤ fl_start r - 1) ∨ (fl_end r + 1 ≤ b ≤ fl_end (h f)) ↔ fl_start (h f) ≤ b ≤ fl_end (h f)) as <- by lia. tauto.
Qed.

(** The request is placed: the group is in order and has what it should have. *)
Lemma group_placed h P L N R r :
  (∀ p, p ∈ L → fl_end (h p) < fl_start r ∧ fl_type (h p) ≠ t) →
  (∀ p, p ∈ R → follows (h p) r) →
  (∀ p, p ∈ N → fl_owner (h p) = o ∧ fl_type (h p) = t ∧ fl_start (h p) = fl_start r ∧ fl_end (h p) = fl_end r) →
  (N = [] ∧ t = F_UNLCK ∨ (∃ n, N = [n]) ∧ (t = F_RDLCK ∨ t = F_WRLCK)) →
  group h P L R r →
  (∀ p, p ∈ P ++ L ++ N ++ R → fl_owner (h p) = o ∧ valid_lock (h p)) ∧ ordered h (P ++ L ++ N ++ R) ∧
  ∀ b ty, covers h (P ++ L ++ N ++ R) b ty ↔ target b ty.
Proof.
  intros HL HR HN Hn [H1 H2 H3 H4 H5 H6 H7].
  assert (HS : ∀ p, p ∈ P ++ L → precedes (h p) r).
  { intros p [Hp|Hp]%elem_of_app; [by apply H6|]. destruct (HL p Hp). split; [lia|tauto]. }
  assert (Hmem : ∀ p, p ∈ P ++ L ++ N ++ R → p ∈ N ∨ p ∈ P ++ L ++ R) by (intros p; rewrite !elem_of_app; tauto).
  assert (Ht : ∀ p, p ∈ N → t ≠ F_UNLCK ∧ (t = F_RDLCK ∨ t = F_WRLCK)).
  { intros p Hp. destruct Hn as [[-> _]|[_ Hn]]; [by apply elem_of_nil in Hp|]. split; [|done]. destruct Hn as [-> | ->]; done. }
  split_and!.
  - intros p [Hp|Hp]%Hmem; [|by apply H4]. destruct (HN p Hp) as (E1 & E2 & E3 & E4). split; [done|]. unfold valid_lock.
    rewrite E2, E3, E4. split_and!; [lia..|]. by apply (Ht p).
  - rewrite app_assoc in H5 |- *. apply ordered_app in H5 as (O1 & O2 & O3). apply ordered_app. split_and!; [done| |].
    + apply ordered_app. split_and!; [|done|].
      * destruct Hn as [[-> _]|[[n ->] _]]; [done|apply ordered_one].
      * intros p q Hp Hq. destruct (HN p Hp) as (_ & E2 & _ & E4). destruct (HR q Hq). unfold seg_lt. rewrite E2, E4. split; [lia|]. intros E. symmetry in E. tauto.
    + intros p q Hp [Hq|Hq]%elem_of_app; [|by apply O3]. destruct (HN q Hq) as (_ & E2 & E3 & _). unfold seg_lt. rewrite E2, E3. by apply HS.
  - intros b ty. rewrite <- H7. unfold placed_sem. rewrite !(app_assoc P L), !covers_app.
    assert (HcN : covers h N b ty ↔ inside r b ∧ ty = t ∧ t ≠ F_UNLCK).
    { destruct Hn as [[-> Hu]|[[n ->] Hr]].
      - split; [intros H; by apply covers_nil in H|tauto].
      - rewrite covers_one. destruct (HN n) as (_ & E2 & E3 & E4); [by apply list_elem_of_singleton|].
        unfold inside. rewrite E2, E3, E4. destruct (Ht n) as [Hu _]; [by apply list_elem_of_singleton|]. intuition congruence. }
    rewrite HcN.
    assert (HcS : covers h (P ++ L) b ty → ¬ inside r b).
    { intros (p & Hp & Hb & _). destruct (HS p Hp). unfold inside in *. lia. }
    rewrite covers_app in HcS.
    assert (HcR : covers h R b ty → ¬ inside r b).
    { intros (p & Hp & Hb & _). destruct (HR p Hp). unfold inside in *. lia. }
    tauto.
Qed.

End Group.

End FileLocksGroup.
