(* ===== verification/FileLocksWalk.v ===== *)
(** * File locks: the walk of [posix_lock_inode]

    The invariant of the walk over the owner's locks, each of its rounds, and
    what follows it. *)

From stdpp Require Import base numbers list option sets functions.
From Stdlib Require Import ZArith Lia.
From S2P Require Import Prelude FileLocks FileLocksSpec FileLocksGroup.

Open Scope Z_scope.

Module FileLocksWalk.
Import FileLocks FileLocksSpec FileLocksGroup.

Lemma s64_pred x : 0 ≤ x ≤ OFFSET_MAX → s64 (x - 1) = x - 1.
Proof. unfold OFFSET_MAX. intros H. apply sext_id; lia. Qed.

Lemma s64_succ x : 0 ≤ x < OFFSET_MAX → s64 (x + 1) = x + 1.
Proof. unfold OFFSET_MAX. intros H. apply sext_id; lia. Qed.

Lemma copy_lock_spec n r s :
  n ≠ r → fls (locks_copy_lock n r s) n = fls s r ∧ ∀ p, p ≠ n → fls (locks_copy_lock n r s) p = fls s p.
Proof.
  intros Hn. cbn. split.
  - rewrite !fn_lookup_insert, fn_lookup_insert_ne by done. cbn. by destruct (fls s r).
  - intros p Hp. by rewrite !fn_lookup_insert_ne.
Qed.

(** Both locks become the union. *)
Lemma merge_ranges_spec f r s :
  f ≠ r →
  let h := fls (merge_ranges f r s) in
  (∀ p, p = f ∨ p = r → fl_owner (h p) = fl_owner (fls s p) ∧ fl_type (h p) = fl_type (fls s p) ∧
     fl_start (h p) = Z.min (fl_start (fls s r)) (fl_start (fls s f)) ∧ fl_end (h p) = Z.max (fl_end (fls s r)) (fl_end (fls s f))) ∧
  (∀ p, p ≠ f → p ≠ r → h p = fls s p).
Proof.
  intros Hn. unfold merge_ranges. destruct (Z.ltb_spec (fl_start (fls s r)) (fl_start (fls s f))); cbn [upd with_fls fls];
    rewrite ?fn_lookup_insert, ?fn_lookup_insert_ne by done; cbn [fl_end set_start];
    destruct (Z.ltb_spec (fl_end (fls s f)) (fl_end (fls s r))); cbn [upd with_fls fls].
  all: split; [intros p [->| ->]; repeat first [rewrite fn_lookup_insert|rewrite fn_lookup_insert_ne by done];
                 cbn [set_start set_end fl_owner fl_type fl_start fl_end]; split_and!; lia
              |intros p H1 H2; by rewrite !fn_lookup_insert_ne by done].
Qed.

Lemma merge_ranges_state f r s : ∃ h, merge_ranges f r s = with_fls h s.
Proof.
  unfold merge_ranges. destruct (_ <? _); destruct (_ <? _); eexists; reflexivity.
Qed.

Section Walk.
Context (s0 : lock_state) (A B G0 : list Z) (o t q0 : Z) (new0 new2 : option Z).

(** ** The list *)

Record lst (K : list Z) (s : lock_state) : Prop := Lst {
  ls_posix : flc_posix s = A ++ K ++ B;
  ls_flock : flc_flock s = flc_flock s0;
  ls_nodup : NoDup (flc_posix s);
  ls_links : links_ok s;
  ls_frame p : p ∈ A ++ B ∨ p ∈ flc_flock s0 → fls s p = fls s0 p;
  ls_forest : forest s }.

(** Not a lock of another owner, nor a flock. *)
Definition scratch (p : Z) : Prop := (p ∉ A ++ B) ∧ (p ∉ flc_flock s0).

Lemma lst_scratch K s p : lst K s → p ∈ K → scratch p.
Proof.
  intros [H1 H2 H3 H4 H5 HF] Hp. split.
  - rewrite H1 in H3. apply list.NoDup_app in H3 as (_ & D1 & (_ & D2 & _)%list.NoDup_app).
    intros [H|H]%elem_of_app; [|by apply (D2 p)]. apply (D1 p H), elem_of_app. by left.
  - rewrite <- H2. apply (lk_apart s H4). rewrite H1, !elem_of_app. tauto.
Qed.

(** The owner's own part of the list. *)
Lemma lst_nodup K s : lst K s → NoDup K.
Proof. intros [H1 _ D _ _ _]. rewrite H1 in D. by apply list.NoDup_app in D as (_ & _ & (D & _ & _)%list.NoDup_app). Qed.

Lemma idle_scratch K s p : lst K s → idle s p → scratch p ∧ p ∉ K.
Proof.
  intros [H1 H2 H3 H4 H5 HF] [[I1 I2] _ _]. rewrite H1, !elem_of_app in I1. rewrite H2 in I2. unfold scratch. rewrite elem_of_app. tauto.
Qed.

Lemma lst_fields K h s :
  lst K s → (∀ p, scratch p ∨ h p = fls s p) → lst K (with_fls h s).
Proof.
  intros [H1 H2 H3 H4 H5 HF] Hs. split; [done|done|done|by apply fields_ok| |done]. intros p Hp. cbn.
  rewrite <- (H5 p Hp). destruct (Hs p) as [[S1 S2]|H]; [tauto|done].
Qed.

Lemma lst_upd K p f s : lst K s → scratch p → lst K (upd p f s).
Proof.
  intros H Hp. apply lst_fields; [done|]. intros q. destruct (decide (q = p)) as [->|]; [by left|right].
  by apply fn_lookup_insert_ne.
Qed.

Lemma lst_released K s s' : lst K s → released s s' → lst K s'.
Proof.
  intros [H1 H2 H3 H4 H5 HF] R. destruct (rl_same _ _ R) as (E1 & E2 & E3).
  split; rewrite ?E1, ?E2, ?E3; [done|done|done|apply R|done|by apply (forest_less s), HF; apply R].
Qed.

Lemma lst_unlink K1 f K2 s :
  lst (K1 ++ f :: K2) s →
  let s' := locks_unlink_lock_ctx f s in
  lst (K1 ++ K2) s' ∧ fls s' = fls s ∧ idle s' f ∧ ∀ q, idle s q → idle s' q.
Proof.
  intros [H1 H2 H3 H4 H5 HF] s'. destruct (unlink_ok f s) as (U1 & U2 & U3 & U4 & U5 & U6 & U7 & _); [done|left; rewrite H1, !elem_of_app, elem_of_cons; tauto|].
  fold s' in U1, U2, U3, U4, U5, U6, U7.
  assert (E : flc_posix s' = A ++ (K1 ++ K2) ++ B).
  { rewrite U4, H1. replace (A ++ (K1 ++ f :: K2) ++ B) with ((A ++ K1) ++ f :: K2 ++ B) by (by rewrite <- !app_assoc).
    rewrite unlist_app; [by rewrite <- !app_assoc|]. rewrite H1 in H3. by rewrite <- !app_assoc in H3 |- *. }
  split_and!; [|done..]. split; [done| | |done| |auto].
  - rewrite U5, <- H2. apply unlist_notin, (lk_apart s H4). rewrite H1, !elem_of_app, elem_of_cons. tauto.
  - rewrite U4. by apply list.NoDup_filter.
  - intros p Hp. rewrite U3. by apply H5.
Qed.

Lemma insert_here K1 K2 n l :
  l = A ++ (K1 ++ K2) ++ B → NoDup l → insert_before (head (K2 ++ B)) n l = A ++ (K1 ++ n :: K2) ++ B.
Proof.
  intros -> Hnd. rewrite <- !app_assoc in *. cbn [app]. destruct (K2 ++ B) as [|p M] eqn:E; cbn [head].
  - rewrite app_nil_r, insert_before_end, <- !app_assoc. done.
  - rewrite !app_assoc in *. rewrite insert_before_app, <- !app_assoc.
    + done.
    + apply list.NoDup_app in Hnd as (_ & D & _). intros H. apply (D p H), elem_of_cons. by left.
Qed.

Lemma lst_insert K1 K2 n s :
  lst (K1 ++ K2) s → n ∉ flc_posix s → n ∉ flc_flock s → fl_blocker s n = 0 → n ≠ 0 →
  let s' := locks_insert_lock_ctx n (head (K2 ++ B)) s in
  lst (K1 ++ n :: K2) s' ∧ fls s' = fls s ∧ ∀ q, q ≠ n → idle s q → idle s' q.
Proof.
  intros [H1 H2 H3 H4 H5 HF] N1 N2 N3 N4 s'. destruct (insert_ctx_ok n (head (K2 ++ B)) s) as [L I]; [done..|].
  assert (E : flc_posix s' = A ++ (K1 ++ n :: K2) ++ B) by (by apply insert_here).
  split_and!; [|done|done]. split; [done|done| |done|done|done].
  assert (HP : flc_posix s' ≡ₚ n :: flc_posix s).
  { rewrite E, H1, <- !app_assoc, (app_assoc A K1 ((n :: K2) ++ B)), (app_assoc A K1 (K2 ++ B)). cbn [app]. by rewrite <- Permutation_middle. }
  rewrite HP. by apply list.NoDup_cons.
Qed.

(** Granting the request as [n]. *)
Lemma lst_grant K1 K2 n r s :
  lst (K1 ++ K2) s → idle s n → n ≠ 0 → n ≠ r →
  let s' := locks_insert_lock_ctx n (head (K2 ++ B)) (locks_move_blocks n r (locks_copy_lock n r s)) in
  lst (K1 ++ n :: K2) s' ∧ fls s' n = fls s r ∧ (∀ p, p ≠ n → fls s' p = fls s p) ∧ ∀ q, q ≠ n → idle s q → idle s' q.
Proof.
  intros L I N0 Nr s'. destruct (copy_lock_spec n r s Nr) as [C1 C2]. destruct (idle_scratch _ _ _ L I) as [Sc Nk].
  set (s1 := locks_copy_lock n r s) in *. set (s2 := locks_move_blocks n r s1) in *.
  assert (L1 : lst (K1 ++ K2) s1).
  { apply (lst_upd _ n); [|done]. by apply (lst_upd _ n). }
  destruct (move_blocks_ok n r s1) as (M1 & M2 & M3 & M4); [apply L1|by destruct I; split|done|done|].
  destruct (move_blocks_same n r s1) as (E1 & E2 & E3). fold s2 in M1, M2, M3, M4, E1, E2, E3.
  assert (L2 : lst (K1 ++ K2) s2).
  { destruct L1 as [H1 H2 H3 H4 H5 HF]. split; rewrite ?E1, ?E2, ?E3; auto. }
  destruct (lst_insert K1 K2 n s2) as (I1 & I2 & I3); [done|..].
  { rewrite E2. apply I. }
  { rewrite E3. apply I. }
  { done. }
  { done. }
  fold s' in I1, I2, I3. rewrite I2, E1. split_and!; [done|done|done|].
  intros q Hq Iq. apply I3; [done|]. apply M3; [done|]. by destruct Iq; split.
Qed.

(** ** The invariant *)

Context (target : Z → Z → Prop).

(** The request's own place on the list, once it has one. *)
Definition reqs (w : walk) : list Z := if w_added w && negb (t =? F_UNLCK) then [w_request w] else [].

Definition req (w : walk) : file_lock := fls (w_st w) (w_request w).

Record winv (P L R : list Z) (w : walk) : Prop := Winv {
  wi_lst : lst (P ++ L ++ reqs w ++ R) (w_st w);
  wi_group : group o t target (fls (w_st w)) P L R (req w);
  wi_start : w_added w = false → w_st w = s0 ∧ w_request w = q0 ∧ w_dispose w = [] ∧ w_new w = new0;
  wi_req : reqs w = [] → w_request w = q0;
  wi_q0 : scratch q0 ∧ q0 ∉ flc_posix (w_st w);
  wi_L : L = (if w_left w =? 0 then [] else [w_left w]) ∧ (t = F_UNLCK → w_added w = false → L = []);
  wi_right : w_right w = 0;
  wi_left p : p ∈ L → fl_start (fls (w_st w) p) < fl_start (req w) ≤ fl_end (fls (w_st w) p) ∧
                      fl_end (fls (w_st w) p) ≤ fl_end (req w) ∧ fl_type (fls (w_st w) p) ≠ t;
  wi_rest : L ≠ [] ∨ w_added w = true → ∀ p, p ∈ R → fl_start (req w) < fl_start (fls (w_st w) p);
  wi_idle p : p ∈ w_dispose w ∨ new2 = Some p → idle (w_st w) p;
  wi_new n : w_new w = Some n → idle (w_st w) n ∧ n ≠ 0 ∧ n ≠ q0 ∧ (n ∉ w_dispose w) ∧ new2 ≠ Some n }.

Lemma winv_apart P L R w : winv P L R w → scratch (w_request w) ∧ w_request w ∉ P ++ L ++ R.
Proof.
  intros W. destruct (reqs w) as [|q l] eqn:E.
  - destruct (wi_q0 _ _ _ _ W) as [Hs Hq]. rewrite (wi_req _ _ _ _ W E). split; [done|].
    rewrite (ls_posix _ _ (wi_lst _ _ _ _ W)), E, !elem_of_app in Hq. rewrite !elem_of_app. tauto.
  - assert (Eq : [w_request w] = q :: l) by (unfold reqs in E; destruct (_ && _); congruence).
    pose proof (wi_lst _ _ _ _ W) as H. rewrite E, <- Eq in H. split.
    + apply (lst_scratch _ _ _ H). rewrite !elem_of_app, list_elem_of_singleton. tauto.
    + pose proof (lst_nodup _ _ H) as D. rewrite app_assoc in D. apply list.NoDup_app in D as (_ & D1 & D2). apply list.NoDup_cons in D2 as [D2 _].
      rewrite app_assoc, elem_of_app. intros [H'|H']; [|done]. apply (D1 _ H'), elem_of_app. left. by apply list_elem_of_singleton.
Qed.

(** Facts on the lock looked at. *)
Lemma winv_current P L f R w :
  winv P L (f :: R) w →
  fl_owner (fls (w_st w) f) = o ∧ valid_lock (fls (w_st w) f) ∧ f ≠ w_request w ∧ f ≠ 0 ∧ scratch f ∧ (f ∉ P ++ L ++ R) ∧
  (∀ p, p ∈ R → seg_lt (fls (w_st w) f) (fls (w_st w) p)).
Proof.
  intros W. destruct (group_less _ _ _ _ _ _ _ _ _ (wi_group _ _ _ _ W)) as (_ & _ & _ & Ha & Ho & Hv).
  pose proof (wi_lst _ _ _ _ W) as H. destruct (winv_apart _ _ _ _ W) as [_ Hn]. split_and!; [done|done| | | | |done].
  - intros ->. apply Hn. rewrite !elem_of_app, elem_of_cons. tauto.
  - apply (lk_granted _ (ls_links _ _ H)). left. rewrite (ls_posix _ _ H), !elem_of_app, elem_of_cons. tauto.
  - apply (lst_scratch _ _ _ H). rewrite !elem_of_app, elem_of_cons. tauto.
  - pose proof (lst_nodup _ _ H) as D. rewrite !app_assoc in D. apply list.NoDup_app in D as (_ & D1 & [D2 _]%list.NoDup_cons).
    rewrite !elem_of_app. intros H'. destruct (decide (f ∈ R)); [done|]. apply (D1 f); [rewrite !elem_of_app; tauto|apply elem_of_cons; by left].
Qed.

(** A lock that starts no later than the request is the first of interest. *)
Lemma winv_fresh P L f R w :
  winv P L (f :: R) w → fl_start (fls (w_st w) f) ≤ fl_start (req w) → L = [] ∧ w_added w = false.
Proof.
  intros W Hf. destruct L as [|l L]; [destruct (w_added w) eqn:E; [|done]|]; exfalso.
  - pose proof (wi_rest _ _ _ _ W (or_intror E) f). rewrite elem_of_cons in *. lia.
  - assert (l :: L ≠ []) as Hne by done. pose proof (wi_rest _ _ _ _ W (or_introl Hne) f). rewrite elem_of_cons in *. lia.
Qed.

(** ** The rounds *)

Lemma step_skip P L f R w :
  winv P L (f :: R) w → precedes t (fls (w_st w) f) (req w) → winv (P ++ [f]) L R w.
Proof.
  intros W Hf. destruct (winv_current _ _ _ _ _ W) as (_ & (V & _) & _).
  destruct (winv_fresh _ _ _ _ _ W) as [-> Ha]; [destruct Hf; lia|].
  destruct W as [H1 H2 H3 H4 H5 H6 H7 H8 H9 H10 H11]. unfold reqs in *. rewrite Ha in *. cbn [andb app] in *.
  split; unfold reqs; rewrite ?Ha; cbn [andb app]; try done.
  - by rewrite <- app_assoc.
  - by apply group_skip.
  - intros [?|?]; done.
Qed.

Lemma step_left P L f R w :
  winv P L (f :: R) w →
  fl_type (fls (w_st w) f) ≠ t → fl_start (req w) ≤ fl_end (fls (w_st w) f) ≤ fl_end (req w) →
  fl_start (fls (w_st w) f) < fl_start (req w) →
  winv P [f] R (MkWalk (w_st w) (w_request w) (w_new w) (if t =? F_UNLCK then true else w_added w) f (w_right w) (w_dispose w)).
Proof.
  intros W Ht He Hs. destruct (winv_current _ _ _ _ _ W) as (_ & (V & _) & Hr & H0 & _ & _ & Ha).
  destruct (winv_fresh _ _ _ _ _ W) as [-> Had]; [lia|].
  destruct W as [H1 H2 H3 H4 H5 H6 H7 H8 H9 H10 H11]. unfold reqs in *. rewrite Had in *. cbn [andb app] in *.
  assert (E : ∀ w', w_added w' = (if t =? F_UNLCK then true else false) → reqs w' = []) by (intros w'; unfold reqs; intros ->; by destruct (t =? F_UNLCK)).
  split; cbn [w_st w_request w_new w_left w_right w_dispose w_added]; unfold req in *; cbn [w_st w_request] in *; try done.
  - rewrite E by done. done.
  - by apply group_left.
  - destruct (t =? F_UNLCK); [done|tauto].
  - intros _. by apply H4.
  - destruct (Z.eqb_spec f 0); [done|]. split; [done|]. intros ->. done.
  - intros p ->%list_elem_of_singleton. lia.
  - intros _ p Hp. destruct (Ha p Hp). lia.
Qed.

(** Two adjacent or overlapping locks of the request's type. *)
Definition touches (f r : file_lock) : Prop :=
  fl_type f = t ∧ fl_start r ≤ fl_end f + 1 ∧ fl_start f ≤ fl_end r + 1.

Lemma winv_lock P L f R w : winv P L (f :: R) w → fl_type (fls (w_st w) f) = t → t ≠ F_UNLCK ∧ (t =? F_UNLCK) = false.
Proof.
  intros W Ht. destruct (winv_current _ _ _ _ _ W) as (_ & (_ & _ & V) & _). rewrite Ht in V.
  destruct V as [-> | ->]; done.
Qed.

(** What merging does to the group: the union takes the place of the request. *)
Lemma merge_group P L f R w q :
  winv P L (f :: R) w → touches (fls (w_st w) f) (req w) → q = f ∨ q = w_request w →
  let s' := merge_ranges f (w_request w) (w_st w) in
  group o t target (fls s') P L R (fls s' q) ∧
  (∀ p, p ∈ L → fl_start (fls s' p) < fl_start (fls s' q) ≤ fl_end (fls s' p) ∧
                fl_end (fls s' p) ≤ fl_end (fls s' q) ∧ fl_type (fls s' p) ≠ t) ∧
  (∀ p, p ∈ R → fl_start (fls s' q) < fl_start (fls s' p)).
Proof.
  intros W (Ht & T1 & T2) Hq s'. destruct (winv_current _ _ _ _ _ W) as (Ho & (V & _) & Hr & H0 & _ & Hn & Ha).
  destruct (winv_lock _ _ _ _ _ W Ht) as [Hu _]. destruct (winv_apart _ _ _ _ W) as [_ Hna].
  destruct (merge_ranges_spec f (w_request w) (w_st w) Hr) as [M1 M2]. fold s' in M1, M2.
  pose proof (wi_group _ _ _ _ W) as G.
  assert (Hsame : ∀ p, p ∈ P ++ L ++ R → fls s' p = fls (w_st w) p).
  { intros p Hp. apply M2; intros ->; [done|]. apply Hna. rewrite !elem_of_app, elem_of_cons in *. tauto. }
  destruct (M1 q Hq) as (Q1 & Q2 & Q3 & Q4). split_and!.
  - apply (group_ext _ _ _ (fls (w_st w))); [done|]. apply (group_merge _ _ _ _ _ _ f _ (req w)); try done.
    + rewrite Q1. destruct Hq as [-> | ->]; [done|apply G].
    + rewrite Q2. destruct Hq as [-> | ->]; [done|apply G].
  - intros p Hp. assert (HL : L ≠ []) by (intros ->; by apply elem_of_nil in Hp).
    rewrite (Hsame p) by (rewrite !elem_of_app; tauto). rewrite Q3, Q4. unfold req in *.
    pose proof (wi_left _ _ _ _ W p Hp) as B1. pose proof (wi_rest _ _ _ _ W (or_introl HL) f (list_elem_of_here f R)) as B2. unfold req in *. lia.
  - intros p Hp. rewrite (Hsame p), Q3 by (rewrite !elem_of_app; tauto). destruct (Ha p Hp) as [B1 _]. lia.
Qed.

Lemma merge_lst K f w q :
  lst K (w_st w) → scratch f → scratch q → lst K (merge_ranges f q (w_st w)) ∧ ∀ p, idle (w_st w) p → idle (merge_ranges f q (w_st w)) p.
Proof.
  intros HK Hf Hq. destruct (decide (f = q)) as [->|Hne].
  { split.
    - unfold merge_ranges. repeat case_match; auto using lst_upd.
    - intros p. unfold merge_ranges. repeat case_match; intros I; apply fields_idle, fields_idle, I. }
  destruct (merge_ranges_spec f q (w_st w) Hne) as [_ M]. destruct (merge_ranges_state f q (w_st w)) as [h E]. rewrite E in *. split.
  - apply lst_fields; [done|]. intros p. destruct (decide (p = f)) as [->|]; [by left|]. destruct (decide (p = q)) as [->|]; [by left|].
    right. by apply M.
  - intros p. apply fields_idle.
Qed.

Lemma step_merge_first P L f R w :
  winv P L (f :: R) w → touches (fls (w_st w) f) (req w) → w_added w = false →
  winv P L R (MkWalk (merge_ranges f (w_request w) (w_st w)) f (w_new w) true (w_left w) (w_right w) (w_dispose w)).
Proof.
  intros W T Ha. destruct (winv_lock _ _ _ _ _ W (proj1 T)) as [_ Hu]. destruct (merge_group _ _ _ _ _ f W T (or_introl eq_refl)) as (M1 & M2 & M3).
  destruct (winv_current _ _ _ _ _ W) as (_ & _ & _ & _ & Hs & _). destruct (winv_apart _ _ _ _ W) as [Hq _].
  destruct (merge_lst _ _ w _ (wi_lst _ _ _ _ W) Hs Hq) as [K I]. destruct (merge_ranges_state f (w_request w) (w_st w)) as [h E].
  destruct W as [H1 H2 H3 H4 H5 H6 H7 H8 H9 H10 H11]. unfold reqs in K, H4. rewrite Ha in *.
  split; cbn [w_st w_request w_new w_left w_right w_dispose w_added]; unfold reqs, req; cbn [w_st w_request w_added]; rewrite ?Hu; cbn [andb negb app]; try done.
  - split; [apply H5|]. rewrite E. apply H5.
  - split; [apply H6|done].
  - auto.
  - intros n Hn. destruct (H11 n Hn) as (N1 & N2). auto.
Qed.

Lemma delete_current_ok P L f R w s ad :
  winv P L (f :: R) w → lst (P ++ L ++ reqs w ++ f :: R) s → (∀ p, idle (w_st w) p → idle s p) → flc_posix s = flc_posix (w_st w) →
  (w_added w = ad ∨ (t =? F_UNLCK) = true) →
  group o t target (fls s) P L R (fls s (w_request w)) →
  (∀ p, p ∈ L → fl_start (fls s p) < fl_start (fls s (w_request w)) ≤ fl_end (fls s p) ∧
                fl_end (fls s p) ≤ fl_end (fls s (w_request w)) ∧ fl_type (fls s p) ≠ t) →
  (∀ p, p ∈ R → fl_start (fls s (w_request w)) < fl_start (fls s p)) → ad = true →
  winv P L R (delete_current f (MkWalk s (w_request w) (w_new w) ad (w_left w) (w_right w) (w_dispose w))).
Proof.
  intros W K I Ep Had G HL HR ->. rewrite !app_assoc in K. destruct (lst_unlink _ _ _ _ K) as (U1 & U2 & U3 & U4). rewrite <- !app_assoc in U1.
  assert (Er : reqs (delete_current f (MkWalk s (w_request w) (w_new w) true (w_left w) (w_right w) (w_dispose w))) = reqs w).
  { unfold reqs. cbn. destruct Had as [-> | ->]; [done|]. cbn. by rewrite andb_false_r. }
  assert (Hin : f ∈ flc_posix (w_st w)) by (rewrite <- Ep, (ls_posix _ _ K), !elem_of_app, elem_of_cons; tauto).
  destruct W as [H1 H2 H3 H4 H5 H6 H7 H8 H9 H10 H11].
  split; [by rewrite Er|..]; rewrite ?Er; unfold req; cbn [delete_current w_st w_request w_new w_left w_right w_dispose w_added]; rewrite ?U2; try done.
  - split; [apply H5|]. rewrite (ls_posix _ _ U1). destruct H5 as [_ H5]. rewrite (ls_posix _ _ H1) in H5. rewrite !elem_of_app, ?elem_of_cons in *. tauto.
  - split; [apply H6|done].
  - intros p [[->|Hp]%elem_of_cons|Hp]; [done|auto..].
  - intros n Hn. destruct (H11 n Hn) as (N1 & N2 & N3 & N4 & N5). split_and!; [auto|done|done| |done].
    rewrite elem_of_cons. intros [->|?]; [|done]. by apply (proj1 (id_lists _ _ N1)).
Qed.

Lemma step_merge_again P L f R w :
  winv P L (f :: R) w → touches (fls (w_st w) f) (req w) → w_added w = true →
  winv P L R (delete_current f (MkWalk (merge_ranges f (w_request w) (w_st w)) (w_request w) (w_new w) true (w_left w) (w_right w) (w_dispose w))).
Proof.
  intros W T Ha. destruct (merge_group _ _ _ _ _ (w_request w) W T (or_intror eq_refl)) as (M1 & M2 & M3).
  destruct (winv_current _ _ _ _ _ W) as (_ & _ & _ & _ & Hs & _). destruct (winv_apart _ _ _ _ W) as [Hq _].
  destruct (merge_lst _ _ w _ (wi_lst _ _ _ _ W) Hs Hq) as [K I]. destruct (merge_ranges_state f (w_request w) (w_st w)) as [h E].
  apply delete_current_ok; try done.
  - by rewrite E.
  - by left.
Qed.

Lemma step_delete P L f R w :
  winv P L (f :: R) w → fl_start (req w) ≤ fl_start (fls (w_st w) f) → fl_end (fls (w_st w) f) ≤ fl_end (req w) →
  (w_added w = true ∨ (t =? F_UNLCK) = true) →
  winv P L R (delete_current f (MkWalk (w_st w) (w_request w) (w_new w) true (w_left w) (w_right w) (w_dispose w))).
Proof.
  intros W Hs He Ha. destruct (winv_current _ _ _ _ _ W) as (_ & (V & _) & _ & _ & _ & _ & Hl).
  apply delete_current_ok; try done.
  - apply W.
  - by apply (group_delete _ _ _ _ _ _ f), W.
  - apply W.
  - intros p Hp. destruct (Hl p Hp) as [B1 _]. unfold req in *. lia.
Qed.

Lemma step_replace P L f R w n :
  winv P L (f :: R) w → fl_start (req w) ≤ fl_start (fls (w_st w) f) → fl_end (fls (w_st w) f) ≤ fl_end (req w) →
  w_added w = false → (t =? F_UNLCK) = false → w_new w = Some n →
  winv P L R (replace_current f n w).
Proof.
  intros W Hs He Ha Hu Hn. destruct (winv_current _ _ _ _ _ W) as (_ & (V & _) & _ & _ & _ & _ & Hl).
  destruct (wi_new _ _ _ _ W n Hn) as (N1 & N2 & N3 & N4 & N5). destruct (wi_start _ _ _ _ W Ha) as (_ & Eq & _).
  pose proof (wi_lst _ _ _ _ W) as K. unfold reqs in K. rewrite Ha in K. cbn [andb app] in K. rewrite app_assoc in K.
  destruct (lst_grant _ _ n (w_request w) _ K N1 N2) as (G1 & G2 & G3 & G4); [congruence|]. cbn [app head] in G1, G2, G3, G4.
  unfold replace_current. set (s1 := locks_insert_lock_ctx _ _ _) in *.
  replace ((P ++ L) ++ n :: f :: R) with (((P ++ L) ++ [n]) ++ f :: R) in G1 by (by rewrite <- !app_assoc).
  destruct (lst_unlink _ _ _ _ G1) as (U1 & U2 & U3 & U4). rewrite <- !app_assoc in U1.
  destruct (idle_scratch _ _ _ K N1) as [Sn Kn].
  assert (Hsame : ∀ p, p ∈ P ++ L ++ f :: R → fls s1 p = fls (w_st w) p).
  { intros p Hp. apply G3. intros ->. by rewrite app_assoc in Hp. }
  assert (Hf : f ∈ flc_posix (w_st w)) by (rewrite (ls_posix _ _ K), !elem_of_app, elem_of_cons; tauto).
  assert (HR : ∀ p, p ∈ P ++ L ++ R → p ∈ P ++ L ++ f :: R) by (intros p; rewrite !elem_of_app, elem_of_cons; tauto).
  destruct W as [H1 H2 H3 H4 H5 H6 H7 H8 H9 H10 H11]. unfold req in *.
  split; unfold req, reqs; cbn [delete_current w_st w_request w_new w_left w_right w_dispose w_added]; rewrite ?Hu, ?U2, ?G2; cbn [andb negb]; try done.
  - apply (group_ext _ _ _ (fls (w_st w))); [intros p Hp; by apply Hsame, HR|]. by apply (group_delete _ _ _ _ _ _ f).
  - split; [apply H5|]. rewrite (ls_posix _ _ U1). destruct H5 as [_ H5]. rewrite (ls_posix _ _ K) in H5.
    rewrite !elem_of_app, ?elem_of_cons, ?elem_of_nil in *. intuition congruence.
  - split; [apply H6|done].
  - intros p Hp. rewrite Hsame by (rewrite !elem_of_app; tauto). by apply H8.
  - intros _ p Hp. rewrite Hsame by (rewrite !elem_of_app, elem_of_cons; tauto). destruct (Hl p Hp) as [B1 _]. lia.
  - intros p [[->|Hp]%elem_of_cons|Hp]; [done|..]; apply U4, G4; auto; congruence.
Qed.

(** ** The whole walk *)

Context (HB : ∀ p, p ∈ B → fl_owner (fls s0 p) ≠ o).

Definition walk_post (res : walk_result) : Prop :=
  match res with
  | WalkNoLock w => w_st w = s0 ∧ w_dispose w = [] ∧ w_new w = new0 ∧ new0 = None ∧ t ≠ F_UNLCK
  | WalkEnd fl w =>
      (∃ P L R, winv P L R w ∧ (∀ p, p ∈ R → follows t (fls (w_st w) p) (req w)) ∧ fl = head (R ++ B)) ∨
      (∃ P L f R w0, winv P L (f :: R) w0 ∧ fl_type (fls (w_st w0) f) ≠ t ∧
         fl_start (fls (w_st w0) f) ≤ fl_end (req w0) < fl_end (fls (w_st w0) f) ∧ fl_start (req w0) ≤ fl_end (fls (w_st w0) f) ∧ fl = Some f ∧
         w = MkWalk (w_st w0) (w_request w0) (w_new w0) (if t =? F_UNLCK then true else w_added w0)
               (if fl_start (fls (w_st w0) f) <? fl_start (req w0) then f else w_left w0) f (w_dispose w0))
  end.

(** The rest of the owner's locks follows once the first does. *)
Lemma follows_rest P L f R w :
  winv P L (f :: R) w → follows t (fls (w_st w) f) (req w) → ∀ p, p ∈ f :: R → follows t (fls (w_st w) p) (req w).
Proof.
  intros W Hf p [->|Hp]%elem_of_cons; [done|]. destruct (winv_current _ _ _ _ _ W) as (_ & (V & _) & _ & _ & _ & _ & Hl).
  destruct (Hl p Hp), Hf. split; lia.
Qed.

Lemma walk_other P L w : winv P L [] w → walk_post (owner_walk B w).
Proof.
  intros W. assert (H : walk_post (WalkEnd (head B) w)).
  { left. exists P, L, []. split_and!; [done|intros p Hp; by apply elem_of_nil in Hp|done]. }
  pose proof (ls_frame _ _ (wi_lst _ _ _ _ W)) as Hf. pose proof (gr_owner _ _ _ _ _ _ _ _ (wi_group _ _ _ _ W)) as Ho.
  destruct B as [|p B'] eqn:E; cbn [owner_walk head] in *; [done|].
  assert (Hp : p ∈ p :: B') by (apply elem_of_cons; by left).
  unfold posix_same_owner. fold (req w). rewrite Ho, Hf by (left; apply elem_of_app; by right).
  destruct (Z.eqb_spec o (fl_owner (fls s0 p))) as [Eo|_]; cbn [negb]; [|done].
  exfalso. by apply (HB p Hp).
Qed.

Lemma owner_walk_ok R : ∀ P L w, winv P L R w → walk_post (owner_walk (R ++ B) w).
Proof.
  induction R as [|f R IH]; intros P L w W; cbn [app owner_walk]; [by apply (walk_other P L)|].
  destruct (winv_current _ _ _ _ _ W) as (Ho & (V1 & V2 & _) & _ & _ & _ & _ & Hl). pose proof (wi_group _ _ _ _ W) as G.
  destruct G as [G1 G2 G3 _ _ _ _]. fold (req w). unfold posix_same_owner. rewrite G1, G2, Ho, Z.eqb_refl. cbn [negb].
  rewrite !s64_pred by lia.
  destruct (Z.eqb_spec t (fl_type (fls (w_st w) f))) as [Et|Et].
  - destruct (Z.ltb_spec (fl_end (fls (w_st w) f)) (fl_start (req w) - 1)).
    { apply (IH (P ++ [f]) L). apply step_skip; [done|]. split; lia. }
    destruct (Z.ltb_spec (fl_end (req w)) (fl_start (fls (w_st w) f) - 1)).
    { left. exists P, L, (f :: R). split_and!; [done| |done]. apply (follows_rest P L); [done|]. split; lia. }
    assert (T : touches (fls (w_st w) f) (req w)) by (split_and!; [done|lia..]).
    destruct (w_added w) eqn:Ea; apply (IH P L); [by apply step_merge_again|by apply step_merge_first].
  - destruct (Z.ltb_spec (fl_end (fls (w_st w) f)) (fl_start (req w))).
    { apply (IH (P ++ [f]) L). apply step_skip; [done|]. split; [lia|congruence]. }
    destruct (Z.ltb_spec (fl_end (req w)) (fl_start (fls (w_st w) f))).
    { left. exists P, L, (f :: R). split_and!; [done| |done]. apply (follows_rest P L); [done|]. split; [lia|congruence]. }
    cbn [w_st w_request w_new w_left w_right w_dispose w_added].
    destruct (Z.ltb_spec (fl_end (req w)) (fl_end (fls (w_st w) f))).
    { right. exists P, L, f, R, w. split_and!; [done|congruence|lia..|done|done]. }
    destruct (Z.leb_spec (fl_start (req w)) (fl_start (fls (w_st w) f))) as [Hs|Hs].
    + replace (fl_start (fls (w_st w) f) <? fl_start (req w)) with false by lia.
      destruct (t =? F_UNLCK) eqn:Eu; [apply (IH P L); apply step_delete; auto|].
      destruct (w_added w) eqn:Ea; [apply (IH P L); apply step_delete; auto|].
      destruct (w_new w) as [n|] eqn:En.
      * apply (IH P L). pose proof (step_replace P L f R w n W Hs). unfold replace_current in *.
        cbn [w_st w_request w_new w_left w_right w_dispose w_added]. auto.
      * destruct (wi_start _ _ _ _ W Ea) as (S1 & S2 & S3 & S4). apply Z.eqb_neq in Eu. cbn. split_and!; [done|done|congruence|congruence|done].
    + replace (fl_start (fls (w_st w) f) <? fl_start (req w)) with true by lia.
      apply (IH P [f]). by apply (step_left P L).
Qed.

(** ** After the walk *)

Context (Htype : t = F_RDLCK ∨ t = F_WRLCK ∨ t = F_UNLCK).

(** The request is on the list as [N]; what it takes from its neighbours is still
    theirs. The locks of [I] are to be freed. *)
Record ready (P L N R : list Z) (rq : Z) (r : file_lock) (I : list Z) (s : lock_state) : Prop := Ready {
  rd_lst : lst (P ++ L ++ N ++ R) s;
  rd_group : group o t target (fls s) P L R r;
  rd_req : fls s rq = r ∧ rq ∉ P ++ L ++ R;
  rd_N p : p ∈ N → fl_owner (fls s p) = o ∧ fl_type (fls s p) = t ∧ fl_start (fls s p) = fl_start r ∧ fl_end (fls s p) = fl_end r;
  rd_one : N = [] ∧ t = F_UNLCK ∨ (∃ n, N = [n]) ∧ (t = F_RDLCK ∨ t = F_WRLCK);
  rd_idle p : p ∈ I → idle s p }.

Definition settled (s : lock_state) : Prop :=
  ∃ K, lst K s ∧ (∀ p, p ∈ K → fl_owner (fls s p) = o ∧ valid_lock (fls s p)) ∧ ordered (fls s) K ∧
  ∀ b ty, covers (fls s) K b ty ↔ target b ty.

Lemma ready_settled P L N R rq r I s :
  ready P L N R rq r I s → (∀ p, p ∈ L → fl_end (fls s p) < fl_start r ∧ fl_type (fls s p) ≠ t) →
  (∀ p, p ∈ R → follows t (fls s p) r) → settled s.
Proof.
  intros [H1 H2 H3 H4 H5 H6] HL HR. exists (P ++ L ++ N ++ R). split; [done|]. by apply (group_placed o t target _ _ _ _ _ r).
Qed.

(** The request is already on the list, or needs no place. *)
Lemma ready_added P L R w I :
  winv P L R w → (if t =? F_UNLCK then true else w_added w) = true → (∀ p, p ∈ I → idle (w_st w) p) →
  ready P L (reqs w) R (w_request w) (req w) I (w_st w).
Proof using Htype.
  intros W Ha HI. destruct (winv_apart _ _ _ _ W) as [_ Hn]. pose proof (wi_group _ _ _ _ W) as G.
  split; [apply W|done|done| | |done].
  - intros p Hp. unfold reqs in Hp. destruct (_ && _); [|by apply elem_of_nil in Hp]. apply list_elem_of_singleton in Hp as ->.
    fold (req w). split_and!; [apply G|apply G|done..].
  - unfold reqs. destruct (Z.eqb_spec t F_UNLCK) as [E|E]; [left; by rewrite andb_false_r|]. rewrite Ha. right. split; [by eexists|tauto].
Qed.

Lemma ready_grant P L R w n I :
  winv P L R w → w_added w = false → (t =? F_UNLCK) = false → w_new w = Some n →
  (∀ p, p ∈ I → idle (w_st w) p ∧ p ≠ n) →
  let s' := locks_insert_lock_ctx n (head (R ++ B)) (locks_move_blocks n (w_request w) (locks_copy_lock n (w_request w) (w_st w))) in
  ready P L [n] R (w_request w) (req w) I s' ∧ ∀ p, p ∈ P ++ L ++ R → fls s' p = fls (w_st w) p.
Proof using Htype.
  intros W Ha Hu Hn HI s'. destruct (wi_new _ _ _ _ W n Hn) as (N1 & N2 & N3 & N4 & N5). destruct (winv_apart _ _ _ _ W) as [_ Hna].
  destruct (wi_start _ _ _ _ W Ha) as (_ & Eq & _). assert (n ≠ w_request w) as Hr by congruence.
  pose proof (wi_group _ _ _ _ W) as G. pose proof (wi_lst _ _ _ _ W) as K. unfold reqs in K. rewrite Ha in K. cbn [andb app] in K.
  rewrite app_assoc in K. destruct (lst_grant _ _ n (w_request w) _ K N1 N2 Hr) as (G1 & G2 & G3 & G4). fold s' in G1, G2, G3, G4. destruct (idle_scratch _ _ _ K N1) as [_ Kn].
  assert (Hsame : ∀ p, p ∈ P ++ L ++ R → fls s' p = fls (w_st w) p).
  { intros p Hp. apply G3. intros ->. by rewrite app_assoc in Hp. }
  split; [|done]. split.
  - by rewrite <- !app_assoc in G1.
  - by apply (group_ext _ _ _ (fls (w_st w))).
  - split; [|done]. by apply G3.
  - intros p Hp. apply list_elem_of_singleton in Hp as ->. rewrite G2. fold (req w). split_and!; [apply G|apply G|done..].
  - right. split; [by eexists|]. apply Z.eqb_neq in Hu. tauto.
  - intros p Hp. destruct (HI p Hp). by apply G4.
Qed.

(** A lock on the list is changed and its waiters are woken. *)
Lemma change_lst K p f s :
  lst K s → p ∈ K →
  let s' := locks_wake_up_blocks p (upd p f s) in
  lst K s' ∧ fls s' p = f (fls s p) ∧ (∀ q, q ≠ p → fls s' q = fls s q) ∧ ∀ q, idle s q → idle s' q.
Proof.
  intros HK Hp s'. pose proof (lst_upd K p f s HK (lst_scratch _ _ _ HK Hp)) as H1.
  destruct (wake_up_ok p (upd p f s)) as [R _]; [apply H1|]. destruct (rl_same _ _ R) as (E & _). fold s' in R, E. split_and!.
  - by apply (lst_released _ _ _ H1).
  - rewrite E. cbn. by rewrite fn_lookup_insert.
  - intros q Hq. rewrite E. cbn. by rewrite fn_lookup_insert_ne.
  - intros q Iq. apply (released_idle _ _ _ R). by apply fields_idle.
Qed.

Lemma change_ready P L N R rq r I s p f :
  ready P L N R rq r I s → p ∈ L ++ R →
  fl_owner (f (fls s p)) = fl_owner (fls s p) → fl_type (f (fls s p)) = fl_type (fls s p) →
  fl_start (fls s p) ≤ fl_start (f (fls s p)) ≤ fl_end (f (fls s p)) → fl_end (f (fls s p)) ≤ fl_end (fls s p) →
  (∀ b, inside (fls s p) b → ¬ inside r b → inside (f (fls s p)) b) →
  let s' := locks_wake_up_blocks p (upd p f s) in
  ready P L N R rq r I s' ∧ fls s' p = f (fls s p) ∧ ∀ q, q ≠ p → fls s' q = fls s q.
Proof.
  intros [H1 H2 H3 H4 H5 H6] Hp F1 F2 F3 F4 F5 s'.
  pose proof (lst_nodup _ _ H1) as D.
  assert (HpK : p ∈ P ++ L ++ N ++ R) by (rewrite !elem_of_app in *; tauto).
  destruct (change_lst _ p f s H1 HpK) as (C1 & C2 & C3 & C4). fold s' in C1, C2, C3, C4.
  apply list.NoDup_app in D as (_ & DP & (_ & DL & (_ & DN & _)%list.NoDup_app)%list.NoDup_app).
  assert (HN : ∀ q, q ∈ N → q ≠ p).
  { intros q Hq ->. apply elem_of_app in Hp as [Hp|Hp]; [apply (DL p Hp), elem_of_app; by left|by apply (DN p)]. }
  split_and!; [|done|done]. split; [done| | | |done|auto].
  - apply (group_shrink _ _ _ (fls s)); [| |done].
    + intros q Hq. apply C3. intros ->. apply (DP p Hq). rewrite !elem_of_app in *. tauto.
    + intros q Hq. destruct (decide (q = p)) as [->|Hne].
      * rewrite C2. auto.
      * rewrite C3 by done. destruct (gr_locks _ _ _ _ _ _ _ _ H2 q Hq) as (_ & V & _). split_and!; [done|done|lia|lia|lia|tauto].
  - split; [|apply H3]. rewrite C3; [apply H3|]. intros <-. apply H3. rewrite !elem_of_app in *. tauto.
  - intros q Hq. rewrite C3 by (by apply HN). by apply H4.
Qed.

Lemma ready_range P L N R rq r I s :
  ready P L N R rq r I s → 0 ≤ fl_start r ≤ fl_end r ∧ fl_end r ≤ OFFSET_MAX ∧
  (∀ p, p ∈ L ++ R → 0 ≤ fl_start (fls s p) ≤ fl_end (fls s p) ∧ fl_end (fls s p) ≤ OFFSET_MAX) ∧ (∀ p, p ∈ L → p ∉ R).
Proof.
  intros [H1 H2 H3 H4 H5 H6]. pose proof (gr_range _ _ _ _ _ _ _ _ H2) as [? ?]. split; [done|]. split; [done|]. split.
  - intros p Hp. destruct (gr_locks _ _ _ _ _ _ _ _ H2 p) as (_ & V1 & V2 & _); [rewrite elem_of_app; tauto|done].
  - pose proof (lst_nodup _ _ H1) as D. apply list.NoDup_app in D as (_ & _ & (_ & D & _)%list.NoDup_app).
    intros p Hp Hr. apply (D p Hp), elem_of_app. by right.
Qed.

Lemma trim_left P L N R rq r I s lf :
  ready P L N R rq r I s → L = (if lf =? 0 then [] else [lf]) →
  (∀ p, p ∈ L → fl_start (fls s p) < fl_start r ≤ fl_end (fls s p) ∧ fl_end (fls s p) ≤ fl_end r ∧ fl_type (fls s p) ≠ t) →
  let s' := if negb (lf =? 0) then locks_wake_up_blocks lf (upd lf (set_end (s64 (fl_start (fls s rq) - 1))) s) else s in
  ready P L N R rq r I s' ∧ (∀ p, p ∈ L → fl_end (fls s' p) < fl_start r ∧ fl_type (fls s' p) ≠ t) ∧ ∀ p, p ∈ R → fls s' p = fls s p.
Proof.
  intros D EL HL. destruct (ready_range _ _ _ _ _ _ _ _ D) as (R1 & R2 & R3 & R4). rewrite (proj1 (rd_req _ _ _ _ _ _ _ _ D)).
  destruct (lf =? 0) eqn:E0; cbn [negb].
  { split_and!; [done| |done]. intros p Hp. rewrite EL in Hp. by apply elem_of_nil in Hp. }
  assert (Hin : lf ∈ L) by (rewrite EL; by apply list_elem_of_singleton).
  destruct (HL lf Hin) as (B1 & B2 & B3). rewrite s64_pred by lia. 
  destruct (change_ready P L N R rq r I s lf (set_end (fl_start r - 1)) D) as (C1 & C2 & C3).
  all: cbn [set_end fl_owner fl_type fl_start fl_end inside]; try done; try lia.
  { apply elem_of_app. by left. }
  { unfold inside. cbn [set_end fl_start fl_end]. lia. }
  split_and!; [done| |].
  - intros p Hp. rewrite EL in Hp. apply list_elem_of_singleton in Hp as ->. rewrite C2. cbn. split; [lia|done].
  - intros p Hp. apply C3. intros ->. by apply (R4 lf).
Qed.

Lemma trim_right P L N f R rq r I s :
  ready P L N (f :: R) rq r I s → fl_start r ≤ fl_start (fls s f) ≤ fl_end r → fl_end r < fl_end (fls s f) → fl_type (fls s f) ≠ t →
  let s' := locks_wake_up_blocks f (upd f (set_start (s64 (fl_end (fls s rq) + 1))) s) in
  ready P L N (f :: R) rq r I s' ∧ (∀ p, p ∈ f :: R → follows t (fls s' p) r) ∧ ∀ p, p ∈ L → fls s' p = fls s p.
Proof.
  intros D HF HF2 Ht. destruct (ready_range _ _ _ _ _ _ _ _ D) as (R1 & R2 & R3 & R4). rewrite (proj1 (rd_req _ _ _ _ _ _ _ _ D)).
  assert (Hin : f ∈ L ++ f :: R) by (rewrite elem_of_app, elem_of_cons; tauto).
  specialize (R3 f Hin) as R3f. rewrite s64_succ by lia.
  destruct (change_ready P L N (f :: R) rq r I s f (set_start (fl_end r + 1)) D) as (C1 & C2 & C3).
  all: cbn [set_start fl_owner fl_type fl_start fl_end]; try done; try lia.
  { unfold inside. cbn [set_start fl_start fl_end]. lia. }
  destruct (group_less _ _ _ _ _ _ _ _ _ (rd_group _ _ _ _ _ _ _ _ D)) as (_ & _ & _ & Ha & _).
  split_and!; [done| |].
  - intros p [->|Hp]%elem_of_cons.
    + rewrite C2. split; cbn; [lia|congruence].
    + destruct (decide (p = f)) as [->|Hne].
      { destruct (Ha f Hp). lia. }
      rewrite C3 by done. destruct (Ha p Hp). split; lia.
  - intros p Hp. apply C3. intros ->. apply (R4 f Hp), elem_of_cons. by left.
Qed.

(** The lock [f] is on both sides of the request; [n] takes its lower part. *)
Lemma split_ready P N f R rq r I s n :
  ready P [] N (f :: R) rq r (n :: I) s → n ∉ I → n ≠ 0 → n ≠ rq →
  fl_start (fls s f) < fl_start r → fl_end r < fl_end (fls s f) → fl_type (fls s f) ≠ t →
  let s1 := locks_insert_lock_ctx n (head ((N ++ f :: R) ++ B)) (locks_copy_lock n f s) in
  let s2 := locks_wake_up_blocks f (upd f (set_start (s64 (fl_end (fls s1 rq) + 1))) s1) in
  let s3 := locks_wake_up_blocks n (upd n (set_end (s64 (fl_start (fls s2 rq) - 1))) s2) in
  ready P [n] N (f :: R) rq r I s3 ∧ fl_end (fls s3 n) < fl_start r ∧ fl_type (fls s3 n) ≠ t ∧ ∀ p, p ∈ f :: R → follows t (fls s3 p) r.
Proof.
  intros D HnI Hn0 Hnq Hs He Ht s1 s2 s3. destruct (ready_range _ _ _ _ _ _ _ _ D) as (R1 & R2 & R3 & _).
  specialize (R3 f ltac:(apply elem_of_cons; by left)) as R3f. destruct D as [H1 H2 H3 H4 H5 H6]. cbn [app] in H1, H2, H3.
  pose proof (H6 n ltac:(apply elem_of_cons; by left)) as In. destruct (idle_scratch _ _ _ H1 In) as [Sn Kn].
  destruct (group_less _ _ _ _ _ _ _ _ _ H2) as (_ & _ & _ & Ha & Ho & _).
  assert (Hnf : n ≠ f) by (intros ->; apply Kn; rewrite !elem_of_app, elem_of_cons; tauto).
  assert (Hqf : rq ≠ f) by (intros ->; apply H3; rewrite elem_of_app, elem_of_cons; tauto).
  destruct (copy_lock_spec n f s Hnf) as [C1 C2].
  destruct (lst_insert P (N ++ f :: R) n (locks_copy_lock n f s)) as (L1 & E1 & I1).
  { apply (lst_upd _ n); [|done]. by apply (lst_upd _ n). }
  1-2: apply In.
  { apply In. }
  { done. }
  fold s1 in L1, E1, I1.
  destruct (change_lst _ f (set_start (s64 (fl_end (fls s1 rq) + 1))) s1 L1) as (L2 & F2 & E2 & I2); [rewrite !elem_of_app, elem_of_cons, elem_of_app, elem_of_cons; tauto|]. fold s2 in L2, F2, E2, I2.
  destruct (change_lst _ n (set_end (s64 (fl_start (fls s2 rq) - 1))) s2 L2) as (L3 & F3 & E3 & I3); [rewrite !elem_of_app, elem_of_cons; tauto|]. fold s3 in L3, F3, E3, I3.
  assert (Eq : fls s1 rq = r) by (rewrite E1, C2 by done; apply H3).
  rewrite (E2 rq Hqf), Eq, s64_pred, (E2 n Hnf), E1, C1 in F3 by lia.
  rewrite Eq, s64_succ, E1, (C2 f ltac:(done)) in F2 by lia.
  assert (Ef : fls s3 f = set_start (fl_end r + 1) (fls s f)) by (by rewrite E3).
  assert (Es : ∀ p, p ≠ n → p ≠ f → fls s3 p = fls s p) by (intros p P1 P2; rewrite E3, E2, E1, C2 by done; done).
  assert (Hmem : ∀ p, p ∈ P ++ N ++ R → p ≠ n ∧ p ≠ f).
  { pose proof (lst_nodup _ _ H1) as D. cbn [app] in D. rewrite app_assoc in D. intros p Hp. split; intros ->; [apply Kn; rewrite !elem_of_app, elem_of_cons in *; tauto|].
    apply list.NoDup_app in D as (_ & D1 & [D2 _]%list.NoDup_cons). rewrite app_assoc, elem_of_app in Hp. destruct Hp as [Hp|Hp]; [|done].
    apply (D1 f Hp), elem_of_cons. by left. }
  split_and!.
  - split; [done| | | |done|].
    + apply (group_split o t target (fls s) (fls s3) P f R n r); rewrite ?F3, ?Ef; cbn [set_start set_end fl_owner fl_type fl_start fl_end]; try done.
      intros p Hp. apply Es; apply Hmem; rewrite !elem_of_app in *; tauto.
    + split; [rewrite Es by done; apply H3|]. cbn [app]. rewrite !elem_of_app, !elem_of_cons in *. intuition congruence.
    + intros p Hp. rewrite Es by (apply Hmem; rewrite !elem_of_app; tauto). by apply H4.
    + intros p Hp. apply I3, I2, I1; [by intros ->|]. assert (Ip : idle s p) by (apply H6, elem_of_cons; by right). by destruct Ip; split.
  - rewrite F3. cbn. lia.
  - by rewrite F3.
  - intros p [->|Hp]%elem_of_cons.
    + rewrite Ef. split; cbn; [lia|congruence].
    + rewrite Es by (apply Hmem; rewrite !elem_of_app; tauto). destruct (Ha p Hp). split; lia.
Qed.

(** The second half of [finish], once the request is on the list. *)
Definition finish_tail (fl : option Z) (w : walk) (s : lock_state) (new_fl : option Z) : Z * lock_state * option Z * option Z :=
  let '(s, lft, new_fl2) :=
    if negb (w_right w =? 0) then
      let '(s, lft, new_fl2) :=
        match new2 with
        | Some n => if w_left w =? w_right w
                    then (locks_insert_lock_ctx n fl (locks_copy_lock n (w_right w) s), n, None)
                    else (s, w_left w, new2)
        | None => (s, w_left w, new2)
        end in
      let s := upd (w_right w) (set_start (s64 (fl_end (fls s (w_request w)) + 1))) s in
      (locks_wake_up_blocks (w_right w) s, lft, new_fl2)
    else (s, w_left w, new2) in
  let s := if negb (lft =? 0)
           then locks_wake_up_blocks lft (upd lft (set_end (s64 (fl_start (fls s (w_request w)) - 1))) s) else s in
  (0, s, new_fl, new_fl2).

(** [finish] either gives up with nothing changed or goes on to its second half. *)
Lemma finish_cases fl w (Hr : fl_type (req w) = t) :
  finish fl w new2 =
    if negb (w_right w =? 0) && (w_left w =? w_right w) && bool_decide (new2 = None) then (- ENOLCK, w_st w, w_new w, new2)
    else if w_added w then finish_tail fl w (w_st w) (w_new w)
    else if t =? F_UNLCK then (if flag (fl_flags (req w)) FL_EXISTS then - ENOENT else 0, w_st w, w_new w, new2)
    else match w_new w with
         | None => (- ENOLCK, w_st w, None, new2)
         | Some n => finish_tail (Some n) w (locks_insert_lock_ctx n fl (locks_move_blocks n (w_request w) (locks_copy_lock n (w_request w) (w_st w)))) None
         end.
Proof.
  unfold finish. fold (req w). rewrite Hr. destruct (_ && _ && _); [done|].
  destruct (w_added w); cbn [negb andb]; [done|]. destruct (t =? F_UNLCK); [done|]. by destruct (w_new w).
Qed.

(** A lock structure is needed and there is none. *)
Definition no_memory : Prop :=
  new0 = None ∧ t ≠ F_UNLCK ∨ new2 = None ∧ 0 < fl_start (fls s0 q0).

Definition finish_post (w : walk) (res : Z * lock_state * option Z * option Z) : Prop :=
  let '(e, s', n1, n2) := res in
  release s' n1 n2 (w_dispose w) = Ok () ∧
  (e = 0 ∧ settled s' ∨
   e = - ENOLCK ∧ s' = s0 ∧ no_memory ∨
   e = - ENOENT ∧ s' = s0 ∧ settled s' ∧ t = F_UNLCK ∧ flag (fl_flags (fls s0 q0)) FL_EXISTS = true).

(** The locks to free at the end. *)
Definition spares (w : walk) (n1 n2 : option Z) : list Z := option_list n1 ++ option_list n2 ++ w_dispose w.

Lemma release_spares s w n1 n2 :
  links_ok s → (∀ p, p ∈ spares w n1 n2 → idle s p) → release s n1 n2 (w_dispose w) = Ok ().
Proof.
  intros L H. unfold spares in H. apply release_ok; [done|..]; intros p Hp; apply H; rewrite !elem_of_app.
  - subst n1. left. by apply list_elem_of_singleton.
  - subst n2. right. left. by apply list_elem_of_singleton.
  - tauto.
Qed.

Lemma settle_post P L N R rq r n1 n2 w s :
  ready P L N R rq r (spares w n1 n2) s → (∀ p, p ∈ L → fl_end (fls s p) < fl_start r ∧ fl_type (fls s p) ≠ t) →
  (∀ p, p ∈ R → follows t (fls s p) r) → finish_post w (0, s, n1, n2).
Proof.
  intros D HL HR. split; [|left; split; [done|by apply (ready_settled P L N R rq r (spares w n1 n2))]].
  apply release_spares; [apply D|apply D].
Qed.

(** No lock extends beyond the request. *)
Lemma tail_end P L N R w s n1 fl :
  ready P L N R (w_request w) (req w) (spares w n1 new2) s →
  w_right w = 0 → L = (if w_left w =? 0 then [] else [w_left w]) →
  (∀ p, p ∈ L → fl_start (fls s p) < fl_start (req w) ≤ fl_end (fls s p) ∧ fl_end (fls s p) ≤ fl_end (req w) ∧ fl_type (fls s p) ≠ t) →
  (∀ p, p ∈ R → follows t (fls s p) (req w)) →
  finish_post w (finish_tail fl w s n1).
Proof.
  intros D Hr EL HL HR. unfold finish_tail. rewrite Hr. cbn [Z.eqb negb].
  destruct (trim_left _ _ _ _ _ _ _ _ _ D EL HL) as (T1 & T2 & T3).
  apply (settle_post P L N R (w_request w) (req w)); [done|done|]. intros p Hp. rewrite T3 by done. by apply HR.
Qed.

(** [f] starts within the request and ends after it. *)
Lemma tail_right P L N f R w s n1 fl :
  ready P L N (f :: R) (w_request w) (req w) (spares w n1 new2) s →
  w_right w = f → f ≠ 0 → L = (if w_left w =? 0 then [] else [w_left w]) →
  (∀ p, p ∈ L → fl_start (fls s p) < fl_start (req w) ≤ fl_end (fls s p) ∧ fl_end (fls s p) ≤ fl_end (req w) ∧ fl_type (fls s p) ≠ t) →
  fl_start (req w) ≤ fl_start (fls s f) ≤ fl_end (req w) → fl_end (req w) < fl_end (fls s f) → fl_type (fls s f) ≠ t →
  finish_post w (finish_tail fl w s n1).
Proof.
  intros D Hr Hf EL HL F1 F2 F3. unfold finish_tail. rewrite Hr. apply Z.eqb_neq in Hf as Ef. rewrite Ef. cbn [negb].
  assert (Hlr : (w_left w =? f) = false).
  { apply Z.eqb_neq. intros E. destruct (ready_range _ _ _ _ _ _ _ _ D) as (_ & _ & _ & R4). apply (R4 f); [|apply elem_of_cons; by left].
    rewrite EL, E, Ef. by apply list_elem_of_singleton. }
  rewrite Hlr. destruct (trim_right _ _ _ _ _ _ _ _ _ D F1 F2 F3) as (T1 & T2 & T3).
  destruct (trim_left _ _ _ _ _ _ _ _ _ T1 EL) as (U1 & U2 & U3).
  { intros p Hp. rewrite T3 by done. by apply HL. }
  destruct new2; (apply (settle_post P L N (f :: R) (w_request w) (req w)); [done|done|]; intros p Hp; rewrite U3 by done; by apply T2).
Qed.

(** [f] is on both sides of the request. *)
Lemma tail_split P N f R w s n1 n :
  ready P [] N (f :: R) (w_request w) (req w) (n :: spares w n1 None) s →
  new2 = Some n → n ∉ spares w n1 None → n ≠ 0 → n ≠ w_request w →
  w_right w = f → w_left w = f → f ≠ 0 →
  fl_start (fls s f) < fl_start (req w) → fl_end (req w) < fl_end (fls s f) → fl_type (fls s f) ≠ t →
  finish_post w (finish_tail (head ((N ++ f :: R) ++ B)) w s n1).
Proof.
  intros D E2 Hn Hn0 Hnq Hr Hl Hf F1 F2 F3. unfold finish_tail. rewrite Hr, Hl, E2, Z.eqb_refl. apply Z.eqb_neq in Hf as Ef. rewrite Ef.
  apply Z.eqb_neq in Hn0 as En. cbn [negb]. rewrite En. cbn [negb].
  destruct (split_ready _ _ _ _ _ _ _ _ _ D Hn Hn0 Hnq F1 F2 F3) as (T1 & T2 & T3 & T4).
  apply (settle_post P [n] N (f :: R) (w_request w) (req w)); [done| |done].
  intros p Hp. by apply list_elem_of_singleton in Hp as ->.
Qed.

Context (Hnew2 : ∀ n, new2 = Some n → n ≠ 0 ∧ n ≠ q0).

Lemma spares_idle P L R w n1 n2 :
  winv P L R w → (n1 = w_new w ∨ n1 = None) → (n2 = new2 ∨ n2 = None) → ∀ p, p ∈ spares w n1 n2 → idle (w_st w) p.
Proof.
  intros W H1 H2 p. unfold spares. rewrite !elem_of_app. intros [Hp|[Hp|Hp]].
  - destruct H1 as [-> | ->]; [|by apply elem_of_nil in Hp]. destruct (w_new w) as [n|] eqn:E; [|by apply elem_of_nil in Hp].
    apply list_elem_of_singleton in Hp as ->. by apply (wi_new _ _ _ _ W n).
  - destruct H2 as [-> | ->]; [|by apply elem_of_nil in Hp]. destruct new2 as [n|] eqn:E; [|by apply elem_of_nil in Hp].
    apply list_elem_of_singleton in Hp as ->. apply (wi_idle _ _ _ _ W). by right.
  - apply (wi_idle _ _ _ _ W). by left.
Qed.

Lemma grant_idle P L R w n :
  winv P L R w → w_new w = Some n → ∀ p, p ∈ spares w None new2 → idle (w_st w) p ∧ p ≠ n.
Proof.
  intros W Hn p Hp. split; [by apply (spares_idle _ _ _ _ _ _ W (or_intror eq_refl) (or_introl eq_refl))|].
  destruct (wi_new _ _ _ _ W n Hn) as (_ & _ & _ & N4 & N5). intros ->. unfold spares in Hp.
  rewrite !elem_of_app in Hp. destruct Hp as [Hp|[Hp|Hp]]; [by apply elem_of_nil in Hp| |done]. destruct new2 as [m|]; [|by apply elem_of_nil in Hp].
  apply list_elem_of_singleton in Hp as ->. done.
Qed.

(** Nothing is changed and the spare locks are freed. *)
Lemma unchanged_post P L R w e n1 :
  winv P L R w → w_added w = false → n1 = w_new w ∨ n1 = None →
  (e = - ENOLCK ∧ no_memory ∨ settled s0 ∧ (e = 0 ∨ e = - ENOENT ∧ t = F_UNLCK ∧ flag (fl_flags (req w)) FL_EXISTS = true)) →
  finish_post w (e, w_st w, n1, new2).
Proof.
  intros W Ha H1 He. destruct (wi_start _ _ _ _ W Ha) as (Es & Eq & _). split.
  - apply release_spares; [apply (wi_lst _ _ _ _ W)|]. apply (spares_idle _ _ _ _ _ _ W); [done|by left].
  - rewrite Es. unfold req in He. rewrite Es, Eq in He. tauto.
Qed.

Lemma finish_at_end P L R w :
  winv P L R w → (∀ p, p ∈ R → follows t (fls (w_st w) p) (req w)) → finish_post w (finish (head (R ++ B)) w new2).
Proof using Htype Hnew2.
  intros W HR. rewrite finish_cases by apply (wi_group _ _ _ _ W). rewrite (wi_right _ _ _ _ W). cbn [Z.eqb negb andb].
  destruct (w_added w) eqn:Ha.
  { apply (tail_end P L (reqs w) R); try apply W; [|done]. apply ready_added; [done|by destruct (_ =? _)|].
    apply (spares_idle _ _ _ _ _ _ W); by left. }
  destruct (t =? F_UNLCK) eqn:Eu.
  - apply (unchanged_post P L R); [done|done|by left|]. right. destruct (wi_start _ _ _ _ W Ha) as (Es & Eq & _). apply Z.eqb_eq in Eu as Et. split.
    + rewrite <- Es. apply (ready_settled P L (reqs w) R (w_request w) (req w) []); [|..|done].
      * apply ready_added; [done|by rewrite Eu|]. intros p Hp. by apply elem_of_nil in Hp.
      * rewrite (proj2 (wi_L _ _ _ _ W) Et Ha). intros p Hp. by apply elem_of_nil in Hp.
    + destruct (flag _ _) eqn:Ef; auto.
  - destruct (w_new w) as [n|] eqn:En.
    + destruct (ready_grant P L R w n (spares w None new2) W Ha Eu En) as [D E]; [by apply (grant_idle P L R)|].
      apply (tail_end P L [n] R); try apply W; [done| |].
      * intros p Hp. rewrite E by (rewrite !elem_of_app; tauto). by apply W.
      * intros p Hp. rewrite E by (rewrite !elem_of_app; tauto). by apply HR.
    + apply (unchanged_post P L R); [done|done|by right|]. left. destruct (wi_start _ _ _ _ W Ha) as (_ & _ & _ & E). apply Z.eqb_neq in Eu. split; [done|left; split; congruence].
Qed.

(** The walk ended at a lock that ends after the request and starts within it. *)
Lemma finish_at_right P L f R w w' :
  winv P L (f :: R) w → fl_type (fls (w_st w) f) ≠ t → fl_end (req w) < fl_end (fls (w_st w) f) →
  fl_start (req w) ≤ fl_start (fls (w_st w) f) ≤ fl_end (req w) →
  w' = MkWalk (w_st w) (w_request w) (w_new w) (if t =? F_UNLCK then true else w_added w) (w_left w) f (w_dispose w) →
  finish_post w' (finish (Some f) w' new2).
Proof using Htype Hnew2.
  intros W Ft Fe Fs E'. destruct (winv_current _ _ _ _ _ W) as (_ & _ & _ & Hf0 & _ & Hfn & _). pose proof (proj1 (wi_L _ _ _ _ W)) as EL.
  assert (Hne : (w_left w =? f) = false).
  { apply Z.eqb_neq. intros E. apply Z.eqb_neq in Hf0 as E0. rewrite E, E0 in EL. apply Hfn. rewrite EL, !elem_of_app, list_elem_of_singleton. tauto. }
  rewrite finish_cases by (rewrite E'; apply (wi_group _ _ _ _ W)). rewrite E'. cbn [w_st w_request w_new w_left w_right w_dispose w_added].
  rewrite Hne, andb_false_r. cbn [andb]. rewrite <- E'.
  destruct (if t =? F_UNLCK then true else w_added w) eqn:Ea.
  { pose proof (ready_added P L (f :: R) w (spares w (w_new w) new2) W Ea (spares_idle _ _ _ _ _ _ W (or_introl eq_refl) (or_introl eq_refl))) as D.
    apply (tail_right P L (reqs w) f R); rewrite ?E'; try done. apply W. }
  destruct (t =? F_UNLCK) eqn:Eu; [done|]. destruct (w_new w) as [n|] eqn:En.
  - destruct (ready_grant P L (f :: R) w n (spares w None new2) W Ea Eu En) as [D E]; [by apply (grant_idle P L (f :: R))|].
    assert (Ef := E f ltac:(rewrite !elem_of_app, elem_of_cons; tauto)). cbn [app head] in *.
    apply (tail_right P L [n] f R); rewrite ?E'; cbn [w_st w_request w_new w_left w_right w_dispose w_added]; rewrite ?Ef; try done.
    intros p Hp. rewrite E by (rewrite !elem_of_app; tauto). by apply W.
  - assert (U := unchanged_post P L (f :: R) w (- ENOLCK) None W Ea (or_intror eq_refl)).
    destruct (wi_start _ _ _ _ W Ea) as (_ & _ & _ & E). apply Z.eqb_neq in Eu. rewrite E'. apply U. left. split; [done|left; split; congruence].
Qed.

(** ... and starts before it. *)
Lemma finish_at_both P L f R w w' :
  winv P L (f :: R) w → fl_type (fls (w_st w) f) ≠ t → fl_end (req w) < fl_end (fls (w_st w) f) →
  fl_start (fls (w_st w) f) < fl_start (req w) →
  w' = MkWalk (w_st w) (w_request w) (w_new w) (if t =? F_UNLCK then true else w_added w) f f (w_dispose w) →
  finish_post w' (finish (Some f) w' new2).
Proof using Htype Hnew2.
  intros W Ft Fe Fs E'. destruct (winv_fresh _ _ _ _ _ W) as [EL Ha]; [lia|]. rewrite EL in W. destruct (wi_start _ _ _ _ W Ha) as (Es & Eq & Ed & En0).
  destruct (winv_current _ _ _ _ _ W) as (_ & (Hv & _) & _ & Hf0 & _). apply Z.eqb_neq in Hf0 as E0.
  rewrite finish_cases by (rewrite E'; apply (wi_group _ _ _ _ W)). rewrite E'. cbn [w_st w_request w_new w_left w_right w_dispose w_added].
  rewrite Z.eqb_refl, E0, Ha. cbn [andb negb]. rewrite Ha, <- E' in *.
  case_bool_decide as E2.
  { rewrite E'. apply (unchanged_post P [] (f :: R) w _ (w_new w)); [done|done|by left|]. left. split; [done|]. right. split; [done|].
    unfold req in Fs. rewrite Es, Eq in Fs. rewrite Es in Hv. lia. }
  apply not_eq_None_Some in E2 as [n2 E2]. destruct (Hnew2 n2 E2) as [Hn0 Hnq].
  assert (Hsp : ∀ n1, (n1 = w_new w ∨ n1 = None) → n2 ∉ spares w n1 None).
  { intros n1 H1. unfold spares. rewrite Ed, !elem_of_app. intros [H|[H|H]]; [|by apply elem_of_nil in H..].
    destruct n1 as [n|]; [|by apply elem_of_nil in H]. apply list_elem_of_singleton in H as ->. destruct H1 as [H1|H1]; [|done].
    symmetry in H1. by apply (wi_new _ _ _ _ W n H1). }
  assert (Hid : ∀ n1 p, p ∈ n2 :: spares w n1 None → p ∈ spares w n1 new2).
  { intros n1 p. unfold spares. rewrite E2, elem_of_cons, !elem_of_app. intros [->|[H|[H|H]]]; [|tauto|by apply elem_of_nil in H|tauto].
    right. left. by apply list_elem_of_singleton. }
  destruct (t =? F_UNLCK) eqn:Eu.
  - pose proof (ready_added P [] (f :: R) w (n2 :: spares w (w_new w) None) W) as D. rewrite Eu in D.
    assert (EN : reqs w = []) by (unfold reqs; by rewrite Ha). rewrite EN in D.
    apply (tail_split P [] f R w' (w_st w) (w_new w) n2); rewrite ?E'; try done; [..|by apply Hsp, or_introl|cbn [w_request]; congruence].
    apply D; [done|]. intros p Hp. apply (spares_idle _ _ _ _ _ _ W (or_introl eq_refl) (or_introl eq_refl)). by apply Hid.
  - destruct (w_new w) as [n|] eqn:En.
    + destruct (ready_grant P [] (f :: R) w n (n2 :: spares w None None) W Ha Eu En) as [D E].
      { intros p Hp. apply (grant_idle P [] (f :: R)); [done|done|]. by apply Hid. }
      assert (Ef := E f ltac:(rewrite !elem_of_app, elem_of_cons; tauto)). cbn [app head] in D, Ef.
      apply (tail_split P [n] f R w' _ None n2); rewrite ?E'; cbn [w_st w_request w_new w_left w_right w_dispose w_added]; rewrite ?Ef; try done;
      first [exact D|exact Fs|exact Fe|exact Ft|congruence|by apply Hsp, or_intror].
    + rewrite E'. apply Z.eqb_neq in Eu. apply (unchanged_post P [] (f :: R) w _ None); [done|done|by right|]. left. split; [done|left; split; congruence].
Qed.

Lemma finish_ok fl w : walk_post (WalkEnd fl w) → finish_post w (finish fl w new2).
Proof using Htype Hnew2.
  intros [(P & L & R & W & HR & ->)|(P & L & f & R & w0 & W & F1 & F2 & F3 & -> & E)]; [by apply (finish_at_end P L)|].
  destruct (Z.ltb_spec (fl_start (fls (w_st w0) f)) (fl_start (req w0))).
  - apply (finish_at_both P L f R w0); [done|done|lia|done|done].
  - apply (finish_at_right P L f R w0); [done|done|lia|lia|done].
Qed.

End Walk.

End FileLocksWalk.
