(* ===== verification/FileLocksPosix.v ===== *)
(** * File locks: POSIX locks of a file

    The invariant of a file's POSIX locks, what they mean byte by byte, and
    what [posix_lock_inode] does to them. *)

From stdpp Require Import base numbers list option sets functions.
From Stdlib Require Import ZArith Lia.
From S2P Require Import Prelude FileLocks FileLocksSpec FileLocksGroup FileLocksWalk.

Open Scope Z_scope.

Module FileLocksPosix.
Import FileLocks FileLocksSpec FileLocksGroup FileLocksWalk.

(** The owner [o] has byte [b] locked with type [ty]. *)
Definition locked (s : lock_state) (o b ty : Z) : Prop :=
  ∃ p, p ∈ flc_posix s ∧ fl_owner (fls s p) = o ∧ inside (fls s p) b ∧ fl_type (fls s p) = ty.

(** The locks are grouped by owner, the locks of an owner are in order and
    never adjacent with the same type, and owners that have a byte in common
    all read. *)
Record posix_wf (s : lock_state) : Prop := PosixWf {
  pw_links : links_ok s;
  pw_forest : forest s;
  pw_nodup : NoDup (flc_posix s);
  pw_groups : ∃ gs : list (Z * list Z), NoDup gs.*1 ∧ flc_posix s = concat gs.*2 ∧
    ∀ o g, (o, g) ∈ gs → (∀ p, p ∈ g → fl_owner (fls s p) = o ∧ valid_lock (fls s p)) ∧ ordered (fls s) g;
  pw_shared o1 o2 b t1 t2 : o1 ≠ o2 → locked s o1 b t1 → locked s o2 b t2 → t1 = F_RDLCK ∧ t2 = F_RDLCK }.

(** What a granted request makes of the locks. *)
Definition granted_locks (r : file_lock) (lk : Z → Z → Z → Prop) (o b ty : Z) : Prop :=
  (o = fl_owner r ∧ inside r b ∧ ty = fl_type r ∧ fl_type r ≠ F_UNLCK) ∨
  (¬ (o = fl_owner r ∧ inside r b) ∧ lk o b ty).

(** Another owner has a byte of the request and one of the two writes. *)
Definition conflicting (r : file_lock) (lk : Z → Z → Z → Prop) : Prop :=
  fl_type r ≠ F_UNLCK ∧ ∃ o b ty, o ≠ fl_owner r ∧ inside r b ∧ lk o b ty ∧ (ty = F_WRLCK ∨ fl_type r = F_WRLCK).

(** ** Groups *)

Lemma groups_owner s gs p :
  (∀ o g, (o, g) ∈ gs → (∀ p, p ∈ g → fl_owner (fls s p) = o ∧ valid_lock (fls s p)) ∧ ordered (fls s) g) →
  p ∈ concat gs.*2 → ∃ g', (fl_owner (fls s p), g') ∈ gs ∧ p ∈ g' ∧ valid_lock (fls s p).
Proof.
  intros Hg Hp. apply list_elem_of_In, in_concat in Hp as (g' & Hg'%list_elem_of_In & Hp%list_elem_of_In).
  apply list_elem_of_fmap in Hg' as ([o' g''] & -> & Hin). cbn in Hp. exists g''.
  destruct (Hg o' g'' Hin) as [H _]. destruct (H p Hp) as [-> Hv]. done.
Qed.

(** The group of the owner, at the end when the owner has no locks. *)
Lemma groups_split s o :
  posix_wf s →
  ∃ gs1 G gs2, NoDup (gs1 ++ (o, G) :: gs2).*1 ∧ flc_posix s = concat gs1.*2 ++ G ++ concat gs2.*2 ∧ (G = [] → gs2 = []) ∧
    ∀ o' g, (o', g) ∈ gs1 ++ (o, G) :: gs2 → (∀ p, p ∈ g → fl_owner (fls s p) = o' ∧ valid_lock (fls s p)) ∧ ordered (fls s) g.
Proof.
  intros W. destruct (pw_groups s W) as (gs & Hnd & Hl & Hg).
  assert (Hempty : ∀ gs', NoDup gs'.*1 → o ∉ gs'.*1 → flc_posix s = concat gs'.*2 → (∀ x, x ∈ gs' → x ∈ gs) →
    ∃ gs1 G gs2, NoDup (gs1 ++ (o, G) :: gs2).*1 ∧ flc_posix s = concat gs1.*2 ++ G ++ concat gs2.*2 ∧ (G = [] → gs2 = []) ∧
    ∀ o' g, (o', g) ∈ gs1 ++ (o, G) :: gs2 → (∀ p, p ∈ g → fl_owner (fls s p) = o' ∧ valid_lock (fls s p)) ∧ ordered (fls s) g).
  { intros gs' Hnd' Ho Hl' Hsub. exists gs', [], []. split_and!; [|by rewrite !app_nil_r|done|].
    - rewrite fmap_app. apply list.NoDup_app. split_and!; [done| |apply NoDup_singleton]. intros x Hx ->%list_elem_of_singleton. done.
    - intros o' g [H|[= -> ->]%list_elem_of_singleton]%elem_of_app; [by apply Hg, Hsub|]. split; [|done].
      intros p Hp. by apply elem_of_nil in Hp. }
  destruct (decide (o ∈ gs.*1)) as [([o' g] & E & Hin)%list_elem_of_fmap|Hn]; [|by apply (Hempty gs)].
  cbn in E. subst o'. apply list_elem_of_split in Hin as (gs1 & gs2 & ->). destruct g as [|p g].
  - rewrite fmap_app, fmap_cons in Hnd. rewrite fmap_app, fmap_cons in Hl. cbn in Hnd, Hl. apply list.NoDup_app in Hnd as (N1 & N2 & [N3 N4]%list.NoDup_cons).
    apply (Hempty (gs1 ++ gs2)).
    + rewrite fmap_app. apply list.NoDup_app. split_and!; [done| |done]. intros x Hx Hx'. apply (N2 x Hx), elem_of_cons. by right.
    + rewrite fmap_app, elem_of_app. intros [H|H]; [|done]. apply (N2 o H), elem_of_cons. by left.
    + rewrite fmap_app, concat_app. by rewrite concat_app in Hl.
    + intros x. rewrite !elem_of_app, elem_of_cons. tauto.
  - exists gs1, (p :: g), gs2. split_and!; [done| |done|done]. rewrite Hl, fmap_app, concat_app. done.
Qed.

(** The locks before and after the owner's are of other owners. *)
Lemma groups_others s o gs1 G gs2 p :
  NoDup (gs1 ++ (o, G) :: gs2).*1 →
  (∀ o' g, (o', g) ∈ gs1 ++ (o, G) :: gs2 → (∀ p, p ∈ g → fl_owner (fls s p) = o' ∧ valid_lock (fls s p)) ∧ ordered (fls s) g) →
  p ∈ concat gs1.*2 ++ concat gs2.*2 → fl_owner (fls s p) ≠ o ∧ valid_lock (fls s p).
Proof.
  intros Hnd Hg. rewrite fmap_app, fmap_cons in Hnd. cbn in Hnd. apply list.NoDup_app in Hnd as (_ & N2 & [N3 _]%list.NoDup_cons).
  intros [Hp|Hp]%elem_of_app.
  - destruct (groups_owner s gs1 p) as (g' & Hin & _ & Hv); [intros o' g H; apply Hg, elem_of_app; by left|done|].
    split; [|done]. intros <-. apply (N2 (fl_owner (fls s p))); [|apply elem_of_cons; by left]. apply list_elem_of_fmap. by exists (fl_owner (fls s p), g').
  - destruct (groups_owner s gs2 p) as (g' & Hin & _ & Hv); [intros o' g H; apply Hg; rewrite elem_of_app, elem_of_cons; tauto|done|].
    split; [|done]. intros <-. apply N3. apply list_elem_of_fmap. by exists (fl_owner (fls s p), g').
Qed.

Lemma from_owner_app s q A G B :
  (∀ p, p ∈ A → fl_owner (fls s p) ≠ fl_owner (fls s q)) → (∀ p, p ∈ G → fl_owner (fls s p) = fl_owner (fls s q)) → (G = [] → B = []) →
  from_owner s q (A ++ G ++ B) = G ++ B.
Proof.
  intros HA HG HB. induction A as [|a A IH]; cbn [app from_owner].
  - destruct G as [|g G]; [by rewrite HB|]. cbn [app from_owner]. unfold posix_same_owner. rewrite (HG g) by (apply elem_of_cons; by left). by rewrite Z.eqb_refl.
  - unfold posix_same_owner. destruct (Z.eqb_spec (fl_owner (fls s q)) (fl_owner (fls s a))) as [E|_].
    + exfalso. apply (HA a); [apply elem_of_cons; by left|done].
    + apply IH. intros p Hp. apply HA, elem_of_cons. by right.
Qed.

(** ** The locks once the walk is over *)

Section Settled.
Context (s : lock_state) (o : Z) (gs1 gs2 : list (Z * list Z)) (G : list Z).
Context (Hnd : NoDup (gs1 ++ (o, G) :: gs2).*1) (Hl : flc_posix s = concat gs1.*2 ++ G ++ concat gs2.*2).
Context (Hg : ∀ o' g, (o', g) ∈ gs1 ++ (o, G) :: gs2 → (∀ p, p ∈ g → fl_owner (fls s p) = o' ∧ valid_lock (fls s p)) ∧ ordered (fls s) g).

Let A := concat gs1.*2.
Let B := concat gs2.*2.

Lemma group_locked b ty : covers (fls s) G b ty ↔ locked s o b ty.
Proof using Hnd Hl Hg.
  split.
  - intros (p & Hp & Hb & Ht). exists p. destruct (Hg o G) as [H _]; [rewrite elem_of_app, elem_of_cons; tauto|].
    destruct (H p Hp) as [Ho _]. split_and!; [rewrite Hl, !elem_of_app; tauto|apply Ho|apply Hb..|done].
  - intros (p & Hp & Ho & Hb & Ht). exists p. rewrite Hl, !elem_of_app in Hp. split; [|done].
    destruct (decide (p ∈ G)); [done|]. exfalso. destruct (groups_others s o gs1 G gs2 p Hnd Hg) as [H _]; [rewrite elem_of_app; tauto|]. by apply H.
Qed.

Lemma settled_locked target s' o' b ty :
  settled s A B o target s' → locked s' o' b ty ↔ (o' = o ∧ target b ty) ∨ (o' ≠ o ∧ locked s o' b ty).
Proof using Hnd Hl Hg.
  intros (K & [K1 _ _ _ K5 _] & Hk & _ & Hc). assert (HAB := λ p, groups_others s o gs1 G gs2 p Hnd Hg). fold A B in HAB. split.
  - intros (p & Hp & Ho & Hb & Ht). rewrite K1, !elem_of_app in Hp. destruct (decide (p ∈ K)) as [Hpk|Hpk].
    + left. destruct (Hk p Hpk) as [E _]. split; [congruence|]. apply Hc. by exists p.
    + right. assert (HpAB : p ∈ A ++ B) by (rewrite elem_of_app; tauto). rewrite K5 in * by (by left).
      split; [rewrite <- Ho; by apply HAB|]. exists p. split_and!; [|done|apply Hb..|done].
      rewrite Hl. fold A B. rewrite !elem_of_app in *. tauto.
  - intros [[-> (p & Hp & Hb & Ht)%Hc]|[Hne (p & Hp & Ho & Hb & Ht)]].
    + exists p. destruct (Hk p Hp) as [E _]. split_and!; [rewrite K1, !elem_of_app; tauto|done|apply Hb..|done].
    + assert (HpAB : p ∈ A ++ B).
      { rewrite Hl in Hp. fold A B in Hp. rewrite !elem_of_app in Hp. apply elem_of_app. destruct Hp as [?|[Hp|?]]; [tauto| |tauto].
        destruct (Hg o G) as [H _]; [rewrite elem_of_app, elem_of_cons; tauto|]. destruct (H p Hp). congruence. }
      exists p. rewrite K5 by (by left). split_and!; [|done|apply Hb..|done]. rewrite K1. rewrite !elem_of_app in *. tauto.
Qed.

Lemma settled_groups target s' :
  settled s A B o target s' →
  ∃ gs : list (Z * list Z), NoDup gs.*1 ∧ flc_posix s' = concat gs.*2 ∧
    ∀ o g, (o, g) ∈ gs → (∀ p, p ∈ g → fl_owner (fls s' p) = o ∧ valid_lock (fls s' p)) ∧ ordered (fls s') g.
Proof using Hnd Hl Hg.
  intros (K & [K1 _ _ _ K5 _] & Hk & Ho & Hc). exists (gs1 ++ (o, K) :: gs2). split_and!.
  - by rewrite fmap_app in *.
  - rewrite K1, fmap_app, concat_app. done.
  - intros o' g Hin.
    assert (Hcase : (o', g) = (o, K) ∨ (o', g) ∈ gs1 ++ gs2) by (rewrite elem_of_app, elem_of_cons in Hin; rewrite elem_of_app; tauto).
    destruct Hcase as [[= -> ->]|Hin']; [done|].
    assert (HAB : ∀ p, p ∈ g → fls s' p = fls s p).
    { intros p Hp. apply K5. left. unfold A, B. rewrite <- concat_app, <- fmap_app. apply list_elem_of_In, in_concat. exists g.
      split; apply list_elem_of_In; [|done]. apply list_elem_of_fmap. by exists (o', g). }
    destruct (Hg o' g) as [H1 H2]; [rewrite elem_of_app, elem_of_cons in *; tauto|]. split.
    + intros p Hp. rewrite HAB by done. by apply H1.
    + apply (ordered_shrink (fls s)); [|done]. intros p Hp. rewrite HAB by done. lia.
Qed.

End Settled.

(** ** Conflicts *)

Lemma wf_valid s p : posix_wf s → p ∈ flc_posix s → valid_lock (fls s p).
Proof.
  intros W Hp. destruct (pw_groups s W) as (gs & _ & Hl & Hg). rewrite Hl in Hp.
  by destruct (groups_owner s gs p Hg Hp) as (_ & _ & _ & Hv).
Qed.

Definition range_ok (r : file_lock) : Prop :=
  0 ≤ fl_start r ≤ fl_end r ∧ fl_end r ≤ OFFSET_MAX ∧ (fl_type r = F_RDLCK ∨ fl_type r = F_WRLCK ∨ fl_type r = F_UNLCK).

Lemma locks_conflict_spec r f :
  locks_conflict r f = true ↔ fl_type f = F_WRLCK ∨ fl_type r = F_WRLCK.
Proof. unfold locks_conflict. destruct (Z.eqb_spec (fl_type f) F_WRLCK), (Z.eqb_spec (fl_type r) F_WRLCK); intuition congruence. Qed.

(** Two locks conflict when there is a byte they conflict on. *)
Lemma posix_conflict_spec r f :
  fl_start r ≤ fl_end r → fl_start f ≤ fl_end f →
  posix_locks_conflict r f = true ↔
  fl_owner f ≠ fl_owner r ∧ (∃ b, inside r b ∧ inside f b) ∧ (fl_type f = F_WRLCK ∨ fl_type r = F_WRLCK).
Proof.
  intros Hr Hf. unfold posix_locks_conflict, posix_same_owner. destruct (Z.eqb_spec (fl_owner r) (fl_owner f)) as [E|E].
  { split; [done|]. intros [H _]. by symmetry in E. }
  destruct (locks_overlap r f) eqn:Eo; cbn [negb].
  - rewrite locks_conflict_spec. unfold locks_overlap in Eo. split; [|tauto]. intros H. split_and!; [done| |done].
    exists (Z.max (fl_start r) (fl_start f)). unfold inside. lia.
  - split; [done|]. intros (_ & (b & B1 & B2) & _). unfold locks_overlap, inside in *. lia.
Qed.

Lemma find_conflict_spec s q :
  posix_wf s → range_ok (fls s q) → fl_type (fls s q) ≠ F_UNLCK →
  match find_conflict s posix_locks_conflict q (flc_posix s) with
  | Some p => p ∈ flc_posix s ∧ conflicting (fls s q) (locked s)
  | None => ¬ conflicting (fls s q) (locked s)
  end.
Proof.
  intros W (R1 & R2 & R3) Ht. unfold find_conflict. destruct (List.find _ _) as [p|] eqn:E.
  - apply find_in in E as [Hp Hc]. destruct (wf_valid s p W Hp) as [V _]. split; [done|].
    apply posix_conflict_spec in Hc as (Ho & (b & B1 & B2) & Hw); [|lia|lia]. split; [done|].
    exists (fl_owner (fls s p)), b, (fl_type (fls s p)). split_and!; [done|apply B1..|by exists p|done].
  - intros [_ (o & b & ty & Ho & Hb & (p & Hp & <- & Hi & <-) & Hw)]. destruct (wf_valid s p W Hp) as [V _].
    apply list_elem_of_In in Hp. pose proof (List.find_none _ _ E p Hp) as Hn. cbn in Hn.
    assert (posix_locks_conflict (fls s q) (fls s p) = true) as Hc; [|by rewrite Hn in Hc].
    apply posix_conflict_spec; [lia|lia|]. split_and!; [done|by exists b|done].
Qed.

Lemma granted_shared r (lk : Z → Z → Z → Prop) o1 o2 b t1 t2 :
  range_ok r → (∀ o b ty, lk o b ty → ty = F_RDLCK ∨ ty = F_WRLCK) →
  (∀ o1 o2 b t1 t2, o1 ≠ o2 → lk o1 b t1 → lk o2 b t2 → t1 = F_RDLCK ∧ t2 = F_RDLCK) → ¬ conflicting r lk →
  o1 ≠ o2 → granted_locks r lk o1 b t1 → granted_locks r lk o2 b t2 → t1 = F_RDLCK ∧ t2 = F_RDLCK.
Proof.
  intros (_ & _ & Hr) Hv Hs Hc.
  assert (Hmix : ∀ o ty, o ≠ fl_owner r → inside r b → fl_type r ≠ F_UNLCK → lk o b ty → fl_type r = F_RDLCK ∧ ty = F_RDLCK).
  { intros o ty Ho Hb Hu Hl. assert (ty ≠ F_WRLCK ∧ fl_type r ≠ F_WRLCK) as [H1 H2].
    { split; intros E; apply Hc; split; [done|exists o, b, ty; auto|done|exists o, b, ty; auto]. }
    specialize (Hv o b ty Hl). tauto. }
  intros Hne [(-> & B1 & -> & U1)|[N1 L1]] [(-> & B2 & -> & U2)|[N2 L2]]; [done|..].
  - by apply (Hmix o2).
  - destruct (Hmix o1 t1) as [? ?]; auto.
  - by apply (Hs o1 o2 b).
Qed.

(** ** States with the same locks *)

Lemma locked_ext s s' o b ty :
  flc_posix s' = flc_posix s → (∀ p, p ∈ flc_posix s → fls s' p = fls s p) → locked s' o b ty ↔ locked s o b ty.
Proof.
  intros E H. unfold locked. rewrite E. split; intros (p & Hp & Hb); exists p; [rewrite H in Hb by done|rewrite H by done]; done.
Qed.

Lemma wf_ext s s' :
  flc_posix s' = flc_posix s → (∀ p, p ∈ flc_posix s → fls s' p = fls s p) → links_ok s' → forest s' → posix_wf s → posix_wf s'.
Proof.
  intros E H L F W. split; [done|done|rewrite E; apply W| |].
  - destruct (pw_groups s W) as (gs & Hnd & Hl & Hg). exists gs. split_and!; [done|congruence|]. intros o g Hin.
    assert (He : ∀ p, p ∈ g → fls s' p = fls s p).
    { intros p Hp. apply H. rewrite Hl. apply list_elem_of_In, in_concat. exists g. split; apply list_elem_of_In; [|done].
      apply list_elem_of_fmap. by exists (o, g). }
    destruct (Hg o g Hin) as [G1 G2]. split.
    + intros p Hp. rewrite He by done. by apply G1.
    + apply (ordered_shrink (fls s)); [|done]. intros p Hp. rewrite He by done. lia.
  - intros o1 o2 b t1 t2 Hne. rewrite !(locked_ext s s') by done. by apply (pw_shared s W).
Qed.

(** ** Placing a request *)

(** A request by a task: a lock structure of its own that waits for nothing. *)
Record request_ok (s : lock_state) (q : Z) : Prop := RequestOk {
  rq_range : range_ok (fls s q);
  rq_lists : (q ∉ flc_posix s) ∧ (q ∉ flc_flock s);
  rq_id : q ≠ 0;
  rq_blocker : fl_blocker s q = 0 }.

(** What the allocations of [posix_lock_inode] give. *)
Record spares_ok (s : lock_state) (q : Z) (n1 n2 : option Z) : Prop := SparesOk {
  sp_idle n : n1 = Some n ∨ n2 = Some n → idle s n ∧ n ≠ 0 ∧ n ≠ q;
  sp_two n : n1 = Some n → n2 ≠ Some n }.

(** What happens to flock locks: nothing. *)
Definition same_flock (s s' : lock_state) : Prop :=
  flc_flock s' = flc_flock s ∧ ∀ p, p ∈ flc_flock s → fls s' p = fls s p.

Lemma winv_init s q A G B n1 n2 :
  posix_wf s → request_ok s q → spares_ok s q n1 n2 →
  flc_posix s = A ++ G ++ B →
  (∀ p, p ∈ G → fl_owner (fls s p) = fl_owner (fls s q) ∧ valid_lock (fls s p)) → ordered (fls s) G →
  winv s A B (fl_owner (fls s q)) (fl_type (fls s q)) q n1 n2
    (placed_sem (fl_type (fls s q)) (fls s) G (fls s q)) [] [] G (MkWalk s q n1 false 0 0 []).
Proof.
  intros W [(Q1 & Q1' & Q1'') [Q2 Q3] Q4 Q5] [S1 S2] Hl HG Ho.
  split; cbn [w_st w_request w_new w_left w_right w_dispose w_added]; try done.
  - split; [done|done|apply W|apply W|done|apply W].
  - split; [done|done|done|done|done| |done]. intros p Hp. by apply elem_of_nil in Hp.
  - split; [|done]. split; [|done]. intros H. apply Q2. rewrite Hl, !elem_of_app in *. tauto.
  - intros p Hp. by apply elem_of_nil in Hp.
  - intros [?|?]; done.
  - intros p [Hp|Hp]; [by apply elem_of_nil in Hp|]. apply S1. by right.
  - intros n Hn. destruct (S1 n) as (I1 & I2 & I3); [by left|]. split_and!; [done|done|done|apply not_elem_of_nil|by apply S2].
Qed.

Lemma posix_place_ok s q n1 n2 :
  posix_wf s → request_ok s q → spares_ok s q n1 n2 → ¬ conflicting (fls s q) (locked s) →
  ∃ s' e, posix_place s q n1 n2 = Ok (s', e) ∧
    (e = 0 ∧ posix_wf s' ∧ same_flock s s' ∧ (∀ o b ty, locked s' o b ty ↔ granted_locks (fls s q) (locked s) o b ty) ∨
     e = - ENOLCK ∧ s' = s ∧ no_memory s (fl_type (fls s q)) q n1 n2 ∨
     e = - ENOENT ∧ s' = s ∧ (∀ o b ty, locked s o b ty ↔ granted_locks (fls s q) (locked s) o b ty) ∧
       fl_type (fls s q) = F_UNLCK ∧ flag (fl_flags (fls s q)) FL_EXISTS = true).
Proof.
  intros W Q S Hc. set (r := fls s q). destruct (groups_split s (fl_owner r) W) as (gs1 & G & gs2 & Hnd & Hl & He & Hg).
  destruct (Hg (fl_owner r) G) as [HG Ho]; [rewrite elem_of_app, elem_of_cons; tauto|].
  pose proof (winv_init s q _ G _ n1 n2 W Q S Hl HG Ho) as Wi. fold r in Wi.
  assert (HAB := λ p, groups_others s (fl_owner r) gs1 G gs2 p Hnd Hg).
  set (tg := placed_sem (fl_type r) (fls s) G r) in *.
  assert (Hset : ∀ s', settled s (concat gs1.*2) (concat gs2.*2) (fl_owner r) tg s' → posix_wf s' ∧ same_flock s s' ∧
            ∀ o b ty, locked s' o b ty ↔ granted_locks r (locked s) o b ty).
  { intros s' Hs'. assert (Hlk : ∀ o b ty, locked s' o b ty ↔ granted_locks r (locked s) o b ty).
    { intros o b ty. rewrite (settled_locked s (fl_owner r) gs1 gs2 G Hnd Hl Hg tg s' o b ty Hs'). unfold tg, placed_sem.
      rewrite (group_locked s (fl_owner r) gs1 gs2 G Hnd Hl Hg). unfold granted_locks.
      destruct (decide (o = fl_owner r)) as [->|]; tauto. }
    pose proof (settled_groups s (fl_owner r) gs1 gs2 G Hnd Hl Hg tg s' Hs') as Hgs. destruct Hs' as (K & [K1 K2 K3 K4 K5 K6] & _).
    split_and!; [|split; [done|intros p Hp; apply K5; by right]|done]. split; [done|done|done|done|].
    intros o1 o2 b t1 t2 Hne. rewrite !Hlk. apply granted_shared; [apply Q| |apply W|done|done].
    intros o b' ty (p & Hp & _ & _ & <-). by apply (wf_valid s p W Hp). }
  unfold posix_place. rewrite Hl, from_owner_app.
  2:{ intros p Hp. apply HAB, elem_of_app. by left. }
  2:{ intros p Hp. by apply HG. }
  2:{ intros E. by rewrite (He E). }
  pose proof (owner_walk_ok _ _ _ _ _ _ _ _ _ ltac:(intros p Hp; apply HAB, elem_of_app; by right) _ _ _ _ Wi) as Post.
  destruct (owner_walk _ _) as [fl w|w].
  - apply finish_ok in Post; [|apply Q|intros n Hn; by apply (sp_idle _ _ _ _ S n); right].
    destruct (finish fl w n2) as [[[e s'] m1] m2]. destruct Post as [Hrel Post]. rewrite Hrel. cbn [mbind outcome_bind].
    exists s', e. split; [done|]. destruct Post as [(-> & Hs')|[(-> & -> & Hm)|(-> & -> & Hs' & Hu & Hx)]].
    + left. split; [done|]. by apply Hset.
    + right. left. done.
    + right. right. split_and!; [done|done| |done|done]. by apply Hset.
  - destruct Post as (Es & Ed & En & E0 & Hu). rewrite Es, Ed, En, E0. rewrite release_ok.
    + exists s, (- ENOLCK). split; [done|]. right. left. split_and!; [done|done|]. left. done.
    + apply W.
    + done.
    + intros p Hp. apply (sp_idle _ _ _ _ S p). by right.
    + intros p Hp. by apply elem_of_nil in Hp.
Qed.

(** ** Requests that conflict *)

(** Where a copy of the conflicting lock may go. *)
Definition conflock_ok (s : lock_state) (q : Z) (cf : option Z) : Prop :=
  ∀ c, cf = Some c → (c ∉ flc_posix s) ∧ (c ∉ flc_flock s) ∧ c ≠ q.

(** No lock is changed. *)
Definition same_posix (s s' : lock_state) : Prop :=
  flc_posix s' = flc_posix s ∧ ∀ p, p ∈ flc_posix s → fls s' p = fls s p.

Definition copied (cf : option Z) (p : Z) (s : lock_state) : lock_state :=
  match cf with Some c => locks_copy_conflock c p s | None => s end.

Lemma copied_same cf p s q :
  conflock_ok s q cf → same_posix s (copied cf p s) ∧ same_flock s (copied cf p s) ∧ fls (copied cf p s) q = fls s q ∧
  (links_ok s → links_ok (copied cf p s)) ∧ (forest s → forest (copied cf p s)) ∧ (∀ n, idle s n → idle (copied cf p s) n) ∧
  fl_blocker (copied cf p s) = fl_blocker s.
Proof.
  intros Hc. destruct cf as [c|]; [|done]. destruct (Hc c eq_refl) as (C1 & C2 & C3). cbn [copied]. split_and!; [|split|..]; try done.
  - split; [done|]. intros x Hx. cbn. apply fn_lookup_insert_ne. by intros ->.
  - intros x Hx. cbn. apply fn_lookup_insert_ne. by intros ->.
  - cbn. by apply fn_lookup_insert_ne.
  - apply fields_ok.
  - intros n. apply fields_idle.
Qed.

Lemma same_locks_all s1 s2 s3 :
  same_posix s1 s2 → same_flock s1 s2 → same_locks s2 s3 → same_posix s1 s3 ∧ same_flock s1 s3.
Proof.
  intros [A1 A2] [B1 B2] (E1 & E2 & E3). unfold same_posix, same_flock. rewrite E1, E2, E3. done.
Qed.

Lemma posix_blocked_ok s q p cf :
  posix_wf s → request_ok s q → conflock_ok s q cf → p ∈ flc_posix s →
  ∃ N s' e, (∀ fuel, (N < fuel)%nat → posix_blocked fuel s q p cf = Ok (s', e)) ∧
    posix_wf s' ∧ same_posix s s' ∧ same_flock s s' ∧ (∀ n, n ≠ q → idle s n → idle s' n) ∧
    (flag (fl_flags (fls s q)) FL_SLEEP = false ∧ e = - EAGAIN ∨
     flag (fl_flags (fls s q)) FL_SLEEP = true ∧ (e = - EDEADLK ∨ e = FILE_LOCK_DEFERRED ∧ fl_blocker s' q ≠ 0)).
Proof.
  intros W [Q1 [Q2 Q3] Q4 Q5] Hcf Hp. destruct (copied_same cf p s q Hcf) as (C1 & C2 & C3 & C4 & C5 & C6 & C7).
  unfold posix_blocked. fold (copied cf p s). set (s1 := copied cf p s) in *. rewrite C3.
  specialize (C4 (pw_links s W)). specialize (C5 (pw_forest s W)). destruct (flag _ FL_SLEEP) eqn:Es; cbn [negb].
  2:{ exists 0%nat, s1, (- EAGAIN). split_and!; [done| |done|done|auto|by left]. apply (wf_ext s); [apply C1|apply C1|done|done|done]. }
  destruct (wake_ok q s1 C4) as [R _]. set (s2 := __locks_wake_up_blocks q s1) in *.
  destruct (same_locks_all _ _ _ C1 C2 (rl_same _ _ R)) as [D1 D2]. pose proof (forest_less _ _ (rl_blocker _ _ R) C5) as F2.
  destruct F2 as (N1 & rank & Hr).
  assert (Hd : ∃ d, ∀ fuel, (N1 < fuel)%nat → posix_locks_deadlock fuel s2 q p = Ok d).
  { unfold posix_locks_deadlock. destruct (flag _ FL_OFDLCK); [by exists false|]. by apply (deadlock_ok s2 N1 rank). }
  destruct Hd as [[] Hd].
  { exists N1, s2, (- EDEADLK). split_and!; [intros fuel Hf; by rewrite Hd| |done|done| |right; auto].
    - apply (wf_ext s); [apply D1|apply D1|apply R|by exists N1, rank|done].
    - intros n _ In. apply (released_idle _ _ _ R). auto. }
  destruct (insert_block_ok p q posix_locks_conflict s2) as (s3 & N2 & I1 & I2 & I3 & I4 & I5 & I6); [apply R|by exists N1, rank|..].
  { destruct (rl_blocker _ _ R q) as [->|]; [|done]. by rewrite C7. }
  { rewrite (proj1 D1). done. }
  { rewrite (proj1 D2). done. }
  { done. }
  { left. by rewrite (proj1 D1). }
  destruct (same_locks_all _ _ _ D1 D2 I4) as [E1 E2]. exists (N1 + N2)%nat, s3, FILE_LOCK_DEFERRED. split_and!; [|..|done|done| |right; auto].
  - intros fuel Hf. rewrite Hd by lia. cbn [mbind outcome_bind]. by rewrite I1 by lia.
  - apply (wf_ext s); [apply E1|apply E1|done|done|done].
  - intros n Hn In. apply I6; [done|]. apply (released_idle _ _ _ R). auto.
Qed.

(** ** [posix_lock_inode] *)

(** The result of a request, by the error returned. *)
Definition posix_result (s : lock_state) (q : Z) (a1 a2 : option Z) (s' : lock_state) (e : Z) : Prop :=
  let r := fls s q in
  let access := flag (fl_flags r) FL_ACCESS in
  let sleep := flag (fl_flags r) FL_SLEEP in
  if bool_decide (e = 0) && negb access then
    ¬ conflicting r (locked s) ∧ ∀ o b ty, locked s' o b ty ↔ granted_locks r (locked s) o b ty
  else
    same_posix s s' ∧
    ((e = 0 ∧ ¬ conflicting r (locked s)) ∨
     (e = - EAGAIN ∧ conflicting r (locked s) ∧ sleep = false) ∨
     (e = - EDEADLK ∧ conflicting r (locked s) ∧ sleep = true) ∨
     (e = FILE_LOCK_DEFERRED ∧ conflicting r (locked s) ∧ sleep = true ∧ fl_blocker s' q ≠ 0) ∨
     (e = - ENOLCK ∧ ¬ conflicting r (locked s) ∧ (a1 = None ∧ fl_type r ≠ F_UNLCK ∨ a2 = None ∧ 0 < fl_start r)) ∨
     (e = - ENOENT ∧ fl_type r = F_UNLCK ∧ flag (fl_flags r) FL_EXISTS = true ∧ ∀ b ty, inside r b → ¬ locked s (fl_owner r) b ty)).

Lemma spares_need (need : bool) s q a1 a2 :
  spares_ok s q a1 a2 → spares_ok s q (if need then a1 else None) (if need then a2 else None).
Proof. intros H. destruct need; [done|]. split; [intros n [?|?]; done|done]. Qed.

Lemma release_unused s q s' n1 n2 :
  spares_ok s q n1 n2 → links_ok s' → (∀ n, n ≠ q → idle s n → idle s' n) → release s' n1 n2 [] = Ok ().
Proof.
  intros [S _] L Hi. apply release_ok; [done|..]; intros p Hp.
  - destruct (S p) as (I1 & I2 & I3); auto.
  - destruct (S p) as (I1 & I2 & I3); auto.
  - by apply elem_of_nil in Hp.
Qed.

Lemma posix_lock_inode_ok s q cf a1 a2 :
  posix_wf s → request_ok s q → conflock_ok s q cf → spares_ok s q a1 a2 →
  ∃ N s' e, (∀ fuel, (N < fuel)%nat → posix_lock_inode fuel s true q cf a1 a2 = Ok (s', e)) ∧
    posix_wf s' ∧ same_flock s s' ∧ posix_result s q a1 a2 s' e.
Proof.
  intros W Q Hcf Hs. unfold posix_lock_inode. cbn [negb]. set (r := fls s q).
  remember (negb (flag (fl_flags r) FL_ACCESS) && (negb (fl_type r =? F_UNLCK) || negb (fl_start r =? 0) || negb (fl_end r =? OFFSET_MAX))) as need eqn:En.
  pose proof (spares_need need s q a1 a2 Hs) as Hn.
  set (n1 := if need then a1 else None) in *. set (n2 := if need then a2 else None) in *.
  assert (Hb : match (if negb (fl_type r =? F_UNLCK) then find_conflict s posix_locks_conflict q (flc_posix s) else None) with
               | Some p => p ∈ flc_posix s ∧ conflicting r (locked s) | None => ¬ conflicting r (locked s) end).
  { destruct (Z.eqb_spec (fl_type r) F_UNLCK) as [E|E]; cbn [negb]; [by intros [H _]|]. apply find_conflict_spec; [done|apply Q|done]. }
  destruct (if negb (fl_type r =? F_UNLCK) then _ else None) as [p|].
  - destruct Hb as [Hp Hc]. destruct (posix_blocked_ok s q p cf W Q Hcf Hp) as (N & s' & e & B1 & B2 & B3 & B4 & B5 & B6). fold r in B6.
    exists N, s', e. split_and!; [|done|done|].
    + intros fuel Hf. rewrite B1 by done. cbn [mbind outcome_bind]. rewrite (release_unused s q s' n1 n2 Hn); [done|apply B2|done].
    + unfold posix_result. fold r. rewrite bool_decide_eq_false_2 by (destruct B6 as [[_ ->]|[_ [->|[-> _]]]]; done). cbn [andb].
      split; [done|]. tauto.
  - destruct (flag (fl_flags r) FL_ACCESS) eqn:Ea.
    { exists 0%nat, s, 0. split_and!; [|done|done|]; [intros fuel _; by rewrite (release_unused s q s n1 n2 Hn); [..|apply W|]|].
      unfold posix_result. fold r. rewrite Ea, andb_false_r. split; [done|]. by left. }
    destruct (posix_place_ok s q n1 n2 W Q Hn Hb) as (s' & e & E & Hres). exists 0%nat, s', e. fold r in Hres.
    unfold posix_result. fold r. rewrite Ea. cbn [negb] in En |- *. rewrite andb_true_r.
    destruct Hres as [(-> & R1 & R2 & R3)|[(-> & -> & Hm)|(-> & -> & R1 & R2 & R3)]].
    + split_and!; [by intros|done|done|]. by rewrite bool_decide_eq_true_2 by done.
    + split_and!; [by intros|done|done|]. rewrite bool_decide_eq_false_2 by done. split; [done|]. right. right. right. right. left. split_and!; [done|done|].
      destruct Hm as [[H1 H2]|[H1 H2]]; fold r in H2.
      * left. split; [|done]. apply Z.eqb_neq in H2. rewrite H2 in En. cbn in En. unfold n1 in H1. by rewrite En in H1.
      * right. split; [|done]. assert ((fl_start r =? 0) = false) as H3 by lia. rewrite H3 in En. cbn [negb] in En. rewrite orb_true_r in En. unfold n2 in H1. by rewrite En in H1.
    + split_and!; [by intros|done|done|]. rewrite bool_decide_eq_false_2 by done. split; [done|]. do 5 right. split_and!; [done|done|done|].
      intros b ty Hbb Hlk. apply R1 in Hlk. destruct Hlk as [(_ & _ & _ & H)|[H _]]; [done|]. by apply H.
Qed.

End FileLocksPosix.
