(* ===== verification/FileLocksFlock.v ===== *)
(** * File locks: flock locks of a file

    The invariant of a file's flock locks, at most one for each open file, and
    what [flock_lock_inode] does to them. *)

From stdpp Require Import base numbers list option sets functions.
From Stdlib Require Import ZArith Lia.
From S2P Require Import Prelude FileLocks FileLocksSpec FileLocksGroup FileLocksWalk FileLocksPosix.

Open Scope Z_scope.

Module FileLocksFlock.
Import FileLocks FileLocksSpec FileLocksGroup FileLocksWalk FileLocksPosix.

(** The open file [f] has a lock of type [ty]. *)
Definition flocked (s : lock_state) (f ty : Z) : Prop :=
  ∃ p, p ∈ flc_flock s ∧ fl_file (fls s p) = f ∧ fl_type (fls s p) = ty.

Definition mandatory (ty : Z) : bool := flag ty LOCK_MAND.

Record flock_wf (s : lock_state) : Prop := FlockWf {
  fw_nodup : NoDup (flc_flock s);
  fw_one p q : p ∈ flc_flock s → q ∈ flc_flock s → fl_file (fls s p) = fl_file (fls s q) → p = q;
  fw_type p : p ∈ flc_flock s → fl_type (fls s p) = F_RDLCK ∨ fl_type (fls s p) = F_WRLCK ∨ mandatory (fl_type (fls s p)) = true;
  fw_shared p q : p ∈ flc_flock s → q ∈ flc_flock s → p ≠ q →
    mandatory (fl_type (fls s p)) = false → mandatory (fl_type (fls s q)) = false →
    fl_type (fls s p) = F_RDLCK ∧ fl_type (fls s q) = F_RDLCK }.

Record file_wf (s : lock_state) : Prop := FileWf {
  wf_posix : posix_wf s;
  wf_flock : flock_wf s }.

Record frequest_ok (s : lock_state) (q : Z) : Prop := FRequestOk {
  fq_type : fl_type (fls s q) = F_RDLCK ∨ fl_type (fls s q) = F_WRLCK ∨ fl_type (fls s q) = F_UNLCK ∨ mandatory (fl_type (fls s q)) = true;
  fq_lists : (q ∉ flc_posix s) ∧ (q ∉ flc_flock s);
  fq_id : q ≠ 0;
  fq_blocker : fl_blocker s q = 0 }.

(** Another open file has the file and one of the two exclusively. *)
Definition fconflicting (r : file_lock) (lk : Z → Z → Prop) : Prop :=
  mandatory (fl_type r) = false ∧ ∃ f ty, f ≠ fl_file r ∧ lk f ty ∧ mandatory ty = false ∧ (ty = F_WRLCK ∨ fl_type r = F_WRLCK).

(** ** States with the same locks *)

Lemma flock_wf_ext s s' : same_flock s s' → flock_wf s → flock_wf s'.
Proof.
  intros [E H] [W1 W2 W3 W4]. split; rewrite E; [done|..].
  - intros p q Hp Hq. rewrite !H by done. by apply W2.
  - intros p Hp. rewrite !H by done. by apply W3.
  - intros p q Hp Hq. rewrite !H by done. by apply W4.
Qed.

Lemma flocked_ext s s' f ty : same_flock s s' → flocked s' f ty ↔ flocked s f ty.
Proof.
  intros [E H]. unfold flocked. rewrite E. split; intros (p & Hp & Hb); exists p; [rewrite H in Hb by done|rewrite H by done]; done.
Qed.

(** A lock is taken off. *)
Lemma flock_wf_sub s s' l :
  flc_flock s' = l → (∀ p, p ∈ l → p ∈ flc_flock s) → NoDup l → (∀ p, p ∈ l → fls s' p = fls s p) → flock_wf s → flock_wf s'.
Proof.
  intros E Hs Hn H [W1 W2 W3 W4]. split; rewrite E; [done|..].
  - intros p q Hp Hq. rewrite !H by done. apply W2; auto.
  - intros p Hp. rewrite !H by done. apply W3; auto.
  - intros p q Hp Hq. rewrite !H by done. apply W4; auto.
Qed.

Lemma flock_conflict_spec r f :
  flock_locks_conflict r f = true ↔
  fl_file f ≠ fl_file r ∧ mandatory (fl_type r) = false ∧ mandatory (fl_type f) = false ∧ (fl_type f = F_WRLCK ∨ fl_type r = F_WRLCK).
Proof.
  unfold flock_locks_conflict, mandatory. destruct (Z.eqb_spec (fl_file r) (fl_file f)) as [E|E].
  { split; [done|]. intros [H _]. by symmetry in E. }
  destruct (flag (fl_type r) LOCK_MAND), (flag (fl_type f) LOCK_MAND); cbn [orb]; rewrite ?locks_conflict_spec; intuition congruence.
Qed.

Lemma fconflict_spec s q :
  match find_conflict s flock_locks_conflict q (flc_flock s) with
  | Some p => p ∈ flc_flock s ∧ fconflicting (fls s q) (flocked s)
  | None => ¬ fconflicting (fls s q) (flocked s)
  end.
Proof.
  unfold find_conflict. destruct (List.find _ _) as [p|] eqn:E.
  - apply find_in in E as [Hp Hc]. apply flock_conflict_spec in Hc as (C1 & C2 & C3 & C4). split; [done|]. split; [done|].
    exists (fl_file (fls s p)), (fl_type (fls s p)). split_and!; [done|by exists p|done|done].
  - intros [Hm (f & ty & Hf & (p & Hp & <- & <-) & Hm' & Hw)]. apply list_elem_of_In in Hp.
    pose proof (List.find_none _ _ E p Hp) as Hn. cbn in Hn.
    assert (flock_locks_conflict (fls s q) (fls s p) = true) as Hc; [|by rewrite Hn in Hc].
    by apply flock_conflict_spec.
Qed.

(** ** Granting *)

Lemma insert_flock_ok n s :
  links_ok s → n ∉ flc_posix s → n ∉ flc_flock s → fl_blocker s n = 0 → n ≠ 0 →
  links_ok (insert_flock n s) ∧ ∀ q, q ≠ n → idle s q → idle (insert_flock n s) q.
Proof.
  intros L H1 H2 Hb H0. assert (Hin : ∀ q, q ∈ flc_flock (insert_flock n s) ↔ q = n ∨ q ∈ flc_flock s) by apply insert_before_elem.
  split.
  - split; try apply L.
    + intros q Hq. rewrite Hin in Hq. destruct Hq as [Hq|[->|Hq]]; [apply (lk_granted s L); by left|done|apply (lk_granted s L); by right].
    + intros q. rewrite Hin. intros [->|H]%elem_of_cons; [tauto|]. apply (lk_global s L) in H. tauto.
    + intros q Hq. rewrite Hin. intros [->|H]; [done|]. by apply (lk_apart s L) in Hq.
  - intros q Hq [[I1 I2] I3 I4]. split; [|done..]. rewrite Hin. split; [done|tauto].
Qed.

(** The request is granted as [n]. *)
Lemma flock_grant n q s :
  links_ok s → forest s → idle s n → n ≠ 0 → n ≠ q →
  let s' := insert_flock n (locks_move_blocks n q (locks_copy_lock n q s)) in
  links_ok s' ∧ forest s' ∧ same_posix s s' ∧ flc_flock s' = flc_flock s ++ [n] ∧ fls s' n = fls s q ∧
  (∀ p, p ≠ n → fls s' p = fls s p) ∧ ∀ p, p ≠ n → idle s p → idle s' p.
Proof.
  intros L F I N0 Nq s'. destruct (copy_lock_spec n q s Nq) as [C1 C2]. set (s1 := locks_copy_lock n q s) in *.
  assert (L1 : links_ok s1) by (apply fields_ok, fields_ok, L). assert (I1 : idle s1 n) by (apply fields_idle, fields_idle, I).
  destruct (move_blocks_ok n q s1 L1 I1 N0 Nq) as (M1 & M2 & M3 & M4). destruct (move_blocks_same n q s1) as (E1 & E2 & E3).
  set (s2 := locks_move_blocks n q s1) in *. destruct (insert_flock_ok n s2 M1) as [K1 K2]; [rewrite E2; apply I|rewrite E3; apply I|done|done|].
  split_and!.
  - done.
  - by apply M4.
  - split; [done|]. intros p Hp. change (fls s' p) with (fls s2 p). rewrite E1. apply C2. intros ->. by apply (proj1 (id_lists _ _ I)).
  - change (flc_flock s') with (insert_before None n (flc_flock s2)). rewrite insert_before_end, E3. done.
  - change (fls s' n) with (fls s2 n). by rewrite E1.
  - intros p Hp. change (fls s' p) with (fls s2 p). rewrite E1. by apply C2.
  - intros p Hp Ip. apply K2; [done|]. apply M3; [done|]. apply fields_idle, fields_idle, Ip.
Qed.

Lemma flock_wf_grant n s s' r :
  flock_wf s → n ∉ flc_flock s → flc_flock s' = flc_flock s ++ [n] → fls s' n = r → (∀ p, p ≠ n → fls s' p = fls s p) →
  (∀ p, p ∈ flc_flock s → fl_file (fls s p) ≠ fl_file r) → ¬ fconflicting r (flocked s) →
  fl_type r = F_RDLCK ∨ fl_type r = F_WRLCK ∨ mandatory (fl_type r) = true → flock_wf s'.
Proof.
  intros [W1 W2 W3 W4] Hn El Er Ef Hf Hc Ht.
  assert (Hmem : ∀ p, p ∈ flc_flock s' → p = n ∨ p ∈ flc_flock s ∧ p ≠ n ∧ fls s' p = fls s p).
  { intros p. rewrite El, elem_of_app, list_elem_of_singleton. intros [H|H]; [|by left]. right.
    assert (p ≠ n) by (by intros ->). auto. }
  assert (Hmix : ∀ p, p ∈ flc_flock s → mandatory (fl_type r) = false → mandatory (fl_type (fls s p)) = false →
                 fl_type r = F_RDLCK ∧ fl_type (fls s p) = F_RDLCK).
  { intros p Hp M1 M2. assert (fl_type (fls s p) ≠ F_WRLCK ∧ fl_type r ≠ F_WRLCK) as [N1 N2].
    { split; intros E; apply Hc; (split; [done|]; exists (fl_file (fls s p)), (fl_type (fls s p)); split_and!; [by apply Hf|by exists p|done|tauto]). }
    destruct (W3 p Hp) as [T|[T|T]], Ht as [T'|[T'|T']]; try congruence. done. }
  split.
  - rewrite El. apply list.NoDup_app. split_and!; [done| |apply NoDup_singleton]. intros x Hx Hx'. apply list_elem_of_singleton in Hx' as ->. done.
  - intros p q [->|(P1 & P2 & P3)]%Hmem [->|(Q1 & Q2 & Q3)]%Hmem; [done|..]; rewrite ?Er, ?P3, ?Q3; intros E.
    + exfalso. by apply (Hf q Q1).
    + exfalso. by apply (Hf p P1).
    + auto.
  - intros p [->|(P1 & P2 & ->)]%Hmem; [by rewrite Er|auto].
  - intros p q [->|(P1 & P2 & P3)]%Hmem [->|(Q1 & Q2 & Q3)]%Hmem Hne; rewrite ?Er, ?P3, ?Q3; intros M1 M2; [done|auto|..].
    + destruct (Hmix p P1 M2 M1). done.
    + by apply W4.
Qed.

(** What a granted request makes of the locks. *)
Definition granted_flocks (r : file_lock) (lk : Z → Z → Prop) (f ty : Z) : Prop :=
  (f = fl_file r ∧ ty = fl_type r ∧ fl_type r ≠ F_UNLCK) ∨ (f ≠ fl_file r ∧ lk f ty).

Lemma release_flock s q s' new dispose :
  (∀ n, new = Some n → idle s n ∧ n ≠ 0 ∧ n ≠ q) → (∀ p, p ∈ dispose → idle s p ∧ p ≠ q) → links_ok s' →
  (∀ n, n ≠ q → idle s n → idle s' n) → release s' new None dispose = Ok ().
Proof.
  intros Hn Hd L Hi. apply release_ok; [done|..]; intros p Hp; [|done|].
  - destruct (Hn p Hp) as (I1 & I2 & I3); auto.
  - destruct (Hd p Hp) as (I1 & I2); auto.
Qed.

Lemma file_wf_same s s' : file_wf s → same_posix s s' → same_flock s s' → links_ok s' → forest s' → file_wf s'.
Proof.
  intros [W1 W2] [P1 P2] F L Fo. split; [by apply (wf_ext s)|by apply (flock_wf_ext s)].
Qed.

Definition flock_placed (s : lock_state) (q : Z) (s' : lock_state) (e : Z) : Prop :=
  let r := fls s q in
  let access := flag (fl_flags r) FL_ACCESS in
  let sleep := flag (fl_flags r) FL_SLEEP in
  (e = 0 ∧ ¬ fconflicting r (flocked s) ∧ access = true ∧ same_flock s s') ∨
  (e = 0 ∧ ¬ fconflicting r (flocked s) ∧ access = false ∧ ∀ f ty, flocked s' f ty ↔ granted_flocks r (flocked s) f ty) ∨
  (e = - EAGAIN ∧ fconflicting r (flocked s) ∧ sleep = false ∧ same_flock s s') ∨
  (e = FILE_LOCK_DEFERRED ∧ fconflicting r (flocked s) ∧ sleep = true ∧ fl_blocker s' q ≠ 0 ∧ same_flock s s').

Lemma flock_place_ok s q new dispose :
  file_wf s → frequest_ok s q → (∀ n, new = Some n → idle s n ∧ n ≠ 0 ∧ n ≠ q) →
  (∀ p, p ∈ dispose → idle s p ∧ p ≠ q) → (∀ p, p ∈ dispose → new ≠ Some p) →
  (flag (fl_flags (fls s q)) FL_ACCESS = false →
     new ≠ None ∧ fl_type (fls s q) ≠ F_UNLCK ∧ ∀ p, p ∈ flc_flock s → fl_file (fls s p) ≠ fl_file (fls s q)) →
  ∃ N s' e, (∀ fuel, (N < fuel)%nat → flock_place fuel s q new dispose = Ok (s', e)) ∧
    file_wf s' ∧ same_posix s s' ∧ flock_placed s q s' e.
Proof.
  intros [W1 W2] [Q1 [Q2 Q3] Q4 Q5] Hn Hd Hdn Ha. unfold flock_place, flock_placed. set (r := fls s q) in *.
  pose proof (fconflict_spec s q) as Hc. destruct (find_conflict _ _ _ _) as [p|].
  - destruct Hc as [Hp Hc]. fold r in Hc. destruct (flag (fl_flags r) FL_SLEEP) eqn:Es; cbn [negb].
    + destruct (insert_block_ok p q flock_locks_conflict s) as (s' & N & I1 & I2 & I3 & I4 & I5 & I6); [apply W1|apply W1|done..|by right|].
      destruct (same_locks_all s s s' (conj eq_refl (λ _ _, eq_refl)) (conj eq_refl (λ _ _, eq_refl)) I4) as [E1 E2].
      exists N, s', FILE_LOCK_DEFERRED. split_and!; [| |done|].
      * intros fuel Hf. rewrite I1 by done. cbn [mbind outcome_bind]. by rewrite (release_flock s q s').
      * by apply (file_wf_same s).
      * do 3 right. done.
    + exists 0%nat, s, (- EAGAIN). split_and!; [|done|done|].
      * intros fuel _. rewrite (release_flock s q s); [done|done|done|apply W1|done].
      * right. right. left. done.
  - fold r in Hc. destruct (flag (fl_flags r) FL_ACCESS) eqn:Ea.
    { exists 0%nat, s, 0. split_and!; [|done|done|by left]. intros fuel _. rewrite (release_flock s q s); [done|done|done|apply W1|done]. }
    destruct (Ha eq_refl) as (N1 & N2 & N3). destruct new as [n|]; [|done]. destruct (Hn n eq_refl) as (I & I0 & Iq).
    destruct (flock_grant n q s (pw_links s W1) (pw_forest s W1) I I0 Iq) as (G1 & G2 & G3 & G4 & G5 & G6 & G7).
    set (s' := insert_flock _ _) in *. exists 0%nat, s', 0. split_and!.
    + intros fuel _. rewrite release_ok; [done|done|done|done|]. intros p Hp. destruct (Hd p Hp). apply G7; [|done]. intros ->. by apply (Hdn n Hp).
    + split; [apply (wf_ext s); [apply G3|apply G3|done..]|]. apply (flock_wf_grant n s s' r); try done; [apply I|tauto].
    + done.
    + right. left. split_and!; [done|done|done|]. intros f ty. unfold granted_flocks. split.
      * intros (p & Hp & <- & <-). rewrite G4, elem_of_app, list_elem_of_singleton in Hp. destruct Hp as [Hp| ->]; [|left; by rewrite G5].
        right. rewrite G6 by (intros ->; by apply (proj2 (id_lists _ _ I))). split; [by apply N3|by exists p].
      * intros [(-> & -> & _)|[Hf (p & Hp & <- & <-)]].
        -- exists n. rewrite G4, elem_of_app, list_elem_of_singleton, G5. split_and!; [tauto|done|done].
        -- exists p. rewrite G6 by (intros ->; by apply (proj2 (id_lists _ _ I))). rewrite G4, elem_of_app. split_and!; [tauto|done|done].
Qed.

(** The result of a request, by the error returned. *)
Definition flock_result (s : lock_state) (q : Z) (alloc : option Z) (s' : lock_state) (e : Z) : Prop :=
  let r := fls s q in
  let access := flag (fl_flags r) FL_ACCESS in
  let sleep := flag (fl_flags r) FL_SLEEP in
  let others f ty := flocked s' f ty ↔ flocked s f ty ∧ (access = true ∨ f ≠ fl_file r) in
  (e = 0 ∧ access = true ∧ ¬ fconflicting r (flocked s) ∧ ∀ f ty, flocked s' f ty ↔ flocked s f ty) ∨
  (e = 0 ∧ access = false ∧ ∀ f ty, flocked s' f ty ↔ granted_flocks r (flocked s) f ty) ∨
  (e = - EAGAIN ∧ fconflicting r (flocked s) ∧ sleep = false ∧ ∀ f ty, others f ty) ∨
  (e = FILE_LOCK_DEFERRED ∧ fconflicting r (flocked s) ∧ sleep = true ∧ fl_blocker s' q ≠ 0 ∧ ∀ f ty, others f ty) ∨
  (e = - ENOENT ∧ fl_type r = F_UNLCK ∧ flag (fl_flags r) FL_EXISTS = true ∧ (∀ ty, ¬ flocked s (fl_file r) ty) ∧ s' = s) ∨
  (e = - ENOMEM ∧ alloc = None ∧ fl_type r ≠ F_UNLCK ∧ s' = s).

(** The lock of an open file is taken off. *)
Lemma unlink_flock s p :
  file_wf s → p ∈ flc_flock s →
  let s' := locks_unlink_lock_ctx p s in
  file_wf s' ∧ same_posix s s' ∧ fls s' = fls s ∧ idle s' p ∧ (∀ q, idle s q → idle s' q) ∧
  (∀ q, fl_blocker s q = 0 → fl_blocker s' q = 0) ∧ (∀ q, q ∈ flc_flock s' ↔ q ∈ flc_flock s ∧ q ≠ p) ∧
  (∀ f ty, flocked s' f ty ↔ flocked s f ty ∧ f ≠ fl_file (fls s p)).
Proof.
  intros [W1 W2] Hp s'. destruct (unlink_ok p s (pw_links s W1) (or_intror Hp)) as (U1 & U2 & U3 & U4 & U5 & U6 & U7 & U8).
  fold s' in U1, U2, U3, U4, U5, U6, U7, U8.
  assert (Ep : flc_posix s' = flc_posix s).
  { rewrite U4. apply unlist_notin. intros H. by apply (lk_apart s (pw_links s W1)) in H. }
  assert (Hin : ∀ q, q ∈ flc_flock s' ↔ q ∈ flc_flock s ∧ q ≠ p) by (intros q; rewrite U5; apply elem_of_unlist).
  split_and!; try done.
  - split.
    + apply (wf_ext s); [done|by rewrite U3|done|by apply U7, W1|done].
    + apply (flock_wf_sub s s' (unlist p (flc_flock s))); [done| | |by rewrite U3|done].
      * intros q [H _]%elem_of_unlist. done.
      * apply list.NoDup_filter, W2.
  - split; [done|by rewrite U3].
  - intros f ty. unfold flocked. rewrite U3. split.
    + intros (q & Hq & <- & <-). apply Hin in Hq as [Hq Hne]. split; [by exists q|]. intros E. by apply Hne, (fw_one s W2).
    + intros [(q & Hq & <- & <-) Hf]. exists q. rewrite Hin. split_and!; [done| |done|done]. by intros ->.
Qed.

Lemma fconflicting_others r (lk lk' : Z → Z → Prop) :
  (∀ f ty, lk' f ty ↔ lk f ty ∧ f ≠ fl_file r) → fconflicting r lk' ↔ fconflicting r lk.
Proof.
  intros H. unfold fconflicting. split; intros [Hm (f & ty & Hf & Hl & Hr)]; (split; [done|]; exists f, ty; split_and!; [done| |apply Hr..]); apply H in Hl || apply H; tauto.
Qed.

(** Placing a request once the file's own lock is gone. *)
Lemma flock_convert s s1 q n dispose alloc :
  file_wf s1 → frequest_ok s1 q → idle s1 n ∧ n ≠ 0 ∧ n ≠ q → (∀ p, p ∈ dispose → idle s1 p ∧ p ≠ q) → (∀ p, p ∈ dispose → p ≠ n) →
  same_posix s s1 → fls s1 = fls s → (∀ p, p ∈ flc_flock s1 → fl_file (fls s p) ≠ fl_file (fls s q)) →
  (∀ f ty, flocked s1 f ty ↔ flocked s f ty ∧ f ≠ fl_file (fls s q)) →
  flag (fl_flags (fls s q)) FL_ACCESS = false → fl_type (fls s q) ≠ F_UNLCK →
  ∃ N s' e, (∀ fuel, (N < fuel)%nat → flock_place fuel s1 q (Some n) dispose = Ok (s', e)) ∧
    file_wf s' ∧ same_posix s s' ∧ flock_result s q alloc s' e.
Proof.
  intros W Q Hn Hd Hdn Hp Ef Hf Hl Ha Hu.
  destruct (flock_place_ok s1 q (Some n) dispose W Q) as (N & s' & e & P1 & P2 & P3 & P4); [by intros ? [= <-]|done|intros p Hp' [= ->]; by apply (Hdn p)|by rewrite Ef|].
  exists N, s', e. split_and!; [done|done| |].
  - destruct Hp as [A1 A2], P3 as [B1 B2]. split; [congruence|]. intros p Hin. rewrite B2 by congruence. by apply A2.
  - unfold flock_placed in P4. unfold flock_result. rewrite Ef in P4. rewrite (fconflicting_others _ _ _ Hl), Ha in P4. rewrite Ha.
    destruct P4 as [(_ & _ & ? & _)|[(-> & Hc & _ & Hg)|[(-> & Hc & Hsl & Hs)|(-> & Hc & Hsl & Hb & Hs)]]]; [done|..].
    + right. left. split_and!; [done|done|]. intros f ty. rewrite Hg. unfold granted_flocks. rewrite Hl. tauto.
    + right. right. left. split_and!; [done|done|done|]. intros f ty. rewrite (flocked_ext s1 s'), Hl by done. intuition congruence.
    + right. right. right. left. split_and!; [done|done|done|done|]. intros f ty. rewrite (flocked_ext s1 s'), Hl by done. intuition congruence.
Qed.

Lemma find_none_spec {A} (f : A → bool) l x : List.find f l = None → x ∈ l → f x = false.
Proof. intros H Hx. apply list_elem_of_In in Hx. exact (List.find_none _ _ H x Hx). Qed.

(** The statement of the three lemmas below. *)
Definition flock_answers (s : lock_state) (q : Z) (alloc : option Z) : Prop :=
  ∃ N s' e, (∀ fuel, (N < fuel)%nat → flock_lock_inode fuel s true q alloc = Ok (s', e)) ∧
    file_wf s' ∧ same_posix s s' ∧ flock_result s q alloc s' e.

Lemma flock_access_ok s q alloc :
  file_wf s → frequest_ok s q → flag (fl_flags (fls s q)) FL_ACCESS = true → flock_answers s q alloc.
Proof.
  intros W Q Ea. unfold flock_answers, flock_lock_inode, flock_result. rewrite Ea. cbn [negb andb].
  destruct (flock_place_ok s q None [] W Q) as (N & s' & e & P1 & P2 & P3 & P4); [done|intros p Hp; by apply elem_of_nil in Hp..|by rewrite Ea|].
  exists N, s', e. split_and!; [done|done|done|]. unfold flock_placed in P4. rewrite Ea in P4.
  destruct P4 as [(-> & Hc & _ & Hs)|[(_ & _ & ? & _)|[(-> & Hc & Hsl & Hs)|(-> & Hc & Hsl & Hb & Hs)]]]; [|done|..].
  - left. split_and!; [done|done|done|]. intros f ty. by apply flocked_ext.
  - right. right. left. split_and!; [done|done|done|]. intros f ty. rewrite (flocked_ext s s') by done. tauto.
  - right. right. right. left. split_and!; [done|done|done|done|]. intros f ty. rewrite (flocked_ext s s') by done. tauto.
Qed.

Lemma flock_unlock_ok s q alloc :
  file_wf s → frequest_ok s q → flag (fl_flags (fls s q)) FL_ACCESS = false → fl_type (fls s q) = F_UNLCK → flock_answers s q alloc.
Proof.
  intros W Q Ea Eu. unfold flock_answers, flock_lock_inode, flock_result. rewrite Ea, Eu. cbn [negb andb Z.eqb]. set (r := fls s q) in *.
  change (F_UNLCK =? F_UNLCK) with true. cbn [negb andb]. destruct (List.find _ _) as [p|] eqn:Ef.
  - apply find_in in Ef as [Hp E]. apply Z.eqb_eq in E.
    assert (Hne : (F_UNLCK =? fl_type (fls s p)) = false).
    { apply Z.eqb_neq. intros T. destruct (fw_type s (wf_flock s W) p Hp) as [T'|[T'|T']]; rewrite <- T in T'; done. }
    rewrite Hne. destruct (unlink_flock s p W Hp) as (U1 & U2 & U3 & U4 & U5 & U6 & U7 & U8).
    exists 0%nat, (locks_unlink_lock_ctx p s), 0. split_and!; [|done|done|].
    + intros fuel _. rewrite release_ok; [by rewrite andb_false_r|apply U1|done|done|]. intros x Hx. by apply list_elem_of_singleton in Hx as ->.
    + right. left. split_and!; [done|done|]. intros f ty. rewrite U8. unfold granted_flocks. fold r. rewrite <- E, Eu. tauto.
  - assert (Hnone : ∀ ty, ¬ flocked s (fl_file r) ty).
    { intros ty (p & Hp & E & _). pose proof (find_none_spec _ _ p Ef Hp) as H. cbn in H. rewrite E, Z.eqb_refl in H. done. }
    destruct (flag (fl_flags r) FL_EXISTS) eqn:Ex; cbn [andb negb].
    + exists 0%nat, s, (- ENOENT). split_and!; [done|done|done|]. do 4 right. left. done.
    + exists 0%nat, s, 0. split_and!; [done|done|done|]. right. left. split_and!; [done|done|]. intros f ty. unfold granted_flocks.
      split; [intros H; right; split; [|done]; intros ->; by apply (Hnone ty)|tauto].
Qed.

Lemma flock_relock_ok s q n :
  file_wf s → frequest_ok s q → flag (fl_flags (fls s q)) FL_ACCESS = false → fl_type (fls s q) ≠ F_UNLCK → idle s n ∧ n ≠ 0 ∧ n ≠ q →
  flock_answers s q (Some n).
Proof.
  intros W Q Ea Eu Hn. unfold flock_answers, flock_lock_inode. apply Z.eqb_neq in Eu as Eu'. rewrite Ea, Eu'. cbn [negb andb].
  rewrite bool_decide_eq_false_2 by done. set (r := fls s q). destruct (List.find _ _) as [p|] eqn:Ef.
  - apply find_in in Ef as [Hp E]. apply Z.eqb_eq in E. destruct (Z.eqb_spec (fl_type r) (fl_type (fls s p))) as [Et|Et].
    + exists 0%nat, s, 0. split_and!; [|done|done|].
      * intros fuel _. rewrite release_ok; [done|apply W|intros ? [= <-]; apply Hn|done|]. intros x Hx. by apply elem_of_nil in Hx.
      * right. left. split_and!; [done|done|]. intros f ty. unfold granted_flocks. fold r. split.
        -- intros (x & Hx & <- & <-). destruct (decide (fl_file (fls s x) = fl_file r)) as [Ex|Ex]; [|right; split; [done|by exists x]].
           left. split_and!; [done| |done]. rewrite Et. f_equal. f_equal. apply (fw_one s (wf_flock s W)); [done|done|congruence].
        -- intros [(-> & -> & _)|[_ H]]; [|done]. by exists p.
    + destruct (unlink_flock s p W Hp) as (U1 & U2 & U3 & U4 & U5 & U6 & U7 & U8). destruct Hn as (I1 & I2 & I3).
      assert (Hpq : p ≠ q ∧ p ≠ n) by (split; intros ->; [by apply (proj2 (fq_lists _ _ Q))|by apply (proj2 (id_lists _ _ I1))]).
      apply (flock_convert s _ q n [p]); try done.
      * destruct Q as [Q1 [Q2 Q3] Q4 Q5]. split; [by rewrite U3|rewrite (proj1 U2), U7; tauto|done|auto].
      * auto.
      * intros x Hx. apply list_elem_of_singleton in Hx as ->. tauto.
      * intros x Hx. apply list_elem_of_singleton in Hx as ->. tauto.
      * intros x Hx. apply U7 in Hx as [Hx Hxp]. intros E'. apply Hxp, (fw_one s (wf_flock s W)); [done|done|]. fold r in E'. congruence.
      * intros f ty. rewrite U8. fold r. by rewrite E.
  - assert (Hnone : ∀ p, p ∈ flc_flock s → fl_file (fls s p) ≠ fl_file r).
    { intros p Hp E. pose proof (find_none_spec _ _ p Ef Hp) as H. cbn in H. rewrite E, Z.eqb_refl in H. done. }
    apply (flock_convert s s q n []); try done; [intros x Hx; by apply elem_of_nil in Hx..|].
    intros f ty. split; [|tauto]. intros (p & Hp & <- & <-). split; [by exists p|by apply Hnone].
Qed.

Lemma flock_lock_inode_ok s q alloc :
  file_wf s → frequest_ok s q → (∀ n, alloc = Some n → idle s n ∧ n ≠ 0 ∧ n ≠ q) → flock_answers s q alloc.
Proof.
  intros W Q Hn. destruct (flag (fl_flags (fls s q)) FL_ACCESS) eqn:Ea; [by apply flock_access_ok|].
  destruct (decide (fl_type (fls s q) = F_UNLCK)) as [Eu|Eu]; [by apply flock_unlock_ok|].
  destruct alloc as [n|]; [by apply flock_relock_ok; auto|]. apply Z.eqb_neq in Eu as Eu'.
  unfold flock_answers, flock_lock_inode. rewrite Ea, Eu'. cbn [negb andb]. rewrite bool_decide_eq_true_2 by done.
  exists 0%nat, s, (- ENOMEM). split_and!; [done|done|done|]. by do 5 right.
Qed.

End FileLocksFlock.
