(* ===== verification/FileLocksTrace.v ===== *)
(** * File locks: any sequence of requests

    The requests of tasks on a file as steps of a machine, the invariant of its
    reachable states, and the properties of the single routines. *)

From stdpp Require Import base numbers list option sets functions relations.
From Stdlib Require Import ZArith Lia.
From S2P Require Import Prelude FileLocks FileLocksSpec FileLocksGroup FileLocksWalk FileLocksPosix FileLocksFlock.

Open Scope Z_scope.

Module FileLocksTrace.
Import FileLocks FileLocksSpec FileLocksGroup FileLocksWalk FileLocksPosix FileLocksFlock.

(** ** Requests that stop waiting *)

(** A lock structure that belongs to a task and is not granted. *)
Definition private (s : lock_state) (q : Z) : Prop := (q ∉ flc_posix s) ∧ (q ∉ flc_flock s) ∧ q ≠ 0.

Lemma fill_wf s q f : file_wf s → private s q → file_wf (upd q f s) ∧ same_posix s (upd q f s) ∧ same_flock s (upd q f s).
Proof.
  intros W (P1 & P2 & _). assert (Hs : ∀ p, p ≠ q → fls (upd q f s) p = fls s p) by (intros p Hp; by apply fn_lookup_insert_ne).
  assert (SP : same_posix s (upd q f s)) by (split; [done|]; intros p Hp; apply Hs; by intros ->).
  assert (SF : same_flock s (upd q f s)) by (split; [done|]; intros p Hp; apply Hs; by intros ->).
  split_and!; [|done|done]. apply (file_wf_same s); [done|done|done|apply fields_ok, W|apply W].
Qed.

Lemma locks_delete_block_ok s q :
  file_wf s → private s q →
  let '(s', status) := locks_delete_block q s in
  file_wf s' ∧ same_posix s s' ∧ same_flock s s' ∧ idle s' q ∧
  status = (if bool_decide (fl_blocker s q = 0) then - ENOENT else 0).
Proof.
  intros W (P1 & P2 & P3). unfold locks_delete_block.
  destruct ((fl_blocker s q =? 0) && bool_decide (fl_blocked_requests s q = [])) eqn:E.
  - apply andb_prop in E as [E1 E2]. apply Z.eqb_eq in E1. apply bool_decide_eq_true in E2.
    split_and!; [done|done|done|done|]. by rewrite bool_decide_eq_true_2.
  - pose proof (pw_links s (wf_posix s W)) as L. destruct (wake_ok q s L) as [R Rq].
    fold (woken q (__locks_wake_up_blocks q s)). set (s1 := __locks_wake_up_blocks q s) in *.
    assert (S : same_locks s (woken q s1)) by (etrans; [apply R|done]).
    destruct (same_locks_all s s _ (conj eq_refl (λ _ _, eq_refl)) (conj eq_refl (λ _ _, eq_refl)) S) as [D1 D2].
    assert (Hb : fl_blocker (woken q s1) q = 0) by (by rewrite woken_blocker, decide_True).
    split_and!; [|done|done| |].
    + apply (file_wf_same s); [done|done|done|apply woken_ok, R|]. apply (forest_less s); [|apply W]. intros x. rewrite woken_blocker.
      case_decide; [by right|apply R].
    + split; [split; [by rewrite (proj1 D1)|by rewrite (proj1 D2)]| |apply Hb].
      destruct (fl_blocked_requests (woken q s1) q) as [|x l] eqn:El; [done|]. exfalso.
      assert (Hx : x ∈ fl_blocked_requests (woken q s1) q) by (rewrite El; apply elem_of_cons; by left).
      apply woken_requests in Hx as [Hx _]; [|apply R]. rewrite Rq in Hx. by apply elem_of_nil in Hx.
    + destruct (Z.eqb_spec (fl_blocker s q) 0) as [E0|E0]; [by rewrite bool_decide_eq_true_2|by rewrite bool_decide_eq_false_2].
Qed.

(** ** Deadlock detection *)








(** ** Requests from user space *)

Lemma s64_sub_l x y : s64 (s64 x - y) = s64 (x - y).
Proof.
  unfold s64, sext. f_equal. replace (64 - 1) with 63 by lia.
  replace ((x + 2 ^ 63) mod 2 ^ 64 - 2 ^ 63 - y + 2 ^ 63) with ((x + 2 ^ 63) mod 2 ^ 64 - y) by lia.
  rewrite Zminus_mod_idemp_l. f_equal. lia.
Qed.

(** The offset [l_whence] stands for. *)
Definition flock_base (f_pos i_size : Z) (l : flock64) : option Z :=
  if l_whence l =? 0 then Some 0 else if l_whence l =? 1 then Some f_pos else if l_whence l =? 2 then Some i_size else None.

(** The first and the last byte asked for. *)
Definition flock_first (base : Z) (l : flock64) : Z := if l_len l <? 0 then base + l_start l + l_len l else base + l_start l.
Definition flock_last (base : Z) (l : flock64) : Z :=
  if 0 <? l_len l then base + l_start l + l_len l - 1 else if l_len l <? 0 then base + l_start l - 1 else OFFSET_MAX.

Definition flock64_error (f_pos i_size : Z) (l : flock64) : Z :=
  match flock_base f_pos i_size l with
  | None => - EINVAL
  | Some base =>
      if OFFSET_MAX <? base + l_start l then - EOVERFLOW
      else if base + l_start l <? 0 then - EINVAL
      else if OFFSET_MAX <? flock_last base l then - EOVERFLOW
      else if flock_first base l <? 0 then - EINVAL
      else if (0 <=? l_type l) && (l_type l <=? 2) then 0 else - EINVAL
  end.

Lemma assign_type_ok f ty :
  assign_type f ty = if (0 <=? ty) && (ty <=? 2) then (set_fl_type ty f, 0) else (f, - EINVAL).
Proof.
  unfold assign_type, F_RDLCK, F_WRLCK, F_UNLCK.
  destruct (Z.eqb_spec ty 0), (Z.eqb_spec ty 1), (Z.eqb_spec ty 2), (Z.leb_spec 0 ty), (Z.leb_spec ty 2); cbn [orb andb]; try done; lia.
Qed.

Lemma flock64_ok filp f_pos i_size files tgid fl l :
  0 ≤ f_pos ≤ OFFSET_MAX → 0 ≤ i_size ≤ OFFSET_MAX → - 2 ^ 63 ≤ l_start l < 2 ^ 63 → - 2 ^ 63 ≤ l_len l < 2 ^ 63 →
  let '(fl', e) := flock64_to_posix_lock filp f_pos i_size files tgid fl l in
  e = flock64_error f_pos i_size l ∧
  (e = 0 → ∃ base, flock_base f_pos i_size l = Some base ∧
     fl' = MkFl files FL_POSIX (l_type l) tgid filp (flock_first base l) (flock_last base l) ∧ range_ok fl').
Proof.
  intros Hp Hi Hs Hl. unfold flock64_to_posix_lock, flock64_error. fold (flock_base f_pos i_size l).
  destruct (flock_base f_pos i_size l) as [base|] eqn:Eb; [|done].
  assert (Hb : 0 ≤ base ≤ OFFSET_MAX).
  { unfold flock_base in Eb. repeat case_match; simplify_eq; try done. }
  unfold OFFSET_MAX in *. cbn [set_start set_end fl_start fl_end fl_type]. rewrite (s64_id (2 ^ 63 - 1 - base)) by lia.
  assert (E1 : (2 ^ 63 - 1 - base <? l_start l) = (2 ^ 63 - 1 <? base + l_start l)) by lia. rewrite E1.
  destruct (Z.ltb_spec (2 ^ 63 - 1) (base + l_start l)); [done|]. rewrite (s64_id (base + l_start l)) by lia.
  destruct (Z.ltb_spec (base + l_start l) 0); [done|].
  assert (Hty : ∀ f : file_lock, (0 ≤ fl_start f ≤ fl_end f ∧ fl_end f ≤ OFFSET_MAX) → (0 <=? l_type l) && (l_type l <=? 2) = true → range_ok (set_fl_type (l_type l) f)).
  { intros f Hf H2. split_and!; [apply Hf..|]. cbn. unfold F_RDLCK, F_WRLCK, F_UNLCK. lia. }
  unfold flock_first, flock_last, OFFSET_MAX in *. rewrite !assign_type_ok.
  destruct (Z.ltb_spec 0 (l_len l)) as [Hp0|Hp0].
  - rewrite (s64_id (2 ^ 63 - 1 - _)), (s64_id (l_len l - 1)), s64_sub_l by lia. replace (l_len l <? 0) with false by lia.
    assert (E2 : (2 ^ 63 - 1 - (base + l_start l) <? l_len l - 1) = (2 ^ 63 - 1 <? base + l_start l + l_len l - 1)) by lia. rewrite E2.
    destruct (Z.ltb_spec (2 ^ 63 - 1) (base + l_start l + l_len l - 1)); [done|]. replace (base + l_start l <? 0) with false by lia.
    rewrite s64_id by lia. destruct (_ && _) eqn:Et; [|done]. split; [done|]. intros _. exists base. split_and!; [done|done|]. apply Hty; [cbn; lia|done].
  - destruct (Z.ltb_spec (l_len l) 0) as [Hn|Hn].
    + replace (2 ^ 63 - 1 <? base + l_start l - 1) with false by lia. rewrite (s64_id (base + l_start l + l_len l)) by lia.
      destruct (Z.ltb_spec (base + l_start l + l_len l) 0); [done|]. rewrite s64_id by lia.
      destruct (_ && _) eqn:Et; [|done]. split; [done|]. intros _. exists base. split_and!; [done|done|]. apply Hty; [cbn; lia|done].
    + rewrite Z.ltb_irrefl. replace (base + l_start l <? 0) with false by lia.
      destruct (_ && _) eqn:Et; [|done]. split; [done|]. intros _. exists base. split_and!; [done|done|]. apply Hty; [cbn; lia|done].
Qed.

(** ** Single operations *)

Lemma locked_valid s o b ty : posix_wf s → locked s o b ty → 0 ≤ b ≤ OFFSET_MAX ∧ (ty = F_RDLCK ∨ ty = F_WRLCK).
Proof.
  intros W (p & Hp & _ & Hb & <-). destruct (wf_valid s p W Hp) as (V1 & V2 & V3). unfold inside in Hb. split; [lia|done].
Qed.

(** A byte has one lock of an owner. *)
Lemma locked_once s p q b :
  posix_wf s → p ∈ flc_posix s → q ∈ flc_posix s → fl_owner (fls s p) = fl_owner (fls s q) →
  inside (fls s p) b → inside (fls s q) b → p = q.
Proof.
  intros W Hp Hq Ho Bp Bq. destruct (groups_split s (fl_owner (fls s q)) W) as (gs1 & G & gs2 & Hnd & Hl & _ & Hg).
  assert (∀ x, x ∈ flc_posix s → fl_owner (fls s x) = fl_owner (fls s q) → x ∈ G) as HG.
  { intros x Hx Hox. rewrite Hl, !elem_of_app in Hx. destruct (decide (x ∈ G)); [done|]. exfalso.
    destruct (groups_others s (fl_owner (fls s q)) gs1 G gs2 x Hnd Hg) as [H _]; [rewrite elem_of_app; tauto|]. by apply H. }
  apply HG in Hp; [|done]. apply HG in Hq; [|done].
  destruct (Hg (fl_owner (fls s q)) G) as [_ Hord]; [rewrite elem_of_app, elem_of_cons; tauto|]. clear - Hp Hq Bp Bq Hord. unfold inside in *.
  induction G as [|x G IH]; [by apply elem_of_nil in Hp|]. destruct Hord as [Hx Hord].
  apply elem_of_cons in Hp as [->|Hp], Hq as [->|Hq]; [done|..].
  - destruct (Hx q Hq). lia.
  - destruct (Hx p Hp). lia.
  - by apply IH.
Qed.

Lemma locks_remove_posix_ok s lock owner filp tgid :
  file_wf s → private s lock → fl_blocker s lock = 0 →
  ∃ N s', (∀ fuel, (N < fuel)%nat → locks_remove_posix fuel s true lock owner filp tgid = Ok s') ∧ file_wf s' ∧ same_flock s s' ∧
    ∀ o b ty, locked s' o b ty ↔ o ≠ owner ∧ locked s o b ty.
Proof.
  intros W P Hb. unfold locks_remove_posix. cbn [negb orb]. case_bool_decide as E.
  { exists 0%nat, s. split_and!; [done|done|done|]. intros o b ty.
    assert (Hno : ∀ o b ty, ¬ locked s o b ty) by (intros ??? (p & Hp & _); rewrite E in Hp; by apply elem_of_nil in Hp).
    split; [intros H; by apply Hno in H|intros [_ H]; done]. }
  set (f := MkFl _ _ _ _ _ _ _). destruct (fill_wf s lock (λ _, f) W P) as (W1 & SP & SF). set (s1 := upd lock (λ _, f) s) in *.
  assert (Ef : fls s1 lock = f) by (apply fn_lookup_insert). destruct P as (P1 & P2 & P3).
  destruct (posix_lock_inode_ok s1 lock None None None) as (N & s' & e & R1 & R2 & R3 & R4).
  { apply W1. }
  { split; [rewrite Ef; split_and!; [done..|cbn; tauto]|done|done|done]. }
  { done. }
  { split; [intros n [?|?]; done|done]. }
  exists N, s'. split_and!.
  - intros fuel Hf. by rewrite R1.
  - split; [done|]. by apply (flock_wf_ext s1), W1.
  - destruct SF as [A1 A2], R3 as [B1 B2]. split; [congruence|]. intros p Hp. rewrite B2 by congruence. by apply A2.
  - assert (Hlk : ∀ o b ty, locked s1 o b ty ↔ locked s o b ty) by (intros; apply locked_ext; apply SP).
    unfold posix_result in R4. rewrite Ef in R4. change (flag (fl_flags f) FL_ACCESS) with false in R4. cbn [negb] in R4. rewrite andb_true_r in R4.
    case_bool_decide as E0.
    + intros o b ty. rewrite (proj2 R4). unfold granted_locks. rewrite Hlk. cbn [f fl_owner fl_type]. split; [|tauto].
      intros [(_ & _ & _ & H)|[H1 H2]]; [done|]. split; [|done]. intros ->. apply H1. split; [done|]. unfold inside. cbn.
      by apply (locked_valid s owner b ty (wf_posix s W)).
    + exfalso. destruct R4 as [_ [(? & _)|[(_ & [H _] & _)|[(_ & [H _] & _)|[(_ & [H _] & _)|[(_ & _ & [[_ H]|[_ H]])|(_ & _ & H & _)]]]]]]; done.
Qed.

Lemma posix_test_lock_ok s q :
  file_wf s → private s q → range_ok (fls s q) → fl_type (fls s q) ≠ F_UNLCK →
  let s' := posix_test_lock q s in
  file_wf s' ∧ same_posix s s' ∧ same_flock s s' ∧
  (conflicting (fls s q) (locked s) ∧
     (∃ p, p ∈ flc_posix s ∧ posix_locks_conflict (fls s q) (fls s p) = true ∧
       fls s' q = MkFl (fl_owner (fls s p)) (fl_flags (fls s p)) (fl_type (fls s p)) (fl_pid (fls s p)) 0 (fl_start (fls s p)) (fl_end (fls s p))) ∨
   ¬ conflicting (fls s q) (locked s) ∧ fls s' q = set_fl_type F_UNLCK (fls s q)).
Proof.
  intros W P Hr Ht s'. pose proof (find_conflict_spec s q (wf_posix s W) Hr Ht) as Hc. unfold s', posix_test_lock.
  destruct (find_conflict _ _ _ _) as [p|] eqn:E.
  - apply find_in in E as [Hp Hpc]. destruct Hc as [_ Hc].
    destruct (fill_wf s q (λ _, MkFl (fl_owner (fls s p)) (fl_flags (fls s p)) (fl_type (fls s p)) (fl_pid (fls s p)) 0 (fl_start (fls s p)) (fl_end (fls s p))) W P) as (F1 & F2 & F3).
    split_and!; [done..|]. left. split; [done|]. exists p. split_and!; [done|done|]. apply fn_lookup_insert.
  - destruct (fill_wf s q (set_fl_type F_UNLCK) W P) as (F1 & F2 & F3). split_and!; [done..|]. right. split; [done|]. apply fn_lookup_insert.
Qed.

(** ** The machine *)

Definition no_locks (h : Z → file_lock) : lock_state := MkLocks h [] [] (λ _, 0) (λ _, []) [] [].

(** What tasks do. A task fills in a structure of its own that does not wait and
    is on no list, and calls one of the routines; allocations give structures
    nothing refers to. The results are those with enough fuel for the walks along
    chains of waiters. *)
Inductive lock_step (s : lock_state) : lock_state → Prop :=
| step_posix_lock q f cf a1 a2 N s' e :
    private s q → fl_blocker s q = 0 → range_ok f → conflock_ok s q cf → spares_ok s q a1 a2 →
    (∀ fuel, (N < fuel)%nat → posix_lock_inode fuel (upd q (λ _, f) s) true q cf a1 a2 = Ok (s', e)) → lock_step s s'
| step_flock q filp cmd tgid sleep alloc N s' e :
    private s q → fl_blocker s q = 0 → (∀ n, alloc = Some n → idle s n ∧ n ≠ 0 ∧ n ≠ q) →
    0 ≤ flock_translate_cmd cmd →
    (∀ fuel, (N < fuel)%nat → flock_lock_inode fuel
      (upd q (λ f, if (sleep : bool) then MkFl (fl_owner f) (Z.lor (fl_flags f) FL_SLEEP) (fl_type f) (fl_pid f) (fl_file f) (fl_start f) (fl_end f) else f)
         (flock_make_lock filp cmd tgid (Some q) None s).1) true q alloc = Ok (s', e)) → lock_step s s'
| step_test q f :
    private s q → range_ok f → fl_type f ≠ F_UNLCK → lock_step s (posix_test_lock q (upd q (λ _, f) s))
| step_cancel q : private s q → lock_step s (locks_delete_block q s).1
| step_close lock owner filp tgid N s' :
    private s lock → fl_blocker s lock = 0 → (∀ fuel, (N < fuel)%nat → locks_remove_posix fuel s true lock owner filp tgid = Ok s') → lock_step s s'.

Definition reachable (s : lock_state) : Prop := ∃ h, rtc lock_step (no_locks h) s.

Lemma no_locks_wf h : file_wf (no_locks h).
Proof.
  split.
  - split.
    + split; cbn; try done; intros; by match goal with H : _ ∈ [] |- _ => apply elem_of_nil in H | H : _ ∨ _ |- _ => destruct H as [H|H]; apply elem_of_nil in H end.
    + exists 0%nat, (λ _, 0%nat). intros w Hw. done.
    + apply NoDup_nil_2.
    + exists []. split_and!; [apply NoDup_nil_2|done|]. intros o g H. by apply elem_of_nil in H.
    + intros o1 o2 b t1 t2 _ (p & Hp & _). by apply elem_of_nil in Hp.
  - split; cbn; [apply NoDup_nil_2|..]; intros p; intros; by match goal with H : _ ∈ [] |- _ => apply elem_of_nil in H end.
Qed.

(** Results with enough fuel are unique. *)
Lemma eventually_unique {A} (f : nat → outcome A) N N' x y :
  (∀ fuel, (N < fuel)%nat → f fuel = Ok x) → (∀ fuel, (N' < fuel)%nat → f fuel = Ok y) → x = y.
Proof. intros H H'. specialize (H (S (N + N')) ltac:(lia)). specialize (H' (S (N + N')) ltac:(lia)). congruence. Qed.

Lemma upd_here s q g : fls (upd q g s) q = g (fls s q).
Proof. apply fn_lookup_insert. Qed.

(** A request in a structure that is on no list. *)
Lemma filled_ok s q f : private s q → fl_blocker s q = 0 → range_ok f → request_ok (upd q (λ _, f) s) q.
Proof. intros (P1 & P2 & P3) Hb Hf. split; [by rewrite upd_here|done|done|done]. Qed.

Lemma spares_fill s q f a1 a2 : spares_ok s q a1 a2 → spares_ok (upd q (λ _, f) s) q a1 a2.
Proof. intros [S1 S2]. split; [|done]. intros n Hn. destruct (S1 n Hn) as ([]&?&?). done. Qed.

Lemma translate_cmd_ok cmd :
  0 ≤ flock_translate_cmd cmd →
  flock_translate_cmd cmd = F_RDLCK ∨ flock_translate_cmd cmd = F_WRLCK ∨ flock_translate_cmd cmd = F_UNLCK ∨
  mandatory (flock_translate_cmd cmd) = true.
Proof.
  unfold flock_translate_cmd, mandatory. destruct (flag cmd LOCK_MAND) eqn:E.
  - intros _. do 3 right. unfold flag in *. rewrite <- Z.land_assoc. change (Z.land (Z.lor LOCK_MAND LOCK_RW) LOCK_MAND) with LOCK_MAND. done.
  - repeat case_match; [tauto..|done].
Qed.

Lemma lock_step_wf s s' : file_wf s → lock_step s s' → file_wf s'.
Proof.
  intros W []; match goal with P : private s ?q |- _ => pose proof P as (P1 & P2 & P3) end.
  - destruct (fill_wf s q (λ _, f) W) as (W1 & SP & SF); [done|].
    destruct (posix_lock_inode_ok (upd q (λ _, f) s) q cf a1 a2) as (N' & s1 & e1 & R1 & R2 & R3 & _); [apply W1|by apply filled_ok|done|by apply spares_fill|].
    assert ((s'0, e) = (s1, e1)) as [= -> ->] by (eapply (eventually_unique (λ fuel, posix_lock_inode fuel (upd q (λ _, f) s) true q cf a1 a2)); eassumption). split; [done|]. apply (flock_wf_ext (upd q (λ _, f) s)); [done|apply W1].
  - unfold flock_make_lock in *. rewrite (proj2 (Z.ltb_ge _ _)) in * by done. cbn [fst] in *.
    set (s1 := upd q (λ _, MkFl _ _ _ _ _ _ _) s) in *. destruct (fill_wf s q (λ _, MkFl filp FL_FLOCK (flock_translate_cmd cmd) tgid filp 0 OFFSET_MAX) W) as (W1 & _ & _); [done|].
    fold s1 in W1. set (s2 := upd q _ s1) in *. destruct (fill_wf s1 q (λ f, if sleep then MkFl (fl_owner f) (Z.lor (fl_flags f) FL_SLEEP) (fl_type f) (fl_pid f) (fl_file f) (fl_start f) (fl_end f) else f) W1) as (W2 & _ & _); [done|].
    fold s2 in W2.
    destruct (flock_lock_inode_ok s2 q alloc W2) as (N' & s3 & e1 & R1 & R2 & _ & _).
    { split; [|done|done|done]. unfold s2. rewrite upd_here. unfold s1. rewrite upd_here. destruct sleep; by apply translate_cmd_ok. }
    { intros n Hn. destruct (H1 n Hn) as ([] & ? & ?). done. }
    assert ((s'0, e) = (s3, e1)) as [= -> ->] by (eapply (eventually_unique (λ fuel, flock_lock_inode fuel s2 true q alloc)); eassumption). done.
  - destruct (fill_wf s q (λ _, f) W) as (W1 & _ & _); [done|]. apply posix_test_lock_ok; [done|done|by rewrite upd_here..].
  - pose proof (locks_delete_block_ok s q W) as H'. destruct (locks_delete_block q s) as [s1 st]. by apply H'.
  - destruct (locks_remove_posix_ok s lock owner filp tgid W) as (N' & s1 & R1 & R2 & _); [done|done|].
    assert (s'0 = s1) as -> by (eapply (eventually_unique (λ fuel, locks_remove_posix fuel s true lock owner filp tgid)); eassumption). done.
Qed.

Lemma reachable_wf s : reachable s → file_wf s.
Proof.
  intros [h H]. remember (no_locks h) as s0 eqn:E. assert (W : file_wf s0) by (subst; apply no_locks_wf). clear E.
  induction H as [|s1 s2 s3 H1 _ IH]; [done|]. apply IH. by apply (lock_step_wf s1).
Qed.

(** ** Properties *)

(** C5: whatever tasks do, a byte that two owners have locked with POSIX locks is
    read-locked by both; no lock is listed twice and an owner has at most one
    lock on a byte; two open files that have locked the file with flock have
    both locked it shared, unless one of the two locks is a mandatory share mode
    (LOCK_MAND), which conflicts with nothing; and an open file has at most one
    flock lock. *)
Theorem file_locks_exclusive (s : lock_state) (H : reachable s) :
  (∀ o1 o2 b t1 t2, o1 ≠ o2 → locked s o1 b t1 → locked s o2 b t2 → t1 = F_RDLCK ∧ t2 = F_RDLCK) ∧
  NoDup (flc_posix s) ∧
  (∀ p q b, p ∈ flc_posix s → q ∈ flc_posix s → fl_owner (fls s p) = fl_owner (fls s q) →
     inside (fls s p) b → inside (fls s q) b → p = q) ∧
  (∀ f1 f2 t1 t2, f1 ≠ f2 → flocked s f1 t1 → flocked s f2 t2 → mandatory t1 = false → mandatory t2 = false → t1 = F_RDLCK ∧ t2 = F_RDLCK) ∧
  NoDup (flc_flock s) ∧
  (∀ p q, p ∈ flc_flock s → q ∈ flc_flock s → fl_file (fls s p) = fl_file (fls s q) → p = q).
Proof.
  apply reachable_wf in H as [W1 W2]. split_and!; [apply W1|apply W1| | |apply W2|apply W2].
  - intros p q b. by apply locked_once.
  - intros f1 f2 t1 t2 Hne (p & Hp & <- & <-) (q & Hq & <- & <-). apply (fw_shared s W2); [done|done|]. by intros ->.
Qed.

(** C4: [posix_lock_inode] on any well-formed list of locks returns, keeps it
    well formed and leaves flock locks alone. When it grants the request, every
    byte has exactly the lock the request asks for if it is the owner's and in
    the range, and the lock it had otherwise; the request did not conflict. On
    every error no lock is changed, and each error has its cause: [-EAGAIN],
    [-EDEADLK] and blocking a conflict with another owner, [-ENOLCK] a missing
    lock structure, [-ENOENT] an unlock of bytes the owner had not locked. *)
Theorem posix_lock_inode_correct (s : lock_state) (q : Z) (cf a1 a2 : option Z)
    (W : posix_wf s) (Q : request_ok s q) (Hc : conflock_ok s q cf) (Hs : spares_ok s q a1 a2) :
  ∃ N s' e, (∀ fuel, (N < fuel)%nat → posix_lock_inode fuel s true q cf a1 a2 = Ok (s', e)) ∧
    posix_wf s' ∧ same_flock s s' ∧ posix_result s q a1 a2 s' e.
Proof. by apply posix_lock_inode_ok. Qed.

(** C26: [flock_lock_inode] returns, keeps the lists well formed and leaves POSIX
    locks alone. A granted request gives the open file its lock and no other
    file loses one; a request that conflicts fails or blocks, having given up
    the lock the open file had; the other errors change nothing. *)
Theorem flock_lock_inode_correct (s : lock_state) (q : Z) (alloc : option Z)
    (W : file_wf s) (Q : frequest_ok s q) (Hn : ∀ n, alloc = Some n → idle s n ∧ n ≠ 0 ∧ n ≠ q) :
  ∃ N s' e, (∀ fuel, (N < fuel)%nat → flock_lock_inode fuel s true q alloc = Ok (s', e)) ∧
    file_wf s' ∧ same_posix s s' ∧ flock_result s q alloc s' e.
Proof. by apply flock_lock_inode_ok. Qed.

(** C27: [flock64_to_posix_lock] computes the range asked for exactly, for all
    64-bit offsets and lengths, and none of its sums is taken for another by
    wrapping: it reports an overflow just when a bound exceeds the last offset
    and an invalid argument just when one is negative or the type or origin is
    unknown. What it accepts is a valid request. *)
Theorem flock64_to_posix_lock_correct (filp f_pos i_size files tgid : Z) (fl : file_lock) (l : flock64)
    (Hp : 0 ≤ f_pos ≤ OFFSET_MAX) (Hi : 0 ≤ i_size ≤ OFFSET_MAX) (Hs : - 2 ^ 63 ≤ l_start l < 2 ^ 63) (Hl : - 2 ^ 63 ≤ l_len l < 2 ^ 63) :
  let '(fl', e) := flock64_to_posix_lock filp f_pos i_size files tgid fl l in
  e = flock64_error f_pos i_size l ∧
  (e = 0 → ∃ base, flock_base f_pos i_size l = Some base ∧
     fl' = MkFl files FL_POSIX (l_type l) tgid filp (flock_first base l) (flock_last base l) ∧ range_ok fl').
Proof. by apply flock64_ok. Qed.

(** Closing a file drops all POSIX locks of the owner, never fails for lack
    of memory, and changes no other lock. *)
Theorem locks_remove_posix_correct (s : lock_state) (lock owner filp tgid : Z)
    (W : file_wf s) (P : private s lock) (Hb : fl_blocker s lock = 0) :
  ∃ N s', (∀ fuel, (N < fuel)%nat → locks_remove_posix fuel s true lock owner filp tgid = Ok s') ∧ file_wf s' ∧ same_flock s s' ∧
    ∀ o b ty, locked s' o b ty ↔ o ≠ owner ∧ locked s o b ty.
Proof. by apply locks_remove_posix_ok. Qed.


(** [posix_test_lock] reports a conflicting lock when there is one and an unlocked
    range otherwise, and changes no lock. *)
Theorem posix_test_lock_correct (s : lock_state) (q : Z)
    (W : file_wf s) (P : private s q) (Hr : range_ok (fls s q)) (Ht : fl_type (fls s q) ≠ F_UNLCK) :
  let s' := posix_test_lock q s in
  same_posix s s' ∧ same_flock s s' ∧ (fl_type (fls s' q) = F_UNLCK ↔ ¬ conflicting (fls s q) (locked s)).
Proof.
  intros s'. destruct (posix_test_lock_ok s q W P Hr Ht) as (_ & S1 & S2 & H). fold s' in S1, S2, H. split_and!; [done|done|].
  destruct H as [[Hc (p & Hp & _ & E)]|[Hc E]]; rewrite E; cbn; [|done].
  destruct (wf_valid s p (wf_posix s W) Hp) as (_ & _ & [-> | ->]); done.
Qed.

(** A task that gives up waiting has its structure back: nothing refers to it any
    more and it can be freed. *)
Theorem locks_delete_block_correct (s : lock_state) (q : Z) (W : file_wf s) (P : private s q) :
  let '(s', status) := locks_delete_block q s in
  file_wf s' ∧ same_posix s s' ∧ same_flock s s' ∧ locks_free_lock s' q = Ok () ∧
  status = (if bool_decide (fl_blocker s q = 0) then - ENOENT else 0).
Proof.
  pose proof (locks_delete_block_ok s q W P) as H. destruct (locks_delete_block q s) as [s' st]. destruct H as (W' & S1 & S2 & I & E).
  split_and!; [done|done|done| |done]. apply idle_free; [apply W'|done].
Qed.

(** An unlock with [FL_EXISTS] of a file nobody ever locked: flock tells that there
    was no lock, POSIX reports success. *)
Theorem unlock_without_context (fuel : nat) (s : lock_state) (q : Z) (cf a1 a2 alloc : option Z)
    (Ht : fl_type (fls s q) = F_UNLCK) (Hx : flag (fl_flags (fls s q)) FL_EXISTS = true) :
  posix_lock_inode fuel s false q cf a1 a2 = Ok (s, 0) ∧ flock_lock_inode fuel s false q alloc = Ok (s, - ENOENT).
Proof. unfold posix_lock_inode, flock_lock_inode. cbn [negb]. rewrite Ht, Hx. done. Qed.

(** ** Examples *)

(** The owner 7 write-locks bytes 0 to 99, and then wants to unlock 40 to 59. *)
Definition ex_empty : lock_state := no_locks (λ _, MkFl 0 0 0 0 0 0 0).
Definition ex_write : file_lock := MkFl 7 FL_POSIX F_WRLCK 7 100 0 99.
Definition ex_locked : lock_state :=
  match posix_lock_inode 1 (upd 1 (λ _, ex_write) ex_empty) true 1 None (Some 2) (Some 3) with
  | Ok (s, _) => s
  | _ => ex_empty
  end.
Definition ex_unlock : lock_state := upd 4 (λ _, MkFl 7 FL_POSIX F_UNLCK 7 100 40 59) ex_locked.


Lemma ex_private s q :
  bool_decide (q ∉ flc_posix s) && bool_decide (q ∉ flc_flock s) && negb (q =? 0) = true → private s q.
Proof. intros [[H1%bool_decide_eq_true H2%bool_decide_eq_true]%andb_prop H3%negb_true_iff%Z.eqb_neq]%andb_prop. done. Qed.

Lemma ex_idle s n :
  bool_decide (n ∉ flc_posix s) && bool_decide (n ∉ flc_flock s) && bool_decide (fl_blocked_requests s n = []) && (fl_blocker s n =? 0) = true → idle s n.
Proof.
  intros [[[H1%bool_decide_eq_true H2%bool_decide_eq_true]%andb_prop H3%bool_decide_eq_true]%andb_prop H4%Z.eqb_eq]%andb_prop. done.
Qed.

Lemma ex_spares s q n m :
  idle s n → idle s m → n ≠ 0 → m ≠ 0 → n ≠ q → m ≠ q → n ≠ m → spares_ok s q (Some n) (Some m).
Proof. intros. split; [intros x [[= <-]|[= <-]]; done|intros x [= <-] [= ->]; done]. Qed.

Lemma ex_reachable : reachable ex_locked.
Proof.
  exists (λ _, MkFl 0 0 0 0 0 0 0). apply rtc_once. apply (step_posix_lock ex_empty 1 ex_write None (Some 2) (Some 3) 0 _ 0).
  - by apply ex_private.
  - done.
  - split_and!; [done..|]. right. by left.
  - done.
  - apply ex_spares; try done; by apply ex_idle.
  - intros fuel _. vm_compute. reflexivity.
Qed.

Lemma ex_wf : file_wf ex_locked.
Proof. apply reachable_wf, ex_reachable. Qed.

Lemma ex_unlock_wf : file_wf ex_unlock.
Proof. apply (fill_wf ex_locked 4); [apply ex_wf|]. by apply ex_private. Qed.

Lemma file_locks_exclusive_witness :
  reachable ex_locked ∧ 2 ∈ flc_posix ex_locked ∧ inside (fls ex_locked 2) 50 ∧
  ∀ q, q ∈ flc_posix ex_locked → fl_owner (fls ex_locked q) = 7 → inside (fls ex_locked q) 50 → q = 2.
Proof.
  assert (L : 2 ∈ flc_posix ex_locked) by (apply elem_of_cons; by left).
  assert (B : inside (fls ex_locked 2) 50) by (split; vm_compute; discriminate).
  split; [apply ex_reachable|]. split; [done|]. split; [done|]. intros q Hq Ho Hb.
  destruct (file_locks_exclusive ex_locked ex_reachable) as (_ & _ & H2 & _). by apply (H2 q 2 50).
Defined.

Lemma posix_lock_inode_correct_witness :
  posix_wf ex_unlock ∧ request_ok ex_unlock 4 ∧ conflock_ok ex_unlock 4 None ∧ spares_ok ex_unlock 4 (Some 5) (Some 6) ∧
  (∃ s', posix_lock_inode 1 ex_unlock true 4 None (Some 5) (Some 6) = Ok (s', 0) ∧
    map (λ p, (fl_start (fls s' p), fl_end (fls s' p))) (flc_posix s') = [(0, 39); (60, 99)]) ∧
  ∃ N s' e, (∀ fuel, (N < fuel)%nat → posix_lock_inode fuel ex_unlock true 4 None (Some 5) (Some 6) = Ok (s', e)) ∧
    posix_wf s' ∧ same_flock ex_unlock s' ∧ posix_result ex_unlock 4 (Some 5) (Some 6) s' e.
Proof.
  assert (W : posix_wf ex_unlock) by apply ex_unlock_wf.
  assert (Q : request_ok ex_unlock 4).
  { apply filled_ok; [by apply ex_private|done|]. split_and!; [done..|]. right. by right. }
  assert (S : spares_ok ex_unlock 4 (Some 5) (Some 6)) by (apply ex_spares; try done; by apply ex_idle).
  split_and!; [done|done|done|done| |].
  - eexists. split; [vm_compute; reflexivity|vm_compute; reflexivity].
  - by apply posix_lock_inode_correct.
Defined.

Lemma flock_lock_inode_correct_witness :
  let s := upd 4 (λ _, MkFl 100 FL_FLOCK F_WRLCK 7 100 0 OFFSET_MAX) ex_locked in
  file_wf s ∧ frequest_ok s 4 ∧ idle s 5 ∧
  ∃ N s' e, (∀ fuel, (N < fuel)%nat → flock_lock_inode fuel s true 4 (Some 5) = Ok (s', e)) ∧
    file_wf s' ∧ same_posix s s' ∧ flock_result s 4 (Some 5) s' e.
Proof.
  intros s. assert (W : file_wf s) by (apply (fill_wf ex_locked 4); [apply ex_wf|by apply ex_private]).
  assert (Q : frequest_ok s 4).
  { destruct (ex_private ex_locked 4 eq_refl) as (P1 & P2 & P3). split; [right; by left|done|done|done]. }
  assert (I : idle s 5) by (by apply ex_idle). split_and!; [done|done|done|]. apply flock_lock_inode_correct; [done|done|].
  intros n [= <-]. done.
Defined.

Lemma flock64_to_posix_lock_correct_witness :
  let l := MkFlock64 F_WRLCK 1 (- 10) (- 5) in
  let '(fl', e) := flock64_to_posix_lock 100 50 1000 7 7 ex_write l in
  e = 0 ∧ fl_start fl' = 35 ∧ fl_end fl' = 39 ∧ e = flock64_error 50 1000 l.
Proof.
  pose proof (flock64_to_posix_lock_correct 100 50 1000 7 7 ex_write (MkFlock64 F_WRLCK 1 (- 10) (- 5))
    ltac:(done) ltac:(done) ltac:(done) ltac:(done)) as [H _].
  split_and!; [reflexivity|reflexivity|reflexivity|exact H].
Defined.

Lemma locks_remove_posix_correct_witness :
  file_wf ex_locked ∧ private ex_locked 4 ∧ fl_blocker ex_locked 4 = 0 ∧
  ∃ N s', (∀ fuel, (N < fuel)%nat → locks_remove_posix fuel ex_locked true 4 7 100 7 = Ok s') ∧ file_wf s' ∧ same_flock ex_locked s' ∧
    ∀ o b ty, locked s' o b ty ↔ o ≠ 7 ∧ locked ex_locked o b ty.
Proof.
  assert (P : private ex_locked 4) by (by apply ex_private). split_and!; [apply ex_wf|done..|].
  apply locks_remove_posix_correct; [apply ex_wf|done|done].
Defined.


End FileLocksTrace.
