(* ===== verification/TimerWheel.v ===== *)
(** * The timer wheel

    time/src/timer.c: timers hashed into nine levels of 64 buckets, each level
    eight times coarser than the one below it. HZ is 250 (nine levels) and
    there is one CPU, so that the target base of a timer is the base it is on;
    the model is one [timer_base] with its timers. The array [heads] on the
    stack of [__run_timers], from which the expired timers are called with the
    base unlocked, is part of the state because the other operations unlink
    timers from it. *)

From stdpp Require Import base numbers list option functions.
From Stdlib Require Import ZArith Lia.
From S2P Require Import Prelude Bitops Bitmap.

Open Scope Z_scope.

Module TimerWheel.
Import Bitmap.

Definition LVL_CLK_SHIFT : Z := 3.
Definition LVL_CLK_DIV : Z := Z.shiftl 1 LVL_CLK_SHIFT.
Definition LVL_CLK_MASK : Z := LVL_CLK_DIV - 1.
Definition LVL_SHIFT (n : Z) : Z := n * LVL_CLK_SHIFT.
Definition LVL_GRAN (n : Z) : Z := Z.shiftl 1 (LVL_SHIFT n).
Definition LVL_BITS : Z := 6.
Definition LVL_SIZE : Z := Z.shiftl 1 LVL_BITS.
Definition LVL_MASK : Z := LVL_SIZE - 1.
Definition LVL_OFFS (n : Z) : Z := n * LVL_SIZE.
Definition LVL_START (n : Z) : Z := Z.shiftl (LVL_SIZE - 1) ((n - 1) * LVL_CLK_SHIFT).
Definition LVL_DEPTH : Z := 9.
Definition WHEEL_TIMEOUT_CUTOFF : Z := LVL_START LVL_DEPTH.
Definition WHEEL_TIMEOUT_MAX : Z := WHEEL_TIMEOUT_CUTOFF - LVL_GRAN (LVL_DEPTH - 1).
Definition WHEEL_SIZE : Z := LVL_SIZE * LVL_DEPTH.
Definition NEXT_TIMER_MAX_DELTA : Z := Z.shiftl 1 30 - 1.

Definition TIMER_ARRAYSHIFT : Z := 22.
Definition TIMER_ARRAYMASK : Z := 0xFFC00000.
Definition MOD_TIMER_PENDING_ONLY : Z := 1.
Definition MOD_TIMER_REDUCE : Z := 2.
Definition MOD_TIMER_NOTPENDING : Z := 4.

Definition UINT_MAX : Z := 2 ^ 32 - 1.
Definition TICK_NSEC : Z := 4000000.
Definition KTIME_MAX : Z := 2 ^ 63 - 1.

Definition time_after (a b : Z) : bool := s64 (b - a) <? 0.
Definition time_before (a b : Z) : bool := time_after b a.
Definition time_after_eq (a b : Z) : bool := 0 <=? s64 (a - b).
Definition time_before_eq (a b : Z) : bool := time_after_eq b a.

(** A timer is its address, which is not 0. [linked] is [entry.pprev != NULL]. *)
Record timer_list := mk_timer { expires : Z; function : Z; flags : Z; linked : bool }.

Record timer_base := mk_base {
  running_timer : Z;
  clk : Z;
  next_expiry : Z;
  next_expiry_recalc : bool;
  is_idle : bool;
  pending_map : list Z;
  vectors : Z → list Z
}.

(** [heads] is the frame of [__run_timers], if it runs: the lists it has still
    to expire, in the order it expires them (the last one collected first). *)
Record wheel := mk_wheel {
  jiffies : Z;
  timers : Z → timer_list;
  base : timer_base;
  heads : option (list (list Z))
}.

Definition set_expires (e : Z) (t : timer_list) : timer_list := mk_timer e (function t) (flags t) (linked t).
Definition set_flags (f : Z) (t : timer_list) : timer_list := mk_timer (expires t) (function t) f (linked t).
Definition set_linked (l : bool) (t : timer_list) : timer_list := mk_timer (expires t) (function t) (flags t) l.

Definition set_running (r : Z) (b : timer_base) : timer_base :=
  mk_base r (clk b) (next_expiry b) (next_expiry_recalc b) (is_idle b) (pending_map b) (vectors b).
Definition set_clk (c : Z) (b : timer_base) : timer_base :=
  mk_base (running_timer b) c (next_expiry b) (next_expiry_recalc b) (is_idle b) (pending_map b) (vectors b).
Definition set_next (n : Z) (r : bool) (b : timer_base) : timer_base :=
  mk_base (running_timer b) (clk b) n r (is_idle b) (pending_map b) (vectors b).
Definition set_idle (i : bool) (b : timer_base) : timer_base :=
  mk_base (running_timer b) (clk b) (next_expiry b) (next_expiry_recalc b) i (pending_map b) (vectors b).
Definition set_buckets (m : list Z) (v : Z → list Z) (b : timer_base) : timer_base :=
  mk_base (running_timer b) (clk b) (next_expiry b) (next_expiry_recalc b) (is_idle b) m v.

Definition set_jiffies (j : Z) (w : wheel) : wheel := mk_wheel j (timers w) (base w) (heads w).
Definition set_timer (t : Z) (f : timer_list → timer_list) (w : wheel) : wheel :=
  mk_wheel (jiffies w) (<[t := f (timers w t)]> (timers w)) (base w) (heads w).
Definition set_base (b : timer_base) (w : wheel) : wheel := mk_wheel (jiffies w) (timers w) b (heads w).
Definition set_heads (h : option (list (list Z))) (w : wheel) : wheel :=
  mk_wheel (jiffies w) (timers w) (base w) h.

Definition timer_pending (t : timer_list) : bool := linked t.

(** ** Buckets *)

Definition timer_get_idx (t : timer_list) : Z :=
  Z.shiftr (Z.land (flags t) TIMER_ARRAYMASK) TIMER_ARRAYSHIFT.

Definition timer_set_idx (idx : Z) (t : timer_list) : timer_list :=
  set_flags (Z.lor (Z.land (flags t) (u32 (Z.lnot TIMER_ARRAYMASK))) (u32 (Z.shiftl idx TIMER_ARRAYSHIFT))) t.

(** The index, and what is stored in [bucket_expiry]. *)
Definition calc_index (expires lvl : Z) : Z * Z :=
  let expires := Z.shiftr (u64 (expires + LVL_GRAN lvl)) (LVL_SHIFT lvl) in
  (LVL_OFFS lvl + Z.land expires LVL_MASK, u64 (Z.shiftl expires (LVL_SHIFT lvl))).

Definition calc_wheel_index (expires clk : Z) : Z * Z :=
  let delta := u64 (expires - clk) in
  if delta <? LVL_START 1 then calc_index expires 0
  else if delta <? LVL_START 2 then calc_index expires 1
  else if delta <? LVL_START 3 then calc_index expires 2
  else if delta <? LVL_START 4 then calc_index expires 3
  else if delta <? LVL_START 5 then calc_index expires 4
  else if delta <? LVL_START 6 then calc_index expires 5
  else if delta <? LVL_START 7 then calc_index expires 6
  else if (8 <? LVL_DEPTH) && (delta <? LVL_START 8) then calc_index expires 7
  else if s64 delta <? 0 then (Z.land clk LVL_MASK, clk)
  else
    let expires := if WHEEL_TIMEOUT_CUTOFF <=? delta then u64 (clk + WHEEL_TIMEOUT_MAX) else expires in
    calc_index expires (LVL_DEPTH - 1).

(** Waking the CPU up changes nothing here. *)
Definition enqueue_timer (w : wheel) (timer idx bucket_expiry : Z) : outcome wheel :=
  map ← __set_bit idx (pending_map (base w));
  let b := set_buckets map (<[idx := timer :: vectors (base w) idx]> (vectors (base w))) (base w) in
  let b := if time_before bucket_expiry (next_expiry b) then set_next bucket_expiry false b else b in
  Ok (set_base b (set_timer timer (λ t, timer_set_idx idx (set_linked true t)) w)).

Definition internal_add_timer (w : wheel) (timer : Z) : outcome wheel :=
  let '(idx, bucket_expiry) := calc_wheel_index (expires (timers w timer)) (clk (base w)) in
  enqueue_timer w timer idx bucket_expiry.

(** [__hlist_del] takes the timer out of the list it is on. *)
Definition unlink (timer : Z) (l : list Z) : list Z := filter (λ t, t ≠ timer) l.

Definition detach_timer (w : wheel) (timer : Z) (clear_pending : bool) : wheel :=
  let b := set_buckets (pending_map (base w)) (λ i, unlink timer (vectors (base w) i)) (base w) in
  let w := set_heads (map (unlink timer) <$> heads w) (set_base b w) in
  if clear_pending then set_timer timer (set_linked false) w else w.

Definition detach_if_pending (w : wheel) (timer : Z) (clear_pending : bool) : outcome (wheel * Z) :=
  let idx := timer_get_idx (timers w timer) in
  if negb (timer_pending (timers w timer)) then Ok (w, 0)
  else
    b ← (if bool_decide (vectors (base w) idx = [timer]) then
           map ← __clear_bit idx (pending_map (base w));
           Ok (set_next (next_expiry (base w)) true (set_buckets map (vectors (base w)) (base w)))
         else Ok (base w));
    Ok (detach_timer (set_base b w) timer clear_pending, 1).

Definition forward_timer_base (jnow : Z) (b : timer_base) : timer_base :=
  if s64 (jnow - clk b) <? 1 then b
  else if time_after (next_expiry b) jnow then set_clk jnow b
  else if time_before (next_expiry b) (clk b) then b
  else set_clk (next_expiry b) b.

(** ** Starting, changing and stopping timers *)

(** What [__mod_timer] reads before it takes the lock: it returns 1, or goes
    on along the branch for pending timers or along the other one. *)
Inductive mod_path := ModReturn | ModPending | ModOther.

Definition mod_timer_unlocked (t : timer_list) (expires' options : Z) : mod_path :=
  if (Z.land options MOD_TIMER_NOTPENDING =? 0) && timer_pending t then
    let diff := s64 (expires t - expires') in
    if diff =? 0 then ModReturn
    else if negb (Z.land options MOD_TIMER_REDUCE =? 0) && (diff <=? 0) then ModReturn
    else ModPending
  else ModOther.

(** The timer is unlinked and put into the bucket of its new expiry; [idx] and
    [clk'] are what the branch for pending timers has computed. *)
Definition mod_timer_requeue (w : wheel) (timer expires' options idx bucket_expiry clk' : Z)
    : outcome (wheel * Z) :=
  '(w, ret) ← detach_if_pending w timer false;
  if (ret =? 0) && negb (Z.land options MOD_TIMER_PENDING_ONLY =? 0) then Ok (w, ret)
  else
    let w := set_timer timer (set_expires expires') w in
    w ← (if negb (idx =? UINT_MAX) && (clk' =? clk (base w))
         then enqueue_timer w timer idx bucket_expiry
         else internal_add_timer w timer);
    Ok (w, ret).

(** What it does with the lock held. *)
Definition mod_timer_locked (w : wheel) (timer expires' options : Z) (path : mod_path)
    : outcome (wheel * Z) :=
  match path with
  | ModReturn => Ok (w, 1)
  | ModPending =>
      let w := set_base (forward_timer_base (jiffies w) (base w)) w in
      if timer_pending (timers w timer) && negb (Z.land options MOD_TIMER_REDUCE =? 0)
         && time_before_eq (expires (timers w timer)) expires'
      then Ok (w, 1)
      else
        let clk' := clk (base w) in
        let '(idx, bucket_expiry) := calc_wheel_index expires' clk' in
        if idx =? timer_get_idx (timers w timer) then
          if Z.land options MOD_TIMER_REDUCE =? 0 then Ok (set_timer timer (set_expires expires') w, 1)
          else if time_after (expires (timers w timer)) expires'
               then Ok (set_timer timer (set_expires expires') w, 1)
               else Ok (w, 1)
        else mod_timer_requeue w timer expires' options idx bucket_expiry clk'
  | ModOther =>
      let w := set_base (forward_timer_base (jiffies w) (base w)) w in
      mod_timer_requeue w timer expires' options UINT_MAX 0 0
  end.

Definition __mod_timer (w : wheel) (timer expires' options : Z) : outcome (wheel * Z) :=
  if function (timers w timer) =? 0 then Panic
  else mod_timer_locked w timer expires' options (mod_timer_unlocked (timers w timer) expires' options).

Definition mod_timer_pending (w : wheel) (timer expires' : Z) : outcome (wheel * Z) :=
  __mod_timer w timer expires' MOD_TIMER_PENDING_ONLY.

Definition mod_timer (w : wheel) (timer expires' : Z) : outcome (wheel * Z) := __mod_timer w timer expires' 0.

Definition timer_reduce (w : wheel) (timer expires' : Z) : outcome (wheel * Z) :=
  __mod_timer w timer expires' MOD_TIMER_REDUCE.

Definition add_timer (w : wheel) (timer : Z) : outcome wheel :=
  if timer_pending (timers w timer) then Panic
  else '(w, _) ← __mod_timer w timer (expires (timers w timer)) MOD_TIMER_NOTPENDING; Ok w.

Definition add_timer_on (w : wheel) (timer : Z) : outcome wheel :=
  if timer_pending (timers w timer) || (function (timers w timer) =? 0) then Panic
  else internal_add_timer (set_base (forward_timer_base (jiffies w) (base w)) w) timer.

Definition del_timer (w : wheel) (timer : Z) : outcome (wheel * Z) :=
  if timer_pending (timers w timer) then detach_if_pending w timer true else Ok (w, 0).

Definition try_to_del_timer_sync (w : wheel) (timer : Z) : outcome (wheel * Z) :=
  if negb (running_timer (base w) =? timer) then detach_if_pending w timer true else Ok (w, -1).

(** ** The next event *)

Definition next_pending_bucket (b : timer_base) (offset clk : Z) : outcome Z :=
  let start := offset + clk in
  let end_ := offset + LVL_SIZE in
  pos ← find_next_bit (pending_map b) end_ start;
  if pos <? end_ then Ok (pos - start)
  else
    pos ← find_next_bit (pending_map b) start offset;
    Ok (if pos <? start then pos + LVL_SIZE - start else -1).

Fixpoint next_levels (n : nat) (b : timer_base) (lvl offset clk next : Z) : outcome Z :=
  match n with
  | O => Ok next
  | S n =>
      pos ← next_pending_bucket b offset (Z.land clk LVL_MASK);
      let lvl_clk := Z.land clk LVL_CLK_MASK in
      let tmp := u64 (Z.shiftl (u64 (clk + pos)) (LVL_SHIFT lvl)) in
      let next := if (0 <=? pos) && time_before tmp next then tmp else next in
      if (0 <=? pos) && (pos <=? Z.land (LVL_CLK_DIV - lvl_clk) LVL_CLK_MASK) then Ok next
      else
        let adj := if negb (lvl_clk =? 0) then 1 else 0 in
        next_levels n b (lvl + 1) (offset + LVL_SIZE) (u64 (Z.shiftr clk LVL_CLK_SHIFT + adj)) next
  end.

(** The time, and the base with [next_expiry_recalc] cleared. *)
Definition __next_timer_interrupt (b : timer_base) : outcome (timer_base * Z) :=
  next ← next_levels (Z.to_nat LVL_DEPTH) b 0 0 (clk b) (u64 (clk b + NEXT_TIMER_MAX_DELTA));
  Ok (set_next (next_expiry b) false b, next).

(** [nextevt] is the result of [hrtimer_get_next_event]. *)
Definition cmp_next_hrtimer_event (nextevt basem expires : Z) : Z :=
  if expires <=? nextevt then expires
  else if nextevt <=? basem then basem
  else u64 (u64 (nextevt + TICK_NSEC - 1) / TICK_NSEC * TICK_NSEC).

Definition get_next_timer_interrupt (hrtimer : Z) (w : wheel) (basej basem : Z) : outcome (wheel * Z) :=
  let b := base w in
  b ← (if next_expiry_recalc b then
         '(b, next) ← __next_timer_interrupt b; Ok (set_next next (next_expiry_recalc b) b)
       else Ok b);
  let nextevt := next_expiry b in
  let is_max_delta := nextevt =? u64 (clk b + NEXT_TIMER_MAX_DELTA) in
  let b := if time_after basej (clk b) then
             if time_after nextevt basej then set_clk basej b
             else if time_after nextevt (clk b) then set_clk nextevt b else b
           else b in
  let '(expires, b) :=
    if time_before_eq nextevt basej then (basem, set_idle false b)
    else
      let expires := if negb is_max_delta then u64 (basem + u64 (u64 (nextevt - basej) * TICK_NSEC))
                     else KTIME_MAX in
      (expires, if TICK_NSEC <? u64 (expires - basem) then set_idle true b else b) in
  Ok (set_base b w, cmp_next_hrtimer_event hrtimer basem expires).

Definition timer_clear_idle (w : wheel) : wheel := set_base (set_idle false (base w)) w.

(** ** Expiry *)

Fixpoint collect_levels (n : nat) (i clk : Z) (b : timer_base) (hs : list (list Z))
    : outcome (timer_base * list (list Z)) :=
  match n with
  | O => Ok (b, hs)
  | S n =>
      let idx := Z.land clk LVL_MASK + i * LVL_SIZE in
      '(map, pending) ← __test_and_clear_bit idx (pending_map b);
      let hs := if pending : bool then hs ++ [vectors b idx] else hs in
      let b := set_buckets map (if pending : bool then <[idx := []]> (vectors b) else vectors b) b in
      if negb (Z.land clk LVL_CLK_MASK =? 0) then Ok (b, hs)
      else collect_levels n (i + 1) (Z.shiftr clk LVL_CLK_SHIFT) b hs
  end.

(** The base, and the lists moved to [heads]. *)
Definition collect_expired_timers (b : timer_base) : outcome (timer_base * list (list Z)) :=
  let b := set_clk (next_expiry b) b in
  collect_levels (Z.to_nat LVL_DEPTH) 0 (clk b) b [].

(** The loop of [__run_timers]: its condition, and one round up to the
    calls of [expire_timers]. *)
Definition run_due (w : wheel) : bool :=
  time_after_eq (jiffies w) (clk (base w)) && time_after_eq (jiffies w) (next_expiry (base w)).

Definition run_collect (w : wheel) : outcome wheel :=
  '(b, hs) ← collect_expired_timers (base w);
  let b := set_clk (u64 (clk b + 1)) b in
  '(b, next) ← __next_timer_interrupt b;
  let b := set_next next (next_expiry_recalc b) b in
  Ok (set_heads (Some (rev hs)) (set_base b w)).

(** The timer whose function [expire_timers] calls next: the first one of the
    first list that has one. *)
Fixpoint first_expired (hs : list (list Z)) : option Z :=
  match hs with
  | [] => None
  | [] :: hs => first_expired hs
  | (t :: _) :: _ => Some t
  end.

(** One round of [expire_timers] before and after the function is called. *)
Definition expire_timer (w : wheel) (timer : Z) : wheel :=
  detach_timer (set_base (set_running timer (base w)) w) timer true.

Definition expire_return (w : wheel) : wheel := set_base (set_running 0 (base w)) w.

(** The whole softirq, with the functions of the timers as a parameter. The
    result lists the timers called, in order. *)
Fixpoint run_loop (fuel : nat) (call : Z → wheel → outcome wheel) (w : wheel) (called : list Z)
    : outcome (wheel * list Z) :=
  match fuel with
  | O => Fuel
  | S fuel =>
      match heads w ≫= first_expired with
      | Some t =>
          w ← call t (expire_timer w t);
          run_loop fuel call (expire_return w) (called ++ [t])
      | None =>
          if run_due w then w ← run_collect w; run_loop fuel call w called
          else Ok (set_heads None w, called)
      end
  end.

Definition __run_timers (fuel : nat) (call : Z → wheel → outcome wheel) (w : wheel)
    : outcome (wheel * list Z) :=
  if time_before (jiffies w) (next_expiry (base w)) then Ok (w, [])
  else run_loop fuel call (set_heads (Some []) w) [].

(** Whether the softirq is raised, from the standard and the deferrable base. *)
Definition run_local_timers (j : Z) (std def : timer_base) : bool :=
  if time_before j (next_expiry std) then
    if time_before j (next_expiry def) then false else true
  else true.

Definition init_timer_cpu (j : Z) (b : timer_base) : timer_base :=
  set_next (u64 (j + NEXT_TIMER_MAX_DELTA)) (next_expiry_recalc b) (set_clk j b).

(** A base before the first timer is started: static storage, initialised. *)
Definition init_base (j : Z) : timer_base :=
  init_timer_cpu j (mk_base 0 0 0 false false (replicate (Z.to_nat LVL_DEPTH) 0) (λ _, [])).

Definition do_init_timer (func fl : Z) (t : timer_list) : timer_list :=
  mk_timer (expires t) func fl false.

End TimerWheel.
