(* ===== verification/TimerWheelIndex.v ===== *)
(** * Buckets of the timer wheel

    When a bucket expires, as a function of the clock and of its index, and
    the index computations of time/src/timer.c against it. *)

From stdpp Require Import base numbers list option functions.
From Stdlib Require Import ZArith Lia.
From S2P Require Import Prelude Bitops Bitmap TimerWheel.

Open Scope Z_scope.

Module TimerWheelIndex.
Import TimerWheel.

(** ** Levels *)

Definition gran (lvl : Z) : Z := 8 ^ lvl.

(** The clock of a level: the first multiple of its granularity that the base
    clock has not passed. *)
Definition ceil (clk g : Z) : Z := (clk + g - 1) / g.

(** The time at which bucket [i] expires when the base clock is [clk]: the
    first multiple of the granularity from the clock on that hashes to [i]. *)
Definition bucket_time (clk i : Z) : Z :=
  let c := ceil clk (gran (i / 64)) in
  (c + (i mod 64 - c) mod 64) * gran (i / 64).

Lemma gran_pos l : 0 ≤ l → 0 < gran l.
Proof. intros. apply Z.pow_pos_nonneg; lia. Qed.

Lemma gran_max l : 0 ≤ l ≤ 8 → gran l ≤ 2 ^ 24.
Proof. intros. change (2 ^ 24) with (8 ^ 8). apply Z.pow_le_mono_r; lia. Qed.

Lemma gran_succ l : 0 ≤ l → gran (l + 1) = 8 * gran l.
Proof. intros. unfold gran. rewrite Z.pow_add_r by lia. lia. Qed.

Lemma gran_shift l : 0 ≤ l → 2 ^ LVL_SHIFT l = gran l.
Proof.
  intros. unfold gran, LVL_SHIFT, LVL_CLK_SHIFT. change 8 with (2 ^ 3).
  rewrite <- Z.pow_mul_r by lia. f_equal. lia.
Qed.

Lemma LVL_GRAN_gran l : 0 ≤ l → LVL_GRAN l = gran l.
Proof. intros. unfold LVL_GRAN. rewrite Z.shiftl_1_l. by apply gran_shift. Qed.

Lemma land_LVL_MASK x : Z.land x LVL_MASK = x mod 64.
Proof. change LVL_MASK with (Z.ones 6). rewrite Z.land_ones by lia. done. Qed.

Lemma land_LVL_CLK_MASK x : Z.land x LVL_CLK_MASK = x mod 8.
Proof. change LVL_CLK_MASK with (Z.ones 3). rewrite Z.land_ones by lia. done. Qed.

(** [q] is the quotient rounded up. *)
Lemma ceil_spec clk g : 0 < g → clk ≤ ceil clk g * g < clk + g.
Proof. intros. unfold ceil. pose proof (Z.div_mod (clk + g - 1) g ltac:(lia)).
  pose proof (Z.mod_pos_bound (clk + g - 1) g ltac:(lia)). nia. Qed.

Lemma ceil_le clk g q : 0 < g → ceil clk g ≤ q ↔ clk ≤ q * g.
Proof. intros Hg. pose proof (ceil_spec clk g Hg). split; nia. Qed.

Lemma ceil_unique clk g q : 0 < g → clk ≤ q * g < clk + g → ceil clk g = q.
Proof. intros Hg ?. pose proof (ceil_spec clk g Hg). nia. Qed.

Lemma ceil_mono c c' g : 0 < g → c ≤ c' → ceil c g ≤ ceil c' g.
Proof. intros Hg ?. apply ceil_le; [done|]. pose proof (ceil_spec c' g Hg). lia. Qed.

(** The clock of the next level, from that of this one. *)
Lemma ceil_succ clk l :
  0 ≤ l → ceil clk (gran (l + 1)) = ceil clk (gran l) / 8 + (if ceil clk (gran l) mod 8 =? 0 then 0 else 1).
Proof.
  intros Hl. pose proof (gran_pos l Hl) as Hg. pose proof (ceil_spec clk _ Hg) as Hc.
  apply ceil_unique; rewrite gran_succ by done; [lia|].
  pose proof (Z.div_mod (ceil clk (gran l)) 8 ltac:(lia)).
  pose proof (Z.mod_pos_bound (ceil clk (gran l)) 8 ltac:(lia)).
  destruct (ceil clk (gran l) mod 8 =? 0) eqn:E; [apply Z.eqb_eq in E|apply Z.eqb_neq in E]; nia.
Qed.

(** ** The expiry of a bucket *)

Lemma bucket_time_unique clk i m :
  0 ≤ i → ceil clk (gran (i / 64)) ≤ m ≤ ceil clk (gran (i / 64)) + 63 → m mod 64 = i mod 64 →
  bucket_time clk i = m * gran (i / 64).
Proof.
  intros Hi Hm Hmod. unfold bucket_time. f_equal.
  rewrite <- Hmod, Zminus_mod_idemp_l, Z.mod_small by lia. lia.
Qed.

Lemma bucket_time_elim clk i :
  0 ≤ i → ∃ m, bucket_time clk i = m * gran (i / 64) ∧ m mod 64 = i mod 64 ∧
    ceil clk (gran (i / 64)) ≤ m ≤ ceil clk (gran (i / 64)) + 63.
Proof.
  intros Hi. eexists. split; [done|].
  set (c := ceil clk (gran (i / 64))).
  pose proof (Z.mod_pos_bound (i mod 64 - c) 64 ltac:(lia)). split; [|lia].
  rewrite Zplus_mod_idemp_r. replace (c + (i mod 64 - c)) with (i mod 64) by lia.
  apply Z.mod_mod. lia.
Qed.

Lemma level_nonneg i : 0 ≤ i → 0 ≤ i / 64.
Proof. intros. apply Z.div_pos; lia. Qed.

Lemma level_range i : 0 ≤ i < WHEEL_SIZE → 0 ≤ i / 64 ≤ 8.
Proof. unfold WHEEL_SIZE. change (LVL_SIZE * LVL_DEPTH) with 576. intros.
  pose proof (Z.div_lt_upper_bound i 64 9). pose proof (level_nonneg i). lia. Qed.

Lemma bucket_time_range clk i :
  0 ≤ i → clk ≤ bucket_time clk i < clk + 64 * gran (i / 64).
Proof.
  intros Hi. destruct (bucket_time_elim clk i Hi) as (m & -> & _ & Hm).
  pose proof (gran_pos _ (level_nonneg i Hi)) as Hg. pose proof (ceil_spec clk _ Hg). nia.
Qed.

(** While the clock does not pass it, the expiry of a bucket stays. *)
Lemma bucket_time_stable clk clk' i :
  0 ≤ i → clk ≤ clk' ≤ bucket_time clk i → bucket_time clk' i = bucket_time clk i.
Proof.
  intros Hi Hc. destruct (bucket_time_elim clk i Hi) as (m & E & Hmod & Hm).
  pose proof (gran_pos _ (level_nonneg i Hi)) as Hg. rewrite E in Hc |- *.
  apply bucket_time_unique; [done| |done]. split; [apply ceil_le; [done|lia]|].
  pose proof (ceil_mono clk clk' _ Hg ltac:(lia)). lia.
Qed.

(** The buckets that expire right now. *)
Lemma bucket_time_now clk i :
  0 ≤ i → bucket_time clk i = clk ↔ clk mod gran (i / 64) = 0 ∧ i mod 64 = (clk / gran (i / 64)) mod 64.
Proof.
  intros Hi. pose proof (gran_pos _ (level_nonneg i Hi)) as Hg. split.
  - intros E. destruct (bucket_time_elim clk i Hi) as (m & E' & Hmod & Hm). rewrite E' in E.
    rewrite <- E. rewrite Z.mod_mul, Z.div_mul by lia. by rewrite Hmod.
  - intros [H0 Hmod]. set (q := clk / gran (i / 64)) in *.
    assert (clk = q * gran (i / 64)) as E.
    { pose proof (Z.div_mod clk (gran (i / 64)) ltac:(lia)). subst q. lia. }
    rewrite (bucket_time_unique clk i q) by (done || (rewrite (ceil_unique clk _ q); lia)). lia.
Qed.

(** No bucket of a coarser level expires before the next multiple of the
    level's granularity. *)
Lemma bucket_time_above clk i l :
  0 ≤ l ≤ i / 64 → 0 ≤ i → ceil clk (gran l) * gran l ≤ bucket_time clk i.
Proof.
  intros Hl Hi. destruct (bucket_time_elim clk i Hi) as (m & -> & _ & Hm).
  pose proof (gran_pos l ltac:(lia)) as Hg. pose proof (gran_pos _ (level_nonneg i Hi)) as Hg'.
  pose proof (ceil_spec clk _ Hg').
  assert (gran (i / 64) = gran (i / 64 - l) * gran l) as E.
  { unfold gran. rewrite <- Z.pow_add_r by lia. f_equal. lia. }
  pose proof (gran_pos (i / 64 - l) ltac:(lia)).
  assert (ceil clk (gran l) ≤ m * gran (i / 64 - l)) as Hc; [apply ceil_le; nia|]. nia.
Qed.

(** ** Index computations *)

Lemma div_mod_level lvl x : 0 ≤ x < 64 → (64 * lvl + x) / 64 = lvl ∧ (64 * lvl + x) mod 64 = x.
Proof.
  intros. rewrite (Z.mul_comm 64). split; [rewrite Z.div_add_l, Z.div_small by lia; lia|].
  rewrite Z.add_comm, Z.mod_add, Z.mod_small by lia. done.
Qed.

Lemma calc_index_ok clk e lvl :
  0 ≤ lvl ≤ 8 → 0 ≤ clk ≤ e → e < clk + 63 * gran lvl → clk < 2 ^ 63 →
  ∃ idx be, calc_index e lvl = (idx, be) ∧ idx / 64 = lvl ∧ 0 ≤ idx < WHEEL_SIZE ∧
    be = bucket_time clk idx ∧ e < be ≤ e + gran lvl.
Proof.
  intros Hl Hc He Hb. pose proof (gran_pos lvl ltac:(lia)) as Hg. pose proof (gran_max lvl Hl).
  unfold calc_index. rewrite LVL_GRAN_gran, u64_id, Z.shiftr_div_pow2, gran_shift by (unfold LVL_SHIFT, LVL_CLK_SHIFT; lia).
  rewrite land_LVL_MASK, Z.shiftl_mul_pow2, gran_shift by (unfold LVL_SHIFT, LVL_CLK_SHIFT; lia).
  replace (e + gran lvl) with (e + 1 * gran lvl) by lia. rewrite Z.div_add by lia.
  set (m := e / gran lvl + 1). unfold LVL_OFFS. change LVL_SIZE with 64.
  pose proof (Z.div_mod e (gran lvl) ltac:(lia)). pose proof (Z.mod_pos_bound e (gran lvl) Hg).
  assert (e < m * gran lvl ≤ e + gran lvl) as Hm by (subst m; nia).
  eexists _, _. split; [done|]. rewrite (Z.mul_comm lvl).
  pose proof (Z.mod_pos_bound m 64 ltac:(lia)). destruct (div_mod_level lvl (m mod 64)) as [El Em]; [lia|].
  split; [done|]. split; [unfold WHEEL_SIZE; change (LVL_SIZE * LVL_DEPTH) with 576; lia|].
  rewrite u64_id by lia. split; [|lia]. symmetry.
  pose proof (bucket_time_unique clk (64 * lvl + m mod 64) m ltac:(lia)) as Hu. rewrite El, Em in Hu.
  apply Hu; [|done].
  pose proof (ceil_spec clk _ Hg). split; [apply ceil_le; [done|lia]|]. nia.
Qed.

(** What the index computation promises: the bucket's time, given the signed
    distance of the expiry from the clock. *)
Definition wheel_slot (e clk idx be : Z) : Prop :=
  0 ≤ idx < WHEEL_SIZE ∧ be = bucket_time clk idx ∧
  (e < clk → be = clk) ∧
  (clk ≤ e < clk + WHEEL_TIMEOUT_CUTOFF →
     e < be ≤ e + gran (idx / 64) ∧ (idx / 64 = 0 ∨ 63 * gran (idx / 64) ≤ 8 * (e - clk))) ∧
  (clk + WHEEL_TIMEOUT_CUTOFF ≤ e → clk + WHEEL_TIMEOUT_MAX < be ≤ clk + WHEEL_TIMEOUT_CUTOFF).

Lemma LVL_START_gran n : 1 ≤ n → LVL_START n = 63 * gran (n - 1).
Proof.
  intros. unfold LVL_START. change (LVL_SIZE - 1) with 63. unfold LVL_CLK_SHIFT.
  rewrite Z.shiftl_mul_pow2 by lia. f_equal. apply gran_shift. lia.
Qed.

Lemma wheel_slot_level clk e lvl :
  0 ≤ lvl ≤ 8 → 0 ≤ clk ≤ e → e < clk + 63 * gran lvl → clk < 2 ^ 63 →
  lvl = 0 ∨ 63 * gran lvl ≤ 8 * (e - clk) →
  ∃ idx be, calc_index e lvl = (idx, be) ∧ wheel_slot e clk idx be.
Proof.
  intros Hl Hc He Hb Hlow. destruct (calc_index_ok clk e lvl) as (idx & be & E & El & Hi & Hbe & Hr); [done..|].
  exists idx, be. split; [done|]. split; [done|]. split; [done|]. rewrite El.
  assert (gran lvl ≤ gran 8) by (apply Z.pow_le_mono_r; lia).
  split; [lia|]. split; [done|]. change WHEEL_TIMEOUT_CUTOFF with (63 * gran 8). lia.
Qed.

(** Numerals for the constants of the levels. *)
Ltac level_const c := let v := eval vm_compute in c in change c with v in *.
Ltac level_consts :=
  repeat match goal with
  | _ : context [LVL_START (Zpos ?n)] |- _ => level_const (LVL_START (Zpos n))
  | |- context [LVL_START (Zpos ?n)] => level_const (LVL_START (Zpos n))
  | _ : context [gran (Zpos ?n)] |- _ => level_const (gran (Zpos n))
  | |- context [gran (Zpos ?n)] => level_const (gran (Zpos n))
  | |- context [gran 0] => level_const (gran 0)
  end.

(** A clock and an expiry less than half the range apart. *)
Lemma calc_wheel_index_ok e clk :
  0 ≤ clk < 2 ^ 62 → 0 ≤ e < 2 ^ 63 →
  ∃ idx be, calc_wheel_index e clk = (idx, be) ∧ wheel_slot e clk idx be.
Proof.
  intros Hc He. unfold calc_wheel_index.
  destruct (decide (clk ≤ e)) as [Hle|Hgt].
  - rewrite (u64_id (e - clk)) by lia. change (8 <? LVL_DEPTH) with true. rewrite andb_true_l.
    repeat (match goal with |- context [e - clk <? LVL_START ?n] =>
      destruct (Z.ltb_spec (e - clk) (LVL_START n));
      [apply wheel_slot_level; level_consts; lia|] end).
    unfold s64. rewrite sext_id by lia. destruct (Z.ltb_spec (e - clk) 0); [lia|].
    destruct (Z.leb_spec WHEEL_TIMEOUT_CUTOFF (e - clk)) as [Hcut|Hcut].
    + assert (WHEEL_TIMEOUT_MAX = 62 * 2 ^ 24) as Emax by done. assert (gran 8 = 2 ^ 24) as Eg by done.
      rewrite (u64_id (clk + _)) by lia. change (LVL_DEPTH - 1) with 8.
      destruct (calc_index_ok clk (clk + WHEEL_TIMEOUT_MAX) 8) as (idx & be & E & El & Hi & Hbe & Hr); [lia..|].
      exists idx, be. split; [done|]. split; [done|]. split; [done|].
      change WHEEL_TIMEOUT_MAX with (WHEEL_TIMEOUT_CUTOFF - gran 8) in *.
      change WHEEL_TIMEOUT_CUTOFF with (63 * gran 8) in *.
      lia.
    + change (LVL_DEPTH - 1) with 8. change WHEEL_TIMEOUT_CUTOFF with (63 * gran 8) in Hcut.
      apply wheel_slot_level; level_consts; lia.
  - assert (2 ^ 63 ≤ u64 (e - clk)) as Hd.
    { unfold u64. replace ((e - clk) mod 2 ^ 64) with (e - clk + 2 ^ 64); [lia|].
      apply Z.mod_unique with (-1); lia. }
    pose proof (u64_range (e - clk)).
    repeat (match goal with |- context [u64 (e - clk) <? LVL_START ?n] =>
      destruct (Z.ltb_spec (u64 (e - clk)) (LVL_START n)); [level_consts; lia|] end).
    rewrite andb_false_r.
    assert (s64 (u64 (e - clk)) = e - clk) as ->.
    { unfold s64, u64, sext. rewrite Zplus_mod_idemp_l, Z.mod_small by lia. lia. }
    destruct (Z.ltb_spec (e - clk) 0); [|lia]. exists (Z.land clk LVL_MASK), clk. split; [done|].
    rewrite land_LVL_MASK. pose proof (Z.mod_pos_bound clk 64 ltac:(lia)).
    unfold wheel_slot. change WHEEL_SIZE with 576. split; [lia|]. split; [|change WHEEL_TIMEOUT_CUTOFF with (63 * 2 ^ 24); lia].
    symmetry. apply bucket_time_now; [lia|]. rewrite Z.div_small by lia. change (gran 0) with 1.
    rewrite Z.mod_1_r, Z.div_1_r, Z.mod_mod by lia. done.
Qed.

(** The index of a timer survives being stored in its flags. *)
Lemma timer_idx_roundtrip idx t : 0 ≤ idx < 1024 → timer_get_idx (timer_set_idx idx t) = idx.
Proof.
  intros Hi. unfold timer_get_idx, timer_set_idx, set_flags; cbn [flags].
  unfold TIMER_ARRAYSHIFT, TIMER_ARRAYMASK.
  rewrite Z.shiftl_mul_pow2, (u32_id (idx * _)) by lia.
  apply Z.bits_inj'. intros n Hn. rewrite Z.shiftr_spec, Z.land_spec, Z.lor_spec, Z.land_spec by lia.
  rewrite Z.mul_pow2_bits, Z.add_simpl_r by lia.
  change 0xFFC00000 with (Z.shiftl (Z.ones 10) 22). rewrite (Z.shiftl_spec (Z.ones 10)), Z.add_simpl_r by lia.
  destruct (decide (n < 10)).
  - rewrite (Z.ones_spec_low 10) by lia. rewrite andb_true_r.
    replace (Z.testbit (u32 (Z.lnot (Z.shiftl (Z.ones 10) 22))) (n + 22)) with false; [by rewrite andb_false_r|].
    change (u32 (Z.lnot (Z.shiftl (Z.ones 10) 22))) with (Z.ones 22). by rewrite Z.ones_spec_high by lia.
  - rewrite (Z.ones_spec_high 10) by lia. rewrite andb_false_r. symmetry.
    apply Z.bits_above_log2; [lia|]. destruct (decide (idx = 0)) as [->|]; [cbn; lia|].
    apply Z.log2_lt_pow2; [lia|]. assert (2 ^ 10 ≤ 2 ^ n) by (apply Z.pow_le_mono_r; lia). lia.
Qed.

End TimerWheelIndex.
