(* ===== verification/TimerWheelSpec.v ===== *)
(** * Invariant of the timer wheel

    What holds of a timer base between operations, and the operations of
    time/src/timer.c that put timers into buckets and take them out. *)

From stdpp Require Import base numbers list option functions.
From Stdlib Require Import ZArith Lia.
From S2P Require Import Prelude Bitops Bitmap BitmapSpec TimerWheel TimerWheelIndex.

Open Scope Z_scope.

Module TimerWheelSpec.
Import Bitmap TimerWheel TimerWheelIndex.

(** ** Single bits *)

Lemma testbit_BIT_MASK nr t : 0 ≤ nr → 0 ≤ t < 64 → Z.testbit (BIT_MASK nr) t = bool_decide (t = nr mod 64).
Proof.
  intros Hn Ht. unfold BIT_MASK, BITS_PER_LONG. pose proof (Z.mod_pos_bound nr 64 ltac:(lia)).
  rewrite testbit_u64, Z.shiftl_1_l, Z.pow2_bits_eqb by lia.
  destruct (Z.ltb_spec t 64); [|lia]. case_bool_decide; [apply Z.eqb_eq|apply Z.eqb_neq]; lia.
Qed.

(** A word changed under the mask of one bit. *)
Lemma one_bit (upd : Z → Z → Z) (ub : bool → bool → bool) map nr :
  (∀ w m, 0 ≤ w < 2 ^ 64 → 0 ≤ m < 2 ^ 64 → 0 ≤ upd w m < 2 ^ 64) →
  (∀ w m t, 0 ≤ t < 64 → Z.testbit (upd w m) t = ub (Z.testbit w t) (Z.testbit m t)) →
  (∀ b, ub b false = b) →
  words_ok map → 0 ≤ nr < capacity map →
  ∃ map', (w ← rd map (BIT_WORD nr); wr map (BIT_WORD nr) (upd w (BIT_MASK nr))) = Ok map' ∧
    words_ok map' ∧ length map' = length map ∧
    ∀ i, 0 ≤ i → bit map' i = if decide (i = nr) then ub (bit map i) true else bit map i.
Proof.
  intros H1 H2 H3 Hm Hn. pose proof (Z.div_mod nr 64 ltac:(lia)). pose proof (Z.mod_pos_bound nr 64 ltac:(lia)).
  destruct (upd_word upd ub H1 H2 H3 map (nr / 64) (BIT_MASK nr) nr (nr + 1)) as (map' & E & Hw & Hl & Hb);
    [done|apply Z.div_pos; lia|lia|apply u64_range|lia|lia| |].
  { intros t Ht. rewrite testbit_BIT_MASK by lia. apply bool_decide_ext. lia. }
  exists map'. split; [done|]. split; [done|]. split; [done|]. intros i Hi. rewrite Hb by done.
  destruct (decide (i = nr)); [by rewrite decide_True by lia|by rewrite decide_False by lia].
Qed.

Lemma set_bit_ok map nr :
  words_ok map → 0 ≤ nr < capacity map →
  ∃ map', __set_bit nr map = Ok map' ∧ words_ok map' ∧ length map' = length map ∧
    ∀ i, 0 ≤ i → bit map' i = if decide (i = nr) then true else bit map i.
Proof.
  intros Hm Hn. destruct (one_bit Z.lor orb map nr) as (map' & E & Hw & Hl & Hb);
    [intros; apply lor_range; lia|intros; apply Z.lor_spec|apply orb_false_r|done..|].
  exists map'. split_and!; [done..|]. intros i Hi. rewrite Hb by done. by rewrite orb_true_r.
Qed.

Lemma clear_bit_ok map nr :
  words_ok map → 0 ≤ nr < capacity map →
  ∃ map', __clear_bit nr map = Ok map' ∧ words_ok map' ∧ length map' = length map ∧
    ∀ i, 0 ≤ i → bit map' i = if decide (i = nr) then false else bit map i.
Proof.
  intros Hm Hn.
  destruct (one_bit (λ w m, Z.land w (u64 (Z.lnot m))) (λ b m, b && negb m) map nr) as (map' & E & Hw & Hl & Hb).
  { intros. apply land_range; lia. }
  { intros w m t Ht. by rewrite Z.land_spec, testbit_not. }
  { intros b. apply andb_true_r. }
  { done. } { done. }
  exists map'. split_and!; [done..|]. intros i Hi. rewrite Hb by done. by rewrite andb_false_r.
Qed.

Lemma test_and_clear_bit_ok map nr :
  words_ok map → 0 ≤ nr < capacity map →
  ∃ map', __test_and_clear_bit nr map = Ok (map', bit map nr) ∧ words_ok map' ∧ length map' = length map ∧
    ∀ i, 0 ≤ i → bit map' i = if decide (i = nr) then false else bit map i.
Proof.
  intros Hm Hn. destruct (clear_bit_ok map nr Hm Hn) as (map' & E & H). exists map'. split; [|done].
  unfold __test_and_clear_bit, __clear_bit in *. pose proof (Z.div_mod nr 64 ltac:(lia)).
  pose proof (Z.mod_pos_bound nr 64 ltac:(lia)).
  destruct (rd_ok map (BIT_WORD nr)) as (w & Ew & Hw); [apply Z.div_pos; [lia|done]|unfold BIT_WORD, BITS_PER_LONG; lia|].
  rewrite Ew in E |- *. cbn [mbind outcome_bind] in E |- *. rewrite E. cbn [mbind outcome_bind].
  do 2 f_equal. assert (bit map nr = Z.testbit w (nr mod 64)) as ->.
  { rewrite <- (bit_word map (nr / 64) (nr mod 64) w) by (done || lia). f_equal. lia. }
  destruct (Z.testbit w (nr mod 64)) eqn:Et.
  - apply negb_true_iff, Z.eqb_neq. intros Hz. apply (f_equal (λ z, Z.testbit z (nr mod 64))) in Hz.
    rewrite Z.land_spec, testbit_BIT_MASK, Et, Z.bits_0, bool_decide_true in Hz by lia. done.
  - apply negb_false_iff, Z.eqb_eq. apply Z.bits_inj'. intros t Ht. rewrite Z.land_spec, Z.bits_0.
    destruct (decide (t < 64)).
    + rewrite testbit_BIT_MASK by lia. case_bool_decide; [subst; by rewrite Et|apply andb_false_r].
    + rewrite (testbit_high w) by (lia || by eapply words_lookup). done.
Qed.

(** ** The invariant *)

Definition inflight (w : wheel) : list Z := concat (default [] (heads w)).

(** The bitmap says which buckets have timers. *)
Definition map_ok (m : list Z) (v : Z → list Z) : Prop :=
  words_ok m ∧ length m = 9%nat ∧ ∀ i, 0 ≤ i < WHEEL_SIZE → bit m i = bool_decide (v i ≠ []).

(** The clock is not past the next expiry, which is not past the time of a
    bucket that has timers. *)
Record base_ok (b : timer_base) : Prop := {
  bo_map : map_ok (pending_map b) (vectors b);
  bo_out : ∀ i, vectors b i ≠ [] → 0 ≤ i < WHEEL_SIZE;
  bo_clk : 0 ≤ clk b ≤ next_expiry b;
  bo_far : next_expiry b ≤ clk b + NEXT_TIMER_MAX_DELTA;
  bo_next : ∀ i, vectors b i ≠ [] → next_expiry b ≤ bucket_time (clk b) i
}.

(** Every linked timer is on one list, once: the bucket its flags name, or a
    list being expired. [x] is a timer on its way from one bucket to another. *)
Record wf_but (x : option Z) (w : wheel) : Prop := {
  wf_base : base_ok (base w);
  wf_now : clk (base w) ≤ jiffies w + 1;
  wf_range : 0 ≤ jiffies w < 2 ^ 61;
  wf_vec : ∀ i t, t ∈ vectors (base w) i → linked (timers w t) = true ∧ timer_get_idx (timers w t) = i;
  wf_nodup : ∀ i, NoDup (vectors (base w) i);
  wf_heads : NoDup (inflight w);
  wf_fly : ∀ t, t ∈ inflight w → linked (timers w t) = true ∧ ∀ i, t ∉ vectors (base w) i;
  wf_linked : ∀ t, linked (timers w t) = true →
    Some t = x ∨ t ∈ vectors (base w) (timer_get_idx (timers w t)) ∨ t ∈ inflight w;
  wf_x : ∀ t, x = Some t → (∀ i, t ∉ vectors (base w) i) ∧ t ∉ inflight w
}.

Abbreviation wf := (wf_but None).

(** When the timer expires, if it is in a bucket. *)
Definition due (w : wheel) (t : Z) : option Z :=
  if linked (timers w t) && bool_decide (t ∉ inflight w)
  then Some (bucket_time (clk (base w)) (timer_get_idx (timers w t))) else None.

Lemma bound_consts : WHEEL_SIZE = 576 ∧ NEXT_TIMER_MAX_DELTA = 2 ^ 30 - 1.
Proof. done. Qed.

Lemma map_capacity m v i : map_ok m v → 0 ≤ i < WHEEL_SIZE → 0 ≤ i < capacity m.
Proof. intros (_ & Hl & _) Hi. unfold capacity. rewrite Hl. destruct bound_consts. lia. Qed.

Lemma due_vec w i t : wf w → t ∈ vectors (base w) i → due w t = Some (bucket_time (clk (base w)) i).
Proof.
  intros H Ht. destruct (wf_vec _ _ H i t Ht) as [Hl Hi]. unfold due. rewrite Hl, Hi.
  rewrite bool_decide_true; [done|]. intros Hf. by apply (wf_fly _ _ H t Hf) in Ht.
Qed.

Lemma due_in w t d : wf w → due w t = Some d →
  t ∈ vectors (base w) (timer_get_idx (timers w t)) ∧ d = bucket_time (clk (base w)) (timer_get_idx (timers w t)).
Proof.
  intros H Hd. unfold due in Hd. destruct (linked _) eqn:Hl; [|done]. case_bool_decide; [|done].
  simplify_eq/=. split; [|done]. by destruct (wf_linked _ _ H t Hl) as [?|[?|?]].
Qed.

Lemma elem_nonempty {A} (x : A) l : x ∈ l → l ≠ [].
Proof. intros Hx ->. by apply elem_of_nil in Hx. Qed.

(** ** Moving the clock *)

Lemma set_clk_base_ok b c :
  base_ok b → clk b ≤ c ≤ next_expiry b →
  base_ok (set_clk c b) ∧ ∀ i, vectors b i ≠ [] → bucket_time c i = bucket_time (clk b) i.
Proof.
  intros H Hc. pose proof (bo_clk _ H). pose proof (bo_far _ H).
  assert (∀ i, vectors b i ≠ [] → bucket_time c i = bucket_time (clk b) i) as Hst.
  { intros i Hi. pose proof (bo_next _ H i Hi). pose proof (bo_out _ H i Hi).
    apply bucket_time_stable; lia. }
  split; [|done]. split; cbn; [apply H|apply H|lia|lia|].
  intros i Hi. rewrite Hst by done. by apply (bo_next _ H).
Qed.

Lemma set_clk_ok x w c :
  wf_but x w → clk (base w) ≤ c ≤ next_expiry (base w) → c ≤ jiffies w + 1 →
  wf_but x (set_base (set_clk c (base w)) w).
Proof.
  intros H Hc Hj. destruct (set_clk_base_ok (base w) c (wf_base _ _ H) Hc) as [Hb _].
  destruct H. by split.
Qed.

Lemma set_clk_due w c t :
  wf w → clk (base w) ≤ c ≤ next_expiry (base w) → due (set_base (set_clk c (base w)) w) t = due w t.
Proof.
  intros H Hc. destruct (set_clk_base_ok (base w) c (wf_base _ _ H) Hc) as [_ Hst].
  destruct (due w t) as [d|] eqn:E.
  - destruct (due_in w t d H E) as [Hv ->]. rewrite <- Hst by (by eapply elem_nonempty).
    unfold due in *. cbn. change (inflight (set_base _ w)) with (inflight w). by destruct (_ && _).
  - unfold due in *. cbn. change (inflight (set_base _ w)) with (inflight w). by destruct (_ && _).
Qed.

Lemma time_before_spec a b : 0 ≤ a < 2 ^ 63 → 0 ≤ b < 2 ^ 63 → time_before a b = (a <? b).
Proof.
  intros. unfold time_before, time_after. rewrite s64_id by lia.
  destruct (Z.ltb_spec (a - b) 0), (Z.ltb_spec a b); (done || lia).
Qed.

Lemma time_after_spec a b : 0 ≤ a < 2 ^ 63 → 0 ≤ b < 2 ^ 63 → time_after a b = (b <? a).
Proof. intros. by apply time_before_spec. Qed.

Lemma time_after_eq_spec a b : 0 ≤ a < 2 ^ 63 → 0 ≤ b < 2 ^ 63 → time_after_eq a b = (b <=? a).
Proof.
  intros. unfold time_after_eq. rewrite s64_id by lia.
  destruct (Z.leb_spec 0 (a - b)), (Z.leb_spec b a); (done || lia).
Qed.

(** The times of a well-formed base. *)
Lemma wf_times x w : wf_but x w →
  0 ≤ clk (base w) ≤ next_expiry (base w) ∧ next_expiry (base w) ≤ clk (base w) + 2 ^ 30 - 1 ∧
  clk (base w) ≤ jiffies w + 1 ∧ 0 ≤ jiffies w < 2 ^ 61.
Proof.
  intros H. pose proof (bo_clk _ (wf_base _ _ H)). pose proof (bo_far _ (wf_base _ _ H)).
  pose proof (wf_now _ _ H). pose proof (wf_range _ _ H). destruct bound_consts. lia.
Qed.

(** Where the base clock goes before a timer is started. *)
Definition forwarded (w : wheel) : Z := Z.max (clk (base w)) (Z.min (jiffies w) (next_expiry (base w))).

Lemma forward_eq x w : wf_but x w → forward_timer_base (jiffies w) (base w) = set_clk (forwarded w) (base w).
Proof.
  intros H. destruct (wf_times _ _ H) as (? & ? & ? & ?). unfold forward_timer_base, forwarded.
  rewrite s64_id by lia. destruct (Z.ltb_spec (jiffies w - clk (base w)) 1).
  - rewrite Z.max_l by lia. by destruct (base w).
  - rewrite time_after_spec, time_before_spec by lia.
    destruct (Z.ltb_spec (jiffies w) (next_expiry (base w))); [f_equal; lia|].
    destruct (Z.ltb_spec (next_expiry (base w)) (clk (base w))); [lia|]. f_equal. lia.
Qed.

Lemma forwarded_range x w : wf_but x w →
  clk (base w) ≤ forwarded w ≤ next_expiry (base w) ∧ forwarded w ≤ jiffies w + 1.
Proof. intros H. destruct (wf_times _ _ H) as (? & ? & ? & ?). unfold forwarded. lia. Qed.

Lemma forward_ok x w :
  wf_but x w → wf_but x (set_base (forward_timer_base (jiffies w) (base w)) w).
Proof.
  intros H. rewrite (forward_eq x) by done. destruct (forwarded_range x w H). by apply set_clk_ok.
Qed.

Lemma forward_due w t :
  wf w → due (set_base (forward_timer_base (jiffies w) (base w)) w) t = due w t.
Proof.
  intros H. rewrite (forward_eq None) by done. destruct (forwarded_range None w H). by apply set_clk_due.
Qed.

End TimerWheelSpec.
