(* ===== verification/TimerWheelOps.v ===== *)
(** * Operations on the timer wheel

    Unlinking a timer and linking it into a bucket keep the invariant and
    change when that timer is due and nothing else; then the operations of
    time/src/timer.c that modify, start and stop timers. *)

From stdpp Require Import base numbers list option functions.
From Stdlib Require Import ZArith Lia.
From S2P Require Import Prelude Bitops Bitmap BitmapSpec TimerWheel TimerWheelIndex TimerWheelSpec.

Open Scope Z_scope.

Module TimerWheelOps.
Import Bitmap TimerWheel TimerWheelIndex TimerWheelSpec.

(** ** Unlinking *)

Lemma elem_unlink t l a : a ∈ unlink t l ↔ a ≠ t ∧ a ∈ l.
Proof. unfold unlink. by rewrite list_elem_of_filter. Qed.

Lemma unlink_id t l : t ∉ l → unlink t l = l.
Proof.
  induction l as [|a l IH]; [done|]. intros [Ha Hl]%not_elem_of_cons. unfold unlink in *.
  rewrite filter_cons_True by congruence. by rewrite IH.
Qed.

Lemma unlink_singleton t : unlink t [t] = [].
Proof. unfold unlink. rewrite filter_cons_False, filter_nil; [done|]. intros H. by apply H. Qed.

Lemma unlink_nonempty t l : NoDup l → l ≠ [] → l ≠ [t] → unlink t l ≠ [].
Proof.
  intros Hn H0 H1 E. assert (∀ a, a ∈ l → a = t) as Hall.
  { intros a Ha. destruct (decide (a = t)); [done|].
    assert (a ∈ unlink t l) as Hx by (by apply elem_unlink). rewrite E in Hx. by apply elem_of_nil in Hx. }
  destruct l as [|a [|b l]]; [done| |].
  - by rewrite (Hall a) in H1 by (by left).
  - apply list.NoDup_cons in Hn as [Hn _]. apply Hn. rewrite (Hall a), (Hall b) by (repeat constructor). by left.
Qed.

Lemma concat_unlink t ls : concat (map (unlink t) ls) = unlink t (concat ls).
Proof.
  induction ls as [|l ls IH]; [done|]. cbn. rewrite IH. symmetry. apply list.filter_app.
Qed.

Lemma inflight_unlink t (w w' : wheel) :
  heads w' = map (unlink t) <$> heads w → inflight w' = unlink t (inflight w).
Proof. intros E. unfold inflight. rewrite E. destruct (heads w); [apply concat_unlink|done]. Qed.

(** What unlinking leaves: [w'] is [w] without [t] on its lists. *)
Record detached (t : Z) (clear : bool) (w w' : wheel) : Prop := {
  de_now : jiffies w' = jiffies w;
  de_clk : clk (base w') = clk (base w);
  de_next : next_expiry (base w') = next_expiry (base w);
  de_run : running_timer (base w') = running_timer (base w);
  de_timers : timers w' = if clear then <[t := set_linked false (timers w t)]> (timers w) else timers w;
  de_vec : ∀ i, vectors (base w') i = unlink t (vectors (base w) i);
  de_heads : heads w' = map (unlink t) <$> heads w
}.

Lemma detach_timer_detached w t c : detached t c w (detach_timer w t c).
Proof. by destruct c. Qed.

Lemma detached_map w t m :
  wf w →
  (if bool_decide (vectors (base w) (timer_get_idx (timers w t)) = [t])
   then ∀ i, 0 ≤ i < WHEEL_SIZE → bit m i =
          if decide (i = timer_get_idx (timers w t)) then false else bit (pending_map (base w)) i
   else m = pending_map (base w)) →
  words_ok m → length m = 9%nat →
  map_ok m (λ i, unlink t (vectors (base w) i)).
Proof.
  intros H Hm Hw Hl. split; [done|]. split; [done|]. intros i Hi.
  pose proof (wf_base _ _ H) as Hb. destruct (bo_map _ Hb) as (_ & _ & Hbits).
  assert (i ≠ timer_get_idx (timers w t) → unlink t (vectors (base w) i) = vectors (base w) i) as Hother.
  { intros Hne. apply unlink_id. intros Ht. by apply (wf_vec _ _ H) in Ht as [_ Ht]. }
  case_bool_decide as Hs.
  - rewrite Hm by done. case_decide as Hd.
    + subst i. rewrite Hs, unlink_singleton. symmetry. apply bool_decide_false. tauto.
    + rewrite Hother by done. by apply Hbits.
  - subst m. rewrite Hbits by done. apply bool_decide_ext.
    destruct (decide (i = timer_get_idx (timers w t))) as [->|Hne]; [|by rewrite Hother].
    split; [|by intros Hu E; rewrite E in Hu].
    intros H0. apply unlink_nonempty; [apply H|done|done].
Qed.

(** The invariant without the timer. *)
Lemma detached_wf w w' t (c : bool) :
  wf w → detached t c w w' → map_ok (pending_map (base w')) (λ i, unlink t (vectors (base w) i)) →
  wf_but (if c then None else Some t) w'.
Proof.
  intros H D Hm. pose proof (wf_base _ _ H) as Hb. pose proof (inflight_unlink t w w' (de_heads _ _ _ _ D)) as Hf.
  assert (∀ i, vectors (base w') i ≠ [] → vectors (base w) i ≠ []) as Hne.
  { intros i. rewrite (de_vec _ _ _ _ D). by intros Hu E; rewrite E in Hu. }
  assert (∀ a, a ≠ t → timers w' a = timers w a) as Ha.
  { intros a Ha. rewrite (de_timers _ _ _ _ D). destruct c; [by rewrite fn_lookup_insert_ne|done]. }
  split.
  - destruct Hm as (H1 & H2 & H3). split.
    + split; [done|]. split; [done|]. intros i Hi. by rewrite H3, (de_vec _ _ _ _ D).
    + intros i Hi. apply (bo_out _ Hb). by apply Hne.
    + rewrite (de_clk _ _ _ _ D), (de_next _ _ _ _ D). apply Hb.
    + rewrite (de_clk _ _ _ _ D), (de_next _ _ _ _ D). apply Hb.
    + intros i Hi. rewrite (de_clk _ _ _ _ D), (de_next _ _ _ _ D). by apply (bo_next _ Hb), Hne.
  - rewrite (de_clk _ _ _ _ D), (de_now _ _ _ _ D). apply H.
  - rewrite (de_now _ _ _ _ D). apply H.
  - intros i a. rewrite (de_vec _ _ _ _ D), elem_unlink. intros [Hne' Hin]. rewrite Ha by done.
    by apply (wf_vec _ _ H).
  - intros i. rewrite (de_vec _ _ _ _ D). apply list.NoDup_filter, H.
  - rewrite Hf. apply list.NoDup_filter, H.
  - intros a. rewrite Hf, elem_unlink. intros [Hne' Hin]. rewrite Ha by done.
    destruct (wf_fly _ _ H a Hin) as [Hl Hv]. split; [done|]. intros i.
    rewrite (de_vec _ _ _ _ D), elem_unlink. intros [_ Hi]. by apply (Hv i).
  - intros a Hl. destruct (decide (a = t)) as [->|Hne'].
    + destruct c; [|by left]. rewrite (de_timers _ _ _ _ D), fn_lookup_insert in Hl. done.
    + right. rewrite Ha in Hl |- * by done. rewrite Hf, (de_vec _ _ _ _ D), !elem_unlink.
      destruct (wf_linked _ _ H a Hl) as [?|[?|?]]; [done|by left|by right].
  - intros a Ea. destruct c; simplify_eq. split; [|by rewrite Hf, elem_unlink; intros []].
    intros i. rewrite (de_vec _ _ _ _ D), elem_unlink. by intros [].
Qed.

Lemma detach_if_pending_ok w t (c : bool) :
  wf w → linked (timers w t) = true →
  ∃ w', detach_if_pending w t c = Ok (w', 1) ∧ wf_but (if c then None else Some t) w' ∧ detached t c w w'.
Proof.
  intros H Hl. unfold detach_if_pending, timer_pending. rewrite Hl. cbn [negb].
  pose proof (wf_base _ _ H) as Hb. pose proof (bo_map _ Hb) as Hmap. pose proof Hmap as (H1 & H2 & _).
  case_bool_decide as Hs.
  - assert (0 ≤ timer_get_idx (timers w t) < WHEEL_SIZE) as Hi by (apply (bo_out _ Hb); by rewrite Hs).
    destruct (clear_bit_ok (pending_map (base w)) (timer_get_idx (timers w t))) as (m & E & Hw & Hlen & Hbit);
      [done|by eapply map_capacity|].
    rewrite E. cbn [mbind outcome_bind]. eexists. split; [done|].
    match goal with |- _ ∧ detached _ _ _ ?w' => set (w'' := w') end.
    assert (detached t c w w'') as D by (by destruct c).
    split; [|done]. apply (detached_wf w _ t c H D).
    replace (pending_map (base w'')) with m by (by destruct c).
    apply detached_map; [done| |done|lia]. rewrite bool_decide_true by done.
    intros i Hi'. by apply Hbit; lia.
  - cbn [mbind outcome_bind]. eexists. split; [done|].
    match goal with |- _ ∧ detached _ _ _ ?w' => set (w'' := w') end.
    assert (detached t c w w'') as D by (by destruct c).
    split; [|done]. apply (detached_wf w _ t c H D).
    replace (pending_map (base w'')) with (pending_map (base w)) by (by destruct c).
    apply detached_map; [done|by rewrite bool_decide_false|done|done].
Qed.

(** The other timers are due when they were. *)
Lemma detached_due w w' t c a : detached t c w w' → a ≠ t → due w' a = due w a.
Proof.
  intros D Ha. unfold due. rewrite (inflight_unlink t w w' (de_heads _ _ _ _ D)), (de_clk _ _ _ _ D).
  assert (timers w' a = timers w a) as ->.
  { rewrite (de_timers _ _ _ _ D). destruct c; [by rewrite fn_lookup_insert_ne|done]. }
  by rewrite (bool_decide_ext (a ∉ unlink t (inflight w)) (a ∉ inflight w)) by (rewrite elem_unlink; tauto).
Qed.

(** ** Linking *)

Record enqueued (t idx be : Z) (w w' : wheel) : Prop := {
  en_now : jiffies w' = jiffies w;
  en_clk : clk (base w') = clk (base w);
  en_next : next_expiry (base w') = Z.min be (next_expiry (base w));
  en_run : running_timer (base w') = running_timer (base w);
  en_timers : timers w' = <[t := timer_set_idx idx (set_linked true (timers w t))]> (timers w);
  en_vec : vectors (base w') = <[idx := t :: vectors (base w) idx]> (vectors (base w));
  en_heads : heads w' = heads w
}.

Lemma enqueued_inflight t idx be w w' : enqueued t idx be w w' → inflight w' = inflight w.
Proof. intros E. unfold inflight. by rewrite (en_heads _ _ _ _ _ E). Qed.

Lemma enqueued_base w w' t idx be :
  wf_but (Some t) w → 0 ≤ idx < WHEEL_SIZE → be = bucket_time (clk (base w)) idx → enqueued t idx be w w' →
  words_ok (pending_map (base w')) → length (pending_map (base w')) = 9%nat →
  (∀ i, 0 ≤ i → bit (pending_map (base w')) i = if decide (i = idx) then true else bit (pending_map (base w)) i) →
  base_ok (base w').
Proof.
  intros H Hi Hbe E Hw Hl Hbit. pose proof (wf_base _ _ H) as Hb. destruct (bo_map _ Hb) as (_ & _ & Hm).
  pose proof (bo_clk _ Hb). pose proof (bo_far _ Hb).
  pose proof (bucket_time_range (clk (base w)) idx ltac:(lia)).
  assert (∀ i, vectors (base w') i ≠ [] ↔ i = idx ∨ vectors (base w) i ≠ []) as Hne.
  { intros i. rewrite (en_vec _ _ _ _ _ E). destruct (decide (i = idx)) as [->|].
    - rewrite fn_lookup_insert. split; [by left|done].
    - rewrite fn_lookup_insert_ne by done. tauto. }
  split.
  - split; [done|]. split; [done|]. intros i Hi'. rewrite Hbit by lia.
    rewrite (bool_decide_ext _ _ (Hne i)). case_decide as Hd; [by rewrite bool_decide_true by (by left)|].
    rewrite Hm by done. apply bool_decide_ext. tauto.
  - intros i [->|Hv]%Hne; [done|by apply (bo_out _ Hb)].
  - rewrite (en_clk _ _ _ _ _ E), (en_next _ _ _ _ _ E). lia.
  - rewrite (en_clk _ _ _ _ _ E), (en_next _ _ _ _ _ E). lia.
  - intros i Hv%Hne. rewrite (en_clk _ _ _ _ _ E), (en_next _ _ _ _ _ E).
    destruct Hv as [->|Hv]; [lia|]. pose proof (bo_next _ Hb i Hv). lia.
Qed.

Lemma enqueued_wf w w' t idx be :
  wf_but (Some t) w → 0 ≤ idx < WHEEL_SIZE → enqueued t idx be w w' → base_ok (base w') → wf w'.
Proof.
  intros H Hi E Hb. destruct (wf_x _ _ H t eq_refl) as [Hx Hxf]. destruct bound_consts as [EW _].
  pose proof (enqueued_inflight _ _ _ _ _ E) as Hf.
  assert (linked (timers w' t) = true ∧ timer_get_idx (timers w' t) = idx) as [Hl Hidx].
  { rewrite (en_timers _ _ _ _ _ E), fn_lookup_insert. split; [done|]. apply timer_idx_roundtrip. lia. }
  assert (∀ a, a ≠ t → timers w' a = timers w a) as Ha.
  { intros a Ha. by rewrite (en_timers _ _ _ _ _ E), fn_lookup_insert_ne. }
  assert (∀ i a, a ∈ vectors (base w') i ↔ (i = idx ∧ a = t) ∨ a ∈ vectors (base w) i) as Hv.
  { intros i a. rewrite (en_vec _ _ _ _ _ E). destruct (decide (i = idx)) as [->|].
    - rewrite fn_lookup_insert, elem_of_cons. tauto.
    - rewrite fn_lookup_insert_ne by done. tauto. }
  split.
  - done.
  - rewrite (en_clk _ _ _ _ _ E), (en_now _ _ _ _ _ E). apply H.
  - rewrite (en_now _ _ _ _ _ E). apply H.
  - intros i a [[-> ->]|Hin]%Hv; [done|]. rewrite Ha; [by apply (wf_vec _ _ H)|]. intros ->. by apply (Hx i).
  - intros i. rewrite (en_vec _ _ _ _ _ E). destruct (decide (i = idx)) as [->|].
    + rewrite fn_lookup_insert. constructor; [apply Hx|apply H].
    + rewrite fn_lookup_insert_ne by done. apply H.
  - rewrite Hf. apply H.
  - intros a. rewrite Hf. intros Hin. assert (a ≠ t) by (intros ->; done). rewrite Ha by done.
    destruct (wf_fly _ _ H a Hin) as [Hla Hva]. split; [done|]. intros i [[_ ->]|Hi']%Hv; [done|]. by apply (Hva i).
  - intros a Hla. right. rewrite Hf, Hv. destruct (decide (a = t)) as [->|]; [by left; left|].
    rewrite Ha in Hla |- * by done. destruct (wf_linked _ _ H a Hla) as [?|[?|?]]; [congruence|by left; right|by right].
  - done.
Qed.

Lemma enqueue_timer_ok w t idx be :
  wf_but (Some t) w → 0 ≤ idx < WHEEL_SIZE → be = bucket_time (clk (base w)) idx →
  ∃ w', enqueue_timer w t idx be = Ok w' ∧ wf w' ∧ enqueued t idx be w w'.
Proof.
  intros H Hi Hbe. pose proof (bo_map _ (wf_base _ _ H)) as Hm. unfold enqueue_timer.
  destruct (set_bit_ok (pending_map (base w)) idx) as (m & E & Hw & Hl & Hbit); [apply Hm|by eapply map_capacity|].
  rewrite E. cbn [mbind outcome_bind]. eexists. split; [done|].
  match goal with |- wf ?w' ∧ _ => set (w'' := w') end.
  destruct (wf_times _ _ H) as (? & ? & ? & ?). pose proof (gran_max (idx / 64) (level_range idx Hi)).
  pose proof (bucket_time_range (clk (base w)) idx ltac:(lia)).
  assert (enqueued t idx be w w'') as En.
  { subst w''. cbn. rewrite time_before_spec by lia.
    destruct (Z.ltb_spec be (next_expiry (base w))); split; cbn; (done || lia). }
  assert (pending_map (base w'') = m) as Ew by (subst w''; cbn; by destruct (time_before _ _)).
  split; [|done]. apply (enqueued_wf w w'' t idx be); [done..|].
  apply (enqueued_base w w'' t idx be); [done..|by rewrite Ew| |by rewrite Ew].
  rewrite Ew, Hl. apply Hm.
Qed.

Lemma enqueued_due w w' t idx be a :
  wf_but (Some t) w → 0 ≤ idx < WHEEL_SIZE → enqueued t idx be w w' →
  due w' a = if decide (a = t) then Some (bucket_time (clk (base w)) idx) else due w a.
Proof.
  intros H Hi E. destruct bound_consts as [EW _]. unfold due.
  rewrite (enqueued_inflight _ _ _ _ _ E), (en_clk _ _ _ _ _ E), (en_timers _ _ _ _ _ E).
  case_decide as Hd; [subst a|by rewrite fn_lookup_insert_ne].
  rewrite fn_lookup_insert, timer_idx_roundtrip by lia. cbn.
  rewrite bool_decide_true; [done|]. by apply (wf_x _ _ H).
Qed.

(** ** Changing an expiry *)

Lemma set_expires_timer w t e a :
  linked (timers (set_timer t (set_expires e) w) a) = linked (timers w a) ∧
  timer_get_idx (timers (set_timer t (set_expires e) w) a) = timer_get_idx (timers w a).
Proof.
  unfold set_timer; cbn. destruct (decide (a = t)) as [->|].
  - by rewrite fn_lookup_insert.
  - by rewrite fn_lookup_insert_ne.
Qed.

Lemma set_expires_wf x w t e : wf_but x w → wf_but x (set_timer t (set_expires e) w).
Proof.
  intros H. pose proof (set_expires_timer w t e) as Ht.
  split; [apply H|apply H|apply H| |apply H|apply H| | |apply H].
  - intros i a Ha. destruct (Ht a) as [-> ->]. by apply (wf_vec _ _ H).
  - intros a Ha. destruct (Ht a) as [-> _]. by apply (wf_fly _ _ H).
  - intros a Ha. destruct (Ht a) as [El Ei]. rewrite El in Ha. rewrite Ei. by apply (wf_linked _ _ H).
Qed.

Lemma set_expires_due w t e a : due (set_timer t (set_expires e) w) a = due w a.
Proof. unfold due. by destruct (set_expires_timer w t e a) as [-> ->]. Qed.

(** The timer [t] started with expiry [e] when the clock is [c]: it is due at
    the time of its slot, and the other timers are as they were. *)
Record rearmed (t e c : Z) (w w' : wheel) : Prop := {
  re_now : jiffies w' = jiffies w;
  re_clk : clk (base w') = c;
  re_run : running_timer (base w') = running_timer (base w);
  re_frame : heads w' = None ↔ heads w = None;
  re_expires : expires (timers w' t) = e ∧ function (timers w' t) = function (timers w t);
  re_due : ∃ idx be, wheel_slot e c idx be ∧ due w' t = Some be;
  re_others : ∀ a, a ≠ t → timers w' a = timers w a ∧ due w' a = due w a ∧ (a ∈ inflight w' ↔ a ∈ inflight w)
}.

(** A timer on no list put into the bucket of its expiry. *)
Lemma enqueue_rearmed w t e :
  wf_but (Some t) w → 0 ≤ e < 2 ^ 63 → expires (timers w t) = e →
  ∃ w', (let '(idx, be) := calc_wheel_index e (clk (base w)) in enqueue_timer w t idx be) = Ok w' ∧
    wf w' ∧ rearmed t e (clk (base w)) w w'.
Proof.
  intros H He Ee. destruct (wf_times _ _ H) as (? & ? & ? & ?).
  destruct (calc_wheel_index_ok e (clk (base w))) as (idx & be & -> & Hs); [lia|done|].
  pose proof Hs as (Hi & Hbe & _). destruct (enqueue_timer_ok w t idx be H Hi Hbe) as (w' & E & Hw & En).
  exists w'. split; [done|]. split; [done|]. split.
  - apply En.
  - apply En.
  - apply En.
  - by rewrite (en_heads _ _ _ _ _ En).
  - rewrite (en_timers _ _ _ _ _ En), fn_lookup_insert. done.
  - exists idx, be. split; [done|]. rewrite (enqueued_due w w' t idx be t), decide_True by done. by subst be.
  - intros a Ha. rewrite (en_timers _ _ _ _ _ En), fn_lookup_insert_ne, (enqueued_inflight _ _ _ _ _ En) by done.
    by rewrite (enqueued_due w w' t idx be a), decide_False.
Qed.

(** A timer that is not linked is on no list. *)
Lemma unlinked_wf w t : wf w → linked (timers w t) = false → wf_but (Some t) w.
Proof.
  intros H Hl. split; [apply H|apply H|apply H|apply H|apply H|apply H|apply H| |].
  - intros a Ha. destruct (wf_linked _ _ H a Ha) as [?|?]; [done|by right].
  - intros a [= <-]. split.
    + intros i Ha. apply (wf_vec _ _ H) in Ha as [Ha _]. congruence.
    + intros Ha. apply (wf_fly _ _ H) in Ha as [Ha _]. congruence.
Qed.

(** [detach_if_pending] without clearing: the timer is on no list. *)
Lemma detach_for_requeue w t :
  wf w → ∃ w', detach_if_pending w t false = Ok (w', if linked (timers w t) then 1 else 0) ∧
    wf_but (Some t) w' ∧ jiffies w' = jiffies w ∧ clk (base w') = clk (base w) ∧
    running_timer (base w') = running_timer (base w) ∧ timers w' = timers w ∧ (heads w' = None ↔ heads w = None) ∧
    (∀ a, a ≠ t → due w' a = due w a ∧ (a ∈ inflight w' ↔ a ∈ inflight w)).
Proof.
  intros H. destruct (linked (timers w t)) eqn:Hl.
  - destruct (detach_if_pending_ok w t false H Hl) as (w' & E & Hw & D). exists w'. split; [done|]. split; [done|].
    split; [apply D|]. split; [apply D|]. split; [apply D|]. split; [apply D|].
    split; [rewrite (de_heads _ _ _ _ D); apply fmap_None|]. intros a Ha. split; [by eapply detached_due|]. rewrite (inflight_unlink t w w'), elem_unlink by apply D. tauto.
  - exists w. unfold detach_if_pending, timer_pending. rewrite Hl. split; [done|]. split; [by apply unlinked_wf|]. done.
Qed.

(** ** [__mod_timer] *)

Lemma mod_timer_requeue_ok w t e opts idx be c :
  wf w → 0 ≤ e < 2 ^ 63 → idx = UINT_MAX ∨ calc_wheel_index e c = (idx, be) →
  linked (timers w t) = true ∨ Z.land opts MOD_TIMER_PENDING_ONLY = 0 →
  ∃ w', mod_timer_requeue w t e opts idx be c = Ok (w', if linked (timers w t) then 1 else 0) ∧
    wf w' ∧ rearmed t e (clk (base w)) w w'.
Proof.
  intros H He Hidx Hopt. destruct (detach_for_requeue w t H) as (w1 & E1 & Hw1 & J1 & C1 & R1 & T1 & F1 & O1).
  unfold mod_timer_requeue. rewrite E1. cbn [mbind outcome_bind].
  assert (((if linked (timers w t) then 1 else 0) =? 0) && negb (Z.land opts MOD_TIMER_PENDING_ONLY =? 0) = false) as ->.
  { destruct Hopt as [->| ->]; [done|]. by rewrite andb_false_r. }
  set (w2 := set_timer t (set_expires e) w1).
  assert (wf_but (Some t) w2) as Hw2 by (by apply set_expires_wf).
  assert (expires (timers w2 t) = e) as Ee by (unfold w2, set_timer; cbn; by rewrite fn_lookup_insert).
  destruct (enqueue_rearmed w2 t e Hw2 He Ee) as (w3 & E3 & Hw3 & R3).
  assert ((if negb (idx =? UINT_MAX) && (c =? clk (base w2)) then enqueue_timer w2 t idx be
           else internal_add_timer w2 t) = Ok w3) as ->.
  { unfold internal_add_timer. rewrite Ee. destruct Hidx as [->|Hidx]; [by rewrite Z.eqb_refl|].
    destruct (Z.eqb_spec c (clk (base w2))) as [->|]; [|by rewrite andb_false_r].
    rewrite Hidx in E3. destruct (negb _); [done|]. by rewrite Hidx. }
  exists w3. split; [done|]. split; [done|].
  assert (∀ a, a ≠ t → timers w2 a = timers w a) as T2.
  { intros a Ha. unfold w2, set_timer; cbn. by rewrite fn_lookup_insert_ne, T1. }
  split.
  - rewrite (re_now _ _ _ _ _ R3). done.
  - rewrite (re_clk _ _ _ _ _ R3). done.
  - rewrite (re_run _ _ _ _ _ R3). done.
  - rewrite (re_frame _ _ _ _ _ R3). done.
  - split; [apply R3|]. rewrite (proj2 (re_expires _ _ _ _ _ R3)). unfold w2, set_timer; cbn.
    by rewrite fn_lookup_insert, T1.
  - change (clk (base w2)) with (clk (base w1)) in R3. rewrite <- C1. apply R3.
  - intros a Ha. destruct (re_others _ _ _ _ _ R3 a Ha) as (Ht & Hd & Hf). destruct (O1 a Ha) as [Hd1 Hf1].
    split; [by rewrite Ht, T2|]. split; [|by rewrite Hf, <- Hf1].
    rewrite Hd. unfold w2. by rewrite set_expires_due.
Qed.

(** The base with its clock moved forward. *)
Definition forward (w : wheel) : wheel := set_base (forward_timer_base (jiffies w) (base w)) w.

Lemma forward_wf w : wf w → wf (forward w).
Proof. apply forward_ok. Qed.

Lemma forward_clk w : wf w → clk (base (forward w)) = forwarded w.
Proof. intros H. unfold forward. by rewrite (forward_eq None). Qed.

Lemma forward_running w : wf w → running_timer (base (forward w)) = running_timer (base w).
Proof. intros H. unfold forward. by rewrite (forward_eq None). Qed.

(** A timer of the same bucket only gets its new expiry. *)
Lemma same_bucket_rearmed w t e idx be :
  wf w → calc_wheel_index e (clk (base w)) = (idx, be) → wheel_slot e (clk (base w)) idx be →
  timer_get_idx (timers w t) = idx → due w t ≠ None →
  rearmed t e (clk (base w)) w (set_timer t (set_expires e) w).
Proof.
  intros H Ec Hs Hi Hd. split; try done.
  - unfold set_timer; cbn. by rewrite fn_lookup_insert.
  - exists idx, be. split; [done|]. rewrite set_expires_due. apply not_eq_None_Some in Hd as [d Hd].
    destruct (due_in w t d H Hd) as [_ E]. rewrite Hi in E. destruct Hs as (_ & -> & _). by rewrite <- E.
  - intros a Ha. rewrite set_expires_due. unfold set_timer; cbn. by rewrite fn_lookup_insert_ne.
Qed.

Lemma forward_rearmed w w' t e c : wf w → rearmed t e c (forward w) w' → rearmed t e c w w'.
Proof.
  intros H R. split; [apply R|apply R| | |apply R|apply R|].
  - rewrite (re_run _ _ _ _ _ R). by apply forward_running.
  - by rewrite (re_frame _ _ _ _ _ R).
  - intros a Ha. destruct (re_others _ _ _ _ _ R a Ha) as (Ht & Hd & Hf). split; [done|]. split; [|done].
    rewrite Hd. by apply forward_due.
Qed.

(** Everything the locked part can do, whatever was read before the lock. *)
Inductive mod_outcome (path : mod_path) (t e : Z) (w : wheel) : wheel → Z → Prop :=
  | mod_return : mod_outcome path t e w w 1
  | mod_keep ret : mod_outcome path t e w (forward w) ret
  | mod_expires : path = ModPending → (calc_wheel_index e (forwarded w)).1 = timer_get_idx (timers w t) →
      mod_outcome path t e w (set_timer t (set_expires e) (forward w)) 1
  | mod_rearm w' : wf w' → rearmed t e (forwarded w) w w' →
      mod_outcome path t e w w' (if linked (timers w t) then 1 else 0).

Lemma requeue_outcome path w t e opts idx be c :
  wf w → 0 ≤ e < 2 ^ 63 → idx = UINT_MAX ∨ calc_wheel_index e c = (idx, be) →
  ∃ w' ret, mod_timer_requeue (forward w) t e opts idx be c = Ok (w', ret) ∧ mod_outcome path t e w w' ret.
Proof.
  intros H He Hidx. pose proof (forward_wf w H) as Hf.
  destruct (decide (linked (timers w t) = true ∨ Z.land opts MOD_TIMER_PENDING_ONLY = 0)) as [Ho|Ho].
  - destruct (mod_timer_requeue_ok (forward w) t e opts idx be c Hf He Hidx Ho) as (w' & E & Hw & R).
    eexists w', _. split; [exact E|]. apply (mod_rearm path t e w w'); [done|]. rewrite forward_clk in R by done.
    by apply forward_rearmed.
  - apply Decidable.not_or in Ho as [Hl%not_true_iff_false Ho].
    unfold mod_timer_requeue, detach_if_pending, timer_pending. cbn. rewrite Hl. cbn [negb mbind outcome_bind].
    destruct (Z.eqb_spec (Z.land opts MOD_TIMER_PENDING_ONLY) 0) as [|_]; [done|].
    eexists _, _. split; [done|]. apply mod_keep.
Qed.

Lemma mod_locked_outcome w t e opts path :
  wf w → 0 ≤ e < 2 ^ 63 →
  ∃ w' ret, mod_timer_locked w t e opts path = Ok (w', ret) ∧ mod_outcome path t e w w' ret.
Proof.
  intros H He. unfold mod_timer_locked. fold (forward w).
  destruct path; [eexists _, _; split; [done|apply mod_return]| |by apply requeue_outcome; [| |left]].
  destruct (_ && _ && _); [eexists _, _; split; [done|apply mod_keep]|]. rewrite forward_clk by done.
  destruct (calc_wheel_index e (forwarded w)) as [idx be] eqn:Ec.
  destruct (Z.eqb_spec idx (timer_get_idx (timers (forward w) t))) as [Hi|_];
    [|apply requeue_outcome; [done|done|by right]].
  assert (mod_outcome ModPending t e w (set_timer t (set_expires e) (forward w)) 1) as Ho
    by (apply mod_expires; [done|by rewrite Ec]).
  destruct (_ =? 0); [eexists _, _; split; done|].
  destruct (time_after _ _); eexists _, _; (split; [done|]); [done|apply mod_keep].
Qed.

Lemma mod_outcome_wf path t e w w' ret : wf w → mod_outcome path t e w w' ret → wf w'.
Proof.
  intros H [ | | | ]; [done|by apply forward_wf|by apply set_expires_wf, forward_wf|done].
Qed.

(** ** The calls that start and change timers *)

Lemma s64_zero x y : 0 ≤ x < 2 ^ 64 → 0 ≤ y < 2 ^ 64 → s64 (x - y) = 0 ↔ x = y.
Proof.
  intros Hx Hy. unfold s64, sext. pose proof (Z.div_mod (x - y + 2 ^ (64 - 1)) (2 ^ 64) ltac:(lia)). split; [|intros ->].
  - intros. nia.
  - rewrite Z.sub_diag, Z.mod_small by lia. lia.
Qed.

Lemma s64_opp x : 0 < s64 x → s64 (- x) < 0.
Proof.
  unfold s64, sext. intros Hx. pose proof (Z.div_mod (x + 2 ^ (64 - 1)) (2 ^ 64) ltac:(lia)).
  pose proof (Z.mod_pos_bound (x + 2 ^ (64 - 1)) (2 ^ 64) ltac:(lia)).
  set (r := (x + 2 ^ (64 - 1)) mod 2 ^ 64) in *. set (q := (x + 2 ^ (64 - 1)) / 2 ^ 64) in *.
  rewrite <- (Z.mod_unique (- x + 2 ^ (64 - 1)) (2 ^ 64) (- q) (2 ^ 64 - r)); lia.
Qed.

(** When [__mod_timer] finds nothing to do before it takes the lock. *)
Definition mod_keeps (t : timer_list) (e opts : Z) : bool :=
  linked t && (Z.land opts MOD_TIMER_NOTPENDING =? 0) &&
  ((expires t =? e) || negb (Z.land opts MOD_TIMER_REDUCE =? 0) && (s64 (expires t - e) <=? 0)).

Lemma mod_unlocked_spec t e opts :
  0 ≤ expires t < 2 ^ 64 → 0 ≤ e < 2 ^ 64 →
  mod_timer_unlocked t e opts =
    if mod_keeps t e opts then ModReturn
    else if linked t && (Z.land opts MOD_TIMER_NOTPENDING =? 0) then ModPending else ModOther.
Proof.
  intros Ht He. unfold mod_timer_unlocked, mod_keeps, timer_pending.
  rewrite (andb_comm (Z.land opts MOD_TIMER_NOTPENDING =? 0)). destruct (linked t && _); [|done]. cbn [andb].
  destruct (Z.eqb_spec (s64 (expires t - e)) 0) as [Hz|Hz]; pose proof (s64_zero _ _ Ht He) as Hi.
  - apply Hi in Hz as ->. by rewrite Z.eqb_refl.
  - destruct (Z.eqb_spec (expires t) e) as [Heq|]; [by apply Hi in Heq|]. by destruct (_ && _).
Qed.

Lemma requeue_rearmed w t e opts idx be c :
  wf w → 0 ≤ e < 2 ^ 63 → idx = UINT_MAX ∨ calc_wheel_index e c = (idx, be) →
  linked (timers w t) = true ∨ Z.land opts MOD_TIMER_PENDING_ONLY = 0 →
  ∃ w', mod_timer_requeue (forward w) t e opts idx be c = Ok (w', if linked (timers w t) then 1 else 0) ∧
    wf w' ∧ rearmed t e (forwarded w) w w'.
Proof.
  intros H He Hidx Ho. pose proof (forward_wf w H) as Hf.
  destruct (mod_timer_requeue_ok (forward w) t e opts idx be c Hf He Hidx Ho) as (w' & E & Hw & R).
  exists w'. split; [exact E|]. split; [done|]. rewrite forward_clk in R by done. by apply forward_rearmed.
Qed.

(** The branch for pending timers, on a timer that is in a bucket and whose
    expiry is to change. *)
Lemma mod_pending_ok w t e opts :
  wf w → t ∉ inflight w → linked (timers w t) = true → 0 ≤ e < 2 ^ 63 →
  (Z.land opts MOD_TIMER_REDUCE ≠ 0 → s64 (e - expires (timers w t)) < 0) →
  ∃ w', mod_timer_locked w t e opts ModPending = Ok (w', 1) ∧ wf w' ∧ rearmed t e (forwarded w) w w'.
Proof.
  intros H Hfly Hl He Hlt. pose proof (forward_wf w H) as Hf.
  unfold mod_timer_locked. fold (forward w). unfold timer_pending, time_before_eq, time_after_eq, time_after.
  change (timers (forward w) t) with (timers w t). rewrite Hl, forward_clk by done.
  destruct (wf_times _ _ H) as (? & ? & ? & ?). destruct (forwarded_range None w H).
  destruct (calc_wheel_index_ok e (forwarded w)) as (idx & be & Ec & Hs); [lia|done|]. rewrite Ec. cbn [andb].
  pose proof (requeue_rearmed w t e opts idx be (forwarded w) H He (or_intror Ec) (or_introl Hl)) as Hre.
  rewrite Hl in Hre.
  assert (Z.eqb idx (timer_get_idx (timers w t)) = true →
    wf (set_timer t (set_expires e) (forward w)) ∧ rearmed t e (forwarded w) w (set_timer t (set_expires e) (forward w))) as Hsame.
  { intros Hi%Z.eqb_eq. split; [by apply set_expires_wf|]. apply forward_rearmed; [done|]. rewrite <- (forward_clk w) by done.
    apply (same_bucket_rearmed (forward w) t e idx be); rewrite ?forward_clk by done; [done..|].
    unfold forward. rewrite forward_due by done. unfold due. by rewrite Hl, bool_decide_true. }
  destruct (Z.eqb_spec (Z.land opts MOD_TIMER_REDUCE) 0) as [Er|Er]; cbn [negb andb].
  - destruct (idx =? _); [|exact Hre]. eexists. split; [done|by apply Hsame].
  - specialize (Hlt Er). destruct (Z.leb_spec 0 (s64 (e - expires (timers w t)))); [lia|].
    destruct (idx =? _); [|exact Hre]. destruct (Z.ltb_spec (s64 (e - expires (timers w t))) 0); [|lia].
    eexists. split; [done|by apply Hsame].
Qed.

(** The branch for pending timers without options, whatever has become of the
    timer since the check: the index left in its flags decides. *)
Lemma mod_pending_shortcut w t e :
  wf w → (calc_wheel_index e (forwarded w)).1 = timer_get_idx (timers w t) →
  mod_timer_locked w t e 0 ModPending = Ok (set_timer t (set_expires e) (forward w), 1).
Proof.
  intros H Hi. unfold mod_timer_locked. fold (forward w). change (Z.land 0 MOD_TIMER_REDUCE =? 0) with true.
  cbn [negb]. rewrite andb_false_r. cbn [andb]. rewrite forward_clk by done.
  destruct (calc_wheel_index e (forwarded w)) as [idx be]. cbn in Hi. subst idx.
  change (timers (forward w) t) with (timers w t). by rewrite Z.eqb_refl.
Qed.

Lemma mod_pending_moved w t e :
  wf w → 0 ≤ e < 2 ^ 63 → (calc_wheel_index e (forwarded w)).1 ≠ timer_get_idx (timers w t) →
  ∃ w', mod_timer_locked w t e 0 ModPending = Ok (w', if linked (timers w t) then 1 else 0) ∧
    wf w' ∧ rearmed t e (forwarded w) w w'.
Proof.
  intros H He Hi. unfold mod_timer_locked. fold (forward w). change (Z.land 0 MOD_TIMER_REDUCE =? 0) with true.
  cbn [negb]. rewrite andb_false_r. cbn [andb]. rewrite forward_clk by done.
  destruct (calc_wheel_index e (forwarded w)) as [idx be] eqn:Ec. cbn in Hi.
  change (timers (forward w) t) with (timers w t). destruct (Z.eqb_spec idx (timer_get_idx (timers w t))); [done|].
  apply requeue_rearmed; [done|done|by right|by right].
Qed.

(** What the shortcut leaves behind. *)
Lemma shortcut_frame w t e :
  wf w → let w' := set_timer t (set_expires e) (forward w) in
  wf w' ∧ expires (timers w' t) = e ∧ linked (timers w' t) = linked (timers w t) ∧ heads w' = heads w ∧
  (∀ a, due w' a = due w a) ∧ (∀ a, a ≠ t → timers w' a = timers w a).
Proof.
  intros H w'. pose proof (forward_wf w H) as Hf. split; [by apply set_expires_wf|].
  assert (timers w' t = set_expires e (timers w t)) as Et by (unfold w', set_timer; cbn; by rewrite fn_lookup_insert).
  split; [by rewrite Et|]. split; [by rewrite Et|]. split; [done|]. split.
  - intros a. unfold w'. rewrite set_expires_due. by apply forward_due.
  - intros a Ha. unfold w', set_timer; cbn. by rewrite fn_lookup_insert_ne.
Qed.

(** The whole function: on a timer that is not being expired it does nothing,
    or gives the timer up when it was asked to change pending timers only, or
    starts it again. *)
Lemma __mod_timer_ok w t e opts :
  wf w → function (timers w t) ≠ 0 → t ∉ inflight w → 0 ≤ e < 2 ^ 63 → 0 ≤ expires (timers w t) < 2 ^ 64 →
  if mod_keeps (timers w t) e opts then __mod_timer w t e opts = Ok (w, 1)
  else if negb (linked (timers w t)) && negb (Z.land opts MOD_TIMER_PENDING_ONLY =? 0)
  then __mod_timer w t e opts = Ok (forward w, 0)
  else ∃ w', __mod_timer w t e opts = Ok (w', if linked (timers w t) then 1 else 0) ∧
         wf w' ∧ rearmed t e (forwarded w) w w'.
Proof.
  intros H Hfn Hfly He Ht. unfold __mod_timer. destruct (Z.eqb_spec (function (timers w t)) 0) as [|_]; [done|].
  rewrite mod_unlocked_spec by lia. destruct (mod_keeps (timers w t) e opts) eqn:Ek; [done|].
  destruct (linked (timers w t)) eqn:Hl; cbn [negb andb].
  - destruct (Z.land opts MOD_TIMER_NOTPENDING =? 0) eqn:En.
    + apply mod_pending_ok; [done..|]. intros Hr. unfold mod_keeps in Ek. rewrite Hl, En in Ek. cbn [andb] in Ek.
      apply orb_false_iff in Ek as [_ Ek]. destruct (Z.eqb_spec (Z.land opts MOD_TIMER_REDUCE) 0); [done|].
      cbn [negb andb] in Ek. apply Z.leb_gt, s64_opp in Ek.
      by replace (e - expires (timers w t)) with (- (expires (timers w t) - e)) by lia.
    + pose proof (requeue_rearmed w t e opts UINT_MAX 0 0 H He (or_introl eq_refl)) as Hre. rewrite Hl in Hre.
      apply Hre. by left.
  - destruct (Z.land opts MOD_TIMER_PENDING_ONLY =? 0) eqn:Ep; cbn [negb].
    + pose proof (requeue_rearmed w t e opts UINT_MAX 0 0 H He (or_introl eq_refl)) as Hre. rewrite Hl in Hre.
      apply Hre. right. by apply Z.eqb_eq.
    + unfold mod_timer_locked. fold (forward w). unfold mod_timer_requeue, detach_if_pending, timer_pending.
      cbn. rewrite Hl. cbn [negb mbind outcome_bind]. by rewrite Ep.
Qed.

End TimerWheelOps.
