(* ===== verification/TimerWheelNext.v ===== *)
(** * The next event of the timer wheel

    The level by level search of [__next_timer_interrupt] computes the least
    expiry of the buckets that have timers, and [collect_expired_timers] takes
    exactly the buckets that expire at the new clock (time/src/timer.c). *)

From stdpp Require Import base numbers list option functions sets.
From Stdlib Require Import ZArith Lia.
From S2P Require Import Prelude Bitops Bitmap BitmapSpec TimerWheel TimerWheelIndex TimerWheelSpec TimerWheelOps.

Open Scope Z_scope.

Module TimerWheelNext.
Import Bitmap TimerWheel TimerWheelIndex TimerWheelSpec TimerWheelOps.

(** ** One level *)

(** The distance from the level's clock to bucket [j], around the level. *)
Lemma around c j :
  0 ≤ j < 64 → (j - c) mod 64 = if decide (c mod 64 ≤ j) then j - c mod 64 else j - c mod 64 + 64.
Proof.
  intros Hj. pose proof (Z.div_mod c 64 ltac:(lia)). pose proof (Z.mod_pos_bound c 64 ltac:(lia)).
  case_decide; symmetry; [apply Z.mod_unique with (- (c / 64))|apply Z.mod_unique with (- (c / 64) - 1)]; lia.
Qed.

Lemma level_index i lvl : i / 64 = lvl → ∃ j, i = 64 * lvl + j ∧ 0 ≤ j < 64 ∧ i mod 64 = j.
Proof.
  intros <-. exists (i mod 64). pose proof (Z.div_mod i 64 ltac:(lia)). pose proof (Z.mod_pos_bound i 64 ltac:(lia)). lia.
Qed.

(** [pos] is the distance of the first bucket with timers, if there is one. *)
Definition next_bucket (v : Z → list Z) (lvl c pos : Z) : Prop :=
  (pos = -1 ∧ ∀ i, i / 64 = lvl → v i = []) ∨
  (0 ≤ pos < 64 ∧ v (64 * lvl + (c + pos) mod 64) ≠ [] ∧
   ∀ i, i / 64 = lvl → v i ≠ [] → pos ≤ (i mod 64 - c) mod 64).

Lemma next_pending_bucket_ok b lvl c :
  map_ok (pending_map b) (vectors b) → 0 ≤ lvl ≤ 8 →
  ∃ pos, next_pending_bucket b (64 * lvl) (c mod 64) = Ok pos ∧ next_bucket (vectors b) lvl c pos.
Proof.
  intros Hm Hl. pose proof Hm as (Hw & Hlen & Hbit). destruct bound_consts as [EW _].
  pose proof (Z.mod_pos_bound c 64 ltac:(lia)) as Hr. pose proof (Z.div_mod c 64 ltac:(lia)) as Hc.
  set (r := c mod 64) in *.
  assert (∀ n, 0 ≤ n ≤ 576 → bitmap_ok (pending_map b) n) as Hok.
  { intros n Hn. split; [done|]. unfold capacity. rewrite Hlen. lia. }
  assert (∀ j, 0 ≤ j < 64 → bit (pending_map b) (64 * lvl + j) = bool_decide (vectors b (64 * lvl + j) ≠ [])) as Hb.
  { intros j Hj. apply Hbit. lia. }
  unfold next_pending_bucket. change LVL_SIZE with 64.
  destruct (find_next_bit_spec (pending_map b) (64 * lvl + 64) (64 * lvl + r)) as (p1 & -> & H1);
    [apply Hok; lia|lia|]. cbn [mbind outcome_bind].
  destruct H1 as [(Hp1 & Hs1 & Hf1)|[-> Hf1]].
  - destruct (Z.ltb_spec p1 (64 * lvl + 64)); [|lia]. eexists. split; [done|]. right. split; [lia|].
    replace p1 with (64 * lvl + (p1 - 64 * lvl)) in Hs1 by lia. rewrite Hb in Hs1 by lia. apply bool_decide_eq_true in Hs1.
    replace ((c + (p1 - (64 * lvl + r))) mod 64) with (p1 - 64 * lvl); [split; [done|]|].
    + intros i (j & -> & Hj & ->)%level_index Hv. rewrite around by done. fold r. case_decide; [|lia].
      destruct (decide (64 * lvl + j < p1)); [|lia]. specialize (Hf1 (64 * lvl + j) ltac:(lia)).
      rewrite Hb in Hf1 by lia. by apply bool_decide_eq_false in Hf1.
    + apply Z.mod_unique with (c / 64); lia.
  - destruct (Z.ltb_spec (64 * lvl + 64) (64 * lvl + 64)); [lia|].
    assert (∀ j, r ≤ j < 64 → vectors b (64 * lvl + j) = []) as He.
    { intros j Hj. specialize (Hf1 (64 * lvl + j) ltac:(lia)). rewrite Hb in Hf1 by lia.
      apply bool_decide_eq_false in Hf1. by apply dec_stable. }
    destruct (find_next_bit_spec (pending_map b) (64 * lvl + r) (64 * lvl)) as (p2 & -> & H2); [apply Hok; lia|lia|].
    cbn [mbind outcome_bind]. eexists. split; [done|]. destruct H2 as [(Hp2 & Hs2 & Hf2)|[-> Hf2]].
    + destruct (Z.ltb_spec p2 (64 * lvl + r)); [|lia]. right. split; [lia|].
      replace p2 with (64 * lvl + (p2 - 64 * lvl)) in Hs2 by lia. rewrite Hb in Hs2 by lia. apply bool_decide_eq_true in Hs2.
      replace ((c + (p2 + 64 - (64 * lvl + r))) mod 64) with (p2 - 64 * lvl); [split; [done|]|].
      * intros i (j & -> & Hj & ->)%level_index Hv. rewrite around by done. fold r. case_decide; [by rewrite He in Hv by lia|].
        destruct (decide (64 * lvl + j < p2)); [|lia]. specialize (Hf2 (64 * lvl + j) ltac:(lia)).
        rewrite Hb in Hf2 by lia. by apply bool_decide_eq_false in Hf2.
      * apply Z.mod_unique with (c / 64 + 1); lia.
    + destruct (Z.ltb_spec (64 * lvl + r) (64 * lvl + r)); [lia|]. left. split; [done|].
      intros i (j & -> & Hj & _)%level_index. destruct (decide (r ≤ j)); [by apply He; lia|].
      specialize (Hf2 (64 * lvl + j) ltac:(lia)). rewrite Hb in Hf2 by lia.
      apply bool_decide_eq_false in Hf2. by apply dec_stable.
Qed.

(** ** All levels *)

(** [next] is the least expiry of the buckets below level [lvl] that have
    timers, or the horizon of the wheel if there is none before it. *)
Definition next_upto (b : timer_base) (lvl next : Z) : Prop :=
  next ≤ clk b + NEXT_TIMER_MAX_DELTA ∧
  (∀ i, vectors b i ≠ [] → i / 64 < lvl → next ≤ bucket_time (clk b) i) ∧
  (next = clk b + NEXT_TIMER_MAX_DELTA ∨ ∃ i, vectors b i ≠ [] ∧ next = bucket_time (clk b) i).

Definition next_event (b : timer_base) (next : Z) : Prop :=
  next ≤ clk b + NEXT_TIMER_MAX_DELTA ∧
  (∀ i, vectors b i ≠ [] → next ≤ bucket_time (clk b) i) ∧
  (next = clk b + NEXT_TIMER_MAX_DELTA ∨ ∃ i, vectors b i ≠ [] ∧ next = bucket_time (clk b) i).

(** The bucket found in a level. *)
Lemma level_time b lvl pos :
  0 ≤ lvl ≤ 8 → next_bucket (vectors b) lvl (ceil (clk b) (gran lvl)) pos → 0 ≤ pos →
  let i := 64 * lvl + (ceil (clk b) (gran lvl) + pos) mod 64 in
  vectors b i ≠ [] ∧ bucket_time (clk b) i = (ceil (clk b) (gran lvl) + pos) * gran lvl.
Proof.
  intros Hl [[-> _]|(Hp & Hv & _)] H0; [lia|]. split; [done|].
  set (c := ceil (clk b) (gran lvl)) in *. pose proof (Z.mod_pos_bound (c + pos) 64 ltac:(lia)).
  destruct (div_mod_level lvl ((c + pos) mod 64)) as [El Em]; [lia|].
  pose proof (bucket_time_unique (clk b) (64 * lvl + (c + pos) mod 64) (c + pos) ltac:(lia)) as Hu.
  rewrite El, Em in Hu. apply Hu; [|done]. fold c. lia.
Qed.

Lemma level_least b lvl pos i :
  0 ≤ lvl → next_bucket (vectors b) lvl (ceil (clk b) (gran lvl)) pos → vectors b i ≠ [] → i / 64 = lvl →
  0 ≤ pos ∧ (ceil (clk b) (gran lvl) + pos) * gran lvl ≤ bucket_time (clk b) i.
Proof.
  intros Hl [[_ He]|(Hp & _ & Hmin)] Hv Hi; [by rewrite He in Hv|]. split; [lia|].
  unfold bucket_time. rewrite Hi. specialize (Hmin i Hi Hv). pose proof (gran_pos lvl Hl). nia.
Qed.

(** The next candidate. *)
Lemma next_step b lvl pos next next' :
  0 ≤ lvl ≤ 8 → next_bucket (vectors b) lvl (ceil (clk b) (gran lvl)) pos → next_upto b lvl next →
  next' = (if decide (0 ≤ pos) then Z.min ((ceil (clk b) (gran lvl) + pos) * gran lvl) next else next) →
  next_upto b (lvl + 1) next'.
Proof.
  intros Hl Hb (H1 & H2 & H3) E. split; [case_decide; lia|]. split.
  - intros i Hv Hi. destruct (decide (i / 64 = lvl)) as [Ei|].
    + destruct (level_least b lvl pos i ltac:(lia) Hb Hv Ei). rewrite decide_True in E by done. lia.
    + pose proof (H2 i Hv ltac:(lia)). case_decide; lia.
  - case_decide as Hp; [|by subst].
    destruct (level_time b lvl pos Hl Hb Hp) as [Hv Ht].
    destruct (decide ((ceil (clk b) (gran lvl) + pos) * gran lvl ≤ next)); [|by replace next' with next by lia].
    right. eexists. split; [exact Hv|]. lia.
Qed.

(** When the search may stop: no coarser bucket expires earlier. *)
Lemma break_ok b lvl pos i :
  0 ≤ lvl → 0 ≤ pos ≤ Z.land (LVL_CLK_DIV - Z.land (ceil (clk b) (gran lvl)) LVL_CLK_MASK) LVL_CLK_MASK →
  lvl < i / 64 → 0 ≤ i → (ceil (clk b) (gran lvl) + pos) * gran lvl ≤ bucket_time (clk b) i.
Proof.
  intros Hl Hp Hi H0. pose proof (bucket_time_above (clk b) i (lvl + 1) ltac:(lia) H0) as Ha.
  rewrite !land_LVL_CLK_MASK in Hp. change LVL_CLK_DIV with 8 in Hp. pose proof (gran_pos lvl Hl).
  set (c := ceil (clk b) (gran lvl)) in *.
  rewrite ceil_succ, gran_succ in Ha by lia. fold c in Ha.
  pose proof (Z.div_mod c 8 ltac:(lia)). pose proof (Z.mod_pos_bound c 8 ltac:(lia)).
  destruct (Z.eqb_spec (c mod 8) 0) as [E|E].
  - rewrite E in Hp. change ((8 - 0) mod 8) with 0 in Hp. nia.
  - rewrite Z.mod_small in Hp by lia. nia.
Qed.

Lemma next_levels_ok b :
  map_ok (pending_map b) (vectors b) → (∀ i, vectors b i ≠ [] → 0 ≤ i < WHEEL_SIZE) → 0 ≤ clk b < 2 ^ 62 →
  ∀ n lvl next, Z.of_nat n = 9 - lvl → 0 ≤ lvl → clk b ≤ next → next_upto b lvl next →
  ∃ r, next_levels n b lvl (64 * lvl) (ceil (clk b) (gran lvl)) next = Ok r ∧ next_event b r.
Proof.
  intros Hm Hout Hclk. destruct bound_consts as [EW EM].
  induction n as [|n IH]; intros lvl next Hn Hl Hge Hu; cbn [next_levels].
  { exists next. split; [done|]. destruct Hu as (H1 & H2 & H3). split; [done|]. split; [|done].
    intros i Hv. apply H2; [done|]. pose proof (level_range i (Hout i Hv)). lia. }
  rewrite land_LVL_MASK.
  destruct (next_pending_bucket_ok b lvl (ceil (clk b) (gran lvl)) Hm ltac:(lia)) as (pos & -> & Hb).
  cbn [mbind outcome_bind]. pose proof (gran_pos lvl Hl) as Hg. pose proof (gran_max lvl ltac:(lia)).
  pose proof (ceil_spec (clk b) _ Hg) as Hc. set (c := ceil (clk b) (gran lvl)) in *.
  assert (0 ≤ c < 2 ^ 63) as Hcr by nia.
  assert (-1 ≤ pos < 64) as Hpr by (destruct Hb as [[-> _]|[? _]]; lia).
  set (next' := if decide (0 ≤ pos) then Z.min ((c + pos) * gran lvl) next else next).
  assert ((if (0 <=? pos) && time_before (u64 (Z.shiftl (u64 (c + pos)) (LVL_SHIFT lvl))) next
           then u64 (Z.shiftl (u64 (c + pos)) (LVL_SHIFT lvl)) else next) = next') as ->.
  { unfold next'. destruct (Z.leb_spec 0 pos), (decide (0 ≤ pos)); try lia; [|done].
    rewrite (u64_id (c + pos)), Z.shiftl_mul_pow2, gran_shift by (unfold LVL_SHIFT, LVL_CLK_SHIFT; lia).
    destruct Hu as (? & _). rewrite u64_id, time_before_spec by nia. cbn [andb].
    destruct (Z.ltb_spec ((c + pos) * gran lvl) next); lia. }
  pose proof (next_step b lvl pos next next' ltac:(lia) Hb Hu eq_refl) as Hu'. clearbody next'.
  assert (clk b ≤ next') as Hge'.
  { destruct Hu' as (_ & _ & [->|(i & Hv & ->)]); [lia|]. apply bucket_time_range. by apply Hout. }
  destruct ((0 <=? pos) && (pos <=? _)) eqn:Eb.
  - apply andb_true_iff in Eb as [Hp0%Z.leb_le Hp1%Z.leb_le]. exists next'. split; [done|].
    pose proof (level_time b lvl pos ltac:(lia) Hb Hp0) as [Hv0 Ht0].
    destruct Hu' as (H1 & H2 & H3). split; [done|]. split; [|done]. intros i Hv.
    destruct (decide (i / 64 < lvl + 1)); [by apply H2|]. pose proof (Hout i Hv).
    pose proof (break_ok b lvl pos i Hl (conj Hp0 Hp1) ltac:(lia) ltac:(lia)).
    pose proof (Z.mod_pos_bound (c + pos) 64 ltac:(lia)).
    destruct (div_mod_level lvl ((c + pos) mod 64)) as [El _]; [lia|].
    pose proof (H2 _ Hv0) as Hx. rewrite Ht0 in Hx. fold c in Hx. rewrite El in Hx. fold c in H1. lia.
  - change LVL_SIZE with 64. replace (64 * lvl + 64) with (64 * (lvl + 1)) by lia.
    assert (u64 (Z.shiftr c LVL_CLK_SHIFT + (if negb (Z.land c LVL_CLK_MASK =? 0) then 1 else 0)) =
            ceil (clk b) (gran (lvl + 1))) as ->.
    { rewrite ceil_succ by lia. fold c. rewrite land_LVL_CLK_MASK, Z.shiftr_div_pow2 by (unfold LVL_CLK_SHIFT; lia).
      change (2 ^ LVL_CLK_SHIFT) with 8. pose proof (Z.div_mod c 8 ltac:(lia)). pose proof (Z.mod_pos_bound c 8 ltac:(lia)).
      rewrite u64_id by (destruct (c mod 8 =? 0); cbn [negb]; lia). by destruct (c mod 8 =? 0). }
    apply IH; [lia|lia|done|done].
Qed.

Lemma ceil_1 c : ceil c (gran 0) = c.
Proof. apply ceil_unique; change (gran 0) with 1; lia. Qed.

Lemma next_timer_interrupt_ok b :
  map_ok (pending_map b) (vectors b) → (∀ i, vectors b i ≠ [] → 0 ≤ i < WHEEL_SIZE) → 0 ≤ clk b < 2 ^ 62 →
  ∃ next, __next_timer_interrupt b = Ok (set_next (next_expiry b) false b, next) ∧ next_event b next.
Proof.
  intros Hm Hout Hc. destruct bound_consts as [_ EM]. unfold __next_timer_interrupt.
  rewrite u64_id by lia. change (Z.to_nat LVL_DEPTH) with 9%nat.
  destruct (next_levels_ok b Hm Hout Hc 9 0 (clk b + NEXT_TIMER_MAX_DELTA)) as (r & E & Hr); [lia|lia|lia| |].
  { split; [lia|]. split; [|by left]. intros i Hv Hi. pose proof (level_range i (Hout i Hv)). lia. }
  rewrite ceil_1 in E. change (64 * 0) with 0 in E. rewrite E. cbn [mbind outcome_bind]. by eexists.
Qed.

(** ** Collecting the expired buckets *)

(** The buckets [bs], emptied. *)
Definition emptied (b b' : timer_base) (bs : list Z) : Prop :=
  map_ok (pending_map b') (vectors b') ∧
  (∀ i, vectors b' i = if decide (i ∈ bs) then [] else vectors b i) ∧
  clk b' = clk b ∧ next_expiry b' = next_expiry b ∧ running_timer b' = running_timer b.

Lemma emptied_refl b : map_ok (pending_map b) (vectors b) → emptied b b [].
Proof. intros H. split; [done|]. split; [|done]. intros i. by rewrite decide_False by apply not_elem_of_nil. Qed.

(** One level: the bucket of the level's clock is taken if it has timers. *)
Lemma collect_one b idx :
  map_ok (pending_map b) (vectors b) → 0 ≤ idx < WHEEL_SIZE →
  ∃ m, __test_and_clear_bit idx (pending_map b) = Ok (m, bool_decide (vectors b idx ≠ [])) ∧
    (vectors b idx ≠ [] → emptied b (set_buckets m (<[idx := []]> (vectors b)) b) [idx]) ∧
    (vectors b idx = [] → emptied b (set_buckets m (vectors b) b) []).
Proof.
  intros Hm Hi. pose proof Hm as (Hw & Hl & Hb).
  destruct (test_and_clear_bit_ok (pending_map b) idx) as (m & E & Hw' & Hl' & Hb'); [done|by eapply map_capacity|].
  rewrite Hb in E by done. exists m. split; [done|]. split; intros Hv.
  - split; [|split; [|done]]; cbn.
    + split; [done|]. split; [lia|]. intros i Hi'. rewrite Hb' by lia. case_decide as Hd.
      * subst i. rewrite fn_lookup_insert. symmetry. apply bool_decide_false. tauto.
      * rewrite fn_lookup_insert_ne by done. by apply Hb.
    + intros i. case_decide as Hd; [apply list_elem_of_singleton in Hd as ->; by rewrite fn_lookup_insert|].
      rewrite fn_lookup_insert_ne; [done|]. intros ->. apply Hd. by apply list_elem_of_singleton.
  - split; [|split; [|done]]; cbn.
    + split; [done|]. split; [lia|]. intros i Hi'. rewrite Hb' by lia. case_decide as Hd; [|by apply Hb].
      subst i. symmetry. apply bool_decide_false. tauto.
    + intros i. by rewrite decide_False by apply not_elem_of_nil.
Qed.

(** The expired buckets of the levels from [lvl] on. *)
Definition expired_from (b : timer_base) (c lvl : Z) (bs : list Z) : Prop :=
  NoDup bs ∧ ∀ i, i ∈ bs ↔ 64 * lvl ≤ i < WHEEL_SIZE ∧ bucket_time c i = c ∧ vectors b i ≠ [].

(** The bucket of a level that expires at [c]. *)
Lemma expired_here c lvl i :
  0 ≤ lvl → 64 * lvl ≤ i → c mod gran lvl = 0 →
  bucket_time c i = c ↔ i = (c / gran lvl) mod 64 + lvl * 64 ∨
    ((c / gran lvl) mod 8 = 0 ∧ 64 * (lvl + 1) ≤ i ∧ bucket_time c i = c).
Proof.
  intros Hl Hi Hc. pose proof (gran_pos lvl Hl) as Hg. pose proof (Z.mod_pos_bound (c / gran lvl) 64 ltac:(lia)).
  assert (c = gran lvl * (c / gran lvl)) as Ec by (pose proof (Z.div_mod c (gran lvl) ltac:(lia)); lia).
  split.
  - intros Hb. destruct (decide (i / 64 = lvl)) as [El|El].
    + left. apply bucket_time_now in Hb as [_ Hb]; [|lia]. rewrite El in Hb. rewrite <- Hb.
      pose proof (Z.div_mod i 64 ltac:(lia)). lia.
    + right. assert (lvl < i / 64) as Hlt by (pose proof (Z.div_le_lower_bound i 64 lvl ltac:(lia) Hi); lia).
      split; [|split; [|done]].
      * apply bucket_time_now in Hb as [Hb _]; [|lia].
        assert (gran (i / 64) = gran lvl * 8 * gran (i / 64 - lvl - 1)) as E8.
        { rewrite (Z.mul_comm _ 8), <- gran_succ by done. unfold gran. rewrite <- Z.pow_add_r by lia. f_equal. lia. }
        apply Z.mod_divide in Hb as [q Hq]; [|pose proof (gran_pos (i / 64)); lia].
        apply Z.mod_divide; [lia|]. exists (q * gran (i / 64 - lvl - 1)). rewrite E8 in Hq. nia.
      * pose proof (Z.div_mod i 64 ltac:(lia)). pose proof (Z.mod_pos_bound i 64 ltac:(lia)). lia.
  - intros [->|(_ & _ & Hb)]; [|done]. rewrite (Z.add_comm _ (lvl * 64)), (Z.mul_comm lvl).
    destruct (div_mod_level lvl ((c / gran lvl) mod 64)) as [El Em]; [lia|].
    apply bucket_time_now; [lia|]. by rewrite El, Em.
Qed.

(** What the loop does to the bucket [idx] of a level: it takes the bucket, the
    list [js] of none or one, if it has timers. *)
Lemma collect_pick b idx (hs : list (list Z)) :
  map_ok (pending_map b) (vectors b) → 0 ≤ idx < WHEEL_SIZE →
  ∃ m pending b1 js, __test_and_clear_bit idx (pending_map b) = Ok (m, pending) ∧
    (if pending : bool then hs ++ [vectors b idx] else hs) = hs ++ map (vectors b) js ∧
    set_buckets m (if pending : bool then <[idx := []]> (vectors b) else vectors b) b = b1 ∧
    emptied b b1 js ∧ NoDup js ∧ ∀ i, i ∈ js ↔ i = idx ∧ vectors b idx ≠ [].
Proof.
  intros Hm Hi. destruct (collect_one b idx Hm Hi) as (m & E & He1 & He2).
  exists m, (bool_decide (vectors b idx ≠ [])). case_bool_decide as Hv.
  - eexists _, [idx]. split; [done|]. split; [done|]. split; [done|]. split; [by apply He1|].
    split; [apply NoDup_singleton|]. intros i. rewrite list_elem_of_singleton. tauto.
  - eexists _, []. split; [done|]. split; [by rewrite app_nil_r|]. split; [done|]. split; [by apply He2|].
    split; [constructor|]. intros i. rewrite elem_of_nil. tauto.
Qed.

(** The buckets of a level and those of the coarser ones. *)
Lemma expired_app b b1 c lvl idx js bs :
  0 ≤ lvl → c mod gran lvl = 0 → (c / gran lvl) mod 8 = 0 → idx = (c / gran lvl) mod 64 + lvl * 64 →
  64 * lvl ≤ idx < 64 * (lvl + 1) → idx < WHEEL_SIZE → emptied b b1 js → NoDup js → (∀ i, i ∈ js ↔ i = idx ∧ vectors b idx ≠ []) →
  expired_from b1 c (lvl + 1) bs →
  expired_from b c lvl (js ++ bs) ∧ map (vectors b1) bs = map (vectors b) bs.
Proof.
  intros Hl Hd E8 Eidx Hi Hw (_ & Hv1 & _) Hjd Hj [Hnd Hel].
  assert (∀ i, i ∈ bs → i ∉ js) as Hdis by (intros i (Hr & _)%Hel [-> _]%Hj; lia).
  assert (∀ i, i ∈ bs → vectors b1 i = vectors b i) as Hsame.
  { intros i Hin. rewrite Hv1. by rewrite decide_False by (by apply Hdis). }
  split; [|apply map_ext_in; intros i Hin; apply Hsame; by apply list_elem_of_In]. split.
  - apply list.NoDup_app. split; [done|]. split; [|done]. intros i Hij Hib. by apply (Hdis i).
  - intros i. rewrite elem_of_app, Hel, Hj. split.
    + intros [[-> Hv]|(Hr & Hb & Hv)].
      * split; [lia|]. split; [|done]. apply (expired_here c lvl); [done|lia|done|by left].
      * split; [lia|]. split; [done|]. rewrite Hv1 in Hv. by case_decide.
    + intros (Hr & Hb & Hv). apply (expired_here c lvl) in Hb as [->|(_ & Hr' & Hb)]; [by left; rewrite <- Eidx in *|right|done|lia|done].
      split; [lia|]. split; [done|]. rewrite Hv1, decide_False; [done|]. intros [-> _]%Hj. lia.
Qed.

Lemma emptied_app b b1 b2 js bs : emptied b b1 js → emptied b1 b2 bs → emptied b b2 (js ++ bs).
Proof.
  intros (_ & V1 & C1 & N1 & R1) (M2 & V2 & C2 & N2 & R2). split; [done|]. split; [|by rewrite C2, N2, R2].
  intros k. rewrite V2, V1. rewrite (decide_ext _ _ _ _ (elem_of_app js bs k)). repeat case_decide; tauto.
Qed.

Lemma collect_levels_ok c :
  0 ≤ c → ∀ n lvl b hs, Z.of_nat n = 9 - lvl → 0 ≤ lvl → c mod gran lvl = 0 → map_ok (pending_map b) (vectors b) →
  ∃ b' bs, collect_levels n lvl (c / gran lvl) b hs = Ok (b', hs ++ map (vectors b) bs) ∧
    expired_from b c lvl bs ∧ emptied b b' bs.
Proof.
  intros Hc. destruct bound_consts as [EW _]. induction n as [|n IH]; intros lvl b hs Hn Hl Hd Hm; cbn [collect_levels].
  { exists b, []. rewrite app_nil_r. split; [done|]. split; [|by apply emptied_refl].
    split; [constructor|]. intros i. rewrite elem_of_nil. lia. }
  rewrite land_LVL_MASK, land_LVL_CLK_MASK. change LVL_SIZE with 64.
  pose proof (gran_pos lvl Hl) as Hg. pose proof (Z.mod_pos_bound (c / gran lvl) 64 ltac:(lia)).
  remember ((c / gran lvl) mod 64 + lvl * 64) as idx eqn:Eidx. assert (64 * lvl ≤ idx < 64 * (lvl + 1)) as Hi by lia.
  destruct (collect_pick b idx hs Hm ltac:(lia)) as (m & pending & b1 & js & E1 & E2 & E3 & Hem & Hjd & Hj).
  rewrite E1. cbn [mbind outcome_bind]. rewrite E2, E3.
  destruct (Z.eqb_spec ((c / gran lvl) mod 8) 0) as [E8|E8]; cbn [negb].
  - assert (Z.shiftr (c / gran lvl) LVL_CLK_SHIFT = c / gran (lvl + 1)) as ->.
    { rewrite Z.shiftr_div_pow2, Z.div_div, gran_succ by (unfold LVL_CLK_SHIFT; lia). f_equal. rewrite Z.mul_comm. done. }
    destruct (IH (lvl + 1) b1 (hs ++ map (vectors b) js)) as (b' & bs & -> & Hex & Hem').
    { lia. } { lia. }
    { rewrite gran_succ, (Z.mul_comm 8), Z.rem_mul_r, Hd, E8 by lia. lia. } { apply Hem. }
    destruct (expired_app b b1 c lvl idx js bs Hl Hd E8 Eidx Hi ltac:(lia) Hem Hjd Hj Hex) as [Hex' ->].
    exists b', (js ++ bs). rewrite map_app, app_assoc. split; [done|]. split; [done|by eapply emptied_app].
  - exists b1, js. split; [done|]. split; [|done]. split; [done|]. intros i. rewrite Hj. split.
    + intros [-> Hv]. split; [lia|]. split; [|done]. apply (expired_here c lvl); [done|lia|done|left; lia].
    + intros (Hr & Hb & Hv). apply (expired_here c lvl) in Hb as [->|(? & _)]; [by rewrite <- Eidx in *|done|done|lia|done].
Qed.

(** ** A round of [__run_timers] *)

Lemma NoDup_buckets (v : Z → list Z) bs :
  NoDup bs → (∀ i, NoDup (v i)) → (∀ i j t, t ∈ v i → t ∈ v j → i = j) → NoDup (concat (map v bs)).
Proof.
  intros Hnd Hv Hd. induction Hnd as [|i bs Hi _ IH]; cbn; [constructor|]. apply list.NoDup_app.
  split; [apply Hv|]. split; [|done]. intros t Ht Hin. apply list_elem_of_In, in_concat in Hin as (l & Hl & Htl).
  apply in_map_iff in Hl as (j & <- & Hj). apply list_elem_of_In in Hj, Htl. by rewrite (Hd i j t Ht Htl) in Hi.
Qed.

Lemma elem_concat_buckets (v : Z → list Z) bs t : t ∈ concat (map v bs) ↔ ∃ i, i ∈ bs ∧ t ∈ v i.
Proof.
  rewrite list_elem_of_In, in_concat. split.
  - intros (l & (i & <- & Hi)%in_map_iff & Ht). exists i. by rewrite !list_elem_of_In.
  - intros (i & Hi & Ht). exists (v i). rewrite in_map_iff, <- list_elem_of_In. split; [|done].
    exists i. by rewrite <- list_elem_of_In.
Qed.

(** The timers due at the next expiry leave their buckets, the clock is one
    past it and the next event is computed again. *)
Record collected (w w' : wheel) : Prop := {
  co_now : jiffies w' = jiffies w;
  co_timers : timers w' = timers w;
  co_run : running_timer (base w') = running_timer (base w);
  co_heads : heads w' ≠ None;
  co_clk : clk (base w') = next_expiry (base w) + 1;
  co_next : next_event (base w') (next_expiry (base w'));
  co_fly : ∀ t, t ∈ inflight w' ↔ due w t = Some (next_expiry (base w));
  co_due : ∀ t, due w' t = if decide (due w t = Some (next_expiry (base w))) then None else due w t
}.

(** What [run_collect] does to the base: the buckets [bs] of the next expiry
    are emptied into the frame of the softirq. *)
Record collecting (w w' : wheel) (bs : list Z) : Prop := {
  cg_now : jiffies w' = jiffies w;
  cg_timers : timers w' = timers w;
  cg_run : running_timer (base w') = running_timer (base w);
  cg_heads : heads w' = Some (map (vectors (base w)) bs);
  cg_clk : clk (base w') = next_expiry (base w) + 1;
  cg_next : next_event (base w') (next_expiry (base w'));
  cg_map : map_ok (pending_map (base w')) (vectors (base w'));
  cg_vec : ∀ i, vectors (base w') i = if decide (i ∈ bs) then [] else vectors (base w) i;
  cg_nodup : NoDup bs;
  cg_bs : ∀ i, i ∈ bs ↔ vectors (base w) i ≠ [] ∧ bucket_time (clk (base w)) i = next_expiry (base w)
}.

Lemma run_collect_base w :
  wf w → next_expiry (base w) ≤ jiffies w → ∃ w' bs, run_collect w = Ok w' ∧ collecting w w' bs.
Proof.
  intros H Hj. pose proof (wf_base _ _ H) as Hb. destruct (wf_times _ _ H) as (? & ? & ? & ?).
  set (c := next_expiry (base w)) in *. unfold run_collect, collect_expired_timers. fold c.
  change (Z.to_nat LVL_DEPTH) with 9%nat.
  destruct (collect_levels_ok c ltac:(lia) 9 0 (set_clk c (base w)) []) as (b1 & bs & E & [Hnd Hel] & Hem);
    [lia|lia|by rewrite Z.mod_1_r|apply Hb|].
  change (gran 0) with 1 in E. rewrite Z.div_1_r in E.
  change (clk (set_clk c (base w))) with c. rewrite E. cbn [mbind outcome_bind].
  destruct Hem as (Hm & Hv & Hc & Hn & Hr). cbn in Hv, Hc, Hn, Hr, Hel. rewrite Hc, u64_id by lia.
  set (b2 := set_clk (c + 1) b1).
  destruct (next_timer_interrupt_ok b2) as (next & En & Hne); [done| |cbn; lia|].
  { intros i Hi. cbn in Hi. rewrite Hv in Hi. case_decide; [done|]. by apply (bo_out _ Hb). }
  rewrite En. cbn [mbind outcome_bind]. eexists _, (rev bs). split; [done|].
  assert (∀ i, i ∈ rev bs ↔ i ∈ bs) as Hrev by (intros i; rewrite !list_elem_of_In; symmetry; apply in_rev).
  split; cbn; try done.
  - by rewrite map_rev.
  - intros i. rewrite Hv. by rewrite (decide_ext _ _ _ _ (Hrev i)).
  - by rewrite <- Permutation_rev.
  - intros i. rewrite Hrev, Hel. destruct bound_consts.
    assert (vectors (base w) i ≠ [] → bucket_time c i = bucket_time (clk (base w)) i) as Hst.
    { apply (set_clk_base_ok (base w) c Hb). lia. }
    split; [intros (_ & Ht & Hi); by rewrite <- Hst|]. intros [Hi Ht]. rewrite Hst by done.
    split; [|done]. pose proof (bo_out _ Hb i Hi). lia.
Qed.

(** The lists taken hold the timers that are due, and the deadlines of the
    buckets that remain stay. *)
Lemma collecting_fly w w' bs :
  wf w → collecting w w' bs → ∀ t, t ∈ inflight w' ↔ due w t = Some (next_expiry (base w)).
Proof.
  intros H C t. unfold inflight. rewrite (cg_heads _ _ _ C). cbn. rewrite elem_concat_buckets. split.
  - intros (i & [Hi Ht]%(cg_bs _ _ _ C) & Hin). rewrite (due_vec w i t H Hin). by rewrite Ht.
  - intros Hd. destruct (due_in w t _ H Hd) as [Hin Ht]. eexists. split; [|exact Hin]. apply (cg_bs _ _ _ C).
    split; [by eapply elem_nonempty|done].
Qed.

Lemma collecting_stays w w' bs i :
  wf w → collecting w w' bs → vectors (base w') i ≠ [] →
  vectors (base w) i ≠ [] ∧ (i ∉ bs) ∧ bucket_time (clk (base w')) i = bucket_time (clk (base w)) i.
Proof.
  intros H C Hi. pose proof (wf_base _ _ H) as Hb. rewrite (cg_vec _ _ _ C) in Hi. case_decide as Hd; [done|].
  split; [done|]. split; [done|]. rewrite (cg_clk _ _ _ C).
  pose proof (bo_next _ Hb i Hi). pose proof (bo_out _ Hb i Hi). destruct (wf_times _ _ H) as (? & ? & ? & ?).
  apply bucket_time_stable; [lia|].
  assert (bucket_time (clk (base w)) i ≠ next_expiry (base w)) by (intros Ht; by apply Hd, (cg_bs _ _ _ C)). lia.
Qed.

Lemma collecting_wf w w' bs :
  wf w → inflight w = [] → next_expiry (base w) ≤ jiffies w → collecting w w' bs → wf w'.
Proof.
  intros H Hf Hj C. pose proof (wf_base _ _ H) as Hb. destruct (wf_times _ _ H) as (? & ? & ? & ?).
  pose proof (collecting_fly w w' bs H C) as Hfly. pose proof (collecting_stays w w' bs) as Hst.
  pose proof (cg_vec _ _ _ C) as Hv. pose proof (cg_timers _ _ _ C) as T. pose proof (cg_next _ _ _ C) as Hne.
  pose proof (cg_now _ _ _ C). pose proof (cg_clk _ _ _ C). split.
  - split; [apply C| | |apply Hne|apply Hne].
    + intros i Hi. apply (bo_out _ Hb). by apply (Hst i).
    + split; [lia|]. destruct Hne as (_ & _ & [->|(i & Hi & ->)]); [destruct bound_consts; lia|].
      apply bucket_time_range. apply (bo_out _ Hb). by apply (Hst i).
  - lia.
  - lia.
  - intros i t. rewrite Hv, T. case_decide; [by intros ?%elem_of_nil|]. apply H.
  - intros i. rewrite Hv. case_decide; [constructor|apply H].
  - unfold inflight. rewrite (cg_heads _ _ _ C). cbn. apply NoDup_buckets; [apply C|apply H|].
    intros i j t Hi%(wf_vec _ _ H) Hj'%(wf_vec _ _ H). destruct Hi as [_ <-], Hj' as [_ <-]. done.
  - intros t Ht. apply Hfly in Ht. destruct (due_in w t _ H Ht) as [Hin Htm]. rewrite T.
    split; [apply (wf_vec _ _ H _ _ Hin)|]. intros i. rewrite Hv. case_decide as Hd; [by intros ?%elem_of_nil|].
    intros Hi. destruct (wf_vec _ _ H _ _ Hi) as [_ Ei]. rewrite Ei in Hin, Htm. apply Hd, (cg_bs _ _ _ C).
    split; [by eapply elem_nonempty|done].
  - intros t. rewrite T. intros Hl. right. destruct (wf_linked _ _ H t Hl) as [?|[Hin|Hin]]; [done| |by rewrite Hf in Hin; apply elem_of_nil in Hin].
    rewrite Hv. case_decide as Hd; [|by left]. right. apply Hfly. rewrite (due_vec w _ t H Hin). f_equal.
    by apply (cg_bs _ _ _ C) in Hd as [_ ?].
  - done.
Qed.

Lemma run_collect_ok w :
  wf w → inflight w = [] → next_expiry (base w) ≤ jiffies w →
  ∃ w', run_collect w = Ok w' ∧ wf w' ∧ collected w w'.
Proof.
  intros H Hf Hj. destruct (run_collect_base w H Hj) as (w' & bs & E & C).
  pose proof (collecting_wf w w' bs H Hf Hj C) as Hw. pose proof (collecting_fly w w' bs H C) as Hfly.
  exists w'. split; [done|]. split; [done|]. split; try apply C; [by rewrite (cg_heads _ _ _ C)|done|].
  intros t. case_decide as Hd.
  - unfold due. rewrite (bool_decide_false (t ∉ inflight w')); [by rewrite andb_false_r|]. intros Hn. by apply Hn, Hfly.
  - destruct (due w t) as [d|] eqn:Ed.
    + destruct (due_in w t d H Ed) as [Hin ->].
      assert (t ∈ vectors (base w') (timer_get_idx (timers w t))) as Hin'.
      { rewrite (cg_vec _ _ _ C), decide_False; [done|]. intros [_ Ht]%(cg_bs _ _ _ C). by rewrite Ht in Hd. }
      rewrite (due_vec w' _ t Hw Hin'). f_equal. apply (collecting_stays w w' bs); [done|done|by eapply elem_nonempty].
    + unfold due in *. rewrite (cg_timers _ _ _ C). destruct (linked (timers w t)) eqn:El; [|done]. exfalso.
      rewrite Hf, bool_decide_true in Ed by apply not_elem_of_nil. done.
Qed.

End TimerWheelNext.
