(* ===== verification/TimerWheelTrace.v ===== *)
(** * Runs of the timer wheel

    The operations of time/src/timer.c as the steps of a machine: ticks, the
    calls that start, change and stop timers, the idle code, and the softirq,
    which unlocks the base around every timer function so that the other
    steps interleave with it. *)

From stdpp Require Import base numbers list option functions.
From Stdlib Require Import ZArith Lia.
From S2P Require Import Prelude Bitops Bitmap BitmapSpec TimerWheel TimerWheelIndex TimerWheelSpec TimerWheelOps.
From S2P Require Import TimerWheelNext.

Open Scope Z_scope.

Module TimerWheelTrace.
Import Bitmap TimerWheel TimerWheelIndex TimerWheelSpec TimerWheelOps TimerWheelNext.

(** ** The machine *)

(** What happens under the lock in one go. [OMod] is the locked part of
    [__mod_timer] after any outcome of the check before the lock, which may be
    stale by then; [ODel] is that of [del_timer]. [OInit] sets up a timer that
    is not linked. *)
Inductive op :=
  | OTick
  | OInit (t func fl e : Z)
  | OMod (t e opts : Z) (path : mod_path)
  | OAddOn (t : Z)
  | ODel (t : Z)
  | OTryDel (t : Z)
  | OIdle (hrtimer basej basem : Z)
  | OClearIdle.

Definition apply_op (o : op) (w : wheel) : outcome wheel :=
  match o with
  | OTick => Ok (set_jiffies (jiffies w + 1) w)
  | OInit t func fl e => Ok (set_timer t (λ tm, set_expires e (do_init_timer func fl tm)) w)
  | OMod t e opts path =>
      if function (timers w t) =? 0 then Panic else '(w, _) ← mod_timer_locked w t e opts path; Ok w
  | OAddOn t => add_timer_on w t
  | ODel t => '(w, _) ← detach_if_pending w t true; Ok w
  | OTryDel t => '(w, _) ← try_to_del_timer_sync w t; Ok w
  | OIdle hrtimer basej basem => '(w, _) ← get_next_timer_interrupt hrtimer w basej basem; Ok w
  | OClearIdle => Ok (timer_clear_idle w)
  end.

(** What the caller owes. *)
Definition op_ok (o : op) (w : wheel) : Prop :=
  match o with
  | OTick => jiffies w + 1 < 2 ^ 61
  | OInit t _ _ e => linked (timers w t) = false ∧ 0 ≤ e < 2 ^ 63
  | OMod t e _ _ => function (timers w t) ≠ 0 ∧ 0 ≤ e < 2 ^ 63
  | OAddOn t => linked (timers w t) = false ∧ function (timers w t) ≠ 0 ∧ 0 ≤ expires (timers w t) < 2 ^ 63
  | OIdle _ basej _ => 0 ≤ basej ≤ jiffies w
  | _ => True
  end.

Inductive label := LOp (o : op) | LStart | LCollect | LExpire (t : Z) | LReturn | LFinish.

Inductive step (w : wheel) : label → wheel → Prop :=
  | step_op o w' : op_ok o w → apply_op o w = Ok w' → step w (LOp o) w'
  | step_start : heads w = None → time_before (jiffies w) (next_expiry (base w)) = false →
      step w LStart (set_heads (Some []) w)
  | step_collect hs w' : heads w = Some hs → first_expired hs = None → running_timer (base w) = 0 →
      run_due w = true → run_collect w = Ok w' → step w LCollect w'
  | step_expire hs t : heads w = Some hs → first_expired hs = Some t → running_timer (base w) = 0 →
      step w (LExpire t) (expire_timer w t)
  | step_return : running_timer (base w) ≠ 0 → step w LReturn (expire_return w)
  | step_finish hs : heads w = Some hs → first_expired hs = None → running_timer (base w) = 0 →
      run_due w = false → step w LFinish (set_heads None w).

Inductive steps (w : wheel) : list label → wheel → Prop :=
  | steps_nil : steps w [] w
  | steps_snoc ls w' l w'' : steps w ls w' → step w' l w'' → steps w (ls ++ [l]) w''.

(** The wheel at boot: an initialised base, no timer linked. *)
Definition booted (w : wheel) : Prop :=
  0 ≤ jiffies w < 2 ^ 61 ∧ base w = init_base (jiffies w) ∧ heads w = None ∧
  ∀ t, linked (timers w t) = false.

(** ** The invariant along runs *)

Lemma first_expired_none hs : first_expired hs = None ↔ concat hs = [].
Proof. induction hs as [|[|t l] hs IH]; cbn; [done|done|]. by split. Qed.

Lemma first_expired_some hs t : first_expired hs = Some t → t ∈ concat hs.
Proof. induction hs as [|[|a l] hs IH]; cbn; [done|done|]. intros [= ->]. by left. Qed.

Lemma booted_wf w : booted w → wf w.
Proof.
  intros (Hj & Eb & Eh & Hl). destruct bound_consts as [EW EM].
  assert (vectors (base w) = λ _, []) as Ev by (by rewrite Eb).
  assert (inflight w = []) as Ef by (unfold inflight; by rewrite Eh).
  split; rewrite ?Ev, ?Ef.
  - rewrite Eb. split.
    + change (pending_map _) with (replicate 9 0). change (vectors _) with (λ _ : Z, @nil Z).
      split; [by repeat constructor|]. split; [done|]. intros i Hi. rewrite bool_decide_false by tauto.
      unfold bit. assert (Z.to_nat (i / 64) < 9)%nat as Hlt by (pose proof (level_range i Hi); lia).
      rewrite (lookup_replicate_2 9 0 (Z.to_nat (i / 64)) Hlt). apply Z.bits_0.
    + done.
    + cbn. rewrite u64_id by lia. lia.
    + cbn. rewrite u64_id by lia. lia.
    + done.
  - rewrite Eb. cbn. lia.
  - lia.
  - intros i t Ht%elem_of_nil. done.
  - constructor.
  - constructor.
  - intros t Ht%elem_of_nil. done.
  - intros t Ht. by rewrite Hl in Ht.
  - done.
Qed.

(** ** Steps as they are seen from outside *)

(** What the wheel promises: a set of timers with deadlines, and the timers
    whose functions are about to be called. *)
Record service := mk_service { now : Z; deadline : Z → option Z; expiring : Z → Prop }.

Definition view (w : wheel) : service := mk_service (jiffies w) (due w) (λ t, t ∈ inflight w).

Definition alike (s s' : service) (a : Z) : Prop :=
  deadline s' a = deadline s a ∧ (expiring s' a ↔ expiring s a).

Inductive event := ENone | ETick | EArm (t d : Z) | EStop (t : Z) | ECollect (c : Z) | EFire (t : Z) | EDone.

Inductive serves (s : service) : event → service → Prop :=
  | serves_none s' : now s' = now s → (∀ a, alike s s' a) → serves s ENone s'
  | serves_tick s' : now s' = now s + 1 → (∀ a, alike s s' a) → serves s ETick s'
  | serves_arm t d s' : now s' = now s → deadline s' t = Some d → ¬ expiring s' t →
      (∀ a, a ≠ t → alike s s' a) → serves s (EArm t d) s'
  | serves_stop t s' : now s' = now s → deadline s' t = None → ¬ expiring s' t →
      (∀ a, a ≠ t → alike s s' a) → serves s (EStop t) s'
  | serves_collect c s' : now s' = now s → c ≤ now s → (∀ a, ¬ expiring s a) →
      (∀ a d, deadline s a = Some d → c ≤ d) →
      (∀ a, expiring s' a ↔ deadline s a = Some c) →
      (∀ a, deadline s' a = if decide (deadline s a = Some c) then None else deadline s a) →
      serves s (ECollect c) s'
  | serves_fire t s' : now s' = now s → expiring s t → deadline s' t = None → ¬ expiring s' t →
      (∀ a, a ≠ t → alike s s' a) → serves s (EFire t) s'
  | serves_done s' : now s' = now s → (∀ a, ¬ expiring s a) → (∀ a d, deadline s a = Some d → now s < d) →
      (∀ a, alike s s' a) → serves s EDone s'.

(** The events a step may show. *)
Definition shows (l : label) (e : event) : Prop :=
  match l, e with
  | LOp OTick, ETick => True
  | LOp (OMod t _ _ _), (ENone | EArm _ _) => ∀ t' d, e = EArm t' d → t' = t
  | LOp (OAddOn t), EArm t' _ => t' = t
  | LOp (ODel t), EStop t' => t' = t
  | LOp (OTryDel t), (ENone | EStop _) => ∀ t', e = EStop t' → t' = t
  | (LOp (OInit _ _ _ _ | OIdle _ _ _ | OClearIdle) | LStart | LReturn), ENone => True
  | LCollect, ECollect _ => True
  | LExpire t, EFire t' => t' = t
  | LFinish, EDone => True
  | _, _ => False
  end.

Lemma set_idle_wf x w i : wf_but x w → wf_but x (set_base (set_idle i (base w)) w).
Proof. intros H. split; try apply H. destruct (wf_base _ _ H). by split. Qed.

Lemma set_running_wf x w r : wf_but x w → wf_but x (set_base (set_running r (base w)) w).
Proof. intros H. split; try apply H. destruct (wf_base _ _ H). by split. Qed.

Lemma set_next_wf w n r :
  wf w → next_event (base w) n → wf (set_base (set_next n r (base w)) w).
Proof.
  intros H (H1 & H2 & H3). split; try apply H. pose proof (wf_base _ _ H) as Hb.
  split; cbn; [apply Hb|apply Hb| |done|done]. split; [apply (bo_clk _ Hb)|].
  destruct H3 as [->|(i & Hi & ->)]; [destruct bound_consts; lia|]. apply bucket_time_range. by apply (bo_out _ Hb).
Qed.

(** The first thing the idle code does: [next_expiry] is brought up to date. *)
Lemma refresh_next_ok w :
  wf w → ∃ b, (if next_expiry_recalc (base w) then
                 '(b, next) ← __next_timer_interrupt (base w); Ok (set_next next (next_expiry_recalc b) b)
               else Ok (base w)) = Ok b ∧
    wf (set_base b w) ∧ clk b = clk (base w) ∧ vectors b = vectors (base w) ∧ running_timer b = running_timer (base w) ∧
    (if next_expiry_recalc (base w) then next_event (base w) (next_expiry b) else next_expiry b = next_expiry (base w)).
Proof.
  intros H. pose proof (wf_base _ _ H) as Hb. destruct (wf_times _ _ H) as (? & ? & ? & ?).
  destruct (next_expiry_recalc (base w)).
  - destruct (next_timer_interrupt_ok (base w)) as (n & E & Hn); [apply Hb|apply Hb|lia|].
    rewrite E. cbn [mbind outcome_bind]. eexists. split; [done|]. split; [|done].
    by apply (set_next_wf w n false).
  - exists (base w). by destruct w.
Qed.

Lemma get_next_ok hr w basej basem :
  wf w → 0 ≤ basej ≤ jiffies w →
  ∃ w' r, get_next_timer_interrupt hr w basej basem = Ok (w', r) ∧ wf w' ∧ jiffies w' = jiffies w ∧
    timers w' = timers w ∧ heads w' = heads w ∧ vectors (base w') = vectors (base w) ∧
    running_timer (base w') = running_timer (base w) ∧
    (∀ a, due w' a = due w a) ∧ clk (base w) ≤ clk (base w').
Proof.
  intros H Hj. destruct (refresh_next_ok w H) as (b & E & Hb & Ec & Ev & Er & _).
  unfold get_next_timer_interrupt. rewrite E. cbn [mbind outcome_bind].
  destruct (wf_times _ _ Hb) as (? & ? & ? & ?). cbn [base set_base jiffies] in *.
  assert (∃ c, clk b ≤ c ≤ next_expiry b ∧ c ≤ jiffies w + 1 ∧
    (if time_after basej (clk b) then
       if time_after (next_expiry b) basej then set_clk basej b
       else if time_after (next_expiry b) (clk b) then set_clk (next_expiry b) b else b
     else b) = set_clk c b) as (c & Hc & Hcj & ->).
  { rewrite !time_after_spec by lia.
    destruct (Z.ltb_spec (clk b) basej); [|exists (clk b); destruct b; cbn in *; split_and!; (done || lia)].
    destruct (Z.ltb_spec basej (next_expiry b)); [exists basej; split_and!; (done || lia)|].
    destruct (Z.ltb_spec (clk b) (next_expiry b)); [exists (next_expiry b); split_and!; (done || lia)|].
    exists (clk b); destruct b; cbn in *; split_and!; (done || lia). }
  pose proof (set_clk_ok _ _ c Hb ltac:(cbn; lia) ltac:(cbn; lia)) as Hw. cbn [base set_base] in Hw.
  assert (∀ a, due (set_base (set_clk c b) w) a = due w a) as Hd.
  { intros a.
    transitivity (due (set_base b w) a); [by apply (set_clk_due (set_base b w) c a Hb)|].
    unfold due. cbn. by rewrite Ec. }
  destruct (time_before_eq _ _); [|destruct (TICK_NSEC <? _)]; eexists _, _; (split; [done|]);
    (split; [first [exact Hw|by apply (set_idle_wf _ (set_base (set_clk c b) w))]|]);
    (do 5 (split; [done|])); (split; [exact Hd|cbn; lia]).
Qed.

(** ** What each operation shows *)

(** What no operation but a tick touches. *)
Record framed (w w' : wheel) : Prop := {
  fr_clk : clk (base w) ≤ clk (base w');
  fr_run : running_timer (base w') = running_timer (base w);
  fr_heads : heads w' = None ↔ heads w = None
}.

Lemma framed_refl w : framed w w.
Proof. by split. Qed.

Definition op_shows (o : op) (w w' : wheel) : Prop :=
  wf w' ∧ framed w w' ∧ ∃ e, shows (LOp o) e ∧ serves (view w) e (view w').

Lemma unseen_serves w w' :
  jiffies w' = jiffies w → (∀ a, due w' a = due w a) → heads w' = heads w → serves (view w) ENone (view w').
Proof.
  intros Hj Hd Hh. apply serves_none; [done|]. intros a. split; [apply Hd|]. cbn. unfold inflight. by rewrite Hh.
Qed.

Lemma due_unlinked w t : linked (timers w t) = false → due w t = None.
Proof. intros Hl. unfold due. by rewrite Hl. Qed.

Lemma due_not_flying w t d : due w t = Some d → t ∉ inflight w.
Proof. unfold due. destruct (linked _); [|done]. cbn. by case_bool_decide. Qed.

Lemma rearmed_serves w w' t e c :
  rearmed t e c w w' → ∃ d, serves (view w) (EArm t d) (view w').
Proof.
  intros R. destruct (re_due _ _ _ _ _ R) as (idx & be & _ & Hd). exists be.
  apply serves_arm; [apply R|done|by eapply due_not_flying|].
  intros a Ha. by destruct (re_others _ _ _ _ _ R a Ha) as (_ & ? & ?).
Qed.

Lemma rearmed_framed w w' t e : wf w → rearmed t e (forwarded w) w w' → framed w w'.
Proof.
  intros H R. split; [|apply R|apply R]. rewrite (re_clk _ _ _ _ _ R). by apply (forwarded_range None).
Qed.

Lemma forward_framed w : wf w → framed w (forward w).
Proof.
  intros H. split; [|by apply forward_running|done]. rewrite forward_clk by done. by apply (forwarded_range None).
Qed.

Lemma forward_unseen w w' :
  wf w → jiffies w' = jiffies w → heads w' = heads w → (∀ a, due w' a = due (forward w) a) →
  serves (view w) ENone (view w').
Proof. intros H Hj Hh Hd. apply unseen_serves; [done| |done]. intros a. rewrite Hd. by apply forward_due. Qed.

Lemma mod_shows w t e opts path :
  wf w → op_ok (OMod t e opts path) w →
  ∃ w', apply_op (OMod t e opts path) w = Ok w' ∧ op_shows (OMod t e opts path) w w'.
Proof.
  intros H [Hf He]. cbn. destruct (Z.eqb_spec (function (timers w t)) 0); [done|].
  destruct (mod_locked_outcome w t e opts path H He) as (w' & ret & -> & Ho). cbn [mbind outcome_bind].
  exists w'. split; [done|]. split; [by eapply mod_outcome_wf|]. destruct Ho as [ |ret|_ Hi|w' Hw R].
  - split; [apply framed_refl|]. exists ENone. split; [done|]. by apply unseen_serves.
  - split; [by apply forward_framed|]. exists ENone. split; [done|]. by apply forward_unseen.
  - split; [by destruct (forward_framed w H)|]. exists ENone. split; [done|].
    apply forward_unseen; [done..|]. apply set_expires_due.
  - split; [by eapply rearmed_framed|]. destruct (rearmed_serves _ _ _ _ _ R) as [d Hd].
    exists (EArm t d). split; [by intros ? ? [= <-]|done].
Qed.

Lemma detach_shows w t :
  wf w → ∃ w' ret, detach_if_pending w t true = Ok (w', ret) ∧ wf w' ∧ framed w w' ∧
    serves (view w) (EStop t) (view w').
Proof.
  intros H. destruct (linked (timers w t)) eqn:Hl.
  - destruct (detach_if_pending_ok w t true H Hl) as (w' & E & Hw & D). eexists _, _. split; [done|]. split; [done|].
    pose proof (inflight_unlink t w w' (de_heads _ _ _ _ D)) as Hf. split.
    { split; [by rewrite (de_clk _ _ _ _ D)|apply D|]. rewrite (de_heads _ _ _ _ D). apply fmap_None. }
    apply serves_stop; cbn.
    + apply D.
    + apply due_unlinked. by rewrite (de_timers _ _ _ _ D), fn_lookup_insert.
    + rewrite Hf, elem_unlink. by intros [].
    + intros a Ha. split; cbn; [by eapply detached_due|]. rewrite Hf, elem_unlink. tauto.
  - unfold detach_if_pending, timer_pending. rewrite Hl. eexists _, _. split; [done|]. split; [done|].
    split; [apply framed_refl|]. apply serves_stop; [done|by apply due_unlinked| |done].
    cbn. intros Ht. apply (wf_fly _ _ H) in Ht as [Ht _]. congruence.
Qed.

Lemma init_shows w t func fl e :
  wf w → op_ok (OInit t func fl e) w →
  let w' := set_timer t (λ tm, set_expires e (do_init_timer func fl tm)) w in
  op_shows (OInit t func fl e) w w'.
Proof.
  intros H [Hl He] w'.
  assert (∀ a, a ≠ t → timers w' a = timers w a) as Ha by (intros a Ha; cbn; by rewrite fn_lookup_insert_ne).
  assert (linked (timers w' t) = false) as Hl' by (cbn; by rewrite fn_lookup_insert).
  assert (∀ a, linked (timers w a) = true ∨ linked (timers w' a) = true → timers w' a = timers w a) as Hsame.
  { intros a Hor. apply Ha. intros ->. destruct Hor; congruence. }
  split; [|split; [by split|]].
  - split; try apply H.
    + intros i a Hin. destruct (wf_vec _ _ H i a Hin) as [El Ei]. rewrite Hsame by (by left). done.
    + intros a Hin. destruct (wf_fly _ _ H a Hin) as [El Ei]. rewrite Hsame by (by left). done.
    + intros a El. rewrite Hsame in El |- * by (by right). by apply (wf_linked _ _ H).
  - exists ENone. split; [done|]. apply unseen_serves; [done| |done]. intros a.
    destruct (decide (a = t)) as [->|Hne]; [by rewrite !due_unlinked|]. unfold due. by rewrite Ha.
Qed.

Lemma add_on_shows w t :
  wf w → op_ok (OAddOn t) w → ∃ w', add_timer_on w t = Ok w' ∧ op_shows (OAddOn t) w w' ∧
    rearmed t (expires (timers w t)) (forwarded w) w w'.
Proof.
  intros H (Hl & Hf & He). unfold add_timer_on, timer_pending. rewrite Hl.
  destruct (Z.eqb_spec (function (timers w t)) 0); [done|]. cbn [orb]. fold (forward w).
  destruct (enqueue_rearmed (forward w) t (expires (timers w t))) as (w' & E & Hw & R);
    [by apply unlinked_wf; [apply forward_wf|]|done|done|].
  exists w'. split; [exact E|]. rewrite forward_clk in R by done. apply forward_rearmed in R; [|done].
  split; [|done]. split; [done|]. split; [by eapply rearmed_framed|].
  destruct (rearmed_serves _ _ _ _ _ R) as [d Hd]. by exists (EArm t d).
Qed.

Lemma tick_shows w :
  wf w → op_ok OTick w → op_shows OTick w (set_jiffies (jiffies w + 1) w).
Proof.
  intros H Hj. cbn in Hj. split; [|split; [by split|]].
  - split; try apply H. + cbn. pose proof (wf_now _ _ H). lia. + cbn. pose proof (wf_range _ _ H). lia.
  - exists ETick. split; [done|]. by apply serves_tick.
Qed.

(** Every operation returns, keeps the invariant, and shows what it should. *)
Lemma op_effect o w :
  wf w → op_ok o w → ∃ w', apply_op o w = Ok w' ∧ op_shows o w w'.
Proof.
  intros H Ho. destruct o as [ |t func fl e|t e opts path|t|t|t|hr basej basem| ]; cbn.
  - eexists. split; [done|]. by apply tick_shows.
  - eexists. split; [done|]. by apply init_shows.
  - by apply mod_shows.
  - destruct (add_on_shows w t H Ho) as (w' & E & Hs & _). by exists w'.
  - destruct (detach_shows w t H) as (w' & ret & -> & Hw & Hfr & Hs). exists w'. split; [done|].
    split; [done|]. split; [done|]. by exists (EStop t).
  - unfold try_to_del_timer_sync. destruct (running_timer (base w) =? t); cbn [negb].
    + exists w. split; [done|]. split; [done|]. split; [apply framed_refl|]. exists ENone. split; [done|]. by apply unseen_serves.
    + destruct (detach_shows w t H) as (w' & ret & -> & Hw & Hfr & Hs). exists w'. split; [done|].
      split; [done|]. split; [done|]. exists (EStop t). split; [by intros ? [= <-]|done].
  - destruct (get_next_ok hr w basej basem H Ho) as (w' & r & -> & Hw & Hj & Ht & Hh & _ & Hr & Hd & Hc).
    exists w'. split; [done|]. split; [done|]. split; [split; [done|done|by rewrite Hh]|].
    exists ENone. split; [done|]. by apply unseen_serves.
  - eexists. split; [done|]. split; [by apply set_idle_wf|]. split; [by split|]. exists ENone. split; [done|].
    by apply unseen_serves.
Qed.

(** ** The softirq *)

Lemma run_due_spec w : wf w → run_due w = (next_expiry (base w) <=? jiffies w).
Proof.
  intros H. destruct (wf_times _ _ H) as (? & ? & ? & ?). unfold run_due. rewrite !time_after_eq_spec by lia.
  destruct (Z.leb_spec (clk (base w)) (jiffies w)), (Z.leb_spec (next_expiry (base w)) (jiffies w)); (done || lia).
Qed.

Lemma drained w hs : heads w = Some hs → first_expired hs = None → inflight w = [].
Proof. intros E Hf. unfold inflight. rewrite E. by apply first_expired_none. Qed.

Lemma due_after w t d : wf w → due w t = Some d → next_expiry (base w) ≤ d.
Proof.
  intros H Hd. destruct (due_in w t d H Hd) as [Hin ->]. apply (bo_next _ (wf_base _ _ H)). by eapply elem_nonempty.
Qed.

Lemma set_heads_unseen w h :
  wf w → concat (default [] h) = [] → inflight w = [] → wf (set_heads h w) ∧ ∀ a, alike (view w) (view (set_heads h w)) a.
Proof.
  intros H Eh Ef. assert (inflight (set_heads h w) = inflight w) as E by (unfold inflight at 1; cbn; by rewrite Eh, Ef).
  split.
  - split; rewrite ?E; apply H.
  - intros a. unfold alike, view; cbn [deadline expiring]. unfold due. by rewrite E.
Qed.

Lemma collect_serves w :
  wf w → inflight w = [] → next_expiry (base w) ≤ jiffies w →
  ∃ w', run_collect w = Ok w' ∧ wf w' ∧ collected w w' ∧ serves (view w) (ECollect (next_expiry (base w))) (view w').
Proof.
  intros H Hf Hj. destruct (run_collect_ok w H Hf Hj) as (w' & E & Hw & C). exists w'. split; [done|]. split; [done|].
  split; [done|]. apply serves_collect; cbn; [apply C|done| |by intros; eapply due_after|apply C|apply C].
  intros a. rewrite Hf. apply not_elem_of_nil.
Qed.

Lemma expire_serves w t :
  wf w → t ∈ inflight w → wf (expire_timer w t) ∧ inflight (expire_timer w t) = unlink t (inflight w) ∧
    (∀ a, a ≠ t → timers (expire_timer w t) a = timers w a) ∧
    serves (view w) (EFire t) (view (expire_timer w t)).
Proof.
  intros H Ht. set (w1 := set_base (set_running t (base w)) w).
  assert (wf w1) as H1 by (by apply set_running_wf).
  pose proof (detach_timer_detached w1 t true : detached t true w1 (expire_timer w t)) as D.
  pose proof (inflight_unlink t w1 (expire_timer w t) (de_heads _ _ _ _ D)) as Hf. change (inflight w1) with (inflight w) in Hf.
  assert (∀ i, unlink t (vectors (base w1) i) = vectors (base w1) i) as Hid.
  { intros i. apply unlink_id. by apply (wf_fly _ _ H t Ht). }
  split; [|split; [done|split]].
  - apply (detached_wf w1 _ t true H1 D). destruct (bo_map _ (wf_base _ _ H)) as (? & ? & Hb).
    split; [done|]. split; [done|]. intros i Hi. rewrite Hid. by apply Hb.
  - intros a Ha. by rewrite (de_timers _ _ _ _ D), fn_lookup_insert_ne.
  - apply serves_fire; cbn [view now deadline expiring].
    + done.
    + done.
    + apply due_unlinked. by rewrite (de_timers _ _ _ _ D), fn_lookup_insert.
    + rewrite Hf, elem_unlink. by intros [].
    + intros a Ha. split; cbn [view deadline expiring]; [exact (detached_due w1 _ t true a D Ha)|]. rewrite Hf, elem_unlink. tauto.
Qed.

Lemma step_effect w l w' :
  wf w → step w l w' → wf w' ∧ ∃ e, shows l e ∧ serves (view w) e (view w').
Proof.
  intros H Hs. destruct Hs as [o w' Ho E|Eh Hj|hs w' Eh Ef Er Hd E|hs t Eh Ef Er|Er|hs Eh Ef Er Hd].
  - destruct (op_effect o w H Ho) as (w2 & E2 & Hw & _ & He). rewrite E2 in E. by simplify_eq.
  - destruct (set_heads_unseen w (Some []) H) as [Hw Ha]; [done|unfold inflight; by rewrite Eh|].
    split; [done|]. exists ENone. split; [done|]. by apply serves_none.
  - rewrite run_due_spec in Hd by done. apply Z.leb_le in Hd.
    destruct (collect_serves w H (drained w hs Eh Ef) Hd) as (w2 & E2 & Hw & _ & Hse). rewrite E2 in E. simplify_eq.
    split; [done|]. by eexists (ECollect _).
  - assert (t ∈ inflight w) as Ht by (unfold inflight; rewrite Eh; by apply first_expired_some).
    destruct (expire_serves w t H Ht) as (Hw & _ & _ & Hse). split; [done|]. by exists (EFire t).
  - split; [by apply set_running_wf|]. exists ENone. split; [done|]. by apply unseen_serves.
  - rewrite run_due_spec in Hd by done. apply Z.leb_gt in Hd. pose proof (drained w hs Eh Ef) as Hf.
    destruct (set_heads_unseen w None H) as [Hw Ha]; [done|done|]. split; [done|]. exists EDone. split; [done|].
    apply serves_done; [done| | |done]; cbn.
    + intros a. rewrite Hf. apply not_elem_of_nil.
    + intros a d Hdue. pose proof (due_after w a d H Hdue). lia.
Qed.

Lemma steps_wf w0 ls w : wf w0 → steps w0 ls w → wf w.
Proof. intros H Hs. induction Hs as [|ls w' l w'' _ IH Hst]; [done|]. by apply (step_effect w' l). Qed.

(** ** Timers do not fire early *)

(** The expiry of a timer in a bucket is before the time of the bucket, that
    of a timer being expired is before the tick that collected it. *)
Definition timely (w : wheel) : Prop :=
  (∀ t d, due w t = Some d → expires (timers w t) < d) ∧
  (∀ t, t ∈ inflight w → expires (timers w t) < clk (base w) - 1).

(** A step that does not ask for more than the wheel can hold, nor hits the
    shortcut of [__mod_timer] with a timer that is in no bucket. *)
Definition orderly (w : wheel) (l : label) : Prop :=
  match l with
  | LOp (OMod t e _ path) =>
      e < forwarded w + WHEEL_TIMEOUT_CUTOFF ∧
      (path = ModPending → (calc_wheel_index e (forwarded w)).1 = timer_get_idx (timers w t) → due w t ≠ None)
  | LOp (OAddOn t) => expires (timers w t) < forwarded w + WHEEL_TIMEOUT_CUTOFF
  | _ => True
  end.

Lemma slot_early e c idx be : wheel_slot e c idx be → e < c + WHEEL_TIMEOUT_CUTOFF → e < be.
Proof. intros (_ & _ & H1 & H2 & _) He. destruct (decide (e < c)); [rewrite H1; lia|]. apply H2. lia. Qed.

Lemma rearmed_timely w w' t e :
  timely w → wf w → e < forwarded w + WHEEL_TIMEOUT_CUTOFF → rearmed t e (forwarded w) w w' → timely w'.
Proof.
  intros [Hd Hf] H He R. destruct (re_due _ _ _ _ _ R) as (idx & be & Hs & Hdt).
  pose proof (forwarded_range None w H) as [[Hc _] _]. split.
  - intros a d Ha. destruct (decide (a = t)) as [->|Hne].
    + rewrite Hdt in Ha. simplify_eq. rewrite (proj1 (re_expires _ _ _ _ _ R)). by eapply slot_early.
    + destruct (re_others _ _ _ _ _ R a Hne) as (-> & Hd' & _). rewrite Hd' in Ha. by apply Hd.
  - intros a Ha. destruct (decide (a = t)) as [->|Hne]; [by apply due_not_flying in Hdt|].
    destruct (re_others _ _ _ _ _ R a Hne) as (-> & _ & Hf'). apply Hf', Hf in Ha. rewrite (re_clk _ _ _ _ _ R). lia.
Qed.

(** Nothing about the timers changed but some left. *)
Lemma timely_sub w w' :
  timely w → clk (base w) ≤ clk (base w') →
  (∀ a d, due w' a = Some d → due w a = Some d ∧ expires (timers w' a) = expires (timers w a)) →
  (∀ a, a ∈ inflight w' → a ∈ inflight w ∧ expires (timers w' a) = expires (timers w a)) → timely w'.
Proof.
  intros [Hd Hf] Hc Hd' Hf'. split.
  - intros a d Ha. apply Hd' in Ha as [Ha ->]. by apply Hd.
  - intros a Ha. apply Hf' in Ha as [Ha ->]. apply Hf in Ha. lia.
Qed.

Lemma mod_timely w w' path t e ret :
  timely w → wf w → 0 ≤ e < 2 ^ 63 → e < forwarded w + WHEEL_TIMEOUT_CUTOFF →
  (path = ModPending → (calc_wheel_index e (forwarded w)).1 = timer_get_idx (timers w t) → due w t ≠ None) →
  mod_outcome path t e w w' ret → timely w'.
Proof.
  intros Ht H He Hcut Hin Ho. pose proof (forwarded_range None w H) as [[Hc _] _].
  assert (timely (forward w)) as Hfw.
  { apply (timely_sub w); [done|by rewrite forward_clk| |by intros].
    intros a d Ha. unfold forward in Ha. by rewrite forward_due in Ha. }
  destruct Ho as [ |ret|Hp Hi|w' Hw R]; [done|done| |exact (rearmed_timely w w' t e Ht H Hcut R)].
  specialize (Hin Hp Hi) as Hdue.
  destruct (wf_times _ _ H) as (? & ? & ? & ?). pose proof (forwarded_range None w H).
  destruct (calc_wheel_index_ok e (forwarded w)) as (idx & be & Ec & Hs); [lia|done|]. rewrite Ec in Hi. cbn in Hi.
  eapply rearmed_timely; [exact Ht|done|exact Hcut|]. apply forward_rearmed; [done|]. rewrite <- (forward_clk w) by done.
  apply (same_bucket_rearmed (forward w) t e idx be); rewrite ?forward_clk by done; [by apply forward_wf|done|done|done|].
  unfold forward. by rewrite forward_due.
Qed.

(** An event that starts no timer keeps the deadlines there are. *)
Lemma serves_deadline s e s' a d :
  serves s e s' → (∀ d, e ≠ EArm a d) → deadline s' a = Some d → deadline s a = Some d.
Proof.
  intros Hs Ha Hd.
  destruct Hs as [s' _ Hs|s' _ Hs|t d' s' _ _ _ Hs|t s' _ Hn _ Hs|c s' _ _ _ _ _ Hs|t s' _ _ Hn _ Hs|s' _ _ _ Hs].
  - by rewrite <- (proj1 (Hs a)).
  - by rewrite <- (proj1 (Hs a)).
  - destruct (decide (a = t)) as [->|Hne]; [by destruct (Ha d')|]. by rewrite <- (proj1 (Hs a Hne)).
  - destruct (decide (a = t)) as [->|Hne]; [congruence|]. by rewrite <- (proj1 (Hs a Hne)).
  - rewrite Hs in Hd. by case_decide.
  - destruct (decide (a = t)) as [->|Hne]; [congruence|]. by rewrite <- (proj1 (Hs a Hne)).
  - by rewrite <- (proj1 (Hs a)).
Qed.

(** An event other than the collection of a bucket adds no expiring timer. *)
Lemma serves_expiring s e s' a :
  serves s e s' → (∀ c, e ≠ ECollect c) → expiring s' a → expiring s a.
Proof.
  intros Hs Hc He.
  destruct Hs as [s' _ Hs|s' _ Hs|t d' s' _ _ Hn Hs|t s' _ _ Hn Hs|c s' _ _ _ _ _ _|t s' _ Hn _ _ Hs|s' _ _ _ Hs].
  - by apply (Hs a).
  - by apply (Hs a).
  - destruct (decide (a = t)) as [->|Hne]; [done|]. by apply (Hs a Hne).
  - destruct (decide (a = t)) as [->|Hne]; [done|]. by apply (Hs a Hne).
  - by destruct (Hc c).
  - destruct (decide (a = t)) as [->|Hne]; [done|]. by apply (Hs a Hne).
  - by apply (Hs a).
Qed.

Lemma serves_sub w w' e :
  serves (view w) e (view w') → (∀ t d, e ≠ EArm t d) → (∀ c, e ≠ ECollect c) →
  (∀ a d, due w' a = Some d → due w a = Some d) ∧ (∀ a, a ∈ inflight w' → a ∈ inflight w).
Proof.
  intros Hs Ha Hc. split.
  - intros a d. by apply (serves_deadline _ _ _ a d Hs).
  - intros a. by apply (serves_expiring _ _ _ a Hs).
Qed.

(** The other operations change no expiry of a linked timer. *)
Lemma op_expires o w w' a :
  wf w → op_ok o w → apply_op o w = Ok w' → (∀ t e opts path, o ≠ OMod t e opts path) → (∀ t, o ≠ OAddOn t) →
  linked (timers w' a) = true → expires (timers w' a) = expires (timers w a).
Proof.
  intros H Ho E Hm Ha Hl.
  assert (∀ t w2 ret, detach_if_pending w t true = Ok (w2, ret) → expires (timers w2 a) = expires (timers w a)) as Hde.
  { intros t w2 ret. unfold detach_if_pending. destruct (negb _); [by intros [= <- _]|].
    destruct (if bool_decide _ then _ else _) as [b| |]; [|done|done]. cbn [mbind outcome_bind]. intros [= <- _]. cbn.
    destruct (decide (a = t)) as [->|]; [by rewrite fn_lookup_insert|by rewrite fn_lookup_insert_ne]. }
  destruct o as [ |t func fl e|t e opts path|t|t|t|hr basej basem| ]; cbn in E.
  - by simplify_eq.
  - simplify_eq. cbn in *. destruct (decide (a = t)) as [->|]; [by rewrite fn_lookup_insert in Hl|by rewrite fn_lookup_insert_ne].
  - by destruct (Hm t e opts path).
  - by destruct (Ha t).
  - destruct (detach_if_pending w t true) as [[w2 ret]| |] eqn:Ed; simplify_eq/=. by eapply Hde.
  - unfold try_to_del_timer_sync in E. destruct (negb _); [|by simplify_eq/=].
    destruct (detach_if_pending w t true) as [[w2 ret]| |] eqn:Ed; simplify_eq/=. by eapply Hde.
  - destruct (get_next_ok hr w basej basem H Ho) as (w2 & r & E2 & _ & _ & Ht & _). rewrite E2 in E. simplify_eq/=. by rewrite Ht.
  - by simplify_eq.
Qed.

Lemma due_linked w t d : due w t = Some d → linked (timers w t) = true.
Proof. unfold due. by destruct (linked _). Qed.

Lemma op_timely o w w' :
  timely w → wf w → op_ok o w → apply_op o w = Ok w' → orderly w (LOp o) → timely w'.
Proof.
  intros Ht H Ho E Hor. destruct (op_effect o w H Ho) as (w2 & E2 & Hw & Hfr & ev & Hsh & Hse).
  pose proof E as E'. rewrite E2 in E. simplify_eq.
  assert ((∀ t e opts path, o ≠ OMod t e opts path) → (∀ t, o ≠ OAddOn t) → timely w') as Hother.
  { intros Hm Ha. destruct (serves_sub w w' ev Hse) as [Hd Hf].
    - intros t d ->. destruct o; try done; [by eapply Hm|by eapply Ha].
    - intros c ->. by destruct o.
    - apply (timely_sub w); [done|apply Hfr| |].
      + intros a d Had. split; [by apply Hd|]. apply (op_expires o); try done. by eapply due_linked.
      + intros a Haf. split; [by apply Hf|]. apply (op_expires o); try done. by apply (wf_fly _ _ Hw). }
  destruct o as [ |t func fl e|t e opts path|t|t|t|hr basej basem| ]; try (by apply Hother).
  - clear Hother. destruct Ho as [Hfn He], Hor as [Hcut Hin]. cbn in E2.
    destruct (Z.eqb_spec (function (timers w t)) 0); [done|].
    destruct (mod_locked_outcome w t e opts path H He) as (w2 & ret & E3 & Hout). rewrite E3 in E2. simplify_eq/=.
    by apply (mod_timely w w' path t e ret).
  - destruct (add_on_shows w t H Ho) as (w2 & E3 & _ & R). cbn in E2. rewrite E3 in E2. simplify_eq.
    by apply (rearmed_timely w w' t (expires (timers w t))).
Qed.

Lemma alike_timely w w' :
  timely w → clk (base w) ≤ clk (base w') → timers w' = timers w → (∀ a, alike (view w) (view w') a) → timely w'.
Proof.
  intros Ht Hc Et Ha. apply (timely_sub w); [done|done| |]; intros a; rewrite Et.
  - intros d Hd. split; [|done]. rewrite <- Hd. symmetry. apply (Ha a).
  - intros Hf. split; [|done]. by apply (Ha a).
Qed.

Lemma step_timely w l w' : timely w → wf w → step w l w' → orderly w l → timely w'.
Proof.
  intros Ht H Hs Hor. destruct Hs as [o w' Ho E|Eh Hj|hs w' Eh Ef Er Hd E|hs t Eh Ef Er|Er|hs Eh Ef Er Hd].
  - by eapply op_timely.
  - destruct (set_heads_unseen w (Some []) H) as [_ Ha]; [done|unfold inflight; by rewrite Eh|].
    by apply (alike_timely w).
  - rewrite run_due_spec in Hd by done. apply Z.leb_le in Hd.
    destruct (collect_serves w H (drained w hs Eh Ef) Hd) as (w2 & E2 & Hw & C & _). rewrite E2 in E. simplify_eq.
    destruct Ht as [Htd _]. split.
    + intros t d. rewrite (co_due _ _ C), (co_timers _ _ C). case_decide; [done|]. apply Htd.
    + intros t Hf%(co_fly _ _ C). rewrite (co_timers _ _ C), (co_clk _ _ C). apply Htd in Hf. lia.
  - assert (t ∈ inflight w) as Hin by (unfold inflight; rewrite Eh; by apply first_expired_some).
    destruct (expire_serves w t H Hin) as (Hw & Hf & Htm & Hse).
    destruct (serves_sub _ _ _ Hse) as [Hds Hfs]; [done|done|].
    apply (timely_sub w); [done|done| |].
    + intros a d Had. split; [by apply Hds|]. rewrite Htm; [done|]. intros ->. apply Hds in Had.
      by apply due_not_flying in Had.
    + intros a Haf. split; [by apply Hfs|]. rewrite Htm; [done|]. intros ->. rewrite Hf, elem_unlink in Haf. by destruct Haf.
  - by apply (timely_sub w).
  - destruct (set_heads_unseen w None H) as [_ Ha]; [done|by eapply drained|].
    by apply (alike_timely w).
Qed.

(** Runs all of whose steps are orderly. *)
Inductive orderly_steps (w : wheel) : list label → wheel → Prop :=
  | orderly_nil : orderly_steps w [] w
  | orderly_snoc ls w' l w'' : orderly_steps w ls w' → orderly w' l → step w' l w'' → orderly_steps w (ls ++ [l]) w''.

Lemma orderly_steps_timely w0 ls w : booted w0 → orderly_steps w0 ls w → wf w ∧ timely w.
Proof.
  intros H Hs. induction Hs as [|ls w' l w'' _ [IHw IHt] Hor Hst].
  - pose proof (booted_wf _ H) as Hw. destruct H as (_ & _ & Hh & Hl). split; [done|]. split.
    + intros t d Hd. by rewrite due_unlinked in Hd.
    + intros t. unfold inflight. rewrite Hh. by intros ?%elem_of_nil.
  - split; [by apply (step_effect w' l)|by eapply step_timely].
Qed.

Lemma expire_not_early w t w' :
  wf w → timely w → step w (LExpire t) w' → expires (timers w t) < jiffies w.
Proof.
  intros H [_ Hf] Hs. inversion Hs as [| | |hs ? Eh Ef| |]; subst.
  assert (t ∈ inflight w) as Hin by (unfold inflight; rewrite Eh; by apply first_expired_some).
  apply Hf in Hin. pose proof (wf_now _ _ H). lia.
Qed.

End TimerWheelTrace.
