(* ===== verification/TimerWheelRun.v ===== *)
(** * The softirq of the timer wheel

    [__run_timers] as a whole (time/src/timer.c), with the functions of the
    timers as finite sequences of operations on the wheel, ticks included: it
    returns, it calls every timer that is due and no other, and it leaves nothing
    due behind. The file closes with executable runs of the machine. *)

From stdpp Require Import base numbers list option functions.
From Stdlib Require Import ZArith Lia.
From S2P Require Import Prelude Bitops Bitmap BitmapSpec TimerWheel TimerWheelIndex TimerWheelSpec TimerWheelOps.
From S2P Require Import TimerWheelNext TimerWheelTrace.

Open Scope Z_scope.

Module TimerWheelRun.
Import Bitmap TimerWheel TimerWheelIndex TimerWheelSpec TimerWheelOps TimerWheelNext TimerWheelTrace.

(** ** Timer functions *)

Fixpoint run_ops (os : list op) (w : wheel) : outcome wheel :=
  match os with [] => Ok w | o :: os => w ← apply_op o w; run_ops os w end.

(** The operations are called as they should be, and no tick goes beyond the
    jiffy [horizon]. *)
Fixpoint ops_ok (horizon : Z) (os : list op) (w : wheel) : Prop :=
  match os with
  | [] => True
  | o :: os => (o = OTick → jiffies w < horizon) ∧ op_ok o w ∧ ∀ w', apply_op o w = Ok w' → ops_ok horizon os w'
  end.

Definition touches (a : Z) (o : op) : Prop :=
  match o with OInit t _ _ _ | OMod t _ _ _ | OAddOn t | ODel t | OTryDel t => t = a | _ => False end.

Lemma op_alike o w w' e a :
  shows (LOp o) e → serves (view w) e (view w') → ¬ touches a o → alike (view w) (view w') a.
Proof.
  intros Hsh Hse Ht.
  destruct Hse as [s' _ Hs|s' _ Hs|t d' s' _ _ Hn Hs|t s' _ _ Hn Hs|c s' _ _ _ _ _ _|t s' _ Hn _ _ Hs|s' _ _ _ Hs];
    try apply Hs; try (by destruct o); intros ->; destruct o; cbn in Hsh, Ht; try done.
  all: first [specialize (Hsh _ _ eq_refl)|specialize (Hsh _ eq_refl)]; congruence.
Qed.

Lemma serves_now s e s' : serves s e s' → now s' = match e with ETick => now s + 1 | _ => now s end.
Proof. by destruct 1. Qed.

Lemma op_now o w w' e :
  shows (LOp o) e → serves (view w) e (view w') → jiffies w' = match o with OTick => jiffies w + 1 | _ => jiffies w end.
Proof. intros Hsh Hse%serves_now. cbn in Hse. by destruct o, e. Qed.

(** What a timer function may have done. *)
Record called_back (horizon : Z) (os : list op) (w w' : wheel) : Prop := {
  cb_wf : wf w';
  cb_frame : framed w w';
  cb_now : jiffies w ≤ jiffies w' ≤ horizon;
  cb_fly : ∀ a, a ∈ inflight w' → a ∈ inflight w;
  cb_alike : ∀ a, Forall (λ o, ¬ touches a o) os → alike (view w) (view w') a
}.

Lemma alike_trans s1 s2 s3 a : alike s1 s2 a → alike s2 s3 a → alike s1 s3 a.
Proof. intros [H1 H2] [H3 H4]. split; [congruence|tauto]. Qed.

Lemma run_ops_ok horizon os w :
  wf w → jiffies w ≤ horizon → ops_ok horizon os w → ∃ w', run_ops os w = Ok w' ∧ called_back horizon os w w'.
Proof.
  revert w. induction os as [|o os IH]; intros w H Hj Hos; cbn [run_ops].
  { exists w. split; [done|]. split; [done|apply framed_refl|done|done|done]. }
  destruct Hos as (Hnt & Ho & Hos). destruct (op_effect o w H Ho) as (w1 & E1 & Hw1 & [F1 F2 F3] & e & Hsh & Hse).
  rewrite E1. cbn [mbind outcome_bind].
  assert (jiffies w ≤ jiffies w1 ≤ horizon) as Hj1.
  { rewrite (op_now o w w1 e Hsh Hse). destruct o; try lia. specialize (Hnt eq_refl). lia. }
  destruct (IH w1 Hw1 ltac:(lia) (Hos w1 E1)) as (w2 & E2 & [C1 [G1 G2 G3] C3 C4 C5]).
  exists w2. split; [done|]. split.
  - done.
  - split; [lia|congruence|by rewrite G3].
  - lia.
  - intros a Ha%C4. apply (serves_expiring _ _ _ a Hse); [|done]. intros c ->. by destruct o.
  - intros a Hf. apply list.Forall_cons in Hf as [Hf1 Hf2]. eapply alike_trans; [by eapply op_alike|by apply C5].
Qed.

(** ** The loop *)

Section Run.
(** The functions of the timers: what each does, and what other contexts do
    meanwhile, to the wheel it is called on. Time does not pass the jiffy
    [horizon] before the softirq returns. *)
Context (prog : Z → wheel → list op) (horizon : Z).
Hypothesis prog_ok : ∀ t w, wf w → jiffies w ≤ horizon → ops_ok horizon (prog t w) w.

Definition call (t : Z) (w : wheel) : outcome wheel := run_ops (prog t w) w.

(** The softirq has to call [t] if it runs until the jiffy [j]. *)
Definition owed (j : Z) (w : wheel) (t : Z) : Prop :=
  t ∈ inflight w ∨ ∃ d, due w t = Some d ∧ d ≤ j.

Definition untouched (a : Z) : Prop := ∀ t w, Forall (λ o, ¬ touches a o) (prog t w).

(** What the loop does from [w] on, calling the timers [called]. *)
Record ran (w w' : wheel) (called : list Z) : Prop := {
  ran_wf : wf w';
  ran_heads : heads w' = None;
  ran_now : jiffies w ≤ jiffies w' ≤ horizon;
  ran_done : jiffies w' < next_expiry (base w');
  ran_owed : ∀ a, untouched a → owed (jiffies w') w a → filter (λ t, t = a) called = [a];
  ran_other : ∀ a, untouched a → ¬ owed (jiffies w') w a → filter (λ t, t = a) called = [] ∧ alike (view w) (view w') a
}.

Lemma alike_owed j w w' a : alike (view w) (view w') a → owed j w' a ↔ owed j w a.
Proof.
  intros [Hd Hf]. cbn [view deadline expiring] in Hd, Hf. unfold owed. by rewrite Hf, Hd.
Qed.

(** A timer called, up to the return of its function. *)
Lemma expire_round w t :
  wf w → jiffies w ≤ horizon → t ∈ inflight w →
  ∃ w', call t (expire_timer w t) = Ok w' ∧ wf (expire_return w') ∧
    clk (base w) ≤ clk (base (expire_return w')) ∧ (heads w' = None ↔ heads w = None) ∧
    jiffies w ≤ jiffies w' ≤ horizon ∧ (length (inflight w') < length (inflight w))%nat ∧
    (untouched t → ∀ j, ¬ owed j (expire_return w') t) ∧
    (∀ a, untouched a → a ≠ t → alike (view w) (view (expire_return w')) a).
Proof using prog_ok.
  intros H Hj Ht. destruct (expire_serves w t H Ht) as (Hw1 & Hf1 & _ & Hse).
  set (w1 := expire_timer w t) in *.
  destruct (run_ops_ok horizon _ w1 Hw1 Hj (prog_ok t w1 Hw1 Hj)) as (w' & E & [C1 [G1 G2 G3] C3 C4 C5]).
  exists w'. split; [done|]. split; [by apply set_running_wf|]. split; [exact G1|].
  split; [rewrite G3; unfold w1, expire_timer, detach_timer; cbn; apply fmap_None|]. split; [done|].
  inversion Hse as [| | | | |? ? _ _ Hd Hnf Hal|]; subst. split_and!.
  - assert (inflight w' ⊆+ unlink t (inflight w)) as Hs%submseteq_length.
    { apply NoDup_submseteq; [apply C1|]. intros a Ha. rewrite <- Hf1. by apply C4. }
    apply (Nat.le_lt_trans _ _ _ Hs). unfold unlink. apply length_filter_lt with t; [done|]. intros Hn. by apply Hn.
  - intros Hu j. assert (alike (view w1) (view w') t) as Ha by (by apply C5).
    change (owed j (expire_return w') t) with (owed j w' t). rewrite (alike_owed j w1 w' t Ha).
    intros [?|(d & Hdd & _)]; [done|]. cbn [view deadline] in Hd. congruence.
  - intros a Hu Hne. change (view (expire_return w')) with (view w').
    eapply alike_trans; [by apply Hal|by apply C5].
Qed.

Lemma finish_ran w hs :
  wf w → jiffies w ≤ horizon → heads w = Some hs → first_expired hs = None → run_due w = false → ran w (set_heads None w) [].
Proof.
  intros H Hj Eh Ef Hd. rewrite run_due_spec in Hd by done. apply Z.leb_gt in Hd. pose proof (drained w hs Eh Ef) as Hf.
  destruct (set_heads_unseen w None H) as [Hw Ha]; [done|done|]. split; [done|done|done|done| |by intros].
  intros a _ [Hin|(d & Hdd & Hle)]; [rewrite Hf in Hin; by apply elem_of_nil in Hin|].
  pose proof (due_after w a d H Hdd). cbn in Hle. lia.
Qed.

(** Collecting changes nothing about what is owed. *)
Lemma collected_owed j w w' a :
  wf w → inflight w = [] → next_expiry (base w) ≤ j → collected w w' →
  (owed j w' a ↔ owed j w a) ∧ (¬ owed j w a → alike (view w) (view w') a).
Proof.
  intros H Hf Hj C. unfold owed. rewrite (co_fly _ _ C), (co_due _ _ C), Hf. split.
  - case_decide as Hd.
    + split; [intros _; right; eauto|by left].
    + split; [intros [?|?]; [done|by right]|intros [?%elem_of_nil|?]; [done|by right]].
  - intros Hn. assert (due w a ≠ Some (next_expiry (base w))) as Hne by (intros Hd; apply Hn; right; eauto).
    split; cbn [view deadline expiring].
    + by rewrite (co_due _ _ C), decide_False.
    + rewrite (co_fly _ _ C), Hf. split; [done|by intros ?%elem_of_nil].
Qed.

Lemma filter_snoc_called (a t : Z) l : filter (λ x, x = a) (t :: l) = (if decide (t = a) then [t] else []) ++ filter (λ x, x = a) l.
Proof. rewrite filter_cons. by case_decide. Qed.

(** One call added in front of the rest of the loop. *)
Lemma ran_expire w t w1 w' cs :
  t ∈ inflight w → jiffies w ≤ jiffies w1 →
  (untouched t → ∀ j, ¬ owed j w1 t) → (∀ a, untouched a → a ≠ t → alike (view w) (view w1) a) →
  ran w1 w' cs → ran w w' (t :: cs).
Proof.
  intros Hin Hj Ht Hal [R1 R2 R3 R4 R5 R6]. split; [done|done|lia|done| |].
  - intros a Hu Ho. rewrite filter_snoc_called. case_decide as Hd.
    + subst a. by rewrite (proj1 (R6 t Hu (Ht Hu (jiffies w')))).
    + apply R5; [done|]. apply (alike_owed _ w); [by apply Hal|done].
  - intros a Hu Ho. assert (t ≠ a) as Hne by (intros ->; apply Ho; by left).
    rewrite filter_snoc_called, decide_False by done. assert (alike (view w) (view w1) a) as Ha by (by apply Hal).
    destruct (R6 a Hu) as [Hx Hy]; [by rewrite (alike_owed _ w)|]. split; [done|by eapply alike_trans].
Qed.

Lemma run_loop_ok : ∀ (k n : nat) w called,
  wf w → jiffies w ≤ horizon → heads w ≠ None →
  (Z.to_nat (horizon + 1 - clk (base w)) ≤ k)%nat → (length (inflight w) ≤ n)%nat →
  ∃ N w' called', (∀ fuel, (N < fuel)%nat → run_loop fuel call w called = Ok (w', called ++ called')) ∧ ran w w' called'.
Proof using prog_ok.
  induction k as [k IHk] using lt_wf_ind. induction n as [n IHn] using lt_wf_ind.
  intros w called H Hj Hh Hk Hn. destruct (heads w) as [hs|] eqn:Eh; [|done].
  destruct (first_expired hs) as [t|] eqn:Ef.
  - assert (t ∈ inflight w) as Hin by (unfold inflight; rewrite Eh; by apply first_expired_some).
    destruct (expire_round w t H Hj Hin) as (w1 & E1 & Hw & Hc & Hhd & Hj1 & Hlen & Ht & Hal).
    destruct (IHn (length (inflight w1)) ltac:(lia) (expire_return w1) (called ++ [t])) as (N & w' & cs & Hrun & R);
      [done|cbn; lia|cbn; rewrite Hhd, Eh; done|cbn in *; lia|done|].
    exists (S N), w', (t :: cs). split; [|by apply (ran_expire w t (expire_return w1)); [|cbn; lia| | |]].
    intros [|fuel] Hfu; [lia|]. cbn [run_loop]. rewrite Eh. cbn [mbind option_bind]. rewrite Ef, E1.
    cbn [mbind outcome_bind]. rewrite Hrun by lia. by rewrite <- app_assoc.
  - destruct (run_due w) eqn:Hd.
    + pose proof (drained w hs Eh Ef) as Hf. pose proof Hd as Hd'. rewrite run_due_spec in Hd' by done. apply Z.leb_le in Hd'.
      destruct (run_collect_ok w H Hf Hd') as (w1 & E1 & Hw & C). destruct (wf_times _ _ H) as (? & ? & ? & ?).
      destruct (IHk (Z.to_nat (horizon + 1 - clk (base w1)))) with (n := length (inflight w1)) (w := w1) (called := called)
        as (N & w' & cs & Hrun & [R1 R2 R3 R4 R5 R6]).
      { rewrite (co_clk _ _ C). lia. } { done. }
      { by rewrite (co_now _ _ C). } { apply C. }
      { done. } { done. }
      exists (S N), w', cs. split.
      { intros [|fuel] Hfu; [lia|]. cbn [run_loop]. rewrite Eh. cbn [mbind option_bind]. rewrite Ef, Hd, E1.
        cbn [mbind outcome_bind]. apply Hrun. lia. }
      rewrite (co_now _ _ C) in R3. split; [done|done|done|done| |].
      * intros a Hu Ho. apply R5; [done|]. apply (collected_owed _ w); [done|done|lia|done|done].
      * intros a Hu Ho. destruct (collected_owed (jiffies w') w w1 a H Hf ltac:(lia) C) as [Hiff Ha].
        destruct (R6 a Hu) as [Hx Hy]; [by rewrite Hiff|]. split; [done|]. eapply alike_trans; [by apply Ha|done].
    + exists O, (set_heads None w), []. split; [|by eapply finish_ran].
      intros [|fuel] Hfu; [lia|]. cbn [run_loop]. rewrite Eh. cbn [mbind option_bind]. rewrite Ef, Hd. by rewrite app_nil_r.
Qed.

Lemma run_timers_ok w :
  wf w → jiffies w ≤ horizon → heads w = None →
  ∃ N w' called, (∀ fuel, (N < fuel)%nat → __run_timers fuel call w = Ok (w', called)) ∧ ran w w' called.
Proof using prog_ok.
  intros H Hj Hh. destruct (wf_times _ _ H) as (? & ? & ? & ?). unfold __run_timers. rewrite time_before_spec by lia.
  assert (inflight w = []) as Hf by (unfold inflight; by rewrite Hh).
  destruct (Z.ltb_spec (jiffies w) (next_expiry (base w))) as [Hlt|Hge].
  - exists O, w, []. split; [done|]. split; [done|done|lia|done| |done].
    intros a _ [Hin|(d & Hd & Hle)]; [rewrite Hf in Hin; by apply elem_of_nil in Hin|].
    pose proof (due_after w a d H Hd). lia.
  - destruct (set_heads_unseen w (Some []) H) as [Hw Ha]; [done|done|].
    destruct (run_loop_ok (Z.to_nat (horizon + 1 - clk (base w))) 0 (set_heads (Some []) w) [] Hw) as (N & w' & cs & Hrun & [R1 R2 R3 R4 R5 R6]); [done..|].
    exists N, w', cs. split; [exact Hrun|]. split; [done|done|done|done| |].
    + intros a Hu Ho. apply R5; [done|]. by apply (alike_owed _ w).
    + intros a Hu Ho. destruct (R6 a Hu) as [Hx Hy]; [by rewrite (alike_owed _ w)|]. split; [done|]. by eapply alike_trans.
Qed.

End Run.

(** ** Executing steps *)

Definition op_okb (o : op) (w : wheel) : bool :=
  match o with
  | OTick => jiffies w + 1 <? 2 ^ 61
  | OInit t _ _ e => negb (linked (timers w t)) && (0 <=? e) && (e <? 2 ^ 63)
  | OMod t e _ _ => negb (function (timers w t) =? 0) && (0 <=? e) && (e <? 2 ^ 63)
  | OAddOn t => negb (linked (timers w t)) && negb (function (timers w t) =? 0)
                && (0 <=? expires (timers w t)) && (expires (timers w t) <? 2 ^ 63)
  | OIdle _ basej _ => (0 <=? basej) && (basej <=? jiffies w)
  | _ => true
  end.

Definition softirq_ready (w : wheel) (f : option Z) : bool :=
  match heads w with
  | Some hs => bool_decide (first_expired hs = f) && (running_timer (base w) =? 0)
  | None => false
  end.

Definition do_step (l : label) (w : wheel) : outcome wheel :=
  match l with
  | LOp o => if op_okb o w then apply_op o w else Panic
  | LStart => if bool_decide (heads w = None) && negb (time_before (jiffies w) (next_expiry (base w)))
              then Ok (set_heads (Some []) w) else Panic
  | LCollect => if softirq_ready w None && run_due w then run_collect w else Panic
  | LExpire t => if softirq_ready w (Some t) then Ok (expire_timer w t) else Panic
  | LReturn => if negb (running_timer (base w) =? 0) then Ok (expire_return w) else Panic
  | LFinish => if softirq_ready w None && negb (run_due w) then Ok (set_heads None w) else Panic
  end.

(** The condition [orderly], sufficient and computable. *)
Definition orderlyb (w : wheel) (l : label) : bool :=
  match l with
  | LOp (OMod t e _ path) =>
      (e <? forwarded w + WHEEL_TIMEOUT_CUTOFF) &&
      (match path with ModPending => false | _ => true end || bool_decide (due w t ≠ None))
  | LOp (OAddOn t) => expires (timers w t) <? forwarded w + WHEEL_TIMEOUT_CUTOFF
  | _ => true
  end.

Fixpoint exec (ls : list label) (w : wheel) : outcome wheel :=
  match ls with [] => Ok w | l :: ls => w ← do_step l w; exec ls w end.

Fixpoint exec_orderly (ls : list label) (w : wheel) : bool :=
  match ls with
  | [] => true
  | l :: ls => orderlyb w l && match do_step l w with Ok w => exec_orderly ls w | _ => false end
  end.

Lemma op_okb_ok o w : op_okb o w = true → op_ok o w.
Proof.
  destruct o; cbn; rewrite ?andb_true_iff, ?negb_true_iff, ?Z.leb_le, ?Z.ltb_lt, ?Z.eqb_neq; intuition.
Qed.

Lemma softirq_ready_inv w f :
  softirq_ready w f = true → ∃ hs, heads w = Some hs ∧ first_expired hs = f ∧ running_timer (base w) = 0.
Proof.
  unfold softirq_ready. destruct (heads w) as [hs|]; [|done].
  intros [Hf%bool_decide_eq_true Hr%Z.eqb_eq]%andb_true_iff. eauto.
Qed.

Lemma do_step_step l w w' : do_step l w = Ok w' → step w l w'.
Proof.
  destruct l as [o| | |t| |]; cbn.
  - destruct (op_okb o w) eqn:E; [|done]. intros Ha. apply step_op; [by apply op_okb_ok|done].
  - destruct (_ && _) eqn:E; [|done]. apply andb_true_iff in E as [Eh%bool_decide_eq_true Ej%negb_true_iff].
    intros [= <-]. by apply step_start.
  - destruct (_ && _) eqn:E; [|done]. apply andb_true_iff in E as [(hs & Eh & Ef & Er)%softirq_ready_inv Ed].
    intros Hc. by eapply step_collect.
  - destruct (softirq_ready w (Some t)) eqn:E; [|done]. apply softirq_ready_inv in E as (hs & Eh & Ef & Er).
    intros [= <-]. by eapply step_expire.
  - destruct (negb _) eqn:E; [|done]. apply negb_true_iff, Z.eqb_neq in E. intros [= <-]. by apply step_return.
  - destruct (_ && _) eqn:E; [|done]. apply andb_true_iff in E as [(hs & Eh & Ef & Er)%softirq_ready_inv Ed%negb_true_iff].
    intros [= <-]. by eapply step_finish.
Qed.

Lemma exec_steps ls w w' : exec ls w = Ok w' → steps w ls w'.
Proof.
  assert (∀ ls w1 ls1 w, steps w1 ls1 w → ∀ w', exec ls w = Ok w' → steps w1 (ls1 ++ ls) w') as Hgen.
  { intros ls0. induction ls0 as [|l ls0 IH]; intros w1 ls1 w2 Hs w3; cbn.
    - intros [= <-]. by rewrite app_nil_r.
    - destruct (do_step l w2) as [w4| |] eqn:E; [|done|done]. cbn. intros Ex. rewrite (cons_middle l ls1 ls0), app_assoc.
      apply (IH w1 (ls1 ++ [l]) w4); [|done]. eapply steps_snoc; [done|by apply do_step_step]. }
  intros E. exact (Hgen ls w [] w (steps_nil w) w' E).
Qed.

Lemma orderlyb_orderly w l : orderlyb w l = true → orderly w l.
Proof.
  destruct l as [o| | |t| |]; try done. destruct o; cbn; try done; rewrite ?andb_true_iff, ?orb_true_iff, ?Z.ltb_lt; [|done].
  intros [Hc Hp]. split; [done|]. intros ->. destruct Hp as [?|?%bool_decide_eq_true]; done.
Qed.

Lemma exec_orderly_steps ls w w' : exec ls w = Ok w' → exec_orderly ls w = true → orderly_steps w ls w'.
Proof.
  assert (∀ ls w1 ls1 w, orderly_steps w1 ls1 w → ∀ w', exec ls w = Ok w' → exec_orderly ls w = true →
    orderly_steps w1 (ls1 ++ ls) w') as Hgen.
  { intros ls0. induction ls0 as [|l ls0 IH]; intros w1 ls1 w2 Hs w3; cbn.
    - intros [= <-] _. by rewrite app_nil_r.
    - destruct (do_step l w2) as [w4| |] eqn:E; [|done|done]. cbn. intros Ex [Ho%orderlyb_orderly Hr]%andb_true_iff.
      rewrite (cons_middle l ls1 ls0), app_assoc. apply (IH w1 (ls1 ++ [l]) w4); [|done|done].
      eapply orderly_snoc; [done|done|by apply do_step_step]. }
  intros E. exact (Hgen ls w [] w (orderly_nil w) w' E).
Qed.

(** A machine at boot. *)
Definition boot (j : Z) : wheel := mk_wheel j (λ _, mk_timer 0 0 0 false) (init_base j) None.

Lemma boot_booted j : 0 ≤ j < 2 ^ 61 → booted (boot j).
Proof. intros Hj. by split. Qed.

Definition ticks (n : nat) : list label := replicate n (LOp OTick).

End TimerWheelRun.
