(* ===== verification/TimerWheelTheorems.v ===== *)
(** * Theorems on the timer wheel

    The contract of time/src/timer.c, with instances on a machine that boots
    at jiffy 1000, and the interleavings in which the shortcut of
    [__mod_timer] for a timer of the same bucket goes wrong. *)

From stdpp Require Import base numbers list option functions.
From Stdlib Require Import ZArith Lia.
From S2P Require Import Prelude Bitops Bitmap BitmapSpec TimerWheel TimerWheelIndex TimerWheelSpec TimerWheelOps.
From S2P Require Import TimerWheelNext TimerWheelTrace TimerWheelRun.

Open Scope Z_scope.

Module TimerWheelTheorems.
Import Bitmap TimerWheel TimerWheelIndex TimerWheelSpec TimerWheelOps TimerWheelNext TimerWheelTrace TimerWheelRun.

(** Two timers started, which expire on the same tick, and the ticks until the
    softirq has to run. *)
Definition two_timers : list label :=
  [LOp (OInit 1 7 0 0); LOp (OInit 2 7 0 0); LOp (OMod 2 1002 0 ModOther); LOp (OMod 1 1002 0 ModOther)] ++ ticks 3.

(** The result of a run that is known to succeed. *)
Definition result (o : outcome wheel) : wheel := match o with Ok w => w | _ => boot 0 end.

Lemma exec_result ls w : (match exec ls w with Ok _ => true | _ => false end) = true → exec ls w = Ok (result (exec ls w)).
Proof. by destruct (exec ls w). Qed.

(** C3: the timer wheel is a service of timers with deadlines. Along every run from
    boot, with the functions of the timers and the calls of other contexts
    interleaved in any way with the softirq (which drops the lock around every
    function), each step is one of the service: a call starts one timer or
    stops it and leaves the deadlines of all others alone, the clock of the
    base moves without changing any deadline, a round of the softirq takes
    exactly the timers of the least deadline, which has been reached, a timer
    is called only when it was taken, and the softirq ends only when no
    deadline is left that has been reached. No operation panics, nor does a round
    of the softirq. *)
Theorem timer_wheel_refines (w0 w : wheel) (ls : list label) :
  booted w0 → steps w0 ls w →
  (∀ l w', step w l w' → ∃ e, shows l e ∧ serves (view w) e (view w')) ∧
  (∀ o, op_ok o w → ∃ w', apply_op o w = Ok w') ∧
  (∀ hs, heads w = Some hs → first_expired hs = None → run_due w = true → ∃ w', run_collect w = Ok w') ∧
  (∀ t d, due w t = Some d → next_expiry (base w) ≤ d).
Proof.
  intros Hb Hs. pose proof (steps_wf w0 ls w (booted_wf _ Hb) Hs) as H. split_and!.
  - intros l w' Hst. by apply (step_effect w l w' H).
  - intros o Ho. destruct (op_effect o w H Ho) as (w' & E & _). by exists w'.
  - intros hs Eh Ef Hd. rewrite run_due_spec in Hd by done. apply Z.leb_le in Hd.
    destruct (run_collect_ok w H (drained w hs Eh Ef) Hd) as (w' & E & _). by exists w'.
  - intros t d. by apply due_after.
Qed.

Lemma timer_wheel_refines_witness :
  let w := result (exec two_timers (boot 1000)) in
  (∀ t d, due w t = Some d → 1003 ≤ d) ∧ due w 1 = Some 1003 ∧ due w 2 = Some 1003 ∧ jiffies w = 1003.
Proof.
  intros w. split; [|by vm_compute].
  apply (timer_wheel_refines (boot 1000) w two_timers); [by apply boot_booted|].
  apply exec_steps. apply exec_result; by vm_compute.
Defined.

(** C9: a timer does not fire before its time. Along every run whose requests lie
    within the capacity of the wheel and in which the shortcut of
    [__mod_timer] for a timer of the same bucket meets a timer that is in a
    bucket, a timer whose function is called has its expiry strictly in the
    past. *)
Theorem timers_never_early (w0 w w' : wheel) (ls : list label) (t : Z) :
  booted w0 → orderly_steps w0 ls w → step w (LExpire t) w' → expires (timers w t) < jiffies w.
Proof.
  intros Hb Hs Hst. destruct (orderly_steps_timely w0 ls w Hb Hs) as [H Ht]. by eapply expire_not_early.
Qed.

Lemma timers_never_early_witness :
  let w := result (exec (two_timers ++ [LStart; LCollect]) (boot 1000)) in expires (timers w 1) < jiffies w.
Proof.
  intros w. apply (timers_never_early (boot 1000) w (expire_timer w 1) (two_timers ++ [LStart; LCollect]) 1).
  - by apply boot_booted.
  - apply exec_orderly_steps; [apply exec_result; by vm_compute|by vm_compute].
  - apply do_step_step. by vm_compute.
Defined.

(** C18: what [mod_timer] does, in all cases. A pending timer with the same expiry
    is left alone and 1 is returned. A timer that the softirq has taken out to
    call (pending still), and whose new expiry hashes to the index left in its
    flags, only gets the new expiry: 1 is returned and the timer is called in
    this softirq all the same. Every other timer is started: the call returns
    whether it was pending, and the timer has the new expiry and is due within
    the bounds of the wheel: right away (at the clock of the base) if the expiry
    has passed; after the expiry, by one jiffy or by at most 8/63 of the timeout,
    if the timeout is below the capacity of the wheel; at the capacity otherwise.
    No other timer changes. *)
Theorem mod_timer_correct (w : wheel) (t e : Z) :
  wf w → function (timers w t) ≠ 0 → 0 ≤ e < 2 ^ 63 → 0 ≤ expires (timers w t) < 2 ^ 64 →
  if linked (timers w t) && (expires (timers w t) =? e) then mod_timer w t e = Ok (w, 1)
  else if bool_decide (t ∈ inflight w) && ((calc_wheel_index e (forwarded w)).1 =? timer_get_idx (timers w t)) then
    ∃ w', mod_timer w t e = Ok (w', 1) ∧ wf w' ∧ expires (timers w' t) = e ∧ heads w' = heads w ∧ (∀ a, due w' a = due w a) ∧
      (∀ a, a ≠ t → timers w' a = timers w a)
  else ∃ w' d, mod_timer w t e = Ok (w', if linked (timers w t) then 1 else 0) ∧ wf w' ∧
    expires (timers w' t) = e ∧ due w' t = Some d ∧
    (e < forwarded w → d = forwarded w) ∧
    (forwarded w ≤ e < forwarded w + WHEEL_TIMEOUT_CUTOFF →
       d = e + 1 ∨ e < d ∧ 63 * (d - e) ≤ 8 * (e - forwarded w)) ∧
    (forwarded w + WHEEL_TIMEOUT_CUTOFF ≤ e →
       forwarded w + WHEEL_TIMEOUT_MAX < d ≤ forwarded w + WHEEL_TIMEOUT_CUTOFF) ∧
    (∀ a, a ≠ t → timers w' a = timers w a ∧ due w' a = due w a ∧ (a ∈ inflight w' ↔ a ∈ inflight w)).
Proof.
  intros H Hf He Hx.
  assert (∀ w', mod_timer w t e = Ok (w', if linked (timers w t) then 1 else 0) → wf w' → rearmed t e (forwarded w) w w' →
    ∃ w' d, mod_timer w t e = Ok (w', if linked (timers w t) then 1 else 0) ∧ wf w' ∧ expires (timers w' t) = e ∧ due w' t = Some d ∧
    (e < forwarded w → d = forwarded w) ∧
    (forwarded w ≤ e < forwarded w + WHEEL_TIMEOUT_CUTOFF → d = e + 1 ∨ e < d ∧ 63 * (d - e) ≤ 8 * (e - forwarded w)) ∧
    (forwarded w + WHEEL_TIMEOUT_CUTOFF ≤ e → forwarded w + WHEEL_TIMEOUT_MAX < d ≤ forwarded w + WHEEL_TIMEOUT_CUTOFF) ∧
    (∀ a, a ≠ t → timers w' a = timers w a ∧ due w' a = due w a ∧ (a ∈ inflight w' ↔ a ∈ inflight w))) as Hre.
  { intros w' E Hw R. destruct (re_due _ _ _ _ _ R) as (idx & be & (Hi & _ & S1 & S2 & S3) & Hd).
    exists w', be. split; [exact E|]. split; [done|]. split; [apply R|]. split; [done|]. split; [done|].
    split; [|split; [done|apply R]]. intros Hr. destruct (S2 Hr) as [Hlt Hl].
    destruct Hl as [Hl|Hl]; [left; rewrite Hl in Hlt; change (gran 0) with 1 in Hlt; lia|right; lia]. }
  destruct (decide (t ∈ inflight w)) as [Hin|Hout].
  - destruct (wf_fly _ _ H t Hin) as [Hl _]. rewrite Hl in *. rewrite (bool_decide_true _ Hin). cbn [andb].
    unfold mod_timer, __mod_timer in *. rewrite (proj2 (Z.eqb_neq _ _) Hf) in *. rewrite mod_unlocked_spec in * by lia.
    unfold mod_keeps in *. rewrite Hl in *. change (Z.land 0 _ =? 0) with true in *. cbn [andb negb orb] in *. rewrite orb_false_r in *.
    destruct (Z.eqb_spec (expires (timers w t)) e); [done|].
    destruct (Z.eqb_spec (calc_wheel_index e (forwarded w)).1 (timer_get_idx (timers w t))) as [Hi|Hi].
    + destruct (shortcut_frame w t e H) as (S1 & S2 & _ & S4 & S5 & S6). eexists. split; [by apply mod_pending_shortcut|]. done.
    + destruct (mod_pending_moved w t e H He Hi) as (w' & E & Hw & R). rewrite Hl in E. by apply (Hre w').
  - rewrite (bool_decide_false _ Hout). cbn [andb]. pose proof (__mod_timer_ok w t e 0 H Hf Hout He Hx) as Hm.
    unfold mod_keeps in Hm. change (Z.land 0 _ =? 0) with true in Hm. cbn [andb negb] in Hm.
    rewrite orb_false_r, andb_true_r in Hm. destruct (_ && _); [exact Hm|]. rewrite andb_false_r in Hm.
    destruct Hm as (w' & E & Hw & R). by apply (Hre w').
Qed.

(** A timeout of 200 jiffies is rounded up by 8 at most. *)
Lemma mod_timer_correct_witness :
  let w := result (exec two_timers (boot 1000)) in
  ∃ w' d, mod_timer w 1 1203 = Ok (w', 1) ∧ due w' 1 = Some d ∧ d = 1208 ∧ 1203 < d ∧ 63 * (d - 1203) ≤ 8 * 200.
Proof.
  intros w.
  assert (wf w) as H by (apply (steps_wf (boot 1000) two_timers); [by apply booted_wf, boot_booted|];
    apply exec_steps; apply exec_result; by vm_compute).
  assert (inflight w = [] ∧ linked (timers w 1) = true ∧ expires (timers w 1) = 1002 ∧
    function (timers w 1) = 7 ∧ forwarded w = 1003) as (Hfl & Hl & He & Hf & Hfw) by (by vm_compute).
  pose proof (mod_timer_correct w 1 1203 H) as Hm. rewrite Hfl, Hl, He, Hf, Hfw in Hm.
  rewrite bool_decide_false in Hm by apply not_elem_of_nil.
  destruct Hm as (w' & d & E & _ & _ & Hd & _ & Hb & _); [done|lia|lia|].
  assert (match mod_timer w 1 1203 with Ok (w', _) => due w' 1 | _ => None end = Some 1208) as Hc by (by vm_compute).
  rewrite E in Hc. rewrite Hd in Hc. injection Hc as ->.
  exists w', 1208. split; [exact E|]. split; [done|]. lia.
Defined.

(** C17: the search for the next event. On every reachable wheel
    [__next_timer_interrupt], which looks at the levels of the wheel from the
    finest on and stops as soon as a level answers, returns the least deadline
    of the timers in the wheel, cut off at the horizon NEXT_TIMER_MAX_DELTA. *)
Theorem next_timer_interrupt_correct (w0 w : wheel) (ls : list label) :
  booted w0 → steps w0 ls w →
  ∃ next, __next_timer_interrupt (base w) = Ok (set_next (next_expiry (base w)) false (base w), next) ∧
    (∀ t d, due w t = Some d → next ≤ d) ∧
    next ≤ clk (base w) + NEXT_TIMER_MAX_DELTA ∧
    (next = clk (base w) + NEXT_TIMER_MAX_DELTA ∨ ∃ t, due w t = Some next).
Proof.
  intros Hb Hs. pose proof (steps_wf w0 ls w (booted_wf _ Hb) Hs) as H. pose proof (wf_base _ _ H) as Hba.
  destruct (wf_times _ _ H) as (? & ? & ? & ?).
  destruct (next_timer_interrupt_ok (base w)) as (next & E & Hn1 & Hn2 & Hn3); [apply Hba|apply Hba|lia|].
  exists next. split; [done|]. split_and!; [|done|].
  - intros t d Hd. destruct (due_in w t d H Hd) as [Hin ->]. apply Hn2. by eapply elem_nonempty.
  - destruct Hn3 as [?|(i & Hi & ->)]; [by left|right]. destruct (vectors (base w) i) as [|t l] eqn:Ev; [done|].
    exists t. apply due_vec; [done|]. rewrite Ev. by left.
Qed.

Lemma next_timer_interrupt_correct_witness :
  let w := result (exec (two_timers ++ [LOp (OMod 1 50000 0 ModOther); LOp (ODel 2)]) (boot 1000)) in
  ∃ next, __next_timer_interrupt (base w) = Ok (set_next (next_expiry (base w)) false (base w), next) ∧
    ∀ t d, due w t = Some d → next ≤ d.
Proof.
  intros w.
  destruct (next_timer_interrupt_correct (boot 1000) w (two_timers ++ [LOp (OMod 1 50000 0 ModOther); LOp (ODel 2)]))
    as (next & E & H & _); [by apply boot_booted|apply exec_steps; apply exec_result; by vm_compute|].
  exists next. split; [exact E|exact H].
Defined.

(** C8: the softirq returns and calls what is due. Let the functions of the timers,
    and other contexts while they run, perform any operations (a finite number
    each, also on the timer that is called and on timers that wait to be called)
    and let jiffies advance meanwhile, but never past some jiffy [horizon]. Then
    [__run_timers] returns, and no timer is left that is due at the time it
    returns. A timer that no function touches is called exactly once if its
    deadline is reached by then, and otherwise not at all and keeps its
    deadline. *)
Theorem run_timers_correct (prog : Z → wheel → list op) (horizon : Z) (w0 w : wheel) (ls : list label) :
  (∀ t w, wf w → jiffies w ≤ horizon → ops_ok horizon (prog t w) w) →
  booted w0 → steps w0 ls w → heads w = None → jiffies w ≤ horizon →
  ∃ N w' called, (∀ fuel, (N < fuel)%nat → __run_timers fuel (call prog) w = Ok (w', called)) ∧
    wf w' ∧ heads w' = None ∧ jiffies w ≤ jiffies w' ≤ horizon ∧
    (∀ a d, due w' a = Some d → jiffies w' < d) ∧
    (∀ a, untouched prog a →
       (∃ d, due w a = Some d ∧ d ≤ jiffies w') ∧ filter (λ t, t = a) called = [a] ∨
       ¬ (∃ d, due w a = Some d ∧ d ≤ jiffies w') ∧ filter (λ t, t = a) called = [] ∧ due w' a = due w a).
Proof.
  intros Hp Hb Hs Hh Hj. pose proof (steps_wf w0 ls w (booted_wf _ Hb) Hs) as H.
  destruct (run_timers_ok prog horizon Hp w H Hj Hh) as (N & w' & cs & Hrun & [R1 R2 R3 R4 R5 R6]).
  assert (∀ a, owed (jiffies w') w a ↔ ∃ d, due w a = Some d ∧ d ≤ jiffies w') as Ho.
  { intros a. unfold owed, inflight. rewrite Hh. split; [by intros [?%elem_of_nil|]|by right]. }
  exists N, w', cs. split; [done|]. split; [done|]. split; [done|]. split; [done|]. split.
  - intros a d Hd. pose proof (due_after w' a d R1 Hd). lia.
  - intros a Hu. destruct (due w a) as [d|] eqn:Ed.
    + destruct (decide (d ≤ jiffies w')).
      * left. split; [by exists d|]. apply R5; [done|]. apply Ho. rewrite Ed. by exists d.
      * right. assert (¬ owed (jiffies w') w a) as Hn by (rewrite Ho, Ed; intros (d' & [= <-] & ?); lia).
        split; [by rewrite Ho, Ed in Hn|]. destruct (R6 a Hu Hn) as [Hx [Hy _]]. split; [done|]. by rewrite <- Ed.
    + right. assert (¬ owed (jiffies w') w a) as Hn by (rewrite Ho, Ed; by intros (d' & ? & _)).
      split; [by rewrite Ho, Ed in Hn|]. destruct (R6 a Hu Hn) as [Hx [Hy _]]. split; [done|]. by rewrite <- Ed.
Qed.

(** The function of timer 1 takes a jiffy, up to the jiffy 1010, and starts its
    timer again for the next one. *)
Definition busy (t : Z) (w : wheel) : list op :=
  (if decide (jiffies w < 1010) then [OTick] else []) ++
  (if decide (function (timers w t) ≠ 0 ∧ t = 1) then [OMod t (jiffies w + 1) 0 ModOther] else []).

Lemma run_timers_correct_witness :
  let w := result (exec two_timers (boot 1000)) in
  ∃ N w' called, (∀ fuel, (N < fuel)%nat → __run_timers fuel (call busy) w = Ok (w', called)) ∧
    filter (λ t, t = 2) called = [2] ∧
    match __run_timers 30 (call busy) w with Ok (w', called) => (called, due w' 1, jiffies w') | _ => ([], None, 0) end =
      ([1; 2; 1], Some 1007, 1006).
Proof.
  intros w. destruct (run_timers_correct busy 1010 (boot 1000) w two_timers) as (N & w' & cs & Hrun & _ & _ & Hjw & _ & Ha).
  - intros t v Hv Hj. destruct (wf_times _ _ Hv) as (? & _ & _ & Hr). unfold busy.
    case_decide as Hd; case_decide as Hf; cbn [app ops_ok apply_op]; try done.
    + split; [done|]. split; [cbn; lia|]. intros v' [= <-]. split; [done|]. split; [|done]. cbn. split; [apply Hf|lia].
    + split; [done|]. split; [cbn; lia|done].
    + split; [done|]. split; [|done]. cbn. split; [apply Hf|lia].
  - by apply boot_booted.
  - apply exec_steps. apply exec_result; by vm_compute.
  - by vm_compute.
  - by vm_compute.
  - exists N, w', cs. split; [done|]. split.
    + assert (jiffies w = 1003) as Ej by (by vm_compute). destruct (Ha 2) as [[_ Hc]|[Hn _]]; [|done|].
      * intros t v. unfold busy. case_decide; case_decide as Hf; cbn [app]; try (destruct Hf as [_ ->]);
          repeat apply list.Forall_cons_2; try apply list.Forall_nil_2; cbn; lia.
      * destruct Hn. exists 1003. split; [by vm_compute|lia].
    + by vm_compute.
Defined.

(** ** Where the shortcut goes wrong *)

(** C38: a timer that waits in the list of the softirq can be postponed and fires at
    once all the same. Two timers expire on the same tick. While the function
    of the first runs, [mod_timer] postpones the second by 63 jiffies: the new
    expiry hashes to the index the timer still has in its flags, although the
    softirq has taken it out of that bucket, so that only [expires] is changed
    and 1 is returned. The softirq then calls the timer, 63 jiffies before its
    time. *)
Theorem postponed_timer_fires_early :
  ∃ ls w w1 w2, steps (boot 1000) ls w ∧ running_timer (base w) = 1 ∧ 2 ∈ inflight w ∧
    mod_timer w 2 (jiffies w + 63) = Ok (w1, 1) ∧ expires (timers w1 2) = jiffies w1 + 63 ∧
    steps w1 [LReturn; LExpire 2] w2 ∧ running_timer (base w2) = 2 ∧ jiffies w2 = jiffies w1.
Proof.
  set (ls := two_timers ++ [LStart; LCollect; LExpire 1]). set (w := result (exec ls (boot 1000))).
  set (w1 := match mod_timer w 2 (jiffies w + 63) with Ok (w1, _) => w1 | _ => w end).
  exists ls, w, w1, (result (exec [LReturn; LExpire 2] w1)). split_and!.
  - apply exec_steps, exec_result. by vm_compute.
  - by vm_compute.
  - replace (inflight w) with [2] by (by vm_compute). by left.
  - assert (match mod_timer w 2 (jiffies w + 63) with Ok (_, r) => r | _ => 0 end = 1) as Hr by (by vm_compute).
    subst w1. destruct (mod_timer w 2 (jiffies w + 63)) as [[w1 r]| |]; [by subst r|done|done].
  - by vm_compute.
  - apply exec_steps, exec_result. by vm_compute.
  - by vm_compute.
  - by vm_compute.
Qed.

(** C39: a timer is lost. [mod_timer] looks whether the timer is pending before it
    takes the lock. Suppose it was, and that by the time the lock is taken the
    timer has been called or stopped and not started again. The index left in
    the flags of the timer then decides: when the new expiry hashes to it,
    [mod_timer] sets [expires] and returns 1 as if it had modified a pending
    timer, and the timer is on no list; otherwise it is started and 0 is
    returned. *)
Theorem mod_timer_race_loses_timer (w0 w1 w : wheel) (ls0 ls : list label) (t e : Z) :
  booted w0 → steps w0 ls0 w1 → mod_timer_unlocked (timers w1 t) e 0 = ModPending →
  steps w1 ls w → linked (timers w t) = false → 0 ≤ e < 2 ^ 63 →
  if (calc_wheel_index e (forwarded w)).1 =? timer_get_idx (timers w t) then
    ∃ w', mod_timer_locked w t e 0 ModPending = Ok (w', 1) ∧ expires (timers w' t) = e ∧
      linked (timers w' t) = false ∧ due w' t = None ∧ t ∉ inflight w'
  else ∃ w' d, mod_timer_locked w t e 0 ModPending = Ok (w', 0) ∧ expires (timers w' t) = e ∧ due w' t = Some d.
Proof.
  intros Hb Hs0 _ Hs Hl He. pose proof (steps_wf w1 ls w (steps_wf w0 ls0 w1 (booted_wf _ Hb) Hs0) Hs) as H.
  destruct (Z.eqb_spec (calc_wheel_index e (forwarded w)).1 (timer_get_idx (timers w t))) as [Hi|Hi].
  - destruct (shortcut_frame w t e H) as (S1 & S2 & S3 & S4 & S5 & _). eexists. split; [by apply mod_pending_shortcut|].
    split; [done|]. split; [congruence|]. split; [rewrite S5; by apply due_unlinked|].
    intros Hin. apply (wf_fly _ _ S1) in Hin as [Hin _]. congruence.
  - destruct (mod_pending_moved w t e H He Hi) as (w' & E & Hw & R). rewrite Hl in E.
    destruct (re_due _ _ _ _ _ R) as (idx & be & _ & Hd). exists w', be. split; [done|]. split; [apply R|done].
Qed.

(** The softirq calls both timers between the check and the lock; jiffy 1066
    hashes to the bucket of jiffy 1002. *)
Lemma mod_timer_race_loses_timer_witness :
  let w1 := result (exec two_timers (boot 1000)) in
  let w := result (exec [LStart; LCollect; LExpire 1; LReturn; LExpire 2; LReturn; LFinish] w1) in
  mod_timer_unlocked (timers w1 2) 1066 0 = ModPending ∧
  ∃ w', mod_timer_locked w 2 1066 0 ModPending = Ok (w', 1) ∧ expires (timers w' 2) = 1066 ∧
    linked (timers w' 2) = false ∧ due w' 2 = None ∧ 2 ∉ inflight w'.
Proof.
  assert (booted (boot 1000)) as Hb by (by apply boot_booted). assert (0 ≤ 1066 < 2 ^ 63) as He by lia.
  intros w1 w. assert (mod_timer_unlocked (timers w1 2) 1066 0 = ModPending) as Hu by (vm_compute; reflexivity).
  split; [exact Hu|].
  assert (steps (boot 1000) two_timers w1) as Hs0 by (apply exec_steps, exec_result; vm_compute; reflexivity).
  assert (steps w1 [LStart; LCollect; LExpire 1; LReturn; LExpire 2; LReturn; LFinish] w) as Hs
    by (apply exec_steps, exec_result; vm_compute; reflexivity).
  assert (linked (timers w 2) = false) as Hl by (vm_compute; reflexivity).
  assert (((calc_wheel_index 1066 (forwarded w)).1 =? timer_get_idx (timers w 2)) = true) as Hi by (vm_compute; reflexivity).
  pose proof (mod_timer_race_loses_timer (boot 1000) w1 w two_timers _ 2 1066 Hb Hs0 Hu Hs Hl He) as Hr.
  rewrite Hi in Hr. exact Hr.
Defined.

(** An idle CPU without timers is told to wake up. [get_next_timer_interrupt]
    recognises the horizon by its distance from the clock of the base, which
    the first call moves: from the second call on a time is returned although
    no timer is pending. *)
Theorem idle_without_timers_wakes_up :
  ∃ w w1 w2 r, steps (boot 1000) (ticks 5) w ∧ (∀ t, due w t = None) ∧
    get_next_timer_interrupt KTIME_MAX w 1005 0 = Ok (w1, KTIME_MAX) ∧ (∀ t, due w1 t = None) ∧
    get_next_timer_interrupt KTIME_MAX w1 1005 0 = Ok (w2, r) ∧ r < KTIME_MAX.
Proof.
  set (w := result (exec (ticks 5) (boot 1000))).
  set (w1 := match get_next_timer_interrupt KTIME_MAX w 1005 0 with Ok (w1, _) => w1 | _ => w end).
  assert (match get_next_timer_interrupt KTIME_MAX w 1005 0 with Ok (_, r) => r | _ => 0 end = KTIME_MAX) as Hr by (by vm_compute).
  assert (match get_next_timer_interrupt KTIME_MAX w1 1005 0 with Ok (_, r) => Some r | _ => None end =
          Some ((2 ^ 30 - 6) * TICK_NSEC)) as Hr2 by (by vm_compute).
  destruct (get_next_timer_interrupt KTIME_MAX w1 1005 0) as [[w2 r]| |] eqn:E2; [|done|done].
  exists w, w1, w2, r. split_and!.
  - apply exec_steps, exec_result. by vm_compute.
  - intros t. by vm_compute.
  - subst w1. destruct (get_next_timer_interrupt KTIME_MAX w 1005 0) as [[w1 r1]| |]; [by subst r1|done|done].
  - intros t. by vm_compute.
  - done.
  - injection Hr2 as ->. by vm_compute.
Qed.

End TimerWheelTheorems.
