(* ===== verification/SysvSem.v ===== *)
(** * System V semaphores

    ipc_sem/src/sem.c: a set of semaphores on which several operations are
    performed at once or not at all, with the operations that have to wait. A
    semaphore, a waiting operation and an undo structure are found through
    functions from indices and addresses; the indices of operations are checked
    against the size of the set before they are used. Operations run under the
    lock of the set or of one semaphore, and are sequential here; which of the
    two locks is taken is part of the state, since queues are merged and split
    with it. The values fit a short and the operations are shorts, so that int
    arithmetic does not wrap. *)

From stdpp Require Import base numbers list option functions.
From Stdlib Require Import ZArith Lia.
From S2P Require Import Prelude.

Open Scope Z_scope.

Module SysvSem.

Definition SEMVMX : Z := 32767.
Definition SEMAEM : Z := SEMVMX.
Definition SEM_UNDO : Z := 0x1000.
Definition IPC_NOWAIT : Z := 0x800.
Definition USE_GLOBAL_LOCK_HYSTERESIS : Z := 10.
Definition SEM_GLOBAL_LOCK : Z := -1.

Definition EINTR : Z := 4.
Definition E2BIG : Z := 7.
Definition EAGAIN : Z := 11.
Definition ENOMEM : Z := 12.
Definition EACCES : Z := 13.
Definition EINVAL : Z := 22.
Definition EFBIG : Z := 27.
Definition ENOSPC : Z := 28.
Definition ERANGE : Z := 34.
Definition EIDRM : Z := 43.

Record sembuf := mk_sembuf { sem_num : Z; sem_op : Z; sem_flg : Z }.

Record sem := mk_sem {
  semval : Z;
  sempid : Z;
  pending_alter : list Z;
  pending_const : list Z;
  sem_otime : Z
}.

(** [deleted] is that of the permission structure. *)
Record sem_array := mk_array {
  deleted : bool;
  sma_alter : list Z;
  sma_const : list Z;
  list_id : list Z;
  sem_nsems : Z;
  complex_count : Z;
  use_global_lock : Z;
  sems : Z → sem
}.

(** [blocking] is the position of the operation that blocked; [nsops] is the
    length of [sops]. *)
Record sem_queue := mk_queue {
  undo : Z;
  pid : Z;
  status : Z;
  sops : list sembuf;
  blocking : nat;
  alter : bool;
  dupsop : bool
}.

(** The set, the waiting operations, the adjustments of every undo structure,
    the tasks woken by the current call with their results, and the time. *)
Record sem_state := mk_state {
  sma : sem_array;
  queues : Z → sem_queue;
  undos : Z → Z → Z;
  wake_q : list (Z * Z);
  now : Z
}.

Definition set_semval (v : Z) (s : sem) : sem := mk_sem v (sempid s) (pending_alter s) (pending_const s) (sem_otime s).
Definition set_sempid (p : Z) (s : sem) : sem := mk_sem (semval s) p (pending_alter s) (pending_const s) (sem_otime s).
Definition set_alter (l : list Z) (s : sem) : sem := mk_sem (semval s) (sempid s) l (pending_const s) (sem_otime s).
Definition set_const (l : list Z) (s : sem) : sem := mk_sem (semval s) (sempid s) (pending_alter s) l (sem_otime s).
Definition set_otime (t : Z) (s : sem) : sem := mk_sem (semval s) (sempid s) (pending_alter s) (pending_const s) t.

Definition set_sems (f : Z → sem) (a : sem_array) : sem_array :=
  mk_array (deleted a) (sma_alter a) (sma_const a) (list_id a) (sem_nsems a) (complex_count a) (use_global_lock a) f.
Definition set_sma_alter (l : list Z) (a : sem_array) : sem_array :=
  mk_array (deleted a) l (sma_const a) (list_id a) (sem_nsems a) (complex_count a) (use_global_lock a) (sems a).
Definition set_sma_const (l : list Z) (a : sem_array) : sem_array :=
  mk_array (deleted a) (sma_alter a) l (list_id a) (sem_nsems a) (complex_count a) (use_global_lock a) (sems a).
Definition set_list_id (l : list Z) (a : sem_array) : sem_array :=
  mk_array (deleted a) (sma_alter a) (sma_const a) l (sem_nsems a) (complex_count a) (use_global_lock a) (sems a).
Definition set_complex (c : Z) (a : sem_array) : sem_array :=
  mk_array (deleted a) (sma_alter a) (sma_const a) (list_id a) (sem_nsems a) c (use_global_lock a) (sems a).
Definition set_global (g : Z) (a : sem_array) : sem_array :=
  mk_array (deleted a) (sma_alter a) (sma_const a) (list_id a) (sem_nsems a) (complex_count a) g (sems a).
Definition set_deleted (a : sem_array) : sem_array :=
  mk_array true (sma_alter a) (sma_const a) (list_id a) (sem_nsems a) (complex_count a) (use_global_lock a) (sems a).

Definition set_blocking (k : nat) (q : sem_queue) : sem_queue :=
  mk_queue (undo q) (pid q) (status q) (sops q) k (alter q) (dupsop q).
Definition set_status (e : Z) (q : sem_queue) : sem_queue :=
  mk_queue (undo q) (pid q) e (sops q) (blocking q) (alter q) (dupsop q).

Definition set_sma (a : sem_array) (s : sem_state) : sem_state := mk_state a (queues s) (undos s) (wake_q s) (now s).
Definition set_queue (q : Z) (f : sem_queue → sem_queue) (s : sem_state) : sem_state :=
  mk_state (sma s) (<[q := f (queues s q)]> (queues s)) (undos s) (wake_q s) (now s).
Definition set_undos (u : Z → Z → Z) (s : sem_state) : sem_state := mk_state (sma s) (queues s) u (wake_q s) (now s).
Definition set_wake_q (l : list (Z * Z)) (s : sem_state) : sem_state := mk_state (sma s) (queues s) (undos s) l (now s).

Definition upd_sem (i : Z) (f : sem → sem) (a : sem_array) : sem_array := set_sems (<[i := f (sems a i)]> (sems a)) a.
Definition upd_sma (f : sem_array → sem_array) (s : sem_state) : sem_state := set_sma (f (sma s)) s.

Definition nsops (q : sem_queue) : Z := Z.of_nat (length (sops q)).

Definition has_flag (sop : sembuf) (f : Z) : bool := negb (Z.land (sem_flg sop) f =? 0).

(** ** Performing the operations *)

(** Why the operations stop. *)
Inductive stop := WouldBlock (k : nat) | OutOfRange.

(** The loop of [perform_atomic_semop_slow] from operation [k] on, with the
    operations done so far, the last one first. *)
Fixpoint slow_loop (todo done : list sembuf) (k : nat) (f : Z → sem) (semadj : Z → Z)
    : (Z → sem) * (Z → Z) * list sembuf * option stop :=
  match todo with
  | [] => (f, semadj, done, None)
  | sop :: todo =>
      let result := semval (f (sem_num sop)) in
      if (sem_op sop =? 0) && negb (result =? 0) then (f, semadj, done, Some (WouldBlock k))
      else
        let result := result + sem_op sop in
        if result <? 0 then (f, semadj, done, Some (WouldBlock k))
        else if SEMVMX <? result then (f, semadj, done, Some OutOfRange)
        else
          let undo := semadj (sem_num sop) - sem_op sop in
          if has_flag sop SEM_UNDO && ((undo <? - SEMAEM - 1) || (SEMAEM <? undo))
          then (f, semadj, done, Some OutOfRange)
          else slow_loop todo (sop :: done) (S k) (<[sem_num sop := set_semval result (f (sem_num sop))]> f)
                 (if has_flag sop SEM_UNDO then <[sem_num sop := undo]> semadj else semadj)
  end.

Fixpoint undo_loop (done : list sembuf) (f : Z → sem) (semadj : Z → Z) : (Z → sem) * (Z → Z) :=
  match done with
  | [] => (f, semadj)
  | sop :: done =>
      undo_loop done (<[sem_num sop := set_semval (semval (f (sem_num sop)) - sem_op sop) (f (sem_num sop))]> f)
        (if has_flag sop SEM_UNDO then <[sem_num sop := semadj (sem_num sop) + sem_op sop]> semadj else semadj)
  end.

Fixpoint update_pids (done : list sembuf) (p : Z) (f : Z → sem) : Z → sem :=
  match done with
  | [] => f
  | sop :: done => update_pids done p (<[sem_num sop := set_sempid p (f (sem_num sop))]> f)
  end.

(** The result for the caller, and the position kept in [blocking]. *)
Definition stop_code (l : list sembuf) (st : stop) : Z :=
  match st with
  | OutOfRange => - ERANGE
  | WouldBlock k =>
      match l !! k with
      | Some sop => if has_flag sop IPC_NOWAIT then - EAGAIN else 1
      | None => 1
      end
  end.

Definition note_blocking (q : Z) (st : stop) (s : sem_state) : sem_state :=
  match st with WouldBlock k => set_queue q (set_blocking k) s | OutOfRange => s end.

Definition put_values (f : Z → sem) (un : Z) (semadj : Z → Z) (s : sem_state) : sem_state :=
  set_undos (<[un := semadj]> (undos s)) (upd_sma (set_sems f) s).

Definition perform_atomic_semop_slow (s : sem_state) (q : Z) : sem_state * Z :=
  let l := sops (queues s q) in
  let un := undo (queues s q) in
  let '(f, semadj, done, st) := slow_loop l [] 0 (sems (sma s)) (undos s un) in
  match st with
  | None => (put_values (update_pids done (pid (queues s q)) f) un semadj s, 0)
  | Some st =>
      let '(f, semadj) := undo_loop done f semadj in
      (note_blocking q st (put_values f un semadj s), stop_code l st)
  end.

(** The two scans of the fast path. *)
Fixpoint scan_loop (todo : list sembuf) (k : nat) (f : Z → sem) (semadj : Z → Z) : option stop :=
  match todo with
  | [] => None
  | sop :: todo =>
      let result := semval (f (sem_num sop)) in
      if (sem_op sop =? 0) && negb (result =? 0) then Some (WouldBlock k)
      else
        let result := result + sem_op sop in
        if result <? 0 then Some (WouldBlock k)
        else if SEMVMX <? result then Some OutOfRange
        else
          let undo := semadj (sem_num sop) - sem_op sop in
          if has_flag sop SEM_UNDO && ((undo <? - SEMAEM - 1) || (SEMAEM <? undo)) then Some OutOfRange
          else scan_loop todo (S k) f semadj
  end.

Fixpoint apply_loop (todo : list sembuf) (p : Z) (f : Z → sem) (semadj : Z → Z) : (Z → sem) * (Z → Z) :=
  match todo with
  | [] => (f, semadj)
  | sop :: todo =>
      let semadj := if has_flag sop SEM_UNDO then <[sem_num sop := semadj (sem_num sop) - sem_op sop]> semadj
                    else semadj in
      let curr := f (sem_num sop) in
      apply_loop todo p (<[sem_num sop := set_sempid p (set_semval (semval curr + sem_op sop) curr)]> f) semadj
  end.

Definition perform_atomic_semop (s : sem_state) (q : Z) : sem_state * Z :=
  if dupsop (queues s q) then perform_atomic_semop_slow s q
  else
    let l := sops (queues s q) in
    let un := undo (queues s q) in
    match scan_loop l 0 (sems (sma s)) (undos s un) with
    | Some st => (note_blocking q st s, stop_code l st)
    | None =>
        let '(f, semadj) := apply_loop l (pid (queues s q)) (sems (sma s)) (undos s un) in
        (put_values f un semadj s, 0)
    end.

(** ** Waking waiting operations *)

Definition unlist (q : Z) (l : list Z) : list Z := filter (λ x, x ≠ q) l.

Definition wake_up_sem_queue_prepare (q error : Z) (s : sem_state) : sem_state :=
  let s := set_queue q (set_status error) s in set_wake_q (wake_q s ++ [(q, error)]) s.

(** [list_del] takes the operation out of the queue it is on. *)
Definition list_del (q : Z) (a : sem_array) : sem_array :=
  set_sems (λ i, set_alter (unlist q (pending_alter (sems a i))) (set_const (unlist q (pending_const (sems a i))) (sems a i)))
    (set_sma_alter (unlist q (sma_alter a)) (set_sma_const (unlist q (sma_const a)) a)).

Definition unlink_queue (q : Z) (s : sem_state) : sem_state :=
  let s := upd_sma (list_del q) s in
  if 1 <? nsops (queues s q) then upd_sma (λ a, set_complex (complex_count a - 1) a) s else s.

Definition check_restart (s : sem_state) (q : Z) : bool :=
  if negb (bool_decide (sma_alter (sma s) = [])) then true
  else if 1 <? nsops (queues s q) then true
  else false.

(** The queue is walked from a copy of its order, which only the operation at
    hand leaves. *)
Fixpoint wake_const_loop (l : list Z) (s : sem_state) (completed : bool) : sem_state * bool :=
  match l with
  | [] => (s, completed)
  | q :: l =>
      let '(s, error) := perform_atomic_semop s q in
      if 0 <? error then wake_const_loop l s completed
      else
        let s := wake_up_sem_queue_prepare q error (unlink_queue q s) in
        wake_const_loop l s (if error =? 0 then true else completed)
  end.

Definition wake_const_ops (s : sem_state) (semnum : Z) : sem_state * bool :=
  wake_const_loop (if semnum =? -1 then sma_const (sma s) else pending_const (sems (sma s) semnum)) s false.

(** The first loop of [do_smart_wakeup_zero], over the indices given. *)
Fixpoint wakeup_zero_loop (nums : list Z) (s : sem_state) (completed got_zero : bool) : sem_state * bool * bool :=
  match nums with
  | [] => (s, completed, got_zero)
  | num :: nums =>
      if semval (sems (sma s) num) =? 0 then
        let '(s, c) := wake_const_ops s num in
        wakeup_zero_loop nums s (completed || c) true
      else wakeup_zero_loop nums s completed got_zero
  end.

Definition all_nums (s : sem_state) : list Z := Z.of_nat <$> seq 0 (Z.to_nat (sem_nsems (sma s))).

(** [None] is a NULL array of operations: all semaphores may have changed. *)
Definition do_smart_wakeup_zero (s : sem_state) (ops : option (list sembuf)) : sem_state * bool :=
  let nums := match ops with Some l => sem_num <$> l | None => all_nums s end in
  let '(s, completed, got_zero) := wakeup_zero_loop nums s false false in
  if got_zero then let '(s, c) := wake_const_ops s (-1) in (s, completed || c) else (s, completed).

(** One pass over a queue; the last component asks for another one. *)
Fixpoint update_pass (l : list Z) (semnum : Z) (s : sem_state) (completed : bool) : sem_state * bool * bool :=
  match l with
  | [] => (s, completed, false)
  | q :: l =>
      if negb (semnum =? -1) && (semval (sems (sma s) semnum) =? 0) then (s, completed, false)
      else
        let '(s, error) := perform_atomic_semop s q in
        if 0 <? error then update_pass l semnum s completed
        else
          let s := unlink_queue q s in
          if negb (error =? 0) then update_pass l semnum (wake_up_sem_queue_prepare q error s) completed
          else
            let '(s, _) := do_smart_wakeup_zero s (Some (sops (queues s q))) in
            let restart := check_restart s q in
            let s := wake_up_sem_queue_prepare q error s in
            if restart then (s, true, true) else update_pass l semnum s true
  end.

Fixpoint update_queue (fuel : nat) (s : sem_state) (semnum : Z) (completed : bool) : outcome (sem_state * bool) :=
  match fuel with
  | O => Fuel
  | S fuel =>
      let l := if semnum =? -1 then sma_alter (sma s) else pending_alter (sems (sma s) semnum) in
      let '(s, completed, restart) := update_pass l semnum s completed in
      if restart : bool then update_queue fuel s semnum completed else Ok (s, completed)
  end.

Definition set_semotime (s : sem_state) (ops : option (list sembuf)) : sem_state :=
  let i := match ops with Some (sop :: _) => sem_num sop | _ => 0 end in
  upd_sma (upd_sem i (set_otime (now s))) s.

Fixpoint update_nums (fuel : nat) (nums : list Z) (s : sem_state) (otime : bool) : outcome (sem_state * bool) :=
  match nums with
  | [] => Ok (s, otime)
  | i :: nums =>
      '(s, c) ← update_queue fuel s i false;
      update_nums fuel nums s (otime || c)
  end.

Definition increased (l : list sembuf) : list Z := sem_num <$> filter (λ sop, 0 < sem_op sop) l.

Definition do_smart_update (fuel : nat) (s : sem_state) (ops : option (list sembuf)) (otime : bool) : outcome sem_state :=
  let '(s, c) := do_smart_wakeup_zero s ops in
  let otime := otime || c in
  '(s, otime) ← (if negb (bool_decide (sma_alter (sma s) = [])) then
                   '(s, c) ← update_queue fuel s (-1) false; Ok (s, otime || c)
                 else
                   match ops with
                   | None => update_nums fuel (all_nums s) s otime
                   | Some l => update_nums fuel (increased l) s otime
                   end);
  Ok (if otime : bool then set_semotime s ops else s).

(** ** Locks and queues *)

Definition complexmode_enter (a : sem_array) : sem_array := set_global USE_GLOBAL_LOCK_HYSTERESIS a.

Definition complexmode_tryleave (a : sem_array) : sem_array :=
  if negb (complex_count a =? 0) then a
  else if use_global_lock a =? 1 then set_global 0 a
  else set_global (u32 (use_global_lock a - 1)) a.

(** [None] is a call without operations, for the lock of the whole set. *)
Definition sem_lock (s : sem_state) (ops : option (list sembuf)) : sem_state * Z :=
  match ops with
  | Some [sop] => if use_global_lock (sma s) =? 0 then (s, sem_num sop) else (s, SEM_GLOBAL_LOCK)
  | _ => (upd_sma complexmode_enter s, SEM_GLOBAL_LOCK)
  end.

Fixpoint unmerge_loop (l : list Z) (qs : Z → sem_queue) (a : sem_array) : sem_array :=
  match l with
  | [] => a
  | q :: l =>
      let num := match sops (qs q) with sop :: _ => sem_num sop | [] => 0 end in
      unmerge_loop l qs (upd_sem num (λ m, set_alter (pending_alter m ++ [q]) m) a)
  end.

Definition unmerge_queues (s : sem_state) : sem_state :=
  if negb (complex_count (sma s) =? 0) then s
  else upd_sma (λ a, set_sma_alter [] (unmerge_loop (sma_alter a) (queues s) a)) s.

Fixpoint merge_loop (nums : list Z) (a : sem_array) : sem_array :=
  match nums with
  | [] => a
  | i :: nums =>
      let l := pending_alter (sems a i) in
      merge_loop nums (set_sma_alter (l ++ sma_alter a) (upd_sem i (set_alter []) a))
  end.

Definition merge_queues (s : sem_state) : sem_state := upd_sma (merge_loop (all_nums s)) s.

Definition sem_unlock (s : sem_state) (locknum : Z) : sem_state :=
  if locknum =? SEM_GLOBAL_LOCK then upd_sma complexmode_tryleave (unmerge_queues s) else s.

(** ** System calls *)

(** The undo structure [un] of the caller, allocated if the set does not have
    it; [mem] says whether there is memory. *)
Definition find_alloc_undo (s : sem_state) (un : Z) (mem : bool) : sem_state * option Z :=
  if bool_decide (un ∈ list_id (sma s)) then (s, None)
  else if deleted (sma s) then (s, Some (- EINVAL))
  else if negb mem then (s, Some (- ENOMEM))
  else
    let '(s, locknum) := sem_lock s None in
    let s := set_undos (<[un := λ _, 0]> (undos s)) s in
    let s := upd_sma (λ a, set_list_id (un :: list_id a) a) s in
    (sem_unlock s locknum, None).

(** The loop of [do_semtimedop] over the operations: the largest index and the
    flags [undos], [alter] and [dupsop], with the semaphores seen modulo 64. *)
Record sops_info := mk_info { i_max : Z; i_undos : bool; i_alter : bool; i_dupsop : bool; i_dup : Z }.

Fixpoint sops_loop (l : list sembuf) (i : sops_info) : sops_info :=
  match l with
  | [] => i
  | sop :: l =>
      let mask := u64 (Z.shiftl 1 (sem_num sop mod 64)) in
      let max := if i_max i <=? sem_num sop then sem_num sop else i_max i in
      let undos := i_undos i || has_flag sop SEM_UNDO in
      let dupsop := i_dupsop i || negb (Z.land (i_dup i) mask =? 0) in
      let change := negb (sem_op sop =? 0) in
      sops_loop l (mk_info max undos (i_alter i || change) dupsop (if change then Z.lor (i_dup i) mask else i_dup i))
  end.

Definition scan_sops (l : list sembuf) : sops_info := sops_loop l (mk_info 0 false false false 0).

(** A caller: its undo structure, process and rights, its limits and memory. *)
Record caller := mk_caller { c_undo : Z; c_pid : Z; c_perm : bool; c_security : Z; c_semopm : Z; c_mem : bool }.

(** The call sleeps, or returns. *)
Inductive reply := Sleeps | Returns (error : Z).

(** The operation [q] joins the queue it belongs to. *)
Definition enqueue_op (s : sem_state) (q : Z) (l : list sembuf) (alter : bool) : sem_state :=
  match l with
  | [sop] =>
      if alter then
        if negb (complex_count (sma s) =? 0) then upd_sma (λ a, set_sma_alter (sma_alter a ++ [q]) a) s
        else upd_sma (upd_sem (sem_num sop) (λ m, set_alter (pending_alter m ++ [q]) m)) s
      else upd_sma (upd_sem (sem_num sop) (λ m, set_const (pending_const m ++ [q]) m)) s
  | _ =>
      let s := if complex_count (sma s) =? 0 then merge_queues s else s in
      let s := if alter then upd_sma (λ a, set_sma_alter (sma_alter a ++ [q]) a) s
               else upd_sma (λ a, set_sma_const (sma_const a ++ [q]) a) s in
      upd_sma (λ a, set_complex (complex_count a + 1) a) s
  end.

(** What [do_semtimedop] does between [sem_lock] and going to sleep. *)
Definition semop_locked (fuel : nat) (s : sem_state) (q : Z) (c : caller) (l : list sembuf) : outcome (sem_state * reply) :=
  let i := scan_sops l in
  let '(s, locknum) := sem_lock s (Some l) in
  if deleted (sma s) then Ok (sem_unlock s locknum, Returns (- EIDRM))
  else
    let s := set_queue q (λ _, mk_queue (if i_undos i then c_undo c else 0) (c_pid c) (- EINTR) l 0 (i_alter i) (i_dupsop i)) s in
    let '(s, error) := perform_atomic_semop s q in
    if error =? 0 then
      s ← (if i_alter i then do_smart_update fuel s (Some l) true else Ok (set_semotime s (Some l)));
      Ok (sem_unlock s locknum, Returns 0)
    else if error <? 0 then Ok (sem_unlock s locknum, Returns error)
    else Ok (sem_unlock (enqueue_op s q l (i_alter i)) locknum, Sleeps).

Definition do_semtimedop (fuel : nat) (s : sem_state) (q : Z) (c : caller) (l : list sembuf) : outcome (sem_state * reply) :=
  if Z.of_nat (length l) <? 1 then Ok (s, Returns (- EINVAL))
  else if c_semopm c <? Z.of_nat (length l) then Ok (s, Returns (- E2BIG))
  else
    let i := scan_sops l in
    let '(s, error) := if i_undos i then find_alloc_undo s (c_undo c) (c_mem c) else (s, None) in
    match error with
    | Some error => Ok (s, Returns error)
    | None =>
        if deleted (sma s) then Ok (s, Returns (- EINVAL))
        else if sem_nsems (sma s) <=? i_max i then Ok (s, Returns (- EFBIG))
        else if negb (c_perm c) then Ok (s, Returns (- EACCES))
        else if negb (c_security c =? 0) then Ok (s, Returns (c_security c))
        else semop_locked fuel s q c l
    end.

(** A sleeping call that runs again: first without the lock, then with it.
    [timed_out] and [signal] are what the sleep ended with. *)
Definition semop_awake (s : sem_state) (q : Z) : option Z :=
  if status (queues s q) =? - EINTR then None else Some (status (queues s q)).

Definition semop_awake_locked (s : sem_state) (q : Z) (timed_out signal : bool) : sem_state * reply :=
  let '(s, locknum) := sem_lock s (Some (sops (queues s q))) in
  if deleted (sma s) then (sem_unlock s locknum, Returns (- EINTR))
  else
    let error := status (queues s q) in
    if negb (error =? - EINTR) then (sem_unlock s locknum, Returns error)
    else if timed_out then (sem_unlock (unlink_queue q s) locknum, Returns (- EAGAIN))
    else if signal then (sem_unlock (unlink_queue q s) locknum, Returns (- EINTR))
    else (sem_unlock s locknum, Sleeps).

Definition reset_semadj (s : sem_state) (nums : list Z) : sem_state :=
  set_undos (λ un i, if bool_decide (un ∈ list_id (sma s) ∧ i ∈ nums) then 0 else undos s un i) s.

Definition semctl_setval (fuel : nat) (s : sem_state) (c : caller) (semnum val : Z) : outcome (sem_state * Z) :=
  if (SEMVMX <? val) || (val <? 0) then Ok (s, - ERANGE)
  else if deleted (sma s) then Ok (s, - EINVAL)
  else if (semnum <? 0) || (sem_nsems (sma s) <=? semnum) then Ok (s, - EINVAL)
  else if negb (c_perm c) then Ok (s, - EACCES)
  else if negb (c_security c =? 0) then Ok (s, - EACCES)
  else
    let '(s, locknum) := sem_lock s None in
    let s := reset_semadj s [semnum] in
    let s := upd_sma (upd_sem semnum (λ m, set_sempid (c_pid c) (set_semval val m))) s in
    s ← do_smart_update fuel s None false;
    Ok (sem_unlock s locknum, 0).

Fixpoint store_values (vals : list Z) (i : Z) (p : Z) (a : sem_array) : sem_array :=
  match vals with
  | [] => a
  | v :: vals => store_values vals (i + 1) p (upd_sem i (λ m, set_sempid p (set_semval v m)) a)
  end.

(** SETALL, with the values copied from user space. *)
Definition semctl_setall (fuel : nat) (s : sem_state) (c : caller) (vals : list Z) : outcome (sem_state * Z) :=
  if deleted (sma s) then Ok (s, - EINVAL)
  else if negb (c_perm c) then Ok (s, - EACCES)
  else if negb (c_security c =? 0) then Ok (s, c_security c)
  else if negb (forallb (λ v, v <=? SEMVMX) vals) then Ok (s, - ERANGE)
  else
    let '(s, locknum) := sem_lock s None in
    let s := upd_sma (store_values vals 0 (c_pid c)) s in
    let s := reset_semadj s (all_nums s) in
    s ← do_smart_update fuel s None false;
    Ok (sem_unlock s locknum, 0).

Definition check_qop (s : sem_state) (semnum q : Z) (count_zero : bool) : Z :=
  match sops (queues s q) !! blocking (queues s q) with
  | None => 0
  | Some sop =>
      if negb (sem_num sop =? semnum) then 0
      else if count_zero && (sem_op sop =? 0) then 1
      else if negb count_zero && (sem_op sop <? 0) then 1
      else 0
  end.

Fixpoint check_qops (s : sem_state) (semnum : Z) (l : list Z) (count_zero : bool) : Z :=
  match l with [] => 0 | q :: l => check_qop s semnum q count_zero + check_qops s semnum l count_zero end.

Definition count_semcnt (s : sem_state) (semnum : Z) (count_zero : bool) : Z :=
  let simple := if count_zero then pending_const (sems (sma s) semnum) else pending_alter (sems (sma s) semnum) in
  Z.of_nat (length simple) + check_qops s semnum (sma_alter (sma s)) count_zero
  + (if count_zero then check_qops s semnum (sma_const (sma s)) count_zero else 0).

(** The commands of [semctl_main] that read one semaphore, and GETALL; the
    buffer for the values is large enough. *)
Inductive sem_cmd := GETVAL | GETPID | GETNCNT | GETZCNT.

Definition semctl_get (s : sem_state) (c : caller) (semnum : Z) (cmd : sem_cmd) : sem_state * Z :=
  if deleted (sma s) then (s, - EINVAL)
  else if negb (c_perm c) then (s, - EACCES)
  else if negb (c_security c =? 0) then (s, c_security c)
  else if (semnum <? 0) || (sem_nsems (sma s) <=? semnum) then (s, - EINVAL)
  else
    let '(s, locknum) := sem_lock s None in
    let curr := sems (sma s) semnum in
    let err := match cmd with
               | GETVAL => semval curr
               | GETPID => sempid curr
               | GETNCNT => count_semcnt s semnum false
               | GETZCNT => count_semcnt s semnum true
               end in
    (sem_unlock s locknum, err).

Definition semctl_getall (s : sem_state) (c : caller) : sem_state * Z * list Z :=
  if deleted (sma s) then (s, - EINVAL, [])
  else if negb (c_perm c) then (s, - EACCES, [])
  else if negb (c_security c =? 0) then (s, c_security c, [])
  else
    let '(s, locknum) := sem_lock s None in
    let sem_io := (λ i, semval (sems (sma s) i)) <$> all_nums s in
    (sem_unlock s locknum, 0, sem_io).

Definition get_semotime (s : sem_state) : Z :=
  let res := sem_otime (sems (sma s) 0) in
  fold_left (λ res i, let to := sem_otime (sems (sma s) i) in if res <? to then to else res) (tail (all_nums s)) res.

Fixpoint free_list (l : list Z) (s : sem_state) : sem_state :=
  match l with [] => s | q :: l => free_list l (wake_up_sem_queue_prepare q (- EIDRM) (unlink_queue q s)) end.

Fixpoint free_sems (nums : list Z) (s : sem_state) : sem_state :=
  match nums with
  | [] => s
  | i :: nums =>
      let s := free_list (pending_const (sems (sma s) i)) s in
      let s := free_list (pending_alter (sems (sma s) i)) s in
      free_sems nums (upd_sma (upd_sem i (set_sempid 0)) s)
  end.

(** IPC_RMID, under the lock of the set. *)
Definition freeary (s : sem_state) : sem_state :=
  let '(s, locknum) := sem_lock s None in
  let s := upd_sma (set_list_id []) s in
  let s := free_list (sma_const (sma s)) s in
  let s := free_list (sma_alter (sma s)) s in
  let s := free_sems (all_nums s) s in
  sem_unlock (upd_sma set_deleted s) locknum.

Fixpoint exit_loop (nums : list Z) (semadj : Z → Z) (p : Z) (a : sem_array) : sem_array :=
  match nums with
  | [] => a
  | i :: nums =>
      exit_loop nums semadj p
        (if semadj i =? 0 then a
         else upd_sem i (λ m,
           let v := semval m + semadj i in
           let v := if v <? 0 then 0 else v in
           let v := if SEMVMX <? v then SEMVMX else v in
           set_sempid p (set_semval v m)) a)
  end.

(** A round of the loop of [exit_sem]: the adjustments of [un] in this set. *)
Definition exit_sem (fuel : nat) (s : sem_state) (un p : Z) : outcome sem_state :=
  if deleted (sma s) then Ok s
  else
    let '(s, locknum) := sem_lock s None in
    if negb (bool_decide (un ∈ list_id (sma s))) then Ok (sem_unlock s locknum)
    else
      let s := upd_sma (λ a, set_list_id (unlist un (list_id a)) a) s in
      let s := upd_sma (exit_loop (all_nums s) (undos s un) p) s in
      s ← do_smart_update fuel s None true;
      Ok (sem_unlock s locknum).

(** A new set, unlocked; [used] and [semmns] are the semaphores in use and
    their limit, [mem] says whether there is memory, [security] and [addid] are
    what the security module and [ipc_addid] return. *)
Definition newary (used semmns nsems : Z) (mem : bool) (security addid time : Z) : sem_state + Z :=
  if nsems =? 0 then inr (- EINVAL)
  else if semmns <? used + nsems then inr (- ENOSPC)
  else if negb mem then inr (- ENOMEM)
  else if negb (security =? 0) then inr security
  else
    let a := mk_array false [] [] [] nsems 0 USE_GLOBAL_LOCK_HYSTERESIS (λ _, mk_sem 0 0 [] [] 0) in
    if addid <? 0 then inr addid
    else inl (sem_unlock (mk_state a (λ _, mk_queue 0 0 0 [] 0 false false) (λ _ _, 0) [] time) SEM_GLOBAL_LOCK).

End SysvSem.
