(* ===== verification/SysvSemAtomic.v ===== *)
(** * Atomicity of semaphore operations

    Both paths of [perform_atomic_semop] (ipc_sem/src/sem.c) against the
    operations executed one after another on the values and adjustments: all
    are performed, or nothing changes but [blocking]. *)

From stdpp Require Import base numbers list option functions.
From Stdlib Require Import ZArith Lia FunctionalExtensionality.
From S2P Require Import Prelude SysvSem.

Open Scope Z_scope.

Module SysvSemAtomic.
Import SysvSem.

(** ** The operations, one after another *)

Inductive sres := Done (v semadj : Z → Z) | Stopped (st : stop).

Fixpoint run_sops (l : list sembuf) (k : nat) (v semadj : Z → Z) : sres :=
  match l with
  | [] => Done v semadj
  | sop :: l =>
      let n := sem_num sop in
      let result := v n + sem_op sop in
      let adj := semadj n - sem_op sop in
      if decide (sem_op sop = 0 ∧ v n ≠ 0 ∨ result < 0) then Stopped (WouldBlock k)
      else if decide (SEMVMX < result ∨ has_flag sop SEM_UNDO = true ∧ ¬ (- SEMAEM - 1 ≤ adj ≤ SEMAEM))
      then Stopped OutOfRange
      else run_sops l (S k) (<[n := result]> v) (if has_flag sop SEM_UNDO then <[n := adj]> semadj else semadj)
  end.

(** The check of one operation, as both loops make it. *)
Definition check_sop (sop : sembuf) (k : nat) (val adj : Z) : option stop :=
  if decide (sem_op sop = 0 ∧ val ≠ 0 ∨ val + sem_op sop < 0) then Some (WouldBlock k)
  else if decide (SEMVMX < val + sem_op sop ∨ has_flag sop SEM_UNDO = true ∧ ¬ (- SEMAEM - 1 ≤ adj - sem_op sop ≤ SEMAEM))
  then Some OutOfRange else None.

Lemma check_sop_code {A} sop k val adj (block range go : A) :
  (if (sem_op sop =? 0) && negb (val =? 0) then block
   else if val + sem_op sop <? 0 then block
   else if SEMVMX <? val + sem_op sop then range
   else if has_flag sop SEM_UNDO && ((adj - sem_op sop <? - SEMAEM - 1) || (SEMAEM <? adj - sem_op sop)) then range
   else go) =
  match check_sop sop k val adj with Some (WouldBlock _) => block | Some OutOfRange => range | None => go end.
Proof.
  unfold check_sop.
  destruct (Z.eqb_spec (sem_op sop) 0), (Z.eqb_spec val 0), (Z.ltb_spec (val + sem_op sop) 0); cbn [andb negb];
    repeat case_decide; try done; try (exfalso; lia).
  all: destruct (Z.ltb_spec SEMVMX (val + sem_op sop)); try done; try (exfalso; lia).
  all: destruct (has_flag sop SEM_UNDO), (Z.ltb_spec (adj - sem_op sop) (- SEMAEM - 1)), (Z.ltb_spec SEMAEM (adj - sem_op sop));
    cbn [andb orb]; try done; exfalso; intuition lia.
Qed.

Lemma check_sop_block sop k val adj st : check_sop sop k val adj = Some st → st = WouldBlock k ∨ st = OutOfRange.
Proof. unfold check_sop. repeat case_decide; intros [= <-]; auto. Qed.

Lemma run_sops_cons sop l k v semadj :
  run_sops (sop :: l) k v semadj =
    match check_sop sop k (v (sem_num sop)) (semadj (sem_num sop)) with
    | Some st => Stopped st
    | None => run_sops l (S k) (<[sem_num sop := v (sem_num sop) + sem_op sop]> v)
                (if has_flag sop SEM_UNDO then <[sem_num sop := semadj (sem_num sop) - sem_op sop]> semadj else semadj)
    end.
Proof. unfold check_sop. cbn. by repeat case_decide. Qed.

(** The values in an array of semaphores. *)
Definition values (f : Z → sem) : Z → Z := λ i, semval (f i).

Lemma values_set f n x : values (<[n := set_semval x (f n)]> f) = <[n := x]> (values f).
Proof.
  apply functional_extensionality. intros i. unfold values. destruct (decide (i = n)) as [->|].
  - by rewrite !fn_lookup_insert.
  - by rewrite !fn_lookup_insert_ne.
Qed.

(** Semaphores that differ in values and last process only. *)
Definition same_queues (f g : Z → sem) : Prop :=
  ∀ i, pending_alter (f i) = pending_alter (g i) ∧ pending_const (f i) = pending_const (g i) ∧ sem_otime (f i) = sem_otime (g i).

Lemma same_queues_insert f g n m :
  same_queues f g → pending_alter m = pending_alter (f n) → pending_const m = pending_const (f n) →
  sem_otime m = sem_otime (f n) → same_queues (<[n := m]> f) g.
Proof.
  intros H H1 H2 H3 i. destruct (decide (i = n)) as [->|].
  - rewrite fn_lookup_insert, H1, H2, H3. apply H.
  - rewrite fn_lookup_insert_ne by done. apply H.
Qed.

Lemma same_queues_refl f : same_queues f f.
Proof. by intros i. Qed.

(** ** The slow path *)

Lemma slow_loop_done l : ∀ acc k f semadj v' a',
  run_sops l k (values f) semadj = Done v' a' →
  ∃ f', slow_loop l acc k f semadj = (f', a', rev l ++ acc, None) ∧ values f' = v' ∧ same_queues f' f.
Proof.
  induction l as [|sop l IH]; intros acc k f semadj v' a'.
  { intros [= <- <-]. by exists f. }
  rewrite run_sops_cons. cbn [slow_loop].
  rewrite (check_sop_code sop k (semval (f (sem_num sop))) (semadj (sem_num sop))).
  change (values f (sem_num sop)) with (semval (f (sem_num sop))).
  destruct (check_sop _ _ _ _) as [st|]; [done|]. rewrite <- values_set. intros Hr.
  destruct (IH (sop :: acc) (S k) _ _ _ _ Hr) as (f' & E & Hv & Hq). exists f'. rewrite E.
  split; [cbn; by rewrite <- app_assoc|]. split; [done|]. intros i.
  destruct (Hq i) as (-> & -> & ->). revert i. apply same_queues_insert; [apply same_queues_refl|done..].
Qed.

(** A stop leaves something that [undo_loop] takes back. *)
Lemma slow_loop_stopped l : ∀ acc k f semadj st,
  run_sops l k (values f) semadj = Stopped st →
  ∃ f' a' acc', slow_loop l acc k f semadj = (f', a', acc', Some st) ∧
    undo_loop acc' f' a' = undo_loop acc f semadj.
Proof.
  induction l as [|sop l IH]; intros acc k f semadj st; [done|].
  rewrite run_sops_cons. cbn [slow_loop].
  rewrite (check_sop_code sop k (semval (f (sem_num sop))) (semadj (sem_num sop))).
  change (values f (sem_num sop)) with (semval (f (sem_num sop))).
  destruct (check_sop _ _ _ _) as [st'|] eqn:Ec.
  - intros [= <-]. apply check_sop_block in Ec as [->| ->]; eexists _, _, _; by split.
  - rewrite <- values_set. intros Hr. destruct (IH (sop :: acc) (S k) _ _ _ Hr) as (f' & a' & acc' & E & Hu).
    eexists _, _, _. split; [exact E|]. rewrite Hu. cbn [undo_loop]. f_equal.
    + apply functional_extensionality. intros i. destruct (decide (i = sem_num sop)) as [->|]; rewrite ?fn_lookup_insert.
      * cbn. rewrite Z.add_simpl_r. by destruct (f (sem_num sop)).
      * by rewrite !fn_lookup_insert_ne.
    + destruct (has_flag sop SEM_UNDO); [|done]. apply functional_extensionality. intros i.
      destruct (decide (i = sem_num sop)) as [->|]; [rewrite !fn_lookup_insert; lia|by rewrite !fn_lookup_insert_ne].
Qed.

Lemma update_pids_spec l p f : values (update_pids l p f) = values f ∧ same_queues (update_pids l p f) f.
Proof.
  revert f. induction l as [|sop l IH]; intros f; cbn; [by split; [|apply same_queues_refl]|].
  destruct (IH (<[sem_num sop := set_sempid p (f (sem_num sop))]> f)) as [-> Hq]. split.
  - apply functional_extensionality. intros i. unfold values. destruct (decide (i = sem_num sop)) as [->|].
    + by rewrite fn_lookup_insert.
    + by rewrite fn_lookup_insert_ne.
  - intros i. destruct (Hq i) as (-> & -> & ->). revert i. apply same_queues_insert; [apply same_queues_refl|done..].
Qed.

(** ** The fast path *)

(** No operation follows one that alters the same semaphore. *)
Fixpoint fresh_sops (seen : list Z) (l : list sembuf) : Prop :=
  match l with
  | [] => True
  | sop :: l => (sem_num sop ∉ seen) ∧ fresh_sops (if decide (sem_op sop = 0) then seen else sem_num sop :: seen) l
  end.

(** The scan looks at the values before all operations, the execution at the
    present ones; they agree where nothing was altered. *)
Lemma scan_loop_spec l : ∀ k f semadj v a seen,
  fresh_sops seen l → (∀ i, i ∉ seen → v i = semval (f i) ∧ a i = semadj i) →
  scan_loop l k f semadj = match run_sops l k v a with Done _ _ => None | Stopped st => Some st end.
Proof.
  induction l as [|sop l IH]; intros k f semadj v a seen; [done|]. intros [Hn Hl] Hag.
  rewrite run_sops_cons. cbn [scan_loop].
  rewrite (check_sop_code sop k (semval (f (sem_num sop))) (semadj (sem_num sop))).
  destruct (Hag _ Hn) as [-> ->]. destruct (check_sop _ _ _ _) as [st|] eqn:Ec; [by apply check_sop_block in Ec as [->| ->]|].
  apply (IH _ _ _ _ _ _ Hl). intros i Hi. destruct (decide (i = sem_num sop)) as [->|Hne].
  - case_decide as Hz; [|by destruct Hi; left]. rewrite Hz.
    rewrite fn_lookup_insert. destruct (has_flag sop SEM_UNDO); rewrite ?fn_lookup_insert; split; try lia.
    by apply Hag.
  - rewrite fn_lookup_insert_ne by done.
    assert (i ∉ seen) as Hs by (case_decide; [done|]; by apply not_elem_of_cons in Hi as [_ ?]).
    split; [by apply Hag|]. destruct (has_flag sop SEM_UNDO); [rewrite fn_lookup_insert_ne by done|]; by apply Hag.
Qed.

Lemma apply_loop_spec l p : ∀ k f semadj v' a',
  run_sops l k (values f) semadj = Done v' a' →
  ∃ f', apply_loop l p f semadj = (f', a') ∧ values f' = v' ∧ same_queues f' f.
Proof.
  induction l as [|sop l IH]; intros k f semadj v' a'.
  { intros [= <- <-]. by exists f. }
  rewrite run_sops_cons. cbn [apply_loop]. destruct (check_sop _ _ _ _) as [st|]; [done|].
  set (f1 := <[sem_num sop := set_sempid p (set_semval (semval (f (sem_num sop)) + sem_op sop) (f (sem_num sop)))]> f).
  assert (values f1 = <[sem_num sop := values f (sem_num sop) + sem_op sop]> (values f)) as Ev.
  { apply functional_extensionality. intros i. unfold values, f1. destruct (decide (i = sem_num sop)) as [->|].
    - by rewrite !fn_lookup_insert.
    - by rewrite !fn_lookup_insert_ne. }
  rewrite <- Ev. intros Hr. destruct (IH (S k) f1 _ _ _ Hr) as (f' & E & Hv & Hq). exists f'.
  split; [done|]. split; [done|]. intros i. destruct (Hq i) as (-> & -> & ->). revert i.
  apply same_queues_insert; [apply same_queues_refl|done..].
Qed.

(** The flag computed from the operations modulo 64 is not missing. *)
Lemma sops_loop_dup l : ∀ i seen,
  (∀ n, n ∈ seen → Z.testbit (i_dup i) (n mod 64) = true) → i_dupsop (sops_loop l i) = false →
  i_dupsop i = false ∧ fresh_sops seen l.
Proof.
  induction l as [|sop l IH]; intros i seen Hs Hd; [done|]. cbn [sops_loop] in Hd.
  set (mask := u64 (Z.shiftl 1 (sem_num sop mod 64))) in Hd.
  pose proof (Z.mod_pos_bound (sem_num sop) 64 ltac:(lia)) as Hm.
  assert (mask = 2 ^ (sem_num sop mod 64)) as Em.
  { unfold mask. rewrite Z.shiftl_1_l. apply u64_id. split; [apply Z.pow_nonneg; lia|]. apply Z.pow_lt_mono_r; lia. }
  apply (IH _ (if decide (sem_op sop = 0) then seen else sem_num sop :: seen)) in Hd as [Hd Hf].
  - cbn in Hd. apply orb_false_iff in Hd as [Hd Hx]. split; [done|]. split; [|done]. intros Hin.
    apply negb_false_iff, Z.eqb_eq in Hx. apply (f_equal (λ z, Z.testbit z (sem_num sop mod 64))) in Hx.
    rewrite Z.land_spec, (Hs _ Hin), Em, Z.pow2_bits_true, Z.bits_0 in Hx by lia. done.
  - intros n Hn. cbn. destruct (Z.eqb_spec (sem_op sop) 0) as [Hz|Hz]; cbn [negb].
    + rewrite decide_True in Hn by done. by apply Hs.
    + rewrite decide_False in Hn by done. rewrite Z.lor_spec. apply elem_of_cons in Hn as [->|Hn].
      * rewrite Em, Z.pow2_bits_true by lia. apply orb_true_r.
      * by rewrite (Hs _ Hn).
Qed.

Lemma scan_sops_dup l : i_dupsop (scan_sops l) = false → fresh_sops [] l.
Proof. intros H. by apply (sops_loop_dup l (mk_info 0 false false false 0) []) in H as [_ ?]; [|intros n Hn%elem_of_nil]. Qed.

(** ** Both paths *)

Definition outcome_of (s : sem_state) (q : Z) : sres :=
  run_sops (sops (queues s q)) 0 (values (sems (sma s))) (undos s (undo (queues s q))).

Lemma insert_same {A} (f : Z → A) n : <[n := f n]> f = f.
Proof.
  apply functional_extensionality. intros i. destruct (decide (i = n)) as [->|]; [by rewrite fn_lookup_insert|by rewrite fn_lookup_insert_ne].
Qed.

Lemma put_values_same s un : put_values (sems (sma s)) un (undos s un) s = s.
Proof. unfold put_values. rewrite insert_same. by destruct s as [[] ? ? ? ?]. Qed.

(** All operations are performed, in the order given, or none is. *)
Definition atomic_result (s : sem_state) (q : Z) (r : sem_state * Z) : Prop :=
  match outcome_of s q with
  | Done v' a' => ∃ f', r = (put_values f' (undo (queues s q)) a' s, 0) ∧ values f' = v' ∧ same_queues f' (sems (sma s))
  | Stopped st => r = (note_blocking q st s, stop_code (sops (queues s q)) st)
  end.

Lemma perform_slow_ok s q : atomic_result s q (perform_atomic_semop_slow s q).
Proof.
  unfold atomic_result, outcome_of, perform_atomic_semop_slow. destruct (run_sops _ _ _ _) as [v' a'|st] eqn:Er.
  - destruct (slow_loop_done _ [] _ _ _ _ _ Er) as (f' & E & Hv & Hq). rewrite E, app_nil_r.
    destruct (update_pids_spec (rev (sops (queues s q))) (pid (queues s q)) f') as [Hv' Hq'].
    eexists. split; [done|]. split; [by rewrite Hv'|]. intros i. destruct (Hq' i) as (-> & -> & ->). apply Hq.
  - destruct (slow_loop_stopped _ [] _ _ _ _ Er) as (f' & a' & acc & E & Hu). rewrite E, Hu. cbn [undo_loop]. by rewrite put_values_same.
Qed.

Lemma perform_ok s q :
  (dupsop (queues s q) = false → fresh_sops [] (sops (queues s q))) → atomic_result s q (perform_atomic_semop s q).
Proof.
  intros Hdup. unfold perform_atomic_semop. destruct (dupsop (queues s q)); [apply perform_slow_ok|].
  unfold atomic_result, outcome_of.
  rewrite (scan_loop_spec _ 0 _ _ (values (sems (sma s))) (undos s (undo (queues s q))) []) by (by auto).
  destruct (run_sops _ _ _ _) as [v' a'|st] eqn:Er; [|done].
  destruct (apply_loop_spec _ (pid (queues s q)) _ _ _ _ _ Er) as (f' & E & Hv & Hq). rewrite E. by exists f'.
Qed.

End SysvSemAtomic.
