(* ===== verification/SysvSemInv.v ===== *)
(** * Invariant of a semaphore set

    The shape of the queues of a set (ipc_sem/src/sem.c), and what it means to
    execute waiting operations one after another and to take them off their
    queues. *)

From stdpp Require Import base numbers list option functions.
From Stdlib Require Import ZArith Lia FunctionalExtensionality.
From S2P Require Import Prelude SysvSem SysvSemAtomic.

Open Scope Z_scope.

Module SysvSemInv.
Import SysvSem SysvSemAtomic.

(** ** The shape of the queues *)

Definition vals (s : sem_state) : Z → Z := values (sems (sma s)).

(** The first operation; a simple request has no other. *)
Definition op1 (Q : sem_queue) : Z := match sops Q with sop :: _ => sem_op sop | [] => 0 end.
Definition num1 (Q : sem_queue) : Z := match sops Q with sop :: _ => sem_num sop | [] => 0 end.

Definition complex (Q : sem_queue) : Prop := 1 < nsops Q.

#[export] Instance complex_dec Q : Decision (complex Q).
Proof. unfold complex. apply _. Defined.

Definition all_zero (l : list sembuf) : Prop := Forall (λ sop, sem_op sop = 0) l.

(** A request as [do_semtimedop] builds it. *)
Record good_queue (n : Z) (Q : sem_queue) : Prop := {
  gq_some : sops Q ≠ [];
  gq_range : Forall (λ sop, 0 ≤ sem_num sop < n) (sops Q);
  gq_alter : if alter Q then ¬ all_zero (sops Q) else all_zero (sops Q);
  gq_dup : dupsop Q = false → fresh_sops [] (sops Q);
  gq_status : status Q = - EINTR
}.

Definition pending (a : sem_array) (q : Z) : Prop :=
  q ∈ sma_alter a ∨ q ∈ sma_const a ∨ (∃ i, q ∈ pending_alter (sems a i)) ∨ (∃ i, q ∈ pending_const (sems a i)).

Record shape (s : sem_state) : Prop := {
  sh_val : ∀ i, 0 ≤ vals s i ≤ SEMVMX;
  sh_adj : ∀ un i, - SEMAEM - 1 ≤ undos s un i ≤ SEMAEM;
  sh_good : ∀ q, pending (sma s) q → good_queue (sem_nsems (sma s)) (queues s q);
  sh_alter1 : ∀ i q, q ∈ pending_alter (sems (sma s) i) →
    alter (queues s q) = true ∧ ¬ complex (queues s q) ∧ num1 (queues s q) = i ∧ op1 (queues s q) < 0;
  sh_const1 : ∀ i q, q ∈ pending_const (sems (sma s) i) →
    alter (queues s q) = false ∧ ¬ complex (queues s q) ∧ num1 (queues s q) = i;
  sh_alter : ∀ q, q ∈ sma_alter (sma s) →
    alter (queues s q) = true ∧ (complex (queues s q) ∨ op1 (queues s q) < 0);
  sh_const : ∀ q, q ∈ sma_const (sma s) → alter (queues s q) = false ∧ complex (queues s q);
  sh_nodup : NoDup (sma_alter (sma s)) ∧ NoDup (sma_const (sma s)) ∧
    (∀ i, NoDup (pending_alter (sems (sma s) i))) ∧ (∀ i, NoDup (pending_const (sems (sma s) i)));
  sh_split : sma_alter (sma s) ≠ [] → ∀ i, pending_alter (sems (sma s) i) = [];
  sh_count : complex_count (sma s) =
    Z.of_nat (length (filter (λ q, complex (queues s q)) (sma_alter (sma s))) + length (sma_const (sma s)));
  sh_merge : complex_count (sma s) ≠ 0 → ∀ i, pending_alter (sems (sma s) i) = [];
  sh_lock : 0 ≤ use_global_lock (sma s) ≤ USE_GLOBAL_LOCK_HYSTERESIS ∧
    (complex_count (sma s) ≠ 0 → 0 < use_global_lock (sma s))
}.

Lemma simple_queue n Q : good_queue n Q → ¬ complex Q → ∃ sop, sops Q = [sop] ∧ op1 Q = sem_op sop ∧ num1 Q = sem_num sop.
Proof.
  intros H Hc. unfold complex, nsops in Hc. pose proof (gq_some _ _ H). unfold op1, num1.
  destruct (sops Q) as [|sop [|sop' l]]; [done| |cbn in Hc; lia]. by exists sop.
Qed.

(** ** Executing requests *)

(** The operations of a request and its undo structure. *)
Definition req (s : sem_state) (q : Z) : list sembuf * Z := (sops (queues s q), undo (queues s q)).

(** Requests executed one after another, each at once: [(q, 0)] is a request
    that was performed, [(q, e)] one that failed and changed nothing. *)
Inductive serial (r : Z → list sembuf * Z) : (Z → Z) → (Z → Z → Z) → list (Z * Z) → (Z → Z) → (Z → Z → Z) → Prop :=
  | serial_nil v a : serial r v a [] v a
  | serial_done q v a v1 a1 ev v' a' :
      run_sops (r q).1 0 v (a (r q).2) = Done v1 a1 → serial r v1 (<[(r q).2 := a1]> a) ev v' a' →
      serial r v a ((q, 0) :: ev) v' a'
  | serial_fail q st v a ev v' a' :
      run_sops (r q).1 0 v (a (r q).2) = Stopped st → stop_code (r q).1 st < 0 → serial r v a ev v' a' →
      serial r v a ((q, stop_code (r q).1 st) :: ev) v' a'.

Lemma serial_app r v a ev1 v1 a1 ev2 v2 a2 :
  serial r v a ev1 v1 a1 → serial r v1 a1 ev2 v2 a2 → serial r v a (ev1 ++ ev2) v2 a2.
Proof.
  induction 1 as [|q v a v1 a1 ev v' a' Hr _ IH|q st v a ev v' a' Hr Hc _ IH]; intros H2; [done| |].
  - eapply serial_done; [done|]. by apply IH.
  - eapply serial_fail; [done|done|]. by apply IH.
Qed.

(** Values and adjustments stay in range. *)
Definition in_range (v : Z → Z) (a : Z → Z) : Prop :=
  (∀ i, 0 ≤ v i ≤ SEMVMX) ∧ (∀ i, - SEMAEM - 1 ≤ a i ≤ SEMAEM).

Lemma run_sops_range l : ∀ k v a v' a', in_range v a → run_sops l k v a = Done v' a' → in_range v' a'.
Proof.
  induction l as [|sop l IH]; intros k v a v' a' [Hv Ha]; [by intros [= <- <-]|].
  cbn. case_decide as Hb; [done|]. case_decide as Hr; [done|]. apply Decidable.not_or in Hb as [_ Hb], Hr as [Hr Hu].
  apply IH. split.
  - intros i. destruct (decide (i = sem_num sop)) as [->|]; [rewrite fn_lookup_insert; lia|by rewrite fn_lookup_insert_ne].
  - intros i. destruct (has_flag sop SEM_UNDO); [|done].
    destruct (decide (i = sem_num sop)) as [->|]; [rewrite fn_lookup_insert|by rewrite fn_lookup_insert_ne].
    destruct (decide (- SEMAEM - 1 ≤ a (sem_num sop) - sem_op sop ≤ SEMAEM)); [done|]. by destruct Hu.
Qed.

(** Requests that only wait for zero change nothing. *)
Lemma run_sops_zero l : ∀ k v a, all_zero l → in_range v a →
  run_sops l k v a = Done v a ∧ Forall (λ sop, v (sem_num sop) = 0) l ∨
  (∃ j, run_sops l k v a = Stopped (WouldBlock j)) ∧ Exists (λ sop, v (sem_num sop) ≠ 0) l.
Proof.
  induction l as [|sop l IH]; intros k v a Hz Hr; [by left|]. apply list.Forall_cons in Hz as [Hz Hzl].
  cbn. rewrite Hz, Z.add_0_r, Z.sub_0_r. destruct Hr as [Hv Ha].
  destruct (decide (v (sem_num sop) = 0)) as [E|E].
  - pose proof (Ha (sem_num sop)). pose proof (Hv (sem_num sop)).
    rewrite decide_False by (intros [[_ ?]|?]; lia). rewrite decide_False by (rewrite E; unfold SEMVMX; intros [?|[_ Hn]]; [lia|by apply Hn]).
    rewrite !insert_same. destruct (has_flag sop SEM_UNDO).
    all: destruct (IH (S k) v a Hzl (conj Hv Ha)) as [[Hd Hall]|[[j Hj] Hex]]; [left; split; [done|by constructor]|right].
    all: split; [by exists j|by apply Exists_cons_tl].
  - rewrite decide_True by (by left). right. split; [by exists k|by apply Exists_cons_hd].
Qed.

(** ** Taking a request off its queue *)

Definition dropped (E : list Z) (l : list Z) : list Z := filter (λ q, q ∉ E) l.

Lemma dropped_app E1 E2 l : dropped E2 (dropped E1 l) = dropped (E1 ++ E2) l.
Proof.
  unfold dropped. rewrite list_filter_filter. apply list_filter_iff. intros q. rewrite elem_of_app. tauto.
Qed.

Lemma dropped_nil l : dropped [] l = l.
Proof.
  unfold dropped. induction l as [|q l IH]; [done|]. rewrite filter_cons_True by apply not_elem_of_nil. by rewrite IH.
Qed.

Lemma elem_dropped E l q : q ∈ dropped E l ↔ (q ∉ E) ∧ q ∈ l.
Proof. unfold dropped. by rewrite list_elem_of_filter. Qed.

Lemma unlist_dropped q l : unlist q l = dropped [q] l.
Proof. unfold unlist, dropped. apply list_filter_iff. intros x. rewrite list_elem_of_singleton. tauto. Qed.

Lemma elem_unlist q l x : x ∈ unlist q l ↔ x ≠ q ∧ x ∈ l.
Proof. rewrite unlist_dropped, elem_dropped, list_elem_of_singleton. tauto. Qed.

(** What neither waking nor blocking changes. *)
Record fixed (s s' : sem_state) : Prop := {
  fx_req : ∀ q, req s' q = req s q;
  fx_flags : ∀ q, alter (queues s' q) = alter (queues s q) ∧ dupsop (queues s' q) = dupsop (queues s q);
  fx_array : sem_nsems (sma s') = sem_nsems (sma s) ∧ list_id (sma s') = list_id (sma s) ∧
    deleted (sma s') = deleted (sma s) ∧ use_global_lock (sma s') = use_global_lock (sma s) ∧ now s' = now s
}.

Lemma fixed_refl s : fixed s s.
Proof. by split. Qed.

Lemma fixed_trans s1 s2 s3 : fixed s1 s2 → fixed s2 s3 → fixed s1 s3.
Proof.
  intros [R1 F1 A1] [R2 F2 A2]. split.
  - intros q. by rewrite R2.
  - intros q. destruct (F2 q) as [-> ->]. apply F1.
  - destruct A1 as (? & ? & ? & ? & ?), A2 as (? & ? & ? & ? & ?). split_and!; congruence.
Qed.

(** The queues without the requests [E]. *)
Definition without (E : list Z) (a a' : sem_array) : Prop :=
  sma_alter a' = dropped E (sma_alter a) ∧ sma_const a' = dropped E (sma_const a) ∧
  ∀ i, pending_alter (sems a' i) = dropped E (pending_alter (sems a i)) ∧
       pending_const (sems a' i) = dropped E (pending_const (sems a i)).

Lemma without_nil a : without [] a a.
Proof. split; [by rewrite dropped_nil|]. split; [by rewrite dropped_nil|]. intros i. by rewrite !dropped_nil. Qed.

Lemma without_app E1 E2 a1 a2 a3 : without E1 a1 a2 → without E2 a2 a3 → without (E1 ++ E2) a1 a3.
Proof.
  intros (A1 & C1 & S1) (A2 & C2 & S2). split; [by rewrite A2, A1, dropped_app|]. split; [by rewrite C2, C1, dropped_app|].
  intros i. destruct (S1 i) as [H1 H2], (S2 i) as [H3 H4]. by rewrite H3, H4, H1, H2, !dropped_app.
Qed.

Lemma without_pending E a a' q : without E a a' → pending a' q ↔ (q ∉ E) ∧ pending a q.
Proof.
  intros (A & C & S). unfold pending. rewrite A, C, !elem_dropped. split.
  - intros [?|[?|[[i Hi]|[i Hi]]]]; [tauto|tauto| |].
    + rewrite (proj1 (S i)), elem_dropped in Hi. split; [tauto|]. right; right; left. exists i. tauto.
    + rewrite (proj2 (S i)), elem_dropped in Hi. split; [tauto|]. right; right; right. exists i. tauto.
  - intros [Hq [?|[?|[[i Hi]|[i Hi]]]]]; [tauto|tauto| |].
    + right; right; left. exists i. rewrite (proj1 (S i)), elem_dropped. tauto.
    + right; right; right. exists i. rewrite (proj2 (S i)), elem_dropped. tauto.
Qed.

End SysvSemInv.
