(* ===== verification/SysvSemWake.v ===== *)
(** * Waking waiting operations

    The requests that [wake_const_ops], [do_smart_wakeup_zero] and
    [update_queue] (ipc_sem/src/sem.c) complete are executed one after another,
    and keep the shape of the set; what is known of those that remain. *)

From stdpp Require Import base numbers list option functions.
From Stdlib Require Import ZArith Lia FunctionalExtensionality.
From S2P Require Import Prelude SysvSem SysvSemAtomic SysvSemInv.

Open Scope Z_scope.

Module SysvSemWake.
Import SysvSem SysvSemAtomic SysvSemInv.

(** ** One request *)

(** [q] has been executed with result [e] and is off its queue. *)
Record executed (s s' : sem_state) (q e : Z) : Prop := {
  ex_fixed : fixed s s';
  ex_serial : serial (req s) (vals s) (undos s) [(q, e)] (vals s') (undos s');
  ex_without : without [q] (sma s) (sma s');
  ex_status : ∀ x, status (queues s' x) = status (queues s x);
  ex_wake : wake_q s' = wake_q s;
  ex_count : complex_count (sma s') = complex_count (sma s) - (if decide (complex (queues s q)) then 1 else 0)
}.

(** The requests of [ev] have been executed in this order, and woken. *)
Record served (s s' : sem_state) (ev : list (Z * Z)) : Prop := {
  sv_fixed : fixed s s';
  sv_serial : serial (req s) (vals s) (undos s) ev (vals s') (undos s');
  sv_without : without ev.*1 (sma s) (sma s');
  sv_status : ∀ x, x ∉ ev.*1 → status (queues s' x) = status (queues s x);
  sv_result : ∀ q e, (q, e) ∈ ev → status (queues s' q) = e;
  sv_wake : wake_q s' ≡ₚ wake_q s ++ ev;
  sv_nodup : NoDup ev.*1;
  sv_pending : ∀ q, q ∈ ev.*1 → pending (sma s) q
}.

Lemma serial_ext r r' v a ev v' a' : (∀ q, r' q = r q) → serial r v a ev v' a' → serial r' v a ev v' a'.
Proof. intros E H. by replace r' with r by (apply functional_extensionality; congruence). Qed.

Lemma served_refl s : served s s [].
Proof.
  split; [apply fixed_refl|constructor|apply without_nil|done| |by rewrite app_nil_r|constructor|].
  - intros q e ?%elem_of_nil. done.
  - intros q ?%elem_of_nil. done.
Qed.

Lemma served_trans s1 s2 s3 e1 e2 : served s1 s2 e1 → served s2 s3 e2 → served s1 s3 (e1 ++ e2).
Proof.
  intros S1 S2.
  assert (∀ q, q ∈ e2.*1 → (q ∉ e1.*1) ∧ pending (sma s1) q) as Hd.
  { intros q Hq. apply (without_pending _ _ _ _ (sv_without _ _ _ S1)). by apply (sv_pending _ _ _ S2). }
  split.
  - eapply fixed_trans; [apply S1|apply S2].
  - eapply serial_app; [apply S1|]. eapply serial_ext; [|apply S2]. intros q. symmetry. apply (fx_req _ _ (sv_fixed _ _ _ S1)).
  - rewrite fmap_app. eapply without_app; [apply S1|apply S2].
  - intros x. rewrite fmap_app, elem_of_app. intros Hx. rewrite (sv_status _ _ _ S2), (sv_status _ _ _ S1) by tauto. done.
  - intros q e. rewrite elem_of_app. intros [He|He]; [|by apply (sv_result _ _ _ S2)].
    rewrite (sv_status _ _ _ S2); [by apply (sv_result _ _ _ S1)|]. intros Hq.
    apply Hd in Hq as [Hq _]. apply Hq. by apply (list_elem_of_fmap_2 fst) in He.
  - rewrite (sv_wake _ _ _ S2), (sv_wake _ _ _ S1). by rewrite app_assoc.
  - rewrite fmap_app. apply list.NoDup_app. split; [apply S1|]. split; [|apply S2]. intros q Hq1 Hq2. by apply Hd in Hq2 as [? _].
  - intros q. rewrite fmap_app, elem_of_app. intros [Hq|Hq]; [by apply (sv_pending _ _ _ S1)|by apply Hd].
Qed.

Lemma note_blocking_queue q st s x :
  sops (queues (note_blocking q st s) x) = sops (queues s x) ∧ undo (queues (note_blocking q st s) x) = undo (queues s x) ∧
  alter (queues (note_blocking q st s) x) = alter (queues s x) ∧ dupsop (queues (note_blocking q st s) x) = dupsop (queues s x) ∧
  status (queues (note_blocking q st s) x) = status (queues s x).
Proof.
  destruct st; cbn; [|done]. destruct (decide (x = q)) as [->|]; [by rewrite fn_lookup_insert|by rewrite fn_lookup_insert_ne].
Qed.

Lemma note_blocking_rest q st s :
  sma (note_blocking q st s) = sma s ∧ undos (note_blocking q st s) = undos s ∧ wake_q (note_blocking q st s) = wake_q s ∧
  now (note_blocking q st s) = now s.
Proof. by destruct st. Qed.

Lemma note_blocking_fixed q st s : fixed s (note_blocking q st s).
Proof.
  destruct (note_blocking_rest q st s) as (Em & _ & _ & En). split.
  - intros x. unfold req. by destruct (note_blocking_queue q st s x) as (-> & -> & _).
  - intros x. by destruct (note_blocking_queue q st s x) as (_ & _ & -> & -> & _).
  - by rewrite Em, En.
Qed.

Lemma note_blocking_served q st s : served s (note_blocking q st s) [].
Proof.
  destruct (note_blocking_rest q st s) as (Em & Eu & Ew & En).
  split; rewrite ?Em, ?Eu, ?Ew.
  - apply note_blocking_fixed.
  - unfold vals. rewrite Em. constructor.
  - apply without_nil.
  - intros x _. apply note_blocking_queue.
  - intros x e ?%elem_of_nil. done.
  - by rewrite app_nil_r.
  - constructor.
  - intros x ?%elem_of_nil. done.
Qed.

Lemma unlink_queue_spec q s :
  queues (unlink_queue q s) = queues s ∧ undos (unlink_queue q s) = undos s ∧ wake_q (unlink_queue q s) = wake_q s ∧
  vals (unlink_queue q s) = vals s ∧ fixed s (unlink_queue q s) ∧ without [q] (sma s) (sma (unlink_queue q s)) ∧
  complex_count (sma (unlink_queue q s)) = complex_count (sma s) - (if decide (complex (queues s q)) then 1 else 0).
Proof.
  unfold unlink_queue, complex. change (queues (upd_sma (list_del q) s) q) with (queues s q).
  destruct (Z.ltb_spec 1 (nsops (queues s q))) as [Hc|Hc]; [rewrite decide_True by done|rewrite decide_False by lia];
    (split_and!; [done|done|done|done|done| |cbn; lia]);
    (split; [apply unlist_dropped|]); (split; [apply unlist_dropped|]); intros i; cbn; by rewrite !unlist_dropped.
Qed.

Lemma fixed_queue s s' q : fixed s s' →
  sops (queues s' q) = sops (queues s q) ∧ undo (queues s' q) = undo (queues s q) ∧ op1 (queues s' q) = op1 (queues s q) ∧
  num1 (queues s' q) = num1 (queues s q) ∧ (complex (queues s' q) ↔ complex (queues s q)).
Proof.
  intros F. pose proof (fx_req _ _ F q) as E. unfold req in E. injection E as Es Eu.
  unfold op1, num1, complex, nsops. by rewrite Es, Eu.
Qed.

Lemma executed_unlink s s' q e :
  fixed s s' → serial (req s) (vals s) (undos s) [(q, e)] (vals s') (undos s') → without [] (sma s) (sma s') →
  (∀ x, status (queues s' x) = status (queues s x)) → wake_q s' = wake_q s → complex_count (sma s') = complex_count (sma s) →
  executed s (unlink_queue q s') q e.
Proof.
  intros F S W T K C. destruct (unlink_queue_spec q s') as (Eq & Eu & Ew & Ev & F' & W' & C').
  split.
  - by eapply fixed_trans.
  - by rewrite Ev, Eu.
  - change [q] with ([] ++ [q]). by eapply without_app.
  - intros x. by rewrite Eq.
  - by rewrite Ew.
  - rewrite C', C. f_equal. apply decide_ext. by apply fixed_queue.
Qed.

(** [perform_atomic_semop] of a waiting request: it has to wait on, or it is
    executed. *)
Lemma perform_cases s q :
  good_queue (sem_nsems (sma s)) (queues s q) →
  (∃ k, perform_atomic_semop s q = (note_blocking q (WouldBlock k) s, 1) ∧ outcome_of s q = Stopped (WouldBlock k)) ∨
  (∃ s' e, perform_atomic_semop s q = (s', e) ∧ e ≤ 0 ∧ executed s (unlink_queue q s') q e ∧
     (e ≠ 0 → vals s' = vals s ∧ undos s' = undos s) ∧ (e = 0 ↔ ∃ v a, outcome_of s q = Done v a)).
Proof.
  intros Hg. pose proof (perform_ok s q (gq_dup _ _ Hg)) as Hp. unfold atomic_result in Hp. destruct (outcome_of s q) as [v' a'|st] eqn:Eo.
  - right. destruct Hp as (f' & E & Hv & Hq). eexists _, 0. split; [exact E|]. split; [lia|]. split; [|split; [done|by split; [eauto|]]].
    apply executed_unlink.
    + by split.
    + eapply serial_done; [exact Eo|]. unfold vals. cbn. rewrite Hv. constructor.
    + split; [by rewrite dropped_nil|]. split; [by rewrite dropped_nil|]. intros i. cbn. destruct (Hq i) as (-> & -> & _). by rewrite !dropped_nil.
    + done.
    + done.
    + done.
  - destruct (note_blocking_rest q st s) as (Em & Eu & Ew & En).
    destruct (decide (stop_code (sops (queues s q)) st = 1)) as [E1|E1].
    + left. destruct st as [k|]; [|done]. exists k. by rewrite Hp, E1.
    + right. assert (stop_code (sops (queues s q)) st < 0) as Hneg.
      { destruct st as [k|]; cbn in *; [|done]. destruct (sops (queues s q) !! k) as [sop|]; [|done]. by destruct (has_flag sop IPC_NOWAIT). }
      eexists _, _. split; [exact Hp|]. split; [lia|]. split; [|split].
      * apply executed_unlink.
        -- apply note_blocking_fixed.
        -- unfold vals. rewrite Em, Eu. eapply serial_fail; [exact Eo|done|constructor].
        -- rewrite Em. apply without_nil.
        -- intros x. apply note_blocking_queue.
        -- done.
        -- by rewrite Em.
      * intros _. unfold vals. by rewrite Em.
      * split; [lia|]. intros (v & a & ?). done.
Qed.

(** ** The shape is kept *)

Lemma good_queue_fixed n s s' q :
  fixed s s' → status (queues s' q) = status (queues s q) → good_queue n (queues s q) → good_queue n (queues s' q).
Proof.
  intros F T [H1 H2 H3 H4 H5]. destruct (fixed_queue s s' q F) as (Es & _). destruct (fx_flags _ _ F q) as [Ea Ed].
  split; rewrite ?Es, ?Ea, ?Ed, ?T; done.
Qed.

Lemma serial_range r v a ev v' a' :
  serial r v a ev v' a' → (∀ i, 0 ≤ v i ≤ SEMVMX) → (∀ un i, - SEMAEM - 1 ≤ a un i ≤ SEMAEM) →
  (∀ i, 0 ≤ v' i ≤ SEMVMX) ∧ (∀ un i, - SEMAEM - 1 ≤ a' un i ≤ SEMAEM).
Proof.
  induction 1 as [|q v a v1 a1 ev v' a' Hr _ IH|q st v a ev v' a' Hr Hc _ IH]; intros Hv Ha; [done| |by apply IH].
  destruct (run_sops_range _ _ _ _ _ _ (conj Hv (Ha _)) Hr) as [Hv1 Ha1]. apply IH; [done|].
  intros un i. destruct (decide (un = (r q).2)) as [->|]; [by rewrite fn_lookup_insert|by rewrite fn_lookup_insert_ne].
Qed.

Lemma length_filter_dropped q l (P : Z → Prop) `{∀ x, Decision (P x)} :
  NoDup l → q ∈ l → length (filter P (dropped [q] l)) = (length (filter P l) - (if decide (P q) then 1 else 0))%nat.
Proof.
  intros Hn Hq. apply list_elem_of_split in Hq as (l1 & l2 & ->). apply list.NoDup_app in Hn as (_ & Hd & [Hq2 _]%list.NoDup_cons).
  assert (∀ l', q ∉ l' → dropped [q] l' = l') as Hid.
  { intros l' Hl'. unfold dropped. induction l' as [|x l' IH]; [done|]. apply not_elem_of_cons in Hl' as [Hx Hl'].
    rewrite filter_cons_True by (rewrite list_elem_of_singleton; congruence). by rewrite IH. }
  unfold dropped. rewrite list.filter_app, filter_cons_False by (intros Hx; apply Hx; by left).
  change (filter (λ x, x ∉ [q]) l1) with (dropped [q] l1). change (filter (λ x, x ∉ [q]) l2) with (dropped [q] l2).
  rewrite (Hid l1), (Hid l2) by (done || by intros Hx; apply (Hd q Hx); left).
  rewrite !list.filter_app, !length_app, filter_cons. case_decide; cbn; lia.
Qed.

Lemma dropped_notin q l : q ∉ l → dropped [q] l = l.
Proof.
  intros Hl. unfold dropped. induction l as [|x l IH]; [done|]. apply not_elem_of_cons in Hl as [Hx Hl].
  rewrite filter_cons_True by (rewrite list_elem_of_singleton; congruence). by rewrite IH.
Qed.

Lemma filter_all_length {A} (P : A → Prop) `{∀ x, Decision (P x)} l : Forall P l → filter P l = l.
Proof. induction 1 as [|x l Hx _ IH]; [done|]. rewrite filter_cons_True by done. by rewrite IH. Qed.

(** The number of complex requests left. *)
Lemma removed_count s s' q :
  shape s → pending (sma s) q → fixed s s' → without [q] (sma s) (sma s') →
  complex_count (sma s') = complex_count (sma s) - (if decide (complex (queues s q)) then 1 else 0) →
  complex_count (sma s') =
    Z.of_nat (length (filter (λ q, complex (queues s' q)) (sma_alter (sma s'))) + length (sma_const (sma s'))).
Proof.
  intros H Hq F (Wa & Wc & _) Ec. rewrite Ec, (sh_count _ H), Wa, Wc.
  rewrite (list_filter_iff (λ q, complex (queues s' q)) (λ q, complex (queues s q))) by (intros x; by apply fixed_queue).
  destruct (sh_nodup _ H) as (Na & Nc & _ & _).
  assert (∀ x, x ∈ sma_const (sma s) → complex (queues s x)) as Hcc by (intros x Hx; by apply (sh_const _ H)).
  assert (filter (λ q, complex (queues s q)) (sma_const (sma s)) = sma_const (sma s)) as Efc
    by (apply filter_all_length, list.Forall_forall; done).
  assert (filter (λ q, complex (queues s q)) (dropped [q] (sma_const (sma s))) = dropped [q] (sma_const (sma s))) as Efc'.
  { apply filter_all_length, list.Forall_forall. intros x [_ Hx]%elem_dropped. by apply Hcc. }
  destruct (decide (q ∈ sma_alter (sma s))) as [Ha|Ha].
  - assert (q ∉ sma_const (sma s)) as Hnc.
    { intros Hc. apply (sh_const _ H) in Hc as [Hc _]. apply (sh_alter _ H) in Ha as [Ha _]. congruence. }
    rewrite (dropped_notin q (sma_const _)) by done. rewrite length_filter_dropped by done.
    assert (complex (queues s q) → 0 < length (filter (λ q, complex (queues s q)) (sma_alter (sma s))))%nat as Hpos.
    { intros Hc. destruct (filter _ (sma_alter (sma s))) eqn:Ef; [|cbn; lia].
      assert (q ∈ filter (λ q, complex (queues s q)) (sma_alter (sma s))) as Hin by (by apply list_elem_of_filter).
      rewrite Ef in Hin. by apply elem_of_nil in Hin. }
    case_decide as Hc; [specialize (Hpos Hc)|]; lia.
  - rewrite (dropped_notin q (sma_alter _)) by done. destruct (decide (q ∈ sma_const (sma s))) as [Hc|Hc].
    + rewrite decide_True by (by apply Hcc). rewrite <- Efc', <- Efc at 1. rewrite length_filter_dropped by done.
      rewrite decide_True by (by apply Hcc). rewrite Efc.
      assert (0 < length (sma_const (sma s)))%nat by (destruct (sma_const (sma s)); [by apply elem_of_nil in Hc|cbn; lia]). lia.
    + rewrite (dropped_notin q (sma_const _)) by done. rewrite decide_False; [lia|].
      destruct Hq as [?|[?|[[i Hi]|[i Hi]]]]; [done|done| |].
      * by apply (sh_alter1 _ H) in Hi as (_ & ? & _).
      * by apply (sh_const1 _ H) in Hi as (_ & ? & _).
Qed.

(** A request taken off its queue. *)
Lemma removed_shape s s' q :
  shape s → pending (sma s) q → fixed s s' → without [q] (sma s) (sma s') → (∀ x, status (queues s' x) = status (queues s x)) →
  complex_count (sma s') = complex_count (sma s) - (if decide (complex (queues s q)) then 1 else 0) →
  (∀ i, 0 ≤ vals s' i ≤ SEMVMX) → (∀ un i, - SEMAEM - 1 ≤ undos s' un i ≤ SEMAEM) → shape s'.
Proof.
  intros H Hq F W T Hc1 Hv Had. pose proof W as (Wa & Wc & Ws). destruct (fx_array _ _ F) as (En & _ & _ & Eg & _).
  assert (∀ x, alter (queues s' x) = alter (queues s x)) as Ea by (intros x; apply (fx_flags _ _ F x)).
  pose proof (removed_count s s' q H Hq F W Hc1) as Hcount.
  assert (complex_count (sma s') ≠ 0 → complex_count (sma s) ≠ 0) as Hnz.
  { rewrite Hcount, (sh_count _ H), Wa, Wc. intros Hc E. apply Hc.
    assert (length (dropped [q] (sma_const (sma s))) ≤ length (sma_const (sma s)))%nat by apply length_filter.
    assert (length (filter (λ q, complex (queues s' q)) (dropped [q] (sma_alter (sma s)))) ≤
            length (filter (λ q, complex (queues s q)) (sma_alter (sma s))))%nat; [|lia].
    rewrite (list_filter_iff (λ q, complex (queues s' q)) (λ q, complex (queues s q))) by (intros x; by apply fixed_queue).
    unfold dropped. rewrite list_filter_filter, (list_filter_iff _ (λ x, (x ∉ [q]) ∧ complex (queues s x))) by (intros x; tauto).
    rewrite <- list_filter_filter. apply length_filter. }
  split.
  - done.
  - done.
  - intros x Hx. apply (without_pending _ _ _ _ W) in Hx as [_ Hx]. rewrite En.
    eapply good_queue_fixed; [done|apply T|by apply (sh_good _ H)].
  - intros i x. rewrite (proj1 (Ws i)), elem_dropped. intros [_ Hx]. destruct (fixed_queue s s' x F) as (_ & _ & -> & -> & ->).
    rewrite Ea. by apply (sh_alter1 _ H).
  - intros i x. rewrite (proj2 (Ws i)), elem_dropped. intros [_ Hx]. destruct (fixed_queue s s' x F) as (_ & _ & _ & -> & ->).
    rewrite Ea. by apply (sh_const1 _ H).
  - intros x. rewrite Wa, elem_dropped. intros [_ Hx]. destruct (fixed_queue s s' x F) as (_ & _ & -> & _ & ->).
    rewrite Ea. by apply (sh_alter _ H).
  - intros x. rewrite Wc, elem_dropped. intros [_ Hx]. destruct (fixed_queue s s' x F) as (_ & _ & _ & _ & ->).
    rewrite Ea. by apply (sh_const _ H).
  - destruct (sh_nodup _ H) as (N1 & N2 & N3 & N4). rewrite Wa, Wc.
    split; [by apply list.NoDup_filter|]. split; [by apply list.NoDup_filter|].
    split; intros i; [rewrite (proj1 (Ws i))|rewrite (proj2 (Ws i))]; by apply list.NoDup_filter.
  - rewrite Wa. intros Hne i. rewrite (proj1 (Ws i)), (sh_split _ H); [done|]. by intros E; rewrite E in Hne.
  - done.
  - intros Hc i. rewrite (proj1 (Ws i)), (sh_merge _ H) by (by apply Hnz). done.
  - rewrite Eg. destruct (sh_lock _ H) as [Hl1 Hl2]. split; [done|]. intros Hc. by apply Hl2, Hnz.
Qed.

Lemma executed_shape s s' q e : shape s → pending (sma s) q → executed s s' q e → shape s'.
Proof.
  intros H Hq X. destruct (serial_range _ _ _ _ _ _ (ex_serial _ _ _ _ X) (sh_val _ H) (sh_adj _ H)) as [Hv Had].
  by apply (removed_shape s s' q); try apply X.
Qed.

Lemma unlink_shape s q : shape s → pending (sma s) q → shape (unlink_queue q s).
Proof.
  intros H Hq. destruct (unlink_queue_spec q s) as (Eq & Eu & _ & Ev & F & W & C).
  apply (removed_shape s _ q); try done; rewrite ?Eq, ?Ev, ?Eu; try done; apply H.
Qed.

(** Changes that the shape does not depend on. *)
Lemma shape_fixed s s' :
  shape s → fixed s s' → sma s' = sma s → undos s' = undos s →
  (∀ x, pending (sma s) x → status (queues s' x) = status (queues s x)) → shape s'.
Proof.
  intros H F Em Eu T. assert (∀ x, alter (queues s' x) = alter (queues s x)) as Ea by (intros x; apply (fx_flags _ _ F x)).
  split; unfold vals; rewrite ?Em, ?Eu; try apply H.
  - intros x Hx. eapply good_queue_fixed; [done|by apply T|by apply (sh_good _ H)].
  - intros i x Hx. destruct (fixed_queue s s' x F) as (_ & _ & -> & -> & ->). rewrite Ea. by apply (sh_alter1 _ H).
  - intros i x Hx. destruct (fixed_queue s s' x F) as (_ & _ & _ & -> & ->). rewrite Ea. by apply (sh_const1 _ H).
  - intros x Hx. destruct (fixed_queue s s' x F) as (_ & _ & -> & _ & ->). rewrite Ea. by apply (sh_alter _ H).
  - intros x Hx. destruct (fixed_queue s s' x F) as (_ & _ & _ & _ & ->). rewrite Ea. by apply (sh_const _ H).
  - rewrite (sh_count _ H). f_equal. f_equal. f_equal. apply list_filter_iff. intros x. symmetry. by apply fixed_queue.
Qed.

Lemma note_blocking_shape s q st : shape s → shape (note_blocking q st s).
Proof.
  intros H. destruct (note_blocking_rest q st s) as (Em & Eu & _). apply (shape_fixed s); [done|apply note_blocking_fixed|done|done|].
  intros x _. apply note_blocking_queue.
Qed.

Lemma wake_prepare_fixed q e s : fixed s (wake_up_sem_queue_prepare q e s).
Proof.
  split; [| |done].
  - intros x. unfold req; cbn. destruct (decide (x = q)) as [->|]; [by rewrite fn_lookup_insert|by rewrite fn_lookup_insert_ne].
  - intros x; cbn. destruct (decide (x = q)) as [->|]; [by rewrite fn_lookup_insert|by rewrite fn_lookup_insert_ne].
Qed.

Lemma wake_prepare_shape s q e : shape s → ¬ pending (sma s) q → shape (wake_up_sem_queue_prepare q e s).
Proof.
  intros H Hq. apply (shape_fixed s); [done|apply wake_prepare_fixed|done|done|].
  intros x Hx. cbn. rewrite fn_lookup_insert_ne; [done|]. by intros ->.
Qed.

(** A request executed, others served after it, and then it is woken. *)
Lemma served_around s s1 s2 q e ev :
  pending (sma s) q → executed s s1 q e → served s1 s2 ev → served s (wake_up_sem_queue_prepare q e s2) ((q, e) :: ev).
Proof.
  intros Hq X S. pose proof (wake_prepare_fixed q e s2) as F3.
  assert (∀ x, x ∈ ev.*1 → x ≠ q ∧ pending (sma s) x) as Hd.
  { intros x Hx%(sv_pending _ _ _ S). apply (without_pending _ _ _ _ (ex_without _ _ _ _ X)) in Hx as [Hx1 Hx2].
    rewrite list_elem_of_singleton in Hx1. done. }
  split; cbn [fmap list_fmap fst].
  - eapply fixed_trans; [apply X|]. eapply fixed_trans; [apply S|done].
  - change ((q, e) :: ev) with ([(q, e)] ++ ev). eapply serial_app; [apply X|].
    eapply serial_ext; [|apply S]. intros x. symmetry. apply (fx_req _ _ (ex_fixed _ _ _ _ X)).
  - exact (without_app [q] ev.*1 (sma s) (sma s1) (sma s2) (ex_without _ _ _ _ X) (sv_without _ _ _ S)).
  - intros x [Hx Hx']%not_elem_of_cons. cbn. rewrite fn_lookup_insert_ne by congruence.
    by rewrite (sv_status _ _ _ S), (ex_status _ _ _ _ X).
  - intros x ex [[= -> ->]|Hin]%elem_of_cons; cbn; [by rewrite fn_lookup_insert|].
    assert (x ≠ q) by (apply Hd; by apply (list_elem_of_fmap_2 fst) in Hin).
    rewrite fn_lookup_insert_ne by congruence. by apply (sv_result _ _ _ S).
  - cbn. rewrite (sv_wake _ _ _ S), (ex_wake _ _ _ _ X), <- app_assoc. apply Permutation_app_head. symmetry. apply Permutation_cons_append.
  - constructor; [|apply S]. intros Hx. by apply Hd in Hx as [? _].
  - intros x [->|Hx]%elem_of_cons; [done|by apply Hd].
Qed.

Lemma not_pending_executed s s' q e : executed s s' q e → ¬ pending (sma s') q.
Proof. intros X Hp. apply (without_pending _ _ _ _ (ex_without _ _ _ _ X)) in Hp as [Hp _]. apply Hp. by left. Qed.

Lemma served_lists s s' ev : served s s' ev →
  (∀ q, q ∈ sma_alter (sma s') → q ∈ sma_alter (sma s)) ∧ (∀ q, q ∈ sma_const (sma s') → q ∈ sma_const (sma s)) ∧
  (∀ i q, q ∈ pending_alter (sems (sma s') i) → q ∈ pending_alter (sems (sma s) i)) ∧
  (∀ i q, q ∈ pending_const (sems (sma s') i) → q ∈ pending_const (sems (sma s) i)).
Proof.
  intros S. destruct (sv_without _ _ _ S) as (Wa & Wc & Ws). rewrite Wa, Wc. split_and!.
  - intros q ?%elem_dropped. tauto.
  - intros q ?%elem_dropped. tauto.
  - intros i q. rewrite (proj1 (Ws i)). intros ?%elem_dropped. tauto.
  - intros i q. rewrite (proj2 (Ws i)). intros ?%elem_dropped. tauto.
Qed.

(** ** Requests that wait for zero *)

(** Those of a list still wait rightly: each has a semaphore that is not zero. *)
Definition waits_zero (s : sem_state) (q : Z) : Prop :=
  Exists (λ sop, vals s (sem_num sop) ≠ 0) (sops (queues s q)).

Lemma waits_zero_same s s' q : fixed s s' → vals s' = vals s → waits_zero s' q ↔ waits_zero s q.
Proof. intros F Ev. unfold waits_zero. destruct (fixed_queue s s' q F) as (-> & _). by rewrite Ev. Qed.

Lemma const_outcome s q :
  shape s → pending (sma s) q → alter (queues s q) = false →
  outcome_of s q = Done (vals s) (undos s (undo (queues s q))) ∨ (∃ k, outcome_of s q = Stopped (WouldBlock k)) ∧ waits_zero s q.
Proof.
  intros H Hp Ha. pose proof (gq_alter _ _ (sh_good _ H q Hp)) as Hz. rewrite Ha in Hz.
  destruct (run_sops_zero (sops (queues s q)) 0 (vals s) (undos s (undo (queues s q))) Hz) as [[Hd _]|[[j Hj] Hex]].
  - split; [apply (sh_val _ H)|apply (sh_adj _ H)].
  - by left.
  - right. split; [by exists j|done].
Qed.

Lemma wake_const_loop_ok l : ∀ s c,
  shape s → NoDup l → (∀ q, q ∈ l → pending (sma s) q ∧ alter (queues s q) = false) →
  ∃ s' c' ev, wake_const_loop l s c = (s', c') ∧ served s s' ev ∧ shape s' ∧ vals s' = vals s ∧ undos s' = undos s ∧
    (∀ q, q ∈ ev.*1 → q ∈ l) ∧ (∀ q, q ∈ l → q ∈ ev.*1 ∨ waits_zero s' q).
Proof.
  induction l as [|q l IH]; intros s c H Hn Hl; cbn [wake_const_loop].
  { exists s, c, []. split; [done|]. split; [apply served_refl|]. split; [done|]. split; [done|]. split; [done|].
    split; [done|]. intros q ?%elem_of_nil. done. }
  apply list.NoDup_cons in Hn as [Hq Hn]. destruct (Hl q) as [Hp Ha]; [by left|].
  destruct (perform_cases s q (sh_good _ H q Hp)) as [(k & E & Eo)|(s1 & e & E & He & X & Hvu & Hz)].
  - rewrite E. cbn [Z.ltb Z.compare]. set (s1 := note_blocking q (WouldBlock k) s).
    pose proof (note_blocking_served q (WouldBlock k) s) as S1. fold s1 in S1.
    destruct (IH s1 c) as (s' & c' & ev & E' & S' & H' & Hv' & Hu' & Hev & Hl').
    { by apply note_blocking_shape. } { done. }
    { intros x Hx. rewrite (proj1 (fx_flags _ _ (sv_fixed _ _ _ S1) x)). apply Hl. by right. }
    exists s', c', ev. split; [done|]. split; [exact (served_trans s s1 s' [] ev S1 S')|]. split; [done|].
    split; [done|]. split; [done|]. split; [intros x Hx; right; by apply Hev|].
    intros x [->|Hx]%elem_of_cons; [|by apply Hl']. right.
    apply (waits_zero_same s s' q); [eapply fixed_trans; [apply S1|apply S']|done|].
    by destruct (const_outcome s q H Hp Ha) as [Hd|[_ ?]]; [rewrite Hd in Eo|].
  - rewrite E. destruct (Z.ltb_spec 0 e); [lia|]. set (s2 := unlink_queue q s1) in *.
    pose proof (executed_shape s s2 q e H Hp X) as H2. pose proof (not_pending_executed _ _ _ _ X) as Hnp.
    pose proof (served_around s s2 s2 q e [] Hp X (served_refl s2)) as S3. set (s3 := wake_up_sem_queue_prepare q e s2) in *.
    assert (vals s3 = vals s ∧ undos s3 = undos s) as [Hv3 Hu3].
    { destruct (unlink_queue_spec q s1) as (_ & Eu & _ & Ev & _). change (vals s3) with (vals s2). change (undos s3) with (undos s2).
      unfold s2. rewrite Ev, Eu. destruct (decide (e = 0)) as [->|Hne]; [|by apply Hvu].
      destruct (const_outcome s q H Hp Ha) as [Hd|[[k Hk] _]].
      - pose proof (perform_ok s q (gq_dup _ _ (sh_good _ H q Hp))) as Hpo. unfold atomic_result in Hpo. rewrite Hd in Hpo.
        destruct Hpo as (f' & E' & Hf' & _). rewrite E' in E. injection E as <-. unfold vals; cbn. rewrite insert_same. done.
      - destruct (proj1 Hz eq_refl) as (v & a & Hd). congruence. }
    destruct (IH s3 (if e =? 0 then true else c)) as (s' & c' & ev & E' & S' & H' & Hv' & Hu' & Hev & Hl').
    { by apply wake_prepare_shape. } { done. }
    { intros x Hx. rewrite (proj1 (fx_flags _ _ (sv_fixed _ _ _ S3) x)). destruct (Hl x) as [Hpx Hax]; [by right|]. split; [|done].
      apply (without_pending _ _ _ x (sv_without _ _ _ S3)). split; [|done]. cbn. rewrite list_elem_of_singleton. by intros ->. }
    exists s', c', ([(q, e)] ++ ev). split; [done|]. split; [by eapply served_trans|]. split; [done|].
    split; [congruence|]. split; [congruence|]. split.
    + intros x. cbn. intros [->|Hx]%elem_of_cons; [by left|right; by apply Hev].
    + intros x [->|Hx]%elem_of_cons; [left; by left|]. destruct (Hl' x Hx) as [?|?]; [left; by right|by right].
Qed.

End SysvSemWake.
