(* ===== verification/SysvSemUpdate.v ===== *)
(** * No waiting operation is forgotten

    After a change of the values, [do_smart_update] (ipc_sem/src/sem.c) looks
    only at the queues that the change can matter to, and stops a scan early
    where it may. It returns, and afterwards no waiting request could be
    performed. *)

From stdpp Require Import base numbers list option functions.
From Stdlib Require Import ZArith Lia FunctionalExtensionality.
From S2P Require Import Prelude SysvSem SysvSemAtomic SysvSemInv SysvSemWake.

Open Scope Z_scope.

Module SysvSemUpdate.
Import SysvSem SysvSemAtomic SysvSemInv SysvSemWake.

(** ** Requests that wait for zero *)

(** With the values [v], every request that waits for zero waits rightly. *)
Definition const_quiet (v : Z → Z) (s : sem_state) : Prop :=
  (∀ i, pending_const (sems (sma s) i) ≠ [] → v i ≠ 0) ∧
  (∀ q, q ∈ sma_const (sma s) → Exists (λ sop, v (sem_num sop) ≠ 0) (sops (queues s q))).

(** The requests of [ev] only wait for zero. *)
Definition const_events (s : sem_state) (ev : list (Z * Z)) : Prop := ∀ q, q ∈ ev.*1 → alter (queues s q) = false.

Lemma dropped_disjoint E l : (∀ q, q ∈ l → q ∉ E) → dropped E l = l.
Proof.
  induction l as [|q l IH]; intros H; [done|]. unfold dropped in *. rewrite filter_cons_True by (apply H; by left).
  rewrite IH; [done|]. intros x Hx. apply H. by right.
Qed.

Lemma const_events_lists s s' ev :
  shape s → served s s' ev → const_events s ev →
  sma_alter (sma s') = sma_alter (sma s) ∧ ∀ i, pending_alter (sems (sma s') i) = pending_alter (sems (sma s) i).
Proof.
  intros H S Hc. destruct (sv_without _ _ _ S) as (-> & _ & Ws). split.
  - apply dropped_disjoint. intros q Hq Hin. apply Hc in Hin. apply (sh_alter _ H) in Hq as [Hq _]. congruence.
  - intros i. rewrite (proj1 (Ws i)). apply dropped_disjoint. intros q Hq Hin. apply Hc in Hin.
    apply (sh_alter1 _ H) in Hq as [Hq _]. congruence.
Qed.

Lemma const_events_app s s' ev1 ev2 : fixed s s' → const_events s ev1 → const_events s' ev2 → const_events s (ev1 ++ ev2).
Proof.
  intros F H1 H2 q. rewrite fmap_app, elem_of_app. intros [Hq|Hq]; [by apply H1|].
  rewrite <- (proj1 (fx_flags _ _ F q)). by apply H2.
Qed.

(** What the functions that wake requests waiting for zero have in common. *)
Record zero_woken (s s' : sem_state) (ev : list (Z * Z)) : Prop := {
  zw_served : served s s' ev;
  zw_shape : shape s';
  zw_vals : vals s' = vals s;
  zw_undos : undos s' = undos s;
  zw_const : const_events s ev
}.

Lemma zero_woken_refl s : shape s → zero_woken s s [].
Proof. intros H. split; [apply served_refl|done|done|done|]. intros q ?%elem_of_nil. done. Qed.

Lemma zero_woken_trans s1 s2 s3 e1 e2 : zero_woken s1 s2 e1 → zero_woken s2 s3 e2 → zero_woken s1 s3 (e1 ++ e2).
Proof.
  intros [S1 H1 V1 U1 C1] [S2 H2 V2 U2 C2]. split; [by eapply served_trans|done|congruence|congruence|].
  eapply const_events_app; [apply S1|done|done].
Qed.

Lemma wake_const_ops_ok s semnum :
  shape s → ∃ s' c ev, wake_const_ops s semnum = (s', c) ∧ zero_woken s s' ev ∧
    (semnum = -1 → ∀ q, q ∈ sma_const (sma s') → waits_zero s' q) ∧
    (semnum ≠ -1 → pending_const (sems (sma s') semnum) ≠ [] → vals s semnum ≠ 0).
Proof.
  intros H. unfold wake_const_ops. destruct (sh_nodup _ H) as (_ & Nc & _ & Nc1).
  set (l := if semnum =? -1 then _ else _).
  destruct (wake_const_loop_ok l s false H) as (s' & c & ev & E & S & H' & Hv & Hu & Hev & Hl).
  { subst l. by destruct (semnum =? -1). }
  { intros q Hq. subst l. destruct (semnum =? -1).
    - split; [by right; left|by apply (sh_const _ H)].
    - split; [by right; right; right; exists semnum|by apply (sh_const1 _ H) in Hq as [? _]]. }
  exists s', c, ev. split; [done|]. split; [split; try done|split].
  - intros q Hq%Hev. subst l. destruct (semnum =? -1); [by apply (sh_const _ H)|by apply (sh_const1 _ H) in Hq as [? _]].
  - intros -> q Hq. destruct (sv_without _ _ _ S) as (_ & Wc & _). rewrite Wc in Hq. apply elem_dropped in Hq as [Hn Hq].
    by destruct (Hl q Hq).
  - intros Hne Hnn. destruct (pending_const (sems (sma s') semnum)) as [|q l'] eqn:El; [done|].
    assert (q ∈ pending_const (sems (sma s') semnum)) as Hq by (rewrite El; by left).
    assert (q ∈ l ∧ q ∉ ev.*1) as [Hql Hqe].
    { destruct (sv_without _ _ _ S) as (_ & _ & Ws). pose proof Hq as Hq'. rewrite (proj2 (Ws semnum)), elem_dropped in Hq'.
      subst l. destruct (Z.eqb_spec semnum (-1)); tauto. }
    destruct (Hl q Hql) as [?|Hw]; [done|]. unfold waits_zero in Hw. rewrite Hv in Hw.
    destruct (sh_const1 _ H' semnum q Hq) as (_ & Hnc & Hnum).
    destruct (simple_queue _ _ (sh_good _ H' q (or_intror (or_intror (or_intror (ex_intro _ semnum Hq))))) Hnc) as (sop & Es & _ & En).
    rewrite Es in Hw. apply Exists_cons in Hw as [Hw|Hw]; [|by apply Exists_nil in Hw]. by rewrite <- Hnum, En.
Qed.

(** Shorter queues stay quiet. *)
Lemma zero_woken_const s s' ev i : zero_woken s s' ev → pending_const (sems (sma s') i) ≠ [] → pending_const (sems (sma s) i) ≠ [].
Proof.
  intros Z Hn E. destruct (sv_without _ _ _ (zw_served _ _ _ Z)) as (_ & _ & Ws). rewrite (proj2 (Ws i)), E in Hn. done.
Qed.

Lemma wakeup_zero_loop_ok nums : ∀ s c g,
  shape s → (∀ i, i ∈ nums → 0 ≤ i) →
  ∃ s' c' g' ev, wakeup_zero_loop nums s c g = (s', c', g') ∧ zero_woken s s' ev ∧
    (∀ i, i ∈ nums → pending_const (sems (sma s') i) ≠ [] → vals s i ≠ 0) ∧
    (g' = false → g = false ∧ ∀ i, i ∈ nums → vals s i ≠ 0).
Proof.
  induction nums as [|num nums IH]; intros s c g H Hr; cbn [wakeup_zero_loop].
  { exists s, c, g, []. split; [done|]. split; [by apply zero_woken_refl|]. split; [by intros i ?%elem_of_nil|].
    intros ->. split; [done|]. by intros i ?%elem_of_nil. }
  assert (0 ≤ num) as H0 by (apply Hr; by left).
  change (semval (sems (sma s) num)) with (vals s num). destruct (Z.eqb_spec (vals s num) 0) as [Hz|Hz].
  - destruct (wake_const_ops_ok s num H) as (s1 & c1 & e1 & E1 & Z1 & _ & Hq1). rewrite E1.
    destruct (IH s1 (c || c1) true) as (s' & c' & g' & ev & E & Z' & Hq & Hg).
    { apply Z1. } { intros i Hi. apply Hr. by right. }
    exists s', c', g', (e1 ++ ev). split; [done|]. split; [by eapply zero_woken_trans|]. rewrite (zw_vals _ _ _ Z1) in Hq, Hg. split.
    + intros i [->|Hi]%elem_of_cons; [|by apply Hq]. intros Hn. apply Hq1; [lia|]. by apply (zero_woken_const _ _ _ _ Z').
    + intros Hg'. by destruct (Hg Hg') as [? _].
  - destruct (IH s c g) as (s' & c' & g' & ev & E & Z' & Hq & Hg). { done. } { intros i Hi. apply Hr. by right. }
    exists s', c', g', ev. split; [done|]. split; [done|]. split.
    + intros i [->|Hi]%elem_of_cons; [done|by apply Hq].
    + intros Hg'. destruct (Hg Hg') as [-> Hall]. split; [done|]. intros i [->|Hi]%elem_of_cons; [done|by apply Hall].
Qed.

Definition nums_of (s : sem_state) (ops : option (list sembuf)) : list Z :=
  match ops with Some l => sem_num <$> l | None => all_nums s end.

Lemma elem_all_nums s i : i ∈ all_nums s ↔ 0 ≤ i < sem_nsems (sma s).
Proof.
  unfold all_nums. rewrite list_elem_of_fmap. split.
  - intros (k & -> & Hk%elem_of_seq). lia.
  - intros Hi. exists (Z.to_nat i). split; [lia|]. apply elem_of_seq. lia.
Qed.

(** The requests waiting for zero were quiet for the values [v0], from which
    the present ones differ at the semaphores given. *)
Lemma do_smart_wakeup_zero_ok s ops v0 :
  shape s → (∀ i, i ∈ nums_of s ops → 0 ≤ i) → (∀ i, i ∉ nums_of s ops → vals s i = v0 i) → const_quiet v0 s →
  ∃ s' c ev, do_smart_wakeup_zero s ops = (s', c) ∧ zero_woken s s' ev ∧ const_quiet (vals s') s'.
Proof.
  intros H Hr Hsame [Q1 Q2]. unfold do_smart_wakeup_zero. fold (nums_of s ops). set (nums := nums_of s ops) in *.
  destruct (wakeup_zero_loop_ok nums s false false H Hr) as (s1 & c1 & g & e1 & -> & Z1 & Hq1 & Hg).
  assert (∀ i, pending_const (sems (sma s1) i) ≠ [] → vals s i ≠ 0) as Hsimple.
  { intros i Hn. destruct (decide (i ∈ nums)) as [Hi|Hi]; [by apply Hq1|]. rewrite Hsame by done.
    apply Q1. by apply (zero_woken_const _ _ _ _ Z1). }
  destruct g.
  - destruct (wake_const_ops_ok s1 (-1)) as (s2 & c2 & e2 & -> & Z2 & Hq2 & _); [apply Z1|].
    exists s2, (c1 || c2), (e1 ++ e2). split; [done|]. split; [by eapply zero_woken_trans|].
    rewrite (zw_vals _ _ _ Z2), (zw_vals _ _ _ Z1). split.
    + intros i Hn. apply Hsimple. by apply (zero_woken_const _ _ _ _ Z2).
    + intros q Hq. specialize (Hq2 eq_refl q Hq). unfold waits_zero in Hq2. by rewrite (zw_vals _ _ _ Z2), (zw_vals _ _ _ Z1) in Hq2.
  - destruct (Hg eq_refl) as [_ Hnz]. exists s1, c1, e1. split; [done|]. split; [done|]. rewrite (zw_vals _ _ _ Z1). split; [done|].
    intros q Hq. destruct (served_lists _ _ _ (zw_served _ _ _ Z1)) as (_ & Hl & _). specialize (Q2 q (Hl q Hq)).
    destruct (fixed_queue s s1 q (sv_fixed _ _ _ (zw_served _ _ _ Z1))) as (-> & _).
    eapply Exists_impl; [|exact Q2]. intros sop Hv0. cbn in *.
    destruct (decide (sem_num sop ∈ nums)) as [Hi|Hi]; [by apply Hnz|by rewrite Hsame].
Qed.

(** ** The queue of the set *)

Lemma serial_one r v a q v' a' :
  serial r v a [(q, 0)] v' a' → ∃ a1, run_sops (r q).1 0 v (a (r q).2) = Done v' a1 ∧ a' = <[(r q).2 := a1]> a.
Proof.
  inversion 1 as [|? ? ? v1 a1 ? ? ? Hr Hs|? st ? ? ? ? ? Hr Hneg Hs Eq]; subst.
  - inversion Hs; subst. by exists a1.
  - match goal with E : _ = 0 |- _ => rewrite E in * end. lia.
Qed.

Lemma run_sops_frame l : ∀ k v a v' a' i,
  run_sops l k v a = Done v' a' → i ∉ sem_num <$> l → v' i = v i.
Proof.
  induction l as [|sop l IH]; intros k v a v' a' i; [by intros [= <- <-]|].
  cbn. repeat case_decide; try done. intros Hr [Hi Hl]%not_elem_of_cons. rewrite (IH _ _ _ _ _ _ Hr Hl).
  by rewrite fn_lookup_insert_ne.
Qed.

Lemma const_quiet_sub v s s' :
  fixed s s' → (∀ i, pending_const (sems (sma s') i) ≠ [] → pending_const (sems (sma s) i) ≠ []) →
  (∀ q, q ∈ sma_const (sma s') → q ∈ sma_const (sma s)) → const_quiet v s → const_quiet v s'.
Proof.
  intros F H1 H2 [Q1 Q2]. split; [intros i Hi; by apply Q1, H1|]. intros q Hq. destruct (fixed_queue s s' q F) as (-> & _). by apply Q2, H2.
Qed.

Lemma without_const E a a' i : without E a a' → pending_const (sems a' i) ≠ [] → pending_const (sems a i) ≠ [].
Proof. intros (_ & _ & Ws) Hn Hz. by rewrite (proj2 (Ws i)), Hz in Hn. Qed.

Lemma without_sma_const E a a' q : without E a a' → q ∈ sma_const a' → q ∈ sma_const a.
Proof. intros (_ & Wc & _). rewrite Wc, elem_dropped. tauto. Qed.

(** A request of a queue of altering requests that is executed, with the
    requests that its change wakes. *)
Lemma execute_alter s s1 q :
  shape s → const_quiet (vals s) s → pending (sma s) q → executed s (unlink_queue q s1) q 0 →
  let s2 := unlink_queue q s1 in
  ∃ s3 c ev, do_smart_wakeup_zero s2 (Some (sops (queues s2 q))) = (s3, c) ∧
    served s (wake_up_sem_queue_prepare q 0 s3) ((q, 0) :: ev) ∧ shape (wake_up_sem_queue_prepare q 0 s3) ∧
    const_quiet (vals s3) (wake_up_sem_queue_prepare q 0 s3) ∧ vals s3 = vals s2 ∧ undos s3 = undos s2 ∧
    sma_alter (sma s3) = dropped [q] (sma_alter (sma s)) ∧
    (∀ i, pending_alter (sems (sma s3) i) = dropped [q] (pending_alter (sems (sma s) i))) ∧
    (∀ i, i ∉ sem_num <$> sops (queues s q) → vals s3 i = vals s i).
Proof.
  intros H Hq Hp X s2. pose proof (executed_shape _ _ _ _ H Hp X) as H2. fold s2 in X, H2.
  destruct (fixed_queue s s2 q (ex_fixed _ _ _ _ X)) as (Es & _).
  assert (∀ i, i ∉ sem_num <$> sops (queues s q) → vals s2 i = vals s i) as Hfr.
  { intros i Hi. destruct (serial_one _ _ _ _ _ _ (ex_serial _ _ _ _ X)) as (a1 & Hr & _). by eapply run_sops_frame. }
  destruct (do_smart_wakeup_zero_ok s2 (Some (sops (queues s2 q))) (vals s)) as (s3 & c & ev & E & Z & Q3).
  { done. }
  { cbn. rewrite Es. intros i (sop & -> & Hs)%list_elem_of_fmap. pose proof (gq_range _ _ (sh_good _ H q Hp)) as Hr.
    rewrite list.Forall_forall in Hr. by apply Hr. }
  { cbn. by rewrite Es. }
  { apply (const_quiet_sub _ s); [apply X|intros i; apply (without_const _ _ _ _ (ex_without _ _ _ _ X))|
      intros x; apply (without_sma_const _ _ _ _ (ex_without _ _ _ _ X))|done]. }
  destruct (const_events_lists s2 s3 ev H2 (zw_served _ _ _ Z) (zw_const _ _ _ Z)) as [La Ls].
  destruct (ex_without _ _ _ _ X) as (Wa & _ & Ws).
  exists s3, c, ev. split; [done|]. split; [by eapply served_around; [|done|apply Z]|].
  split.
  { apply wake_prepare_shape; [apply Z|]. rewrite (without_pending _ _ _ q (sv_without _ _ _ (zw_served _ _ _ Z))).
    intros [_ Hn]. by apply (not_pending_executed _ _ _ _ X). }
  split; [by apply (const_quiet_sub _ s3); [apply wake_prepare_fixed| | |]|]. split; [apply Z|]. split; [apply Z|]. split; [by rewrite La, Wa|].
  split; [intros i; by rewrite Ls, (proj1 (Ws i))|]. intros i Hi. rewrite (zw_vals _ _ _ Z). by apply Hfr.
Qed.

(** A request that has to wait, whatever it waits for. *)
Definition blocked (s : sem_state) (q : Z) : Prop := ∃ k, outcome_of s q = Stopped (WouldBlock k).

Lemma blocked_same s s' q : fixed s s' → vals s' = vals s → undos s' = undos s → blocked s q → blocked s' q.
Proof.
  intros F Ev Eu. unfold blocked, outcome_of. destruct (fixed_queue s s' q F) as (-> & -> & _).
  fold (vals s') (vals s). by rewrite Ev, Eu.
Qed.

(** A request that fails is woken with its error. *)
Lemma execute_fail s s1 q e :
  shape s → pending (sma s) q → e ≠ 0 → executed s (unlink_queue q s1) q e → vals s1 = vals s → undos s1 = undos s →
  let s3 := wake_up_sem_queue_prepare q e (unlink_queue q s1) in
  served s s3 [(q, e)] ∧ shape s3 ∧ vals s3 = vals s ∧ undos s3 = undos s ∧
  sma_alter (sma s3) = dropped [q] (sma_alter (sma s)) ∧
  (∀ i, pending_alter (sems (sma s3) i) = dropped [q] (pending_alter (sems (sma s) i))) ∧
  (∀ v, const_quiet v s → const_quiet v s3).
Proof.
  intros H Hp He X Hv Hu s3. pose proof (executed_shape _ _ _ _ H Hp X) as H2.
  destruct (unlink_queue_spec q s1) as (_ & Eu & _ & Ev & _). pose proof (ex_without _ _ _ _ X) as W. pose proof W as (Wa & _ & Ws).
  assert (served s s3 [(q, e)]) as S by (by eapply served_around, served_refl).
  split; [done|]. split; [by apply wake_prepare_shape; [|eapply not_pending_executed]|].
  split; [change (vals s3) with (vals (unlink_queue q s1)); congruence|]. split; [change (undos s3) with (undos (unlink_queue q s1)); congruence|].
  split; [done|]. split; [intros i; apply Ws|]. intros v. apply const_quiet_sub; [apply S| |].
  - intros i. exact (without_const _ _ _ i W).
  - intros x. exact (without_sma_const _ _ _ x W).
Qed.

Lemma length_dropped_lt q l : q ∈ l → (length (dropped [q] l) < length l)%nat.
Proof. intros Hq. apply length_filter_lt with q; [done|]. intros Hn. apply Hn. by left. Qed.

(** One pass over the queue of the set. *)
Lemma update_pass_global l : ∀ s c,
  shape s → const_quiet (vals s) s → NoDup l → (∀ q, q ∈ l → q ∈ sma_alter (sma s)) →
  ∃ s' c' (r : bool) ev, update_pass l (-1) s c = (s', c', r) ∧ served s s' ev ∧ shape s' ∧ const_quiet (vals s') s' ∧
    if r then (length (sma_alter (sma s')) < length (sma_alter (sma s)))%nat
    else sma_alter (sma s') = [] ∨
         vals s' = vals s ∧ undos s' = undos s ∧ ∀ q, q ∈ l → q ∈ sma_alter (sma s') → blocked s' q.
Proof.
  induction l as [|q l IH]; intros s c H Hq Hn Hl; cbn [update_pass].
  { exists s, c, false, []. split; [done|]. split; [apply served_refl|]. split; [done|]. split; [done|]. right.
    split; [done|]. split; [done|]. by intros q ?%elem_of_nil. }
  apply list.NoDup_cons in Hn as [Hql Hn]. assert (q ∈ sma_alter (sma s)) as Hqa by (apply Hl; by left).
  assert (pending (sma s) q) as Hp by (by left). change (negb (-1 =? -1)) with false. cbn [andb].
  destruct (perform_cases s q (sh_good _ H q Hp)) as [(k & E & Eo)|(s1 & e & E & He & X & Hvu & Hz)]; rewrite E.
  - cbn [Z.ltb Z.compare]. set (s1 := note_blocking q (WouldBlock k) s).
    pose proof (note_blocking_served q (WouldBlock k) s) as S1. fold s1 in S1.
    destruct (IH s1 c) as (s' & c' & r & ev & E' & S' & H' & Q' & Hr).
    { by apply note_blocking_shape. }
    { apply (const_quiet_sub _ s); [apply S1|done|done|done]. }
    { done. } { intros x Hx. apply Hl. by right. }
    exists s', c', r, ev. split; [done|]. split; [exact (served_trans s s1 s' [] ev S1 S')|]. split; [done|]. split; [done|].
    destruct r; [done|]. destruct Hr as [?|(Hv & Hu & Hb)]; [by left|right]. split; [done|]. split; [done|].
    intros x [->|Hx]%elem_of_cons Hin; [|by apply Hb].
    apply (blocked_same s); [eapply fixed_trans; [apply S1|apply S']|done|done|by exists k].
  - destruct (Z.ltb_spec 0 e); [lia|]. destruct (Z.eqb_spec e 0) as [->|Hne]; cbn [negb].
    + destruct (execute_alter s s1 q H Hq Hp X) as (s3 & c3 & ev & E3 & S3 & H3 & Q3 & _ & _ & La & _). rewrite E3.
      set (s4 := wake_up_sem_queue_prepare q 0 s3) in *.
      assert (length (sma_alter (sma s4)) < length (sma_alter (sma s)))%nat as Hlen.
      { change (sma s4) with (sma s3). rewrite La. by apply length_dropped_lt. }
      unfold check_restart. case_bool_decide as Hemp; cbn [negb].
      * assert (∀ x, x ∉ l) as Hnil.
        { intros x Hx. assert (x ∈ sma_alter (sma s3)) as Hin; [|rewrite Hemp in Hin; by apply elem_of_nil in Hin].
          rewrite La, elem_dropped, list_elem_of_singleton. split; [by intros ->|apply Hl; by right]. }
        destruct l as [|x l]; [|by destruct (Hnil x); left].
        destruct (1 <? _); [exists s4, true, true, ((q, 0) :: ev)|exists s4, true, false, ((q, 0) :: ev)]; (split; [done|]).
        { split; [done|]. split; [done|]. by split. }
        split; [done|]. split; [done|]. split; [done|by left].
      * exists s4, true, true, ((q, 0) :: ev). split; [done|]. split; [done|]. split; [done|]. by split.
    + destruct (Hvu Hne) as [Hv1 Hu1]. destruct (execute_fail s s1 q e H Hp Hne X Hv1 Hu1) as (S3 & H3 & V3 & U3 & La & _ & Q3).
      set (s3 := wake_up_sem_queue_prepare q e (unlink_queue q s1)) in *.
      destruct (IH s3 c) as (s' & c' & r & ev & E' & S' & H' & Q' & Hr).
      { done. } { rewrite V3. by apply Q3. } { done. }
      { intros x Hx. rewrite La, elem_dropped, list_elem_of_singleton. split; [by intros ->|apply Hl; by right]. }
      exists s', c', r, ([(q, e)] ++ ev). split; [done|]. split; [by eapply served_trans|]. split; [done|]. split; [done|].
      pose proof (length_dropped_lt q _ Hqa) as Hlt. destruct r; [rewrite La in Hr; lia|]. destruct Hr as [?|(Hv & Hu & Hb)]; [by left|right].
      split; [congruence|]. split; [congruence|]. intros x [->|Hx]%elem_of_cons Hin; [|by apply Hb].
      destruct (served_lists _ _ _ S') as (Hsub & _). apply Hsub in Hin. rewrite La, elem_dropped, list_elem_of_singleton in Hin. tauto.
Qed.

Lemma update_queue_global fuel : ∀ s c,
  shape s → const_quiet (vals s) s → (length (sma_alter (sma s)) < fuel)%nat →
  ∃ s' c' ev, update_queue fuel s (-1) c = Ok (s', c') ∧ served s s' ev ∧ shape s' ∧ const_quiet (vals s') s' ∧
    ∀ q, q ∈ sma_alter (sma s') → blocked s' q.
Proof.
  induction fuel as [|fuel IH]; intros s c H Hq Hf; [lia|]. cbn [update_queue]. change (-1 =? -1) with true.
  destruct (sh_nodup _ H) as (Na & _).
  destruct (update_pass_global (sma_alter (sma s)) s c H Hq Na) as (s1 & c1 & r & e1 & -> & S1 & H1 & Q1 & Hr); [done|].
  destruct r.
  - destruct (IH s1 c1 H1 Q1 ltac:(lia)) as (s' & c' & ev & E & S' & H' & Q' & Hb). exists s', c', (e1 ++ ev).
    split; [done|]. split; [by eapply served_trans|]. done.
  - exists s1, c1, e1. split; [done|]. split; [done|]. split; [done|]. split; [done|]. intros q Hin.
    destruct Hr as [Hr|(_ & _ & Hr)]; [rewrite Hr in Hin; by apply elem_of_nil in Hin|].
    apply Hr; [|done]. by apply (served_lists _ _ _ S1).
Qed.

(** ** The queue of one semaphore *)

Lemma simple_outcome s q i :
  shape s → q ∈ pending_alter (sems (sma s) i) → ∃ sop, sops (queues s q) = [sop] ∧ sem_num sop = i ∧ op1 (queues s q) = sem_op sop ∧
    sem_op sop < 0.
Proof.
  intros H Hq. destruct (sh_alter1 _ H i q Hq) as (_ & Hc & Hn & Ho).
  destruct (simple_queue _ _ (sh_good _ H q (or_intror (or_intror (or_introl (ex_intro _ i Hq))))) Hc) as (sop & Es & Eo & En).
  exists sop. rewrite <- Eo. split; [done|]. split; [congruence|done].
Qed.

Lemma run_simple sop v a : sem_op sop < 0 → v (sem_num sop) ≤ SEMVMX →
  match run_sops [sop] 0 v a with
  | Done v' _ => v' = <[sem_num sop := v (sem_num sop) + sem_op sop]> v
  | Stopped (WouldBlock _) => v (sem_num sop) + sem_op sop < 0
  | Stopped OutOfRange => True
  end.
Proof. intros Ho Hv. cbn. repeat case_decide; [|done|done]. lia. Qed.

(** A pass over the requests [l] of semaphore [i]. *)
Record sem_pass (i : Z) (l : list Z) (s s' : sem_state) (ev : list (Z * Z)) : Prop := {
  sp_served : served s s' ev;
  sp_shape : shape s';
  sp_const : const_quiet (vals s') s';
  sp_other : ∀ j, j ≠ i → vals s' j = vals s j;
  sp_le : vals s' i ≤ vals s i;
  sp_quiet : ∀ q, q ∈ l → q ∈ pending_alter (sems (sma s') i) → vals s' i + op1 (queues s' q) < 0
}.

Lemma sem_pass_nil i l s :
  shape s → const_quiet (vals s) s → l = [] ∨ vals s i = 0 → sem_pass i l s s [].
Proof.
  intros H Hq Hl. split; [apply served_refl|done|done|done|done|]. intros q Hql Hin.
  destruct Hl as [->|Hz]; [by apply elem_of_nil in Hql|]. apply (sh_alter1 _ H) in Hin as (_ & _ & _ & ?). lia.
Qed.

Lemma sem_pass_cons i q l s s1 s' ev1 ev :
  served s s1 ev1 → (∀ j, j ≠ i → vals s1 j = vals s j) → vals s1 i ≤ vals s i →
  q ∉ pending_alter (sems (sma s1) i) ∨ vals s i + op1 (queues s q) < 0 →
  sem_pass i l s1 s' ev → sem_pass i (q :: l) s s' (ev1 ++ ev).
Proof.
  intros S1 V1 L1 Hq [S' H' Q' V' L' Hb]. pose proof (served_trans _ _ _ _ _ S1 S') as S. split; [done|done|done| |lia|].
  - intros j Hj. rewrite V' by done. by apply V1.
  - intros x [->|Hx]%elem_of_cons Hin; [|by apply Hb]. destruct (fixed_queue s s' q (sv_fixed _ _ _ S)) as (_ & _ & -> & _).
    destruct Hq as [Hq|Hq]; [|lia]. destruct Hq. by apply (served_lists _ _ _ S').
Qed.

(** A simple request that is executed alters its semaphore alone. *)
Lemma execute_simple s s1 q i :
  shape s → const_quiet (vals s) s → sma_alter (sma s) = [] → q ∈ pending_alter (sems (sma s) i) →
  executed s (unlink_queue q s1) q 0 →
  let s2 := unlink_queue q s1 in
  ∃ s3 c ev, do_smart_wakeup_zero s2 (Some (sops (queues s2 q))) = (s3, c) ∧ check_restart s3 q = false ∧
    let s4 := wake_up_sem_queue_prepare q 0 s3 in
    served s s4 ev ∧ shape s4 ∧ const_quiet (vals s4) s4 ∧ (∀ j, j ≠ i → vals s4 j = vals s j) ∧ vals s4 i ≤ vals s i ∧
    sma_alter (sma s4) = [] ∧ pending_alter (sems (sma s4) i) = dropped [q] (pending_alter (sems (sma s) i)).
Proof.
  intros H Hq Hnil Hqa X s2. assert (pending (sma s) q) as Hp by (right; right; left; by exists i).
  destruct (simple_outcome s q i H Hqa) as (sop & Es & En & Eo & Hneg).
  destruct (execute_alter s s1 q H Hq Hp X) as (s3 & c3 & ev & E3 & S3 & H3 & Q3 & V3 & _ & La & Ls & Vf).
  exists s3, c3, ((q, 0) :: ev). split; [done|]. split.
  { unfold check_restart. rewrite La, Hnil. cbn. unfold nsops.
    destruct (fixed_queue s _ q (sv_fixed _ _ _ S3)) as (Es4 & _). cbn in Es4. rewrite fn_lookup_insert in Es4. cbn in Es4.
    by rewrite Es4, Es. }
  intros s4. split; [done|]. split; [done|]. split; [done|]. split.
  { intros j Hj. apply Vf. rewrite Es. cbn. rewrite En. by intros ?%list_elem_of_singleton. }
  split; [|split; [change (sma s4) with (sma s3); by rewrite La, Hnil|apply Ls]].
  change (vals s4) with (vals s3). rewrite V3. destruct (serial_one _ _ _ _ _ _ (ex_serial _ _ _ _ X)) as (a1 & Hr & _).
  cbn [req fst snd] in Hr. rewrite Es in Hr.
  pose proof (run_simple sop (vals s) (undos s (undo (queues s q))) Hneg ltac:(apply (sh_val _ H))) as Hrun.
  rewrite Hr in Hrun. rewrite Hrun, En, fn_lookup_insert. lia.
Qed.

Lemma update_pass_sem l i : 0 ≤ i → ∀ s c,
  shape s → const_quiet (vals s) s → sma_alter (sma s) = [] → NoDup l → (∀ q, q ∈ l → q ∈ pending_alter (sems (sma s) i)) →
  ∃ s' c' ev, update_pass l i s c = (s', c', false) ∧ sem_pass i l s s' ev.
Proof.
  intros Hi. induction l as [|q l IH]; intros s c H Hq Hnil Hn Hl; cbn [update_pass].
  { exists s, c, []. split; [done|]. by apply sem_pass_nil; [| |left]. }
  apply list.NoDup_cons in Hn as [Hql Hn]. assert (q ∈ pending_alter (sems (sma s) i)) as Hqa by (apply Hl; by left).
  assert (pending (sma s) q) as Hp by (right; right; left; by exists i).
  assert (∀ x, x ∈ l → x ∈ dropped [q] (pending_alter (sems (sma s) i))) as Hl'.
  { intros x Hx. rewrite elem_dropped, list_elem_of_singleton. split; [by intros ->|apply Hl; by right]. }
  assert (∀ x, q ∉ dropped [q] x) as Hgone by (intros x; rewrite elem_dropped, list_elem_of_singleton; tauto).
  change (semval (sems (sma s) i)) with (vals s i). rewrite (proj2 (Z.eqb_neq i (-1))) by lia. cbn [negb andb].
  destruct (Z.eqb_spec (vals s i) 0) as [Hz|Hz].
  { exists s, c, []. split; [done|]. by apply sem_pass_nil; [| |right]. }
  destruct (perform_cases s q (sh_good _ H q Hp)) as [(k & E & Ec)|(s1 & e & E & He & X & Hvu & _)]; rewrite E.
  - cbn [Z.ltb Z.compare]. pose proof (note_blocking_served q (WouldBlock k) s) as S1.
    destruct (IH (note_blocking q (WouldBlock k) s) c) as (s' & c' & ev & E' & P').
    { by apply note_blocking_shape. } { apply (const_quiet_sub _ s); [apply S1|done|done|done]. }
    { done. } { done. } { intros x Hx. apply Hl. by right. }
    exists s', c', ([] ++ ev). split; [done|]. eapply sem_pass_cons; [exact S1|done|done| |done]. right.
    destruct (simple_outcome s q i H Hqa) as (sop & Es & En & Eo & Hneg).
    pose proof (run_simple sop (vals s) (undos s (undo (queues s q))) Hneg ltac:(apply (sh_val _ H))) as Hrun.
    unfold outcome_of in Ec. rewrite Es in Ec. fold (vals s) in Ec. rewrite Ec, En in Hrun. lia.
  - destruct (Z.ltb_spec 0 e); [lia|]. destruct (Z.eqb_spec e 0) as [->|Hne]; cbn [negb].
    + destruct (execute_simple s s1 q i H Hq Hnil Hqa X) as (s3 & c3 & ev & -> & -> & S4 & H4 & Q4 & Vj & Vi & L4 & Ls4).
      destruct (IH _ true H4 Q4 L4 Hn) as (s' & c' & ev' & E' & P'); [by rewrite Ls4|].
      exists s', c', (ev ++ ev'). split; [done|]. eapply sem_pass_cons; [exact S4|done|done| |done]. left. by rewrite Ls4.
    + destruct (Hvu Hne) as [Hv1 Hu1]. destruct (execute_fail s s1 q e H Hp Hne X Hv1 Hu1) as (S3 & H3 & V3 & _ & La & Ls & Q3).
      destruct (IH _ c H3) as (s' & c' & ev & E' & P').
      { rewrite V3. by apply Q3. } { by rewrite La, Hnil. } { done. } { by rewrite Ls. }
      exists s', c', ([(q, e)] ++ ev). split; [done|].
      eapply sem_pass_cons; [exact S3|by rewrite V3|by rewrite V3| |done]. left. by rewrite Ls.
Qed.

(** ** All queues *)

(** The simple requests wait rightly with the values [v]. *)
Definition alter_quiet (v : Z → Z) (s : sem_state) : Prop :=
  ∀ i q, q ∈ pending_alter (sems (sma s) i) → v i + op1 (queues s q) < 0.

Record quiet (s : sem_state) : Prop := {
  qt_const : const_quiet (vals s) s;
  qt_alter : alter_quiet (vals s) s;
  qt_global : ∀ q, q ∈ sma_alter (sma s) → blocked s q
}.

Lemma update_nums_ok fuel nums : ∀ s o,
  shape s → const_quiet (vals s) s → sma_alter (sma s) = [] → (0 < fuel)%nat → (∀ i, i ∈ nums → 0 ≤ i) →
  (∀ i q, i ∉ nums → q ∈ pending_alter (sems (sma s) i) → vals s i + op1 (queues s q) < 0) →
  ∃ s' o' ev, update_nums fuel nums s o = Ok (s', o') ∧ served s s' ev ∧ shape s' ∧ sma_alter (sma s') = [] ∧
    const_quiet (vals s') s' ∧ alter_quiet (vals s') s'.
Proof.
  induction nums as [|i nums IH]; intros s o H Hq Hnil Hf Hr Ha; cbn [update_nums].
  { exists s, o, []. split; [done|]. split; [apply served_refl|]. split; [done|]. split; [done|]. split; [done|].
    intros i q. by apply Ha, not_elem_of_nil. }
  destruct fuel as [|fuel]; [lia|]. cbn [update_queue]. assert (0 ≤ i) as Hi by (apply Hr; by left).
  rewrite (proj2 (Z.eqb_neq i (-1))) by lia. destruct (sh_nodup _ H) as (_ & _ & Na & _).
  destruct (update_pass_sem (pending_alter (sems (sma s) i)) i Hi s false H Hq Hnil (Na i)) as (s1 & c1 & e1 & -> & P1); [done|].
  cbn [mbind outcome_bind]. pose proof (sp_served _ _ _ _ _ P1) as S1. destruct (served_lists _ _ _ S1) as (_ & _ & Hsub & _).
  assert (sma_alter (sma s1) = []) as Hnil1 by (destruct (sv_without _ _ _ S1) as (-> & _); by rewrite Hnil).
  destruct (IH s1 (o || c1)) as (s' & o' & ev & E & S' & R).
  { apply P1. } { apply P1. } { done. } { done. } { intros j Hj. apply Hr. by right. }
  { intros j q Hj Hin. destruct (decide (j = i)) as [->|Hne]; [apply P1; [by apply Hsub|done]|].
    rewrite (sp_other _ _ _ _ _ P1) by done. destruct (fixed_queue s s1 q (sv_fixed _ _ _ S1)) as (_ & _ & -> & _).
    apply Ha; [by intros [?|?]%elem_of_cons|by apply Hsub]. }
  exists s', o', (e1 ++ ev). split; [done|]. split; [by eapply served_trans|done].
Qed.

(** States that differ in the time of the last operation, the last process,
    the lock and the undo structures of the set. *)
Record same (s s' : sem_state) : Prop := {
  sm_vals : ∀ i, vals s' i = vals s i;
  sm_undos : undos s' = undos s;
  sm_queues : queues s' = queues s;
  sm_alter : sma_alter (sma s') = sma_alter (sma s);
  sm_const : sma_const (sma s') = sma_const (sma s);
  sm_lists : ∀ i, pending_alter (sems (sma s') i) = pending_alter (sems (sma s) i) ∧
                  pending_const (sems (sma s') i) = pending_const (sems (sma s) i);
  sm_count : complex_count (sma s') = complex_count (sma s);
  sm_nsems : sem_nsems (sma s') = sem_nsems (sma s)
}.

Lemma same_without s s' : same s s' → without [] (sma s) (sma s').
Proof.
  intros M. split; [rewrite dropped_nil; apply M|]. split; [rewrite dropped_nil; apply M|]. intros i. rewrite !dropped_nil. apply M.
Qed.

Lemma same_pending s s' q : same s s' → pending (sma s') q ↔ pending (sma s) q.
Proof.
  intros M%same_without. rewrite (without_pending _ _ _ q M). split; [tauto|]. intros ?. split; [apply not_elem_of_nil|done].
Qed.

Lemma same_shape s s' :
  shape s → same s s' → 0 ≤ use_global_lock (sma s') ≤ USE_GLOBAL_LOCK_HYSTERESIS →
  (complex_count (sma s) ≠ 0 → 0 < use_global_lock (sma s')) → shape s'.
Proof.
  intros H M Hl Hc. destruct M as [Mv Mu Mq Ma Mc Ml Mk Mn] eqn:E. split; rewrite ?Mq, ?Mu, ?Mn, ?Ma, ?Mc, ?Mk; try apply H; try done.
  - intros i. rewrite Mv. apply H.
  - intros q. rewrite (same_pending s s' q M). apply H.
  - intros i q. rewrite (proj1 (Ml i)). apply H.
  - intros i q. rewrite (proj2 (Ml i)). apply H.
  - destruct (sh_nodup _ H) as (? & ? & N1 & N2). split; [done|]. split; [done|].
    split; intros i; [rewrite (proj1 (Ml i))|rewrite (proj2 (Ml i))]; done.
  - intros Hn i. rewrite (proj1 (Ml i)). by apply (sh_split _ H).
  - intros Hn i. rewrite (proj1 (Ml i)). by apply (sh_merge _ H).
Qed.

Lemma same_vals s s' : same s s' → vals s' = vals s.
Proof. intros M. apply functional_extensionality, M. Qed.

Lemma same_blocked s s' q : same s s' → blocked s' q ↔ blocked s q.
Proof.
  intros M. unfold blocked, outcome_of. fold (vals s') (vals s). by rewrite (same_vals _ _ M), (sm_undos _ _ M), (sm_queues _ _ M).
Qed.

Lemma same_const_quiet s s' v : same s s' → const_quiet v s → const_quiet v s'.
Proof.
  intros M [Q1 Q2]. split.
  - intros i. rewrite (proj2 (sm_lists _ _ M i)). apply Q1.
  - intros q. rewrite (sm_const _ _ M), (sm_queues _ _ M). apply Q2.
Qed.

Lemma same_quiet s s' : same s s' → quiet s → quiet s'.
Proof.
  intros M [Q1 Q2 Q3]. split.
  - rewrite (same_vals _ _ M). by eapply same_const_quiet.
  - intros i q. rewrite (same_vals _ _ M), (proj1 (sm_lists _ _ M i)), (sm_queues _ _ M). apply Q2.
  - intros q. rewrite (sm_alter _ _ M), (same_blocked _ _ q M). apply Q3.
Qed.

Lemma same_served s s' :
  same s s' → wake_q s' = wake_q s → list_id (sma s') = list_id (sma s) → deleted (sma s') = deleted (sma s) →
  use_global_lock (sma s') = use_global_lock (sma s) → now s' = now s → served s s' [].
Proof.
  intros M Ew El Ed Eg Et. split; [split| |by apply same_without| |by intros q e ?%elem_of_nil|by rewrite Ew, app_nil_r|constructor|].
  - intros q. unfold req. by rewrite (sm_queues _ _ M).
  - intros q. by rewrite (sm_queues _ _ M).
  - rewrite (sm_nsems _ _ M). done.
  - rewrite (same_vals _ _ M), (sm_undos _ _ M). constructor.
  - intros q _. by rewrite (sm_queues _ _ M).
  - by intros q ?%elem_of_nil.
Qed.

Lemma set_semotime_same s ops : same s (set_semotime s ops).
Proof.
  unfold set_semotime. set (i := match ops with Some (sop :: _) => sem_num sop | _ => 0 end).
  split; try done; intros j; unfold vals, values; cbn;
    (destruct (decide (j = i)) as [->|]; [by rewrite fn_lookup_insert|by rewrite fn_lookup_insert_ne]).
Qed.

Lemma set_semotime_served s ops : served s (set_semotime s ops) [].
Proof. apply same_served; [apply set_semotime_same|done..]. Qed.

Lemma elem_increased l i : i ∈ increased l → i ∈ sem_num <$> l.
Proof. unfold increased. rewrite !list_elem_of_fmap. intros (sop & -> & Hs%list_elem_of_filter). exists sop. tauto. Qed.

(** A change from the values [v0], with which everything waited rightly: the
    woken requests are executed one after another, and all others wait rightly. *)
Lemma do_smart_update_ok fuel s ops otime v0 :
  shape s → (∀ i, i ∈ nums_of s ops → 0 ≤ i) → (∀ i, i ∉ nums_of s ops → vals s i = v0 i) →
  (∀ l i, ops = Some l → i ∉ increased l → vals s i ≤ v0 i) →
  const_quiet v0 s → alter_quiet v0 s → (length (sma_alter (sma s)) < fuel)%nat →
  ∃ s' ev, do_smart_update fuel s ops otime = Ok s' ∧ served s s' ev ∧ shape s' ∧ quiet s'.
Proof.
  intros H Hr Hsame Hle Hc Ha Hf. unfold do_smart_update.
  destruct (do_smart_wakeup_zero_ok s ops v0 H Hr Hsame Hc) as (s1 & c1 & e1 & -> & Z1 & Q1).
  destruct (const_events_lists s s1 e1 H (zw_served _ _ _ Z1) (zw_const _ _ _ Z1)) as [La Ls].
  pose proof (sv_fixed _ _ _ (zw_served _ _ _ Z1)) as F1. pose proof (zw_shape _ _ _ Z1) as H1.
  assert (∃ s2 o e2, (if negb (bool_decide (sma_alter (sma s1) = [])) then
             '(s, c) ← update_queue fuel s1 (-1) false; Ok (s, otime || c1 || c)
           else match ops with
                | None => update_nums fuel (all_nums s1) s1 (otime || c1)
                | Some l => update_nums fuel (increased l) s1 (otime || c1)
                end) = Ok (s2, o) ∧ served s1 s2 e2 ∧ shape s2 ∧ quiet s2) as (s2 & o & e2 & -> & S2 & H2 & Q2).
  { case_bool_decide as Hnil; cbn [negb].
    - set (nums := match ops with Some l => increased l | None => all_nums s1 end).
      destruct (update_nums_ok fuel nums s1 (otime || c1) H1 Q1 Hnil) as (s2 & o & e2 & E2 & S2 & H2 & N2 & Q2 & A2); [lia| | |].
      + intros i Hi. apply Hr. destruct ops as [l|]; cbn; [by apply elem_increased|].
        subst nums. cbn in Hi. rewrite elem_all_nums in Hi |- *. by destruct (fx_array _ _ F1) as (E & _); rewrite <- E.
      + intros i q Hi Hin. rewrite Ls in Hin. rewrite (zw_vals _ _ _ Z1). destruct (fixed_queue s s1 q F1) as (_ & _ & -> & _).
        specialize (Ha i q Hin). assert (vals s i ≤ v0 i); [|lia]. destruct ops as [l|]; [by apply (Hle l)|].
        rewrite Hsame; [done|]. cbn. rewrite elem_all_nums. subst nums. cbn in Hi. rewrite elem_all_nums in Hi.
        by destruct (fx_array _ _ F1) as (E & _); rewrite E in Hi.
      + exists s2, o, e2. split; [by destruct ops|]. split; [done|]. split; [done|]. split; [done|done|].
        intros q Hq. rewrite N2 in Hq. by apply elem_of_nil in Hq.
    - destruct (update_queue_global fuel s1 false H1 Q1) as (s2 & c2 & e2 & -> & S2 & H2 & Q2 & B2); [by rewrite La|].
      exists s2, (otime || c1 || c2), e2. split; [done|]. split; [done|]. split; [done|]. split; [done| |done].
      intros i q Hq. apply (served_lists _ _ _ S2) in Hq. rewrite (sh_split _ H1 Hnil i) in Hq. by apply elem_of_nil in Hq. }
  cbn [mbind outcome_bind]. pose proof (served_trans _ _ _ _ _ (zw_served _ _ _ Z1) S2) as S.
  destruct o; [|by exists s2, (e1 ++ e2)].
  exists (set_semotime s2 ops), ((e1 ++ e2) ++ []). split; [done|]. split; [eapply served_trans; [done|apply set_semotime_served]|].
  split; [|by eapply same_quiet; [apply set_semotime_same|]].
  eapply same_shape; [done|apply set_semotime_same| |]; apply (sh_lock _ H2).
Qed.

(** Waiting rightly is being blocked. *)
Lemma quiet_blocked s q : shape s → quiet s → pending (sma s) q → blocked s q.
Proof.
  intros H [[Q1 Q2] Qa Qg] Hp.
  assert (alter (queues s q) = false → waits_zero s q → blocked s q) as Hc.
  { intros Ha Hw. destruct (const_outcome s q H Hp Ha) as [Hd|[Hb _]]; [|done].
    pose proof (gq_alter _ _ (sh_good _ H q Hp)) as Hz. rewrite Ha in Hz.
    destruct (run_sops_zero (sops (queues s q)) 0 (vals s) (undos s (undo (queues s q))) Hz) as [[_ Hall]|[[j Hj] _]].
    - split; [apply (sh_val _ H)|apply (sh_adj _ H)].
    - exfalso. revert Hall. apply Exists_not_Forall. eapply Exists_impl; [|exact Hw]. by cbn.
    - by exists j. }
  pose proof Hp as [Hq|[Hq|[[i Hq]|[i Hq]]]].
  - by apply Qg.
  - apply Hc; [by apply (sh_const _ H)|by apply Q2].
  - destruct (simple_outcome s q i H Hq) as (sop & Es & En & Eo & Hneg). specialize (Qa i q Hq).
    exists 0%nat. unfold outcome_of. fold (vals s). rewrite Es. cbn. rewrite decide_True; [done|]. rewrite En. right. lia.
  - destruct (sh_const1 _ H i q Hq) as (Ha & Hnc & Hnum). apply Hc; [done|].
    destruct (simple_queue _ _ (sh_good _ H q Hp) Hnc) as (sop & Es & _ & En). unfold waits_zero. rewrite Es. constructor.
    rewrite <- En, Hnum. apply Q1. intros E. rewrite E in Hq. by apply elem_of_nil in Hq.
Qed.

Lemma blocked_quiet s : shape s → (∀ q, pending (sma s) q → blocked s q) → quiet s.
Proof.
  intros H Hb.
  assert (∀ q, pending (sma s) q → alter (queues s q) = false → waits_zero s q) as Hw.
  { intros q Hp Ha. destruct (Hb q Hp) as [k Hk]. destruct (const_outcome s q H Hp Ha) as [Hd|[_ ?]]; [|done]. congruence. }
  split; [split| |].
  - intros i Hn. destruct (pending_const (sems (sma s) i)) as [|q l] eqn:El; [done|].
    assert (q ∈ pending_const (sems (sma s) i)) as Hq by (rewrite El; by left).
    assert (pending (sma s) q) as Hp by (right; right; right; by exists i).
    destruct (sh_const1 _ H i q Hq) as (Ha & Hnc & Hnum). specialize (Hw q Hp Ha). unfold waits_zero in Hw.
    destruct (simple_queue _ _ (sh_good _ H q Hp) Hnc) as (sop & Es & _ & En). rewrite Es in Hw.
    apply Exists_cons in Hw as [Hw|Hw]; [|by apply Exists_nil in Hw]. by rewrite <- Hnum, En.
  - intros q Hq. apply Hw; [by right; left|by apply (sh_const _ H)].
  - intros i q Hq. destruct (simple_outcome s q i H Hq) as (sop & Es & En & Eo & Hneg).
    destruct (Hb q ltac:(right; right; left; by exists i)) as [k Hk].
    pose proof (run_simple sop (vals s) (undos s (undo (queues s q))) Hneg ltac:(apply (sh_val _ H))) as Hrun.
    unfold outcome_of in Hk. rewrite Es in Hk. fold (vals s) in Hk. rewrite Hk, En in Hrun. lia.
  - intros q Hq. apply Hb. by left.
Qed.

End SysvSemUpdate.
