(* ===== verification/SysvSemLock.v ===== *)
(** * Locks and queues of a semaphore set

    [sem_lock] and [sem_unlock] (ipc_sem/src/sem.c) with the queues that are
    merged when a request of several operations waits and split when none is
    left, and the place at which a request waits. *)

From stdpp Require Import base numbers list option functions.
From Stdlib Require Import ZArith Lia FunctionalExtensionality.
From S2P Require Import Prelude SysvSem SysvSemAtomic SysvSemInv SysvSemWake SysvSemUpdate.

Open Scope Z_scope.

Module SysvSemLock.
Import SysvSem SysvSemAtomic SysvSemInv SysvSemWake SysvSemUpdate.

(** ** States that differ in the place where requests wait *)

Record regrouped (s s' : sem_state) : Prop := {
  rg_vals : vals s' = vals s;
  rg_undos : undos s' = undos s;
  rg_queues : queues s' = queues s;
  rg_wake : wake_q s' = wake_q s;
  rg_id : list_id (sma s') = list_id (sma s);
  rg_deleted : deleted (sma s') = deleted (sma s);
  rg_nsems : sem_nsems (sma s') = sem_nsems (sma s);
  rg_pending : ∀ q, pending (sma s') q ↔ pending (sma s) q
}.

Lemma regrouped_refl s : regrouped s s.
Proof. by split. Qed.

Lemma regrouped_trans s1 s2 s3 : regrouped s1 s2 → regrouped s2 s3 → regrouped s1 s3.
Proof. intros [] []. split; try congruence. intros q. naive_solver. Qed.

Lemma same_regrouped s s' :
  same s s' → wake_q s' = wake_q s → list_id (sma s') = list_id (sma s) → deleted (sma s') = deleted (sma s) → regrouped s s'.
Proof. intros M ? ? ?. split; [by apply same_vals|apply M|apply M|done|done|done|apply M|]. intros q. by apply same_pending. Qed.

Lemma regrouped_blocked s s' q : regrouped s s' → blocked s' q ↔ blocked s q.
Proof.
  intros R. unfold blocked, outcome_of. fold (vals s') (vals s). by rewrite (rg_vals _ _ R), (rg_undos _ _ R), (rg_queues _ _ R).
Qed.

Lemma regrouped_quiet s s' : shape s → shape s' → regrouped s s' → quiet s → quiet s'.
Proof.
  intros H H' R Q. apply blocked_quiet; [done|]. intros q Hp%(rg_pending _ _ R). apply (regrouped_blocked s); [done|]. by apply quiet_blocked.
Qed.

(** ** Taking and leaving the lock *)

Lemma set_global_same s g : same s (upd_sma (set_global g) s).
Proof. by split. Qed.

(** What holds while the lock [n] is held. *)
Record held (s : sem_state) (n : Z) : Prop := {
  hd_shape : shape s;
  hd_global : n = SEM_GLOBAL_LOCK → 0 < use_global_lock (sma s);
  hd_local : n ≠ SEM_GLOBAL_LOCK → complex_count (sma s) = 0 ∧ sma_alter (sma s) = []
}.

(** What holds while no lock is held: every request waits rightly, and the
    requests of one operation wait at their semaphore unless one of several
    operations waits too. *)
Record rest (s : sem_state) : Prop := {
  rs_shape : shape s;
  rs_quiet : quiet s;
  rs_simple : complex_count (sma s) = 0 → sma_alter (sma s) = [];
  rs_owned : ∀ q, pending (sma s) q → undo (queues s q) = 0 ∨ undo (queues s q) ∈ list_id (sma s)
}.

Definition single (ops : option (list sembuf)) : Prop := ∃ sop, ops = Some [sop].

Lemma sem_lock_ok s ops s1 n :
  rest s → (∀ l sop, ops = Some l → sop ∈ l → 0 ≤ sem_num sop) → sem_lock s ops = (s1, n) →
  held s1 n ∧ same s s1 ∧ regrouped s s1 ∧ (¬ single ops → n = SEM_GLOBAL_LOCK ∧ use_global_lock (sma s1) = USE_GLOBAL_LOCK_HYSTERESIS) ∧
  (complex_count (sma s1) = 0 → sma_alter (sma s1) = []).
Proof.
  intros [H _ Hs _] Hn. unfold sem_lock. destruct (sh_lock _ H) as [Hl1 Hl2].
  assert (held (upd_sma complexmode_enter s) SEM_GLOBAL_LOCK ∧ same s (upd_sma complexmode_enter s) ∧
          regrouped s (upd_sma complexmode_enter s)) as (Hh & M & R).
  { split; [|split; [apply set_global_same|by apply same_regrouped; [apply set_global_same|..]]].
    split; [|done|done]. eapply same_shape; [done|apply set_global_same|done|done]. }
  destruct ops as [[|sop [|sop' l]]|]; try (intros [= <- <-]; split; [done|]; split; [done|]; split; [done|]; by split).
  assert (single (Some [sop])) as Hsi by (by exists sop).
  destruct (Z.eqb_spec (use_global_lock (sma s)) 0) as [E|E]; intros [= <- <-]; (split; [|split; [by split|by split; [apply regrouped_refl|]]]).
  - split; [done| |].
    + intros En. specialize (Hn _ sop eq_refl ltac:(by left)). unfold SEM_GLOBAL_LOCK in En. lia.
    + intros _. assert (complex_count (sma s) = 0) as Hc; [|split; [done|by apply Hs]].
      destruct (decide (complex_count (sma s) = 0)) as [?|Hc]; [done|]. specialize (Hl2 Hc). lia.
  - split; [done| |done]. intros _. lia.
Qed.

(** ** Back to the queues of the semaphores *)

Lemma unmerge_loop_spec l qs : ∀ a, ∃ f, unmerge_loop l qs a = set_sems f a ∧ ∀ i,
  semval (f i) = semval (sems a i) ∧ pending_const (f i) = pending_const (sems a i) ∧
  pending_alter (f i) = pending_alter (sems a i) ++ filter (λ q, num1 (qs q) = i) l.
Proof.
  induction l as [|q l IH]; intros a; cbn [unmerge_loop].
  { exists (sems a). split; [by destruct a|]. intros i. by rewrite app_nil_r. }
  fold (num1 (qs q)). destruct (IH (upd_sem (num1 (qs q)) (λ m, set_alter (pending_alter m ++ [q]) m) a)) as (f & -> & Hf).
  exists f. split; [done|]. intros i. destruct (Hf i) as (-> & -> & ->). unfold upd_sem. cbn [sems set_sems].
  destruct (decide (i = num1 (qs q))) as [->|Hne].
  - rewrite fn_lookup_insert, filter_cons_True by done. cbn [pending_alter set_alter semval pending_const]. by rewrite <- app_assoc.
  - by rewrite fn_lookup_insert_ne, filter_cons_False by congruence.
Qed.

Lemma unmerge_spec s : complex_count (sma s) = 0 →
  ∃ f, unmerge_queues s = upd_sma (λ a, set_sma_alter [] (set_sems f a)) s ∧ ∀ i,
    semval (f i) = semval (sems (sma s) i) ∧ pending_const (f i) = pending_const (sems (sma s) i) ∧
    pending_alter (f i) = pending_alter (sems (sma s) i) ++ filter (λ q, num1 (queues s q) = i) (sma_alter (sma s)).
Proof.
  intros Hc. unfold unmerge_queues. rewrite Hc. cbn [negb Z.eqb].
  destruct (unmerge_loop_spec (sma_alter (sma s)) (queues s) (sma s)) as (f & E & Hf). exists f. split; [|done].
  unfold upd_sma. by rewrite E.
Qed.

(** Without requests of several operations, the queue of the set holds
    requests that wait for one semaphore. *)
Lemma count_zero s q : shape s → complex_count (sma s) = 0 → q ∈ sma_alter (sma s) →
  alter (queues s q) = true ∧ ¬ complex (queues s q) ∧ op1 (queues s q) < 0.
Proof.
  intros H Hc Hq. destruct (sh_alter _ H q Hq) as [Ha Ho]. assert (¬ complex (queues s q)) as Hn; [|naive_solver].
  intros Hx. rewrite (sh_count _ H) in Hc. assert (q ∈ filter (λ q, complex (queues s q)) (sma_alter (sma s))) as Hin by (by apply list_elem_of_filter).
  destruct (filter _ (sma_alter (sma s))); [by apply elem_of_nil in Hin|cbn in Hc; lia].
Qed.

Lemma unmerge_ok s n : held s n → quiet s → n = SEM_GLOBAL_LOCK → complex_count (sma s) = 0 →
  let s' := unmerge_queues s in
  shape s' ∧ quiet s' ∧ sma_alter (sma s') = [] ∧ regrouped s s' ∧ use_global_lock (sma s') = use_global_lock (sma s) ∧
  complex_count (sma s') = 0.
Proof.
  intros [H Hg _] Q Hn Hc s'. destruct (unmerge_spec s Hc) as (f & E & Hf). subst s'. rewrite E.
  set (s' := upd_sma _ s).
  assert (vals s' = vals s) as Ev by (apply functional_extensionality; intros i; apply Hf).
  assert (∀ i, pending_alter (sems (sma s') i) = pending_alter (sems (sma s) i) ++ filter (λ q, num1 (queues s q) = i) (sma_alter (sma s))) as Ea
    by (intros i; apply Hf).
  assert (∀ i, pending_const (sems (sma s') i) = pending_const (sems (sma s) i)) as Ec by (intros i; apply Hf).
  assert (∀ i q, q ∈ pending_alter (sems (sma s') i) ↔
    q ∈ pending_alter (sems (sma s) i) ∨ num1 (queues s q) = i ∧ q ∈ sma_alter (sma s)) as Ein.
  { intros i q. by rewrite Ea, elem_of_app, list_elem_of_filter. }
  assert (∀ q, pending (sma s') q ↔ pending (sma s) q) as Ep.
  { intros q. unfold pending. setoid_rewrite Ec. setoid_rewrite Ein. cbn. rewrite elem_of_nil. split.
    - intros [[]|[?|[[i [?|[_ ?]]]|?]]]; eauto 10.
    - intros [?|[?|[[i ?]|?]]]; [|tauto| |tauto]; right; right; left; eauto. }
  assert (shape s') as H'.
  { destruct (sh_nodup _ H) as (Na & Nc & N1 & N2). split; cbn; try apply H.
    - intros i. rewrite Ev. apply H.
    - intros q Hq%Ep. by apply (sh_good _ H).
    - intros i q [Hq|[Hi Hq]]%Ein; [by apply (sh_alter1 _ H)|].
      destruct (count_zero s q H Hc Hq) as (? & ? & ?). by split.
    - intros i q. change (f i) with (sems (sma s') i). rewrite Ec. apply (sh_const1 _ H).
    - intros q ?%elem_of_nil. done.
    - split; [constructor|]. split; [done|]. split; intros i.
      + change (f i) with (sems (sma s') i). rewrite Ea. destruct (sma_alter (sma s)) as [|x l] eqn:El; [by rewrite app_nil_r|].
        rewrite (sh_split _ H); [|by rewrite El]. by apply list.NoDup_filter.
      + change (f i) with (sems (sma s') i). rewrite Ec. apply N2.
    - done.
    - rewrite Hc. pose proof (sh_count _ H) as Hk. rewrite Hc in Hk. lia.
    - by rewrite Hc. }
  assert (regrouped s s') as R by (by split).
  split; [done|]. split; [by apply (regrouped_quiet s)|]. by split; [|split; [done|split]].
Qed.

Lemma sem_unlock_ok s n :
  held s n → quiet s → (∀ q, pending (sma s) q → undo (queues s q) = 0 ∨ undo (queues s q) ∈ list_id (sma s)) →
  rest (sem_unlock s n) ∧ regrouped s (sem_unlock s n).
Proof.
  intros Hh Q Ho. unfold sem_unlock. destruct (Z.eqb_spec n SEM_GLOBAL_LOCK) as [Hn|Hn].
  2:{ split; [|apply regrouped_refl]. split; [apply Hh|done| |done]. intros _. by apply (hd_local _ _ Hh). }
  assert (∀ s', shape s' → quiet s' → (complex_count (sma s') = 0 → sma_alter (sma s') = []) → regrouped s s' →
    0 < use_global_lock (sma s') → rest (upd_sma complexmode_tryleave s') ∧ regrouped s (upd_sma complexmode_tryleave s')) as Hleave.
  { intros s' H' Q' Hs' R' Hg'. destruct (sh_lock _ H') as [Hl _]. unfold USE_GLOBAL_LOCK_HYSTERESIS in Hl.
    set (s2 := upd_sma complexmode_tryleave s').
    assert (same s' s2 ∧ wake_q s2 = wake_q s' ∧ list_id (sma s2) = list_id (sma s') ∧ deleted (sma s2) = deleted (sma s') ∧
      0 ≤ use_global_lock (sma s2) ≤ 10 ∧ (complex_count (sma s') ≠ 0 → 0 < use_global_lock (sma s2))) as (M & E1 & E2 & E3 & Hu & Hu').
    { unfold s2, upd_sma, complexmode_tryleave. destruct (Z.eqb_spec (complex_count (sma s')) 0) as [E|E]; cbn [negb].
      - destruct (Z.eqb_spec (use_global_lock (sma s')) 1); (split; [by split|]); (do 3 (split; [done|])); cbn; [lia|].
        rewrite u32_id by lia. lia.
      - by destruct s' as [[] ? ? ? ?]. }
    assert (regrouped s s2) as R2 by (eapply regrouped_trans; [done|by apply same_regrouped]).
    split; [|done]. split.
    - by apply (same_shape s').
    - by apply (same_quiet s').
    - rewrite (sm_count _ _ M), (sm_alter _ _ M). done.
    - intros q. rewrite (rg_pending _ _ R2), (rg_queues _ _ R2), (rg_id _ _ R2). apply Ho. }
  destruct (decide (complex_count (sma s) = 0)) as [Hc|Hc].
  - destruct (unmerge_ok s n Hh Q Hn Hc) as (H' & Q' & Hs' & R' & Hg' & _). apply Hleave; [done|done|done|done|].
    rewrite Hg'. by apply (hd_global _ _ Hh).
  - assert (unmerge_queues s = s) as -> by (unfold unmerge_queues; by rewrite (proj2 (Z.eqb_neq _ _) Hc)).
    apply Hleave; [apply Hh|done|done|apply regrouped_refl|by apply (hd_global _ _ Hh)].
Qed.

Lemma sem_unlock_alter s n : (length (sma_alter (sma (sem_unlock s n))) ≤ length (sma_alter (sma s)))%nat.
Proof.
  unfold sem_unlock. destruct (n =? SEM_GLOBAL_LOCK); [|done].
  assert (∀ a, sma_alter (complexmode_tryleave a) = sma_alter a) as E.
  { intros a. unfold complexmode_tryleave. destruct (negb _); [done|]. by destruct (use_global_lock a =? 1). }
  cbn. rewrite E. unfold unmerge_queues. destruct (negb _); [done|]. cbn. lia.
Qed.

(** ** One queue for all *)

Lemma merge_sems_spec nums (g : Z → Z) : ∀ a,
  NoDup nums → (∀ i q, q ∈ pending_alter (sems a i) → g q = i) → (∀ i, NoDup (pending_alter (sems a i))) →
  NoDup (sma_alter a) → (∀ q, q ∈ sma_alter a → g q ∉ nums) →
  ∃ f l, merge_loop nums a = set_sma_alter l (set_sems f a) ∧ NoDup l ∧
    (∀ q, q ∈ l ↔ q ∈ sma_alter a ∨ ∃ i, i ∈ nums ∧ q ∈ pending_alter (sems a i)) ∧
    ∀ i, semval (f i) = semval (sems a i) ∧ pending_const (f i) = pending_const (sems a i) ∧
      pending_alter (f i) = if decide (i ∈ nums) then [] else pending_alter (sems a i).
Proof.
  induction nums as [|n nums IH]; intros a Hn Hg Hd Ha Hs; cbn [merge_loop].
  { exists (sems a), (sma_alter a). split; [by destruct a|]. split; [done|]. split; [|done].
    intros q. split; [by left|]. intros [?|(i & Hi%elem_of_nil & _)]; done. }
  apply list.NoDup_cons in Hn as [Hnn Hn].
  set (a1 := set_sma_alter (pending_alter (sems a n) ++ sma_alter a) (upd_sem n (set_alter []) a)).
  assert (∀ i, i ≠ n → sems a1 i = sems a i) as E1 by (intros i Hi; cbn; by rewrite fn_lookup_insert_ne).
  assert (sems a1 n = set_alter [] (sems a n)) as E2 by (cbn; by rewrite fn_lookup_insert).
  destruct (IH a1 Hn) as (f & l & E & Hl & Hin & Hf).
  { intros i q. destruct (decide (i = n)) as [->|Hi]; [rewrite E2; by intros ?%elem_of_nil|]. rewrite E1 by done. apply Hg. }
  { intros i. destruct (decide (i = n)) as [->|Hi]; [rewrite E2; constructor|]. by rewrite E1. }
  { apply list.NoDup_app. split; [done|]. split; [|done]. intros q Hq Hq'. apply (Hs q Hq'). rewrite (Hg n q Hq). by left. }
  { intros q [Hq|Hq]%elem_of_app; [by rewrite (Hg n q Hq)|]. intros Hin. apply (Hs q Hq). by right. }
  exists f, l. split; [done|]. split; [done|]. split.
  - intros q. rewrite Hin. cbn [sma_alter a1 set_sma_alter]. rewrite elem_of_app. split.
    + intros [[Hq|Hq]|(i & Hi & Hq)]; [right; exists n; split; [by left|done]|by left|].
      right. exists i. split; [by right|]. rewrite E1 in Hq; [done|]. by intros ->.
    + intros [Hq|(i & [->|Hi]%elem_of_cons & Hq)]; [by left; right|by left; left|].
      destruct (decide (i = n)) as [->|Hne]; [done|]. right. exists i. by rewrite E1.
  - intros i. destruct (Hf i) as (-> & -> & ->). destruct (decide (i = n)) as [->|Hi].
    + rewrite E2, decide_False, decide_True by (by try left). done.
    + rewrite E1 by done. split; [done|]. split; [done|]. apply decide_ext. rewrite elem_of_cons. naive_solver.
Qed.

Lemma simple_in_range s i q : shape s → q ∈ pending_alter (sems (sma s) i) → i ∈ all_nums s.
Proof.
  intros H Hq. destruct (simple_outcome s q i H Hq) as (sop & Es & En & _). apply elem_all_nums.
  pose proof (gq_range _ _ (sh_good _ H q (or_intror (or_intror (or_introl (ex_intro _ i Hq)))))) as Hr.
  rewrite Es in Hr. apply list.Forall_cons in Hr as [Hr _]. by rewrite En in Hr.
Qed.

Lemma merge_ok s : shape s → quiet s → complex_count (sma s) = 0 → sma_alter (sma s) = [] →
  let s' := merge_queues s in
  shape s' ∧ quiet s' ∧ regrouped s s' ∧ (∀ i, pending_alter (sems (sma s') i) = []) ∧
  use_global_lock (sma s') = use_global_lock (sma s) ∧ complex_count (sma s') = 0.
Proof.
  intros H Q Hc Hs s'. destruct (sh_nodup _ H) as (Na & Nc & N1 & N2).
  destruct (merge_sems_spec (all_nums s) (λ q, num1 (queues s q)) (sma s)) as (f & l & E & Hl & Hin & Hf).
  { apply (NoDup_fmap_2 _), NoDup_seq. }
  { intros i q Hq. by apply (sh_alter1 _ H) in Hq as (_ & _ & ? & _). }
  { done. } { done. } { rewrite Hs. by intros q ?%elem_of_nil. }
  subst s'. unfold merge_queues, upd_sma. rewrite E. set (s' := set_sma _ s).
  assert (vals s' = vals s) as Ev by (apply functional_extensionality; intros i; apply Hf).
  assert (∀ i, pending_alter (sems (sma s') i) = []) as Ea.
  { intros i. change (sems (sma s')) with f. destruct (Hf i) as (_ & _ & ->). case_decide as Hi; [done|].
    destruct (pending_alter (sems (sma s) i)) as [|q l'] eqn:El; [done|]. destruct Hi. apply (simple_in_range s i q H). rewrite El. by left. }
  assert (∀ i, pending_const (sems (sma s') i) = pending_const (sems (sma s) i)) as Ec by (intros i; apply Hf).
  assert (∀ q, q ∈ l ↔ ∃ i, q ∈ pending_alter (sems (sma s) i)) as Ein.
  { intros q. rewrite Hin, Hs, elem_of_nil. split; [intros [[]|(i & _ & ?)]; by exists i|]. intros [i Hi]. right. exists i.
    split; [by eapply simple_in_range|done]. }
  assert (∀ q, pending (sma s') q ↔ pending (sma s) q) as Ep.
  { intros q. unfold pending. setoid_rewrite Ec. setoid_rewrite Ea. setoid_rewrite elem_of_nil. cbn. rewrite Ein, Hs, elem_of_nil. naive_solver. }
  assert (∀ q, q ∈ l → alter (queues s q) = true ∧ ¬ complex (queues s q) ∧ op1 (queues s q) < 0) as Hlq.
  { intros q [i Hi]%Ein. by destruct (sh_alter1 _ H i q Hi) as (? & ? & _ & ?). }
  assert (regrouped s s') as R by (by split).
  assert (shape s') as H'; [|split; [done|]; split; [by apply (regrouped_quiet s)|by split]].
  split; cbn; try apply H; try done.
  - intros i. rewrite Ev. apply H.
  - intros q Hq%Ep. by apply (sh_good _ H).
  - intros i q. change (f i) with (sems (sma s') i). rewrite Ea. by intros ?%elem_of_nil.
  - intros i q. change (f i) with (sems (sma s') i). rewrite Ec. apply (sh_const1 _ H).
  - intros q (? & _ & ?)%Hlq. by split; [|right].
  - split; [done|]. split; [done|]. split; intros i; change (f i) with (sems (sma s') i); [rewrite Ea; constructor|by rewrite Ec].
  - rewrite Hc. pose proof (sh_count _ H) as Hk. rewrite Hc, Hs in Hk. cbn in Hk.
    assert (filter (λ q, complex (queues s q)) l = []) as ->; [|cbn; lia].
    destruct (filter _ l) as [|x l'] eqn:Ef; [done|]. assert (x ∈ filter (λ q, complex (queues s q)) l) as Hx by (rewrite Ef; by left).
    apply list_elem_of_filter in Hx as [Hx1 Hx2]. by apply Hlq in Hx2 as (_ & ? & _).
Qed.

(** ** A request begins to wait *)

Inductive place := GlobalAlter | GlobalConst | SemAlter | SemConst.

#[export] Instance place_eq_dec : EqDecision place.
Proof. solve_decision. Defined.

Definition put (P p : place) (q : Z) (l : list Z) : list Z := if decide (P = p) then l ++ [q] else l.

Lemma put_eq P q l : put P P q l = l ++ [q].
Proof. unfold put. by rewrite decide_True. Qed.

Lemma put_ne P p q l : P ≠ p → put P p q l = l.
Proof. intros. unfold put. by rewrite decide_False. Qed.

Lemma elem_put P p q l x : x ∈ put P p q l ↔ x ∈ l ∨ P = p ∧ x = q.
Proof.
  unfold put. case_decide; [rewrite elem_of_app, list_elem_of_singleton|]; tauto.
Qed.

(** [q] is appended to the queue of the set or of its semaphore. *)
Record placed (p : place) (q : Z) (s s' : sem_state) : Prop := {
  pl_vals : vals s' = vals s;
  pl_undos : undos s' = undos s;
  pl_queues : queues s' = queues s;
  pl_wake : wake_q s' = wake_q s;
  pl_id : list_id (sma s') = list_id (sma s);
  pl_deleted : deleted (sma s') = deleted (sma s);
  pl_nsems : sem_nsems (sma s') = sem_nsems (sma s);
  pl_lock : use_global_lock (sma s') = use_global_lock (sma s);
  pl_alter : sma_alter (sma s') = put GlobalAlter p q (sma_alter (sma s));
  pl_const : sma_const (sma s') = put GlobalConst p q (sma_const (sma s));
  pl_sems : ∀ i, pending_alter (sems (sma s') i) =
      (if decide (i = num1 (queues s q)) then put SemAlter p q (pending_alter (sems (sma s) i)) else pending_alter (sems (sma s) i)) ∧
    pending_const (sems (sma s') i) =
      (if decide (i = num1 (queues s q)) then put SemConst p q (pending_const (sems (sma s) i)) else pending_const (sems (sma s) i));
  pl_count : complex_count (sma s') = complex_count (sma s) + (if decide (complex (queues s q)) then 1 else 0)
}.

(** The place is the one for the request. *)
Definition fits (p : place) (s : sem_state) (q : Z) : Prop :=
  let Q := queues s q in
  match p with
  | GlobalAlter => alter Q = true ∧ (complex Q ∨ op1 Q < 0 ∧ complex_count (sma s) ≠ 0) ∧ ∀ i, pending_alter (sems (sma s) i) = []
  | GlobalConst => alter Q = false ∧ complex Q ∧ ∀ i, pending_alter (sems (sma s) i) = []
  | SemAlter => alter Q = true ∧ ¬ complex Q ∧ op1 Q < 0 ∧ complex_count (sma s) = 0 ∧ sma_alter (sma s) = []
  | SemConst => alter Q = false ∧ ¬ complex Q
  end.

Lemma placed_pending p q s s' x : placed p q s s' → pending (sma s') x ↔ pending (sma s) x ∨ x = q.
Proof.
  intros P. unfold pending. rewrite (pl_alter _ _ _ _ P), (pl_const _ _ _ _ P), !elem_put. split.
  - intros [[?|[_ ?]]|[[?|[_ ?]]|[[i Hi]|[i Hi]]]]; [tauto|tauto|tauto|tauto| |];
      [rewrite (proj1 (pl_sems _ _ _ _ P i)) in Hi|rewrite (proj2 (pl_sems _ _ _ _ P i)) in Hi];
      (case_decide; [rewrite elem_put in Hi|]); naive_solver.
  - intros [[?|[?|[[i Hi]|[i Hi]]]]| ->]; [tauto|tauto| | |].
    + right; right; left. exists i. rewrite (proj1 (pl_sems _ _ _ _ P i)). case_decide; [rewrite elem_put|]; tauto.
    + right; right; right. exists i. rewrite (proj2 (pl_sems _ _ _ _ P i)). case_decide; [rewrite elem_put|]; tauto.
    + destruct p; [by left; right|by right; left; right| |].
      * right; right; left. exists (num1 (queues s q)). rewrite (proj1 (pl_sems _ _ _ _ P _)), decide_True, elem_put by done. by right.
      * right; right; right. exists (num1 (queues s q)). rewrite (proj2 (pl_sems _ _ _ _ P _)), decide_True, elem_put by done. by right.
Qed.

Lemma put_nodup P p q l : NoDup l → q ∉ l → NoDup (put P p q l).
Proof.
  intros Hn Hq. unfold put. case_decide; [|done]. apply list.NoDup_app. split; [done|]. split; [|apply NoDup_singleton].
  intros x Hx ->%list_elem_of_singleton. done.
Qed.

Lemma placed_count p q s s' : shape s → fits p s q → placed p q s s' →
  complex_count (sma s') =
    Z.of_nat (length (filter (λ q, complex (queues s' q)) (sma_alter (sma s'))) + length (sma_const (sma s'))).
Proof.
  intros H Hf P. rewrite (pl_count _ _ _ _ P), (sh_count _ H), (pl_queues _ _ _ _ P), (pl_alter _ _ _ _ P), (pl_const _ _ _ _ P).
  destruct p; rewrite ?put_eq, ?put_ne by done.
  - rewrite list.filter_app, length_app. destruct (decide (complex (queues s q))) as [Hc|Hc].
    + rewrite filter_cons_True by done. cbn. lia.
    + rewrite filter_cons_False by done. cbn. lia.
  - destruct Hf as (_ & Hc & _). rewrite decide_True, length_app by done. cbn. lia.
  - destruct Hf as (_ & Hc & _). rewrite decide_False by done. lia.
  - destruct Hf as (_ & Hc). rewrite decide_False by done. lia.
Qed.

Lemma placed_shape p q s s' :
  shape s → ¬ pending (sma s) q → good_queue (sem_nsems (sma s)) (queues s q) → fits p s q → placed p q s s' →
  (complex (queues s q) → 0 < use_global_lock (sma s)) → shape s'.
Proof.
  intros H Hq Hg Hf P Hu. pose proof (placed_count p q s s' H Hf P) as Hcount. destruct (sh_nodup _ H) as (N1 & N2 & N3 & N4).
  assert (q ∉ sma_alter (sma s)) as Q1 by (intros ?; apply Hq; by left).
  assert (q ∉ sma_const (sma s)) as Q2 by (intros ?; apply Hq; by right; left).
  assert (∀ i, q ∉ pending_alter (sems (sma s) i)) as Q3 by (intros i ?; apply Hq; right; right; left; by exists i).
  assert (∀ i, q ∉ pending_const (sems (sma s) i)) as Q4 by (intros i ?; apply Hq; right; right; right; by exists i).
  split; rewrite ?(pl_vals _ _ _ _ P), ?(pl_undos _ _ _ _ P), ?(pl_nsems _ _ _ _ P), ?(pl_lock _ _ _ _ P); try apply H; try done.
  - intros x. rewrite (placed_pending _ _ _ _ x P), (pl_queues _ _ _ _ P). intros [?| ->]; [by apply (sh_good _ H)|done].
  - intros i x. rewrite (proj1 (pl_sems _ _ _ _ P i)), (pl_queues _ _ _ _ P). case_decide as Hi; [|apply (sh_alter1 _ H)].
    rewrite elem_put. intros [?|[<- ->]]; [by apply (sh_alter1 _ H)|]. destruct Hf as (? & ? & ? & _). by split.
  - intros i x. rewrite (proj2 (pl_sems _ _ _ _ P i)), (pl_queues _ _ _ _ P). case_decide as Hi; [|apply (sh_const1 _ H)].
    rewrite elem_put. intros [?|[<- ->]]; [by apply (sh_const1 _ H)|]. destruct Hf as (? & ?). by split.
  - intros x. rewrite (pl_alter _ _ _ _ P), (pl_queues _ _ _ _ P), elem_put. intros [?|[<- ->]]; [by apply (sh_alter _ H)|].
    destruct Hf as (? & ? & _). naive_solver.
  - intros x. rewrite (pl_const _ _ _ _ P), (pl_queues _ _ _ _ P), elem_put. intros [?|[<- ->]]; [by apply (sh_const _ H)|].
    destruct Hf as (? & ? & _). by split.
  - rewrite (pl_alter _ _ _ _ P), (pl_const _ _ _ _ P). split; [by apply put_nodup|]. split; [by apply put_nodup|].
    split; intros i; [rewrite (proj1 (pl_sems _ _ _ _ P i))|rewrite (proj2 (pl_sems _ _ _ _ P i))]; (case_decide; [by apply put_nodup|done]).
  - rewrite (pl_alter _ _ _ _ P). intros Hn i. rewrite (proj1 (pl_sems _ _ _ _ P i)). destruct p; rewrite ?(put_ne SemAlter), ?(put_ne GlobalAlter SemAlter), ?(put_ne GlobalAlter SemConst) in * by done; cbn in Hf.
    + destruct Hf as (_ & _ & ->). clear Hn. by case_decide.
    + destruct Hf as (_ & _ & ->). clear Hn. by case_decide.
    + by destruct Hf as (_ & _ & _ & _ & ?).
    + rewrite (sh_split _ H Hn). by case_decide.
  - rewrite (pl_count _ _ _ _ P). intros Hn i. rewrite (proj1 (pl_sems _ _ _ _ P i)). destruct p; rewrite ?(put_ne SemAlter), ?(put_ne GlobalAlter SemAlter), ?(put_ne GlobalAlter SemConst) in * by done; cbn in Hf.
    + destruct Hf as (_ & _ & ->). clear Hn. by case_decide.
    + destruct Hf as (_ & _ & ->). clear Hn. by case_decide.
    + destruct Hf as (_ & Hc & _ & Hz & _). rewrite decide_False in Hn by done. lia.
    + destruct Hf as (_ & Hc). rewrite decide_False, Z.add_0_r in Hn by done. rewrite (sh_merge _ H Hn). by case_decide.
  - destruct (sh_lock _ H) as [Hl1 Hl2]. split; [done|]. rewrite (pl_count _ _ _ _ P). intros Hn.
    case_decide as Hc; [by apply Hu|]. apply Hl2. lia.
Qed.

Lemma placed_blocked p q s s' x : placed p q s s' → blocked s' x ↔ blocked s x.
Proof.
  intros P. unfold blocked, outcome_of. fold (vals s') (vals s).
  by rewrite (pl_vals _ _ _ _ P), (pl_undos _ _ _ _ P), (pl_queues _ _ _ _ P).
Qed.

(** The place at which [enqueue_op] puts a request, after merging the queues
    where that is needed. *)
Lemma enqueue_placed s q :
  shape s → quiet s → (complex_count (sma s) = 0 → sma_alter (sma s) = []) → good_queue (sem_nsems (sma s)) (queues s q) →
  blocked s q →
  ∃ s1 p, regrouped s s1 ∧ shape s1 ∧ quiet s1 ∧ use_global_lock (sma s1) = use_global_lock (sma s) ∧ fits p s1 q ∧
    placed p q s1 (enqueue_op s q (sops (queues s q)) (alter (queues s q))) ∧
    (¬ complex (queues s q) → s1 = s ∧ (complex_count (sma s) = 0 → p = SemAlter ∨ p = SemConst)).
Proof.
  intros H Q Hs Hg Hb. destruct (decide (complex (queues s q))) as [Hc|Hc].
  - set (s1 := if complex_count (sma s) =? 0 then merge_queues s else s).
    assert (regrouped s s1 ∧ shape s1 ∧ quiet s1 ∧ use_global_lock (sma s1) = use_global_lock (sma s) ∧
      ∀ i, pending_alter (sems (sma s1) i) = []) as (R & H1 & Q1 & Eg & He).
    { subst s1. destruct (Z.eqb_spec (complex_count (sma s)) 0) as [E|E].
      - by destruct (merge_ok s H Q E (Hs E)) as (? & ? & ? & ? & ? & _).
      - by split; [apply regrouped_refl|]; split; [|split; [|split; [|apply (sh_merge _ H)]]]. }
    exists s1, (if alter (queues s q) then GlobalAlter else GlobalConst).
    do 4 (split; [done|]). pose proof (rg_queues _ _ R) as Eq. split.
    { destruct (alter (queues s q)) eqn:Ea; cbn; rewrite Eq; by split; [|split; [tauto|]]. }
    split; [|done]. unfold enqueue_op. fold s1. unfold complex, nsops in Hc.
    destruct (sops (queues s q)) as [|sop [|sop' l]] eqn:El; [cbn in Hc; lia|cbn in Hc; lia|].
    assert (complex (queues s1 q)) as Hc1 by (unfold complex, nsops; rewrite Eq, El; cbn; lia).
    destruct (alter (queues s q)); (split; rewrite ?put_eq, ?put_ne by done; try done;
      [intros i; rewrite !put_ne by done; by case_decide|rewrite decide_True by done; done]).
  - destruct (simple_queue _ _ Hg Hc) as (sop & Es & Eo & En). exists s.
    exists (if alter (queues s q) then if complex_count (sma s) =? 0 then SemAlter else GlobalAlter else SemConst).
    split; [apply regrouped_refl|]. do 3 (split; [done|]). unfold enqueue_op. rewrite Es. cbn [head].
    assert (alter (queues s q) = true → op1 (queues s q) < 0) as Hneg.
    { intros Ha. pose proof (gq_alter _ _ Hg) as Hnz. rewrite Ha, Es in Hnz. rewrite Eo. pose proof (sh_val _ H (sem_num sop)).
      destruct Hb as [k Hk]. unfold outcome_of in Hk. rewrite Es in Hk. cbn in Hk. fold (vals s) in Hk. case_decide as Hd; [|by case_decide].
      assert (sem_op sop ≠ 0) by (intros E; apply Hnz; by constructor). lia. }
    split.
    { destruct (alter (queues s q)) eqn:Ea; [|by split].
      destruct (Z.eqb_spec (complex_count (sma s)) 0) as [E|E]; cbn; [by split; [|split; [|split; [by apply Hneg|split; [|by apply Hs]]]]|].
      split; [done|]. split; [right; by split; [apply Hneg|]|by apply (sh_merge _ H)]. }
    split; [|by split; [|intros E; rewrite E; destruct (alter (queues s q)); auto]].
    assert (∀ A (f : Z → A) (x : A) i, <[sem_num sop := x]> f i = if decide (i = num1 (queues s q)) then x else f i) as Hins.
    { intros A f' x i. rewrite En. case_decide as Hi; [by rewrite Hi, fn_lookup_insert|by rewrite fn_lookup_insert_ne]. }
    assert (vals s = λ i, semval (sems (sma s) i)) as Hvs by done.
    destruct (alter (queues s q)); [destruct (Z.eqb_spec (complex_count (sma s)) 0) as [E|E]|]; cbn [negb];
      (split; rewrite ?decide_False, ?Z.add_0_r, ?put_eq, ?put_ne by done; try done);
      try (apply functional_extensionality; intros i; unfold vals, values; cbn; rewrite Hins; case_decide as Hi; [|done];
           by rewrite Hi, En); intros i; cbn; rewrite ?Hins, ?put_eq, ?put_ne by done; (case_decide as Hi; [rewrite ?Hi, ?En|]); done.
Qed.

Lemma enqueue_ok s n q :
  held s n → quiet s → (complex_count (sma s) = 0 → sma_alter (sma s) = []) → ¬ pending (sma s) q →
  good_queue (sem_nsems (sma s)) (queues s q) → blocked s q →
  (complex (queues s q) → n = SEM_GLOBAL_LOCK) →
  let s' := enqueue_op s q (sops (queues s q)) (alter (queues s q)) in
  held s' n ∧ quiet s' ∧ (∀ x, pending (sma s') x ↔ pending (sma s) x ∨ x = q) ∧ vals s' = vals s ∧ undos s' = undos s ∧
  queues s' = queues s ∧ wake_q s' = wake_q s ∧ list_id (sma s') = list_id (sma s) ∧ deleted (sma s') = deleted (sma s) ∧
  sem_nsems (sma s') = sem_nsems (sma s).
Proof.
  intros Hh Q Hs Hq Hg Hb Hc s'. destruct (enqueue_placed s q (hd_shape _ _ Hh) Q Hs Hg Hb) as (s1 & p & R & H1 & Q1 & Eg & Hf & P & Hsi).
  fold s' in P. assert (∀ x, pending (sma s') x ↔ pending (sma s) x ∨ x = q) as Hp.
  { intros x. by rewrite (placed_pending _ _ _ _ x P), (rg_pending _ _ R). }
  pose proof (rg_queues _ _ R) as Eq. assert (shape s') as H'.
  { apply (placed_shape p q s1 s'); [done|by rewrite (rg_pending _ _ R)|by rewrite Eq, (rg_nsems _ _ R)|done|done|].
    rewrite Eq, Eg. intros Hx. by apply (hd_global _ _ Hh), Hc. }
  split; [split; [done|rewrite (pl_lock _ _ _ _ P), Eg; apply Hh|]|].
  { intros Hn. destruct (decide (complex (queues s q))) as [Hx|Hx]; [by apply Hc in Hx|]. destruct (Hsi Hx) as [-> Hpl].
    destruct (hd_local _ _ Hh Hn) as [Ec Ea]. rewrite (pl_count _ _ _ _ P), (pl_alter _ _ _ _ P), decide_False by done.
    split; [lia|]. by destruct (Hpl Ec) as [-> | ->]; rewrite put_ne. }
  split.
  { apply blocked_quiet; [done|]. intros x Hx%Hp. apply (placed_blocked p q s1 s'); [done|]. apply (regrouped_blocked s); [done|].
    destruct Hx as [Hx| ->]; [by apply quiet_blocked; [apply Hh| |]|done]. }
  split; [done|]. destruct P, R. by repeat split; congruence.
Qed.

End SysvSemLock.
