(* ===== verification/SysvSemCalls.v ===== *)
(** * System calls on a semaphore set

    What [do_semtimedop], [semctl_setval], [semctl_setall], [exit_sem],
    [freeary] and [find_alloc_undo] (ipc_sem/src/sem.c) do to a set at rest:
    their own effect, then the requests it allows, executed one after another. *)

From stdpp Require Import base numbers list option functions.
From Stdlib Require Import ZArith Lia FunctionalExtensionality.
From S2P Require Import Prelude SysvSem SysvSemAtomic SysvSemInv SysvSemWake SysvSemUpdate SysvSemLock.

Open Scope Z_scope.

Module SysvSemCalls.
Import SysvSem SysvSemAtomic SysvSemInv SysvSemWake SysvSemUpdate SysvSemLock.

(** ** Changes under the lock *)

(** New values and adjustments, and the same queues. *)
Record revalued (s s' : sem_state) : Prop := {
  rv_queues : queues s' = queues s;
  rv_alter : sma_alter (sma s') = sma_alter (sma s);
  rv_const : sma_const (sma s') = sma_const (sma s);
  rv_lists : ∀ i, pending_alter (sems (sma s') i) = pending_alter (sems (sma s) i) ∧
                  pending_const (sems (sma s') i) = pending_const (sems (sma s) i);
  rv_count : complex_count (sma s') = complex_count (sma s);
  rv_nsems : sem_nsems (sma s') = sem_nsems (sma s);
  rv_lock : use_global_lock (sma s') = use_global_lock (sma s);
  rv_deleted : deleted (sma s') = deleted (sma s);
  rv_wake : wake_q s' = wake_q s
}.

Lemma revalued_pending s s' q : revalued s s' → pending (sma s') q ↔ pending (sma s) q.
Proof.
  intros R. unfold pending. rewrite (rv_alter _ _ R), (rv_const _ _ R).
  assert (∀ i, pending_alter (sems (sma s') i) = pending_alter (sems (sma s) i)) as Ea by (intros i; apply R).
  assert (∀ i, pending_const (sems (sma s') i) = pending_const (sems (sma s) i)) as Ec by (intros i; apply R).
  setoid_rewrite Ea. by setoid_rewrite Ec.
Qed.

Lemma revalued_shape s s' :
  shape s → revalued s s' → (∀ i, 0 ≤ vals s' i ≤ SEMVMX) → (∀ un i, - SEMAEM - 1 ≤ undos s' un i ≤ SEMAEM) → shape s'.
Proof.
  intros H R Hv Ha. pose proof R as [Rq Ra Rc Rl Rk Rn Rg _ _].
  split; rewrite ?Rq, ?Ra, ?Rc, ?Rk, ?Rn, ?Rg; try apply H; try done.
  - intros q. rewrite (revalued_pending s s' q R). apply H.
  - intros i q. rewrite (proj1 (Rl i)). apply H.
  - intros i q. rewrite (proj2 (Rl i)). apply H.
  - destruct (sh_nodup _ H) as (? & ? & N1 & N2). split; [done|]. split; [done|].
    split; intros i; [rewrite (proj1 (Rl i))|rewrite (proj2 (Rl i))]; done.
  - intros Hn i. rewrite (proj1 (Rl i)). by apply (sh_split _ H).
  - intros Hn i. rewrite (proj1 (Rl i)). by apply (sh_merge _ H).
Qed.

Lemma revalued_held s s' n : held s n → shape s' → revalued s s' → held s' n.
Proof.
  intros [H Hg Hl] H' R. split; [done| |]; rewrite ?(rv_lock _ _ R), ?(rv_count _ _ R), ?(rv_alter _ _ R); done.
Qed.

Lemma revalued_const_quiet v s s' : revalued s s' → const_quiet v s → const_quiet v s'.
Proof.
  intros R [Q1 Q2]. split.
  - intros i. rewrite (proj2 (rv_lists _ _ R i)). apply Q1.
  - intros q. rewrite (rv_const _ _ R), (rv_queues _ _ R). apply Q2.
Qed.

Lemma revalued_alter_quiet v s s' : revalued s s' → alter_quiet v s → alter_quiet v s'.
Proof. intros R Q i q. rewrite (proj1 (rv_lists _ _ R i)), (rv_queues _ _ R). apply Q. Qed.

(** Waking requests keeps what the lock protects. *)
Lemma served_held s s' n ev : held s n → served s s' ev → shape s' → held s' n.
Proof.
  intros [H Hg Hl] S H'. destruct (fx_array _ _ (sv_fixed _ _ _ S)) as (_ & _ & _ & Eg & _). split; [done|by rewrite Eg|].
  intros Hn. destruct (Hl Hn) as [Hc Ha]. pose proof (sh_count _ H) as Hk. rewrite Hc, Ha in Hk. cbn in Hk.
  destruct (sv_without _ _ _ S) as (Wa & Wc & _). rewrite Ha in Wa. cbn in Wa. split; [|done].
  rewrite (sh_count _ H'), Wa, Wc. destruct (sma_const (sma s)); [done|cbn in Hk; lia].
Qed.

(** ** The effect of a call *)

(** From the values [v] and adjustments [a], the requests of [own] and then
    those of [ev] are executed one after another; those of [ev] were waiting and
    are woken with their results; [add] begin to wait. *)
Record progress (v : Z → Z) (a : Z → Z → Z) (s s' : sem_state) (own ev : list (Z * Z)) (add : list Z) : Prop := {
  pg_serial : serial (req s') v a (own ++ ev) (vals s') (undos s');
  pg_wake : wake_q s' ≡ₚ wake_q s ++ ev;
  pg_nodup : NoDup ev.*1;
  pg_pending : ∀ x, pending (sma s') x ↔ pending (sma s) x ∧ (x ∉ ev.*1) ∨ x ∈ add;
  pg_woken : ∀ x e, (x, e) ∈ ev → pending (sma s) x ∧ status (queues s' x) = e;
  pg_status : ∀ x, x ∉ own.*1 → x ∉ add → x ∉ ev.*1 → status (queues s' x) = status (queues s x);
  pg_req : ∀ x, x ∉ own.*1 → x ∉ add → req s' x = req s x;
  pg_deleted : deleted (sma s') = deleted (sma s);
  pg_nsems : sem_nsems (sma s') = sem_nsems (sma s)
}.

(** Everything between [sem_lock] and [sem_unlock] is one change of values,
    after which the requests that became possible are served. *)
Lemma update_and_unlock fuel s s1 s2 n ops otime :
  regrouped s s1 → held s1 n → const_quiet (vals s) s1 → alter_quiet (vals s) s1 →
  revalued s1 s2 → (∀ i, 0 ≤ vals s2 i ≤ SEMVMX) → (∀ un i, - SEMAEM - 1 ≤ undos s2 un i ≤ SEMAEM) →
  (∀ i, i ∈ nums_of s2 ops → 0 ≤ i) → (∀ i, i ∉ nums_of s2 ops → vals s2 i = vals s i) →
  (∀ l i, ops = Some l → i ∉ increased l → vals s2 i ≤ vals s i) →
  (∀ q, pending (sma s1) q → undo (queues s1 q) = 0 ∨ undo (queues s1 q) ∈ list_id (sma s2)) →
  (length (sma_alter (sma s1)) < fuel)%nat →
  ∃ x ev, do_smart_update fuel s2 ops otime = Ok x ∧ rest (sem_unlock x n) ∧
    progress (vals s2) (undos s2) s (sem_unlock x n) [] ev [] ∧ list_id (sma (sem_unlock x n)) = list_id (sma s2).
Proof.
  intros R1 Hh Qc Qa R2 Hv Ha Hr Hsame Hle Ho Hf.
  pose proof (revalued_shape _ _ (hd_shape _ _ Hh) R2 Hv Ha) as H2. pose proof (revalued_held _ _ _ Hh H2 R2) as Hh2.
  destruct (do_smart_update_ok fuel s2 ops otime (vals s) H2 Hr Hsame Hle) as (s3 & ev & E3 & S & H3 & Q3).
  { by eapply revalued_const_quiet. } { by eapply revalued_alter_quiet. } { by rewrite (rv_alter _ _ R2). }
  pose proof (served_held _ _ _ _ Hh2 S H3) as Hh3. pose proof (sv_fixed _ _ _ S) as F.
  destruct (fx_array _ _ F) as (En & Ei & Ed & _).
  assert (∀ x, pending (sma s3) x ↔ pending (sma s) x ∧ (x ∉ ev.*1)) as Hp.
  { intros x. rewrite (without_pending _ _ _ x (sv_without _ _ _ S)), (revalued_pending _ _ _ R2), (rg_pending _ _ R1). tauto. }
  destruct (sem_unlock_ok s3 n Hh3 Q3) as [Hr4 R4].
  { intros q [Hq _]%Hp. rewrite Ei. destruct (fixed_queue s2 s3 q F) as (_ & -> & _). rewrite (rv_queues _ _ R2).
    apply Ho. by apply (rg_pending _ _ R1). }
  exists s3, ev. split; [done|]. split; [done|]. split; [|by rewrite (rg_id _ _ R4)].
  assert (∀ x, queues s2 x = queues s x) as E2 by (intros x; by rewrite (rv_queues _ _ R2), (rg_queues _ _ R1)).
  assert (∀ x, req (sem_unlock s3 n) x = req s2 x) as Ereq.
  { intros x. unfold req. rewrite (rg_queues _ _ R4). apply F. }
  split; rewrite ?(rg_vals _ _ R4), ?(rg_undos _ _ R4), ?(rg_wake _ _ R4), ?(rg_queues _ _ R4), ?(rg_deleted _ _ R4), ?(rg_nsems _ _ R4).
  - cbn. eapply serial_ext; [exact Ereq|apply S].
  - by rewrite (sv_wake _ _ _ S), (rv_wake _ _ R2), (rg_wake _ _ R1).
  - apply S.
  - intros x. rewrite (rg_pending _ _ R4), Hp, elem_of_nil. tauto.
  - intros x e Hx. split; [|by apply (sv_result _ _ _ S)]. apply (rg_pending _ _ R1), (revalued_pending _ _ _ R2), (sv_pending _ _ _ S).
    apply list_elem_of_fmap. by exists (x, e).
  - intros x _ _ Hx. rewrite (sv_status _ _ _ S) by done. by rewrite E2.
  - intros x _ _. rewrite Ereq. unfold req. by rewrite E2.
  - by rewrite Ed, (rv_deleted _ _ R2), (rg_deleted _ _ R1).
  - by rewrite En, (rv_nsems _ _ R2), (rg_nsems _ _ R1).
Qed.

Lemma progress_regrouped v a s s3 s4 own ev add :
  progress v a s s3 own ev add → regrouped s3 s4 → progress v a s s4 own ev add.
Proof.
  intros [P1 P2 P3 P4 P5 P6 P7 P8 P9] R. pose proof (rg_queues _ _ R) as Eq.
  split; rewrite ?(rg_vals _ _ R), ?(rg_undos _ _ R), ?(rg_wake _ _ R), ?(rg_deleted _ _ R), ?(rg_nsems _ _ R), ?Eq; try done.
  - eapply serial_ext; [|exact P1]. intros x. unfold req. by rewrite Eq.
  - intros x. by rewrite (rg_pending _ _ R).
  - intros x Hx Hy. unfold req. rewrite Eq. by apply P7.
Qed.

(** Nothing happens but to the request [q]. *)
Lemma still_progress s s' q own add :
  vals s' = vals s → undos s' = undos s → wake_q s' = wake_q s → deleted (sma s') = deleted (sma s) →
  sem_nsems (sma s') = sem_nsems (sma s) → (∀ x, x ≠ q → status (queues s' x) = status (queues s x) ∧ req s' x = req s x) →
  (∀ x, pending (sma s') x ↔ pending (sma s) x ∨ x ∈ add) → q ∈ own.*1 ++ add →
  serial (req s') (vals s) (undos s) own (vals s) (undos s) → progress (vals s) (undos s) s s' own [] add.
Proof.
  intros Ev Eu Ew Ed En Hx Hp Hq Hs. rewrite elem_of_app in Hq. split; rewrite ?app_nil_r, ?Ev, ?Eu, ?Ew; try done.
  - constructor.
  - intros x. rewrite Hp. split; [intros [?|?]; [left; split; [done|apply not_elem_of_nil]|by right]|tauto].
  - intros x e ?%elem_of_nil. done.
  - intros x H1 H2 _. apply Hx. intros ->. tauto.
  - intros x H1 H2. apply Hx. intros ->. tauto.
Qed.

(** ** Requests that do not wait yet *)

Lemma filter_ext_in {A} (P Q : A → Prop) `{∀ x, Decision (P x)} `{∀ x, Decision (Q x)} (l : list A) :
  (∀ x, x ∈ l → P x ↔ Q x) → filter P l = filter Q l.
Proof.
  induction l as [|x l IH]; intros E; [done|]. specialize (IH ltac:(intros y Hy; apply E; by right)).
  destruct (decide (P x)) as [Hp|Hp].
  - rewrite !filter_cons_True by (done || by apply E; [left|]). by rewrite IH.
  - rewrite !filter_cons_False by (done || by rewrite <- E; [|left]). done.
Qed.

(** The shape depends on the requests that wait only. *)
Lemma requeue_shape s s' q :
  shape s → ¬ pending (sma s) q → sma s' = sma s → undos s' = undos s → (∀ x, x ≠ q → queues s' x = queues s x) → shape s'.
Proof.
  intros H Hq Em Eu Ex. assert (∀ x, pending (sma s) x → queues s' x = queues s x) as Ep by (intros x Hx; apply Ex; by intros ->).
  split; unfold vals; rewrite ?Em, ?Eu; try apply H.
  - intros x Hx. rewrite Ep by done. by apply (sh_good _ H).
  - intros i x Hx. rewrite Ep by (right; right; left; by exists i). by apply (sh_alter1 _ H).
  - intros i x Hx. rewrite Ep by (right; right; right; by exists i). by apply (sh_const1 _ H).
  - intros x Hx. rewrite Ep by (by left). by apply (sh_alter _ H).
  - intros x Hx. rewrite Ep by (by right; left). by apply (sh_const _ H).
  - rewrite (sh_count _ H). do 3 f_equal. apply filter_ext_in. intros x Hx. by rewrite Ep by (by left).
Qed.

Lemma requeue_quiet s s' q :
  shape s → quiet s → ¬ pending (sma s) q → sma s' = sma s → undos s' = undos s → (∀ x, x ≠ q → queues s' x = queues s x) → quiet s'.
Proof.
  intros H Q Hq Em Eu Ex. apply blocked_quiet; [by eapply requeue_shape|]. rewrite Em. intros x Hx.
  destruct (quiet_blocked s x H Q Hx) as [k Hk]. exists k. unfold outcome_of. rewrite Ex, Em, Eu by (by intros ->). done.
Qed.

Lemma requeue_held s s' n q :
  held s n → ¬ pending (sma s) q → sma s' = sma s → undos s' = undos s → (∀ x, x ≠ q → queues s' x = queues s x) → held s' n.
Proof. intros [H Hg Hl] Hq Em Eu Ex. split; rewrite ?Em; [by eapply requeue_shape|done|done]. Qed.

Lemma set_queue_rest s q f : rest s → ¬ pending (sma s) q → rest (set_queue q f s).
Proof.
  intros [H Q Hs Ho] Hq. assert (∀ x, x ≠ q → queues (set_queue q f s) x = queues s x) as Ex
    by (intros x Hx; cbn; by rewrite fn_lookup_insert_ne).
  split; [by apply (requeue_shape s _ q)|by apply (requeue_quiet s _ q)|done|].
  intros x Hx. rewrite Ex by (by intros ->). by apply Ho.
Qed.

Lemma sem_lock_set_queue s ops q f : sem_lock (set_queue q f s) ops = (set_queue q f (sem_lock s ops).1, (sem_lock s ops).2).
Proof. destruct ops as [[|sop [|sop' l]]|]; try done. unfold sem_lock. cbn. by destruct (use_global_lock (sma s) =? 0). Qed.

(** ** The scan of the operations *)

Lemma sops_loop_max l : ∀ i, i_max i ≤ i_max (sops_loop l i) ∧ Forall (λ sop, sem_num sop ≤ i_max (sops_loop l i)) l.
Proof.
  induction l as [|sop l IH]; intros i; cbn [sops_loop]; [by split|].
  match goal with |- context [sops_loop l ?j] => destruct (IH j) as [H1 H2]; set (j' := j) in * end.
  assert (i_max i ≤ i_max j' ∧ sem_num sop ≤ i_max j') as [? ?] by (cbn; destruct (Z.leb_spec (i_max i) (sem_num sop)); lia).
  split; [lia|]. constructor; [lia|done].
Qed.

Lemma sops_loop_alter l : ∀ i, i_alter (sops_loop l i) = i_alter i || negb (forallb (λ sop, sem_op sop =? 0) l).
Proof.
  induction l as [|sop l IH]; intros i; cbn [sops_loop forallb]; [by rewrite orb_false_r|].
  rewrite IH. cbn. destruct (i_alter i), (sem_op sop =? 0); done.
Qed.

Lemma scan_sops_alter l : if i_alter (scan_sops l) then ¬ all_zero l else all_zero l.
Proof.
  unfold scan_sops. rewrite sops_loop_alter. cbn [i_alter orb]. unfold all_zero. induction l as [|sop l IH]; cbn [forallb]; [constructor|].
  destruct (Z.eqb_spec (sem_op sop) 0) as [E|E]; cbn [andb].
  - destruct (negb _); [|by constructor]. intros Hn. apply IH. by apply list.Forall_cons in Hn as [_ ?].
  - intros Hn. by apply list.Forall_cons in Hn as [? _].
Qed.

Lemma scan_sops_good c l n :
  l ≠ [] → Forall (λ sop, 0 ≤ sem_num sop) l → i_max (scan_sops l) < n →
  good_queue n (mk_queue (if i_undos (scan_sops l) then c_undo c else 0) (c_pid c) (- EINTR) l 0 (i_alter (scan_sops l)) (i_dupsop (scan_sops l))).
Proof.
  intros Hl H0 Hm. split; cbn [sops alter dupsop status]; [done| |apply scan_sops_alter|apply scan_sops_dup|done].
  destruct (sops_loop_max l (mk_info 0 false false false 0)) as [_ Hmax]. fold (scan_sops l) in Hmax.
  rewrite list.Forall_forall in *. intros sop Hs. specialize (H0 sop Hs). specialize (Hmax sop Hs). cbn in Hmax. lia.
Qed.

Lemma run_sops_le l : ∀ k v a v' a' i, run_sops l k v a = Done v' a' → i ∉ increased l → v' i ≤ v i.
Proof.
  induction l as [|sop l IH]; intros k v a v' a' i; [by intros [= <- <-]|].
  cbn [run_sops]. case_decide; [done|]. case_decide; [done|]. intros Hr Hi. unfold increased in Hi.
  destruct (decide (0 < sem_op sop)) as [Hp|Hp].
  - rewrite filter_cons_True in Hi by done. cbn [fmap list_fmap] in Hi. apply not_elem_of_cons in Hi as [Hne Hi]. etrans; [by eapply IH|].
    by rewrite fn_lookup_insert_ne.
  - rewrite filter_cons_False in Hi by done. etrans; [by eapply IH|].
    destruct (decide (i = sem_num sop)) as [->|]; [rewrite fn_lookup_insert; lia|by rewrite fn_lookup_insert_ne].
Qed.

(** ** A request under the lock *)

Lemma progress_requeue v a s s' q f own ev add :
  q ∈ own.*1 ++ add → progress v a (set_queue q f s) s' own ev add → progress v a s s' own ev add.
Proof.
  rewrite elem_of_app. intros Hq [P1 P2 P3 P4 P5 P6 P7 P8 P9]. split; try done.
  - intros x H1 H2 H3. rewrite P6 by done. cbn. rewrite fn_lookup_insert_ne; [done|]. intros ->. tauto.
  - intros x H1 H2. rewrite P7 by done. unfold req. cbn. rewrite fn_lookup_insert_ne; [done|]. intros ->. tauto.
Qed.

Lemma put_values_revalued s f un adj : same_queues f (sems (sma s)) → revalued s (put_values f un adj s).
Proof. intros Hq. split; try done. intros i. by destruct (Hq i) as (? & ? & _). Qed.

Section Request.
Context (s s1 : sem_state) (n q : Z).
Context (Hrest : rest s) (R1 : regrouped s s1) (Hh : held s1 n) (M : same s s1).
Context (Hq : ¬ pending (sma s) q) (Hg : good_queue (sem_nsems (sma s)) (queues s q)).

Let Q1 : quiet s1 := same_quiet _ _ M (rs_quiet _ Hrest).
Let H1 : shape s1 := hd_shape _ _ Hh.

Lemma request_outcome : outcome_of s1 q = outcome_of s q.
Proof.
  unfold outcome_of. fold (vals s1) (vals s). by rewrite (rg_vals _ _ R1), (rg_undos _ _ R1), (rg_queues _ _ R1).
Qed.

Lemma request_owned x : pending (sma s1) x → undo (queues s1 x) = 0 ∨ undo (queues s1 x) ∈ list_id (sma s1).
Proof. rewrite (rg_pending _ _ R1), (rg_queues _ _ R1), (rg_id _ _ R1). apply (rs_owned _ Hrest). Qed.

(** All operations have been performed, and some alter values. *)
Lemma request_done fuel f' v' a' :
  outcome_of s q = Done v' a' → values f' = v' → same_queues f' (sems (sma s1)) → (length (sma_alter (sma s1)) < fuel)%nat →
  ∃ x ev, do_smart_update fuel (put_values f' (undo (queues s q)) a' s1) (Some (sops (queues s q))) true = Ok x ∧ rest (sem_unlock x n) ∧
    progress (vals s) (undos s) s (sem_unlock x n) [(q, 0)] ev [] ∧ list_id (sma (sem_unlock x n)) = list_id (sma s) ∧
    req (sem_unlock x n) q = req s q.
Proof.
  intros Ho Hv Hsq Hf. set (s2 := put_values f' (undo (queues s q)) a' s1).
  assert (vals s2 = v') as Ev by done. pose proof (put_values_revalued s1 f' (undo (queues s q)) a' Hsq) as R2. fold s2 in R2.
  destruct (run_sops_range _ _ _ _ _ _ (conj (sh_val _ (rs_shape _ Hrest)) (sh_adj _ (rs_shape _ Hrest) _)) Ho) as [Hrv Hra].
  destruct (update_and_unlock fuel s s1 s2 n (Some (sops (queues s q))) true) as (x & ev & E & Hr' & P & Ei).
  - done.
  - done.
  - eapply same_const_quiet; [done|]. apply (rs_quiet _ Hrest).
  - intros i x Hx. rewrite <- (rg_vals _ _ R1). by apply (qt_alter _ Q1).
  - done.
  - by rewrite Ev.
  - intros un i. cbn. destruct (decide (un = undo (queues s q))) as [->|]; [by rewrite fn_lookup_insert|].
    rewrite fn_lookup_insert_ne by done. apply (sh_adj _ H1).
  - cbn. intros i (sop & -> & Hs)%list_elem_of_fmap. pose proof (gq_range _ _ Hg) as Hr. rewrite list.Forall_forall in Hr. by apply Hr.
  - intros i Hi. rewrite Ev. by eapply run_sops_frame.
  - intros l i [= <-] Hi. rewrite Ev. by eapply run_sops_le.
  - apply request_owned.
  - done.
  - assert (∀ y, req (sem_unlock x n) y = req s y) as Ereq.
    { intros y. apply (pg_req _ _ _ _ _ _ _ P); apply not_elem_of_nil. }
    exists x, ev. split; [done|]. split; [done|]. split; [|split; [by rewrite Ei; apply (rg_id _ _ R1)|apply Ereq]].
    destruct P as [P1 P2 P3 P4 P5 P6 P7 P8 P9].
    split; try done; [|intros y _ _; apply P6; apply not_elem_of_nil].
    eapply serial_ext; [intros y; apply Ereq|]. apply (serial_done (req s) q (vals s) (undos s) v' a'); [done|].
    eapply serial_ext; [intros y; symmetry; apply Ereq|]. cbn in P1. unfold s2 in P1. cbn [put_values undos set_undos] in P1.
    rewrite (rg_undos _ _ R1) in P1. fold s2 in P1. rewrite Ev in P1. exact P1.
Qed.

(** All operations have been performed, and all only wait for zero. *)
Lemma request_zero f' v' a' :
  outcome_of s q = Done v' a' → values f' = v' → same_queues f' (sems (sma s1)) → alter (queues s q) = false →
  let x := set_semotime (put_values f' (undo (queues s q)) a' s1) (Some (sops (queues s q))) in
  rest (sem_unlock x n) ∧ progress (vals s) (undos s) s (sem_unlock x n) [(q, 0)] [] [] ∧ list_id (sma (sem_unlock x n)) = list_id (sma s) ∧
  req (sem_unlock x n) q = req s q.
Proof.
  intros Ho Hv Hsq Ha x. pose proof (gq_alter _ _ Hg) as Hz. rewrite Ha in Hz.
  assert (Done v' a' = Done (vals s) (undos s (undo (queues s q)))) as [= -> ->].
  { rewrite <- Ho. unfold outcome_of. fold (vals s).
    destruct (run_sops_zero (sops (queues s q)) 0 (vals s) (undos s (undo (queues s q))) Hz
      (conj (sh_val _ (rs_shape _ Hrest)) (sh_adj _ (rs_shape _ Hrest) _))) as [[-> _]|[[j Hj] _]]; [done|].
    unfold outcome_of in Ho. fold (vals s) in Ho. congruence. }
  set (s2 := put_values f' (undo (queues s q)) (undos s (undo (queues s q))) s1) in *.
  assert (same s1 s2) as M2.
  { split; try done.
    - intros i. unfold s2, vals. cbn [put_values upd_sma set_undos set_sma sma set_sems sems]. rewrite Hv. change (values (sems (sma s1))) with (vals s1). by rewrite (rg_vals _ _ R1).
    - cbn. rewrite (rg_undos _ _ R1). apply insert_same.
    - intros i. by destruct (Hsq i) as (? & ? & _). }
  assert (same s1 x) as Mx.
  { pose proof (set_semotime_same s2 (Some (sops (queues s q)))) as [A1 A2 A3 A4 A5 A6 A7 A8]. destruct M2 as [B1 B2 B3 B4 B5 B6 B7 B8].
    split; try (etrans; eassumption); intros i; rewrite ?A1, ?B1; [done|]. destruct (A6 i), (B6 i). by split; etrans. }
  assert (regrouped s x) as Rx by (eapply regrouped_trans; [done|by apply same_regrouped]).
  assert (held x n) as Hx.
  { split; [|apply Hh|]; [|rewrite (sm_count _ _ Mx), (sm_alter _ _ Mx); apply Hh].
    apply (same_shape s1); [done|done|apply (sh_lock _ H1)|apply (sh_lock _ H1)]. }
  destruct (sem_unlock_ok x n Hx (same_quiet _ _ Mx Q1)) as [Hr R].
  { intros y. rewrite (rg_pending _ _ Rx), (rg_queues _ _ Rx), (rg_id _ _ Rx). apply (rs_owned _ Hrest). }
  split; [done|]. pose proof (regrouped_trans _ _ _ Rx R) as Rs. split; [|split; [apply Rs|unfold req; by rewrite (rg_queues _ _ Rs)]].
  assert (∀ y, req (sem_unlock x n) y = req s y) as Ereq by (intros y; unfold req; by rewrite (rg_queues _ _ Rs)).
  apply (still_progress s _ q); try apply Rs.
  - intros y _. split; [by rewrite (rg_queues _ _ Rs)|apply Ereq].
  - intros y. rewrite (rg_pending _ _ Rs), elem_of_nil. tauto.
  - by left.
  - eapply serial_ext; [exact Ereq|]. eapply serial_done; [exact Ho|]. rewrite insert_same. constructor.
Qed.

Lemma request_noted st :
  let x := note_blocking q st s1 in
  held x n ∧ quiet x ∧ ¬ pending (sma x) q ∧ (∀ y, req x y = req s y) ∧ (∀ y, status (queues x y) = status (queues s y)) ∧
  (∀ y, undo (queues x y) = undo (queues s y)).
Proof.
  intros x. destruct (note_blocking_rest q st s1) as (Em & Eu & _ & _). fold x in Em, Eu.
  assert (¬ pending (sma s1) q) as Hq1 by (by rewrite (rg_pending _ _ R1)).
  assert (∀ y, y ≠ q → queues x y = queues s1 y) as Ex by (intros y Hy; unfold x; destruct st; cbn; by rewrite ?fn_lookup_insert_ne).
  split; [by apply (requeue_held s1 _ _ q)|]. split; [by apply (requeue_quiet s1 _ q)|]. split; [by rewrite Em|].
  pose proof (λ y, note_blocking_queue q st s1 y) as Hn. fold x in Hn. rewrite (rg_queues _ _ R1) in Hn.
  split; [intros y; unfold req; destruct (Hn y) as (-> & -> & _); done|]. split; intros y; apply (Hn y).
Qed.

(** The request fails. *)
Lemma request_fail st :
  outcome_of s q = Stopped st → stop_code (sops (queues s q)) st < 0 →
  let x := note_blocking q st s1 in let e := stop_code (sops (queues s q)) st in
  rest (sem_unlock x n) ∧ progress (vals s) (undos s) s (sem_unlock x n) [(q, e)] [] [] ∧ list_id (sma (sem_unlock x n)) = list_id (sma s) ∧
  req (sem_unlock x n) q = req s q.
Proof.
  intros Ho Hc x e. destruct (request_noted st) as (Hx & Qx & _ & Ereq & Est & Eun). fold x in Hx, Qx, Ereq, Est, Eun.
  destruct (note_blocking_rest q st s1) as (Em & Eu & Ew & _). fold x in Em, Eu, Ew.
  destruct (sem_unlock_ok x n Hx Qx) as [Hr R].
  { intros y. rewrite Em, Eun, (rg_pending _ _ R1), (rg_id _ _ R1). apply (rs_owned _ Hrest). }
  assert (∀ y, req (sem_unlock x n) y = req s y) as Ereq' by (intros y; unfold req; rewrite (rg_queues _ _ R); apply Ereq).
  split; [done|]. split; [|split; [rewrite (rg_id _ _ R), Em; apply R1|apply Ereq']].
  eapply progress_regrouped; [|exact R]. apply (still_progress s _ q); rewrite ?Em, ?Eu, ?Ew; try apply R1.
  - unfold vals. rewrite Em. apply R1.
  - intros y _. by split.
  - intros y. rewrite (rg_pending _ _ R1), elem_of_nil. tauto.
  - by left.
  - eapply serial_ext; [exact Ereq|]. apply serial_fail; [exact Ho|done|constructor].
Qed.

(** The request has to wait. *)
Lemma request_sleep k :
  outcome_of s q = Stopped (WouldBlock k) → (complex (queues s q) → n = SEM_GLOBAL_LOCK) →
  (complex_count (sma s1) = 0 → sma_alter (sma s1) = []) →
  (undo (queues s q) = 0 ∨ undo (queues s q) ∈ list_id (sma s)) →
  let x := enqueue_op (note_blocking q (WouldBlock k) s1) q (sops (queues s q)) (alter (queues s q)) in
  rest (sem_unlock x n) ∧ progress (vals s) (undos s) s (sem_unlock x n) [] [] [q] ∧ list_id (sma (sem_unlock x n)) = list_id (sma s) ∧
  req (sem_unlock x n) q = req s q ∧ status (queues (sem_unlock x n) q) = - EINTR.
Proof.
  intros Ho Hc Hs Hun x. set (s2 := note_blocking q (WouldBlock k) s1) in *.
  destruct (request_noted (WouldBlock k)) as (H2 & Q2 & Hq2 & Ereq & Est & Eun). fold s2 in H2, Q2, Hq2, Ereq, Est, Eun.
  pose proof (note_blocking_fixed q (WouldBlock k) s1) as F. fold s2 in F.
  assert (sops (queues s2 q) = sops (queues s q) ∧ alter (queues s2 q) = alter (queues s q)) as [Es Ea].
  { pose proof (Ereq q) as E. unfold req in E. split; [congruence|]. rewrite <- (rg_queues _ _ R1). apply F. }
  assert (x = enqueue_op s2 q (sops (queues s2 q)) (alter (queues s2 q))) as Ex by (by rewrite Es, Ea).
  destruct (enqueue_ok s2 n q H2 Q2 Hs Hq2) as (Hx & Qx & Hp & Ev & Eu & Eq & Ew & Ei & Ed & En).
  { change (sem_nsems (sma s2)) with (sem_nsems (sma s1)). rewrite (rg_nsems _ _ R1).
    apply (good_queue_fixed _ s1); [done|by rewrite Est, (rg_queues _ _ R1)|by rewrite (rg_queues _ _ R1)]. }
  { apply (blocked_same s1); [done|done|done|]. exists k. by rewrite request_outcome. }
  { unfold complex, nsops. by rewrite Es. }
  rewrite <- Ex in *.
  destruct (sem_unlock_ok x n Hx Qx) as [Hr R].
  { intros y. rewrite Hp, Eq, Eun, Ei. change (pending (sma s2) y) with (pending (sma s1) y).
    rewrite (rg_pending _ _ R1). change (list_id (sma s2)) with (list_id (sma s1)). rewrite (rg_id _ _ R1).
    intros [Hy| ->]; [by apply (rs_owned _ Hrest)|done]. }
  assert (∀ y, req (sem_unlock x n) y = req s y) as Ereq' by (intros y; unfold req; rewrite (rg_queues _ _ R), Eq; apply Ereq).
  split; [done|]. split; [|split; [rewrite (rg_id _ _ R), Ei; apply R1|split; [apply Ereq'|]]].
  - eapply progress_regrouped; [|exact R]. apply (still_progress s _ q).
    + rewrite Ev. apply R1.
    + rewrite Eu. apply R1.
    + rewrite Ew. apply R1.
    + rewrite Ed. apply R1.
    + rewrite En. apply R1.
    + intros y _. unfold req. rewrite Eq. split; [apply Est|apply Ereq].
    + intros y. rewrite Hp, list_elem_of_singleton. change (pending (sma s2) y) with (pending (sma s1) y). by rewrite (rg_pending _ _ R1).
    + by left.
    + constructor.
  - rewrite (rg_queues _ _ R), Eq, Est. apply (gq_status _ _ Hg).
Qed.

End Request.

(** ** [do_semtimedop] *)

(** The undo structure of a call. *)
Definition call_undo (c : caller) (l : list sembuf) : Z := if i_undos (scan_sops l) then c_undo c else 0.

(** What a call may answer, and its effect: its request was executed, with the
    result it returns, or begins to wait. *)
Definition answered (a : Z → Z → Z) (s s' : sem_state) (q : Z) (r : reply) (ev : list (Z * Z)) : Prop :=
  match r with
  | Returns e => progress (vals s) a s s' [(q, e)] ev []
  | Sleeps => progress (vals s) a s s' [] ev [q] ∧ ev = [] ∧ status (queues s' q) = - EINTR
  end.

Lemma semop_locked_ok fuel s q c l :
  rest s → ¬ pending (sma s) q → deleted (sma s) = false → l ≠ [] → Forall (λ sop, 0 ≤ sem_num sop) l →
  i_max (scan_sops l) < sem_nsems (sma s) → (i_undos (scan_sops l) = true → c_undo c ∈ list_id (sma s)) →
  (length (sma_alter (sma s)) < fuel)%nat →
  ∃ s' r ev, semop_locked fuel s q c l = Ok (s', r) ∧ rest s' ∧ answered (undos s) s s' q r ev ∧
    req s' q = (l, call_undo c l) ∧ list_id (sma s') = list_id (sma s).
Proof.
  intros Hr Hq Hd Hl H0 Hm Hu Hf.
  set (Q := mk_queue (call_undo c l) (c_pid c) (- EINTR) l 0 (i_alter (scan_sops l)) (i_dupsop (scan_sops l))).
  set (s0 := set_queue q (λ _, Q) s). pose proof (set_queue_rest s q (λ _, Q) Hr Hq) as Hr0. fold s0 in Hr0.
  assert (queues s0 q = Q) as Eq by (cbn; by rewrite fn_lookup_insert).
  pose proof (scan_sops_good c l (sem_nsems (sma s)) Hl H0 Hm) as Hg. fold (call_undo c l) in Hg. fold Q in Hg.
  assert (good_queue (sem_nsems (sma s0)) (queues s0 q)) as Hg0 by (by rewrite Eq).
  pose proof (sem_lock_set_queue s (Some l) q (λ _, Q)) as El. fold s0 in El.
  unfold semop_locked. destruct (sem_lock s (Some l)) as [s1' n] eqn:El'. cbn [fst snd] in El. set (s1 := set_queue q (λ _, Q) s1') in El.
  destruct (sem_lock_ok s0 (Some l) s1 n Hr0) as (Hh & M & R1 & Hc & Hs); [|done|].
  { intros l' sop [= <-] Hin. rewrite list.Forall_forall in H0. by apply H0. }
  assert (deleted (sma s1') = false) as -> by (change (deleted (sma s1) = false); rewrite (rg_deleted _ _ R1); done).
  fold (call_undo c l). fold Q. fold s1.
  pose proof (perform_ok s1 q) as Hp. unfold atomic_result in Hp. rewrite (request_outcome s0 s1 q R1), (rg_queues _ _ R1), Eq in Hp. specialize (Hp (gq_dup _ _ Hg)).
  assert (∀ s' own ev add, q ∈ own.*1 ++ add → progress (vals s) (undos s) s0 s' own ev add → progress (vals s) (undos s) s s' own ev add) as Hpr
    by (intros; by eapply progress_requeue).
  destruct (outcome_of s0 q) as [v' a'|st] eqn:Eo.
  - destruct Hp as (f' & -> & Hv & Hsq). cbn [Z.eqb undo Q]. destruct (i_alter (scan_sops l)) eqn:Ea.
    + destruct (request_done s0 s1 n q Hr0 R1 Hh M Hg0 fuel f' v' a' Eo Hv Hsq) as (x & ev & Ex & Hr' & P & Ei & Ereq).
      { by rewrite (sm_alter _ _ M). }
      rewrite Eq in Ex. cbn [sops undo Q] in Ex. rewrite Ex. cbn [mbind outcome_bind]. exists (sem_unlock x n), (Returns 0), ev. split; [done|].
      split; [done|]. split; [apply Hpr; [by left|done]|]. split; [|done]. etrans; [exact Ereq|]. unfold req. by rewrite Eq.
    + destruct (request_zero s0 s1 n q Hr0 R1 Hh M Hg0 f' v' a' Eo Hv Hsq) as (Hr' & P & Ei & Ereq); [by rewrite Eq|].
      rewrite Eq in Hr', P, Ei, Ereq. cbn [mbind outcome_bind]. eexists _, (Returns 0), []. split; [done|].
      split; [done|]. split; [apply Hpr; [by left|done]|]. split; [|done]. etrans; [exact Ereq|]. unfold req. by rewrite Eq.
  - rewrite Hp. destruct (Z.eqb_spec (stop_code (sops Q) st) 0) as [E0|E0].
    { exfalso. destruct st as [k|]; cbn in E0; [destruct (l !! k) as [sop|]; [destruct (has_flag sop IPC_NOWAIT)|]|]; done. }
    destruct (Z.ltb_spec (stop_code (sops Q) st) 0) as [E1|E1].
    + destruct (request_fail s0 s1 n q Hr0 R1 Hh M Hq st Eo) as (Hr' & P & Ei & Ereq); [by rewrite Eq|]. rewrite Eq in P.
      eexists _, (Returns _), []. split; [done|]. split; [done|]. split; [apply Hpr; [by left|done]|]. split; [|done].
      etrans; [exact Ereq|]. unfold req. by rewrite Eq.
    + destruct st as [k|]; [|cbn in E1; unfold ERANGE in E1; lia].
      destruct (request_sleep s0 s1 n q Hr0 R1 Hh M Hq Hg0 k Eo) as (Hr' & P & Ei & Ereq & Est).
      * rewrite Eq. intros Hx. apply Hc. intros [sop [= E]]. unfold complex, nsops in Hx. cbn in Hx. rewrite E in Hx. cbn in Hx. lia.
      * done.
      * rewrite Eq. cbn. unfold call_undo. destruct (i_undos (scan_sops l)); [right; by apply Hu|by left].
      * rewrite Eq in Hr', P, Ei, Ereq, Est. cbn [sops alter Q] in *. eexists _, Sleeps, []. split; [done|]. split; [done|].
        split; [split; [apply Hpr; [by left|done]|done]|]. split; [|done]. etrans; [exact Ereq|]. unfold req. by rewrite Eq.
Qed.

(** The undo structure exists afterwards, and only adjustments that nobody
    uses have been set. *)
Lemma find_alloc_undo_ok s un mem s' e :
  rest s → un ≠ 0 → find_alloc_undo s un mem = (s', e) →
  (s' = s ∧ (e = None → un ∈ list_id (sma s))) ∨
  (un ∉ list_id (sma s)) ∧ e = None ∧ rest s' ∧ vals s' = vals s ∧ undos s' = <[un := λ _, 0]> (undos s) ∧ queues s' = queues s ∧
    wake_q s' = wake_q s ∧ list_id (sma s') = un :: list_id (sma s) ∧ deleted (sma s') = deleted (sma s) ∧
    sem_nsems (sma s') = sem_nsems (sma s) ∧ (∀ q, pending (sma s') q ↔ pending (sma s) q) ∧
    (length (sma_alter (sma s')) ≤ length (sma_alter (sma s)))%nat.
Proof.
  intros Hr Hz. unfold find_alloc_undo. case_bool_decide as Hin; [intros [= <- <-]; by left|].
  destruct (deleted (sma s)) eqn:Hd; [intros [= <- <-]; by left|]. destruct mem; cbn [negb]; [|intros [= <- <-]; by left].
  destruct (sem_lock s None) as [s1 n] eqn:El.
  destruct (sem_lock_ok s None s1 n Hr) as (Hh & M & R1 & Hc & Hs); [done|done|]. destruct Hc as [Hn _]; [by intros [? ?]|].
  set (s3 := upd_sma _ _). intros [= <- <-]. right.
  assert (revalued s1 s3) as R3 by (by split).
  assert (shape s3) as H3.
  { apply (revalued_shape s1); [apply Hh|done|apply (sh_val _ (hd_shape _ _ Hh))|]. intros x i. cbn.
    destruct (decide (x = un)) as [->|]; [rewrite fn_lookup_insert; unfold SEMAEM, SEMVMX; lia|].
    rewrite fn_lookup_insert_ne by done. apply (sh_adj _ (hd_shape _ _ Hh)). }
  assert (∀ q, pending (sma s) q → undo (queues s q) ≠ un) as Hne.
  { intros q Hq E. destruct (rs_owned _ Hr q Hq); congruence. }
  assert (quiet s3) as Q3.
  { apply blocked_quiet; [done|]. intros q Hq. rewrite (revalued_pending _ _ _ R3), (rg_pending _ _ R1) in Hq.
    destruct (quiet_blocked s q (rs_shape _ Hr) (rs_quiet _ Hr) Hq) as [k Hk]. exists k. unfold outcome_of. cbn.
    change (values (sems (sma s1))) with (vals s1). rewrite (rg_queues _ _ R1), (rg_vals _ _ R1), (rg_undos _ _ R1).
    rewrite fn_lookup_insert_ne by (intros E; by apply (Hne q Hq)). done. }
  destruct (sem_unlock_ok s3 n (revalued_held _ _ _ Hh H3 R3) Q3) as [Hr' R].
  { intros q. rewrite (revalued_pending _ _ _ R3), (rg_pending _ _ R1), (rv_queues _ _ R3), (rg_queues _ _ R1). intros Hq.
    change (list_id (sma s3)) with (un :: list_id (sma s1)). rewrite (rg_id _ _ R1). destruct (rs_owned _ Hr q Hq); [by left|right; by right]. }
  split; [done|]. split; [done|]. split; [done|]. destruct R as [A1 A2 A3 A4 A5 A6 A7 A8]. rewrite A1, A2, A3, A4, A5, A6, A7.
  change (vals s3) with (vals s1). change (undos s3) with (<[un := λ _ : Z, 0]> (undos s1)). change (queues s3) with (queues s1).
  change (wake_q s3) with (wake_q s1). change (list_id (sma s3)) with (un :: list_id (sma s1)).
  change (deleted (sma s3)) with (deleted (sma s1)). change (sem_nsems (sma s3)) with (sem_nsems (sma s1)).
  destruct R1 as [B1 B2 B3 B4 B5 B6 B7 B8]. rewrite B1, B2, B3, B4, B5, B6, B7. do 7 (split; [done|]).
  split; [intros q; rewrite A8; apply B8|]. rewrite <- (sm_alter _ _ M). exact (sem_unlock_alter s3 n).
Qed.

End SysvSemCalls.
