(* ===== verification/SysvSemTrace.v ===== *)
(** * Traces of calls on a semaphore set

    All calls of ipc_sem/src/sem.c that change a set, and the states that a set
    can be in after any sequence of them. *)

From stdpp Require Import base numbers list option functions relations.
From Stdlib Require Import ZArith Lia FunctionalExtensionality.
From S2P Require Import Prelude SysvSem SysvSemAtomic SysvSemInv SysvSemWake SysvSemUpdate SysvSemLock SysvSemCalls.

Open Scope Z_scope.

Module SysvSemTrace.
Import SysvSem SysvSemAtomic SysvSemInv SysvSemWake SysvSemUpdate SysvSemLock SysvSemCalls.

(** ** [do_semtimedop] *)

(** The adjustments a call starts from: those of a new undo structure are 0. *)
Definition start_undos (s : sem_state) (c : caller) (l : list sembuf) : Z → Z → Z :=
  if i_undos (scan_sops l) && negb (bool_decide (c_undo c ∈ list_id (sma s))) then <[c_undo c := λ _, 0]> (undos s) else undos s.

(** A call that was refused before it looked at the semaphores. *)
Record kept (s s' : sem_state) : Prop := {
  kp_vals : vals s' = vals s;
  kp_queues : queues s' = queues s;
  kp_wake : wake_q s' = wake_q s;
  kp_deleted : deleted (sma s') = deleted (sma s);
  kp_nsems : sem_nsems (sma s') = sem_nsems (sma s);
  kp_pending : ∀ q, pending (sma s') q ↔ pending (sma s) q;
  kp_undos : ∀ un, un ∈ list_id (sma s) → undos s' un = undos s un
}.

Lemma kept_refl s : kept s s.
Proof. by split. Qed.

Lemma regrouped_kept s s' : regrouped s s' → kept s s'.
Proof. intros []. split; try done. intros un _. congruence. Qed.

Lemma kept_progress v a s s1 s' own ev add : kept s s1 → progress v a s1 s' own ev add → progress v a s s' own ev add.
Proof.
  intros [K1 K2 K3 K4 K5 K6 _] [P1 P2 P3 P4 P5 P6 P7 P8 P9]. rewrite K2 in P6. rewrite K3 in P2. setoid_rewrite K6 in P4. setoid_rewrite K6 in P5.
  split; try done; try congruence. intros x H1 H2. rewrite P7 by done. unfold req. by rewrite K2.
Qed.

Lemma kept_answered a s s1 s' q r ev : kept s s1 → answered a s1 s' q r ev → answered a s s' q r ev.
Proof.
  intros K. destruct r; cbn; rewrite (kp_vals _ _ K); [intros (P & ? & ?); split; [|done]|intros P]; by eapply kept_progress.
Qed.

(** The call returns, and is refused or answered. *)
Lemma do_semtimedop_ok fuel s q c l :
  rest s → ¬ pending (sma s) q → Forall (λ sop, 0 ≤ sem_num sop) l → c_undo c ≠ 0 → (length (sma_alter (sma s)) < fuel)%nat →
  ∃ s' r, do_semtimedop fuel s q c l = Ok (s', r) ∧ rest s' ∧
    ((∃ e, r = Returns e ∧ e ≠ 0) ∧ kept s s' ∨
     deleted (sma s) = false ∧ i_max (scan_sops l) < sem_nsems (sma s) ∧
     ∃ ev, answered (start_undos s c l) s s' q r ev ∧ req s' q = (l, call_undo c l)).
Proof.
  intros Hr Hq Hl Hz Hf. unfold do_semtimedop.
  assert (∀ (e : Z) s0, e ≠ 0 → rest s0 → kept s s0 → ∃ s' r, Ok (s0, Returns e) = Ok (s', r) ∧ rest s' ∧
    ((∃ e, r = Returns e ∧ e ≠ 0) ∧ kept s s' ∨ deleted (sma s) = false ∧ i_max (scan_sops l) < sem_nsems (sma s) ∧
     ∃ ev, answered (start_undos s c l) s s' q r ev ∧ req s' q = (l, call_undo c l))) as Hno.
  { intros e s0 He Hr0 K. exists s0, (Returns e). split; [done|]. split; [done|]. left. split; [by exists e|done]. }
  destruct (Z.ltb_spec (Z.of_nat (length l)) 1) as [|Hlen]; [by apply Hno; [done|done|apply kept_refl]|].
  destruct (c_semopm c <? Z.of_nat (length l)); [by apply Hno; [done|done|apply kept_refl]|].
  destruct (if i_undos (scan_sops l) then find_alloc_undo s (c_undo c) (c_mem c) else (s, None)) as [s1 e] eqn:Ea.
  assert (∀ e0, e = Some e0 → s1 = s ∧ e0 ≠ 0) as He.
  { intros e0 ->. destruct (i_undos (scan_sops l)); [|done]. unfold find_alloc_undo in Ea. revert Ea.
    case_bool_decide; [done|]. destruct (deleted (sma s)); [by intros [= <- <-]|]. destruct (c_mem c); cbn; [|by intros [= <- <-]]. done. }
  destruct e as [e0|]; [destruct (He e0 eq_refl) as [-> ?]; by apply Hno; [done|done|apply kept_refl]|].
  assert (rest s1 ∧ kept s s1 ∧ undos s1 = start_undos s c l ∧ (i_undos (scan_sops l) = true → c_undo c ∈ list_id (sma s1)) ∧
    (length (sma_alter (sma s1)) ≤ length (sma_alter (sma s)))%nat) as (Hr1 & K & Eu & Hu & Hlen1).
  { unfold start_undos. destruct (i_undos (scan_sops l)); [|injection Ea as <-; by split; [|split; [apply kept_refl|]]]. cbn [andb].
    destruct (find_alloc_undo_ok s (c_undo c) (c_mem c) s1 None Hr Hz Ea) as [[-> Hin]|(Hn & _ & Hr1 & A1 & A2 & A3 & A4 & A5 & A6 & A7 & A8 & A9)].
    - specialize (Hin eq_refl). rewrite bool_decide_eq_true_2 by done. by split; [|split; [apply kept_refl|]].
    - rewrite bool_decide_eq_false_2 by done. split; [done|]. split; [|split; [done|split; [intros _; rewrite A5; by left|done]]].
      split; try done. intros un Hun. rewrite A2, fn_lookup_insert_ne; [done|]. congruence. }
  destruct (deleted (sma s1)) eqn:Hd; [by apply Hno|].
  destruct (Z.leb_spec (sem_nsems (sma s1)) (i_max (scan_sops l))) as [|Hm]; [by apply Hno|].
  destruct (c_perm c); cbn [negb]; [|by apply Hno]. destruct (Z.eqb_spec (c_security c) 0) as [|Hs]; cbn [negb]; [|by apply Hno].
  destruct (semop_locked_ok fuel s1 q c l) as (s' & r & ev & E & Hr' & A & Ereq & _); try done.
  { by rewrite (kp_pending _ _ K). } { by intros ->. } { lia. }
  exists s', r. split; [done|]. split; [done|]. right. rewrite <- (kp_deleted _ _ K), <- (kp_nsems _ _ K). split; [done|]. split; [lia|].
  exists ev. split; [|done]. rewrite <- Eu. by eapply kept_answered.
Qed.

(** ** A sleeping call that runs again *)

Lemma unlink_held s n q :
  held s n → quiet s → pending (sma s) q → (complex (queues s q) → n = SEM_GLOBAL_LOCK) →
  let s' := unlink_queue q s in held s' n ∧ quiet s' ∧ queues s' = queues s ∧ undos s' = undos s ∧ wake_q s' = wake_q s ∧
    vals s' = vals s ∧ fixed s s' ∧ ∀ x, pending (sma s') x ↔ pending (sma s) x ∧ x ≠ q.
Proof.
  intros [H Hg Hl] Q Hp Hc s'. destruct (unlink_queue_spec q s) as (Eq & Eu & Ew & Ev & F & W & C). fold s' in Eq, Eu, Ew, Ev, F, W, C.
  destruct (fx_array _ _ F) as (_ & _ & _ & Eg & _). pose proof (unlink_shape s q H Hp) as H'. fold s' in H'.
  assert (∀ x, pending (sma s') x ↔ pending (sma s) x ∧ x ≠ q) as Hp'.
  { intros x. rewrite (without_pending _ _ _ x W), list_elem_of_singleton. tauto. }
  split; [split; [done|by rewrite Eg|]|split; [|done]].
  - intros Hn. destruct (Hl Hn) as [Hc0 Ha]. rewrite C, decide_False by (intros Hx; by apply Hn, Hc). destruct W as (-> & _).
    rewrite Ha. split; [lia|done].
  - apply blocked_quiet; [done|]. intros x [Hx _]%Hp'. apply (blocked_same s); [done|done|done|]. by apply quiet_blocked.
Qed.

(** The call goes on sleeping, returns the result of its request, or gives up
    and takes the request back. *)
Record awoken (s : sem_state) (q : Z) (timed_out signal : bool) (s' : sem_state) (r : reply) : Prop := {
  aw_rest : rest s';
  aw_vals : vals s' = vals s;
  aw_undos : undos s' = undos s;
  aw_queues : queues s' = queues s;
  aw_wake : wake_q s' = wake_q s;
  aw_deleted : deleted (sma s') = deleted (sma s);
  aw_nsems : sem_nsems (sma s') = sem_nsems (sma s);
  aw_pending : ∀ x, pending (sma s') x ↔ pending (sma s) x ∧ (x ≠ q ∨ r = Sleeps);
  aw_reply : r = (if deleted (sma s) then Returns (- EINTR)
                  else if decide (status (queues s q) ≠ - EINTR) then Returns (status (queues s q))
                  else if timed_out then Returns (- EAGAIN) else if signal then Returns (- EINTR) else Sleeps)
}.

Lemma regrouped_awoken s q (t g : bool) s' r :
  rest s' → regrouped s s' → (¬ pending (sma s) q ∨ r = Sleeps) →
  r = (if deleted (sma s) then Returns (- EINTR)
       else if decide (status (queues s q) ≠ - EINTR) then Returns (status (queues s q))
       else if t then Returns (- EAGAIN) else if g then Returns (- EINTR) else Sleeps) →
  awoken s q t g s' r.
Proof.
  intros Hr [A1 A2 A3 A4 A5 A6 A7 A8] Hp Hreply. split; try done. intros x. rewrite A8. split; [|tauto]. intros Hx.
  split; [done|]. destruct Hp as [Hp|Hp]; [left|by right]. by intros ->.
Qed.

Lemma semop_awake_locked_ok s q timed_out signal s' r :
  rest s → (deleted (sma s) = true → ¬ pending (sma s) q) →
  (deleted (sma s) = false → status (queues s q) = - EINTR → pending (sma s) q) →
  Forall (λ sop, 0 ≤ sem_num sop) (sops (queues s q)) → semop_awake_locked s q timed_out signal = (s', r) →
  awoken s q timed_out signal s' r.
Proof.
  intros Hr Hd Hw Hn. unfold semop_awake_locked. destruct (sem_lock s (Some (sops (queues s q)))) as [s1 n] eqn:El.
  destruct (sem_lock_ok s (Some (sops (queues s q))) s1 n Hr) as (Hh & M & R1 & Hc & Hs); [|done|].
  { intros l sop [= <-] Hin. rewrite list.Forall_forall in Hn. by apply Hn. }
  pose proof (same_quiet _ _ M (rs_quiet _ Hr)) as Q1.
  assert (∀ x, pending (sma s1) x → undo (queues s1 x) = 0 ∨ undo (queues s1 x) ∈ list_id (sma s1)) as Ho.
  { intros x. rewrite (rg_pending _ _ R1), (rg_queues _ _ R1), (rg_id _ _ R1). apply (rs_owned _ Hr). }
  assert (rest (sem_unlock s1 n) ∧ regrouped s (sem_unlock s1 n)) as [Hr' R'].
  { destruct (sem_unlock_ok s1 n Hh Q1 Ho) as [? ?]. split; [done|by eapply regrouped_trans]. }
  assert (pending (sma s) q → ∀ s2, s2 = sem_unlock (unlink_queue q s1) n → deleted (sma s) = false → status (queues s q) = - EINTR →
    ∀ e, Returns e = (if timed_out then Returns (- EAGAIN) else if signal then Returns (- EINTR) else Sleeps) →
    awoken s q timed_out signal s2 (Returns e)) as Hun.
  { intros Hp s2 -> Hd0 Hst e He. destruct (unlink_held s1 n q Hh Q1) as (H2 & Q2 & Eq & Eu & Ew & Ev & F & Hp2).
    - by rewrite (rg_pending _ _ R1).
    - rewrite (rg_queues _ _ R1). intros Hx. apply Hc. intros [sop [= E]]. unfold complex, nsops in Hx. rewrite E in Hx. cbn in Hx. lia.
    - destruct (fx_array _ _ F) as (En & Ei & Ed & _).
      destruct (sem_unlock_ok (unlink_queue q s1) n H2 Q2) as [Hr2 [A1 A2 A3 A4 A5 A6 A7 A8]].
      { intros x [Hx _]%Hp2. rewrite Eq, Ei. by apply Ho. }
      destruct R1 as [B1 B2 B3 B4 B5 B6 B7 B8]. split; try done; try congruence.
      + intros x. rewrite A8, Hp2, B8. split; [intros [? ?]; split; [done|by left]|by intros [? [?|?]]].
      + rewrite Hd0, decide_False by tauto. done. }
  rewrite (rg_deleted _ _ R1), (rg_queues _ _ R1).
  destruct (deleted (sma s)) eqn:Hdel; [intros [= <- <-]; apply regrouped_awoken; [done|done|left; by apply Hd|by rewrite Hdel]|].
  destruct (Z.eqb_spec (status (queues s q)) (- EINTR)) as [Hst|Hst]; cbn [negb].
  - specialize (Hw eq_refl Hst). destruct timed_out; [intros [= <- <-]; by apply Hun|]. destruct signal; [intros [= <- <-]; by apply Hun|].
    intros [= <- <-]. apply regrouped_awoken; [done|done|by right|]. rewrite Hdel, decide_False by tauto. done.
  - intros [= <- <-]. apply regrouped_awoken; [done|done| |by rewrite Hdel, decide_True]. left. intros Hp.
    apply Hst, (gq_status _ _ (sh_good _ (rs_shape _ Hr) q Hp)).
Qed.

(** ** New values *)

(** The values after SETVAL, SETALL and the exit of a process. *)
Definition limited (v : Z) : Z := Z.min SEMVMX (Z.max 0 v).

Lemma exit_loop_spec nums semadj p : ∀ a, NoDup nums → (∀ i, 0 ≤ semval (sems a i) ≤ SEMVMX) →
  ∃ f, exit_loop nums semadj p a = set_sems f a ∧ ∀ i,
    semval (f i) = (if decide (i ∈ nums) then limited (semval (sems a i) + semadj i) else semval (sems a i)) ∧
    pending_alter (f i) = pending_alter (sems a i) ∧ pending_const (f i) = pending_const (sems a i).
Proof.
  induction nums as [|n nums IH]; intros a Hn Hv; cbn [exit_loop].
  { exists (sems a). split; [by destruct a|]. intros i. rewrite decide_False by apply not_elem_of_nil. done. }
  apply list.NoDup_cons in Hn as [Hnn Hn].
  match goal with |- context [exit_loop nums semadj p ?b] => set (a1 := b) end.
  assert (∃ f1, a1 = set_sems f1 a ∧ (∀ i, i ≠ n → f1 i = sems a i) ∧ semval (f1 n) = limited (semval (sems a n) + semadj n) ∧
    pending_alter (f1 n) = pending_alter (sems a n) ∧ pending_const (f1 n) = pending_const (sems a n)) as (f1 & E1 & Ho & V1 & L1 & L2).
  { unfold a1, limited. specialize (Hv n). destruct (Z.eqb_spec (semadj n) 0) as [Hz|Hz].
    - exists (sems a). split; [by destruct a|]. split; [done|]. split; [rewrite Hz; lia|done].
    - eexists. split; [done|]. split; [intros i Hi; by rewrite fn_lookup_insert_ne|]. rewrite fn_lookup_insert. cbn. split; [|done].
      destruct (Z.ltb_spec (semval (sems a n) + semadj n) 0) as [Hl|Hl].
      + destruct (Z.ltb_spec SEMVMX 0); unfold SEMVMX in *; lia.
      + destruct (Z.ltb_spec SEMVMX (semval (sems a n) + semadj n)); lia. }
  rewrite E1. destruct (IH (set_sems f1 a) Hn) as (f & E & Hf).
  { intros i. cbn. destruct (decide (i = n)) as [->|]; [rewrite V1; unfold limited, SEMVMX; lia|by rewrite Ho]. }
  exists f. split; [done|]. intros i. destruct (Hf i) as (-> & -> & ->). cbn [sems set_sems].
  destruct (decide (i = n)) as [->|Hne].
  - rewrite decide_False, decide_True, V1, L1, L2 by (by try left). done.
  - rewrite Ho by done. split; [|done]. apply decide_ext. rewrite elem_of_cons. naive_solver.
Qed.

Lemma store_values_spec vs p : ∀ k a, ∃ f, store_values vs k p a = set_sems f a ∧ ∀ i,
  semval (f i) = (if decide (k ≤ i < k + Z.of_nat (length vs)) then default 0 (vs !! Z.to_nat (i - k)) else semval (sems a i)) ∧
  pending_alter (f i) = pending_alter (sems a i) ∧ pending_const (f i) = pending_const (sems a i).
Proof.
  induction vs as [|v vs IH]; intros k a; cbn [store_values length].
  { exists (sems a). split; [by destruct a|]. intros i. rewrite decide_False by lia. done. }
  destruct (IH (k + 1) (upd_sem k (λ m, set_sempid p (set_semval v m)) a)) as (f & E & Hf). exists f. split; [done|].
  intros i. destruct (Hf i) as (-> & -> & ->). unfold upd_sem. cbn [sems set_sems]. destruct (decide (i = k)) as [->|Hne].
  - rewrite decide_False, decide_True, !fn_lookup_insert, Z.sub_diag by lia. done.
  - rewrite fn_lookup_insert_ne by done. split; [|done]. repeat case_decide; try lia.
    by replace (Z.to_nat (i - k)) with (S (Z.to_nat (i - (k + 1)))) by lia.
Qed.

(** A change of values under the lock of the set. *)
Lemma change_values fuel s s2 otime :
  rest s → revalued (upd_sma complexmode_enter s) s2 → (∀ i, 0 ≤ vals s2 i ≤ SEMVMX) →
  (∀ un i, - SEMAEM - 1 ≤ undos s2 un i ≤ SEMAEM) → (∀ i, ¬ 0 ≤ i < sem_nsems (sma s) → vals s2 i = vals s i) →
  (∀ q, pending (sma s) q → undo (queues s q) = 0 ∨ undo (queues s q) ∈ list_id (sma s2)) →
  (length (sma_alter (sma s)) < fuel)%nat →
  ∃ x ev, do_smart_update fuel s2 None otime = Ok x ∧ rest (sem_unlock x SEM_GLOBAL_LOCK) ∧
    progress (vals s2) (undos s2) s (sem_unlock x SEM_GLOBAL_LOCK) [] ev [] ∧
    list_id (sma (sem_unlock x SEM_GLOBAL_LOCK)) = list_id (sma s2).
Proof.
  intros Hr R2 Hv Ha Hsame Ho Hf. set (s1 := upd_sma complexmode_enter s) in *.
  destruct (sem_lock_ok s None s1 SEM_GLOBAL_LOCK Hr) as (Hh & M & R1 & _ & _); [done|done|].
  assert (all_nums s2 = all_nums s) as En by (unfold all_nums; by rewrite (rv_nsems _ _ R2)).
  apply (update_and_unlock fuel s s1 s2); try done.
  - apply (same_const_quiet s); [done|]. apply (rs_quiet _ Hr).
  - intros i x. apply (qt_alter _ (rs_quiet _ Hr)).
  - cbn. rewrite En. intros i Hi%elem_all_nums. lia.
  - cbn. rewrite En. intros i Hi. apply Hsame. by rewrite elem_all_nums in Hi.
Qed.

Lemma semctl_setval_ok fuel s c semnum val :
  rest s → (length (sma_alter (sma s)) < fuel)%nat →
  ∃ s' e, semctl_setval fuel s c semnum val = Ok (s', e) ∧ rest s' ∧
    (e ≠ 0 ∧ s' = s ∨
     e = 0 ∧ 0 ≤ val ≤ SEMVMX ∧ deleted (sma s) = false ∧
     ∃ ev, progress (<[semnum := val]> (vals s)) (undos (reset_semadj s [semnum])) s s' [] ev [] ∧ list_id (sma s') = list_id (sma s)).
Proof.
  intros Hr Hf. unfold semctl_setval.
  destruct (Z.ltb_spec SEMVMX val), (Z.ltb_spec val 0); cbn [orb]; try (exists s, (- ERANGE); split; [done|]; split; [done|]; by left).
  destruct (deleted (sma s)) eqn:Hd; [exists s, (- EINVAL); split; [done|]; split; [done|]; by left|].
  destruct (Z.ltb_spec semnum 0), (Z.leb_spec (sem_nsems (sma s)) semnum); cbn [orb];
    try (exists s, (- EINVAL); split; [done|]; split; [done|]; by left).
  destruct (c_perm c); cbn [negb]; [|exists s, (- EACCES); split; [done|]; split; [done|]; by left].
  destruct (c_security c =? 0); cbn [negb]; [|exists s, (- EACCES); split; [done|]; split; [done|]; by left].
  cbn [sem_lock]. set (s1 := upd_sma complexmode_enter s).
  set (s2 := upd_sma (upd_sem semnum (λ m, set_sempid (c_pid c) (set_semval val m))) (reset_semadj s1 [semnum])).
  assert (vals s2 = <[semnum := val]> (vals s)) as Ev.
  { apply functional_extensionality. intros i. unfold vals, values. cbn. destruct (decide (i = semnum)) as [->|].
    - by rewrite !fn_lookup_insert.
    - by rewrite !fn_lookup_insert_ne. }
  destruct (change_values fuel s s2 false Hr) as (x & ev & -> & Hr' & P & Ei).
  - split; try done. intros i. cbn. destruct (decide (i = semnum)) as [->|]; [by rewrite fn_lookup_insert|by rewrite fn_lookup_insert_ne].
  - intros i. rewrite Ev. destruct (decide (i = semnum)) as [->|]; [rewrite fn_lookup_insert; lia|].
    rewrite fn_lookup_insert_ne by done. apply (sh_val _ (rs_shape _ Hr)).
  - intros un i. cbn. case_bool_decide; [unfold SEMAEM, SEMVMX; lia|apply (sh_adj _ (rs_shape _ Hr))].
  - intros i Hi. rewrite Ev, fn_lookup_insert_ne; [done|]. intros ->. lia.
  - apply (rs_owned _ Hr).
  - done.
  - cbn [mbind outcome_bind]. eexists _, 0. split; [done|]. split; [done|]. right. split; [done|]. split; [lia|]. split; [done|].
    exists ev. rewrite Ev in P. by split.
Qed.

(** The values that SETALL stores. *)
Definition stored (s : sem_state) (vs : list Z) : Z → Z :=
  λ i, if decide (0 ≤ i < sem_nsems (sma s)) then default 0 (vs !! Z.to_nat i) else vals s i.

Lemma semctl_setall_ok fuel s c vs :
  rest s → Z.of_nat (length vs) = sem_nsems (sma s) → Forall (λ v, 0 ≤ v) vs → (length (sma_alter (sma s)) < fuel)%nat →
  ∃ s' e, semctl_setall fuel s c vs = Ok (s', e) ∧ rest s' ∧
    (e ≠ 0 ∧ s' = s ∨
     e = 0 ∧ deleted (sma s) = false ∧
     ∃ ev, progress (stored s vs) (undos (reset_semadj s (all_nums s))) s s' [] ev [] ∧ list_id (sma s') = list_id (sma s)).
Proof.
  intros Hr Hlen Hpos Hf. unfold semctl_setall.
  destruct (deleted (sma s)) eqn:Hd; [exists s, (- EINVAL); split; [done|]; split; [done|]; by left|].
  destruct (c_perm c); cbn [negb]; [|exists s, (- EACCES); split; [done|]; split; [done|]; by left].
  destruct (Z.eqb_spec (c_security c) 0); cbn [negb]; [|exists s, (c_security c); split; [done|]; split; [done|]; by left].
  destruct (forallb (λ v, v <=? SEMVMX) vs) eqn:Hmax; cbn [negb]; [|exists s, (- ERANGE); split; [done|]; split; [done|]; by left].
  cbn [sem_lock]. set (s1 := upd_sma complexmode_enter s).
  destruct (store_values_spec vs (c_pid c) 0 (sma s1)) as (f & Ef & Hst).
  set (s2 := reset_semadj _ _).
  assert (sma s2 = set_sems f (sma s1)) as E2 by (cbn; exact Ef).
  assert (vals s2 = stored s vs) as Ev.
  { apply functional_extensionality. intros i. unfold vals, values, stored. rewrite E2. cbn [sems set_sems].
    rewrite (proj1 (Hst i)), Z.add_0_l, Z.sub_0_r, Hlen. done. }
  assert (list_id (sma s2) = list_id (sma s)) as Ei2 by (by rewrite E2).
  assert (undos s2 = undos (reset_semadj s (all_nums s))) as Eu.
  { unfold s2, reset_semadj, all_nums, upd_sma. cbn [undos set_undos set_sma sma]. rewrite Ef. done. }
  destruct (change_values fuel s s2 false Hr) as (x & ev & Ex & Hr' & P & Ei).
  - split; rewrite ?E2; try done. intros i. cbn [sems set_sems]. by destruct (Hst i) as (_ & ? & ?).
  - intros i. rewrite Ev. unfold stored. case_decide; [|apply (sh_val _ (rs_shape _ Hr))].
    destruct (vs !! Z.to_nat i) as [v|] eqn:Hv; cbn; [|unfold SEMVMX; lia]. apply list_elem_of_lookup_2 in Hv.
    rewrite list.Forall_forall in Hpos. rewrite forallb_forall in Hmax. apply list_elem_of_In in Hv as Hv'.
    specialize (Hpos v Hv). specialize (Hmax v Hv'). lia.
  - intros un i. rewrite Eu. cbn. case_bool_decide; [unfold SEMAEM, SEMVMX; lia|apply (sh_adj _ (rs_shape _ Hr))].
  - intros i Hi. rewrite Ev. unfold stored. by rewrite decide_False.
  - rewrite Ei2. apply (rs_owned _ Hr).
  - done.
  - rewrite Ex. cbn [mbind outcome_bind]. eexists _, 0. split; [done|]. split; [done|]. right. split; [done|]. split; [done|].
    exists ev. rewrite Ev, Eu in P. rewrite Ei2 in Ei. by split.
Qed.

(** The values after the adjustments of [un] have been applied. *)
Definition adjusted (s : sem_state) (un : Z) : Z → Z :=
  λ i, if decide (0 ≤ i < sem_nsems (sma s)) then limited (vals s i + undos s un i) else vals s i.

Lemma exit_sem_ok fuel s un p :
  rest s → (∀ q, pending (sma s) q → undo (queues s q) ≠ un) → (length (sma_alter (sma s)) < fuel)%nat →
  ∃ s', exit_sem fuel s un p = Ok s' ∧ rest s' ∧
    (if decide (deleted (sma s) = false ∧ un ∈ list_id (sma s)) then
       ∃ ev, progress (adjusted s un) (undos s) s s' [] ev [] ∧ list_id (sma s') = unlist un (list_id (sma s))
     else regrouped s s').
Proof.
  intros Hr Hne Hf. unfold exit_sem. destruct (deleted (sma s)) eqn:Hd.
  { exists s. rewrite decide_False by (by intros [? _]). split; [done|]. split; [done|apply regrouped_refl]. }
  cbn [sem_lock]. set (s1 := upd_sma complexmode_enter s). destruct (sem_lock_ok s None s1 SEM_GLOBAL_LOCK Hr) as (Hh & M & R1 & _ & _); [done|done|].
  change (list_id (sma s1)) with (list_id (sma s)). case_bool_decide as Hin; cbn [negb].
  2:{ destruct (sem_unlock_ok s1 SEM_GLOBAL_LOCK Hh (same_quiet _ _ M (rs_quiet _ Hr))) as [Hr' R']; [apply (rs_owned _ Hr)|].
      eexists. split; [done|]. split; [done|]. rewrite decide_False by (by intros [_ ?]). by eapply regrouped_trans. }
  set (sx := upd_sma (λ a, set_list_id (unlist un (list_id a)) a) s1).
  destruct (exit_loop_spec (all_nums sx) (undos sx un) p (sma sx)) as (f & Ef & Hst).
  { apply (NoDup_fmap_2 _), NoDup_seq. } { apply (sh_val _ (rs_shape _ Hr)). }
  set (s2 := upd_sma (exit_loop (all_nums sx) (undos sx un) p) sx).
  assert (sma s2 = set_sems f (sma sx)) as E2 by (cbn; exact Ef).
  assert (vals s2 = adjusted s un) as Ev.
  { apply functional_extensionality. intros i. unfold vals, values, adjusted. rewrite E2. cbn [sems set_sems].
    rewrite (proj1 (Hst i)). apply decide_ext. apply (elem_all_nums s). }
  destruct (change_values fuel s s2 true Hr) as (x & ev & Ex & Hr' & P & Ei).
  - split; rewrite ?E2; try done. intros i. cbn [sems set_sems]. by destruct (Hst i) as (_ & ? & ?).
  - intros i. rewrite Ev. unfold adjusted, limited. case_decide; [unfold SEMVMX; lia|apply (sh_val _ (rs_shape _ Hr))].
  - apply (sh_adj _ (rs_shape _ Hr)).
  - intros i Hi. rewrite Ev. unfold adjusted. by rewrite decide_False.
  - intros q Hq. rewrite E2. change (list_id (set_sems f (sma sx))) with (unlist un (list_id (sma s))). rewrite elem_unlist. specialize (Hne q Hq). destruct (rs_owned _ Hr q Hq); tauto.
  - done.
  - rewrite Ex. cbn [mbind outcome_bind]. eexists. split; [done|]. split; [done|]. rewrite decide_True by done.
    exists ev. rewrite Ev in P. rewrite E2 in Ei. by split.
Qed.

End SysvSemTrace.
