(* ===== verification/SysvSemReach.v ===== *)
(** * States of a semaphore set

    The removal of a set ([freeary], ipc_sem/src/sem.c), and the states that a
    set and the calls sleeping on it are in after any sequence of calls. *)

From stdpp Require Import base numbers list option functions relations.
From Stdlib Require Import ZArith Lia FunctionalExtensionality.
From S2P Require Import Prelude SysvSem SysvSemAtomic SysvSemInv SysvSemWake SysvSemUpdate SysvSemLock SysvSemCalls SysvSemTrace.

Open Scope Z_scope.

Module SysvSemReach.
Import SysvSem SysvSemAtomic SysvSemInv SysvSemWake SysvSemUpdate SysvSemLock SysvSemCalls SysvSemTrace.

(** ** Removal *)

(** The requests [l] have been woken with the error of a removed set. *)
Record freed (l : list Z) (s s' : sem_state) : Prop := {
  fd_shape : shape s';
  fd_fixed : fixed s s';
  fd_without : without l (sma s) (sma s');
  fd_vals : vals s' = vals s;
  fd_undos : undos s' = undos s;
  fd_wake : wake_q s' = wake_q s ++ ((λ q, (q, - EIDRM)) <$> l);
  fd_status : ∀ x, status (queues s' x) = if decide (x ∈ l) then - EIDRM else status (queues s x);
  fd_nodup : NoDup l;
  fd_pending : ∀ q, q ∈ l → pending (sma s) q
}.

Lemma freed_refl s : shape s → freed [] s s.
Proof.
  intros H. split; [done|apply fixed_refl|apply without_nil|done|done|by rewrite app_nil_r| |constructor|].
  - intros x. by rewrite decide_False by apply not_elem_of_nil.
  - intros q ?%elem_of_nil. done.
Qed.

Lemma freed_trans l1 l2 s1 s2 s3 : freed l1 s1 s2 → freed l2 s2 s3 → freed (l1 ++ l2) s1 s3.
Proof.
  intros [A1 A2 A3 A4 A5 A6 A7 A8 A9] [B1 B2 B3 B4 B5 B6 B7 B8 B9].
  assert (∀ q, q ∈ l2 → (q ∉ l1) ∧ pending (sma s1) q) as Hd by (intros q Hq; apply (without_pending _ _ _ _ A3); by apply B9).
  split; [done|by eapply fixed_trans|by eapply without_app|congruence|congruence| | | |].
  - by rewrite B6, A6, fmap_app, app_assoc.
  - intros x. rewrite B7, A7. destruct (decide (x ∈ l2)), (decide (x ∈ l1)), (decide (x ∈ l1 ++ l2)) as [Hx|Hx]; try done;
      rewrite elem_of_app in Hx; tauto.
  - apply list.NoDup_app. split; [done|]. split; [|done]. intros x Hx Hy. by apply (Hd x Hy).
  - intros q [Hq|Hq]%elem_of_app; [by apply A9|by apply Hd].
Qed.

Lemma free_list_ok l : ∀ s, shape s → NoDup l → (∀ q, q ∈ l → pending (sma s) q) → freed l s (free_list l s).
Proof.
  induction l as [|q l IH]; intros s H Hn Hl; cbn [free_list]; [by apply freed_refl|].
  apply list.NoDup_cons in Hn as [Hql Hn]. assert (pending (sma s) q) as Hp by (apply Hl; by left).
  set (s1 := wake_up_sem_queue_prepare q (- EIDRM) (unlink_queue q s)).
  destruct (unlink_queue_spec q s) as (Eq & Eu & Ew & Ev & F & W & _).
  assert (freed [q] s s1) as Hf.
  { split.
    - apply wake_prepare_shape; [by apply unlink_shape|]. rewrite (without_pending _ _ _ q W). intros [Hx _]. apply Hx. by left.
    - eapply fixed_trans; [done|apply wake_prepare_fixed].
    - done.
    - done.
    - done.
    - cbn. by rewrite Ew.
    - intros x. cbn. rewrite Eq. destruct (decide (x = q)) as [->|Hx].
      + rewrite fn_lookup_insert, decide_True by (by left). done.
      + rewrite fn_lookup_insert_ne, decide_False by (done || by rewrite list_elem_of_singleton). done.
    - apply NoDup_singleton.
    - by intros x ->%list_elem_of_singleton. }
  apply (freed_trans [q] l s s1); [done|]. apply IH; [apply Hf|done|].
  intros x Hx. apply (without_pending _ _ _ _ (fd_without _ _ _ Hf)). rewrite list_elem_of_singleton.
  split; [by intros ->|apply Hl; by right].
Qed.

Lemma same_freed s s' :
  shape s → same s s' → wake_q s' = wake_q s → list_id (sma s') = list_id (sma s) → deleted (sma s') = deleted (sma s) →
  use_global_lock (sma s') = use_global_lock (sma s) → now s' = now s → freed [] s s'.
Proof.
  intros H M Ew Ei Ed Eg Et. pose proof (same_served s s' M Ew Ei Ed Eg Et) as S.
  split; [|apply S|by apply same_without|by apply same_vals|apply M|by rewrite app_nil_r| |constructor|by intros q ?%elem_of_nil].
  - eapply same_shape; [done|done| |]; rewrite Eg; apply (sh_lock _ H).
  - intros x. rewrite decide_False by apply not_elem_of_nil. by rewrite (sm_queues _ _ M).
Qed.

Lemma dropped_self l l' : (∀ q, q ∈ l → q ∈ l') → dropped l' l = [].
Proof.
  intros H. unfold dropped. induction l as [|q l IH]; [done|]. rewrite filter_cons_False; [apply IH; intros x Hx; apply H; by right|].
  intros Hn. apply Hn, H. by left.
Qed.

Lemma free_sems_ok nums : ∀ s, shape s →
  ∃ l, freed l s (free_sems nums s) ∧ ∀ i, i ∈ nums →
    pending_alter (sems (sma (free_sems nums s)) i) = [] ∧ pending_const (sems (sma (free_sems nums s)) i) = [].
Proof.
  induction nums as [|n nums IH]; intros s H; cbn [free_sems]; [exists []; split; [by apply freed_refl|by intros i ?%elem_of_nil]|].
  destruct (sh_nodup _ H) as (_ & _ & _ & N2).
  set (lc := pending_const (sems (sma s) n)). pose proof (free_list_ok lc s H (N2 n)) as F1. set (s1 := free_list lc s) in *.
  specialize (F1 ltac:(intros q Hq; right; right; right; by exists n)). pose proof (fd_shape _ _ _ F1) as H1.
  destruct (sh_nodup _ H1) as (_ & _ & N1 & _).
  set (la := pending_alter (sems (sma s1) n)). pose proof (free_list_ok la s1 H1 (N1 n)) as F2. set (s2 := free_list la s1) in *.
  specialize (F2 ltac:(intros q Hq; right; right; left; by exists n)).
  set (s3 := upd_sma (upd_sem n (set_sempid 0)) s2).
  assert (same s2 s3) as M3.
  { split; try done; intros i; unfold vals, values; cbn;
      (destruct (decide (i = n)) as [->|]; [by rewrite fn_lookup_insert|by rewrite fn_lookup_insert_ne]). }
  pose proof (same_freed s2 s3 (fd_shape _ _ _ F2) M3 eq_refl eq_refl eq_refl eq_refl eq_refl) as F3.
  destruct (IH s3 (fd_shape _ _ _ F3)) as (l & F4 & He). exists (((lc ++ la) ++ []) ++ l).
  split; [eapply freed_trans; [|done]; eapply freed_trans; [|done]; by eapply freed_trans|].
  intros i [->|Hi]%elem_of_cons; [|by apply He].
  assert (pending_const (sems (sma s1) n) = []) as C1.
  { destruct (fd_without _ _ _ F1) as (_ & _ & Ws). rewrite (proj2 (Ws n)). by apply dropped_self. }
  assert (pending_alter (sems (sma s2) n) = [] ∧ pending_const (sems (sma s2) n) = []) as [A2 C2].
  { destruct (fd_without _ _ _ F2) as (_ & _ & Ws). rewrite (proj1 (Ws n)), (proj2 (Ws n)), C1. split; [by apply dropped_self|done]. }
  destruct (sm_lists _ _ M3 n) as [A3 C3]. destruct (fd_without _ _ _ F4) as (_ & _ & Ws).
  by rewrite (proj1 (Ws n)), (proj2 (Ws n)), A3, C3, A2, C2.
Qed.

(** Nobody waits in a removed set: all have been woken. *)
Lemma freeary_ok s : rest s →
  ∃ l, NoDup l ∧ (∀ q, q ∈ l ↔ pending (sma s) q) ∧ rest (freeary s) ∧ deleted (sma (freeary s)) = true ∧
    (∀ q, ¬ pending (sma (freeary s)) q) ∧ vals (freeary s) = vals s ∧ undos (freeary s) = undos s ∧
    wake_q (freeary s) = wake_q s ++ ((λ q, (q, - EIDRM)) <$> l) ∧
    sem_nsems (sma (freeary s)) = sem_nsems (sma s) ∧ (∀ x, req (freeary s) x = req s x) ∧
    (∀ x, status (queues (freeary s) x) = if decide (x ∈ l) then - EIDRM else status (queues s x)).
Proof.
  intros Hr. unfold freeary. cbn [sem_lock]. destruct (sem_lock_ok s None (upd_sma complexmode_enter s) SEM_GLOBAL_LOCK Hr) as (Hh & M & R1 & _ & _); [done|done|].
  set (sa := upd_sma (set_list_id []) (upd_sma complexmode_enter s)).
  assert (same s sa) as Ma by (by split). pose proof (rs_shape _ Hr) as H.
  assert (shape sa) as Ha by (eapply same_shape; [done|done|done|done]).
  destruct (sh_nodup _ Ha) as (_ & Nc & _ & _).
  pose proof (free_list_ok (sma_const (sma sa)) sa Ha Nc ltac:(intros q Hq; by right; left)) as F1. set (s1 := free_list _ sa) in *.
  destruct (sh_nodup _ (fd_shape _ _ _ F1)) as (Na & _ & _ & _).
  pose proof (free_list_ok (sma_alter (sma s1)) s1 (fd_shape _ _ _ F1) Na ltac:(intros q Hq; by left)) as F2. set (s2 := free_list _ s1) in *.
  destruct (free_sems_ok (all_nums s2) s2 (fd_shape _ _ _ F2)) as (l3 & F3 & He). set (s3 := free_sems (all_nums s2) s2) in *.
  pose proof (freed_trans _ _ _ _ _ (freed_trans _ _ _ _ _ F1 F2) F3) as Ff. set (l := (_ ++ _) ++ l3) in Ff.
  assert (∀ q, ¬ pending (sma s3) q) as Hnone.
  { intros q Hp. pose proof (sh_good _ (fd_shape _ _ _ F3) q Hp) as Hg. destruct (fd_without _ _ _ F3) as (Wa & Wc & _).
    destruct (fd_without _ _ _ F2) as (Va & Vc & _), (fd_without _ _ _ F1) as (Ua & Uc & _).
    assert (∀ i, q ∈ pending_alter (sems (sma s3) i) ++ pending_const (sems (sma s3) i) → ¬ 0 ≤ i < sem_nsems (sma s3)) as Hout.
    { intros i Hi Hi'. destruct (fx_array _ _ (fd_fixed _ _ _ F3)) as (En & _). rewrite En in Hi'. destruct (He i) as [E1 E2]; [by apply elem_all_nums|].
      rewrite E1, E2 in Hi. by apply elem_of_nil in Hi. }
    assert (∀ i, num1 (queues s3 q) = i → ¬ complex (queues s3 q) → 0 ≤ i < sem_nsems (sma s3)) as Hin.
    { intros i <- Hc. destruct (simple_queue _ _ Hg Hc) as (sop & Es & _ & ->). pose proof (gq_range _ _ Hg) as Hrg. rewrite Es in Hrg.
      by apply list.Forall_cons in Hrg as [? _]. }
    destruct Hp as [Hq|[Hq|[[i Hq]|[i Hq]]]].
    - rewrite Wa, Va, (dropped_self (sma_alter (sma s1))) in Hq by done. by apply elem_of_nil in Hq.
    - rewrite Wc, Vc, Uc, (dropped_self (sma_const (sma sa))) in Hq by done. by apply elem_of_nil in Hq.
    - destruct (sh_alter1 _ (fd_shape _ _ _ F3) i q Hq) as (_ & Hc & Hnum & _). apply (Hout i); [apply elem_of_app; by left|by apply Hin].
    - destruct (sh_const1 _ (fd_shape _ _ _ F3) i q Hq) as (_ & Hc & Hnum). apply (Hout i); [apply elem_of_app; by right|by apply Hin]. }
  set (s4 := upd_sma set_deleted s3). assert (same s3 s4) as M4 by (by split).
  assert (∀ q, ¬ pending (sma s4) q) as Hnone4 by (intros q; by rewrite (same_pending _ _ q M4)).
  destruct (fx_array _ _ (fd_fixed _ _ _ Ff)) as (En & _ & _ & Eg & _).
  assert (shape s4) as H4 by (eapply same_shape; [apply F3|done| |]; apply (sh_lock _ (fd_shape _ _ _ F3))).
  destruct (sem_unlock_ok s4 SEM_GLOBAL_LOCK) as [Hr5 [A1 A2 A3 A4 A5 A6 A7 A8]].
  { split; [done| |done]. intros _. change (use_global_lock (sma s4)) with (use_global_lock (sma s3)). by rewrite Eg. }
  { apply blocked_quiet; [done|]. intros q Hq. by apply Hnone4 in Hq. } { intros q Hq. by apply Hnone4 in Hq. }
  exists l. split; [apply Ff|]. split.
  { intros q. split; [intros Hq; by apply (same_pending s sa), (fd_pending _ _ _ Ff)|]. intros Hq.
    destruct (decide (q ∈ l)) as [?|Hn]; [done|]. destruct (Hnone q). apply (without_pending _ _ _ _ (fd_without _ _ _ Ff)).
    split; [done|]. by apply (same_pending s sa). }
  split; [done|]. rewrite A1, A2, A4, A6, A7. split; [done|]. split; [intros q; rewrite A8; apply Hnone4|].
  split; [apply Ff|]. split; [apply Ff|]. split; [apply Ff|]. split; [exact En|].
  split; [intros x; unfold req; rewrite A3; apply Ff|]. intros x. rewrite A3. apply Ff.
Qed.

(** ** Reading values *)

Lemma lock_unlock_ok s s1 n : rest s → sem_lock s None = (s1, n) → rest (sem_unlock s1 n) ∧ regrouped s (sem_unlock s1 n).
Proof.
  intros Hr E. destruct (sem_lock_ok s None s1 n Hr) as (Hh & M & R1 & _ & _); [done|done|].
  destruct (sem_unlock_ok s1 n Hh (same_quiet _ _ M (rs_quiet _ Hr))) as [? ?]; [|split; [done|by eapply regrouped_trans]].
  intros x. rewrite (rg_pending _ _ R1), (rg_queues _ _ R1), (rg_id _ _ R1). apply (rs_owned _ Hr).
Qed.

Lemma semctl_get_ok s c semnum cmd : rest s → rest (semctl_get s c semnum cmd).1 ∧ regrouped s (semctl_get s c semnum cmd).1.
Proof.
  intros Hr. unfold semctl_get. repeat case_match; cbn [fst]; try (split; [done|apply regrouped_refl]); by apply lock_unlock_ok.
Qed.

Lemma semctl_getall_ok s c : rest s → rest (semctl_getall s c).1.1 ∧ regrouped s (semctl_getall s c).1.1.
Proof.
  intros Hr. unfold semctl_getall. repeat case_match; cbn [fst]; try (split; [done|apply regrouped_refl]); by apply lock_unlock_ok.
Qed.

(** ** A new set *)

Lemma newary_ok used semmns nsems mem security addid time s :
  newary used semmns nsems mem security addid time = inl s →
  rest s ∧ (∀ q, ¬ pending (sma s) q) ∧ deleted (sma s) = false ∧ sem_nsems (sma s) = nsems.
Proof.
  unfold newary. set (s0 := mk_state _ _ _ _ _). repeat (case_match; [done|]). intros [= <-].
  assert (∀ q, ¬ pending (sma s0) q) as Hn.
  { intros q [Hq|[Hq|[[i Hq]|[i Hq]]]]; by apply elem_of_nil in Hq. }
  assert (shape s0) as Hs.
  { split; cbn; try done; try (intros i q ?%elem_of_nil; done); try (intros q ?%elem_of_nil; done).
    - intros q Hq. by apply Hn in Hq.
    - split; [constructor|]. split; [constructor|]. split; constructor. }
  destruct (sem_unlock_ok s0 SEM_GLOBAL_LOCK) as [Hr R].
  { by split. } { apply blocked_quiet; [done|]. intros q Hq. by apply Hn in Hq. } { intros q Hq. by apply Hn in Hq. }
  split; [done|]. split; [intros q; rewrite (rg_pending _ _ R); apply Hn|]. split; [by rewrite (rg_deleted _ _ R)|by rewrite (rg_nsems _ _ R)].
Qed.

(** ** The set and the calls that sleep *)

Record sys := mk_sys { st : sem_state; sleepers : list Z }.

(** Every call runs on its own request; a process that exits has no call
    sleeping, and shares its adjustments with nobody. *)
Inductive sys_step : sys → sys → Prop :=
  | step_semop fuel s sl q c l s' r :
      q ∉ sl → Forall (λ sop, 0 ≤ sem_num sop) l → c_undo c ≠ 0 → (length (sma_alter (sma s)) < fuel)%nat →
      do_semtimedop fuel s q c l = Ok (s', r) →
      sys_step (mk_sys s sl) (mk_sys s' (match r with Sleeps => q :: sl | Returns _ => sl end))
  | step_awake s sl q e :
      q ∈ sl → semop_awake s q = Some e → sys_step (mk_sys s sl) (mk_sys s (unlist q sl))
  | step_awake_locked s sl q timed_out signal s' r :
      q ∈ sl → semop_awake_locked s q timed_out signal = (s', r) →
      sys_step (mk_sys s sl) (mk_sys s' (match r with Sleeps => sl | Returns _ => unlist q sl end))
  | step_setval fuel s sl c semnum val s' e :
      (length (sma_alter (sma s)) < fuel)%nat → semctl_setval fuel s c semnum val = Ok (s', e) → sys_step (mk_sys s sl) (mk_sys s' sl)
  | step_setall fuel s sl c vs s' e :
      Z.of_nat (length vs) = sem_nsems (sma s) → Forall (λ v, 0 ≤ v) vs → (length (sma_alter (sma s)) < fuel)%nat →
      semctl_setall fuel s c vs = Ok (s', e) → sys_step (mk_sys s sl) (mk_sys s' sl)
  | step_exit fuel s sl un p s' :
      (∀ q, q ∈ sl → undo (queues s q) ≠ un) → (length (sma_alter (sma s)) < fuel)%nat →
      exit_sem fuel s un p = Ok s' → sys_step (mk_sys s sl) (mk_sys s' sl)
  | step_get s sl c semnum cmd : sys_step (mk_sys s sl) (mk_sys (semctl_get s c semnum cmd).1 sl)
  | step_getall s sl c : sys_step (mk_sys s sl) (mk_sys (semctl_getall s c).1.1 sl)
  | step_remove s sl : deleted (sma s) = false → sys_step (mk_sys s sl) (mk_sys (freeary s) sl).

Record wf (y : sys) : Prop := {
  wf_rest : rest (st y);
  wf_sleep : ∀ q, pending (sma (st y)) q → q ∈ sleepers y;
  wf_wait : ∀ q, q ∈ sleepers y → status (queues (st y) q) = - EINTR → pending (sma (st y)) q;
  wf_deleted : deleted (sma (st y)) = true → ∀ q, ¬ pending (sma (st y)) q;
  wf_ops : ∀ q, q ∈ sleepers y → Forall (λ sop, 0 ≤ sem_num sop) (sops (queues (st y) q))
}.

Lemma serial_code r v a ev v' a' q e : serial r v a ev v' a' → (q, e) ∈ ev → e = 0 ∨ e = - ERANGE ∨ e = - EAGAIN.
Proof.
  induction 1 as [|q' v a v1 a1 ev v' a' Hr _ IH|q' k v a ev v' a' Hr Hc _ IH]; [by intros ?%elem_of_nil| |].
  - intros [[= -> ->]|?]%elem_of_cons; [by left|by apply IH].
  - intros [[= -> ->]|?]%elem_of_cons; [|by apply IH]. right. destruct k as [k|]; cbn in *; [|by left]. right.
    destruct ((r q').1 !! k) as [sop|]; [|lia]. destruct (has_flag sop IPC_NOWAIT); [done|lia].
Qed.

(** Requests were executed and woken. *)
Lemma progress_wf s sl v a s' own ev add :
  wf (mk_sys s sl) → rest s' → progress v a s s' own ev add → (∀ q, q ∈ sl → q ∉ own.*1 ++ add) →
  (deleted (sma s) = true → add = []) →
  (∀ q, q ∈ add → Forall (λ sop, 0 ≤ sem_num sop) (sops (queues s' q))) →
  wf (mk_sys s' (add ++ sl)).
Proof.
  intros [_ W1 W2 W3 W4] Hr P Hd Hdel Hops. cbn in *. split; cbn; [done| | | |].
  - intros q. rewrite (pg_pending _ _ _ _ _ _ _ P), elem_of_app. intros [[? _]|?]; [right; by apply W1|by left].
  - intros q [Hq|Hq]%elem_of_app Hst; rewrite (pg_pending _ _ _ _ _ _ _ P); [by right|]. left.
    specialize (Hd q Hq). rewrite not_elem_of_app in Hd. destruct Hd as [Hd1 Hd2].
    assert (q ∉ ev.*1) as Hev.
    { intros ([x e] & Ex & Hin)%list_elem_of_fmap. cbn in Ex. subst x. destruct (pg_woken _ _ _ _ _ _ _ P q e Hin) as [_ Hs]. rewrite Hs in Hst.
      destruct (serial_code _ _ _ _ _ _ q e (pg_serial _ _ _ _ _ _ _ P)) as [?|[?|?]];
        [apply elem_of_app; by right|unfold EINTR, ERANGE, EAGAIN in *; lia..]. }
    split; [|done]. apply W2; [done|]. by rewrite <- (pg_status _ _ _ _ _ _ _ P) by done.
  - rewrite (pg_deleted _ _ _ _ _ _ _ P). intros Hx q. rewrite (pg_pending _ _ _ _ _ _ _ P), (Hdel Hx), elem_of_nil. intros [[Hq _]|[]].
    by apply (W3 Hx q).
  - intros q [Hq|Hq]%elem_of_app; [by apply Hops|]. specialize (Hd q Hq). rewrite not_elem_of_app in Hd. destruct Hd as [Hd1 Hd2].
    pose proof (pg_req _ _ _ _ _ _ _ P q Hd1 Hd2) as E. unfold req in E. injection E as -> _. by apply W4.
Qed.

(** Nothing happened to the requests. *)
Lemma kept_wf s sl s' : wf (mk_sys s sl) → rest s' → kept s s' → wf (mk_sys s' sl).
Proof.
  intros [_ W1 W2 W3 W4] Hr [K1 K2 K3 K4 K5 K6 _]. cbn in *. split; cbn; [done| | | |].
  - intros q Hq%K6. by apply W1.
  - intros q Hq. rewrite K6, K2. by apply W2.
  - rewrite K4. intros Hx q Hq%K6. by apply (W3 Hx q).
  - intros q Hq. rewrite K2. by apply W4.
Qed.

Lemma unlist_wf s sl q : wf (mk_sys s sl) → ¬ pending (sma s) q → wf (mk_sys s (unlist q sl)).
Proof.
  intros [W0 W1 W2 W3 W4] Hq. cbn in *. split; cbn; [done| | |done|]; intros x; rewrite elem_unlist.
  - intros Hx. split; [by intros ->|by apply W1].
  - intros [_ Hx]. by apply W2.
  - intros [_ Hx]. by apply W4.
Qed.

Lemma awoken_wf s sl q t g s' r :
  wf (mk_sys s sl) → awoken s q t g s' r → wf (mk_sys s' (match r with Sleeps => sl | Returns _ => unlist q sl end)).
Proof.
  intros [_ W1 W2 W3 W4] [A0 A1 A2 A3 A4 A5 A6 A7 A8]. cbn in *.
  assert (∀ x, x ∈ match r with Sleeps => sl | Returns _ => unlist q sl end ↔ x ∈ sl ∧ (x ≠ q ∨ r = Sleeps)) as Hin.
  { intros x. destruct r; [naive_solver|]. rewrite elem_unlist. naive_solver. }
  split; cbn; [done| | | |].
  - intros x. rewrite A7, Hin. intros [Hx ?]. split; [by apply W1|done].
  - intros x. rewrite Hin, A7, A3. intros [Hx ?] ?. split; [by apply W2|done].
  - rewrite A5. intros Hx x [Hy _]%A7. by apply (W3 Hx x).
  - intros x. rewrite Hin, A3. intros [Hx _]. by apply W4.
Qed.

Lemma freeary_wf s sl : wf (mk_sys s sl) → wf (mk_sys (freeary s) sl).
Proof.
  intros [W0 W1 W2 W3 W4]. cbn in *. destruct (freeary_ok s W0) as (l & _ & Hl & Hr & Hd & Hn & _ & _ & _ & _ & Ereq & Est).
  split; cbn [st sleepers]; [done| | |done|].
  - intros q Hq. by apply Hn in Hq.
  - intros q Hq Hst. exfalso. rewrite Est in Hst. case_decide as Hx; [done|]. apply Hx, Hl. by apply W2.
  - intros q Hq. change (Forall (λ sop, 0 ≤ sem_num sop) (req (freeary s) q).1). rewrite Ereq. by apply W4.
Qed.

Lemma step_wf y y' : wf y → sys_step y y' → wf y'.
Proof.
  intros W. destruct 1 as [fuel s sl q c l s' r Hq Hl Hz Hf E|s sl q e Hq E|s sl q t g s' r Hq E|fuel s sl c n v s' e Hf E|
    fuel s sl c vs s' e Hlen Hpos Hf E|fuel s sl un p s' Hun Hf E|s sl c n cmd|s sl c|s sl Hd]; pose proof (wf_rest _ W) as Hr; cbn in Hr.
  - assert (¬ pending (sma s) q) as Hp by (intros Hp; by apply Hq, (wf_sleep _ W)).
    destruct (do_semtimedop_ok fuel s q c l Hr Hp Hl Hz Hf) as (s0 & r0 & E0 & Hr' & Hc). rewrite E in E0. injection E0 as <- <-.
    destruct Hc as [[(e & -> & _) K]|(Hd & _ & ev & A & Ereq)]; [by eapply kept_wf|].
    assert (∀ x, x ∈ sl → x ∉ [q]) as Hx by (intros x Hx ->%list_elem_of_singleton; done).
    destruct r as [|e]; cbn in A.
    + destruct A as (P & -> & Hst). apply (progress_wf s sl (vals s) (start_undos s c l) s' [] [] [q]); [done|done|done|done|by rewrite Hd|].
      intros x ->%list_elem_of_singleton. unfold req in Ereq. injection Ereq as -> _. done.
    + apply (progress_wf s sl (vals s) (start_undos s c l) s' [(q, e)] ev []); [done|done|done|done|done|by intros x ?%elem_of_nil].
  - apply unlist_wf; [done|]. intros Hp. pose proof (gq_status _ _ (sh_good _ (rs_shape _ Hr) q Hp)) as Hst.
    unfold semop_awake in E. rewrite (proj2 (Z.eqb_eq _ _) Hst) in E. done.
  - apply (awoken_wf s sl q t g); [done|]. apply semop_awake_locked_ok; [done| | | |done].
    + intros Hd. apply (wf_deleted _ W Hd).
    + intros _. by apply (wf_wait _ W).
    + by apply (wf_ops _ W).
  - destruct (semctl_setval_ok fuel s c n v Hr Hf) as (s0 & e0 & E0 & Hr' & Hc). rewrite E in E0. injection E0 as <- <-.
    destruct Hc as [[_ ->]|(_ & _ & _ & ev & P & _)]; [done|].
    apply (progress_wf s sl _ _ s' [] ev []) in P; [done|done|done|by intros; apply not_elem_of_nil|done|by intros x ?%elem_of_nil].
  - destruct (semctl_setall_ok fuel s c vs Hr Hlen Hpos Hf) as (s0 & e0 & E0 & Hr' & Hc). rewrite E in E0. injection E0 as <- <-.
    destruct Hc as [[_ ->]|(_ & _ & ev & P & _)]; [done|].
    apply (progress_wf s sl _ _ s' [] ev []) in P; [done|done|done|by intros; apply not_elem_of_nil|done|by intros x ?%elem_of_nil].
  - destruct (exit_sem_ok fuel s un p Hr) as (s0 & E0 & Hr' & Hc); [|done|].
    { intros q Hq. by apply Hun, (wf_sleep _ W). }
    rewrite E in E0. injection E0 as <-. case_decide; [destruct Hc as (ev & P & _)|by eapply kept_wf; [done|done|apply regrouped_kept]].
    apply (progress_wf s sl _ _ s' [] ev []) in P; [done|done|done|by intros; apply not_elem_of_nil|done|by intros x ?%elem_of_nil].
  - destruct (semctl_get_ok s c n cmd Hr). by eapply kept_wf; [done|done|apply regrouped_kept].
  - destruct (semctl_getall_ok s c Hr). by eapply kept_wf; [done|done|apply regrouped_kept].
  - by apply freeary_wf.
Qed.

Definition reachable (y : sys) : Prop :=
  ∃ used semmns nsems mem security addid time s0,
    newary used semmns nsems mem security addid time = inl s0 ∧ rtc sys_step (mk_sys s0 []) y.

Lemma sem_reachable_wf y : reachable y → wf y.
Proof.
  intros (used & semmns & n & mem & sec & addid & t & s0 & E & Hs). destruct (newary_ok _ _ _ _ _ _ _ _ E) as (Hr & Hn & Hd & _).
  assert (wf (mk_sys s0 [])) as W0.
  { split; cbn [st sleepers]; [done|intros q Hq; by apply Hn in Hq|by intros q ?%elem_of_nil|by rewrite Hd|by intros q ?%elem_of_nil]. }
  remember (mk_sys s0 []) as y0. clear Heqy0 E Hr Hn Hd. induction Hs as [|y0 y1 y2 H1 _ IH]; [done|]. apply IH. by eapply step_wf.
Qed.

End SysvSemReach.
