(* ===== verification/SysvSemTheorems.v ===== *)
(** * Correctness of System V semaphores

    What ipc_sem/src/sem.c promises: operations are atomic, calls take effect
    one after another together with the requests they allow, and no sleeping
    call is forgotten. *)

From stdpp Require Import base numbers list option functions relations.
From Stdlib Require Import ZArith Lia.
From S2P Require Import Prelude SysvSem SysvSemAtomic SysvSemInv SysvSemWake SysvSemUpdate SysvSemLock SysvSemCalls SysvSemTrace SysvSemReach.

Open Scope Z_scope.

Module SysvSemTheorems.
Import SysvSem SysvSemAtomic SysvSemInv SysvSemWake SysvSemUpdate SysvSemLock SysvSemCalls SysvSemTrace SysvSemReach.

(** ** Executing calls *)

Definition root : caller := mk_caller 1 100 true 0 500 true.

Definition exec (y : sys) (q : Z) (c : caller) (l : list sembuf) : sys :=
  match do_semtimedop (S (length (sma_alter (sma (st y))))) (st y) q c l with
  | Ok (s', r) => mk_sys s' (match r with Sleeps => q :: sleepers y | Returns _ => sleepers y end)
  | _ => y
  end.

Lemma exec_reachable y q c l :
  reachable y → q ∉ sleepers y → Forall (λ sop, 0 ≤ sem_num sop) l → c_undo c ≠ 0 → reachable (exec y q c l).
Proof.
  intros Hy Hq Hl Hz. unfold exec. destruct (do_semtimedop _ _ _ _ _) as [[s' r]| |] eqn:E; [|done|done].
  destruct Hy as (used & semmns & n & mem & sec & addid & t & s0 & E0 & Hs). exists used, semmns, n, mem, sec, addid, t, s0.
  split; [done|]. eapply rtc_r; [done|]. destruct y as [s sl]. cbn in *.
  eapply step_semop; [done|done|done| |done]. lia.
Qed.

(** A new set of [n] semaphores; no set if [newary] fails. *)
Definition no_set : sem_state :=
  mk_state (mk_array true [] [] [] 0 0 0 (λ _, mk_sem 0 0 [] [] 0)) (λ _, mk_queue 0 0 0 [] 0 false false) (λ _ _, 0) [] 0.

Definition new_set (n : Z) : sys := mk_sys (match newary 0 32000 n true 0 0 0 with inl s => s | inr _ => no_set end) [].

Lemma new_set_reachable n : 0 < n ≤ 32000 → reachable (new_set n).
Proof.
  intros Hn. unfold new_set. destruct (newary 0 32000 n true 0 0 0) as [s|e] eqn:E; [exists 0, 32000, n, true, 0, 0, 0, s; by split|].
  unfold newary in E. rewrite (proj2 (Z.eqb_neq n 0)), (proj2 (Z.ltb_ge 32000 (0 + n))) in E by lia. done.
Qed.

(** Semaphore 1 is raised, request 10 waits until both semaphores are zero,
    and semaphore 0 is raised too. *)
Definition op (num val : Z) : sembuf := mk_sembuf num val 0.

Definition y1 : sys := exec (new_set 2) 9 root [op 1 1].
Definition y2 : sys := exec y1 10 root [op 0 0; op 1 0].
Definition y3 : sys := exec y2 11 root [op 0 1].

(** Process 1 has taken semaphore 0 with an adjustment, and request 21 of
    process 2 waits for it. *)
Definition undo_op (num val : Z) : sembuf := mk_sembuf num val SEM_UNDO.
Definition other : caller := mk_caller 2 200 true 0 500 true.

Definition z1 : sys := exec (new_set 1) 19 other [op 0 1].
Definition z2 : sys := exec z1 20 root [undo_op 0 (-1)].
Definition z3 : sys := exec z2 21 other [op 0 (-1)].

Lemma y3_reachable : reachable y3.
Proof.
  apply exec_reachable; [apply exec_reachable; [apply exec_reachable; [by apply new_set_reachable|..]|..]|..];
    try (apply (bool_decide_unpack _); vm_compute; exact I).
Qed.

Lemma z3_reachable : reachable z3.
Proof.
  apply exec_reachable; [apply exec_reachable; [apply exec_reachable; [by apply new_set_reachable|..]|..]|..];
    try (apply (bool_decide_unpack _); vm_compute; exact I).
Qed.

(** ** Atomicity *)

(** C15: All operations of a request are performed, in the order given and on the
    values that the earlier ones leave, or none is: values, adjustments and
    queues are then as before, and only the operation that blocked is noted. The
    fast path, which looks at all values before it changes any, does the same as
    the slow one, given the duplicates that the scan of the operations finds
    modulo 64. *)
Theorem semop_atomic s q :
  dupsop (queues s q) = i_dupsop (scan_sops (sops (queues s q))) →
  Forall (λ r : sem_state * Z,
    match run_sops (sops (queues s q)) 0 (vals s) (undos s (undo (queues s q))) with
    | Done v' a' => r.2 = 0 ∧ vals r.1 = v' ∧ undos r.1 = <[undo (queues s q) := a']> (undos s) ∧ revalued s r.1
    | Stopped st => r = (note_blocking q st s, stop_code (sops (queues s q)) st)
    end) [perform_atomic_semop s q; perform_atomic_semop_slow s q].
Proof.
  intros Hd. assert (∀ r, atomic_result s q r → match run_sops (sops (queues s q)) 0 (vals s) (undos s (undo (queues s q))) with
    | Done v' a' => r.2 = 0 ∧ vals r.1 = v' ∧ undos r.1 = <[undo (queues s q) := a']> (undos s) ∧ revalued s r.1
    | Stopped st => r = (note_blocking q st s, stop_code (sops (queues s q)) st) end) as Hr.
  { intros r. unfold atomic_result, outcome_of. fold (vals s). destruct (run_sops _ _ _ _) as [v' a'|k]; [|done].
    intros (f' & -> & Hv & Hq). split; [done|]. split; [done|]. split; [done|]. by apply put_values_revalued. }
  repeat constructor; apply Hr; [apply perform_ok; rewrite Hd; apply scan_sops_dup|apply perform_slow_ok].
Qed.

(** Two operations on one semaphore: the second needs what the first adds. *)
Definition pair_state : sem_state :=
  set_queue 5 (λ _, mk_queue 0 100 (- EINTR) [op 0 1; op 0 (-1)] 0 true true) (st (new_set 1)).

Lemma semop_atomic_witness :
  let r := perform_atomic_semop pair_state 5 in r.2 = 0 ∧ vals r.1 0 = 0.
Proof.
  pose proof (semop_atomic pair_state 5 ltac:(vm_compute; reflexivity)) as H. cbv zeta.
  apply Forall_inv in H. destruct (run_sops _ _ _ _) as [v' a'|k] eqn:E; [|vm_compute in E; discriminate E].
  destruct H as (H1 & H2 & _). split; [exact H1|]. rewrite H2. apply (f_equal (λ x, match x with Done v _ => v 0 | _ => 1 end)) in E.
  etrans; [symmetry; exact E|]. vm_compute. reflexivity.
Defined.

(** ** Calls *)

(** C6: In every state a set can reach, a call returns or goes to sleep, and is
    refused without effect or has the effect of executing its request and then
    the waiting requests that it allows, each of them at once and one after
    another; those are woken, each exactly once and with its own result, and
    the others go on waiting. A call sleeps only if its request would block. *)
Theorem semop_serializable fuel y q c l :
  reachable y → q ∉ sleepers y → Forall (λ sop, 0 ≤ sem_num sop) l → c_undo c ≠ 0 →
  (length (sma_alter (sma (st y))) < fuel)%nat →
  ∃ s' r, do_semtimedop fuel (st y) q c l = Ok (s', r) ∧
    ((∃ e, r = Returns e ∧ e ≠ 0) ∧ kept (st y) s' ∨
     ∃ ev, answered (start_undos (st y) c l) (st y) s' q r ev ∧ req s' q = (l, call_undo c l) ∧
       (r = Sleeps → ∃ k, run_sops l 0 (vals s') (undos s' (call_undo c l)) = Stopped (WouldBlock k))).
Proof.
  intros Hy%sem_reachable_wf Hq Hl Hz Hf. assert (¬ pending (sma (st y)) q) as Hp by (intros Hp; by apply Hq, (wf_sleep _ Hy)).
  destruct (do_semtimedop_ok fuel (st y) q c l (wf_rest _ Hy) Hp Hl Hz Hf) as (s' & r & E & Hr & Hc). exists s', r. split; [done|].
  destruct Hc as [Hc|(_ & _ & ev & A & Er)]; [by left|right]. exists ev. split; [done|]. split; [done|]. intros ->.
  destruct A as (P & _ & _). assert (pending (sma s') q) as Hp' by (apply (pg_pending _ _ _ _ _ _ _ P); right; by left).
  destruct (quiet_blocked s' q (rs_shape _ Hr) (rs_quiet _ Hr) Hp') as [k Hk]. exists k. unfold outcome_of in Hk. fold (vals s') in Hk.
  unfold req in Er. injection Er as E1 E2. by rewrite E1, E2 in Hk.
Qed.

(** Raising semaphore 0 executes the waiting request of process 2. *)
Lemma semop_serializable_witness :
  ∃ s' r, do_semtimedop 5 (st z3) 22 root [op 0 1] = Ok (s', r) ∧ r = Returns 0 ∧ vals s' 0 = 0 ∧
    (21, 0) ∈ wake_q s'.
Proof.
  destruct (semop_serializable 5 z3 22 root [op 0 1]) as (s' & r & E & _);
    [exact z3_reachable|apply (bool_decide_unpack _); vm_compute; exact I..|].
  exists s', r. split; [exact E|].
  apply (f_equal (λ o, match o with Ok (s, r) => (vals s 0, wake_q s, r) | _ => (1, [], Sleeps) end)) in E.
  assert ((0, [(21, 0)], Returns 0) = (vals s' 0, wake_q s', r)) as Eq by (rewrite <- E; vm_compute; reflexivity).
  injection Eq as E1 E2 E3. rewrite <- E1, <- E2, <- E3. split; [reflexivity|]. split; [reflexivity|]. by left.
Defined.

(** C7: In every state a set can reach, every sleeping call has been given the
    result of its request, or its request is on a queue of the set and would
    block now: no wake-up is lost, although only the queues that a change can
    matter to are looked at, and scans end early. *)
Theorem no_request_forgotten y q :
  reachable y → q ∈ sleepers y →
  status (queues (st y) q) ≠ - EINTR ∨
  pending (sma (st y)) q ∧
  ∃ k, run_sops (sops (queues (st y) q)) 0 (vals (st y)) (undos (st y) (undo (queues (st y) q))) = Stopped (WouldBlock k).
Proof.
  intros Hy%sem_reachable_wf Hq. destruct (decide (status (queues (st y) q) = - EINTR)) as [Hst|Hst]; [right|by left].
  pose proof (wf_wait _ Hy q Hq Hst) as Hp. split; [done|]. apply quiet_blocked; [apply Hy|apply Hy|done].
Qed.

Lemma no_request_forgotten_witness :
  status (queues (st y3) 10) ≠ - EINTR ∨
  pending (sma (st y3)) 10 ∧
  ∃ k, run_sops (sops (queues (st y3) 10)) 0 (vals (st y3)) (undos (st y3) (undo (queues (st y3) 10))) = Stopped (WouldBlock k).
Proof. apply (no_request_forgotten y3 10); [exact y3_reachable|apply (bool_decide_unpack _); vm_compute; exact I]. Defined.

(** C16: In every state a set can reach, values are in 0..SEMVMX and adjustments
    fit a short, [complex_count] is the number of waiting requests of several
    operations, and while calls may take the lock of a single semaphore
    ([use_global_lock] is 0), the queues of the whole set are empty. *)
Theorem semaphore_set_invariant y :
  reachable y → let a := sma (st y) in
  (∀ i, 0 ≤ semval (sems a i) ≤ SEMVMX) ∧
  (∀ un i, -32768 ≤ undos (st y) un i ≤ 32767) ∧
  complex_count a = Z.of_nat (length (filter (λ q, 1 < nsops (queues (st y) q)) (sma_alter a ++ sma_const a))) ∧
  0 ≤ use_global_lock a ≤ USE_GLOBAL_LOCK_HYSTERESIS ∧
  (use_global_lock a = 0 → sma_alter a = [] ∧ sma_const a = []).
Proof.
  intros Hy%sem_reachable_wf a. destruct (wf_rest _ Hy) as [H _ Hs _]. pose proof (sh_count _ H) as Hc.
  split; [apply (sh_val _ H)|]. split; [apply (sh_adj _ H)|]. split; [|split; [apply (sh_lock _ H)|]].
  - subst a. rewrite Hc, list.filter_app, length_app. do 2 f_equal. symmetry. f_equal.
    apply (filter_all_length (λ q, complex (queues (st y) q))), list.Forall_forall. intros q Hq. by apply (sh_const _ H).
  - intros Hz. destruct (sh_lock _ H) as [_ Hl]. assert (complex_count a = 0) as Hc0.
    { destruct (decide (complex_count a = 0)) as [?|Hn]; [done|]. specialize (Hl Hn). subst a. lia. }
    split; [by apply Hs|]. subst a. rewrite Hc0 in Hc. destruct (sma_const (sma (st y))); [done|cbn in Hc; lia].
Qed.

Lemma semaphore_set_invariant_witness :
  complex_count (sma (st y3)) =
    Z.of_nat (length (filter (λ q, 1 < nsops (queues (st y3) q)) (sma_alter (sma (st y3)) ++ sma_const (sma (st y3))))).
Proof. exact (proj1 (proj2 (proj2 (semaphore_set_invariant y3 y3_reachable)))). Defined.

(** C19: When a process whose adjustments nobody shares exits, each adjustment it
    has in the set is added to its semaphore, limited to 0..SEMVMX, and the
    waiting requests that this allows are executed one after another and woken;
    the adjustments are forgotten. Without adjustments nothing changes. *)
Theorem exit_sem_correct fuel y un p :
  reachable y → (∀ q, q ∈ sleepers y → undo (queues (st y) q) ≠ un) → (length (sma_alter (sma (st y))) < fuel)%nat →
  ∃ s', exit_sem fuel (st y) un p = Ok s' ∧
    if decide (deleted (sma (st y)) = false ∧ un ∈ list_id (sma (st y))) then
      ∃ ev, progress (λ i, if decide (0 ≤ i < sem_nsems (sma (st y)))
                           then Z.min SEMVMX (Z.max 0 (vals (st y) i + undos (st y) un i)) else vals (st y) i)
              (undos (st y)) (st y) s' [] ev [] ∧
            list_id (sma s') = filter (λ x, x ≠ un) (list_id (sma (st y)))
    else vals s' = vals (st y) ∧ undos s' = undos (st y) ∧ queues s' = queues (st y) ∧ wake_q s' = wake_q (st y).
Proof.
  intros Hy%sem_reachable_wf Hun Hf. destruct (exit_sem_ok fuel (st y) un p (wf_rest _ Hy)) as (s' & E & _ & Hc); [|done|].
  { intros q Hq. by apply Hun, (wf_sleep _ Hy). }
  exists s'. split; [done|]. case_decide; [exact Hc|]. by destruct Hc as [? ? ? ? _ _ _ _].
Qed.

(** The exit of process 1 gives semaphore 0 back, and request 21 takes it. *)
Lemma exit_sem_correct_witness :
  ∃ s', exit_sem 5 (st z3) 1 100 = Ok s' ∧ vals s' 0 = 0 ∧ wake_q s' = [(21, 0)].
Proof.
  destruct (exit_sem_correct 5 z3 1 100) as (s' & E & _);
    [exact z3_reachable|intros q Hq|apply (bool_decide_unpack _); vm_compute; exact I|].
  - assert (sleepers z3 = [21]) as Es by (vm_compute; reflexivity). rewrite Es in Hq. apply list_elem_of_singleton in Hq as ->.
    vm_compute. discriminate.
  - exists s'. split; [exact E|]. apply (f_equal (λ o, match o with Ok s => (vals s 0, wake_q s) | _ => (1, []) end)) in E.
    assert ((0, [(21, 0)]) = (vals s' 0, wake_q s')) as Eq by (rewrite <- E; vm_compute; reflexivity).
    injection Eq as E1 E2. split; [exact (eq_sym E1)|exact (eq_sym E2)].
Defined.

(** C0: Removing a set wakes exactly the calls whose requests wait in it, each
    once and with the error EIDRM, and leaves nobody waiting; no value changes. *)
Theorem removed_set_wakes_all y :
  reachable y →
  ∃ l, NoDup l ∧ (∀ q, q ∈ l ↔ q ∈ sleepers y ∧ status (queues (st y) q) = - EINTR) ∧
    wake_q (freeary (st y)) = wake_q (st y) ++ ((λ q, (q, - EIDRM)) <$> l) ∧
    (∀ q, q ∈ sleepers y → status (queues (freeary (st y)) q) ≠ - EINTR) ∧
    (∀ q, status (queues (freeary (st y)) q) = if decide (q ∈ l) then - EIDRM else status (queues (st y) q)) ∧
    (∀ q, ¬ pending (sma (freeary (st y))) q) ∧ vals (freeary (st y)) = vals (st y) ∧ deleted (sma (freeary (st y))) = true.
Proof.
  intros Hy%sem_reachable_wf. destruct (freeary_ok (st y) (wf_rest _ Hy)) as (l & Hn & Hl & _ & Hd & Hp & Hv & _ & Hw & _ & _ & Hst).
  assert (∀ q, q ∈ l ↔ q ∈ sleepers y ∧ status (queues (st y) q) = - EINTR) as Hl'.
  { intros q. rewrite Hl. split; [intros Hq; split; [by apply (wf_sleep _ Hy)|]|intros [? ?]; by apply (wf_wait _ Hy)].
    apply (gq_status _ _ (sh_good _ (rs_shape _ (wf_rest _ Hy)) q Hq)). }
  exists l. do 3 (split; [done|]). split; [|done]. intros q Hq. rewrite Hst. case_decide as Hx; [done|]. rewrite Hl' in Hx. tauto.
Qed.

Lemma removed_set_wakes_all_witness : ∃ l, NoDup l ∧ 10 ∈ l ∧ wake_q (freeary (st y3)) = wake_q (st y3) ++ ((λ q, (q, - EIDRM)) <$> l).
Proof.
  destruct (removed_set_wakes_all y3 y3_reachable) as (l & Hn & Hl & Hw & _). exists l. split; [exact Hn|]. split; [|exact Hw].
  apply Hl. split; [apply (bool_decide_unpack _); vm_compute; exact I|vm_compute; reflexivity].
Defined.

(** ** Counting the waiting calls *)

(** C40: The count of the calls that wait for a semaphore to be zero is not that
    of the first operation that cannot proceed: request 10 waits until both
    semaphores are zero, and blocks on semaphore 0 now, but is counted for
    semaphore 1, on which it blocked when it was looked at last. *)
Theorem semzcnt_stale :
  ∃ y q, reachable y ∧ q ∈ sleepers y ∧ sem_num <$> sops (queues (st y) q) = [0; 1] ∧
    run_sops (sops (queues (st y) q)) 0 (vals (st y)) (undos (st y) (undo (queues (st y) q))) = Stopped (WouldBlock 0) ∧
    count_semcnt (st y) 0 true = 0 ∧ count_semcnt (st y) 1 true = 1.
Proof.
  exists y3, 10. split; [exact y3_reachable|]. split; [apply (bool_decide_unpack _); vm_compute; exact I|].
  split; [vm_compute; reflexivity|]. split; [vm_compute; reflexivity|]. split; vm_compute; reflexivity.
Qed.

End SysvSemTheorems.
